(* ===== verification/_CoqProject ===== *)
-Q . S2P
Prelude.v
VecSet.v
Domains.v
Types.v
Utils.v
Size.v
SparseVec.v
Operands.v
Objects.v
Function.v
FunctionFacts.v
Building.v
Lowering.v
NewObjs.v
Layouts.v
Dag.v
NDArray.v
MultiMap.v
Permutations.v
Orders.v
GenSets.v
Filters.v
FilterSemantics.v
TruthTable.v
Adapting.v
Instances.v
FlatFilters.v
Environments.v
Constraints.v
ConstraintFilters.v
Registering.v
Compiling.v
Generator.v
EnumDomains.v
SolverStore.v
LoopNests.v
PrintedFilters.v
TopSort.v
PropagationAst.v
Propagation.v
SolverFacts.v
SolverSteps.v
PropagationRuns.v
LoopRuns.v
FilterRuns.v
CallRuns.v
SolverSound.v
Float64.v
Config.v
Candidates.v
CandidateList.v
Stabilizer.v
Monitor.v
ParallelSearch.v
SearchExample.v
ParallelFacts.v
SearchResult.v
SearchProgress.v
Rollout.v
Evaluations.v
MctsPolicies.v
Mcts.v
MctsGuard.v
MctsInvariant.v
MctsWalk.v
MctsDescent.v
MctsSearch.v
MctsSession.v
Choices.v
ModelSizes.v
HwPressures.v
DependencyMap.v
LocalInfo.v
Levels.v
LevelFacts.v
CodePoints.v
LatencyModel.v
LatencyGraph.v
SpaceActions.v
SpaceFacts.v
