(* ===== verification/Prelude.v ===== *)
(** * Telamon: a verification library

    Telamon searches for fast implementations of tensor programs.  A kernel is written
    once with the _builder_ of an intermediate representation (src/src/ir) that leaves
    decisions open; the representation is then _frozen_ and _explored_: the solver narrows
    the domain of each decision (domains and filters are generated by telamon-gen, over a
    runtime in src/telamon-gen/src/print/runtime), and some decisions _lower_ the
    representation, that is activate objects that freezing reserved.  Every part is built
    on the containers of src/telamon-utils/src.

    ** The files and the code they model

    - [Prelude]: panics, results and machine integers, Rust's [Ord], the operations of
      [Vec] and [slice], and the generic lemmas.
    - [VecSet]: sets as sorted vectors (vec_set.rs).
    - [Domains]: the domains of the solver: bit sets over a universe (integer_set.rs), the
      trait that compares them (integer_domain.rs) and the ranges of the counters
      (range.rs).
    - [Types]: element types, errors, parameters and signature (types.rs, error.rs and the
      head of function.rs).
    - [Utils]: three-valued booleans and small helpers (lib.rs, iterator.rs).
    - [Size]: sizes known, and sizes with undecided dimensions (size.rs).
    - [SparseVec]: vectors with holes and the counter of the identifiers to come (mod.rs).
    - [Operands]: operands, dimension maps and lowering maps (operand.rs, dim_map.rs,
      access_pattern.rs).
    - [Objects]: operators, instructions, dimensions, mappings, induction variables,
      variables and memory blocks, with the operations that touch one object.
    - [Function]: the whole [Function] of function.rs, its builder and its exploration
      operations, composed of the operations of [Objects] as the code composes them.
    - [FunctionFacts]: the lemmas on these operations shared by the next files.
    - [Building]: the sequences of builder calls as a step relation, the invariant of the
      cross references, and freezing.
    - [Lowering]: the sequences of exploration operations and their invariant.
    - [NewObjs]: what a lowering reports to the search space (mod.rs).
    - [Layouts]: memory layouts, generated addresses and producing instructions.
    - [Dag], [NDArray], [MultiMap], [Permutations]: the remaining containers and iterators
      (dag.rs, ndarray.rs, multimap.rs, iterator.rs).
    - [Orders]: the derived orders of the standard library and the ordered maps that the
      constraint compiler uses.
    - [GenSets]: the sets of telamon-gen, their relations and their adaptation to other
      variables (telamon-gen/src/ir/set.rs, adaptator.rs).
    - [Filters]: the choices, value sets, conditions, rules, filters and actions of
      telamon-gen and the operations on them (telamon-gen/src/ir/filter.rs, choice.rs and
      the data of mod.rs).
    - [FilterSemantics]: the meaning of rules and filters in a world, and the exactness of
      the operations of [Filters].
    - [TruthTable]: the optimisation of rules into a filter (truth_table.rs).
    - [Adapting], [Instances]: what adapting conditions, value sets and rules to other
      variables and inputs means, and the worlds given by an interpretation of the choices
      and the sets.
    - [FlatFilters]: flat filters, their merge and their inverse (flat_filter.rs).
    - [Environments]: variables seen from a choice ([adapt_env] of ir/mod.rs).
    - [Constraints], [ConstraintFilters]: constraints and the flat filters made from them
      (constraint.rs and [ChoiceCondition::new] of choice.rs).
    - [Registering], [Compiling]: the registration of filters and of their calls
      (ir/mod.rs) and the passes of [process] (telamon-gen/src/lib.rs).
    - [Generator]: the theorems on the constraint compiler as a whole, with the
      transitivity of an order as an example.
    - [EnumDomains]: the enums printed for the solver, as bit masks with their operations
      (telamon-gen/src/print/mod.rs, template/enum_def.rs and inverse.rs).
    - [SolverStore]: the domains of the choices, the store with its accessors, the
      differences and the actions (store.rs, runtime/mod.rs, template/store.rs).
    - [LoopNests]: the loops over sets, their conflicts and the constraints on variables,
      as printed and as run; the host code of the sets is the class [Host] (ast.rs,
      template/loop_nest.rs and set_constraints.rs).
    - [PrintedFilters]: filters and value sets as printed and as run (filter.rs, value.rs,
      value_set.rs and their templates).
    - [TopSort]: the order in which the choices are initialised
      ([stable_topological_sort] of print/mod.rs).
    - [PropagationAst]: what is printed for a choice, a trigger and a description
      (print/choice.rs and mod.rs).
    - [Propagation]: the printed solver: what a change runs, and the loops that apply
      decisions and initialise the domain (template/main.rs and those it includes).
    - [SolverFacts], [SolverSteps]: the store as a lattice, and what the meaning of a
      fixed point asks; [PropagationRuns], [LoopRuns], [FilterRuns], [CallRuns]:
      each printed operation keeps a given solution; [SolverSound]: the whole propagation.
    - [Float64]: the operations on [f64] that the explorer uses, on the binary64 values of
      the Standard Library.
    - [Config]: the configuration of a search (config.rs).
    - [Candidates]: actions and candidates, and the choices of a candidate as a problem
      given by its interface [SearchSpaceOps] (candidate.rs, choice.rs).
    - [CandidateList]: the shared priority list of the parallel search (parallel_list.rs).
    - [Stabilizer], [Monitor]: the repeated evaluations of a candidate (context.rs) and
      the thread that keeps the best one and decides when to stop (monitor.rs).
    - [ParallelSearch]: the workers, the list and the monitor as a step relation
      (explorer/mod.rs); [SearchExample] is a small space, [ParallelFacts] the invariants,
      [SearchResult] the best candidate found and [SearchProgress] termination.
    - [Rollout]: random descents and exhaustive enumeration (local_selection.rs).
    - [Evaluations], [MctsPolicies]: the statistics of a node of the Monte-Carlo tree, and
      the policies that pick a child (mcts.rs).
    - [Mcts]: the tree as a store of nodes with their edges, and the operations of the
      search on it (mcts.rs, store.rs).
    - [MctsGuard]: the contract of a policy, the class [PolicyOk], and the search under a
      policy that may panic followed step by step beside the search under one that always
      answers; every policy of [MctsPolicies] is an instance.
    - [MctsInvariant], [MctsWalk], [MctsDescent], [MctsSearch]: the
      invariant of the tree and its preservation by each operation, from the update of a
      cut to a whole exploration; [MctsSession]: the calls of one worker as a step
      relation, and what they guarantee.
    - [Choices]: the sets, enums and choices that the search space of the kernels declares
      and that are read by the code below, as a description for the printed solver, and
      the class [ChoiceDomains] of the getters, which the printed store implements
      (src/src/search_space/*.exh).
    - [ModelSizes]: bounds and factors of sizes (src/src/model/size.rs).
    - [HwPressures]: bounds on the execution time, their explanation, and pressure on the
      hardware (model/hw_pressure.rs).
    - [DependencyMap]: the latencies between points of the program
      (model/dependency_map.rs).
    - [LocalInfo]: nesting, pressure and parallelism of each statement
      (model/local_info.rs); the device is the class [ModelContext].
    - [Levels]: the levels of the latency graph (model/level.rs); [LevelFacts] shows that
      their actions are in a topological order.
    - [CodePoints]: the points of the program and their order (model/code_point.rs).
    - [LatencyModel]: the bound of the performance model (model/mod.rs); [LatencyGraph] is
      what each step adds to the graph of latencies, the whole graph and its bound.
    - [SpaceActions]: the decisions that operands impose, the code that the triggers run
      and the operations of a search space, over the printed solver of [Propagation]
      (src/src/search_space/operand.rs, dim_map.rs, mod.rs); [SpaceFacts] says what these
      decisions mean.

    ** What is shown

    - References: [Building.builder_keeps_references],
      [Lowering.exploration_keeps_references], [Building.freeze_reserves_fresh_ids],
      [Operands.lowering_map_allocates_fresh] and [NewObjs.register_new_objs_complete]
      follow the identifiers of the representation through building, freezing and
      exploration.
    - Domains: the constructors and the lattice operations are exact (for [new_eq] from a
      range, up to one value above the range), the comparisons are sound against the
      contract of the trait (the class [NumSetOk], which each domain discharges, and
      [NumSetIntoOk] for the [is_neq] of bit sets, with less than 15 values), and the
      differences of counter ranges round-trip.
    - Sizes, layouts and addresses: the value of a product, row-major addresses, the
      moment a layout is reported ready.
    - Containers: [VecSet] and [MultiMap] refine sets and functions to lists; the unsafe
      blocks of [VecSet.vs_relative_difference], [Permutations.pp_advance],
      [Dag.move_nodes] and of the aliased views of [NDArray] stay in bounds and compute
      what their safe references do.
    - Constraint compiler: in every world, which gives the inputs of a filter their values
      and decides the host code and the membership in sets, the filter made from rules by
      [TruthTable.opt_rules] allows the values that the rules allow; the relations between
      sets are sound in every model of the definitions.  An interpretation gives the
      choices their values and the sets their objects: under it, the filters that
      [Registering.process_filters] attaches to the choices allow the current values
      exactly when all constraints hold ([Generator.process_filters_correct]), each pass
      is exact by itself, and a filter is called whenever one of its inputs changes or an
      object it quantifies over is added ([Generator.add_filter_registers_calls]).
    - Printed solver: the bits of an enum refine the sets of its values
      ([EnumDomains.printed_enum_refines_set]); the choices are ordered after those they
      depend on ([TopSort.topological_sort_correct]); and applying decisions returns,
      with the fuel given, and removes no assignment of the choices that the decisions
      and all constraints allow ([SolverSound.apply_decisions_sound]), for a description
      without counters whose filters are those of the constraint compiler.
    - Parallel search: the list never loses a candidate that could improve on the best
      one, the search stops, and the best candidate found is the best of the space unless
      a limit stopped it.
    - Rollouts: a descent with backtracking finds an implementation if there is one, and
      the calls of the exhaustive enumeration are the visit of the tree of candidates.
    - Monte-Carlo search: every candidate explored is an implementation of the space below
      the cut ([MctsSession.mcts_explore_sound]); when the search says that nothing is
      left, every implementation has been evaluated or is worse than the cut
      ([MctsSession.mcts_search_complete]); and committing an evaluation never fails
      ([MctsSession.mcts_commit_safe]).  The policies are only asked to honour [PolicyOk],
      which says nothing of the picks that panic (weighted sampling panics on an infinite
      bound, TAG on averages that cannot be compared): the first two theorems are about
      the explorations that return, and exploring returns whenever the policies answer on
      the children that they can be shown.
    - Performance model: the bounds and factors of a size hold for every value that its
      dimensions may take; the graph of code points is built on a comparison that does not
      depend on its side; the latencies of the levels are propagated in a topological
      order; the latencies reported are those of paths of dependencies, and the bound of
      a space is the greatest of such a latency, scaled, and of the throughput of the
      device.  The graph these paths are in is a fixed point ([LatencyGraph.latency_graph]):
      each node holds the dependencies of the program that it may account for and those
      that the repetition of a level makes from the final dependencies of the node of the
      level, or better ones, and no other.
    - Search space: the decisions imposed by the operands of an instruction leave exactly
      the orders, mappings and kinds under which the values it reads are ready
      ([SpaceFacts.inst_invariants_exact]), and when two dimensions are not mapped every
      operand that mapped them is lowered ([SpaceFacts.dim_not_mapped_lowers_all]).
    - Errors and bounds: where an operation panics or differs from its documentation, the
      property states on which inputs.

    ** Conventions

    - A panic is [None]; a [Result] that may also panic is an [outcome].  Reading memory
      that is not initialised, or outside a buffer, is a panic too.
    - Fixed-width integers are [Z] with the width written out; arithmetic follows the
      overflow profile ([debug_profile] panics, [release_profile] wraps).  [usize]
      quantities (lengths, positions) are [nat] and are not bounded: they count objects in
      memory.  Identifiers are [nat]; where the code casts a length to a 16- or 32-bit
      identifier the model wraps it, and the invariants assume that it fits.
    - A loop that is not structural has fuel.  The fuel is the number of turns that the
      measure of the loop allows (the sum of two lengths, the number of nodes or of cells,
      the identifier of a variable), and the property about the loop shows that the fuel
      given is enough, or that some fuel is.
      The loop of the propagation has one turn more than twice the values left in the
      store: each turn either takes a change, which removed a value, or stops.
    - A hash set or map is listed in the order of stdpp's [elements] or [map_to_list],
      since the code's own order is not specified; the properties that depend on an order
      state membership only.
    - The type parameter that marks a frozen function ([L]) is kept; the marker of a
      dimension carries no data and is not.
    - The device is the record of the calls that the representation makes to it.

    - Host code is a parameter: the strings that the description gives for the sets are
      the operations of the class [Host], what a trigger runs is an argument
      ([run_trigger]), the order of a hash map's entries is an argument ([first_key]), and
      [IndexMap::remove] is the operation of the class [KeyRemoval] with its documented
      law.  The device that the performance model asks is the class [ModelContext], the
      values of the parameters of a kernel the class [SizeContext], and gcd and lcm, of
      the num crate, the class [NumInteger] with their laws; the one of lcm, at a given
      width, only holds when the result fits the width.

    ** What is not modelled

    Printing, serialisation and strings; threads, channels and files of the explorer,
    whose interleavings are step relations; the lexer and parser of telamon-gen, whose
    grammar is compiled by a generator that is not in the repository; the backends,
    drivers and bindings, which print text and call compilers.  The incremental
    initialisation of the solver after a lowering (print/partial_init.rs) is a parameter
    of the propagation, since what it runs on is what a trigger returns; so is that of
    [SpaceActions.process_lowering].  Code generation
    (src/src/codegen), which prints a candidate whose decisions are all taken, is left out.
    So are the counters, quotients and constraints of the .exh files: the solver is proved
    for every description instead, and what is shown of a search space is about one set of
    decisions or one trigger, not about their composition with the solver. *)
From stdpp Require Export base numbers list sorting gmap sets strings.
From Stdlib Require Export ZArith Lia.
From Stdlib Require Import Sorting.Permutation.

Set Default Goal Selector "!".

(** ** Panics

    A Rust computation that may panic ([assert!], [unwrap!], an index out of
    range, ...) is an [option]: [None] is the panic.  stdpp's monadic notations
    ([x ← e; k]) sequence such computations. *)
Definition panic {A : Type} : option A := None.

Definition rassert (b : bool) : option unit := if b then Some tt else panic.

(** A [Result<T, E>]. *)
Inductive result (T E : Type) : Type :=
| ROk (v : T)
| RErr (e : E).
Arguments ROk {T E} v.
Arguments RErr {T E} e.

Definition is_ok {T E : Type} (r : result T E) : bool :=
  match r with ROk _ => true | RErr _ => false end.

(** ** Fallible computations

    A Rust function that returns a [Result] and may also panic.  The [?] operator is
    [let? x := e in k]. *)
Definition outcome (T E : Type) : Type := option (result T E).

Definition ok {T E : Type} (v : T) : outcome T E := Some (ROk v).

Definition err {T E : Type} (e : E) : outcome T E := Some (RErr e).

Definition obind {T U E : Type} (e : outcome T E) (k : T → outcome U E) : outcome U E :=
  match e with
  | Some (ROk v) => k v
  | Some (RErr x) => Some (RErr x)
  | None => None
  end.

Declare Scope rust_scope.
Delimit Scope rust_scope with rust.
Notation "'let?' x ':=' e 'in' k" := (obind e (λ x, k))
  (at level 200, x pattern, e at level 200, k at level 200, right associativity)
  : rust_scope.
Notation "'do?' e ';' k" := (obind e (λ _, k))
  (at level 200, e at level 100, k at level 200, right associativity) : rust_scope.
(** [let! x := e in k]: only the panic of [e] is passed on. *)
Notation "'let!' x ':=' e 'in' k" := (@mbind option option_bind _ _ (λ x, k) e)
  (at level 200, x pattern, e at level 200, k at level 200, right associativity)
  : rust_scope.
Open Scope rust_scope.

(** A [for] loop whose body may return an error. *)
Fixpoint otraverse {A E : Type} (f : A → outcome unit E) (l : list A) : outcome unit E :=
  match l with
  | [] => ok tt
  | x :: l => do? f x; otraverse f l
  end.

(** The value carried when both sides have the same type
    ([Result::unwrap_or_else(|x| x)]). *)
Definition merge_result {T : Type} (r : result T T) : T :=
  match r with ROk v => v | RErr v => v end.

(** ** Machine integers

    A [w]-bit unsigned integer is a [Z] in [0, 2^w).  Rust's arithmetic panics on
    overflow when overflow checks are on (debug and test profiles) and wraps when
    they are off (the release profile); the profile is a class argument. *)
Class Profile := overflow_checks : bool.

Definition debug_profile : Profile := true.
Definition release_profile : Profile := false.

Definition in_width (w a : Z) : bool := (0 <=? a)%Z && (a <? 2 ^ w)%Z.

Definition wrap (w a : Z) : Z := (a mod 2 ^ w)%Z.

Definition arith `{Profile} (w a : Z) : option Z :=
  if in_width w a then Some a
  else if overflow_checks then panic else Some (wrap w a).

Definition uadd `{Profile} (w a b : Z) : option Z := arith w (a + b).
Definition usub `{Profile} (w a b : Z) : option Z := arith w (a - b).
Definition umul `{Profile} (w a b : Z) : option Z := arith w (a * b).

(** Division panics on a zero divisor in every profile. *)
Definition udiv (a b : Z) : option Z :=
  if (b =? 0)%Z then panic else Some (a / b)%Z.

(** [a << n]: a shift by [w] or more panics with checks, and shifts by
    [n mod w] without. *)
Definition ushl `{Profile} (w a n : Z) : option Z :=
  if (n <? w)%Z then Some (wrap w (Z.shiftl a n))
  else if overflow_checks then panic else Some (wrap w (Z.shiftl a (n mod w))).

Definition sat_add (w a b : Z) : Z := Z.min (a + b) (2 ^ w - 1).
Definition sat_sub (a b : Z) : Z := Z.max 0 (a - b).
Definition sat_mul (w a b : Z) : Z := Z.min (a * b) (2 ^ w - 1).

Definition u32_max : Z := 2 ^ 32 - 1.

(** ** Rust's [Ord]

    The interface that the containers use: a decidable total order, consistent
    with equality (as every derived [Ord] is). *)
Class RustOrd (A : Type) := {
  rcmp : A → A → comparison;
  rcmp_eq : ∀ x y, rcmp x y = Eq ↔ x = y;
  rcmp_flip : ∀ x y, rcmp y x = CompOpp (rcmp x y);
  rcmp_trans : ∀ x y z, rcmp x y = Lt → rcmp y z = Lt → rcmp x z = Lt
}.

Definition rlt {A : Type} `{RustOrd A} (x y : A) : Prop := rcmp x y = Lt.

Definition rle {A : Type} `{RustOrd A} (x y : A) : Prop := rcmp x y ≠ Gt.

#[global] Instance rle_dec {A : Type} `{RustOrd A} (x y : A) : Decision (rle x y).
Proof. unfold rle. destruct (rcmp x y); [left|left|right]; congruence. Defined.

#[global] Instance rust_ord_eq_dec {A : Type} `{RustOrd A} : EqDecision A | 100.
Proof.
  intros x y. destruct (rcmp x y) eqn:E.
  - left. by apply rcmp_eq.
  - right. intros ->. pose proof (proj2 (rcmp_eq y y) eq_refl). congruence.
  - right. intros ->. pose proof (proj2 (rcmp_eq y y) eq_refl). congruence.
Defined.

(** A list sorted in strictly increasing order: no duplicate. *)
Definition strict_sorted {A : Type} `{RustOrd A} (l : list A) : Prop :=
  StronglySorted rlt l.

#[global, program] Instance nat_rust_ord : RustOrd nat := {| rcmp := Nat.compare |}.
Next Obligation. intros x y. apply Nat.compare_eq_iff. Qed.
Next Obligation. intros x y. apply Nat.compare_antisym. Qed.
Next Obligation. intros x y z. rewrite !Nat.compare_lt_iff. lia. Qed.

#[global, program] Instance Z_rust_ord : RustOrd Z := {| rcmp := Z.compare |}.
Next Obligation. intros x y. apply Z.compare_eq_iff. Qed.
Next Obligation. intros x y. apply Z.compare_antisym. Qed.
Next Obligation. intros x y z. rewrite !Z.compare_lt_iff. lia. Qed.

(** ** The standard library's binary search

    [slice::binary_search_by]: halving of [base, base + size) keeping the left
    half when the probe is [Greater]; the final probe decides [Ok] or [Err]. *)
Fixpoint binary_search_loop {A : Type} (fuel : nat) (f : A → comparison) (l : list A)
    (base size : nat) : nat :=
  match fuel with
  | O => base
  | S fuel =>
      if (1 <? size)%nat then
        let half := (size / 2)%nat in
        let mid := (base + half)%nat in
        match l !! mid with
        | Some x =>
            let base := match f x with Gt => base | _ => mid end in
            binary_search_loop fuel f l base (size - half)
        | None => base
        end
      else base
  end.

Definition binary_search_by {A : Type} (f : A → comparison) (l : list A)
  : result nat nat :=
  if (length l =? 0)%nat then RErr 0%nat else
  let base := binary_search_loop (length l) f l 0 (length l) in
  match l !! base with
  | Some x =>
      match f x with
      | Eq => ROk base
      | Lt => RErr (S base)
      | Gt => RErr base
      end
  | None => RErr base
  end.

Definition binary_search {A : Type} `{RustOrd A} (l : list A) (x : A) : result nat nat :=
  binary_search_by (λ y, rcmp y x) l.

(** [Vec::insert], on a position at most the length. *)
Definition vec_insert {A : Type} (i : nat) (x : A) (l : list A) : option (list A) :=
  if (i <=? length l)%nat then Some (take i l ++ x :: drop i l) else panic.

(** [Vec::remove]: the element and what is left. *)
Definition vec_remove {A : Type} (i : nat) (l : list A) : option (A * list A) :=
  x ← l !! i; Some (x, take i l ++ drop (S i) l).

(** [Vec::swap_remove]: the last element takes the place of the removed one. *)
Definition vec_swap_remove {A : Type} (i : nat) (l : list A) : option (A * list A) :=
  x ← l !! i;
  y ← last l;
  Some (x, take (pred (length l)) (<[i:=y]> l)).

(** [slice::sort] is stable; [Vec::dedup] drops consecutive equal elements. *)
Definition rsort {A : Type} `{RustOrd A} (l : list A) : list A := merge_sort rle l.

Fixpoint rdedup {A : Type} `{EqDecision A} (l : list A) : list A :=
  match l with
  | x :: (y :: _) as l' => if decide (x = y) then rdedup l' else x :: rdedup l'
  | _ => l
  end.

(** Monadic folds over a list, and the state machines' reachability. *)
Fixpoint foldM {A S : Type} (f : S → A → option S) (l : list A) (s : S) : option S :=
  match l with
  | [] => Some s
  | x :: l => s' ← f s x; foldM f l s'
  end.

(** [iter().enumerate()]. *)
Definition enumerate {A : Type} (l : list A) : list (nat * A) := zip (seq 0 (length l)) l.

(** [zip_eq] panics on iterators of different lengths. *)
Definition zip_eq {A B : Type} (l : list A) (k : list B) : option (list (A * B)) :=
  if (length l =? length k)%nat then Some (zip l k) else panic.

Definition fold1 {A : Type} (f : A → A → A) (l : list A) : option A :=
  match l with
  | [] => None
  | x :: l => Some (fold_left f l x)
  end.

Inductive star {S : Type} (R : S → S → Prop) : S → S → Prop :=
| star_refl s : star R s s
| star_step s s' s'' : R s s' → star R s' s'' → star R s s''.

(** * Theorems *)

(** ** Orders *)

Ltac rcases x y :=
  let E := fresh "Ec" in
  destruct (rcmp x y) eqn:E;
  [apply rcmp_eq in E; subst| |].

Section order.
Context {A : Type} `{RustOrd A}.
Implicit Types (x y z : A) (l : list A).

Lemma rcmp_refl x : rcmp x x = Eq.
Proof. by apply rcmp_eq. Qed.

Lemma rcmp_gt_lt x y : rcmp x y = Gt ↔ rlt y x.
Proof. unfold rlt. rewrite (rcmp_flip x y). by destruct (rcmp x y). Qed.

Lemma rlt_irrefl x : ¬ rlt x x.
Proof. unfold rlt. rewrite rcmp_refl. congruence. Qed.

Lemma rlt_asym x y : rlt x y → ¬ rlt y x.
Proof. intros H1 H2. apply (rlt_irrefl x). by apply (rcmp_trans x y x). Qed.

Lemma rle_lt_eq x y : rle x y ↔ rlt x y ∨ x = y.
Proof.
  unfold rle, rlt. rewrite <-(rcmp_eq x y).
  destruct (rcmp x y); naive_solver congruence.
Qed.

#[global] Instance rlt_transitive : Transitive (rlt (A:=A)).
Proof. intros x y z. apply rcmp_trans. Qed.

#[global] Instance rle_transitive : Transitive (rle (A:=A)).
Proof.
  intros x y z. rewrite !rle_lt_eq. intros [?| ->] [?| ->]; eauto.
  left. by transitivity y.
Qed.

#[global] Instance rle_total : Total (rle (A:=A)).
Proof.
  intros x y. rewrite !rle_lt_eq. rcases x y; eauto.
  right. left. by apply rcmp_gt_lt.
Qed.

#[global] Instance rle_antisym : AntiSymm (=) (rle (A:=A)).
Proof.
  intros x y. rewrite !rle_lt_eq. intros [?| ->] [?|?]; eauto.
  exfalso. by eapply rlt_asym.
Qed.

Lemma rlt_le x y : rlt x y → rle x y.
Proof. rewrite rle_lt_eq. eauto. Qed.
End order.

#[global] Hint Resolve rlt_le : core.

Lemma rlt_Z (x y : Z) : rlt x y ↔ (x < y)%Z.
Proof. apply Z.compare_lt_iff. Qed.

Lemma rlt_nat (x y : nat) : rlt x y ↔ (x < y)%nat.
Proof. apply Nat.compare_lt_iff. Qed.

(** ** Strictly sorted lists *)

Section strict_sorted.
Context {A : Type} `{RustOrd A}.
Implicit Types (x y z : A) (l k : list A).

Lemma strict_sorted_nil : strict_sorted [].
Proof. constructor. Qed.

Lemma strict_sorted_cons x l :
  strict_sorted (x :: l) ↔ Forall (rlt x) l ∧ strict_sorted l.
Proof.
  split.
  - intros Hs. inversion Hs; subst. done.
  - intros [??]. by constructor.
Qed.

Lemma strict_sorted_app l k :
  strict_sorted (l ++ k) ↔
  strict_sorted l ∧ strict_sorted k ∧ (∀ x y, x ∈ l → y ∈ k → rlt x y).
Proof.
  induction l as [|a l IH]; simpl.
  - split; [|naive_solver].
    intros Hk. split_and!; [apply strict_sorted_nil|done|set_solver].
  - rewrite !strict_sorted_cons, IH, Forall_app, !Forall_forall.
    split; [|naive_solver (set_solver)].
    intros [[H1 H2] [H3 [H4 H5]]]. split_and!; try done.
    intros x y Hx Hy. apply elem_of_cons in Hx as [->|Hx]; eauto.
Qed.

Lemma strict_sorted_NoDup l : strict_sorted l → NoDup l.
Proof.
  induction l as [|x l IH]; [constructor|].
  rewrite strict_sorted_cons, Forall_forall. intros [Hx Hl].
  constructor; [|by apply IH]. intros Hin. by apply (rlt_irrefl x), Hx.
Qed.

(** Strictly sorted lists are canonical: the elements determine the list. *)
Lemma strict_sorted_ext l k :
  strict_sorted l → strict_sorted k → (∀ x, x ∈ l ↔ x ∈ k) → l = k.
Proof.
  revert k. induction l as [|x l IH]; intros [|y k] Hl Hk Heq.
  - done.
  - exfalso. apply (not_elem_of_nil y), Heq. left.
  - exfalso. apply (not_elem_of_nil x), Heq. left.
  - apply strict_sorted_cons in Hl as [Hx Hl], Hk as [Hy Hk].
    rewrite Forall_forall in Hx, Hy.
    assert (x = y) as ->.
    { assert (x ∈ y :: k) as [?|Hxk]%elem_of_cons by (apply Heq; left); [done|].
      assert (y ∈ x :: l) as [?|Hyl]%elem_of_cons by (apply Heq; left); [done|].
      exfalso. apply (rlt_asym x y); eauto. }
    f_equal. apply IH; try done. intros z. split; intros Hz.
    + assert (z ∈ y :: k) as [->|?]%elem_of_cons by (apply Heq; by right); [|done].
      exfalso. by eapply rlt_irrefl, Hx.
    + assert (z ∈ y :: l) as [->|?]%elem_of_cons by (apply Heq; by right); [|done].
      exfalso. by eapply rlt_irrefl, Hy.
Qed.

Lemma strict_sorted_filter (P : A → Prop) `{∀ x, Decision (P x)} l :
  strict_sorted l → strict_sorted (filter P l).
Proof.
  induction l as [|x l IH]; [done|].
  rewrite strict_sorted_cons. intros [Hx Hl]. rewrite filter_cons.
  case_decide; [|by apply IH]. apply strict_sorted_cons. split; [|by apply IH].
  rewrite Forall_forall in Hx |- *. intros y [? ?]%list_elem_of_filter. by apply Hx.
Qed.

Lemma strict_sorted_lookup l i j x y :
  strict_sorted l → l !! i = Some x → l !! j = Some y → (i < j)%nat → rlt x y.
Proof.
  revert i j. induction l as [|a l IH]; intros i j Hl Hi Hj Hij; [done|].
  apply strict_sorted_cons in Hl as [Ha Hl]. rewrite Forall_forall in Ha.
  destruct j as [|j]; [lia|]. simpl in Hj. destruct i as [|i]; simpl in Hi.
  - simplify_eq. apply Ha. by apply list_elem_of_lookup_2 in Hj.
  - apply (IH i j); auto. lia.
Qed.

Lemma rsort_sorted l : StronglySorted rle (rsort l).
Proof. apply Sorted_StronglySorted; [apply _|]. apply Sorted_merge_sort, _. Qed.

Lemma rsort_perm l : rsort l ≡ₚ l.
Proof. apply merge_sort_Permutation. Qed.

Lemma elem_of_rdedup (x : A) l : x ∈ rdedup l ↔ x ∈ l.
Proof.
  induction l as [|a [|b l] IH]; [done|done|].
  change (rdedup (a :: b :: l))
    with (if decide (a = b) then rdedup (b :: l) else a :: rdedup (b :: l)).
  case_decide as E.
  - subst. rewrite IH. set_solver.
  - rewrite !(elem_of_cons _ x a), IH. done.
Qed.

Lemma rdedup_sorted l : StronglySorted rle l → strict_sorted (rdedup l).
Proof.
  induction l as [|a [|b l] IH]; intros Hs.
  - constructor.
  - by repeat constructor.
  - inversion Hs as [|?? Hbl Hab]; subst.
    change (rdedup (a :: b :: l))
      with (if decide (a = b) then rdedup (b :: l) else a :: rdedup (b :: l)).
    case_decide as E; [by apply IH|].
    apply strict_sorted_cons. split; [|by apply IH].
    apply Forall_forall. intros z Hz. apply (proj1 (elem_of_rdedup _ _)) in Hz.
    rewrite Forall_forall in Hab.
    assert (rlt a b) as Hlt.
    { pose proof (Hab b ltac:(left)) as [?|?]%rle_lt_eq; congruence. }
    apply elem_of_cons in Hz as [->|Hz]; [done|].
    inversion Hbl as [|?? _ Hb]; subst. rewrite Forall_forall in Hb.
    specialize (Hb z Hz) as [?| <-]%rle_lt_eq; [|done]. by transitivity b.
Qed.
End strict_sorted.

#[global] Hint Resolve strict_sorted_nil strict_sorted_filter : core.

(** ** Binary search *)

(** [f] is monotone along [l] for [Lt < Eq < Gt]. *)
Definition cmp_monotone {A : Type} (f : A → comparison) (l : list A) : Prop :=
  ∀ i j x y, (i < j)%nat → l !! i = Some x → l !! j = Some y →
    (f y = Lt → f x = Lt) ∧ (f x = Gt → f y = Gt).

Section binary_search.
Context {A : Type} (f : A → comparison) (l : list A).
Hypothesis mono : cmp_monotone f l.

(** What holds of the window [base, base + size) at each turn of the loop. *)
Definition bs_inv (base size : nat) : Prop :=
  (0 < size)%nat ∧ (base + size ≤ length l)%nat ∧
  (∀ j x, (j < base)%nat → l !! j = Some x → f x ≠ Gt) ∧
  (base ≠ 0%nat → ∀ x, l !! base = Some x → f x ≠ Gt) ∧
  (∀ j x, (base + size ≤ j)%nat → l !! j = Some x → f x = Gt).

Lemma binary_search_loop_inv fuel base size :
  (size ≤ fuel)%nat → bs_inv base size →
  bs_inv (binary_search_loop fuel f l base size) 1.
Proof.
  revert base size. induction fuel as [|fuel IH]; intros base size Hf Hinv.
  { destruct Hinv; lia. }
  cbn [binary_search_loop]. destruct (Nat.ltb_spec 1 size) as [Hs|Hs]; cycle 1.
  { destruct Hinv as (? & ? & ? & ? & ?). assert (size = 1%nat) as -> by lia.
    by split_and!. }
  destruct Hinv as (_ & Hlen & Hlo & Hb & Hhi).
  assert (0 < size / 2 < size)%nat as Hhalf.
  { split; [apply Nat.div_str_pos; lia|apply Nat.div_lt; lia]. }
  assert (2 * (size / 2) ≤ size)%nat as Htwice by apply Nat.Div0.mul_div_le.
  destruct (lookup_lt_is_Some_2 l (base + size / 2)) as [m Hm]; [lia|].
  rewrite Hm. apply IH; [lia|].
  destruct (f m) eqn:Em; split_and!; try lia; try done.
  - intros j x Hj Hx E. destruct (mono j _ x m Hj Hx Hm) as [_ Hg].
    rewrite (Hg E) in Em. done.
  - intros _ x Hx. simplify_eq. congruence.
  - intros j x Hj. apply Hhi. lia.
  - intros j x Hj Hx E. destruct (mono j _ x m Hj Hx Hm) as [_ Hg].
    rewrite (Hg E) in Em. done.
  - intros _ x Hx. simplify_eq. congruence.
  - intros j x Hj. apply Hhi. lia.
  - intros j x Hj Hx. destruct (decide (j = base + size / 2)%nat) as [->|Hne];
      [by simplify_eq|].
    destruct (decide (base + size ≤ j)%nat); [by apply (Hhi j)|].
    eapply (proj2 (mono (base + size / 2) j m x ltac:(lia) Hm Hx)). done.
Qed.

(** [Ok i] points at an equal element; [Err i] splits the slice between the
    elements that are [Less] and those that are [Greater]. *)
Lemma binary_search_by_spec :
  match binary_search_by f l with
  | ROk i => ∃ x, l !! i = Some x ∧ f x = Eq
  | RErr i =>
      (i ≤ length l)%nat ∧
      (∀ j x, (j < i)%nat → l !! j = Some x → f x = Lt) ∧
      (∀ j x, (i ≤ j)%nat → l !! j = Some x → f x = Gt)
  end.
Proof.
  unfold binary_search_by. destruct (Nat.eqb_spec (length l) 0) as [E|E].
  { destruct l; [|done]. simpl. split_and!; [lia|done|done]. }
  assert (bs_inv 0 (length l)) as Hi.
  { split_and!; try lia; try done. intros j x Hj Hx.
    apply lookup_lt_Some in Hx. lia. }
  apply (binary_search_loop_inv (length l)) in Hi; [|lia].
  set (b := binary_search_loop _ _ _ _ _) in *.
  destruct Hi as (_ & Hlen & Hlo & Hb & Hhi).
  destruct (lookup_lt_is_Some_2 l b) as [x Hx]; [lia|].
  rewrite Hx. destruct (f x) eqn:Ex.
  - eauto.
  - split_and!; [lia| |].
    + intros j y Hj Hy. destruct (decide (j = b)) as [->|]; [by simplify_eq|].
      eapply (proj1 (mono j b y x ltac:(lia) Hy Hx)). done.
    + intros j y Hj. apply Hhi. lia.
  - assert (b = 0%nat) as Hb0.
    { destruct (decide (b = 0%nat)); [done|]. exfalso. by apply (Hb n x). }
    split_and!; [lia| |].
    + intros j y Hj. lia.
    + intros j y Hj Hy. destruct (decide (j = b)) as [->|]; [by simplify_eq|].
      eapply (proj2 (mono b j x y ltac:(lia) Hx Hy)). done.
Qed.
End binary_search.

Lemma cmp_monotone_sorted {A : Type} `{RustOrd A} (l : list A) (x : A) :
  strict_sorted l → cmp_monotone (λ y, rcmp y x) l.
Proof.
  intros Hs i j y z Hij Hy Hz.
  assert (rlt y z) as Hlt by by eapply strict_sorted_lookup.
  split; intros E.
  - by apply (rcmp_trans y z x).
  - apply rcmp_gt_lt in E. apply rcmp_gt_lt. by apply (rcmp_trans x y z).
Qed.

(** On a strictly sorted vector the search decides membership and an [Err]
    position is where the element belongs. *)
Lemma binary_search_spec {A : Type} `{RustOrd A} (l : list A) (x : A) :
  strict_sorted l →
  match binary_search l x with
  | ROk i => l !! i = Some x
  | RErr i =>
      (i ≤ length l)%nat ∧
      (∀ y, y ∈ take i l → rlt y x) ∧ (∀ y, y ∈ drop i l → rlt x y)
  end.
Proof.
  intros Hs. pose proof (binary_search_by_spec _ l (cmp_monotone_sorted l x Hs)) as Hb.
  unfold binary_search. destruct (binary_search_by _ l) as [i|i].
  - destruct Hb as (y & Hy & ->%rcmp_eq). done.
  - destruct Hb as (Hle & Hlo & Hhi). split_and!; [done| |].
    + intros y Hy. apply list_elem_of_lookup_1 in Hy as [j Hj].
      apply lookup_take_Some in Hj as [Hj ?]. by apply (Hlo j).
    + intros y Hy. apply list_elem_of_lookup_1 in Hy as [j Hj].
      rewrite lookup_drop in Hj. apply rcmp_gt_lt.
      apply (Hhi (i + j)%nat); [lia|done].
Qed.

Lemma binary_search_not_in {A : Type} `{RustOrd A} (l : list A) (x : A) :
  strict_sorted l → x ∉ l ↔ ∃ i, binary_search l x = RErr i.
Proof.
  intros Hs. pose proof (binary_search_spec l x Hs) as Hb.
  destruct (binary_search l x) as [i|i].
  - split; [|intros [? ?]; done]. intros []. by eapply list_elem_of_lookup_2.
  - split; [eauto|]. intros _ Hin. destruct Hb as (_ & Hlo & Hhi).
    rewrite <-(take_drop i l) in Hin. apply elem_of_app in Hin as [?|?].
    + by eapply rlt_irrefl, Hlo.
    + by eapply rlt_irrefl, Hhi.
Qed.

(** ** Machine integers *)

Lemma in_width_spec w a : in_width w a = true ↔ (0 ≤ a < 2 ^ w)%Z.
Proof. unfold in_width. rewrite andb_true_iff, Z.leb_le, Z.ltb_lt. done. Qed.

Lemma arith_ok `{Profile} w a : (0 ≤ a < 2 ^ w)%Z → arith w a = Some a.
Proof. intros Ha. unfold arith. by rewrite (proj2 (in_width_spec w a) Ha). Qed.

Lemma uadd_ok `{Profile} w a b : (0 ≤ a + b < 2 ^ w)%Z → uadd w a b = Some (a + b)%Z.
Proof. apply arith_ok. Qed.

Lemma usub_ok `{Profile} w a b : (0 ≤ a - b < 2 ^ w)%Z → usub w a b = Some (a - b)%Z.
Proof. apply arith_ok. Qed.

Lemma umul_ok `{Profile} w a b : (0 ≤ a * b < 2 ^ w)%Z → umul w a b = Some (a * b)%Z.
Proof. apply arith_ok. Qed.

Lemma arith_checked w a b :
  @arith debug_profile w a = Some b ↔ a = b ∧ (0 ≤ a < 2 ^ w)%Z.
Proof.
  unfold arith. destruct (in_width w a) eqn:E.
  - apply in_width_spec in E. naive_solver.
  - split; [done|]. intros [-> Hr]. apply in_width_spec in Hr. congruence.
Qed.

(** ** Lists *)

Lemma foldM_app {A S : Type} (f : S → A → option S) l k s :
  foldM f (l ++ k) s = (s' ← foldM f l s; foldM f k s').
Proof.
  revert s. induction l as [|x l IH]; intros s; simpl; [done|].
  destruct (f s x); simpl; [apply IH|done].
Qed.

(** An invariant kept by the body holds after the loop. *)
Lemma foldM_inv {A S : Type} (P : S → Prop) (f : S → A → option S) l s s' :
  (∀ s x s', x ∈ l → P s → f s x = Some s' → P s') →
  P s → foldM f l s = Some s' → P s'.
Proof.
  revert s. induction l as [|x l IH]; intros s Hf Hs; simpl.
  - intros [= <-]. done.
  - destruct (f s x) as [s1|] eqn:E; [|done]. simpl. apply IH.
    + intros a y a' Hy. apply Hf. by right.
    + by apply (Hf s x s1); [left| |].
Qed.

Lemma star_inv {S : Type} (R : S → S → Prop) (P : S → Prop) s s' :
  (∀ a b, P a → R a b → P b) → star R s s' → P s → P s'.
Proof. intros HP. induction 1; eauto. Qed.

Lemma star_trans {S : Type} (R : S → S → Prop) a b c :
  star R a b → star R b c → star R a c.
Proof. induction 1; eauto using star. Qed.

Lemma Forall2_rev {A B : Type} (P : A → B → Prop) l k :
  Forall2 P l k → Forall2 P (rev l) (rev k).
Proof. induction 1; cbn; [constructor|]. by apply Forall2_app; [|repeat constructor]. Qed.

Section filter.
Context {A : Type} (P Q : A → Prop) `{∀ x, Decision (P x)} `{∀ x, Decision (Q x)}.
Implicit Types l : list A.

Lemma filter_iff_in l : (∀ x, x ∈ l → (P x ↔ Q x)) → filter P l = filter Q l.
Proof.
  induction l as [|x l IH]; intros Heq; [done|]. rewrite !filter_cons, IH.
  - assert (P x ↔ Q x) by (apply Heq; left).
    repeat case_decide; naive_solver.
  - intros y Hy. apply Heq. by right.
Qed.

Lemma filter_all l : (∀ x, x ∈ l → P x) → filter P l = l.
Proof.
  induction l as [|x l IH]; intros Hl; [done|].
  rewrite filter_cons_True by (apply Hl; left). f_equal. apply IH.
  intros y Hy. apply Hl. by right.
Qed.

Lemma filter_none l : (∀ x, x ∈ l → ¬ P x) → filter P l = [].
Proof.
  induction l as [|x l IH]; intros Hl; [done|].
  rewrite filter_cons_False by (apply Hl; left). apply IH.
  intros y Hy. apply Hl. by right.
Qed.
End filter.

(** [mapM] on a function that does not fail on the list. *)
Lemma mapM_elem {A B : Type} (f : A → option B) l k : mapM f l = Some k →
  (∀ x, x ∈ l → ∃ y, f x = Some y ∧ y ∈ k) ∧ (∀ y, y ∈ k → ∃ x, x ∈ l ∧ f x = Some y).
Proof.
  intros Hm%mapM_Some. split.
  - intros x [i Hi]%list_elem_of_lookup. destruct (Forall2_lookup_l _ _ _ _ _ Hm Hi) as (y & Hy & Hf).
    exists y. split; [done|]. by eapply list_elem_of_lookup_2.
  - intros y [i Hi]%list_elem_of_lookup. destruct (Forall2_lookup_r _ _ _ _ _ Hm Hi) as (x & Hx & Hf).
    exists x. split; [|done]. by eapply list_elem_of_lookup_2.
Qed.

Lemma elem_of_list_prod {A B : Type} (l : list A) (k : list B) a b : (a, b) ∈ list_prod l k ↔ a ∈ l ∧ b ∈ k.
Proof. rewrite !list_elem_of_In. apply in_prod_iff. Qed.

Lemma mapM_total {A B : Type} (f : A → option B) (g : A → B) l :
  (∀ x, x ∈ l → f x = Some (g x)) → mapM f l = Some (g <$> l).
Proof.
  intros H. apply mapM_Some, Forall2_fmap_r, Forall_Forall2_diag, Forall_forall, H.
Qed.

Lemma mapM_compose {A B C : Type} (f : B → option C) (g : A → B) l :
  mapM (λ x, f (g x)) l = mapM f (g <$> l).
Proof. induction l as [|x l IH]; [done|]. rewrite fmap_cons. cbn. by rewrite IH. Qed.

Lemma mapM_ext_in {A B : Type} (f g : A → option B) l :
  (∀ x, x ∈ l → f x = g x) → mapM f l = mapM g l.
Proof. intros H. apply Forall2_mapM_ext, Forall_Forall2_diag, Forall_forall, H. Qed.

(** A loop on [iter().enumerate()]: an invariant indexed by the number of turns. *)
Lemma foldM_enumerate_inv {A B : Type} (P : nat → B → Prop) (f : B → nat * A → option B)
    (l : list A) (s : B) :
  P 0%nat s →
  (∀ k x s, l !! k = Some x → P k s → ∃ s', f s (k, x) = Some s' ∧ P (S k) s') →
  ∃ s', foldM f (enumerate l) s = Some s' ∧ P (length l) s'.
Proof.
  intros H0 Hstep. unfold enumerate. cut (∀ m a, (∀ k x s, l !! k = Some x → P (a + k)%nat s →
      ∃ s', f s ((a + k)%nat, x) = Some s' ∧ P (S (a + k)) s') → P a m →
    ∃ s', foldM f (zip (seq a (length l)) l) m = Some s' ∧ P (a + length l)%nat s').
  { intros H. apply (H s 0%nat); [|done]. intros k. apply Hstep. }
  clear. induction l as [|x l IH]; intros m a Hstep Hm; cbn [length seq zip zip_with foldM].
  { exists m. by rewrite Nat.add_0_r. }
  destruct (Hstep 0%nat x m) as (m' & Hf & Hm'); [done|by rewrite Nat.add_0_r|].
  rewrite Nat.add_0_r in Hf, Hm'. rewrite Hf. cbn [mbind option_bind].
  rewrite Nat.add_succ_r. apply (IH m' (S a)); [|done]. intros k y s Hk.
  specialize (Hstep (S k) y s Hk). by rewrite Nat.add_succ_r in Hstep.
Qed.

Lemma StronglySorted_filter {A : Type} (R : A → A → Prop) (P : A → Prop)
    `{∀ x, Decision (P x)} l :
  StronglySorted R l → StronglySorted R (filter P l).
Proof.
  induction 1 as [|x l Hl IH Hx]; [constructor|]. rewrite filter_cons.
  destruct (decide (P x)); [|done]. constructor; [done|].
  rewrite Forall_forall in *. intros y [_ Hy]%list_elem_of_filter. auto.
Qed.

Lemma StronglySorted_lookup {A : Type} (R : A → A → Prop) l i j x y :
  StronglySorted R l → l !! i = Some x → l !! j = Some y → (i < j)%nat → R x y.
Proof.
  intros Hl. revert i j. induction Hl as [|a l Hl IH Ha]; intros i j Hi Hj Hij; [done|].
  destruct j as [|j]; [lia|]. destruct i as [|i]; cbn in Hi, Hj.
  - injection Hi as ->. rewrite Forall_forall in Ha. by eapply Ha, list_elem_of_lookup_2.
  - eapply IH; eauto; lia.
Qed.

(** ** Updating one element *)
Lemma sum_list_with_insert {A : Type} (f : A → nat) (l : list A) i x y :
  l !! i = Some x → sum_list_with f (<[i := y]> l) + f x = sum_list_with f l + f y.
Proof.
  revert i. induction l as [|z l IH]; intros [|i] Hi; try done.
  - injection Hi as ->. change (f y + sum_list_with f l + f x = f x + sum_list_with f l + f y). lia.
  - specialize (IH i Hi).
    change (f z + sum_list_with f (<[i := y]> l) + f x = f z + sum_list_with f l + f y). lia.
Qed.

Lemma omap_insert_perm {A B : Type} (f : A → option B) (l : list A) i x y :
  l !! i = Some x → option_list (f x) ++ omap f (<[i := y]> l) ≡ₚ option_list (f y) ++ omap f l.
Proof.
  revert i. induction l as [|z l IH]; intros [|i] Hi; try done.
  - injection Hi as ->. change (option_list (f x) ++ omap f (y :: l) ≡ₚ option_list (f y) ++ omap f (x :: l)).
    cbn. destruct (f x), (f y); cbn; try done. apply perm_swap.
  - specialize (IH i Hi). change (option_list (f x) ++ omap f (z :: <[i := y]> l) ≡ₚ option_list (f y) ++ omap f (z :: l)).
    cbn. destruct (f z) as [b|]; [|done]. rewrite <-!Permutation_middle. by rewrite IH.
Qed.

Lemma elem_of_insert {A : Type} (l : list A) i x y : y ∈ <[i := x]> l → y = x ∨ y ∈ l.
Proof.
  intros (j & Hj)%list_elem_of_lookup. destruct (decide (i = j)) as [->|Hne].
  - apply list_lookup_insert_Some in Hj as [(_ & -> & _)|(_ & Hj)]; [by left|right; by eapply list_elem_of_lookup_2].
  - rewrite list_lookup_insert_ne in Hj by done. right. by eapply list_elem_of_lookup_2.
Qed.

(** ** Sums *)
Lemma sum_list_with_le {A : Type} (f g : A → nat) (l : list A) :
  (∀ x, f x ≤ g x) → sum_list_with f l ≤ sum_list_with g l.
Proof. intros Hfg. induction l as [|x l IH]; [done|]. cbn. specialize (Hfg x). lia. Qed.

Lemma sum_list_with_bounded {A : Type} (f : A → nat) (k : nat) (l : list A) :
  (∀ x, f x ≤ k) → sum_list_with f l ≤ k * length l.
Proof. intros Hf. induction l as [|x l IH]; [cbn; lia|]. cbn. specialize (Hf x). lia. Qed.

Lemma sum_list_with_filter {A : Type} (f : A → nat) (P : A → Prop) `{∀ x, Decision (P x)} (l : list A) :
  sum_list_with f (filter P l) ≤ sum_list_with f l.
Proof. induction l as [|x l IH]; [done|]. rewrite filter_cons. case_decide; cbn; lia. Qed.

#[export] Instance sum_list_with_perm {A : Type} (f : A → nat) : Proper ((≡ₚ) ==> eq) (sum_list_with f).
Proof. intros l k Hlk. induction Hlk; cbn; lia. Qed.

Lemma sum_list_with_ext {A : Type} (f g : A → nat) l : (∀ x, x ∈ l → f x = g x) → sum_list_with f l = sum_list_with g l.
Proof.
  induction l as [|x l IH]; intros Hfg; [done|]. cbn. rewrite (Hfg x) by (by left). f_equal. apply IH. intros y Hy. apply Hfg. by right.
Qed.

Lemma sum_imap {A B : Type} (g : B → nat) (h : A → nat) (f : nat → A → B) (l : list A) :
  (∀ i a, g (f i a) = h a) → sum_list_with g (imap f l) = sum_list_with h l.
Proof.
  revert f. induction l as [|a l IH]; intros f Hf; [done|]. rewrite imap_cons. cbn. rewrite Hf. f_equal.
  apply IH. intros i b. apply Hf.
Qed.
