(* ===== verification/VecSet.v ===== *)
(** * Ordered-vector sets (telamon-utils/src/vec_set.rs)

    A [VecSet<T>] is its only field, the vector [data]; [strict_sorted data] is its
    invariant.  A cursor into a vector is represented by the elements it has not
    passed yet, except in [relative_difference], whose unsafe code works in place:
    there the buffers, indices and copies are modelled as they are. *)
From S2P Require Import Prelude.

Section vec_set.
Context {A : Type} `{RustOrd A}.
Implicit Types (l r data : list A) (x y item : A).

Definition vs_new (data : list A) : list A := rdedup (rsort data).

Definition vs_is_empty (data : list A) : bool :=
  match data with [] => true | _ => false end.

Definition vs_len (data : list A) : nat := length data.

(** [Difference::next]: the inner [while] over the right cursor; [true] asks for
    [continue 'lhs]. *)
Fixpoint difference_skip (item : A) (rhs : list A) : bool * list A :=
  match rhs with
  | [] => (false, [])
  | r :: rhs' =>
      match rcmp r item with
      | Lt => difference_skip item rhs'
      | Gt => (false, rhs)
      | Eq => (true, rhs)
      end
  end.

Fixpoint difference_next (lhs rhs : list A) : option (A * (list A * list A)) :=
  match lhs with
  | [] => None
  | item :: lhs' =>
      let '(found, rhs') := difference_skip item rhs in
      if found then difference_next lhs' rhs' else Some (item, (lhs', rhs'))
  end.

(** Everything the iterator yields; each [next] consumes from [lhs]. *)
Fixpoint difference_collect (fuel : nat) (st : list A * list A) : list A :=
  match fuel with
  | O => []
  | S fuel =>
      match difference_next st.1 st.2 with
      | None => []
      | Some (x, st') => x :: difference_collect fuel st'
      end
  end.

Definition vs_difference (l r : list A) : list A :=
  difference_collect (S (length l)) (l, r).

(** [Intersection::next]. *)
Fixpoint intersection_next (lhs : list A) : list A → option (A * (list A * list A)) :=
  fix go (rhs : list A) : option (A * (list A * list A)) :=
    match lhs, rhs with
    | x :: lhs', y :: rhs' =>
        match rcmp x y with
        | Lt => intersection_next lhs' rhs
        | Eq => Some (x, (lhs', rhs'))
        | Gt => go rhs'
        end
    | _, _ => None
    end.

Fixpoint intersection_collect (fuel : nat) (st : list A * list A) : list A :=
  match fuel with
  | O => []
  | S fuel =>
      match intersection_next st.1 st.2 with
      | None => []
      | Some (x, st') => x :: intersection_collect fuel st'
      end
  end.

Definition vs_intersection (l r : list A) : list A :=
  intersection_collect (S (length l)) (l, r).

(** [intersect]: the closure given to [retain] moves the shared cursor of
    [other]. *)
Fixpoint intersect_keep (item : A) (other : list A) : bool * list A :=
  match other with
  | [] => (false, [])
  | o :: other' =>
      match rcmp item o with
      | Lt => (false, other)
      | Eq => (true, other)
      | Gt => intersect_keep item other'
      end
  end.

Fixpoint vs_intersect (data other : list A) : list A :=
  match data with
  | [] => []
  | item :: data' =>
      let '(keep, other') := intersect_keep item other in
      if keep then item :: vs_intersect data' other' else vs_intersect data' other'
  end.

Fixpoint vs_union (l : list A) : list A → list A :=
  fix go (r : list A) : list A :=
    match l, r with
    | x :: l', y :: r' =>
        match rcmp x y with
        | Eq => x :: vs_union l' r'
        | Lt => x :: vs_union l' r
        | Gt => y :: go r'
        end
    | _, _ => l ++ r
    end.

Definition vs_filter (P : A → Prop) `{∀ x, Decision (P x)} (data : list A) : list A :=
  filter P data.

Definition vs_retain (P : A → Prop) `{∀ x, Decision (P x)} (data : list A) : list A :=
  filter P data.

(** [insert]: the new set, and [false] if the item was there. *)
Definition vs_insert (item : A) (data : list A) : list A * bool :=
  match binary_search data item with
  | ROk _ => (data, false)
  | RErr pos => (take pos data ++ item :: drop pos data, true)
  end.

Definition vs_contains (item : A) (data : list A) : bool :=
  is_ok (binary_search data item).

(** [PartialOrd::partial_cmp]: inclusion. *)
Fixpoint vs_partial_cmp_loop (prev : comparison) (l r : list A) {struct l}
  : option comparison :=
  (fix go (prev : comparison) (r : list A) : option comparison :=
    match l, r with
    | [], [] => Some prev
    | [], _ :: _ => match prev with Gt => None | _ => Some Lt end
    | _ :: _, [] => match prev with Lt => None | _ => Some Gt end
    | x :: l', y :: r' =>
        match rcmp x y, prev with
        | Lt, Lt | Gt, Gt => None
        | Eq, _ => vs_partial_cmp_loop prev l' r'
        | Lt, _ => vs_partial_cmp_loop Gt l' r
        | Gt, _ => go Lt r'
        end
    end) prev r.

Definition vs_partial_cmp (l r : list A) : option comparison :=
  vs_partial_cmp_loop Eq l r.

(** ** [relative_difference], in place

    The two buffers, and for each the index of the next element and the number of
    elements dropped before it. *)
Record rel_diff := {
  rd_lhs : list A; rd_lhs_idx : nat; rd_lhs_del : nat;
  rd_rhs : list A; rd_rhs_idx : nat; rd_rhs_del : nat
}.

(** [ptr::copy_nonoverlapping(src, dst, 1)]. *)
Definition buf_copy1 (src dst : nat) (buf : list A) : option (list A) :=
  x ← buf !! src; rassert (dst <? length buf)%nat ;; Some (<[dst:=x]> buf).

(** [ptr::copy(src, dst, n)]: the source is read before it is overwritten. *)
Definition buf_copy (src dst n : nat) (buf : list A) : option (list A) :=
  rassert ((src + n <=? length buf) && (dst + n <=? length buf))%nat ;;
  Some (take dst buf ++ take n (drop src buf) ++ drop (dst + n) buf).

(** Keeping the element at [idx]: it moves back over the [del] holes. *)
Definition keep_at (idx del : nat) (buf : list A) : option (list A) :=
  if (0 <? del)%nat then buf_copy1 idx (idx - del) buf else Some buf.

Definition rel_diff_step (s : rel_diff) : option rel_diff :=
  lhs ← rd_lhs s !! rd_lhs_idx s;
  rhs ← rd_rhs s !! rd_rhs_idx s;
  match rcmp lhs rhs with
  | Lt =>
      buf ← keep_at (rd_lhs_idx s) (rd_lhs_del s) (rd_lhs s);
      Some {| rd_lhs := buf; rd_lhs_idx := S (rd_lhs_idx s); rd_lhs_del := rd_lhs_del s;
              rd_rhs := rd_rhs s; rd_rhs_idx := rd_rhs_idx s; rd_rhs_del := rd_rhs_del s |}
  | Gt =>
      buf ← keep_at (rd_rhs_idx s) (rd_rhs_del s) (rd_rhs s);
      Some {| rd_lhs := rd_lhs s; rd_lhs_idx := rd_lhs_idx s; rd_lhs_del := rd_lhs_del s;
              rd_rhs := buf; rd_rhs_idx := S (rd_rhs_idx s); rd_rhs_del := rd_rhs_del s |}
  | Eq =>
      Some {| rd_lhs := rd_lhs s; rd_lhs_idx := S (rd_lhs_idx s);
              rd_lhs_del := S (rd_lhs_del s);
              rd_rhs := rd_rhs s; rd_rhs_idx := S (rd_rhs_idx s);
              rd_rhs_del := S (rd_rhs_del s) |}
  end.

(** The [while] loop; every turn moves at least one index. *)
Fixpoint rel_diff_loop (fuel : nat) (s : rel_diff) : option rel_diff :=
  if ((rd_lhs_idx s <? length (rd_lhs s)) && (rd_rhs_idx s <? length (rd_rhs s)))%nat
  then match fuel with
       | O => panic
       | S fuel => s' ← rel_diff_step s; rel_diff_loop fuel s'
       end
  else Some s.

(** The final move of a tail that was not explored, then [set_len]. *)
Definition finish_side (buf : list A) (idx del : nat) : option (list A) :=
  buf' ← (if ((idx <? length buf) && (0 <? del))%nat
          then buf_copy idx (idx - del) (length buf - idx) buf
          else Some buf);
  Some (take (length buf - del) buf').

Definition vs_relative_difference (l r : list A) : option (list A * list A) :=
  s ← rel_diff_loop (length l + length r)
        {| rd_lhs := l; rd_lhs_idx := 0; rd_lhs_del := 0;
           rd_rhs := r; rd_rhs_idx := 0; rd_rhs_del := 0 |};
  l' ← finish_side (rd_lhs s) (rd_lhs_idx s) (rd_lhs_del s);
  r' ← finish_side (rd_rhs s) (rd_rhs_idx s) (rd_rhs_del s);
  Some (l', r').
End vec_set.

(** * Theorems *)

Section vec_set_theorems.
Context {A : Type} `{RustOrd A}.
Implicit Types (l r data : list A) (x y z item : A).

Lemma vs_new_sorted data : strict_sorted (vs_new data).
Proof. apply rdedup_sorted, rsort_sorted. Qed.

Lemma elem_of_vs_new x data : x ∈ vs_new data ↔ x ∈ data.
Proof. unfold vs_new. by rewrite elem_of_rdedup, rsort_perm. Qed.

(** Facts about a head against a sorted tail, used by every traversal. *)
Lemma sorted_head_notin x l : strict_sorted (x :: l) → x ∉ l.
Proof. intros Hs%strict_sorted_NoDup. by inversion Hs. Qed.

Lemma sorted_lt_notin x y l : strict_sorted (y :: l) → rlt x y → x ∉ y :: l.
Proof.
  rewrite strict_sorted_cons, Forall_forall. intros [Hy _] Hxy [->|Hin]%elem_of_cons.
  - by eapply rlt_irrefl.
  - eapply (rlt_asym x y); [done|]. by apply Hy.
Qed.

Lemma sorted_head_lt x y l : strict_sorted (x :: l) → y ∈ l → rlt x y.
Proof. rewrite strict_sorted_cons, Forall_forall. intros [Hx _]. apply Hx. Qed.

Lemma sorted_tail x l : strict_sorted (x :: l) → strict_sorted l.
Proof. rewrite strict_sorted_cons. by intros []. Qed.

Hint Resolve sorted_tail vs_new_sorted : core.

(** *** Difference *)

Lemma difference_skip_spec item r :
  strict_sorted r →
  let res := difference_skip item r in
  (res.1 = true ↔ item ∈ r) ∧ strict_sorted res.2 ∧
  (∀ z, rlt item z → (z ∈ r ↔ z ∈ res.2)).
Proof.
  induction r as [|y r IH]; intros Hs; simpl.
  - split_and!; try done. split; [done|]. by intros ?%not_elem_of_nil.
  - rcases y item; simpl.
    + split_and!; try done. split; [left|done].
    + destruct IH as (Hb & Hr & Hz); [eauto|]. split_and!; try done.
      * rewrite Hb, elem_of_cons. split; [by right|].
        intros [->|?]; [|done]. by rewrite rcmp_refl in Ec.
      * intros z Hlt. rewrite <-Hz by done. rewrite elem_of_cons.
        split; [|by right]. intros [->|?]; [|done]. exfalso. by eapply rlt_asym.
    + split_and!; try done. apply rcmp_gt_lt in Ec. split; [done|].
      intros Hin. exfalso. by eapply (sorted_lt_notin item y r).
Qed.

Lemma difference_next_spec l r :
  strict_sorted l → strict_sorted r →
  match difference_next l r with
  | None => filter (.∉ r) l = []
  | Some (x, (l', r')) =>
      filter (.∉ r) l = x :: filter (.∉ r') l' ∧ (length l' < length l)%nat ∧
      strict_sorted l' ∧ strict_sorted r'
  end.
Proof.
  revert r. induction l as [|x l IH]; intros r Hl Hr; simpl; [done|].
  destruct (difference_skip_spec x r Hr) as (Hb & Hr' & Hz).
  destruct (difference_skip x r) as [b r'] eqn:Es; simpl in *.
  assert (filter (.∉ r) l = filter (.∉ r') l) as Heq.
  { apply filter_iff_in. intros z Hin. split; intros Hn Hn'; apply Hn;
      by apply (Hz z); [by eapply sorted_head_lt|]. }
  destruct b.
  - rewrite filter_cons_False by (intros Hn; apply Hn; by apply Hb).
    specialize (IH r' (sorted_tail _ _ Hl) Hr').
    rewrite Heq. destruct (difference_next l r') as [[y [l1 r1]]|]; [|done].
    destruct IH as (? & ? & ? & ?). split_and!; auto; lia.
  - rewrite filter_cons_True by (rewrite <-Hb; done). rewrite Heq. split_and!; eauto.
Qed.

Lemma difference_collect_spec n l r :
  (length l < n)%nat → strict_sorted l → strict_sorted r →
  difference_collect n (l, r) = filter (.∉ r) l.
Proof.
  revert l r. induction n as [|n IH]; intros l r Hn Hl Hr; [lia|]. simpl.
  pose proof (difference_next_spec l r Hl Hr) as Hd.
  destruct (difference_next l r) as [[x [l' r']]|]; [|done].
  destruct Hd as (-> & Hlen & ? & ?). f_equal. apply IH; [lia|done|done].
Qed.

Lemma vs_difference_filter l r :
  strict_sorted l → strict_sorted r → vs_difference l r = filter (.∉ r) l.
Proof. apply difference_collect_spec. lia. Qed.

(** *** Intersection *)

Lemma intersection_next_spec l r :
  strict_sorted l → strict_sorted r →
  match intersection_next l r with
  | None => filter (.∈ r) l = []
  | Some (x, (l', r')) =>
      filter (.∈ r) l = x :: filter (.∈ r') l' ∧ (length l' < length l)%nat ∧
      strict_sorted l' ∧ strict_sorted r'
  end.
Proof.
  revert r. induction l as [|x l IHl]; intros r Hl Hr; [by destruct r|].
  induction r as [|y r IHr].
  - simpl. apply filter_none. set_solver.
  - cbn -[filter]. rcases x y.
    + split_and!; eauto. rewrite filter_cons_True by left. f_equal.
      apply filter_iff_in. intros z Hz. rewrite elem_of_cons.
      split; [|by right]. intros [->|?]; [|done]. by apply sorted_head_notin in Hl.
    + specialize (IHl (y :: r) (sorted_tail _ _ Hl) Hr).
      rewrite filter_cons_False by by apply sorted_lt_notin.
      destruct (intersection_next l (y :: r)) as [[z [l1 r1]]|]; [|done].
      destruct IHl as (? & ? & ? & ?). split_and!; auto.
    + apply rcmp_gt_lt in Ec. specialize (IHr (sorted_tail _ _ Hr)).
      replace (filter (.∈ y :: r) (x :: l)) with (filter (.∈ r) (x :: l)); [exact IHr|].
      apply filter_iff_in. intros z Hz. rewrite elem_of_cons.
      split; [by right|]. intros [->|?]; [|done].
      exfalso. by eapply (sorted_lt_notin y x l).
Qed.

Lemma intersection_collect_spec n l r :
  (length l < n)%nat → strict_sorted l → strict_sorted r →
  intersection_collect n (l, r) = filter (.∈ r) l.
Proof.
  revert l r. induction n as [|n IH]; intros l r Hn Hl Hr; [lia|]. simpl.
  pose proof (intersection_next_spec l r Hl Hr) as Hd.
  destruct (intersection_next l r) as [[x [l' r']]|]; [|done].
  destruct Hd as (-> & Hlen & ? & ?). f_equal. apply IH; [lia|done|done].
Qed.

Lemma vs_intersection_filter l r :
  strict_sorted l → strict_sorted r → vs_intersection l r = filter (.∈ r) l.
Proof. apply intersection_collect_spec. lia. Qed.

Lemma intersect_keep_spec item r :
  strict_sorted r →
  let res := intersect_keep item r in
  (res.1 = true ↔ item ∈ r) ∧ strict_sorted res.2 ∧
  (∀ z, rlt item z → (z ∈ r ↔ z ∈ res.2)).
Proof.
  intros Hs. pose proof (difference_skip_spec item r Hs) as Hd.
  assert (intersect_keep item r = difference_skip item r) as ->; [|done].
  clear. induction r as [|y r IH]; [done|]. simpl. rewrite (rcmp_flip item y).
  by destruct (rcmp item y).
Qed.

Lemma vs_intersect_filter l r :
  strict_sorted l → strict_sorted r → vs_intersect l r = filter (.∈ r) l.
Proof.
  revert r. induction l as [|x l IH]; intros r Hl Hr; [done|].
  cbn [vs_intersect]. destruct (intersect_keep_spec x r Hr) as (Hb & Hr' & Hz).
  destruct (intersect_keep x r) as [b r']; simpl in *.
  rewrite IH by eauto.
  assert (filter (.∈ r') l = filter (.∈ r) l) as ->.
  { apply filter_iff_in. intros z Hin. symmetry. apply Hz.
    by eapply sorted_head_lt. }
  destruct b.
  - by rewrite filter_cons_True by (by apply Hb).
  - by rewrite filter_cons_False by (rewrite <-Hb; done).
Qed.

(** *** Union *)

Lemma vs_union_cons x l y r :
  vs_union (x :: l) (y :: r) =
  match rcmp x y with
  | Eq => x :: vs_union l r
  | Lt => x :: vs_union l (y :: r)
  | Gt => y :: vs_union (x :: l) r
  end.
Proof. done. Qed.

Lemma elem_of_vs_union z l r : z ∈ vs_union l r ↔ z ∈ l ∨ z ∈ r.
Proof.
  revert r. induction l as [|x l IHl]; intros r; [destruct r; set_solver|].
  induction r as [|y r IHr]; [simpl; rewrite app_nil_r; set_solver|].
  rewrite vs_union_cons. rcases x y.
  - rewrite !elem_of_cons, IHl. tauto.
  - rewrite !(elem_of_cons _ z x), IHl. tauto.
  - rewrite (elem_of_cons (vs_union (x :: l) r)), IHr, (elem_of_cons r). tauto.
Qed.

Lemma vs_union_sorted l r :
  strict_sorted l → strict_sorted r → strict_sorted (vs_union l r).
Proof.
  revert r. induction l as [|x l IHl]; intros r Hl Hr; [by destruct r|].
  induction r as [|y r IHr]; [simpl; by rewrite app_nil_r|].
  pose proof (sorted_head_lt x) as Hx. pose proof (sorted_head_lt y) as Hy.
  rewrite vs_union_cons. rcases x y; apply strict_sorted_cons; rewrite Forall_forall.
  - split; [|by eapply IHl; eauto].
    intros z [?|?]%elem_of_vs_union; eauto.
  - split; [|by eapply IHl; eauto]. intros z Hz.
    apply elem_of_vs_union in Hz as [?|Hz]; eauto.
    apply elem_of_cons in Hz as [->|Hz]; [done|]. transitivity y; [done|eauto].
  - apply rcmp_gt_lt in Ec. split; [|apply IHr; eauto]. intros z Hz.
    apply (elem_of_vs_union z (x :: l) r) in Hz as [Hz|?]; [|eauto].
    apply elem_of_cons in Hz as [->|Hz]; [done|]. transitivity x; [done|eauto].
Qed.

(** *** Insertion and membership *)

Lemma vs_insert_spec item l :
  strict_sorted l →
  strict_sorted (vs_insert item l).1 ∧
  (∀ z, z ∈ (vs_insert item l).1 ↔ z = item ∨ z ∈ l) ∧
  ((vs_insert item l).2 = true ↔ item ∉ l).
Proof.
  intros Hs. pose proof (binary_search_spec l item Hs) as Hb.
  pose proof (binary_search_not_in l item Hs) as Hn.
  unfold vs_insert. destruct (binary_search l item) as [i|i]; simpl.
  - assert (item ∈ l) as Hin by by eapply list_elem_of_lookup_2.
    split_and!; [done|set_solver|]. split; [done|]. by intros [].
  - destruct Hb as (Hi & Hlo & Hhi).
    rewrite <-(take_drop i l) in Hs. apply strict_sorted_app in Hs as (Ht & Hd & Htd).
    split_and!.
    + apply strict_sorted_app. rewrite strict_sorted_cons, Forall_forall.
      split_and!; try done.
      intros x y Hx [->|Hy]%elem_of_cons; [by apply Hlo|by apply Htd].
    + intros z. rewrite <-(take_drop i l) at 3. rewrite !elem_of_app, elem_of_cons.
      tauto.
    + split; [|done]. intros _. apply Hn. eauto.
Qed.

Lemma vs_contains_spec item l :
  strict_sorted l → vs_contains item l = true ↔ item ∈ l.
Proof.
  intros Hs. pose proof (binary_search_spec l item Hs) as Hb.
  pose proof (binary_search_not_in l item Hs) as Hn.
  unfold vs_contains. destruct (binary_search l item) as [i|i]; simpl.
  - split; [|done]. intros _. by eapply list_elem_of_lookup_2.
  - split; [done|]. intros Hin. exfalso. apply (proj2 Hn); eauto.
Qed.

(** *** Inclusion order *)

(** The answer, from which sides have an element the other one lacks. *)
Definition cmp_of (only_l only_r : bool) : option comparison :=
  match only_l, only_r with
  | false, false => Some Eq
  | true, false => Some Gt
  | false, true => Some Lt
  | true, true => None
  end.

Definition is_gt (c : comparison) : bool := match c with Gt => true | _ => false end.
Definition is_lt (c : comparison) : bool := match c with Lt => true | _ => false end.

Definition lacks (l r : list A) : bool := negb (bool_decide (Forall (.∈ r) l)).

Lemma lacks_false l r : lacks l r = false ↔ ∀ x, x ∈ l → x ∈ r.
Proof. unfold lacks. by rewrite negb_false_iff, bool_decide_eq_true, Forall_forall. Qed.

Lemma lacks_true l r : lacks l r = true ↔ ∃ x, x ∈ l ∧ x ∉ r.
Proof.
  unfold lacks. rewrite negb_true_iff, bool_decide_eq_false.
  split; [|intros (x & Hx & Hn) Hf; by apply Hn, (proj1 (Forall_forall _ l) Hf)].
  intros (x & Hx)%(not_Forall_Exists _)%Exists_exists. exists x. exact Hx.
Qed.

Lemma lacks_head x l r : x ∉ r → lacks (x :: l) r = true.
Proof.
  intros Hx. apply not_false_iff_true. rewrite lacks_false. intros Hl.
  apply Hx, Hl. left.
Qed.

Lemma lacks_iff l r l' r' :
  ((∀ x, x ∈ l → x ∈ r) ↔ (∀ x, x ∈ l' → x ∈ r')) → lacks l r = lacks l' r'.
Proof.
  rewrite <-!lacks_false. destruct (lacks l r), (lacks l' r'); naive_solver.
Qed.

(** A head below everything on the other side does not change what that side
    lacks. *)
Lemma lacks_skip x l r :
  strict_sorted (x :: l) → (∀ y, y ∈ r → rlt x y) → lacks r (x :: l) = lacks r l.
Proof.
  intros Hl Hr. apply lacks_iff. split; intros Hin y Hy.
  - specialize (Hin y Hy). apply elem_of_cons in Hin as [->|?]; [|done].
    exfalso. by eapply rlt_irrefl, Hr.
  - right. by apply Hin.
Qed.

Lemma sorted_below x y r : strict_sorted (y :: r) → rlt x y → ∀ z, z ∈ y :: r → rlt x z.
Proof.
  intros Hr Hxy z [->|Hz]%elem_of_cons; [done|].
  transitivity y; [done|]. by eapply sorted_head_lt.
Qed.

Lemma lacks_same x l r :
  strict_sorted (x :: l) → lacks (x :: l) (x :: r) = lacks l r.
Proof.
  intros Hl. apply lacks_iff. split; intros Hin y Hy.
  - assert (y ∈ x :: r) as [->|?]%elem_of_cons by (apply Hin; by right); [|done].
    by apply sorted_head_notin in Hl.
  - apply elem_of_cons in Hy as [->|Hy]; [left|right; by apply Hin].
Qed.

Lemma vs_partial_cmp_loop_cons prev x l y r :
  vs_partial_cmp_loop prev (x :: l) (y :: r) =
  match rcmp x y, prev with
  | Lt, Lt | Gt, Gt => None
  | Eq, _ => vs_partial_cmp_loop prev l r
  | Lt, _ => vs_partial_cmp_loop Gt l (y :: r)
  | Gt, _ => vs_partial_cmp_loop Lt (x :: l) r
  end.
Proof. done. Qed.

Lemma vs_partial_cmp_loop_spec prev l r :
  strict_sorted l → strict_sorted r →
  vs_partial_cmp_loop prev l r =
  cmp_of (is_gt prev || lacks l r) (is_lt prev || lacks r l).
Proof.
  revert prev r. induction l as [|x l IHl]; intros prev r Hl Hr.
  { destruct r as [|y r]; [by destruct prev|].
    rewrite (lacks_head y r []) by apply not_elem_of_nil. by destruct prev. }
  revert prev. induction r as [|y r IHr]; intros prev.
  { rewrite (lacks_head x l []) by apply not_elem_of_nil. by destruct prev. }
  rewrite vs_partial_cmp_loop_cons. rcases x y.
  - rewrite IHl, !lacks_same by eauto. done.
  - assert (∀ z, z ∈ y :: r → rlt x z) as Hlt by by apply sorted_below.
    rewrite (lacks_head x l) by (by apply sorted_lt_notin).
    rewrite (lacks_skip x l) by done.
    destruct prev; [rewrite IHl by eauto; done| |rewrite IHl by eauto; done].
    by destruct (lacks _ _).
  - apply rcmp_gt_lt in Ec.
    assert (∀ z, z ∈ x :: l → rlt y z) as Hlt by by apply sorted_below.
    rewrite (lacks_head y r) by (by apply sorted_lt_notin).
    rewrite (lacks_skip y r) by done.
    destruct prev; [rewrite IHr by eauto; done|rewrite IHr by eauto; done|done].
Qed.

(** *** In-place relative difference *)

(** One side of the computation: the first [idx - del] cells hold what is kept of
    the first [idx] elements, the cells from [idx] on are untouched. *)
Definition side_inv (L R buf : list A) (idx del : nat) : Prop :=
  length buf = length L ∧ (del ≤ idx ≤ length L)%nat ∧
  drop idx buf = drop idx L ∧ take (idx - del) buf = filter (.∉ R) (take idx L).

Lemma side_inv_lookup L R buf idx del :
  side_inv L R buf idx del → buf !! idx = L !! idx.
Proof.
  intros (_ & _ & Hd & _). rewrite <-(Nat.add_0_r idx), <-!lookup_drop. by rewrite Hd.
Qed.

Lemma drop_S_eq (l k : list A) i : drop i l = drop i k → drop (S i) l = drop (S i) k.
Proof. intros Hd. rewrite <-!(Nat.add_1_r i), <-!drop_drop. by rewrite Hd. Qed.

Lemma filter_take_S (P : A → Prop) `{∀ x, Decision (P x)} l i x :
  l !! i = Some x →
  filter P (take (S i) l) = filter P (take i l) ++ (if decide (P x) then [x] else []).
Proof.
  intros Hx. rewrite (take_S_r _ _ x) by done.
  rewrite filter_app, filter_cons, filter_nil. done.
Qed.

Lemma side_keep L R buf idx del x :
  side_inv L R buf idx del → L !! idx = Some x → x ∉ R →
  ∃ buf', keep_at idx del buf = Some buf' ∧ side_inv L R buf' (S idx) del.
Proof.
  intros Hinv Hx HR. pose proof (side_inv_lookup _ _ _ _ _ Hinv) as Hbx.
  destruct Hinv as (Hlen & Hdel & Hd & Ht). rewrite Hx in Hbx.
  assert (idx < length L)%nat by by eapply lookup_lt_Some.
  assert (∀ buf', length buf' = length L → buf' !! (idx - del)%nat = Some x →
    drop (S idx) buf' = drop (S idx) buf → take (idx - del) buf' = take (idx - del) buf →
    side_inv L R buf' (S idx) del) as Hgoal.
  { intros buf' Hlen' Hx' Hd' Ht'. split_and!; [done|lia|lia| |].
    - rewrite Hd'. by apply drop_S_eq.
    - rewrite (filter_take_S _ L idx x Hx), decide_True by done.
      replace (S idx - del)%nat with (S (idx - del)) by lia.
      by rewrite (take_S_r _ _ x Hx'), Ht', Ht. }
  unfold keep_at. destruct (Nat.ltb_spec 0 del).
  - unfold buf_copy1. rewrite Hbx. simpl.
    destruct (Nat.ltb_spec (idx - del) (length buf)); [|lia]. simpl.
    eexists. split; [done|]. apply Hgoal.
    + by rewrite length_insert.
    + apply list_lookup_insert_eq. lia.
    + apply drop_insert_lt. lia.
    + apply take_insert_ge. lia.
  - exists buf. split; [done|]. assert (del = 0%nat) as -> by lia.
    rewrite Nat.sub_0_r in *. by apply Hgoal.
Qed.

Lemma side_drop L R buf idx del x :
  side_inv L R buf idx del → L !! idx = Some x → x ∈ R →
  side_inv L R buf (S idx) (S del).
Proof.
  intros (Hlen & Hdel & Hd & Ht) Hx HR.
  assert (idx < length L)%nat by by eapply lookup_lt_Some.
  split_and!; [done|lia|lia|by apply drop_S_eq|].
  rewrite (filter_take_S _ L idx x Hx), decide_False by naive_solver.
  by rewrite app_nil_r.
Qed.

Lemma finish_side_spec L R buf idx del :
  side_inv L R buf idx del → (∀ x, x ∈ drop idx L → x ∉ R) →
  finish_side buf idx del = Some (filter (.∉ R) L).
Proof.
  intros (Hlen & Hdel & Hd & Ht) HR.
  assert (filter (.∉ R) L = take (idx - del) buf ++ drop idx buf) as ->.
  { rewrite Hd, Ht. rewrite <-(take_drop idx L) at 1. rewrite filter_app.
    f_equal. by apply filter_all. }
  unfold finish_side.
  destruct (Nat.ltb_spec idx (length buf)), (Nat.ltb_spec 0 del); simpl.
  - unfold buf_copy. rewrite !(proj2 (Nat.leb_le _ _)) by lia. simpl. f_equal.
    rewrite (take_ge (drop idx buf)) by (rewrite length_drop; lia).
    rewrite app_assoc. apply take_app_length'.
    rewrite length_app, length_take, length_drop. lia.
  - assert (del = 0%nat) as -> by lia. f_equal. rewrite !Nat.sub_0_r.
    by rewrite take_drop, take_ge.
  - f_equal. assert (idx = length buf) as -> by lia. by rewrite drop_all, app_nil_r.
  - f_equal. assert (idx = length buf) as -> by lia. by rewrite drop_all, app_nil_r.
Qed.

(** The invariant of the loop: both sides, and what is explored on one side lies
    below what is left on the other. *)
Definition below (l r : list A) : Prop := ∀ x y, x ∈ l → y ∈ r → rlt x y.

Definition rel_diff_inv (L R : list A) (s : rel_diff) : Prop :=
  side_inv L R (rd_lhs s) (rd_lhs_idx s) (rd_lhs_del s) ∧
  side_inv R L (rd_rhs s) (rd_rhs_idx s) (rd_rhs_del s) ∧
  below (take (rd_lhs_idx s) L) (drop (rd_rhs_idx s) R) ∧
  below (take (rd_rhs_idx s) R) (drop (rd_lhs_idx s) L).

Lemma below_snoc L r i x :
  L !! i = Some x → below (take i L) r → (∀ y, y ∈ r → rlt x y) →
  below (take (S i) L) r.
Proof.
  intros Hx Hb Hlt a b Ha Hy. rewrite (take_S_r _ _ x Hx) in Ha.
  apply elem_of_app in Ha as [?|Ha]; [by apply Hb|].
  apply list_elem_of_singleton in Ha as ->. by apply Hlt.
Qed.

Lemma below_tail l y r : below l (y :: r) → below l r.
Proof. intros Hb a b Ha Hy. apply Hb; [done|by right]. Qed.

Lemma drop_head L i x :
  strict_sorted L → L !! i = Some x →
  drop i L = x :: drop (S i) L ∧ strict_sorted (x :: drop (S i) L).
Proof.
  intros HL Hx. rewrite <-(drop_S _ _ _ Hx). split; [done|].
  rewrite <-(take_drop i L) in HL. by apply strict_sorted_app in HL as (_ & ? & _).
Qed.

Lemma below_notin R j x l :
  below (take j R) (x :: l) → (∀ y, y ∈ drop j R → rlt x y) → x ∉ R.
Proof.
  intros Hb Hlt Hin. rewrite <-(take_drop j R) in Hin.
  apply elem_of_app in Hin as [Hin|Hin].
  - eapply rlt_irrefl, Hb; [done|left].
  - by eapply rlt_irrefl, Hlt.
Qed.

Lemma rel_diff_step_spec L R s :
  strict_sorted L → strict_sorted R → rel_diff_inv L R s →
  (rd_lhs_idx s < length L)%nat → (rd_rhs_idx s < length R)%nat →
  ∃ s', rel_diff_step s = Some s' ∧ rel_diff_inv L R s' ∧
    (length L - rd_lhs_idx s' + (length R - rd_rhs_idx s') <
     length L - rd_lhs_idx s + (length R - rd_rhs_idx s))%nat.
Proof.
  destruct s as [lb i di rb j dj]. unfold rel_diff_inv; simpl.
  intros HL HR (Hl & Hr & Hlr & Hrl) Hi Hj.
  destruct (lookup_lt_is_Some_2 _ _ Hi) as [x Hx].
  destruct (lookup_lt_is_Some_2 _ _ Hj) as [y Hy].
  destruct (drop_head L i x HL Hx) as [EL SL], (drop_head R j y HR Hy) as [ER SR].
  unfold rel_diff_step; simpl.
  rewrite (side_inv_lookup _ _ _ _ _ Hl), Hx. simpl.
  rewrite (side_inv_lookup _ _ _ _ _ Hr), Hy. simpl. rcases x y.
  - eexists. split; [done|]. simpl. rewrite EL, ER in *.
    split_and!; [by eapply side_drop; eauto using list_elem_of_lookup_2..| | |lia].
    + apply (below_snoc _ _ _ _ Hx); [by eapply below_tail|].
      intros z. by apply sorted_head_lt.
    + apply (below_snoc _ _ _ _ Hy); [by eapply below_tail|].
      intros z. by apply sorted_head_lt.
  - assert (∀ z, z ∈ drop j R → rlt x z) as Hlt by (rewrite ER; by apply sorted_below).
    destruct (side_keep _ _ _ _ _ x Hl Hx) as (buf & -> & Hl').
    { apply (below_notin R j x (drop (S i) L)); [by rewrite <-EL|done]. }
    eexists. split; [done|]. simpl. split_and!; try done; [| |lia].
    + by apply (below_snoc _ _ _ _ Hx).
    + rewrite EL in Hrl. by eapply below_tail.
  - apply rcmp_gt_lt in Ec.
    assert (∀ z, z ∈ drop i L → rlt y z) as Hlt by (rewrite EL; by apply sorted_below).
    destruct (side_keep _ _ _ _ _ y Hr Hy) as (buf & -> & Hr').
    { apply (below_notin L i y (drop (S j) R)); [by rewrite <-ER|done]. }
    eexists. split; [done|]. simpl. split_and!; try done; [| |lia].
    + rewrite ER in Hlr. by eapply below_tail.
    + by apply (below_snoc _ _ _ _ Hy).
Qed.

Lemma rel_diff_loop_spec L R fuel s :
  strict_sorted L → strict_sorted R → rel_diff_inv L R s →
  (length L - rd_lhs_idx s + (length R - rd_rhs_idx s) ≤ fuel)%nat →
  ∃ s', rel_diff_loop fuel s = Some s' ∧ rel_diff_inv L R s' ∧
    (rd_lhs_idx s' = length L ∨ rd_rhs_idx s' = length R).
Proof.
  intros HL HR. revert s. induction fuel as [|fuel IH]; intros s Hs Hf.
  - assert (Hs' := Hs). destruct Hs' as ((Hll & Hli & _) & (Hrl & Hri & _) & _).
    exists s. cbn [rel_diff_loop].
    destruct (Nat.ltb_spec (rd_lhs_idx s) (length (rd_lhs s))); [lia|].
    split_and!; [done|done|lia].
  - assert (Hs' := Hs). destruct Hs' as ((Hll & Hli & _) & (Hrl & Hri & _) & _).
    cbn [rel_diff_loop].
    destruct (Nat.ltb_spec (rd_lhs_idx s) (length (rd_lhs s))); cycle 1.
    { exists s. split_and!; [done|done|lia]. }
    destruct (Nat.ltb_spec (rd_rhs_idx s) (length (rd_rhs s))); cycle 1.
    { exists s. split_and!; [done|done|lia]. }
    destruct (rel_diff_step_spec L R s) as (s1 & -> & Hs1 & Hlt); [done|done|done|lia|lia|].
    simpl. apply IH; [done|lia].
Qed.

Lemma rel_diff_inv_init L R :
  rel_diff_inv L R
    {| rd_lhs := L; rd_lhs_idx := 0; rd_lhs_del := 0;
       rd_rhs := R; rd_rhs_idx := 0; rd_rhs_del := 0 |}.
Proof.
  unfold rel_diff_inv, side_inv, below; simpl.
  split_and!; try done; try lia; intros x y Hx%elem_of_nil; done.
Qed.

Lemma side_done L R i j :
  (i ≤ length L)%nat → below (take j R) (drop i L) → i = length L ∨ j = length R →
  ∀ x, x ∈ drop i L → x ∉ R.
Proof.
  intros Hi Hb [->|Hj] x Hx HR.
  - rewrite drop_all in Hx. by apply not_elem_of_nil in Hx.
  - rewrite Hj, take_ge in Hb by lia. by eapply rlt_irrefl, Hb.
Qed.

Lemma vs_relative_difference_filter l r :
  strict_sorted l → strict_sorted r →
  vs_relative_difference l r = Some (filter (.∉ r) l, filter (.∉ l) r).
Proof.
  intros Hl Hr. unfold vs_relative_difference.
  destruct (rel_diff_loop_spec l r (length l + length r) _ Hl Hr (rel_diff_inv_init l r))
    as (s & -> & (Hsl & Hsr & Hlr & Hrl) & Hend); [simpl; lia|]. simpl.
  rewrite (finish_side_spec _ _ _ _ _ Hsl); cycle 1.
  { destruct Hsl as (_ & ? & _). eapply side_done; [|done|done]. lia. }
  simpl. rewrite (finish_side_spec _ _ _ _ _ Hsr); [done|].
  destruct Hsr as (_ & ? & _). eapply side_done; [|done|tauto]. lia.
Qed.
End vec_set_theorems.

#[export] Hint Resolve vs_new_sorted vs_union_sorted sorted_tail : core.

(** ** Properties *)

(** C33: every operation of [VecSet] keeps the vector strictly sorted and computes
    the set operation it is named after; [insert] reports whether the element is
    new, [contains] decides membership, [is_empty] whether there is no element, and [len]
    counts the distinct elements. *)
Theorem vec_set_refines_set {A : Type} `{RustOrd A} (data l r : list A) (item : A)
    (P : A → Prop) `{∀ x, Decision (P x)} :
  strict_sorted l → strict_sorted r →
  (strict_sorted (vs_new data) ∧ ∀ z, z ∈ vs_new data ↔ z ∈ data) ∧
  (strict_sorted (vs_union l r) ∧ ∀ z, z ∈ vs_union l r ↔ z ∈ l ∨ z ∈ r) ∧
  (strict_sorted (vs_difference l r) ∧
     ∀ z, z ∈ vs_difference l r ↔ z ∈ l ∧ z ∉ r) ∧
  (strict_sorted (vs_intersection l r) ∧
     ∀ z, z ∈ vs_intersection l r ↔ z ∈ l ∧ z ∈ r) ∧
  vs_intersect l r = vs_intersection l r ∧
  (strict_sorted (vs_filter P l) ∧ ∀ z, z ∈ vs_filter P l ↔ P z ∧ z ∈ l) ∧
  vs_retain P l = vs_filter P l ∧
  (strict_sorted (vs_insert item l).1 ∧
     (∀ z, z ∈ (vs_insert item l).1 ↔ z = item ∨ z ∈ l) ∧
     ((vs_insert item l).2 = true ↔ item ∉ l)) ∧
  (vs_contains item l = true ↔ item ∈ l) ∧
  (vs_is_empty l = true ↔ ∀ z, z ∉ l) ∧
  (∀ s, NoDup s → (∀ z, z ∈ s ↔ z ∈ l) → vs_len l = length s).
Proof.
  intros Hl Hr.
  rewrite vs_difference_filter, vs_intersect_filter, vs_intersection_filter by done.
  unfold vs_filter, vs_retain. destruct (vs_insert_spec item l Hl) as (? & ? & ?).
  split_and!; auto using vs_contains_spec.
  6: { unfold vs_is_empty. destruct l as [|x l]; [by split; [intros _ z; apply not_elem_of_nil|]|].
       split; [done|]. intros Hz. by destruct (Hz x); left. }
  6: { intros s Hs Hz. apply Permutation_length, NoDup_Permutation; [by apply strict_sorted_NoDup|done|done]. }
  all: intros z; rewrite ?elem_of_vs_new, ?elem_of_vs_union, ?list_elem_of_filter; tauto.
Qed.

(** The set {1, 3, 5} and the set {3, 4}. *)
Lemma vec_set_refines_set_witness :
  strict_sorted [1; 3; 5]%nat ∧ strict_sorted [3; 4]%nat ∧
  vs_intersect [1; 3; 5]%nat [3; 4]%nat = vs_intersection [1; 3; 5]%nat [3; 4]%nat.
Proof.
  assert (strict_sorted [1; 3; 5]%nat) as H1 by (repeat constructor).
  assert (strict_sorted [3; 4]%nat) as H2 by (repeat constructor).
  split; [exact H1|]. split; [exact H2|].
  apply (vec_set_refines_set [] _ _ 0%nat (λ x, x = 0%nat) H1 H2).
Defined.

(** C24: the in-place [relative_difference], with its holes, moves and final tail
    copies, never leaves its buffers, and returns exactly the two sets that the
    [difference] iterators enumerate. *)
Theorem relative_difference_correct {A : Type} `{RustOrd A} (l r : list A) :
  strict_sorted l → strict_sorted r →
  vs_relative_difference l r = Some (vs_difference l r, vs_difference r l).
Proof.
  intros Hl Hr. rewrite vs_relative_difference_filter, !vs_difference_filter by done.
  done.
Qed.

Lemma relative_difference_correct_witness :
  vs_relative_difference [0; 2; 3; 5]%nat [0; 1; 2; 4; 6]%nat
    = Some ([3; 5], [1; 4; 6])%nat.
Proof.
  rewrite (relative_difference_correct [0; 2; 3; 5]%nat [0; 1; 2; 4; 6]%nat);
    [reflexivity|repeat constructor..].
Defined.

(** [partial_cmp] is the inclusion order: equality, strict inclusion either
    way, and [None] exactly when each set has an element that the other lacks. *)
Theorem partial_cmp_is_inclusion {A : Type} `{RustOrd A} (l r : list A) :
  strict_sorted l → strict_sorted r →
  match vs_partial_cmp l r with
  | Some Eq => l = r
  | Some Lt => (∀ x, x ∈ l → x ∈ r) ∧ ∃ y, y ∈ r ∧ y ∉ l
  | Some Gt => (∀ x, x ∈ r → x ∈ l) ∧ ∃ y, y ∈ l ∧ y ∉ r
  | None => (∃ x, x ∈ l ∧ x ∉ r) ∧ ∃ y, y ∈ r ∧ y ∉ l
  end.
Proof.
  intros Hl Hr. unfold vs_partial_cmp. rewrite vs_partial_cmp_loop_spec by done. simpl.
  pose proof (lacks_false l r) as H1. pose proof (lacks_false r l) as H2.
  pose proof (lacks_true l r) as H3. pose proof (lacks_true r l) as H4.
  destruct (lacks l r), (lacks r l); simpl.
  - split; [by apply H3|by apply H4].
  - split; [by apply H2|by apply H3].
  - split; [by apply H1|by apply H4].
  - apply strict_sorted_ext; [done|done|]. intros x. split; [by apply H1|by apply H2].
Qed.

Lemma partial_cmp_is_inclusion_witness :
  vs_partial_cmp [0]%nat [0; 1]%nat = Some Lt ∧ (∃ y, y ∈ [0; 1]%nat ∧ y ∉ [0]%nat).
Proof.
  split; [reflexivity|].
  pose proof (partial_cmp_is_inclusion [0]%nat [0; 1]%nat
    ltac:(repeat constructor) ltac:(repeat constructor)) as Hp.
  exact (proj2 Hp).
Defined.
