(* ===== verification/Domains.v ===== *)
(** * Integer domains of the generated search space
    (telamon-gen/src/print/runtime: integer_domain.rs, range.rs, integer_set.rs)

    The Rust code quoted by these three files is compiled into every search space.
    [NumSet] is a type class; [NumericSet] is its [u16] bit set over a universe that
    the caller supplies. *)
From S2P Require Import Prelude.
Open Scope Z_scope.

(** ** The [NumSet] interface *)

Record NumericSet := mkNumericSet { enabled_values : Z }.

(** [min_value] and [max_value] index the universe for a [NumericSet], and may
    panic.  [into_num_set] has a default, which some implementations override. *)
Class NumSet (D U : Type) := {
  min_value : D → U → option Z;
  max_value : D → U → option Z;
  into_num_set : D → U → list Z → option NumericSet
}.

Definition search_merged (universe : list Z) (v : Z) : Z :=
  Z.of_nat (merge_result (binary_search universe v)).

Section default_methods.
Context `{Profile} {D U : Type} `{NumSet D U}.

(** The default [into_num_set], from the bounds of the domain. *)
Definition default_into_num_set (min max : option Z) (new_universe : list Z)
  : option NumericSet :=
  vmin ← min;
  vmax ← max;
  let start := search_merged new_universe vmin in
  len ← usub 64 (search_merged new_universe vmax) start;
  len ← uadd 64 len 1;
  b ← ushl 16 1 len;
  b ← usub 16 b 1;
  b ← ushl 16 b start;
  Some (mkNumericSet b).

Definition as_constrained (d : D) (u : U) : option (option Z) :=
  value ← min_value d u;
  vmax ← max_value d u;
  Some (if value =? vmax then Some value else None).

Context {D' U' : Type} `{NumSet D' U'}.
Implicit Types (d : D) (u : U) (other : D') (ou : U').

Definition is_lt d u other ou : option bool :=
  a ← max_value d u; b ← min_value other ou; Some (a <? b).

Definition is_gt d u other ou : option bool :=
  a ← min_value d u; b ← max_value other ou; Some (b <? a).

Definition is_leq d u other ou : option bool :=
  a ← max_value d u; b ← min_value other ou; Some (a <=? b).

Definition is_geq d u other ou : option bool :=
  a ← min_value d u; b ← max_value other ou; Some (b <=? a).

Definition is_eq d u other ou : option bool :=
  a ← min_value d u; b ← max_value other ou;
  if a =? b then
    c ← max_value d u; e ← min_value other ou; Some (c =? e)
  else Some false.

Definition is_neq d u other ou : option bool :=
  a ← min_value d u; b ← max_value other ou;
  if b <? a then Some true else
  c ← max_value d u; e ← min_value other ou; Some (c <? e).
End default_methods.

(** ** [u32] and [&[u32]] *)

#[global] Instance u32_num_set `{Profile} : NumSet Z unit := {|
  min_value v _ := Some v;
  max_value v _ := Some v;
  into_num_set v _ universe := default_into_num_set (Some v) (Some v) universe
|}.

Definition slice_min (l : list Z) : Z :=
  match l with [] => 1 | v :: _ => v end.

Definition slice_max (l : list Z) : Z :=
  match last l with None => 0 | Some v => v end.

(** [into_num_set] of a slice: [idx] moves along the universe. *)
Fixpoint slice_advance (fuel : nat) (universe : list Z) (value : Z) (idx : nat)
  : option nat :=
  match fuel with
  | O => None
  | S fuel =>
      match universe !! idx with
      | None => None
      | Some w => if w <? value then slice_advance fuel universe value (S idx) else Some idx
      end
  end.

Fixpoint slice_into_loop `{Profile} (values universe : list Z) (idx : nat) (acc : Z)
  : option Z :=
  match values with
  | [] => Some acc
  | value :: values =>
      match slice_advance (S (length universe)) universe value idx with
      | None => Some acc
      | Some idx =>
          w ← universe !! idx;
          if w =? value then
            b ← ushl 16 1 (Z.of_nat idx);
            slice_into_loop values universe idx (Z.lor acc b)
          else slice_into_loop values universe idx acc
      end
  end.

Definition slice_into_num_set `{Profile} (values universe : list Z) : option NumericSet :=
  b ← slice_into_loop values universe 0 0; Some (mkNumericSet b).

#[global] Instance slice_num_set `{Profile} : NumSet (list Z) unit := {|
  min_value l _ := Some (slice_min l);
  max_value l _ := Some (slice_max l);
  into_num_set l _ universe := slice_into_num_set l universe
|}.

(** ** [NumericSet] *)
Module NumericSets.

Definition MAX_LEN : nat := 16.

Definition FAILED : NumericSet := mkNumericSet 0.

Definition u16_not (x : Z) : Z := 2 ^ 16 - 1 - x.

(** [trailing_zeros] and [leading_zeros] of a [u16]. *)
Definition trailing_zeros (x : Z) : nat :=
  match list_find (λ i, Z.testbit x (Z.of_nat i) = true) (seq 0 16) with
  | Some (i, _) => i
  | None => 16
  end.

Definition leading_zeros (x : Z) : nat :=
  if x =? 0 then 16%nat else (15 - Z.to_nat (Z.log2 x))%nat.

Definition count_ones (x : Z) : nat :=
  length (filter (λ i, Z.testbit x (Z.of_nat i) = true) (seq 0 16)).

Section ops.
Context `{Profile}.

(** [(1 << len) - 1], in [u16]. *)
Definition low_mask (len : nat) : option Z :=
  b ← ushl 16 1 (Z.of_nat len); usub 16 b 1.

Definition all (universe : list Z) : option NumericSet :=
  b ← low_mask (length universe); Some (mkNumericSet b).

Definition insert (s other : NumericSet) : NumericSet :=
  mkNumericSet (Z.lor (enabled_values s) (enabled_values other)).

Definition list_sets (s : NumericSet) : list NumericSet :=
  mkNumericSet <$>
    filter (λ b, Z.land (enabled_values s) b ≠ 0) (Z.shiftl 1 ∘ Z.of_nat <$> seq 0 MAX_LEN).

Fixpoint list_values_from (i : nat) (bits : Z) (universe : list Z) : option (list Z) :=
  match universe with
  | [] => Some []
  | v :: universe =>
      b ← ushl 16 1 (Z.of_nat i);
      vs ← list_values_from (S i) bits universe;
      Some (if Z.land b bits =? 0 then vs else v :: vs)
  end.

Definition list_values (s : NumericSet) (universe : list Z) : option (list Z) :=
  list_values_from 0 (enabled_values s) universe.

Definition complement (s : NumericSet) (universe : list Z) : option NumericSet :=
  mask ← all universe;
  Some (mkNumericSet (Z.land (u16_not (enabled_values s)) (enabled_values mask))).

Definition is_failed (s : NumericSet) : bool := enabled_values s =? 0.

Definition is_constrained (s : NumericSet) : bool :=
  (count_ones (enabled_values s) =? 1)%nat.

Definition contains (s other : NumericSet) : bool :=
  Z.land (enabled_values s) (enabled_values other) =? enabled_values other.

Definition restrict (s other : NumericSet) : NumericSet :=
  mkNumericSet (Z.land (enabled_values s) (enabled_values other)).

Definition ns_min_value (s : NumericSet) (universe : list Z) : option Z :=
  if is_failed s then Some 0 else universe !! trailing_zeros (enabled_values s).

Definition ns_max_value (s : NumericSet) (universe : list Z) : option Z :=
  if is_failed s then Some u32_max
  else universe !! (MAX_LEN - leading_zeros (enabled_values s) - 1)%nat.

(** [into_num_set]: the inner [while] skips what is disabled or too small. *)
Fixpoint ns_advance (fuel : nat) (bits : Z) (universe : list Z) (value : Z) (idx : nat)
  : option (option nat) :=
  match fuel with
  | O => Some None
  | S fuel =>
      match universe !! idx with
      | None => Some None
      | Some w =>
          b ← ushl 16 1 (Z.of_nat idx);
          if (Z.land bits b =? 0) || (w <? value)
          then ns_advance fuel bits universe value (S idx)
          else Some (Some idx)
      end
  end.

Fixpoint ns_into_loop (bits : Z) (universe targets : list Z) (i idx : nat) (acc : Z)
  : option Z :=
  match targets with
  | [] => Some acc
  | value :: targets =>
      r ← ns_advance (S (length universe)) bits universe value idx;
      match r with
      | None => Some acc
      | Some idx =>
          w ← universe !! idx;
          if w =? value then
            b ← ushl 16 1 (Z.of_nat i);
            ns_into_loop bits universe targets (S i) idx (Z.lor acc b)
          else ns_into_loop bits universe targets (S i) idx acc
      end
  end.

Definition ns_into_num_set (s : NumericSet) (universe num_set_universe : list Z)
  : option NumericSet :=
  b ← ns_into_loop (enabled_values s) universe num_set_universe 0 0 0;
  Some (mkNumericSet b).

#[global] Instance numeric_set_num_set : NumSet NumericSet (list Z) := {|
  min_value := ns_min_value;
  max_value := ns_max_value;
  into_num_set := ns_into_num_set
|}.

(** The mask [((1 << len) - 1) << start] of the constructors. *)
Definition span (start len : nat) : option NumericSet :=
  b ← low_mask len; b ← ushl 16 b (Z.of_nat start); Some (mkNumericSet b).

Definition after (r : result nat nat) : nat :=
  match r with ROk x => S x | RErr x => x end.

Section from_domain.
Context {D U : Type} `{NumSet D U}.

Definition ns_is_neq (s : NumericSet) (universe : list Z) (other : D) (ou : U)
  : option bool :=
  b ← is_neq s universe other ou;
  if (b : bool) then Some true else
  o ← into_num_set other ou universe; Some (is_failed o).

Definition new_gt (universe : list Z) (min : D) (mu : U) : option NumericSet :=
  v ← min_value min mu;
  let start := after (binary_search universe v) in
  span start (length universe - start).

Definition new_lt (universe : list Z) (max : D) (mu : U) : option NumericSet :=
  v ← max_value max mu;
  b ← low_mask (merge_result (binary_search universe v));
  Some (mkNumericSet b).

Definition new_geq (universe : list Z) (min : D) (mu : U) : option NumericSet :=
  v ← min_value min mu;
  let start := merge_result (binary_search universe v) in
  span start (length universe - start).

Definition new_leq (universe : list Z) (max : D) (mu : U) : option NumericSet :=
  v ← max_value max mu;
  b ← low_mask (after (binary_search universe v));
  Some (mkNumericSet b).

Definition new_eq (universe : list Z) (eq : D) (eu : U) : option NumericSet :=
  into_num_set eq eu universe.
End from_domain.
End ops.

(** [num::integer::gcd] and [lcm], on [u32], belong to a third-party crate; the least
    common multiple may overflow. *)
Section factors.
Context `{Profile} (num_gcd : Z → Z → Z) (num_lcm : Z → Z → option Z).

Definition gcd (s : NumericSet) (universe : list Z) : option Z :=
  vs ← list_values s universe; Some (default 1 (fold1 num_gcd vs)).

Definition lcm (s : NumericSet) (universe : list Z) : option Z :=
  vs ← list_values s universe;
  match vs with [] => Some 1 | v :: vs => foldM num_lcm vs v end.
End factors.
End NumericSets.

(** ** [Range] *)
Module Ranges.

Record Range := mkRange { rmin : Z; rmax : Z }.

Definition ALL : Range := mkRange 0 u32_max.
Definition FAILED : Range := mkRange 1 0.

Definition insert (s other : Range) : Range :=
  mkRange (Z.min (rmin s) (rmin other)) (Z.max (rmax s) (rmax other)).

Section ops.
Context `{Profile}.

Definition get_diff_add (s other : Range) : option Range :=
  a ← usub 32 (rmin other) (rmin s);
  b ← usub 32 (rmax s) (rmax other);
  Some (mkRange a b).

Definition apply_diff_add (s diff : Range) : option Range :=
  a ← uadd 32 (rmin s) (rmin diff);
  b ← usub 32 (rmax s) (rmax diff);
  Some (mkRange a b).

Definition get_diff_mul (s other : Range) : option Range :=
  a ← udiv (rmin other) (rmin s);
  b ← udiv (rmax s) (rmax other);
  Some (mkRange a b).

Definition apply_diff_mul (s diff : Range) : option Range :=
  a ← umul 32 (rmin s) (rmin diff);
  b ← udiv (rmax s) (rmax diff);
  Some (mkRange a b).

Definition add_add (s diff : Range) : option Range :=
  a ← uadd 32 (rmin s) (rmin diff);
  b ← uadd 32 (rmax s) (rmax diff);
  Some (mkRange a b).

Definition add_mul (s diff : Range) : option Range :=
  a ← umul 32 (rmin s) (rmin diff);
  b ← umul 32 (rmax s) (rmax diff);
  Some (mkRange a b).

Definition sub_add (s diff : Range) : option Range :=
  a ← usub 32 (rmin s) (rmin diff);
  b ← usub 32 (rmax s) (rmax diff);
  Some (mkRange a b).

Definition sub_mul (s diff : Range) : option Range :=
  a ← udiv (rmin s) (rmin diff);
  b ← udiv (rmax s) (rmax diff);
  Some (mkRange a b).

Definition as_fixed (s : Range) : option Z :=
  if rmin s =? rmax s then Some (rmin s) else None.

Definition is_failed (s : Range) : bool := rmax s <? rmin s.
Definition is_constrained (s : Range) : bool := rmin s =? rmax s.

Definition contains (s other : Range) : bool :=
  (rmin s <=? rmin other) && (rmax other <=? rmax s).

Definition restrict (s other : Range) : Range :=
  mkRange (Z.max (rmin s) (rmin other)) (Z.min (rmax s) (rmax other)).

#[global] Instance range_num_set : NumSet Range unit := {|
  min_value r _ := Some (rmin r);
  max_value r _ := Some (rmax r);
  into_num_set r _ universe :=
    default_into_num_set (Some (rmin r)) (Some (rmax r)) universe
|}.

Context {D U : Type} `{NumSet D U}.

Definition new_gt (min : D) (mu : U) : option Range :=
  v ← min_value min mu; Some (mkRange (sat_add 32 v 1) (rmax ALL)).

Definition new_lt (max : D) (mu : U) : option Range :=
  v ← max_value max mu; Some (mkRange (rmin ALL) (sat_sub v 1)).

Definition new_geq (min : D) (mu : U) : option Range :=
  v ← min_value min mu; Some (mkRange v (rmax ALL)).

Definition new_leq (max : D) (mu : U) : option Range :=
  v ← max_value max mu; Some (mkRange (rmin ALL) v).

Definition new_eq (eq : D) (eu : U) : option Range :=
  b ← max_value eq eu; a ← min_value eq eu; Some (mkRange a b).
End ops.
End Ranges.

(** ** [HalfRange]: only the lower bound is stored *)
Module HalfRanges.

Record HalfRange := mkHalfRange { hmin : Z }.

Definition ALL : HalfRange := mkHalfRange 0.

Definition insert (s other : HalfRange) : HalfRange :=
  mkHalfRange (Z.min (hmin s) (hmin other)).

Section ops.
Context `{Profile}.

Definition get_diff_add (s other : HalfRange) : option HalfRange :=
  a ← usub 32 (hmin other) (hmin s); Some (mkHalfRange a).
Definition apply_diff_add (s diff : HalfRange) : option HalfRange :=
  a ← uadd 32 (hmin s) (hmin diff); Some (mkHalfRange a).
Definition get_diff_mul (s other : HalfRange) : option HalfRange :=
  a ← udiv (hmin other) (hmin s); Some (mkHalfRange a).
Definition apply_diff_mul (s diff : HalfRange) : option HalfRange :=
  a ← umul 32 (hmin s) (hmin diff); Some (mkHalfRange a).
Definition add_add (s diff : HalfRange) : option HalfRange :=
  a ← uadd 32 (hmin s) (hmin diff); Some (mkHalfRange a).
Definition add_mul (s diff : HalfRange) : option HalfRange :=
  a ← umul 32 (hmin s) (hmin diff); Some (mkHalfRange a).
Definition sub_add (s diff : HalfRange) : option HalfRange :=
  a ← usub 32 (hmin s) (hmin diff); Some (mkHalfRange a).
Definition sub_mul (s diff : HalfRange) : option HalfRange :=
  a ← udiv (hmin s) (hmin diff); Some (mkHalfRange a).

Definition is_failed (s : HalfRange) : bool := false.
Definition is_constrained (s : HalfRange) : bool := false.
Definition contains (s other : HalfRange) : bool := hmin s <=? hmin other.
Definition restrict (s other : HalfRange) : HalfRange :=
  mkHalfRange (Z.max (hmin s) (hmin other)).

#[global] Instance half_range_num_set : NumSet HalfRange unit := {|
  min_value r _ := Some (hmin r);
  max_value r _ := Some u32_max;
  into_num_set r _ universe :=
    default_into_num_set (Some (hmin r)) (Some u32_max) universe
|}.

Context {D U : Type} `{NumSet D U}.

Definition new_gt (min : D) (mu : U) : option HalfRange :=
  v ← min_value min mu; Some (mkHalfRange (sat_add 32 v 1)).
Definition new_lt (max : D) (mu : U) : option HalfRange := Some ALL.
Definition new_geq (min : D) (mu : U) : option HalfRange :=
  v ← min_value min mu; Some (mkHalfRange v).
Definition new_leq (max : D) (mu : U) : option HalfRange := Some ALL.
Definition new_eq (eq : D) (eu : U) : option HalfRange :=
  v ← min_value eq eu; Some (mkHalfRange v).
End ops.
End HalfRanges.

(** * Theorems *)

(** ** The contract of [NumSet]: bounds that enclose the values of the domain *)

(** [num_values d u v]: the domain [d] over the universe [u] allows [v]. *)
Class NumSetOk (D U : Type) `{NumSet D U} := {
  num_wf : D → U → Prop;
  num_values : D → U → Z → Prop;
  num_min_ok : ∀ d u, num_wf d u →
    ∃ m, min_value d u = Some m ∧ ∀ v, num_values d u v → m ≤ v;
  num_max_ok : ∀ d u, num_wf d u →
    ∃ m, max_value d u = Some m ∧ ∀ v, num_values d u v → v ≤ m
}.

Ltac num_bounds d u Hw :=
  let Hm := fresh "Hmin" in let Hx := fresh "Hmax" in
  destruct (num_min_ok d u Hw) as (? & Hm & ?);
  destruct (num_max_ok d u Hw) as (? & Hx & ?);
  rewrite ?Hm, ?Hx in *.

(** *** Instances *)

#[global, program] Instance u32_num_ok `{Profile} : NumSetOk Z unit := {|
  num_wf _ _ := True; num_values d _ v := v = d |}.
Next Obligation. intros ? d ? _. exists d. split; [done|]. intros ? ->. lia. Qed.
Next Obligation. intros ? d ? _. exists d. split; [done|]. intros ? ->. lia. Qed.

#[global, program] Instance range_num_ok `{Profile} : NumSetOk Ranges.Range unit := {|
  num_wf _ _ := True;
  num_values r _ v := Ranges.rmin r ≤ v ≤ Ranges.rmax r |}.
Next Obligation. intros ? [a b] ? _. exists a. split; [done|]. simpl; lia. Qed.
Next Obligation. intros ? [a b] ? _. exists b. split; [done|]. simpl; lia. Qed.

#[global, program] Instance half_range_num_ok `{Profile} :
    NumSetOk HalfRanges.HalfRange unit := {|
  num_wf _ _ := True;
  num_values r _ v := HalfRanges.hmin r ≤ v ≤ u32_max |}.
Next Obligation. intros ? [a] ? _. exists a. split; [done|]. simpl; lia. Qed.
Next Obligation. intros ? [a] ? _. exists u32_max. split; [done|]. simpl; lia. Qed.

Lemma sorted_tail_Z (v : Z) l : strict_sorted (v :: l) → strict_sorted l.
Proof. intros Hs. by apply strict_sorted_cons in Hs as [_ ?]. Qed.

Lemma sorted_head_lt_Z (v w : Z) l : strict_sorted (v :: l) → w ∈ l → v < w.
Proof.
  intros Hs Hw. apply strict_sorted_cons in Hs as [Hv _].
  apply rlt_Z. by apply (proj1 (Forall_forall _ l) Hv).
Qed.

Lemma sorted_slice_bounds (l : list Z) v :
  strict_sorted l → v ∈ l → slice_min l ≤ v ≤ slice_max l.
Proof.
  intros Hs Hv. split.
  - destruct l as [|a l]; [by apply not_elem_of_nil in Hv|]. simpl.
    apply strict_sorted_cons in Hs as [Ha _]. rewrite Forall_forall in Ha.
    apply elem_of_cons in Hv as [->|Hv]; [lia|].
    specialize (Ha v Hv). rewrite rlt_Z in Ha. lia.
  - unfold slice_max. destruct (last l) as [m|] eqn:Em.
    + apply last_Some in Em as [k ->]. apply strict_sorted_app in Hs as (_ & _ & Hk).
      apply elem_of_app in Hv as [Hv|Hv].
      * specialize (Hk v m Hv ltac:(left)). rewrite rlt_Z in Hk. lia.
      * apply list_elem_of_singleton in Hv as ->. lia.
    + apply last_None in Em as ->. by apply not_elem_of_nil in Hv.
Qed.

#[global, program] Instance slice_num_ok `{Profile} : NumSetOk (list Z) unit := {|
  num_wf l _ := strict_sorted l;
  num_values l _ v := v ∈ l |}.
Next Obligation.
  intros ? l ? Hs. eexists. split; [done|]. intros v Hv. by apply sorted_slice_bounds.
Qed.
Next Obligation.
  intros ? l ? Hs. eexists. split; [done|]. intros v Hv. by apply sorted_slice_bounds.
Qed.

(** ** Bit sets over a universe *)
Module NumericSetFacts.
Import NumericSets.

Section facts.
Context `{Profile}.
Implicit Types (U : list Z) (s : NumericSet) (bits v : Z).

(** The values at the set bits, the first element standing at bit [i]. *)
Fixpoint bit_values (i : nat) (bits : Z) (U : list Z) : list Z :=
  match U with
  | [] => []
  | v :: U =>
      if Z.testbit bits (Z.of_nat i) then v :: bit_values (S i) bits U
      else bit_values (S i) bits U
  end.

Lemma ushl_bit i : (i < 16)%nat → ushl 16 1 (Z.of_nat i) = Some (2 ^ Z.of_nat i).
Proof.
  intros Hi. unfold ushl. rewrite (proj2 (Z.ltb_lt _ _)) by lia.
  rewrite Z.shiftl_1_l. f_equal. apply Z.mod_small. split; [lia|].
  apply Z.pow_lt_mono_r; lia.
Qed.

Lemma land_bit bits i : (Z.land (2 ^ Z.of_nat i) bits =? 0) = negb (Z.testbit bits (Z.of_nat i)).
Proof.
  destruct (Z.testbit bits (Z.of_nat i)) eqn:E; simpl.
  - apply Z.eqb_neq. intros Heq.
    assert (Z.testbit (Z.land (2 ^ Z.of_nat i) bits) (Z.of_nat i) = true) as Ht.
    { by rewrite Z.land_spec, Z.pow2_bits_true, E by lia. }
    by rewrite Heq, Z.bits_0 in Ht.
  - apply Z.eqb_eq. apply Z.bits_inj'. intros n Hn. rewrite Z.land_spec, Z.bits_0.
    rewrite Z.pow2_bits_eqb by lia.
    destruct (Z.eqb_spec (Z.of_nat i) n) as [<-|]; [|done]. by rewrite E.
Qed.

Lemma list_values_from_eq i bits U :
  (i + length U ≤ 16)%nat → list_values_from i bits U = Some (bit_values i bits U).
Proof.
  revert i. induction U as [|v U IH]; intros i Hl; [done|]. simpl in *.
  rewrite ushl_bit by lia. simpl. rewrite IH by lia. simpl. rewrite land_bit.
  by destruct (Z.testbit bits (Z.of_nat i)).
Qed.

Lemma list_values_eq s U :
  (length U ≤ 16)%nat → list_values s U = Some (bit_values 0 (enabled_values s) U).
Proof. intros. by apply list_values_from_eq. Qed.

Lemma bit_values_filter (P : Z → Prop) `{∀ x, Decision (P x)} i bits U :
  (∀ j x, U !! j = Some x → (P x ↔ Z.testbit bits (Z.of_nat (i + j)) = true)) →
  bit_values i bits U = filter P U.
Proof.
  revert i. induction U as [|v U IH]; intros i Hp; [done|]. simpl.
  assert (bit_values (S i) bits U = filter P U) as ->.
  { apply IH. intros j x Hx. rewrite (Hp (S j) x Hx). by rewrite Nat.add_succ_r. }
  pose proof (Hp 0%nat v eq_refl) as Hv. rewrite Nat.add_0_r in Hv.
  destruct (Z.testbit bits (Z.of_nat i)).
  - by rewrite filter_cons_True by by apply Hv.
  - rewrite filter_cons_False; [done|]. intros Hv'. by apply Hv in Hv'.
Qed.

Lemma elem_of_bit_values v i bits U :
  v ∈ bit_values i bits U ↔
  ∃ j, U !! j = Some v ∧ Z.testbit bits (Z.of_nat (i + j)) = true.
Proof.
  revert i. induction U as [|w U IH]; intros i; simpl.
  - split; [by intros ?%elem_of_nil|]. by intros (j & ? & _).
  - transitivity ((v = w ∧ Z.testbit bits (Z.of_nat i) = true) ∨ v ∈ bit_values (S i) bits U).
    { destruct (Z.testbit bits (Z.of_nat i)); rewrite ?elem_of_cons; naive_solver. }
    rewrite IH. split.
    + intros [[-> Hb]|(j & Hj & Hb)].
      * exists 0%nat. by rewrite Nat.add_0_r.
      * exists (S j). by rewrite Nat.add_succ_r.
    + intros ([|j] & Hj & Hb); simpl in Hj.
      * left. rewrite Nat.add_0_r in Hb. naive_solver.
      * right. exists j. by rewrite Nat.add_succ_r in Hb.
Qed.

(** *** Masks *)

Definition bit s (i : nat) : bool := Z.testbit (enabled_values s) (Z.of_nat i).

Lemma low_mask_ok n : (n < 16)%nat → low_mask n = Some (Z.ones (Z.of_nat n)).
Proof.
  intros Hn. unfold low_mask. rewrite ushl_bit by done. simpl. unfold usub.
  rewrite arith_ok.
  - by rewrite Z.ones_equiv, Z.sub_1_r.
  - assert (2 ^ Z.of_nat n < 2 ^ 16) by (apply Z.pow_lt_mono_r; lia). lia.
Qed.

Lemma low_mask_bit n b i :
  (n < 16)%nat → low_mask n = Some b → Z.testbit b (Z.of_nat i) = (i <? n)%nat.
Proof.
  intros Hn. rewrite low_mask_ok by done. intros [= <-].
  destruct (Nat.ltb_spec i n).
  - apply Z.ones_spec_low. lia.
  - apply Z.ones_spec_high. lia.
Qed.

Lemma span_ok start len :
  (start < 16)%nat → (len < 16)%nat →
  ∃ s, span start len = Some s ∧
    ∀ i, (i < 16)%nat → bit s i = ((start <=? i) && (i <? start + len))%nat.
Proof.
  intros Hs Hl. unfold span. rewrite low_mask_ok by done. simpl.
  unfold ushl. rewrite (proj2 (Z.ltb_lt _ _)) by lia. simpl.
  eexists. split; [done|]. intros i Hi. unfold bit, wrap; simpl.
  rewrite Z.mod_pow2_bits_low by lia.
  destruct (Nat.leb_spec start i); simpl.
  - rewrite Z.shiftl_spec_high by lia.
    destruct (Nat.ltb_spec i (start + len)).
    + apply Z.ones_spec_low. lia.
    + apply Z.ones_spec_high. lia.
  - apply Z.shiftl_spec_low. lia.
Qed.

(** *** Positions in a sorted universe *)

Lemma search_after U v i x :
  strict_sorted U → U !! i = Some x →
  (v < x ↔ (after (binary_search U v) ≤ i)%nat) ∧
  (v ≤ x ↔ (merge_result (binary_search U v) ≤ i)%nat).
Proof.
  intros Hs Hx. pose proof (binary_search_spec U v Hs) as Hb.
  destruct (binary_search U v) as [j|j]; simpl.
  - assert (∀ a b y z, U !! a = Some y → U !! b = Some z → (a < b)%nat → y < z) as Hlt.
    { intros a b y z Ha Hb' Hab. apply rlt_Z.
      exact (strict_sorted_lookup U a b y z Hs Ha Hb' Hab). }
    assert ((j < i)%nat ∨ i = j ∨ (i < j)%nat) as [Hij|[->|Hij]] by lia.
    + pose proof (Hlt _ _ _ _ Hb Hx Hij). lia.
    + simplify_eq. lia.
    + pose proof (Hlt _ _ _ _ Hx Hb Hij). lia.
  - destruct Hb as (Hj & Hlo & Hhi). destruct (decide (j ≤ i)%nat).
    + assert (rlt v x) as Hlt; [|rewrite rlt_Z in Hlt; lia]. apply Hhi.
      apply (list_elem_of_lookup_2 _ (i - j)). rewrite lookup_drop.
      by replace (j + (i - j))%nat with i by lia.
    + assert (rlt x v) as Hlt; [|rewrite rlt_Z in Hlt; lia]. apply Hlo.
      apply (list_elem_of_lookup_2 _ i). rewrite lookup_take_lt by lia. done.
Qed.

Lemma search_le U v :
  strict_sorted U →
  (after (binary_search U v) ≤ length U)%nat ∧
  (merge_result (binary_search U v) ≤ length U)%nat.
Proof.
  intros Hs. pose proof (binary_search_spec U v Hs) as Hb.
  destruct (binary_search U v) as [j|j]; simpl.
  - apply lookup_lt_Some in Hb. lia.
  - destruct Hb. lia.
Qed.

(** *** Bounds *)

Definition within s U : Prop :=
  0 ≤ enabled_values s < 2 ^ Z.of_nat (length U) ∧ (length U ≤ 16)%nat ∧ strict_sorted U.

Lemma within_bit s U i :
  within s U → (length U ≤ i)%nat → bit s i = false.
Proof.
  intros [[Hs0 Hs] _] Hi. unfold bit.
  destruct (decide (enabled_values s = 0)) as [->|Hne]; [apply Z.bits_0|].
  apply Z.bits_above_log2; [done|].
  apply Z.lt_le_trans with (Z.of_nat (length U)); [|lia].
  apply Z.log2_lt_pow2; lia.
Qed.

Lemma trailing_zeros_spec s U :
  within s U → enabled_values s ≠ 0 →
  (trailing_zeros (enabled_values s) < length U)%nat ∧
  ∀ i, bit s i = true → (trailing_zeros (enabled_values s) ≤ i)%nat.
Proof.
  intros Hw Hne. unfold trailing_zeros.
  destruct (list_find _ (seq 0 16)) as [[k y]|] eqn:E.
  - apply list_find_Some in E as (Hk & Hb & Hlt).
    apply lookup_seq in Hk as [-> Hk]. rewrite Nat.add_0_l in *. split.
    + destruct (decide (k < length U)%nat); [done|].
      pose proof (within_bit s U k Hw ltac:(lia)) as Hf. unfold bit in Hf. congruence.
    + intros i Hi. destruct (decide (k ≤ i)%nat); [done|]. exfalso.
      apply (Hlt i i); [apply lookup_seq; lia|lia|done].
  - exfalso. apply list_find_None in E. apply Hne. apply Z.bits_inj'. intros n Hn.
    rewrite Z.bits_0. destruct Hw as ([Hs0 Hs] & Hl & HU).
    destruct (decide (n < 16)).
    + rewrite Forall_forall in E.
      specialize (E (Z.to_nat n)). rewrite elem_of_seq, Z2Nat.id in E by lia.
      apply not_true_iff_false. apply E. lia.
    + pose proof (within_bit s U (Z.to_nat n)) as Hb. unfold bit in Hb.
      rewrite Z2Nat.id in Hb by lia. apply Hb; [by split_and!|lia].
Qed.

Lemma max_index_spec s U :
  within s U → enabled_values s ≠ 0 →
  let k := (MAX_LEN - leading_zeros (enabled_values s) - 1)%nat in
  (k < length U)%nat ∧ ∀ i, bit s i = true → (i ≤ k)%nat.
Proof.
  intros Hw Hne. assert (Hw' := Hw). destruct Hw' as ([Hs0 Hs] & Hl & _).
  assert (Z.log2 (enabled_values s) < Z.of_nat (length U)) as Hlog.
  { apply Z.log2_lt_pow2; lia. }
  pose proof (Z.log2_nonneg (enabled_values s)).
  unfold leading_zeros, MAX_LEN. rewrite (proj2 (Z.eqb_neq _ _)) by done. simpl.
  split; [lia|]. intros i Hi.
  destruct (decide (i ≤ 16 - (15 - Z.to_nat (Z.log2 (enabled_values s))) - 1)%nat);
    [done|].
  unfold bit in Hi. rewrite Z.bits_above_log2 in Hi; [done|done|lia].
Qed.

Lemma is_failed_values s U : is_failed s = true → bit_values 0 (enabled_values s) U = [].
Proof.
  unfold is_failed. rewrite Z.eqb_eq. intros ->. generalize 0%nat.
  induction U as [|v U IH]; intros i; simpl; [done|]. by rewrite Z.bits_0.
Qed.

Lemma sorted_le U i j x y :
  strict_sorted U → U !! i = Some x → U !! j = Some y → (i ≤ j)%nat → x ≤ y.
Proof.
  intros HU Hx Hy Hij. destruct (decide (i = j)) as [->|].
  - simplify_eq. lia.
  - assert (rlt x y) as Hlt; [|rewrite rlt_Z in Hlt; lia].
    apply (strict_sorted_lookup U i j x y HU Hx Hy). lia.
Qed.

#[global, program] Instance numeric_set_num_ok : NumSetOk NumericSet (list Z) := {|
  num_wf := within;
  num_values s U v := v ∈ bit_values 0 (enabled_values s) U |}.
Next Obligation.
  intros s U Hw. simpl. unfold ns_min_value.
  destruct (is_failed s) eqn:Ef.
  { eexists. split; [done|]. intros v. rewrite is_failed_values by done.
    by intros ?%elem_of_nil. }
  apply Z.eqb_neq in Ef. destruct (trailing_zeros_spec s U Hw Ef) as [Hl Hmin].
  destruct (lookup_lt_is_Some_2 _ _ Hl) as [m Hm]. exists m. split; [done|].
  intros v (j & Hj & Hb)%elem_of_bit_values. destruct Hw as (_ & _ & HU).
  by eapply sorted_le, Hmin.
Qed.
Next Obligation.
  intros s U Hw. simpl. unfold ns_max_value.
  destruct (is_failed s) eqn:Ef.
  { eexists. split; [done|]. intros v. rewrite is_failed_values by done.
    by intros ?%elem_of_nil. }
  apply Z.eqb_neq in Ef. destruct (max_index_spec s U Hw Ef) as [Hl Hmax].
  destruct (lookup_lt_is_Some_2 _ _ Hl) as [m Hm]. exists m. split; [done|].
  intros v (j & Hj & Hb)%elem_of_bit_values. destruct Hw as (_ & _ & HU).
  by eapply sorted_le, Hmax.
Qed.

(** *** The constructors *)

Lemma values_filter (P : Z → Prop) `{∀ x, Decision (P x)} U s :
  (length U ≤ 16)%nat →
  (∀ i x, U !! i = Some x → (P x ↔ bit s i = true)) →
  list_values s U = Some (filter P U).
Proof. intros Hl Hp. rewrite list_values_eq by done. f_equal. by apply bit_values_filter. Qed.

Lemma low_mask_values (P : Z → Prop) `{∀ x, Decision (P x)} U n :
  (length U < 16)%nat → (n ≤ length U)%nat →
  (∀ i x, U !! i = Some x → (P x ↔ (i < n)%nat)) →
  ∃ b, low_mask n = Some b ∧ list_values (mkNumericSet b) U = Some (filter P U).
Proof.
  intros Hl Hn Hp. exists (Z.ones (Z.of_nat n)). rewrite low_mask_ok by lia.
  split; [done|]. apply values_filter; [lia|]. intros i x Hx. rewrite (Hp i x Hx).
  unfold bit; simpl. rewrite (low_mask_bit n) by (rewrite ?low_mask_ok; by lia || done).
  by rewrite Nat.ltb_lt.
Qed.

Lemma span_values (P : Z → Prop) `{∀ x, Decision (P x)} U start :
  (length U < 16)%nat → (start ≤ length U)%nat →
  (∀ i x, U !! i = Some x → (P x ↔ (start ≤ i)%nat)) →
  ∃ s, span start (length U - start) = Some s ∧ list_values s U = Some (filter P U).
Proof.
  intros Hl Hn Hp. destruct (span_ok start (length U - start)) as (s & Hs & Hbit); [lia..|].
  exists s. split; [done|]. apply values_filter; [lia|]. intros i x Hx.
  assert (i < length U)%nat by by eapply lookup_lt_Some.
  rewrite (Hp i x Hx), Hbit by lia.
  rewrite andb_true_iff, Nat.leb_le, Nat.ltb_lt. lia.
Qed.

Lemma all_values U :
  (length U < 16)%nat → ∃ s, all U = Some s ∧ list_values s U = Some U.
Proof.
  intros Hl. destruct (low_mask_values (λ _, True) U (length U)) as (b & Hb & Hv); [lia..| |].
  { intros i x Hx%lookup_lt_Some. done. }
  unfold all. rewrite Hb. simpl. eexists. split; [done|].
  rewrite Hv. by rewrite filter_all by done.
Qed.

Lemma complement_values s U :
  (length U < 16)%nat → NoDup U → 0 ≤ enabled_values s < 2 ^ 16 →
  ∃ s', complement s U = Some s' ∧
    list_values s' U = Some (filter (.∉ bit_values 0 (enabled_values s) U) U).
Proof.
  intros Hl HU Hs. unfold complement, all. rewrite low_mask_ok by done. simpl.
  eexists. split; [done|]. apply values_filter; [lia|]. intros i x Hx.
  assert (i < length U)%nat by by eapply lookup_lt_Some.
  rewrite elem_of_bit_values. unfold bit; simpl.
  rewrite Z.land_spec, (Z.ones_spec_low _ (Z.of_nat i)), andb_true_r by lia.
  unfold u16_not. replace (2 ^ 16 - 1 - enabled_values s)
    with (Z.ones 16 - enabled_values s) by done.
  rewrite Z.sub_nocarry_ldiff, Z.ldiff_spec, Z.ones_spec_low; [|lia|].
  - simpl. rewrite negb_true_iff, <-not_true_iff_false. f_equiv. split.
    + intros (j & Hj & Hb). assert (j = i) as -> by by eapply NoDup_lookup. done.
    + intros Hb. by exists i.
  - apply Z.bits_inj'. intros n Hn. rewrite Z.ldiff_spec, Z.bits_0.
    destruct (decide (n < 16)).
    + rewrite Z.ones_spec_low by lia. by rewrite andb_false_r.
    + rewrite andb_false_iff. left. destruct (decide (enabled_values s = 0)) as [->|].
      { apply Z.bits_0. }
      apply Z.bits_above_log2; [lia|]. apply Z.lt_le_trans with 16; [|lia].
      apply Z.log2_lt_pow2; lia.
Qed.

(** *** Lattice operations *)

Lemma restrict_values s o U :
  NoDup U →
  bit_values 0 (enabled_values (restrict s o)) U =
  filter (λ v, v ∈ bit_values 0 (enabled_values s) U ∧
               v ∈ bit_values 0 (enabled_values o) U) U.
Proof.
  intros HU. apply bit_values_filter. intros i x Hx. simpl.
  rewrite Z.land_spec, andb_true_iff, !elem_of_bit_values. split.
  - intros [(j & Hj & Hb) (k & Hk & Hc)].
    assert (j = i) as -> by by eapply NoDup_lookup.
    by assert (k = i) as -> by by eapply NoDup_lookup.
  - intros [Hb Hc]. split; by exists i.
Qed.

Lemma insert_values s o U :
  NoDup U →
  bit_values 0 (enabled_values (insert s o)) U =
  filter (λ v, v ∈ bit_values 0 (enabled_values s) U ∨
               v ∈ bit_values 0 (enabled_values o) U) U.
Proof.
  intros HU. apply bit_values_filter. intros i x Hx. simpl.
  rewrite Z.lor_spec, orb_true_iff, !elem_of_bit_values. split.
  - intros [(j & Hj & Hb)|(j & Hj & Hb)];
      assert (j = i) as -> by (by eapply NoDup_lookup); [by left|by right].
  - intros [Hb|Hb]; [left|right]; by exists i.
Qed.

Lemma contains_spec s o U :
  within s U → within o U →
  contains s o = true ↔
  ∀ v, v ∈ bit_values 0 (enabled_values o) U → v ∈ bit_values 0 (enabled_values s) U.
Proof.
  intros Hs Ho. assert (NoDup U) as HU by apply strict_sorted_NoDup, Hs.
  unfold contains. rewrite Z.eqb_eq. split.
  - intros Heq v. rewrite !elem_of_bit_values. intros (j & Hj & Hb). exists j.
    split; [done|]. rewrite <-Heq, Z.land_spec in Hb. by apply andb_true_iff in Hb as [? _].
  - intros Hin. apply Z.bits_inj'. intros n Hn. rewrite Z.land_spec.
    destruct (Z.testbit (enabled_values o) n) eqn:E; [|by rewrite andb_false_r].
    rewrite andb_true_r. rewrite <-(Z2Nat.id n) in E |- * by done.
    set (i := Z.to_nat n) in *.
    destruct (decide (i < length U)%nat) as [Hi|Hi].
    + destruct (lookup_lt_is_Some_2 _ _ Hi) as [v Hv].
      assert (v ∈ bit_values 0 (enabled_values s) U) as Hvs.
      { apply Hin, elem_of_bit_values. by exists i. }
      apply elem_of_bit_values in Hvs as (j & Hj & Hb).
      by assert (j = i) as -> by by eapply NoDup_lookup.
    + pose proof (within_bit o U i Ho ltac:(lia)) as Hf. unfold bit in Hf. congruence.
Qed.

(** *** Conversion between universes *)

Lemma ns_advance_spec fuel s U value idx :
  within s U → (length U < fuel + idx)%nat →
  match ns_advance fuel (enabled_values s) U value idx with
  | None => False
  | Some None =>
      ∀ j w, (idx ≤ j)%nat → U !! j = Some w → bit s j = true → w < value
  | Some (Some k) =>
      (idx ≤ k)%nat ∧ bit s k = true ∧ (∃ w, U !! k = Some w ∧ value ≤ w) ∧
      ∀ j w, (idx ≤ j < k)%nat → U !! j = Some w → bit s j = true → w < value
  end.
Proof.
  intros Hw. revert idx. induction fuel as [|fuel IH]; intros idx Hf; simpl.
  { intros j w Hj Hu%lookup_lt_Some. lia. }
  destruct (U !! idx) as [w|] eqn:Eu; cycle 1.
  { apply lookup_ge_None in Eu. intros j w Hj Hu%lookup_lt_Some. lia. }
  assert (idx < length U)%nat by by eapply lookup_lt_Some.
  destruct Hw as (Hb16 & Hl & HU). rewrite ushl_bit by lia. simpl.
  rewrite Z.land_comm, land_bit. fold (bit s idx).
  destruct (bit s idx) eqn:Eb; simpl; [destruct (Z.ltb_spec w value)|].
  2:{ split_and!; [done|done|by exists w|]. intros; lia. }
  all: specialize (IH (S idx) ltac:(lia));
    destruct (ns_advance _ _ _ _ _) as [[k|]|]; [|..|done].
  all: try (destruct IH as (Hk & Hbk & Hwk & IH); split_and!; [lia|done|done|]).
  all: intros j w' Hj Hj' Hbj; destruct (decide (j = idx)) as [->|];
    [try congruence; by simplify_eq|by apply (IH j w'); [lia|..]].
Qed.

Lemma ns_into_loop_spec s U T i idx acc :
  within s U → strict_sorted T → (i + length T ≤ 16)%nat →
  (∀ j w t, (j < idx)%nat → U !! j = Some w → bit s j = true → t ∈ T → w < t) →
  ∃ b, ns_into_loop (enabled_values s) U T i idx acc = Some b ∧
    ∀ j, Z.testbit b (Z.of_nat j) = true ↔
      Z.testbit acc (Z.of_nat j) = true ∨
      ∃ t, (i ≤ j)%nat ∧ T !! (j - i)%nat = Some t ∧
           t ∈ bit_values 0 (enabled_values s) U.
Proof.
  intros Hw. assert (Hw' := Hw). destruct Hw' as (_ & _ & HU).
  revert i idx acc. induction T as [|v T IH]; intros i idx acc HT Hi Hlow.
  { exists acc. split; [done|]. intros j. split; [by left|]. intros [|(t & _ & ? & _)]; done. }
  simpl in Hi. cbn [ns_into_loop].
  assert (strict_sorted T) as HT' by by apply sorted_tail_Z in HT.
  pose proof (ns_advance_spec (S (length U)) s U v idx Hw ltac:(lia)) as Ha.
  destruct (ns_advance _ _ _ _ _) as [[k|]|]; [| |done]; simpl.
  - destruct Ha as (Hk & Hbk & (w & Hw' & Hvw) & Hskip). rewrite Hw'. simpl.
    assert (∀ j w0 t, (j < k)%nat → U !! j = Some w0 → bit s j = true → t ∈ T → w0 < t)
      as Hlow'.
    { intros j w0 t Hj Hu Hb Ht. destruct (decide (j < idx)%nat).
      - apply (Hlow j w0 t); try done. by right.
      - apply Z.lt_trans with v; [by apply (Hskip j w0); [lia|..]|].
        by apply (sorted_head_lt_Z v t T). }
    assert (v ∈ bit_values 0 (enabled_values s) U ↔ w = v) as Hv.
    { rewrite elem_of_bit_values. split; [|intros ->; by exists k].
      intros (j & Hj & Hb). destruct (decide (j < k)%nat).
      - exfalso. destruct (decide (j < idx)%nat).
        + specialize (Hlow j v v ltac:(done) Hj Hb ltac:(left)). lia.
        + specialize (Hskip j v ltac:(lia) Hj Hb). lia.
      - pose proof (sorted_le U k j w v HU Hw' Hj ltac:(lia)). lia. }
    destruct (Z.eqb_spec w v) as [Hwv|Hwv].
    + rewrite ushl_bit by lia. simpl.
      destruct (IH (S i) k (Z.lor acc (2 ^ Z.of_nat i)) HT' ltac:(lia) Hlow')
        as (b & -> & Hb). exists b. split; [done|]. intros j. rewrite Hb.
      rewrite Z.lor_spec, orb_true_iff, Z.pow2_bits_eqb, Z.eqb_eq by lia. split.
      * intros [[?|Hj]|(t & ? & ? & ?)]; [by left| |].
        -- right. exists v. replace (j - i)%nat with 0%nat by lia.
           split_and!; [lia|done|by apply Hv].
        -- right. exists t. replace (j - i)%nat with (S (j - S i)) by lia.
           split_and!; [lia|done|done].
      * intros [?|(t & Hij & Ht & Hin)]; [by left; left|].
        destruct (decide (j = i)) as [->|]; [left; right; lia|right].
        exists t. replace (j - i)%nat with (S (j - S i)) in Ht by lia.
        split_and!; [lia|done|done].
    + destruct (IH (S i) k acc HT' ltac:(lia) Hlow') as (b & -> & Hb).
      exists b. split; [done|]. intros j. rewrite Hb. f_equiv. split.
      * intros (t & ? & ? & ?). exists t. replace (j - i)%nat with (S (j - S i)) by lia.
        split_and!; [lia|done|done].
      * intros (t & Hij & Ht & Hin). destruct (decide (j = i)) as [->|].
        { exfalso. rewrite Nat.sub_diag in Ht. simplify_eq/=. by apply Hwv, Hv. }
        exists t. replace (j - i)%nat with (S (j - S i)) in Ht by lia.
        split_and!; [lia|done|done].
  - exists acc. split; [done|]. intros j. split; [by left|].
    intros [?|(t & _ & Ht & Hin)]; [done|exfalso].
    apply elem_of_bit_values in Hin as (k & Hk & Hb).
    assert (v ≤ t) as Hvt.
    { apply list_elem_of_lookup_2, elem_of_cons in Ht as [->|Ht]; [lia|].
      apply Z.lt_le_incl. by apply (sorted_head_lt_Z v t T). }
    destruct (decide (k < idx)%nat) as [Hki|Hki].
    + specialize (Hlow k t t Hki Hk Hb ltac:(by eapply list_elem_of_lookup_2)). lia.
    + specialize (Ha k t ltac:(lia) Hk Hb). lia.
Qed.

Lemma ns_into_num_set_spec s U T :
  within s U → strict_sorted T → (length T ≤ 16)%nat →
  ∃ s', ns_into_num_set s U T = Some s' ∧
    list_values s' T = Some (filter (.∈ bit_values 0 (enabled_values s) U) T).
Proof.
  intros Hw HT Hl.
  destruct (ns_into_loop_spec s U T 0 0 0 Hw HT Hl) as (b & Hb & Hbits); [lia|].
  unfold ns_into_num_set. rewrite Hb. simpl. eexists. split; [done|].
  apply values_filter; [done|]. intros i x Hx. unfold bit; simpl. rewrite Hbits.
  rewrite Z.bits_0, Nat.sub_0_r. split; [|intros [?|(t & _ & Ht & ?)]; [done|by simplify_eq]].
  intros Hin. right. exists x. split_and!; [lia|done|done].
Qed.
(** *** The default conversion *)

(** What the default [into_num_set] enables: from the lower bound up to the least value
    of the universe that reaches the upper bound. *)
Definition reached (U : list Z) (vmin vmax x : Z) : Prop :=
  vmin ≤ x ∧ Forall (λ y, vmax ≤ y → x ≤ y) U.

#[export] Instance reached_dec U vmin vmax x : Decision (reached U vmin vmax x).
Proof. unfold reached. apply _. Defined.

Lemma reached_bits U vmin vmax i x :
  strict_sorted U → U !! i = Some x →
  reached U vmin vmax x ↔
  (merge_result (binary_search U vmin) ≤ i ≤ merge_result (binary_search U vmax))%nat.
Proof.
  intros HU Hx. unfold reached. rewrite Forall_lookup. f_equiv; [by apply search_after|].
  split.
  - intros Hall. destruct (decide (i ≤ merge_result (binary_search U vmax)))%nat as [|Hgt]; [done|].
    assert (i < length U)%nat by by eapply lookup_lt_Some.
    destruct (lookup_lt_is_Some_2 U (merge_result (binary_search U vmax))) as [y Hy]; [lia|].
    assert (x ≤ y) as Hle. { apply (Hall _ y Hy). apply (search_after U vmax _ y HU Hy). lia. }
    pose proof (strict_sorted_lookup U _ i y x HU Hy Hx ltac:(lia)) as Hlt. rewrite rlt_Z in Hlt. lia.
  - intros Hi j y Hy Hv%(search_after U vmax j y HU Hy). apply (sorted_le U i j x y HU Hx Hy). lia.
Qed.

(** The conversion succeeds when the mask fits: when the universe has less than 15 values,
    or 15 with one that reaches the upper bound. *)
Definition mask_fits (U : list Z) (vmax : Z) : Prop :=
  (S (length U) < MAX_LEN)%nat ∨ ((length U < MAX_LEN)%nat ∧ ∃ y, y ∈ U ∧ vmax ≤ y).

Lemma default_into_reached U vmin vmax :
  strict_sorted U → vmin ≤ vmax → mask_fits U vmax →
  ∃ s, default_into_num_set (Some vmin) (Some vmax) U = Some s ∧
    ∀ i x, U !! i = Some x → (reached U vmin vmax x ↔ bit s i = true).
Proof.
  intros HU Hv Hfit. pose proof (search_le U vmin HU) as [_ Hm]. pose proof (search_le U vmax HU) as [_ Hm'].
  assert (∀ i x, U !! i = Some x → (reached U vmin vmax x ↔ _)) as Hr by (intros; by apply reached_bits).
  pose proof (λ i x, search_after U vmin i x HU) as Hp. pose proof (λ i x, search_after U vmax i x HU) as Hq.
  set (p := merge_result (binary_search U vmin)) in *. set (q := merge_result (binary_search U vmax)) in *.
  assert (p ≤ q)%nat as Hpq.
  { destruct (decide (q < length U)%nat) as [Hql|]; [|lia]. destruct (lookup_lt_is_Some_2 U q Hql) as [x Hx].
    apply (Hp q x Hx). pose proof (proj2 (proj2 (Hq q x Hx)) ltac:(lia)). lia. }
  assert (S q < 16 ∧ length U < 16)%nat as Hlen.
  { unfold mask_fits in Hfit. change MAX_LEN with 16%nat in Hfit. destruct Hfit as [Hl|[Hl (y & (j & Hj)%list_elem_of_lookup & Hy)]]; [lia|].
    apply (proj2 (Hq j y Hj)) in Hy. apply lookup_lt_Some in Hj. lia. }
  destruct (span_ok p (S q - p)) as (s & Hs & Hbit); [lia..|].
  exists s. replace (p + (S q - p))%nat with (S q) in Hbit by lia. split.
  - unfold default_into_num_set, search_merged.
    cbn [mbind option_bind]. fold p q. rewrite usub_ok by lia. cbn [mbind option_bind].
    rewrite uadd_ok by lia. cbn [mbind option_bind].
    replace (Z.of_nat q - Z.of_nat p + 1) with (Z.of_nat (S q - p)) by lia.
    unfold span, low_mask in Hs. destruct (ushl 16 1 (Z.of_nat (S q - p))) as [b|]; [|done]. exact Hs.
  - intros i x Hx. rewrite (Hr i x Hx), Hbit by (apply lookup_lt_Some in Hx; lia).
    rewrite andb_true_iff, Nat.leb_le, Nat.ltb_lt. lia.
Qed.

(** *** The conversion of a slice *)

Lemma slice_advance_spec fuel U v idx :
  (length U < fuel + idx)%nat →
  match slice_advance fuel U v idx with
  | None => ∀ j w, (idx ≤ j)%nat → U !! j = Some w → w < v
  | Some k => (idx ≤ k)%nat ∧ (∃ w, U !! k = Some w ∧ v ≤ w) ∧ ∀ j w, (idx ≤ j < k)%nat → U !! j = Some w → w < v
  end.
Proof.
  revert idx. induction fuel as [|fuel IH]; intros idx Hf; cbn [slice_advance].
  { intros j w Hj Hu%lookup_lt_Some. lia. }
  destruct (U !! idx) as [w|] eqn:Eu; cycle 1.
  { apply lookup_ge_None in Eu. intros j w Hj Hu%lookup_lt_Some. lia. }
  destruct (Z.ltb_spec w v) as [Hlt|Hge]; [|split; [done|]; split; [by exists w|lia]].
  specialize (IH (S idx) ltac:(lia)). destruct (slice_advance fuel U v (S idx)) as [k|].
  - destruct IH as (Hk & Hw & IH). split; [lia|]. split; [done|]. intros j w' Hj Hu.
    destruct (decide (j = idx)) as [->|]; [by simplify_eq|]. apply (IH j w'); [lia|done].
  - intros j w' Hj Hu. destruct (decide (j = idx)) as [->|]; [by simplify_eq|]. apply (IH j w'); [lia|done].
Qed.

Lemma slice_into_loop_spec l U idx acc :
  strict_sorted l → strict_sorted U → (length U ≤ 16)%nat → 0 ≤ acc →
  (∀ j w v, (j < idx)%nat → U !! j = Some w → v ∈ l → w < v) →
  ∃ b, slice_into_loop l U idx acc = Some b ∧ 0 ≤ b ∧ (acc ≠ 0 → b ≠ 0) ∧ (∀ v, v ∈ l → v ∈ U → b ≠ 0).
Proof.
  intros Hl HU Hlen. revert idx acc. induction l as [|v l IH]; intros idx acc Hacc Hlow; cbn [slice_into_loop].
  { exists acc. split; [done|]. split; [done|]. split; [done|]. by intros v ?%elem_of_nil. }
  pose proof (slice_advance_spec (S (length U)) U v idx ltac:(lia)) as Ha.
  destruct (slice_advance (S (length U)) U v idx) as [k|]; cycle 1.
  - exists acc. split; [done|]. split; [done|]. split; [done|]. intros x Hx (j & Hj)%list_elem_of_lookup. exfalso.
    assert (v ≤ x) as Hvx. { apply elem_of_cons in Hx as [->|Hx]; [lia|]. pose proof (sorted_head_lt_Z v x l Hl Hx). lia. }
    destruct (decide (j < idx)%nat) as [Hlt|]; [pose proof (Hlow j x x Hlt Hj Hx); lia|].
    pose proof (Ha j x ltac:(lia) Hj). lia.
  - destruct Ha as (Hk & (w & Hw & Hvw) & Hskip). rewrite Hw. cbn [mbind option_bind].
    assert (k < length U)%nat as Hkl by by eapply lookup_lt_Some.
    assert (∀ j w0 x, (j < k)%nat → U !! j = Some w0 → x ∈ v :: l → w0 < x) as Hlow'.
    { intros j w0 x Hj Hu Hx. destruct (decide (j < idx)%nat); [by apply (Hlow j w0 x)|].
      pose proof (Hskip j w0 ltac:(lia) Hu). apply elem_of_cons in Hx as [->|Hx]; [lia|].
      pose proof (sorted_head_lt_Z v x l Hl Hx). lia. }
    destruct (Z.eqb_spec w v) as [->|Hne].
    + rewrite ushl_bit by lia. cbn [mbind option_bind].
      assert (Z.lor acc (2 ^ Z.of_nat k) ≠ 0) as Hor.
      { intros E%Z.lor_eq_0_iff. assert (0 < 2 ^ Z.of_nat k) by (apply Z.pow_pos_nonneg; lia). lia. }
      destruct (IH (sorted_tail_Z _ _ Hl) k (Z.lor acc (2 ^ Z.of_nat k))) as (b & Hb & Hb0 & Hne & _).
      { apply Z.lor_nonneg. split; [done|]. apply Z.pow_nonneg. lia. }
      { intros j w0 x Hj Hu Hx. apply (Hlow' j w0 x Hj Hu). by right. }
      exists b. split; [done|]. split; [done|]. split; [auto|]. intros _ _ _. by apply Hne.
    + destruct (IH (sorted_tail_Z _ _ Hl) k acc Hacc) as (b & Hb & Hb0 & Hbne & Hin).
      { intros j w0 x Hj Hu Hx. apply (Hlow' j w0 x Hj Hu). by right. }
      exists b. split; [done|]. split; [done|]. split; [done|]. intros x [->|Hx]%elem_of_cons Hxu; [|by eapply Hin].
      exfalso. apply list_elem_of_lookup in Hxu as (j & Hj).
      destruct (decide (j < k)%nat) as [Hlt|]; [pose proof (Hlow' j v v Hlt Hj ltac:(left)); lia|].
      pose proof (sorted_le U k j w v HU Hw Hj ltac:(lia)). lia.
Qed.
End facts.
End NumericSetFacts.

(** ** The contract of [into_num_set]: what a domain shares with a universe is kept

    The default method computes a mask of one bit more than it needs, hence the bound on
    the universe. *)
Class NumSetIntoOk (D U : Type) `{NumSetOk D U} := num_into_ok : ∀ d u universe v,
  num_wf d u → num_values d u v → strict_sorted universe → (S (length universe) < NumericSets.MAX_LEN)%nat →
  ∃ s, into_num_set d u universe = Some s ∧
    ∀ x, x ∈ universe → num_values d u x → NumericSets.is_failed s = false.

Section into.
Import NumericSets NumericSetFacts.
Context `{Profile}.

Lemma bit_not_failed s i : bit s i = true → is_failed s = false.
Proof. unfold bit, is_failed. intros Hb. apply Z.eqb_neq. intros E. by rewrite E, Z.bits_0 in Hb. Qed.

Lemma default_into_ok universe vmin vmax :
  vmin ≤ vmax → strict_sorted universe → (S (length universe) < MAX_LEN)%nat →
  ∃ s, default_into_num_set (Some vmin) (Some vmax) universe = Some s ∧
    ∀ x, x ∈ universe → vmin ≤ x ≤ vmax → is_failed s = false.
Proof.
  intros Hv HU Hl. destruct (default_into_reached universe vmin vmax) as (s & Hs & Hbit); [done|done|by left|].
  exists s. split; [done|]. intros x (i & Hi)%list_elem_of_lookup Hx. apply (bit_not_failed s i), (Hbit i x Hi).
  split; [lia|]. apply Forall_forall. intros y _. lia.
Qed.

#[global] Instance u32_into_ok : NumSetIntoOk Z unit.
Proof.
  intros d u U v _ _ HU Hl. destruct (default_into_ok U d d) as (s & Hs & Hx); [lia|done|done|].
  exists s. split; [done|]. intros x Hin ->. apply (Hx d Hin). lia.
Qed.

#[global] Instance range_into_ok : NumSetIntoOk Ranges.Range unit.
Proof. intros r u U v _ Hv HU Hl. apply default_into_ok; [cbn in Hv; lia|done|done]. Qed.

#[global] Instance half_range_into_ok : NumSetIntoOk HalfRanges.HalfRange unit.
Proof. intros r u U v _ Hv HU Hl. apply default_into_ok; [cbn in Hv; lia|done|done]. Qed.

#[global] Instance slice_into_ok : NumSetIntoOk (list Z) unit.
Proof.
  intros l u U v Hl _ HU Hlen. change MAX_LEN with 16%nat in Hlen.
  destruct (slice_into_loop_spec l U 0 0) as (b & Hb & _ & _ & Hin); [done|done|lia|lia|lia|].
  exists (mkNumericSet b). cbn. unfold slice_into_num_set. rewrite Hb. split; [done|].
  intros x Hx Hxl. apply Z.eqb_neq. by apply (Hin x).
Qed.

#[global] Instance numeric_set_into_ok : NumSetIntoOk NumericSet (list Z).
Proof.
  intros s u U v Hw _ HU Hl. change MAX_LEN with 16%nat in Hl.
  destruct (ns_into_num_set_spec s u U Hw HU) as (s' & Hs & Hv); [lia|]. exists s'. split; [done|].
  intros x Hx Hin. rewrite list_values_eq in Hv by lia. injection Hv as Hv.
  apply not_true_is_false. intros Ef%(is_failed_values s' U).
  assert (x ∈ filter (.∈ bit_values 0 (enabled_values s) u) U) as Hf by (apply list_elem_of_filter; by split).
  rewrite <-Hv, Ef in Hf. by apply elem_of_nil in Hf.
Qed.
End into.

(** ** Properties *)

Section properties.
Import NumericSets NumericSetFacts.

(** C34: on a strictly increasing universe of at most 15 values, the constructors of
    [NumericSet] that compare with a domain succeed and enable exactly the values of the
    universe that the comparison selects; [all] enables every value and [complement] the
    values that are disabled.  [new_eq] enables the values that a bit set over another
    universe has; from a range, it enables those above its lower bound up to the least one
    that reaches its upper bound, which is above the range when its upper bound is not in
    the universe. *)
Theorem numeric_set_constructors `{Profile} {D V : Type} `{NumSet D V}
    (U : list Z) (d : D) (u : V) (vmin vmax : Z) (s : NumericSet) :
  strict_sorted U → (length U < MAX_LEN)%nat →
  min_value d u = Some vmin → max_value d u = Some vmax →
  0 ≤ enabled_values s < 2 ^ 16 →
  (∃ r, all U = Some r ∧ list_values r U = Some U) ∧
  (∃ r vs, complement s U = Some r ∧ list_values s U = Some vs ∧
     list_values r U = Some (filter (.∉ vs) U)) ∧
  (∃ r, new_gt U d u = Some r ∧ list_values r U = Some (filter (λ x, vmin < x) U)) ∧
  (∃ r, new_geq U d u = Some r ∧ list_values r U = Some (filter (λ x, vmin ≤ x) U)) ∧
  (∃ r, new_lt U d u = Some r ∧ list_values r U = Some (filter (λ x, x < vmax) U)) ∧
  (∃ r, new_leq U d u = Some r ∧ list_values r U = Some (filter (λ x, x ≤ vmax) U)) ∧
  (∀ T, within s T → ∃ r vs, new_eq U s T = Some r ∧ list_values s T = Some vs ∧
     list_values r U = Some (filter (.∈ vs) U)) ∧
  (vmin ≤ vmax → mask_fits U vmax →
   ∃ r, new_eq U (Ranges.mkRange vmin vmax) () = Some r ∧
     list_values r U = Some (filter (λ x, vmin ≤ x ∧ Forall (λ y, vmax ≤ y → x ≤ y) U) U)).
Proof.
  intros HU Hl Hmin Hmax Hs. change MAX_LEN with 16%nat in Hl.
  pose proof (search_le U vmin HU) as [Ha Hm]. pose proof (search_le U vmax HU) as [Ha' Hm'].
  assert (∀ i x, U !! i = Some x → (vmin < x ↔ (after (binary_search U vmin) ≤ i)%nat) ∧
    (vmin ≤ x ↔ (merge_result (binary_search U vmin) ≤ i)%nat)) as Hlo
    by (intros; by apply search_after).
  assert (∀ i x, U !! i = Some x → (vmax < x ↔ (after (binary_search U vmax) ≤ i)%nat) ∧
    (vmax ≤ x ↔ (merge_result (binary_search U vmax) ≤ i)%nat)) as Hhi
    by (intros; by apply search_after).
  split_and!.
  - by apply all_values.
  - destruct (complement_values s U Hl (strict_sorted_NoDup U HU) Hs) as (r & Hr & Hv).
    exists r. eexists. split; [done|]. split; [|exact Hv]. apply list_values_eq. lia.
  - unfold new_gt. rewrite Hmin. simpl. apply span_values; [done|done|].
    intros i x Hx. apply (Hlo i x Hx).
  - unfold new_geq. rewrite Hmin. simpl. apply span_values; [done|done|].
    intros i x Hx. apply (Hlo i x Hx).
  - unfold new_lt. rewrite Hmax. simpl.
    destruct (low_mask_values (λ x, x < vmax) U _ Hl Hm') as (b & -> & Hb).
    { intros i x Hx. destruct (Hhi i x Hx). lia. }
    by eexists.
  - unfold new_leq. rewrite Hmax. simpl.
    destruct (low_mask_values (λ x, x ≤ vmax) U _ Hl Ha') as (b & -> & Hb).
    { intros i x Hx. destruct (Hhi i x Hx). lia. }
    by eexists.
  - intros T HT. destruct (ns_into_num_set_spec s T U HT HU) as (r & Hr & Hv); [lia|].
    exists r. eexists. split; [exact Hr|]. split; [by apply list_values_eq, HT|exact Hv].
  - intros Hv Hfit. destruct (default_into_reached U vmin vmax HU Hv Hfit) as (r & Hr & Hbit).
    exists r. split; [exact Hr|]. apply values_filter; [lia|exact Hbit].
Qed.

Lemma numeric_set_constructors_witness :
  ∃ r, @new_gt debug_profile Z unit (@u32_num_set debug_profile) [2; 4; 8] 2 () = Some r ∧
       @list_values debug_profile r [2; 4; 8] = Some [4; 8].
Proof.
  refine (proj1 (proj2 (proj2 (@numeric_set_constructors debug_profile Z unit (@u32_num_set debug_profile)
    [2; 4; 8] 2 () 2 2 FAILED _ _ eq_refl eq_refl _)))).
  - repeat constructor.
  - vm_compute. lia.
  - vm_compute. split; congruence.
Defined.

(** [restrict] is intersection, [insert] is union and [contains] is inclusion of
    the values that two bit sets of the same universe enable; [into_num_set] to another
    universe keeps exactly the values that belong to it. *)
Theorem numeric_set_lattice `{Profile} (s o : NumericSet) (U T : list Z) :
  within s U → within o U → strict_sorted T → (length T ≤ MAX_LEN)%nat →
  ∃ vs vo, list_values s U = Some vs ∧ list_values o U = Some vo ∧
    list_values (restrict s o) U = Some (filter (λ v, v ∈ vs ∧ v ∈ vo) U) ∧
    list_values (insert s o) U = Some (filter (λ v, v ∈ vs ∨ v ∈ vo) U) ∧
    (contains s o = true ↔ ∀ v, v ∈ vo → v ∈ vs) ∧
    ∃ t, into_num_set s U T = Some t ∧ list_values t T = Some (filter (.∈ vs) T).
Proof.
  intros Hs Ho HT Hl. assert (NoDup U) as HU by apply strict_sorted_NoDup, Hs.
  assert (length U ≤ 16)%nat as HlU by apply Hs.
  do 2 eexists. rewrite !list_values_eq by done.
  split; [done|]. split; [done|].
  rewrite restrict_values, insert_values by done. do 2 (split; [done|]).
  split; [by apply contains_spec|]. by apply ns_into_num_set_spec.
Qed.

Lemma numeric_set_lattice_witness :
  ∃ vs vo, @list_values debug_profile (mkNumericSet 5) [2; 4; 8] = Some vs ∧
           @list_values debug_profile (mkNumericSet 3) [2; 4; 8] = Some vo.
Proof.
  destruct (@numeric_set_lattice debug_profile (mkNumericSet 5) (mkNumericSet 3)
    [2; 4; 8] [4; 8]) as (vs & vo & Hs & Ho & _).
  - split; [vm_compute; split; congruence|]. split; [simpl; lia|repeat constructor].
  - split; [vm_compute; split; congruence|]. split; [simpl; lia|repeat constructor].
  - repeat constructor.
  - vm_compute; lia.
  - exists vs, vo. split; assumption.
Defined.

(** With the 16 values that the bit set is documented to hold, [all] does not
    return the full set: it panics when overflow is checked, and returns the empty
    (failed) domain when it is not. *)
Theorem numeric_set_all_sixteen (U : list Z) :
  (@all debug_profile U = None ↔ (16 ≤ length U)%nat) ∧
  (length U = 16%nat → @all release_profile U = Some FAILED).
Proof.
  split.
  - split.
    + intros Hall. destruct (decide (16 ≤ length U)%nat); [done|].
      destruct (@all_values debug_profile U ltac:(lia)) as (r & Hr & _). congruence.
    + intros Hl. unfold all, low_mask, ushl.
      assert ((Z.of_nat (length U) <? 16) = false) as -> by (apply Z.ltb_ge; lia). done.
  - intros Hl. unfold all, low_mask, ushl. rewrite Hl. done.
Qed.

Lemma numeric_set_all_sixteen_witness :
  @all release_profile (replicate 16 7) = Some FAILED.
Proof. apply (proj2 (numeric_set_all_sixteen (replicate 16 7))). reflexivity. Defined.

(** C36: a comparison between any two domains that honour the contract of [NumSet]
    returns, and when it answers [true] the comparison holds between every value of
    the one and every value of the other.  The [is_neq] of bit sets, which also looks for
    common values, does so too, when the other domain has a value and honours the contract
    of [into_num_set], over a universe of less than 15 values. *)
Theorem num_set_comparisons_sound {D V D' V' : Type} `{Profile} `{NumSetOk D V} `{NumSetIntoOk D' V'}
    (d : D) (u : V) (o : D') (ou : V') :
  num_wf d u → num_wf o ou →
  (∃ lt gt le ge eq ne,
    is_lt d u o ou = Some lt ∧ is_gt d u o ou = Some gt ∧
    is_leq d u o ou = Some le ∧ is_geq d u o ou = Some ge ∧
    is_eq d u o ou = Some eq ∧ is_neq d u o ou = Some ne ∧
    ∀ a b, num_values d u a → num_values o ou b →
      (lt = true → a < b) ∧ (gt = true → b < a) ∧ (le = true → a ≤ b) ∧
      (ge = true → b ≤ a) ∧ (eq = true → a = b) ∧ (ne = true → a ≠ b)) ∧
  ∀ (s : NumericSet) (U : list Z) c, num_wf s U → (S (length U) < MAX_LEN)%nat → num_values o ou c →
    ∃ ne, ns_is_neq s U o ou = Some ne ∧
      ∀ a b, num_values s U a → num_values o ou b → ne = true → a ≠ b.
Proof.
  intros Hd Ho. assert (∀ T W `{NumSetOk T W} (t : T) (w : W), num_wf t w → ∃ ne, is_neq t w o ou = Some ne ∧
    ∀ a b, num_values t w a → num_values o ou b → ne = true → a ≠ b) as Hneq.
  { intros T W ?? t w Ht. destruct (num_min_ok t w Ht) as (mn & Hmn & Hmn'), (num_max_ok t w Ht) as (mx & Hmx & Hmx').
    destruct (num_min_ok o ou Ho) as (omn & Homn & Homn'), (num_max_ok o ou Ho) as (omx & Homx & Homx').
    unfold is_neq. rewrite Hmn, Hmx, Homn, Homx. cbn [mbind option_bind].
    exists ((omx <? mn) || (mx <? omn)). split; [by destruct (omx <? mn)|]. intros a b Ha Hb.
    specialize (Hmn' a Ha). specialize (Hmx' a Ha). specialize (Homn' b Hb). specialize (Homx' b Hb).
    rewrite orb_true_iff, !Z.ltb_lt. lia. }
  split.
  - destruct (Hneq D V _ _ d u Hd) as (ne & Hne & Hneok).
    destruct (num_min_ok d u Hd) as (mn & Hmn & Hmn').
    destruct (num_max_ok d u Hd) as (mx & Hmx & Hmx').
    destruct (num_min_ok o ou Ho) as (omn & Homn & Homn').
    destruct (num_max_ok o ou Ho) as (omx & Homx & Homx').
    exists (mx <? omn), (omx <? mn), (mx <=? omn), (omx <=? mn), ((mn =? omx) && (mx =? omn)), ne.
    unfold is_lt, is_gt, is_leq, is_geq, is_eq. rewrite Hmn, Hmx, Homn, Homx. cbn [mbind option_bind].
    split_and!; try done; [by destruct (mn =? omx)|].
    intros a b Ha Hb. specialize (Hneok a b Ha Hb). specialize (Hmn' a Ha). specialize (Hmx' a Ha).
    specialize (Homn' b Hb). specialize (Homx' b Hb).
    rewrite !andb_true_iff, !Z.ltb_lt, !Z.leb_le, !Z.eqb_eq. split_and!; try done; lia.
  - intros s U c Hs Hl Hc. destruct (Hneq NumericSet (list Z) _ _ s U Hs) as (ne & Hne & Hneok).
    unfold ns_is_neq. rewrite Hne. cbn [mbind option_bind]. destruct ne; [by exists true|].
    destruct (num_into_ok o ou U c Ho Hc) as (t & Ht & Hcommon); [apply Hs|done|].
    rewrite Ht. cbn [mbind option_bind]. exists (is_failed t). split; [done|]. intros a b Ha Hb Hf ->.
    rewrite (Hcommon b) in Hf; [done| |done].
    apply elem_of_bit_values in Ha as (j & Hj & _). by eapply list_elem_of_lookup_2.
Qed.

Lemma num_set_comparisons_sound_witness :
  (∃ lt gt le ge eq ne,
    @is_lt Ranges.Range unit (@Ranges.range_num_set debug_profile) Z unit
      (@u32_num_set debug_profile) (Ranges.mkRange 1 3) () 5 () = Some lt ∧ lt = true ∧
    gt = false ∧ le = true ∧ ge = false ∧ eq = false ∧ ne = true) ∧
  ∃ ne, @ns_is_neq debug_profile Z unit (@u32_num_set debug_profile) (mkNumericSet 3) [2; 4; 8] 4 () = Some ne ∧
    (ne = true → 4 ≠ 4).
Proof.
  pose proof (@num_set_comparisons_sound Ranges.Range unit Z unit debug_profile
    (@Ranges.range_num_set debug_profile) (@range_num_ok debug_profile)
    (@u32_num_set debug_profile) (@u32_num_ok debug_profile) (@u32_into_ok debug_profile)
    (Ranges.mkRange 1 3) ()) as Hc. split.
  - destruct (proj1 (Hc 5 () I I)) as (lt & gt & le & ge & eq & ne & H1 & H2 & H3 & H4 & H5 & H6 & _).
    exists lt, gt, le, ge, eq, ne.
    injection H1 as <-. injection H2 as <-. injection H3 as <-. injection H4 as <-.
    injection H5 as <-. injection H6 as <-. repeat split.
  - destruct (proj2 (Hc 4 () I I) (mkNumericSet 3) [2; 4; 8] 4) as (ne & Hne & Hab).
    + split; [vm_compute; split; congruence|]. split; [vm_compute; lia|]. repeat constructor.
    + vm_compute. lia.
    + reflexivity.
    + exists ne. split; [exact Hne|]. apply Hab; [|reflexivity].
      apply elem_of_bit_values. exists 1%nat. by split.
Defined.

(** Against a range that goes beyond a universe of 15 values, the mask of [into_num_set] is
    shifted by the whole width: [is_neq] panics when overflow is checked, and answers that
    the domains are disjoint when it is not, although 0 is in both. *)
Example is_neq_wide_range :
  let neq (P : Profile) := ns_is_neq (mkNumericSet 1) (Z.of_nat <$> seq 0 15) (Ranges.mkRange 0 100) () in
  neq debug_profile = None ∧ neq release_profile = Some true.
Proof. by vm_compute. Qed.

(** The default [into_num_set] is exact when the upper bound of the domain belongs
    to the new universe; when it does not, but the universe goes beyond it, the
    result also allows a value of the universe above the upper bound. *)
Theorem default_into_num_set_bounds `{Profile} (U : list Z) (vmin vmax : Z) :
  strict_sorted U → (length U < MAX_LEN)%nat → vmin ≤ vmax →
  (vmax ∈ U → ∃ s, default_into_num_set (Some vmin) (Some vmax) U = Some s ∧
     list_values s U = Some (filter (λ x, vmin ≤ x ≤ vmax) U)) ∧
  (vmax ∉ U → (∃ x, x ∈ U ∧ vmax < x) →
   ∃ s vs y, default_into_num_set (Some vmin) (Some vmax) U = Some s ∧
     list_values s U = Some vs ∧ y ∈ vs ∧ vmax < y).
Proof.
  intros HU Hl Hv. change MAX_LEN with 16%nat in Hl.
  pose proof (search_le U vmin HU) as [_ Hm]. pose proof (search_le U vmax HU) as [_ Hm'].
  set (p := merge_result (binary_search U vmin)) in *.
  set (q := merge_result (binary_search U vmax)) in *.
  assert (∀ i x, U !! i = Some x → (vmin ≤ x ↔ (p ≤ i)%nat)) as Hp
    by (intros i x Hx; by apply (search_after U vmin i x)).
  assert (∀ i x, U !! i = Some x → (vmax ≤ x ↔ (q ≤ i)%nat)) as Hq
    by (intros i x Hx; by apply (search_after U vmax i x)).
  assert ((q < length U)%nat → ∃ s, default_into_num_set (Some vmin) (Some vmax) U = Some s ∧
    (∀ i, (i < 16)%nat → bit s i = ((p <=? i) && (i <? S q))%nat) ∧ (p ≤ q)%nat) as Hdef.
  { intros Hql. assert (p ≤ q)%nat as Hpq.
    { destruct (lookup_lt_is_Some_2 U q Hql) as [x Hx].
      apply (Hp q x Hx). pose proof (proj2 (Hq q x Hx) ltac:(lia)). lia. }
    destruct (span_ok p (S q - p)) as (s & Hs & Hbit); [lia..|].
    exists s. replace (p + (S q - p))%nat with (S q) in Hbit by lia.
    split; [|done]. unfold default_into_num_set, search_merged.
    cbn [mbind option_bind]. fold p q. rewrite usub_ok by lia. cbn [mbind option_bind].
    rewrite uadd_ok by lia. cbn [mbind option_bind].
    replace (Z.of_nat q - Z.of_nat p + 1) with (Z.of_nat (S q - p)) by lia.
    unfold span, low_mask in Hs.
    destruct (ushl 16 1 (Z.of_nat (S q - p))) as [b|]; [|done]. exact Hs. }
  split.
  - intros Hin. apply list_elem_of_lookup_1 in Hin as [i Hi].
    assert (i = q) as ->.
    { pose proof (proj1 (Hq i vmax Hi) ltac:(lia)).
      assert (q < length U)%nat as Hql by (apply lookup_lt_Some in Hi; lia).
      destruct (lookup_lt_is_Some_2 U q Hql) as [x Hx].
      pose proof (proj2 (Hq q x Hx) ltac:(lia)).
      pose proof (sorted_le U q i x vmax HU Hx Hi ltac:(lia)).
      assert (x = vmax) as -> by lia. eapply NoDup_lookup; [|done|done].
      by apply strict_sorted_NoDup. }
    destruct Hdef as (s & Hs & Hbit & Hpq); [by eapply lookup_lt_Some|].
    exists s. split; [done|]. apply values_filter; [lia|]. intros j x Hx.
    assert (j < length U)%nat by by eapply lookup_lt_Some.
    rewrite Hbit by lia. rewrite andb_true_iff, Nat.leb_le, Nat.ltb_lt.
    rewrite (Hp j x Hx). split.
    + intros [? Hle]. split; [done|]. destruct (decide (j ≤ q)%nat); [lia|].
      pose proof (strict_sorted_lookup U q j vmax x HU Hi Hx ltac:(lia)) as Hlt.
      rewrite rlt_Z in Hlt. lia.
    + intros [? ?]. split; [done|]. apply (sorted_le U j q x vmax HU Hx Hi). lia.
  - intros Hnin (x & Hx & Hlt). apply list_elem_of_lookup_1 in Hx as [i Hi].
    pose proof (proj1 (Hq i x Hi) ltac:(lia)) as Hqi.
    assert (q < length U)%nat as Hql by (apply lookup_lt_Some in Hi; lia).
    destruct (lookup_lt_is_Some_2 U q Hql) as [y Hy].
    destruct (Hdef Hql) as (s & Hs & Hbit & Hpq).
    exists s. eexists. exists y. split; [done|].
    split; [apply list_values_eq; lia|]. split.
    + apply elem_of_bit_values. exists q. split; [done|]. fold (bit s (0 + q)).
      simpl. rewrite Hbit by lia. rewrite andb_true_iff, Nat.leb_le, Nat.ltb_lt. lia.
    + pose proof (proj2 (Hq q y Hy) ltac:(lia)).
      assert (y ≠ vmax); [|lia]. intros ->. apply Hnin; by eapply list_elem_of_lookup_2.
Qed.

(** [1, 4] converted to the universe 1, 2, 5 also allows 5. *)
Lemma default_into_num_set_bounds_witness :
  @default_into_num_set debug_profile (Some 1) (Some 4) [1; 2; 5] = Some (mkNumericSet 7) ∧
  ∃ s vs y, @default_into_num_set debug_profile (Some 1) (Some 4) [1; 2; 5] = Some s ∧
     @list_values debug_profile s [1; 2; 5] = Some vs ∧ y ∈ vs ∧ 4 < y.
Proof.
  split; [reflexivity|].
  refine (proj2 (@default_into_num_set_bounds debug_profile [1; 2; 5] 1 4 _ _ _) _ _).
  - repeat constructor.
  - vm_compute; lia.
  - lia.
  - rewrite !not_elem_of_cons. split; [lia|]. split; [lia|]. split; [lia|apply not_elem_of_nil].
  - exists 5. split; [do 2 right; left|lia].
Defined.

Import Ranges.

(** The differences of ranges round-trip: with checked arithmetic, applying to a
    range the additive difference with a range it contains gives that range back, and
    so does the multiplicative one when the bounds divide each other; adding and then
    subtracting a contribution to a counter range restores it. *)
Theorem range_diff_roundtrip (s o : Range) :
  0 ≤ rmin s ≤ u32_max → 0 ≤ rmax s ≤ u32_max →
  0 ≤ rmin o ≤ u32_max → 0 ≤ rmax o ≤ u32_max →
  (contains s o = true →
     ∃ d, @get_diff_add debug_profile s o = Some d ∧
          @apply_diff_add debug_profile s d = Some o) ∧
  (0 < rmin s → 0 < rmax o → (rmin s | rmin o) → (rmax o | rmax s) → 0 < rmax s →
     ∃ d, get_diff_mul s o = Some d ∧ @apply_diff_mul debug_profile s d = Some o) ∧
  (∀ t, @add_add debug_profile s o = Some t → @sub_add debug_profile t o = Some s) ∧
  (∀ t, 0 < rmin o → 0 < rmax o →
     @add_mul debug_profile s o = Some t → sub_mul t o = Some s).
Proof.
  destruct s as [a b], o as [c e]. unfold u32_max. simpl. intros Ha Hb Hc He.
  unfold get_diff_add, apply_diff_add, get_diff_mul, apply_diff_mul, add_add, sub_add,
    add_mul, sub_mul, usub, uadd, umul, udiv, contains; simpl. split_and!.
  - rewrite andb_true_iff, !Z.leb_le. intros [Hl Hu]. rewrite !arith_ok by lia. simpl.
    eexists. split; [done|]. simpl. rewrite !arith_ok by lia. simpl. do 2 f_equal; lia.
  - intros Has Heo [k Hk] [m Hm] Hbs. subst.
    rewrite (proj2 (Z.eqb_neq a 0)), (proj2 (Z.eqb_neq e 0)) by lia. simpl.
    rewrite !Z.div_mul by lia. eexists. split; [done|]. simpl.
    assert (0 < m) by nia.
    rewrite (proj2 (Z.eqb_neq m 0)) by lia.
    rewrite arith_ok by lia. simpl. rewrite (Z.mul_comm m e), Z.div_mul by lia.
    do 2 f_equal; lia.
  - intros t. destruct (arith 32 (a + c)) as [x|] eqn:E1; [|done].
    destruct (arith 32 (b + e)) as [y|] eqn:E2; [|done]. intros [= <-].
    apply arith_checked in E1 as [<- _], E2 as [<- _]. simpl.
    rewrite !arith_ok by lia. simpl. do 2 f_equal; lia.
  - intros t Hc0 He0. destruct (arith 32 (a * c)) as [x|] eqn:E1; [|done].
    destruct (arith 32 (b * e)) as [y|] eqn:E2; [|done]. intros [= <-].
    apply arith_checked in E1 as [<- _], E2 as [<- _]. simpl.
    rewrite (proj2 (Z.eqb_neq c 0)), (proj2 (Z.eqb_neq e 0)) by lia. simpl.
    by rewrite !Z.div_mul by lia.
Qed.

Lemma range_diff_roundtrip_witness :
  ∃ d, @get_diff_add debug_profile (mkRange 1 9) (mkRange 2 4) = Some d ∧
       @apply_diff_add debug_profile (mkRange 1 9) d = Some (mkRange 2 4).
Proof.
  refine (proj1 (range_diff_roundtrip (mkRange 1 9) (mkRange 2 4) _ _ _ _) eq_refl);
    vm_compute; split; congruence.
Defined.
End properties.
