(* ===== verification/Types.v ===== *)
(** * Types, identifiers and errors of the IR

    src/ir/types.rs, src/ir/error.rs, src/ir/statement.rs, the parameters and
    signatures of src/ir/function.rs and what the IR asks of a device.  Identifiers
    ([DimId], [InstId], ...) are newtypes over an unsigned integer; they are [nat]
    here, and the truncating casts that build them are written out with [cast_nat]. *)
From S2P Require Import Prelude.

Notation DimId := nat (only parsing).
Notation InstId := nat (only parsing).
Notation MemId := nat (only parsing).
Notation VarId := nat (only parsing).
Notation IndVarId := nat (only parsing).
Notation LogicalDimId := nat (only parsing).
Notation DimMappingId := nat (only parsing).

(** ** Types *)
Inductive Ty : Type :=
| TyI (bits : Z)
| TyF (bits : Z)
| TyPtrTo (mem : MemId).

#[global] Instance Ty_eq_dec : EqDecision Ty.
Proof. solve_decision. Defined.

Definition is_integer (t : Ty) : bool :=
  match t with TyI _ | TyPtrTo _ => true | TyF _ => false end.

Definition is_float (t : Ty) : bool :=
  match t with TyF _ => true | TyI _ | TyPtrTo _ => false end.

Definition bitwidth (t : Ty) : option Z :=
  match t with TyI bits | TyF bits => Some bits | TyPtrTo _ => None end.

(** [div_ceil] of the utilities, on the [u32] it is used at: the quotient, plus one
    when the remainder is not zero; a zero divisor panics. *)
Definition div_ceil (lhs rhs : Z) : option Z :=
  if (rhs =? 0)%Z then panic else
  let quo := (lhs / rhs)%Z in
  let rem := (lhs mod rhs)%Z in
  if (rem =? 0)%Z then Some quo else Some (quo + 1)%Z.

Definition len_byte (t : Ty) : option Z := bits ← bitwidth t; div_ceil bits 8.

(** ** Statements *)
Inductive StmtId : Type :=
| SInst (id : InstId)
| SDim (id : DimId).

#[global] Instance StmtId_eq_dec : EqDecision StmtId.
Proof. solve_decision. Defined.

(** The derived order: instructions before dimensions. *)
Definition stmt_cmp (x y : StmtId) : comparison :=
  match x, y with
  | SInst i, SInst j => Nat.compare i j
  | SInst _, SDim _ => Lt
  | SDim _, SInst _ => Gt
  | SDim i, SDim j => Nat.compare i j
  end.

#[global, program] Instance StmtId_rust_ord : RustOrd StmtId := {| rcmp := stmt_cmp |}.
Next Obligation.
  intros [i|i] [j|j]; simpl; rewrite ?Nat.compare_eq_iff; split; congruence.
Qed.
Next Obligation. intros [i|i] [j|j]; simpl; try done; apply Nat.compare_antisym. Qed.
Next Obligation.
  intros [i|i] [j|j] [k|k]; simpl; try done; rewrite !Nat.compare_lt_iff; lia.
Qed.

(** ** Rounding modes and errors *)
Inductive Rounding : Type := Exact | Nearest | RZero | Positive | Negative.

#[global] Instance Rounding_eq_dec : EqDecision Rounding.
Proof. solve_decision. Defined.

Inductive ExpectedType : Type :=
| ExpInteger
| ExpFloat
| ExpSpecific (t : Ty).

Inductive TypeError : Type :=
| InvalidType (t : Ty)
| ExpectedReturnType (inst : InstId)
| InvalidRounding (rounding : Rounding) (t : Ty)
| WrongType (given : Ty) (expected : ExpectedType)
| UnexpectedType (t : Ty).

Inductive Error : Type :=
| EType (e : TypeError)
| InvalidDimSize
| DuplicateIncrement (dim : DimId)
| MissingIterationDim (dim : DimId)
| MissingDimMapping (lhs rhs : DimId).

(** [From<ir::Type> for ExpectedType] and [From<TypeError> for Error]. *)
Definition expected_of_type (t : Ty) : ExpectedType := ExpSpecific t.

Definition error_of_type_error {T : Type} (r : result T TypeError) : result T Error :=
  match r with ROk v => ROk v | RErr e => RErr (EType e) end.

Definition check_equals (given expected : Ty) : result unit TypeError :=
  if decide (given = expected) then ROk tt
  else RErr (WrongType given (expected_of_type expected)).

Definition check_integer (given : Ty) : result unit TypeError :=
  if is_integer given then ROk tt else RErr (WrongType given ExpInteger).

Definition check_float (given : Ty) : result unit TypeError :=
  if is_float given then ROk tt else RErr (WrongType given ExpFloat).

Definition rounding_check (rounding : Rounding) (t : Ty) : result unit TypeError :=
  if xorb (is_float t) (bool_decide (rounding = Exact)) then ROk tt
  else RErr (InvalidRounding rounding t).

(** ** Parameters and signatures *)
Record FunParam := mkFunParam {
  param_name : string; param_t : Ty; param_elem_t : option Ty
}.

#[global] Instance FunParam_eq_dec : EqDecision FunParam.
Proof. solve_decision. Defined.

(** What the IR asks of a device: [check_type], and [pointer_type] at the global
    memory space, the only one the IR passes to it. *)
Record Device := mkDevice {
  check_type : Ty → result unit TypeError;
  pointer_type_global : Ty
}.

Record Signature := mkSignature { sig_name : string; sig_params : list FunParam }.

Definition signature_new (name : string) : Signature := mkSignature name [].

Definition add_scalar (name : string) (t : Ty) (s : Signature) : Signature :=
  mkSignature (sig_name s) (sig_params s ++ [mkFunParam name t None]).

Definition add_array (device : Device) (name : string) (elem_t : Ty) (s : Signature)
  : Signature :=
  mkSignature (sig_name s)
    (sig_params s ++ [mkFunParam name (pointer_type_global device) (Some elem_t)]).

(** * Theorems *)

Lemma len_byte_spec t n :
  len_byte t = Some n ↔
  ∃ bits, bitwidth t = Some bits ∧ (8 * (n - 1) < bits ≤ 8 * n)%Z.
Proof.
  unfold len_byte, div_ceil. destruct (bitwidth t) as [bits|]; simpl; [|naive_solver].
  pose proof (Z.div_mod bits 8 ltac:(lia)) as Hd.
  pose proof (Z.mod_pos_bound bits 8 ltac:(lia)) as Hm.
  destruct (Z.eqb_spec (bits mod 8) 0); split.
  - intros [= <-]. exists bits. split; [done|lia].
  - intros (b & [= <-] & ?). f_equal. lia.
  - intros [= <-]. exists bits. split; [done|lia].
  - intros (b & [= <-] & ?). f_equal. lia.
Qed.

Lemma len_byte_None t : len_byte t = None ↔ ∃ mem, t = TyPtrTo mem.
Proof.
  unfold len_byte, div_ceil. destruct t as [b|b|m]; simpl.
  - destruct (Z.eqb (b mod 8) 0); split; [done|naive_solver..].
  - destruct (Z.eqb (b mod 8) 0); split; [done|naive_solver..].
  - naive_solver.
Qed.

Lemma check_equals_ok t u : check_equals t u = ROk tt ↔ t = u.
Proof. unfold check_equals. case_decide; naive_solver. Qed.

Lemma rounding_check_ok r t :
  rounding_check r t = ROk tt ↔ (is_float t = true ↔ r ≠ Exact).
Proof.
  unfold rounding_check. destruct (is_float t), (bool_decide_reflect (r = Exact)); simpl;
    naive_solver.
Qed.
