(* ===== verification/Utils.v ===== *)
(** * Small helpers (telamon-utils/src/lib.rs and iterator.rs)

    Three-valued booleans, integer helpers, the comparison of floats and the iterator
    adaptors that the rest of the program uses. *)
From S2P Require Import Prelude Types.
From Stdlib Require Import Floats.SpecFloat.

(** ** Trivalent *)
Inductive Trivalent := TFalse | TMaybe | TTrue.

#[global] Instance Trivalent_eq_dec : EqDecision Trivalent.
Proof. solve_decision. Defined.

Definition as_bool (t : Trivalent) : option bool :=
  match t with TFalse => Some false | TMaybe => None | TTrue => Some true end.

Definition maybe_true (t : Trivalent) : bool := negb (bool_decide (t = TFalse)).
Definition maybe_false (t : Trivalent) : bool := negb (bool_decide (t = TTrue)).
Definition is_true (t : Trivalent) : bool := bool_decide (t = TTrue).
Definition is_false (t : Trivalent) : bool := bool_decide (t = TFalse).
Definition is_maybe (t : Trivalent) : bool := bool_decide (t = TMaybe).

Definition bitand (self rhs : Trivalent) : Trivalent :=
  match self, rhs with
  | TFalse, _ | _, TFalse => TFalse
  | TMaybe, _ | _, TMaybe => TMaybe
  | TTrue, TTrue => TTrue
  end.

Definition bitor (self rhs : Trivalent) : Trivalent :=
  match self, rhs with
  | TTrue, _ | _, TTrue => TTrue
  | TMaybe, _ | _, TMaybe => TMaybe
  | TFalse, TFalse => TFalse
  end.

Definition tnot (self : Trivalent) : Trivalent :=
  match self with TFalse => TTrue | TMaybe => TMaybe | TTrue => TFalse end.

(** ** Integers *)

Definition count_ones (w : nat) (x : Z) : nat :=
  length (filter (λ i, Z.testbit x (Z.of_nat i) = true) (seq 0 w)).

Definition trailing_zeros (w : nat) (x : Z) : nat :=
  default w (head (filter (λ i, Z.testbit x (Z.of_nat i) = true) (seq 0 w))).

Definition log2_u32 (x : Z) : option nat :=
  if count_ones 32 x =? 1 then Some (trailing_zeros 32 x) else None.

(** ** Floats: an [f64] is an IEEE 754 binary64 value. *)
Definition f64 : Type := spec_float.
Definition f64_prec : Z := 53.
Definition f64_emax : Z := 1024.

(** [std::f64::EPSILON], 2^-52. *)
Definition EPSILON : f64 := S754_finite false 4503599627370496 (-104).

Definition is_nan (a : f64) : bool := match a with S754_nan => true | _ => false end.

Definition cmp_f64 (a b : f64) : option comparison :=
  if is_nan a || is_nan b then panic
  else if SFltb a b then Some Lt
  else if SFltb (SFabs (SFsub f64_prec f64_emax a b)) EPSILON then Some Eq
  else Some Gt.

(** ** Iterators *)
Record ZipCopy (I T : Type) := mkZipCopy { zc_it : list I; zc_object : option T }.
Arguments mkZipCopy {I T} _ _.
Arguments zc_it {I T} _.
Arguments zc_object {I T} _.

Definition zip_copy {I T : Type} (it : list I) (object : T) : ZipCopy I T :=
  mkZipCopy it ((λ _, object) <$> head it).

(** The object itself goes with the last element. *)
Definition zip_copy_next {I T : Type} (z : ZipCopy I T)
  : option (option (I * T) * ZipCopy I T) :=
  match zc_it z with
  | [] => Some (None, z)
  | lhs :: it =>
    match it with
    | [] => rhs ← zc_object z; Some (Some (lhs, rhs), mkZipCopy it None)
    | _ => rhs ← zc_object z; Some (Some (lhs, rhs), mkZipCopy it (zc_object z))
    end
  end.

Fixpoint zip_copy_collect {I T : Type} (fuel : nat) (z : ZipCopy I T) : option (list (I * T)) :=
  match fuel with
  | 0 => None
  | S fuel =>
    '(out, z) ← zip_copy_next z;
    match out with
    | None => Some []
    | Some x => rest ← zip_copy_collect fuel z; Some (x :: rest)
    end
  end.

Definition to_map {K V : Type} `{Countable K} (it : list (K * V)) (merge : V → V → V)
  : gmap K V :=
  foldl (λ map '(k, v),
    let v := match map !! k with Some old_v => merge old_v v | None => v end in
    <[k := v]> (delete k map)) ∅ it.

(** [BuilderTrait::doif]. *)
Definition doif {B : Type} (flag : bool) (f : B → B) (self : B) : B :=
  if flag then f self else self.

(** ** Theorems *)

(** The booleans that a three-valued boolean may stand for. *)
Definition admits (t : Trivalent) (b : bool) : Prop :=
  match t with TFalse => b = false | TMaybe => True | TTrue => b = true end.

(** The operators on [Trivalent] are exact: the value computed admits a boolean
    if and only if some booleans admitted by the operands give it, so no information
    is lost and none is invented; and the queries tell exactly which booleans are
    admitted. *)
Theorem trivalent_exact (t u : Trivalent) :
  (∀ c, admits (bitand t u) c ↔ ∃ a b, admits t a ∧ admits u b ∧ c = a && b) ∧
  (∀ c, admits (bitor t u) c ↔ ∃ a b, admits t a ∧ admits u b ∧ c = a || b) ∧
  (∀ c, admits (tnot t) c ↔ ∃ a, admits t a ∧ c = negb a) ∧
  (maybe_true t = true ↔ admits t true) ∧ (maybe_false t = true ↔ admits t false) ∧
  (∀ b, as_bool t = Some b ↔ ∀ c, admits t c ↔ c = b) ∧
  (is_true t = true ↔ as_bool t = Some true) ∧
  (is_false t = true ↔ as_bool t = Some false) ∧
  (is_maybe t = true ↔ as_bool t = None).
Proof.
  assert (∀ (P : bool → Prop), (∃ b, P b) ↔ P true ∨ P false) as Hex.
  { intros P. split; [intros [[] ?]; auto|intros [?|?]; eauto]. }
  assert (∀ (P : bool → Prop), (∀ b, P b) ↔ P true ∧ P false) as Hall.
  { intros P. split; [auto|intros [? ?] []; auto]. }
  unfold maybe_true, maybe_false, is_true, is_false, is_maybe.
  rewrite !negb_true_iff, !bool_decide_eq_true, !bool_decide_eq_false.
  repeat setoid_rewrite Hex. repeat setoid_rewrite Hall.
  destruct t, u; cbn; intuition congruence.
Qed.

(** *** Integers *)
Lemma testbit_above x i : (0 ≤ x < 2 ^ 32)%Z → (32 ≤ i)%nat → Z.testbit x (Z.of_nat i) = false.
Proof.
  intros Hx Hi. destruct (decide (x = 0)%Z) as [->|Hne]; [apply Z.bits_0|].
  apply Z.bits_above_log2; [lia|]. apply Z.log2_lt_pow2; [lia|].
  eapply Z.lt_le_trans; [apply Hx|]. apply Z.pow_le_mono_r; lia.
Qed.

Lemma set_bits_singleton x n :
  (0 ≤ x < 2 ^ 32)%Z →
  filter (λ i, Z.testbit x (Z.of_nat i) = true) (seq 0 32) = [n] ↔ x = (2 ^ Z.of_nat n)%Z.
Proof.
  intros Hx. set (l := filter _ _).
  assert (∀ i, i ∈ l ↔ Z.testbit x (Z.of_nat i) = true) as Hl.
  { intros i. unfold l. rewrite list_elem_of_filter, elem_of_seq. split; [by intros []|].
    intros Hi. split; [done|]. destruct (decide (i < 32)); [lia|].
    rewrite testbit_above in Hi; [done|done|lia]. }
  split.
  - intros E. rewrite E in Hl. apply Z.bits_inj'. intros i Hi.
    rewrite Z.pow2_bits_eqb by lia. specialize (Hl (Z.to_nat i)).
    rewrite list_elem_of_singleton, Z2Nat.id in Hl by done.
    destruct (Z.eqb_spec (Z.of_nat n) i) as [<-|Hne].
    + apply Hl. lia.
    + destruct (Z.testbit x i); [|done]. destruct Hne. rewrite <-(proj2 Hl); [lia|done].
  - intros Ex. apply Permutation_singleton_r, NoDup_Permutation.
    + apply NoDup_filter, NoDup_seq.
    + apply NoDup_singleton.
    + intros i. rewrite Hl, list_elem_of_singleton, Ex, Z.pow2_bits_eqb, Z.eqb_eq by lia. lia.
Qed.

(** On 32-bit values, [log2_u32] gives [n] exactly on [2^n], and [div_ceil] is the
    division rounded up: it panics on a zero divisor only, and the result is at most the
    dividend, so its increment never overflows. *)
Theorem integer_helpers_correct (x a b : Z) :
  (0 ≤ x < 2 ^ 32)%Z → (0 ≤ a < 2 ^ 32)%Z → (0 ≤ b)%Z →
  (∀ n, log2_u32 x = Some n ↔ x = 2 ^ Z.of_nat n)%Z ∧
  (b = 0 → div_ceil a b = None)%Z ∧
  (0 < b → ∃ q, div_ceil a b = Some q ∧ 0 ≤ q ≤ a ∧ (q - 1) * b < a ≤ q * b)%Z.
Proof.
  intros Hx Ha Hb. split_and!.
  - intros n. rewrite <-(set_bits_singleton x n Hx).
    unfold log2_u32, count_ones, trailing_zeros.
    destruct (filter _ _) as [|i [|j l]]; cbn; split; congruence.
  - intros ->. done.
  - intros Hb'. unfold div_ceil. destruct (Z.eqb_spec b 0) as [|_]; [lia|].
    pose proof (Z.div_mod a b ltac:(lia)) as Hdm.
    pose proof (Z.mod_pos_bound a b Hb') as Hm.
    pose proof (Z.div_pos a b ltac:(lia) Hb') as Hq.
    destruct (Z.eqb_spec (a mod b) 0) as [E|E]; eexists; (split; [done|]); nia.
Qed.

Lemma integer_helpers_correct_witness :
  (∀ n, log2_u32 8 = Some n ↔ 8 = 2 ^ Z.of_nat n)%Z ∧
  (3 = 0 → div_ceil 7 3 = None)%Z ∧
  (0 < 3 → ∃ q, div_ceil 7 3 = Some q ∧ 0 ≤ q ≤ 7 ∧ (q - 1) * 3 < 7 ≤ q * 3)%Z.
Proof. apply (integer_helpers_correct 8 7 3); lia. Defined.

(** *** Floats *)

(** [cmp_f64] panics exactly on a NaN, and compares every other float with itself as
    equal, except that an infinity is greater than itself. *)
Theorem cmp_f64_diagonal (a b : f64) :
  (cmp_f64 a b = None ↔ is_nan a = true ∨ is_nan b = true) ∧
  cmp_f64 a a = match a with
                | S754_nan => None
                | S754_infinity _ => Some Gt
                | _ => Some Eq
                end.
Proof.
  split.
  - unfold cmp_f64. destruct (is_nan a), (is_nan b); cbn -[SFltb SFsub];
      repeat case_match; naive_solver.
  - unfold cmp_f64. destruct a as [[]|[]| |s m e]; [done..|].
    assert (SFltb (S754_finite s m e) (S754_finite s m e) = false) as ->.
    { unfold SFltb, SFcompare. rewrite Z.compare_refl.
      destruct s; rewrite ?Pos.compare_cont_refl; done. }
    unfold SFsub. cbn -[SFltb EPSILON]. rewrite Z.sub_diag. done.
Qed.

(** *** Iterators *)
Lemma zip_copy_collect_object {I T : Type} (it : list I) (object : T) fuel :
  length it < fuel →
  zip_copy_collect fuel (mkZipCopy it (Some object)) = Some ((λ i, (i, object)) <$> it).
Proof.
  revert fuel. induction it as [|i it IH]; intros [|fuel] Hf; cbn in Hf; try lia; [done|].
  cbn [zip_copy_collect]. unfold zip_copy_next. cbn [zc_it zc_object].
  destruct it as [|j it]; cbn [mbind option_bind]; [destruct fuel; [cbn in *; lia|done]|].
  rewrite IH by (cbn in *; lia). done.
Qed.

(** The values of the pairs of key [k], in order. *)
Definition values_of {K V : Type} `{EqDecision K} (k : K) (it : list (K * V)) : list V :=
  (filter (λ p, p.1 = k) it).*2.

Lemma to_map_app {K V : Type} `{Countable K} (it : list (K * V)) merge k v :
  to_map (it ++ [(k, v)]) merge
  = <[k := from_option (λ o, merge o v) v (to_map it merge !! k)]> (to_map it merge).
Proof.
  unfold to_map. rewrite foldl_app. cbn. rewrite insert_delete_eq.
  by destruct (foldl _ _ _ !! k).
Qed.

(** [zip_copy] pairs every element with the object and never unwraps an absent
    object; [to_map] binds each key to the values that come with it, merged from the
    first to the last. *)
Theorem iterator_adaptors_correct {I T K V : Type} `{Countable K} (it : list I) (object : T)
    (pairs : list (K * V)) (merge : V → V → V) :
  zip_copy_collect (S (length it)) (zip_copy it object) = Some ((λ i, (i, object)) <$> it) ∧
  ∀ k, to_map pairs merge !! k = fold1 merge (values_of k pairs).
Proof.
  split.
  - unfold zip_copy. destruct it as [|i it]; [done|]. cbn [head fmap option_fmap option_map].
    apply zip_copy_collect_object. lia.
  - intros k. induction pairs as [|[k' v] pairs IH] using rev_ind; [done|].
    rewrite to_map_app. unfold values_of in *. rewrite filter_app, fmap_app, filter_cons.
    cbn [fst]. destruct (decide (k' = k)) as [->|Hne].
    + rewrite lookup_insert_eq, IH. cbn.
      destruct (filter _ pairs).*2 as [|u l]; [done|]. cbn. by rewrite fold_left_app.
    + rewrite lookup_insert_ne, IH by done. cbn. by rewrite app_nil_r.
Qed.
