(* ===== verification/Size.v ===== *)
(** * Sizes (src/ir/size.rs)

    [Size] is a known product of a constant and of parameters; [PartialSize] also has
    factors and divisors that are dimensions whose size is not decided yet. *)
From S2P Require Import Prelude VecSet Types.

Record Size := mkSize { size_factor : Z; size_params : list FunParam; max_val : Z }.

Definition size_default : Size := mkSize 1 [] 1.

Definition size_new (factor : Z) (params : list FunParam) (max_val : Z) : Size :=
  mkSize factor params max_val.

Definition size_new_const (factor : Z) : Size :=
  mkSize factor (size_params size_default) factor.

Definition size_new_param (param : FunParam) (max_val : Z) : Size :=
  mkSize (size_factor size_default) [param] max_val.

Definition as_constant (s : Size) : option Z :=
  match size_params s with [] => Some (size_factor s) | _ => None end.

Definition size_max (s : Size) : Z := max_val s.

Record PartialSize := mkPartialSize {
  static_factor : Z;
  param_factors : list FunParam;
  dim_factors : list DimId;
  divisors : list DimId
}.

#[global] Instance PartialSize_eq_dec : EqDecision PartialSize.
Proof. solve_decision. Defined.

Definition psize_default : PartialSize := mkPartialSize 1 [] [] [].

Definition psize_new (factor : Z) (params : list FunParam) : option PartialSize :=
  rassert (negb (factor =? 0)%Z) ;;
  Some (mkPartialSize factor params (dim_factors psize_default) (divisors psize_default)).

Definition psize_new_dim_size (dim : DimId) : PartialSize :=
  mkPartialSize (static_factor psize_default) (param_factors psize_default)
    (vs_new [dim]) (divisors psize_default).

(** The unsafe [relative_difference] may panic only if its own bookkeeping is wrong;
    [Size.psize_simplify_value] shows that it never does here. *)
Definition simplify (s : PartialSize) : option PartialSize :=
  '(new_dim_factors, new_divisors) ← vs_relative_difference (dim_factors s) (divisors s);
  Some (mkPartialSize (static_factor s) (param_factors s) new_dim_factors new_divisors).

Definition add_divisors (divs : list DimId) (s : PartialSize) : option PartialSize :=
  simplify (mkPartialSize (static_factor s) (param_factors s) (dim_factors s)
              (vs_union (divisors s) divs)).

Definition as_int (s : PartialSize) : option Z :=
  let no_params := match param_factors s with [] => true | _ => false end in
  if no_params && vs_is_empty (dim_factors s) && vs_is_empty (divisors s)
  then Some (static_factor s) else None.

Definition psize_factors (s : PartialSize) : Z * list FunParam * list DimId :=
  (static_factor s, param_factors s, dim_factors s).

Definition psize_divisors (s : PartialSize) : list DimId := divisors s.

Section checked.
Context `{Profile}.

(** [MulAssign] of [Size]. *)
Definition size_mul_assign (lhs rhs : Size) : option Size :=
  f ← umul 32 (size_factor lhs) (size_factor rhs);
  Some (mkSize f (size_params lhs ++ size_params rhs)
          (sat_mul 32 (max_val lhs) (max_val rhs))).

(** [MulAssign] and [Mul] of [PartialSize]. *)
Definition psize_mul_assign (lhs rhs : PartialSize) : option PartialSize :=
  f ← umul 32 (static_factor lhs) (static_factor rhs);
  simplify (mkPartialSize f (param_factors lhs ++ param_factors rhs)
              (vs_union (dim_factors lhs) (dim_factors rhs))
              (vs_union (divisors lhs) (divisors rhs))).

Definition psize_mul (lhs rhs : PartialSize) : option PartialSize :=
  psize_mul_assign lhs rhs.

(** [Product]: one pass accumulates the factors of every size. *)
Definition product_step (acc : PartialSize) (s : PartialSize) : option PartialSize :=
  f ← umul 32 (static_factor acc) (static_factor s);
  Some (mkPartialSize f (param_factors acc ++ param_factors s)
          (dim_factors acc ++ dim_factors s) (divisors acc ++ divisors s)).

Definition psize_product (l : list PartialSize) : option PartialSize :=
  acc ← foldM product_step l psize_default;
  simplify (mkPartialSize (static_factor acc) (param_factors acc)
              (vs_new (dim_factors acc)) (vs_new (divisors acc))).
End checked.

(** [From<Size> for PartialSize]. *)
Definition psize_of_size (s : Size) : option PartialSize :=
  psize_new (size_factor s) (size_params s).

(** * Theorems *)

(** ** Well-formed sizes

    The dimension sets are sorted, the constant is positive and fits 32 bits, and the
    fraction is simplified. *)
Definition psize_wf (s : PartialSize) : Prop :=
  strict_sorted (dim_factors s) ∧ strict_sorted (divisors s) ∧
  (∀ d, d ∈ dim_factors s → d ∉ divisors s).

Lemma simplify_eq s :
  strict_sorted (dim_factors s) → strict_sorted (divisors s) →
  simplify s = Some (mkPartialSize (static_factor s) (param_factors s)
    (filter (.∉ divisors s) (dim_factors s)) (filter (.∉ dim_factors s) (divisors s))).
Proof.
  intros Hf Hd. unfold simplify. rewrite vs_relative_difference_filter by done.
  cbn [mbind option_bind]. do 2 f_equal; by apply list_filter_iff.
Qed.

Lemma simplify_wf s s' :
  strict_sorted (dim_factors s) → strict_sorted (divisors s) →
  simplify s = Some s' → psize_wf s'.
Proof.
  intros Hf Hd. rewrite simplify_eq by done. intros [= <-].
  split_and!; simpl; [by apply strict_sorted_filter..|].
  intros d [Hd1 Hd2]%list_elem_of_filter [Hd3 Hd4]%list_elem_of_filter. done.
Qed.

(** ** The value of a size

    [val p] and [dim d] are the values of the parameters and of the dimensions. *)
Section value.
Context (val : FunParam → Z) (dim : DimId → Z).

Definition zprod {A : Type} (f : A → Z) (l : list A) : Z :=
  foldr (λ x acc, (f x * acc)%Z) 1%Z l.

Definition numerator (s : PartialSize) : Z :=
  (static_factor s * zprod val (param_factors s) * zprod dim (dim_factors s))%Z.

Definition denominator (s : PartialSize) : Z := zprod dim (divisors s).

(** The two sizes denote the same fraction. *)
Definition same_value (a b : Z * Z) : Prop := (a.1 * b.2 = b.1 * a.2)%Z.

Definition value (s : PartialSize) : Z * Z := (numerator s, denominator s).

Definition size_value (s : Size) : Z := (size_factor s * zprod val (size_params s))%Z.

Lemma zprod_cons {A : Type} (f : A → Z) x l : zprod f (x :: l) = (f x * zprod f l)%Z.
Proof. done. Qed.

Lemma zprod_app {A : Type} (f : A → Z) l k :
  zprod f (l ++ k) = (zprod f l * zprod f k)%Z.
Proof.
  induction l as [|x l IH]; [change (zprod f k = 1 * zprod f k)%Z; lia|].
  rewrite <-app_comm_cons, !zprod_cons, IH. lia.
Qed.

#[global] Instance zprod_perm {A : Type} (f : A → Z) : Proper ((≡ₚ) ==> (=)) (zprod f).
Proof. induction 1; rewrite ?zprod_cons in *; lia. Qed.

Lemma zprod_pos {A : Type} (f : A → Z) l :
  (∀ x, x ∈ l → 0 < f x)%Z → (0 < zprod f l)%Z.
Proof.
  induction l as [|x l IH]; intros Hp; simpl; [lia|].
  apply Z.mul_pos_pos; [apply Hp; left|]. apply IH. intros y Hy. apply Hp. by right.
Qed.

Lemma zprod_filter_split {A : Type} (f : A → Z) (P : A → Prop) `{∀ x, Decision (P x)} l :
  zprod f l = (zprod f (filter P l) * zprod f (filter (λ x, ¬ P x) l))%Z.
Proof.
  induction l as [|x l IH]; [done|]. rewrite zprod_cons. destruct (decide (P x)) as [Hx|Hx].
  - rewrite filter_cons_True, (filter_cons_False (λ x, ¬ P x)) by tauto.
    rewrite !zprod_cons. lia.
  - rewrite filter_cons_False, (filter_cons_True (λ x, ¬ P x)) by tauto.
    rewrite !zprod_cons. lia.
Qed.

(** Removing what is common on both sides divides both by the same product. *)
Lemma zprod_common (l r : list DimId) :
  strict_sorted l → strict_sorted r →
  ∃ c, zprod dim l = (c * zprod dim (filter (.∉ r) l))%Z ∧
       zprod dim r = (c * zprod dim (filter (.∉ l) r))%Z ∧
       c = zprod dim (filter (.∈ r) l).
Proof.
  intros Hl Hr. exists (zprod dim (filter (.∈ r) l)).
  assert (filter (.∈ r) l = filter (.∈ l) r) as Hc.
  { apply strict_sorted_ext; [auto..|]. intros x. rewrite !list_elem_of_filter. tauto. }
  split_and!; [| |done].
  - rewrite (zprod_filter_split dim (.∈ r) l). f_equal.
  - rewrite (zprod_filter_split dim (.∈ l) r), Hc. f_equal.
Qed.

Lemma simplify_same_value s s' :
  strict_sorted (dim_factors s) → strict_sorted (divisors s) →
  simplify s = Some s' → same_value (value s) (value s').
Proof.
  intros Hf Hd. rewrite simplify_eq by done. intros [= <-].
  unfold same_value, value, numerator, denominator; simpl.
  destruct (zprod_common (dim_factors s) (divisors s) Hf Hd) as (c & H1 & H2 & _).
  rewrite H1, H2. lia.
Qed.

Lemma zprod_union (l r : list DimId) :
  strict_sorted l → strict_sorted r → (∀ d, d ∈ l → d ∉ r) →
  zprod dim (vs_union l r) = (zprod dim l * zprod dim r)%Z.
Proof.
  intros Hl Hr Hdis. rewrite <-zprod_app. apply zprod_perm, NoDup_Permutation.
  - by apply strict_sorted_NoDup, vs_union_sorted.
  - apply NoDup_app. split_and!; [by apply strict_sorted_NoDup|done|].
    by apply strict_sorted_NoDup.
  - intros x. rewrite elem_of_vs_union, elem_of_app. done.
Qed.

Lemma zprod_vs_new (l : list DimId) :
  NoDup l → zprod dim (vs_new l) = zprod dim l.
Proof.
  intros Hl. apply zprod_perm, NoDup_Permutation; [|done|].
  - apply strict_sorted_NoDup, vs_new_sorted.
  - intros x. apply elem_of_vs_new.
Qed.

(** The accumulators of [product]. *)
Lemma product_step_fields `{Profile} acc s acc' :
  product_step acc s = Some acc' →
  param_factors acc' = param_factors acc ++ param_factors s ∧
  dim_factors acc' = dim_factors acc ++ dim_factors s ∧
  divisors acc' = divisors acc ++ divisors s ∧
  umul 32 (static_factor acc) (static_factor s) = Some (static_factor acc').
Proof.
  unfold product_step. intros (f & Hf & [= <-])%bind_Some. done.
Qed.

Lemma foldM_product_step `{Profile} l acc acc' :
  foldM product_step l acc = Some acc' →
  param_factors acc' = param_factors acc ++ concat (param_factors <$> l) ∧
  dim_factors acc' = dim_factors acc ++ concat (dim_factors <$> l) ∧
  divisors acc' = divisors acc ++ concat (divisors <$> l).
Proof.
  revert acc. induction l as [|s l IH]; intros acc; cbn [foldM].
  - intros [= <-]. cbn. by rewrite !app_nil_r.
  - intros (a & (Hp & Hd & Hv & _)%product_step_fields & (-> & -> & ->)%IH)%bind_Some.
    rewrite Hp, Hd, Hv. cbn. by rewrite !app_assoc.
Qed.

Lemma foldM_product_value l acc acc' :
  foldM (@product_step debug_profile) l acc = Some acc' →
  numerator acc' = (numerator acc * zprod numerator l)%Z ∧
  denominator acc' = (denominator acc * zprod denominator l)%Z.
Proof.
  revert acc. induction l as [|s l IH]; intros acc; cbn [foldM].
  - intros [= <-]. cbn -[Z.mul]. lia.
  - intros (a & (Hp & Hd & Hv & Hm)%product_step_fields & [-> ->]%IH)%bind_Some.
    unfold umul in Hm. apply arith_checked in Hm as [Hm _]. rewrite !zprod_cons.
    unfold numerator at 1 3, denominator at 1 3.
    rewrite Hp, Hd, Hv, <-Hm, !zprod_app. unfold numerator, denominator. lia.
Qed.
End value.

Lemma same_value_refl a : same_value a a.
Proof. done. Qed.

(** ** Properties *)

(** Multiplying two sizes whose factors (and whose divisors) have no dimension in
    common gives a well-formed size of value the product of the two, and keeps the
    fraction simplified: no dimension is left on both sides. *)
Theorem partial_size_mul_value (val : FunParam → Z) (dim : DimId → Z)
    (a b c : PartialSize) :
  psize_wf a → psize_wf b →
  (∀ d, d ∈ dim_factors a → d ∉ dim_factors b) →
  (∀ d, d ∈ divisors a → d ∉ divisors b) →
  @psize_mul debug_profile a b = Some c →
  psize_wf c ∧
  same_value (value val dim c)
    (numerator val dim a * numerator val dim b, denominator dim a * denominator dim b)%Z.
Proof.
  intros (Hfa & Hda & Ha) (Hfb & Hdb & Hb) Hdf Hdd.
  unfold psize_mul, psize_mul_assign, umul.
  destruct (@arith debug_profile 32 (static_factor a * static_factor b))
    as [f|] eqn:E; [|done]. cbn [mbind option_bind].
  apply arith_checked in E as [<- _]. intros Hs. split.
  - eapply simplify_wf; [| |exact Hs]; by apply vs_union_sorted.
  - eapply (simplify_same_value val dim) in Hs; [|by apply vs_union_sorted..].
    unfold same_value, value, numerator, denominator in *. cbn -[Z.mul zprod] in *.
    rewrite !zprod_union, zprod_app in Hs by done. lia.
Qed.

Lemma partial_size_mul_value_witness :
  ∃ c, @psize_mul debug_profile (mkPartialSize 6 [] [1; 2] [3])%nat
         (mkPartialSize 5 [] [3] [2])%nat = Some c ∧
       psize_wf c ∧ as_int c = None.
Proof.
  eexists. split; [reflexivity|]. split; [|reflexivity].
  eapply (partial_size_mul_value (λ _, 1%Z) (λ _, 2%Z)
    (mkPartialSize 6 [] [1; 2] [3])%nat (mkPartialSize 5 [] [3] [2])%nat).
  - split_and!; cbn; [repeat constructor..|]. set_solver.
  - split_and!; cbn; [repeat constructor..|]. set_solver.
  - cbn. set_solver.
  - cbn. set_solver.
  - reflexivity.
Defined.

(** [Product] over sizes with pairwise distinct dimension factors and pairwise
    distinct divisors: the result is simplified and denotes the product of the values;
    it panics only when the product of the constants does not fit 32 bits. *)
Theorem partial_size_product_value (val : FunParam → Z) (dim : DimId → Z)
    (l : list PartialSize) (c : PartialSize) :
  NoDup (concat (dim_factors <$> l)) → NoDup (concat (divisors <$> l)) →
  @psize_product debug_profile l = Some c →
  psize_wf c ∧
  same_value (value val dim c)
    (zprod (numerator val dim) l, zprod (denominator dim) l).
Proof.
  intros Hf Hd. unfold psize_product.
  destruct (foldM _ l psize_default) as [acc|] eqn:E; [|done]. cbn [mbind option_bind].
  destruct (foldM_product_step _ _ _ E) as (_ & Hfs & Hds). simpl in Hfs, Hds.
  destruct (foldM_product_value val dim _ _ _ E) as [Hn Hdn].
  rewrite <-Hfs in Hf. rewrite <-Hds in Hd. intros Hs. split.
  - eapply simplify_wf; [| |exact Hs]; apply vs_new_sorted.
  - eapply (simplify_same_value val dim) in Hs; [|apply vs_new_sorted..].
    assert (value val dim (mkPartialSize (static_factor acc) (param_factors acc)
      (vs_new (dim_factors acc)) (vs_new (divisors acc))) = value val dim acc) as Hv.
    { unfold value, numerator, denominator; cbn [static_factor param_factors dim_factors
        divisors]. by rewrite !zprod_vs_new. }
    rewrite Hv in Hs. unfold same_value, value in *. cbn [fst snd] in *.
    rewrite Hn, Hdn in Hs.
    assert (numerator val dim psize_default = 1%Z ∧ denominator dim psize_default = 1%Z)
      as [H1 H2] by done. rewrite H1, H2 in Hs. lia.
Qed.

Lemma partial_size_product_value_witness :
  ∃ c, @psize_product debug_profile
         [mkPartialSize 6 [] [1; 2] [3]; mkPartialSize 5 [] [3] [2; 4]]%nat = Some c ∧
       c = mkPartialSize 30 [] [1]%nat [4]%nat ∧ psize_wf c.
Proof.
  eexists. split; [vm_compute; reflexivity|]. split; [reflexivity|].
  eapply (partial_size_product_value (λ _, 1%Z) (λ _, 2%Z)
    [mkPartialSize 6 [] [1; 2] [3]; mkPartialSize 5 [] [3] [2; 4]]%nat).
  - cbn. repeat (constructor; [set_solver|]). constructor.
  - cbn. repeat (constructor; [set_solver|]). constructor.
  - vm_compute. reflexivity.
Defined.

(** Factors and divisors are sets, so a dimension that occurs in both operands of a
    product is counted once: the square of a dimension's size is the dimension's size,
    and not the product of the factors that the type's documentation announces. *)
Theorem partial_size_shared_factor_lost (d : DimId) (val : FunParam → Z)
    (dim : DimId → Z) :
  (1 < dim d)%Z →
  let s := psize_new_dim_size d in
  @psize_mul debug_profile s s = Some s ∧
  ¬ same_value (value val dim s)
      (numerator val dim s * numerator val dim s,
       denominator dim s * denominator dim s)%Z.
Proof.
  intros Hd s. split.
  - unfold psize_mul, psize_mul_assign, s, psize_new_dim_size. simpl.
    unfold simplify. simpl. rewrite Nat.compare_refl. simpl. done.
  - unfold same_value, value, s, numerator, denominator; simpl. nia.
Qed.

Lemma partial_size_shared_factor_lost_witness :
  @psize_mul debug_profile (psize_new_dim_size 3%nat) (psize_new_dim_size 3%nat)
    = Some (psize_new_dim_size 3%nat).
Proof.
  apply (partial_size_shared_factor_lost 3%nat (λ _, 1%Z) (λ _, 2%Z)). lia.
Defined.
