(* ===== verification/SparseVec.v ===== *)
(** * Vectors with declared holes (src/ir/mod.rs)

    [SparseVec<I, T>] stores the objects of a function by identifier, and
    [Counter] hands out the identifiers of the objects that a lowering will
    create.  [I: Into<usize>] is modelled by the index itself. *)
From S2P Require Import Prelude.

(** [n as uW] *)
Definition cast_nat (w : Z) (n : nat) : nat := Z.to_nat (wrap w (Z.of_nat n)).

Record SparseVec (T : Type) := mkSparseVec { sv_vec : list (option T); sv_capacity : nat }.
Arguments mkSparseVec {T}.
Arguments sv_vec {T}.
Arguments sv_capacity {T}.

Section sparse_vec.
Context {T : Type}.
Implicit Types (s : SparseVec T) (v : T).

Definition sv_new : SparseVec T := mkSparseVec [] 0.

Definition sv_from_vec (vec : list (option T)) : SparseVec T :=
  mkSparseVec vec (length vec).

Definition sv_len s : nat := sv_capacity s.

(** The range [len..=capacity] is inclusive. *)
Definition sv_make_holes s : SparseVec T :=
  if (length (sv_vec s) <? sv_capacity s)%nat
  then mkSparseVec
         (sv_vec s ++ replicate (S (sv_capacity s) - length (sv_vec s)) None)
         (sv_capacity s)
  else s.

Definition sv_push s v : option (SparseVec T) :=
  let s := sv_make_holes s in
  rassert (length (sv_vec s) =? sv_capacity s)%nat ;;
  Some (mkSparseVec (sv_vec s ++ [Some v]) (S (sv_capacity s))).

Definition sv_expand_to s (capacity : nat) : option (SparseVec T) :=
  rassert (sv_capacity s <=? capacity)%nat ;; Some (mkSparseVec (sv_vec s) capacity).

Definition sv_set_lazy s (index : nat) v : option (SparseVec T) :=
  if (sv_capacity s <=? index)%nat then panic else
  let vec :=
    if (length (sv_vec s) <=? index)%nat
    then sv_vec s ++ replicate (S index - length (sv_vec s)) None
    else sv_vec s in
  old ← vec !! index;
  match old with
  | Some _ => panic
  | None => Some (mkSparseVec (<[index := Some v]> vec) (sv_capacity s))
  end.

(** [iter]: the filled entries. *)
Definition sv_iter s : list T := omap id (sv_vec s).

(** [iter_mut] used to update every filled entry. *)
Definition sv_map (f : T → T) s : SparseVec T :=
  mkSparseVec (option_map f <$> sv_vec s) (sv_capacity s).

(** [Index]: out of range or a hole, it panics. *)
Definition sv_get s (index : nat) : option T := mjoin (sv_vec s !! index).

(** [IndexMut]: the object is replaced by its updated version. *)
Definition sv_update s (index : nat) (f : T → option T) : option (SparseVec T) :=
  v ← sv_get s index;
  v' ← f v;
  Some (mkSparseVec (<[index := Some v']> (sv_vec s)) (sv_capacity s)).

Definition sv_extend s (l : list T) : option (SparseVec T) :=
  let s := sv_make_holes s in
  rassert (length (sv_vec s) =? sv_capacity s)%nat ;;
  let vec := sv_vec s ++ (Some <$> l) in
  Some (mkSparseVec vec (length vec)).
End sparse_vec.

(** ** Identifier counters *)
Record Counter := mkCounter {
  next_mem : nat; next_inst : nat; next_dim : nat; next_dim_mapping : nat
}.

Definition counter_next_mem (c : Counter) : nat * Counter :=
  (cast_nat 32 (next_mem c),
   mkCounter (S (next_mem c)) (next_inst c) (next_dim c) (next_dim_mapping c)).

Definition counter_next_inst (c : Counter) : nat * Counter :=
  (cast_nat 32 (next_inst c),
   mkCounter (next_mem c) (S (next_inst c)) (next_dim c) (next_dim_mapping c)).

Definition counter_next_dim (c : Counter) : nat * Counter :=
  (cast_nat 32 (next_dim c),
   mkCounter (next_mem c) (next_inst c) (S (next_dim c)) (next_dim_mapping c)).

(** The mapping counter is itself a [u16], and its increment is checked. *)
Definition counter_next_dim_mapping `{Profile} (c : Counter) : option (nat * Counter) :=
  n ← uadd 16 (Z.of_nat (next_dim_mapping c)) 1;
  Some (next_dim_mapping c,
        mkCounter (next_mem c) (next_inst c) (next_dim c) (Z.to_nat n)).

(** * Theorems *)

Lemma cast_nat_small w n : (0 ≤ w)%Z → (Z.of_nat n < 2 ^ w)%Z → cast_nat w n = n.
Proof. intros Hw Hn. unfold cast_nat, wrap. rewrite Z.mod_small by lia. apply Nat2Z.id. Qed.

Section facts.
Context {T : Type}.
Implicit Types (s : SparseVec T) (v : T).

(** Declared but possibly not allocated holes. *)
Definition sv_wf s : Prop := (length (sv_vec s) ≤ sv_capacity s)%nat.

Definition sv_full s : Prop := length (sv_vec s) = sv_capacity s.

Lemma sv_get_Some s i v : sv_get s i = Some v ↔ sv_vec s !! i = Some (Some v).
Proof. unfold sv_get. destruct (sv_vec s !! i) as [[x|]|]; simpl; naive_solver. Qed.

Lemma sv_full_make_holes s : sv_full s → sv_make_holes s = s.
Proof.
  unfold sv_full, sv_make_holes. intros ->. by rewrite Nat.ltb_irrefl.
Qed.

Lemma sv_push_full s v :
  sv_full s →
  sv_push s v = Some (mkSparseVec (sv_vec s ++ [Some v]) (S (sv_capacity s))).
Proof.
  intros Hf. unfold sv_push. rewrite (sv_full_make_holes s Hf).
  rewrite (proj2 (Nat.eqb_eq _ _) Hf). done.
Qed.

Lemma sv_push_spec s v s' :
  sv_push s v = Some s' →
  sv_full s ∧ sv_full s' ∧ sv_capacity s' = S (sv_capacity s) ∧
  sv_vec s' = sv_vec s ++ [Some v].
Proof.
  unfold sv_push, sv_make_holes, sv_full.
  destruct (Nat.ltb_spec (length (sv_vec s)) (sv_capacity s)); simpl.
  - rewrite length_app, length_replicate.
    destruct (Nat.eqb_spec (length (sv_vec s) + (S (sv_capacity s) - length (sv_vec s)))
      (sv_capacity s)); [lia|done].
  - destruct (Nat.eqb_spec (length (sv_vec s)) (sv_capacity s)); [|done].
    simpl. intros [= <-]. simpl. rewrite length_app. simpl. split_and!; [done|lia|done|done].
Qed.

Lemma sv_push_get s v s' i :
  sv_push s v = Some s' →
  sv_get s' i = if decide (i = sv_capacity s) then Some v else sv_get s i.
Proof.
  intros (Hf & _ & _ & Hv)%sv_push_spec. unfold sv_get. rewrite Hv.
  case_decide as E.
  - subst. rewrite <-Hf. by rewrite list_lookup_middle.
  - destruct (decide (i < length (sv_vec s))%nat).
    + by rewrite lookup_app_l.
    + rewrite lookup_app_r by lia. unfold sv_full in Hf.
      destruct (i - length (sv_vec s))%nat as [|k] eqn:Ek; [lia|].
      simpl. by rewrite lookup_ge_None_2 by lia.
Qed.

Lemma sv_set_lazy_spec s i v :
  sv_wf s →
  match sv_set_lazy s i v with
  | Some s' =>
      (i < sv_capacity s)%nat ∧ sv_get s i = None ∧ sv_wf s' ∧
      sv_capacity s' = sv_capacity s ∧
      ∀ j, sv_get s' j = if decide (j = i) then Some v else sv_get s j
  | None => (sv_capacity s ≤ i)%nat ∨ ∃ w, sv_get s i = Some w
  end.
Proof.
  unfold sv_wf. intros Hwf. unfold sv_set_lazy.
  destruct (Nat.leb_spec (sv_capacity s) i) as [Hc|Hc]; [by left|].
  set (vec := if (length (sv_vec s) <=? i)%nat then _ else _).
  assert (i < length vec)%nat as Hlen.
  { unfold vec. destruct (Nat.leb_spec (length (sv_vec s)) i); [|done].
    rewrite length_app, length_replicate. lia. }
  assert (length vec ≤ sv_capacity s)%nat as Hcap.
  { unfold vec. destruct (Nat.leb_spec (length (sv_vec s)) i); [|done].
    rewrite length_app, length_replicate. lia. }
  assert (∀ j, mjoin (vec !! j) = sv_get s j) as Hget.
  { intros j. unfold vec, sv_get. destruct (Nat.leb_spec (length (sv_vec s)) i); [|done].
    destruct (decide (j < length (sv_vec s))%nat); [by rewrite lookup_app_l|].
    rewrite lookup_app_r by lia. rewrite (lookup_ge_None_2 (sv_vec s)) by lia. simpl.
    destruct (replicate _ _ !! _) as [x|] eqn:Er; [|done].
    by apply lookup_replicate in Er as [-> _]. }
  destruct (lookup_lt_is_Some_2 vec i Hlen) as [o Ho]. rewrite Ho. simpl.
  destruct o as [w|].
  { right. exists w. rewrite <-Hget, Ho. done. }
  split_and!; simpl; [done|by rewrite <-Hget, Ho|by rewrite length_insert|done|].
  intros j. unfold sv_get at 1; simpl. case_decide as E.
  - subst. by rewrite list_lookup_insert_eq.
  - by rewrite list_lookup_insert_ne, Hget.
Qed.

Lemma sv_update_spec s i f s' :
  sv_update s i f = Some s' →
  ∃ v v', sv_get s i = Some v ∧ f v = Some v' ∧ sv_capacity s' = sv_capacity s ∧
    length (sv_vec s') = length (sv_vec s) ∧
    ∀ j, sv_get s' j = if decide (j = i) then Some v' else sv_get s j.
Proof.
  unfold sv_update. destruct (sv_get s i) as [v|] eqn:Eg; [|done]. simpl.
  destruct (f v) as [v'|] eqn:Ef; [|done]. simpl. intros [= <-]. exists v, v'.
  split_and!; [done|done|done|apply length_insert|]. intros j.
  apply sv_get_Some, lookup_lt_Some in Eg. unfold sv_get at 1; simpl.
  case_decide; [subst; by rewrite list_lookup_insert_eq|by rewrite list_lookup_insert_ne].
Qed.

Lemma sv_map_get (f : T → T) s i : sv_get (sv_map f s) i = f <$> sv_get s i.
Proof.
  unfold sv_get, sv_map; simpl. rewrite list_lookup_fmap.
  by destruct (sv_vec s !! i) as [[|]|].
Qed.

Lemma sv_expand_to_spec s n s' :
  sv_expand_to s n = Some s' →
  (sv_capacity s ≤ n)%nat ∧ sv_capacity s' = n ∧ sv_vec s' = sv_vec s.
Proof.
  unfold sv_expand_to. destruct (Nat.leb_spec (sv_capacity s) n); [|done].
  simpl. by intros [= <-].
Qed.

Lemma sv_extend_spec s l s' :
  sv_extend s l = Some s' →
  sv_full s ∧ sv_full s' ∧ sv_vec s' = sv_vec s ++ (Some <$> l).
Proof.
  unfold sv_extend. destruct (Nat.eqb_spec (length (sv_vec (sv_make_holes s)))
    (sv_capacity (sv_make_holes s))) as [E|E]; [|done].
  assert (sv_full s) as Hf.
  { unfold sv_full. unfold sv_make_holes in E.
    destruct (Nat.ltb_spec (length (sv_vec s)) (sv_capacity s)).
    - cbn [sv_vec sv_capacity] in E. rewrite length_app, length_replicate in E. lia.
    - done. }
  rewrite (sv_full_make_holes s Hf). cbn [rassert mbind option_bind].
  by intros [= <-].
Qed.

Lemma sv_elem_of_iter s v : v ∈ sv_iter s ↔ ∃ i, sv_get s i = Some v.
Proof.
  unfold sv_iter. rewrite list_elem_of_omap. split.
  - intros (o & Ho & Hv). apply list_elem_of_lookup_1 in Ho as [i Hi]. exists i.
    apply sv_get_Some. simpl in Hv. congruence.
  - intros (i & Hi%sv_get_Some). exists (Some v). split; [|done].
    by eapply list_elem_of_lookup_2.
Qed.
End facts.

(** ** Properties *)

(** On a well-formed sparse vector, [set_lazy] succeeds exactly on a declared
    identifier that is still a hole; it then fills that entry, keeps every other entry
    and the declared length, and keeps the vector well formed. *)
Theorem sparse_vec_set_lazy_correct {T : Type} (s : SparseVec T) (i : nat) (v : T) :
  sv_wf s →
  (is_Some (sv_set_lazy s i v) ↔ (i < sv_len s)%nat ∧ sv_get s i = None) ∧
  ∀ s', sv_set_lazy s i v = Some s' →
    sv_wf s' ∧ sv_len s' = sv_len s ∧
    ∀ j, sv_get s' j = if decide (j = i) then Some v else sv_get s j.
Proof.
  intros Hwf. pose proof (sv_set_lazy_spec s i v Hwf) as Hs. unfold sv_len.
  destruct (sv_set_lazy s i v) as [s'|].
  - destruct Hs as (? & ? & ? & ? & ?). split; [split; [by intros _|eauto]|].
    by intros ? [= <-].
  - split; [|done]. split; [by intros []|]. intros [Hi Hn].
    destruct Hs as [?|[w Hw]]; [lia|congruence].
Qed.

Lemma sparse_vec_set_lazy_correct_witness :
  ∃ s', sv_set_lazy (mkSparseVec [Some 7] 4) 2 9 = Some s' ∧ sv_wf s' ∧
        sv_get s' 2 = Some 9.
Proof.
  destruct (sparse_vec_set_lazy_correct (mkSparseVec [Some 7] 4) 2 9) as [Hs Hp].
  { unfold sv_wf; simpl; lia. }
  destruct (proj2 Hs) as [s' Hs']; [split; [simpl; unfold sv_len; simpl; lia|reflexivity]|].
  exists s'. destruct (Hp s' Hs') as (Hw & _ & Hg).
  split; [exact Hs'|]. split; [exact Hw|]. exact (Hg 2).
Defined.

(** [push] and [extend] append to a vector without outstanding holes, and panic as
    soon as one declared hole is not allocated yet: [make_holes] allocates one entry
    too many for the assertion that follows it. *)
Theorem sparse_vec_push_outstanding_holes {T : Type} (s : SparseVec T) (v : T)
    (l : list T) :
  sv_wf s →
  ((length (sv_vec s) < sv_len s)%nat ↔ sv_push s v = None) ∧
  ((length (sv_vec s) < sv_len s)%nat ↔ sv_extend s l = None) ∧
  (length (sv_vec s) = sv_len s →
   ∃ s', sv_push s v = Some s' ∧ sv_len s' = S (sv_len s) ∧
     ∀ j, sv_get s' j = if decide (j = sv_len s) then Some v else sv_get s j).
Proof.
  unfold sv_wf, sv_len. intros Hwf. split_and!.
  - split.
    + intros Hlt. destruct (sv_push s v) as [s'|] eqn:E; [|done].
      apply sv_push_spec in E as (Hf & _). unfold sv_full in Hf. lia.
    + intros Hn. destruct (decide (length (sv_vec s) = sv_capacity s)) as [Hf|Hf]; [|lia].
      by rewrite sv_push_full in Hn.
  - split.
    + intros Hlt. destruct (sv_extend s l) as [s'|] eqn:E; [|done].
      apply sv_extend_spec in E as (Hf & _). unfold sv_full in Hf. lia.
    + intros Hn. destruct (decide (length (sv_vec s) = sv_capacity s)) as [Hf|Hf]; [|lia].
      unfold sv_extend in Hn. rewrite (sv_full_make_holes s Hf) in Hn.
      by rewrite (proj2 (Nat.eqb_eq _ _) Hf) in Hn.
  - intros Hf. eexists. split; [by apply sv_push_full|]. split; [done|].
    intros j. by apply sv_push_get, sv_push_full.
Qed.

Lemma sparse_vec_push_outstanding_holes_witness :
  sv_push (mkSparseVec [Some 1] 3) 5 = None ∧ sv_extend (mkSparseVec [Some 1] 3) [5] = None.
Proof.
  pose proof (sparse_vec_push_outstanding_holes (mkSparseVec [Some 1] 3) 5 [5]) as Hp.
  destruct Hp as (H1 & H2 & _); [unfold sv_wf; simpl; lia|].
  split; [apply H1|apply H2]; unfold sv_len; simpl; lia.
Defined.
