(* ===== verification/Operands.v ===== *)
(** * Operands and dimension maps

    src/ir/dim_map.rs, src/ir/access_pattern.rs, src/ir/operand.rs and the list cursor of
    telamon-utils/src/iterator.rs.  A big integer is a [Z]; a [Ratio<BigInt>] is its
    numerator and denominator. *)
From S2P Require Import Prelude VecSet Types Size SparseVec.

(** ** Filtering a linked list through a cursor

    The list is what the cursor has passed and what it has not reached. *)
Section filter_list.
Context {A : Type} (f : A → bool).

(** [FilterList::next]. *)
Fixpoint filter_list_next (passed rest : list A) : option (A * (list A * list A)) :=
  match rest with
  | [] => None
  | x :: rest =>
      if negb (f x) then filter_list_next (passed ++ [x]) rest
      else Some (x, (passed, rest))
  end.

(** The iterator run to its end: the removed items, and the list that is left. *)
Fixpoint filter_list_drain (fuel : nat) (passed rest : list A) : list A * list A :=
  match fuel with
  | O => ([], passed ++ rest)
  | S fuel =>
      match filter_list_next passed rest with
      | None => ([], passed ++ rest)
      | Some (x, (passed, rest)) =>
          let '(removed, remaining) := filter_list_drain fuel passed rest in
          (x :: removed, remaining)
      end
  end.

Definition filter_list (l : list A) : list A * list A :=
  filter_list_drain (S (length l)) [] l.
End filter_list.

(** ** Dimension maps *)
Definition DimMap : Type := list (DimId * DimId).

Definition dm_new (dims : list (DimId * DimId)) : DimMap := dims.

Definition dm_empty : DimMap := [].

Definition dm_is_empty (m : DimMap) : bool := match m with [] => true | _ => false end.

Definition dm_drain_filter (f : DimId * DimId → bool) (m : DimMap) : DimMap * DimMap :=
  filter_list f m.

(** [merge_dims]: the map left, and whether a pair was removed. *)
Definition dm_merge_dims (lhs rhs : DimId) (m : DimMap) : DimMap * bool :=
  let '(removed, m) := dm_drain_filter
    (λ pair, bool_decide (pair = (lhs, rhs)) || bool_decide (pair = (rhs, lhs))) m in
  (m, (0 <? length removed)%nat).

(** ** Access patterns *)
Inductive Stride : Type := StrideInt (s : Z) | StrideUnknown.

Inductive AccessPattern : Type :=
| PatUnknown (mem_id : option MemId)
| PatTensor (mem_id : option MemId) (dims : gmap DimId PartialSize).

Definition is_consecutive (p : AccessPattern) (dim : DimId) (t : Ty) : bool :=
  match p with
  | PatUnknown _ => false
  | PatTensor _ dims =>
      match (stride ← dims !! dim; as_int stride) with
      | Some stride => bool_decide (Some stride = len_byte t)
      | None => false
      end
  end.

Definition pat_mem_block (p : AccessPattern) : option MemId :=
  match p with PatUnknown mem_id | PatTensor mem_id _ => mem_id end.

(** The dimension in the error is the first one in the map's iteration order. *)
Definition pat_check (p : AccessPattern) (iter_dims : gset DimId) : result unit Error :=
  match p with
  | PatUnknown _ => ROk tt
  | PatTensor _ dims =>
      match filter (λ d, d ∉ iter_dims) (map_to_list dims).*1 with
      | [] => ROk tt
      | dim :: _ => RErr (MissingIterationDim dim)
      end
  end.

Definition pat_pointer_type (p : AccessPattern) (device : Device) : Ty :=
  match pat_mem_block p with
  | Some mem => TyPtrTo mem
  | None => pointer_type_global device
  end.

(** ** Integer literals *)

(** One turn per bit; the counter is a [u16]. *)
Fixpoint num_bits_loop `{Profile} (fuel : nat) (rem num_bits : Z) : option Z :=
  match fuel with
  | O => Some num_bits
  | S fuel =>
      if negb (rem =? 0)%Z then
        let rem := Z.shiftr rem 1 in
        num_bits ← uadd 16 num_bits 1;
        num_bits_loop fuel rem num_bits
      else Some num_bits
  end.

Definition num_bits `{Profile} (val : Z) : option Z :=
  let start := if (val <? 0)%Z then 1%Z else 0%Z in
  let rem := Z.abs val in
  num_bits_loop (Z.to_nat (Z.log2 rem) + 2) rem start.

(** [IntLiteral::decompose] of the pairs and of [i8], [i16], [i32] and [i64], whose
    [size_of] is [bytes]. *)
Definition decompose_pair (lit : Z * Z) : Z * Z := lit.

Definition decompose_prim (bytes : Z) (v : Z) : Z * Z := (v, 8 * bytes)%Z.

(** ** Lowering information *)
Record LoweringMap := mkLoweringMap {
  lm_mem_id : MemId;
  lm_st_inst : InstId;
  lm_st_map : gmap DimId (DimId * DimMappingId);
  lm_ld_inst : InstId;
  lm_ld_map : gmap DimId (DimId * DimMappingId)
}.

Record LoweredDimMap := mkLoweredDimMap {
  ldm_mem : MemId;
  ldm_store : InstId;
  ldm_load : InstId;
  st_dims_mapping : list (DimMappingId * (DimId * DimId));
  ld_dims_mapping : list (DimMappingId * (DimId * DimId))
}.

Section lowering_map.
Context `{Profile}.

(** The closure of [for_dim_map]: the four identifiers of one pair. *)
Definition alloc_pair (cnt : Counter) (pair : DimId * DimId)
  : option (((DimId * (DimId * DimMappingId)) * (DimId * (DimId * DimMappingId))) * Counter) :=
  let '(src, dst) := pair in
  let '(st_dim, cnt) := counter_next_dim cnt in
  let '(ld_dim, cnt) := counter_next_dim cnt in
  '(st_mapping, cnt) ← counter_next_dim_mapping cnt;
  '(ld_mapping, cnt) ← counter_next_dim_mapping cnt;
  Some (((src, (st_dim, st_mapping)), (dst, (ld_dim, ld_mapping))), cnt).

(** [map(..).unzip()] into two hash maps: later entries replace earlier ones. *)
Fixpoint alloc_pairs (m : DimMap) (cnt : Counter)
    (st ld : gmap DimId (DimId * DimMappingId))
  : option (gmap DimId (DimId * DimMappingId) * gmap DimId (DimId * DimMappingId)
            * Counter) :=
  match m with
  | [] => Some (st, ld, cnt)
  | p :: m =>
      '((s, l), cnt) ← alloc_pair cnt p;
      alloc_pairs m cnt (<[s.1 := s.2]> st) (<[l.1 := l.2]> ld)
  end.

Definition for_dim_map (dim_map : DimMap) (cnt : Counter)
  : option (LoweringMap * Counter) :=
  let '(mem_id, cnt) := counter_next_mem cnt in
  let '(st_inst, cnt) := counter_next_inst cnt in
  let '(ld_inst, cnt) := counter_next_inst cnt in
  '(st_map, ld_map, cnt) ← alloc_pairs dim_map cnt ∅ ∅;
  Some (mkLoweringMap mem_id st_inst st_map ld_inst ld_map, cnt).
End lowering_map.

Definition lower_pair (lm : LoweringMap) (pair : DimId * DimId)
  : option ((DimMappingId * (DimId * DimId)) * (DimMappingId * (DimId * DimId))) :=
  let '(src, dst) := pair in
  '(st_dim, st_mapping) ← lm_st_map lm !! src;
  '(ld_dim, ld_mapping) ← lm_ld_map lm !! dst;
  Some ((st_mapping, (src, st_dim)), (ld_mapping, (dst, ld_dim))).

Definition lm_lower (lm : LoweringMap) (map : DimMap) : option LoweredDimMap :=
  pairs ← mapM (lower_pair lm) map;
  Some (mkLoweredDimMap (lm_mem_id lm) (lm_st_inst lm) (lm_ld_inst lm) pairs.*1 pairs.*2).

Definition store_dims (l : LoweredDimMap) : list DimId :=
  (λ m : DimMappingId * (DimId * DimId), m.2.2) <$> st_dims_mapping l.

Definition load_dims (l : LoweredDimMap) : list DimId :=
  (λ m : DimMappingId * (DimId * DimId), m.2.2) <$> ld_dims_mapping l.

Definition mem_dimensions (l : LoweredDimMap) : option (list (DimId * DimId)) :=
  zip_eq (store_dims l) (load_dims l).

(** ** Operands *)
Inductive DimMapScope (L : Type) : Type :=
| Local
| Thread
| Global (l : L).
Arguments Local {L}.
Arguments Thread {L}.
Arguments Global {L}.

Record Ratio := mkRatio { ratio_numer : Z; ratio_denom : Z }.

Inductive Operand (L : Type) : Type :=
| OInt (v : Z) (bits : Z)
| OFloat (v : Ratio) (bits : Z)
| OInst (id : InstId) (t : Ty) (m : DimMap) (scope : DimMapScope L)
| OIndex (dim : DimId)
| OParam (p : FunParam)
| OAddr (mem : MemId)
| OReduce (id : InstId) (t : Ty) (m : DimMap) (dims : list DimId)
| OInductionVar (id : IndVarId) (t : Ty)
| OVariable (id : VarId) (t : Ty).
Arguments OInt {L}.
Arguments OFloat {L}.
Arguments OInst {L}.
Arguments OIndex {L}.
Arguments OParam {L}.
Arguments OAddr {L}.
Arguments OReduce {L}.
Arguments OInductionVar {L}.
Arguments OVariable {L}.

Section operand.
Context {L : Type}.
Implicit Types (o : Operand L).

Definition operand_t o : Ty :=
  match o with
  | OInt _ n_bit => TyI n_bit
  | OFloat _ n_bit => TyF n_bit
  | OAddr mem => TyPtrTo mem
  | OIndex _ => TyI 32
  | OParam p => param_t p
  | OVariable _ t => t
  | OInst _ t _ _ | OReduce _ t _ _ | OInductionVar _ t => t
  end.

(** [new_int]: [decompose] has been applied to the literal. *)
Definition new_int `{Profile} (lit : Z * Z) : option (Operand L) :=
  let '(val, len) := lit in
  n ← num_bits val;
  rassert (n <=? len)%Z ;;
  Some (OInt val len).

Definition new_float (lit : Ratio * Z) : Operand L :=
  let '(val, len) := lit in OFloat val len.

Definition operand_merge_dims (lhs rhs : DimId) o : Operand L :=
  match o with
  | OInst id t m scope => OInst id t (dm_merge_dims lhs rhs m).1 scope
  | OReduce id t m dims => OReduce id t (dm_merge_dims lhs rhs m).1 dims
  | _ => o
  end.

Definition should_lower_map (lhs rhs : DimId) o : bool :=
  match o with
  | OInst _ _ m _ | OReduce _ _ m _ =>
      existsb (λ pair, bool_decide (pair = (lhs, rhs)) || bool_decide (pair = (rhs, lhs))) m
  | _ => false
  end.

Definition operand_as_reduction o : option (InstId * DimMap * list DimId) :=
  match o with OReduce id _ m dims => Some (id, m, dims) | _ => None end.

Definition is_constant o : bool :=
  match o with
  | OInt _ _ | OFloat _ _ | OAddr _ | OParam _ => true
  | OIndex _ | OInst _ _ _ _ | OReduce _ _ _ _ | OInductionVar _ _ | OVariable _ _ => false
  end.

Definition operand_mapped_dims o : option DimMap :=
  match o with OInst _ _ m _ | OReduce _ _ m _ => Some m | _ => None end.
End operand.

(** [Operand<()>::freeze]. *)
Definition operand_freeze `{Profile} (o : Operand unit) (cnt : Counter)
  : option (Operand LoweringMap * Counter) :=
  match o with
  | OInt val len => Some (OInt val len, cnt)
  | OFloat val len => Some (OFloat val len, cnt)
  | OInst id t m (Global _) =>
      '(lowering_map, cnt) ← for_dim_map m cnt;
      Some (OInst id t m (Global lowering_map), cnt)
  | OInst id t m Local => Some (OInst id t m Local, cnt)
  | OInst id t m Thread => Some (OInst id t m Thread, cnt)
  | OVariable val t => Some (OVariable val t, cnt)
  | OIndex id => Some (OIndex id, cnt)
  | OParam p => Some (OParam p, cnt)
  | OAddr id => Some (OAddr id, cnt)
  | OReduce id t m dims => Some (OReduce id t m dims, cnt)
  | OInductionVar id t => Some (OInductionVar id t, cnt)
  end.

(** * Theorems *)

(** ** Filtering *)

Section filter_list_facts.
Context {A : Type} (f : A → bool).

Lemma filter_list_next_spec passed rest :
  match filter_list_next f passed rest with
  | None => filter f rest = [] ∧ filter (λ x, ¬ f x) rest = rest
  | Some (x, (passed', rest')) =>
      ∃ kept, passed' = passed ++ kept ∧ rest = kept ++ x :: rest' ∧ f x = true ∧
        filter f kept = [] ∧ filter (λ x, ¬ f x) kept = kept
  end.
Proof.
  revert passed. induction rest as [|x rest IH]; intros passed; cbn [filter_list_next].
  - done.
  - destruct (f x) eqn:Ef; cbn [negb].
    + exists []. rewrite app_nil_r. done.
    + specialize (IH (passed ++ [x])).
      assert (¬ f x) as Hn by (rewrite Ef; auto).
      destruct (filter_list_next f _ rest) as [[y [p r]]|].
      * destruct IH as (kept & -> & -> & Hy & H1 & H2). exists (x :: kept).
        rewrite <-app_assoc, filter_cons_False, filter_cons_True, H2 by done. done.
      * destruct IH as [H1 H2].
        rewrite filter_cons_False, filter_cons_True, H2 by done. done.
Qed.

Lemma filter_list_drain_spec fuel passed rest :
  (length rest < fuel)%nat →
  filter_list_drain f fuel passed rest =
    (filter f rest, passed ++ filter (λ x, ¬ f x) rest).
Proof.
  revert passed rest. induction fuel as [|fuel IH]; intros passed rest Hl; [lia|].
  cbn [filter_list_drain]. pose proof (filter_list_next_spec passed rest) as Hn.
  destruct (filter_list_next f passed rest) as [[x [p r]]|].
  - destruct Hn as (kept & -> & -> & Hx & H1 & H2).
    rewrite length_app in Hl. simpl in Hl. rewrite IH by lia.
    rewrite !filter_app, H1, H2, filter_cons_True, filter_cons_False
      by (rewrite ?Hx; auto). rewrite <-app_assoc. done.
  - destruct Hn as [-> ->]. done.
Qed.

(** Draining the iterator partitions the list, in order. *)
Lemma filter_list_eq l : filter_list f l = (filter f l, filter (λ x, ¬ f x) l).
Proof. unfold filter_list. by rewrite filter_list_drain_spec by lia. Qed.

Lemma filter_list_iff (P : A → Prop) `{∀ x, Decision (P x)} l :
  (∀ x, f x ↔ P x) → filter_list f l = (filter P l, filter (λ x, ¬ P x) l).
Proof.
  intros Hf. rewrite filter_list_eq. f_equal; apply list_filter_iff; [exact Hf|].
  intros x. specialize (Hf x). tauto.
Qed.
End filter_list_facts.

(** The two orientations of a pair. *)
Definition same_pair (lhs rhs : DimId) (pair : DimId * DimId) : Prop :=
  pair = (lhs, rhs) ∨ pair = (rhs, lhs).

#[global] Instance same_pair_dec lhs rhs pair : Decision (same_pair lhs rhs pair).
Proof. unfold same_pair. apply _. Defined.

Lemma dm_merge_dims_eq lhs rhs m :
  (dm_merge_dims lhs rhs m).1 = filter (λ p, ¬ same_pair lhs rhs p) m ∧
  ((dm_merge_dims lhs rhs m).2 = true ↔ ∃ p, p ∈ m ∧ same_pair lhs rhs p).
Proof.
  unfold dm_merge_dims, dm_drain_filter. rewrite filter_list_eq. simpl.
  set (g := λ pair, bool_decide (pair = (lhs, rhs)) || bool_decide (pair = (rhs, lhs))).
  assert (∀ p, g p ↔ same_pair lhs rhs p) as Hg.
  { intros p. unfold g, same_pair.
    rewrite orb_True, !bool_decide_spec. done. }
  split; [apply list_filter_iff; intros p; specialize (Hg p); tauto|].
  match goal with |- context [length ?x] => set (k := x) end.
  assert (∀ p, p ∈ k ↔ p ∈ m ∧ same_pair lhs rhs p) as Hk.
  { intros p. unfold k. rewrite list_elem_of_filter. specialize (Hg p). tauto. }
  clearbody k. rewrite Nat.ltb_lt. split.
  - destruct k as [|p k]; simpl; [lia|]. intros _. exists p. apply Hk. left.
  - intros (p & Hp & Hs). assert (p ∈ k) as Hin by by apply Hk.
    destruct k; [by apply elem_of_nil in Hin|simpl; lia].
Qed.

(** ** Bits of an integer *)

Lemma num_bits_loop_spec fuel rem n :
  (0 ≤ rem)%Z → (rem < 2 ^ Z.of_nat fuel)%Z → (0 ≤ n)%Z →
  (n + Z.of_nat fuel < 2 ^ 16)%Z →
  ∃ m, @num_bits_loop debug_profile fuel rem n = Some (n + m)%Z ∧ (0 ≤ m)%Z ∧
    (rem < 2 ^ m)%Z ∧ (0 < m → 2 ^ (m - 1) ≤ rem)%Z.
Proof.
  revert rem n. induction fuel as [|fuel IH]; intros rem n Hr Hlt Hn Hb.
  { exists 0%Z. simpl in *. split_and!; [f_equal|..]; lia. }
  cbn [num_bits_loop]. destruct (Z.eqb_spec rem 0) as [->|Hne]; cbn [negb].
  { exists 0%Z. split_and!; [f_equal|..]; lia. }
  rewrite uadd_ok by lia. cbn [mbind option_bind].
  assert (Z.shiftr rem 1 = rem / 2)%Z as Hs by apply Z.shiftr_div_pow2, Z.le_0_1.
  pose proof (Z.div_mod rem 2 ltac:(lia)) as Hd.
  pose proof (Z.mod_pos_bound rem 2 ltac:(lia)) as Hm.
  assert (2 ^ Z.of_nat (S fuel) = 2 * 2 ^ Z.of_nat fuel)%Z as Hp.
  { rewrite Nat2Z.inj_succ. apply Z.pow_succ_r. lia. }
  destruct (IH (Z.shiftr rem 1) (n + 1)%Z) as (m & -> & H0 & H1 & H2); [lia..|].
  exists (1 + m)%Z. split_and!; [f_equal; lia|lia| |].
  - rewrite Z.pow_add_r by lia. lia.
  - intros _. replace (1 + m - 1)%Z with m by lia.
    destruct (decide (m = 0)%Z) as [->|Hm0]; [simpl; lia|].
    specialize (H2 ltac:(lia)). replace m with (1 + (m - 1))%Z by lia.
    rewrite Z.pow_add_r by lia. lia.
Qed.

Lemma num_bits_spec val :
  (Z.log2 (Z.abs val) < 2 ^ 16 - 4)%Z →
  ∃ m, @num_bits debug_profile val = Some ((if (val <? 0)%Z then 1 else 0) + m)%Z ∧
    (0 ≤ m)%Z ∧ (Z.abs val < 2 ^ m)%Z ∧ (0 < m → 2 ^ (m - 1) ≤ Z.abs val)%Z.
Proof.
  intros Hv. unfold num_bits. set (start := if (val <? 0)%Z then 1%Z else 0%Z).
  assert (0 ≤ start ≤ 1)%Z as Hst by (unfold start; destruct (val <? 0)%Z; lia).
  pose proof (Z.log2_nonneg (Z.abs val)) as Hl.
  apply num_bits_loop_spec; [lia| |lia|rewrite Nat2Z.inj_add, Z2Nat.id by lia; lia].
  rewrite Nat2Z.inj_add, Z2Nat.id by lia.
  destruct (decide (val = 0)%Z) as [->|Hne]; [done|].
  pose proof (Z.log2_spec (Z.abs val) ltac:(lia)) as [_ Hlt].
  eapply Z.lt_le_trans; [exact Hlt|]. apply Z.pow_le_mono_r; lia.
Qed.

(** ** Lowering maps *)

(** The identifiers that [for_dim_map] gives to the pairs of a map, in order. *)
Fixpoint lowered_pairs (m : DimMap) (dim map : nat)
  : list ((DimMappingId * (DimId * DimId)) * (DimMappingId * (DimId * DimId))) :=
  match m with
  | [] => []
  | (src, dst) :: m =>
      ((map, (src, dim)), (S map, (dst, S dim))) :: lowered_pairs m (2 + dim) (2 + map)
  end.

Lemma alloc_pairs_spec m c st ld :
  NoDup m.*1 → NoDup m.*2 →
  (Z.of_nat (next_dim c + 2 * length m) ≤ 2 ^ 32)%Z →
  (Z.of_nat (next_dim_mapping c + 2 * length m) < 2 ^ 16)%Z →
  ∃ st' ld',
    @alloc_pairs debug_profile m c st ld =
      Some (st', ld', mkCounter (next_mem c) (next_inst c) (next_dim c + 2 * length m)
                       (next_dim_mapping c + 2 * length m)) ∧
    (∀ k, k ∉ m.*1 → st' !! k = st !! k) ∧ (∀ k, k ∉ m.*2 → ld' !! k = ld !! k) ∧
    ∀ mem i j, mapM (lower_pair (mkLoweringMap mem i st' j ld')) m =
               Some (lowered_pairs m (next_dim c) (next_dim_mapping c)).
Proof.
  revert c st ld. induction m as [|[src dst] m IH]; intros c st ld H1 H2 Hd Hm.
  - exists st, ld. simpl. rewrite !Nat.add_0_r. by destruct c.
  - cbn [length] in *. rewrite !fmap_cons, !NoDup_cons in *.
    cbn [fst snd] in *. destruct H1 as [Hs H1], H2 as [Ht H2].
    cbn [alloc_pairs alloc_pair]. unfold counter_next_dim, counter_next_dim_mapping.
    cbn [next_mem next_inst next_dim next_dim_mapping].
    rewrite !cast_nat_small, uadd_ok by lia. cbn [mbind option_bind next_dim_mapping].
    rewrite uadd_ok by lia. cbn [mbind option_bind fst snd].
    replace (Z.to_nat (Z.of_nat (next_dim_mapping c) + 1))
      with (S (next_dim_mapping c)) by lia.
    replace (Z.to_nat (Z.of_nat (S (next_dim_mapping c)) + 1))
      with (2 + next_dim_mapping c)%nat by lia.
    edestruct (IH (mkCounter (next_mem c) (next_inst c) (S (S (next_dim c)))
      (2 + next_dim_mapping c))) as (st' & ld' & -> & Hk1 & Hk2 & HM); [done|done|..].
    { cbn [next_dim]. lia. }
    { cbn [next_dim_mapping]. lia. }
    cbn [next_dim next_dim_mapping next_mem next_inst] in *.
    exists st', ld'. split_and!.
    + do 2 f_equal. f_equal; lia.
    + intros k [Hne Hk]%not_elem_of_cons. by rewrite Hk1, lookup_insert_ne.
    + intros k [Hne Hk]%not_elem_of_cons. by rewrite Hk2, lookup_insert_ne.
    + intros mem i j.
      assert (lower_pair (mkLoweringMap mem i st' j ld') (src, dst) =
        Some ((next_dim_mapping c, (src, next_dim c)),
              (S (next_dim_mapping c), (dst, S (next_dim c))))) as Hp.
      { unfold lower_pair. cbn [lm_st_map lm_ld_map].
        by rewrite Hk1, Hk2, !lookup_insert_eq. }
      cbn [mapM]. rewrite Hp. cbn [mbind option_bind]. by rewrite HM.
Qed.

Lemma lowered_pairs_st m d k :
  ((λ x : DimMappingId * (DimId * DimId), x.2.2) <$> (lowered_pairs m d k).*1) ++
  ((λ x : DimMappingId * (DimId * DimId), x.2.2) <$> (lowered_pairs m d k).*2)
    ≡ₚ seq d (2 * length m) ∧
  (lowered_pairs m d k).*1.*1 ++ (lowered_pairs m d k).*2.*1 ≡ₚ seq k (2 * length m).
Proof.
  revert d k. induction m as [|[s t] m IH]; intros d k; [done|].
  destruct (IH (2 + d)%nat (2 + k)%nat) as [IH1 IH2].
  replace (2 * length ((s, t) :: m))%nat with (S (S (2 * length m))) by (simpl; lia).
  cbn [lowered_pairs seq]. rewrite !fmap_cons. cbn [fst snd].
  rewrite <-!app_comm_cons, <-!Permutation_middle. by rewrite IH1, IH2.
Qed.

Lemma lowered_pairs_old m d k :
  (λ x : DimMappingId * (DimId * DimId), x.2.1) <$> (lowered_pairs m d k).*1 = m.*1 ∧
  (λ x : DimMappingId * (DimId * DimId), x.2.1) <$> (lowered_pairs m d k).*2 = m.*2 ∧
  length (lowered_pairs m d k) = length m.
Proof.
  revert d k. induction m as [|[s t] m IH]; intros d k; [done|].
  destruct (IH (2 + d)%nat (2 + k)%nat) as (H1 & H2 & H3).
  cbn [lowered_pairs length]. rewrite !fmap_cons. cbn [fst snd].
  by rewrite H1, H2, H3.
Qed.

(** The identifiers in a counter fit their types, with room for a map of [n] pairs. *)
Definition counter_room (c : Counter) (n : nat) : Prop :=
  (Z.of_nat (S (next_mem c)) ≤ 2 ^ 32)%Z ∧ (Z.of_nat (2 + next_inst c) ≤ 2 ^ 32)%Z ∧
  (Z.of_nat (next_dim c + 2 * n) ≤ 2 ^ 32)%Z ∧
  (Z.of_nat (next_dim_mapping c + 2 * n) < 2 ^ 16)%Z.

Lemma for_dim_map_spec m c :
  NoDup m.*1 → NoDup m.*2 → counter_room c (length m) →
  ∃ lm,
    @for_dim_map debug_profile m c =
      Some (lm, mkCounter (S (next_mem c)) (2 + next_inst c) (next_dim c + 2 * length m)
                  (next_dim_mapping c + 2 * length m)) ∧
    let low := lowered_pairs m (next_dim c) (next_dim_mapping c) in
    lm_lower lm m = Some (mkLoweredDimMap (next_mem c) (next_inst c) (S (next_inst c))
                            low.*1 low.*2).
Proof.
  intros H1 H2 (Hm & Hi & Hd & Hk). unfold for_dim_map, counter_next_mem, counter_next_inst.
  cbn [next_mem next_inst next_dim next_dim_mapping].
  rewrite !cast_nat_small by lia.
  edestruct (alloc_pairs_spec m (mkCounter (S (next_mem c)) (S (S (next_inst c)))
    (next_dim c) (next_dim_mapping c)) ∅ ∅ H1 H2 Hd Hk) as (st & ld & -> & _ & _ & HM).
  cbn [mbind option_bind next_mem next_inst next_dim next_dim_mapping] in *.
  eexists. split; [done|]. simpl. unfold lm_lower. rewrite HM. done.
Qed.

(** ** Properties *)

(** [new_int] accepts exactly the values that fit: a non-negative literal of [len]
    bits below [2^len], a negative one above [-2^(len-1)].  The least value of a signed
    type, [-2^(len-1)], is rejected although it fits. *)
Theorem new_int_accepts (L : Type) (val len : Z) :
  (0 < len < 2 ^ 16 - 4)%Z → (Z.log2 (Z.abs val) < 2 ^ 16 - 4)%Z →
  (is_Some (@new_int L debug_profile (decompose_pair (val, len))) ↔
   (0 ≤ val < 2 ^ len ∨ - 2 ^ (len - 1) < val < 0)%Z) ∧
  ∀ bytes, (8 * bytes = len)%Z →
    @new_int L debug_profile (decompose_prim bytes (- 2 ^ (len - 1))) = None.
Proof.
  assert (∀ v l, (0 < l)%Z → (Z.log2 (Z.abs v) < 2 ^ 16 - 4)%Z →
    (is_Some (@new_int L debug_profile (v, l)) ↔
     (0 ≤ v < 2 ^ l ∨ - 2 ^ (l - 1) < v < 0)%Z)) as Hacc.
  { intros v l Hl Hv. destruct (num_bits_spec v Hv) as (m & Hn & H0 & Hlt & Hge).
    unfold new_int. rewrite Hn. cbn [mbind option_bind].
    assert (∀ b, is_Some (_ ← rassert b; Some (@OInt L v l)) ↔ b = true) as Hb.
    { intros [|]; simpl; split; intros Hx; [done|eauto|by destruct Hx|done]. }
    rewrite Hb, Z.leb_le. clear Hn Hb.
    assert (∀ k, (0 ≤ k)%Z → (m ≤ k ↔ Z.abs v < 2 ^ k)%Z) as Hk.
    { intros k Hk. split; intros Hmk.
      - eapply Z.lt_le_trans; [exact Hlt|]. apply Z.pow_le_mono_r; lia.
      - destruct (decide (m ≤ k)%Z); [done|]. specialize (Hge ltac:(lia)).
        assert (2 ^ k ≤ 2 ^ (m - 1))%Z by (apply Z.pow_le_mono_r; lia). lia. }
    destruct (Z.ltb_spec v 0).
    - specialize (Hk (l - 1)%Z ltac:(lia)). lia.
    - specialize (Hk l ltac:(lia)). lia. }
  intros Hl Hv. split; [apply Hacc; lia|]. intros bytes Hby.
  unfold decompose_prim. rewrite Hby.
  assert (0 < 2 ^ (len - 1))%Z by (apply Z.pow_pos_nonneg; lia).
  apply eq_None_not_Some. rewrite Hacc; [lia|lia|].
  rewrite Z.abs_opp, Z.abs_eq, Z.log2_pow2 by lia. lia.
Qed.

Lemma new_int_accepts_witness :
  @new_int unit debug_profile (decompose_prim 1 (- 2 ^ 7)) = None.
Proof.
  exact (proj2 (new_int_accepts unit 0 8 ltac:(lia) ltac:(simpl; lia)) 1%Z eq_refl).
Defined.

(** C20: freezing a dimension map and lowering it agree: [lower] finds every pair, gives
    the memory block, the store and the load the identifiers the counter was at, and the
    store and load dimensions (and the mappings) are exactly the next [2 n] identifiers,
    each used once, while the old dimensions are those of the map, in order. *)
Theorem lowering_map_allocates_fresh (m : DimMap) (c : Counter) :
  NoDup m.*1 → NoDup m.*2 → counter_room c (length m) →
  ∃ lm low,
    @for_dim_map debug_profile m c =
      Some (lm, mkCounter (S (next_mem c)) (2 + next_inst c) (next_dim c + 2 * length m)
                  (next_dim_mapping c + 2 * length m)) ∧
    lm_lower lm m = Some low ∧
    ldm_mem low = next_mem c ∧ ldm_store low = next_inst c ∧
    ldm_load low = S (next_inst c) ∧
    store_dims low ++ load_dims low ≡ₚ seq (next_dim c) (2 * length m) ∧
    (st_dims_mapping low).*1 ++ (ld_dims_mapping low).*1
      ≡ₚ seq (next_dim_mapping c) (2 * length m) ∧
    (st_dims_mapping low).*2.*1 = m.*1 ∧ (ld_dims_mapping low).*2.*1 = m.*2 ∧
    mem_dimensions low = Some (zip (store_dims low) (load_dims low)).
Proof.
  intros H1 H2 Hc. destruct (for_dim_map_spec m c H1 H2 Hc) as (lm & Hf & Hl).
  destruct (lowered_pairs_st m (next_dim c) (next_dim_mapping c)) as [Hs1 Hs2].
  destruct (lowered_pairs_old m (next_dim c) (next_dim_mapping c)) as (Ho1 & Ho2 & Hlen).
  exists lm. eexists. split_and!; [done|done|done|done|done|done|done| | |].
  - simpl. rewrite <-Ho1, <-list_fmap_compose. done.
  - simpl. rewrite <-Ho2, <-list_fmap_compose. done.
  - unfold mem_dimensions, zip_eq, store_dims, load_dims; simpl.
    rewrite !length_fmap, Nat.eqb_refl. done.
Qed.

Lemma lowering_map_allocates_fresh_witness :
  ∃ lm low, @for_dim_map debug_profile [(0, 3); (1, 4)]%nat (mkCounter 0 2 5 2) =
              Some (lm, mkCounter 1 4 9 6) ∧
            lm_lower lm [(0, 3); (1, 4)]%nat = Some low ∧ store_dims low = [5; 7]%nat.
Proof.
  destruct (lowering_map_allocates_fresh [(0, 3); (1, 4)]%nat (mkCounter 0 2 5 2))
    as (lm & low & Hf & Hl & _).
  - cbn. repeat (constructor; [set_solver|]). constructor.
  - cbn. repeat (constructor; [set_solver|]). constructor.
  - unfold counter_room; cbn. lia.
  - exists lm, low. split; [exact Hf|]. split; [exact Hl|].
    vm_compute in Hf. injection Hf as <-. vm_compute in Hl. injection Hl as <-. reflexivity.
Defined.
