(* ===== verification/Objects.v ===== *)
(** * The objects of a function

    src/ir/operator.rs, src/ir/instruction.rs, src/ir/dimension.rs,
    src/ir/induction_var.rs, the data of src/ir/variable.rs and src/ir/mem.rs.  What
    needs the function an object belongs to ([Operator::check], [Instruction::new],
    [Variable::new], ...) is in the file [Function]. *)
From S2P Require Import Prelude VecSet Types Size SparseVec Operands.

(** ** Operators *)
Inductive BinOp : Type := Add | Sub | Div | And | Or | BLt | BLeq | BEquals | BMax.

Definition binop_t (op : BinOp) (operand_type : Ty) : Ty :=
  match op with BLt | BLeq | BEquals => TyI 1 | _ => operand_type end.

Definition requires_rounding (op : BinOp) : bool :=
  match op with BLt | BLeq | BEquals | BMax => false | _ => true end.

Definition binop_name (op : BinOp) : string :=
  match op with
  | Add => "add" | Sub => "sub" | Div => "div" | And => "and" | Or => "or"
  | BLt => "lt" | BLeq => "leq" | BEquals => "equals" | BMax => "max"
  end.

Inductive UnaryOp : Type := Mov | Cast (t : Ty) | Exp (t : Ty).

Definition unaryop_t (op : UnaryOp) (op_type : Ty) : Ty :=
  match op with Mov | Exp _ => op_type | Cast t => t end.

Inductive Operator (L : Type) : Type :=
| OpBin (op : BinOp) (lhs rhs : Operand L) (rounding : Rounding)
| OpUnary (op : UnaryOp) (operand : Operand L)
| OpMul (lhs rhs : Operand L) (rounding : Rounding) (t : Ty)
| OpMad (mul_lhs mul_rhs add_rhs : Operand L) (rounding : Rounding)
| OpLd (t : Ty) (addr : Operand L) (pattern : AccessPattern)
| OpSt (addr val : Operand L) (side_effects : bool) (pattern : AccessPattern)
| OpTmpLd (t : Ty) (mem : MemId)
| OpTmpSt (val : Operand L) (mem : MemId).
Arguments OpBin {L}.
Arguments OpUnary {L}.
Arguments OpMul {L}.
Arguments OpMad {L}.
Arguments OpLd {L}.
Arguments OpSt {L}.
Arguments OpTmpLd {L}.
Arguments OpTmpSt {L}.

Section operator.
Context {L : Type}.
Implicit Types op : Operator L.

Definition operator_t op : option Ty :=
  match op with
  | OpMad _ _ op _ => Some (operand_t op)
  | OpLd t _ _ | OpTmpLd t _ | OpMul _ _ _ t => Some t
  | OpBin operator lhs _ _ => Some (binop_t operator (operand_t lhs))
  | OpUnary operator operand => Some (unaryop_t operator (operand_t operand))
  | OpSt _ _ _ _ | OpTmpSt _ _ => None
  end.

Definition operands op : list (Operand L) :=
  match op with
  | OpBin _ lhs rhs _ | OpMul lhs rhs _ _ | OpSt lhs rhs _ _ => [lhs; rhs]
  | OpMad mul_lhs mul_rhs add_rhs _ => [mul_lhs; mul_rhs; add_rhs]
  | OpUnary _ op | OpLd _ op _ | OpTmpSt op _ => [op]
  | OpTmpLd _ _ => []
  end.

(** [operands_mut]: the operands, written through; [f] gets their positions. *)
Definition operands_mut (f : nat → Operand L → Operand L) op : Operator L :=
  match op with
  | OpBin o lhs rhs r => OpBin o (f 0 lhs) (f 1 rhs) r
  | OpMul lhs rhs r t => OpMul (f 0 lhs) (f 1 rhs) r t
  | OpSt lhs rhs b p => OpSt (f 0 lhs) (f 1 rhs) b p
  | OpMad mul_lhs mul_rhs add_rhs r => OpMad (f 0 mul_lhs) (f 1 mul_rhs) (f 2 add_rhs) r
  | OpUnary o op => OpUnary o (f 0 op)
  | OpLd t op p => OpLd t (f 0 op) p
  | OpTmpSt op m => OpTmpSt (f 0 op) m
  | OpTmpLd t m => OpTmpLd t m
  end%nat.

Definition has_side_effects op : bool :=
  match op with OpSt _ _ b _ => b | _ => false end.

Definition is_mem_access op : bool :=
  match op with
  | OpSt _ _ _ _ | OpLd _ _ _ | OpTmpSt _ _ | OpTmpLd _ _ => true
  | _ => false
  end.

Definition operator_merge_dims (lhs rhs : DimId) op : Operator L :=
  operands_mut (λ _ x, operand_merge_dims lhs rhs x) op.

Definition mem_access_pattern op : option AccessPattern :=
  match op with
  | OpLd _ _ pattern | OpSt _ _ _ pattern => Some pattern
  | OpTmpLd _ mem_id | OpTmpSt _ mem_id => Some (PatUnknown (Some mem_id))
  | _ => None
  end.

Definition mem_used op : option MemId :=
  p ← mem_access_pattern op; pat_mem_block p.
End operator.

(** [map_operands]: the closure is called on the operands in order and carries state. *)
Definition map_operands {L T S : Type} (f : Operand L → S → option (Operand T * S))
    (op : Operator L) (s : S) : option (Operator T * S) :=
  match op with
  | OpBin op oper1 oper2 rounding =>
      '(oper1, s) ← f oper1 s; '(oper2, s) ← f oper2 s;
      Some (OpBin op oper1 oper2 rounding, s)
  | OpUnary operator operand =>
      '(operand, s) ← f operand s; Some (OpUnary operator operand, s)
  | OpMul oper1 oper2 rounding t =>
      '(oper1, s) ← f oper1 s; '(oper2, s) ← f oper2 s;
      Some (OpMul oper1 oper2 rounding t, s)
  | OpMad oper1 oper2 oper3 rounding =>
      '(oper1, s) ← f oper1 s; '(oper2, s) ← f oper2 s; '(oper3, s) ← f oper3 s;
      Some (OpMad oper1 oper2 oper3 rounding, s)
  | OpLd t oper1 ap => '(oper1, s) ← f oper1 s; Some (OpLd t oper1 ap, s)
  | OpSt oper1 oper2 side_effects ap =>
      '(oper1, s) ← f oper1 s; '(oper2, s) ← f oper2 s;
      Some (OpSt oper1 oper2 side_effects ap, s)
  | OpTmpLd t id => Some (OpTmpLd t id, s)
  | OpTmpSt oper1 id => '(oper1, s) ← f oper1 s; Some (OpTmpSt oper1 id, s)
  end.

Definition operator_freeze `{Profile} (op : Operator unit) (cnt : Counter)
  : option (Operator LoweringMap * Counter) := map_operands operand_freeze op cnt.

(** ** Instructions *)
Record Instruction (L : Type) := mkInstruction {
  inst_operator : Operator L;
  inst_id : InstId;
  iter_dims : gset DimId;
  inst_variable : option VarId;
  inst_defined_vars : list VarId;
  used_vars : list VarId
}.
Arguments mkInstruction {L}.
Arguments inst_operator {L}.
Arguments inst_id {L}.
Arguments iter_dims {L}.
Arguments inst_variable {L}.
Arguments inst_defined_vars {L}.
Arguments used_vars {L}.

(** [at_most_one]: an iterator with a second element panics. *)
Definition at_most_one {A : Type} (l : list A) : option (option A) :=
  match l with
  | [] => Some None
  | [x] => Some (Some x)
  | _ => panic
  end.

Section instruction.
Context {L : Type}.
Implicit Types i : Instruction L.

Definition with_operator (op : Operator L) i : Instruction L :=
  mkInstruction op (inst_id i) (iter_dims i) (inst_variable i) (inst_defined_vars i)
    (used_vars i).

Definition inst_t i : option Ty := operator_t (inst_operator i).

Definition iter_reduced_dims i : list DimId :=
  o ← operands (inst_operator i);
  match o with OReduce _ _ _ reduce_dims => reduce_dims | _ => [] end.

Definition inst_lower_layout (ld_idx : Operand L) (ld_pattern : AccessPattern)
    (st_idx : Operand L) (st_pattern : AccessPattern) i : option (Instruction L) :=
  op ← match inst_operator i with
       | OpTmpLd t id2 =>
           rassert (bool_decide (pat_mem_block ld_pattern = Some id2)) ;;
           Some (OpLd t ld_idx ld_pattern)
       | OpTmpSt val id2 =>
           rassert (bool_decide (pat_mem_block st_pattern = Some id2)) ;;
           Some (OpSt st_idx val false st_pattern)
       | _ => panic
       end;
  Some (with_operator op i).

Definition dim_maps_to_lower (lhs rhs : DimId) i : list nat :=
  (filter (λ p, should_lower_map lhs rhs p.2) (imap pair (operands (inst_operator i)))).*1.

Definition as_mem_inst i : option (Instruction L) :=
  if is_mem_access (inst_operator i) then Some i else None.

Definition inst_as_reduction i : option (option (InstId * DimMap * list DimId)) :=
  at_most_one (omap operand_as_reduction (operands (inst_operator i))).

Definition is_reduction_common_dim (init : InstId) (dim : DimId) i : option bool :=
  r ← inst_as_reduction i;
  Some match r with
       | Some (id, map, rd) =>
           (id =? init)%nat && negb (bool_decide (dim ∈ rd)) &&
           forallb (λ p, negb (dim =? p.2)%nat) map
       | None => false
       end.

Definition inst_merge_dims (lhs rhs : DimId) i : Instruction L :=
  with_operator (operator_merge_dims lhs rhs (inst_operator i)) i.

(** [add_iteration_dimension]: whether the dimension is new, and the instruction. *)
Definition add_iteration_dimension (dim : DimId) i : bool * Instruction L :=
  (bool_decide (dim ∉ iter_dims i),
   mkInstruction (inst_operator i) (inst_id i) ({[dim]} ∪ iter_dims i) (inst_variable i)
     (inst_defined_vars i) (used_vars i)).

(** The assertion fails when the result variable is already set. *)
Definition set_result_variable (variable : VarId) i : option (Instruction L) :=
  match inst_variable i with
  | None =>
      Some (mkInstruction (inst_operator i) (inst_id i) (iter_dims i) (Some variable)
              (inst_defined_vars i) (used_vars i))
  | Some _ => panic
  end.

Definition inst_register_defined_var (var : VarId) i : Instruction L :=
  mkInstruction (inst_operator i) (inst_id i) (iter_dims i) (inst_variable i)
    (vs_insert var (inst_defined_vars i)).1 (used_vars i).
End instruction.

Definition inst_freeze `{Profile} (i : Instruction unit) (cnt : Counter)
  : option (Instruction LoweringMap * Counter) :=
  '(operator, cnt) ← operator_freeze (inst_operator i) cnt;
  Some (mkInstruction operator (inst_id i) (iter_dims i) (inst_variable i)
          (inst_defined_vars i) (used_vars i), cnt).

(** [Instruction::lower_dim_map] *)
Definition inst_lower_dim_map (op_id : nat) (new_src : InstId) (new_dim_map : DimMap)
    (i : Instruction LoweringMap) : option (Instruction LoweringMap) :=
  operand ← operands (inst_operator i) !! op_id;
  match operand with
  | OInst _ t _ _ =>
      let o := OInst new_src t new_dim_map Local in
      Some (with_operator
              (operands_mut (λ k x, if (k =? op_id)%nat then o else x) (inst_operator i)) i)
  | _ => panic
  end.

(** ** Dimensions *)
Record Dimension := mkDimension {
  dim_id : DimId;
  dim_size : PartialSize;
  dim_possible_sizes : list Z;
  iterated : list InstId;
  is_thread_dim : bool;
  dim_logical_dim : option LogicalDimId;
  mapped_dims : list DimMappingId;
  dim_defined_vars : list VarId;
  inner_vars : list VarId;
  is_parallelizable : bool
}.

Record DimMapping := mkDimMapping {
  dmap_id : DimMappingId; dmap_dims : DimId * DimId; dmap_variables : list VarId
}.

(** The marker is a phantom type: a frozen dimension has the same fields. *)
Definition dim_freeze (d : Dimension) : Dimension :=
  mkDimension (dim_id d) (dim_size d) (dim_possible_sizes d) (iterated d)
    (is_thread_dim d) (dim_logical_dim d) (mapped_dims d) (dim_defined_vars d)
    (inner_vars d) (is_parallelizable d).

Definition dimension_new (id : DimId) (size : PartialSize)
    (logical_dim : option LogicalDimId) : result Dimension Error :=
  match as_int size with
  | Some n =>
      if (n =? 1)%Z then RErr InvalidDimSize
      else ROk (mkDimension id size (vs_new [n]) [] false logical_dim [] [] [] true)
  | None => ROk (mkDimension id size [] [] false logical_dim [] [] [] true)
  end.

Definition dimension_new_static (id : DimId) (possible_sizes : list Z)
    (logical_dim : option LogicalDimId) : result Dimension Error :=
  if vs_contains 1%Z possible_sizes then RErr InvalidDimSize
  else ROk (mkDimension id (psize_new_dim_size id) possible_sizes [] false logical_dim
              [] [] [] true).

(** [unwrap!] panics on an error. *)
Definition with_same_size (id : DimId) (other : Dimension) : option Dimension :=
  match (if vs_is_empty (dim_possible_sizes other)
         then dimension_new id (dim_size other) None
         else dimension_new_static id (dim_possible_sizes other) None) with
  | ROk d => Some d
  | RErr _ => panic
  end.

Definition possible_sizes (d : Dimension) : option (list Z) :=
  if vs_is_empty (dim_possible_sizes d) then None else Some (dim_possible_sizes d).

Definition add_iterated (inst : InstId) (d : Dimension) : Dimension :=
  mkDimension (dim_id d) (dim_size d) (dim_possible_sizes d) (iterated d ++ [inst])
    (is_thread_dim d) (dim_logical_dim d) (mapped_dims d) (dim_defined_vars d)
    (inner_vars d) (is_parallelizable d).

Definition set_thread_dim (d : Dimension) : Dimension :=
  mkDimension (dim_id d) (dim_size d) (dim_possible_sizes d) (iterated d)
    true (dim_logical_dim d) (mapped_dims d) (dim_defined_vars d)
    (inner_vars d) (is_parallelizable d).

Definition register_dim_mapping (mapping : DimMapping) (d : Dimension)
  : option Dimension :=
  let d' := mkDimension (dim_id d) (dim_size d) (dim_possible_sizes d) (iterated d)
    (is_thread_dim d) (dim_logical_dim d) (vs_insert (dmap_id mapping) (mapped_dims d)).1
    (dim_defined_vars d) (inner_vars d) (is_parallelizable d) in
  let '(d0, d1) := dmap_dims mapping in
  rassert ((d0 =? dim_id d)%nat || (d1 =? dim_id d)%nat) ;; Some d'.

Definition register_inner_var (var : VarId) (d : Dimension) : Dimension :=
  mkDimension (dim_id d) (dim_size d) (dim_possible_sizes d) (iterated d)
    (is_thread_dim d) (dim_logical_dim d) (mapped_dims d) (dim_defined_vars d)
    (vs_insert var (inner_vars d)).1 (is_parallelizable d).

Definition set_sequential (d : Dimension) : Dimension :=
  mkDimension (dim_id d) (dim_size d) (dim_possible_sizes d) (iterated d)
    (is_thread_dim d) (dim_logical_dim d) (mapped_dims d) (dim_defined_vars d)
    (inner_vars d) false.

Definition dim_register_defined_var (var : VarId) (d : Dimension) : Dimension :=
  mkDimension (dim_id d) (dim_size d) (dim_possible_sizes d) (iterated d)
    (is_thread_dim d) (dim_logical_dim d) (mapped_dims d)
    (vs_insert var (dim_defined_vars d)).1 (inner_vars d) (is_parallelizable d).

(** *** Logical dimensions *)
Record LogicalDim := mkLogicalDim {
  ldim_id : LogicalDimId;
  ldim_static_dims : list DimId;
  nonstatic_dim : option DimId;
  possible_tilings : list Z;
  total_size : Size
}.

Definition logical_dim_new_static (id : LogicalDimId) (static_dims : list DimId)
    (total_size : Z) : LogicalDim :=
  mkLogicalDim id static_dims None (vs_new [total_size]) (size_new_const total_size).

Definition logical_dim_new_dynamic (id : LogicalDimId) (dynamic_dim : DimId)
    (static_dims : list DimId) (possible_tilings : list Z) (total_size : Size)
  : LogicalDim :=
  mkLogicalDim id static_dims (Some dynamic_dim) possible_tilings total_size.

Definition tile_dimensions (d : LogicalDim) : list DimId := ldim_static_dims d.

Definition tiled_dimension (d : LogicalDim) : option DimId := nonstatic_dim d.

Definition logical_dimensions (d : LogicalDim) : list DimId :=
  rev (ldim_static_dims d) ++ option_list (nonstatic_dim d).

(** *** Mappings *)
Definition dim_mapping_new (id : DimMappingId) (dims : DimId * DimId) : DimMapping :=
  mkDimMapping id dims [].

Definition register_user (user : VarId) (m : DimMapping) : DimMapping :=
  mkDimMapping (dmap_id m) (dmap_dims m) (vs_insert user (dmap_variables m)).1.

(** ** Induction variables *)
Record InductionVar (L : Type) := mkInductionVar {
  ind_dims : list (DimId * PartialSize); ind_base : Operand L
}.
Arguments mkInductionVar {L}.
Arguments ind_dims {L}.
Arguments ind_base {L}.

(** The first dimension that was already seen. *)
Fixpoint first_duplicate (seen : gset DimId) (dims : list DimId) : option DimId :=
  match dims with
  | [] => None
  | id :: dims =>
      if bool_decide (id ∈ seen) then Some id else first_duplicate ({[id]} ∪ seen) dims
  end.

Definition induction_var_new {L : Type} (dims : list (DimId * PartialSize))
    (base : Operand L) : outcome (InductionVar L) Error :=
  do? Some (error_of_type_error (check_integer (operand_t base)));
  match first_duplicate ∅ dims.*1 with
  | Some id => err (DuplicateIncrement id)
  | None =>
      match base with
      | OReduce _ _ _ _ => panic
      | OInst _ _ _ (Global _) => panic
      | _ => ok (mkInductionVar dims base)
      end
  end.

Definition ind_merge_dims {L : Type} (lhs rhs : DimId) (v : InductionVar L)
  : InductionVar L :=
  mkInductionVar (ind_dims v) (operand_merge_dims lhs rhs (ind_base v)).

Definition ind_freeze `{Profile} (v : InductionVar unit) (cnt : Counter)
  : option (InductionVar LoweringMap * Counter) :=
  '(base, cnt) ← operand_freeze (ind_base v) cnt;
  Some (mkInductionVar (ind_dims v) base, cnt).

(** ** Variables *)
Inductive MemoryLevel : Type := RegisterNoSync | Register | FastMemory | SlowMemory.

Inductive VarDef : Type :=
| VInst (inst : InstId)
| VDimMap (prev : VarId) (mappings : list DimMappingId)
| VLast (prev : VarId) (dims : list DimId).

Record IrVariable := mkVariable {
  var_id : VarId;
  var_t : Ty;
  var_def : VarDef;
  memory_level : MemoryLevel;
  var_dimensions : list DimId;
  def_points : list StmtId;
  use_points : list StmtId
}.

Definition add_use (stmt : StmtId) (v : IrVariable) : IrVariable :=
  mkVariable (var_id v) (var_t v) (var_def v) (memory_level v) (var_dimensions v)
    (def_points v) (vs_insert stmt (use_points v)).1.

Definition def_mapped_dims (d : VarDef) : list DimMappingId :=
  match d with VDimMap _ mappings => mappings | _ => [] end.

(** ** Memory blocks *)
Record Block := mkBlock {
  block_id : MemId;
  block_uses : list InstId;
  base_size : Z;
  block_mapped_dims : list (DimId * DimId);
  maybe_mapped : DimMap
}.

Definition block_is_ready (b : Block) : bool := dm_is_empty (maybe_mapped b).

Definition maps_dims (lhs rhs : DimId) (b : Block) : bool :=
  bool_decide ((lhs, rhs) ∈ block_mapped_dims b) ||
  existsb (λ x, bool_decide (x = (lhs, rhs))) (maybe_mapped b).

Definition block_add_use (inst : InstId) (b : Block) : Block :=
  mkBlock (block_id b) (block_uses b ++ [inst]) (base_size b) (block_mapped_dims b)
    (maybe_mapped b).

Definition block_is_private (b : Block) : bool := true.

Record BlockMap := mkBlockMap { blocks : SparseVec Block; layouts : gset MemId }.

Definition block_map_default : BlockMap := mkBlockMap sv_new ∅.

Definition num_blocks (m : BlockMap) : nat := sv_len (blocks m).

Definition create_block (id : MemId) (base_size : Z) (maybe_mapped : option DimMap)
    (m : BlockMap) : option (Block * BlockMap) :=
  layouts ← match maybe_mapped with
            | Some dim_map =>
                rassert (negb (dm_is_empty dim_map)) ;; Some ({[id]} ∪ layouts m)
            | None => Some (layouts m)
            end;
  Some (mkBlock id [] base_size [] (default dm_empty maybe_mapped),
        mkBlockMap (blocks m) layouts).

Definition alloc_block (base_size : Z) (maybe_mapped : option DimMap) (m : BlockMap)
  : option (MemId * BlockMap) :=
  let id := cast_nat 32 (sv_len (blocks m)) in
  '(block, m) ← create_block id base_size maybe_mapped m;
  bs ← sv_push (blocks m) block;
  Some (id, mkBlockMap bs (layouts m)).

Definition expand_blocks_to (capacity : nat) (m : BlockMap) : option BlockMap :=
  bs ← sv_expand_to (blocks m) capacity; Some (mkBlockMap bs (layouts m)).

Definition set_lazy_tmp (id : MemId) (t : Ty) (dims : list (DimId * DimId))
    (m : BlockMap) : option BlockMap :=
  len ← len_byte t;
  '(block, m) ← create_block id len (Some (dm_new dims)) m;
  bs ← sv_set_lazy (blocks m) id block;
  Some (mkBlockMap bs (layouts m)).

Definition register_use (mem : MemId) (inst : InstId) (m : BlockMap) : option BlockMap :=
  bs ← sv_update (blocks m) mem (λ b, Some (block_add_use inst b));
  Some (mkBlockMap bs (layouts m)).

Definition block (id : MemId) (m : BlockMap) : option Block := sv_get (blocks m) id.

(** One turn of [merge_dims]'s loop: the block, and whether it is to be lowered. *)
Definition block_merge_dims (lhs rhs : DimId) (b : Block) : Block * bool :=
  let '(map, removed) := dm_merge_dims lhs rhs (maybe_mapped b) in
  let b := mkBlock (block_id b) (block_uses b) (base_size b) (block_mapped_dims b) map in
  (b, removed && block_is_ready b).

Definition block_map_merge_dims (lhs rhs : DimId) (m : BlockMap) : list MemId * BlockMap :=
  (block_id <$> filter (λ b, (block_merge_dims lhs rhs b).2) (sv_iter (blocks m)),
   mkBlockMap (sv_map (λ b, (block_merge_dims lhs rhs b).1) (blocks m)) (layouts m)).

(** One turn of [not_merged]'s loop on a block: the block, and whether it is to be
    lowered. *)
Definition block_not_merged (lhs rhs : DimId) (b : Block) : Block * bool :=
  let '(removed, map) := dm_drain_filter
    (λ p, ((p.1 =? lhs)%nat && (p.2 =? rhs)%nat) || ((p.1 =? rhs)%nat && (p.2 =? lhs)%nat))
    (maybe_mapped b) in
  let changed := (0 <? length removed)%nat in
  let b := mkBlock (block_id b) (block_uses b) (base_size b)
             (block_mapped_dims b ++ removed) map in
  (b, changed && block_is_ready b).

(** The loop over the layouts, in the iteration order of the set. *)
Fixpoint not_merged_loop (lhs rhs : DimId) (ids : list MemId) (bs : SparseVec Block)
    (to_lower : list MemId) : option (list MemId * SparseVec Block) :=
  match ids with
  | [] => Some (to_lower, bs)
  | id :: ids =>
      b ← sv_get bs id;
      let '(b', lower) := block_not_merged lhs rhs b in
      bs ← sv_update bs id (λ _, Some b');
      not_merged_loop lhs rhs ids bs (if lower then to_lower ++ [id] else to_lower)
  end.

(** [lhs_dim] is only used for its identifier. *)
Definition not_merged (lhs_dim : Dimension) (rhs : DimId) (m : BlockMap)
  : option (list MemId * BlockMap) :=
  '(to_lower, bs) ← not_merged_loop (dim_id lhs_dim) rhs (elements (layouts m)) (blocks m) [];
  Some (to_lower, mkBlockMap bs (layouts m)).

Definition block_map_lower_layout (id : MemId) (m : BlockMap)
  : option (list (DimId * DimId) * BlockMap) :=
  rassert (bool_decide (id ∈ layouts m)) ;;
  b ← sv_get (blocks m) id;
  rassert (block_is_ready b) ;;
  Some (block_mapped_dims b, mkBlockMap (blocks m) (layouts m ∖ {[id]})).
