(* ===== verification/Function.v ===== *)
(** * Functions (src/ir/function.rs)

    The body of a function, and every operation on it: building ([add_inst],
    [add_logical_dim], [map_dimensions], [add_variable], ...), freezing, and the lowering
    operations of the exploration; with what operators, instructions and variables do
    with their function (src/ir/operator.rs, src/ir/instruction.rs,
    src/ir/variable.rs).

    A method that takes [&mut self] returns the new function.  [None] is a panic; when a
    fallible method returns an error, the function it leaves is still given. *)
From S2P Require Import Prelude VecSet Types Size SparseVec Operands Objects.

Record Body (L : Type) := mkBody {
  insts : SparseVec (Instruction L);
  dims : SparseVec Dimension;
  static_dims : list DimId;
  thread_dims : list DimId;
  mem_insts : list InstId;
  mem_blocks : BlockMap;
  layouts_to_lower : list MemId;
  induction_vars : list (InductionVar L);
  logical_dims : list LogicalDim;
  dim_mappings : SparseVec DimMapping;
  variables : SparseVec IrVariable
}.
Arguments mkBody {L}.
Arguments insts {L}.
Arguments dims {L}.
Arguments static_dims {L}.
Arguments thread_dims {L}.
Arguments mem_insts {L}.
Arguments mem_blocks {L}.
Arguments layouts_to_lower {L}.
Arguments induction_vars {L}.
Arguments logical_dims {L}.
Arguments dim_mappings {L}.
Arguments variables {L}.

Record Function (L : Type) := mkFunction {
  fn_signature : Signature; fn_device : Device; body : Body L
}.
Arguments mkFunction {L}.
Arguments fn_signature {L}.
Arguments fn_device {L}.
Arguments body {L}.

(** Assignments to one field of the body. *)
Section setters.
Context {L : Type}.
Implicit Types (b : Body L) (f : Function L).

Definition with_body b f : Function L := mkFunction (fn_signature f) (fn_device f) b.

Definition set_insts v b : Body L :=
  mkBody v (dims b) (static_dims b) (thread_dims b) (mem_insts b) (mem_blocks b)
    (layouts_to_lower b) (induction_vars b) (logical_dims b) (dim_mappings b) (variables b).
Definition set_dims v b : Body L :=
  mkBody (insts b) v (static_dims b) (thread_dims b) (mem_insts b) (mem_blocks b)
    (layouts_to_lower b) (induction_vars b) (logical_dims b) (dim_mappings b) (variables b).
Definition set_static_dims v b : Body L :=
  mkBody (insts b) (dims b) v (thread_dims b) (mem_insts b) (mem_blocks b)
    (layouts_to_lower b) (induction_vars b) (logical_dims b) (dim_mappings b) (variables b).
Definition set_thread_dims v b : Body L :=
  mkBody (insts b) (dims b) (static_dims b) v (mem_insts b) (mem_blocks b)
    (layouts_to_lower b) (induction_vars b) (logical_dims b) (dim_mappings b) (variables b).
Definition set_mem_insts v b : Body L :=
  mkBody (insts b) (dims b) (static_dims b) (thread_dims b) v (mem_blocks b)
    (layouts_to_lower b) (induction_vars b) (logical_dims b) (dim_mappings b) (variables b).
Definition set_mem_blocks v b : Body L :=
  mkBody (insts b) (dims b) (static_dims b) (thread_dims b) (mem_insts b) v
    (layouts_to_lower b) (induction_vars b) (logical_dims b) (dim_mappings b) (variables b).
Definition set_layouts_to_lower v b : Body L :=
  mkBody (insts b) (dims b) (static_dims b) (thread_dims b) (mem_insts b) (mem_blocks b)
    v (induction_vars b) (logical_dims b) (dim_mappings b) (variables b).
Definition set_induction_vars v b : Body L :=
  mkBody (insts b) (dims b) (static_dims b) (thread_dims b) (mem_insts b) (mem_blocks b)
    (layouts_to_lower b) v (logical_dims b) (dim_mappings b) (variables b).
Definition set_logical_dims v b : Body L :=
  mkBody (insts b) (dims b) (static_dims b) (thread_dims b) (mem_insts b) (mem_blocks b)
    (layouts_to_lower b) (induction_vars b) v (dim_mappings b) (variables b).
Definition set_dim_mappings v b : Body L :=
  mkBody (insts b) (dims b) (static_dims b) (thread_dims b) (mem_insts b) (mem_blocks b)
    (layouts_to_lower b) (induction_vars b) (logical_dims b) v (variables b).
Definition set_variables v b : Body L :=
  mkBody (insts b) (dims b) (static_dims b) (thread_dims b) (mem_insts b) (mem_blocks b)
    (layouts_to_lower b) (induction_vars b) (logical_dims b) (dim_mappings b) v.

Definition body_new : Body L :=
  mkBody sv_new sv_new [] [] [] block_map_default [] [] [] sv_new sv_new.

Definition function_new (signature : Signature) (device : Device) : Function L :=
  mkFunction signature device body_new.
End setters.

(** ** Accessors

    Indexing panics out of range and on a hole. *)
Section accessors.
Context {L : Type}.
Implicit Types f : Function L.

Definition inst (id : InstId) f : option (Instruction L) := sv_get (insts (body f)) id.
Definition dim (id : DimId) f : option Dimension := sv_get (dims (body f)) id.
Definition variable (id : VarId) f : option IrVariable := sv_get (variables (body f)) id.
Definition dim_mapping (id : DimMappingId) f : option DimMapping :=
  sv_get (dim_mappings (body f)) id.
Definition mem_block (id : MemId) f : option Block := block id (mem_blocks (body f)).
Definition logical_dim (id : LogicalDimId) f : option LogicalDim :=
  logical_dims (body f) !! id.
Definition induction_var (id : IndVarId) f : option (InductionVar L) :=
  induction_vars (body f) !! id.

Definition inst_mut (id : InstId) (g : Instruction L → option (Instruction L)) f
  : option (Function L) :=
  v ← sv_update (insts (body f)) id g; Some (with_body (set_insts v (body f)) f).

Definition dim_mut (id : DimId) (g : Dimension → option Dimension) f
  : option (Function L) :=
  v ← sv_update (dims (body f)) id g; Some (with_body (set_dims v (body f)) f).

Definition dim_mapping_mut (id : DimMappingId) (g : DimMapping → option DimMapping) f
  : option (Function L) :=
  v ← sv_update (dim_mappings (body f)) id g;
  Some (with_body (set_dim_mappings v (body f)) f).

Definition variable_mut (id : VarId) (g : IrVariable → option IrVariable) f
  : option (Function L) :=
  v ← sv_update (variables (body f)) id g; Some (with_body (set_variables v (body f)) f).

(** [statement_mut(id).register_defined_var(var)] *)
Definition statement_register_defined_var (id : StmtId) (var : VarId) f
  : option (Function L) :=
  match id with
  | SInst id => inst_mut id (λ i, Some (inst_register_defined_var var i)) f
  | SDim id => dim_mut id (λ d, Some (dim_register_defined_var var d)) f
  end.

(** [statements]: every instruction, then every dimension. *)
Definition statements f : list StmtId :=
  (SInst ∘ inst_id <$> sv_iter (insts (body f))) ++
  (SDim ∘ dim_id <$> sv_iter (dims (body f))).

(** [find_mapping]: the first mapping of [lhs] that contains [rhs]. *)
Fixpoint find_mapping_in (rhs : DimId) f (ids : list DimMappingId)
  : option (option DimMappingId) :=
  match ids with
  | [] => Some None
  | id :: ids =>
      m ← dim_mapping id f;
      let '(d0, d1) := dmap_dims m in
      if ((d0 =? rhs) || (d1 =? rhs))%nat then Some (Some id)
      else find_mapping_in rhs f ids
  end.

Definition find_mapping (lhs rhs : DimId) f : option (option DimMappingId) :=
  d ← dim lhs f; find_mapping_in rhs f (mapped_dims d).
End accessors.

(** ** Checks *)
Section checks.
Context {L : Type}.
Implicit Types f : Function L.

Definition lift_type_error {T : Type} (r : result T TypeError) : outcome T Error :=
  Some (error_of_type_error r).

(** The loop over the pairs of an operand's dimension map. *)
Definition check_mapped (m : DimMap) f : outcome unit Error :=
  otraverse (λ p : DimId * DimId,
    let! found := find_mapping p.1 p.2 f in
    match found with
    | None => err (MissingDimMapping p.1 p.2)
    | Some _ => ok tt
    end) m.

Definition check_operand f (operand : Operand L) : outcome unit Error :=
  do? lift_type_error (check_type (fn_device f) (operand_t operand));
  match operand_mapped_dims operand with
  | Some m => check_mapped m f
  | None => ok tt
  end.

(** The result type of a multiplication: that of the operands, or a widening. *)
Definition check_mul_type (x z : Ty) : outcome unit Error :=
  if decide (x = z) then ok tt else
  match x, z with
  | TyI 32, TyI 64 | TyI 32, TyPtrTo _ => ok tt
  | _, t => err (EType (UnexpectedType t))
  end.

Definition operator_check (iter_dims : gset DimId) f (op : Operator L)
  : outcome unit Error :=
  do? match operator_t op with
      | Some t => lift_type_error (check_type (fn_device f) t)
      | None => ok tt
      end;
  do? otraverse (check_operand f) (operands op);
  match op with
  | OpBin operator lhs rhs rounding =>
      do? (if requires_rounding operator
           then lift_type_error (rounding_check rounding (operand_t lhs))
           else if negb (bool_decide (rounding = Exact))
           then err (EType (InvalidRounding rounding (operand_t lhs)))
           else ok tt);
      lift_type_error (check_equals (operand_t lhs) (operand_t rhs))
  | OpMul lhs rhs rounding res_type =>
      do? lift_type_error (rounding_check rounding (operand_t lhs));
      do? lift_type_error (check_equals (operand_t lhs) (operand_t rhs));
      check_mul_type (operand_t lhs) res_type
  | OpMad mul_lhs mul_rhs add_rhs rounding =>
      do? lift_type_error (rounding_check rounding (operand_t mul_lhs));
      do? lift_type_error (check_equals (operand_t mul_lhs) (operand_t mul_rhs));
      check_mul_type (operand_t mul_lhs) (operand_t add_rhs)
  | OpLd _ addr pattern | OpSt addr _ _ pattern =>
      do? Some (pat_check pattern iter_dims);
      let pointer_type := pat_pointer_type pattern (fn_device f) in
      lift_type_error (check_equals (operand_t addr) pointer_type)
  | OpTmpLd _ _ | OpUnary _ _ | OpTmpSt _ _ => ok tt
  end.

(** The dimensions of the variables used must be iteration dimensions. *)
Definition check_variable_dims (iter_dims : gset DimId) f (operand : Operand L)
  : outcome unit Error :=
  match operand with
  | OVariable var_id _ =>
      let! v := variable var_id f in
      otraverse (λ dim, if bool_decide (dim ∉ iter_dims)
                        then err (MissingIterationDim dim) else ok tt)
        (var_dimensions v)
  | _ => ok tt
  end.

Definition operand_variable (o : Operand L) : option VarId :=
  match o with OVariable v _ => Some v | _ => None end.

Definition instruction_new (op : Operator L) (id : InstId) (iter_dims : gset DimId) f
  : outcome (Instruction L) Error :=
  do? operator_check iter_dims f op;
  do? otraverse (check_variable_dims iter_dims f) (operands op);
  ok (mkInstruction op id iter_dims None []
        (vs_new (omap operand_variable (operands op)))).
End checks.

(** [Operand::new_inst] and [Operand::new_reduce]: the instruction must return a value. *)
Definition operand_new_inst {L : Type} (i : Instruction L) (dim_map : DimMap)
    (scope : DimMapScope L) : option (Operand L) :=
  scope ← match scope with
          | Global _ =>
              t ← inst_t i;
              Some match len_byte t with None => Thread | Some _ => scope end
          | _ => Some scope
          end;
  t ← inst_t i;
  Some (OInst (inst_id i) t dim_map scope).

Definition operand_new_reduce {L : Type} (init : Instruction L) (dim_map : DimMap)
    (dims : list DimId) : option (Operand L) :=
  t ← inst_t init; Some (OReduce (inst_id init) t dim_map dims).

(** ** Variable definitions *)
Section var_def.
Context {L : Type}.
Implicit Types f : Function L.

Definition def_t f (d : VarDef) : option Ty :=
  match d with
  | VInst inst_id => i ← inst inst_id f; inst_t i
  | VDimMap prev _ | VLast prev _ => v ← variable prev f; Some (var_t v)
  end.

Definition def_check f (d : VarDef) : outcome unit TypeError :=
  match d with
  | VInst id =>
      let! i := inst id f in
      match inst_t i with None => err (ExpectedReturnType id) | Some _ => ok tt end
  | _ => ok tt
  end.

Definition def_def_points f (d : VarDef) : option (list StmtId) :=
  match d with
  | VInst inst_id => Some (vs_new [SInst inst_id])
  | VDimMap prev _ => v ← variable prev f; Some (def_points v)
  | VLast _ dims => Some (vs_new (SDim <$> dims))
  end.

(** The pairs are collected into a hash map, which is then indexed. *)
Definition mapping_table f (ids : list DimMappingId) : option (gmap DimId DimId) :=
  foldM (λ (m : gmap DimId DimId) id,
    d ← dim_mapping id f; Some (<[(dmap_dims d).1 := (dmap_dims d).2]> m)) ids ∅.

Definition def_dimensions f (d : VarDef) : option (list DimId) :=
  match d with
  | VInst inst_id => i ← inst inst_id f; Some (vs_new (elements (iter_dims i)))
  | VLast prev dims =>
      v ← variable prev f; Some (vs_new (vs_difference (var_dimensions v) dims))
  | VDimMap prev mapping_ids =>
      mapping ← mapping_table f mapping_ids;
      v ← variable prev f;
      ds ← mapM (λ dim, mapping !! dim) (var_dimensions v);
      Some (vs_new ds)
  end.

(** The chain of definitions is followed back; a variable is defined from older ones. *)
Fixpoint production_inst (fuel : nat) f (d : VarDef)
  : option (InstId * gmap DimId DimId) :=
  match fuel with
  | O => None
  | S fuel =>
      match d with
      | VInst id => Some (id, ∅)
      | VLast prev dims =>
          v ← variable prev f;
          '(id, mapping) ← production_inst fuel f (var_def v);
          Some (id, foldl (λ m dim, delete dim m) mapping dims)
      | VDimMap prev mapping_ids =>
          v ← variable prev f;
          '(id, mapping) ← production_inst fuel f (var_def v);
          mapping ← foldM (λ (m : gmap DimId DimId) mapping_id,
            d ← dim_mapping mapping_id f;
            Some (<[(dmap_dims d).1 := (dmap_dims d).2]> m)) mapping_ids mapping;
          Some (id, mapping)
      end
  end.

Definition variable_new (id : VarId) (d : VarDef) f : option IrVariable :=
  t ← def_t f d;
  points ← def_def_points f d;
  ds ← def_dimensions f d;
  Some (mkVariable id t d Register ds points []).

(** [Variable::register] *)
Definition variable_register (v : IrVariable) f : option (Function L) :=
  f ← match var_def v with
      | VInst id => inst_mut id (set_result_variable (var_id v)) f
      | _ => Some f
      end;
  f ← foldM (λ f p, statement_register_defined_var p (var_id v) f) (def_points v) f;
  f ← foldM (λ f d, dim_mut d (λ x, Some (register_inner_var (var_id v) x)) f)
        (var_dimensions v) f;
  foldM (λ f m, dim_mapping_mut m (λ x, Some (register_user (var_id v) x)) f)
    (def_mapped_dims (var_def v)) f.

Definition create_variable (id : VarId) (d : VarDef) f : outcome IrVariable Error :=
  do? (let! r := def_check f d in Some (error_of_type_error r));
  let! v := variable_new id d f in ok v.

Definition add_variable (d : VarDef) f : option (result VarId Error * Function L) :=
  let id := cast_nat 16 (sv_len (variables (body f))) in
  r ← create_variable id d f;
  match r with
  | RErr e => Some (RErr e, f)
  | ROk var =>
      f ← variable_register var f;
      vs ← sv_push (variables (body f)) var;
      Some (ROk id, with_body (set_variables vs (body f)) f)
  end.
End var_def.

(** ** Operations of every function *)
Section operations.
Context {L : Type}.
Implicit Types f : Function L.

Definition create_inst (id : InstId) (op : Operator L) (iter : gset DimId) f
  : option (result (Instruction L) Error * Function L) :=
  r ← instruction_new op id iter f;
  match r with
  | RErr e => Some (RErr e, f)
  | ROk i =>
      f ← foldM (λ f dim, dim_mut dim (λ d, Some (add_iterated id d)) f)
            (elements (iter_dims i)) f;
      let f := if is_mem_access (inst_operator i)
               then with_body (set_mem_insts (mem_insts (body f) ++ [id]) (body f)) f
               else f in
      f ← match mem_used (inst_operator i) with
          | Some mem_id =>
              m ← register_use mem_id id (mem_blocks (body f));
              Some (with_body (set_mem_blocks m (body f)) f)
          | None => Some f
          end;
      f ← foldM (λ f var_id, variable_mut var_id (λ v, Some (add_use (SInst id) v)) f)
            (used_vars i) f;
      Some (ROk i, f)
  end.

Definition add_ind_var (ind_var : InductionVar L) f : IndVarId * Function L :=
  let id := cast_nat 32 (length (induction_vars (body f))) in
  (id, with_body (set_induction_vars (induction_vars (body f) ++ [ind_var]) (body f)) f).

Definition set_iteration_dim (id : InstId) (d : DimId) f : option (bool * Function L) :=
  i ← inst id f;
  let '(is_new, i') := add_iteration_dimension d i in
  f ← inst_mut id (λ _, Some i') f;
  if is_new : bool then
    f ← dim_mut d (λ x, Some (add_iterated id x)) f; Some (true, f)
  else Some (false, f).

Definition add_thread_dim (d : DimId) f : option (bool * Function L) :=
  f ← dim_mut d (λ x, Some (set_thread_dim x)) f;
  let '(ds, is_new) := vs_insert d (thread_dims (body f)) in
  Some (is_new, with_body (set_thread_dims ds (body f)) f).

Definition merge (src dst : DimId) f : Function L :=
  let b := body f in
  let b := set_insts (sv_map (inst_merge_dims src dst) (insts b)) b in
  let b := set_induction_vars (ind_merge_dims src dst <$> induction_vars b) b in
  let '(lower, blocks) := block_map_merge_dims src dst (mem_blocks b) in
  let b := set_mem_blocks blocks b in
  with_body (set_layouts_to_lower (layouts_to_lower b ++ lower) b) f.

(** The closure given to [scan]: the size so far is the stride of the dimension. *)
Fixpoint scan_increments `{Profile} f (size : PartialSize) (ds : list DimId)
  : option (list (DimId * PartialSize)) :=
  match ds with
  | [] => Some []
  | d :: ds =>
      let old_size := size in
      x ← dim d f;
      size ← psize_mul_assign size (dim_size x);
      rest ← scan_increments f size ds;
      Some ((d, old_size) :: rest)
  end.

Definition gen_index `{Profile} (mem : MemId) (base_incr : Z) (base_addr : Operand L)
    (ds : list DimId) f : option ((Operand L * AccessPattern) * Function L) :=
  let var_type := operand_t base_addr in
  base_size ← psize_new base_incr [];
  increments ← scan_increments f base_size (rev ds);
  let pattern := PatTensor (Some mem)
    (foldl (λ (m : gmap DimId PartialSize) p, <[p.1 := p.2]> m) ∅ increments) in
  r ← induction_var_new increments base_addr;
  match r with
  | RErr _ => panic
  | ROk ind_var =>
      let '(id, f) := add_ind_var ind_var f in
      Some ((OInductionVar id var_type, pattern), f)
  end.

Definition gen_internal_index `{Profile} (id : MemId) (ds : list DimId) f
  : option ((Operand L * AccessPattern) * Function L) :=
  b ← mem_block id f; gen_index id (base_size b) (OAddr id) ds f.

(** The position of the first occurrence, removed by [swap_remove]. *)
Fixpoint position (x : nat) (l : list nat) : option nat :=
  match l with
  | [] => None
  | y :: l => if (y =? x)%nat then Some O else S <$> position x l
  end.

Definition lower_layout `{Profile} (id : MemId) (st_dims ld_dims : list DimId) f
  : option (Function L) :=
  pos ← position id (layouts_to_lower (body f));
  '(_, ls) ← vec_swap_remove pos (layouts_to_lower (body f));
  let f := with_body (set_layouts_to_lower ls (body f)) f in
  '(_, m) ← block_map_lower_layout id (mem_blocks (body f));
  let f := with_body (set_mem_blocks m (body f)) f in
  '((st_index, st_pattern), f) ← gen_internal_index id st_dims f;
  '((ld_index, ld_pattern), f) ← gen_internal_index id ld_dims f;
  b ← mem_block id f;
  foldM (λ f mem_use,
           inst_mut mem_use (inst_lower_layout ld_index ld_pattern st_index st_pattern) f)
    (block_uses b) f.

Definition create_mapping (id : DimMappingId) (ds : DimId * DimId) f
  : option (DimMapping * Function L) :=
  let mapping := dim_mapping_new id ds in
  f ← foldM (λ f d, dim_mut d (register_dim_mapping mapping) f) [ds.1; ds.2] f;
  Some (mapping, f).
End operations.

(** ** Building a function *)
Section building.
Implicit Types f : Function unit.

Definition map_dimensions (ds : DimId * DimId) f
  : option (DimMappingId * Function unit) :=
  found ← find_mapping ds.1 ds.2 f;
  match found with
  | Some id => Some (id, f)
  | None =>
      let id := cast_nat 16 (sv_len (dim_mappings (body f))) in
      '(mapping, f) ← create_mapping id ds f;
      ms ← sv_push (dim_mappings (body f)) mapping;
      Some (id, with_body (set_dim_mappings ms (body f)) f)
  end.

(** The mappings of the operands are created first, whether or not the instruction is
    then accepted. *)
Definition map_operand_dims f (operand : Operand unit) : option (Function unit) :=
  match operand_mapped_dims operand with
  | Some m =>
      foldM (λ f (p : DimId * DimId), '(_, f) ← map_dimensions p f; Some f) m f
  | None => Some f
  end.

Definition add_inst (op : Operator unit) (iter : gset DimId) f
  : option (result InstId Error * Function unit) :=
  f ← foldM map_operand_dims (operands op) f;
  let id := cast_nat 32 (sv_len (insts (body f))) in
  '(r, f) ← create_inst id op iter f;
  match r with
  | RErr e => Some (RErr e, f)
  | ROk i =>
      iv ← sv_push (insts (body f)) i;
      Some (ROk id, with_body (set_insts iv (body f)) f)
  end.

Definition add_mem_block (size : Z) f : option (MemId * Function unit) :=
  '(id, m) ← alloc_block size None (mem_blocks (body f));
  Some (id, with_body (set_mem_blocks m (body f)) f).

(** The dimensions of the tiles, pushed in order; the first error stops the loop. *)
Fixpoint new_tile_dims (ids : list DimId) (sizes : list (list Z))
    (logical_id : LogicalDimId) : result (list Dimension) Error :=
  match ids, sizes with
  | id :: ids, s :: sizes =>
      match dimension_new_static id s (Some logical_id) with
      | RErr e => RErr e
      | ROk d =>
          match new_tile_dims ids sizes logical_id with
          | RErr e => RErr e
          | ROk ds => ROk (d :: ds)
          end
      end
  | _, _ => ROk []
  end.

(** The outermost dimension and the logical dimension. *)
Definition new_outer_dim (logical_id : LogicalDimId) (dim_ids : list DimId) (size : Size)
    (tiling_factors : list Z) : outcome (Dimension * LogicalDim) Error :=
  let! id0 := head dim_ids in
  match as_constant size with
  | Some n =>
      let! sizes := mapM (λ factor, udiv n factor) tiling_factors in
      let? d := Some (dimension_new_static id0 (vs_new sizes) (Some logical_id)) in
      ok (d, logical_dim_new_static logical_id dim_ids n)
  | None =>
      let static_dims := tail dim_ids in
      let! tiled_size := psize_of_size size in
      let! tiled_size := add_divisors (vs_new static_dims) tiled_size in
      let? d := Some (dimension_new id0 tiled_size (Some logical_id)) in
      ok (d, logical_dim_new_dynamic logical_id id0 static_dims tiling_factors size)
  end.

Definition add_logical_dim (size : Size) (tiling_factors : list Z)
    (possible_tile_sizes : list (list Z)) f
  : option (result (LogicalDimId * list DimId) Error * Function unit) :=
  let logical_id := cast_nat 32 (length (logical_dims (body f))) in
  let dim_ids := (λ id, cast_nat 32 (id + sv_len (dims (body f)))) <$>
    seq 0 (S (length possible_tile_sizes)) in
  r ← new_outer_dim logical_id dim_ids size tiling_factors;
  match r with
  | RErr e => Some (RErr e, f)
  | ROk (d, l) =>
      match new_tile_dims (tail dim_ids) possible_tile_sizes logical_id with
      | RErr e => Some (RErr e, f)
      | ROk ds =>
          let ds := d :: ds in
          let b := body f in
          let b := set_static_dims
            (static_dims b ++ (dim_id <$> filter (λ d, is_Some (possible_sizes d)) ds)) b in
          ds' ← sv_extend (dims b) ds;
          let b := set_dims ds' b in
          let b := set_logical_dims (logical_dims b ++ [l]) b in
          Some (ROk (logical_id, dim_ids), with_body b f)
      end
  end.

(** The instructions (holes stay holes) are frozen in order, then the induction
    variables. *)
Fixpoint freeze_insts `{Profile} (l : list (option (Instruction unit))) (cnt : Counter)
  : option (list (option (Instruction LoweringMap)) * Counter) :=
  match l with
  | [] => Some ([], cnt)
  | None :: l => '(l, cnt) ← freeze_insts l cnt; Some (None :: l, cnt)
  | Some i :: l =>
      '(i, cnt) ← inst_freeze i cnt;
      '(l, cnt) ← freeze_insts l cnt;
      Some (Some i :: l, cnt)
  end.

Fixpoint freeze_ind_vars `{Profile} (l : list (InductionVar unit)) (cnt : Counter)
  : option (list (InductionVar LoweringMap) * Counter) :=
  match l with
  | [] => Some ([], cnt)
  | v :: l =>
      '(v, cnt) ← ind_freeze v cnt;
      '(l, cnt) ← freeze_ind_vars l cnt;
      Some (v :: l, cnt)
  end.

Definition freeze `{Profile} f : option (Function LoweringMap) :=
  let b := body f in
  let counter := mkCounter (num_blocks (mem_blocks b)) (sv_len (insts b))
    (sv_len (dims b)) (cast_nat 16 (sv_len (dim_mappings b))) in
  '(iv, counter) ← freeze_insts (sv_vec (insts b)) counter;
  '(ind_vars, counter) ← freeze_ind_vars (induction_vars b) counter;
  let ds := sv_from_vec (option_map dim_freeze <$> sv_vec (dims b)) in
  iv ← sv_expand_to (sv_from_vec iv) (next_inst counter);
  ds ← sv_expand_to ds (next_dim counter);
  blocks ← expand_blocks_to (next_mem counter) (mem_blocks b);
  mappings ← sv_expand_to (dim_mappings b) (next_dim_mapping counter);
  Some (mkFunction (fn_signature f) (fn_device f)
    (mkBody iv ds (static_dims b) (thread_dims b) (mem_insts b) blocks
       (layouts_to_lower b) ind_vars (logical_dims b) mappings (variables b))).
End building.

(** ** Lowering in a frozen function *)
Section lowering.
Implicit Types f : Function LoweringMap.

(** The closure of [activate_mapped_dims]. *)
Definition activate_mapped_dim (old_to_new : bool) f
    (m : DimMappingId * (DimId * DimId))
  : option ((DimId * DimId) * Function LoweringMap) :=
  let '(mapping_id, (old_dim, new_dim)) := m in
  old ← dim old_dim f;
  dimension ← with_same_size new_dim old;
  let f := match possible_sizes dimension with
           | Some _ =>
               with_body (set_static_dims (static_dims (body f) ++ [new_dim]) (body f)) f
           | None => f
           end in
  ds ← sv_set_lazy (dims (body f)) new_dim dimension;
  let f := with_body (set_dims ds (body f)) f in
  '(mapping, f) ← create_mapping mapping_id (old_dim, new_dim) f;
  ms ← sv_set_lazy (dim_mappings (body f)) mapping_id mapping;
  let f := with_body (set_dim_mappings ms (body f)) f in
  Some (if old_to_new then (old_dim, new_dim) else (new_dim, old_dim), f).

Fixpoint activate_mapped_dims (mappings : list (DimMappingId * (DimId * DimId)))
    (old_to_new : bool) f : option (DimMap * Function LoweringMap) :=
  match mappings with
  | [] => Some (dm_new [], f)
  | m :: mappings =>
      '(p, f) ← activate_mapped_dim old_to_new f m;
      '(map, f) ← activate_mapped_dims mappings old_to_new f;
      Some (p :: map, f)
  end.

(** [create_inst] unwrapped, then stored in its hole. *)
Definition create_lazy_inst (id : InstId) (op : Operator LoweringMap) (iter : list DimId) f
  : option (Function LoweringMap) :=
  '(r, f) ← create_inst id op (list_to_set iter) f;
  match r with
  | RErr _ => panic
  | ROk i =>
      iv ← sv_set_lazy (insts (body f)) id i;
      Some (with_body (set_insts iv (body f)) f)
  end.

Definition function_lower_dim_map (dst_inst : InstId) (dst_operand_pos : nat) f
  : option (result LoweredDimMap unit * Function LoweringMap) :=
  dst ← inst dst_inst f;
  operand ← operands (inst_operator dst) !! dst_operand_pos;
  match operand with
  | OInst src_inst data_type dim_map (Global lowering) =>
      lowered ← lm_lower lowering dim_map;
      '(st_dim_map, f) ← activate_mapped_dims (st_dims_mapping lowered) true f;
      '(ld_dim_map, f) ← activate_mapped_dims (ld_dims_mapping lowered) false f;
      mds ← mem_dimensions lowered;
      m ← set_lazy_tmp (ldm_mem lowered) data_type mds (mem_blocks (body f));
      let f := with_body (set_mem_blocks m (body f)) f in
      src ← inst src_inst f;
      st_operand ← operand_new_inst src st_dim_map Local;
      f ← create_lazy_inst (ldm_store lowered) (OpTmpSt st_operand (ldm_mem lowered))
            (store_dims lowered) f;
      f ← create_lazy_inst (ldm_load lowered) (OpTmpLd data_type (ldm_mem lowered))
            (load_dims lowered) f;
      f ← inst_mut dst_inst
            (inst_lower_dim_map dst_operand_pos (ldm_load lowered) ld_dim_map) f;
      Some (ROk lowered, f)
  | OInst _ _ _ _ => Some (RErr tt, f)
  | OReduce _ _ _ _ => Some (RErr tt, f)
  | _ => panic
  end.

Definition dim_not_merged (lhs rhs : DimId) f : option (Function LoweringMap) :=
  lhs_dim ← dim lhs f;
  '(to_lower, m) ← not_merged lhs_dim rhs (mem_blocks (body f));
  let b := set_mem_blocks m (body f) in
  Some (with_body (set_layouts_to_lower (layouts_to_lower b ++ to_lower) b) f).
End lowering.
