(* ===== verification/FunctionFacts.v ===== *)
(** * What holds of a function while it is built and lowered

    The cross references of a function's body are an invariant: an identifier is the
    position of its object, iteration dimensions and iterated instructions mirror each
    other, so do mappings and the dimensions they map, variables and the instructions
    that use them, memory blocks and the instructions that access them, and the lists of
    static dimensions, thread dimensions and memory instructions are exact.  The
    invariant is stated on the part of the objects it concerns (their summaries), so an
    operation that does not touch that part keeps it for free. *)
From S2P Require Import Prelude VecSet Types Size SparseVec Operands Objects.
From S2P Require Import Function.

(** ** Summaries *)
Record DimSum := mkDimSum {
  ds_id : DimId; ds_iterated : list InstId; ds_thread : bool; ds_static : bool;
  ds_mapped : list DimMappingId
}.

Record InstSum := mkInstSum {
  is_id : InstId; is_iter : gset DimId; is_mem : bool; is_block : option MemId;
  is_vars : list VarId
}.

Definition dim_sum (d : Dimension) : DimSum :=
  mkDimSum (dim_id d) (iterated d) (is_thread_dim d) (negb (vs_is_empty (dim_possible_sizes d)))
    (mapped_dims d).

Definition inst_sum {L : Type} (i : Instruction L) : InstSum :=
  mkInstSum (inst_id i) (iter_dims i) (is_mem_access (inst_operator i))
    (mem_used (inst_operator i)) (used_vars i).

Record View := mkView {
  v_inst : InstId → option InstSum;
  v_dim : DimId → option DimSum;
  v_map : DimMappingId → option (DimMappingId * (DimId * DimId));
  v_var : VarId → option (VarId * list StmtId);
  v_block : MemId → option (MemId * list InstId);
  v_thread : list DimId;
  v_static : list DimId;
  v_mem : list InstId
}.

Definition map_sum (m : DimMapping) := (dmap_id m, dmap_dims m).
Definition var_sum (v : IrVariable) := (var_id v, use_points v).
Definition block_sum (b : Block) := (block_id b, block_uses b).

Definition view {L : Type} (f : Function L) : View := mkView
  (λ i, inst_sum <$> inst i f) (λ d, dim_sum <$> dim d f)
  (λ m, map_sum <$> dim_mapping m f) (λ v, var_sum <$> variable v f)
  (λ b, block_sum <$> mem_block b f)
  (thread_dims (body f)) (static_dims (body f)) (mem_insts (body f)).

(** The two views have the same entries. *)
Record view_eq (v w : View) : Prop := mkViewEq {
  ve_inst : ∀ i, v_inst v i = v_inst w i;
  ve_dim : ∀ i, v_dim v i = v_dim w i;
  ve_map : ∀ i, v_map v i = v_map w i;
  ve_var : ∀ i, v_var v i = v_var w i;
  ve_block : ∀ i, v_block v i = v_block w i;
  ve_thread : v_thread v = v_thread w;
  ve_static : v_static v = v_static w;
  ve_mem : v_mem v = v_mem w
}.

#[global] Instance view_eq_equivalence : Equivalence view_eq.
Proof.
  split.
  - by intros v; split.
  - intros v w []. by split.
  - intros u v w [] []. split; intros; congruence.
Qed.

(** ** The invariant *)
Definition ids_ok (v : View) : Prop :=
  (∀ i x, v_inst v i = Some x → is_id x = i) ∧
  (∀ d x, v_dim v d = Some x → ds_id x = d) ∧
  (∀ m x, v_map v m = Some x → x.1 = m) ∧
  (∀ i x, v_var v i = Some x → x.1 = i) ∧
  (∀ b x, v_block v b = Some x → x.1 = b).

Definition iteration_ok (v : View) : Prop :=
  (∀ i x d, v_inst v i = Some x → d ∈ is_iter x →
     ∃ y, v_dim v d = Some y ∧ i ∈ ds_iterated y) ∧
  (∀ d y i, v_dim v d = Some y → i ∈ ds_iterated y →
     ∃ x, v_inst v i = Some x ∧ d ∈ is_iter x).

Definition lists_ok (v : View) : Prop :=
  strict_sorted (v_thread v) ∧
  (∀ d, d ∈ v_thread v ↔ ∃ y, v_dim v d = Some y ∧ ds_thread y = true) ∧
  (∀ d, d ∈ v_static v ↔ ∃ y, v_dim v d = Some y ∧ ds_static y = true) ∧
  (∀ i, i ∈ v_mem v ↔ ∃ x, v_inst v i = Some x ∧ is_mem x = true).

Definition mappings_ok (v : View) : Prop :=
  (∀ d y, v_dim v d = Some y → strict_sorted (ds_mapped y)) ∧
  (∀ d y m, v_dim v d = Some y → m ∈ ds_mapped y →
     ∃ x, v_map v m = Some x ∧ (d = x.2.1 ∨ d = x.2.2)) ∧
  (∀ m x, v_map v m = Some x →
     (∃ y, v_dim v x.2.1 = Some y ∧ m ∈ ds_mapped y) ∧
     (∃ y, v_dim v x.2.2 = Some y ∧ m ∈ ds_mapped y)).

Definition uses_ok (v : View) : Prop :=
  (∀ i x, v_var v i = Some x → strict_sorted x.2) ∧
  (∀ i x k, v_inst v i = Some x → k ∈ is_vars x →
     ∃ y, v_var v k = Some y ∧ SInst i ∈ y.2) ∧
  (∀ k y s, v_var v k = Some y → s ∈ y.2 →
     ∃ i x, s = SInst i ∧ v_inst v i = Some x ∧ k ∈ is_vars x).

Definition blocks_ok (v : View) : Prop :=
  (∀ i x b, v_inst v i = Some x → is_block x = Some b →
     ∃ y, v_block v b = Some y ∧ i ∈ y.2) ∧
  (∀ b y i, v_block v b = Some y → i ∈ y.2 →
     ∃ x, v_inst v i = Some x ∧ is_block x = Some b).

Record view_ok (v : View) : Prop := mkViewOk {
  vo_ids : ids_ok v;
  vo_iter : iteration_ok v;
  vo_lists : lists_ok v;
  vo_maps : mappings_ok v;
  vo_uses : uses_ok v;
  vo_blocks : blocks_ok v
}.

(** The vectors of objects never hold more than was declared. *)
Record shapes_ok {L : Type} (f : Function L) : Prop := mkShapesOk {
  so_insts : sv_wf (insts (body f));
  so_dims : sv_wf (dims (body f));
  so_maps : sv_wf (dim_mappings (body f));
  so_vars : sv_wf (variables (body f));
  so_blocks : sv_wf (blocks (mem_blocks (body f)));
  so_ldims : ∀ i l, logical_dims (body f) !! i = Some l → ldim_id l = i
}.

Definition fn_wf {L : Type} (f : Function L) : Prop := view_ok (view f) ∧ shapes_ok f.

(** The identifiers handed out so far fit the integers that hold them. *)
Definition fits {L : Type} (f : Function L) : Prop :=
  (Z.of_nat (sv_len (insts (body f))) ≤ 2 ^ 32)%Z ∧
  (Z.of_nat (sv_len (dims (body f))) ≤ 2 ^ 32)%Z ∧
  (Z.of_nat (sv_len (dim_mappings (body f))) ≤ 2 ^ 16)%Z ∧
  (Z.of_nat (sv_len (variables (body f))) ≤ 2 ^ 16)%Z ∧
  (Z.of_nat (num_blocks (mem_blocks (body f))) ≤ 2 ^ 32)%Z ∧
  (Z.of_nat (length (logical_dims (body f))) ≤ 2 ^ 32)%Z.

(** ** The invariant only depends on the entries *)
Lemma view_ok_ext v w : view_eq v w → view_ok v → view_ok w.
Proof.
  intros [H1 H2 H3 H4 H5 H6 H7 H8] [Hid Hit Hl Hm Hu Hb]. split.
  - unfold ids_ok in *. setoid_rewrite <-H1. setoid_rewrite <-H2. setoid_rewrite <-H3.
    setoid_rewrite <-H4. setoid_rewrite <-H5. done.
  - unfold iteration_ok in *. setoid_rewrite <-H1. setoid_rewrite <-H2. done.
  - unfold lists_ok in *. setoid_rewrite <-H1. setoid_rewrite <-H2.
    rewrite <-H6, <-H7, <-H8. done.
  - unfold mappings_ok in *. setoid_rewrite <-H2. setoid_rewrite <-H3. done.
  - unfold uses_ok in *. setoid_rewrite <-H1. setoid_rewrite <-H4. done.
  - unfold blocks_ok in *. setoid_rewrite <-H1. setoid_rewrite <-H5. done.
Qed.

(** ** Updates of one field *)
Section updates.
Context {T : Type}.
Implicit Types s : SparseVec T.

Lemma sv_update_shape s i g s' :
  sv_update s i g = Some s' → sv_len s' = sv_len s ∧ (sv_wf s → sv_wf s') ∧
    (sv_full s → sv_full s').
Proof.
  intros (v & v' & _ & _ & Hc & Hl & _)%sv_update_spec. unfold sv_wf, sv_full, sv_len.
  rewrite Hc, Hl. done.
Qed.

(** An update that keeps a projection of the object keeps it everywhere. *)
Lemma sv_update_proj {U : Type} (p : T → U) s i g s' :
  sv_update s i g = Some s' → (∀ x y, g x = Some y → p y = p x) →
  ∀ j, p <$> sv_get s' j = p <$> sv_get s j.
Proof.
  intros (v & v' & Hv & Hg & _ & _ & Hget)%sv_update_spec Hp j. rewrite Hget.
  case_decide; [|done]. subst. rewrite Hv. simpl. by rewrite (Hp _ _ Hg).
Qed.

Lemma sv_map_shape (g : T → T) s :
  sv_len (sv_map g s) = sv_len s ∧ (sv_wf s → sv_wf (sv_map g s)).
Proof. unfold sv_wf, sv_map, sv_len; simpl. by rewrite length_fmap. Qed.

Lemma sv_push_shape s v s' :
  sv_push s v = Some s' → sv_len s' = S (sv_len s) ∧ sv_wf s' ∧ sv_full s ∧ sv_full s'.
Proof.
  intros (H1 & H2 & H3 & _)%sv_push_spec. unfold sv_wf, sv_full, sv_len in *.
  split_and!; auto; lia.
Qed.

Lemma sv_get_lt s i v : sv_wf s → sv_get s i = Some v → (i < sv_len s)%nat.
Proof.
  unfold sv_wf, sv_len. intros Hw Hg%sv_get_Some%lookup_lt_Some. lia.
Qed.
End updates.

(** A loop of updates on distinct indices applies [g] at each of them. *)
Fixpoint sv_updates {T : Type} (g : T → option T) (ids : list nat) (s : SparseVec T)
  : option (SparseVec T) :=
  match ids with
  | [] => Some s
  | i :: ids => s ← sv_update s i g; sv_updates g ids s
  end.

Section loops.
Context {T : Type}.
Implicit Types s : SparseVec T.

Lemma sv_updates_spec (g : T → option T) ids s s' :
  sv_updates g ids s = Some s' → NoDup ids →
  sv_len s' = sv_len s ∧ (sv_wf s → sv_wf s') ∧ (sv_full s → sv_full s') ∧
  ∀ j, if decide (j ∈ ids)
       then ∃ x y, sv_get s j = Some x ∧ g x = Some y ∧ sv_get s' j = Some y
       else sv_get s' j = sv_get s j.
Proof.
  revert s. induction ids as [|i ids IH]; intros s; cbn [sv_updates].
  - intros [= <-] _. split_and!; [done..|]. intros j.
    rewrite decide_False by apply not_elem_of_nil. done.
  - intros (s1 & Hs & H1)%bind_Some [Hi Hn]%NoDup_cons.
    destruct (IH s1 H1 Hn) as (Hl & Hw & Hf & Hg).
    destruct (sv_update_shape _ _ _ _ Hs) as (Hl1 & Hw1 & Hf1).
    apply sv_update_spec in Hs as (v & v' & Hv & Hgv & _ & _ & Hget).
    split_and!; [congruence|auto..|]. intros j. specialize (Hg j). case_decide as Hin.
    + rewrite decide_True by by right. rewrite Hget, decide_False in Hg by set_solver. done.
    + destruct (decide (j = i)) as [->|Hne].
      * rewrite decide_True by by left. exists v, v'. rewrite Hg, Hget, decide_True; done.
      * rewrite decide_False by set_solver. by rewrite Hg, Hget, decide_False.
Qed.

Lemma sv_updates_proj {U : Type} (p : T → U) (g : T → option T) ids s s' :
  sv_updates g ids s = Some s' → (∀ x y, g x = Some y → p y = p x) →
  sv_len s' = sv_len s ∧ (sv_wf s → sv_wf s') ∧
  ∀ j, p <$> sv_get s' j = p <$> sv_get s j.
Proof.
  intros Hs Hp. revert s Hs. induction ids as [|i ids IH]; intros s; cbn [sv_updates].
  - by intros [= <-].
  - intros (s1 & Hs & (Hl & Hw & Hj)%IH)%bind_Some.
    destruct (sv_update_shape _ _ _ _ Hs) as (Hl1 & Hw1 & _).
    split_and!; [congruence|auto|]. intros j. rewrite Hj. by eapply sv_update_proj.
Qed.
End loops.

Section field_updates.
Context {L : Type}.
Implicit Types f : Function L.

Lemma with_body_eta f : f = with_body (body f) f.
Proof. by destruct f. Qed.

Lemma inst_mut_eq i g f :
  inst_mut i g f = v ← sv_update (insts (body f)) i g; Some (with_body (set_insts v (body f)) f).
Proof. done. Qed.

Lemma foldM_dim_mut g ids f f' :
  foldM (λ f d, dim_mut d g f) ids f = Some f' →
  ∃ ds, sv_updates g ids (dims (body f)) = Some ds ∧
        f' = with_body (set_dims ds (body f)) f.
Proof.
  revert f. induction ids as [|i ids IH]; intros f; cbn [foldM sv_updates].
  - intros [= <-]. eexists. split; [done|]. by destruct f as [? ? []].
  - intros (f1 & (v & Hv & [= <-])%bind_Some & (ds & Hds & ->)%IH)%bind_Some.
    exists ds. rewrite Hv. done.
Qed.

Lemma foldM_variable_mut g ids f f' :
  foldM (λ f d, variable_mut d g f) ids f = Some f' →
  ∃ ds, sv_updates g ids (variables (body f)) = Some ds ∧
        f' = with_body (set_variables ds (body f)) f.
Proof.
  revert f. induction ids as [|i ids IH]; intros f; cbn [foldM sv_updates].
  - intros [= <-]. eexists. split; [done|]. by destruct f as [? ? []].
  - intros (f1 & (v & Hv & [= <-])%bind_Some & (ds & Hds & ->)%IH)%bind_Some.
    exists ds. rewrite Hv. done.
Qed.

Lemma foldM_mapping_mut g ids f f' :
  foldM (λ f d, dim_mapping_mut d g f) ids f = Some f' →
  ∃ ds, sv_updates g ids (dim_mappings (body f)) = Some ds ∧
        f' = with_body (set_dim_mappings ds (body f)) f.
Proof.
  revert f. induction ids as [|i ids IH]; intros f; cbn [foldM sv_updates].
  - intros [= <-]. eexists. split; [done|]. by destruct f as [? ? []].
  - intros (f1 & (v & Hv & [= <-])%bind_Some & (ds & Hds & ->)%IH)%bind_Some.
    exists ds. rewrite Hv. done.
Qed.

Lemma foldM_inst_mut g ids f f' :
  foldM (λ f d, inst_mut d g f) ids f = Some f' →
  ∃ ds, sv_updates g ids (insts (body f)) = Some ds ∧
        f' = with_body (set_insts ds (body f)) f.
Proof.
  revert f. induction ids as [|i ids IH]; intros f; cbn [foldM sv_updates].
  - intros [= <-]. eexists. split; [done|]. by destruct f as [? ? []].
  - intros (f1 & (v & Hv & [= <-])%bind_Some & (ds & Hds & ->)%IH)%bind_Some.
    exists ds. rewrite Hv. done.
Qed.
End field_updates.

(** ** Adding an instruction to a view *)
Definition sum_add_iterated (id : InstId) (y : DimSum) : DimSum :=
  mkDimSum (ds_id y) (ds_iterated y ++ [id]) (ds_thread y) (ds_static y) (ds_mapped y).

Record inst_inserted (v w : View) (id : InstId) (x : InstSum) : Prop := mkInstInserted {
  ii_fresh : v_inst v id = None;
  ii_id : is_id x = id;
  ii_inst : ∀ j, v_inst w j = if decide (j = id) then Some x else v_inst v j;
  ii_dim_in : ∀ d, d ∈ is_iter x →
    ∃ y, v_dim v d = Some y ∧ v_dim w d = Some (sum_add_iterated id y);
  ii_dim_out : ∀ d, d ∉ is_iter x → v_dim w d = v_dim v d;
  ii_map : ∀ m, v_map w m = v_map v m;
  ii_var_in : ∀ k, k ∈ is_vars x →
    ∃ y, v_var v k = Some y ∧ v_var w k = Some (y.1, (vs_insert (SInst id) y.2).1);
  ii_var_out : ∀ k, k ∉ is_vars x → v_var w k = v_var v k;
  ii_block_in : ∀ b, is_block x = Some b →
    ∃ y, v_block v b = Some y ∧ v_block w b = Some (y.1, y.2 ++ [id]);
  ii_block_out : ∀ b, is_block x ≠ Some b → v_block w b = v_block v b;
  ii_thread : v_thread w = v_thread v;
  ii_static : v_static w = v_static v;
  ii_mem : v_mem w = v_mem v ++ (if is_mem x then [id] else [])
}.

Section insert_inst.
Context (v w : View) (id : InstId) (x : InstSum) (Hi : inst_inserted v w id x).

(** A dimension after the insertion, from the dimension before. *)
Lemma inserted_dim d y :
  v_dim w d = Some y →
  ∃ y0, v_dim v d = Some y0 ∧
    ds_id y = ds_id y0 ∧ ds_thread y = ds_thread y0 ∧ ds_static y = ds_static y0 ∧
    ds_mapped y = ds_mapped y0 ∧
    (∀ i, i ∈ ds_iterated y ↔ i ∈ ds_iterated y0 ∨ i = id ∧ d ∈ is_iter x).
Proof.
  intros Hy. destruct (decide (d ∈ is_iter x)) as [Hd|Hd].
  - destruct (ii_dim_in _ _ _ _ Hi d Hd) as (y0 & H0 & H1). exists y0.
    rewrite Hy in H1. injection H1 as ->. split_and!; try done. simpl. set_solver.
  - exists y. rewrite (ii_dim_out _ _ _ _ Hi d Hd) in Hy. split_and!; try done. tauto.
Qed.

Lemma inserted_dim_back d y0 :
  v_dim v d = Some y0 →
  ∃ y, v_dim w d = Some y ∧
    ds_thread y = ds_thread y0 ∧ ds_static y = ds_static y0 ∧
    ds_mapped y = ds_mapped y0 ∧
    (∀ i, i ∈ ds_iterated y ↔ i ∈ ds_iterated y0 ∨ i = id ∧ d ∈ is_iter x).
Proof.
  intros Hy. destruct (decide (d ∈ is_iter x)) as [Hd|Hd].
  - destruct (ii_dim_in _ _ _ _ Hi d Hd) as (y1 & H0 & H1). simplify_eq.
    eexists. split; [done|]. split_and!; try done. simpl. set_solver.
  - exists y0. rewrite (ii_dim_out _ _ _ _ Hi d Hd). split_and!; try done. tauto.
Qed.

Lemma inserted_var k y :
  v_var w k = Some y → uses_ok v →
  ∃ y0, v_var v k = Some y0 ∧ y.1 = y0.1 ∧ strict_sorted y.2 ∧
    (∀ s, s ∈ y.2 ↔ s ∈ y0.2 ∨ s = SInst id ∧ k ∈ is_vars x).
Proof.
  intros Hy (Hs & _). destruct (decide (k ∈ is_vars x)) as [Hk|Hk].
  - destruct (ii_var_in _ _ _ _ Hi k Hk) as (y0 & H0 & H1). exists y0.
    rewrite Hy in H1. injection H1 as ->. simpl.
    destruct (vs_insert_spec (SInst id) y0.2) as (H2 & H3 & _); [by eapply Hs|].
    split_and!; try done. intros s. rewrite H3. tauto.
  - exists y. rewrite (ii_var_out _ _ _ _ Hi k Hk) in Hy.
    split_and!; [done|done|by eapply Hs|]. tauto.
Qed.

Lemma inserted_block b y :
  v_block w b = Some y →
  ∃ y0, v_block v b = Some y0 ∧ y.1 = y0.1 ∧
    (∀ i, i ∈ y.2 ↔ i ∈ y0.2 ∨ i = id ∧ is_block x = Some b).
Proof.
  intros Hy. destruct (decide (is_block x = Some b)) as [Hb|Hb].
  - destruct (ii_block_in _ _ _ _ Hi b Hb) as (y0 & H0 & H1). exists y0.
    rewrite Hy in H1. injection H1 as ->. split_and!; try done. simpl. set_solver.
  - exists y. rewrite (ii_block_out _ _ _ _ Hi b Hb) in Hy. split_and!; try done. tauto.
Qed.

Lemma inserted_ids : view_ok v → ids_ok w.
Proof.
  intros [(H1 & H2 & H3 & H4 & H5) _ _ _ Hu _]. split_and!.
  - intros i y. rewrite (ii_inst _ _ _ _ Hi). case_decide; [|by apply H1].
    subst. intros [= <-]. apply Hi.
  - intros d y (y0 & Hy & -> & _)%inserted_dim. by apply H2.
  - intros m y. rewrite (ii_map _ _ _ _ Hi). apply H3.
  - intros k y Hy. destruct (inserted_var k y Hy Hu) as (y0 & H0 & -> & _). by apply H4.
  - intros b y (y0 & Hy & -> & _)%inserted_block. by apply H5.
Qed.

Lemma inserted_iteration : iteration_ok v → iteration_ok w.
Proof.
  intros [H1 H2]. split.
  - intros i y d. rewrite (ii_inst _ _ _ _ Hi). case_decide as E.
    + subst. intros [= <-] Hd. destruct (ii_dim_in _ _ _ _ Hi d Hd) as (y0 & _ & Hw).
      eexists. split; [done|]. simpl. set_solver.
    + intros Hy Hd. destruct (H1 i y d Hy Hd) as (y0 & Hy0 & Hin).
      destruct (inserted_dim_back d y0 Hy0) as (y1 & Hw & _ & _ & _ & Hx).
      exists y1. split; [done|]. apply Hx. by left.
  - intros d y i (y0 & Hy & _ & _ & _ & _ & Hx)%inserted_dim [Hin|[-> Hd]]%Hx;
      rewrite (ii_inst _ _ _ _ Hi).
    + destruct (H2 d y0 i Hy Hin) as (x0 & Hx0 & Hd0). exists x0.
      rewrite decide_False; [done|]. intros ->. by rewrite (ii_fresh _ _ _ _ Hi) in Hx0.
    + exists x. by rewrite decide_True.
Qed.

Lemma inserted_lists : lists_ok v → lists_ok w.
Proof.
  intros (H0 & H1 & H2 & H3). split_and!.
  - by rewrite (ii_thread _ _ _ _ Hi).
  - intros d. rewrite (ii_thread _ _ _ _ Hi), H1. split.
    + intros (y & (y1 & Hw & Ht & _)%inserted_dim_back & Hd). exists y1.
      by rewrite Ht.
    + intros (y & (y0 & Hv & _ & Ht & _)%inserted_dim & Hd). exists y0. by rewrite <-Ht.
  - intros d. rewrite (ii_static _ _ _ _ Hi), H2. split.
    + intros (y & (y1 & Hw & _ & Ht & _)%inserted_dim_back & Hd). exists y1.
      by rewrite Ht.
    + intros (y & (y0 & Hv & _ & _ & Ht & _)%inserted_dim & Hd). exists y0.
      by rewrite <-Ht.
  - intros i. rewrite (ii_mem _ _ _ _ Hi), elem_of_app, H3, (ii_inst _ _ _ _ Hi). split.
    + intros [(y & Hy & Hm)|Hin].
      * exists y. rewrite decide_False; [done|]. intros ->.
        by rewrite (ii_fresh _ _ _ _ Hi) in Hy.
      * destruct (is_mem x) eqn:Em; [|by apply elem_of_nil in Hin].
        apply list_elem_of_singleton in Hin as ->. exists x. by rewrite decide_True.
    + case_decide as E; [|intros ?; by left]. intros (y & [= <-] & ->). right.
      subst. by left.
Qed.

Lemma inserted_maps : mappings_ok v → mappings_ok w.
Proof.
  intros (H0 & H1 & H2). split_and!.
  - intros d y (y0 & Hy & _ & _ & _ & -> & _)%inserted_dim. by eapply H0.
  - intros d y m (y0 & Hy & _ & _ & _ & -> & _)%inserted_dim Hm.
    rewrite (ii_map _ _ _ _ Hi). by eapply H1.
  - intros m y. rewrite (ii_map _ _ _ _ Hi). intros Hy.
    destruct (H2 m y Hy) as [(a & Ha & Ha') (b & Hb & Hb')].
    destruct (inserted_dim_back _ _ Ha) as (a1 & ? & _ & _ & Ea & _).
    destruct (inserted_dim_back _ _ Hb) as (b1 & ? & _ & _ & Eb & _).
    split; eexists; (split; [done|]); congruence.
Qed.

Lemma inserted_uses : uses_ok v → uses_ok w.
Proof.
  intros Hu. pose proof Hu as (H0 & H1 & H2). split_and!.
  - intros k y Hy. by destruct (inserted_var k y Hy Hu) as (? & _ & _ & ? & _).
  - intros i y k. rewrite (ii_inst _ _ _ _ Hi). case_decide as E.
    + subst. intros [= <-] Hk. destruct (ii_var_in _ _ _ _ Hi k Hk) as (y0 & Hy0 & Hw).
      eexists. split; [done|].
      destruct (inserted_var _ _ Hw Hu) as (y1 & Hy1 & _ & _ & Hx). apply Hx. by right.
    + intros Hy Hk. destruct (H1 i y k Hy Hk) as (y0 & Hy0 & Hin).
      destruct (v_var w k) as [y1|] eqn:Hw.
      * exists y1. split; [done|].
        destruct (inserted_var _ _ Hw Hu) as (y2 & Hy2 & _ & _ & Hx). apply Hx. left.
        congruence.
      * destruct (decide (k ∈ is_vars x)) as [Hk'|Hk'].
        -- destruct (ii_var_in _ _ _ _ Hi k Hk') as (? & _ & ?). congruence.
        -- rewrite (ii_var_out _ _ _ _ Hi k Hk') in Hw. congruence.
  - intros k y s Hy Hs. destruct (inserted_var _ _ Hy Hu) as (y0 & Hy0 & _ & _ & Hx).
    destruct (proj1 (Hx s) Hs) as [Hs'|[-> Hk]].
    + destruct (H2 k y0 s Hy0 Hs') as (i & x0 & -> & Hx0 & Hk). exists i, x0.
      rewrite (ii_inst _ _ _ _ Hi), decide_False; [done|]. intros ->.
      by rewrite (ii_fresh _ _ _ _ Hi) in Hx0.
    + exists id, x. rewrite (ii_inst _ _ _ _ Hi), decide_True by done. done.
Qed.

Lemma inserted_blocks : blocks_ok v → blocks_ok w.
Proof.
  intros (H1 & H2). split.
  - intros i y b. rewrite (ii_inst _ _ _ _ Hi). case_decide as E.
    + subst. intros [= <-] Hb. destruct (ii_block_in _ _ _ _ Hi b Hb) as (y0 & _ & Hw).
      eexists. split; [done|]. simpl. set_solver.
    + intros Hy Hb. destruct (H1 i y b Hy Hb) as (y0 & Hy0 & Hin).
      destruct (decide (is_block x = Some b)) as [Hk|Hk].
      * destruct (ii_block_in _ _ _ _ Hi b Hk) as (y1 & ? & Hw). simplify_eq.
        eexists. split; [done|]. simpl. set_solver.
      * rewrite (ii_block_out _ _ _ _ Hi b Hk). eauto.
  - intros b y i (y0 & Hy0 & _ & Hx)%inserted_block [Hin|[-> Hb]]%Hx;
      rewrite (ii_inst _ _ _ _ Hi).
    + destruct (H2 b y0 i Hy0 Hin) as (x0 & Hx0 & Hb). exists x0.
      rewrite decide_False; [done|]. intros ->. by rewrite (ii_fresh _ _ _ _ Hi) in Hx0.
    + exists x. by rewrite decide_True.
Qed.

Lemma inserted_view_ok : view_ok v → view_ok w.
Proof.
  intros Hv. split; [by apply inserted_ids|apply inserted_iteration, Hv|
    apply inserted_lists, Hv|apply inserted_maps, Hv|apply inserted_uses, Hv|
    apply inserted_blocks, Hv].
Qed.
End insert_inst.

(** ** Creating and storing an instruction *)
Section create_inst.
Context {L : Type}.
Implicit Types f : Function L.

Lemma obind_ok {T U E : Type} (e : outcome T E) (k : T → outcome U E) v :
  obind e k = Some (ROk v) ↔ ∃ x, e = Some (ROk x) ∧ k x = Some (ROk v).
Proof.
  destruct e as [[x|x]|]; simpl; split; try done; eauto.
  - by intros (y & [= <-] & ?).
  - by intros (y & ? & _).
  - by intros (y & ? & _).
Qed.

Lemma instruction_new_ok op id iter f i :
  instruction_new op id iter f = Some (ROk i) →
  i = mkInstruction op id iter None [] (vs_new (omap operand_variable (operands op))).
Proof.
  unfold instruction_new. intros (u & _ & Hk)%obind_ok.
  apply obind_ok in Hk as (u' & _ & [= <-]). done.
Qed.

Definition used_block (id : InstId) (m : BlockMap) (b : option MemId) : option BlockMap :=
  match b with Some mem => register_use mem id m | None => Some m end.

Lemma create_inst_ok id op iter f i f' :
  create_inst id op iter f = Some (ROk i, f') →
  ∃ ds ms vs,
    i = mkInstruction op id iter None [] (vs_new (omap operand_variable (operands op))) ∧
    sv_updates (λ d, Some (add_iterated id d)) (elements iter) (dims (body f)) = Some ds ∧
    used_block id (mem_blocks (body f)) (mem_used op) = Some ms ∧
    sv_updates (λ v, Some (add_use (SInst id) v)) (used_vars i) (variables (body f))
      = Some vs ∧
    f' = with_body (set_variables vs (set_mem_blocks ms
           (set_mem_insts (mem_insts (body f) ++ (if is_mem_access op then [id] else []))
              (set_dims ds (body f))))) f.
Proof.
  unfold create_inst. intros ([i'|e] & Hn & H)%bind_Some; [|done].
  apply bind_Some in H as (f1 & Hd & H).
  apply foldM_dim_mut in Hd as (ds & Hds & ->).
  apply bind_Some in H as (f2 & Hm & H).
  apply bind_Some in H as (f3 & Hv & [= <- <-]).
  apply foldM_variable_mut in Hv as (vs & Hvs & ->).
  apply instruction_new_ok in Hn as ->. simpl in *.
  destruct (mem_used op) as [b|] eqn:Eb.
  - apply bind_Some in Hm as (ms & Hms & [= <-]). exists ds, ms, vs.
    split_and!; [done|done| | |].
    + destruct (is_mem_access op); exact Hms.
    + destruct (is_mem_access op); exact Hvs.
    + destruct (is_mem_access op); simpl; [done|]. by rewrite app_nil_r.
  - injection Hm as <-. exists ds, (mem_blocks (body f)), vs. split_and!; [done|done|done| |].
    + destruct (is_mem_access op); exact Hvs.
    + destruct (is_mem_access op); simpl; [done|]. rewrite app_nil_r.
      by destruct f as [? ? []].
Qed.

Lemma used_block_spec id m b m' :
  used_block id m b = Some m' →
  sv_len (blocks m') = sv_len (blocks m) ∧ (sv_wf (blocks m) → sv_wf (blocks m')) ∧
  layouts m' = layouts m ∧
  (∀ k, b = Some k → ∃ y, sv_get (blocks m) k = Some y ∧
     sv_get (blocks m') k = Some (block_add_use id y)) ∧
  (∀ k, b ≠ Some k → sv_get (blocks m') k = sv_get (blocks m) k).
Proof.
  unfold used_block. destruct b as [k|].
  - unfold register_use. intros (bs & Hb & [= <-])%bind_Some.
    destruct (sv_update_shape _ _ _ _ Hb) as (H1 & H2 & _).
    apply sv_update_spec in Hb as (y & y' & Hy & [= <-] & _ & _ & Hg).
    split_and!; try done.
    + intros j [= <-]. exists y. split; [done|]. simpl. by rewrite Hg, decide_True.
    + intros j Hj. simpl. rewrite Hg, decide_False; [done|]. congruence.
  - by intros [= <-].
Qed.

Lemma store_inst_wf id op iter f i f' iv :
  create_inst id op iter f = Some (ROk i, f') →
  fn_wf f → inst id f = None → sv_wf iv →
  (∀ j, sv_get iv j = if decide (j = id) then Some i else sv_get (insts (body f)) j) →
  fn_wf (with_body (set_insts iv (body f')) f').
Proof.
  intros (ds & ms & vs & -> & Hds & Hms & Hvs & ->)%create_inst_ok [Hv Hs] Hnew Hwf Hiv.
  destruct Hs as [Hs1 Hs2 Hs3 Hs4 Hs5 Hs6].
  apply sv_updates_spec in Hds as (Hdl & Hdw & _ & Hdg); [|apply NoDup_elements].
  apply used_block_spec in Hms as (Hml & Hmw & _ & Hmi & Hmo).
  apply sv_updates_spec in Hvs as (Hvl & Hvw & _ & Hvg);
    [|apply strict_sorted_NoDup, vs_new_sorted].
  set (i := mkInstruction op id iter None [] _) in *.
  split; [|by split; simpl; auto].
  eapply (inserted_view_ok (view f) _ id (inst_sum i)); [|done].
  split.
  - simpl. by rewrite Hnew.
  - done.
  - intros j. simpl. unfold inst. simpl. rewrite Hiv. by case_decide.
  - intros d Hd. simpl in Hd |- *. unfold dim. simpl. specialize (Hdg d).
    rewrite decide_True in Hdg by by apply elem_of_elements.
    destruct Hdg as (y & y' & Hy & [= <-] & Hy'). exists (dim_sum y).
    by rewrite Hy, Hy'.
  - intros d Hd. simpl in Hd |- *. unfold dim. simpl. specialize (Hdg d).
    rewrite decide_False in Hdg by by rewrite elem_of_elements. by rewrite Hdg.
  - done.
  - intros k Hk. simpl in Hk |- *. unfold variable. simpl. specialize (Hvg k).
    rewrite decide_True in Hvg by done.
    destruct Hvg as (y & y' & Hy & [= <-] & Hy'). exists (var_sum y).
    by rewrite Hy, Hy'.
  - intros k Hk. simpl in Hk |- *. unfold variable. simpl. specialize (Hvg k).
    rewrite decide_False in Hvg by done. by rewrite Hvg.
  - intros b Hb. simpl in Hb |- *. unfold mem_block, block. simpl.
    destruct (Hmi b Hb) as (y & Hy & Hy'). exists (block_sum y). by rewrite Hy, Hy'.
  - intros b Hb. simpl in Hb |- *. unfold mem_block, block. simpl. by rewrite Hmo.
  - done.
  - done.
  - done.
Qed.

Lemma create_inst_lens id op iter f r f' :
  create_inst id op iter f = Some (r, f') →
  insts (body f') = insts (body f) ∧
  sv_len (dims (body f')) = sv_len (dims (body f)) ∧
  dim_mappings (body f') = dim_mappings (body f) ∧
  sv_len (variables (body f')) = sv_len (variables (body f)) ∧
  num_blocks (mem_blocks (body f')) = num_blocks (mem_blocks (body f)) ∧
  logical_dims (body f') = logical_dims (body f) ∧
  (∀ e, r = RErr e → f' = f).
Proof.
  destruct r as [i|e].
  - intros (ds & ms & vs & -> & Hds & Hms & Hvs & ->)%create_inst_ok.
    eapply (sv_updates_proj dim_id) in Hds as (Hdl & _); [|by intros ? ? [= <-]].
    apply used_block_spec in Hms as (Hml & _).
    eapply (sv_updates_proj var_id) in Hvs as (Hvl & _); [|by intros ? ? [= <-]].
    by split_and!.
  - unfold create_inst. intros ([i'|e'] & Hn & H)%bind_Some.
    + repeat apply bind_Some in H as (? & ? & H). done.
    + by injection H as <- <-.
Qed.
End create_inst.

(** ** Adding a mapping to a view *)

(** The dimension [y0] with the mapping [id] registered when [P] holds. *)
Definition registered (id : DimMappingId) (P : Prop) (y0 y : DimSum) : Prop :=
  ds_id y = ds_id y0 ∧ ds_iterated y = ds_iterated y0 ∧ ds_thread y = ds_thread y0 ∧
  ds_static y = ds_static y0 ∧ (strict_sorted (ds_mapped y0) →
    strict_sorted (ds_mapped y) ∧
    ∀ m, m ∈ ds_mapped y ↔ m ∈ ds_mapped y0 ∨ m = id ∧ P).

Record mapping_inserted (v w : View) (id : DimMappingId) (a b : DimId) : Prop := {
  mi_fresh : v_map v id = None;
  mi_a : is_Some (v_dim v a);
  mi_b : is_Some (v_dim v b);
  mi_dim : ∀ d, option_Forall2 (registered id (d = a ∨ d = b)) (v_dim v d) (v_dim w d);
  mi_map : ∀ j, v_map w j = if decide (j = id) then Some (id, (a, b)) else v_map v j;
  mi_inst : ∀ i, v_inst w i = v_inst v i;
  mi_var : ∀ i, v_var w i = v_var v i;
  mi_block : ∀ i, v_block w i = v_block v i;
  mi_thread : v_thread w = v_thread v;
  mi_static : v_static w = v_static v;
  mi_mem : v_mem w = v_mem v
}.

Section insert_mapping.
Context (v w : View) (id : DimMappingId) (a b : DimId) (Hi : mapping_inserted v w id a b).
Context (Hv : view_ok v).

Lemma mi_old d y :
  v_dim w d = Some y → ∃ y0, v_dim v d = Some y0 ∧ registered id (d = a ∨ d = b) y0 y.
Proof.
  intros Hy. pose proof (mi_dim _ _ _ _ _ Hi d) as H. rewrite Hy in H.
  inversion H; subst. eauto.
Qed.

Lemma mi_new d y0 :
  v_dim v d = Some y0 → ∃ y, v_dim w d = Some y ∧ registered id (d = a ∨ d = b) y0 y.
Proof.
  intros Hy. pose proof (mi_dim _ _ _ _ _ Hi d) as H. rewrite Hy in H.
  inversion H; subst. eauto.
Qed.

Lemma mi_mapped d y m :
  v_dim w d = Some y →
  m ∈ ds_mapped y ↔
    (∃ y0, v_dim v d = Some y0 ∧ m ∈ ds_mapped y0) ∨ m = id ∧ (d = a ∨ d = b).
Proof.
  intros (y0 & Hy & _ & _ & _ & _ & Hm)%mi_old.
  destruct (vo_maps _ Hv) as (Hs & _). destruct (Hm (Hs _ _ Hy)) as [_ Hm'].
  rewrite Hm'. split; [intros [?|?]; eauto|].
  intros [(y1 & ? & ?)|?]; [left; congruence|by right].
Qed.

Lemma mapping_inserted_maps : mappings_ok w.
Proof.
  destruct (vo_maps _ Hv) as (H0 & H1 & H2). split_and!.
  - intros d y (y0 & Hy & _ & _ & _ & _ & Hm)%mi_old. apply Hm. by eapply H0.
  - intros d y m Hy. rewrite (mi_mapped d y m Hy), (mi_map _ _ _ _ _ Hi).
    intros [(y0 & Hy0 & Hm)|[-> Hd]].
    + destruct (H1 d y0 m Hy0 Hm) as (x & Hx & ?). exists x.
      rewrite decide_False; [done|]. intros ->. by rewrite (mi_fresh _ _ _ _ _ Hi) in Hx.
    + exists (id, (a, b)). by rewrite decide_True.
  - intros m x. rewrite (mi_map _ _ _ _ _ Hi). case_decide as E.
    + subst. intros [= <-]. simpl.
      destruct (mi_a _ _ _ _ _ Hi) as [ya Hya], (mi_b _ _ _ _ _ Hi) as [yb Hyb].
      destruct (mi_new _ _ Hya) as (ya' & Hya' & _).
      destruct (mi_new _ _ Hyb) as (yb' & Hyb' & _).
      split; eexists; (split; [done|]); (eapply mi_mapped; [done|]); auto.
    + intros Hx. destruct (H2 m x Hx) as [(p & Hp & Hmp) (q & Hq & Hmq)].
      destruct (mi_new _ _ Hp) as (p' & Hp' & _), (mi_new _ _ Hq) as (q' & Hq' & _).
      split; eexists; (split; [done|]); (eapply mi_mapped; [done|]); eauto.
Qed.

Lemma mapping_inserted_view_ok : view_ok w.
Proof.
  destruct Hv as [(I1 & I2 & I3 & I4 & I5) [T1 T2] (L0 & L1 & L2 & L3) _ Hu Hb].
  split; [| | |apply mapping_inserted_maps| |].
  - split_and!.
    + intros i x. rewrite (mi_inst _ _ _ _ _ Hi). apply I1.
    + intros d y (y0 & Hy & -> & _)%mi_old. by apply I2.
    + intros m x. rewrite (mi_map _ _ _ _ _ Hi). case_decide; [|apply I3].
      subst. by intros [= <-].
    + intros i x. rewrite (mi_var _ _ _ _ _ Hi). apply I4.
    + intros i x. rewrite (mi_block _ _ _ _ _ Hi). apply I5.
  - split.
    + intros i x d. rewrite (mi_inst _ _ _ _ _ Hi). intros Hx Hd.
      destruct (T1 i x d Hx Hd) as (y & Hy & ?).
      destruct (mi_new _ _ Hy) as (y' & Hy' & _ & Hit & _). exists y'. by rewrite Hit.
    + intros d y i (y0 & Hy & _ & -> & _)%mi_old. rewrite (mi_inst _ _ _ _ _ Hi).
      by apply T2.
  - split_and!.
    + by rewrite (mi_thread _ _ _ _ _ Hi).
    + intros d. rewrite (mi_thread _ _ _ _ _ Hi), L1. split.
      * intros (y & (y' & Hy' & _ & _ & Ht & _)%mi_new & Hd). exists y'. by rewrite Ht.
      * intros (y & (y' & Hy' & _ & _ & Ht & _)%mi_old & Hd). exists y'. by rewrite <-Ht.
    + intros d. rewrite (mi_static _ _ _ _ _ Hi), L2. split.
      * intros (y & (y' & Hy' & _ & _ & _ & Ht & _)%mi_new & Hd). exists y'. by rewrite Ht.
      * intros (y & (y' & Hy' & _ & _ & _ & Ht & _)%mi_old & Hd). exists y'.
        by rewrite <-Ht.
    + intros i. rewrite (mi_mem _ _ _ _ _ Hi), (mi_inst _ _ _ _ _ Hi). apply L3.
  - unfold uses_ok in *. setoid_rewrite (mi_inst _ _ _ _ _ Hi).
    setoid_rewrite (mi_var _ _ _ _ _ Hi). done.
  - unfold blocks_ok in *. setoid_rewrite (mi_inst _ _ _ _ _ Hi).
    setoid_rewrite (mi_block _ _ _ _ _ Hi). done.
Qed.
End insert_mapping.

(** ** Adding a dimension to a view *)
Record dim_inserted (v w : View) (d : DimId) (static : bool) : Prop := {
  di_fresh : v_dim v d = None;
  di_dim : ∀ j, v_dim w j =
    if decide (j = d) then Some (mkDimSum d [] false static []) else v_dim v j;
  di_inst : ∀ i, v_inst w i = v_inst v i;
  di_map : ∀ i, v_map w i = v_map v i;
  di_var : ∀ i, v_var w i = v_var v i;
  di_block : ∀ i, v_block w i = v_block v i;
  di_thread : v_thread w = v_thread v;
  di_static : ∀ j, j ∈ v_static w ↔ j ∈ v_static v ∨ j = d ∧ static = true;
  di_mem : v_mem w = v_mem v
}.

Lemma dim_inserted_view_ok v w d static :
  dim_inserted v w d static → view_ok v → view_ok w.
Proof.
  intros Hi [(I1 & I2 & I3 & I4 & I5) [T1 T2] (L0 & L1 & L2 & L3) (M0 & M1 & M2) Hu Hb].
  assert (∀ j y, v_dim v j = Some y → v_dim w j = Some y) as Hkeep.
  { intros j y Hy. rewrite (di_dim _ _ _ _ Hi), decide_False; [done|].
    intros ->. by rewrite (di_fresh _ _ _ _ Hi) in Hy. }
  assert (∀ j y, v_dim w j = Some y →
    v_dim v j = Some y ∨ j = d ∧ y = mkDimSum d [] false static []) as Hold.
  { intros j y. rewrite (di_dim _ _ _ _ Hi). case_decide; [|by left].
    intros [= <-]. by right. }
  split.
  - split_and!.
    + intros i x. rewrite (di_inst _ _ _ _ Hi). apply I1.
    + intros j y [Hy|[-> ->]]%Hold; [by apply I2|done].
    + intros m x. rewrite (di_map _ _ _ _ Hi). apply I3.
    + intros i x. rewrite (di_var _ _ _ _ Hi). apply I4.
    + intros i x. rewrite (di_block _ _ _ _ Hi). apply I5.
  - split.
    + intros i x j. rewrite (di_inst _ _ _ _ Hi). intros Hx Hd.
      destruct (T1 i x j Hx Hd) as (y & Hy & ?). exists y. split; [by apply Hkeep|done].
    + intros j y i [Hy|[-> ->]]%Hold; rewrite (di_inst _ _ _ _ Hi); [by apply T2|].
      intros Hin. by apply elem_of_nil in Hin.
  - split_and!.
    + by rewrite (di_thread _ _ _ _ Hi).
    + intros j. rewrite (di_thread _ _ _ _ Hi), L1. split.
      * intros (y & Hy%Hkeep & ?). eauto.
      * intros (y & [Hy|[-> ->]]%Hold & Ht); [eauto|done].
    + intros j. rewrite (di_static _ _ _ _ Hi), L2. split.
      * intros [(y & Hy%Hkeep & ?)|[-> ->]]; [eauto|].
        eexists. by rewrite (di_dim _ _ _ _ Hi), decide_True.
      * intros (y & [Hy|[-> ->]]%Hold & Ht); [left; eauto|by right].
    + intros i. rewrite (di_mem _ _ _ _ Hi), (di_inst _ _ _ _ Hi). apply L3.
  - split_and!.
    + intros j y [Hy|[-> ->]]%Hold; [by eapply M0|apply strict_sorted_nil].
    + intros j y m [Hy|[-> ->]]%Hold Hm; rewrite (di_map _ _ _ _ Hi).
      * by eapply M1.
      * by apply elem_of_nil in Hm.
    + intros m x. rewrite (di_map _ _ _ _ Hi). intros Hx.
      destruct (M2 m x Hx) as [(p & Hp%Hkeep & ?) (q & Hq%Hkeep & ?)]. split; eauto.
  - unfold uses_ok in *. setoid_rewrite (di_inst _ _ _ _ Hi).
    setoid_rewrite (di_var _ _ _ _ Hi). done.
  - unfold blocks_ok in *. setoid_rewrite (di_inst _ _ _ _ Hi).
    setoid_rewrite (di_block _ _ _ _ Hi). done.
Qed.
