(* ===== verification/Building.v ===== *)
(** * Building functions: the invariant (src/ir/function.rs)

    Every builder operation keeps the invariant of [FunctionFacts], whether it succeeds
    or returns an error, and so does [freeze]; what [freeze] reserves is described. *)
From S2P Require Import Prelude VecSet Types Size SparseVec Operands Objects.
From S2P Require Import Function FunctionFacts.

(** ** Registering a mapping *)
Lemma registered_refl id x : registered id False x x.
Proof. split_and!; try done. intros Hs. split; [done|]. tauto. Qed.

Lemma registered_trans id P Q x y z :
  registered id P x y → registered id Q y z → registered id (P ∨ Q) x z.
Proof.
  intros (A1 & A2 & A3 & A4 & A5) (B1 & B2 & B3 & B4 & B5).
  split_and!; [congruence..|]. intros Hs. destruct (A5 Hs) as [Hs' HA].
  destruct (B5 Hs') as [Hs'' HB]. split; [done|]. intros m. rewrite HB, HA. tauto.
Qed.

Lemma registered_iff id P Q x y : (P ↔ Q) → registered id P x y → registered id Q x y.
Proof.
  intros HPQ (A1 & A2 & A3 & A4 & A5). split_and!; try done. intros Hs.
  destruct (A5 Hs) as [Hs' HA]. split; [done|]. intros m. rewrite HA, HPQ. done.
Qed.

Lemma register_dim_mapping_sum id m y y' :
  dmap_id m = id → register_dim_mapping m y = Some y' →
  registered id True (dim_sum y) (dim_sum y').
Proof.
  intros <-. unfold register_dim_mapping. destruct (dmap_dims m) as [d0 d1].
  intros ([] & _ & [= <-])%bind_Some. split_and!; try done. simpl. intros Hs.
  destruct (vs_insert_spec (dmap_id m) (mapped_dims y) Hs) as (H1 & H2 & _).
  split; [done|]. intros k. rewrite H2. tauto.
Qed.

Lemma sv_updates_registered id m ids s s' :
  dmap_id m = id → sv_updates (register_dim_mapping m) ids s = Some s' →
  sv_len s' = sv_len s ∧ (sv_wf s → sv_wf s') ∧ (sv_full s → sv_full s') ∧
  (∀ d, d ∈ ids → is_Some (sv_get s d)) ∧
  ∀ d, option_Forall2 (registered id (d ∈ ids)) (dim_sum <$> sv_get s d)
         (dim_sum <$> sv_get s' d).
Proof.
  intros Hm. revert s. induction ids as [|i ids IH]; intros s; cbn [sv_updates].
  - intros [= <-]. split_and!; [done..|by intros ? ?%elem_of_nil|]. intros d.
    destruct (sv_get s d); simpl; constructor.
    eapply registered_iff, registered_refl. split; [done|by intros ?%elem_of_nil].
  - intros (s1 & Hs & (Hl & Hw & Hf & Hex & Hd)%IH)%bind_Some.
    destruct (sv_update_shape _ _ _ _ Hs) as (Hl1 & Hw1 & Hf1).
    apply sv_update_spec in Hs as (v & v' & Hv & Hg & _ & _ & Hget).
    split_and!; [congruence|auto|auto| |].
    + intros d [->|Hin]%elem_of_cons; [eauto|]. destruct (Hex d Hin) as [y Hy].
      rewrite Hget in Hy. case_decide; subst; eauto.
    + intros d. specialize (Hd d). rewrite Hget in Hd. case_decide as E.
      * subst. rewrite Hv. simpl in *. inversion Hd as [x y Hxy Hx Hy|]; subst.
        constructor. eapply registered_iff, registered_trans;
          [|by eapply register_dim_mapping_sum|exact Hxy]. set_solver.
      * destruct (sv_get s d) as [y|]; simpl in *; [|inversion Hd; subst; constructor].
        inversion Hd as [x y1 Hxy Hx Hy|]; subst. constructor.
        eapply registered_iff, Hxy. set_solver.
Qed.

Section mappings.
Context {L : Type}.
Implicit Types f : Function L.

Lemma create_mapping_ok id p f m f' :
  create_mapping id p f = Some (m, f') →
  m = mkDimMapping id p [] ∧
  ∃ ds, sv_updates (register_dim_mapping m) [p.1; p.2] (dims (body f)) = Some ds ∧
        f' = with_body (set_dims ds (body f)) f.
Proof.
  unfold create_mapping.
  intros (f1 & (ds & Hds & ->)%foldM_dim_mut & [= <- <-])%bind_Some. eauto.
Qed.

(** A mapping created and stored at a fresh identifier. *)
Lemma store_mapping_wf id p f m f' ms :
  create_mapping id p f = Some (m, f') →
  fn_wf f → dim_mapping id f = None → sv_wf ms →
  (∀ j, sv_get ms j = if decide (j = id) then Some m else sv_get (dim_mappings (body f)) j) →
  fn_wf (with_body (set_dim_mappings ms (body f')) f').
Proof.
  intros (-> & ds & Hds & ->)%create_mapping_ok [Hv Hs] Hnew Hwf Hget.
  destruct Hs as [Hs1 Hs2 Hs3 Hs4 Hs5 Hs6].
  apply (sv_updates_registered id) in Hds as (_ & Hw & _ & Hex & Hd); [|done].
  split; [|by split; simpl; auto].
  eapply (mapping_inserted_view_ok (view f) _ id p.1 p.2); [|done].
  split; try done.
  - simpl. by rewrite Hnew.
  - simpl. apply fmap_is_Some, Hex. by left.
  - simpl. apply fmap_is_Some, Hex. right. by left.
  - intros d. specialize (Hd d). simpl. unfold dim. simpl.
    inversion Hd as [x y Hxy Hx Hy|]; constructor.
    eapply registered_iff, Hxy. set_solver.
  - intros j. simpl. unfold dim_mapping. simpl. rewrite Hget.
    case_decide; [|done]. simpl. by destruct p.
Qed.
End mappings.

(** ** Builder operations *)
Section builder.
Implicit Types f : Function unit.

Lemma map_dimensions_wf p f id f' :
  map_dimensions p f = Some (id, f') →
  (sv_len (dim_mappings (body f)) ≤ sv_len (dim_mappings (body f')))%nat ∧
  insts (body f') = insts (body f) ∧
  sv_len (dims (body f')) = sv_len (dims (body f)) ∧
  variables (body f') = variables (body f) ∧ mem_blocks (body f') = mem_blocks (body f) ∧
  logical_dims (body f') = logical_dims (body f) ∧
  (fn_wf f → (Z.of_nat (sv_len (dim_mappings (body f'))) ≤ 2 ^ 16)%Z → fn_wf f').
Proof.
  unfold map_dimensions. intros (found & _ & H)%bind_Some.
  destruct found as [m|]; [by injection H as <- <-|].
  apply bind_Some in H as ([m f1] & Hc & H).
  apply bind_Some in H as (ms & Hms & H). injection H as <- <-.
  destruct (create_mapping_ok _ _ _ _ _ Hc) as (_ & ds & Hds & ->).
  apply (sv_updates_registered (dmap_id m)) in Hds as (Hl & _); [|done].
  simpl in Hms. destruct (sv_push_shape _ _ _ Hms) as (Hlen & Hw & Hfull & _).
  simpl. rewrite Hlen. split_and!; [lia|done..|].
  intros Hwf Hb. rewrite cast_nat_small in Hc by (unfold sv_len in *; lia).
  eapply (store_mapping_wf _ _ _ _ _ ms Hc Hwf); [|done|].
  - destruct Hwf as [_ [_ _ Hm _ _ _]]. unfold dim_mapping.
    destruct (sv_get _ _) eqn:E; [|done]. apply sv_get_lt in E; [lia|done].
  - intros j. rewrite (sv_push_get _ _ _ _ Hms). done.
Qed.

Lemma foldM_map_dimensions_wf (m : DimMap) f f' :
  foldM (λ f (p : DimId * DimId), '(_, f) ← map_dimensions p f; Some f) m f = Some f' →
  (sv_len (dim_mappings (body f)) ≤ sv_len (dim_mappings (body f')))%nat ∧
  insts (body f') = insts (body f) ∧
  sv_len (dims (body f')) = sv_len (dims (body f)) ∧
  variables (body f') = variables (body f) ∧ mem_blocks (body f') = mem_blocks (body f) ∧
  logical_dims (body f') = logical_dims (body f) ∧
  (fn_wf f → (Z.of_nat (sv_len (dim_mappings (body f'))) ≤ 2 ^ 16)%Z → fn_wf f').
Proof.
  revert f. induction m as [|p m IH]; intros f; cbn [foldM].
  - by intros [= <-].
  - intros (f1 & ([id f2] & Hm & [= <-])%bind_Some & H)%bind_Some.
    apply map_dimensions_wf in Hm as (A1 & A2 & A3 & A4 & A5 & A6 & A7).
    apply IH in H as (B1 & B2 & B3 & B4 & B5 & B6 & B7).
    split_and!; [lia|congruence..|]. intros Hwf Hb. apply B7; [|done]. apply A7; [done|lia].
Qed.

Lemma map_operands_wf (l : list (Operand unit)) f f' :
  foldM map_operand_dims l f = Some f' →
  (sv_len (dim_mappings (body f)) ≤ sv_len (dim_mappings (body f')))%nat ∧
  insts (body f') = insts (body f) ∧
  sv_len (dims (body f')) = sv_len (dims (body f)) ∧
  variables (body f') = variables (body f) ∧ mem_blocks (body f') = mem_blocks (body f) ∧
  logical_dims (body f') = logical_dims (body f) ∧
  (fn_wf f → (Z.of_nat (sv_len (dim_mappings (body f'))) ≤ 2 ^ 16)%Z → fn_wf f').
Proof.
  revert f. induction l as [|o l IH]; intros f; cbn [foldM].
  - by intros [= <-].
  - intros (f1 & Hm & H)%bind_Some. apply IH in H as (B1 & B2 & B3 & B4 & B5 & B6 & B7).
    unfold map_operand_dims in Hm. destruct (operand_mapped_dims o) as [m|].
    + apply foldM_map_dimensions_wf in Hm as (A1 & A2 & A3 & A4 & A5 & A6 & A7).
      split_and!; [lia|congruence..|]. intros Hwf Hb. apply B7; [|done].
      apply A7; [done|lia].
    + injection Hm as <-. by split_and!.
Qed.

Lemma add_inst_wf op iter f r f' :
  add_inst op iter f = Some (r, f') → fn_wf f → fits f' → fn_wf f'.
Proof.
  unfold add_inst. intros (f1 & Hm & H)%bind_Some Hwf Hfit.
  apply map_operands_wf in Hm as (A1 & A2 & A3 & A4 & A5 & A6 & A7).
  apply bind_Some in H as ([[i|e] f2] & Hc & H).
  - apply bind_Some in H as (iv & Hp & [= <- <-]).
    pose proof (create_inst_lens _ _ _ _ _ _ Hc) as (B1 & B2 & B3 & B4 & B5 & B6 & _).
    destruct Hfit as (F1 & F2 & F3 & _). simpl in F1, F2, F3. rewrite B3 in F3.
    specialize (A7 Hwf F3). rewrite B1 in Hp.
    destruct (sv_push_shape _ _ _ Hp) as (Hlen & Hw & _).
    rewrite cast_nat_small in Hc by lia.
    eapply (store_inst_wf _ _ _ _ _ _ iv Hc); [done| |done|].
    + destruct A7 as [_ [Hi _ _ _ _ _]]. unfold inst.
      destruct (sv_get _ _) eqn:E; [|done]. apply sv_get_lt in E; [lia|done].
    + intros j. by rewrite (sv_push_get _ _ _ _ Hp).
  - injection H as <- <-.
    pose proof (create_inst_lens _ _ _ _ _ _ Hc) as (_ & _ & _ & _ & _ & _ & B7).
    rewrite (B7 e eq_refl) in *. apply A7; [done|]. by destruct Hfit as (_ & _ & ? & _).
Qed.
End builder.

(** ** Views with one more variable, block, thread dimension or iteration dimension *)
Section views.
Context (v w : View) (Hv : view_ok v).

Lemma var_inserted_view_ok k :
  v_var v k = None →
  (∀ j, v_var w j = if decide (j = k) then Some (k, []) else v_var v j) →
  (∀ i, v_inst w i = v_inst v i) → (∀ i, v_dim w i = v_dim v i) →
  (∀ i, v_map w i = v_map v i) → (∀ i, v_block w i = v_block v i) →
  v_thread w = v_thread v → v_static w = v_static v → v_mem w = v_mem v →
  view_ok w.
Proof using Hv.
  intros Hk Hvar H1 H2 H3 H4 H5 H6 H7.
  destruct Hv as [(I1 & I2 & I3 & I4 & I5) Ht Hl Hm (U0 & U1 & U2) Hb]. split.
  - unfold ids_ok. setoid_rewrite H1. setoid_rewrite H2. setoid_rewrite H3.
    setoid_rewrite H4. split_and!; try done. intros i x. rewrite Hvar.
    case_decide; [|apply I4]. subst. by intros [= <-].
  - unfold iteration_ok in *. setoid_rewrite H1. setoid_rewrite H2. done.
  - unfold lists_ok in *. setoid_rewrite H1. setoid_rewrite H2. rewrite H5, H6, H7. done.
  - unfold mappings_ok in *. setoid_rewrite H2. setoid_rewrite H3. done.
  - split_and!.
    + intros i x. rewrite Hvar. case_decide; [|apply U0]. intros [= <-].
      apply strict_sorted_nil.
    + intros i x j. rewrite H1, Hvar. intros Hx Hj.
      destruct (U1 i x j Hx Hj) as (y & Hy & Hin). exists y.
      rewrite decide_False; [done|]. intros ->. congruence.
    + intros j y s. rewrite Hvar. setoid_rewrite H1. case_decide; [|apply U2].
      intros [= <-] []%elem_of_nil.
  - unfold blocks_ok in *. setoid_rewrite H1. setoid_rewrite H4. done.
Qed.

Lemma block_inserted_view_ok k :
  v_block v k = None →
  (∀ j, v_block w j = if decide (j = k) then Some (k, []) else v_block v j) →
  (∀ i, v_inst w i = v_inst v i) → (∀ i, v_dim w i = v_dim v i) →
  (∀ i, v_map w i = v_map v i) → (∀ i, v_var w i = v_var v i) →
  v_thread w = v_thread v → v_static w = v_static v → v_mem w = v_mem v →
  view_ok w.
Proof using Hv.
  intros Hk Hvar H1 H2 H3 H4 H5 H6 H7.
  destruct Hv as [(I1 & I2 & I3 & I4 & I5) Ht Hl Hm Hu (B1 & B2)]. split.
  - unfold ids_ok. setoid_rewrite H1. setoid_rewrite H2. setoid_rewrite H3.
    setoid_rewrite H4. split_and!; try done. intros i x. rewrite Hvar.
    case_decide; [|apply I5]. subst. by intros [= <-].
  - unfold iteration_ok in *. setoid_rewrite H1. setoid_rewrite H2. done.
  - unfold lists_ok in *. setoid_rewrite H1. setoid_rewrite H2. rewrite H5, H6, H7. done.
  - unfold mappings_ok in *. setoid_rewrite H2. setoid_rewrite H3. done.
  - unfold uses_ok in *. setoid_rewrite H1. setoid_rewrite H4. done.
  - split.
    + intros i x j. rewrite H1, Hvar. intros Hx Hj.
      destruct (B1 i x j Hx Hj) as (y & Hy & Hin). exists y.
      rewrite decide_False; [done|]. intros ->. congruence.
    + intros j y i. rewrite Hvar. setoid_rewrite H1. case_decide; [|apply B2].
      intros [= <-] []%elem_of_nil.
Qed.

Lemma thread_added_view_ok d y :
  v_dim v d = Some y →
  (∀ j, v_dim w j = if decide (j = d)
     then Some (mkDimSum (ds_id y) (ds_iterated y) true (ds_static y) (ds_mapped y))
     else v_dim v j) →
  v_thread w = (vs_insert d (v_thread v)).1 →
  (∀ i, v_inst w i = v_inst v i) → (∀ i, v_map w i = v_map v i) →
  (∀ i, v_var w i = v_var v i) → (∀ i, v_block w i = v_block v i) →
  v_static w = v_static v → v_mem w = v_mem v → view_ok w.
Proof using Hv.
  intros Hd Hdim Hth H1 H2 H3 H4 H5 H6.
  destruct Hv as [(I1 & I2 & I3 & I4 & I5) [T1 T2] (L0 & L1 & L2 & L3) (M0 & M1 & M2) Hu Hb].
  assert (∀ j x, v_dim w j = Some x → ∃ x0, v_dim v j = Some x0 ∧ ds_id x = ds_id x0 ∧
    ds_iterated x = ds_iterated x0 ∧ ds_static x = ds_static x0 ∧
    ds_mapped x = ds_mapped x0 ∧ (ds_thread x = true ↔ j = d ∨ ds_thread x0 = true))
    as Hold.
  { intros j x. rewrite Hdim. case_decide as E.
    - subst. intros [= <-]. exists y. split_and!; try done. simpl. tauto.
    - intros Hx. exists x. split_and!; try done. tauto. }
  assert (∀ j x0, v_dim v j = Some x0 → ∃ x, v_dim w j = Some x ∧
    ds_iterated x = ds_iterated x0 ∧ ds_static x = ds_static x0 ∧
    ds_mapped x = ds_mapped x0 ∧ (ds_thread x = true ↔ j = d ∨ ds_thread x0 = true))
    as Hnew.
  { intros j x0 Hx. rewrite Hdim. case_decide as E.
    - subst. simplify_eq. eexists. split_and!; try done. simpl. tauto.
    - exists x0. split_and!; try done. tauto. }
  destruct (vs_insert_spec d (v_thread v) L0) as (S1 & S2 & _). split.
  - unfold ids_ok. setoid_rewrite H1. setoid_rewrite H2. setoid_rewrite H3.
    setoid_rewrite H4. split_and!; try done. intros j x (x0 & Hx & -> & _)%Hold. by apply I2.
  - split.
    + intros i x j. rewrite H1. intros Hx Hj. destruct (T1 i x j Hx Hj) as (z & Hz & Hi).
      destruct (Hnew j z Hz) as (z' & Hz' & Hit & _). exists z'. by rewrite Hit.
    + intros j x i (x0 & Hx & _ & -> & _)%Hold. rewrite H1. by apply T2.
  - split_and!.
    + by rewrite Hth.
    + intros j. rewrite Hth, S2, L1. split.
      * intros [->|(z & Hz & Htz)].
        -- destruct (Hnew d y Hd) as (z & Hz & _ & _ & _ & Ht). exists z.
           split; [done|]. apply Ht. by left.
        -- destruct (Hnew j z Hz) as (z' & Hz' & _ & _ & _ & Ht). exists z'.
           split; [done|]. apply Ht. by right.
      * intros (z & (z0 & Hz & _ & _ & _ & _ & Ht)%Hold & [?|?]%Ht); eauto.
    + intros j. rewrite H5, L2. split.
      * intros (z & (z' & Hz' & _ & Hs & _)%Hnew & ?). exists z'. by rewrite Hs.
      * intros (z & (z' & Hz' & _ & _ & Hs & _)%Hold & ?). exists z'. by rewrite <-Hs.
    + intros i. rewrite H6, H1. apply L3.
  - split_and!.
    + intros j x (x0 & Hx & _ & _ & _ & -> & _)%Hold. by eapply M0.
    + intros j x m (x0 & Hx & _ & _ & _ & -> & _)%Hold. rewrite H2. by apply M1.
    + intros m x. rewrite H2. intros Hx.
      destruct (M2 m x Hx) as [(p & Hp & Hmp) (q & Hq & Hmq)].
      destruct (Hnew _ _ Hp) as (p' & ? & _ & _ & Ep & _).
      destruct (Hnew _ _ Hq) as (q' & ? & _ & _ & Eq & _).
      split; eexists; (split; [done|]); congruence.
  - unfold uses_ok in *. setoid_rewrite H1. setoid_rewrite H3. done.
  - unfold blocks_ok in *. setoid_rewrite H1. setoid_rewrite H4. done.
Qed.

Lemma iteration_added_view_ok i x d y :
  v_inst v i = Some x → v_dim v d = Some y →
  (∀ j, v_inst w j = if decide (j = i)
     then Some (mkInstSum (is_id x) ({[d]} ∪ is_iter x) (is_mem x) (is_block x) (is_vars x))
     else v_inst v j) →
  (∀ j, v_dim w j = if decide (j = d) then Some (sum_add_iterated i y) else v_dim v j) →
  (∀ i, v_map w i = v_map v i) →
  (∀ i, v_var w i = v_var v i) → (∀ i, v_block w i = v_block v i) →
  v_thread w = v_thread v → v_static w = v_static v → v_mem w = v_mem v → view_ok w.
Proof using Hv.
  intros Hx Hy Hins Hdim H2 H3 H4 H5 H6 H7.
  destruct Hv as [(I1 & I2 & I3 & I4 & I5) [T1 T2] (L0 & L1 & L2 & L3) (M0 & M1 & M2)
    (U0 & U1 & U2) (B1 & B2)].
  assert (∀ j z, v_inst w j = Some z → ∃ z0, v_inst v j = Some z0 ∧ is_id z = is_id z0 ∧
    is_mem z = is_mem z0 ∧ is_block z = is_block z0 ∧ is_vars z = is_vars z0 ∧
    (∀ e, e ∈ is_iter z ↔ e ∈ is_iter z0 ∨ j = i ∧ e = d)) as Iold.
  { intros j z. rewrite Hins. case_decide; [|intros; exists z; set_solver].
    subst. intros [= <-]. exists x. simpl. set_solver. }
  assert (∀ j z0, v_inst v j = Some z0 → ∃ z, v_inst w j = Some z ∧
    is_mem z = is_mem z0 ∧ is_block z = is_block z0 ∧ is_vars z = is_vars z0 ∧
    (∀ e, e ∈ is_iter z ↔ e ∈ is_iter z0 ∨ j = i ∧ e = d)) as Inew.
  { intros j z Hz. rewrite Hins. case_decide; [|exists z; set_solver].
    subst. simplify_eq. eexists. split; [done|]. simpl. set_solver. }
  assert (∀ j z, v_dim w j = Some z → ∃ z0, v_dim v j = Some z0 ∧ ds_id z = ds_id z0 ∧
    ds_thread z = ds_thread z0 ∧ ds_static z = ds_static z0 ∧ ds_mapped z = ds_mapped z0 ∧
    (∀ e, e ∈ ds_iterated z ↔ e ∈ ds_iterated z0 ∨ j = d ∧ e = i)) as Dold.
  { intros j z. rewrite Hdim. case_decide; [|intros; exists z; set_solver].
    subst. intros [= <-]. exists y. simpl. set_solver. }
  assert (∀ j z0, v_dim v j = Some z0 → ∃ z, v_dim w j = Some z ∧
    ds_thread z = ds_thread z0 ∧ ds_static z = ds_static z0 ∧ ds_mapped z = ds_mapped z0 ∧
    (∀ e, e ∈ ds_iterated z ↔ e ∈ ds_iterated z0 ∨ j = d ∧ e = i)) as Dnew.
  { intros j z Hz. rewrite Hdim. case_decide; [|exists z; set_solver].
    subst. simplify_eq. eexists. split; [done|]. simpl. set_solver. }
  split.
  - unfold ids_ok. setoid_rewrite H2. setoid_rewrite H3. setoid_rewrite H4.
    split_and!; try done.
    + intros j z (z0 & Hz & -> & _)%Iold. by apply I1.
    + intros j z (z0 & Hz & -> & _)%Dold. by apply I2.
  - split.
    + intros j z e (z0 & Hz & _ & _ & _ & _ & He)%Iold [Hin|[-> ->]]%He.
      * destruct (T1 j z0 e Hz Hin) as (q & (q' & ? & _ & _ & _ & Hq)%Dnew & ?).
        exists q'. split; [done|]. apply Hq. by left.
      * destruct (Dnew d y Hy) as (q' & ? & _ & _ & _ & Hq). exists q'.
        split; [done|]. apply Hq. by right.
    + intros e q j (q0 & Hq & _ & _ & _ & _ & Hj)%Dold [Hin|[-> ->]]%Hj.
      * destruct (T2 e q0 j Hq Hin) as (z & (z' & ? & _ & _ & _ & Hz)%Inew & ?).
        exists z'. split; [done|]. apply Hz. by left.
      * destruct (Inew i x Hx) as (z' & ? & _ & _ & _ & Hz). exists z'.
        split; [done|]. apply Hz. by right.
  - split_and!.
    + by rewrite H5.
    + intros j. rewrite H5, L1. split.
      * intros (z & (z' & ? & Hs & _)%Dnew & ?). exists z'. by rewrite Hs.
      * intros (z & (z' & ? & _ & Hs & _)%Dold & ?). exists z'. by rewrite <-Hs.
    + intros j. rewrite H6, L2. split.
      * intros (z & (z' & ? & _ & Hs & _)%Dnew & ?). exists z'. by rewrite Hs.
      * intros (z & (z' & ? & _ & _ & Hs & _)%Dold & ?). exists z'. by rewrite <-Hs.
    + intros j. rewrite H7, L3. split.
      * intros (z & (z' & ? & Hs & _)%Inew & ?). exists z'. by rewrite Hs.
      * intros (z & (z' & ? & _ & Hs & _)%Iold & ?). exists z'. by rewrite <-Hs.
  - split_and!.
    + intros j z (z0 & Hz & _ & _ & _ & -> & _)%Dold. by eapply M0.
    + intros j z m (z0 & Hz & _ & _ & _ & -> & _)%Dold. rewrite H2. by apply M1.
    + intros m z. rewrite H2. intros Hz.
      destruct (M2 m z Hz) as [(p & Hp & Hmp) (q & Hq & Hmq)].
      destruct (Dnew _ _ Hp) as (p' & ? & _ & _ & Ep & _).
      destruct (Dnew _ _ Hq) as (q' & ? & _ & _ & Eq & _).
      split; eexists; (split; [done|]); congruence.
  - split_and!.
    + intros j z. rewrite H3. apply U0.
    + intros j z k (z0 & Hz & _ & _ & _ & -> & _)%Iold. rewrite H3. by apply U1.
    + intros k z s. rewrite H3. intros Hz Hs. destruct (U2 k z s Hz Hs) as (j & q & -> & Hq & ?).
      destruct (Inew _ _ Hq) as (q' & ? & _ & _ & E & _). exists j, q'. by rewrite E.
  - split.
    + intros j z b (z0 & Hz & _ & _ & -> & _)%Iold. rewrite H4. by apply B1.
    + intros b z j. rewrite H4. intros Hz Hj. destruct (B2 b z j Hz Hj) as (q & Hq & ?).
      destruct (Inew _ _ Hq) as (q' & ? & _ & E & _). exists q'. by rewrite E.
Qed.
End views.

(** A function whose summaries are unchanged. *)
Lemma fn_wf_same {L M : Type} (f : Function L) (g : Function M) :
  fn_wf f → view_eq (view f) (view g) → shapes_ok g → fn_wf g.
Proof. intros [Hv _] He Hs. split; [by eapply view_ok_ext|done]. Qed.

(** ** Operations that do not depend on the lowering parameter *)
Section any_function.
Context {L : Type}.
Implicit Types f : Function L.

Lemma add_ind_var_wf v f : fn_wf f → fn_wf (add_ind_var v f).2.
Proof. intros Hf. eapply fn_wf_same; [exact Hf|done|]. destruct Hf as [_ []]. by split. Qed.

Lemma add_thread_dim_wf d f b f' :
  add_thread_dim d f = Some (b, f') → fn_wf f → fn_wf f'.
Proof.
  unfold add_thread_dim. intros (f1 & (ds & Hd & [= <-])%bind_Some & H)%bind_Some [Hv Hs].
  destruct (vs_insert d _) as [th nw] eqn:Eth. injection H as <- <-. simpl in Eth.
  destruct (sv_update_shape _ _ _ _ Hd) as (_ & Hw & _).
  apply sv_update_spec in Hd as (y & y' & Hy & [= <-] & _ & _ & Hg).
  destruct Hs as [Hs1 Hs2 Hs3 Hs4 Hs5 Hs6]. split; [|by split; simpl; auto].
  eapply (thread_added_view_ok (view f) _ Hv d (dim_sum y)); try done.
  - simpl. unfold dim. by rewrite Hy.
  - intros j. simpl. unfold dim. simpl. rewrite Hg. by case_decide.
  - simpl. by rewrite Eth.
Qed.

Lemma set_iteration_dim_wf i d f b f' :
  set_iteration_dim i d f = Some (b, f') → fn_wf f → fn_wf f'.
Proof.
  unfold set_iteration_dim. intros (x & Hx & H)%bind_Some [Hv Hs].
  unfold add_iteration_dimension in H. apply bind_Some in H as (f1 & Hi & H).
  apply bind_Some in Hi as (iv & Hiv & [= <-]).
  destruct (sv_update_shape _ _ _ _ Hiv) as (_ & Hw & _).
  apply sv_update_spec in Hiv as (y & y' & Hy & [= <-] & _ & _ & Hg).
  unfold inst in Hx. assert (y = x) as -> by congruence. destruct Hs as [Hs1 Hs2 Hs3 Hs4 Hs5 Hs6].
  destruct (bool_decide_reflect (d ∉ iter_dims x)) as [Hd|Hd].
  - apply bind_Some in H as (f2 & (ds & Hds & [= <-])%bind_Some & [= <- <-]).
    destruct (sv_update_shape _ _ _ _ Hds) as (_ & Hw' & _).
    apply sv_update_spec in Hds as (z & z' & Hz & [= <-] & _ & _ & Hgz).
    simpl in Hz, Hw', Hgz. split; [|by split; simpl; auto].
    eapply (iteration_added_view_ok (view f) _ Hv i (inst_sum x) d (dim_sum z)); try done.
    + simpl. unfold inst. by rewrite Hy.
    + simpl. unfold dim. by rewrite Hz.
    + intros j. simpl. unfold inst. simpl. rewrite Hg. by case_decide.
    + intros j. simpl. unfold dim. simpl. rewrite Hgz. by case_decide.
  - injection H as <- <-. eapply fn_wf_same; [by split| |by split; simpl; auto].
    split; try done. intros j. simpl. unfold inst. simpl. rewrite Hg. case_decide; [|done].
    subst j. rewrite Hy. unfold inst_sum. simpl. do 2 f_equal. apply dec_stable in Hd.
    clear -Hd. set_solver.
Qed.

(** [Variable::register] leaves the summaries alone. *)
Lemma statement_register_same p k f f' :
  statement_register_defined_var p k f = Some f' →
  view_eq (view f) (view f') ∧ (shapes_ok f → shapes_ok f') ∧
  variables (body f') = variables (body f).
Proof.
  destruct p as [i|d]; simpl.
  - intros (iv & Hi & [= <-])%bind_Some. pose proof Hi as Hp.
    apply sv_update_shape in Hi as (_ & Hw & _).
    split_and!; [|intros []; split; simpl; auto|done]. split; try done.
    intros j. simpl. unfold inst. simpl. symmetry.
    eapply (sv_update_proj inst_sum); [done|]. by intros ? ? [= <-].
  - intros (iv & Hi & [= <-])%bind_Some. pose proof Hi as Hp.
    apply sv_update_shape in Hi as (_ & Hw & _).
    split_and!; [|intros []; split; simpl; auto|done]. split; try done.
    intros j. simpl. unfold dim. simpl. symmetry.
    eapply (sv_update_proj dim_sum); [done|]. by intros ? ? [= <-].
Qed.

Lemma foldM_register_same ps k f f' :
  foldM (λ f p, statement_register_defined_var p k f) ps f = Some f' →
  view_eq (view f) (view f') ∧ (shapes_ok f → shapes_ok f') ∧
  variables (body f') = variables (body f).
Proof.
  revert f. induction ps as [|p ps IH]; intros f; cbn [foldM].
  - intros [= <-]. by split_and!.
  - intros (f1 & (A1 & A2 & A3)%statement_register_same & (B1 & B2 & B3)%IH)%bind_Some.
    split_and!; [by etransitivity|auto|congruence].
Qed.

Lemma variable_register_same v f f' :
  variable_register v f = Some f' →
  view_eq (view f) (view f') ∧ (shapes_ok f → shapes_ok f') ∧
  variables (body f') = variables (body f).
Proof.
  unfold variable_register. intros (f1 & H1 & (f2 & H2 & (f3 & H3 & H4)%bind_Some)
    %bind_Some)%bind_Some.
  assert (view_eq (view f) (view f1) ∧ (shapes_ok f → shapes_ok f1) ∧
    variables (body f1) = variables (body f)) as (A1 & A2 & A3).
  { destruct (var_def v) as [i|? ?|? ?].
    - apply bind_Some in H1 as (iv & Hi & [= <-]). pose proof Hi as Hp.
      apply sv_update_shape in Hi as (_ & Hw & _).
      split_and!; [|intros []; split; simpl; auto|done]. split; try done.
      intros j. simpl. unfold inst. simpl. symmetry.
      eapply (sv_update_proj inst_sum); [done|]. intros x y. unfold set_result_variable.
      destruct (inst_variable x); [done|]. by intros [= <-].
    - injection H1 as <-. by split_and!.
    - injection H1 as <-. by split_and!. }
  apply foldM_register_same in H2 as (B1 & B2 & B3).
  apply foldM_dim_mut in H3 as (ds & Hds & ->).
  apply foldM_mapping_mut in H4 as (ms & Hms & ->).
  eapply (sv_updates_proj dim_sum) in Hds as (_ & Hdw & Hdp); [|by intros ? ? [= <-]].
  eapply (sv_updates_proj map_sum) in Hms as (_ & Hmw & Hmp); [|by intros ? ? [= <-]].
  simpl in *. split_and!.
  - etransitivity; [exact A1|]. etransitivity; [exact B1|]. split; try done.
    + intros j. simpl. unfold dim. simpl. by rewrite Hdp.
    + intros j. simpl. unfold dim_mapping. simpl. by rewrite Hmp.
  - intros Hs%A2%B2. destruct Hs. split; simpl; auto.
  - simpl. congruence.
Qed.

Lemma add_variable_wf def f r f' :
  add_variable def f = Some (r, f') → fn_wf f → fits f' → fn_wf f'.
Proof.
  unfold add_variable. intros ([v|e] & Hc & H)%bind_Some Hf Hfit.
  - apply bind_Some in H as (f1 & (Hve & Hsh & Hvs)%variable_register_same & H).
    apply bind_Some in H as (vs & Hp & [= <- <-]).
    destruct (sv_push_shape _ _ _ Hp) as (Hl & Hw & _).
    destruct Hfit as (_ & _ & _ & Hb & _). simpl in Hb. rewrite Hvs in *.
    rewrite cast_nat_small in Hc by lia.
    unfold create_variable in Hc. apply obind_ok in Hc as (u & _ & Hc).
    apply bind_Some in Hc as (v' & Hn & [= ->]).
    assert (var_sum v = (sv_len (variables (body f)), [])) as Hsum.
    { unfold variable_new in Hn. repeat apply bind_Some in Hn as (? & ? & Hn).
      by injection Hn as <-. }
    destruct Hf as [Hv Hs]. pose proof (view_ok_ext _ _ Hve Hv) as Hv1.
    specialize (Hsh Hs). destruct Hs as [_ _ _ Hs4 _ _].
    destruct Hsh as [T1 T2 T3 T4 T5 T6]. split; [|by split; simpl; auto].
    eapply (var_inserted_view_ok (view f1) _ Hv1 (sv_len (variables (body f)))); try done.
    + simpl. unfold variable. rewrite Hvs. destruct (sv_get _ _) eqn:E; [|done].
      apply sv_get_lt in E; [lia|done].
    + intros j. simpl. unfold variable. simpl. rewrite (sv_push_get _ _ _ _ Hp), Hvs.
      unfold sv_len. case_decide; [|done]. subst. simpl. by rewrite Hsum.
  - by injection H as <- <-.
Qed.

(** [merge] only removes pairs from dimension maps. *)
Lemma inst_merge_dims_sum s t (x : Instruction L) :
  inst_sum (inst_merge_dims s t x) = inst_sum x.
Proof. unfold inst_sum. simpl. by destruct (inst_operator x). Qed.

Lemma merge_wf s t f : fn_wf f → fn_wf (merge s t f).
Proof.
  intros Hf. unfold merge, block_map_merge_dims. eapply fn_wf_same; [exact Hf| |].
  - split; try done.
    + intros j. simpl. unfold inst. simpl. rewrite sv_map_get.
      destruct (sv_get _ _) as [x|]; [|done]. simpl. by rewrite inst_merge_dims_sum.
    + intros j. simpl. unfold mem_block, block. simpl. rewrite sv_map_get.
      destruct (sv_get _ _) as [x|]; [|done]. simpl. unfold block_merge_dims, block_sum.
      by destruct (dm_merge_dims _ _ _).
  - destruct Hf as [_ [H1 H2 H3 H4 H5 H6]]. split; simpl; auto; by apply sv_map_shape.
Qed.

(** [lower_layout] replaces accesses by accesses to the same block. *)
Lemma inst_lower_layout_sum a b c d (x y : Instruction L) :
  inst_lower_layout a b c d x = Some y → inst_sum y = inst_sum x.
Proof.
  unfold inst_lower_layout. intros (op & Hop & [= <-])%bind_Some. unfold inst_sum. simpl.
  destruct (inst_operator x) as [| | | | | |t m|val m]; try done.
  - apply bind_Some in Hop as ([] & Ha & [= <-]).
    unfold rassert in Ha. destruct (bool_decide_reflect (pat_mem_block b = Some m)) as [E|];
      [|done]. simpl. unfold mem_used. simpl. by rewrite E.
  - apply bind_Some in Hop as ([] & Ha & [= <-]).
    unfold rassert in Ha. destruct (bool_decide_reflect (pat_mem_block d = Some m)) as [E|];
      [|done]. simpl. unfold mem_used. simpl. by rewrite E.
Qed.

Lemma gen_internal_index_same `{Profile} m ds f r f' :
  gen_internal_index m ds f = Some (r, f') →
  ∃ v, f' = with_body (set_induction_vars (induction_vars (body f) ++ [v]) (body f)) f.
Proof.
  unfold gen_internal_index, gen_index. intros (b & _ & H1)%bind_Some.
  apply bind_Some in H1 as (z & _ & H1). apply bind_Some in H1 as (incs & _ & H1).
  apply bind_Some in H1 as ([v|e] & _ & H1); [|done].
  simpl in H1. injection H1 as <- <-. by exists v.
Qed.

Lemma lower_layout_wf `{Profile} m st ld f f' :
  lower_layout m st ld f = Some f' → fn_wf f → fn_wf f'.
Proof.
  unfold lower_layout. intros (pos & _ & H1)%bind_Some.
  apply bind_Some in H1 as ([o ls] & _ & H1). apply bind_Some in H1 as ([o' bm] & Hb & H1).
  apply bind_Some in H1 as ([[si sp] f1] & G1 & H1).
  apply gen_internal_index_same in G1 as (v1 & ->).
  apply bind_Some in H1 as ([[li lp] f2] & G2 & H1).
  apply gen_internal_index_same in G2 as (v2 & ->).
  apply bind_Some in H1 as (b & _ & H1). apply foldM_inst_mut in H1 as (iv & Hi & ->).
  eapply (sv_updates_proj inst_sum) in Hi as (_ & Hw & Hp);
    [|by intros x y; apply inst_lower_layout_sum].
  simpl in *. unfold block_map_lower_layout in Hb.
  apply bind_Some in Hb as ([] & _ & Hb). apply bind_Some in Hb as (blk & _ & Hb).
  apply bind_Some in Hb as ([] & _ & [= <- <-]).
  intros Hf. eapply fn_wf_same; [exact Hf| |].
  - split; try done. intros j. simpl. unfold inst. simpl. by rewrite Hp.
  - destruct Hf as [_ []]. split; simpl; auto.
Qed.
End any_function.

(** ** Memory blocks and logical dimensions *)
Lemma add_mem_block_wf size f id f' :
  add_mem_block size f = Some (id, f') → fn_wf f → fits f' → fn_wf f'.
Proof.
  unfold add_mem_block, alloc_block, create_block.
  intros ([id' m] & Ha & [= <- <-])%bind_Some [Hv Hs] Hfit. simpl in Ha.
  apply bind_Some in Ha as (bs & Hp & [= <- <-]).
  destruct (sv_push_shape _ _ _ Hp) as (Hl & Hw & _).
  destruct Hfit as (_ & _ & _ & _ & Hb & _). unfold num_blocks in Hb. simpl in Hb.
  rewrite cast_nat_small in * by lia. destruct Hs as [H1 H2 H3 H4 H5 H6].
  split; [|by split; simpl; auto].
  eapply (block_inserted_view_ok (view f) _ Hv (sv_len (blocks (mem_blocks (body f)))));
    try done.
  - simpl. unfold mem_block, block. destruct (sv_get _ _) eqn:E; [|done].
    apply sv_get_lt in E; [lia|done].
  - intros j. simpl. unfold mem_block, block. simpl. rewrite (sv_push_get _ _ _ _ Hp).
    unfold sv_len. by case_decide.
Qed.

(** A dimension as [Dimension::new] and [Dimension::new_static] build it. *)
Definition fresh_dim (d : Dimension) : Prop :=
  iterated d = [] ∧ is_thread_dim d = false ∧ mapped_dims d = [].

Lemma dimension_new_fresh id size l d :
  dimension_new id size l = ROk d → dim_id d = id ∧ fresh_dim d.
Proof.
  unfold dimension_new. destruct (as_int size) as [n|].
  - destruct (n =? 1)%Z; [done|]. by intros [= <-].
  - by intros [= <-].
Qed.

Lemma dimension_new_static_fresh id sizes l d :
  dimension_new_static id sizes l = ROk d → dim_id d = id ∧ fresh_dim d.
Proof. unfold dimension_new_static. destruct (vs_contains _ _); [done|]. by intros [= <-]. Qed.

Lemma fresh_dim_sum d :
  fresh_dim d →
  dim_sum d = mkDimSum (dim_id d) [] false (negb (vs_is_empty (dim_possible_sizes d))) [].
Proof. intros (H1 & H2 & H3). unfold dim_sum. by rewrite H1, H2, H3. Qed.

Lemma possible_sizes_static d :
  is_Some (possible_sizes d) ↔ negb (vs_is_empty (dim_possible_sizes d)) = true.
Proof.
  unfold possible_sizes. destruct (vs_is_empty _); simpl; [|by eauto].
  split; [by intros []|done].
Qed.

Lemma new_tile_dims_fresh ids sizes l ds :
  new_tile_dims ids sizes l = ROk ds → length ids = length sizes →
  dim_id <$> ds = ids ∧ Forall fresh_dim ds.
Proof.
  revert sizes ds. induction ids as [|id ids IH]; intros [|s sizes] ds; try done; simpl.
  - by intros [= <-].
  - destruct (dimension_new_static id s (Some l)) as [d|] eqn:Ed; [|done].
    destruct (new_tile_dims ids sizes l) as [ds'|] eqn:Eds; [|done].
    intros [= <-] [= Hlen]. apply dimension_new_static_fresh in Ed as [<- Hd].
    destruct (IH _ _ Eds Hlen) as [<- Hf]. split; [done|by constructor].
Qed.

Lemma new_outer_dim_fresh l ids size tf d ld :
  new_outer_dim l ids size tf = Some (ROk (d, ld)) →
  head ids = Some (dim_id d) ∧ fresh_dim d ∧ ldim_id ld = l.
Proof.
  unfold new_outer_dim. intros (id0 & Hid & H)%bind_Some.
  destruct (as_constant size) as [n|].
  - apply bind_Some in H as (sizes & _ & H).
    apply obind_ok in H as (d' & Hd & H). injection Hd as Hd. injection H as -> <-.
    apply dimension_new_static_fresh in Hd as [<- Hd]. done.
  - apply bind_Some in H as (t & _ & H). apply bind_Some in H as (t' & _ & H).
    apply obind_ok in H as (d' & Hd & H). injection Hd as Hd. injection H as -> <-.
    apply dimension_new_fresh in Hd as [<- Hd]. done.
Qed.

(** Consecutive fresh dimensions, appended at once. *)
Lemma seq_shift_eq n k : seq (S n) k = (λ i, (i + n)%nat) <$> seq 1 k.
Proof.
  apply list_eq. intros i. rewrite list_lookup_fmap.
  destruct (decide (i < k)%nat).
  - rewrite !lookup_seq_lt by done. simpl. f_equal. lia.
  - rewrite !lookup_seq_ge by lia. done.
Qed.

Lemma dims_inserted_view_ok v w n (ds : list Dimension) :
  view_ok v → Forall fresh_dim ds → dim_id <$> ds = seq n (length ds) →
  (∀ j, (n ≤ j)%nat → v_dim v j = None) →
  (∀ j, v_dim w j = if decide (n ≤ j)%nat then dim_sum <$> ds !! (j - n)%nat
                    else v_dim v j) →
  (∀ i, v_inst w i = v_inst v i) → (∀ i, v_map w i = v_map v i) →
  (∀ i, v_var w i = v_var v i) → (∀ i, v_block w i = v_block v i) →
  v_thread w = v_thread v →
  v_static w = v_static v ++ (dim_id <$> filter (λ d, is_Some (possible_sizes d)) ds) →
  v_mem w = v_mem v → view_ok w.
Proof.
  revert v n. induction ds as [|d ds IH]; intros v n Hv Hf Hid Hnone Hdim H1 H2 H3 H4 H5 H6 H7.
  - eapply view_ok_ext, Hv. split; try done.
    + intros j. rewrite Hdim. case_decide; [|done]. simpl. by rewrite Hnone.
    + rewrite H6. simpl. by rewrite app_nil_r.
  - simpl in Hid. injection Hid as Hd Hid. apply Forall_cons in Hf as [Hfd Hf].
    set (st := negb (vs_is_empty (dim_possible_sizes d))).
    set (u := mkView (v_inst v)
      (λ j, if decide (j = n) then Some (mkDimSum n [] false st []) else v_dim v j)
      (v_map v) (v_var v) (v_block v) (v_thread v)
      (v_static v ++ (if st then [n] else [])) (v_mem v)).
    assert (view_ok u) as Hu.
    { apply (dim_inserted_view_ok v u n st); [|done]. split; try done.
      - by apply Hnone.
      - intros j. simpl. rewrite elem_of_app. destruct st; set_solver. }
    apply (IH u (S n) Hu); try done.
    + intros j Hj. simpl. rewrite decide_False by lia. apply Hnone. lia.
    + intros j. rewrite Hdim. simpl.
      destruct (decide (n ≤ j)%nat), (decide (S n ≤ j)%nat); try lia.
      * rewrite (lookup_cons_ne_0 _ _ (j - n)) by lia. f_equal. f_equal. lia.
      * assert (j = n) as -> by lia. rewrite decide_True, Nat.sub_diag by done. simpl.
        by rewrite fresh_dim_sum, Hd.
      * rewrite decide_False by lia. done.
    + rewrite H6. simpl. rewrite <-app_assoc. f_equal.
      destruct (decide (is_Some (possible_sizes d))) as [Hp|Hp].
      * rewrite filter_cons_True by done. apply possible_sizes_static in Hp.
        unfold st. rewrite Hp. simpl. by rewrite Hd.
      * rewrite filter_cons_False by done. rewrite possible_sizes_static in Hp.
        unfold st. by rewrite (proj1 (not_true_iff_false _) Hp).
Qed.

Lemma sv_extend_get {T : Type} (s s' : SparseVec T) l j :
  sv_extend s l = Some s' →
  sv_get s' j = if decide (sv_len s ≤ j)%nat then l !! (j - sv_len s)%nat
                else sv_get s j.
Proof.
  intros (Hf & _ & Hv)%sv_extend_spec. unfold sv_get, sv_len, sv_full in *. rewrite Hv.
  case_decide.
  - rewrite lookup_app_r by lia. rewrite Hf, list_lookup_fmap.
    by destruct (l !! _).
  - by rewrite lookup_app_l by lia.
Qed.

Lemma add_logical_dim_wf size tf sizes f r f' :
  add_logical_dim size tf sizes f = Some (r, f') → fn_wf f → fits f' → fn_wf f'.
Proof.
  unfold add_logical_dim. intros ([[d ld]|e] & Ho & H)%bind_Some Hf Hfit;
    [|by injection H as <- <-].
  destruct (new_tile_dims _ _ _) as [ds|e] eqn:Et; [|by injection H as <- <-].
  apply bind_Some in H as (dv & He & [= <- <-]). simpl in He.
  pose proof (sv_extend_spec _ _ _ He) as (Hfull & Hfull' & Hvec).
  destruct Hfit as (_ & Hb & _ & _ & _ & Hlb). simpl in Hb, Hlb.
  rewrite length_app in Hlb. simpl in Hlb.
  assert (sv_len dv = sv_len (dims (body f)) + S (length ds))%nat as Hlen.
  { unfold sv_len, sv_full in *. rewrite <-Hfull', Hvec, length_app, length_fmap, Hfull.
    done. }
  rewrite cast_nat_small in * by lia.
  pose proof (new_tile_dims_fresh _ _ _ _ Et) as [Hids Hfds].
  { simpl. by rewrite length_fmap, length_seq. }
  pose proof (new_outer_dim_fresh _ _ _ _ _ _ Ho) as (Hd0 & Hfd & Hld).
  set (n := sv_len (dims (body f))) in *. simpl in Hids, Hd0.
  assert (length ds = length sizes) as Hls.
  { erewrite <-(length_fmap dim_id), Hids, length_fmap. apply length_seq. }
  assert (dim_id <$> d :: ds = seq n (S (length ds))) as Hseq.
  { rewrite fmap_cons, Hids. injection Hd0 as <-. cbn [seq]. f_equal.
    - rewrite cast_nat_small by lia. done.
    - rewrite Hls, (seq_shift_eq n). apply list_eq. intros i.
      rewrite !list_lookup_fmap. destruct (seq 1 (length sizes) !! i) as [k|] eqn:Ek; [|done].
      apply lookup_seq in Ek as [-> Hk]. simpl. f_equal. apply cast_nat_small; lia. }
  destruct Hf as [Hv [H1 H2 H3 H4 H5 H6]]. split.
  - eapply (dims_inserted_view_ok (view f) _ n (d :: ds) Hv); try done.
    + by constructor.
    + intros j Hj. simpl. unfold dim. destruct (sv_get _ _) eqn:E; [|done].
      apply sv_get_lt in E; [unfold n in Hj; lia|done].
    + intros j. simpl. unfold dim. simpl. rewrite (sv_extend_get _ _ _ _ He).
      fold n. by case_decide.
  - split; simpl; auto.
    + unfold sv_wf, sv_full in *. lia.
    + intros i l Hl. destruct (decide (i < length (logical_dims (body f)))%nat).
      * rewrite lookup_app_l in Hl by done. by apply H6.
      * rewrite lookup_app_r in Hl by lia.
        destruct (i - length (logical_dims (body f)))%nat as [|k] eqn:Ek; [|done].
        injection Hl as <-. rewrite Hld. lia.
Qed.

(** ** Freezing *)
Section freezing.
Context `{Profile}.

Lemma operator_freeze_sum op c op' c' :
  operator_freeze op c = Some (op', c') →
  is_mem_access op' = is_mem_access op ∧ mem_used op' = mem_used op.
Proof.
  unfold operator_freeze. destruct op; simpl; intros Hf;
    repeat (apply bind_Some in Hf as ([? ?] & _ & Hf)); by injection Hf as <- <-.
Qed.

Lemma inst_freeze_sum i c i' c' :
  inst_freeze i c = Some (i', c') → inst_sum i' = inst_sum i.
Proof.
  unfold inst_freeze. intros ([op c1] & Hop & [= <- <-])%bind_Some.
  apply operator_freeze_sum in Hop as [H1 H2]. unfold inst_sum. simpl. by rewrite H1, H2.
Qed.

Lemma freeze_insts_sum l c l' c' :
  freeze_insts l c = Some (l', c') →
  length l' = length l ∧
  ∀ j, inst_sum <$> mjoin (l' !! j) = inst_sum <$> mjoin (l !! j).
Proof.
  revert c l' c'. induction l as [|[i|] l IH]; intros c l' c'; cbn [freeze_insts].
  - by intros [= <- <-].
  - intros ([i' c1] & Hi & Hf)%bind_Some.
    apply bind_Some in Hf as ([l1 c2] & Hl & [= <- <-]).
    destruct (IH _ _ _ Hl) as [Hlen Hj]. split; [simpl; by rewrite Hlen|].
    intros [|j]; [|apply Hj]. simpl. by erewrite inst_freeze_sum.
  - intros ([l1 c1] & Hl & [= <- <-])%bind_Some.
    destruct (IH _ _ _ Hl) as [Hlen Hj]. split; [simpl; by rewrite Hlen|].
    intros [|j]; [done|apply Hj].
Qed.

(** What [freeze] keeps and how it grows the vectors. *)
Lemma freeze_same f f' :
  freeze f = Some f' → view_eq (view f) (view f') ∧ (shapes_ok f → shapes_ok f').
Proof.
  unfold freeze. intros ([iv c1] & Hi & Hf)%bind_Some.
  apply bind_Some in Hf as ([vs c2] & _ & Hf).
  apply bind_Some in Hf as (iv' & Hiv & Hf). apply bind_Some in Hf as (ds & Hds & Hf).
  apply bind_Some in Hf as (bs & Hbs & Hf). apply bind_Some in Hf as (ms & Hms & [= <-]).
  apply freeze_insts_sum in Hi as [Hlen Hj].
  apply sv_expand_to_spec in Hiv as (Hic & Hic' & Hiv).
  apply sv_expand_to_spec in Hds as (Hdc & Hdc' & Hdv).
  apply sv_expand_to_spec in Hms as (Hmc & Hmc' & Hmv).
  unfold expand_blocks_to in Hbs. apply bind_Some in Hbs as (bv & Hbv & [= <-]).
  apply sv_expand_to_spec in Hbv as (Hbc & Hbc' & Hbv). simpl in *. split.
  - split; try done.
    + intros j. simpl. unfold inst, sv_get. simpl. by rewrite Hiv, Hj.
    + intros j. simpl. unfold dim, sv_get. simpl. rewrite Hdv, list_lookup_fmap.
      by destruct (sv_vec (dims (body f)) !! j) as [[d|]|].
    + intros j. simpl. unfold dim_mapping, sv_get. simpl. by rewrite Hmv.
    + intros j. simpl. unfold mem_block, block, sv_get. simpl. by rewrite Hbv.
  - intros [H1 H2 H3 H4 H5 H6]. split; simpl; auto; unfold sv_wf in *.
    + rewrite Hiv, Hic'. done.
    + rewrite Hdv, Hdc'. done.
    + rewrite Hmv, Hmc'. lia.
    + rewrite Hbv, Hbc'. lia.
Qed.

Lemma freeze_wf f f' : freeze f = Some f' → fn_wf f → fn_wf f'.
Proof.
  intros [He Hs]%freeze_same Hf. eapply fn_wf_same; [exact Hf|done|]. apply Hs, Hf.
Qed.

(** The identifiers past the old lengths are holes. *)
Lemma freeze_holes f f' :
  freeze f = Some f' → shapes_ok f →
  (∀ i, (sv_len (insts (body f)) ≤ i)%nat → inst i f' = None) ∧
  (∀ d, (sv_len (dims (body f)) ≤ d)%nat → dim d f' = None) ∧
  (∀ m, (sv_len (dim_mappings (body f)) ≤ m)%nat → dim_mapping m f' = None) ∧
  (∀ b, (num_blocks (mem_blocks (body f)) ≤ b)%nat → mem_block b f' = None).
Proof.
  intros [[E1 E2 E3 _ E5 _ _ _] _]%freeze_same [H1 H2 H3 _ H5 _].
  assert (∀ T (s : SparseVec T) i, sv_wf s → (sv_len s ≤ i)%nat → sv_get s i = None)
    as Hn.
  { intros T s i Hs Hi. destruct (sv_get s i) eqn:E; [|done].
    apply sv_get_lt in E; [lia|done]. }
  split_and!; intros i Hi.
  - specialize (E1 i). simpl in E1. unfold inst at 1 in E1. rewrite Hn in E1 by done.
    by destruct (inst i f').
  - specialize (E2 i). simpl in E2. unfold dim at 1 in E2. rewrite Hn in E2 by done.
    by destruct (dim i f').
  - specialize (E3 i). simpl in E3. unfold dim_mapping at 1 in E3.
    rewrite Hn in E3 by done. by destruct (dim_mapping i f').
  - specialize (E5 i). simpl in E5. unfold mem_block at 1, block in E5.
    rewrite Hn in E5 by done. by destruct (mem_block i f').
Qed.
End freezing.

(** *** The identifiers that freezing reserves *)

(** The lowering maps of operands, with the dimension maps they were made for. *)
Definition operand_lowering (o : Operand LoweringMap) : option (LoweringMap * DimMap) :=
  match o with OInst _ _ m (Global lm) => Some (lm, m) | _ => None end.

Definition inst_lowerings (i : Instruction LoweringMap) : list (LoweringMap * DimMap) :=
  omap operand_lowering (operands (inst_operator i)).

Definition function_lowerings (f : Function LoweringMap) : list (LoweringMap * DimMap) :=
  concat (inst_lowerings <$> sv_iter (insts (body f))) ++
  omap (operand_lowering ∘ ind_base) (induction_vars (body f)).

(** The maps [ps] were allocated one after the other. *)
Inductive allocated : Counter → list (LoweringMap * DimMap) → Counter → Prop :=
| allocated_nil c : allocated c [] c
| allocated_cons c lm m ps c1 c2 :
    @for_dim_map debug_profile m c = Some (lm, c1) → allocated c1 ps c2 →
    allocated c ((lm, m) :: ps) c2.

Lemma allocated_app c ps c1 qs c2 :
  allocated c ps c1 → allocated c1 qs c2 → allocated c (ps ++ qs) c2.
Proof. induction 1; simpl; [done|]. intros. econstructor; eauto. Qed.

Lemma operand_freeze_allocated o c o' c' :
  @operand_freeze debug_profile o c = Some (o', c') →
  allocated c (option_list (operand_lowering o')) c'.
Proof.
  destruct o as [| |id t m [| |[]]| | | | | |]; simpl; intros Hf;
    try (injection Hf as <- <-; constructor).
  apply bind_Some in Hf as ([lm c1] & Hl & [= <- <-]). simpl.
  econstructor; [done|constructor].
Qed.

Lemma operator_freeze_allocated op c op' c' :
  @operator_freeze debug_profile op c = Some (op', c') →
  allocated c (omap operand_lowering (operands op')) c'.
Proof.
  assert (∀ (o : Operand LoweringMap) l,
    omap operand_lowering (o :: l) =
    option_list (operand_lowering o) ++ omap operand_lowering l) as Hcons.
  { intros o l. cbn. by destruct (operand_lowering o). }
  unfold operator_freeze. destruct op; cbn [map_operands]; intros Hf;
    repeat (apply bind_Some in Hf as ([? ?] & ?%operand_freeze_allocated & Hf));
    injection Hf as <- <-; cbn [operands]; rewrite ?Hcons;
    repeat (eapply allocated_app; [done|]); constructor.
Qed.

Lemma freeze_insts_allocated l c l' c' :
  @freeze_insts debug_profile l c = Some (l', c') →
  allocated c (concat (inst_lowerings <$> omap id l')) c'.
Proof.
  revert c l' c'. induction l as [|[i|] l IH]; intros c l' c'; cbn [freeze_insts].
  - intros [= <- <-]. constructor.
  - intros ([i' c1] & Hi & Hf)%bind_Some.
    apply bind_Some in Hf as ([l1 c2] & Hl & [= <- <-]).
    unfold inst_freeze in Hi. apply bind_Some in Hi as ([op c3] & Hop & [= <- <-]).
    cbn. eapply allocated_app; [by eapply operator_freeze_allocated|]. by eapply IH.
  - intros ([l1 c1] & Hl & [= <- <-])%bind_Some. cbn. by eapply IH.
Qed.

Lemma freeze_ind_vars_allocated l c l' c' :
  @freeze_ind_vars debug_profile l c = Some (l', c') →
  allocated c (omap (operand_lowering ∘ ind_base) l') c'.
Proof.
  revert c l' c'. induction l as [|v l IH]; intros c l' c'; cbn [freeze_ind_vars].
  - intros [= <- <-]. constructor.
  - intros ([v' c1] & Hv & Hf)%bind_Some.
    apply bind_Some in Hf as ([l1 c2] & Hl & [= <- <-]).
    unfold ind_freeze in Hv. apply bind_Some in Hv as ([b c3] & Hb & [= <- <-]).
    apply operand_freeze_allocated in Hb. apply IH in Hl.
    replace (omap (operand_lowering ∘ ind_base) (mkInductionVar (ind_dims v) b :: l1))
      with (option_list (operand_lowering b) ++ omap (operand_lowering ∘ ind_base) l1)
      by (cbn; by destruct (operand_lowering b)).
    by eapply allocated_app.
Qed.

(** The maps were given by [for_dim_map] pairs whose sides are sets. *)
Definition proper_map (p : LoweringMap * DimMap) : Prop := NoDup p.2.*1 ∧ NoDup p.2.*2.

Lemma alloc_pair_mono c p r c' :
  @alloc_pair debug_profile c p = Some (r, c') →
  next_mem c' = next_mem c ∧ next_inst c' = next_inst c ∧
  next_dim c' = (next_dim c + 2)%nat ∧ next_dim_mapping c' = (next_dim_mapping c + 2)%nat ∧
  (Z.of_nat (next_dim_mapping c') < 2 ^ 16)%Z.
Proof.
  destruct p as [src dst]. unfold alloc_pair, counter_next_dim, counter_next_dim_mapping.
  cbn [next_mem next_inst next_dim next_dim_mapping].
  intros ([st c1] & H1 & ([ld c2] & H2 & [= <- <-])%bind_Some)%bind_Some.
  apply bind_Some in H1 as (n1 & Hn1 & [= <- <-]). cbn in H2.
  apply bind_Some in H2 as (n2 & Hn2 & [= <- <-]). cbn.
  unfold uadd in *. apply arith_checked in Hn1 as [<- ?], Hn2 as [<- ?]. lia.
Qed.

Lemma alloc_pairs_mono m c st ld r c' :
  @alloc_pairs debug_profile m c st ld = Some (r, c') →
  next_mem c' = next_mem c ∧ next_inst c' = next_inst c ∧
  next_dim c' = (next_dim c + 2 * length m)%nat ∧
  next_dim_mapping c' = (next_dim_mapping c + 2 * length m)%nat ∧
  (m ≠ [] → (Z.of_nat (next_dim_mapping c') < 2 ^ 16)%Z).
Proof.
  revert c st ld. induction m as [|p m IH]; intros c st ld; cbn [alloc_pairs].
  - intros [= <- <-]. cbn. split_and!; [done|done|lia|lia|done].
  - intros ([[s l] c1] & (A1 & A2 & A3 & A4 & A5)%alloc_pair_mono
      & (B1 & B2 & B3 & B4 & B5)%IH)%bind_Some. cbn [length].
    split_and!; [congruence|congruence|lia|lia|]. intros _.
    destruct m; [cbn in B4; by rewrite B4, Nat.add_0_r|by apply B5].
Qed.

Lemma for_dim_map_mono m c lm c' :
  @for_dim_map debug_profile m c = Some (lm, c') →
  next_mem c' = S (next_mem c) ∧ next_inst c' = (2 + next_inst c)%nat ∧
  next_dim c' = (next_dim c + 2 * length m)%nat ∧
  next_dim_mapping c' = (next_dim_mapping c + 2 * length m)%nat ∧
  (m ≠ [] → (Z.of_nat (next_dim_mapping c') < 2 ^ 16)%Z).
Proof.
  unfold for_dim_map, counter_next_mem, counter_next_inst.
  intros ([[st ld] c1] & (A1 & A2 & A3 & A4 & A5)%alloc_pairs_mono & [= <- <-])%bind_Some.
  cbn in *. by split_and!.
Qed.

(** The identifiers of a lowered map. *)
Definition lowered_dims (l : LoweredDimMap) : list DimId := store_dims l ++ load_dims l.
Definition lowered_mappings (l : LoweredDimMap) : list DimMappingId :=
  (st_dims_mapping l).*1 ++ (ld_dims_mapping l).*1.
Definition lowered_insts (l : LoweredDimMap) : list InstId := [ldm_store l; ldm_load l].

Definition counter_fits (c : Counter) : Prop :=
  (Z.of_nat (next_mem c) ≤ 2 ^ 32)%Z ∧ (Z.of_nat (next_inst c) ≤ 2 ^ 32)%Z ∧
  (Z.of_nat (next_dim c) ≤ 2 ^ 32)%Z.

Lemma allocated_mono c ps c' :
  allocated c ps c' →
  (next_mem c ≤ next_mem c')%nat ∧ (next_inst c ≤ next_inst c')%nat ∧
  (next_dim c ≤ next_dim c')%nat ∧
  ((Z.of_nat (next_dim_mapping c) < 2 ^ 16)%Z →
   (Z.of_nat (next_dim_mapping c') < 2 ^ 16)%Z).
Proof.
  induction 1 as [|c lm m ps c1 c2 (A1 & A2 & A3 & A4 & A5)%for_dim_map_mono _
    (B1 & B2 & B3 & B4)]; [done|].
  split_and!; [lia..|]. intros Hc. apply B4. destruct m as [|p m]; [|by apply A5].
  rewrite A4. cbn. by rewrite Nat.add_0_r.
Qed.

Lemma allocated_ids c ps c' :
  allocated c ps c' → Forall proper_map ps → counter_fits c' →
  (Z.of_nat (next_dim_mapping c) < 2 ^ 16)%Z →
  ∃ lows,
    mapM (λ p, lm_lower p.1 p.2) ps = Some lows ∧
    ldm_mem <$> lows = seq (next_mem c) (next_mem c' - next_mem c) ∧
    concat (lowered_insts <$> lows) = seq (next_inst c) (next_inst c' - next_inst c) ∧
    concat (lowered_dims <$> lows) ≡ₚ seq (next_dim c) (next_dim c' - next_dim c) ∧
    concat (lowered_mappings <$> lows)
      ≡ₚ seq (next_dim_mapping c) (next_dim_mapping c' - next_dim_mapping c) ∧
    (next_dim_mapping c ≤ next_dim_mapping c')%nat.
Proof.
  induction 1 as [c|c lm m ps c1 c2 Hf Ha IH]; intros Hp (Hm & Hi & Hd) Hk.
  { exists []. rewrite !Nat.sub_diag. cbn. split_and!; done. }
  apply Forall_cons in Hp as [[Hn1 Hn2] Hp]. simpl in Hn1, Hn2.
  pose proof (for_dim_map_mono _ _ _ _ Hf) as (A1 & A2 & A3 & A4 & A5).
  pose proof (allocated_mono _ _ _ Ha) as (B1 & B2 & B3 & _).
  assert (Z.of_nat (next_dim_mapping c1) < 2 ^ 16)%Z as Hk1.
  { destruct m as [|p m]; [|by apply A5]. rewrite A4. cbn. by rewrite Nat.add_0_r. }
  destruct (for_dim_map_spec m c Hn1 Hn2) as (lm' & Hf' & Hl).
  { unfold counter_room. split_and!; lia. }
  rewrite Hf in Hf'. injection Hf' as <- _. cbn zeta in Hl.
  destruct (lowered_pairs_st m (next_dim c) (next_dim_mapping c)) as [L1 L2].
  set (low := mkLoweredDimMap _ _ _ _ _) in Hl.
  destruct (IH Hp ltac:(done) Hk1) as (lows & Hlows & C1 & C2 & C3 & C4 & C5).
  exists (low :: lows). split_and!.
  - cbn [mapM]. cbn [fst snd]. rewrite Hl. cbn [mbind option_bind]. by rewrite Hlows.
  - rewrite fmap_cons, C1. cbn [ldm_mem low]. rewrite A1.
    replace (next_mem c2 - next_mem c)%nat with (S (next_mem c2 - S (next_mem c)))%nat
      by lia. done.
  - rewrite fmap_cons. cbn [concat]. rewrite C2, A2.
    replace (next_inst c2 - next_inst c)%nat
      with (2 + (next_inst c2 - (2 + next_inst c)))%nat by lia. done.
  - rewrite fmap_cons. cbn [concat]. rewrite C3.
    replace (next_dim c2 - next_dim c)%nat
      with (2 * length m + (next_dim c2 - next_dim c1))%nat by lia.
    rewrite seq_app, <-A3. f_equiv. exact L1.
  - rewrite fmap_cons. cbn [concat]. rewrite C4.
    replace (next_dim_mapping c2 - next_dim_mapping c)%nat
      with (2 * length m + (next_dim_mapping c2 - next_dim_mapping c1))%nat by lia.
    rewrite seq_app, <-A4. f_equiv. exact L2.
  - lia.
Qed.

Lemma freeze_allocated f f' :
  @freeze debug_profile f = Some f' →
  let c := mkCounter (num_blocks (mem_blocks (body f))) (sv_len (insts (body f)))
    (sv_len (dims (body f))) (cast_nat 16 (sv_len (dim_mappings (body f)))) in
  ∃ c', allocated c (function_lowerings f') c' ∧
    sv_len (insts (body f')) = next_inst c' ∧ sv_len (dims (body f')) = next_dim c' ∧
    num_blocks (mem_blocks (body f')) = next_mem c' ∧
    sv_len (dim_mappings (body f')) = next_dim_mapping c' ∧
    (sv_len (dim_mappings (body f)) ≤ next_dim_mapping c')%nat.
Proof.
  intros Hf c. unfold freeze in Hf. apply bind_Some in Hf as ([iv c1] & Hi & Hf).
  apply bind_Some in Hf as ([vs c2] & Hv & Hf).
  apply bind_Some in Hf as (iv' & Hiv & Hf). apply bind_Some in Hf as (ds & Hds & Hf).
  apply bind_Some in Hf as (bs & Hbs & Hf). apply bind_Some in Hf as (ms & Hms & [= <-]).
  apply freeze_insts_allocated in Hi. apply freeze_ind_vars_allocated in Hv.
  apply sv_expand_to_spec in Hiv as (_ & Hic & Hiv).
  apply sv_expand_to_spec in Hds as (_ & Hdc & _).
  apply sv_expand_to_spec in Hms as (Hmc & Hmc' & _).
  unfold expand_blocks_to in Hbs. apply bind_Some in Hbs as (bv & Hbv & [= <-]).
  apply sv_expand_to_spec in Hbv as (_ & Hbc & _).
  exists c2. split; [|done]. unfold function_lowerings. cbn [body insts induction_vars].
  unfold sv_iter. rewrite Hiv. by eapply allocated_app.
Qed.

Lemma cast_nat_lt w n : (0 ≤ w)%Z → (Z.of_nat (cast_nat w n) < 2 ^ w)%Z.
Proof.
  intros Hw. unfold cast_nat, wrap.
  pose proof (Z.mod_pos_bound (Z.of_nat n) (2 ^ w) ltac:(by apply Z.pow_pos_nonneg)). lia.
Qed.

(** ** The builder as a state machine *)
Inductive build_step (f : Function unit) : Function unit → Prop :=
| bs_add_inst op iter r f' : add_inst op iter f = Some (r, f') → build_step f f'
| bs_add_mem_block size id f' : add_mem_block size f = Some (id, f') → build_step f f'
| bs_add_logical_dim size tf sizes r f' :
    add_logical_dim size tf sizes f = Some (r, f') → build_step f f'
| bs_map_dimensions p id f' : map_dimensions p f = Some (id, f') → build_step f f'
| bs_add_variable def r f' : add_variable def f = Some (r, f') → build_step f f'
| bs_add_ind_var v : build_step f (add_ind_var v f).2
| bs_set_iteration_dim i d b f' :
    set_iteration_dim i d f = Some (b, f') → build_step f f'
| bs_add_thread_dim d b f' : add_thread_dim d f = Some (b, f') → build_step f f'.

Lemma function_new_wf {L : Type} sig dev : fn_wf (@function_new L sig dev).
Proof.
  assert (∀ i, ([] : list nat) !! i = None) as Hn by done.
  split; split; try (split_and!; intros; simpl in *; done); unfold sv_wf; simpl; try lia.
  - unfold lists_ok. simpl. unfold dim, inst. simpl.
    split_and!; [apply strict_sorted_nil|..]; intros d;
      (split; [by intros ?%elem_of_nil|by intros (? & ? & ?)]).
  - done.
Qed.

Lemma build_step_wf f f' : build_step f f' → fn_wf f → fits f' → fn_wf f'.
Proof.
  destruct 1; intros Hwf Hfit; eauto using add_inst_wf, add_mem_block_wf,
    add_logical_dim_wf, add_variable_wf, add_ind_var_wf, set_iteration_dim_wf,
    add_thread_dim_wf.
  match goal with H : map_dimensions _ _ = _ |- _ =>
    apply map_dimensions_wf in H as (_ & _ & _ & _ & _ & _ & Hw) end.
  apply Hw; [done|]. by destruct Hfit as (_ & _ & ? & _).
Qed.

Definition reachable (sig : Signature) (dev : Device) (f : Function unit) : Prop :=
  star (λ f f', build_step f f' ∧ fits f') (function_new sig dev) f.

Lemma reachable_wf sig dev f : reachable sig dev f → fn_wf f.
Proof.
  intros Hs. eapply star_inv; [|exact Hs|apply function_new_wf].
  intros a b Ha [Hstep Hfit]. by eapply build_step_wf.
Qed.

(** A function used in the examples: one logical dimension of size 16 tiled by 4, whose
    two dimensions 0 and 1 hold a producer, and a consumer that reads it point to point
    from dimension 1 to dimension 2, possibly through memory. *)
Definition example_device : Device := mkDevice (λ _, ROk tt) (TyI 64).

Definition run {A : Type} (f : Function unit) (r : option (A * Function unit))
  : Function unit := match r with Some (_, f') => f' | None => f end.

Definition example_0 : Function unit := function_new (signature_new "example") example_device.
Definition example_1 : Function unit :=
  run example_0 (add_logical_dim (size_new_const 16) [4%Z] [[4%Z]] example_0).
Definition example_2 : Function unit :=
  run example_1 (add_logical_dim (size_new_const 4) [1%Z] [] example_1).
Definition producer : Operator unit := OpUnary Mov (OInt 3 32).
Definition example_3 : Function unit :=
  run example_2 (add_inst producer (list_to_set [0; 1]%nat) example_2).
Definition consumer : Operator unit :=
  OpUnary Mov (OInst 0 (TyI 32) [(1, 2)]%nat (Global tt)).
Definition example_4 : Function unit :=
  run example_3 (add_inst consumer (list_to_set [2]%nat) example_3).

Ltac compute_fits := unfold fits; split_and!; vm_compute; let H := fresh in
  intros H; discriminate H.

Lemma example_reachable : reachable (signature_new "example") example_device example_4.
Proof.
  unfold reachable. fold example_0.
  apply (star_step _ _ example_1).
  { split; [|compute_fits].
    apply (bs_add_logical_dim _ (size_new_const 16) [4%Z] [[4%Z]] (ROk (0, [0; 1])%nat)).
    vm_compute. reflexivity. }
  apply (star_step _ _ example_2).
  { split; [|compute_fits].
    apply (bs_add_logical_dim _ (size_new_const 4) [1%Z] [] (ROk (1, [2])%nat)).
    vm_compute. reflexivity. }
  apply (star_step _ _ example_3).
  { split; [|compute_fits].
    apply (bs_add_inst _ producer (list_to_set [0; 1]%nat) (ROk 0%nat)).
    vm_compute. reflexivity. }
  apply (star_step _ _ example_4); [|constructor].
  split; [|compute_fits].
  apply (bs_add_inst _ consumer (list_to_set [2]%nat) (ROk 1%nat)).
  vm_compute. reflexivity.
Qed.

(** ** Properties *)

(** C2: every function reachable from an empty one by any sequence of builder calls,
    failed ones included, satisfies the invariant, as long as the identifiers fit their
    integers: identifiers are positions, iteration dimensions, mappings, uses of
    variables and of memory blocks are recorded on both sides, and the lists of thread
    dimensions, static dimensions and memory instructions are exact; freezing it keeps
    all of this. *)
Theorem builder_keeps_references (sig : Signature) (dev : Device) (f : Function unit) :
  reachable sig dev f →
  fn_wf f ∧ ∀ (p : Profile) f', @freeze p f = Some f' → fn_wf f'.
Proof.
  intros Hf%reachable_wf. split; [done|]. intros p f' Hfr. by eapply freeze_wf.
Qed.

Lemma builder_keeps_references_witness : fn_wf example_4.
Proof. apply (builder_keeps_references _ _ _ example_reachable). Defined.

(** C19: freezing reserves fresh identifiers: the lowering maps stored in the frozen
    operands all lower, and together they use every memory block, instruction, dimension
    and mapping identifier between the old and the new lengths exactly once; all these
    identifiers are holes of the frozen function. *)
Theorem freeze_reserves_fresh_ids (f : Function unit) (f' : Function LoweringMap) :
  fn_wf f → @freeze debug_profile f = Some f' → fits f' →
  Forall proper_map (function_lowerings f') →
  ∃ lows,
    mapM (λ p, lm_lower p.1 p.2) (function_lowerings f') = Some lows ∧
    ldm_mem <$> lows = seq (num_blocks (mem_blocks (body f)))
      (num_blocks (mem_blocks (body f')) - num_blocks (mem_blocks (body f))) ∧
    concat (lowered_insts <$> lows) = seq (sv_len (insts (body f)))
      (sv_len (insts (body f')) - sv_len (insts (body f))) ∧
    concat (lowered_dims <$> lows) ≡ₚ seq (sv_len (dims (body f)))
      (sv_len (dims (body f')) - sv_len (dims (body f))) ∧
    concat (lowered_mappings <$> lows) ≡ₚ seq (sv_len (dim_mappings (body f)))
      (sv_len (dim_mappings (body f')) - sv_len (dim_mappings (body f))) ∧
    (∀ i, (sv_len (insts (body f)) ≤ i)%nat → inst i f' = None) ∧
    (∀ d, (sv_len (dims (body f)) ≤ d)%nat → dim d f' = None) ∧
    (∀ m, (sv_len (dim_mappings (body f)) ≤ m)%nat → dim_mapping m f' = None) ∧
    (∀ b, (num_blocks (mem_blocks (body f)) ≤ b)%nat → mem_block b f' = None).
Proof.
  intros [_ Hsh] Hf (F1 & F2 & _ & _ & F5 & _) Hp.
  pose proof (freeze_holes _ _ Hf Hsh) as Hholes.
  destruct (freeze_allocated _ _ Hf) as (c & Ha & E1 & E2 & E3 & E4 & Hm).
  pose proof (cast_nat_lt 16 (sv_len (dim_mappings (body f))) ltac:(lia)) as Hcast.
  pose proof (allocated_mono _ _ _ Ha) as (_ & _ & _ & Hk). specialize (Hk Hcast).
  rewrite cast_nat_small in Ha, Hcast by lia.
  rewrite E1, E2, E3, E4 in *.
  destruct (allocated_ids _ _ _ Ha Hp) as (lows & G1 & G2 & G3 & G4 & G5 & _); [|done|].
  { by unfold counter_fits. }
  exists lows. split; [done|]. split; [done|]. split; [done|]. split; [done|].
  split; [done|]. exact Hholes.
Qed.

Lemma freeze_reserves_fresh_ids_witness :
  ∃ f', @freeze debug_profile example_4 = Some f' ∧
    ∃ lows, mapM (λ p, lm_lower p.1 p.2) (function_lowerings f') = Some lows ∧
      concat (lowered_insts <$> lows) = seq 2 2.
Proof.
  destruct (@freeze debug_profile example_4) as [f'|] eqn:Ef; [|vm_compute in Ef; done].
  exists f'. split; [done|].
  assert (fits f' ∧ Forall proper_map (function_lowerings f') ∧
    sv_len (insts (body f')) = 4%nat) as (Hfit & Hp & Hl).
  { vm_compute in Ef. injection Ef as <-. split; [compute_fits|]. split; [|reflexivity].
    vm_compute. repeat constructor; cbn; set_solver. }
  destruct (freeze_reserves_fresh_ids example_4 f'
    (reachable_wf _ _ _ example_reachable) Ef Hfit Hp) as (lows & H1 & _ & H2 & _).
  exists lows. split; [exact H1|]. rewrite H2, Hl. reflexivity.
Defined.
