(* ===== verification/Lowering.v ===== *)
(** * Lowering during the exploration (src/ir/function.rs)

    The operations that change a frozen function keep the invariant of [FunctionFacts];
    merging dimensions and deciding that they are not merged move pairs out of the
    dimension maps and report each layout that becomes ready. *)
From S2P Require Import Prelude VecSet Types Size SparseVec Operands Objects.
From S2P Require Import Function FunctionFacts Building.

Section lowering.
Implicit Types f : Function LoweringMap.

(** ** Activating the reserved dimensions *)
Lemma with_same_size_fresh id other d :
  with_same_size id other = Some d → dim_id d = id ∧ fresh_dim d.
Proof.
  unfold with_same_size. destruct (vs_is_empty _).
  - destruct (dimension_new _ _ _) eqn:E; [|done]. intros [= <-].
    by eapply dimension_new_fresh.
  - destruct (dimension_new_static _ _ _) eqn:E; [|done]. intros [= <-].
    by eapply dimension_new_static_fresh.
Qed.

Lemma activate_mapped_dim_wf b f m p f' :
  activate_mapped_dim b f m = Some (p, f') → fn_wf f →
  fn_wf f' ∧ insts (body f') = insts (body f).
Proof.
  destruct m as [mid [old_d new_d]]. unfold activate_mapped_dim.
  intros (old & Hold & H)%bind_Some. apply bind_Some in H as (d & Hd & H).
  apply with_same_size_fresh in Hd as [Hid Hfr].
  set (f1 := match possible_sizes d with Some _ => _ | None => _ end) in H.
  apply bind_Some in H as (ds & Hds & H).
  set (f2 := with_body (set_dims ds (body f1)) f1) in H.
  apply bind_Some in H as ([mp f3] & Hc & H). apply bind_Some in H as (ms & Hms & H).
  injection H as <- <-. intros Hwf.
  assert (body f1 = set_static_dims (static_dims (body f) ++
    (if negb (vs_is_empty (dim_possible_sizes d)) then [new_d] else [])) (body f)) as Hf1.
  { unfold f1, possible_sizes. destruct (vs_is_empty _); simpl; [|done].
    rewrite app_nil_r. by destruct f as [? ? []]. }
  assert (fn_wf f2) as Hwf2.
  { destruct Hwf as [Hv [H1 H2 H3 H4 H5 H6]].
    assert (sv_wf (dims (body f1))) as Hw by by rewrite Hf1.
    pose proof (sv_set_lazy_spec _ new_d d Hw) as Hs. rewrite Hds in Hs.
    destruct Hs as (_ & Hnone & Hwd & _ & Hg). rewrite Hf1 in Hnone, Hg. simpl in Hnone, Hg.
    split.
    - eapply (dim_inserted_view_ok (view f) _ new_d
        (negb (vs_is_empty (dim_possible_sizes d)))); [|done].
      split; unfold view, f2, inst, dim_mapping, variable, mem_block; cbn -[dim_sum];
        rewrite ?Hf1; try done.
      + unfold dim. by rewrite Hnone.
      + intros j. unfold dim. cbn -[dim_sum]. rewrite Hg. case_decide; [|done].
        cbn -[dim_sum]. by rewrite fresh_dim_sum, Hid.
      + intros j. cbn. destruct (negb _); set_solver.
    - unfold f2. split; simpl; rewrite ?Hf1; simpl; auto. }
  pose proof (create_mapping_ok _ _ _ _ _ Hc) as (_ & ds' & _ & Hf3).
  assert (dim_mappings (body f3) = dim_mappings (body f)) as Hdm.
  { rewrite Hf3. simpl. by rewrite Hf1. }
  pose proof (sv_set_lazy_spec (dim_mappings (body f3)) mid mp) as Hs.
  rewrite Hms, Hdm in Hs.
  destruct Hs as (_ & Hnone & Hwm & _ & Hg); [apply Hwf|]. split.
  - eapply (store_mapping_wf mid _ f2 _ f3 ms Hc Hwf2); [|done|].
    + unfold dim_mapping, f2. simpl. by rewrite Hf1.
    + intros j. rewrite Hg. unfold f2. simpl. by rewrite Hf1.
  - simpl. rewrite Hf3. simpl. by rewrite Hf1.
Qed.

Lemma activate_mapped_dims_wf b l f r f' :
  activate_mapped_dims l b f = Some (r, f') → fn_wf f →
  fn_wf f' ∧ insts (body f') = insts (body f).
Proof.
  revert f r. induction l as [|m l IH]; intros f r; cbn [activate_mapped_dims].
  - by intros [= <- <-].
  - intros ([p f1] & Hm & H)%bind_Some Hf.
    apply bind_Some in H as ([map f2] & Hl & [= <- <-]).
    apply activate_mapped_dim_wf in Hm as [Hw1 Hi1]; [|done].
    destruct (IH _ _ Hl Hw1) as [Hw2 Hi2]. split; [done|congruence].
Qed.

(** ** The temporary block and the two instructions *)
Lemma set_lazy_tmp_wf id t l f m :
  set_lazy_tmp id t l (mem_blocks (body f)) = Some m → fn_wf f →
  fn_wf (with_body (set_mem_blocks m (body f)) f).
Proof.
  unfold set_lazy_tmp, create_block. intros (len & _ & H)%bind_Some [Hv Hs].
  apply bind_Some in H as ([blk m'] & Hb & H).
  apply bind_Some in Hb as (lay & _ & [= <- <-]). simpl in H.
  apply bind_Some in H as (bs & Hbs & [= <-]).
  destruct Hs as [H1 H2 H3 H4 H5 H6].
  pose proof (sv_set_lazy_spec _ id (mkBlock id [] len [] (dm_new l)) H5) as Hs.
  rewrite Hbs in Hs. destruct Hs as (_ & Hnone & Hw & _ & Hg).
  split; [|by split; simpl; auto].
  eapply (block_inserted_view_ok (view f) _ Hv id); try done.
  - simpl. unfold mem_block, block. by rewrite Hnone.
  - intros j. simpl. unfold mem_block, block. simpl. rewrite Hg. by case_decide.
Qed.

Lemma create_lazy_inst_wf id op l f f' :
  create_lazy_inst id op l f = Some f' → fn_wf f → fn_wf f'.
Proof.
  unfold create_lazy_inst. intros ([[i|e] f1] & Hc & H)%bind_Some Hf; [|done].
  apply bind_Some in H as (iv & Hiv & [= <-]).
  pose proof (create_inst_lens _ _ _ _ _ _ Hc) as (Hi & _). rewrite Hi in Hiv.
  pose proof (sv_set_lazy_spec (insts (body f)) id i) as Hs. rewrite Hiv in Hs.
  destruct Hs as (_ & Hnone & Hw & _ & Hg); [apply Hf|].
  by eapply (store_inst_wf _ _ _ _ _ _ iv Hc).
Qed.

Lemma inst_lower_dim_map_sum k s m (x y : Instruction LoweringMap) :
  inst_lower_dim_map k s m x = Some y → inst_sum y = inst_sum x.
Proof.
  unfold inst_lower_dim_map. intros (o & _ & H)%bind_Some.
  destruct o; try done. injection H as <-. unfold inst_sum. simpl.
  by destruct (inst_operator x).
Qed.

Lemma function_lower_dim_map_wf i k f r f' :
  function_lower_dim_map i k f = Some (r, f') → fn_wf f → fn_wf f'.
Proof.
  unfold function_lower_dim_map. intros (dst & _ & H)%bind_Some Hf.
  apply bind_Some in H as (o & _ & H).
  destruct o as [| |src t m [| |lm]| | | | | |]; try done;
    try (injection H as <- <-; exact Hf).
  apply bind_Some in H as (low & _ & H).
  apply bind_Some in H as ([st f1] & H1 & H).
  apply activate_mapped_dims_wf in H1 as [Hf1 _]; [|done].
  apply bind_Some in H as ([ld f2] & H2 & H).
  apply activate_mapped_dims_wf in H2 as [Hf2 _]; [|done].
  apply bind_Some in H as (mds & _ & H). apply bind_Some in H as (bm & Hbm & H).
  apply (set_lazy_tmp_wf _ _ _ _ _ Hbm) in Hf2.
  apply bind_Some in H as (sx & _ & H). apply bind_Some in H as (so & _ & H).
  apply bind_Some in H as (f3 & H3 & H). apply create_lazy_inst_wf in H3; [|done].
  apply bind_Some in H as (f4 & H4 & H). apply create_lazy_inst_wf in H4; [|done].
  apply bind_Some in H as (f5 & H5 & [= <- <-]).
  unfold inst_mut in H5. apply bind_Some in H5 as (iv & Hiv & [= <-]). pose proof Hiv as Hp.
  apply sv_update_shape in Hiv as (_ & Hw & _).
  eapply fn_wf_same; [exact H4| |destruct H4 as [_ []]; split; simpl; auto].
  split; try done. intros j. simpl. unfold inst. simpl. symmetry.
  eapply (sv_update_proj inst_sum); [done|]. intros x y. apply inst_lower_dim_map_sum.
Qed.

(** ** Pairs that are not merged *)
Lemma block_not_merged_sum lhs rhs b :
  block_sum (block_not_merged lhs rhs b).1 = block_sum b.
Proof. unfold block_not_merged. by destruct (dm_drain_filter _ _). Qed.

Lemma not_merged_loop_same lhs rhs ids bs acc l bs' :
  not_merged_loop lhs rhs ids bs acc = Some (l, bs') →
  (sv_wf bs → sv_wf bs') ∧
  ∀ j, block_sum <$> sv_get bs' j = block_sum <$> sv_get bs j.
Proof.
  revert bs acc. induction ids as [|id ids IH]; intros bs acc; cbn [not_merged_loop].
  - by intros [= <- <-].
  - intros (b & Hb & H)%bind_Some.
    destruct (block_not_merged lhs rhs b) as [b' lower] eqn:Eb.
    apply bind_Some in H as (bs1 & Hu & H). apply IH in H as [Hw Hj].
    destruct (sv_update_shape _ _ _ _ Hu) as (_ & Hw1 & _). split; [auto|].
    intros j. rewrite Hj. apply sv_update_spec in Hu as (x & y & Hx & [= <-] & _ & _ & Hg).
    rewrite Hg. case_decide; [|done]. subst. rewrite Hb. simpl.
    pose proof (block_not_merged_sum lhs rhs b) as Hsum. rewrite Eb in Hsum. simpl in Hsum.
    by rewrite Hsum.
Qed.

Lemma dim_not_merged_wf lhs rhs f f' :
  dim_not_merged lhs rhs f = Some f' → fn_wf f → fn_wf f'.
Proof.
  unfold dim_not_merged, not_merged. intros (d & _ & H)%bind_Some Hf.
  apply bind_Some in H as ([l m] & Hn & [= <-]).
  apply bind_Some in Hn as ([l' bs] & Hl & [= <- <-]).
  apply not_merged_loop_same in Hl as [Hw Hj].
  eapply fn_wf_same; [exact Hf| |].
  - split; try done. intros j. simpl. unfold mem_block, block. simpl. by rewrite Hj.
  - destruct Hf as [_ []]. split; simpl; auto.
Qed.

(** ** The exploration as a state machine *)
Inductive explore_step `{Profile} f : Function LoweringMap → Prop :=
| es_lower_dim_map i k r f' :
    function_lower_dim_map i k f = Some (r, f') → explore_step f f'
| es_merge s d : explore_step f (merge s d f)
| es_not_merged l r f' : dim_not_merged l r f = Some f' → explore_step f f'
| es_lower_layout m st ld f' : lower_layout m st ld f = Some f' → explore_step f f'
| es_set_iteration_dim i d b f' :
    set_iteration_dim i d f = Some (b, f') → explore_step f f'
| es_add_thread_dim d b f' : add_thread_dim d f = Some (b, f') → explore_step f f'.

Lemma explore_step_wf `{Profile} f f' : explore_step f f' → fn_wf f → fn_wf f'.
Proof.
  destruct 1; eauto using function_lower_dim_map_wf, merge_wf, dim_not_merged_wf,
    lower_layout_wf, set_iteration_dim_wf, add_thread_dim_wf.
Qed.
End lowering.

(** ** Properties *)

(** C6: from a frozen function that any builder sequence produced, every sequence of
    exploration operations (lowering a dimension map to memory, merging dimensions or
    deciding they are distinct, lowering layouts, adding iteration and thread dimensions)
    keeps the cross references of the function's objects exact, with the objects that
    lowering activates included. *)
Theorem exploration_keeps_references (p : Profile) (sig : Signature) (dev : Device)
    (f : Function unit) (f0 f' : Function LoweringMap) :
  reachable sig dev f → @freeze p f = Some f0 →
  star (@explore_step p) f0 f' → fn_wf f'.
Proof.
  intros Hr Hf Hs. eapply star_inv; [|exact Hs|].
  - intros a b Ha Hab. by eapply (explore_step_wf (H:=p)).
  - by eapply freeze_wf, reachable_wf.
Qed.

Lemma exploration_keeps_references_witness :
  ∃ f0 f' low, @freeze debug_profile example_4 = Some f0 ∧
    function_lower_dim_map 1 0 f0 = Some (ROk low, f') ∧ fn_wf f' ∧
    mem_insts (body f') = [2; 3]%nat.
Proof.
  destruct (@freeze debug_profile example_4) as [f0|] eqn:Ef; [|vm_compute in Ef; done].
  destruct (function_lower_dim_map 1 0 f0) as [[[low|[]] f']|] eqn:El;
    try (vm_compute in Ef; injection Ef as <-; vm_compute in El; discriminate El).
  exists f0, f', low. split; [done|]. split; [done|]. split.
  - eapply (exploration_keeps_references debug_profile _ _ _ f0 f' example_reachable Ef).
    eapply star_step; [by eapply es_lower_dim_map|apply star_refl].
  - vm_compute in Ef. injection Ef as <-. vm_compute in El. injection El as <- <-.
    reflexivity.
Defined.
