(* ===== verification/NewObjs.v ===== *)
(** * Objects created by a lowering (src/ir/mod.rs)

    [NewObjs] lists what a lowering adds to a function, for the search space to
    allocate the matching decisions; [LoweredDimMap::register_new_objs] fills it. *)
From S2P Require Import Prelude VecSet Types Size SparseVec Operands Objects.
From S2P Require Import Function FunctionFacts Building Lowering.

Record NewObjs := mkNewObjs {
  no_instructions : list InstId;
  no_dimensions : list DimId;
  no_static_dims : list DimId;
  no_statements : list StmtId;
  no_mem_blocks : list MemId;
  no_mem_insts : list InstId;
  no_iteration_dims : list (InstId * DimId);
  no_thread_dims : list DimId;
  no_logical_dims : list LogicalDimId;
  no_tile_dimensions : list (LogicalDimId * DimId);
  no_tiled_dimensions : list (LogicalDimId * DimId);
  no_dim_mappings : list DimMappingId;
  no_mapped_dims : list (DimMappingId * DimId);
  no_static_mapped_dims : list (DimMappingId * DimId);
  no_variables : list VarId;
  no_use_statements : list (VarId * StmtId);
  no_def_statements : list (VarId * StmtId);
  no_var_dims : list (VarId * DimId);
  no_var_mappings : list (VarId * DimMappingId)
}.

Definition new_objs_default : NewObjs :=
  mkNewObjs [] [] [] [] [] [] [] [] [] [] [] [] [] [] [] [] [] [] [].

(** What one call pushes; the calls append to the lists. *)
Definition no_app (a b : NewObjs) : NewObjs :=
  mkNewObjs (no_instructions a ++ no_instructions b) (no_dimensions a ++ no_dimensions b)
    (no_static_dims a ++ no_static_dims b) (no_statements a ++ no_statements b)
    (no_mem_blocks a ++ no_mem_blocks b) (no_mem_insts a ++ no_mem_insts b)
    (no_iteration_dims a ++ no_iteration_dims b) (no_thread_dims a ++ no_thread_dims b)
    (no_logical_dims a ++ no_logical_dims b)
    (no_tile_dimensions a ++ no_tile_dimensions b)
    (no_tiled_dimensions a ++ no_tiled_dimensions b)
    (no_dim_mappings a ++ no_dim_mappings b) (no_mapped_dims a ++ no_mapped_dims b)
    (no_static_mapped_dims a ++ no_static_mapped_dims b) (no_variables a ++ no_variables b)
    (no_use_statements a ++ no_use_statements b)
    (no_def_statements a ++ no_def_statements b) (no_var_dims a ++ no_var_dims b)
    (no_var_mappings a ++ no_var_mappings b).

Definition add_stmt (id : StmtId) (o : NewObjs) : NewObjs :=
  no_app o (mkNewObjs [] [] [] [id] [] [] [] [] [] [] [] [] [] [] [] [] [] [] []).

Definition no_add_thread_dim (d : DimId) (o : NewObjs) : NewObjs :=
  no_app o (mkNewObjs [] [] [] [] [] [] [] [d] [] [] [] [] [] [] [] [] [] [] []).

Definition no_add_iteration_dim (i : InstId) (d : DimId) (o : NewObjs) : NewObjs :=
  no_app o (mkNewObjs [] [] [] [] [] [] [(i, d)] [] [] [] [] [] [] [] [] [] [] [] []).

Definition no_add_mem_block (b : MemId) (o : NewObjs) : NewObjs :=
  no_app o (mkNewObjs [] [] [] [] [b] [] [] [] [] [] [] [] [] [] [] [] [] [] []).

Definition no_add_instruction {L : Type} (i : Instruction L) (o : NewObjs) : NewObjs :=
  let o := add_stmt (SInst (inst_id i)) o in
  let mem_inst := match as_mem_inst i with Some _ => [inst_id i] | None => [] end in
  no_app o (mkNewObjs [inst_id i] [] [] [] [] mem_inst
    ((λ d, (inst_id i, d)) <$> elements (iter_dims i)) [] [] [] [] [] [] [] [] [] [] [] []).

Definition no_add_dimension (d : Dimension) (o : NewObjs) : NewObjs :=
  let o := add_stmt (SDim (dim_id d)) o in
  let static := match possible_sizes d with Some _ => [dim_id d] | None => [] end in
  let o := no_app o
    (mkNewObjs [] [dim_id d] static [] [] [] [] [] [] [] [] [] [] [] [] [] [] [] []) in
  if is_thread_dim d then no_add_thread_dim (dim_id d) o else o.

(** The loop over the two dimensions of a mapping looks each of them up. *)
Definition no_add_mapped_dim {L : Type} (f : Function L) (m : DimMappingId) (o : NewObjs)
    (d : DimId) : option NewObjs :=
  x ← dim d f;
  let static := match possible_sizes x with Some _ => [(m, d)] | None => [] end in
  Some (no_app o
    (mkNewObjs [] [] [] [] [] [] [] [] [] [] [] [] [(m, d)] static [] [] [] [] [])).

Definition no_add_dim_mapping {L : Type} (mapping : DimMapping) (f : Function L)
    (o : NewObjs) : option NewObjs :=
  let o := no_app o
    (mkNewObjs [] [] [] [] [] [] [] [] [] [] [] [dmap_id mapping] [] [] [] [] [] [] []) in
  foldM (no_add_mapped_dim f (dmap_id mapping)) [(dmap_dims mapping).1; (dmap_dims mapping).2] o.

Definition no_add_variable (v : IrVariable) (o : NewObjs) : NewObjs :=
  no_app o (mkNewObjs [] [] [] [] [] [] [] [] [] [] [] [] [] []
    [var_id v] (pair (var_id v) <$> use_points v) (pair (var_id v) <$> def_points v)
    (pair (var_id v) <$> var_dimensions v)
    (pair (var_id v) <$> def_mapped_dims (var_def v))).

Section register.
Context {L : Type}.
Implicit Types (f : Function L) (o : NewObjs).

Definition register_mapping f o (m : DimMappingId * (DimId * DimId)) : option NewObjs :=
  let '(mapping, (_, new_dim)) := m in
  d ← dim new_dim f;
  x ← dim_mapping mapping f;
  no_add_dim_mapping x f (no_add_dimension d o).

Definition register_new_objs (l : LoweredDimMap) f o : option NewObjs :=
  let o := no_add_mem_block (ldm_mem l) o in
  store ← inst (ldm_store l) f;
  let o := no_add_instruction store o in
  load ← inst (ldm_load l) f;
  let o := no_add_instruction load o in
  foldM (register_mapping f) (st_dims_mapping l ++ ld_dims_mapping l) o.
End register.

(** * Theorems *)

(** The part of the lists that depends on the mappings registered. *)
Section facts.
Context {L : Type}.
Implicit Types (f : Function L) (o : NewObjs).

Lemma add_dim_mapping_lists x f o o' :
  no_add_dim_mapping x f o = Some o' →
  no_instructions o' = no_instructions o ∧ no_dimensions o' = no_dimensions o ∧
  no_static_dims o' = no_static_dims o ∧ no_statements o' = no_statements o ∧
  no_mem_blocks o' = no_mem_blocks o ∧ no_mem_insts o' = no_mem_insts o ∧
  no_iteration_dims o' = no_iteration_dims o ∧ no_thread_dims o' = no_thread_dims o ∧
  no_dim_mappings o' = no_dim_mappings o ++ [dmap_id x] ∧
  no_mapped_dims o' = no_mapped_dims o ++
    [(dmap_id x, (dmap_dims x).1); (dmap_id x, (dmap_dims x).2)].
Proof.
  unfold no_add_dim_mapping. cbn [foldM]. intros (o1 & H1 & (o2 & H2 & [= <-])%bind_Some)
    %bind_Some. unfold no_add_mapped_dim in *.
  apply bind_Some in H1 as (d1 & _ & [= <-]). apply bind_Some in H2 as (d2 & _ & [= <-]).
  simpl. rewrite !app_nil_r, <-!app_assoc. done.
Qed.

Lemma add_dimension_lists d o :
  no_instructions (no_add_dimension d o) = no_instructions o ∧
  no_dimensions (no_add_dimension d o) = no_dimensions o ++ [dim_id d] ∧
  no_static_dims (no_add_dimension d o) = no_static_dims o ++
    (if vs_is_empty (dim_possible_sizes d) then [] else [dim_id d]) ∧
  no_statements (no_add_dimension d o) = no_statements o ++ [SDim (dim_id d)] ∧
  no_mem_blocks (no_add_dimension d o) = no_mem_blocks o ∧
  no_mem_insts (no_add_dimension d o) = no_mem_insts o ∧
  no_iteration_dims (no_add_dimension d o) = no_iteration_dims o ∧
  no_thread_dims (no_add_dimension d o) = no_thread_dims o ++
    (if is_thread_dim d then [dim_id d] else []) ∧
  no_dim_mappings (no_add_dimension d o) = no_dim_mappings o ∧
  no_mapped_dims (no_add_dimension d o) = no_mapped_dims o.
Proof.
  unfold no_add_dimension, possible_sizes.
  destruct (is_thread_dim d), (vs_is_empty (dim_possible_sizes d)); simpl;
    rewrite ?app_nil_r; done.
Qed.

Definition new_dim_of (m : DimMappingId * (DimId * DimId)) : DimId := m.2.2.

(** In a well-formed function, the dimensions and mappings that are registered. *)
Lemma register_mappings_lists l f o o' :
  fn_wf f → foldM (register_mapping f) l o = Some o' →
  no_instructions o' = no_instructions o ∧ no_mem_blocks o' = no_mem_blocks o ∧
  no_mem_insts o' = no_mem_insts o ∧ no_iteration_dims o' = no_iteration_dims o ∧
  no_dimensions o' = no_dimensions o ++ (new_dim_of <$> l) ∧
  no_statements o' = no_statements o ++ (SDim ∘ new_dim_of <$> l) ∧
  no_dim_mappings o' = no_dim_mappings o ++ l.*1 ∧
  (∀ d, d ∈ no_static_dims o' ↔
     d ∈ no_static_dims o ∨ d ∈ static_dims (body f) ∧ d ∈ new_dim_of <$> l) ∧
  (∀ d, d ∈ no_thread_dims o' ↔
     d ∈ no_thread_dims o ∨ d ∈ thread_dims (body f) ∧ d ∈ new_dim_of <$> l).
Proof.
  intros [Hv _]. revert o. induction l as [|[m [od nd]] l IH]; intros o; cbn [foldM].
  - intros [= <-]. cbn. rewrite !app_nil_r. split_and!; try done;
      intros d; set_solver.
  - intros (o1 & H1 & H2)%bind_Some.
    apply bind_Some in H1 as (d & Hd & H1). apply bind_Some in H1 as (x & Hx & H1).
    apply add_dim_mapping_lists in H1 as (A1 & A2 & A3 & A4 & A5 & A6 & A7 & A8 & A9 & _).
    destruct (add_dimension_lists d o) as (B1 & B2 & B3 & B4 & B5 & B6 & B7 & B8 & B9 & _).
    destruct (IH _ H2) as (C1 & C2 & C3 & C4 & C5 & C6 & C7 & C8 & C9).
    destruct (vo_ids _ Hv) as (_ & I2 & I3 & _ & _).
    destruct (vo_lists _ Hv) as (_ & L1 & L2 & _). simpl in L1, L2.
    assert (dim_id d = nd) as Hdid.
    { apply (I2 nd (dim_sum d)). simpl. by rewrite Hd. }
    assert (dmap_id x = m) as Hxid.
    { apply (I3 m (map_sum x)). simpl. by rewrite Hx. }
    rewrite !fmap_cons. cbn [fst snd new_dim_of compose].
    split_and!; try congruence.
    + rewrite C5, A2, B2, Hdid, <-app_assoc. done.
    + rewrite C6, A4, B4, Hdid, <-app_assoc. done.
    + rewrite C7, A9, B9, Hxid, <-app_assoc. done.
    + intros e. rewrite C8, A3, B3, Hdid, elem_of_app, elem_of_cons.
      assert (nd ∈ static_dims (body f) ↔ vs_is_empty (dim_possible_sizes d) = false) as Hs.
      { rewrite L2. unfold view. cbn -[dim_sum]. rewrite Hd. cbn. split.
        - intros (y & [= <-] & Hy). cbn in Hy. by apply negb_true_iff.
        - intros Hy. eexists. split; [done|]. cbn. by rewrite Hy. }
      clear -Hs. destruct (vs_is_empty _); set_solver.
    + intros e. rewrite C9, A8, B8, Hdid, elem_of_app, elem_of_cons.
      assert (nd ∈ thread_dims (body f) ↔ is_thread_dim d = true) as Hs.
      { rewrite L1. unfold view. cbn -[dim_sum]. rewrite Hd. cbn. split.
        - by intros (y & [= <-] & Hy).
        - intros Hy. eexists. split; [done|]. done. }
      clear -Hs. destruct (is_thread_dim d); set_solver.
Qed.
End facts.

(** ** Properties *)

(** Registering a lowered dimension map from scratch lists the temporary block, the
    store and the load as instructions and as memory instructions with all their
    iteration dimensions, every activated dimension and mapping once and in order, and as
    static or thread dimensions exactly those that the function lists as such. *)
Theorem register_new_objs_complete {L : Type} (f : Function L) (l : LoweredDimMap)
    (o : NewObjs) :
  fn_wf f → ldm_store l ∈ mem_insts (body f) → ldm_load l ∈ mem_insts (body f) →
  register_new_objs l f new_objs_default = Some o →
  no_mem_blocks o = [ldm_mem l] ∧
  no_instructions o = [ldm_store l; ldm_load l] ∧
  no_mem_insts o = [ldm_store l; ldm_load l] ∧
  (∀ i d, (i, d) ∈ no_iteration_dims o ↔
     (i = ldm_store l ∨ i = ldm_load l) ∧ ∃ x, inst i f = Some x ∧ d ∈ iter_dims x) ∧
  no_dimensions o = store_dims l ++ load_dims l ∧
  no_dim_mappings o = lowered_mappings l ∧
  no_statements o = [SInst (ldm_store l); SInst (ldm_load l)] ++
    (SDim <$> lowered_dims l) ∧
  (∀ d, d ∈ no_static_dims o ↔ d ∈ static_dims (body f) ∧ d ∈ lowered_dims l) ∧
  (∀ d, d ∈ no_thread_dims o ↔ d ∈ thread_dims (body f) ∧ d ∈ lowered_dims l).
Proof.
  intros Hf Hst Hld. unfold register_new_objs. intros (st & H1 & H)%bind_Some.
  apply bind_Some in H as (ld & H2 & H).
  destruct (register_mappings_lists _ _ _ _ Hf H) as (C1 & C2 & C3 & C4 & C5 & C6 & C7 & C8 & C9).
  destruct Hf as [Hv _]. destruct (vo_ids _ Hv) as (I1 & _).
  destruct (vo_lists _ Hv) as (_ & _ & _ & L3). simpl in L3.
  assert (inst_id st = ldm_store l) as Hs.
  { apply (I1 _ (inst_sum st)). simpl. by rewrite H1. }
  assert (inst_id ld = ldm_load l) as Hl.
  { apply (I1 _ (inst_sum ld)). simpl. by rewrite H2. }
  assert (is_mem_access (inst_operator st) = true) as Hms.
  { apply L3 in Hst as (x & Hx & Hm). rewrite H1 in Hx. injection Hx as <-. done. }
  assert (is_mem_access (inst_operator ld) = true) as Hml.
  { apply L3 in Hld as (x & Hx & Hm). rewrite H2 in Hx. injection Hx as <-. done. }
  unfold no_add_instruction, as_mem_inst in *. rewrite Hms, Hml, Hs, Hl in *.
  simpl in C1, C2, C3, C4, C5, C6, C7, C8, C9.
  unfold lowered_mappings, lowered_dims, store_dims, load_dims.
  rewrite fmap_app in C5, C7.
  split_and!; try done.
  - intros i d. rewrite C4, app_nil_r, elem_of_app, !list_elem_of_fmap. split.
    + intros [(e & [= -> ->] & He%elem_of_elements)|(e & [= -> ->] & He%elem_of_elements)];
        (split; [by auto|eauto]).
    + intros [[->| ->] (x & Hx & Hd)].
      * left. exists d. rewrite elem_of_elements. split; [done|]. congruence.
      * right. exists d. rewrite elem_of_elements. split; [done|]. congruence.
  - rewrite C6. cbn [app]. do 2 f_equal. rewrite list_fmap_compose. f_equal.
    rewrite fmap_app. done.
  - intros d. rewrite C8, fmap_app. clear. set_solver.
  - intros d. rewrite C9, fmap_app. clear. set_solver.
Qed.

Lemma register_new_objs_complete_witness :
  ∃ f0 f low o, @freeze debug_profile example_4 = Some f0 ∧
    function_lower_dim_map 1 0 f0 = Some (ROk low, f) ∧
    register_new_objs low f new_objs_default = Some o ∧
    no_dimensions o = [3; 4]%nat ∧ no_mem_insts o = [2; 3]%nat.
Proof.
  destruct (@freeze debug_profile example_4) as [f0|] eqn:Ef; [|vm_compute in Ef; done].
  destruct (function_lower_dim_map 1 0 f0) as [[[low|[]] f]|] eqn:El;
    try (vm_compute in Ef; injection Ef as <-; vm_compute in El; discriminate El).
  destruct (register_new_objs low f new_objs_default) as [o|] eqn:Eo; cycle 1.
  { vm_compute in Ef; injection Ef as <-; vm_compute in El. injection El as <- <-.
    vm_compute in Eo. discriminate Eo. }
  assert (fn_wf f) as Hf.
  { eapply function_lower_dim_map_wf; [exact El|]. eapply freeze_wf; [exact Ef|].
    by eapply reachable_wf, example_reachable. }
  assert (ldm_store low ∈ mem_insts (body f) ∧ ldm_load low ∈ mem_insts (body f) ∧
    store_dims low ++ load_dims low = [3; 4]%nat ∧
    [ldm_store low; ldm_load low] = [2; 3]%nat) as (Hs & Hl & Hd & Hi).
  { vm_compute in Ef; injection Ef as <-; vm_compute in El. injection El as <- <-.
    cbn. split_and!; [set_solver|set_solver|reflexivity|reflexivity]. }
  destruct (register_new_objs_complete f low o Hf Hs Hl Eo) as (_ & _ & Hm & _ & Hdims & _).
  exists f0, f, low, o. split_and!; [done|done|done|by rewrite Hdims|by rewrite Hm].
Defined.
