(* ===== verification/Layouts.v ===== *)
(** * Layouts, addresses and productions

    What the decisions on dimensions do to the memory layouts (src/ir/mem.rs), the
    addresses generated for a lowered layout ([gen_index] of src/ir/function.rs), and the
    search of the instruction behind a variable (src/ir/variable.rs). *)
From S2P Require Import Prelude VecSet Types Size SparseVec Operands Objects.
From S2P Require Import Function FunctionFacts Building.

(** ** Layouts that become ready *)
Lemma block_not_merged_spec lhs rhs b :
  let '(b', lower) := block_not_merged lhs rhs b in
  maybe_mapped b' = filter (λ p, ¬ same_pair lhs rhs p) (maybe_mapped b) ∧
  block_mapped_dims b' = block_mapped_dims b ++ filter (same_pair lhs rhs) (maybe_mapped b) ∧
  block_sum b' = block_sum b ∧ base_size b' = base_size b ∧
  (lower = true ↔ maybe_mapped b ≠ [] ∧ maybe_mapped b' = []).
Proof.
  unfold block_not_merged, dm_drain_filter.
  rewrite (filter_list_iff _ (same_pair lhs rhs)); cycle 1.
  { intros [x y]. unfold same_pair. cbn [fst snd].
    rewrite orb_True, !andb_True, !Is_true_true, !Nat.eqb_eq.
    split; [intros [[-> ->]|[-> ->]]|intros [[= -> ->]|[= -> ->]]]; auto. }
  cbn -[filter Nat.ltb]. split_and!; try done.
  unfold block_is_ready, dm_is_empty. cbn [maybe_mapped].
  rewrite andb_true_iff, Nat.ltb_lt.
  destruct (maybe_mapped b) as [|p m]; [cbn; split; [lia|naive_solver]|].
  destruct (filter (λ p, ¬ same_pair lhs rhs p) (p :: m)) as [|q k] eqn:Ef; cycle 1.
  { split; [by intros [? ?]|by intros [? ?]]. }
  split; [done|]. intros _. split; [|done].
  destruct (decide (same_pair lhs rhs p)) as [Hp|Hp].
  - rewrite filter_cons_True by done. cbn. lia.
  - by rewrite filter_cons_True in Ef.
Qed.

Lemma block_merge_dims_spec lhs rhs b :
  let '(b', lower) := block_merge_dims lhs rhs b in
  maybe_mapped b' = filter (λ p, ¬ same_pair lhs rhs p) (maybe_mapped b) ∧
  block_mapped_dims b' = block_mapped_dims b ∧ block_sum b' = block_sum b ∧
  base_size b' = base_size b ∧
  (lower = true ↔ maybe_mapped b ≠ [] ∧ maybe_mapped b' = []).
Proof.
  unfold block_merge_dims.
  destruct (dm_merge_dims lhs rhs (maybe_mapped b)) as [m removed] eqn:Em.
  destruct (dm_merge_dims_eq lhs rhs (maybe_mapped b)) as [H1 H2].
  rewrite Em in H1, H2. cbn in H1, H2. cbn. split_and!; try done.
  unfold block_is_ready, dm_is_empty. cbn [maybe_mapped]. rewrite andb_true_iff, H2, H1.
  split.
  - intros [(p & Hp & _) Hr]. split; [by intros E; rewrite E in Hp; apply elem_of_nil in Hp|].
    by destruct (filter _ _).
  - intros [Hne Hnil]. rewrite Hnil. split; [|done]. clear Em H1 H2. revert Hne Hnil.
    destruct (maybe_mapped b) as [|p k]; [done|]. intros _ Hnil. exists p. split; [left|].
    destruct (decide (same_pair lhs rhs p)) as [|Hp]; [done|].
    exfalso. apply (not_elem_of_nil p). rewrite <-Hnil. apply list_elem_of_filter.
    split; [done|left].
Qed.

(** ** Strides *)

(** A size known to be [n]. *)
Definition const_size (n : Z) : PartialSize := mkPartialSize n [] [] [].

Lemma as_int_const s n : as_int s = Some n → s = const_size n.
Proof.
  unfold as_int. destruct s as [sf [|? ?] [|? ?] [|? ?]]; cbn; try done.
  by intros [= <-].
Qed.

Lemma psize_mul_const a b c :
  @psize_mul_assign debug_profile (const_size a) (const_size b) = Some c →
  c = const_size (a * b) ∧ (0 ≤ a * b < 2 ^ 32)%Z.
Proof.
  unfold psize_mul_assign. intros (f & Hf & Hs)%bind_Some. unfold umul in Hf.
  apply arith_checked in Hf as [<- Hr]. cbn -[Z.mul] in Hs. unfold simplify in Hs.
  cbn -[Z.mul] in Hs. by injection Hs as <-.
Qed.

(** The stride of each dimension: the product of the sizes that come before. *)
Fixpoint strides (c : Z) (ns : list Z) : list Z :=
  match ns with [] => [] | n :: ns => c :: strides (c * n) ns end.

Definition has_size {L : Type} (f : Function L) (d : DimId) (n : Z) : Prop :=
  ∃ x, dim d f = Some x ∧ as_int (dim_size x) = Some n.

Lemma scan_increments_static {L : Type} (f : Function L) ds ns c l :
  Forall2 (has_size f) ds ns →
  @scan_increments L debug_profile f (const_size c) ds = Some l →
  l = zip ds (const_size <$> strides c ns).
Proof.
  intros Hs. revert c l.
  induction Hs as [|d n ds ns (x & Hx & Hn) _ IH]; intros c l; cbn [scan_increments].
  - by intros [= <-].
  - rewrite Hx. cbn [mbind option_bind]. rewrite (as_int_const _ _ Hn).
    intros (s & (-> & _)%psize_mul_const & H)%bind_Some.
    apply bind_Some in H as (rest & Hr & [= <-]). apply IH in Hr as ->. done.
Qed.

(** The offset of the cell at index [idx], and the number its digits write. *)
Definition offset (incs : list (DimId * PartialSize)) (idx : DimId → Z) : Z :=
  foldr (λ p acc, (static_factor p.2 * idx p.1 + acc)%Z) 0%Z incs.

Fixpoint mixed_radix (ds : list DimId) (ns : list Z) (idx : DimId → Z) : Z :=
  match ds, ns with
  | d :: ds, n :: ns => (idx d + n * mixed_radix ds ns idx)%Z
  | _, _ => 0%Z
  end.

Lemma offset_mixed_radix ds ns c idx :
  length ds = length ns →
  offset (zip ds (const_size <$> strides c ns)) idx = (c * mixed_radix ds ns idx)%Z.
Proof.
  revert c ns. induction ds as [|d ds IH]; intros c [|n ns] Hl; try done; [cbn; lia|].
  injection Hl as Hl. cbn [strides mixed_radix]. rewrite fmap_cons. cbn [zip zip_with].
  unfold offset in *. cbn [foldr fst snd static_factor const_size].
  rewrite (IH (c * n)%Z ns Hl). lia.
Qed.

(** The index vector is within the sizes. *)
Definition in_bounds (ds : list DimId) (ns : list Z) (idx : DimId → Z) : Prop :=
  Forall2 (λ d n, 0 ≤ idx d < n)%Z ds ns.

Lemma mixed_radix_bound ds ns idx :
  in_bounds ds ns idx → (0 ≤ mixed_radix ds ns idx < zprod id ns)%Z.
Proof.
  unfold in_bounds.
  induction 1 as [|d n ds ns Hd _ IH]; cbn [mixed_radix]; [cbn; lia|].
  rewrite zprod_cons. unfold id at 1. nia.
Qed.

Lemma mixed_radix_inj ds ns idx idx' :
  in_bounds ds ns idx → in_bounds ds ns idx' →
  mixed_radix ds ns idx = mixed_radix ds ns idx' → ∀ d, d ∈ ds → idx d = idx' d.
Proof.
  unfold in_bounds. intros H1. induction H1 as [|d n ds ns Hd H1 IH]; intros H2 Heq e He.
  - by apply elem_of_nil in He.
  - inversion H2 as [|? ? ? ? Hd' H2']; subst. cbn [mixed_radix] in Heq.
    pose proof (mixed_radix_bound _ _ _ H1) as B1.
    pose proof (mixed_radix_bound _ _ _ H2') as B2.
    assert (idx d = idx' d ∧ mixed_radix ds ns idx = mixed_radix ds ns idx') as [Hh Ht].
    { assert (mixed_radix ds ns idx = mixed_radix ds ns idx') by nia. split; [nia|done]. }
    apply elem_of_cons in He as [->|He]; [done|]. by apply IH.
Qed.

Lemma first_duplicate_None seen ds :
  first_duplicate seen ds = None → NoDup ds ∧ ∀ d, d ∈ ds → d ∉ seen.
Proof.
  revert seen. induction ds as [|d ds IH]; intros seen; cbn [first_duplicate].
  - intros _. split; [constructor|]. by intros ? ?%elem_of_nil.
  - destruct (bool_decide_reflect (d ∈ seen)) as [|Hd]; [done|].
    intros [H1 H2]%IH. split.
    + constructor; [|done]. intros Hin. specialize (H2 d Hin). set_solver.
    + intros e [->|He]%elem_of_cons; [done|]. specialize (H2 e He). set_solver.
Qed.

(** ** Production of a variable *)

(** Variables are defined from earlier variables and from existing mappings. *)
Definition def_before {L : Type} (f : Function L) (n : nat) (d : VarDef) : Prop :=
  match d with
  | VInst _ => True
  | VLast prev _ => (prev < n)%nat ∧ is_Some (variable prev f)
  | VDimMap prev ms =>
      (prev < n)%nat ∧ is_Some (variable prev f) ∧
      ∀ m, m ∈ ms → is_Some (dim_mapping m f)
  end.

Definition defs_ok {L : Type} (f : Function L) : Prop :=
  ∀ v x, variable v f = Some x → def_before f v (var_def x).

Section production.
Context {L : Type}.
Implicit Types f : Function L.

Lemma foldM_mapping_total f ms (m : gmap DimId DimId) :
  (∀ i, i ∈ ms → is_Some (dim_mapping i f)) →
  is_Some (foldM (λ (m : gmap DimId DimId) id,
    d ← dim_mapping id f; Some (<[(dmap_dims d).1 := (dmap_dims d).2]> m)) ms m).
Proof.
  revert m. induction ms as [|i ms IH]; intros m Hm; cbn [foldM]; [eauto|].
  destruct (Hm i) as [x Hx]; [left|]. rewrite Hx. cbn [mbind option_bind].
  apply IH. intros j Hj. apply Hm. by right.
Qed.

Lemma production_inst_total n f d fuel :
  defs_ok f → def_before f n d → (n < fuel)%nat → is_Some (production_inst fuel f d).
Proof.
  intros Hok. revert n d. induction fuel as [|fuel IH]; intros n d Hd Hf; [lia|].
  destruct d as [i|prev ms|prev ds]; cbn [production_inst].
  - eauto.
  - destruct Hd as (Hlt & [x Hx] & Hms). rewrite Hx. cbn [mbind option_bind].
    destruct (IH prev (var_def x)) as [[i m] Hp]; [by apply Hok|lia|]. rewrite Hp.
    cbn [mbind option_bind]. destruct (foldM_mapping_total f ms m Hms) as [m' Hm'].
    rewrite Hm'. cbn. eauto.
  - destruct Hd as (Hlt & [x Hx]). rewrite Hx. cbn [mbind option_bind].
    destruct (IH prev (var_def x)) as [[i m] Hp]; [by apply Hok|lia|]. rewrite Hp.
    cbn. eauto.
Qed.

Lemma production_inst_mono fuel f d r :
  production_inst fuel f d = Some r → ∀ k, production_inst (k + fuel) f d = Some r.
Proof.
  intros H k. revert d r H. induction fuel as [|fuel IH]; intros d r; [done|].
  rewrite Nat.add_succ_r. destruct d as [i|prev ms|prev ds]; cbn [production_inst]; [done|..].
  - intros (x & Hx & H)%bind_Some. rewrite Hx. cbn [mbind option_bind].
    apply bind_Some in H as ([i m] & Hp & H). by rewrite (IH _ _ Hp).
  - intros (x & Hx & H)%bind_Some. rewrite Hx. cbn [mbind option_bind].
    apply bind_Some in H as ([i m] & Hp & H). by rewrite (IH _ _ Hp).
Qed.

Lemma mapping_table_Some f ids m :
  mapping_table f ids = Some m → ∀ i, i ∈ ids → is_Some (dim_mapping i f).
Proof.
  unfold mapping_table. generalize (∅ : gmap DimId DimId).
  induction ids as [|i ids IH]; intros m0; cbn [foldM]; [by intros _ ? ?%elem_of_nil|].
  intros (m1 & (x & Hx & _)%bind_Some & H)%bind_Some j [->|Hj]%elem_of_cons; [eauto|].
  by eapply IH.
Qed.

Lemma def_before_same f (g : Function L) n d :
  def_before f n d → (∀ v, is_Some (variable v f) → is_Some (variable v g)) →
  (∀ m, is_Some (dim_mapping m f) → is_Some (dim_mapping m g)) → def_before g n d.
Proof.
  intros Hd Hv Hm. destruct d; simpl in *; [done| |].
  - destruct Hd as (? & ? & ?). split_and!; auto.
  - destruct Hd as (? & ?). split; auto.
Qed.

Lemma variable_new_defined id d f v :
  variable_new id d f = Some v →
  var_def v = d ∧ match d with
                  | VInst _ => True
                  | VLast prev _ => is_Some (variable prev f)
                  | VDimMap prev ms => is_Some (variable prev f) ∧
                      ∀ m, m ∈ ms → is_Some (dim_mapping m f)
                  end.
Proof.
  unfold variable_new. intros (t & Ht & H)%bind_Some. apply bind_Some in H as (ps & _ & H).
  apply bind_Some in H as (ds & Hds & [= <-]). split; [done|].
  destruct d as [i|prev ms|prev dl]; simpl in *; [done| |].
  - apply bind_Some in Ht as (x & Hx & _). split; [eauto|].
    apply bind_Some in Hds as (m & Hm & _). by eapply mapping_table_Some.
  - apply bind_Some in Ht as (x & Hx & _). eauto.
Qed.
End production.

(** ** Properties *)

(** Deciding that two dimensions are not merged moves exactly the pairs they form,
    in either order, from a block's undecided map to its mapped dimensions, and merging
    them drops these pairs; the block is reported for lowering exactly when this makes
    its undecided map empty. *)
Theorem layouts_reported_when_ready (lhs rhs : DimId) (b : Block) :
  let '(b1, l1) := block_not_merged lhs rhs b in
  let '(b2, l2) := block_merge_dims lhs rhs b in
  maybe_mapped b1 = filter (λ p, ¬ same_pair lhs rhs p) (maybe_mapped b) ∧
  block_mapped_dims b1
    = block_mapped_dims b ++ filter (same_pair lhs rhs) (maybe_mapped b) ∧
  maybe_mapped b2 = maybe_mapped b1 ∧ block_mapped_dims b2 = block_mapped_dims b ∧
  l1 = l2 ∧ (l1 = true ↔ maybe_mapped b ≠ [] ∧ maybe_mapped b1 = []).
Proof.
  pose proof (block_not_merged_spec lhs rhs b) as H1.
  pose proof (block_merge_dims_spec lhs rhs b) as H2.
  destruct (block_not_merged lhs rhs b) as [b1 l1], (block_merge_dims lhs rhs b) as [b2 l2].
  destruct H1 as (A1 & A2 & _ & _ & A3), H2 as (B1 & B2 & _ & _ & B3).
  split_and!; try done; [congruence|]. rewrite B1, <-A1 in B3.
  apply Bool.eq_true_iff_eq. by rewrite A3, B3.
Qed.

(** C39: the address generated for a block whose dimensions have known sizes is row
    major: the last dimension has the base size as its stride, the index vectors within
    the sizes get pairwise distinct offsets, multiples of the base size and below the
    base size times the product of the sizes. *)
Theorem internal_index_row_major {L : Type} (f f' : Function L) (mem : MemId)
    (b : Block) (ds : list DimId) (ns : list Z) (addr : Operand L) (pat : AccessPattern) :
  mem_block mem f = Some b → Forall2 (has_size f) ds ns →
  @gen_internal_index L debug_profile mem ds f = Some ((addr, pat), f') →
  ∃ incs,
    induction_vars (body f') = induction_vars (body f) ++ [mkInductionVar incs (OAddr mem)] ∧
    NoDup ds ∧ incs.*1 = rev ds ∧
    incs = zip (rev ds) (const_size <$> strides (base_size b) (rev ns)) ∧
    ∀ idx, in_bounds ds ns idx →
      (∃ q, offset incs idx = base_size b * q ∧ 0 ≤ q < zprod id ns)%Z ∧
      ∀ idx', in_bounds ds ns idx' → (base_size b ≠ 0)%Z →
        offset incs idx = offset incs idx' → ∀ d, d ∈ ds → idx d = idx' d.
Proof.
  intros Hb Hns. unfold gen_internal_index, gen_index. rewrite Hb.
  cbn [mbind option_bind]. unfold psize_new, rassert.
  destruct (Z.eqb_spec (base_size b) 0) as [|Hb0]; [done|]. cbn [negb mbind option_bind].
  intros (incs & Hincs & H)%bind_Some. apply bind_Some in H as ([iv|] & Hiv & H); [|done].
  cbn in H. injection H as <- <- <-.
  apply Forall2_rev in Hns as Hrev.
  apply (scan_increments_static _ _ (rev ns)) in Hincs; [|done].
  pose proof (Forall2_length _ _ _ Hrev) as Hlen.
  assert (length (strides (base_size b) (rev ns)) = length (rev ns)) as Hls.
  { clear. generalize (base_size b). induction (rev ns); intros c; cbn; [done|]. by f_equal. }
  assert (incs.*1 = rev ds) as Hfst.
  { rewrite Hincs. apply fst_zip. rewrite length_fmap, Hls. lia. }
  unfold induction_var_new in Hiv. cbn [operand_t check_integer is_integer] in Hiv.
  cbn [error_of_type_error obind] in Hiv. rewrite Hfst in Hiv.
  destruct (first_duplicate ∅ (rev ds)) eqn:Ed; [done|]. injection Hiv as <-.
  apply first_duplicate_None in Ed as [Hnd _].
  exists incs. split; [done|]. split; [by rewrite <-(Permutation_rev ds) in Hnd|].
  split; [done|]. split; [done|].
  intros idx Hidx. apply Forall2_rev in Hidx. fold (in_bounds (rev ds) (rev ns) idx) in Hidx.
  rewrite Hincs, offset_mixed_radix by done. split.
  - eexists. split; [done|]. pose proof (mixed_radix_bound _ _ _ Hidx) as Hq.
    by rewrite (zprod_perm id _ _ (Permutation_rev ns)).
  - intros idx' Hidx' _ Heq d Hd. apply Forall2_rev in Hidx'.
    rewrite offset_mixed_radix in Heq by done.
    apply (mixed_radix_inj (rev ds) (rev ns)); [done|done|nia|].
    by rewrite <-(Permutation_rev ds).
Qed.

(** A function with two dimensions of the static sizes 3 and 5 and a block of 4 bytes. *)
Definition example_static : Function unit :=
  let f := example_0 in
  let d0 := mkDimension 0 (const_size 3) [3%Z] [] false None [] [] [] true in
  let d1 := mkDimension 1 (const_size 5) [5%Z] [] false None [] [] [] true in
  let b := set_dims (mkSparseVec [Some d0; Some d1] 2) (body f) in
  let m := mkBlockMap (mkSparseVec [Some (mkBlock 0 [] 4 [] [])] 1) ∅ in
  with_body (set_mem_blocks m b) f.

Lemma internal_index_row_major_witness :
  ∃ addr pat f' incs,
    @gen_internal_index unit debug_profile 0 [0; 1]%nat example_static
      = Some ((addr, pat), f') ∧
    incs = [(1, const_size 4); (0, const_size 20)]%nat ∧
    induction_vars (body f') = [mkInductionVar incs (OAddr 0)].
Proof.
  destruct (@gen_internal_index unit debug_profile 0 [0; 1]%nat example_static)
    as [[[addr pat] f']|] eqn:E; [|vm_compute in E; discriminate E].
  destruct (internal_index_row_major example_static f' 0
    (mkBlock 0 [] 4 [] []) [0; 1]%nat [3; 5]%Z addr pat) as (incs & H1 & _ & _ & H2 & _).
  - reflexivity.
  - constructor; [eexists; split; reflexivity|].
    constructor; [eexists; split; reflexivity|constructor].
  - exact E.
  - exists addr, pat, f', incs. split; [done|]. split; [exact H2|]. exact H1.
Defined.

(** The search for the instruction behind a variable terminates: in a function whose
    variables are defined from older ones, following the definition of variable [v]
    takes at most [v + 1] steps and never fails, whatever larger fuel it is given; and
    [add_variable] only creates such definitions. *)
Theorem production_inst_terminates {L : Type} (f : Function L) :
  defs_ok f →
  (∀ v x fuel, variable v f = Some x → (v < fuel)%nat →
     ∃ r, production_inst (S v) f (var_def x) = Some r ∧
          production_inst fuel f (var_def x) = Some r) ∧
  ∀ d r f', fn_wf f → add_variable d f = Some (r, f') → fits f' → defs_ok f'.
Proof.
  intros Hok. split.
  - intros v x fuel Hx Hf.
    destruct (production_inst_total v f (var_def x) (S v) Hok) as [r Hr];
      [by apply Hok|lia|].
    exists r. split; [done|]. replace fuel with ((fuel - S v) + S v)%nat by lia.
    by apply production_inst_mono.
  - intros d r f' Hwf Hadd Hfit.
    unfold add_variable in Hadd. apply bind_Some in Hadd as ([v|e] & Hc & H);
      [|by injection H as <- <-].
    apply bind_Some in H as (f1 & Hreg & H).
    apply bind_Some in H as (vs & Hp & [= <- <-]).
    destruct (variable_register_same _ _ _ Hreg) as (Hve & _ & Hvs).
    assert (∀ m, is_Some (dim_mapping m f) → is_Some (dim_mapping m f1)) as Hm.
    { intros m. pose proof (ve_map _ _ Hve m) as E. cbn in E.
      destruct (dim_mapping m f), (dim_mapping m f1); cbn in E; try done; eauto. }
    unfold create_variable in Hc. apply obind_ok in Hc as (u & _ & Hc).
    apply bind_Some in Hc as (v' & Hn & [= ->]).
    apply variable_new_defined in Hn as [Hd Hprev].
    destruct Hwf as [_ [_ _ _ Hw _ _]].
    destruct (sv_push_shape _ _ _ Hp) as (Hl & _). rewrite Hvs in Hp, Hl.
    set (n := sv_len (variables (body f))) in *.
    assert (∀ k, variable k (with_body (set_variables vs (body f1)) f1) =
      if decide (k = n) then Some v else variable k f) as Hget.
    { intros k. unfold variable. cbn. rewrite (sv_push_get _ _ _ _ Hp). done. }
    assert (∀ k, is_Some (variable k f) → (k < n)%nat) as Hlt.
    { intros k [x Hx]. by eapply sv_get_lt. }
    assert (∀ k, is_Some (variable k f) →
      is_Some (variable k (with_body (set_variables vs (body f1)) f1))) as Hkeep.
    { intros k Hk. rewrite Hget. case_decide; eauto. }
    intros k x. rewrite Hget. case_decide as E.
    + intros [= <-]. subst k. rewrite Hd. destruct d as [i|prev ms|prev ds]; cbn; [done|..].
      * destruct Hprev as [H1 H2].
        split_and!; [by apply Hlt|by apply Hkeep|intros m Hmi; apply Hm, H2, Hmi].
      * split; [by apply Hlt|by apply Hkeep].
    + intros Hx. eapply def_before_same; [by apply Hok|done|]. exact Hm.
Qed.

Lemma production_inst_terminates_witness :
  ∃ f', add_variable (VInst 0) example_4 = Some (ROk 0%nat, f') ∧ defs_ok f'.
Proof.
  destruct (add_variable (VInst 0) example_4) as [[r f']|] eqn:E;
    [|vm_compute in E; discriminate E].
  assert (r = ROk 0%nat ∧ fits f') as [-> Hfit].
  { vm_compute in E. injection E as <- <-. split; [reflexivity|compute_fits]. }
  exists f'. split; [done|].
  eapply (production_inst_terminates example_4).
  - intros v x Hx. unfold variable in Hx. vm_compute in Hx. destruct v; discriminate Hx.
  - by eapply reachable_wf, example_reachable.
  - exact E.
  - exact Hfit.
Defined.
