(* ===== verification/Dag.v ===== *)
(** * Directed acyclic graphs from partial orders (telamon-utils/src/dag.rs)

    [from_order] compares every pair of nodes, sorts them so that lesser nodes come
    first, drops the duplicates and keeps, for each node, its immediate predecessors.
    The sets of node ids are hash sets in the code; they are listed here in the order of
    [elements]. *)
From S2P Require Import Prelude.

Record Dag (T : Type) := mkDag {
  dag_nodes : list T;
  dag_before : list (list nat);
  dag_after : list (list nat)
}.
Arguments mkDag {T} _ _ _.
Arguments dag_nodes {T} _.
Arguments dag_before {T} _.
Arguments dag_after {T} _.

Section from_order.
Context {T : Type}.

(** The tables that the first loop fills. *)
Definition order_tables : Type := list (gset nat) * list bool.

(** [lesser_than[j].insert(i)]. *)
Definition lesser_insert (j i : nat) (tables : order_tables) : option order_tables :=
  let '(lesser_than, is_duplicate) := tables in
  s ← lesser_than !! j; Some (<[j := {[i]} ∪ s]> lesser_than, is_duplicate).

Definition set_duplicate (i : nat) (tables : order_tables) : option order_tables :=
  let '(lesser_than, is_duplicate) := tables in
  _ ← is_duplicate !! i; Some (lesser_than, <[i := true]> is_duplicate).

Definition compare_pair (cmp : T → T → option comparison) (i : nat) (lhs : T)
    (tables : order_tables) (j : nat) (rhs : T) : option order_tables :=
  match cmp lhs rhs with
  | Some Lt => lesser_insert j i tables
  | Some Eq => set_duplicate (Nat.max i j) tables
  | Some Gt => lesser_insert i j tables
  | None => Some tables
  end.

Definition compare_nodes (cmp : T → T → option comparison) (nodes : list T)
  : option order_tables :=
  foldM (λ tables '(i, lhs),
      foldM (λ tables '(j, rhs), compare_pair cmp i lhs tables j rhs)
        (enumerate (take i nodes)) tables)
    (enumerate nodes)
    ((λ _, ∅) <$> nodes, (λ _, false) <$> nodes).

(** [sort_by_key] is stable: on [0..n], which is increasing, it sorts by the key and then
    by the id. *)
Definition key_le (lesser_than : list (gset nat)) (i j : nat) : Prop :=
  let key i := size (default ∅ (lesser_than !! i)) in
  key i < key j ∨ (key i = key j ∧ i ≤ j).

#[global] Instance key_le_dec lesser_than i j : Decision (key_le lesser_than i j).
Proof. unfold key_le. apply _. Defined.

Definition node_permutation (n : nat) (tables : order_tables) : list nat :=
  let '(lesser_than, is_duplicate) := tables in
  filter (λ i, is_duplicate !! i = Some false)
    (merge_sort (key_le lesser_than) (seq 0 n)).

Definition inverse_permutation (n : nat) (permutation : list nat) : option (list nat) :=
  foldM (λ inv '(new_pos, old_pos),
      _ ← inv !! old_pos; Some (<[old_pos := new_pos]> inv))
    (enumerate permutation) (replicate n n).

(** The [unsafe] block: each node moves to its new position or is dropped.  A position
    of [new_nodes] that is not written yet is [None], and reading the result needs all
    of them. *)
Definition move_nodes (nodes : list T) (inv_permutation permutation : list nat)
  : option (list T) :=
  new_nodes ← foldM (λ new_nodes '(old_pos, new_pos),
      if new_pos =? length inv_permutation then Some new_nodes
      else node ← nodes !! old_pos;
           _ ← new_nodes !! new_pos;
           Some (<[new_pos := Some node]> new_nodes))
    (enumerate inv_permutation) (replicate (length permutation) None);
  mapM id new_nodes.

(** The lesser nodes that are not below another lesser node. *)
Definition minimize (lesser_than : list (gset nat)) (inv_permutation : list nat)
    (old_pos : nat) : option (list nat) :=
  lesser ← lesser_than !! old_pos;
  sets ← mapM (λ other_lesser, lesser_than !! other_lesser) (elements lesser);
  let kept := filter (λ l, existsb (λ s : gset nat, bool_decide (l ∈ s)) sets = false) (elements lesser) in
  renamed ← mapM (λ old_lesser, inv_permutation !! old_lesser) kept;
  Some (filter (λ l, l ≠ length inv_permutation) renamed).

(** [after[before_id].push(after_id)]. *)
Definition push_after (after : list (list nat)) (before_id after_id : nat)
  : option (list (list nat)) :=
  l ← after !! before_id; Some (<[before_id := l ++ [after_id]]> after).

Definition inverse_before (n : nat) (before : list (list nat)) : option (list (list nat)) :=
  rassert (n <=? length before);;
  foldM (λ after '(after_id, before_ids),
      foldM (λ after before_id, push_after after before_id after_id) before_ids after)
    (enumerate (take n before)) (replicate n []).

Definition from_order (cmp : T → T → option comparison) (nodes : list T) : option (Dag T) :=
  tables ← compare_nodes cmp nodes;
  let lesser_than := fst tables in
  let permutation := node_permutation (length nodes) tables in
  inv_permutation ← inverse_permutation (length nodes) permutation;
  new_nodes ← move_nodes nodes inv_permutation permutation;
  before ← mapM (minimize lesser_than inv_permutation) permutation;
  after ← inverse_before (length new_nodes) before;
  Some (mkDag new_nodes before after).

(** ** Queries *)
Definition dag_before_of (d : Dag T) (id : nat) : option (list nat) := dag_before d !! id.
Definition dag_after_of (d : Dag T) (id : nat) : option (list nat) := dag_after d !! id.

Definition dag_minima (d : Dag T) : list nat :=
  fst <$> filter (λ '(_, x), x = []) (enumerate (dag_before d)).

Record search := mkSearch { visited : list bool; stack : list nat; preds : list nat }.

Definition visit (s : search) (before : nat) : option search :=
  v ← visited s !! before;
  if v : bool then Some s
  else Some (mkSearch (<[before := true]> (visited s)) (stack s ++ [before]) (preds s ++ [before])).

Fixpoint predecessors_loop (fuel : nat) (d : Dag T) (s : search) : option (list nat) :=
  match fuel with
  | 0 => None
  | S fuel =>
    match last (stack s) with
    | None => Some (preds s)
    | Some id =>
      before ← dag_before_of d id;
      s ← foldM visit before
            (mkSearch (visited s) (take (pred (length (stack s))) (stack s)) (preds s));
      predecessors_loop fuel d s
    end
  end.

(** Each node is pushed once: [id + 2] turns are enough. *)
Definition dag_predecessors (d : Dag T) (id : nat) : option (list nat) :=
  predecessors_loop (id + 2) d (mkSearch (replicate id false) [id] []).
End from_order.

(** Divisibility, with 3 given twice. *)
Definition div_cmp (a b : nat) : option comparison :=
  if a =? b then Some Eq
  else if b mod a =? 0 then Some Lt else if a mod b =? 0 then Some Gt else None.

Example dag_example :
  from_order div_cmp [6; 3; 12; 2; 3; 5] =
  Some (mkDag [3; 2; 5; 6; 12] [[]; []; []; [1; 0]; [3]] [[3]; [3]; []; [4]; []]).
Proof. vm_compute. reflexivity. Qed.

Example dag_predecessors_example :
  (d ← from_order div_cmp [6; 3; 12; 2; 3; 5]; dag_predecessors d 4) = Some [3; 1; 0].
Proof. vm_compute. reflexivity. Qed.

(** ** Orders *)
Record order_laws {T : Type} (cmp : T → T → option comparison) : Prop := {
  ol_flip x y : cmp y x = CompOpp <$> cmp x y;
  ol_trans x y z : cmp x y = Some Lt → cmp y z = Some Lt → cmp x z = Some Lt;
  ol_eq x y z : cmp x y = Some Eq → cmp x z = cmp y z
}.

Section theorems.
Context {T : Type} (cmp : T → T → option comparison) (laws : order_laws cmp).
Context (nodes : list T).

(** The comparison of the nodes of two ids. *)
Definition id_cmp (i j : nat) : option comparison :=
  x ← nodes !! i; y ← nodes !! j; cmp x y.

Lemma id_cmp_flip i j : id_cmp j i = CompOpp <$> id_cmp i j.
Proof.
  unfold id_cmp. destruct (nodes !! i), (nodes !! j); cbn; try done. apply (ol_flip _ laws).
Qed.

Lemma id_cmp_gt i j : id_cmp i j = Some Gt ↔ id_cmp j i = Some Lt.
Proof. rewrite (id_cmp_flip i j). destruct (id_cmp i j) as [[]|]; cbn; split; congruence. Qed.

Lemma id_cmp_irrefl i : id_cmp i i ≠ Some Lt.
Proof. intros H. pose proof (id_cmp_flip i i) as E. rewrite H in E. done. Qed.

Lemma id_cmp_trans i j k : id_cmp i j = Some Lt → id_cmp j k = Some Lt → id_cmp i k = Some Lt.
Proof.
  unfold id_cmp. destruct (nodes !! i), (nodes !! j), (nodes !! k); cbn; try done.
  apply (ol_trans _ laws).
Qed.

Lemma id_cmp_eq i j k : id_cmp i j = Some Eq → id_cmp i k = id_cmp j k.
Proof.
  unfold id_cmp. destruct (nodes !! i), (nodes !! j); cbn; try done. intros E.
  destruct (nodes !! k); cbn; [|done]. by apply (ol_eq _ laws).
Qed.

Lemma id_cmp_bounds i j c : id_cmp i j = Some c → i < length nodes ∧ j < length nodes.
Proof.
  unfold id_cmp. intros (x & Hx%lookup_lt_Some & (y & Hy%lookup_lt_Some & _)%bind_Some)%bind_Some.
  done.
Qed.

(** *** The tables *)

(** What the tables hold once the pairs of [D], a symmetric relation, are compared. *)
Definition tables_after (D : nat → nat → Prop) (tables : order_tables) : Prop :=
  length (fst tables) = length nodes ∧ length (snd tables) = length nodes ∧
  (∀ j s, fst tables !! j = Some s → ∀ i, i ∈ s ↔ D i j ∧ id_cmp i j = Some Lt) ∧
  (∀ i b, snd tables !! i = Some b → b = true ↔ ∃ j, j < i ∧ D i j ∧ id_cmp i j = Some Eq).

Definition with_pair (a b : nat) (D : nat → nat → Prop) (i j : nat) : Prop :=
  D i j ∨ (i = a ∧ j = b) ∨ (i = b ∧ j = a).

Lemma tables_after_ext D D' tables :
  (∀ i j, D i j ↔ D' i j) → tables_after D tables → tables_after D' tables.
Proof.
  intros HD (H1 & H2 & H3 & H4). split_and!; [done|done| |].
  - intros j s Hs i. by rewrite (H3 j s Hs), HD.
  - intros i b Hb. rewrite (H4 i b Hb). by setoid_rewrite HD.
Qed.

Lemma lesser_insert_spec D tables a b :
  tables_after D tables → id_cmp a b = Some Lt →
  ∃ tables', lesser_insert b a tables = Some tables' ∧
    tables_after (with_pair a b D) tables'.
Proof.
  destruct tables as [lesser dups]. intros (H1 & H2 & H3 & H4) Hlt. cbn [fst snd] in *.
  assert (id_cmp b a = Some Gt) as Hgt by (by apply id_cmp_gt).
  destruct (id_cmp_bounds _ _ _ Hlt) as [Ha Hb]. rewrite <-H1 in Hb.
  destruct (lookup_lt_is_Some_2 _ _ Hb) as [s Hs]. unfold lesser_insert. rewrite Hs.
  cbn [mbind option_bind]. eexists. split; [done|]. unfold with_pair.
  split_and!; cbn [fst snd]; [by rewrite length_insert|done| |].
  - intros j s' Hs' i. destruct (decide (j = b)) as [->|Hne].
    + rewrite list_lookup_insert_eq in Hs' by done. injection Hs' as <-.
      rewrite elem_of_union, elem_of_singleton, (H3 b s Hs). split.
      * intros [->|[? ?]]; tauto.
      * intros [[?|[[-> _]|[-> ->]]] ?]; tauto.
    + rewrite list_lookup_insert_ne in Hs' by done. rewrite (H3 j s' Hs' i).
      split; [tauto|]. intros [[?|[[-> ->]|[-> ->]]] Hc]; [done|done|]. congruence.
  - intros i c Hc. rewrite (H4 i c Hc). split; [intros (k & ? & ? & ?); eauto|].
    intros (k & Hk & [?|[[-> ->]|[-> ->]]] & Heq); [eauto|congruence..].
Qed.

Lemma set_duplicate_spec D tables a b :
  tables_after D tables → id_cmp a b = Some Eq → b < a →
  ∃ tables', set_duplicate (Nat.max a b) tables = Some tables' ∧
    tables_after (with_pair a b D) tables'.
Proof.
  destruct tables as [lesser dups]. intros (H1 & H2 & H3 & H4) Heq Hba. cbn [fst snd] in *.
  assert (id_cmp b a = Some Eq) as Heq' by (by rewrite id_cmp_flip, Heq).
  destruct (id_cmp_bounds _ _ _ Heq) as [Ha _]. rewrite <-H2 in Ha.
  rewrite Nat.max_l by lia. destruct (lookup_lt_is_Some_2 _ _ Ha) as [c Hc].
  unfold set_duplicate. rewrite Hc. cbn [mbind option_bind]. eexists. split; [done|].
  unfold with_pair. split_and!; cbn [fst snd]; [done|by rewrite length_insert| |].
  - intros j s Hs i. rewrite (H3 j s Hs i). split; [tauto|].
    intros [[?|[[-> ->]|[-> ->]]] Hlt]; [done|congruence..].
  - intros i c' Hc'. destruct (decide (i = a)) as [->|Hne].
    + rewrite list_lookup_insert_eq in Hc' by done. injection Hc' as <-. split; [|done].
      intros _. exists b. tauto.
    + rewrite list_lookup_insert_ne in Hc' by done. rewrite (H4 i c' Hc').
      split; [intros (k & ? & ? & ?); eauto|].
      intros (k & Hk & [?|[[-> ->]|[-> ->]]] & Hk'); [eauto|done|lia].
Qed.

Lemma compare_pair_spec D tables i j x y :
  tables_after D tables → nodes !! i = Some x → nodes !! j = Some y → j < i →
  ∃ tables', compare_pair cmp i x tables j y = Some tables' ∧
    tables_after (with_pair i j D) tables'.
Proof.
  intros Ht Hx Hy Hji. assert (cmp x y = id_cmp i j) as E.
  { unfold id_cmp. by rewrite Hx, Hy. }
  unfold compare_pair. rewrite E. destruct (id_cmp i j) as [[]|] eqn:Ec.
  - by apply set_duplicate_spec.
  - by apply lesser_insert_spec.
  - apply id_cmp_gt in Ec. destruct (lesser_insert_spec _ _ _ _ Ht Ec) as (t' & Ht' & H).
    exists t'. split; [done|]. eapply tables_after_ext; [|done]. unfold with_pair. tauto.
  - exists tables. split; [done|]. destruct Ht as (H1 & H2 & H3 & H4).
    assert (id_cmp j i = None) as Ec' by (by rewrite id_cmp_flip, Ec). unfold with_pair.
    split_and!; [done|done| |].
    + intros b s Hs a. rewrite (H3 b s Hs a). split; [tauto|].
      intros [[?|[[-> ->]|[-> ->]]] Hlt]; [done|congruence..].
    + intros a c Hc. rewrite (H4 a c Hc). split; [intros (k & ? & ? & ?); eauto|].
      intros (k & Hk & [?|[[-> ->]|[-> ->]]] & Hk'); [eauto|congruence..].
Qed.

(** The pairs of ids below [i], and those of [i] with the ids below [j]. *)
Definition compared (i j a b : nat) : Prop :=
  a ≠ b ∧ ((a < i ∧ b < i) ∨ (a = i ∧ b < j) ∨ (b = i ∧ a < j)).

Lemma compare_nodes_spec :
  ∃ tables, compare_nodes cmp nodes = Some tables ∧
    tables_after (λ a b, a ≠ b ∧ a < length nodes ∧ b < length nodes) tables.
Proof.
  unfold compare_nodes.
  destruct (foldM_enumerate_inv (λ i tables, tables_after (compared i 0) tables)
    (λ tables '(i, lhs), foldM (λ tables '(j, rhs), compare_pair cmp i lhs tables j rhs)
        (enumerate (take i nodes)) tables) nodes
    ((λ _, ∅) <$> nodes, (λ _, false) <$> nodes)) as (tables & -> & Ht).
  - split_and!; cbn [fst snd]; [apply length_fmap|apply length_fmap| |]; unfold compared.
    + intros j s Hs i. rewrite list_lookup_fmap in Hs.
      destruct (nodes !! j); [|done]. injection Hs as <-. split; [by intros ?%not_elem_of_empty|lia].
    + intros i b Hb. rewrite list_lookup_fmap in Hb.
      destruct (nodes !! i); [|done]. injection Hb as <-. split; [done|].
      intros (j & ? & ? & _). lia.
  - intros i x tables Hx Ht. pose proof (lookup_lt_Some _ _ _ Hx) as Hi.
    assert (length (take i nodes) = i) as Hlen by (rewrite length_take; lia).
    destruct (foldM_enumerate_inv (λ j tables, tables_after (compared i j) tables)
      (λ tables '(j, rhs), compare_pair cmp i x tables j rhs) (take i nodes) tables)
      as (tables' & -> & Ht').
    + done.
    + intros j y t Hy Hj. apply lookup_take_Some in Hy as [Hy Hji].
      destruct (compare_pair_spec _ _ _ _ _ _ Hj Hx Hy Hji) as (t' & -> & Ht').
      exists t'. split; [done|]. eapply tables_after_ext; [|done].
      intros a b. unfold with_pair, compared. lia.
    + exists tables'. split; [done|]. rewrite Hlen in Ht'. eapply tables_after_ext; [|done].
      intros a b. unfold compared. lia.
  - exists tables. split; [done|]. eapply tables_after_ext; [|done].
    intros a b. unfold compared. lia.
Qed.

(** *** The permutation *)
Definition complete (tables : order_tables) : Prop :=
  length (fst tables) = length nodes ∧ length (snd tables) = length nodes ∧
  (∀ j s, fst tables !! j = Some s → ∀ i, i ∈ s ↔ id_cmp i j = Some Lt) ∧
  (∀ i b, snd tables !! i = Some b → b = true ↔ ∃ j, j < i ∧ id_cmp i j = Some Eq).

Lemma compare_nodes_complete : ∃ tables, compare_nodes cmp nodes = Some tables ∧ complete tables.
Proof.
  destruct compare_nodes_spec as (tables & Hc & H1 & H2 & H3 & H4). exists tables.
  split; [done|]. unfold complete. split_and!; [done|done| |].
  - intros j s Hs i. rewrite (H3 j s Hs i). split; [by intros []|]. intros Hlt.
    destruct (id_cmp_bounds _ _ _ Hlt). split_and!; [|done..]. intros ->.
    by apply id_cmp_irrefl in Hlt.
  - intros i b Hb. rewrite (H4 i b Hb). split; [intros (j & ? & ? & ?); eauto|].
    intros (j & Hj & Heq). pose proof (id_cmp_bounds _ _ _ Heq). exists j.
    split_and!; try done; lia.
Qed.

Context (tables : order_tables) (Ht : complete tables).
Let perm := node_permutation (length nodes) tables.

Lemma perm_elem i : i ∈ perm ↔ i < length nodes ∧ ∀ j, j < i → id_cmp i j ≠ Some Eq.
Proof.
  unfold perm, node_permutation. destruct tables as [lesser dups] eqn:Et.
  destruct Ht as (_ & Hl & _ & Hd). cbn [fst snd] in *.
  rewrite list_elem_of_filter, merge_sort_Permutation, elem_of_seq. split.
  - intros [Hi Hlt]. split; [lia|]. intros j Hj Heq.
    enough (false = true) by done. apply (Hd i false Hi). by exists j.
  - intros [Hi Hne]. split; [|lia]. rewrite <-Hl in Hi.
    destruct (lookup_lt_is_Some_2 _ _ Hi) as [b Hb]. rewrite Hb. f_equal.
    destruct b; [|done]. destruct (proj1 (Hd i true Hb) eq_refl) as (j & Hj & Heq).
    by destruct (Hne j Hj).
Qed.

Lemma perm_NoDup : NoDup perm.
Proof.
  unfold perm, node_permutation. destruct tables as [lesser dups].
  apply NoDup_filter. rewrite merge_sort_Permutation. apply NoDup_seq.
Qed.

Lemma perm_inj a b i : perm !! a = Some i → perm !! b = Some i → a = b.
Proof. intros Ha Hb. by eapply NoDup_lookup; [apply perm_NoDup| |]. Qed.

(** A lesser node has fewer lesser nodes. *)
Lemma lesser_size i j s t :
  id_cmp i j = Some Lt → fst tables !! i = Some s → fst tables !! j = Some t → size s < size t.
Proof.
  intros Hlt Hs Hj. destruct Ht as (_ & _ & Hl & _). apply subset_size. split.
  - intros k Hk%(Hl i s Hs). apply (Hl j t Hj). by eapply id_cmp_trans.
  - intros Hsub. assert (i ∈ s) as Hi by (apply Hsub, (Hl j t Hj), Hlt).
    apply (Hl i s Hs) in Hi. by apply id_cmp_irrefl in Hi.
Qed.

#[local] Instance key_le_total lesser : Total (key_le lesser).
Proof. intros i j. unfold key_le. lia. Qed.

#[local] Instance key_le_transitive lesser : Transitive (key_le lesser).
Proof. intros i j k. unfold key_le. lia. Qed.

(** Lesser nodes come first. *)
Lemma perm_topological a b i j :
  perm !! a = Some i → perm !! b = Some j → id_cmp i j = Some Lt → a < b.
Proof.
  intros Ha Hb Hlt. destruct (Nat.lt_trichotomy a b) as [?|[->|Hba]]; [done| |].
  { rewrite Ha in Hb. injection Hb as ->. by apply id_cmp_irrefl in Hlt. }
  exfalso. assert (key_le (fst tables) j i) as Hkey.
  { revert Ha Hb. unfold perm, node_permutation. clear -Hba. destruct tables as [lesser dups].
    intros Ha Hb. eapply StronglySorted_lookup; [|exact Hb|exact Ha|done].
    apply StronglySorted_filter, StronglySorted_merge_sort; apply _. }
  destruct (id_cmp_bounds _ _ _ Hlt) as [Hi Hj]. destruct Ht as (Hlen & _).
  rewrite <-Hlen in Hi, Hj. destruct (lookup_lt_is_Some_2 _ _ Hi) as [s Hs].
  destruct (lookup_lt_is_Some_2 _ _ Hj) as [t Htj].
  pose proof (lesser_size _ _ _ _ Hlt Hs Htj). unfold key_le in Hkey.
  rewrite Hs, Htj in Hkey. cbn in Hkey. lia.
Qed.

(** Every id has a representative that is kept. *)
Lemma representative i :
  i < length nodes → ∃ r, r ∈ perm ∧ (r = i ∨ id_cmp r i = Some Eq).
Proof.
  induction (lt_wf i) as [i _ IH]. intros Hi.
  destruct (decide (Exists (λ j, id_cmp i j = Some Eq) (seq 0 i))) as [Hex|Hno].
  - apply Exists_exists in Hex as (j & Hj%elem_of_seq & Heq).
    destruct (IH j) as (r & Hr & Hrj); [lia|lia|]. exists r. split; [done|]. right.
    destruct Hrj as [->|Hrj]; [by rewrite id_cmp_flip, Heq|].
    rewrite (id_cmp_eq _ _ _ Hrj), id_cmp_flip, Heq. done.
  - exists i. split; [|by left]. apply perm_elem. split; [done|]. intros j Hj Heq.
    apply Hno, Exists_exists. exists j. split; [apply elem_of_seq; lia|done].
Qed.

(** *** The inverse permutation and the moves *)
Lemma inverse_spec :
  ∃ inv, inverse_permutation (length nodes) perm = Some inv ∧ length inv = length nodes ∧
    ∀ i, i < length nodes →
      ∃ a, inv !! i = Some a ∧
        (a = length nodes ∧ i ∉ perm ∨ perm !! a = Some i).
Proof.
  unfold inverse_permutation.
  destruct (foldM_enumerate_inv (λ k inv, length inv = length nodes ∧
      ∀ i, i < length nodes → ∃ a, inv !! i = Some a ∧
        (a = length nodes ∧ (∀ b, b < k → perm !! b ≠ Some i) ∨ perm !! a = Some i))
    (λ inv '(new_pos, old_pos), _ ← inv !! old_pos; Some (<[old_pos := new_pos]> inv))
    perm (replicate (length nodes) (length nodes))) as (inv & -> & Hl & Hinv).
  - split; [apply length_replicate|]. intros i Hi. exists (length nodes).
    split; [by apply lookup_replicate_2|]. left. split; [done|lia].
  - intros k old inv Hk [Hl Hinv].
    assert (old < length nodes) as Hold.
    { apply list_elem_of_lookup_2, perm_elem in Hk. apply Hk. }
    pose proof Hold as Hold'. rewrite <-Hl in Hold'.
    destruct (lookup_lt_is_Some_2 _ _ Hold') as [x Hx]. rewrite Hx. cbn [mbind option_bind].
    eexists. split; [done|]. split; [by rewrite length_insert|]. intros i Hi.
    destruct (decide (i = old)) as [->|Hne].
    + exists k. split; [by apply list_lookup_insert_eq|]. by right.
    + destruct (Hinv i Hi) as (a & Ha & Hspec). exists a.
      rewrite list_lookup_insert_ne by done. split; [done|].
      destruct Hspec as [[-> Hb]|Hp]; [left|by right]. split; [done|]. intros b Hb'.
      destruct (decide (b = k)) as [->|]; [rewrite Hk; congruence|apply Hb; lia].
  - exists inv. split_and!; [done|done|]. intros i Hi. destruct (Hinv i Hi) as (a & Ha & Hspec).
    exists a. split; [done|]. destruct Hspec as [[-> Hb]|Hp]; [left|by right]. split; [done|].
    intros [b Hin]%list_elem_of_lookup. destruct (Hb b); [|done]. by eapply lookup_lt_Some.
Qed.

Lemma length_perm_le : length perm ≤ length nodes.
Proof.
  rewrite <-(length_seq (length nodes) 0). apply submseteq_length, NoDup_submseteq.
  - apply perm_NoDup.
  - intros i [Hi _]%perm_elem. apply elem_of_seq. lia.
Qed.

Lemma collect_moved (p : list nat) (nn : list (option T)) :
  length nn = length p → (∀ i, i ∈ p → is_Some (nodes !! i)) →
  (∀ a i, p !! a = Some i → nn !! a = Some (nodes !! i)) →
  ∃ l, mapM id nn = Some l ∧ length l = length p ∧
    ∀ a i, p !! a = Some i → l !! a = nodes !! i.
Proof.
  revert nn. induction p as [|i p IH]; intros [|o nn] Hl Hsome Hnn; try done.
  { by exists []. }
  destruct (Hsome i) as [x Hx]; [left|].
  destruct (IH nn) as (l & Hm & Hll & Hlk);
    [by injection Hl|intros j Hj; apply Hsome; by right|intros a; apply (Hnn (S a))|].
  specialize (Hnn 0 i eq_refl). injection Hnn as ->. exists (x :: l). cbn.
  rewrite Hx. cbn. rewrite Hm. cbn. rewrite Hll. split_and!; [done|done|].
  intros [|a] j; cbn; [by intros [= <-]|apply Hlk].
Qed.

Lemma move_nodes_spec inv :
  inverse_permutation (length nodes) perm = Some inv →
  ∃ new_nodes, move_nodes nodes inv perm = Some new_nodes ∧
    length new_nodes = length perm ∧
    ∀ a i, perm !! a = Some i → new_nodes !! a = nodes !! i.
Proof.
  intros Hi. destruct inverse_spec as (inv' & Hi' & Hl & Hinv). rewrite Hi in Hi'.
  injection Hi' as <-. clear Hi. unfold move_nodes.
  destruct (foldM_enumerate_inv (λ k (nn : list (option T)), length nn = length perm ∧
      ∀ a i, perm !! a = Some i → nn !! a = Some (if decide (i < k) then nodes !! i else None))
    (λ new_nodes '(old_pos, new_pos),
      if new_pos =? length inv then Some new_nodes
      else node ← nodes !! old_pos;
           _ ← new_nodes !! new_pos;
           Some (<[new_pos := Some node]> new_nodes)) inv (replicate (length perm) None))
    as (nn & -> & Hln & Hnn).
  - split; [apply length_replicate|]. intros a i Ha. apply lookup_replicate_2.
    by eapply lookup_lt_Some.
  - intros k new nn Hk [Hln Hnn].
    assert (k < length nodes) as Hkn by (rewrite <-Hl; by eapply lookup_lt_Some).
    destruct (Hinv k Hkn) as (a & Ha & Hspec). rewrite Hk in Ha. injection Ha as <-.
    assert (new < length perm → perm !! new = Some k) as Hnew.
    { destruct Hspec as [[-> _]|?]; [|done]. pose proof length_perm_le. lia. }
    rewrite Hl. destruct (Nat.eqb_spec new (length nodes)) as [->|Hne].
    + exists nn. split; [done|]. split; [done|]. intros a i Ha. rewrite (Hnn a i Ha). f_equal.
      destruct Hspec as [[_ Hout]|Hp]; [|apply lookup_lt_Some in Hp; pose proof length_perm_le; lia].
      assert (i ≠ k) by (intros ->; by apply Hout; eapply list_elem_of_lookup_2).
      by repeat case_decide; try lia.
    + destruct Hspec as [[-> _]|Hp]; [done|]. destruct (lookup_lt_is_Some_2 _ _ Hkn) as [x Hx].
      rewrite Hx, (Hnn _ _ Hp). cbn [mbind option_bind]. eexists. split; [done|].
      split; [by rewrite length_insert|]. intros a i Ha.
      destruct (decide (a = new)) as [->|Hna].
      * rewrite Hp in Ha. injection Ha as <-. rewrite list_lookup_insert_eq
          by (rewrite Hln; by eapply lookup_lt_Some). by rewrite decide_True, Hx by lia.
      * rewrite list_lookup_insert_ne, (Hnn _ _ Ha) by done. f_equal.
        assert (i ≠ k) by (intros ->; by apply Hna, (perm_inj a new k)).
        by repeat case_decide; try lia.
  - cbn [mbind option_bind]. apply collect_moved; [done| |].
    + intros i [Hi _]%perm_elem. by apply lookup_lt_is_Some_2.
    + intros a i Ha. rewrite (Hnn _ _ Ha), decide_True; [done|].
      rewrite Hl. by apply list_elem_of_lookup_2, perm_elem in Ha as [? _].
Qed.

(** *** The immediate predecessors *)
Lemma minimize_spec inv a old :
  inverse_permutation (length nodes) perm = Some inv → perm !! a = Some old →
  ∃ l, minimize (fst tables) inv old = Some l ∧
    ∀ b, b ∈ l ↔ ∃ i, perm !! b = Some i ∧ id_cmp i old = Some Lt ∧
      ¬ ∃ o, id_cmp i o = Some Lt ∧ id_cmp o old = Some Lt.
Proof.
  intros Hinv Ha. destruct inverse_spec as (inv' & Hi & Hl & Hspec). rewrite Hinv in Hi.
  injection Hi as <-. clear Hinv. destruct Ht as (Hlt & _ & Hlesser & _).
  assert (∀ i, i < length nodes → fst tables !! i = Some (default ∅ (fst tables !! i))) as Hget.
  { intros i Hi. rewrite <-Hlt in Hi. destruct (lookup_lt_is_Some_2 _ _ Hi) as [s ->]. done. }
  assert (old < length nodes) as Hold by (by apply list_elem_of_lookup_2, perm_elem in Ha as [? _]).
  unfold minimize. destruct (fst tables !! old) as [lesser|] eqn:Eold;
    [|by rewrite (Hget _ Hold) in Eold]. cbn [mbind option_bind].
  assert (∀ i, i ∈ elements lesser → i < length nodes) as Hb.
  { intros i Hi%elem_of_elements%(Hlesser _ _ Eold). by apply id_cmp_bounds in Hi as [? _]. }
  rewrite (mapM_total _ (λ i, default ∅ (fst tables !! i))) by (intros i Hi; by apply Hget, Hb).
  cbn [mbind option_bind]. set (kept := filter _ (elements lesser)).
  assert (∀ i, i ∈ kept ↔ id_cmp i old = Some Lt ∧
    ¬ ∃ o, id_cmp i o = Some Lt ∧ id_cmp o old = Some Lt) as Hkept.
  { intros i. unfold kept. rewrite list_elem_of_filter, elem_of_elements, (Hlesser _ _ Eold).
    rewrite (Logic.and_comm _ (id_cmp i old = Some Lt)). apply and_iff_compat_l.
    rewrite <-not_true_iff_false, existsb_exists. apply not_iff_compat. split.
    - intros (s & Hs & Hin%bool_decide_eq_true). rewrite <-list_elem_of_In in Hs.
      apply list_elem_of_fmap in Hs as (o & -> & Ho). pose proof (Hget _ (Hb _ Ho)) as Hs.
      exists o. split; [by apply (Hlesser _ _ Hs)|]. by apply (Hlesser _ _ Eold), elem_of_elements.
    - intros (o & Hio & Ho). assert (o ∈ elements lesser) as Hin.
      { by apply elem_of_elements, (Hlesser _ _ Eold). }
      exists (default ∅ (fst tables !! o)). rewrite <-list_elem_of_In, bool_decide_eq_true.
      split; [apply list_elem_of_fmap; by exists o|].
      by apply (Hlesser _ _ (Hget _ (Hb _ Hin))). }
  clearbody kept.
  rewrite (mapM_total _ (λ i, default 0 (inv !! i))); cycle 1.
  { intros i Hi%Hkept. destruct Hi as [Hi%id_cmp_bounds _].
    destruct (Hspec i (proj1 Hi)) as (x & -> & _). done. }
  cbn [mbind option_bind]. eexists. split; [done|]. intros b.
  rewrite list_elem_of_filter, list_elem_of_fmap, Hl. split.
  - intros (Hne & i & -> & Hi). exists i. split; [|by apply Hkept].
    pose proof (proj1 (Hkept i) Hi) as [Hib%id_cmp_bounds _].
    destruct (Hspec i (proj1 Hib)) as (x & Hx & [[-> _]|Hp]); rewrite Hx in *; [done|done].
  - intros (i & Hbi & Hi). apply Hkept in Hi as Hik.
    destruct Hi as [Hib%id_cmp_bounds _].
    destruct (Hspec i (proj1 Hib)) as (x & Hx & [[-> Hout]|Hp]).
    { destruct Hout. by eapply list_elem_of_lookup_2. }
    pose proof (perm_inj _ _ _ Hbi Hp) as ->. split.
    + apply lookup_lt_Some in Hp. pose proof length_perm_le. lia.
    + exists i. by rewrite Hx.
Qed.
End theorems.

(** *** The successors *)
Lemma push_all_spec (ids : list nat) (after_id : nat) (after : list (list nat)) :
  Forall (λ b, b < length after) ids →
  ∃ after', foldM (λ after b, push_after after b after_id) ids after = Some after' ∧
    length after' = length after ∧
    ∀ i l', after' !! i = Some l' → ∃ l, after !! i = Some l ∧
      ∀ j, j ∈ l' ↔ j ∈ l ∨ (j = after_id ∧ i ∈ ids).
Proof.
  revert after. induction ids as [|b ids IH]; intros after Hb.
  { exists after. split_and!; [done|done|]. intros i l Hl. exists l. split; [done|].
    intros j. rewrite elem_of_nil. tauto. }
  apply Forall_cons in Hb as [Hb Hids]. cbn [foldM].
  destruct (lookup_lt_is_Some_2 _ _ Hb) as [l Hl].
  assert (push_after after b after_id = Some (<[b := l ++ [after_id]]> after)) as ->.
  { unfold push_after. by rewrite Hl. }
  cbn [mbind option_bind].
  destruct (IH (<[b := l ++ [after_id]]> after)) as (after' & -> & Hlen & Hspec).
  { by rewrite length_insert. }
  exists after'. rewrite length_insert in Hlen. split_and!; [done|done|]. intros i l' Hl'.
  destruct (Hspec i l' Hl') as (l1 & Hl1 & H1). destruct (decide (i = b)) as [->|Hne].
  - rewrite list_lookup_insert_eq in Hl1 by done. injection Hl1 as <-. exists l.
    split; [done|]. intros j. rewrite H1, elem_of_app, list_elem_of_singleton, elem_of_cons.
    tauto.
  - rewrite list_lookup_insert_ne in Hl1 by done. exists l1. split; [done|]. intros j.
    rewrite H1, elem_of_cons. tauto.
Qed.

Lemma inverse_before_spec (n : nat) (before : list (list nat)) :
  length before = n → Forall (Forall (λ i, i < n)) before →
  ∃ after, inverse_before n before = Some after ∧ length after = n ∧
    ∀ i l, after !! i = Some l → ∀ j, j ∈ l ↔ ∃ bl, before !! j = Some bl ∧ i ∈ bl.
Proof.
  intros Hn Hb. unfold inverse_before, rassert. rewrite Hn, Nat.leb_refl, take_ge by lia.
  cbn [mbind option_bind].
  destruct (foldM_enumerate_inv (λ k after, length after = n ∧
      ∀ i l, after !! i = Some l → ∀ j, j ∈ l ↔ j < k ∧ ∃ bl, before !! j = Some bl ∧ i ∈ bl)
    (λ after '(after_id, before_ids),
      foldM (λ after before_id, push_after after before_id after_id) before_ids after)
    before (replicate n [])) as (after & -> & Hlen & Ha).
  - split; [apply length_replicate|]. intros i l [-> _]%lookup_replicate j.
    rewrite elem_of_nil. lia.
  - intros k bl after Hk [Hlen Ha]. rewrite Forall_lookup in Hb. pose proof (Hb _ _ Hk) as Hbl.
    rewrite <-Hlen in Hbl. destruct (push_all_spec bl k after Hbl) as (after' & -> & Hl' & Hp).
    exists after'. split; [done|]. split; [congruence|]. intros i l' Hi j.
    destruct (Hp i l' Hi) as (l & Hl & Hj). rewrite Hj, (Ha i l Hl). split.
    + intros [[? ?]|[-> ?]]; [split; [lia|done]|]. split; [lia|]. by exists bl.
    + intros [Hjk (bl' & Hbl' & Hin)]. destruct (decide (j = k)) as [->|Hne]; [|left; split; [lia|eauto]].
      right. rewrite Hk in Hbl'. injection Hbl' as <-. done.
  - exists after. split_and!; [done|done|]. intros i l Hl j. rewrite (Ha i l Hl).
    split; [by intros []|]. intros (bl & Hj & Hi). split; [by eapply lookup_lt_Some|eauto].
Qed.

(** ** The graph is the transitive reduction of the order *)
Section hasse.
Context {T : Type} (cmp : T → T → option comparison) (laws : order_laws cmp).

(** [a] is below [b]; [a] is an immediate predecessor of [b]. *)
Definition below (nodes : list T) (a b : nat) : Prop := id_cmp cmp nodes a b = Some Lt.

Definition covers (nodes : list T) (a b : nat) : Prop :=
  below nodes a b ∧ ¬ ∃ c, below nodes a c ∧ below nodes c b.

Definition is_hasse_diagram (nodes : list T) (d : Dag T) : Prop :=
  (∀ x, x ∈ dag_nodes d → x ∈ nodes) ∧
  (∀ x, x ∈ nodes → ∃ y, y ∈ dag_nodes d ∧ (y = x ∨ cmp y x = Some Eq)) ∧
  (∀ a b, a ≠ b → id_cmp cmp (dag_nodes d) a b ≠ Some Eq) ∧
  length (dag_before d) = length (dag_nodes d) ∧
  length (dag_after d) = length (dag_nodes d) ∧
  (∀ a b, below (dag_nodes d) a b → a < b) ∧
  (∀ b l, dag_before d !! b = Some l → ∀ a, a ∈ l ↔ covers (dag_nodes d) a b) ∧
  (∀ a l, dag_after d !! a = Some l → ∀ b, b ∈ l ↔ covers (dag_nodes d) a b).

#[global] Instance below_dec nodes a b : Decision (below nodes a b).
Proof. unfold below. apply _. Defined.

(** The comparison of the moved nodes is that of the ids they come from. *)
Lemma moved_id_cmp nodes new_nodes perm a b :
  length new_nodes = length perm →
  (∀ a i, perm !! a = Some i → new_nodes !! a = nodes !! i) →
  id_cmp cmp new_nodes a b = (i ← perm !! a; j ← perm !! b; id_cmp cmp nodes i j).
Proof.
  intros Hl Hm. assert (∀ a, new_nodes !! a = (i ← perm !! a; nodes !! i)) as Hlk.
  { intros c. destruct (perm !! c) as [i|] eqn:E; [by apply Hm|].
    apply lookup_ge_None. rewrite Hl. by apply lookup_ge_None. }
  unfold id_cmp. rewrite !Hlk. destruct (perm !! a) as [i|]; [|done]. cbn.
  destruct (perm !! b) as [j|]; cbn; [done|by destruct (nodes !! i)].
Qed.

Lemma moved_below nodes new_nodes perm a b :
  length new_nodes = length perm →
  (∀ a i, perm !! a = Some i → new_nodes !! a = nodes !! i) →
  below new_nodes a b ↔
  ∃ i j, perm !! a = Some i ∧ perm !! b = Some j ∧ id_cmp cmp nodes i j = Some Lt.
Proof.
  intros Hl Hm. unfold below. rewrite (moved_id_cmp nodes _ perm) by done. split.
  - intros (i & Hi & (j & Hj & Hlt)%bind_Some)%bind_Some. by exists i, j.
  - intros (i & j & -> & -> & Hlt). done.
Qed.

(** Being immediate among all the nodes, or among those that are kept. *)
Lemma moved_covers nodes tables new_nodes a b j :
  complete cmp nodes tables →
  let perm := node_permutation (length nodes) tables in
  length new_nodes = length perm →
  (∀ a i, perm !! a = Some i → new_nodes !! a = nodes !! i) →
  perm !! b = Some j →
  (∃ i, perm !! a = Some i ∧ id_cmp cmp nodes i j = Some Lt ∧
    ¬ ∃ o, id_cmp cmp nodes i o = Some Lt ∧ id_cmp cmp nodes o j = Some Lt)
  ↔ covers new_nodes a b.
Proof.
  intros Hc perm Hl Hm Hb. unfold covers.
  rewrite (moved_below nodes _ perm a b) by done. split.
  - intros (i & Hi & Hlt & Hno). split; [by exists i, j|].
    intros (c & H1 & H2). apply (moved_below nodes _ perm) in H1, H2; [|done..].
    destruct H1 as (i1 & o & Hi1 & Ho & Hlt1), H2 as (o2 & j2 & Ho2 & Hj2 & Hlt2).
    simplify_option_eq. apply Hno. by exists o.
  - intros [(i & j' & Hi & Hj & Hlt) Hno]. simplify_option_eq. exists i.
    split_and!; [done|done|]. intros (o & H1 & H2). apply Hno.
    destruct (id_cmp_bounds _ _ _ _ _ H1) as [_ Ho].
    destruct (representative cmp laws nodes tables Hc o Ho) as (r & [c Hr]%list_elem_of_lookup & Heq).
    assert (id_cmp cmp nodes i r = Some Lt ∧ id_cmp cmp nodes r j = Some Lt) as [H3 H4].
    { destruct Heq as [->|Heq]; [done|]. pose proof (id_cmp_eq _ laws _ _ _ j Heq) as Hj'.
      pose proof (id_cmp_eq _ laws _ _ _ i Heq) as Hi'. split; [|congruence].
      rewrite id_cmp_flip, Hi', <-id_cmp_flip by done. done. }
    exists c. rewrite !(moved_below nodes _ perm) by done. split; eauto.
Qed.
End hasse.

(** The lists that the code computes, and the new ids they hold. *)
Lemma before_spec {T : Type} (cmp : T → T → option comparison) (laws : order_laws cmp)
    nodes tables inv nn :
  complete cmp nodes tables →
  let perm := node_permutation (length nodes) tables in
  inverse_permutation (length nodes) perm = Some inv →
  length nn = length perm →
  (∀ a i, perm !! a = Some i → nn !! a = nodes !! i) →
  ∃ before, mapM (minimize (fst tables) inv) perm = Some before ∧
    length before = length nn ∧
    ∀ b l, before !! b = Some l → ∀ a, a ∈ l ↔ covers cmp nn a b.
Proof.
  intros Hc perm Hinv Hln Hm.
  assert (∃ before, mapM (minimize (fst tables) inv) perm = Some before) as [before Hb].
  { apply mapM_is_Some_2. apply Forall_forall. intros j [b Hj]%list_elem_of_lookup.
    destruct (minimize_spec cmp nodes tables Hc inv b j Hinv Hj) as (l & Hl & _).
    by exists l. }
  exists before. split; [done|]. apply mapM_Some in Hb.
  split; [by rewrite <-(Forall2_length _ _ _ Hb)|]. intros b l Hl a.
  destruct (Forall2_lookup_r _ _ _ _ _ Hb Hl) as (j & Hj & Hmin).
  destruct (minimize_spec cmp nodes tables Hc inv b j Hinv Hj) as (l' & Hl' & Hspec).
  rewrite Hmin in Hl'. injection Hl' as <-. rewrite Hspec.
  by apply (moved_covers cmp laws nodes tables nn a b j Hc).
Qed.

Lemma kept_nodes {T : Type} (cmp : T → T → option comparison) (laws : order_laws cmp)
    nodes tables nn :
  complete cmp nodes tables →
  let perm := node_permutation (length nodes) tables in
  length nn = length perm →
  (∀ a i, perm !! a = Some i → nn !! a = nodes !! i) →
  (∀ x, x ∈ nn → x ∈ nodes) ∧
  (∀ x, x ∈ nodes → ∃ y, y ∈ nn ∧ (y = x ∨ cmp y x = Some Eq)) ∧
  (∀ a b, a ≠ b → id_cmp cmp nn a b ≠ Some Eq) ∧
  (∀ a b, below cmp nn a b → a < b).
Proof.
  intros Hc perm Hl Hm. split_and!.
  - intros x [a Ha]%list_elem_of_lookup. pose proof (lookup_lt_Some _ _ _ Ha) as Hlt.
    rewrite Hl in Hlt. destruct (lookup_lt_is_Some_2 _ _ Hlt) as [i Hi].
    rewrite (Hm _ _ Hi) in Ha. by eapply list_elem_of_lookup_2.
  - intros x [i Hi]%list_elem_of_lookup. pose proof (lookup_lt_Some _ _ _ Hi) as Hlt.
    destruct (representative cmp laws nodes tables Hc i Hlt) as (r & Hr & Heq).
    pose proof Hr as [Hrn _]%(perm_elem cmp nodes tables Hc).
    destruct (lookup_lt_is_Some_2 _ _ Hrn) as [y Hy].
    apply list_elem_of_lookup in Hr as [a Ha]. exists y. split.
    + apply (list_elem_of_lookup_2 _ a). by rewrite (Hm _ _ Ha).
    + destruct Heq as [->|Heq]; [left; congruence|right].
      unfold id_cmp in Heq. by rewrite Hy, Hi in Heq.
  - intros a b Hab. rewrite (moved_id_cmp cmp nodes nn perm) by done.
    destruct (perm !! a) as [i|] eqn:Ha; [|done]. destruct (perm !! b) as [j|] eqn:Hb; [|done].
    cbn. intros Heq. pose proof (list_elem_of_lookup_2 _ _ _ Ha) as [_ Hi]%(perm_elem cmp nodes tables Hc).
    pose proof (list_elem_of_lookup_2 _ _ _ Hb) as [_ Hj]%(perm_elem cmp nodes tables Hc).
    destruct (Nat.lt_trichotomy i j) as [Hij|[->|Hij]].
    + apply (Hj i Hij). by rewrite id_cmp_flip, Heq.
    + apply Hab. by eapply (perm_inj cmp nodes tables).
    + by apply (Hi j Hij).
  - intros a b (i & j & Ha & Hb & Hlt)%(moved_below cmp nodes nn perm); [|done..].
    by eapply (perm_topological cmp laws nodes tables).
Qed.

Lemma from_order_spec {T : Type} (cmp : T → T → option comparison) (laws : order_laws cmp)
    (nodes : list T) :
  ∃ d, from_order cmp nodes = Some d ∧ is_hasse_diagram cmp nodes d.
Proof.
  destruct (compare_nodes_complete cmp laws nodes) as (tables & Htab & Hc).
  set (perm := node_permutation (length nodes) tables).
  destruct (inverse_spec cmp nodes tables Hc) as (inv & Hinv & _ & _).
  destruct (move_nodes_spec cmp nodes tables Hc inv Hinv) as (nn & Hnn & Hln & Hm).
  destruct (before_spec cmp laws nodes tables inv nn Hc Hinv Hln Hm) as (before & Hb & Hlb & Hbs).
  destruct (kept_nodes cmp laws nodes tables nn Hc Hln Hm) as (H1 & H2 & H3 & H4).
  destruct (inverse_before_spec (length nn) before Hlb) as (after & Ha & Hla & Has).
  { apply Forall_lookup. intros b l Hl. apply Forall_forall.
    intros a Hin%(Hbs b l Hl). destruct Hin as [Hin%id_cmp_bounds _]. apply Hin. }
  exists (mkDag nn before after). unfold from_order. rewrite Htab. cbn [mbind option_bind].
  rewrite Hinv. cbn [mbind option_bind]. rewrite Hnn. cbn [mbind option_bind].
  rewrite Hb. cbn [mbind option_bind]. rewrite Ha. cbn [mbind option_bind].
  split; [done|]. unfold is_hasse_diagram. cbn [dag_nodes dag_before dag_after].
  split_and!; try done. intros a l Hl b. rewrite (Has a l Hl b). split.
  - intros (bl & Hbl & Hin). by apply (Hbs b bl Hbl).
  - intros Hcov. pose proof Hcov as [Hlt%id_cmp_bounds _]. rewrite <-Hlb in Hlt.
    destruct (lookup_lt_is_Some_2 _ _ (proj2 Hlt)) as [bl Hbl]. exists bl.
    split; [done|]. by apply (Hbs b bl Hbl).
Qed.

(** C26: For any order that satisfies the laws of [PartialOrd], [from_order] succeeds and
    gives the transitive reduction of the order on the nodes without duplicates: each
    node given is kept or has an equal node that is, lesser nodes have lesser ids,
    [before] lists exactly the immediate predecessors of a node and [after] exactly its
    immediate successors. *)
Theorem from_order_hasse_diagram {T : Type} (cmp : T → T → option comparison) (nodes : list T) :
  order_laws cmp → ∃ d, from_order cmp nodes = Some d ∧ is_hasse_diagram cmp nodes d.
Proof. intros laws. by apply from_order_spec. Qed.

(** Divisibility on the positive integers is an order. *)
Definition divides_cmp (a b : nat) : option comparison := div_cmp (S a) (S b).

Lemma divides_cmp_laws : order_laws divides_cmp.
Proof.
  assert (∀ a b, divides_cmp a b = Some Eq → a = b) as Heq.
  { intros a b. unfold divides_cmp, div_cmp. destruct (Nat.eqb_spec (S a) (S b)); [lia|].
    by repeat case_match. }
  assert (∀ a b, divides_cmp a b = Some Lt ↔ a ≠ b ∧ Nat.divide (S a) (S b)) as Hlt.
  { intros a b. unfold divides_cmp, div_cmp. rewrite <-Nat.Lcm0.mod_divide.
    destruct (Nat.eqb_spec (S a) (S b)); [split; [done|lia]|].
    destruct (Nat.eqb_spec (S b mod S a) 0); [split; [lia|done]|].
    split; [by repeat case_match|]. intros [_ ?]. done. }
  split.
  - intros x y. unfold divides_cmp, div_cmp. rewrite (Nat.eqb_sym (S y)).
    destruct (Nat.eqb_spec (S x) (S y)) as [|Hne]; [done|].
    destruct (Nat.eqb_spec (S x mod S y) 0) as [H1|], (Nat.eqb_spec (S y mod S x) 0) as [H2|];
      try done.
    apply Nat.Lcm0.mod_divide in H1, H2. by destruct Hne; apply Nat.divide_antisym.
  - intros x y z [Hxy H1]%Hlt [Hyz H2]%Hlt. apply Hlt. split; [|by etransitivity].
    intros ->. assert (S y = S z) by (by apply Nat.divide_antisym). lia.
  - by intros x y z ->%Heq.
Qed.

Lemma from_order_hasse_diagram_witness :
  ∃ d, from_order divides_cmp [5; 2; 11; 1; 2; 4] = Some d ∧
    is_hasse_diagram divides_cmp [5; 2; 11; 1; 2; 4] d.
Proof. apply from_order_hasse_diagram, divides_cmp_laws. Defined.

(** ** The search of the predecessors *)
Section predecessors.
Context {T : Type} (d : Dag T).

(** The graph is closed and its edges go to lesser ids. *)
Definition dag_wf : Prop :=
  ∀ b, b < length (dag_nodes d) →
    ∃ l, dag_before d !! b = Some l ∧ ∀ a, a ∈ l → a < b.

Definition edge (a b : nat) : Prop := ∃ l, dag_before d !! b = Some l ∧ a ∈ l.

Inductive path : nat → nat → Prop :=
| path_edge a b : edge a b → path a b
| path_step a b c : edge a b → path b c → path a c.

Lemma path_lt a b : dag_wf → b < length (dag_nodes d) → path a b → a < b.
Proof.
  intros Hwf Hb Hp. assert (∀ a b, edge a b → b < length (dag_nodes d) → a < b) as He.
  { intros a' b' (l & Hl & Ha) Hb'. destruct (Hwf _ Hb') as (l' & Hl' & Hlt).
    rewrite Hl in Hl'. injection Hl' as <-. auto. }
  induction Hp as [a b Hab|a b c Hab Hbc IH]; [by apply He|].
  specialize (IH Hb). etransitivity; [|done]. apply He; [done|lia].
Qed.

(** What the search keeps true: it has seen exactly [preds], all of which lead to [id],
    and the predecessors of everything that is not on the stack any more. *)
Definition search_inv (id : nat) (s : search) : Prop :=
  length (visited s) = id ∧
  (∀ a v, visited s !! a = Some v → v = true ↔ a ∈ preds s) ∧
  NoDup (preds s) ∧ (∀ a, a ∈ preds s → a < id ∧ path a id) ∧
  (∀ a, a ∈ stack s → a = id ∨ a ∈ preds s).

Definition search_closed (id : nat) (open : list nat) (s : search) : Prop :=
  ∀ b, b = id ∨ b ∈ preds s → b ∉ open → ∀ a, edge a b → a ∈ preds s.

Lemma visit_spec id s a :
  search_inv id s → a < id → path a id →
  ∃ s', visit s a = Some s' ∧ search_inv id s' ∧ a ∈ preds s' ∧
    (∃ new, stack s' = stack s ++ new ∧ preds s' = preds s ++ new).
Proof.
  intros (Hl & Hv & Hnd & Hp & Hs) Ha Hpath. pose proof Ha as Ha'. rewrite <-Hl in Ha'.
  destruct (lookup_lt_is_Some_2 _ _ Ha') as [v Hva]. unfold visit. rewrite Hva.
  cbn [mbind option_bind]. destruct v.
  - exists s. split_and!; try done; [by apply (Hv a true)|]. exists []. by rewrite !app_nil_r.
  - eexists. split; [done|]. cbn [visited stack preds].
    assert (a ∉ preds s) as Hna by (intros ?; enough (false = true) by done; by apply (Hv a false)).
    split_and!; [|set_solver|by exists [a]]. split_and!; cbn [visited stack preds].
    + by rewrite length_insert.
    + intros b v. rewrite list_lookup_insert. rewrite elem_of_app, list_elem_of_singleton.
      case_decide as Hb.
      * destruct Hb as [-> _]. intros [= <-]. tauto.
      * intros Hbv. rewrite (Hv _ _ Hbv). split; [tauto|]. intros [?| ->]; [done|].
        by destruct Hb.
    + apply NoDup_app. split_and!; [done| |apply NoDup_singleton].
      intros b Hb ->%list_elem_of_singleton. done.
    + intros b [Hb| ->%list_elem_of_singleton]%elem_of_app; [by apply Hp|done].
    + intros b [Hb| ->%list_elem_of_singleton]%elem_of_app.
      * destruct (Hs b Hb); [by left|]. right. apply elem_of_app. by left.
      * right. apply elem_of_app. right. by apply list_elem_of_singleton.
Qed.

Lemma visit_all_spec id l s :
  search_inv id s → (∀ a, a ∈ l → a < id ∧ path a id) →
  ∃ s', foldM visit l s = Some s' ∧ search_inv id s' ∧ (∀ a, a ∈ l → a ∈ preds s') ∧
    (∃ new, stack s' = stack s ++ new ∧ preds s' = preds s ++ new).
Proof.
  revert s. induction l as [|a l IH]; intros s Hs Hl.
  { exists s. split_and!; [done|done|by intros a ?%elem_of_nil|]. exists []. by rewrite !app_nil_r. }
  destruct (Hl a) as [Ha Hp]; [left|].
  destruct (visit_spec id s a Hs Ha Hp) as (s1 & Hv & Hs1 & Hin & new1 & Hst1 & Hpr1).
  destruct (IH s1 Hs1) as (s2 & Hf & Hs2 & Hall & new2 & Hst2 & Hpr2).
  { intros b Hb. apply Hl. by right. }
  exists s2. cbn [foldM]. rewrite Hv. cbn [mbind option_bind]. split_and!; [done|done| |].
  - intros b [->|Hb]%elem_of_cons; [|by apply Hall]. rewrite Hpr2. apply elem_of_app. by left.
  - exists (new1 ++ new2). by rewrite Hst2, Hst1, Hpr2, Hpr1, !app_assoc.
Qed.

Lemma search_loop_spec fuel id s :
  dag_wf → id < length (dag_nodes d) → search_inv id s → search_closed id (stack s) s →
  length (stack s) + (id - length (preds s)) < fuel →
  ∃ l, predecessors_loop fuel d s = Some l ∧ NoDup l ∧ ∀ a, a ∈ l ↔ path a id.
Proof.
  intros Hwf Hid. revert s. induction fuel as [|fuel IH]; intros s Hs Hc Hf; [lia|].
  cbn [predecessors_loop]. pose proof Hs as (Hl & Hv & Hnd & Hp & Hst).
  destruct (last (stack s)) as [b|] eqn:Elast.
  - apply last_Some in Elast as [rest Hrest].
    assert (b ≤ id ∧ (b = id ∨ path b id)) as [Hb Hbp].
    { destruct (Hst b) as [->|Hin]; [rewrite Hrest; set_solver|auto|].
      destruct (Hp b Hin). split; [lia|auto]. }
    destruct (Hwf b) as (l & Hbl & Hlt); [lia|]. unfold dag_before_of. rewrite Hbl.
    cbn [mbind option_bind].
    assert (take (pred (length (stack s))) (stack s) = rest) as ->.
    { rewrite Hrest, length_app, Nat.add_1_r. apply take_app_length. }
    destruct (visit_all_spec id l (mkSearch (visited s) rest (preds s)))
      as (s' & -> & Hs' & Hall & new & Hnew & Hpnew).
    { split_and!; cbn [visited stack preds]; try done. intros a Ha. apply Hst. rewrite Hrest. set_solver. }
    { intros a Ha. pose proof (Hlt a Ha). split; [lia|].
      destruct Hbp as [->|Hbp]; [|apply path_step with b; [|done]]; [apply path_edge|]; by exists l. }
    cbn [mbind option_bind stack preds] in *. apply IH; [done| |].
    + intros x Hx Hopen a (l' & Hl' & Ha). rewrite Hnew, Hpnew in *.
      destruct (decide (x = b)) as [->|Hxb].
      { rewrite Hbl in Hl'. injection Hl' as <-. by apply Hall. }
      apply elem_of_app. left. apply (Hc x); [|rewrite Hrest; set_solver|by exists l'].
      destruct Hx as [?|Hx%elem_of_app]; [by left|]. destruct Hx as [?|Hx]; [by right|].
      destruct Hopen. set_solver.
    + destruct Hs' as (_ & _ & Hnd' & Hp' & _). rewrite Hnew, Hrest, Hpnew in *.
      assert (length (preds s ++ new) ≤ id) as Hle.
      { rewrite <-(length_seq id 0). apply submseteq_length, NoDup_submseteq; [done|].
        intros a Ha. apply elem_of_seq. destruct (Hp' a Ha). lia. }
      rewrite !length_app in *. cbn in *. lia.
  - apply last_None in Elast. exists (preds s). split_and!; [done|done|]. intros a.
    split; [intros Ha; by destruct (Hp a Ha)|]. intros Hpath.
    assert (∀ b, path a b → b = id ∨ b ∈ preds s → a ∈ preds s) as Hgo; [|by eapply Hgo; eauto].
    clear Hpath. intros b Hpath. induction Hpath as [a b Hab|a b c Hab Hbc IHp]; intros Hb.
    + apply (Hc b Hb); [rewrite Elast; set_solver|done].
    + apply (Hc b); [|rewrite Elast; set_solver|done]. right. by apply IHp.
Qed.

Lemma predecessors_paths id :
  dag_wf → id < length (dag_nodes d) →
  ∃ l, dag_predecessors d id = Some l ∧ NoDup l ∧ ∀ a, a ∈ l ↔ path a id.
Proof.
  intros Hwf Hid. unfold dag_predecessors. apply search_loop_spec; try done.
  - split_and!; cbn [visited stack preds].
    + apply length_replicate.
    + intros a v [-> _]%lookup_replicate. rewrite elem_of_nil. done.
    + constructor.
    + by intros a ?%elem_of_nil.
    + intros a ->%list_elem_of_singleton. by left.
  - intros b [->|Hb%elem_of_nil] Hopen; [|done]. destruct Hopen. cbn. left.
  - cbn. lia.
Qed.
End predecessors.

(** The paths of the diagram are the order. *)
Lemma hasse_wf {T : Type} (cmp : T → T → option comparison) nodes d :
  is_hasse_diagram cmp nodes d → dag_wf d.
Proof.
  intros (_ & _ & _ & Hl & _ & Htop & Hb & _) b Hlt. rewrite <-Hl in Hlt.
  destruct (lookup_lt_is_Some_2 _ _ Hlt) as [l Hbl]. exists l. split; [done|].
  intros a Ha. apply Htop. by apply (Hb b l Hbl).
Qed.

Lemma hasse_edge {T : Type} (cmp : T → T → option comparison) nodes d a b :
  is_hasse_diagram cmp nodes d → edge d a b ↔ covers cmp (dag_nodes d) a b.
Proof.
  intros (_ & _ & _ & Hl & _ & _ & Hb & _). split.
  - intros (l & Hbl & Ha). by apply (Hb b l Hbl).
  - intros Hc. pose proof Hc as [[_ Hlt]%id_cmp_bounds _]. rewrite <-Hl in Hlt.
    destruct (lookup_lt_is_Some_2 _ _ Hlt) as [l Hbl]. exists l. split; [done|].
    by apply (Hb b l Hbl).
Qed.

Lemma hasse_path {T : Type} (cmp : T → T → option comparison) (laws : order_laws cmp) nodes d a b :
  is_hasse_diagram cmp nodes d → path d a b ↔ below cmp (dag_nodes d) a b.
Proof.
  intros Hd. split.
  - induction 1 as [a b Hab|a b c Hab _ IH].
    + apply (hasse_edge cmp nodes d a b Hd) in Hab. apply Hab.
    + apply (hasse_edge cmp nodes d a b Hd) in Hab as [Hab _].
      by eapply id_cmp_trans.
  - remember (b - a) as n eqn:En. revert a b En. induction (lt_wf n) as [n _ IH].
    intros a b En Hab. pose proof Hd as (_ & _ & _ & _ & _ & Htop & _).
    destruct (decide (Exists (λ c, below cmp (dag_nodes d) a c ∧ below cmp (dag_nodes d) c b)
      (seq 0 (length (dag_nodes d))))) as [Hex|Hno].
    + apply Exists_exists in Hex as (c & _ & Hac & Hcb).
      pose proof (Htop _ _ Hac). pose proof (Htop _ _ Hcb).
      assert (path d a c) as H1 by (eapply (IH (c - a)); [lia|done|done]).
      assert (path d c b) as H2 by (eapply (IH (b - c)); [lia|done|done]).
      clear -H1 H2. induction H1; by eapply path_step; eauto.
    + apply path_edge, (hasse_edge cmp nodes d a b Hd). split; [done|].
      intros (c & Hac & Hcb). apply Hno, Exists_exists. exists c. split; [|done].
      apply id_cmp_bounds in Hac as [_ Hc]. apply elem_of_seq. lia.
Qed.

(** On a graph made by [from_order], [predecessors] ends without a panic on every
    node and lists, each once, exactly the nodes that are below it, however far. *)
Theorem predecessors_are_below {T : Type} (cmp : T → T → option comparison) (nodes : list T)
    (d : Dag T) (id : nat) :
  order_laws cmp → from_order cmp nodes = Some d → id < length (dag_nodes d) →
  ∃ l, dag_predecessors d id = Some l ∧ NoDup l ∧
    ∀ a, a ∈ l ↔ below cmp (dag_nodes d) a id.
Proof.
  intros laws Hd Hid. destruct (from_order_spec cmp laws nodes) as (d' & Hd' & Hh).
  rewrite Hd in Hd'. injection Hd' as <-.
  destruct (predecessors_paths d id (hasse_wf cmp nodes d Hh) Hid) as (l & Hl & Hnd & Hp).
  exists l. split_and!; [done|done|]. intros a. rewrite Hp. by apply (hasse_path cmp laws nodes).
Qed.

Lemma predecessors_are_below_witness :
  let d := mkDag [0; 4; 1; 10; 3] [[]; [0]; [0]; [0]; [2]] [[1; 2; 3]; []; [4]; []; []] in
  ∃ l, dag_predecessors d 4 = Some l ∧ NoDup l ∧
    ∀ a, a ∈ l ↔ below divides_cmp (dag_nodes d) a 4.
Proof.
  intros d. apply (predecessors_are_below divides_cmp [4; 1; 10; 0; 1; 3] d 4).
  - apply divides_cmp_laws.
  - vm_compute. reflexivity.
  - vm_compute. lia.
Defined.
