(* ===== verification/NDArray.v ===== *)
(** * N-dimensional arrays (telamon-utils/src/ndarray.rs)

    [NDArray]: a flat vector indexed by a vector of indexes; [NDRange]: the iterator on
    the indexes within given bounds; [ViewMut]: an array with some dimensions fixed.
    The views made by [split] alias one array through a raw pointer: here the array is
    passed explicitly, and a view only holds the data that selects its cells. *)
From S2P Require Import Prelude.

(** ** The array *)
Record NDArray (T : Type) := mkNDArray { nd_dims : list nat; nd_data : list T }.
Arguments mkNDArray {T} _ _.
Arguments nd_dims {T} _.
Arguments nd_data {T} _.

Definition product (l : list nat) : nat := foldl Nat.mul 1 l.

Definition nd_new {T : Type} (dims : list nat) (data : list T) : option (NDArray T) :=
  rassert (length data =? product dims);;
  Some (mkNDArray dims data).

Definition init_default {T : Type} (default : T) (dims : list nat) : NDArray T :=
  let len := product dims in
  mkNDArray dims ((λ _, default) <$> seq 0 len).

Definition nd_num_dims {T : Type} (a : NDArray T) : nat := length (nd_dims a).

Definition flatten (dims indexes : list nat) : nat :=
  foldl (λ x '(y, z), x * y + z) 0 (zip dims indexes).

Definition nd_to_1d {T : Type} (a : NDArray T) (indexes : list nat) : option nat :=
  rassert (length (nd_dims a) =? length indexes);;
  Some (flatten (nd_dims a) indexes).

Definition nd_index {T : Type} (a : NDArray T) (indexes : list nat) : option T :=
  i ← nd_to_1d a indexes; nd_data a !! i.

(** A write through [index_mut]. *)
Definition nd_index_mut {T : Type} (a : NDArray T) (indexes : list nat) (v : T)
  : option (NDArray T) :=
  idx ← nd_to_1d a indexes;
  _ ← nd_data a !! idx;
  Some (mkNDArray (nd_dims a) (<[idx := v]> (nd_data a))).

(** ** The range *)
Record NDRange := mkNDRange { nr_max : list nat; nr_current : option (list nat) }.

Definition ndrange_new (bounds : list nat) : NDRange :=
  let min := if existsb (Nat.eqb 0) bounds then None
             else Some ((λ _, 0) <$> seq 0 (length bounds)) in
  mkNDRange bounds min.

(** The loop that increments the last index and carries to the previous ones. *)
Fixpoint carry (max current : list nat) (i : nat) : option (list nat) :=
  c ← current !! i;
  m ← max !! i;
  let current := <[i := c + 1]> current in
  match i with
  | 0 => Some current
  | S i' => if negb (c + 1 =? m) then Some current else carry max (<[i := 0]> current) i'
  end.

Definition range_done (max current : list nat) : option bool :=
  match current with
  | [] => Some true
  | x :: _ => m ← max !! 0; Some (x =? m)
  end.

Definition ndrange_next (r : NDRange) : option (option (list nat) * NDRange) :=
  let out := nr_current r in
  match nr_current r with
  | None => Some (out, r)
  | Some current =>
    current ← (if negb (length current =? 0)
               then carry (nr_max r) current (length current - 1) else Some current);
    finished ← range_done (nr_max r) current;
    Some (out, mkNDRange (nr_max r) (if finished : bool then None else Some current))
  end.

(** The iterator run until it answers [None]; running out of fuel is [None]. *)
Fixpoint ndrange_collect (fuel : nat) (r : NDRange) : option (list (list nat)) :=
  match fuel with
  | 0 => None
  | S fuel =>
    '(out, r) ← ndrange_next r;
    match out with
    | None => Some []
    | Some x => rest ← ndrange_collect fuel r; Some (x :: rest)
    end
  end.

(** ** Views *)
Record ViewMut := mkViewMut { vm_bounds : list nat; vm_fixed_indexes : list (nat * nat) }.

Definition view_mut {T : Type} (a : NDArray T) : ViewMut := mkViewMut (nd_dims a) [].

Definition view_num_dims (v : ViewMut) : nat := length (vm_bounds v).

(** [iter().enumerate().position(|(fixed_pos, &(raw_pos, _))| ..)]. *)
Fixpoint split_position (logical_dim fixed_pos : nat) (fixed : list (nat * nat))
  : option nat :=
  match fixed with
  | [] => None
  | (raw_pos, _) :: fixed =>
    if fixed_pos + logical_dim <? raw_pos then Some fixed_pos
    else split_position logical_dim (S fixed_pos) fixed
  end.

Definition view_split (v : ViewMut) (logical_dim : nat) : option (list ViewMut) :=
  '(dim_len, bounds) ← vec_remove logical_dim (vm_bounds v);
  let pos_in_fixed_indexes :=
    default (length (vm_fixed_indexes v)) (split_position logical_dim 0 (vm_fixed_indexes v)) in
  let raw_dim := pos_in_fixed_indexes + logical_dim in
  mapM (λ idx,
    fixed_indexes ← vec_insert pos_in_fixed_indexes (raw_dim, idx) (vm_fixed_indexes v);
    Some (mkViewMut bounds fixed_indexes)) (seq 0 dim_len).

(** The test [next_fixed < num_fixed && fixed_indexes[next_fixed].0 == dim_id], with the
    fixed index when it holds. *)
Definition fixed_at (fixed : list (nat * nat)) (next_fixed dim_id : nat) : option nat :=
  match fixed !! next_fixed with
  | Some (d, idx) => if d =? dim_id then Some idx else None
  | None => None
  end.

(** The loop of [flat_index] on [dims.iter().enumerate()], from dimension [dim_id]. *)
Fixpoint flat_loop (fixed : list (nat * nat)) (indexes : list nat) (dim_id : nat)
    (dims : list nat) (next_fixed next_index flat_index : nat) : option nat :=
  match dims with
  | [] => Some flat_index
  | dim_size :: dims =>
    match fixed_at fixed next_fixed dim_id with
    | Some idx => flat_loop fixed indexes (S dim_id) dims (S next_fixed) next_index
                    (flat_index * dim_size + idx)
    | None => idx ← indexes !! next_index;
              flat_loop fixed indexes (S dim_id) dims next_fixed (S next_index)
                (flat_index * dim_size + idx)
    end
  end.

Definition flat_index {T : Type} (a : NDArray T) (v : ViewMut) (indexes : list nat)
  : option nat :=
  flat_loop (vm_fixed_indexes v) indexes 0 (nd_dims a) 0 0 0.

Definition view_index {T : Type} (a : NDArray T) (v : ViewMut) (indexes : list nat)
  : option T :=
  i ← flat_index a v indexes; nd_data a !! i.

Definition view_index_mut {T : Type} (a : NDArray T) (v : ViewMut) (indexes : list nat)
    (x : T) : option (NDArray T) :=
  i ← flat_index a v indexes;
  _ ← nd_data a !! i;
  Some (mkNDArray (nd_dims a) (<[i := x]> (nd_data a))).

(** The elements of a view, in the order of its iterators. *)
Definition view_enumerate {T : Type} (a : NDArray T) (v : ViewMut)
  : option (list (list nat * T)) :=
  idxs ← ndrange_collect (S (product (vm_bounds v))) (ndrange_new (vm_bounds v));
  mapM (λ idx, item ← view_index a v idx; Some (idx, item)) idxs.

(** [enumerate_mut] and the mutable iterator give out references: here, the positions
    in the array of the cells that they point to. *)
Definition view_enumerate_mut {T : Type} (a : NDArray T) (v : ViewMut)
  : option (list (list nat * nat)) :=
  idxs ← ndrange_collect (S (product (vm_bounds v))) (ndrange_new (vm_bounds v));
  mapM (λ idx, i ← flat_index a v idx; _ ← nd_data a !! i; Some (idx, i)) idxs.

Definition view_iter_next {T : Type} (a : NDArray T) (v : ViewMut) (index : NDRange)
  : option (option T * NDRange) :=
  '(out, index) ← ndrange_next index;
  match out with
  | None => Some (None, index)
  | Some idx => x ← view_index a v idx; Some (Some x, index)
  end.

Definition view_iter_mut_next {T : Type} (a : NDArray T) (v : ViewMut) (index : NDRange)
  : option (option nat * NDRange) :=
  '(out, index) ← ndrange_next index;
  match out with
  | None => Some (None, index)
  | Some idx => i ← flat_index a v idx; _ ← nd_data a !! i; Some (Some i, index)
  end.

(** ** Flattening *)

(** The reference enumeration: every vector within the bounds, the last index moving
    first. *)
Fixpoint indices (dims : list nat) : list (list nat) :=
  match dims with
  | [] => [[]]
  | n :: dims => i ← seq 0 n; cons i <$> indices dims
  end.

Definition in_range (dims idx : list nat) : Prop := Forall2 (λ n i, i < n) dims idx.

Lemma foldl_mul l c : foldl Nat.mul c l = c * product l.
Proof.
  unfold product. revert c. induction l as [|n l IH]; intros c; cbn -[Nat.mul]; [lia|].
  rewrite IH, (IH (1 * n)). lia.
Qed.

Lemma product_cons n l : product (n :: l) = n * product l.
Proof. unfold product at 1. cbn [foldl]. rewrite foldl_mul. lia. Qed.

Lemma product_snoc l n : product (l ++ [n]) = product l * n.
Proof. unfold product. by rewrite foldl_app. Qed.

Lemma flatten_acc ds ks x :
  length ds = length ks →
  foldl (λ x '(y, z), x * y + z) x (zip ds ks) = x * product ds + flatten ds ks.
Proof.
  unfold flatten. revert ks x. induction ds as [|d ds IH]; intros [|i ks'] x Hl; try done.
  - cbn. unfold product. cbn. lia.
  - injection Hl as Hl. rewrite product_cons. cbn -[Nat.mul Nat.add].
    rewrite (IH ks' (x * d + i)), (IH ks' (0 * d + i)) by done. lia.
Qed.

Lemma flatten_cons d ds i ks :
  length ds = length ks → flatten (d :: ds) (i :: ks) = i * product ds + flatten ds ks.
Proof.
  intros Hl. unfold flatten at 1. cbn [zip zip_with foldl]. rewrite flatten_acc by exact Hl.
  lia.
Qed.

Lemma flatten_snoc ds d ks i :
  length ds = length ks → flatten (ds ++ [d]) (ks ++ [i]) = flatten ds ks * d + i.
Proof. intros Hl. unfold flatten. by rewrite zip_with_app, foldl_app by done. Qed.

Lemma flatten_bound ds ks : in_range ds ks → flatten ds ks < product ds.
Proof.
  induction 1 as [|d i ds ks Hi H IH]; [cbn; unfold product; cbn; lia|].
  rewrite flatten_cons by (by eapply Forall2_length). rewrite product_cons. nia.
Qed.

Lemma flatten_inj ds ks js :
  in_range ds ks → in_range ds js → flatten ds ks = flatten ds js → ks = js.
Proof.
  intros H. revert js. induction H as [|d i ds ks Hi H IH]; intros js Hj.
  { by inversion Hj. }
  inversion Hj as [|? j ? js' Hj1 Hj2]; subst. pose proof (flatten_bound _ _ H).
  pose proof (flatten_bound _ _ Hj2).
  rewrite !flatten_cons by (by eapply Forall2_length). intros Heq.
  assert (i = j) as -> by nia. f_equal. apply IH; [done|lia].
Qed.

Lemma elem_of_indices ds ks : ks ∈ indices ds ↔ in_range ds ks.
Proof.
  revert ks. induction ds as [|d ds IH]; intros ks; cbn [indices].
  { rewrite list_elem_of_singleton. split; [intros ->; constructor|by inversion 1]. }
  rewrite list_elem_of_bind. split.
  - intros (i & (js & -> & Hj)%list_elem_of_fmap & Hi%elem_of_seq).
    constructor; [lia|by apply IH].
  - inversion 1 as [|? i ? js Hi Hj]; subst. exists i. split.
    + apply list_elem_of_fmap. exists js. split; [done|by apply IH].
    + apply elem_of_seq. lia.
Qed.

Lemma flatten_indices_rows ds n m a :
  flatten ds <$> indices ds = seq 0 (product ds) →
  flatten (n :: ds) <$> (i ← seq a m; cons i <$> indices ds)
  = seq (a * product ds) (m * product ds).
Proof.
  intros Hr. revert a.
  induction m as [|m IH]; intros a; [done|]. cbn [seq]. rewrite bind_cons, fmap_app, IH.
  replace (S m * product ds) with (product ds + m * product ds) by lia.
  rewrite seq_app. f_equal; [|f_equal; lia].
  transitivity (Nat.add (a * product ds) <$> (flatten ds <$> indices ds)); cycle 1.
  { rewrite Hr, fmap_add_seq. f_equal. lia. }
  rewrite <-!list_fmap_compose. apply list_fmap_ext. intros i ks His. cbn [compose].
  apply flatten_cons. apply list_elem_of_lookup_2, elem_of_indices in His.
  by eapply Forall2_length.
Qed.

Lemma flatten_indices ds : flatten ds <$> indices ds = seq 0 (product ds).
Proof.
  induction ds as [|n ds IH]; [done|]. cbn [indices].
  rewrite flatten_indices_rows, product_cons by done. done.
Qed.

(** A list within the bounds is determined by its flat positions. *)
Lemma flatten_map_inj ds l k :
  Forall (in_range ds) l → Forall (in_range ds) k →
  flatten ds <$> l = flatten ds <$> k → l = k.
Proof.
  intros Hl. revert k. induction Hl as [|x l Hx Hl IH]; intros [|y k] Hk; try done.
  apply Forall_cons in Hk as [Hy Hk]. rewrite !fmap_cons. intros [= H1 H2].
  f_equal; [by eapply flatten_inj|by apply IH].
Qed.

Lemma indices_in_range ds : Forall (in_range ds) (indices ds).
Proof. apply Forall_forall. intros x. by rewrite elem_of_indices. Qed.

Lemma length_indices ds : length (indices ds) = product ds.
Proof. rewrite <-(length_fmap (flatten ds)), flatten_indices. apply length_seq. Qed.

(** ** The range enumerates the indexes *)
Lemma carry_app max current m' c' i :
  length max = length current → i < length current →
  carry (max ++ m') (current ++ c') i = (λ l, l ++ c') <$> carry max current i.
Proof.
  intros Hl. revert current Hl. induction i as [|i IH]; intros current Hl Hi;
    destruct (lookup_lt_is_Some_2 current _ Hi) as [c Hc];
    rewrite <-Hl in Hi; destruct (lookup_lt_is_Some_2 max _ Hi) as [m Hm];
    cbn -[Nat.eqb Nat.add]; rewrite Hc, Hm, (lookup_app_l_Some _ _ _ _ Hc),
      (lookup_app_l_Some _ _ _ _ Hm); cbn [mbind option_bind];
    rewrite insert_app_l by lia; [done|].
  destruct (negb _); [done|]. rewrite insert_app_l by (rewrite length_insert; lia).
  apply IH; rewrite ?length_insert; lia.
Qed.

(** One step moves to the next flat position; past the last one the first index
    reaches its bound. *)
Lemma carry_next max current :
  in_range max current → current ≠ [] →
  ∃ next, carry max current (length current - 1) = Some next ∧
    flatten max next = S (flatten max current) ∧
    (in_range max next ∨ ∃ n max', max = n :: max' ∧ next = n :: replicate (length max') 0).
Proof.
  revert current. induction max as [|m max IH] using rev_ind; intros current Hr Hne.
  { by inversion Hr; subst. }
  apply Forall2_app_inv_l in Hr as (cs & l & Hcs & Hl & ->).
  inversion Hl as [|? c ? ? Hc Hnil]; subst. inversion Hnil; subst. clear Hl Hnil.
  pose proof (Forall2_length _ _ _ Hcs) as Hlen. clear Hne.
  rewrite length_app. cbn [length]. replace (length cs + 1 - 1) with (length cs) by lia.
  assert (carry (max ++ [m]) (cs ++ [c]) (length cs)
    = if (length cs =? 0) || negb (c + 1 =? m) then Some (cs ++ [c + 1])
      else (λ l, l ++ [0]) <$> carry max cs (length cs - 1)) as ->.
  { destruct (length cs) as [|k] eqn:Ek; cbn -[Nat.eqb Nat.add];
      rewrite (list_lookup_middle cs [] c) by done;
      rewrite (list_lookup_middle max [] m) by lia; cbn -[Nat.eqb Nat.add carry];
      rewrite <-Ek, insert_app_r_alt, Nat.sub_diag by done; cbn [list_insert insert].
    { by apply nil_length_inv in Ek as ->. }
    replace (length cs =? 0) with false by (by rewrite Ek). cbn [orb].
    destruct (negb _); [done|]. rewrite insert_app_r_alt, Nat.sub_diag by done.
    cbn [list_insert insert]. rewrite Nat.sub_0_r.
    apply carry_app; lia. }
  destruct ((length cs =? 0) || negb (c + 1 =? m)) eqn:E.
  - exists (cs ++ [c + 1]). rewrite !flatten_snoc by done. split_and!; [done|lia|].
    destruct (decide (c + 1 = m)) as [<-|Hm].
    + rewrite Nat.eqb_refl, orb_false_r in E. apply Nat.eqb_eq, nil_length_inv in E as ->.
      apply Forall2_nil_inv_r in Hcs as ->. right. exists (c + 1), []. done.
    + left. apply Forall2_app; [done|]. constructor; [lia|constructor].
  - apply orb_false_iff in E as [E1 E2%negb_false_iff%Nat.eqb_eq].
    apply Nat.eqb_neq in E1.
    destruct (IH cs Hcs) as (next & -> & Hf & Hnext); [by intros ->|].
    exists (next ++ [0]). assert (length max = length next) as Hl'.
    { destruct Hnext as [Hn|(n & max' & -> & ->)]; [by eapply Forall2_length|].
      cbn. by rewrite length_replicate. }
    rewrite !flatten_snoc, Hf by done. split_and!; [done|lia|].
    destruct Hnext as [Hn|(n & max' & -> & ->)].
    + left. apply Forall2_app; [done|]. constructor; [lia|constructor].
    + right. exists n, (max' ++ [m]). split; [done|]. rewrite length_app. cbn.
      rewrite Nat.add_comm. cbn. by rewrite replicate_cons_app.
Qed.

Lemma flatten_overflow n max : flatten (n :: max) (n :: replicate (length max) 0) = product (n :: max).
Proof.
  rewrite flatten_cons, product_cons by (by rewrite length_replicate).
  enough (flatten max (replicate (length max) 0) = 0) as -> by lia.
  induction max as [|m max IH]; [done|]. cbn [length replicate].
  rewrite flatten_cons by (by rewrite length_replicate). lia.
Qed.

Lemma range_done_in_range max current :
  in_range max current → current ≠ [] → range_done max current = Some false.
Proof.
  destruct 1 as [|m c max current Hc]; intros Hne; [done|]. cbn.
  f_equal. by apply Nat.eqb_neq; lia.
Qed.

Lemma collect_from max fuel current :
  in_range max current → product max - flatten max current < fuel →
  ∃ l, ndrange_collect fuel (mkNDRange max (Some current)) = Some l ∧
    Forall (in_range max) l ∧
    flatten max <$> l = seq (flatten max current) (product max - flatten max current).
Proof.
  revert current. induction fuel as [|fuel IH]; intros current Hr Hf; [lia|].
  cbn [ndrange_collect]. unfold ndrange_next. cbn [nr_current nr_max].
  pose proof (flatten_bound _ _ Hr) as Hb.
  destruct (decide (current = [])) as [->|Hne].
  { apply Forall2_nil_inv_r in Hr as ->. destruct fuel as [|fuel]; [cbn in *; lia|].
    exists [[]]. split_and!; [done|constructor; [constructor|done]|done]. }
  destruct (carry_next _ _ Hr Hne) as (next & Hc & Hfl & Hnext).
  replace (negb (length current =? 0)) with true by (by destruct current).
  rewrite Hc. cbn [mbind option_bind].
  destruct Hnext as [Hn|(n & max' & -> & ->)].
  - assert (next ≠ []) as Hne'.
    { intros ->. apply Forall2_nil_inv_r in Hn as ->. by inversion Hr; subst. }
    rewrite (range_done_in_range _ _ Hn Hne'). cbn [mbind option_bind].
    pose proof (flatten_bound _ _ Hn).
    destruct (IH next Hn) as (l & -> & Hl & Hs); [lia|]. cbn [mbind option_bind].
    exists (current :: l). split_and!; [done|by constructor|].
    rewrite fmap_cons, Hs, Hfl. replace (product max - flatten max current) with
      (S (product max - S (flatten max current))) by lia. done.
  - rewrite flatten_overflow in Hfl. cbn [range_done lookup list_lookup]. cbn [mbind option_bind].
    rewrite Nat.eqb_refl. destruct fuel as [|fuel]; [lia|].
    exists [current]. split_and!; [done|by constructor|].
    replace (_ - _) with 1 by lia. done.
Qed.

Lemma product_zero ds : product ds = 0 ↔ existsb (Nat.eqb 0) ds = true.
Proof.
  induction ds as [|d ds IH]; [done|]. rewrite product_cons. cbn [existsb].
  rewrite orb_true_iff, Nat.eqb_eq, <-IH. lia.
Qed.

(** Within its fuel the range gives every index vector once, in lexicographic order. *)
Lemma ndrange_collect_indices dims :
  ndrange_collect (S (product dims)) (ndrange_new dims) = Some (indices dims).
Proof.
  unfold ndrange_new. destruct (existsb (Nat.eqb 0) dims) eqn:E.
  { apply product_zero in E. rewrite E. cbn.
    assert (indices dims = []) as ->; [|done]. apply nil_length_inv. by rewrite length_indices. }
  assert (product dims ≠ 0) as Hp by (rewrite product_zero; congruence).
  assert (in_range dims ((λ _, 0) <$> seq 0 (length dims)) ∧
    flatten dims ((λ _, 0) <$> seq 0 (length dims)) = 0) as [Hr Hz].
  { clear E. generalize 0 at 2 4. induction dims as [|d dims IH]; intros a; [by split; [constructor|]|].
    rewrite product_cons in Hp. cbn [length seq]. rewrite fmap_cons.
    destruct (IH ltac:(lia) (S a)) as [H1 H2]. split; [constructor; [lia|done]|].
    rewrite flatten_cons by (by eapply Forall2_length). lia. }
  destruct (collect_from dims (S (product dims)) _ Hr) as (l & -> & Hl & Hs); [lia|].
  f_equal. apply (flatten_map_inj dims); [done|apply indices_in_range|].
  rewrite Hs, Hz, flatten_indices. f_equal. lia.
Qed.

(** Reading the whole array. *)
Lemma mapM_lookup_seq {A : Type} (l k : list A) :
  mapM (λ i, (k ++ l) !! i) (seq (length k) (length l)) = Some l.
Proof.
  revert k. induction l as [|x l IH]; intros k; [done|]. cbn [length seq mapM].
  rewrite list_lookup_middle by done. cbn [mbind option_bind].
  specialize (IH (k ++ [x])). rewrite length_app, Nat.add_1_r, <-app_assoc in IH.
  cbn [app] in IH. by rewrite IH.
Qed.

(** [NDRange] gives each index vector within the bounds exactly once, and
    reading an array along it gives the data in the order it is stored: the indexes
    move in row-major order, and [nd_to_1d] is the inverse of that enumeration. *)
Theorem ndrange_row_major {T : Type} (dims : list nat) (data : list T) (a : NDArray T) :
  nd_new dims data = Some a →
  ∃ idxs, ndrange_collect (S (product dims)) (ndrange_new dims) = Some idxs ∧
    (∀ idx, idx ∈ idxs ↔ in_range dims idx) ∧ NoDup idxs ∧
    mapM (nd_to_1d a) idxs = Some (seq 0 (length data)) ∧
    mapM (nd_index a) idxs = Some data.
Proof.
  unfold nd_new, rassert. destruct (length data =? product dims) eqn:El; [|done].
  apply Nat.eqb_eq in El. intros [= <-]. exists (indices dims).
  split; [apply ndrange_collect_indices|]. split; [apply elem_of_indices|].
  split; [eapply NoDup_fmap_1; rewrite (flatten_indices dims); apply NoDup_seq|].
  assert (∀ idx, idx ∈ indices dims →
    nd_to_1d (mkNDArray dims data) idx = Some (flatten dims idx)) as Hf.
  { intros idx Hidx%elem_of_indices%Forall2_length. unfold nd_to_1d, rassert.
    cbn [nd_dims]. by rewrite Hidx, Nat.eqb_refl. }
  split; [by rewrite (mapM_total _ (flatten dims)), flatten_indices, El|].
  transitivity (mapM (λ idx, data !! flatten dims idx) (indices dims)).
  { apply mapM_ext_in. intros idx Hidx. unfold nd_index. by rewrite Hf. }
  rewrite (mapM_compose (λ i, data !! i)), flatten_indices, <-El.
  apply (mapM_lookup_seq data []).
Qed.

Lemma ndrange_row_major_witness :
  ∃ idxs, ndrange_collect (S (product [2; 3])) (ndrange_new [2; 3]) = Some idxs ∧
    (∀ idx, idx ∈ idxs ↔ in_range [2; 3] idx) ∧ NoDup idxs ∧
    mapM (nd_to_1d (mkNDArray [2; 3] [5; 6; 7; 8; 9; 10])) idxs = Some (seq 0 6) ∧
    mapM (nd_index (mkNDArray [2; 3] [5; 6; 7; 8; 9; 10])) idxs = Some [5; 6; 7; 8; 9; 10].
Proof. apply (ndrange_row_major [2; 3] [5; 6; 7; 8; 9; 10]). reflexivity. Defined.

(** ** Views select the cells of a shape

    The reference for a view: for each dimension of the array, the value it is fixed
    to, if it is. *)
Definition Shape : Type := list (option nat).

Fixpoint shape_fixed (i : nat) (sh : Shape) : list (nat * nat) :=
  match sh with
  | [] => []
  | Some k :: sh => (i, k) :: shape_fixed (S i) sh
  | None :: sh => shape_fixed (S i) sh
  end.

Fixpoint shape_bounds (dims : list nat) (sh : Shape) : list nat :=
  match dims, sh with
  | d :: dims, None :: sh => d :: shape_bounds dims sh
  | _ :: dims, Some _ :: sh => shape_bounds dims sh
  | _, _ => []
  end.

(** The index in the array of an index in the view. *)
Fixpoint shape_fill (sh : Shape) (idx : list nat) : option (list nat) :=
  match sh with
  | [] => Some []
  | Some k :: sh => cons k <$> shape_fill sh idx
  | None :: sh =>
    match idx with [] => None | i :: idx => cons i <$> shape_fill sh idx end
  end.

(** Fixing the [l]-th free dimension. *)
Fixpoint shape_fix (l k : nat) (sh : Shape) : Shape :=
  match sh with
  | [] => []
  | Some k' :: sh => Some k' :: shape_fix l k sh
  | None :: sh => match l with 0 => Some k :: sh | S l => None :: shape_fix l k sh end
  end.

Definition shape_ok (dims : list nat) (sh : Shape) : Prop :=
  Forall2 (λ d o, from_option (λ k, k < d) True o) dims sh.

(** [v] is the view of shape [sh] on an array of dimensions [dims]. *)
Definition view_shape (dims : list nat) (sh : Shape) (v : ViewMut) : Prop :=
  shape_ok dims sh ∧ vm_bounds v = shape_bounds dims sh ∧
  vm_fixed_indexes v = shape_fixed 0 sh.

Lemma view_shape_initial {T : Type} (a : NDArray T) :
  view_shape (nd_dims a) (replicate (length (nd_dims a)) None) (view_mut a).
Proof.
  unfold view_mut. generalize (nd_dims a) as ds. intros ds.
  assert (∀ i, shape_fixed i (replicate (length ds) None) = []) as Hf.
  { induction (length ds) as [|n IH]; intros i; [done|]. cbn. apply IH. }
  split_and!; [|cbn|by rewrite Hf].
  - clear Hf. induction ds as [|d ds IH]; cbn; constructor; done.
  - clear Hf. induction ds as [|d ds IH]; [done|]. cbn. by f_equal.
Qed.

Lemma shape_fixed_ge i sh p : p ∈ shape_fixed i sh → i ≤ p.1.
Proof.
  revert i. induction sh as [|[k|] sh IH]; intros i; cbn [shape_fixed].
  - by intros ?%elem_of_nil.
  - intros [->|H]%elem_of_cons; [done|]. apply IH in H. lia.
  - intros H%IH. lia.
Qed.

Lemma fixed_at_shape fixed sh o i nf :
  drop nf fixed = shape_fixed i (o :: sh) → fixed_at fixed nf i = o.
Proof.
  intros Hf. unfold fixed_at. rewrite <-(Nat.add_0_r nf), <-lookup_drop, Hf.
  destruct o as [k|]; cbn [shape_fixed].
  { cbn. by rewrite Nat.eqb_refl. }
  destruct (shape_fixed (S i) sh) as [|[r k] l] eqn:E; [done|]. cbn.
  assert ((r =? i) = false) as ->; [|done]. apply Nat.eqb_neq.
  enough (S i ≤ (r, k).1) by (cbn in *; lia).
  apply shape_fixed_ge with sh. rewrite E. left.
Qed.

Lemma flat_loop_shape fixed idx sh ds i nf ni acc :
  shape_ok ds sh → drop nf fixed = shape_fixed i sh →
  flat_loop fixed idx i ds nf ni acc
  = (λ full, foldl (λ x '(y, z), x * y + z) acc (zip ds full)) <$> shape_fill sh (drop ni idx).
Proof.
  intros Hok. revert i nf ni acc. induction Hok as [|d o ds sh Ho Hok IH];
    intros i nf ni acc Hf; [done|]. cbn [flat_loop].
  rewrite (fixed_at_shape _ _ _ _ _ Hf). destruct o as [k|]; cbn [shape_fixed shape_fill] in *.
  - rewrite IH by (by rewrite <-Nat.add_1_r, <-drop_drop, Hf).
    by rewrite <-option_fmap_compose.
  - rewrite <-(Nat.add_0_r ni), <-lookup_drop, Nat.add_0_r.
    destruct (drop ni idx) as [|x l] eqn:E; [done|]. cbn [lookup list_lookup mbind option_bind].
    rewrite (IH _ _ _ _ Hf), <-option_fmap_compose.
    by rewrite <-(Nat.add_1_r ni), <-drop_drop, E.
Qed.

Lemma shape_fill_in_range ds sh idx :
  shape_ok ds sh → in_range (shape_bounds ds sh) idx →
  ∃ full, shape_fill sh idx = Some full ∧ in_range ds full.
Proof.
  intros Hok. revert idx. induction Hok as [|d o ds sh Ho Hok IH]; intros idx Hi.
  { exists []. split; [done|constructor]. }
  destruct o as [k|]; cbn [shape_fill shape_bounds] in *.
  - destruct (IH _ Hi) as (full & -> & Hf). exists (k :: full). by split; [|constructor].
  - inversion Hi as [|? x ? idx' Hx Hi']; subst. destruct (IH _ Hi') as (full & -> & Hf).
    exists (x :: full). by split; [|constructor].
Qed.

(** The index that a view gives to the array. *)
Lemma flat_index_shape {T : Type} (a : NDArray T) sh v idx :
  view_shape (nd_dims a) sh v → in_range (vm_bounds v) idx →
  ∃ full, shape_fill sh idx = Some full ∧ in_range (nd_dims a) full ∧
    flat_index a v idx = Some (flatten (nd_dims a) full).
Proof.
  intros (Hok & Hb & Hf) Hi. rewrite Hb in Hi.
  destruct (shape_fill_in_range _ _ _ Hok Hi) as (full & Hfill & Hr).
  exists full. split_and!; [done|done|]. unfold flat_index.
  rewrite (flat_loop_shape _ _ sh); [|done|by rewrite drop_0, Hf].
  by rewrite drop_0, Hfill.
Qed.

(** *** Splitting *)
Lemma shape_bounds_fix ds sh l k :
  shape_ok ds sh → shape_bounds ds (shape_fix l k sh) =
    take l (shape_bounds ds sh) ++ drop (S l) (shape_bounds ds sh).
Proof.
  intros Hok. revert l. induction Hok as [|d [k'|] ds sh Ho Hok IH]; intros l.
  - cbn. by rewrite take_nil.
  - cbn. apply IH.
  - destruct l as [|l]; cbn; [done|]. by rewrite IH.
Qed.

Lemma shape_ok_fix ds sh l n k :
  shape_ok ds sh → shape_bounds ds sh !! l = Some n → k < n → shape_ok ds (shape_fix l k sh).
Proof.
  intros Hok. revert l. induction Hok as [|d [k'|] ds sh Ho Hok IH]; intros l Hl Hk.
  - constructor.
  - constructor; [done|]. by apply IH.
  - destruct l as [|l]; cbn in *; [injection Hl as ->; by constructor|].
    constructor; [done|]. by apply IH.
Qed.

Lemma split_position_shift l s fixed :
  split_position l (S s) fixed = S <$> split_position (S l) s fixed.
Proof.
  revert s. induction fixed as [|[r k] fixed IH]; intros s; [done|].
  cbn [split_position]. replace (s + S l) with (S s + l) by lia.
  destruct (S s + l <? r); [done|]. apply IH.
Qed.

Lemma split_position_shape ds sh i l n k :
  shape_ok ds sh → shape_bounds ds sh !! l = Some n →
  let fixed := shape_fixed i sh in
  let p := default (length fixed) (split_position (l + i) 0 fixed) in
  p ≤ length fixed ∧
  take p fixed ++ (p + l + i, k) :: drop p fixed = shape_fixed i (shape_fix l k sh).
Proof.
  intros Hok. revert i l. induction Hok as [|d [k'|] ds sh Ho Hok IH]; intros i l Hl; [done| |].
  - cbn [shape_bounds shape_fixed shape_fix split_position] in *.
    replace (0 + (l + i) <? i) with false by (symmetry; apply Nat.ltb_ge; lia).
    rewrite split_position_shift. replace (S (l + i)) with (l + S i) by lia.
    destruct (IH (S i) l Hl) as [Hp Heq]. rewrite <-Heq.
    destruct (split_position (l + S i) 0 (shape_fixed (S i) sh)) as [p|];
      cbn -[Nat.add take drop] in *; (split; [lia|]); cbn [take drop app];
      do 4 f_equal; lia.
  - cbn [shape_bounds] in Hl. cbn [shape_fixed shape_fix]. destruct l as [|l].
    + assert (default (length (shape_fixed (S i) sh))
        (split_position (0 + i) 0 (shape_fixed (S i) sh)) = 0) as ->; [|by split; [lia|]].
      destruct (shape_fixed (S i) sh) as [|[r k''] fx] eqn:E; [done|].
      cbn [split_position]. rewrite (proj2 (Nat.ltb_lt (0 + (0 + i)) r)); [done|].
      enough (S i ≤ (r, k'').1) by (cbn in *; lia).
      apply shape_fixed_ge with sh. rewrite E. left.
    + destruct (IH (S i) l Hl) as [Hp Heq]. replace (S l + i) with (l + S i) by lia.
      cbn zeta in *. split; [done|]. cbn [shape_fix shape_fixed]. rewrite <-Heq. do 3 f_equal. lia.
Qed.

(** The views that [split] gives. *)
Lemma view_split_shape ds sh v l n :
  view_shape ds sh v → vm_bounds v !! l = Some n →
  ∃ vs, view_split v l = Some vs ∧
    Forall2 (λ k w, view_shape ds (shape_fix l k sh) w ∧
      vm_bounds w = take l (vm_bounds v) ++ drop (S l) (vm_bounds v)) (seq 0 n) vs.
Proof.
  intros (Hok & Hb & Hf) Hl. unfold view_split, vec_remove. rewrite Hl.
  cbn [mbind option_bind]. set (p := default _ _).
  assert (∀ k, k < n → p ≤ length (vm_fixed_indexes v) ∧
    take p (vm_fixed_indexes v) ++ (p + l, k) :: drop p (vm_fixed_indexes v)
    = shape_fixed 0 (shape_fix l k sh)) as Hp.
  { intros k Hk. rewrite Hb in Hl. pose proof (split_position_shape _ _ 0 l n k Hok Hl) as H.
    cbn zeta in H. rewrite !Nat.add_0_r, <-Hf in H. fold p in H.
    replace (p + l + 0) with (p + l) in H by lia. exact H. }
  eexists. split.
  - apply mapM_total with (g := λ k, mkViewMut
      (take l (vm_bounds v) ++ drop (S l) (vm_bounds v)) (shape_fixed 0 (shape_fix l k sh))).
    intros k Hk%elem_of_seq. destruct (Hp k) as [Hle Heq]; [lia|].
    unfold vec_insert. rewrite (proj2 (Nat.leb_le _ _) Hle). cbn [mbind option_bind].
    by rewrite Heq.
  - apply Forall2_fmap_r, Forall_Forall2_diag, Forall_forall. intros k Hk%elem_of_seq.
    cbn. split; [|done]. rewrite Hb in *. split_and!; [|by rewrite shape_bounds_fix|done].
    eapply shape_ok_fix; [done|done|lia].
Qed.

Lemma shape_fill_fix ds sh l n k idx :
  shape_ok ds sh → shape_bounds ds sh !! l = Some n → l ≤ length idx →
  shape_fill (shape_fix l k sh) idx = shape_fill sh (take l idx ++ k :: drop l idx).
Proof.
  intros Hok. revert l idx. induction Hok as [|d [k'|] ds sh Ho Hok IH]; intros l idx Hl Hi;
    [done| |]; cbn [shape_bounds] in Hl.
  - cbn. by rewrite IH.
  - destruct l as [|l]; [done|]. destruct idx as [|x idx]; [cbn in Hi; lia|]. cbn.
    rewrite IH; [done|done|cbn in Hi; lia].
Qed.

(** Different fixed values select different cells. *)
Lemma shape_fill_fix_inj ds sh l n k k' idx idx' full :
  shape_ok ds sh → shape_bounds ds sh !! l = Some n →
  shape_fill (shape_fix l k sh) idx = Some full →
  shape_fill (shape_fix l k' sh) idx' = Some full → k = k'.
Proof.
  intros Hok. revert l idx idx' full.
  induction Hok as [|d [x|] ds sh Ho Hok IH]; intros l idx idx' full Hl; [done| |];
    cbn [shape_bounds] in Hl.
  - cbn. intros (f & Hf & ->)%fmap_Some (f' & Hf' & [= ->])%fmap_Some. by eapply IH.
  - destruct l as [|l]; cbn.
    + intros (f & Hf & ->)%fmap_Some (f' & Hf' & [= -> ->])%fmap_Some. done.
    + destruct idx as [|y idx]; [done|]. destruct idx' as [|y' idx']; [done|].
      intros (f & Hf & ->)%fmap_Some (f' & Hf' & [= -> ->])%fmap_Some. by eapply IH.
Qed.

(** The views of an array: the whole one, and what [split] gives. *)
Inductive view_of {T : Type} (a : NDArray T) : ViewMut → Prop :=
| view_whole : view_of a (view_mut a)
| view_part v l vs w : view_of a v → view_split v l = Some vs → w ∈ vs → view_of a w.

Lemma view_split_bound v l vs : view_split v l = Some vs → ∃ n, vm_bounds v !! l = Some n.
Proof. unfold view_split, vec_remove. destruct (vm_bounds v !! l); [by eauto|done]. Qed.

Lemma view_of_shape {T : Type} (a : NDArray T) v :
  view_of a v → ∃ sh, view_shape (nd_dims a) sh v.
Proof.
  induction 1 as [|v l vs w _ [sh Hsh] Hs Hw]; [eexists; apply view_shape_initial|].
  destruct (view_split_bound _ _ _ Hs) as [n Hn].
  destruct (view_split_shape _ _ _ _ _ Hsh Hn) as (vs' & Hs' & Hvs).
  rewrite Hs in Hs'. injection Hs' as <-. apply list_elem_of_lookup in Hw as [k Hk].
  destruct (Forall2_lookup_r _ _ _ _ _ Hvs Hk) as (k' & _ & Hw & _). by eexists.
Qed.

Lemma product_new {T : Type} dims (data : list T) a :
  nd_new dims data = Some a → nd_dims a = dims ∧ nd_data a = data ∧ length data = product dims.
Proof.
  unfold nd_new, rassert. destruct (length data =? product dims) eqn:El; [|done].
  apply Nat.eqb_eq in El. by intros [= <-].
Qed.

(** C40: Splitting a view on a free dimension gives one view per value of that
    dimension, each with the other dimensions free; the cell at an index of the [k]-th
    view is the cell of the split view at that index with [k] inserted, which is within
    the array's data; and two different views of a split never share a cell, which the
    mutable references that [split] hands out through one raw pointer rely on. *)
Theorem view_split_partitions {T : Type} (dims : list nat) (data : list T) (a : NDArray T)
    (v : ViewMut) (l : nat) (vs : list ViewMut) :
  nd_new dims data = Some a → view_of a v → view_split v l = Some vs →
  vm_bounds v !! l = Some (length vs) ∧
  (∀ k w idx, vs !! k = Some w → in_range (vm_bounds w) idx →
    vm_bounds w = delete l (vm_bounds v) ∧
    ∃ i, flat_index a w idx = Some i ∧ i < length data ∧
      flat_index a v (take l idx ++ k :: drop l idx) = Some i) ∧
  (∀ k k' w w' idx idx', vs !! k = Some w → vs !! k' = Some w' → k ≠ k' →
    in_range (vm_bounds w) idx → in_range (vm_bounds w') idx' →
    flat_index a w idx ≠ flat_index a w' idx').
Proof.
  intros (<- & <- & Hlen)%product_new [sh Hsh]%view_of_shape Hs.
  destruct (view_split_bound _ _ _ Hs) as [n Hn].
  destruct (view_split_shape _ _ _ _ _ Hsh Hn) as (vs' & Hs' & Hvs).
  rewrite Hs in Hs'. injection Hs' as <-.
  pose proof (Forall2_length _ _ _ Hvs) as Hlv. rewrite length_seq in Hlv.
  assert (∀ k w, vs !! k = Some w → view_shape (nd_dims a) (shape_fix l k sh) w ∧
    vm_bounds w = take l (vm_bounds v) ++ drop (S l) (vm_bounds v)) as Hw.
  { intros k w Hk. destruct (Forall2_lookup_r _ _ _ _ _ Hvs Hk) as (k' & Hk' & H).
    by apply lookup_seq in Hk' as [-> _]. }
  pose proof Hsh as (Hok & Hb & Hf). split; [by rewrite <-Hlv|]. split.
  - intros k w idx Hk Hi. destruct (Hw _ _ Hk) as [Hwsh Hwb].
    split; [by rewrite Hwb, delete_take_drop|].
    destruct (flat_index_shape _ _ _ _ Hwsh Hi) as (full & Hfill & Hr & Hflat).
    exists (flatten (nd_dims a) full). split; [done|].
    split; [rewrite Hlen; by apply flatten_bound|]. rewrite <-Hflat.
    pose proof (lookup_lt_Some _ _ _ Hn) as Hll.
    rewrite (shape_fill_fix (nd_dims a) _ _ n) in Hfill; [|done|by rewrite <-Hb|].
    + unfold flat_index. rewrite (flat_loop_shape _ _ sh); [|done|by rewrite drop_0, Hf].
      rewrite drop_0, Hfill. symmetry. apply Hflat.
    + apply Forall2_length in Hi. rewrite Hwb, length_app, length_take, length_drop in Hi. lia.
  - intros k k' w w' idx idx' Hk Hk' Hne Hi Hi' Heq.
    destruct (Hw _ _ Hk) as [Hwsh _], (Hw _ _ Hk') as [Hwsh' _].
    destruct (flat_index_shape _ _ _ _ Hwsh Hi) as (full & Hfill & Hr & Hflat).
    destruct (flat_index_shape _ _ _ _ Hwsh' Hi') as (full' & Hfill' & Hr' & Hflat').
    rewrite Hflat, Hflat' in Heq. injection Heq as Heq.
    apply (flatten_inj _ _ _ Hr Hr') in Heq as <-. rewrite Hb in Hn.
    by apply Hne, (shape_fill_fix_inj _ _ _ _ _ _ _ _ _ Hok Hn Hfill Hfill').
Qed.

Lemma view_split_partitions_witness :
  let a := mkNDArray [2; 3] [5; 6; 7; 8; 9; 10] in
  let vs := [mkViewMut [2] [(1, 0)]; mkViewMut [2] [(1, 1)]; mkViewMut [2] [(1, 2)]] in
  vm_bounds (view_mut a) !! 1 = Some 3 ∧
  (∀ k w idx, vs !! k = Some w → in_range (vm_bounds w) idx →
    vm_bounds w = [2] ∧
    ∃ i, flat_index a w idx = Some i ∧ i < 6 ∧
      flat_index a (view_mut a) (take 1 idx ++ k :: drop 1 idx) = Some i) ∧
  (∀ k k' w w' idx idx', vs !! k = Some w → vs !! k' = Some w' → k ≠ k' →
    in_range (vm_bounds w) idx → in_range (vm_bounds w') idx' →
    flat_index a w idx ≠ flat_index a w' idx').
Proof.
  intros a vs. apply (view_split_partitions [2; 3] [5; 6; 7; 8; 9; 10] a (view_mut a) 1 vs);
    [reflexivity|constructor|reflexivity].
Defined.

Lemma shape_fill_inj ds sh idx idx' full :
  shape_ok ds sh → in_range (shape_bounds ds sh) idx → in_range (shape_bounds ds sh) idx' →
  shape_fill sh idx = Some full → shape_fill sh idx' = Some full → idx = idx'.
Proof.
  intros Hok. revert idx idx' full. induction Hok as [|d [x|] ds sh Ho Hok IH];
    intros idx idx' full; cbn [shape_bounds shape_fill].
  - by intros ->%Forall2_nil_inv_l ->%Forall2_nil_inv_l.
  - intros Hi Hi' (f & Hf & ->)%fmap_Some (f' & Hf' & [= ->])%fmap_Some. by eapply IH.
  - intros Hi Hi'. inversion Hi as [|? y ? l Hy Hl]; subst.
    inversion Hi' as [|? y' ? l' Hy' Hl']; subst.
    intros (f & Hf & ->)%fmap_Some (f' & Hf' & [= -> ->])%fmap_Some. f_equal. by eapply IH.
Qed.

Lemma flat_index_inj {T : Type} (a : NDArray T) sh v idx idx' :
  view_shape (nd_dims a) sh v → in_range (vm_bounds v) idx → in_range (vm_bounds v) idx' →
  flat_index a v idx = flat_index a v idx' → idx = idx'.
Proof.
  intros Hsh Hi Hi'.
  destruct (flat_index_shape _ _ _ _ Hsh Hi) as (full & Hfill & Hr & ->).
  destruct (flat_index_shape _ _ _ _ Hsh Hi') as (full' & Hfill' & Hr' & ->).
  intros [= Heq]. apply (flatten_inj _ _ _ Hr Hr') in Heq as <-.
  destruct Hsh as (Hok & Hb & _). rewrite Hb in *. by eapply shape_fill_inj.
Qed.

Lemma NoDup_indices ds : NoDup (indices ds).
Proof. eapply NoDup_fmap_1. rewrite (flatten_indices ds). apply NoDup_seq. Qed.

(** The iterators of any view of an array terminate without a panic and
    visit each index within the bounds of the view once; the references of
    [enumerate_mut] point to pairwise different cells, and [enumerate] reads those
    cells. *)
Theorem view_iterators_visit_distinct_cells {T : Type} (dims : list nat) (data : list T)
    (a : NDArray T) (v : ViewMut) :
  nd_new dims data = Some a → view_of a v →
  ∃ items cells,
    view_enumerate a v = Some items ∧ view_enumerate_mut a v = Some cells ∧
    items.*1 = indices (vm_bounds v) ∧ cells.*1 = indices (vm_bounds v) ∧
    NoDup (cells.*2) ∧ mapM (λ i, data !! i) (cells.*2) = Some (items.*2).
Proof.
  intros (<- & <- & Hlen)%product_new [sh Hsh]%view_of_shape.
  set (ids := indices (vm_bounds v)).
  assert (∀ idx, idx ∈ ids → ∃ i x, flat_index a v idx = Some i ∧ nd_data a !! i = Some x) as Hall.
  { intros idx Hi%elem_of_indices.
    destruct (flat_index_shape _ _ _ _ Hsh Hi) as (full & _ & Hr & Hflat).
    eexists. pose proof (flatten_bound _ _ Hr) as Hlt. rewrite <-Hlen in Hlt.
    destruct (lookup_lt_is_Some_2 _ _ Hlt) as [x Hx]. by exists x. }
  assert (∃ items cells, mapM (λ idx, item ← view_index a v idx; Some (idx, item)) ids = Some items ∧
    mapM (λ idx, i ← flat_index a v idx; _ ← nd_data a !! i; Some (idx, i)) ids = Some cells ∧
    items.*1 = ids ∧ cells.*1 = ids ∧ mapM (λ i, nd_data a !! i) (cells.*2) = Some (items.*2) ∧
    Forall (λ c, flat_index a v c.1 = Some c.2) cells) as
    (items & cells & Hit & Hce & H1 & H2 & H3 & H4).
  { clear Hsh. induction ids as [|idx ids IH]; [by exists [], []|].
    destruct (Hall idx) as (i & x & Hi & Hx); [left|].
    destruct IH as (items & cells & Hit & Hce & H1 & H2 & H3 & H4).
    { intros j Hj. apply Hall. by right. }
    exists ((idx, x) :: items), ((idx, i) :: cells). unfold view_index in *.
    cbn. rewrite Hi. cbn. rewrite Hx. cbn. rewrite Hit, Hce. cbn.
    split_and!; try done.
    - by rewrite H1.
    - by rewrite H2.
    - by rewrite H3.
    - by constructor. }
  exists items, cells. unfold view_enumerate, view_enumerate_mut.
  rewrite ndrange_collect_indices. cbn [mbind option_bind]. fold ids.
  split_and!; try done.
  apply (NoDup_fmap_1 Some). assert (Some <$> cells.*2 = flat_index a v <$> cells.*1) as ->.
  { clear -H4. induction H4 as [|c cells Hc _ IH]; [done|]. cbn. by rewrite Hc, <-IH. }
  rewrite H2. apply NoDup_fmap_2_strong; [|apply NoDup_indices].
  intros i j Hi%elem_of_indices Hj%elem_of_indices. by eapply flat_index_inj.
Qed.

Lemma view_iterators_visit_distinct_cells_witness :
  let a := mkNDArray [2; 3] [5; 6; 7; 8; 9; 10] in
  let v := mkViewMut [2] [(1, 2)] in
  ∃ items cells,
    view_enumerate a v = Some items ∧ view_enumerate_mut a v = Some cells ∧
    items.*1 = indices [2] ∧ cells.*1 = indices [2] ∧
    NoDup (cells.*2) ∧ mapM (λ i, [5; 6; 7; 8; 9; 10] !! i) (cells.*2) = Some (items.*2).
Proof.
  intros a v. apply (view_iterators_visit_distinct_cells [2; 3] [5; 6; 7; 8; 9; 10] a v).
  - reflexivity.
  - apply (view_part a (view_mut a) 1
      [mkViewMut [2] [(1, 0)]; mkViewMut [2] [(1, 1)]; mkViewMut [2] [(1, 2)]]);
      [constructor|reflexivity|].
    right. right. left.
Defined.
