(* ===== verification/MultiMap.v ===== *)
(** * Maps with several values per key (telamon-utils/src/multimap.rs)

    [MultiHashMap] wraps a hash map from keys to vectors and never keeps an empty
    vector.  The order in which a hash map lists its keys is not specified; here it is
    the order of [map_to_list]. *)
From S2P Require Import Prelude.

Section multi_map.
Context {K V : Type} `{Countable K}.

Record MultiHashMap := mkMultiMap { mm_map : gmap K (list V) }.

Definition mm_new : MultiHashMap := mkMultiMap ∅.

(** [with_capacity], [with_hasher] and [with_capacity_and_hasher] only differ in the
    memory they reserve and in the hash function. *)
Definition mm_with_capacity (capacity : nat) : MultiHashMap := mkMultiMap ∅.
Definition mm_with_hasher {S : Type} (hash_builder : S) : MultiHashMap := mkMultiMap ∅.
Definition mm_with_capacity_and_hasher {S : Type} (capacity : nat) (hasher : S)
  : MultiHashMap := mkMultiMap ∅.
Definition mm_default : MultiHashMap := mm_with_hasher tt.

Definition mm_iter (m : MultiHashMap) : list (K * list V) := map_to_list (mm_map m).
Definition mm_into_iter (m : MultiHashMap) : list (K * list V) := map_to_list (mm_map m).
Definition mm_keys (m : MultiHashMap) : list K := (mm_iter m).*1.
Definition mm_values (m : MultiHashMap) : list V := mjoin ((mm_iter m).*2).

Definition mm_num_keys (m : MultiHashMap) : nat := size (mm_map m).
Definition mm_is_empty (m : MultiHashMap) : bool := bool_decide (mm_map m = ∅).

Definition mm_drain (m : MultiHashMap) : list (K * list V) * MultiHashMap :=
  (map_to_list (mm_map m), mkMultiMap ∅).
Definition mm_clear (m : MultiHashMap) : MultiHashMap := mkMultiMap ∅.

Definition mm_get (m : MultiHashMap) (k : K) : list V :=
  x ← option_list (mm_map m !! k); x.

Definition mm_contains_key (m : MultiHashMap) (k : K) : bool :=
  match mm_map m !! k with Some _ => true | None => false end.

(** The mutable iterators, given what the caller writes through each reference. *)
Definition mm_get_mut (f : V → V) (m : MultiHashMap) (k : K) : MultiHashMap :=
  mkMultiMap (alter (λ l : list V, f <$> l) k (mm_map m)).
Definition mm_values_mut (f : V → V) (m : MultiHashMap) : MultiHashMap :=
  mkMultiMap ((λ l : list V, f <$> l) <$> mm_map m).

(** [map.entry(k).or_insert_with(Vec::new).push(v)]. *)
Definition mm_insert (k : K) (v : V) (m : MultiHashMap) : MultiHashMap :=
  let entry := default [] (mm_map m !! k) in
  mkMultiMap (<[k := entry ++ [v]]> (mm_map m)).

Definition mm_insert_many (k : K) (values : list V) (m : MultiHashMap) : MultiHashMap :=
  match values with
  | [] => m
  | _ :: _ =>
    match mm_map m !! k with
    | Some entry => mkMultiMap (<[k := entry ++ values]> (mm_map m))
    | None => mkMultiMap (<[k := values]> (mm_map m))
    end
  end.

Definition mm_remove (k : K) (m : MultiHashMap) : list V * MultiHashMap :=
  (default [] (mm_map m !! k), mkMultiMap (delete k (mm_map m))).

Definition mm_eq `{EqDecision V} (m other : MultiHashMap) : bool :=
  bool_decide (mm_map m = mm_map other).

(** [map[&k]] panics on an absent key. *)
Definition mm_index (m : MultiHashMap) (k : K) : option (list V) := mm_map m !! k.

Definition mm_from_iter (it : list (K * V)) : MultiHashMap :=
  foldl (λ map '(k, v), mm_insert k v map) mm_default it.

(** [collect] into a hash map: a later binding of a key replaces the former one. *)
Definition mm_from_iter_vec (it : list (K * list V)) : MultiHashMap :=
  mkMultiMap (foldl (λ map '(k, vec), <[k := vec]> map) ∅
    (filter (λ '(_, vec), vec ≠ []) it)).

(** ** The maps that a program builds, and what they stand for *)
Inductive mm_op :=
| OpInsert (k : K) (v : V)
| OpInsertMany (k : K) (values : list V)
| OpRemove (k : K)
| OpClear
| OpGetMut (k : K) (f : V → V)
| OpValuesMut (f : V → V)
| OpFromIter (it : list (K * V))
| OpFromIterVec (it : list (K * list V)).

Definition mm_run (m : MultiHashMap) (op : mm_op) : MultiHashMap :=
  match op with
  | OpInsert k v => mm_insert k v m
  | OpInsertMany k values => mm_insert_many k values m
  | OpRemove k => (mm_remove k m).2
  | OpClear => mm_clear m
  | OpGetMut k f => mm_get_mut f m k
  | OpValuesMut f => mm_values_mut f m
  | OpFromIter it => mm_from_iter it
  | OpFromIterVec it => mm_from_iter_vec it
  end.

(** The reference: a function from keys to the values in order of insertion. *)
Definition upd (s : K → list V) (k : K) (l : list V) : K → list V :=
  λ k', if decide (k' = k) then l else s k'.

Definition spec_run (s : K → list V) (op : mm_op) : K → list V :=
  match op with
  | OpInsert k v => upd s k (s k ++ [v])
  | OpInsertMany k values => upd s k (s k ++ values)
  | OpRemove k => upd s k []
  | OpClear => λ _, []
  | OpGetMut k f => upd s k (f <$> s k)
  | OpValuesMut f => λ k, f <$> s k
  | OpFromIter it => λ k, (filter (λ p, p.1 = k) it).*2
  | OpFromIterVec it =>
      λ k, default [] (last ((filter (λ p, p.1 = k ∧ p.2 ≠ []) it).*2))
  end.

(** ** Theorems *)
Definition mm_wf (m : MultiHashMap) : Prop := ∀ k, mm_map m !! k ≠ Some [].

Lemma mm_wf_empty : mm_wf mm_new.
Proof. intros k. cbn [mm_map mm_new]. by rewrite lookup_empty. Qed.

Lemma mm_get_default m k : mm_get m k = default [] (mm_map m !! k).
Proof. unfold mm_get. destruct (mm_map m !! k); cbn; [apply app_nil_r|done]. Qed.

Lemma mm_insert_get k v m k' :
  mm_get (mm_insert k v m) k' = upd (mm_get m) k (mm_get m k ++ [v]) k'.
Proof.
  rewrite !mm_get_default. unfold upd, mm_insert. cbn [mm_map].
  destruct (decide (k' = k)) as [->|Hne]; [by rewrite lookup_insert_eq|].
  by rewrite lookup_insert_ne, mm_get_default by done.
Qed.

Lemma mm_insert_wf k v m : mm_wf m → mm_wf (mm_insert k v m).
Proof.
  intros Hm k'. unfold mm_insert. cbn [mm_map]. rewrite lookup_insert.
  case_decide; [|apply Hm]. intros [= E]. by destruct (default [] _).
Qed.

Lemma mm_from_iter_get it k :
  mm_wf (mm_from_iter it) ∧ mm_get (mm_from_iter it) k = (filter (λ p, p.1 = k) it).*2.
Proof.
  unfold mm_from_iter. induction it as [|[k' v] it [IHw IH]] using rev_ind.
  { split; [apply mm_wf_empty|done]. }
  rewrite foldl_app. cbn [foldl]. split; [by apply mm_insert_wf|].
  rewrite mm_insert_get, filter_app, fmap_app, filter_cons. unfold upd. cbn [fst].
  destruct (decide (k = k')) as [->|Hne].
  - by rewrite IH, decide_True.
  - rewrite IH, decide_False by congruence. cbn. by rewrite app_nil_r.
Qed.

Lemma mm_from_iter_vec_get it k :
  mm_wf (mm_from_iter_vec it) ∧
  mm_get (mm_from_iter_vec it) k
  = default [] (last ((filter (λ p, p.1 = k ∧ p.2 ≠ []) it).*2)).
Proof.
  rewrite mm_get_default. unfold mm_from_iter_vec, mm_wf. cbn [mm_map].
  induction it as [|[k' l] it [IHw IH]] using rev_ind; [by split; [apply mm_wf_empty|]|].
  rewrite !filter_app, fmap_app, foldl_app, !filter_cons, !filter_nil. cbn [fst snd].
  destruct (decide (l ≠ [])) as [Hl|Hl]; cbn [foldl].
  - split.
    + intros k''. rewrite lookup_insert. case_decide; [congruence|apply IHw].
    + rewrite lookup_insert. destruct (decide (k' = k)) as [->|Hne].
      * rewrite decide_True by done. cbn. by rewrite last_snoc.
      * rewrite decide_False by naive_solver. cbn. by rewrite app_nil_r, IH.
  - split; [done|]. rewrite decide_False by naive_solver. cbn. by rewrite app_nil_r, IH.
Qed.

(** Each operation keeps the invariant and does what the reference does. *)
Lemma mm_run_spec m s op :
  mm_wf m → (∀ k, mm_get m k = s k) →
  mm_wf (mm_run m op) ∧ ∀ k, mm_get (mm_run m op) k = spec_run s op k.
Proof.
  intros Hm Hs. destruct op as [k v|k values|k| |k f|f|it|it]; cbn [mm_run spec_run].
  - split; [by apply mm_insert_wf|]. intros k'. rewrite mm_insert_get. unfold upd.
    by rewrite !Hs.
  - unfold mm_insert_many. destruct values as [|v values].
    { split; [done|]. intros k'. unfold upd. rewrite app_nil_r. by case_decide; subst. }
    destruct (mm_map m !! k) as [l|] eqn:E; (split; intros k'; unfold upd).
    + cbn [mm_map]. rewrite lookup_insert. case_decide; [by destruct l|apply Hm].
    + rewrite mm_get_default. cbn [mm_map]. rewrite lookup_insert, <-!Hs, !mm_get_default.
      destruct (decide (k = k')) as [->|Hne]; [by rewrite decide_True, E|].
      by rewrite decide_False.
    + cbn [mm_map]. rewrite lookup_insert. case_decide; [done|apply Hm].
    + rewrite mm_get_default. cbn [mm_map]. rewrite lookup_insert, <-!Hs, !mm_get_default.
      destruct (decide (k = k')) as [->|Hne]; [by rewrite decide_True, E|].
      by rewrite decide_False.
  - cbn [snd mm_remove]. split; intros k'; unfold upd.
    + cbn [mm_map]. rewrite lookup_delete. case_decide; [done|apply Hm].
    + rewrite mm_get_default. cbn [mm_map]. rewrite lookup_delete, <-Hs, mm_get_default.
      destruct (decide (k = k')) as [->|Hne]; [by rewrite decide_True|by rewrite decide_False].
  - split; [apply mm_wf_empty|done].
  - split; intros k'; unfold upd.
    + cbn [mm_map mm_get_mut]. rewrite lookup_alter.
      case_decide; [|apply Hm]. subst. specialize (Hm k').
      destruct (mm_map m !! k') as [[|]|]; cbn; congruence.
    + rewrite mm_get_default. cbn [mm_map mm_get_mut]. rewrite lookup_alter, <-!Hs, !mm_get_default.
      destruct (decide (k = k')) as [->|Hne]; [rewrite decide_True by done|by rewrite decide_False].
      by destruct (mm_map m !! k').
  - split; intros k'.
    + cbn [mm_map mm_values_mut]. rewrite lookup_fmap. specialize (Hm k').
      destruct (mm_map m !! k') as [[|]|]; cbn; congruence.
    + rewrite mm_get_default. cbn [mm_map mm_values_mut]. rewrite lookup_fmap, <-Hs, mm_get_default.
      by destruct (mm_map m !! k').
  - split; [intros k'; by apply (mm_from_iter_get it k')|intros k; apply mm_from_iter_get].
  - split; [intros k'; by apply (mm_from_iter_vec_get it k')|intros k; apply mm_from_iter_vec_get].
Qed.

Lemma mm_run_all ops m s :
  mm_wf m → (∀ k, mm_get m k = s k) →
  mm_wf (foldl mm_run m ops) ∧ ∀ k, mm_get (foldl mm_run m ops) k = foldl spec_run s ops k.
Proof.
  revert m s. induction ops as [|op ops IH]; intros m s Hm Hs; [done|]. cbn [foldl].
  destruct (mm_run_spec m s op Hm Hs). by apply IH.
Qed.

Lemma mm_wf_lookup m k : mm_wf m → mm_map m !! k = match mm_get m k with [] => None | l => Some l end.
Proof.
  intros Hm. rewrite mm_get_default. specialize (Hm k). by destruct (mm_map m !! k) as [[|]|].
Qed.

(** A [MultiHashMap] built by any sequence of operations behaves as a function from
    keys to the list of their values in order of insertion: [get] and [remove] give that
    list, a key is present exactly when it has a value, the map is empty exactly when no
    key has one, [num_keys] counts the keys that have one, and two maps are equal exactly
    when they bind every key to the same values. *)
Theorem multi_map_refines_lists `{EqDecision V} (ops ops' : list mm_op) :
  let m := foldl mm_run mm_new ops in
  let m' := foldl mm_run mm_new ops' in
  let s := foldl spec_run (λ _, []) ops in
  let s' := foldl spec_run (λ _, []) ops' in
  (∀ k, mm_get m k = s k ∧ (mm_remove k m).1 = s k) ∧
  (∀ k, mm_contains_key m k = true ↔ s k ≠ []) ∧
  (∀ k l, mm_index m k = Some l ↔ s k = l ∧ l ≠ []) ∧
  (mm_is_empty m = true ↔ ∀ k, s k = []) ∧
  (∀ k, k ∈ mm_keys m ↔ s k ≠ []) ∧ NoDup (mm_keys m) ∧
  mm_num_keys m = length (mm_keys m) ∧
  (mm_eq m m' = true ↔ ∀ k, s k = s' k).
Proof.
  intros m m' s s'.
  assert (mm_wf mm_new ∧ ∀ k, mm_get mm_new k = []) as [H0 H1].
  { split; [apply mm_wf_empty|done]. }
  destruct (mm_run_all ops mm_new (λ _, []) H0 H1) as [Hm Hs].
  destruct (mm_run_all ops' mm_new (λ _, []) H0 H1) as [Hm' Hs']. fold m s in Hm, Hs.
  fold m' s' in Hm', Hs'. clearbody m m' s s'. clear H0 H1.
  assert (∀ k, mm_map m !! k = match s k with [] => None | l => Some l end) as Hl.
  { intros k. by rewrite <-Hs, mm_wf_lookup. }
  assert (∀ k, mm_map m' !! k = match s' k with [] => None | l => Some l end) as Hl'.
  { intros k. by rewrite <-Hs', mm_wf_lookup. }
  split_and!.
  - intros k. split; [done|]. by rewrite <-Hs, mm_get_default.
  - intros k. unfold mm_contains_key. rewrite Hl. by destruct (s k).
  - intros k l. unfold mm_index. rewrite Hl. destruct (s k); naive_solver.
  - unfold mm_is_empty. rewrite bool_decide_eq_true. split.
    + intros E k. specialize (Hl k). rewrite E, lookup_empty in Hl. by destruct (s k).
    + intros Hk. apply map_empty. intros k. by rewrite Hl, Hk.
  - intros k. unfold mm_keys, mm_iter. rewrite list_elem_of_fmap. split.
    + intros ([k' l] & -> & Hin%elem_of_map_to_list). cbn. rewrite Hl in Hin. by destruct (s k').
    + intros Hk. exists (k, s k). split; [done|]. apply elem_of_map_to_list. rewrite Hl.
      by destruct (s k).
  - apply NoDup_fst_map_to_list.
  - unfold mm_num_keys, mm_keys, mm_iter. by rewrite length_fmap, length_map_to_list.
  - unfold mm_eq. rewrite bool_decide_eq_true. split.
    + intros E k. specialize (Hl k). rewrite E, Hl' in Hl. destruct (s k), (s' k); congruence.
    + intros Hk. apply map_eq. intros k. by rewrite Hl, Hl', Hk.
Qed.
End multi_map.
