(* ===== verification/Permutations.v ===== *)
(** * Partial permutations (telamon-utils/src/iterator.rs)

    [PartialPermutations] lists the permutations of size [k] of a set of values in
    lexicographic order, in place: the vector holds the current permutation followed by
    the unused values in decreasing order, and the next permutation is made with raw
    copies. *)
From S2P Require Import Prelude VecSet.

Section partial_permutations.
Context {A : Type} `{RustOrd A}.

Record PartialPermutations := mkPermutations {
  pp_permutation : list A;
  pp_finished : bool;
  pp_k : nat
}.

Definition pp_new (values : list A) (k : nat) : PartialPermutations :=
  let values := rsort values in
  let values := if k <? length values then take k values ++ reverse (drop k values)
                else values in
  {| pp_permutation := values; pp_finished := length values <? k; pp_k := k |}.

Definition rgtb (x y : A) : bool := match rcmp x y with Gt => true | _ => false end.

(** [while i > 0 && permutation[i - 1] > permutation[i] { i -= 1 }]. *)
Fixpoint pp_scan (perm : list A) (i : nat) : option nat :=
  match i with
  | 0 => Some 0
  | S i' =>
    x ← perm !! i'; y ← perm !! i;
    if rgtb x y then pp_scan perm i' else Some i
  end.

(** [iter().rposition(..)]: the last position that satisfies the predicate. *)
Definition rposition (f : A → bool) (l : list A) : option nat :=
  foldr (λ i acc, match acc with
                  | Some j => Some j
                  | None => match l !! i with Some x => if f x then Some i else None | None => None end
                  end) None (seq 0 (length l)).

(** [slice::swap]. *)
Definition vec_swap (i j : nat) (l : list A) : option (list A) :=
  x ← l !! i; y ← l !! j; Some (<[j := x]> (<[i := y]> l)).

(** The [unsafe] block: [buffer] receives the end of the vector, the unused values move
    to position [k], and [buffer] comes back reversed before them. *)
Definition pp_advance (k i : nat) (perm : list A) : option (list A) :=
  let n := length perm in
  rassert ((i <=? k) && (k <=? n));;
  let buffer := take (k - i) (drop (n - k + i) perm) in
  perm ← buf_copy i k (n - k) perm;
  foldM (λ perm j,
    x ← buffer !! j;
    rassert (k - j - 1 <? length perm);;
    Some (<[k - j - 1 := x]> perm)) (seq 0 (k - i)) perm.

Definition pp_next (s : PartialPermutations) : option (option (list A) * PartialPermutations) :=
  if pp_finished s then Some (None, s)
  else
    let combination := take (pp_k s) (pp_permutation s) in
    i ← pp_scan (pp_permutation s) (Nat.min (pp_k s) (length (pp_permutation s) - 1));
    s' ← match i with
         | 0 => Some {| pp_permutation := pp_permutation s; pp_finished := true; pp_k := pp_k s |}
         | S i' =>
           x ← pp_permutation s !! i';
           swap_id ← rposition (λ y, rgtb y x) (pp_permutation s);
           perm ← vec_swap i' swap_id (pp_permutation s);
           perm ← pp_advance (pp_k s) i perm;
           Some {| pp_permutation := perm; pp_finished := false; pp_k := pp_k s |}
         end;
    Some (Some combination, s').

Fixpoint pp_collect (fuel : nat) (s : PartialPermutations) : option (list (list A)) :=
  match fuel with
  | 0 => None
  | S fuel =>
    '(out, s) ← pp_next s;
    match out with
    | None => Some []
    | Some x => rest ← pp_collect fuel s; Some (x :: rest)
    end
  end.
End partial_permutations.

Arguments PartialPermutations A : clear implicits.

Example permutations_3_2 : pp_collect 10 (pp_new [2; 0; 1] 2)
  = Some [[0; 1]; [0; 2]; [1; 0]; [1; 2]; [2; 0]; [2; 1]].
Proof. vm_compute. reflexivity. Qed.

Example permutations_4_3 : length <$> pp_collect 100 (pp_new [2; 0; 1; 3] 3) = Some 24.
Proof. vm_compute. reflexivity. Qed.

Example permutations_duplicates : pp_next (pp_new [0; 0] 1) = None.
Proof. vm_compute. reflexivity. Qed.

(** ** Decreasing lists and the lexicographic order *)
Section lexicographic.
Context {A : Type} `{RustOrd A}.
Implicit Types (x y : A) (l k w p q : list A).

Definition desc l : Prop := strict_sorted (reverse l).

Lemma desc_app l k : desc (l ++ k) ↔ desc l ∧ desc k ∧ (∀ x y, x ∈ l → y ∈ k → rlt y x).
Proof.
  unfold desc. rewrite reverse_app, strict_sorted_app. split.
  - intros (Hk & Hl & Hlt). split_and!; [done|done|]. intros x y Hx Hy.
    apply Hlt; by rewrite elem_of_reverse.
  - intros (Hl & Hk & Hlt). split_and!; [done|done|]. intros x y.
    rewrite !elem_of_reverse. auto.
Qed.

Lemma desc_singleton x : desc [x].
Proof. repeat constructor. Qed.

Lemma desc_cons x l : desc (x :: l) ↔ (∀ y, y ∈ l → rlt y x) ∧ desc l.
Proof.
  change (x :: l) with ([x] ++ l). rewrite desc_app. split.
  - intros (_ & Hl & Hlt). split; [|done]. intros y. apply Hlt. left.
  - intros [Hlt Hl]. split_and!; [apply desc_singleton|done|].
    intros ? y ->%list_elem_of_singleton. apply Hlt.
Qed.

(** The order of [Vec]. *)
Fixpoint lexlt p q : Prop :=
  match p, q with
  | x :: p, y :: q => rlt x y ∨ (x = y ∧ lexlt p q)
  | [], _ :: _ => True
  | _, [] => False
  end.

#[global] Instance lexlt_dec p q : Decision (lexlt p q).
Proof.
  revert q. induction p as [|x p IH]; intros [|y q]; cbn; [by right; intros []|by left|by right; intros []|].
  unfold rlt. destruct (rcmp x y) eqn:E.
  - apply rcmp_eq in E as ->. destruct (IH q) as [?|?]; [left; by right|right].
    intros [?|[_ ?]]; [|done]. congruence.
  - left. by left.
  - right. intros [?|[Hxy _]]; [done|]. apply rcmp_eq in Hxy. congruence.
Defined.

Lemma lexlt_app p q q' : lexlt (p ++ q) (p ++ q') ↔ lexlt q q'.
Proof.
  induction p as [|x p IH]; [done|]. cbn. rewrite IH. split; [|auto].
  intros [Hx|[_ ?]]; [by apply rlt_irrefl in Hx|done].
Qed.

Lemma lexlt_irrefl p : ¬ lexlt p p.
Proof. induction p as [|x p IH]; cbn; [by intros []|]. intros [Hx%rlt_irrefl|[_ ?]]; auto. Qed.

Lemma lexlt_trans p q l : lexlt p q → lexlt q l → lexlt p l.
Proof.
  revert q l. induction p as [|x p IH]; intros [|y q] [|z l]; cbn; try done.
  intros [Hxy|[-> Hpq]] [Hyz|[-> Hql]]; eauto. left. by transitivity y.
Qed.

Lemma lexlt_total p q : length p = length q → p = q ∨ lexlt p q ∨ lexlt q p.
Proof.
  revert q. induction p as [|x p IH]; intros [|y q] Hl; try done; [by left|].
  injection Hl as Hl. cbn. destruct (rcmp x y) eqn:E.
  - apply rcmp_eq in E as ->. destruct (IH q Hl) as [->|[?|?]]; auto.
  - right. left. by left.
  - right. right. left. by apply rcmp_gt_lt.
Qed.

(** A lexicographic comparison is decided at the first difference. *)
Lemma lexlt_split p q :
  length p = length q → lexlt p q →
  ∃ c x y p' q', p = c ++ x :: p' ∧ q = c ++ y :: q' ∧ rlt x y.
Proof.
  revert q. induction p as [|x p IH]; intros [|y q] Hl; cbn; try done.
  injection Hl as Hl. intros [Hxy|[-> Hpq]].
  - by exists [], x, y, p, q.
  - destruct (IH q Hl Hpq) as (c & x' & y' & p' & q' & -> & -> & Hlt).
    by exists (y :: c), x', y', p', q'.
Qed.

(** A decreasing list starts with its greatest partial permutation, an increasing one
    with its least. *)
Lemma desc_maximal w d :
  desc w → NoDup d → d ⊆ w → ¬ lexlt (take (length d) w) d.
Proof.
  revert d. induction w as [|x w IH]; intros d Hw Hd Hsub.
  { destruct d as [|y d]; [by intros []|]. by assert (y ∈ []) as ?%elem_of_nil by (apply Hsub; left). }
  destruct d as [|y d]; [by intros []|]. apply desc_cons in Hw as [Hx Hw].
  apply NoDup_cons in Hd as [Hy Hd]. cbn. intros [Hlt|[<- Hlt]].
  - assert (y ∈ x :: w) as [->|Hyw]%elem_of_cons by (apply Hsub; left).
    + by apply rlt_irrefl in Hlt.
    + by apply (rlt_asym _ _ Hlt), Hx.
  - apply (IH d Hw Hd); [|done]. intros z Hz.
    assert (z ∈ x :: w) as [->|?]%elem_of_cons by (apply Hsub; by right); [|done].
    by destruct Hy.
Qed.

Lemma asc_minimal s d :
  strict_sorted s → NoDup d → d ⊆ s →
  take (length d) s = d ∨ lexlt (take (length d) s) d.
Proof.
  revert d. induction s as [|x s IH]; intros d Hs Hd Hsub.
  { destruct d as [|y d]; [by left|].
    by assert (y ∈ []) as ?%elem_of_nil by (apply Hsub; left). }
  destruct d as [|y d]; [by left|]. apply strict_sorted_cons in Hs as [Hx Hs].
  apply NoDup_cons in Hd as [Hy Hd]. rewrite Forall_forall in Hx. cbn.
  assert (y ∈ x :: s) as [->|Hys]%elem_of_cons by (apply Hsub; left); cycle 1.
  { right. left. by apply Hx. }
  destruct (IH d Hs Hd) as [->|Hlt]; [|by left|by right; right].
  intros z Hz. assert (z ∈ x :: s) as [->|?]%elem_of_cons by (apply Hsub; by right); [|done].
  by destruct Hy.
Qed.

(** The partial permutations of size [k] of [vals]. *)
Definition is_partial_permutation (vals : list A) (k : nat) (q : list A) : Prop :=
  length q = k ∧ NoDup q ∧ q ⊆ vals.

Fixpoint all_lists (k : nat) (vals : list A) : list (list A) :=
  match k with 0 => [[]] | S k => x ← vals; cons x <$> all_lists k vals end.

Lemma elem_of_all_lists (k : nat) (vals q : list A) : length q = k → q ⊆ vals → q ∈ all_lists k vals.
Proof.
  revert q. induction k as [|k IH]; intros q Hl Hq.
  { apply nil_length_inv in Hl as ->. left. }
  destruct q as [|x q]; [done|]. injection Hl as Hl. cbn. apply list_elem_of_bind.
  exists x. split; [|apply Hq; left]. apply list_elem_of_fmap. exists q. split; [done|].
  apply IH; [done|]. intros y Hy. apply Hq. by right.
Qed.
End lexicographic.

(** ** The steps of [next] *)
Section next.
Context {A : Type} `{RustOrd A}.
Implicit Types (x y : A) (l w p q t a c : list A).

Lemma rgtb_spec x y : rgtb x y = true ↔ rlt y x.
Proof. unfold rgtb. rewrite <-rcmp_gt_lt. by destruct (rcmp x y). Qed.

(** The scan stops at the start of the longest decreasing suffix. *)
Lemma pp_scan_spec a c :
  desc c → c ≠ [] → NoDup (a ++ c) →
  ∃ i, pp_scan (a ++ c) (length a) = Some i ∧
    ((i = 0 ∧ desc (a ++ c)) ∨
     ∃ a' x w, a ++ c = a' ++ x :: w ∧ i = S (length a') ∧ length a' < length a ∧
       desc w ∧ ∃ y, head w = Some y ∧ rlt x y).
Proof.
  revert c. induction a as [|x a IH] using rev_ind; intros c Hc Hne Hnd.
  { exists 0. split; [done|]. by left. }
  destruct c as [|y c]; [done|]. rewrite length_app, Nat.add_comm, <-app_assoc in *.
  cbn [length app Nat.add pp_scan] in *.
  rewrite (list_lookup_middle a (y :: c) x (length a)) by done.
  assert ((a ++ x :: y :: c) !! S (length a) = Some y) as ->.
  { rewrite cons_middle, app_assoc. apply list_lookup_middle. rewrite length_app. cbn. lia. }
  cbn [mbind option_bind].
  destruct (rgtb x y) eqn:E.
  - apply rgtb_spec in E. destruct (IH (x :: y :: c)) as (i & Hi & Hspec).
    + apply desc_cons. split; [|done]. apply desc_cons in Hc as [Hy _].
      intros z [->|Hz]%elem_of_cons; [done|]. transitivity y; [by apply Hy|done].
    + done.
    + done.
    + exists i. split; [done|]. destruct Hspec as [?|(a' & z & w & H1 & H2 & H3 & H4)]; [by left|].
      right. exists a', z, w. destruct H4. split_and!; [done|done|lia|done|done].
  - exists (S (length a)). split; [done|]. right. exists a, x, (y :: c).
    split_and!; try done; [lia|]. exists y. split; [done|].
    destruct (rcmp x y) eqn:Exy.
    + apply rcmp_eq in Exy as ->. apply NoDup_app in Hnd as (_ & _ & Hnd).
      apply NoDup_cons in Hnd as [Hy _]. destruct Hy. left.
    + done.
    + apply rcmp_gt_lt, rgtb_spec in Exy. congruence.
Qed.

(** The values of a decreasing list above [x] come first. *)
Lemma desc_pivot x w :
  desc w → x ∉ w → (∃ y, head w = Some y ∧ rlt x y) →
  ∃ w1 y w2, w = w1 ++ y :: w2 ∧ rlt x y ∧ (∀ z, z ∈ w1 → rlt x z) ∧
    (∀ z, z ∈ w2 → rlt z x).
Proof.
  induction w as [|y w IH]; intros Hw Hx (y' & Hy & Hlt); [done|].
  injection Hy as <-. apply desc_cons in Hw as [Hyw Hw].
  apply not_elem_of_cons in Hx as [Hxy Hx].
  destruct w as [|z w].
  { exists [], y, []. split_and!; try done; intros z Hz; by apply elem_of_nil in Hz. }
  destruct (rcmp x z) eqn:E.
  - apply rcmp_eq in E as ->. destruct Hx. left.
  - destruct IH as (w1 & y2 & w2 & Heq & H1 & H2 & H3); [done|done|by exists z|].
    exists (y :: w1), y2, w2. split_and!; try done; [by rewrite Heq|].
    intros u [->|Hu]%elem_of_cons; [done|by apply H2].
  - exists [], y, (z :: w). split_and!; try done.
    + intros u Hu. by apply elem_of_nil in Hu.
    + apply rcmp_gt_lt in E. apply desc_cons in Hw as [Hz _].
      intros u [->|Hu]%elem_of_cons; [done|]. transitivity z; [by apply Hz|done].
Qed.

Lemma rposition_spec (f : A → bool) l y k :
  f y = true → (∀ z, z ∈ k → f z = false) → rposition f (l ++ y :: k) = Some (length l).
Proof.
  intros Hy Hk. unfold rposition. rewrite length_app. cbn [length].
  rewrite seq_app, foldr_app. cbn [seq foldr Nat.add].
  assert (∀ n m acc, (∀ i, n ≤ i < n + m → ∀ z, (l ++ y :: k) !! i = Some z → f z = false) →
    foldr (λ i acc, match acc with
                  | Some j => Some j
                  | None => match (l ++ y :: k) !! i with Some x => if f x then Some i else None | None => None end
                  end) acc (seq n m) = acc) as Hskip.
  { intros n m. revert n. induction m as [|m IH]; intros n acc Hn; [done|].
    cbn [seq foldr]. rewrite IH by (intros i Hi; apply Hn; lia).
    destruct acc as [j|]; [done|].
    destruct ((l ++ y :: k) !! n) as [z|] eqn:Ez; [|done].
    by rewrite (Hn n ltac:(lia) z Ez). }
  rewrite (Hskip (S (length l)) (length k)); cycle 1.
  { intros i Hi z Hz. apply Hk. rewrite lookup_app_r in Hz by lia.
    destruct (i - length l) as [|j] eqn:Ej; [lia|].
    cbn in Hz. by eapply list_elem_of_lookup_2. }
  rewrite (list_lookup_middle l k y (length l)), Hy by done.
  assert (∀ ns, foldr (λ i acc, match acc with
                  | Some j => Some j
                  | None => match (l ++ y :: k) !! i with Some x => if f x then Some i else None | None => None end
                  end) (Some (length l)) ns = Some (length l)) as ->; [|done].
  induction ns as [|n ns IH]; [done|]. cbn [foldr]. by rewrite IH.
Qed.

Lemma vec_swap_spec a x w1 y w2 :
  vec_swap (length a) (length a + S (length w1)) (a ++ x :: w1 ++ y :: w2)
  = Some (a ++ y :: w1 ++ x :: w2).
Proof.
  unfold vec_swap. rewrite (list_lookup_middle a _ x (length a)) by done.
  rewrite (lookup_app_r a _ (length a + S (length w1))) by lia. replace (length a + S (length w1) - length a)
    with (S (length w1)) by lia. cbn [lookup list_lookup mbind option_bind].
  rewrite (list_lookup_middle w1 _ y) by done. cbn [mbind option_bind]. f_equal.
  rewrite insert_app_r_alt, Nat.sub_diag by lia. cbn [insert list_insert].
  rewrite insert_app_r. cbn [insert list_insert].
  change (a ++ y :: <[length w1:=x]> (w1 ++ y :: w2) = a ++ y :: w1 ++ x :: w2).
  by rewrite insert_app_r_alt, Nat.sub_diag by lia.
Qed.

(** The second loop writes [buffer] backwards. *)
Lemma write_back_spec a (buffer old r t : list A) (k j : nat) :
  length old = length r → drop j buffer = r → k = length a + j + length r →
  foldM (λ perm j, x ← buffer !! j; rassert (k - j - 1 <? length perm);;
                   Some (<[k - j - 1 := x]> perm)) (seq j (length r)) (a ++ old ++ t)
  = Some (a ++ reverse r ++ t).
Proof.
  revert old t j. induction r as [|x r IH]; intros old t j Hl Hd Hk.
  { by apply nil_length_inv in Hl as ->. }
  destruct old as [|o old _] using rev_ind; [done|].
  rewrite length_app in Hl. cbn [length seq foldM] in *.
  rewrite <-(Nat.add_0_r j) at 1. rewrite <-lookup_drop, Hd.
  cbn [lookup list_lookup mbind option_bind].
  replace (k - j - 1) with (length (a ++ old)) by (rewrite length_app; lia).
  rewrite <-(app_assoc old), (app_assoc a). unfold rassert.
  rewrite (proj2 (Nat.ltb_lt _ _)) by (rewrite (length_app (a ++ old)); cbn; lia).
  cbn [mbind option_bind]. rewrite insert_app_r_alt, Nat.sub_diag by done.
  cbn [app insert list_insert]. rewrite <-app_assoc, IH; [|lia| |lia].
  - by rewrite reverse_cons, <-app_assoc.
  - rewrite <-Nat.add_1_r, <-drop_drop, Hd. done.
Qed.

Lemma pp_advance_spec a w (k : nat) :
  length a ≤ k → k ≤ length (a ++ w) →
  pp_advance k (length a) (a ++ w) =
  Some (a ++ reverse (drop (length (a ++ w) - k) w) ++ take (length (a ++ w) - k) w).
Proof.
  intros Hik Hkn. rewrite length_app in *. unfold pp_advance, rassert.
  rewrite length_app, !(proj2 (Nat.leb_le _ _)) by lia. cbn [andb mbind option_bind].
  set (m := length a + length w - k).
  assert (take (k - length a) (drop (m + length a) (a ++ w)) = drop m w) as ->.
  { rewrite Nat.add_comm, <-drop_drop, drop_app_length. apply take_ge.
    rewrite length_drop. lia. }
  unfold buf_copy, rassert. rewrite length_app, !(proj2 (Nat.leb_le _ _)) by lia.
  cbn [andb mbind option_bind]. rewrite drop_app_length, (drop_ge _ (k + m)), app_nil_r
    by (rewrite length_app; lia).
  rewrite take_app, (take_ge a) by lia. rewrite <-app_assoc.
  replace (k - length a) with (length (drop m w)) by (rewrite length_drop; lia).
  apply write_back_spec; rewrite ?length_take, ?length_drop; [lia|done|lia].
Qed.
End next.

(** ** The iterator lists the partial permutations in order *)
Section enumeration.
Context {A : Type} `{RustOrd A}.
Implicit Types (x y : A) (vals w p q t a c : list A) (s : PartialPermutations A) (k : nat).

(** A running iterator: the current permutation, then the unused values. *)
Definition pp_state vals k p t s : Prop :=
  s = {| pp_permutation := p ++ t; pp_finished := false; pp_k := k |} ∧
  length p = k ∧ p ++ t ≡ₚ vals ∧ desc t.

Lemma scan_start p t :
  p ++ t ≠ [] → desc t →
  ∃ a c, p ++ t = a ++ c ∧ length a = Nat.min (length p) (length (p ++ t) - 1) ∧
    desc c ∧ c ≠ [].
Proof.
  intros Hne Ht. rewrite length_app. destruct t as [|y t].
  - rewrite app_nil_r in *. destruct p as [|x p _] using rev_ind; [done|].
    exists p, [x]. rewrite length_app. cbn. split_and!; [done|lia|apply desc_singleton|done].
  - exists p, (y :: t). cbn. split_and!; [done|lia|done|done].
Qed.

(** What a partial permutation that shares a prefix may use after it. *)
Lemma rest_subseteq vals a L d :
  vals ≡ₚ a ++ L → NoDup (a ++ d) → a ++ d ⊆ vals → d ⊆ L ∧ NoDup d.
Proof.
  intros Hp (_ & Hdisj & Hd)%NoDup_app Hsub. split; [|done]. intros z Hz.
  assert (z ∈ vals) as Hv by (apply Hsub, elem_of_app; by right).
  rewrite Hp in Hv. apply elem_of_app in Hv as [Hza|]; [|done]. by destruct (Hdisj z Hza).
Qed.

Lemma last_permutation vals k p t q :
  length p = k → p ++ t ≡ₚ vals → desc (p ++ t) → is_partial_permutation vals k q →
  ¬ lexlt p q.
Proof.
  intros Hl Hp Hd (Hq & Hnd & Hsub) Hlt. apply (desc_maximal (p ++ t) q Hd Hnd).
  - by rewrite Hp.
  - by rewrite Hq, <-Hl, take_app_length.
Qed.

(** The prefix [a ++ [y]] followed by the least values is the immediate successor.
    First against a permutation that differs right after [a]. *)
Lemma next_least_same_prefix vals a x w w1 y w2 v q :
  a ++ x :: w ≡ₚ vals → desc w → w = w1 ++ y :: w2 → (∀ z, z ∈ w2 → rlt z x) →
  desc (w1 ++ x :: w2) → NoDup (a ++ v :: q) → a ++ v :: q ⊆ vals → rlt x v →
  let r := take (length q) (reverse (w1 ++ x :: w2)) in
  a ++ y :: r = a ++ v :: q ∨ lexlt (a ++ y :: r) (a ++ v :: q).
Proof.
  intros Hp Hdw Hw Hw2 Hdw' Hnd Hsub Hxv r.
  destruct (rest_subseteq vals a (x :: w) (v :: q)) as [Hvs Hndv]; [done|done|done|].
  apply NoDup_cons in Hndv as [Hvq Hndq].
  assert (v ∈ x :: w) as [->|Hv]%elem_of_cons by (apply Hvs; left);
    [by apply rlt_irrefl in Hxv|].
  rewrite Hw in Hv. apply elem_of_app in Hv as [Hv|[->|Hv]%elem_of_cons].
  - right. apply lexlt_app. left. rewrite Hw in Hdw.
    apply desc_app in Hdw as (_ & _ & Hdw). apply Hdw; [done|left].
  - destruct (asc_minimal (reverse (w1 ++ x :: w2)) q) as [Heq|Hless]; [done|done| | |].
    + intros z Hz. rewrite elem_of_reverse, elem_of_app, elem_of_cons.
      assert (z ∈ x :: w) as Hzw by (apply Hvs; by right).
      rewrite Hw, elem_of_cons, elem_of_app, elem_of_cons in Hzw.
      destruct Hzw as [?|[?|[->|?]]]; auto. by destruct Hvq.
    + left. unfold r. by rewrite Heq.
    + right. apply lexlt_app. by right.
  - destruct (rlt_asym x v Hxv). by apply Hw2.
Qed.

Lemma next_permutation_least vals k a x w w1 y w2 q :
  a ++ x :: w ≡ₚ vals → length a < k → k ≤ length vals → desc w →
  w = w1 ++ y :: w2 → rlt x y → (∀ z, z ∈ w2 → rlt z x) → desc (w1 ++ x :: w2) →
  let m := k - S (length a) in
  is_partial_permutation vals k q → lexlt (a ++ x :: take m w) q →
  let r := take m (reverse (w1 ++ x :: w2)) in
  a ++ y :: r = q ∨ lexlt (a ++ y :: r) q.
Proof.
  intros Hp Hak Hkn Hdw Hw Hxy Hw2 Hdw' m (Hq & Hnd & Hsub) Hlt r.
  pose proof (Permutation_length Hp) as Hlen. rewrite length_app in Hlen. cbn [length] in Hlen.
  assert (length (a ++ x :: take m w) = k) as Hlm.
  { rewrite length_app. cbn [length]. rewrite length_take. lia. }
  apply lexlt_split in Hlt as (c & u & v & p' & q' & Hpe & -> & Huv); [|by rewrite Hq].
  rewrite length_app in Hq. cbn [length] in Hq.
  destruct (Nat.lt_trichotomy (length c) (length a)) as [Hc|[Hc|Hc]].
  - (* the difference is inside [a] *) right.
    apply app_eq_inv in Hpe as [(l & -> & Hl)|(l & -> & Hl)];
      [|rewrite length_app in Hc; lia].
    destruct l as [|u' l]; [rewrite app_nil_r in Hc; lia|]. injection Hl as -> _.
    rewrite <-app_assoc. apply lexlt_app. by left.
  - apply app_inj_1 in Hpe as [<- [= <- _]]; [|done]. unfold r.
    replace m with (length q') by lia. by eapply next_least_same_prefix.
  - (* a larger permutation with the prefix [a ++ [x]] would exceed the greatest one *)
    apply app_eq_inv in Hpe as [(l & -> & Hl)|(l & -> & Hl)];
      [rewrite length_app in Hc; lia|].
    destruct l as [|x' l]; [rewrite app_nil_r in Hc; lia|]. injection Hl as <- Hl. exfalso.
    rewrite <-app_assoc in Hnd, Hsub. cbn [app] in Hnd, Hsub.
    assert (vals ≡ₚ (a ++ [x]) ++ w) as Hp' by (by rewrite <-app_assoc, <-Hp).
    destruct (rest_subseteq vals (a ++ [x]) w (l ++ v :: q')) as [Hvs Hndv];
      [done|by rewrite <-app_assoc|by rewrite <-app_assoc|].
    apply (desc_maximal w _ Hdw Hndv Hvs). rewrite !length_app in Hq. cbn [length] in Hq.
    replace (length (l ++ v :: q')) with m by (rewrite length_app; cbn [length]; lia).
    rewrite Hl. apply lexlt_app. by left.
Qed.

(** What one step writes: the pivot [x] is exchanged with [y], the values after it are
    put back in order. *)
Lemma pp_make_next a x w1 y w2 (k : nat) (B : Type) (f : list A → option B) :
  length a < k → k ≤ length a + S (length (w1 ++ y :: w2)) →
  rlt x y → (∀ z, z ∈ w2 → rlt z x) →
  let perm := a ++ x :: w1 ++ y :: w2 in
  let w' := w1 ++ x :: w2 in
  let m := k - S (length a) in
  (swap_id ← rposition (λ z, rgtb z x) perm;
   perm ← vec_swap (length a) swap_id perm;
   perm ← pp_advance k (S (length a)) perm;
   f perm)
  = f ((a ++ y :: take m (reverse w')) ++ take (length w' - m) w').
Proof.
  intros Hak Hkn Hxy Hw2 perm w' m.
  assert (rposition (λ z, rgtb z x) perm = Some (length a + S (length w1))) as ->.
  { unfold perm. rewrite (app_comm_cons w1), app_assoc, rposition_spec.
    - by rewrite length_app.
    - by apply rgtb_spec.
    - intros z Hz%Hw2. destruct (rgtb z x) eqn:E; [|done]. apply rgtb_spec in E.
      by destruct (rlt_asym z x). }
  cbn [mbind option_bind]. unfold perm. rewrite vec_swap_spec. cbn [mbind option_bind].
  rewrite length_app in Hkn. cbn [length] in Hkn. fold w'.
  assert (length w' = length w1 + S (length w2)) as Hlw by (unfold w'; by rewrite length_app).
  rewrite (cons_middle y a), app_assoc.
  assert (length (a ++ [y]) = S (length a)) as Hay by (rewrite length_app; cbn; lia).
  rewrite <-Hay at 1. rewrite pp_advance_spec by (rewrite ?(length_app (a ++ [y])); lia).
  cbn [mbind option_bind]. f_equal. rewrite (length_app (a ++ [y])), Hay, <-app_assoc.
  replace (S (length a) + length w' - k) with (length w' - m) by lia.
  rewrite take_reverse, <-!app_assoc. done.
Qed.

Lemma desc_exchange w1 x y w2 :
  desc (w1 ++ y :: w2) → (∀ z, z ∈ w1 → rlt x z) → (∀ z, z ∈ w2 → rlt z x) →
  desc (w1 ++ x :: w2).
Proof.
  intros (Hd1 & Hd2 & Hd3)%desc_app Hw1 Hw2. apply desc_cons in Hd2 as [_ Hd2].
  apply desc_app. split_and!; [done|by apply desc_cons|].
  intros z u Hz [->|Hu]%elem_of_cons; [by apply Hw1|]. apply Hd3; [done|by right].
Qed.

(** One step of the iterator. *)
Lemma pp_next_step vals k p t s :
  NoDup vals → pp_state vals k p t s →
  ∃ s', pp_next s = Some (Some p, s') ∧
    ((pp_finished s' = true ∧ ∀ q, is_partial_permutation vals k q → ¬ lexlt p q) ∨
     ∃ p' t', pp_state vals k p' t' s' ∧ lexlt p p' ∧
       ∀ q, is_partial_permutation vals k q → lexlt p q → p' = q ∨ lexlt p' q).
Proof.
  intros Hnd (-> & Hl & Hp & Ht). unfold pp_next. cbn [pp_finished pp_k pp_permutation].
  cbv zeta. rewrite (take_app_length' p t k) by done.
  assert (NoDup (p ++ t)) as Hndp by (by rewrite Hp).
  destruct (decide (p ++ t = [])) as [Hnil|Hne].
  { rewrite Hnil. cbn [length]. rewrite Nat.min_0_r. cbn [pp_scan mbind option_bind].
    eexists. split; [done|]. left. split; [done|]. intros q Hq.
    eapply last_permutation; [done|done| |done]. rewrite Hnil. by constructor. }
  destruct (scan_start p t Hne Ht) as (a & c & Heq & Ha & Hc & Hcne).
  rewrite Hl in Ha. rewrite <-Ha, Heq. rewrite Heq in Hndp.
  destruct (pp_scan_spec a c Hc Hcne Hndp) as (i & -> & Hi). cbn [mbind option_bind].
  destruct Hi as [[-> Hd]|(a' & x & w & Hac & -> & Hlt & Hw & Hhead)].
  { eexists. split; [done|]. left. split; [done|]. intros q Hq.
    eapply last_permutation; [done|done| |done]. by rewrite Heq. }
  rewrite Hac, (list_lookup_middle a' w x (length a')) by done. cbn [mbind option_bind].
  rewrite Hac in Hndp. pose proof Hndp as (_ & _ & [Hxw _]%NoDup_cons)%NoDup_app.
  destruct (desc_pivot x w Hw Hxw Hhead) as (w1 & y & w2 & Heqw & Hxy & Hw1 & Hw2).
  pose proof Hw as Hw'. rewrite Heqw in Hw'. apply (desc_exchange _ x) in Hw'; [|done..].
  rewrite Heq, Hac in Hp. pose proof (Permutation_length Hp) as Hlen.
  assert (p ++ t = a' ++ x :: w) as Hpt by (by rewrite Heq).
  pose proof (f_equal length Hpt) as Hlpt. rewrite !length_app in Hlpt. cbn [length] in Hlpt.
  assert (length a' < k ∧ k ≤ length vals) as [Hak Hkn].
  { rewrite length_app in Hlen. cbn [length] in Hlen. lia. }
  assert (p = a' ++ x :: take (k - S (length a')) w) as Hpe.
  { rewrite <-(take_app_length' p t k) by done. rewrite Hpt, take_app, take_ge by lia.
    f_equal. by replace (k - length a') with (S (k - S (length a'))) by lia. }
  rewrite Heqw. rewrite pp_make_next; [|done|rewrite <-Heqw; lia|done|done].
  eexists. split; [done|]. right. set (w' := w1 ++ x :: w2) in *.
  assert (length w' = length w) as Hlw by (unfold w'; by rewrite Heqw, !length_app).
  set (m := k - S (length a')). exists (a' ++ y :: take m (reverse w')), (take (length w' - m) w').
  split_and!; [|rewrite Hpe; apply lexlt_app; by left|].
  - split_and!; [done| | |].
    + rewrite length_app. cbn [length]. rewrite length_take, length_reverse. lia.
    + rewrite take_reverse, reverse_Permutation, <-app_assoc. cbn [app].
      rewrite (Permutation_app_comm (drop _ _)), take_drop, <-Hp, Heqw.
      apply Permutation_app_head. unfold w'. solve_Permutation.
    + rewrite <-(take_drop (length w' - m) w') in Hw'. by apply desc_app in Hw' as [Hw' _].
  - intros q Hq. rewrite Hpe. by eapply next_permutation_least.
Qed.

(** How many lists come after [p]. *)
Definition remaining vals k p : nat := length (filter (lexlt p) (all_lists k vals)).

Lemma remaining_decreases vals k p p' :
  lexlt p p' → p' ∈ all_lists k vals → remaining vals k p' < remaining vals k p.
Proof.
  intros Hlt Hin. unfold remaining. apply list_elem_of_split in Hin as (l1 & l2 & ->).
  assert (∀ l, length (filter (lexlt p') l) ≤ length (filter (lexlt p) l)) as Hle.
  { induction l as [|q l IH]; [done|]. rewrite !filter_cons.
    destruct (decide (lexlt p' q)) as [Hq|Hq].
    - rewrite decide_True by (by eapply lexlt_trans). cbn. lia.
    - destruct (decide (lexlt p q)); cbn; lia. }
  rewrite !filter_app, !length_app, !filter_cons.
  rewrite (decide_False (P:=lexlt p' p')) by apply lexlt_irrefl.
  rewrite (decide_True (P:=lexlt p p')) by done. cbn.
  pose proof (Hle l1). pose proof (Hle l2). lia.
Qed.

(** From the permutation [p] on, the iterator lists those that are not before [p]. *)
Lemma pp_collect_from vals k n p t s :
  NoDup vals → pp_state vals k p t s → remaining vals k p < n →
  ∃ fuel l, pp_collect fuel s = Some l ∧ StronglySorted lexlt l ∧
    ∀ q, q ∈ l ↔ is_partial_permutation vals k q ∧ (p = q ∨ lexlt p q).
Proof.
  intros Hnd. revert p t s. induction n as [|n IH]; intros p t s Hs Hn; [lia|].
  assert (is_partial_permutation vals k p) as Hpp.
  { destruct Hs as (_ & Hl & Hp & _). split_and!; [done| |].
    - eapply (NoDup_app p t). by rewrite Hp.
    - intros x Hx. rewrite <-Hp. apply elem_of_app. by left. }
  destruct (pp_next_step _ _ _ _ _ Hnd Hs) as (s' & Hnext & [[Hfin Hmax]|(p' & t' & Hs' & Hlt & Hleast)]).
  - exists 2, [p]. cbn [pp_collect]. rewrite Hnext. cbn [mbind option_bind].
    unfold pp_next. rewrite Hfin. cbn. split_and!; [done|by repeat constructor|].
    intros q. rewrite list_elem_of_singleton. split; [intros ->; by auto|].
    intros [Hq [->|Hpq]]; [done|]. by destruct (Hmax q).
  - assert (is_partial_permutation vals k p') as (Hl' & Hnd' & Hsub').
    { destruct Hs' as (_ & Hl & Hp & _). split_and!; [done| |].
      - eapply (NoDup_app p' t'). by rewrite Hp.
      - intros x Hx. rewrite <-Hp. apply elem_of_app. by left. }
    destruct (IH p' t' s' Hs') as (fuel & l & Hc & Hsort & Hl).
    { enough (remaining vals k p' < remaining vals k p) by lia.
      by apply remaining_decreases, elem_of_all_lists. }
    exists (S fuel), (p :: l). cbn [pp_collect]. rewrite Hnext. cbn [mbind option_bind].
    rewrite Hc. cbn [mbind option_bind]. split_and!; [done| |].
    + constructor; [done|]. apply Forall_forall. intros q Hq%Hl.
      destruct Hq as [_ [->|Hq]]; [done|by eapply lexlt_trans].
    + intros q. rewrite elem_of_cons, Hl. split.
      * intros [->|[Hq [->|Hpq]]]; auto. split; [done|]. right. by eapply lexlt_trans.
      * intros [Hq [->|Hpq]]; auto.
Qed.

Lemma rsort_strict vals : NoDup vals → strict_sorted (rsort vals).
Proof.
  intros Hnd. pose proof (rsort_sorted vals) as Hs. rewrite <-(rsort_perm vals) in Hnd.
  induction Hs as [|x l Hs IH Hx]; [constructor|]. apply NoDup_cons in Hnd as [Hxl Hnd].
  constructor; [by apply IH|]. rewrite Forall_forall in *. intros y Hy.
  destruct (proj1 (rle_lt_eq x y) (Hx y Hy)) as [?| ->]; done.
Qed.

Lemma pp_collect_enumerates vals k :
  NoDup vals →
  ∃ fuel l, pp_collect fuel (pp_new vals k) = Some l ∧ StronglySorted lexlt l ∧
    ∀ q, q ∈ l ↔ is_partial_permutation vals k q.
Proof.
  intros Hnd. pose proof (rsort_perm vals) as Hperm. pose proof (rsort_strict _ Hnd) as Hsort.
  pose proof (Permutation_length Hperm) as Hlen.
  destruct (decide (length vals < k)) as [Hk|Hk].
  - exists 1, []. unfold pp_new. rewrite (proj2 (Nat.ltb_ge k _)) by lia.
    cbn [pp_collect]. unfold pp_next. cbn [pp_finished].
    rewrite (proj2 (Nat.ltb_lt _ k)) by lia. cbn. split_and!; [done|constructor|].
    intros q. split; [by intros ?%elem_of_nil|]. intros (Hq & Hndq & Hsub).
    apply NoDup_submseteq, submseteq_length in Hsub; [lia|done].
  - set (p := take k (rsort vals)). set (t := reverse (drop k (rsort vals))).
    assert (pp_state vals k p t (pp_new vals k)) as Hs.
    { assert (length p = k) as Hp by (unfold p; rewrite length_take; lia).
      split_and!; [|done| |].
      - unfold pp_new. destruct (Nat.ltb_spec k (length (rsort vals))) as [Hlt|Hge].
        + f_equal. apply Nat.ltb_ge. rewrite length_app, length_take, length_reverse, length_drop. lia.
        + unfold t, p. rewrite drop_ge, app_nil_r, take_ge by lia. f_equal.
          apply Nat.ltb_ge. lia.
      - unfold t, p. by rewrite reverse_Permutation, take_drop.
      - unfold desc, t. rewrite reverse_involutive.
        rewrite <-(take_drop k (rsort vals)) in Hsort. by apply strict_sorted_app in Hsort as (_ & ? & _). }
    destruct (pp_collect_from vals k (S (remaining vals k p)) p t _ Hnd Hs) as (fuel & l & Hc & Hl & Hq);
      [lia|].
    exists fuel, l. split_and!; [done|done|]. intros q. rewrite Hq. split; [by intros [? _]|].
    intros Hpp. split; [done|]. destruct Hpp as (Hlq & Hndq & Hsub).
    unfold p. rewrite <-Hlq. apply asc_minimal; [done|done|]. intros x Hx. rewrite Hperm. auto.
Qed.
(** Once the fuel is one more than the number of results, more fuel changes nothing. *)
Lemma pp_collect_mono n fuel (s : PartialPermutations A) l :
  pp_collect fuel s = Some l → length l < n → pp_collect n s = Some l.
Proof.
  revert n s l. induction fuel as [|fuel IH]; intros n s l Hc Hn; [done|].
  destruct n as [|n]; [lia|]. cbn [pp_collect] in *.
  destruct (pp_next s) as [[[x|] s']|]; cbn [mbind option_bind] in *; [|done|done].
  destruct (pp_collect fuel s') as [rest|] eqn:Er; [|done]. cbn in Hc. injection Hc as <-.
  cbn in Hn. by rewrite (IH n s' rest Er) by lia.
Qed.

Lemma length_all_lists k (vals : list A) : length (all_lists k vals) = length vals ^ k.
Proof.
  induction k as [|k IH]; [done|]. cbn [all_lists Nat.pow]. rewrite <-IH. clear IH.
  generalize (all_lists k vals) as ls. intros ls. induction vals as [|x vals IHv]; [done|].
  rewrite bind_cons, length_app, length_fmap, IHv. cbn [length]. lia.
Qed.

Lemma lexlt_sorted_nodup (l : list (list A)) : StronglySorted lexlt l → NoDup l.
Proof.
  induction 1 as [|x l Hs IH Hx]; [constructor|]. constructor; [|done].
  intros Hin. rewrite Forall_forall in Hx. by apply (lexlt_irrefl x), Hx.
Qed.

(** As many turns as there are lists of [k] values are enough. *)
Lemma pp_collect_bounded vals k :
  NoDup vals →
  ∃ l, pp_collect (S (length vals ^ k)) (pp_new vals k) = Some l ∧ StronglySorted lexlt l ∧
    ∀ q, q ∈ l ↔ is_partial_permutation vals k q.
Proof.
  intros Hnd. destruct (pp_collect_enumerates vals k Hnd) as (fuel & l & Hc & Hs & Hl).
  exists l. split; [|done]. apply (pp_collect_mono _ fuel); [done|].
  enough (length l ≤ length (all_lists k vals)) by (rewrite length_all_lists in *; lia).
  apply submseteq_length, NoDup_submseteq.
  - by apply lexlt_sorted_nodup.
  - intros q (Hq & _ & Hsub)%Hl. by apply elem_of_all_lists.
Qed.

(** C32: For distinct values, [PartialPermutations] never panics, ends within one turn more than
    there are lists, and gives
    exactly the lists of [k] distinct values, each once and in lexicographic order; there
    are none when [k] exceeds the number of values. *)
Theorem partial_permutations_lexicographic vals k :
  NoDup vals →
  ∃ l, pp_collect (S (length vals ^ k)) (pp_new vals k) = Some l ∧ StronglySorted lexlt l ∧
    NoDup l ∧ ∀ q, q ∈ l ↔ length q = k ∧ NoDup q ∧ q ⊆ vals.
Proof.
  intros Hnd. destruct (pp_collect_bounded vals k Hnd) as (l & Hc & Hs & Hl).
  exists l. split_and!; [done|done|by apply lexlt_sorted_nodup|done].
Qed.
End enumeration.

Lemma partial_permutations_lexicographic_witness :
  NoDup [2; 0; 1] ∧
  ∃ l, pp_collect 10 (pp_new [2; 0; 1] 2) = Some l ∧ StronglySorted lexlt l ∧
    NoDup l ∧ ∀ q, q ∈ l ↔ length q = 2 ∧ NoDup q ∧ q ⊆ [2; 0; 1].
Proof.
  assert (NoDup [2; 0; 1]) as Hnd by (apply (bool_decide_unpack _); vm_compute; exact I).
  split; [exact Hnd|]. apply (partial_permutations_lexicographic [2; 0; 1] 2 Hnd).
Defined.
