(* ===== verification/Orders.v ===== *)
(** * Derived orders and ordered maps

    The orders that Rust derives for tuples, vectors, enums and strings, built from the
    class [RustOrd], and the insertion-ordered maps of the code generator.  A [BTreeSet]
    is a finite set; its order of iteration is the sorted list of its elements, which is
    also what comparing two of them looks at. *)
From S2P Require Import Prelude.
From stdpp Require Import countable.

(** ** Orders *)
Section rust_ord_inj.
Context {A B : Type} `{RustOrd B} (f : A → B) (f_inj : ∀ x y, f x = f y → x = y).

(** A derived order compares the variants, then the fields: [f] lists them. *)
#[program] Definition rust_ord_inj : RustOrd A := {| rcmp x y := rcmp (f x) (f y) |}.
Next Obligation. intros x y. rewrite rcmp_eq. split; [apply f_inj|by intros ->]. Qed.
Next Obligation. intros x y. apply rcmp_flip. Qed.
Next Obligation. intros x y z. apply rcmp_trans. Qed.
End rust_ord_inj.

Section rust_ord_sum.
Context {A B : Type} `{RustOrd A, RustOrd B}.

Definition sum_cmp (x y : A + B) : comparison :=
  match x, y with
  | inl a, inl b => rcmp a b
  | inl _, inr _ => Lt
  | inr _, inl _ => Gt
  | inr a, inr b => rcmp a b
  end.

#[global, program] Instance sum_rust_ord : RustOrd (A + B) := {| rcmp := sum_cmp |}.
Next Obligation.
  intros [x|x] [y|y]; cbn; rewrite ?rcmp_eq; split; congruence.
Qed.
Next Obligation. intros [x|x] [y|y]; cbn; try apply rcmp_flip; done. Qed.
Next Obligation. intros [x|x] [y|y] [z|z]; cbn; try apply rcmp_trans; done. Qed.
End rust_ord_sum.

Section rust_ord_prod.
Context {A B : Type} `{RustOrd A, RustOrd B}.

Definition prod_cmp (x y : A * B) : comparison :=
  match rcmp x.1 y.1 with Eq => rcmp x.2 y.2 | c => c end.

#[global, program] Instance prod_rust_ord : RustOrd (A * B) := {| rcmp := prod_cmp |}.
Next Obligation.
  intros [a b] [a' b']. unfold prod_cmp. cbn. rcases a a'.
  - rewrite rcmp_eq. split; [by intros ->|by intros [= ->]].
  - split; [done|]. intros [= -> ->]. rewrite rcmp_refl in Ec. done.
  - split; [done|]. intros [= -> ->]. rewrite rcmp_refl in Ec. done.
Qed.
Next Obligation.
  intros [a b] [a' b']. unfold prod_cmp. cbn. rewrite (rcmp_flip a a').
  destruct (rcmp a a'); cbn; [apply rcmp_flip|done|done].
Qed.
Next Obligation.
  intros [a b] [a' b'] [a'' b'']. unfold prod_cmp. cbn. rcases a a'.
  - destruct (rcmp a' a''); [apply rcmp_trans|done|done].
  - rcases a' a''; [by rewrite Ec| |done]. by rewrite (rcmp_trans _ _ _ Ec Ec0).
  - done.
Qed.
End rust_ord_prod.

Section rust_ord_list.
Context {A : Type} `{RustOrd A}.

Fixpoint list_cmp (l k : list A) : comparison :=
  match l, k with
  | [], [] => Eq
  | [], _ :: _ => Lt
  | _ :: _, [] => Gt
  | x :: l, y :: k => match rcmp x y with Eq => list_cmp l k | c => c end
  end.

#[global, program] Instance list_rust_ord : RustOrd (list A) := {| rcmp := list_cmp |}.
Next Obligation.
  induction x as [|x l IH]; intros [|y k]; cbn; [done|done|done|]. rcases x y.
  - rewrite IH. split; [by intros ->|by intros [= ->]].
  - split; [done|]. intros [= -> ->]. rewrite rcmp_refl in Ec. done.
  - split; [done|]. intros [= -> ->]. rewrite rcmp_refl in Ec. done.
Qed.
Next Obligation.
  induction x as [|x l IH]; intros [|y k]; cbn; [done|done|done|].
  rewrite (rcmp_flip x y). destruct (rcmp x y); cbn; [apply IH|done|done].
Qed.
Next Obligation.
  induction x as [|x l IH]; intros [|y k] [|z m]; cbn; try done. rcases x y.
  - destruct (rcmp y z); [apply IH|done|done].
  - rcases y z; [by rewrite Ec| |done]. by rewrite (rcmp_trans _ _ _ Ec Ec0).
  - done.
Qed.
End rust_ord_list.

Definition bool_nat (b : bool) : nat := if b then 1 else 0.

#[global] Instance bool_rust_ord : RustOrd bool.
Proof. apply (rust_ord_inj bool_nat). by intros [] []. Defined.

(** Strings compare byte by byte. *)
Fixpoint string_bytes (s : string) : list nat :=
  match s with
  | EmptyString => []
  | String c s => Ascii.nat_of_ascii c :: string_bytes s
  end.

Lemma string_bytes_inj s t : string_bytes s = string_bytes t → s = t.
Proof.
  revert t. induction s as [|c s IH]; intros [|d t]; cbn; [done|done|done|].
  intros [= Hc Ht]. rewrite (IH _ Ht). f_equal.
  by rewrite <-(Ascii.ascii_nat_embedding c), Hc, Ascii.ascii_nat_embedding.
Qed.

#[global] Instance string_rust_ord : RustOrd string :=
  rust_ord_inj string_bytes string_bytes_inj.

Lemma rsort_elements_inj {A : Type} `{Countable A, RustOrd A} (X Y : gset A) :
  rsort (elements X) = rsort (elements Y) → X = Y.
Proof.
  intros E. apply set_eq. intros x.
  rewrite <-!elem_of_elements, <-(rsort_perm (elements X)), E. by rewrite rsort_perm.
Qed.

#[global] Instance gset_rust_ord {A : Type} `{Countable A, RustOrd A} : RustOrd (gset A) :=
  rust_ord_inj (λ X, rsort (elements X)) rsort_elements_inj.

(** [slice::sort_by_key], which is stable. *)
Definition rsort_by_key {A K : Type} `{RustOrd K} (key : A → K) (l : list A) : list A :=
  merge_sort (λ x y, rle (key x) (key y)) l.

Lemma rsort_by_key_perm {A K : Type} `{RustOrd K} (key : A → K) (l : list A) :
  rsort_by_key key l ≡ₚ l.
Proof. apply merge_sort_Permutation. Qed.

Lemma rsort_by_key_sorted {A K : Type} `{RustOrd K} (key : A → K) (l : list A) :
  StronglySorted rle (key <$> rsort_by_key key l).
Proof.
  assert (StronglySorted (λ x y, rle (key x) (key y)) (rsort_by_key key l)) as Hs.
  { apply Sorted_StronglySorted.
    - intros x y z. apply (transitivity (R := rle)).
    - apply Sorted_merge_sort. intros x y. apply (total rle). }
  induction Hs as [|x k Hs IH Hx]; cbn; constructor; [done|]. by apply Forall_fmap.
Qed.

(** ** Insertion-ordered maps

    [IndexMap]: the entries in the order of insertion, at most one for each key.  Only
    the order of the keys is observed, never the hash. *)
Definition IndexMap (K V : Type) : Type := list (K * V).

Section index_map.
Context {K V : Type} `{EqDecision K}.
Implicit Types (m : IndexMap K V) (k : K) (v : V).

Fixpoint im_get k m : option V :=
  match m with
  | [] => None
  | (k', v) :: m => if decide (k = k') then Some v else im_get k m
  end.

Definition im_keys m : list K := m.*1.

Definition im_contains_key k m : bool := bool_decide (is_Some (im_get k m)).

(** A key that is there keeps its place; the old value is returned. *)
Definition im_insert k v m : option V * IndexMap K V :=
  match im_get k m with
  | Some old => (Some old, (λ kv, if decide (kv.1 = k) then (kv.1, v) else kv) <$> m)
  | None => (None, m ++ [(k, v)])
  end.

(** [get_mut] followed by a write. *)
Definition im_update k (f : V → V) m : IndexMap K V :=
  (λ kv, if decide (kv.1 = k) then (kv.1, f kv.2) else kv) <$> m.

Lemma im_get_elem k v m : im_get k m = Some v → (k, v) ∈ m.
Proof.
  induction m as [|[k' v'] m IH]; cbn; [done|]. case_decide as E.
  - intros [= ->]. subst. left.
  - intros H%IH. by right.
Qed.

Lemma im_get_keys k m : is_Some (im_get k m) ↔ k ∈ im_keys m.
Proof.
  unfold im_keys. induction m as [|[k' v'] m IH]; cbn.
  - split; [by intros [? ?]|by intros ?%elem_of_nil].
  - rewrite elem_of_cons. case_decide as E; cbn.
    + split; [by left|by eexists].
    + rewrite IH. naive_solver.
Qed.

Lemma im_get_app k m m' : im_get k (m ++ m') = match im_get k m with Some v => Some v | None => im_get k m' end.
Proof. induction m as [|[k' v'] m IH]; cbn; [done|]. by case_decide. Qed.

Lemma im_get_update k k' f m :
  im_get k (im_update k' f m) = if decide (k = k') then f <$> im_get k m else im_get k m.
Proof.
  induction m as [|[k0 v0] m IH]; cbn [im_get im_update fmap list_fmap fst snd].
  - by case_decide.
  - unfold im_update in IH. case_decide as E0; cbn [im_get]; rewrite IH;
      repeat case_decide; simplify_eq/=; done.
Qed.

Lemma im_get_insert k k' v m :
  im_get k (im_insert k' v m).2 = if decide (k = k') then Some v else im_get k m.
Proof.
  unfold im_insert. destruct (im_get k' m) as [old|] eqn:E; cbn [snd].
  - change (im_get k (im_update k' (λ _, v) m) = if decide (k = k') then Some v else im_get k m).
    rewrite im_get_update. case_decide as Ek; [subst; by rewrite E|done].
  - rewrite im_get_app. cbn [im_get]. case_decide as Ek; [subst; by rewrite E|].
    by destruct (im_get k m).
Qed.
End index_map.
