(* ===== verification/GenSets.v ===== *)
(** * Sets of the constraint language (telamon-gen/src/ir/set.rs and adaptator.rs)

    The constraint language quantifies over sets of objects: a set has a definition, an
    argument when it is parametric, and may be restricted by a reverse constraint.
    Definitions are shared through [Rc]; two definitions are compared by name, and so are
    the sets that refer to them.  The weak link of a reverse definition to its direct
    definition carries the name of the latter, looked up among the live definitions.
    [SetRefImpl] borrows the parts of a [Set] and is the same record here. *)
From S2P Require Import Prelude Orders.

(** ** Variables and renamings *)
Inductive Var :=
| Arg (id : nat)
| ForallVar (id : nat).

#[global] Instance Var_eq_dec : EqDecision Var.
Proof. solve_decision. Defined.

Definition variable_code (v : Var) : nat + nat :=
  match v with Arg i => inl i | ForallVar i => inr i end.

#[global] Instance Var_countable : Countable Var :=
  inj_countable' variable_code (λ c, match c with inl i => Arg i | inr i => ForallVar i end)
    ltac:(abstract by intros []).

#[global] Instance Var_rust_ord : RustOrd Var.
Proof. apply (rust_ord_inj variable_code). abstract by intros [] [] [=->]. Defined.

Record Adaptator := mkAdaptator {
  ad_variables : gmap Var Var;
  ad_inputs : gmap nat (nat * bool)
}.

Definition adaptator_default : Adaptator := mkAdaptator ∅ ∅.

Definition from_arguments (args : list Var) : Adaptator :=
  mkAdaptator (list_to_map (reverse ((λ '(id, v), (Arg id, v)) <$> enumerate args))) ∅.

Definition adaptator_variable (a : Adaptator) (var : Var) : Var :=
  default var (ad_variables a !! var).

Definition adaptator_input (a : Adaptator) (input : nat) : nat * bool :=
  default (input, false) (ad_inputs a !! input).

Definition set_variable (old new : Var) (a : Adaptator) : option Var * Adaptator :=
  (ad_variables a !! old, mkAdaptator (<[old := new]> (ad_variables a)) (ad_inputs a)).

Definition set_input (old new : nat) (a : Adaptator) : Adaptator :=
  let '(_, b) := default (old, false) (ad_inputs a !! old) in
  mkAdaptator (ad_variables a) (<[old := (new, b)]> (ad_inputs a)).

Definition set_inversed (input : nat) (a : Adaptator) : Adaptator :=
  let '(i, _) := default (input, false) (ad_inputs a !! input) in
  mkAdaptator (ad_variables a) (<[input := (i, true)]> (ad_inputs a)).

(** ** Sets and their definitions *)
Inductive SetDefKey :=
| ItemType | IdType | ItemGetter | IdGetter | Iter | FromSuperset | Prefix | NewObjs
| Reverse | AddToSet.

#[global] Instance SetDefKey_eq_dec : EqDecision SetDefKey.
Proof. solve_decision. Defined.

(** The variables defined for the key. *)
Definition key_env (self : SetDefKey) : list string :=
  match self with
  | ItemType | IdType | Prefix => []
  | ItemGetter => ["fun"; "id"]
  | IdGetter => ["fun"; "item"]
  | Iter => ["fun"]
  | FromSuperset => ["fun"; "item"]
  | NewObjs => ["objs"]
  | Reverse => ["fun"]
  | AddToSet => ["fun"; "item"]
  end%string.

Definition is_arg_in_env (self : SetDefKey) : bool :=
  match self with
  | ItemGetter | Iter | FromSuperset | AddToSet => true
  | _ => false
  end.

Definition REQUIRED : list SetDefKey :=
  [ItemType; IdType; ItemGetter; IdGetter; Iter; NewObjs].

Inductive SetDef :=
| mkSetDef (name : string) (arg superset : option GSet) (reverse : ReverseSet)
    (keys : IndexMap SetDefKey string) (depth def_order : nat) (disjoints : list string)
with GSet :=
| mkSet (def : SetDef) (reverse_constraint : option GSet) (var : option Var)
with ReverseSet :=
| ReverseExplicit (def : SetDef)
| ReverseImplicit (weak : string)
| ReverseNone.

Definition def_name (d : SetDef) : string := let '(mkSetDef n _ _ _ _ _ _ _) := d in n.
Definition def_arg (d : SetDef) : option GSet := let '(mkSetDef _ a _ _ _ _ _ _) := d in a.
Definition def_superset (d : SetDef) : option GSet :=
  let '(mkSetDef _ _ s _ _ _ _ _) := d in s.
Definition def_reverse_set (d : SetDef) : ReverseSet :=
  let '(mkSetDef _ _ _ r _ _ _ _) := d in r.
Definition attributes (d : SetDef) : IndexMap SetDefKey string :=
  let '(mkSetDef _ _ _ _ k _ _ _) := d in k.
Definition def_depth (d : SetDef) : nat := let '(mkSetDef _ _ _ _ _ n _ _) := d in n.
Definition def_order (d : SetDef) : nat := let '(mkSetDef _ _ _ _ _ _ n _) := d in n.
Definition def_disjoints (d : SetDef) : list string :=
  let '(mkSetDef _ _ _ _ _ _ _ l) := d in l.

Definition set_def (s : GSet) : SetDef := let '(mkSet d _ _) := s in d.
Definition set_reverse_constraint (s : GSet) : option GSet := let '(mkSet _ r _) := s in r.
Definition set_arg (s : GSet) : option Var := let '(mkSet _ _ v) := s in v.

(** The equality of definitions, and the one derived for sets. *)
Definition def_eqb (d d' : SetDef) : bool := bool_decide (def_name d = def_name d').

Fixpoint set_eqb (s t : GSet) {struct s} : bool :=
  match s, t with
  | mkSet d r v, mkSet d' r' v' =>
    def_eqb d d' &&
    match r, r' with
    | Some r, Some r' => set_eqb r r'
    | None, None => true
    | _, _ => false
    end && bool_decide (v = v')
  end.

(** [SetDef::prefix]. *)
Definition def_prefix (d : SetDef) : string := default "obj"%string (im_get Prefix (attributes d)).

(** ** Building definitions *)

Definition setdef_build (name : string) (arg superset : option GSet) (reverse : ReverseSet)
    (keys : IndexMap SetDefKey string) (disjoints : list string) : SetDef :=
  let depth := from_option (λ s, def_depth (set_def s) + 1) 0 superset in
  let order := from_option (λ s, def_order (set_def s) + 1) 0 arg in
  mkSetDef name arg superset reverse keys depth order disjoints.

(** [str::replace]: every occurrence from the left, without overlap.  [skip] counts the
    characters of an occurrence still to drop. *)
Fixpoint replace_from (pat new : string) (skip : nat) (s : string) : string :=
  match s with
  | EmptyString => EmptyString
  | String c s' =>
    match skip with
    | S skip => replace_from pat new skip s'
    | 0 =>
      if String.prefix pat s
      then (new +:+ replace_from pat new (pred (String.length pat)) s')%string
      else String c (replace_from pat new 0 s')
    end
  end.

Definition str_replace (pat new s : string) : string := replace_from pat new 0 s.

(** The code that gives an object of the reverse set from one of its superset. *)
Definition reverse_from_superset (s : string) : string :=
  (str_replace "$tmp" "$var" (str_replace "$var" "$item" (str_replace "$item" "$tmp" s))
   +:+ ".map(|_| $item)")%string.

(** The definition of the reverse of the set [name]; its weak link is to [name]. *)
Definition setdef_new_reverse (name : string) (arg : option GSet)
    (keys : IndexMap SetDefKey string) (set : GSet) (iter : string) : option SetDef :=
  arg' ← arg;
  let superset_keys := attributes (set_def arg') in
  from_superset ← im_get FromSuperset keys;
  item_type ← im_get ItemType superset_keys;
  id_type ← im_get IdType superset_keys;
  item_getter ← im_get ItemGetter superset_keys;
  id_getter ← im_get IdGetter superset_keys;
  let reverse_keys :=
    [(ItemType, item_type); (IdType, id_type); (ItemGetter, item_getter);
     (IdGetter, id_getter); (Iter, iter); (FromSuperset, reverse_from_superset from_superset)] in
  _ ← foldM (λ _ key,
    a ← im_get key (attributes (set_def set));
    b ← im_get key keys;
    rassert (bool_decide (a = b))) [ItemType; IdType] tt;
  Some (setdef_build "" (Some set) arg (ReverseImplicit name) reverse_keys []).

Definition setdef_new (name : string) (arg superset : option GSet)
    (reverse : option (GSet * string)) (keys : IndexMap SetDefKey string)
    (disjoints : list string) : option SetDef :=
  reverse ← match reverse with
            | Some (set, iter) => ReverseExplicit <$> setdef_new_reverse name arg keys set iter
            | None => Some ReverseNone
            end;
  Some (setdef_build name arg superset reverse keys disjoints).

(** [SetDef::reverse], among the definitions that are alive. *)
Definition def_reverse (live : string → option SetDef) (d : SetDef) : option (option SetDef) :=
  match def_reverse_set d with
  | ReverseNone => Some None
  | ReverseExplicit r => Some (Some r)
  | ReverseImplicit weak => r ← live weak; Some (Some r)
  end.

(** [Set::new]. *)
Definition set_new (def : SetDef) (var : option Var) : option GSet :=
  if decide (is_Some var ↔ is_Some (def_arg def)) then Some (mkSet def None var) else panic.

(** ** The operations of [SetRef] *)

Definition without_reverse_constraints (s : GSet) : GSet := mkSet (set_def s) None (set_arg s).

(** The argument of a superset, given the argument of the set. *)
Definition superset_var (var arg : option Var) : option (option Var) :=
  match var with
  | None => Some None
  | Some v => if decide (v = Arg 0) then Some <$> arg else panic
  end.

Definition superset (s : GSet) : option (option GSet) :=
  match def_superset (set_def s) with
  | None => Some None
  | Some (mkSet def _ var) =>
    var ← superset_var var (set_arg s);
    Some (Some (mkSet def None var))
  end.

(** [path_to_superset]: the loop from the set of definition [d]. *)
Fixpoint path_loop (d : SetDef) (rc : option GSet) (var : option Var) (target : GSet)
    (out : list GSet) {struct d} : option (list GSet) :=
  let current := mkSet d rc var in
  if set_eqb current target then Some out
  else
    let out := out ++ [current] in
    match d with
    | mkSetDef _ _ (Some (mkSet d' _ v)) _ _ _ _ _ =>
      v ← superset_var v var; path_loop d' None v target out
    | mkSetDef _ _ None _ _ _ _ _ => Some []
    end.

Definition path_to_superset (s target : GSet) : option (list GSet) :=
  path_loop (set_def s) (set_reverse_constraint s) (set_arg s) target [].

(** [is_subset_of] for a set without reverse constraint, along its supersets. *)
Fixpoint chain_is_subset_of (d : SetDef) (var : option Var) (other : GSet) {struct d}
  : option bool :=
  is_subset ←
    (if set_eqb (mkSet d None var) other then Some true
     else
       match d with
       | mkSetDef _ _ (Some (mkSet d' _ v)) _ _ _ _ _ =>
         v ← superset_var v var; chain_is_subset_of d' v other
       | mkSetDef _ _ None _ _ _ _ _ => Some false
       end);
  Some (is_subset && bool_decide (set_reverse_constraint other = None)).

Fixpoint is_subset_of (s other : GSet) {struct s} : option bool :=
  match s with
  | mkSet d rc var =>
    is_subset ←
      (if set_eqb s other then Some true
       else
         let! by_superset :=
           match def_superset d with
           | None => Some false
           | Some (mkSet d' _ v) => v ← superset_var v var; chain_is_subset_of d' v other
           end in
         if (by_superset : bool) then Some true
         else match rc with None => Some false | Some r => is_subset_of r other end);
    Some (is_subset && bool_decide (set_reverse_constraint other = None))
  end.

(** ** Definitions and hierarchies *)

(** [SetDef::is_subset_of_def]. *)
Fixpoint def_is_subset_of_def (d other : SetDef) {struct d} : bool :=
  def_eqb d other ||
  match d with
  | mkSetDef _ _ (Some (mkSet d' _ _)) _ _ _ _ _ => def_is_subset_of_def d' other
  | mkSetDef _ _ None _ _ _ _ _ => false
  end.

(** [Set::is_subset_of_def]. *)
Fixpoint is_subset_of_def (s other : GSet) {struct s} : bool :=
  match s with
  | mkSet d rc _ =>
    match rc with Some r => is_subset_of_def r other | None => false end
    || def_is_subset_of_def d (set_def other)
  end.

(** A step of [get_collision_level] to the superset. *)
Definition collision_up (x : SetDef * option Var) (s : GSet)
  : option (SetDef * option Var) :=
  var ← superset_var (set_arg s) x.2; Some (set_def s, var).

Fixpoint collision_loop (fuel : nat) (lhs rhs : SetDef * option Var)
    (lhs_path rhs_path : list SetDef)
  : option (option (SetDef * list SetDef * list SetDef)) :=
  match fuel with
  | 0 => None
  | S fuel =>
    if def_eqb lhs.1 rhs.1 && bool_decide (lhs.2 = rhs.2)
    then Some (Some (lhs.1, lhs_path, rhs_path))
    else if def_depth rhs.1 <? def_depth lhs.1 then
      s ← def_superset lhs.1;
      lhs' ← collision_up lhs s;
      collision_loop fuel lhs' rhs (lhs_path ++ [lhs.1]) rhs_path
    else
      match def_superset rhs.1 with
      | Some s =>
        rhs' ← collision_up rhs s;
        collision_loop fuel lhs rhs' lhs_path (rhs_path ++ [rhs.1])
      | None => Some None
      end
  end.

Definition declared_disjoint (d d' : SetDef) : bool :=
  existsb (λ n, bool_decide (def_name d' = n)) (def_disjoints d)
  || existsb (λ n, bool_decide (def_name d = n)) (def_disjoints d').

(** The length of the path from a definition to its root. *)
Fixpoint chain_length (d : SetDef) : nat :=
  match d with
  | mkSetDef _ _ (Some (mkSet d' _ _)) _ _ _ _ _ => S (chain_length d')
  | mkSetDef _ _ None _ _ _ _ _ => 0
  end.

Definition get_collision_level (lhs rhs : GSet) : option (option SetDef) :=
  out ← collision_loop (S (chain_length (set_def lhs) + chain_length (set_def rhs)))
          (set_def lhs, set_arg lhs) (set_def rhs, set_arg rhs) [] [];
  match out with
  | None => Some None
  | Some (common, lhs_path, rhs_path) =>
    if existsb (λ d, existsb (declared_disjoint d) rhs_path) lhs_path
    then Some None else Some (Some common)
  end.

(** [Set::reverse]. *)
Definition set_reverse (live : string → option SetDef) (self : GSet) (self_var : Var)
    (arg : GSet) : option (option (GSet * GSet)) :=
  reverse_def ← def_reverse live (set_def self);
  match reverse_def with
  | None => Some None
  | Some reverse_def =>
    superset ← match set_reverse_constraint self with
               | Some r => Some r
               | None => def_arg reverse_def
               end;
    reverse ← set_new reverse_def (Some self_var);
    b ← is_subset_of reverse arg;
    let reverse :=
      if (b : bool) then reverse else mkSet (set_def reverse) (Some arg) (set_arg reverse) in
    Some (Some (superset, reverse))
  end.

(** [Set::adapt]. *)
Fixpoint set_adapt (a : Adaptator) (s : GSet) {struct s} : GSet :=
  match s with
  | mkSet def rc var =>
    mkSet def (match rc with Some r => Some (set_adapt a r) | None => None end)
      (adaptator_variable a <$> var)
  end.

(** * Theorems *)

(** ** Equality by name *)

Inductive SetKey := mkSetKey (key_name : string) (key_rc : option SetKey) (key_var : option Var).

(** What the equality of two sets looks at. *)
Fixpoint set_key (s : GSet) : SetKey :=
  match s with
  | mkSet d r v =>
    mkSetKey (def_name d) (match r with Some r => Some (set_key r) | None => None end) v
  end.

#[global] Instance gset_equiv : Equiv GSet := λ s t, set_key s = set_key t.

#[global] Instance gset_equivalence : Equivalence (≡@{GSet}).
Proof. split; unfold equiv, gset_equiv; congruence. Qed.

Lemma set_eqb_spec s t : set_eqb s t = true ↔ s ≡ t.
Proof.
  unfold equiv, gset_equiv. revert s t. fix IH 1. intros [d r v] [d' r' v']. cbn [set_eqb set_key].
  unfold def_eqb. rewrite !andb_true_iff, !bool_decide_eq_true.
  destruct r as [r|], r' as [r'|]; try (split; [intuition congruence|intros [=]; subst; done]).
  rewrite IH. split; [intros [[-> ->] ->]; done|intros [= -> -> ->]; done].
Qed.

#[global] Instance gset_equiv_dec : RelDecision (≡@{GSet}).
Proof.
  intros s t. destruct (set_eqb s t) eqn:E.
  - left. by apply set_eqb_spec.
  - right. intros H%set_eqb_spec. congruence.
Defined.

#[global] Instance def_name_proper : Proper (equiv ==> eq) (λ s, def_name (set_def s)).
Proof. by intros [] [] [=]. Qed.

#[global] Instance set_arg_proper : Proper (equiv ==> eq) set_arg.
Proof. by intros [] [] [=]. Qed.

#[global] Instance set_eqb_proper : Proper (equiv ==> equiv ==> eq) set_eqb.
Proof.
  intros s s' Hs t t' Ht. apply eq_iff_eq_true. rewrite !set_eqb_spec. by rewrite Hs, Ht.
Qed.

#[global] Instance set_adapt_proper a : Proper (equiv ==> equiv) (set_adapt a).
Proof.
  unfold Proper, respectful, equiv, gset_equiv. fix IH 1.
  intros [d r v] [d' r' v']. cbn. intros [= -> Hr ->].
  f_equal. destruct r as [r|], r' as [r'|]; try done. injection Hr as Hr. f_equal. by apply IH.
Qed.

(** The step to the superset, as the code writes it. *)
Lemma is_subset_of_eq s other :
  is_subset_of s other =
    (let! is_subset :=
       if set_eqb s other then Some true
       else
         let! sup := superset s in
         let! b := match sup with None => Some false | Some sup => is_subset_of sup other end in
         if (b : bool) then Some true
         else match set_reverse_constraint s with None => Some false | Some r => is_subset_of r other end in
     Some (is_subset && bool_decide (set_reverse_constraint other = None))).
Proof.
  assert (∀ d v, is_subset_of (mkSet d None v) other = chain_is_subset_of d v other) as Hc.
  { fix IH 1. intros [n a [[d' r' v']|] rv ks dp od dj] v;
      cbn [is_subset_of chain_is_subset_of def_superset];
      destruct (set_eqb _ other); cbn; [done| |done|done].
    destruct (superset_var v' v); cbn; [|done].
    destruct (chain_is_subset_of d' _ other) as [[]|]; done. }
  destruct s as [d rc v]. cbn [is_subset_of set_reverse_constraint]. f_equal.
  destruct (set_eqb _ other); [done|]. unfold superset. cbn [set_def set_arg].
  destruct (def_superset d) as [[d' r' v']|]; [|done].
  destruct (superset_var v' v) as [w|]; cbn [mbind option_bind]; [|done]. rewrite Hc.
  destruct (chain_is_subset_of d' w other); done.
Qed.

(** ** Induction along the supersets *)

Lemma def_chain_ind (P : SetDef → Prop) :
  (∀ d, def_superset d = None → P d) →
  (∀ d s, def_superset d = Some s → P (set_def s) → P d) → ∀ d, P d.
Proof.
  intros H0 H1. fix IH 1. intros [n a [[e r u]|] rv ks dp od dj].
  - eapply H1; [reflexivity|]. apply IH.
  - by apply H0.
Qed.

Lemma chain_is_subset_of_eq d v other :
  chain_is_subset_of d v other =
    (let! is_subset :=
       if set_eqb (mkSet d None v) other then Some true
       else match def_superset d with
            | Some s => w ← superset_var (set_arg s) v; chain_is_subset_of (set_def s) w other
            | None => Some false
            end in
     Some (is_subset && bool_decide (set_reverse_constraint other = None))).
Proof. by destruct d as [n a [[e r u]|] rv ks dp od dj]. Qed.

Lemma path_loop_eq d rc v target out :
  path_loop d rc v target out =
    if set_eqb (mkSet d rc v) target then Some out
    else match def_superset d with
         | Some s => w ← superset_var (set_arg s) v;
                     path_loop (set_def s) None w target (out ++ [mkSet d rc v])
         | None => Some []
         end.
Proof. by destruct d as [n a [[e r u]|] rv ks dp od dj]. Qed.

Lemma def_is_subset_of_def_eq d other :
  def_is_subset_of_def d other =
    def_eqb d other ||
    match def_superset d with Some s => def_is_subset_of_def (set_def s) other | None => false end.
Proof. by destruct d as [n a [[e r u]|] rv ks dp od dj]. Qed.

Lemma chain_length_eq d :
  chain_length d = match def_superset d with Some s => S (chain_length (set_def s)) | None => 0 end.
Proof. by destruct d as [n a [[e r u]|] rv ks dp od dj]. Qed.

(** ** Well-formed definitions *)

(** The superset of a set takes the argument of the set, or none. *)
Definition link_ok (arg : option GSet) (sup : GSet) : Prop :=
  match set_arg sup with
  | None => def_arg (set_def sup) = None
  | Some v => v = Arg 0 ∧ is_Some (def_arg (set_def sup)) ∧ is_Some arg
  end.

Fixpoint wf_def (d : SetDef) : Prop :=
  match d with
  | mkSetDef _ arg (Some (mkSet d' r v)) _ _ depth _ _ =>
    link_ok arg (mkSet d' r v) ∧ depth = S (def_depth d') ∧ wf_def d'
  | mkSetDef _ _ None _ _ depth _ _ => depth = 0
  end.

Fixpoint wf_set (s : GSet) : Prop :=
  match s with
  | mkSet d r v =>
    (is_Some v ↔ is_Some (def_arg d)) ∧ wf_def d ∧
    match r with Some r => wf_set r | None => True end
  end.

Lemma wf_def_build name arg superset reverse keys disjoints :
  match superset with Some s => wf_def (set_def s) ∧ link_ok arg s | None => True end →
  wf_def (setdef_build name arg superset reverse keys disjoints).
Proof.
  unfold setdef_build. destruct superset as [[d r v]|]; [|done]. cbn. intros [Hd Hl].
  split_and!; [done|lia|done].
Qed.

Lemma wf_depth d : wf_def d → def_depth d = chain_length d.
Proof.
  revert d. fix IH 1. intros [n a [[d' r v]|] rv ks dp od dj]; cbn; [|done].
  intros (_ & -> & H). by rewrite (IH d' H).
Qed.

Lemma wf_superset_var d v sup :
  wf_def d → (is_Some v ↔ is_Some (def_arg d)) → def_superset d = Some sup →
  ∃ w, superset_var (set_arg sup) v = Some w ∧ (is_Some w ↔ is_Some (def_arg (set_def sup))) ∧
    wf_def (set_def sup) ∧ def_depth d = S (def_depth (set_def sup)).
Proof.
  destruct d as [n a [[d' r u]|] rv ks dp od dj]; [|done]. cbn. intros (Hl & -> & Hd) Hv [= <-].
  unfold link_ok in Hl. cbn in *. destruct u as [u|]; cbn.
  - destruct Hl as (-> & Hd' & Ha). rewrite decide_True by done. apply Hv in Ha as [w ->].
    exists (Some w). split_and!; [done| |done|done]. split; [done|by eexists].
  - exists None. split_and!; [done| |done|done]. rewrite Hl. split; intros []; done.
Qed.

Lemma superset_wf s : wf_set s → ∃ t, superset s = Some t ∧ from_option wf_set True t.
Proof.
  destruct s as [d r v]. cbn. intros (Hv & Hd & Hr). unfold superset. cbn.
  destruct (def_superset d) as [[d' r' u]|] eqn:E; [|by exists None].
  destruct (wf_superset_var _ _ _ Hd Hv E) as (w & Hw & Hs & Hd' & _). cbn in *.
  rewrite Hw. cbn. by eexists.
Qed.

Lemma wf_def_eq d :
  wf_def d ↔ match def_superset d with
             | Some s => link_ok (def_arg d) s ∧ def_depth d = S (def_depth (set_def s)) ∧
                         wf_def (set_def s)
             | None => def_depth d = 0
             end.
Proof. by destruct d as [n a [[e r u]|] rv ks dp od dj]. Qed.

Lemma chain_is_subset_of_total d v other :
  wf_def d → (is_Some v ↔ is_Some (def_arg d)) → is_Some (chain_is_subset_of d v other).
Proof.
  revert v. induction d as [d Ed|d s Ed IH] using def_chain_ind; intros v Hd Hv;
    rewrite chain_is_subset_of_eq, Ed; (destruct (set_eqb _ other); [by eexists|]); [by eexists|].
  destruct (wf_superset_var _ _ _ Hd Hv Ed) as (w & -> & Hs & Hd' & _). cbn.
  destruct (IH w Hd' Hs) as [b ->]. by eexists.
Qed.

Lemma is_subset_of_total s other : wf_set s → is_Some (is_subset_of s other).
Proof.
  revert s. fix IH 1. intros [d rc v]. cbn [wf_set is_subset_of]. intros (Hv & Hd & Hr).
  destruct (set_eqb _ other); [by eexists|].
  assert (∃ b, match def_superset d with
    | None => Some false
    | Some (mkSet d' _ v') => v' ← superset_var v' v; chain_is_subset_of d' v' other
    end = Some b) as [b Hb].
  { destruct (def_superset d) as [[d' r' u]|] eqn:E; [|by eexists].
    destruct (wf_superset_var _ _ _ Hd Hv E) as (w & Hw & Hs & Hd' & _).
    cbn in *. rewrite Hw. cbn. by apply chain_is_subset_of_total. }
  rewrite Hb. cbn. destruct b; [by eexists|]. destruct rc as [r|]; [|by eexists].
  destruct (IH r Hr) as [b ->]. by eexists.
Qed.

Lemma path_loop_total d rc v target out :
  wf_def d → (is_Some v ↔ is_Some (def_arg d)) → is_Some (path_loop d rc v target out).
Proof.
  revert rc v out. induction d as [d Ed|d s Ed IH] using def_chain_ind; intros rc v out Hd Hv;
    rewrite path_loop_eq, Ed; (destruct (set_eqb _ target); [by eexists|]); [by eexists|].
  destruct (wf_superset_var _ _ _ Hd Hv Ed) as (w & -> & Hs & Hd' & _). cbn. by apply IH.
Qed.

(** A set and its argument, as the hierarchy is climbed. *)
Definition wf_at (x : SetDef * option Var) : Prop :=
  wf_def x.1 ∧ (is_Some x.2 ↔ is_Some (def_arg x.1)).

Lemma collision_up_wf x s :
  wf_at x → def_superset x.1 = Some s →
  ∃ y, collision_up x s = Some y ∧ wf_at y ∧ y.1 = set_def s ∧
    superset_var (set_arg s) x.2 = Some y.2 ∧ chain_length x.1 = S (chain_length y.1).
Proof.
  intros [Hd Hv] Hs. destruct (wf_superset_var _ _ _ Hd Hv Hs) as (w & Hw & Hi & Hd' & Hdp).
  unfold collision_up. rewrite Hw. cbn. eexists. split; [done|]. split_and!; try done.
  by rewrite <-!wf_depth.
Qed.

(** The loop of [get_collision_level] climbs at most as many times as both sets have
    supersets; it stops at a common set, or at a root and a set that differs from it. *)
Definition climbs (P : SetDef * option Var → list SetDef → Prop) : Prop :=
  ∀ x s z p, P x p → def_superset x.1 = Some s → collision_up x s = Some z → P z (p ++ [x.1]).

Lemma collision_loop_spec (P Q : SetDef * option Var → list SetDef → Prop) fuel x y px py :
  climbs P → climbs Q →
  wf_at x → wf_at y → P x px → Q y py →
  chain_length x.1 + chain_length y.1 < fuel →
  ∃ out, collision_loop fuel x y px py = Some out ∧
    match out with
    | Some (d, lp, rp) => ∃ x' y', P x' lp ∧ Q y' rp ∧ d = x'.1 ∧ def_name x'.1 = def_name y'.1
    | None => ∃ x' y' lp rp, P x' lp ∧ Q y' rp ∧
        def_superset x'.1 = None ∧ def_superset y'.1 = None ∧
        ¬ (def_name x'.1 = def_name y'.1 ∧ x'.2 = y'.2)
    end.
Proof.
  intros HP HQ. revert x y px py. induction fuel as [|fuel IH]; intros x y px py Hx Hy Px Py Hf;
    [lia|]. cbn [collision_loop].
  destruct (def_eqb x.1 y.1 && bool_decide (x.2 = y.2)) eqn:E.
  { apply andb_true_iff in E as [E _]. eexists. split; [done|]. cbn.
    exists x, y. split_and!; try done. by apply bool_decide_eq_true in E. }
  destruct (Nat.ltb_spec (def_depth y.1) (def_depth x.1)) as [Hlt|Hge].
  - destruct (def_superset x.1) as [s|] eqn:Es.
    + destruct (collision_up_wf _ _ Hx Es) as (z & Hz & Hwz & _ & _ & Hl). cbn. rewrite Hz. cbn.
      apply IH; try done; [by apply (HP x s)|lia].
    + exfalso. destruct Hx as [Hx _]. apply wf_def_eq in Hx. rewrite Es in Hx. lia.
  - destruct (def_superset y.1) as [s|] eqn:Es.
    + destruct (collision_up_wf _ _ Hy Es) as (z & Hz & Hwz & _ & _ & Hl). rewrite Hz. cbn.
      apply IH; try done; [by apply (HQ y s)|lia].
    + eexists. split; [done|]. cbn. exists x, y, px, py. split_and!; try done.
      * destruct (def_superset x.1) as [s|] eqn:Es'; [|done]. exfalso.
        destruct (collision_up_wf _ _ Hx Es') as (z & _ & _ & _ & _ & Hl).
        destruct Hx as [Hx _], Hy as [Hy _]. rewrite (wf_depth _ Hx), (wf_depth _ Hy) in Hge.
        rewrite (chain_length_eq y.1), Es in Hge. lia.
      * intros [H1 H2]. apply not_true_iff_false in E. apply E.
        unfold def_eqb. by rewrite !bool_decide_eq_true_2.
Qed.

(** ** What sets mean

    A model gives each definition the objects of the set, for each value of its argument.
    It is considered on a universe of definitions closed under supersets. *)
Section model.
Context {Obj : Type} (universe : SetDef → Prop) (den : SetDef → option Obj → Obj → Prop).

(** Names identify sets, supersets include, declared disjoint sets are disjoint, and so
    are different root sets and the instances of a root set. *)
Record set_model : Prop := {
  model_closed d s : universe d → def_superset d = Some s → universe (set_def s);
  model_name d d' a o : universe d → universe d' → def_name d = def_name d' →
    den d a o → den d' a o;
  model_superset d s a o : universe d → def_superset d = Some s → den d a o →
    den (set_def s) (if set_arg s then a else None) o;
  model_disjoint d d' a a' o : universe d → universe d' → den d a o → den d' a' o →
    declared_disjoint d d' = false;
  model_root d d' a a' o : universe d → universe d' → def_superset d = None →
    def_superset d' = None → den d a o → den d' a' o → def_name d = def_name d' ∧ a = a'
}.

Fixpoint set_den (env : Var → Obj) (s : GSet) (o : Obj) : Prop :=
  match s with
  | mkSet d r v => den d (env <$> v) o ∧ match r with Some r => set_den env r o | None => True end
  end.

Fixpoint set_in (s : GSet) : Prop :=
  match s with
  | mkSet d r v => universe d ∧ match r with Some r => set_in r | None => True end
  end.

Context (Hm : set_model) (env : Var → Obj).

Lemma set_den_equiv s t o : set_in s → set_in t → s ≡ t → set_den env s o → set_den env t o.
Proof.
  unfold equiv, gset_equiv. revert s t. fix IH 1. intros [d r v] [d' r' v']. cbn.
  intros [Hu Hr] [Hu' Hr'] [= Hn Hk ->] [Hd Hrd]. split.
  - by apply (model_name Hm d d').
  - destruct r as [r|], r' as [r'|]; try done. injection Hk as Hk. by apply (IH r r').
Qed.

Lemma superset_var_den d s v w o :
  universe d → def_superset d = Some s → superset_var (set_arg s) v = Some w →
  den d (env <$> v) o → den (set_def s) (env <$> w) o.
Proof.
  intros Hu Hs Hw Hd. pose proof (model_superset Hm _ _ _ _ Hu Hs Hd) as H.
  destruct (set_arg s) as [u|]; cbn in Hw.
  - case_decide; [|done]. by destruct v as [v|]; [injection Hw as <-|].
  - by injection Hw as <-.
Qed.

Lemma chain_is_subset_of_den d v other o :
  universe d → set_in other → chain_is_subset_of d v other = Some true →
  den d (env <$> v) o → set_den env other o.
Proof.
  intros Hu Ho. revert v. induction d as [d Ed|d s Ed IH] using def_chain_ind; intros v Hc Hd;
    rewrite chain_is_subset_of_eq, Ed in Hc;
    (destruct (set_eqb _ other) eqn:E;
      [by apply set_eqb_spec in E; apply (set_den_equiv (mkSet d None v))|]); [done|].
  destruct (superset_var (set_arg s) v) as [w|] eqn:Ew; [|done]. cbn in Hc.
  destruct (chain_is_subset_of (set_def s) w other) as [[]|] eqn:Ec; [|done|done].
  apply (IH ltac:(by apply (model_closed Hm d)) w Ec). by apply (superset_var_den d s v w).
Qed.

Lemma is_subset_of_den s other o :
  set_in s → set_in other → is_subset_of s other = Some true →
  set_den env s o → set_den env other o.
Proof.
  intros Hs Ho. revert s Hs. fix IH 1. intros [d rc v] Hin Hs Hd.
  cbn [is_subset_of] in Hs. destruct (set_eqb _ other) eqn:E.
  { apply set_eqb_spec in E. by eapply set_den_equiv. }
  destruct Hin as [Hu Hrc], Hd as [Hd Hr].
  assert (match def_superset d with
    | None => Some false
    | Some (mkSet d' _ v') => v' ← superset_var v' v; chain_is_subset_of d' v' other
    end = Some true → set_den env other o) as Hchain.
  { destruct (def_superset d) as [[d' r' u]|] eqn:Ed; [|done].
    destruct (superset_var u v) as [w|] eqn:Ew; [|done]. cbn. intros Hc.
    apply (chain_is_subset_of_den d' w); [|done|done|].
    - by apply (model_closed Hm d (mkSet d' r' u)).
    - by apply (superset_var_den d (mkSet d' r' u) v w). }
  destruct (match def_superset d with None => _ | Some _ => _ end) as [[]|]; [by apply Hchain| |done].
  cbn in Hs. destruct rc as [r|]; [|done].
  destruct (is_subset_of r other) as [[]|] eqn:Er; [|done|done]. by apply (IH r).
Qed.

Lemma path_loop_den d rc v target out p o :
  universe d → match rc with Some r => set_in r | None => True end → set_in target →
  path_loop d rc v target out = Some p → p ≠ [] → set_den env (mkSet d rc v) o →
  Forall (λ q, set_den env q o) out → Forall (λ q, set_den env q o) (p ++ [target]).
Proof.
  intros Hu Hrc Ht. revert rc v out Hrc.
  induction d as [d Ed|d s Ed IH] using def_chain_ind; intros rc v out Hrc Hp Hne Hd Hout;
    rewrite path_loop_eq, Ed in Hp;
    (destruct (set_eqb _ target) eqn:E;
      [injection Hp as <-; apply set_eqb_spec in E; apply Forall_app; split; [done|];
       constructor; [by apply (set_den_equiv (mkSet d rc v))|done]|]); [by injection Hp as <-|].
  destruct (superset_var (set_arg s) v) as [w|] eqn:Ew; [|done]. cbn in Hp.
  apply (IH ltac:(by apply (model_closed Hm d)) None w _ ltac:(done) Hp Hne).
  - split; [|done]. destruct Hd as [Hd _]. by apply (superset_var_den d s v w).
  - apply Forall_app. split; [done|]. by constructor.
Qed.

(** What the climb from [x] has seen when it is at [y]. *)
Inductive ancestor : SetDef → SetDef → Prop :=
| ancestor_refl d : ancestor d d
| ancestor_up d e s : ancestor d e → def_superset e = Some s → ancestor d (set_def s).

Lemma ancestor_is_subset d e e' :
  ancestor d e → def_name e = def_name e' → def_is_subset_of_def d e' = true.
Proof.
  intros Ha. assert (def_is_subset_of_def e e' = true →  def_is_subset_of_def d e' = true) as H.
  { induction Ha as [|d e s _ IH Es]; [done|]. intros He. apply IH.
    rewrite def_is_subset_of_def_eq, Es, He. apply orb_true_r. }
  intros Hn. apply H. rewrite def_is_subset_of_def_eq. unfold def_eqb.
  by rewrite bool_decide_eq_true_2.
Qed.

Definition climbed (x y : SetDef * option Var) (p : list SetDef) : Prop :=
  universe y.1 ∧ Forall universe p ∧ ancestor x.1 y.1 ∧
  ∀ o, den x.1 (env <$> x.2) o → den y.1 (env <$> y.2) o ∧ Forall (λ d, ∃ a, den d a o) p.

Lemma climbs_climbed x : climbs (climbed x).
Proof.
  intros y s z p (Hu & Hp & Ha & Ho) Es Hz. unfold collision_up in Hz.
  destruct (superset_var (set_arg s) y.2) as [w|] eqn:Ew; [|done]. injection Hz as <-. cbn.
  split_and!.
  - by apply (model_closed Hm y.1).
  - apply Forall_app. split; [done|]. by constructor.
  - by eapply ancestor_up.
  - intros o Hx. destruct (Ho o Hx) as [Hy Hps]. split; [by eapply superset_var_den|].
    apply Forall_app. split; [done|]. constructor; [by eexists|done].
Qed.
Lemma collision_level_cases s t out :
  wf_set s → wf_set t → set_in s → set_in t → get_collision_level s t = Some out →
  ∃ x y lp rp, climbed (set_def s, set_arg s) x lp ∧ climbed (set_def t, set_arg t) y rp ∧
    match out with
    | Some d => d = x.1 ∧ def_name x.1 = def_name y.1
    | None =>
        (∃ d d', d ∈ lp ∧ d' ∈ rp ∧ declared_disjoint d d' = true) ∨
        (def_superset x.1 = None ∧ def_superset y.1 = None ∧
         ¬ (def_name x.1 = def_name y.1 ∧ x.2 = y.2))
    end.
Proof.
  destruct s as [d r v], t as [d' r' v']. intros (Hv & Hd & _) (Hv' & Hd' & _) [Hu _] [Hu' _].
  assert (∀ e w, universe e → climbed (e, w) (e, w) []) as H0.
  { intros e w He. split_and!; [done|done|constructor|done]. }
  unfold get_collision_level. cbn [set_def set_arg].
  destruct (collision_loop_spec (climbed (d, v)) (climbed (d', v'))
    (S (chain_length d + chain_length d')) (d, v) (d', v') [] []
    (climbs_climbed _) (climbs_climbed _) (conj Hd Hv) (conj Hd' Hv') (H0 d v Hu) (H0 d' v' Hu')
    ltac:(cbn; lia)) as (o & -> & Ho).
  cbn [mbind option_bind]. destruct o as [[[c lp] rp]|].
  - destruct Ho as (x & y & Hx & Hy & -> & Hn).
    destruct (existsb (λ e, existsb (declared_disjoint e) rp) lp) eqn:E; intros [= <-];
      exists x, y, lp, rp; (split; [done|]); (split; [done|]); [|done].
    left. apply existsb_exists in E as (e & He & E). apply existsb_exists in E as (e' & He' & E).
    exists e, e'. by rewrite !list_elem_of_In.
  - destruct Ho as (x & y & lp & rp & Hx & Hy & Hsx & Hsy & Hn). intros [= <-].
    exists x, y, lp, rp. split; [done|]. split; [done|]. by right.
Qed.
End model.

(** C31: The relations between sets are sound for every model of the definitions in which
    names identify sets, supersets include them, and declared disjoint sets, different
    roots and different instances of a root are disjoint: a set found to be a subset is
    included, every set on the path to a superset includes the set, two sets without a
    collision level share no object when different variables stand for different
    objects, and a collision level is a definition above both sets. *)
Theorem set_relations_sound {Obj : Type} (universe : SetDef → Prop)
    (den : SetDef → option Obj → Obj → Prop) (env : Var → Obj) (s t : GSet) :
  set_model universe den → set_in universe s → set_in universe t → wf_set s → wf_set t →
  (is_subset_of s t = Some true → ∀ o, set_den den env s o → set_den den env t o) ∧
  (∀ p, path_to_superset s t = Some p → p ≠ [] → ∀ o, set_den den env s o →
    Forall (λ q, set_den den env q o) (p ++ [t])) ∧
  ((∀ x y, env x = env y → x = y) → get_collision_level s t = Some None →
    ∀ o, set_den den env s o → ¬ set_den den env t o) ∧
  (∀ d, get_collision_level s t = Some (Some d) →
    def_is_subset_of_def (set_def s) d = true ∧ def_is_subset_of_def (set_def t) d = true).
Proof.
  intros Hm Hs Ht Ws Wt. split_and!.
  - intros Hsub o. by apply (is_subset_of_den universe den Hm env).
  - destruct s as [d r v]. destruct Hs as [Hu Hr]. intros p Hp Hne o Ho.
    by apply (path_loop_den universe den Hm env d r v t [] p o).
  - intros Hinj Hc o Ho Ho'.
    destruct (collision_level_cases universe den Hm env s t None Ws Wt Hs Ht Hc) as
      (x & y & lp & rp & (Hux & Hlp & _ & Hx) & (Huy & Hrp & _ & Hy) & Hcase).
    destruct s as [d r v], t as [d' r' v'], Ho as [Ho _], Ho' as [Ho' _].
    destruct (Hx o Ho) as [Hx' Hlo], (Hy o Ho') as [Hy' Hro]. clear Hx Hy.
    rewrite Forall_forall in Hlp, Hrp, Hlo, Hro.
    destruct Hcase as [(e & e' & He & He' & Hdj)|(Ex & Ey & Hne)].
    + destruct (Hlo e He) as [a Ha], (Hro e' He') as [a' Ha'].
      by rewrite (model_disjoint _ _ Hm e e' a a' o) in Hdj by auto.
    + apply Hne. destruct (model_root _ _ Hm _ _ _ _ _ Hux Huy Ex Ey Hx' Hy') as [Hn Ha].
      split; [done|]. destruct (x.2), (y.2); try done. injection Ha as Ha. by f_equal; apply Hinj.
  - intros d Hc.
    destruct (collision_level_cases universe den Hm env s t (Some d) Ws Wt Hs Ht Hc) as
      (x & y & lp & rp & (_ & _ & Hax & _) & (_ & _ & Hay & _) & -> & Hn).
    split; [by eapply ancestor_is_subset|]. by eapply ancestor_is_subset.
Qed.

(** Instructions, and two disjoint subsets of them; one is parametric. *)
Definition ex_inst : SetDef := setdef_build "Instructions" None None ReverseNone [] [].
Definition ex_mem : SetDef :=
  setdef_build "MemInsts" None (Some (mkSet ex_inst None None)) ReverseNone [] ["Computes"%string].
Definition ex_computes : SetDef :=
  setdef_build "Computes" (Some (mkSet ex_inst None None)) (Some (mkSet ex_inst None None))
    ReverseNone [] [].

Definition ex_den (d : SetDef) (a : option nat) (o : nat) : Prop :=
  match d with
  | mkSetDef "MemInsts" _ _ _ _ _ _ _ => Nat.even o = true ∧ a = None
  | mkSetDef "Computes" _ _ _ _ _ _ _ => Nat.even o = false ∧ is_Some a
  | mkSetDef "Instructions" _ _ _ _ _ _ _ => a = None
  | _ => False
  end.

Lemma ex_set_model : set_model (λ d, d ∈ [ex_inst; ex_mem; ex_computes]) ex_den.
Proof.
  split; setoid_rewrite list_elem_of_In; cbn [In].
  - intros d s [<-|[<-|[<-|[]]]]; cbn; intros [= <-]; auto.
  - intros d d' a o [<-|[<-|[<-|[]]]] [<-|[<-|[<-|[]]]]; cbn; done.
  - intros d s a o [<-|[<-|[<-|[]]]]; cbn; intros [= <-]; done.
  - intros d d' a a' o [<-|[<-|[<-|[]]]] [<-|[<-|[<-|[]]]]; cbn; try done; intros [-> _] [? _]; done.
  - intros d d' a a' o [<-|[<-|[<-|[]]]] [<-|[<-|[<-|[]]]]; cbn; try done. by intros _ _ -> ->.
Qed.

Lemma set_relations_sound_witness :
  let s := mkSet ex_mem None None in
  let t := mkSet ex_computes None (Some (Arg 0)) in
  (is_subset_of s t = Some true → ∀ o,
    set_den ex_den (λ v, match v with Arg i => 2 * i | ForallVar i => 2 * i + 1 end) s o →
    set_den ex_den (λ v, match v with Arg i => 2 * i | ForallVar i => 2 * i + 1 end) t o) ∧
  get_collision_level s t = Some None ∧
  ∀ o, set_den ex_den (λ v, match v with Arg i => 2 * i | ForallVar i => 2 * i + 1 end) s o →
    ¬ set_den ex_den (λ v, match v with Arg i => 2 * i | ForallVar i => 2 * i + 1 end) t o.
Proof.
  intros s t.
  destruct (set_relations_sound (λ d, d ∈ [ex_inst; ex_mem; ex_computes]) ex_den
    (λ v, match v with Arg i => 2 * i | ForallVar i => 2 * i + 1 end) s t) as (H1 & _ & H3 & _).
  - apply ex_set_model.
  - split; [right; left|exact I].
  - split; [right; right; left|exact I].
  - cbn. unfold is_Some, link_ok. cbn. split_and!; try done. split; intros []; done.
  - cbn. unfold is_Some, link_ok. cbn. split_and!; try done. split; intros; eexists; done.
  - split; [exact H1|]. split; [vm_compute; reflexivity|]. apply H3; [|vm_compute; reflexivity].
    intros [i|i] [j|j] E; f_equal; lia.
Defined.

(** C35: Sets are well typed: [setdef_new] and [Set::new] make well-formed definitions and
    sets from well-formed parts, adapting and climbing to the superset keep them
    well formed, and on well-formed sets none of the relations panics: the assertions on
    the argument of a superset hold and the recorded depths are those of the paths, so
    the search of a collision level ends. *)
Theorem set_operations_well_typed :
  (∀ name arg sup reverse keys disjoints d,
    from_option (λ s, wf_def (set_def s) ∧ link_ok arg s) True sup →
    setdef_new name arg sup reverse keys disjoints = Some d → wf_def d) ∧
  (∀ d v s, wf_def d → set_new d v = Some s → wf_set s) ∧
  (∀ s a, wf_set s → wf_set (set_adapt a s)) ∧
  (∀ s, wf_set s → ∃ t, superset s = Some t ∧ from_option wf_set True t) ∧
  (∀ s t, wf_set s → wf_set t →
    is_Some (is_subset_of s t) ∧ is_Some (path_to_superset s t) ∧
    is_Some (get_collision_level s t)).
Proof.
  split_and!.
  - intros name arg sup reverse keys dj d Hs. unfold setdef_new.
    destruct (match reverse with Some _ => _ | None => _ end) as [r|]; [|done]. intros [= <-].
    apply wf_def_build. by destruct sup.
  - intros d v s Hd. unfold set_new. case_decide as E; [|done]. intros [= <-]. done.
  - fix IH 1. intros [d r v] a. cbn. intros (Hv & Hd & Hr). split_and!.
    + by rewrite fmap_is_Some.
    + done.
    + destruct r as [r|]; [|done]. by apply IH.
  - apply superset_wf.
  - intros s t Hs Ht. split_and!.
    + by apply is_subset_of_total.
    + destruct s as [d r v]. destruct Hs as (Hv & Hd & _). by apply path_loop_total.
    + destruct s as [d r v], t as [d' r' v']. destruct Hs as (Hv & Hd & _), Ht as (Hv' & Hd' & _).
      unfold get_collision_level. cbn [set_def set_arg].
      destruct (collision_loop_spec (λ _ _, True) (λ _ _, True)
        (S (chain_length d + chain_length d')) (d, v) (d', v') [] []
        ltac:(by unfold climbs) ltac:(by unfold climbs) (conj Hd Hv) (conj Hd' Hv') I I
        ltac:(cbn; lia)) as (o & -> & _).
      cbn. destruct o as [[[c lp] rp]|]; [|by eexists]. by case_match; eexists.
Qed.

(** Two different reverse sets are both named by the empty string, so the code takes them
    for the same set. *)
Lemma reverse_sets_confused (n m : string) (arg : option GSet) keys keys' set set' iter iter' d d' :
  setdef_new_reverse n arg keys set iter = Some d →
  setdef_new_reverse m arg keys' set' iter' = Some d' →
  def_eqb d d' = true ∧ is_subset_of (mkSet d None (Some (Arg 0))) (mkSet d' None (Some (Arg 0))) = Some true.
Proof.
  assert (∀ n arg keys set iter d, setdef_new_reverse n arg keys set iter = Some d → def_name d = "")
    as Hn.
  { intros n' a k s' i e. unfold setdef_new_reverse. destruct a; [|done]. cbn [mbind option_bind].
    repeat (match goal with |- context [im_get ?x ?y] => destruct (im_get x y); [|done] end; cbn [mbind option_bind]).
    destruct (foldM _ _ _); [|done]. by intros [= <-]. }
  intros Hd%Hn Hd'%Hn. assert (def_eqb d d' = true) as E.
  { unfold def_eqb. apply bool_decide_eq_true. congruence. }
  split; [done|]. cbn [is_subset_of set_eqb]. by rewrite E.
Qed.
