(* ===== verification/Filters.v ===== *)
(** * Choices, filters and value sets (telamon-gen/src/ir/filter.rs, choice.rs and mod.rs)

    A choice is a decision over the arguments of some sets; it takes the values of an enum
    or integers.  A filter restricts the values of a choice from the values of other
    choices, its inputs: a tree of switches on inputs with lists of rules at the leaves.
    A rule allows some alternatives when its conditions hold. *)
From S2P Require Import Prelude Utils Orders GenSets.
From stdpp Require Import pretty.

(** ** Code of the host language *)
Record Code := mkCode { code : string; code_vars : list (Var * string) }.

#[global] Instance Code_eq_dec : EqDecision Code.
Proof. solve_decision. Defined.

#[global] Instance Code_countable : Countable Code :=
  inj_countable' (λ c, (code c, code_vars c)) (λ '(c, v), mkCode c v) ltac:(abstract by intros []).

#[global] Instance Code_rust_ord : RustOrd Code.
Proof. apply (rust_ord_inj (λ c, (code c, code_vars c))). abstract by intros [] [] [= -> ->]. Defined.

(** [Display] of a variable. *)
Definition var_to_string (v : Var) : string :=
  match v with
  | Arg id => "arg_" +:+ pretty id
  | ForallVar id => "var_" +:+ pretty id
  end%string.

(** Each variable is renamed after what it stands for, in the code and in the list. *)
Definition code_normalize (self : Code) : Code :=
  let '(text, vars) :=
    foldl (λ '(text, vars) '(var, old_name),
      let new_name := var_to_string var in
      (str_replace ("$" +:+ old_name)%string ("$" +:+ new_name)%string text,
       vars ++ [(var, new_name)]))
      (code self, []) (code_vars self) in
  mkCode text (rdedup (rsort_by_key fst vars)).

Definition code_adapt (a : Adaptator) (self : Code) : Code :=
  mkCode (code self) ((λ '(var, name), (adaptator_variable a var, name)) <$> code_vars self).

(** ** Comparison operators *)
Inductive CmpOp := OpLt | OpGt | OpLeq | OpGeq | OpEq | OpNeq.

#[global] Instance CmpOp_eq_dec : EqDecision CmpOp.
Proof. solve_decision. Defined.

Definition op_code (op : CmpOp) : nat :=
  match op with OpLt => 0 | OpGt => 1 | OpLeq => 2 | OpGeq => 3 | OpEq => 4 | OpNeq => 5 end.

#[global] Instance CmpOp_countable : Countable CmpOp :=
  inj_countable' op_code
    (λ n, match n with 0 => OpLt | 1 => OpGt | 2 => OpLeq | 3 => OpGeq | 4 => OpEq | _ => OpNeq end)
    ltac:(abstract by intros []).

#[global] Instance CmpOp_rust_ord : RustOrd CmpOp.
Proof. apply (rust_ord_inj op_code). abstract by intros [] []. Defined.

Definition op_negate (op : CmpOp) : CmpOp :=
  match op with
  | OpLt => OpGeq | OpGt => OpLeq | OpLeq => OpGt | OpGeq => OpLt | OpEq => OpNeq | OpNeq => OpEq
  end.

Definition op_inverse (op : CmpOp) : CmpOp :=
  match op with
  | OpLt => OpGt | OpGt => OpLt | OpLeq => OpGeq | OpGeq => OpLeq | OpEq => OpEq | OpNeq => OpNeq
  end.

Definition allows_eq (op : CmpOp) : bool :=
  match op with OpLt | OpGt | OpNeq => false | OpLeq | OpGeq | OpEq => true end.

(** ** Value types *)
Inductive ValueType :=
| TyEnum (name : string)
| TyRange (is_half : bool)
| TyNumericSet (universe : Code)
| TyConstant.

#[global] Instance ValueType_eq_dec : EqDecision ValueType.
Proof. solve_decision. Defined.

Definition full_type (t : ValueType) : ValueType :=
  match t with TyRange _ => TyRange false | t => t end.

Definition type_as_enum (t : ValueType) : option string :=
  match t with TyEnum name => Some name | _ => None end.

Definition value_type_adapt (a : Adaptator) (t : ValueType) : ValueType :=
  match t with TyNumericSet uni => TyNumericSet (code_adapt a uni) | t => t end.

(** ** Enums *)
Record Enum := mkEnum {
  enum_name : string;
  enum_doc : option string;
  enum_values : IndexMap string (option string);
  enum_aliases : IndexMap string (gset string * option string);
  inverse_mapping : option (list (string * string))
}.

Definition enum_new (name : string) (doc : option string) (inverse : option (list (string * string)))
  : Enum := mkEnum name doc [] [] inverse.

Definition add_value (name : string) (doc : option string) (self : Enum) : option Enum :=
  if im_contains_key name (enum_aliases self) then panic else
  match im_insert name doc (enum_values self) with
  | (None, values) =>
    Some (mkEnum (enum_name self) (enum_doc self) values (enum_aliases self) (inverse_mapping self))
  | (Some _, _) => panic
  end.

Definition add_alias (name : string) (vals : gset string) (doc : option string) (self : Enum)
  : option Enum :=
  if im_contains_key name (enum_values self) then panic else
  match im_insert name (vals, doc) (enum_aliases self) with
  | (None, aliases) =>
    Some (mkEnum (enum_name self) (enum_doc self) (enum_values self) aliases (inverse_mapping self))
  | (Some _, _) => panic
  end.

(** Aliases are replaced by the values they stand for. *)
Definition expand (self : Enum) (set : list string) : gset string :=
  foldl (λ new_set alias,
    match im_get alias (enum_aliases self) with
    | Some (alias_set, _) => new_set ∪ alias_set
    | None => {[alias]} ∪ new_set
    end) ∅ set.

Fixpoint inverse_in (mapping : list (string * string)) (value : string) : string :=
  match mapping with
  | [] => value
  | (lhs, rhs) :: mapping =>
    if decide (lhs = value) then rhs
    else if decide (rhs = value) then lhs
    else inverse_in mapping value
  end.

Definition enum_inverse (self : Enum) (value : string) : string :=
  inverse_in (default [] (inverse_mapping self)) value.

(** The values of the enum, in order. *)
Definition value_keys (e : Enum) : list string := im_keys (enum_values e).

(** ** Value sets *)
Inductive ValueSet :=
| VSEnum (enum : string) (values : gset string) (inputs : gset (nat * bool * bool))
| VSInteger (is_full : bool) (cmp_inputs : gset (CmpOp * nat)) (cmp_code : gset (CmpOp * Code))
    (universe : ValueType).

#[global] Instance ValueSet_eq_dec : EqDecision ValueSet.
Proof. solve_decision. Defined.

(** [ValueSet::enum_values]. *)
Definition vs_enum_values (enum : string) (values : gset string) : ValueSet := VSEnum enum values ∅.

Definition normalize_values (values : gset string) (negate inverse : bool) (choice : Enum)
  : gset string :=
  let values := if inverse then set_map (enum_inverse choice) values else values in
  if negate then list_to_set (filter (λ x, x ∉ values) (value_keys choice)) else values.

Definition normalized_enum_set (values : gset string) (negate inverse : bool) (choice : Enum)
  : ValueSet :=
  vs_enum_values (enum_name choice) (normalize_values values negate inverse choice).

(** [ValueSet::empty]. *)
Definition vs_empty (t : ValueType) : option ValueSet :=
  match t with
  | TyEnum name => Some (VSEnum name ∅ ∅)
  | TyRange _ | TyNumericSet _ => Some (VSInteger false ∅ ∅ (full_type t))
  | TyConstant => panic
  end.

(** [ValueSet::from_input]. *)
Definition vs_from_input (t : ValueType) (input : nat) (op : CmpOp) (inverse : bool)
  : option ValueSet :=
  match t with
  | TyEnum name => Some (VSEnum name ∅ {[(input, bool_decide (op = OpNeq), inverse)]})
  | TyRange false | TyNumericSet _ =>
    if inverse then panic else Some (VSInteger false {[(op, input)]} ∅ (full_type t))
  | TyRange true | TyConstant => panic
  end.

(** [ValueSet::is_empty]. *)
Definition vs_is_empty (s : ValueSet) : bool :=
  match s with
  | VSEnum _ values inputs => bool_decide (values = ∅) && bool_decide (inputs = ∅)
  | VSInteger is_full cmp_inputs cmp_code _ =>
    negb is_full && bool_decide (cmp_inputs = ∅) && bool_decide (cmp_code = ∅)
  end.

(** [ValueSet::is_constrained]. *)
Definition is_constrained (s : ValueSet) : Trivalent :=
  match s with
  | VSEnum _ values inputs =>
    if decide (inputs = ∅) then if size values =? 1 then TTrue else TFalse
    else if decide (values = ∅) then if size inputs =? 1 then TTrue else TFalse
    else TMaybe
  | VSInteger _ _ _ _ => TMaybe
  end.

(** [ValueSet::extend]. *)
Definition vs_extend (self other : ValueSet) : option ValueSet :=
  match self, other with
  | VSEnum name values inputs, VSEnum _ other_values other_inputs =>
    Some (VSEnum name (values ∪ other_values) (inputs ∪ other_inputs))
  | VSInteger is_full cmp_inputs cmp_code u, VSInteger other_full other_inputs other_code _ =>
    if is_full || other_full then Some (VSInteger true cmp_inputs cmp_code u)
    else Some (VSInteger is_full (cmp_inputs ∪ other_inputs) (cmp_code ∪ other_code) u)
  | _, _ => panic
  end.

(** [ValueSet::intersect]: whether the sets could be intersected, and the set then. *)
Definition vs_intersect (self other : ValueSet) : option (bool * ValueSet) :=
  match self, other with
  | VSEnum name vals0 ins0, VSEnum _ vals1 ins1 =>
    if decide (ins0 = ∅ ∧ ins1 = ∅) then Some (true, VSEnum name (filter (.∈ vals1) vals0) ins0)
    else Some (false, self)
  | VSInteger true _ _ _, other => Some (true, other)
  | _, VSInteger true _ _ _ => Some (true, self)
  | VSInteger f cmp_inputs cmp_code u, VSInteger _ ins1 code1 _ =>
    if decide (ins1 ⊆ cmp_inputs ∧ code1 ⊆ cmp_code) then Some (true, VSInteger f ins1 code1 u)
    else Some (bool_decide (cmp_inputs ⊆ ins1 ∧ cmp_code ⊆ code1), self)
  | _, _ => panic
  end.

(** [ValueSet::is], on sets without inputs. *)
Definition vs_is (self other : ValueSet) : option Trivalent :=
  match self, other with
  | VSEnum _ values inputs, VSEnum _ values2 inputs2 =>
    if decide (inputs = ∅ ∧ inputs2 = ∅) then
      Some (if decide (values ⊆ values2) then TTrue
            else if decide (values ## values2) then TFalse else TMaybe)
    else panic
  | _, _ => panic
  end.

(** [ValueSet::t]. *)
Definition vs_t (s : ValueSet) : ValueType :=
  match s with VSEnum name _ _ => TyEnum name | VSInteger _ _ _ universe => universe end.

(** [CmpOp::evaluate]. *)
Definition op_evaluate (op : CmpOp) (lhs rhs : ValueSet) : option Trivalent :=
  match op with
  | OpLt | OpGt | OpLeq | OpGeq => Some TMaybe
  | OpEq =>
    l ← vs_is lhs rhs; r ← vs_is rhs lhs;
    Some (if is_true (is_constrained lhs) then bitand l r else bitand (bitand l r) TMaybe)
  | OpNeq => l ← vs_is lhs rhs; r ← vs_is rhs lhs; Some (bitor (tnot l) (tnot r))
  end.

(** ** Conditions *)
Inductive Condition :=
| CCode (code : Code) (negate : bool)
| CEnum (input : nat) (values : gset string) (negate inverse : bool)
| CBool (b : bool)
| CCmpCode (lhs : nat) (rhs : Code) (op : CmpOp)
| CCmpInput (lhs rhs : nat) (op : CmpOp) (inverse : bool).

#[global] Instance Condition_eq_dec : EqDecision Condition.
Proof. solve_decision. Defined.

(** The order that is derived: the variants in order, then the fields. *)
Definition condition_code (c : Condition)
  : Code * bool + (nat * (gset string * (bool * bool)) + (bool + (nat * (Code * CmpOp) +
      nat * (nat * (CmpOp * bool))))) :=
  match c with
  | CCode code negate => inl (code, negate)
  | CEnum input values negate inverse => inr (inl (input, (values, (negate, inverse))))
  | CBool b => inr (inr (inl b))
  | CCmpCode lhs rhs op => inr (inr (inr (inl (lhs, (rhs, op)))))
  | CCmpInput lhs rhs op inverse => inr (inr (inr (inr (lhs, (rhs, (op, inverse))))))
  end.

#[global] Instance Condition_rust_ord : RustOrd Condition.
Proof. apply (rust_ord_inj condition_code). abstract by intros [] [] [=]; subst. Defined.

Definition cond_negate (c : Condition) : Condition :=
  match c with
  | CCode code negate => CCode code (negb negate)
  | CBool b => CBool (negb b)
  | CEnum input values negate inverse => CEnum input values (negb negate) inverse
  | CCmpCode lhs rhs op => CCmpCode lhs rhs (op_negate op)
  | CCmpInput lhs rhs op inverse => CCmpInput lhs rhs (op_negate op) inverse
  end.

(** ** Rules and filters *)

(** [SetConstraints]: in the order that [set_constraints_new] puts them in. *)
Definition SetConstraints : Type := list (Var * GSet).

Definition set_constraints_new (constraints : list (Var * GSet)) : SetConstraints :=
  rsort_by_key (λ '(v, s), (def_order (set_def s), v)) constraints.

(** [SetConstraints::find_set]. *)
Definition find_set (var : Var) (constraints : SetConstraints) : option GSet :=
  snd <$> head (filter (λ x, x.1 = var) constraints).

Definition set_constraints_adapt (a : Adaptator) (constraints : SetConstraints) : SetConstraints :=
  set_constraints_new ((λ '(v, s), (adaptator_variable a v, set_adapt a s)) <$> constraints).

(** The equality derived for set constraints. *)
Fixpoint set_constraints_eqb (l k : SetConstraints) : bool :=
  match l, k with
  | [], [] => true
  | (v, s) :: l, (w, t) :: k => bool_decide (v = w) && set_eqb s t && set_constraints_eqb l k
  | _, _ => false
  end.

Record ChoiceInstance := mkChoiceInstance { ci_choice : string; ci_vars : list Var }.

#[global] Instance ChoiceInstance_eq_dec : EqDecision ChoiceInstance.
Proof. solve_decision. Defined.

Definition choice_instance_adapt (a : Adaptator) (c : ChoiceInstance) : ChoiceInstance :=
  mkChoiceInstance (ci_choice c) (adaptator_variable a <$> ci_vars c).

Record Rule := mkRule {
  conditions : list Condition;
  alternatives : ValueSet;
  set_constraints : SetConstraints
}.

Inductive SubFilter :=
| Switch (switch : nat) (cases : list (ValueSet * SubFilter))
| Rules (rules : list Rule).

Record Filter := mkFilter {
  filter_arguments : list GSet;
  filter_inputs : list ChoiceInstance;
  filter_rules : SubFilter
}.

(** ** Choices *)
Inductive ChoiceArguments :=
| Plain (vars : list (string * GSet))
| Symmetric (names : string * string) (t : GSet) (inverse : bool).

Definition choice_arguments_new (vars : list (string * GSet)) (symmetric inverse : bool)
  : option ChoiceArguments :=
  if symmetric then
    match vars with
    | [(lhs, t0); (rhs, t1)] => if set_eqb t0 t1 then Some (Symmetric (lhs, rhs) t0 inverse) else panic
    | _ => panic
    end
  else if inverse then panic else Some (Plain vars).

Definition arguments_names (a : ChoiceArguments) : list string :=
  match a with Plain vars => vars.*1 | Symmetric (l, r) _ _ => [l; r] end.

Definition arguments_sets (a : ChoiceArguments) : list GSet :=
  match a with Plain vars => vars.*2 | Symmetric _ t _ => [t; t] end.

Definition arguments_get (a : ChoiceArguments) (index : nat) : option (string * GSet) :=
  match a with
  | Plain vars => vars !! index
  | Symmetric (l, r) t _ => n ← [l; r] !! index; Some (n, t)
  end.

Definition is_symmetric (a : ChoiceArguments) : bool :=
  match a with Symmetric _ _ _ => true | Plain _ => false end.

Definition arguments_len (a : ChoiceArguments) : nat :=
  match a with Plain vars => length vars | Symmetric _ _ _ => 2 end.

Inductive CounterKind := CounterAdd | CounterMul.

Definition counter_zero (k : CounterKind) : Z := match k with CounterAdd => 0 | CounterMul => 1 end.

Inductive CounterVisibility := NoMax | HiddenMax | FullVisibility.

#[global] Instance CounterVisibility_eq_dec : EqDecision CounterVisibility.
Proof. solve_decision. Defined.

Inductive CounterVal :=
| CvCode (code : Code)
| CvChoice (choice : ChoiceInstance).

Definition counter_val_adapt (a : Adaptator) (v : CounterVal) : CounterVal :=
  match v with
  | CvCode code => CvCode (code_adapt a code)
  | CvChoice choice => CvChoice (choice_instance_adapt a choice)
  end.

Inductive ChoiceDef :=
| DefEnum (name : string)
| DefCounter (kind : CounterKind) (value : CounterVal) (incr_iter : list GSet)
    (incr : ChoiceInstance) (incr_condition : ValueSet) (visibility : CounterVisibility)
    (base : Code)
| DefNumber (universe : Code).

(** [ChoiceDef::value_type]. *)
Definition def_value_type (d : ChoiceDef) : ValueType :=
  match d with
  | DefEnum name => TyEnum name
  | DefCounter _ _ _ _ _ visibility _ => TyRange (bool_decide (visibility = NoMax))
  | DefNumber universe => TyNumericSet universe
  end.

Definition is_counter (d : ChoiceDef) : bool :=
  match d with DefCounter _ _ _ _ _ _ _ => true | _ => false end.

Definition def_as_enum (d : ChoiceDef) : option string :=
  match d with DefEnum name => Some name | _ => None end.

Definition is_valid_operator (d : ChoiceDef) (op : CmpOp) : bool :=
  match d with
  | DefEnum _ => bool_decide (op = OpEq) || bool_decide (op = OpNeq)
  | DefCounter _ _ _ _ _ FullVisibility _ => true
  | DefCounter _ _ _ _ _ _ _ => bool_decide (op = OpLt) || bool_decide (op = OpLeq)
  | DefNumber _ => true
  end.

(** ** Actions *)
Inductive FilterRef :=
| FrInline (rules : list Rule)
| FrFunction (choice : string) (id : nat) (args : list Var).

Record FilterCall := mkFilterCall { fc_forall_vars : list GSet; fc_filter_ref : FilterRef }.

Record RemoteFilterCall := mkRemoteFilterCall { rc_choice : ChoiceInstance; rc_filter : FilterCall }.

Record FilterAction := mkFilterAction { fa_set_constraints : SetConstraints; fa_filter : FilterCall }.

(** A condition from the point of view of a choice. *)
Record ChoiceCondition := mkChoiceCondition {
  cc_inputs : list ChoiceInstance;
  self_condition : ValueSet;
  others_conditions : list Condition
}.

Inductive ChoiceAction :=
| FilterSelf
| RemoteFilter (call : RemoteFilterCall)
| IncrCounter (counter : ChoiceInstance) (value : CounterVal) (incr_condition : ValueSet)
| UpdateCounter (counter incr : ChoiceInstance) (incr_condition : ValueSet)
| Trigger (id : nat) (condition : ChoiceCondition) (code : Code) (inverse_self_cond : bool).

Record OnChangeAction := mkOnChangeAction {
  oc_forall_vars : list GSet;
  oc_set_constraints : SetConstraints;
  oc_action : ChoiceAction
}.

Record Choice := mkChoice {
  choice_name : string;
  choice_doc : option string;
  arguments : ChoiceArguments;
  choice_def : ChoiceDef;
  on_change : list OnChangeAction;
  filter_actions : list FilterAction;
  filters : list Filter;
  no_propagate_values : ValueSet
}.

Definition choice_new (name : string) (doc : option string) (arguments : ChoiceArguments)
    (def : ChoiceDef) : option Choice :=
  fragile ← vs_empty (def_value_type def);
  Some (mkChoice name doc arguments def [] [] [] fragile).

(** [Choice::value_type]. *)
Definition choice_value_type (c : Choice) : ValueType := def_value_type (choice_def c).

Definition fragile_values (c : Choice) : ValueSet := no_propagate_values c.

Definition add_fragile_values (values : ValueSet) (c : Choice) : option Choice :=
  fragile ← vs_extend (no_propagate_values c) values;
  Some (mkChoice (choice_name c) (choice_doc c) (arguments c) (choice_def c) (on_change c)
    (filter_actions c) (filters c) fragile).

(** [Choice::add_filter_action], [Choice::add_onchange] and [Choice::add_filter]. *)
Definition choice_add_filter_action (action : FilterAction) (c : Choice) : Choice :=
  mkChoice (choice_name c) (choice_doc c) (arguments c) (choice_def c) (on_change c)
    (filter_actions c ++ [action]) (filters c) (no_propagate_values c).

Definition choice_add_onchange (action : OnChangeAction) (c : Choice) : Choice :=
  mkChoice (choice_name c) (choice_doc c) (arguments c) (choice_def c) (on_change c ++ [action])
    (filter_actions c) (filters c) (no_propagate_values c).

Definition choice_add_filter (f : Filter) (c : Choice) : nat * Choice :=
  let filters := filters c ++ [f] in
  (length filters - 1,
   mkChoice (choice_name c) (choice_doc c) (arguments c) (choice_def c) (on_change c)
     (filter_actions c) filters (no_propagate_values c)).

(** ** The description of the representation *)
Record OnNewObject := mkOnNewObject {
  ono_filter : list (list GSet * SetConstraints * RemoteFilterCall)
}.

Record TriggerDef := mkTriggerDef {
  trigger_foralls : list GSet;
  trigger_inputs : list ChoiceInstance;
  trigger_conditions : list Condition;
  trigger_code : Code
}.

Record IrDesc := mkIrDesc {
  choices : IndexMap string Choice;
  enums : IndexMap string Enum;
  set_defs : IndexMap string (SetDef * OnNewObject);
  triggers : list TriggerDef
}.

Definition get_enum (ir : IrDesc) (name : string) : option Enum := im_get name (enums ir).
Definition get_choice (ir : IrDesc) (name : string) : option Choice := im_get name (choices ir).
Definition get_set_def (ir : IrDesc) (name : string) : option SetDef :=
  fst <$> im_get name (set_defs ir).

Definition add_choice (choice : Choice) (ir : IrDesc) : option IrDesc :=
  match im_insert (choice_name choice) choice (choices ir) with
  | (None, choices) => Some (mkIrDesc choices (enums ir) (set_defs ir) (triggers ir))
  | (Some _, _) => panic
  end.

Definition add_enum (e : Enum) (ir : IrDesc) : option IrDesc :=
  match im_insert (enum_name e) e (enums ir) with
  | (None, enums) => Some (mkIrDesc (choices ir) enums (set_defs ir) (triggers ir))
  | (Some _, _) => panic
  end.

Definition add_set_def (def : SetDef) (ir : IrDesc) : option IrDesc :=
  match im_insert (def_name def) (def, mkOnNewObject []) (set_defs ir) with
  | (None, set_defs) => Some (mkIrDesc (choices ir) (enums ir) set_defs (triggers ir))
  | (Some _, _) => panic
  end.

Definition add_trigger (trigger : TriggerDef) (ir : IrDesc) : nat * IrDesc :=
  (length (triggers ir),
   mkIrDesc (choices ir) (enums ir) (set_defs ir) (triggers ir ++ [trigger])).

(** [IrDesc::default]: the enum of booleans. *)
Definition ir_desc_default : option IrDesc :=
  bool_enum ← add_value "TRUE" None (enum_new "Bool" None None);
  bool_enum ← add_value "FALSE" None bool_enum;
  add_enum bool_enum (mkIrDesc [] [] [] []).

(** ** Operations under a description *)

(** [ValueSet::is_full]. *)
Definition vs_is_full (ir : IrDesc) (s : ValueSet) : option bool :=
  match s with
  | VSEnum name values _ => e ← get_enum ir name; Some (length (enum_values e) =? size values)
  | VSInteger is_full _ _ _ => Some is_full
  end.

(** [ValueSet::from_properties]: the values that are, or are not, equal to themselves or
    to their inverse. *)
Definition vs_from_properties (ir : IrDesc) (t : ValueType) (is_eq is_inv : bool)
  : option ValueSet :=
  match t with
  | TyEnum name =>
    e ← get_enum ir name;
    if is_inv then
      let values := list_to_set (filter (λ v, enum_inverse e v = v) (value_keys e)) in
      Some (normalized_enum_set values (negb is_eq) false e)
    else Some (normalized_enum_set ∅ is_eq false e)
  | TyRange _ | TyNumericSet _ =>
    if is_inv then panic
    else if is_eq then Some (VSInteger true ∅ ∅ (full_type t)) else vs_empty t
  | TyConstant => panic
  end.

(** [ValueSet::inverse]. *)
Definition vs_inverse (ir : IrDesc) (s : ValueSet) : option ValueSet :=
  match s with
  | VSEnum name values inputs =>
    e ← get_enum ir name;
    Some (VSEnum name (set_map (enum_inverse e) values)
            (set_map (λ '(id, neg, inverse), (id, neg, negb inverse)) inputs))
  | VSInteger _ _ _ _ => panic
  end.

Definition inverse_if (ir : IrDesc) (inverse : bool) (s : ValueSet) : option ValueSet :=
  if inverse then vs_inverse ir s else Some s.

(** The turn of [ValueSet::instantiate] for one input. *)
Definition instantiate_input (e : Enum) (ir : IrDesc) (input_mapping : gmap nat ValueSet)
    (acc : gset string * gset (nat * bool * bool)) (i : nat * bool * bool)
  : option (gset string * gset (nat * bool * bool)) :=
  let '(new_values, new_inputs) := acc in
  let '(input, negate, inverse) := i in
  match input_mapping !! input with
  | Some mapping =>
    mapping ← inverse_if ir inverse mapping;
    match mapping with
    | VSEnum _ values inputs =>
      let added : gset string :=
        if negate then list_to_set (filter (λ v, v ∉ values) (value_keys e)) else values in
      let renamed : gset (nat * bool * bool) :=
        set_map (λ '(new_input, neg2, inv), (new_input, xorb negate neg2, inv)) inputs in
      Some (new_values ∪ added, new_inputs ∪ renamed)
    | VSInteger _ _ _ _ => panic
    end
  | None => Some (new_values, {[(input, negate, inverse)]} ∪ new_inputs)
  end.

Definition vs_instantiate (ir : IrDesc) (input_mapping : gmap nat ValueSet) (s : ValueSet)
  : option ValueSet :=
  match s with
  | VSEnum name values inputs =>
    e ← get_enum ir name;
    '(new_values, new_inputs) ←
      foldM (instantiate_input e ir input_mapping) (elements inputs) (values, ∅);
    Some (VSEnum name new_values new_inputs)
  | VSInteger _ _ _ _ => Some s
  end.

(** An integer input cannot be inversed. *)
Definition adapt_cmp_input (a : Adaptator) (x : CmpOp * nat) : option (CmpOp * nat) :=
  let '(op, input) := x in
  let '(new_input, inversed) := adaptator_input a input in
  if (inversed : bool) then panic else Some (op, new_input).

Definition adapt_enum_input (a : Adaptator) (x : nat * bool * bool) : nat * bool * bool :=
  let '(input, negate, inverse) := x in
  let '(new_input, inversed) := adaptator_input a input in
  (new_input, negate, xorb inverse inversed).

(** [ValueSet::adapt]. *)
Definition vs_adapt (a : Adaptator) (s : ValueSet) : option ValueSet :=
  match s with
  | VSEnum name values inputs =>
    Some (VSEnum name values
      (set_map (adapt_enum_input a) inputs))
  | VSInteger is_full cmp_inputs cmp_code universe =>
    new_inputs ← mapM (adapt_cmp_input a) (elements cmp_inputs);
    let new_code : gset (CmpOp * Code) := set_map (λ x, (x.1, code_adapt a x.2)) cmp_code in
    Some (VSInteger is_full (list_to_set new_inputs) new_code (value_type_adapt a universe))
  end.

(** The enum of an input: the code unwraps it. *)
Definition input_enum (ir : IrDesc) (inputs : list ChoiceInstance) (input : nat) : option Enum :=
  inst ← inputs !! input;
  choice ← get_choice ir (ci_choice inst);
  name ← def_as_enum (choice_def choice);
  get_enum ir name.

(** [Condition::alternatives_of]. *)
Definition alternatives_of (ir : IrDesc) (c : Condition) (input_id : nat) (t : ValueType)
  : option (option ValueSet) :=
  match c with
  | CEnum input values negate inverse =>
    if decide (input_id = input) then
      name ← type_as_enum t;
      e ← get_enum ir name;
      Some (Some (normalized_enum_set values negate inverse e))
    else Some None
  | CCmpCode lhs rhs op =>
    if decide (lhs = input_id) then Some (Some (VSInteger false ∅ {[(op, rhs)]} (full_type t)))
    else Some None
  | CCmpInput lhs rhs op inverse =>
    if decide (input_id = lhs ∧ input_id = rhs) then
      Some <$> vs_from_properties ir t (allows_eq op) inverse
    else if decide (input_id = lhs) then Some <$> vs_from_input t rhs op inverse
    else if decide (input_id = rhs) then Some <$> vs_from_input t lhs (op_inverse op) inverse
    else Some None
  | CCode _ _ | CBool _ => Some None
  end.

(** [Condition::evaluate]. *)
Definition cond_evaluate (ir : IrDesc) (inputs : list ChoiceInstance)
    (input_mapping : gmap nat ValueSet) (c : Condition) : option Trivalent :=
  match c with
  | CBool b => Some (if b then TTrue else TFalse)
  | CCode _ _ | CCmpCode _ _ _ => Some TMaybe
  | CEnum input values negate inverse =>
    e ← input_enum ir inputs input;
    let values := normalized_enum_set values negate inverse e in
    match input_mapping !! input with
    | Some i => vs_is i values
    | None => Some TMaybe
    end
  | CCmpInput lhs rhs op inverse =>
    match input_mapping !! lhs, input_mapping !! rhs with
    | Some lhs, Some rhs => lhs ← inverse_if ir inverse lhs; op_evaluate op lhs rhs
    | _, _ => Some TMaybe
    end
  end.

(** [Condition::instantiate]. *)
Definition cond_instantiate (ir : IrDesc) (inputs : list ChoiceInstance)
    (input_mapping : gmap nat ValueSet) (c : Condition) : option Condition :=
  t ← cond_evaluate ir inputs input_mapping c;
  Some (from_option CBool c (as_bool t)).

(** [Condition::normalize]. *)
Definition cond_normalize (ir : IrDesc) (inputs : list ChoiceInstance) (c : Condition)
  : option Condition :=
  match c with
  | CBool _ => Some c
  | CCmpInput lhs rhs op inverse =>
    Some (if rhs <? lhs then CCmpInput rhs lhs (op_inverse op) inverse else c)
  | CCmpCode lhs rhs op => Some (CCmpCode lhs (code_normalize rhs) op)
  | CCode code negate => Some (CCode (code_normalize code) negate)
  | CEnum input values negate inverse =>
    e ← input_enum ir inputs input;
    Some (CEnum input (normalize_values values negate inverse e) false false)
  end.

(** [Condition::adapt]. *)
Definition cond_adapt (a : Adaptator) (c : Condition) : option Condition :=
  match c with
  | CBool _ => Some c
  | CEnum input values negate inverse =>
    let '(new_input, inversed) := adaptator_input a input in
    Some (CEnum new_input values negate (xorb inverse inversed))
  | CCode code negate => Some (CCode (code_adapt a code) negate)
  | CCmpCode lhs rhs op =>
    let '(new_lhs, lhs_inversed) := adaptator_input a lhs in
    if (lhs_inversed : bool) then panic else Some (CCmpCode new_lhs (code_adapt a rhs) op)
  | CCmpInput lhs rhs op inverse =>
    let '(new_lhs, lhs_inversed) := adaptator_input a lhs in
    let '(new_rhs, rhs_inversed) := adaptator_input a rhs in
    Some (CCmpInput new_lhs new_rhs op (xorb (xorb inverse lhs_inversed) rhs_inversed))
  end.

(** The conditions of an instantiated rule; [None] inside when one is false. *)
Fixpoint instantiate_conditions (ir : IrDesc) (inputs : list ChoiceInstance)
    (input_mapping : gmap nat ValueSet) (conds : list Condition) : option (option (list Condition)) :=
  match conds with
  | [] => Some (Some [])
  | c :: conds =>
    c' ← cond_instantiate ir inputs input_mapping c;
    match c' with
    | CBool false => Some None
    | CBool true => instantiate_conditions ir inputs input_mapping conds
    | _ =>
      let! rest := instantiate_conditions ir inputs input_mapping conds in
      Some (from_option (λ rest, Some (c' :: rest)) None rest)
    end
  end.

(** [Rule::instantiate]. *)
Definition rule_instantiate (ir : IrDesc) (inputs : list ChoiceInstance)
    (input_mapping : gmap nat ValueSet) (r : Rule) : option (option Rule) :=
  conds ← instantiate_conditions ir inputs input_mapping (conditions r);
  match conds with
  | None => Some None
  | Some conds =>
    alts ← vs_instantiate ir input_mapping (alternatives r);
    Some (Some (mkRule conds alts (set_constraints r)))
  end.

(** [Rule::normalize]. *)
Definition rule_normalize (ir : IrDesc) (inputs : list ChoiceInstance) (r : Rule) : option Rule :=
  conds ← mapM (cond_normalize ir inputs) (conditions r);
  Some (mkRule (rsort conds) (alternatives r) (set_constraints r)).

(** [Rule::adapt]. *)
Definition rule_adapt (a : Adaptator) (r : Rule) : option Rule :=
  conds ← mapM (cond_adapt a) (conditions r);
  alts ← vs_adapt a (alternatives r);
  Some (mkRule conds alts (set_constraints_adapt a (set_constraints r))).

(** [ChoiceInstance::self_choice]. *)
Definition self_choice (choice : Choice) : ChoiceInstance :=
  mkChoiceInstance (choice_name choice) (Arg <$> seq 0 (arguments_len (arguments choice))).

(** [ChoiceInstance::normalize]: whether the input must be inversed, and the instance. *)
Definition choice_instance_normalize (ir : IrDesc) (c : ChoiceInstance)
  : option (bool * ChoiceInstance) :=
  choice ← get_choice ir (ci_choice c);
  match arguments choice with
  | Plain _ => Some (false, c)
  | Symmetric _ _ inverse =>
    match ci_vars c with
    | [v0; v1] =>
      match rcmp v0 v1 with
      | Gt => Some (inverse, mkChoiceInstance (ci_choice c) [v1; v0])
      | _ => Some (false, c)
      end
    | _ => panic
    end
  end.

(** [ChoiceInstance::value_type]. *)
Definition instance_value_type (ir : IrDesc) (c : ChoiceInstance) : option ValueType :=
  choice ← get_choice ir (ci_choice c);
  Some (value_type_adapt (from_arguments (ci_vars c)) (choice_value_type choice)).

(** ** Renaming actions *)
Definition filter_ref_adapt (a : Adaptator) (f : FilterRef) : option FilterRef :=
  match f with
  | FrInline rules => FrInline <$> mapM (rule_adapt a) rules
  | FrFunction choice id args => Some (FrFunction choice id (adaptator_variable a <$> args))
  end.

Definition filter_call_adapt (a : Adaptator) (f : FilterCall) : option FilterCall :=
  r ← filter_ref_adapt a (fc_filter_ref f);
  Some (mkFilterCall (set_adapt a <$> fc_forall_vars f) r).

Definition remote_filter_call_adapt (a : Adaptator) (r : RemoteFilterCall)
  : option RemoteFilterCall :=
  f ← filter_call_adapt a (rc_filter r);
  Some (mkRemoteFilterCall (choice_instance_adapt a (rc_choice r)) f).

Definition choice_condition_adapt (a : Adaptator) (c : ChoiceCondition) : option ChoiceCondition :=
  self_cond ← vs_adapt a (self_condition c);
  others ← mapM (cond_adapt a) (others_conditions c);
  Some (mkChoiceCondition (choice_instance_adapt a <$> cc_inputs c) self_cond others).

Definition choice_action_adapt (a : Adaptator) (act : ChoiceAction) : option ChoiceAction :=
  match act with
  | FilterSelf => Some FilterSelf
  | RemoteFilter call => RemoteFilter <$> remote_filter_call_adapt a call
  | IncrCounter counter value cond =>
    cond ← vs_adapt a cond;
    Some (IncrCounter (choice_instance_adapt a counter) (counter_val_adapt a value) cond)
  | UpdateCounter counter incr cond =>
    cond ← vs_adapt a cond;
    Some (UpdateCounter (choice_instance_adapt a counter) (choice_instance_adapt a incr) cond)
  | Trigger id cond code inverse_self_cond =>
    cond ← choice_condition_adapt a cond;
    Some (Trigger id cond (code_adapt a code) inverse_self_cond)
  end.

Definition on_change_action_adapt (a : Adaptator) (act : OnChangeAction) : option OnChangeAction :=
  action ← choice_action_adapt a (oc_action act);
  Some (mkOnChangeAction (set_adapt a <$> oc_forall_vars act)
    (set_constraints_adapt a (oc_set_constraints act)) action).

Definition applies_to_symmetric (act : ChoiceAction) : bool :=
  match act with FilterSelf | RemoteFilter _ => false | _ => true end.

(** [ChoiceAction::inputs] and [ChoiceAction::variables]. *)
Definition action_inputs (act : ChoiceAction) : list ChoiceInstance :=
  match act with Trigger _ cond _ _ => cc_inputs cond | _ => [] end.

Definition action_variables (act : ChoiceAction) : list GSet :=
  match act with RemoteFilter call => fc_forall_vars (rc_filter call) | _ => [] end.

Definition inverse_self (ir : IrDesc) (act : ChoiceAction) : option ChoiceAction :=
  match act with
  | Trigger id cond code inverse_self_cond => Some (Trigger id cond code (negb inverse_self_cond))
  | IncrCounter counter value cond => IncrCounter counter value <$> vs_inverse ir cond
  | UpdateCounter counter incr cond => UpdateCounter counter incr <$> vs_inverse ir cond
  | _ => Some act
  end.

(** The renaming that exchanges the two arguments of a symmetric choice. *)
Definition swap_arguments : Adaptator :=
  snd (set_variable (Arg 1) (Arg 0) (snd (set_variable (Arg 0) (Arg 1) adaptator_default))).

(** [OnChangeAction::inverse]. *)
Definition on_change_action_inverse (ir : IrDesc) (act : OnChangeAction) : option OnChangeAction :=
  out ← on_change_action_adapt swap_arguments act;
  action ← inverse_self ir (oc_action out);
  Some (mkOnChangeAction (oc_forall_vars out) (oc_set_constraints out) action).
