(* ===== verification/FilterSemantics.v ===== *)
(** * What filters mean (telamon-gen/src/ir/filter.rs)

    A world gives each input of a filter its value and decides the code of the host
    language and the membership in sets.  It is the reference against which the
    operations on value sets, conditions and rules are exact. *)
From S2P Require Import Prelude Utils Orders GenSets Filters.

Inductive Value := VEnum (value : string) | VNum (n : Z).

Record World := mkWorld {
  w_input : nat → Value;
  w_code : Code → bool;
  w_num : Code → Z;
  w_set : Var → GSet → Prop
}.

(** The host code does not depend on the names of its variables, nor on how often they
    are listed, and membership in a set does not depend on the copy of the set. *)
Record world_ok (w : World) : Prop := {
  code_normalized c : w_code w (code_normalize c) = w_code w c;
  num_normalized c : w_num w (code_normalize c) = w_num w c;
  set_respects v s t : s ≡ t → w_set w v s → w_set w v t
}.

Definition op_holds (op : CmpOp) (a b : Value) : bool :=
  match a, b with
  | VNum x, VNum y =>
    match op with
    | OpLt => x <? y | OpGt => y <? x | OpLeq => x <=? y | OpGeq => y <=? x
    | OpEq => x =? y | OpNeq => negb (x =? y)
    end%Z
  | VEnum s, VEnum t =>
    match op with
    | OpEq => bool_decide (s = t)
    | OpNeq => negb (bool_decide (s = t))
    | _ => false
    end
  | _, _ => false
  end.

(** The enums whose inverse is well defined: each value has at most one, and it is a
    value. *)
Definition enum_ok (e : Enum) : Prop :=
  let mapping := default [] (inverse_mapping e) in
  NoDup (value_keys e) ∧ NoDup (mapping.*1 ++ mapping.*2) ∧
  Forall (λ p, p.1 ∈ value_keys e ∧ p.2 ∈ value_keys e) mapping.

Definition desc_ok (ir : IrDesc) : Prop := ∀ n e, get_enum ir n = Some e → enum_name e = n ∧ enum_ok e.

Section semantics.
Context (ir : IrDesc) (inputs : list ChoiceInstance).

Definition inverse_value (i : nat) (v : Value) : Value :=
  match v, input_enum ir inputs i with
  | VEnum s, Some e => VEnum (enum_inverse e s)
  | _, _ => v
  end.

Definition input_value (w : World) (inverse : bool) (i : nat) : Value :=
  if inverse then inverse_value i (w_input w i) else w_input w i.

Definition cond_holds (w : World) (c : Condition) : bool :=
  match c with
  | CCode code negate => xorb negate (w_code w code)
  | CEnum input values negate inverse =>
    match input_value w inverse input with
    | VEnum s => xorb negate (bool_decide (s ∈ values))
    | VNum _ => false
    end
  | CBool b => b
  | CCmpCode lhs rhs op => op_holds op (w_input w lhs) (VNum (w_num w rhs))
  | CCmpInput lhs rhs op inverse => op_holds op (input_value w inverse lhs) (w_input w rhs)
  end.

Definition vs_allows (w : World) (s : ValueSet) (v : Value) : Prop :=
  match s with
  | VSEnum _ values ins =>
    ∃ x, v = VEnum x ∧
      (x ∈ values ∨ ∃ i negate inverse y, (i, negate, inverse) ∈ ins ∧
        input_value w inverse i = VEnum y ∧ (if negate : bool then x ≠ y else x = y))
  | VSInteger is_full cmp_inputs cmp_code _ =>
    ∃ n, v = VNum n ∧
      (is_full = true ∨
       (∃ op i, (op, i) ∈ cmp_inputs ∧ op_holds op v (w_input w i) = true) ∨
       (∃ op c, (op, c) ∈ cmp_code ∧ op_holds op v (VNum (w_num w c)) = true))
  end.

Definition triggers (w : World) (conds : list Condition) (sets : SetConstraints) : Prop :=
  Forall (λ x, w_set w x.1 x.2) sets ∧ Forall (λ c, cond_holds w c = true) conds.

Definition rule_allows (w : World) (r : Rule) (v : Value) : Prop :=
  triggers w (conditions r) (set_constraints r) → vs_allows w (alternatives r) v.

Fixpoint filter_allows (w : World) (f : SubFilter) (v : Value) : Prop :=
  match f with
  | Rules rules => Forall (λ r, rule_allows w r v) rules
  | Switch input cases =>
    (fix any cases :=
       match cases with
       | [] => False
       | (guard, f) :: cases =>
         vs_allows w guard (w_input w input) ∧ filter_allows w f v ∨ any cases
       end) cases
  end.

(** ** Well-typed filters and worlds *)

Definition cond_ok (c : Condition) : Prop :=
  match c with
  | CEnum input _ _ _ => is_Some (input_enum ir inputs input)
  | CCmpCode lhs _ _ => input_enum ir inputs lhs = None
  | CCmpInput lhs rhs op inverse =>
    input_enum ir inputs lhs = input_enum ir inputs rhs ∧
    (inverse = true → is_Some (input_enum ir inputs lhs)) ∧
    (is_Some (input_enum ir inputs lhs) → op = OpEq ∨ op = OpNeq)
  | CCode _ _ | CBool _ => True
  end.

Definition vs_ok (t : ValueType) (s : ValueSet) : Prop :=
  match t, s with
  | TyEnum name, VSEnum name' _ ins =>
    name' = name ∧ ∃ e, get_enum ir name = Some e ∧
      ∀ i negate inverse, (i, negate, inverse) ∈ ins → input_enum ir inputs i = Some e
  | (TyRange _ | TyNumericSet _), VSInteger _ cmp_inputs _ _ =>
    ∀ op i, (op, i) ∈ cmp_inputs → input_enum ir inputs i = None
  | _, _ => False
  end.

Definition rule_ok (t : ValueType) (r : Rule) : Prop :=
  Forall cond_ok (conditions r) ∧ vs_ok t (alternatives r).

Definition value_ok (t : ValueType) (v : Value) : Prop :=
  match t, v with
  | TyEnum name, VEnum s => ∃ e, get_enum ir name = Some e ∧ s ∈ value_keys e
  | (TyRange _ | TyNumericSet _), VNum _ => True
  | _, _ => False
  end.

(** Enum inputs take values of their enum. *)
Definition inputs_ok (w : World) : Prop :=
  ∀ i e, input_enum ir inputs i = Some e → ∃ s, w_input w i = VEnum s ∧ s ∈ value_keys e.

(** A partial assignment of enum inputs, and the worlds that agree with it. *)
Definition mapping_ok (m : gmap nat ValueSet) : Prop :=
  ∀ i s, m !! i = Some s → ∃ e x,
    input_enum ir inputs i = Some e ∧ get_enum ir (enum_name e) = Some e ∧ x ∈ value_keys e ∧
    s = VSEnum (enum_name e) {[x]} ∅.

Definition agrees (w : World) (m : gmap nat ValueSet) : Prop :=
  ∀ i n values ins, m !! i = Some (VSEnum n values ins) → ∀ x, x ∈ values → w_input w i = VEnum x.
End semantics.

(** * Theorems *)

(** ** Inverses *)

Lemma inverse_in_not mapping x :
  x ∉ mapping.*1 ++ mapping.*2 → inverse_in mapping x = x.
Proof.
  induction mapping as [|[l r] mapping IH]; [done|]. cbn. intros Hx.
  rewrite elem_of_cons, elem_of_app, elem_of_cons in Hx.
  rewrite !decide_False by (intros ->; tauto). apply IH. rewrite elem_of_app. tauto.
Qed.

Lemma inverse_in_involutive mapping x :
  NoDup (mapping.*1 ++ mapping.*2) → inverse_in mapping (inverse_in mapping x) = x.
Proof.
  induction mapping as [|[l r] mapping IH]; [done|]. cbn [fmap list_fmap fst snd].
  rewrite NoDup_app, NoDup_cons, NoDup_cons. intros ((Hl & H1) & Hd & Hr & H2). cbn [inverse_in].
  assert (NoDup (mapping.*1 ++ mapping.*2)) as Hn.
  { apply NoDup_app. split_and!; [done| |done]. intros y Hy Hy'. apply (Hd y); by right. }
  assert (l ≠ r) as Hlr by (intros ->; apply (Hd r); left).
  assert (l ∉ mapping.*1 ++ mapping.*2) as Hnl.
  { intros [?|?]%elem_of_app; [done|]. apply (Hd l); [left|by right]. }
  assert (r ∉ mapping.*1 ++ mapping.*2) as Hnr.
  { intros [?|?]%elem_of_app; [|done]. apply (Hd r); [by right|left]. }
  destruct (decide (l = x)) as [->|Hlx].
  { by rewrite (decide_False (P := x = r)), decide_True. }
  destruct (decide (r = x)) as [->|Hrx]; [by rewrite decide_True|].
  assert (∀ z, z ∉ mapping.*1 ++ mapping.*2 → z ≠ x → inverse_in mapping x ≠ z) as Hz.
  { intros z Hz Hzx E. apply Hzx. rewrite <-(IH Hn), E. symmetry. by apply inverse_in_not. }
  rewrite !decide_False by (intros E; symmetry in E; revert E; by apply Hz). by apply IH.
Qed.

Lemma inverse_in_mem (P : string → Prop) mapping x :
  Forall (λ p, P p.1 ∧ P p.2) mapping → P x → P (inverse_in mapping x).
Proof.
  induction 1 as [|[l r] mapping [Hl Hr] _ IH]; [done|]. cbn. intros Hx.
  repeat case_decide; auto.
Qed.

Section enum.
Context (e : Enum) (He : enum_ok e).

Lemma enum_inverse_involutive x : enum_inverse e (enum_inverse e x) = x.
Proof. apply inverse_in_involutive, He. Qed.

Lemma enum_inverse_key x : x ∈ value_keys e → enum_inverse e x ∈ value_keys e.
Proof. apply (inverse_in_mem (.∈ value_keys e)), He. Qed.

Lemma elem_of_inverse_map (X : gset string) x :
  x ∈ (set_map (enum_inverse e) X : gset string) ↔ enum_inverse e x ∈ X.
Proof.
  rewrite elem_of_map. split.
  - intros (y & -> & Hy). by rewrite enum_inverse_involutive.
  - intros Hx. exists (enum_inverse e x). by rewrite enum_inverse_involutive.
Qed.

(** [normalize_values] lists the values of the enum that a condition accepts. *)
Lemma elem_of_normalize_values values negate inverse x :
  x ∈ value_keys e →
  x ∈ normalize_values values negate inverse e ↔
  xorb negate (bool_decide ((if inverse then enum_inverse e x else x) ∈ values)) = true.
Proof.
  intros Hx. unfold normalize_values.
  assert (x ∈ (if inverse then set_map (enum_inverse e) values else values) ↔
    (if inverse then enum_inverse e x else x) ∈ values) as Hi.
  { destruct inverse; [apply elem_of_inverse_map|done]. }
  destruct negate; cbn [xorb].
  - rewrite elem_of_list_to_set, list_elem_of_filter, Hi. case_bool_decide; naive_solver.
  - by rewrite Hi; case_bool_decide.
Qed.
End enum.

(** ** Comparing single values *)

#[local] Arguments bool_decide : simpl never.

Lemma vs_is_singleton n x n' (N : gset string) :
  vs_is (VSEnum n {[x]} ∅) (VSEnum n' N ∅) = Some (if decide (x ∈ N) then TTrue else TFalse).
Proof.
  unfold vs_is. rewrite decide_True by done. f_equal. destruct (decide (x ∈ N)) as [Hx|Hx].
  - by rewrite decide_True by set_solver.
  - by rewrite decide_False, decide_True by set_solver.
Qed.

Lemma op_evaluate_singleton op n n' a b :
  ∃ t, op_evaluate op (VSEnum n {[a]} ∅) (VSEnum n' {[b]} ∅) = Some t ∧
    admits t (op_holds op (VEnum a) (VEnum b)).
Proof.
  destruct op; cbn [op_evaluate op_holds]; try (eexists; split; [done|exact I]);
    rewrite !vs_is_singleton; cbn [mbind option_bind]; (eexists; split; [done|]).
  - unfold is_constrained. rewrite decide_True, size_singleton by done.
    destruct (decide (a = b)) as [->|Hne].
    + rewrite !decide_True by set_solver. cbn. by rewrite bool_decide_eq_true_2.
    + rewrite !decide_False by set_solver. cbn. by rewrite bool_decide_eq_false_2.
  - destruct (decide (a = b)) as [->|Hne].
    + rewrite !decide_True by set_solver. cbn. by rewrite bool_decide_eq_true_2.
    + rewrite !decide_False by set_solver. cbn. by rewrite bool_decide_eq_false_2.
Qed.

(** Exchanging the operands of a comparison. *)
Lemma op_holds_inverse op a b : op_holds (op_inverse op) b a = op_holds op a b.
Proof.
  destruct a as [s|x], b as [t|y], op; cbn; try done.
  - apply bool_decide_ext. done.
  - f_equal. apply bool_decide_ext. done.
  - apply Z.eqb_sym.
  - f_equal. apply Z.eqb_sym.
Qed.

Section exact.
Context (ir : IrDesc) (inputs : list ChoiceInstance) (Hir : desc_ok ir).
Implicit Types (w : World) (m : gmap nat ValueSet).
#[local] Notation input_enum := (input_enum ir inputs).
#[local] Notation inputs_ok := (inputs_ok ir inputs).
#[local] Notation mapping_ok := (mapping_ok ir inputs).

Lemma input_enum_get i e : input_enum i = Some e → get_enum ir (enum_name e) = Some e ∧ enum_ok e.
Proof.
  unfold Filters.input_enum. destruct (inputs !! i) as [c|]; [|done]. cbn.
  destruct (get_choice ir (ci_choice c)) as [ch|]; [|done]. cbn.
  destruct (def_as_enum (choice_def ch)) as [n|]; [|done]. cbn. intros He.
  destruct (Hir n e He) as [-> ?]. done.
Qed.

Lemma inverse_value_enum i e s :
  input_enum i = Some e → inverse_value ir inputs i (VEnum s) = VEnum (enum_inverse e s).
Proof. intros He. unfold inverse_value. by rewrite He. Qed.

Lemma input_value_enum w inverse i e :
  inputs_ok w → input_enum i = Some e →
  ∃ x, w_input w i = VEnum x ∧ x ∈ value_keys e ∧
    input_value ir inputs w inverse i = VEnum (if inverse then enum_inverse e x else x).
Proof.
  intros Hw He. destruct (Hw i e He) as (x & Hx & Hk). exists x. split_and!; [done|done|].
  unfold input_value. rewrite Hx. destruct inverse; [|done]. by apply inverse_value_enum.
Qed.

Lemma inverse_if_singleton inverse e x :
  get_enum ir (enum_name e) = Some e →
  inverse_if ir inverse (VSEnum (enum_name e) {[x]} ∅)
  = Some (VSEnum (enum_name e) {[if inverse then enum_inverse e x else x]} ∅).
Proof.
  intros He. destruct inverse; [|done]. cbn. rewrite He. cbn.
  by rewrite set_map_singleton_L, set_map_empty.
Qed.

(** Evaluating a condition never panics, and is right in every world that agrees. *)
Lemma cond_evaluate_exact m c :
  cond_ok ir inputs c → mapping_ok m →
  ∃ t, cond_evaluate ir inputs m c = Some t ∧
    ∀ w, inputs_ok w → agrees w m → admits t (cond_holds ir inputs w c).
Proof.
  intros Hc Hm. destruct c as [code neg|i values neg inv|b|lhs rhs op|lhs rhs op inv];
    cbn [cond_evaluate cond_holds].
  - by exists TMaybe.
  - destruct Hc as [e He]. rewrite He. cbn [mbind option_bind].
    destruct (m !! i) as [s|] eqn:Em; [|by exists TMaybe].
    destruct (Hm i s Em) as (e' & x & He' & Hg & Hx & ->). rewrite He in He'. injection He' as <-.
    unfold normalized_enum_set, vs_enum_values. rewrite vs_is_singleton.
    eexists. split; [done|]. intros w Hw Ha.
    destruct (input_enum_get _ _ He) as [_ Hok].
    assert (w_input w i = VEnum x) as Hwi by (eapply Ha; [done|set_solver]).
    destruct (input_value_enum w inv i e Hw He) as (y & Hy & _ & ->).
    rewrite Hwi in Hy. injection Hy as <-.
    pose proof (elem_of_normalize_values e Hok values neg inv x Hx) as Hn.
    destruct (decide _) as [Hd|Hd]; cbn [admits].
    + by apply Hn.
    + apply not_true_iff_false. by rewrite <-Hn.
  - eexists. split; [done|]. intros. by destruct b.
  - by exists TMaybe.
  - destruct (m !! lhs) as [sl|] eqn:El; [|by exists TMaybe].
    destruct (m !! rhs) as [sr|] eqn:Er; [|by exists TMaybe].
    destruct (Hm lhs sl El) as (el & x & Hel & Hgl & Hx & ->).
    destruct (Hm rhs sr Er) as (er & y & Her & Hgr & Hy & ->).
    rewrite inverse_if_singleton by done. cbn [mbind option_bind].
    destruct (op_evaluate_singleton op (enum_name el) (enum_name er)
      (if inv then enum_inverse el x else x) y) as (t & Ht & Hadm).
    exists t. split; [done|]. intros w Hw Ha.
    assert (w_input w lhs = VEnum x) as Hwl by (eapply Ha; [exact El|set_solver]).
    assert (w_input w rhs = VEnum y) as Hwr by (eapply Ha; [exact Er|set_solver]).
    destruct (input_value_enum w inv lhs el Hw Hel) as (x' & Hx' & _ & ->).
    rewrite Hwl in Hx'. injection Hx' as <-. by rewrite Hwr.
Qed.

Lemma cond_instantiate_exact m c :
  cond_ok ir inputs c → mapping_ok m →
  ∃ c', cond_instantiate ir inputs m c = Some c' ∧ cond_ok ir inputs c' ∧
    ∀ w, inputs_ok w → agrees w m → cond_holds ir inputs w c' = cond_holds ir inputs w c.
Proof.
  intros Hc Hm. destruct (cond_evaluate_exact m c Hc Hm) as (t & Ht & Ha).
  unfold cond_instantiate. rewrite Ht. cbn [mbind option_bind]. eexists. split; [done|].
  destruct t; (split; [done|]); intros w Hw Hag; specialize (Ha w Hw Hag); done.
Qed.

Lemma instantiate_conditions_exact m conds :
  Forall (cond_ok ir inputs) conds → mapping_ok m →
  ∃ o, instantiate_conditions ir inputs m conds = Some o ∧
    from_option (Forall (cond_ok ir inputs)) True o ∧
    ∀ w, inputs_ok w → agrees w m →
      (Forall (λ c, cond_holds ir inputs w c = true) conds ↔
       from_option (Forall (λ c, cond_holds ir inputs w c = true)) False o).
Proof.
  intros Hc Hm. induction Hc as [|c conds Hc _ IH].
  { exists (Some []). split_and!; [done|by constructor|done]. }
  destruct (cond_instantiate_exact m c Hc Hm) as (c' & Hi & Hok & Hh).
  destruct IH as (o & Ho & Hoks & Hhs). cbn [instantiate_conditions]. rewrite Hi.
  cbn [mbind option_bind].
  assert (∃ o', (let! rest := instantiate_conditions ir inputs m conds in
      Some (from_option (λ rest, Some (c' :: rest)) None rest)) = Some o' ∧
    from_option (Forall (cond_ok ir inputs)) True o' ∧
    ∀ w, inputs_ok w → agrees w m → (Forall (λ c, cond_holds ir inputs w c = true) (c :: conds) ↔
       from_option (Forall (λ c, cond_holds ir inputs w c = true)) False o')) as Hgen.
  { rewrite Ho. cbn [mbind option_bind]. eexists. split; [done|]. destruct o as [rest|]; cbn in *.
    - split; [by constructor|]. intros w Hw Ha.
      rewrite !Forall_cons, <-(Hhs w Hw Ha), (Hh w Hw Ha). done.
    - split; [done|]. intros w Hw Ha. rewrite Forall_cons, (Hhs w Hw Ha). tauto. }
  destruct c' as [| |[]| |]; try exact Hgen.
  - exists o. split_and!; [done|done|]. intros w Hw Ha.
    rewrite Forall_cons, <-(Hhs w Hw Ha), <-(Hh w Hw Ha). cbn. tauto.
  - exists None. split_and!; [done|done|]. intros w Hw Ha. cbn.
    rewrite Forall_cons, <-(Hh w Hw Ha). cbn. intuition done.
Qed.

(** What one input of a value set allows. *)
Definition input_allows (w : World) (j : nat * bool * bool) (x : string) : Prop :=
  ∃ y, input_value ir inputs w j.2 j.1.1 = VEnum y ∧ (if j.1.2 : bool then x ≠ y else x = y).

Definition enum_allows (w : World) (values : gset string) (ins : gset (nat * bool * bool))
    (x : string) : Prop :=
  x ∈ values ∨ ∃ j, j ∈ ins ∧ input_allows w j x.

Lemma vs_allows_enum w n values ins v :
  vs_allows ir inputs w (VSEnum n values ins) v ↔ ∃ x, v = VEnum x ∧ enum_allows w values ins x.
Proof.
  cbn. unfold enum_allows, input_allows. split.
  - intros (x & -> & [Hx|(i & neg & inv & y & Hj & Hy & Hx)]); exists x; (split; [done|]); [by left|].
    right. exists (i, neg, inv). cbn. eauto.
  - intros (x & -> & [Hx|([[i neg] inv] & Hj & y & Hy & Hx)]); exists x; (split; [done|]); [by left|].
    right. exists i, neg, inv, y. done.
Qed.

Lemma instantiate_input_exact e m nv ni i neg inv :
  enum_ok e → mapping_ok m → input_enum i = Some e →
  ∃ nv' ni', instantiate_input e ir m (nv, ni) (i, neg, inv) = Some (nv', ni') ∧
    ni' ⊆ {[(i, neg, inv)]} ∪ ni ∧
    ∀ w x, inputs_ok w → agrees w m → x ∈ value_keys e →
      (enum_allows w nv' ni' x ↔ enum_allows w nv ni x ∨ input_allows w (i, neg, inv) x).
Proof.
  intros Hok Hm He. unfold instantiate_input. destruct (m !! i) as [s|] eqn:Em; cycle 1.
  { eexists _, _. split; [done|]. split; [done|]. intros w x _ _ _.
    unfold enum_allows. set_solver. }
  destruct (Hm i s Em) as (e' & y & He' & Hg & Hy & ->). rewrite He in He'. injection He' as <-.
  rewrite inverse_if_singleton by done. cbn [mbind option_bind].
  eexists _, _. split; [done|]. rewrite set_map_empty, (right_id_L ∅ (∪)). split; [set_solver|].
  intros w x Hw Ha Hx. unfold enum_allows, input_allows. cbn [fst snd].
  assert (w_input w i = VEnum y) as Hwi by (eapply Ha; [exact Em|set_solver]).
  destruct (input_value_enum w inv i e Hw He) as (y' & Hy' & _ & ->).
  rewrite Hwi in Hy'. injection Hy' as <-. set (z := if inv then _ else _).
  rewrite elem_of_union.
  assert (x ∈ (if neg then list_to_set (filter (λ v, v ∉ ({[z]} : gset string)) (value_keys e))
      else {[z]} : gset string) ↔ ∃ y0, VEnum z = VEnum y0 ∧ (if neg then x ≠ y0 else x = y0)) as ->.
  { destruct neg.
    - rewrite elem_of_list_to_set, list_elem_of_filter, elem_of_singleton. naive_solver.
    - rewrite elem_of_singleton. naive_solver. }
  tauto.
Qed.

Lemma instantiate_inputs_exact e m l nv ni :
  enum_ok e → mapping_ok m → (∀ i neg inv, (i, neg, inv) ∈ l → input_enum i = Some e) →
  ∃ nv' ni', foldM (instantiate_input e ir m) l (nv, ni) = Some (nv', ni') ∧
    (∀ j, j ∈ ni' → j ∈ l ∨ j ∈ ni) ∧
    ∀ w x, inputs_ok w → agrees w m → x ∈ value_keys e →
      (enum_allows w nv' ni' x ↔ enum_allows w nv ni x ∨ ∃ j, j ∈ l ∧ input_allows w j x).
Proof.
  intros Hok Hm. revert nv ni. induction l as [|[[i neg] inv] l IH]; intros nv ni Hl.
  { exists nv, ni. split; [done|]. split; [by right|]. intros w x _ _ _. set_solver. }
  destruct (instantiate_input_exact e m nv ni i neg inv Hok Hm) as (nv1 & ni1 & H1 & Hs1 & Hx1);
    [apply (Hl i neg inv); left|].
  destruct (IH nv1 ni1) as (nv2 & ni2 & H2 & Hs2 & Hx2).
  { intros i' neg' inv' Hj. apply (Hl i' neg' inv'). by right. }
  exists nv2, ni2. cbn [foldM]. rewrite H1. cbn [mbind option_bind]. split; [done|]. split.
  - intros j [Hj|Hj]%Hs2; [left; by right|]. apply Hs1 in Hj. set_solver.
  - intros w x Hw Ha Hx. rewrite (Hx2 w x Hw Ha Hx), (Hx1 w x Hw Ha Hx).
    setoid_rewrite elem_of_cons. naive_solver.
Qed.

Lemma vs_instantiate_exact t m s :
  vs_ok ir inputs t s → mapping_ok m →
  ∃ s', vs_instantiate ir m s = Some s' ∧ vs_ok ir inputs t s' ∧
    ∀ w v, inputs_ok w → agrees w m → value_ok ir t v →
      (vs_allows ir inputs w s' v ↔ vs_allows ir inputs w s v).
Proof.
  intros Hs Hm. destruct s as [n values ins|f ci cc u]; [|by exists (VSInteger f ci cc u)].
  destruct t as [name| | |]; try done. destruct Hs as (-> & e & He & Hins).
  destruct (Hir name e He) as [_ Hok]. cbn [vs_instantiate]. rewrite He. cbn [mbind option_bind].
  destruct (instantiate_inputs_exact e m (elements ins) values ∅ Hok Hm) as (nv & ni & -> & Hsub & Hx).
  { intros i neg inv Hj. apply (Hins i neg inv). set_solver. }
  cbn [mbind option_bind]. eexists. split; [done|]. split.
  - split; [done|]. exists e. split; [done|]. intros i neg inv [Hj|Hj]%Hsub; [|set_solver].
    apply (Hins i neg inv). set_solver.
  - intros w v Hw Ha Hv. destruct v as [x|]; [|done]. destruct Hv as (e' & He' & Hk).
    rewrite He in He'. injection He' as <-. rewrite !vs_allows_enum.
    assert (enum_allows w nv ni x ↔ enum_allows w values ins x) as Hiff.
    { rewrite (Hx w x Hw Ha Hk). unfold enum_allows. setoid_rewrite elem_of_elements. set_solver. }
    split; intros (y & [= <-] & H); exists x; (split; [done|]); by apply Hiff.
Qed.

(** ** Rules *)

(** Instantiating a rule: it disappears only when it cannot trigger. *)
Lemma rule_instantiate_exact t m r :
  rule_ok ir inputs t r → mapping_ok m →
  ∃ o, rule_instantiate ir inputs m r = Some o ∧ from_option (rule_ok ir inputs t) True o ∧
    ∀ w v, inputs_ok w → agrees w m → value_ok ir t v →
      (rule_allows ir inputs w r v ↔ from_option (λ r, rule_allows ir inputs w r v) True o).
Proof.
  intros [Hc Hs] Hm. destruct (instantiate_conditions_exact m _ Hc Hm) as (o & Ho & Hok & Hh).
  destruct (vs_instantiate_exact t m _ Hs Hm) as (s & Hs' & Hsok & Hsx).
  unfold rule_instantiate. rewrite Ho. cbn [mbind option_bind]. destruct o as [conds|].
  - rewrite Hs'. cbn [mbind option_bind]. eexists. split; [done|]. split; [done|].
    intros w v Hw Ha Hv. cbn. unfold rule_allows, triggers. cbn [conditions alternatives set_constraints].
    rewrite (Hh w Hw Ha), (Hsx w v Hw Ha Hv). done.
  - exists None. split; [done|]. split; [done|]. intros w v Hw Ha Hv. cbn.
    split; [done|]. intros _ [_ H]. by apply (Hh w Hw Ha) in H.
Qed.

Lemma cond_normalize_exact c :
  cond_ok ir inputs c →
  ∃ c', cond_normalize ir inputs c = Some c' ∧ cond_ok ir inputs c' ∧
    ∀ w, world_ok w → inputs_ok w → cond_holds ir inputs w c' = cond_holds ir inputs w c.
Proof.
  intros Hc. destruct c as [code neg|i values neg inv|b|lhs rhs op|lhs rhs op inv];
    cbn [cond_normalize].
  - eexists. split; [done|]. split; [done|]. intros w Hok _. cbn. by rewrite (code_normalized _ Hok).
  - destruct Hc as [e He]. rewrite He. cbn [mbind option_bind]. eexists. split; [done|].
    split; [by exists e|]. intros w _ Hw. cbn [cond_holds].
    destruct (input_value_enum w inv i e Hw He) as (x & Hx & Hk & ->).
    destruct (input_value_enum w false i e Hw He) as (y & Hy & _ & ->).
    rewrite Hx in Hy. injection Hy as <-.
    apply eq_iff_eq_true. destruct (input_enum_get _ _ He) as [_ Hok].
    rewrite <-(elem_of_normalize_values e Hok values neg inv x Hk). cbn. by case_bool_decide.
  - eexists. split; [done|]. split; [done|]. done.
  - eexists. split; [done|]. split; [done|]. intros w Hok _. cbn. by rewrite (num_normalized _ Hok).
  - destruct (Nat.ltb_spec rhs lhs) as [Hlt|Hge]; [|eexists; split_and!; done].
    eexists. split; [done|]. split.
    { destruct Hc as (He & Hinv & Hop). cbn. rewrite <-He. split_and!; [done|done|].
      intros Hs. destruct (Hop Hs) as [->| ->]; tauto. }
    intros w _ Hw. cbn [cond_holds]. destruct inv.
    + destruct Hc as (He & Hinv & _). destruct (Hinv eq_refl) as [e Hl]. rewrite Hl in He.
      symmetry in He. rename He into Hr. destruct (input_enum_get _ _ Hl) as [_ Hok].
      destruct (input_value_enum w true lhs e Hw Hl) as (x & Hx & _ & ->).
      destruct (input_value_enum w true rhs e Hw Hr) as (y & Hy & _ & ->). rewrite Hx, Hy.
      rewrite op_holds_inverse. pose proof (enum_inverse_involutive e Hok) as Hii.
      assert (enum_inverse e x = y ↔ x = enum_inverse e y) as Heq.
      { split; intros E; [by rewrite <-E, Hii|by rewrite E, Hii]. }
      destruct op; cbn; try done; [|f_equal]; apply bool_decide_ext; by rewrite Heq.
    + apply op_holds_inverse.
Qed.

Lemma rule_normalize_exact t r :
  rule_ok ir inputs t r →
  ∃ r', rule_normalize ir inputs r = Some r' ∧ rule_ok ir inputs t r' ∧
    alternatives r' = alternatives r ∧ set_constraints r' = set_constraints r ∧
    ∀ w, world_ok w → inputs_ok w →
      (triggers ir inputs w (conditions r') (set_constraints r') ↔
       triggers ir inputs w (conditions r) (set_constraints r)).
Proof.
  intros [Hc Hs]. unfold rule_normalize.
  assert (∃ l, mapM (cond_normalize ir inputs) (conditions r) = Some l ∧ Forall (cond_ok ir inputs) l ∧
    ∀ w, world_ok w → inputs_ok w → (Forall (λ c, cond_holds ir inputs w c = true) l ↔
      Forall (λ c, cond_holds ir inputs w c = true) (conditions r))) as (l & -> & Hl & Hh).
  { clear Hs. induction Hc as [|c conds Hc _ IH].
    { exists []. split_and!; [done|by constructor|done]. }
    destruct (cond_normalize_exact c Hc) as (c' & Hn & Hok & Hh), IH as (l & Hl & Hlok & Hlh).
    exists (c' :: l). cbn [mapM]. rewrite Hn, Hl. split; [done|]. split; [by constructor|].
    intros w Hw Hi. by rewrite !Forall_cons, (Hh w Hw Hi), (Hlh w Hw Hi). }
  cbn [mbind option_bind]. eexists. split; [done|]. unfold rule_ok, triggers.
  cbn [conditions alternatives set_constraints]. split_and!; try done.
  - by rewrite rsort_perm.
  - intros w Hw Hi. by rewrite rsort_perm, (Hh w Hw Hi).
Qed.

(** ** Intersections and unions of value sets *)

Lemma vs_allows_integer w f ci cc u n :
  vs_allows ir inputs w (VSInteger f ci cc u) (VNum n) ↔
  f = true ∨ (∃ op i, (op, i) ∈ ci ∧ op_holds op (VNum n) (w_input w i) = true) ∨
  (∃ op c, (op, c) ∈ cc ∧ op_holds op (VNum n) (VNum (w_num w c)) = true).
Proof.
  cbn. split; [|by exists n]. by intros (m & [= <-] & H).
Qed.

Lemma vs_allows_full w ci cc u s v :
  vs_allows ir inputs w s v → (∃ f ci cc u, s = VSInteger f ci cc u) →
  vs_allows ir inputs w (VSInteger true ci cc u) v.
Proof.
  intros H (? & ? & ? & ? & ->). cbn in *. destruct H as (n & -> & _). exists n. by split; [|left].
Qed.

Lemma vs_allows_integer_mono w f ci cc u ci' cc' u' v :
  ci ⊆ ci' → cc ⊆ cc' → vs_allows ir inputs w (VSInteger f ci cc u) v →
  vs_allows ir inputs w (VSInteger f ci' cc' u') v.
Proof.
  intros H1 H2 (n & -> & H). exists n. split; [done|].
  destruct H as [?|[(op & i & ? & ?)|(op & c & ? & ?)]]; [by left|right; left|right; right]; eauto.
Qed.

Lemma vs_intersect_integer f ci cc u f' ci' cc' u' :
  ∃ b f'' ci'' cc'' u'', vs_intersect (VSInteger f ci cc u) (VSInteger f' ci' cc' u')
    = Some (b, VSInteger f'' ci'' cc'' u'') ∧
    (ci'' ⊆ ci ∨ ci'' ⊆ ci') ∧
    (b = false → VSInteger f'' ci'' cc'' u'' = VSInteger f ci cc u) ∧
    (b = true → ∀ w v, vs_allows ir inputs w (VSInteger f'' ci'' cc'' u'') v ↔
       vs_allows ir inputs w (VSInteger f ci cc u) v ∧
       vs_allows ir inputs w (VSInteger f' ci' cc' u') v).
Proof.
  destruct f; [|destruct f']; cbn [vs_intersect].
  - do 5 eexists. split; [done|]. split; [by auto|]. split; [done|]. intros _ w v. split; [|tauto]. intros H.
    split; [|done]. eapply vs_allows_full; [done|]. eauto.
  - do 5 eexists. split; [done|]. split; [by auto|]. split; [done|]. intros _ w v. split; [|tauto]. intros H.
    split; [done|]. eapply vs_allows_full; [done|]. eauto.
  - case_decide as E; (do 5 eexists; split; [done|]; split; [by auto|]; split; [done|]).
    + destruct E as [E1 E2]. intros _ w v. split; [|tauto]. intros H. split; [|done].
      by eapply vs_allows_integer_mono.
    + intros [E1 E2]%bool_decide_eq_true w v. split; [|tauto]. intros H. split; [done|].
      by eapply vs_allows_integer_mono.
Qed.

Lemma vs_intersect_exact t s s' :
  vs_ok ir inputs t s → vs_ok ir inputs t s' →
  ∃ b u, vs_intersect s s' = Some (b, u) ∧ vs_ok ir inputs t u ∧
    (b = false → u = s) ∧
    (b = true → ∀ w v, vs_allows ir inputs w u v ↔
       vs_allows ir inputs w s v ∧ vs_allows ir inputs w s' v).
Proof.
  intros Hs Hs'. destruct s as [n values ins|f ci cc u], s' as [n' values' ins'|f' ci' cc' u'];
    [|by destruct t|by destruct t|].
  - destruct t as [name| | |]; try done.
    cbn [vs_intersect]. case_decide as E; (eexists _, _; split; [done|]; split; [done|]); [|done].
    destruct E as [-> ->]. split; [done|]. intros _ w v. rewrite !vs_allows_enum.
    unfold enum_allows. setoid_rewrite elem_of_empty. setoid_rewrite elem_of_filter.
    naive_solver.
  - destruct (vs_intersect_integer f ci cc u f' ci' cc' u') as (b & f'' & ci'' & cc'' & u'' & H1 & Hci & H2).
    eexists _, _. split; [exact H1|]. split; [|exact H2].
    destruct t; try done; cbn in *; intros op i Hi;
      (destruct Hci as [Hci|Hci]; [by apply (Hs op), Hci|by apply (Hs' op), Hci]).
Qed.
End exact.
