(* ===== verification/TruthTable.v ===== *)
(** * Truth tables (telamon-gen/src/truth_table.rs)

    The rules on a choice are instantiated for every combination of values of the enum
    inputs; the table is then turned into a tree of switches that merges equal branches
    and skips the inputs that do not matter.  The cells are drained through the views of
    the shared table, so the table is threaded through the construction. *)
From S2P Require Import Prelude Utils Orders NDArray GenSets Filters FilterSemantics.

(** The condition and set constraints of a rule. *)
Definition RuleConds : Type := list Condition * SetConstraints.

Definition rule_conds_eqb (a b : RuleConds) : bool :=
  bool_decide (a.1 = b.1) && set_constraints_eqb a.2 b.2.

(** The map of a cell, listed; its keys are pairwise different. *)
Definition Cell : Type := list (RuleConds * list ValueSet).

Fixpoint cell_get (k : RuleConds) (c : Cell) : option (list ValueSet) :=
  match c with
  | [] => None
  | (k', sets) :: c => if rule_conds_eqb k' k then Some sets else cell_get k c
  end.

Fixpoint cell_set (k : RuleConds) (sets : list ValueSet) (c : Cell) : Cell :=
  match c with
  | [] => []
  | (k', sets') :: c =>
    if rule_conds_eqb k' k then (k', sets) :: c else (k', sets') :: cell_set k sets c
  end.

(** The first set that can be intersected is; otherwise the alternatives are added. *)
Fixpoint intersect_first (sets : list ValueSet) (alts : ValueSet) : option (list ValueSet) :=
  match sets with
  | [] => Some [alts]
  | set :: sets =>
    '(success, set) ← vs_intersect set alts;
    if (success : bool) then Some (set :: sets)
    else rest ← intersect_first sets alts; Some (set :: rest)
  end.

(** One turn of [Cell::build]. *)
Definition cell_add (ir : IrDesc) (inputs : list ChoiceInstance) (rule_map : Cell) (rule : Rule)
  : option Cell :=
  rule ← rule_normalize ir inputs rule;
  let key := (conditions rule, set_constraints rule) in
  match cell_get key rule_map with
  | Some sets =>
    sets ← intersect_first sets (alternatives rule);
    Some (cell_set key sets rule_map)
  | None => Some (rule_map ++ [(key, [alternatives rule])])
  end.

Definition cell_build (ir : IrDesc) (inputs : list ChoiceInstance) (rules : list Rule)
  : option Cell := foldM (cell_add ir inputs) rules [].

(** The rules of a cell, which is left empty. *)
Definition extract_rules (c : Cell) : list Rule * Cell :=
  (c ≫= λ '((conds, set_conds), alternatives),
     (λ alts, mkRule conds alts set_conds) <$> alternatives, []).

Definition cell_is_empty (c : Cell) : bool :=
  from_option (existsb vs_is_empty) false (cell_get ([], []) c).

(** The equality of maps. *)
Definition cell_eqb (c c' : Cell) : bool :=
  (length c =? length c') &&
  forallb (λ x, bool_decide (cell_get x.1 c' = Some x.2)) c.

(** ** The table *)
Record TruthTable := mkTruthTable {
  tt_values : list (nat * list ValueSet);
  tt_rules : NDArray Cell
}.

(** The values to enumerate for an input, unless it is not an enum or is fragile. *)
Definition table_input (ir : IrDesc) (x : nat * ChoiceInstance)
  : option (option (nat * list ValueSet)) :=
  let '(id, input) := x in
  choice ← get_choice ir (ci_choice input);
  if negb (vs_is_empty (fragile_values choice)) then Some None
  else
    match choice_def choice with
    | DefEnum name =>
      e ← get_enum ir name;
      Some (Some (id, (λ v, vs_enum_values name {[v]}) <$> value_keys e))
    | DefCounter _ _ _ _ _ _ _ | DefNumber _ => Some None
    end.

Definition table_mapping (values : list (nat * list ValueSet)) (index : list nat)
  : option (gmap nat ValueSet) :=
  pairs ← zip_eq index values;
  entries ← mapM (λ '(idx, (input, sets)), s ← sets !! idx; Some (input, s)) pairs;
  Some (list_to_map (reverse entries)).

Definition table_cell (ir : IrDesc) (inputs : list ChoiceInstance) (rules : list Rule)
    (values : list (nat * list ValueSet)) (index : list nat) : option Cell :=
  input_mapping ← table_mapping values index;
  instantiated ← mapM (rule_instantiate ir inputs input_mapping) rules;
  cell_build ir inputs (omap id instantiated).

Definition table_build (ir : IrDesc) (inputs : list ChoiceInstance) (rules : list Rule)
  : option TruthTable :=
  values ← mapM (table_input ir) (enumerate inputs);
  let values := omap id values in
  let sizes := (λ x, length x.2) <$> values in
  indexes ← ndrange_collect (S (product sizes)) (ndrange_new sizes);
  data ← mapM (table_cell ir inputs rules values) indexes;
  rules ← nd_new sizes data;
  Some (mkTruthTable values rules).

(** ** Views of the table

    A table with some inputs fixed.  [dim_map] maps its dimensions to those of the whole
    table.  The cells are in the table [a]. *)
Record TableView := mkTableView {
  tv_values : list (nat * list ValueSet);
  dim_map : list nat;
  tv_view : ViewMut
}.

(** [TruthTable::view]. *)
Definition table_view (t : TruthTable) : TableView :=
  mkTableView (tt_values t) (seq 0 (length (tt_values t))) (view_mut (tt_rules t)).

Definition num_inputs (t : TableView) : nat := length (dim_map t).

Definition input_from_pos (t : TableView) (pos : nat) : option nat :=
  d ← dim_map t !! pos; x ← tv_values t !! d; Some x.1.

(** The views of a split with their values, on the remaining dimensions. *)
Definition sub_views (t : TableView) (dims : list nat) (pairs : list (ValueSet * ViewMut))
  : list (ValueSet * TableView) :=
  (λ '(value, view), (value, mkTableView (tv_values t) dims view)) <$> pairs.

(** [TableView::instantiate]. *)
Definition table_instantiate (t : TableView) (pos : nat) : option (list (ValueSet * TableView)) :=
  d ← dim_map t !! pos;
  x ← tv_values t !! d;
  views ← view_split (tv_view t) pos;
  pairs ← zip_eq x.2 views;
  '(_, dims) ← vec_remove pos (dim_map t);
  Some (sub_views t dims pairs).

(** [into_iter]. *)
Definition table_cells (a : NDArray Cell) (t : TableView) : option (list Cell) :=
  items ← view_enumerate a (tv_view t); Some (items.*2).

Fixpoint list_eqb {A : Type} (eqb : A → A → bool) (l k : list A) : bool :=
  match l, k with
  | [], [] => true
  | x :: l, y :: k => eqb x y && list_eqb eqb l k
  | _, _ => false
  end.

Definition equal_content (a : NDArray Cell) (t t' : TableView) : option bool :=
  cells ← table_cells a t; cells' ← table_cells a t'; Some (list_eqb cell_eqb cells cells').

Definition table_is_empty (a : NDArray Cell) (t : TableView) : option bool :=
  cells ← table_cells a t; Some (forallb cell_is_empty cells).

(** ** Splitting *)
Inductive TableSplit :=
| SplitSwitch (input : nat) (cases : list (ValueSet * TableView))
| SplitForward (sub_view : TableView).

(** The branches to keep: their values, the position of the first one and its table. *)
Definition Instances : Type := list (ValueSet * nat * TableView).

(** Looks for a branch with the same content, whose values are extended. *)
Fixpoint merge_branch (a : NDArray Cell) (value : ValueSet) (sub_table : TableView)
    (instances : Instances) : option (option Instances) :=
  match instances with
  | [] => Some None
  | (other_values, vpos, other_table) :: instances =>
    eq ← equal_content a sub_table other_table;
    if (eq : bool) then
      other_values ← vs_extend other_values value;
      Some (Some ((other_values, vpos, other_table) :: instances))
    else
      let! rest := merge_branch a value sub_table instances in
      Some (from_option (λ rest, Some ((other_values, vpos, other_table) :: rest)) None rest)
  end.

(** The loop labelled ['instances]; the boolean is [forward]. *)
Definition merge_step (a : NDArray Cell) (st : bool * Instances)
    (x : nat * (ValueSet * TableView)) : option (bool * Instances) :=
  let '(forward, instances) := st in
  let '(pos, (value, sub_table)) := x in
  empty ← table_is_empty a sub_table;
  if (empty : bool) then Some (false, instances)
  else
    let! merged := merge_branch a value sub_table instances in
    match merged with
    | Some instances => Some (forward, instances)
    | None => Some (forward, instances ++ [(value, pos, sub_table)])
    end.

Definition merge_branches (a : NDArray Cell) (split : list (ValueSet * TableView))
  : option (bool * Instances) := foldM (merge_step a) (enumerate split) (true, []).

(** The best configuration found: a position, with the values and the first branch of
    each case. *)
Definition MinSplit : Type := nat * list (ValueSet * nat).

Fixpoint find_split (a : NDArray Cell) (t : TableView) (positions : list nat)
    (min_split : option MinSplit) : option (TableView + option MinSplit) :=
  match positions with
  | [] => Some (inr min_split)
  | pos :: positions =>
    split ← table_instantiate t pos;
    '(forward, instances) ← merge_branches a split;
    let forward := (forward : bool) && (length (instances : Instances) =? 1) in
    let min_split :=
      if from_option (λ x : MinSplit, length instances <? length x.2) true min_split
      then Some (pos, instances.*1) else min_split in
    if forward then
      split ← table_instantiate t pos;
      sub ← last split;
      Some (inl sub.2)
    else find_split a t positions min_split
  end.

(** [views.find(..)] on an iterator: the elements before the one found are dropped. *)
Fixpoint iter_find {A : Type} (pos : nat) (it : list (nat * A)) : option (A * list (nat * A)) :=
  match it with
  | [] => None
  | (pos', x) :: it => if pos =? pos' then Some (x, it) else iter_find pos it
  end.

Fixpoint find_views (a : NDArray Cell) (config : list (ValueSet * nat))
    (views : list (nat * (ValueSet * TableView))) : option (list (ValueSet * TableView)) :=
  match config with
  | [] => Some []
  | (values, pos) :: config =>
    '(view, views) ← iter_find pos views;
    empty ← table_is_empty a view.2;
    if (empty : bool) then panic
    else rest ← find_views a config views; Some ((values, view.2) :: rest)
  end.

Definition table_min_split (a : NDArray Cell) (t : TableView) : option (option TableSplit) :=
  found ← find_split a t (seq 0 (num_inputs t)) None;
  match found with
  | inl sub_view => Some (Some (SplitForward sub_view))
  | inr None => Some None
  | inr (Some (pos, config)) =>
    input ← input_from_pos t pos;
    views ← table_instantiate t pos;
    cases ← find_views a config (enumerate views);
    Some (Some (SplitSwitch input cases))
  end.

(** ** The filter *)

(** The rules of the first cell of a view, which is drained. *)
Definition drain_first (a : NDArray Cell) (t : TableView) : option (list Rule * NDArray Cell) :=
  cells ← view_enumerate_mut a (tv_view t);
  '(_, i) ← head cells;
  cell ← nd_data a !! i;
  let '(rules, cell) := extract_rules cell in
  Some (rules, mkNDArray (nd_dims a) (<[i := cell]> (nd_data a))).

Fixpoint truth_table_to_filter (fuel : nat) (a : NDArray Cell) (t : TableView)
  : option (SubFilter * NDArray Cell) :=
  match fuel with
  | 0 => None
  | S fuel =>
    if num_inputs t =? 0 then
      '(rules, a) ← drain_first a t; Some (Rules rules, a)
    else
      let! split := table_min_split a t in
      match split with
      | None => panic
      | Some (SplitForward sub_view) => truth_table_to_filter fuel a sub_view
      | Some (SplitSwitch input cases) =>
        '(sub_filters, a) ← foldM (λ '(sub_filters, a) '(values, view),
          '(f, a) ← truth_table_to_filter fuel a view;
          Some (sub_filters ++ [(values, f)], a)) cases ([], a);
        Some (Switch input sub_filters, a)
      end
  end.

Definition opt_rules (ir : IrDesc) (inputs : list ChoiceInstance) (rules : list Rule)
  : option SubFilter :=
  if length rules =? 1 then Some (Rules rules)
  else
    table ← table_build ir inputs rules;
    '(f, _) ← truth_table_to_filter (S (length (tt_values table))) (tt_rules table)
                (table_view table);
    Some f.

(** * Theorems *)

(** ** Cells *)

(** What the equality of two keys looks at. *)
Definition conds_key (k : RuleConds) : list Condition * list (Var * SetKey) :=
  (k.1, (λ x, (x.1, set_key x.2)) <$> k.2).

Lemma set_constraints_eqb_spec l k :
  set_constraints_eqb l k = true ↔
  (λ x, (x.1, set_key x.2)) <$> l = (λ x, (x.1, set_key x.2)) <$> k.
Proof.
  revert k. induction l as [|[v s] l IH]; intros [|[u t] k]; cbn; [done|done|done|].
  rewrite !andb_true_iff, bool_decide_eq_true, set_eqb_spec, IH. unfold equiv, gset_equiv.
  split; [by intros [[-> ->] ->]|by intros [= -> -> ->]].
Qed.

Lemma rule_conds_eqb_spec a b : rule_conds_eqb a b = true ↔ conds_key a = conds_key b.
Proof.
  unfold rule_conds_eqb, conds_key. rewrite andb_true_iff, bool_decide_eq_true,
    set_constraints_eqb_spec. split; [by intros [-> ->]|by intros [= -> ->]].
Qed.

Definition cell_keys (c : Cell) : list (list Condition * list (Var * SetKey)) :=
  (λ x, conds_key x.1) <$> c.

(** The cells are maps: their keys are different. *)
Definition cell_wf (c : Cell) : Prop := NoDup (cell_keys c).

Lemma cell_get_elem k c sets :
  cell_get k c = Some sets → ∃ k', (k', sets) ∈ c ∧ conds_key k' = conds_key k.
Proof.
  induction c as [|[k' s] c IH]; [done|]. cbn. destruct (rule_conds_eqb k' k) eqn:E.
  - intros [= ->]. exists k'. split; [left|by apply rule_conds_eqb_spec].
  - intros (k0 & Hk & He)%IH. exists k0. split; [by right|done].
Qed.

Lemma cell_get_key k k' c : conds_key k = conds_key k' → cell_get k c = cell_get k' c.
Proof.
  intros Hk. induction c as [|[q s] c IH]; [done|]. cbn. rewrite IH.
  assert (rule_conds_eqb q k = rule_conds_eqb q k') as ->; [|done].
  apply eq_iff_eq_true. rewrite !rule_conds_eqb_spec. by rewrite Hk.
Qed.

Lemma cell_get_in k c : is_Some (cell_get k c) ↔ conds_key k ∈ cell_keys c.
Proof.
  induction c as [|[k' s] c IH]; cbn.
  { split; [by intros [? ?]|by intros ?%elem_of_nil]. }
  rewrite elem_of_cons. destruct (rule_conds_eqb k' k) eqn:E.
  - apply rule_conds_eqb_spec in E. cbn. split; [by left|by eexists].
  - rewrite IH. split; [by right|]. intros [H|H]; [|done].
    rewrite (proj2 (rule_conds_eqb_spec k' k)) in E; done.
Qed.

Lemma cell_get_wf k c sets : cell_wf c → (k, sets) ∈ c → cell_get k c = Some sets.
Proof.
  unfold cell_wf. induction c as [|[k' s] c IH]; cbn; [by intros _ ?%elem_of_nil|].
  rewrite NoDup_cons, elem_of_cons. intros [Hk Hc] [[= -> ->]|Hin].
  - by rewrite (proj2 (rule_conds_eqb_spec k' k')).
  - destruct (rule_conds_eqb k' k) eqn:E; [|by apply IH]. exfalso.
    apply rule_conds_eqb_spec in E. apply Hk. rewrite E. apply list_elem_of_fmap.
    by exists (k, sets).
Qed.

Lemma cell_set_keys k sets c : cell_keys (cell_set k sets c) = cell_keys c.
Proof.
  induction c as [|[k' s] c IH]; [done|]. cbn. destruct (rule_conds_eqb k' k); [done|].
  unfold cell_keys in IH |- *. cbn. by rewrite IH.
Qed.

Section cells.
Context (ir : IrDesc) (inputs : list ChoiceInstance) (Hir : desc_ok ir).

Definition cell_allows (w : World) (c : Cell) (v : Value) : Prop :=
  Forall (λ x, triggers ir inputs w x.1.1 x.1.2 → Forall (λ s, vs_allows ir inputs w s v) x.2) c.

Definition cell_typed (t : ValueType) (c : Cell) : Prop :=
  Forall (λ x, Forall (vs_ok ir inputs t) x.2) c.

Lemma triggers_key w k k' :
  world_ok w → conds_key k = conds_key k' →
  triggers ir inputs w k.1 k.2 ↔ triggers ir inputs w k'.1 k'.2.
Proof.
  intros Hw. unfold conds_key, triggers. intros [= -> Hs].
  assert (Forall (λ x, w_set w x.1 x.2) k.2 ↔ Forall (λ x, w_set w x.1 x.2) k'.2) as ->;
    [|done].
  revert Hs. generalize (k.2) as l, (k'.2) as l'. induction l as [|[v s] l IH]; intros [|[v' s'] l'];
    cbn; try done. intros [= -> Hs Hl]. rewrite !Forall_cons, (IH l' Hl). cbn.
  assert (w_set w v' s ↔ w_set w v' s') as ->; [|done].
  split; by apply (set_respects w Hw).
Qed.

Lemma intersect_first_exact t sets alts :
  Forall (vs_ok ir inputs t) sets → vs_ok ir inputs t alts →
  ∃ sets', intersect_first sets alts = Some sets' ∧ Forall (vs_ok ir inputs t) sets' ∧
    ∀ w v, Forall (λ s, vs_allows ir inputs w s v) sets' ↔
      Forall (λ s, vs_allows ir inputs w s v) sets ∧ vs_allows ir inputs w alts v.
Proof.
  intros Hs Ha. induction Hs as [|s sets Hs Hsets (rest & Hr & Hrok & Hrx)]; cbn [intersect_first].
  { exists [alts]. split_and!; [done|by constructor|]. intros w v. rewrite Forall_singleton.
    split; [|tauto]. by split; [constructor|]. }
  destruct (vs_intersect_exact ir inputs t s alts Hs Ha) as (b & u & Hi & Hu & Hf & Ht).
  rewrite Hi. cbn [mbind option_bind]. destruct b.
  - eexists. split; [done|]. split; [by constructor|]. intros w v.
    rewrite !Forall_cons, (Ht eq_refl w v). tauto.
  - rewrite (Hf eq_refl) in *. rewrite Hr. cbn [mbind option_bind]. eexists. split; [done|].
    split; [by constructor|]. intros w v. rewrite !Forall_cons, Hrx. tauto.
Qed.

Lemma cell_set_typed t k sets c :
  cell_typed t c → Forall (vs_ok ir inputs t) sets → cell_typed t (cell_set k sets c).
Proof.
  intros Hc Hs. induction Hc as [|[k' s] c Hs' Hc IH]; cbn; [constructor|].
  destruct (rule_conds_eqb k' k); by constructor.
Qed.

Lemma cell_set_allows w v k sets sets' c (P : Prop) :
  world_ok w → cell_get k c = Some sets →
  (Forall (λ s, vs_allows ir inputs w s v) sets' ↔
   Forall (λ s, vs_allows ir inputs w s v) sets ∧ P) →
  cell_allows w (cell_set k sets' c) v ↔
  cell_allows w c v ∧ (triggers ir inputs w k.1 k.2 → P).
Proof.
  intros Hw Hg Hp. unfold cell_allows. induction c as [|[k' s] c IH]; [done|]. cbn in *.
  destruct (rule_conds_eqb k' k) eqn:E.
  - injection Hg as ->. apply rule_conds_eqb_spec in E. rewrite !Forall_cons. cbn [fst snd].
    rewrite (triggers_key w k' k Hw E), Hp. tauto.
  - rewrite !Forall_cons, (IH Hg). tauto.
Qed.

Lemma cell_add_exact t c r :
  rule_ok ir inputs t r → cell_wf c → cell_typed t c →
  ∃ c', cell_add ir inputs c r = Some c' ∧ cell_wf c' ∧ cell_typed t c' ∧
    ∀ w v, world_ok w → inputs_ok ir inputs w →
      (cell_allows w c' v ↔ cell_allows w c v ∧ rule_allows ir inputs w r v).
Proof.
  intros Hr Hwf Ht. destruct (rule_normalize_exact ir inputs Hir t r Hr) as
    (r' & Hn & [Hc' Ha'] & Ea & Es & Htr).
  unfold cell_add. rewrite Hn. cbn [mbind option_bind].
  set (k := (conditions r', set_constraints r')).
  assert (∀ w v, world_ok w → inputs_ok ir inputs w →
    (triggers ir inputs w k.1 k.2 → vs_allows ir inputs w (alternatives r') v) ↔
    rule_allows ir inputs w r v) as Hrule.
  { intros w v Hw Hi. unfold rule_allows. cbn. by rewrite (Htr w Hw Hi), Ea. }
  destruct (cell_get k c) as [sets|] eqn:Eg.
  - destruct (cell_get_elem _ _ _ Eg) as (k' & Hin & Hk').
    assert (Forall (vs_ok ir inputs t) sets) as Hsets.
    { unfold cell_typed in Ht. rewrite Forall_forall in Ht. by apply (Ht _ Hin). }
    destruct (intersect_first_exact t sets _ Hsets Ha') as (sets' & Hi & Hok & Hx). rewrite Hi.
    cbn [mbind option_bind]. eexists. split; [done|]. split_and!.
    + unfold cell_wf. by rewrite cell_set_keys.
    + by apply cell_set_typed.
    + intros w v Hw Hi'. rewrite (cell_set_allows w v k sets sets' c _ Hw Eg (Hx w v)).
      by rewrite Hrule.
  - eexists. split; [done|]. split_and!.
    + unfold cell_wf, cell_keys. rewrite fmap_app. apply NoDup_app. split_and!; [done| |].
      * intros x Hx Hx'. cbn in Hx'. apply list_elem_of_singleton in Hx' as ->.
        apply cell_get_in in Hx as [? ?]. congruence.
      * apply NoDup_singleton.
    + apply Forall_app. split; [done|]. by repeat constructor.
    + intros w v Hw Hi. unfold cell_allows. rewrite Forall_app, Forall_singleton. cbn [fst snd].
      rewrite Forall_singleton, <-(Hrule w v Hw Hi). done.
Qed.

Lemma cell_build_exact t rules :
  Forall (rule_ok ir inputs t) rules →
  ∃ c, cell_build ir inputs rules = Some c ∧ cell_wf c ∧ cell_typed t c ∧
    ∀ w v, world_ok w → inputs_ok ir inputs w →
      (cell_allows w c v ↔ Forall (λ r, rule_allows ir inputs w r v) rules).
Proof.
  intros Hr. unfold cell_build.
  assert (∀ c, cell_wf c → cell_typed t c → ∃ c', foldM (cell_add ir inputs) rules c = Some c' ∧
    cell_wf c' ∧ cell_typed t c' ∧ ∀ w v, world_ok w → inputs_ok ir inputs w →
      (cell_allows w c' v ↔ cell_allows w c v ∧ Forall (λ r, rule_allows ir inputs w r v) rules))
    as Hgen.
  { induction Hr as [|r rules Hr _ IH]; intros c Hwf Ht; cbn [foldM].
    - exists c. split_and!; try done. intros w v _ _. by rewrite Forall_nil; split; [|intros []].
    - destruct (cell_add_exact t c r Hr Hwf Ht) as (c1 & -> & Hwf1 & Ht1 & Hx1).
      cbn [mbind option_bind]. destruct (IH c1 Hwf1 Ht1) as (c2 & H2 & Hwf2 & Ht2 & Hx2).
      exists c2. split_and!; try done. intros w v Hw Hi.
      rewrite (Hx2 w v Hw Hi), (Hx1 w v Hw Hi), Forall_cons. tauto. }
  destruct (Hgen []) as (c & Hc & Hwf & Ht & Hx); [constructor|constructor|].
  exists c. split_and!; try done. intros w v Hw Hi. rewrite (Hx w v Hw Hi).
  split; [by intros []|]. by split; [constructor|].
Qed.

(** A cell found empty allows nothing. *)
Lemma cell_is_empty_allows w c v : cell_is_empty c = true → ¬ cell_allows w c v.
Proof.
  clear Hir. unfold cell_is_empty. destruct (cell_get ([], []) c) as [sets|] eqn:E; [|done]. cbn.
  destruct (cell_get_elem _ _ _ E) as ([conds cs] & Hin & Hk). intros (s & Hs & He)%existsb_exists Ha.
  unfold cell_allows in Ha. rewrite Forall_forall in Ha. specialize (Ha _ Hin). cbn in Ha.
  unfold conds_key in Hk. cbn in Hk. injection Hk as -> Hcs. apply fmap_nil_inv in Hcs as ->.
  assert (triggers ir inputs w [] []) as Ht by (split; constructor).
  specialize (Ha Ht). rewrite Forall_forall in Ha. specialize (Ha s (proj2 (list_elem_of_In _ _) Hs)).
  destruct s as [n values ins|f ci cc u]; cbn in He, Ha.
  - apply andb_true_iff in He as [->%bool_decide_eq_true ->%bool_decide_eq_true].
    destruct Ha as (x & _ & [?|(? & ? & ? & ? & ? & _)]); set_solver.
  - apply andb_true_iff in He as [[?%negb_true_iff ->%bool_decide_eq_true]%andb_true_iff
      ->%bool_decide_eq_true].
    destruct Ha as (x & _ & [?|[(? & ? & ? & _)|(? & ? & ? & _)]]); [congruence|set_solver|set_solver].
Qed.

(** Cells that are equal as maps allow the same values. *)
Lemma cell_eqb_allows w c c' v :
  world_ok w → cell_wf c → cell_wf c' → cell_eqb c c' = true →
  cell_allows w c v ↔ cell_allows w c' v.
Proof.
  intros Hw Hc Hc' [Hlen Hall]%andb_true_iff. apply Nat.eqb_eq in Hlen.
  assert (∀ k sets, (k, sets) ∈ c → cell_get k c' = Some sets) as Hget.
  { intros k sets Hin%list_elem_of_In. rewrite forallb_forall in Hall.
    specialize (Hall _ Hin). by apply bool_decide_eq_true in Hall. }
  assert (cell_keys c ≡ₚ cell_keys c') as Hperm.
  { apply submseteq_length_Permutation.
    - apply NoDup_submseteq; [done|]. intros k ([k0 sets] & -> & Hin)%list_elem_of_fmap.
      apply cell_get_in. eexists. by apply Hget.
    - unfold cell_keys. rewrite !length_fmap. lia. }
  unfold cell_allows. rewrite !Forall_forall. split.
  - intros H [k' sets'] Hin. assert (conds_key k' ∈ cell_keys c) as Hk.
    { rewrite Hperm. apply list_elem_of_fmap. by exists (k', sets'). }
    apply list_elem_of_fmap in Hk as ([k sets] & Hk & Hin').
    pose proof (Hget _ _ Hin') as Hg.
    cbn in Hk. apply (cell_get_wf _ _ _ Hc') in Hin.
    rewrite (cell_get_key k' k c' Hk), Hg in Hin. injection Hin as <-.
    cbn. rewrite (triggers_key w k' k Hw Hk). apply (H _ Hin').
  - intros H [k sets] Hin. pose proof (Hget _ _ Hin) as Hg.
    destruct (cell_get_elem _ _ _ Hg) as (k' & Hin' & Hk). cbn.
    rewrite (triggers_key w k k' Hw (eq_sym Hk)). apply (H _ Hin').
Qed.
End cells.

(** ** Views of the table *)

Fixpoint free_dims (i : nat) (sh : Shape) : list nat :=
  match sh with
  | [] => []
  | Some _ :: sh => free_dims (S i) sh
  | None :: sh => i :: free_dims (S i) sh
  end.

Lemma free_dims_fix i sh l k : free_dims i (shape_fix l k sh) = delete l (free_dims i sh).
Proof.
  revert i l. induction sh as [|[x|] sh IH]; intros i l; cbn; [done|apply IH|].
  destruct l as [|l]; cbn; [done|]. by rewrite IH.
Qed.

Lemma length_free_dims i ds sh : shape_ok ds sh → length (free_dims i sh) = length (shape_bounds ds sh).
Proof.
  intros Hok. revert i. induction Hok as [|d [x|] ds sh _ _ IH]; intros i; cbn; [done|apply IH|].
  by rewrite IH.
Qed.

Lemma free_dims_bounds i ds sh l d :
  shape_ok ds sh → free_dims i sh !! l = Some d → i ≤ d ∧ shape_bounds ds sh !! l = ds !! (d - i).
Proof.
  intros Hok. revert i l. induction Hok as [|n [x|] ds sh _ _ IH]; intros i l;
    cbn [free_dims shape_bounds]; [done| |].
  - intros H. destruct (IH (S i) l H) as [Hle ->]. split; [lia|].
    by replace (d - i) with (S (d - S i)) by lia.
  - destruct l as [|l].
    + intros [= ->]. by rewrite Nat.sub_diag.
    + intros H. destruct (IH (S i) l H) as [Hle Heq]. split; [lia|].
      replace (d - i) with (S (d - S i)) by lia. exact Heq.
Qed.

Lemma free_dims_whole n i : free_dims i (replicate n None) = seq i n.
Proof. revert i. induction n as [|n IH]; intros i; cbn; [done|]. by rewrite IH. Qed.

(** The cell at an index of a view. *)
Definition content (a : NDArray Cell) (sh : Shape) (idx : list nat) : option Cell :=
  full ← shape_fill sh idx; nd_data a !! flatten (nd_dims a) full.

(** The table and its values fit. *)
Definition array_ok (values : list (nat * list ValueSet)) (a : NDArray Cell) : Prop :=
  length (nd_data a) = product (nd_dims a) ∧
  nd_dims a = (λ x, length x.2) <$> values ∧ Forall cell_wf (nd_data a).

Definition view_ok (a : NDArray Cell) (sh : Shape) (t : TableView) : Prop :=
  view_shape (nd_dims a) sh (tv_view t) ∧ dim_map t = free_dims 0 sh.

Definition bounds (t : TableView) : list nat := vm_bounds (tv_view t).

Lemma view_index_content a sh t idx :
  length (nd_data a) = product (nd_dims a) → view_ok a sh t → in_range (bounds t) idx →
  ∃ full c, shape_fill sh idx = Some full ∧ in_range (nd_dims a) full ∧
    flat_index a (tv_view t) idx = Some (flatten (nd_dims a) full) ∧
    nd_data a !! flatten (nd_dims a) full = Some c ∧ content a sh idx = Some c.
Proof.
  intros Hlen [Hsh _] Hi.
  destruct (flat_index_shape a sh (tv_view t) idx Hsh Hi) as (full & Hf & Hr & Hflat).
  pose proof (flatten_bound _ _ Hr) as Hlt. rewrite <-Hlen in Hlt.
  destruct (lookup_lt_is_Some_2 _ _ Hlt) as [c Hc]. exists full, c. split_and!; try done.
  unfold content. rewrite Hf. cbn. done.
Qed.

Lemma table_cells_spec values a sh t :
  array_ok values a → view_ok a sh t →
  ∃ g, table_cells a t = Some (g <$> indices (bounds t)) ∧
    ∀ idx, in_range (bounds t) idx → content a sh idx = Some (g idx) ∧ cell_wf (g idx).
Proof.
  intros (Hlen & _ & Hwf) Ht. exists (λ idx, default [] (content a sh idx)). split.
  - unfold table_cells, view_enumerate. rewrite ndrange_collect_indices. cbn [mbind option_bind].
    rewrite (mapM_total _ (λ idx, (idx, default [] (content a sh idx)))).
    + cbn. by rewrite <-list_fmap_compose.
    + intros idx Hi%elem_of_indices.
      destruct (view_index_content a sh t idx Hlen Ht Hi) as (full & c & _ & _ & Hfl & Hc & ->).
      unfold view_index. rewrite Hfl. cbn. by rewrite Hc.
  - intros idx Hi. destruct (view_index_content a sh t idx Hlen Ht Hi) as (full & c & _ & _ & _ & Hc & ->).
    split; [done|]. rewrite Forall_forall in Hwf. by eapply Hwf, list_elem_of_lookup_2.
Qed.

Lemma list_eqb_fmap {A B : Type} (eqb : B → B → bool) (f g : A → B) l :
  list_eqb eqb (f <$> l) (g <$> l) = true → ∀ x, x ∈ l → eqb (f x) (g x) = true.
Proof.
  induction l as [|y l IH]; cbn; [by intros _ x ?%elem_of_nil|].
  intros [Hy Hl]%andb_true_iff x [->|Hx]%elem_of_cons; auto.
Qed.

(** Whether all the cells are empty, and whether two views agree. *)
Lemma table_is_empty_spec values a sh t :
  array_ok values a → view_ok a sh t →
  ∃ b, table_is_empty a t = Some b ∧
    (b = true → ∀ idx c, in_range (bounds t) idx → content a sh idx = Some c → cell_is_empty c = true).
Proof.
  intros Ha Ht. destruct (table_cells_spec values a sh t Ha Ht) as (g & Hg & Hc).
  unfold table_is_empty. rewrite Hg. cbn. eexists. split; [done|]. intros Hall idx c Hi Hcc.
  destruct (Hc idx Hi) as [Hx _]. rewrite Hx in Hcc. injection Hcc as <-.
  rewrite forallb_forall in Hall. apply Hall, list_elem_of_In, list_elem_of_fmap_2.
  by apply elem_of_indices.
Qed.

Lemma equal_content_spec values a sh sh' t t' :
  array_ok values a → view_ok a sh t → view_ok a sh' t' → bounds t = bounds t' →
  ∃ b, equal_content a t t' = Some b ∧
    (b = true → ∀ idx, in_range (bounds t) idx →
      ∃ c c', content a sh idx = Some c ∧ content a sh' idx = Some c' ∧
        cell_wf c ∧ cell_wf c' ∧ cell_eqb c c' = true).
Proof.
  intros Ha Ht Ht' Hb. destruct (table_cells_spec values a sh t Ha Ht) as (g & Hg & Hc).
  destruct (table_cells_spec values a sh' t' Ha Ht') as (g' & Hg' & Hc').
  unfold equal_content. rewrite Hg, Hg'. cbn. eexists. split; [done|]. rewrite <-Hb in *.
  intros Heq idx Hi. destruct (Hc idx Hi) as [Hx Hwx], (Hc' idx Hi) as [Hy Hwy].
  exists (g idx), (g' idx). split_and!; try done.
  by apply (list_eqb_fmap _ _ _ _ Heq), elem_of_indices.
Qed.

(** Fixing an input of a view. *)
Lemma table_instantiate_spec values a sh t pos :
  array_ok values a → view_ok a sh t → tv_values t = values → pos < num_inputs t →
  ∃ d x subs, dim_map t !! pos = Some d ∧ values !! d = Some x ∧
    table_instantiate t pos = Some subs ∧ bounds t !! pos = Some (length x.2) ∧
    length subs = length x.2 ∧
    ∀ k sub, subs !! k = Some sub → x.2 !! k = Some sub.1 ∧ view_ok a (shape_fix pos k sh) sub.2 ∧
      tv_values sub.2 = values ∧ dim_map sub.2 = delete pos (dim_map t) ∧
      bounds sub.2 = delete pos (bounds t).
Proof.
  intros (Hlen & Hdims & _) [Hsh Hmap] <- Hpos. unfold num_inputs in Hpos.
  destruct (lookup_lt_is_Some_2 _ _ Hpos) as [d Hd]. pose proof Hsh as (Hok & Hb & _).
  pose proof Hd as Hd'. rewrite Hmap in Hd'.
  destruct (free_dims_bounds 0 _ _ _ _ Hok Hd') as [_ Hbd]. rewrite Nat.sub_0_r in Hbd.
  assert (pos < length (shape_bounds (nd_dims a) sh)) as Hpb.
  { by rewrite <-(length_free_dims 0 _ _ Hok), <-Hmap. }
  destruct (lookup_lt_is_Some_2 _ _ Hpb) as [n Hn]. rewrite Hn in Hbd. symmetry in Hbd.
  rewrite Hdims in Hbd. apply list_lookup_fmap_Some in Hbd as (x & -> & Hx).
  destruct (view_split_shape (nd_dims a) sh (tv_view t) pos (length x.2) Hsh) as (vs & Hvs & Hall).
  { by rewrite Hb. }
  pose proof (Forall2_length _ _ _ Hall) as Hl. rewrite length_seq in Hl.
  exists d, x. eexists. split; [done|]. split; [done|]. split.
  - unfold table_instantiate. rewrite Hd. cbn [mbind option_bind]. rewrite Hx. cbn [mbind option_bind].
    rewrite Hvs. cbn [mbind option_bind]. unfold zip_eq. rewrite Hl, Nat.eqb_refl.
    cbn [mbind option_bind]. unfold vec_remove. rewrite Hd. cbn [mbind option_bind].
    unfold sub_views. reflexivity.
  - split; [unfold bounds; by rewrite Hb|]. split.
    { rewrite length_fmap, length_zip. lia. }
    intros k sub Hk. apply list_lookup_fmap_Some in Hk as ([s w] & -> & Hk).
    apply lookup_zip_Some in Hk as [Hs Hw]. cbn.
    destruct (Forall2_lookup_r _ _ _ _ _ Hall Hw) as (k' & Hk' & Hwsh & Hwb).
    apply lookup_seq in Hk' as [-> _]. split_and!; [done| |done|by rewrite delete_take_drop|].
    + split; [done|]. cbn. by rewrite free_dims_fix, <-Hmap, delete_take_drop.
    + unfold bounds. cbn. by rewrite Hwb, delete_take_drop.
Qed.

(** ** Merging branches

    The branches of a split, with their keys: [emp k] tells that branch [k] is empty and
    [eqv k j] that branches [k] and [j] have the same content. *)
Section merge.
Context (a : NDArray Cell) (n : string) (keys : list string) (subs : list (ValueSet * TableView)).
Context (emp : nat → bool) (eqv : nat → nat → bool).
Hypothesis subs_keys : ∀ k sub, subs !! k = Some sub →
  ∃ y, keys !! k = Some y ∧ sub.1 = VSEnum n {[y]} ∅ ∧ table_is_empty a sub.2 = Some (emp k).
Hypothesis subs_equal : ∀ k j sub sub', subs !! k = Some sub → subs !! j = Some sub' →
  equal_content a sub.2 sub'.2 = Some (eqv k j).

Definition same_branch (k j : nat) : Prop := k = j ∨ eqv k j = true.

(** An instance collects keys of branches like its first one. *)
Definition instance_ok (m : nat) (i : ValueSet * nat * TableView) : Prop :=
  ∃ X s, i.1.1 = VSEnum n X ∅ ∧ i.1.2 < m ∧ subs !! i.1.2 = Some (s, i.2) ∧ emp i.1.2 = false ∧
    ∀ y, y ∈ X → ∃ j, keys !! j = Some y ∧ j < m ∧ emp j = false ∧ same_branch j i.1.2.

Definition covered (instances : Instances) (k : nat) : Prop :=
  ∃ X vp st y, (VSEnum n X ∅, vp, st) ∈ instances ∧ keys !! k = Some y ∧ y ∈ X ∧ same_branch k vp.

Definition instances_ok (m : nat) (forward : bool) (instances : Instances) : Prop :=
  Forall (instance_ok m) instances ∧
  (∀ k, k < m → emp k = true ∨ covered instances k) ∧
  StronglySorted lt (instances.*1.*2) ∧
  (forward = true → ∀ k, k < m → emp k = false).

Lemma instance_ok_mono m m' i : m ≤ m' → instance_ok m i → instance_ok m' i.
Proof.
  intros Hle (X & s & H1 & H2 & H3 & H4 & H5). exists X, s. split_and!; try done; [lia|].
  intros y Hy. destruct (H5 y Hy) as (j & ? & ? & ? & ?). exists j. split_and!; try done. lia.
Qed.

Lemma merge_branch_spec k sub instances m :
  subs !! k = Some sub → Forall (instance_ok m) instances →
  ∃ o, merge_branch a sub.1 sub.2 instances = Some o ∧
    match o with
    | None => True
    | Some instances' => ∃ i X vp st y,
        instances !! i = Some (VSEnum n X ∅, vp, st) ∧ keys !! k = Some y ∧ eqv k vp = true ∧
        instances' = <[i := (VSEnum n (X ∪ {[y]}) ∅, vp, st)]> instances
    end.
Proof.
  intros Hk. destruct (subs_keys k sub Hk) as (y & Hy & Hs & _).
  induction 1 as [|[[vals vp] st] instances Hi _ (o & Ho & Hspec)]; [by exists None|].
  destruct Hi as (X & s & Hv & _ & Hsub & _). cbn in Hv, Hsub. subst vals. cbn [merge_branch].
  pose proof (subs_equal k vp sub (s, st) Hk Hsub) as Heq. cbn [snd] in Heq. rewrite Heq.
  cbn [mbind option_bind].
  destruct (eqv k vp) eqn:E.
  - rewrite Hs. cbn. rewrite (right_id_L ∅ (∪)). eexists. split; [done|]. cbn.
    by exists 0, X, vp, st, y.
  - rewrite Ho. cbn [mbind option_bind]. eexists. split; [done|].
    destruct o as [inst'|]; [|done]. cbn.
    destruct Hspec as (i & X' & vp' & st' & y' & H1 & H2 & H3 & ->).
    by exists (S i), X', vp', st', y'.
Qed.

Lemma merge_step_spec k sub forward instances :
  subs !! k = Some sub → instances_ok k forward instances →
  ∃ st, merge_step a (forward, instances) (k, sub) = Some st ∧ instances_ok (S k) st.1 st.2.
Proof.
  intros Hk (Hall & Hcov & Hsort & Hfwd). destruct (subs_keys k sub Hk) as (y & Hy & Hs & He).
  assert (Forall (instance_ok (S k)) instances) as Hall'.
  { eapply Forall_impl; [done|]. intros i. apply instance_ok_mono. lia. }
  destruct sub as [value sub]. cbn [fst snd] in Hs, He. unfold merge_step. rewrite He.
  cbn [mbind option_bind]. destruct (emp k) eqn:Ek.
  { eexists. split; [done|]. split_and!; cbn; [done| |done|done]. intros j Hj.
    destruct (decide (j = k)) as [->|]; [by left|]. apply Hcov. lia. }
  destruct (merge_branch_spec k (value, sub) instances k Hk Hall) as (o & Ho & Hspec).
  cbn [fst snd] in Ho. rewrite Ho. cbn [mbind option_bind].
  assert (∀ inst', (∀ j, j < k → covered instances j → covered inst' j) → covered inst' k →
    ∀ j, j < S k → emp j = true ∨ covered inst' j) as Hcov'.
  { intros inst' Hm Hck j Hj. destruct (decide (j = k)) as [->|]; [by right|].
    destruct (Hcov j) as [?|?]; [lia|by left|]. right. apply Hm; [lia|done]. }
  assert (forward = true → ∀ j, j < S k → emp j = false) as Hfwd'.
  { intros Hf j Hj. destruct (decide (j = k)) as [->|]; [done|]. apply Hfwd; [done|lia]. }
  destruct o as [inst'|]; (eexists; split; [done|]); cbn [fst snd].
  - destruct Hspec as (i & X & vp & st & y' & Hi & Hy' & Hev & ->).
    rewrite Hy in Hy'. injection Hy' as <-. pose proof (lookup_lt_Some _ _ _ Hi) as Hil.
    split_and!; [| |by rewrite !list_fmap_insert, (list_insert_id _ i);
      [|by rewrite !list_lookup_fmap, Hi]|done].
    + apply Forall_insert; [done|]. rewrite Forall_lookup in Hall'.
      destruct (Hall' _ _ Hi) as (X' & s & [= <-] & H2 & H3 & H4 & H5). exists (X ∪ {[y]}), s.
      split_and!; try done. intros z [Hz|Hz]%elem_of_union; [by apply H5|].
      apply elem_of_singleton in Hz as ->. exists k. split_and!; try done; [lia|by right].
    + apply Hcov'.
      * intros j _ (X' & vp' & st' & z & Hin & Hz & Hzx & Hsame).
        apply list_elem_of_lookup in Hin as [i' Hi']. destruct (decide (i' = i)) as [->|Hne].
        -- rewrite Hi in Hi'. injection Hi' as <- <- <-. exists (X ∪ {[y]}), vp, st, z.
           split_and!; [|done|set_solver|done]. eapply list_elem_of_lookup_2.
           by apply list_lookup_insert_eq.
        -- exists X', vp', st', z. split_and!; try done. eapply list_elem_of_lookup_2.
           by rewrite list_lookup_insert_ne.
      * exists (X ∪ {[y]}), vp, st, y. split_and!; [|done|set_solver|by right].
        eapply list_elem_of_lookup_2. by apply list_lookup_insert_eq.
  - split_and!; [| | |done].
    + apply Forall_app. split; [done|]. constructor; [|done]. exists {[y]}, value. cbn.
      split_and!; [done|lia|done|done|]. intros z ->%elem_of_singleton. exists k.
      split_and!; try done; [lia|by left].
    + apply Hcov'.
      * intros j _ (X' & vp' & st' & z & Hin & Hz). exists X', vp', st', z.
        split; [|done]. apply elem_of_app. by left.
      * exists {[y]}, k, sub, y. split_and!; [|done|set_solver|by left].
        apply elem_of_app. right. rewrite Hs. left.
    + rewrite !fmap_app. apply StronglySorted_app_2; [|done|by repeat constructor].
      intros vp vk Hin Hin'. cbn in Hin'. apply list_elem_of_singleton in Hin' as ->.
      apply list_elem_of_fmap in Hin as ([vals vp'] & -> & Hin).
      apply list_elem_of_fmap in Hin as ([[vals' vp''] st'] & [= -> ->] & Hin).
      rewrite Forall_forall in Hall. destruct (Hall _ Hin) as (? & ? & _ & H & _). exact H.
Qed.

Lemma merge_branches_spec :
  ∃ forward instances, merge_branches a subs = Some (forward, instances) ∧
    instances_ok (length subs) forward instances.
Proof.
  destruct (foldM_enumerate_inv (λ m st, instances_ok m st.1 st.2) (merge_step a) subs (true, []))
    as ([fw inst] & H & Hok).
  - split_and!; [constructor|intros k Hk; lia|constructor|intros _ k Hk; lia].
  - intros k sub [fw inst] Hk Hok. by apply merge_step_spec.
  - by exists fw, inst.
Qed.
End merge.

(** The views chosen by a configuration are found in one pass. *)
Lemma iter_find_spec {A : Type} (l : list A) b pos x :
  l !! (pos - b) = Some x → b ≤ pos →
  iter_find pos (zip (seq b (length l)) l)
  = Some (x, zip (seq (S pos) (length (drop (S (pos - b)) l))) (drop (S (pos - b)) l)).
Proof.
  revert b. induction l as [|y l IH]; intros b Hx Hle; [done|]. cbn [length seq zip zip_with iter_find].
  destruct (Nat.eqb_spec pos b) as [->|Hne].
  - rewrite Nat.sub_diag in *. injection Hx as ->. done.
  - rewrite (IH (S b)).
    + by replace (S (pos - S b)) with (pos - b) by lia; replace (pos - b) with (S (pos - S b)) by lia.
    + replace (pos - b) with (S (pos - S b)) in Hx by lia. done.
    + lia.
Qed.

Lemma find_views_spec a (config : list (ValueSet * nat)) (l : list (ValueSet * TableView)) b :
  StronglySorted lt (config.*2) →
  Forall (λ c, b ≤ c.2 ∧ ∃ sub, l !! (c.2 - b) = Some sub ∧ table_is_empty a sub.2 = Some false) config →
  ∃ cases, find_views a config (zip (seq b (length l)) l) = Some cases ∧
    Forall2 (λ c case, case.1 = c.1 ∧ ∃ s, l !! (c.2 - b) = Some (s, case.2)) config cases.
Proof.
  revert l b. induction config as [|[vals pos] config IH]; intros l b Hs Hall; [by exists []|].
  cbn in Hs. apply StronglySorted_cons in Hs as [Hpos Hs]. rewrite Forall_forall in Hpos.
  apply Forall_cons in Hall as [(Hle & [s st] & Hx & He) Hall]. cbn in Hle, Hx.
  cbn [find_views]. rewrite (iter_find_spec l b pos (s, st) Hx Hle). cbn [mbind option_bind].
  rewrite He. cbn [mbind option_bind].
  assert (∀ c, c ∈ config → S pos ≤ c.2) as Hgt.
  { intros c Hc. assert (pos < c.2); [|lia]. apply Hpos. by apply list_elem_of_fmap_2. }
  assert (∀ c, c ∈ config → drop (S (pos - b)) l !! (c.2 - S pos) = l !! (c.2 - b)) as Hl.
  { intros c Hc. rewrite lookup_drop. specialize (Hgt c Hc). f_equal. lia. }
  destruct (IH (drop (S (pos - b)) l) (S pos) Hs) as (cases & -> & Hcases).
  { apply Forall_forall. intros c Hc. rewrite Forall_forall in Hall.
    destruct (Hall c Hc) as (_ & sub & Hsub & Hsube). split; [by apply Hgt|].
    exists sub. by rewrite (Hl c Hc). }
  cbn [mbind option_bind]. eexists. split; [done|]. constructor; [by eauto|].
  apply Forall2_same_length_lookup_2; [by eapply Forall2_length|]. intros i c case Hc Hcase.
  destruct (Forall2_lookup_lr _ _ _ _ _ _ Hcases Hc Hcase) as (H1 & s' & H2).
  split; [done|]. exists s'. rewrite <-(Hl c); [done|]. by eapply list_elem_of_lookup_2.
Qed.

Section filter.
Context (ir : IrDesc) (inputs : list ChoiceInstance).

(** The values listed for an input: one set for each value of its enum. *)
Definition input_listed (x : nat * list ValueSet) (e : Enum) : Prop :=
  input_enum ir inputs x.1 = Some e ∧ NoDup (value_keys e) ∧
  x.2 = (λ y, VSEnum (enum_name e) {[y]} ∅) <$> value_keys e.

Definition values_ok (values : list (nat * list ValueSet)) : Prop :=
  Forall (λ x, ∃ e, input_listed x e) values.

(** [k] is the position of the value of the input in the world. *)
Definition value_at (w : World) (x : nat * list ValueSet) (k : nat) : Prop :=
  ∃ e y, input_listed x e ∧ value_keys e !! k = Some y ∧ w_input w x.1 = VEnum y.

(** [idx] is the index of the world in a view. *)
Definition index_of (w : World) (t : TableView) (idx : list nat) : Prop :=
  Forall2 (λ d k, ∃ x, tv_values t !! d = Some x ∧ value_at w x k) (dim_map t) idx.

(** A split, its keys, and what [merge_branches] finds of it. *)
Record branches (a : NDArray Cell) (sh : Shape) (t : TableView) (pos : nat)
    (x : nat * list ValueSet) (e : Enum) (subs : list (ValueSet * TableView))
    (emp : nat → bool) (eqv : nat → nat → bool) (forward : bool) (instances : Instances) : Prop := {
  br_dim : ∃ d, dim_map t !! pos = Some d ∧ tv_values t !! d = Some x;
  br_listed : input_listed x e;
  br_split : table_instantiate t pos = Some subs;
  br_length : length subs = length (value_keys e);
  br_bound : bounds t !! pos = Some (length subs);
  br_merge : merge_branches a subs = Some (forward, instances);
  br_ok : instances_ok (enum_name e) (value_keys e) subs emp eqv (length subs) forward instances;
  br_sub k sub : subs !! k = Some sub → table_is_empty a sub.2 = Some (emp k) ∧
    view_ok a (shape_fix pos k sh) sub.2 ∧ tv_values sub.2 = tv_values t ∧
    dim_map sub.2 = delete pos (dim_map t);
  br_emp k idx c : emp k = true → k < length subs → in_range (delete pos (bounds t)) idx →
    content a (shape_fix pos k sh) idx = Some c → cell_is_empty c = true;
  br_eqv k j idx : eqv k j = true → k < length subs → j < length subs →
    in_range (delete pos (bounds t)) idx →
    ∃ c c', content a (shape_fix pos k sh) idx = Some c ∧
      content a (shape_fix pos j sh) idx = Some c' ∧ cell_wf c ∧ cell_wf c' ∧ cell_eqb c c' = true
}.

Lemma split_branches a sh t pos :
  array_ok (tv_values t) a → values_ok (tv_values t) → view_ok a sh t → pos < num_inputs t →
  ∃ x e subs emp eqv forward instances,
    branches a sh t pos x e subs emp eqv forward instances.
Proof.
  intros Ha Hv Ht Hpos. set (values := tv_values t) in *.
  destruct (table_instantiate_spec values a sh t pos Ha Ht eq_refl Hpos) as
    (d & x & subs & Hd & Hx & Hi & Hb & Hlen & Hsub).
  unfold values_ok in Hv. rewrite Forall_lookup in Hv.
  destruct (Hv _ _ Hx) as (e & He). pose proof He as (He1 & Hnd & Hx2).
  assert (length x.2 = length (value_keys e)) as Hlk by by rewrite Hx2, length_fmap.
  set (emp := λ k, match subs !! k with
    | Some sub => default false (table_is_empty a sub.2) | None => false end).
  set (eqv := λ k j, match subs !! k, subs !! j with
    | Some s, Some s' => default false (equal_content a s.2 s'.2) | _, _ => false end).
  assert (∀ k sub, subs !! k = Some sub → table_is_empty a sub.2 = Some (emp k)) as Hemp.
  { intros k sub Hk. destruct (Hsub k sub Hk) as (_ & Hok & _).
    destruct (table_is_empty_spec values a _ _ Ha Hok) as (b & Hb' & _).
    unfold emp. by rewrite Hk, Hb'. }
  assert (∀ k j s s', subs !! k = Some s → subs !! j = Some s' →
    equal_content a s.2 s'.2 = Some (eqv k j)) as Heqv.
  { intros k j s s' Hk Hj. destruct (Hsub k s Hk) as (_ & Hok & _ & _ & Hb1).
    destruct (Hsub j s' Hj) as (_ & Hok' & _ & _ & Hb2).
    destruct (equal_content_spec values a _ _ _ _ Ha Hok Hok') as (b & Hb' & _); [congruence|].
    unfold eqv. by rewrite Hk, Hj, Hb'. }
  destruct (merge_branches_spec a (enum_name e) (value_keys e) subs emp eqv) as (fw & inst & Hm & Hok).
  { intros k sub Hk. destruct (Hsub k sub Hk) as (Hs & _). rewrite Hx2 in Hs.
    apply list_lookup_fmap_Some in Hs as (y & Hy & Hky). exists y. auto. }
  { done. }
  exists x, e, subs, emp, eqv, fw, inst.
  split; try done; [by exists d|by rewrite Hlen|by rewrite Hlen| | |].
  - intros k sub Hk. split; [by apply Hemp|]. destruct (Hsub k sub Hk) as (_ & ? & ? & ? & _). done.
  - intros k idx c Ek Hk Hi' Hc. destruct (lookup_lt_is_Some_2 _ _ Hk) as [sub Hsk].
    destruct (Hsub k sub Hsk) as (_ & Hok' & _ & _ & Hb1).
    destruct (table_is_empty_spec values a _ _ Ha Hok') as (b & Hb' & Hall).
    rewrite (Hemp k sub Hsk), Ek in Hb'. injection Hb' as <-. eapply (Hall eq_refl idx); [|done].
    by rewrite Hb1.
  - intros k j idx Ekj Hk Hj Hi'. destruct (lookup_lt_is_Some_2 _ _ Hk) as [s Hsk].
    destruct (lookup_lt_is_Some_2 _ _ Hj) as [s' Hsj].
    destruct (Hsub k s Hsk) as (_ & Hok1 & _ & _ & Hb1).
    destruct (Hsub j s' Hsj) as (_ & Hok2 & _ & _ & Hb2).
    destruct (equal_content_spec values a _ _ _ _ Ha Hok1 Hok2) as (b & Hb' & Hall); [congruence|].
    rewrite (Heqv k j s s' Hsk Hsj), Ekj in Hb'. injection Hb' as <-. apply (Hall eq_refl).
    by rewrite Hb1.
Qed.

(** What [find_split] returns: the last branch of a split whose branches are all the same,
    or the instances of some split. *)
Definition forwards (a : NDArray Cell) (sh : Shape) (t sub : TableView) : Prop :=
  ∃ pos x e subs emp eqv fw inst vp s k, branches a sh t pos x e subs emp eqv fw inst ∧
    subs !! k = Some (s, sub) ∧ vp < length subs ∧
    ∀ j, j < length subs → same_branch eqv j vp.

Definition switches (a : NDArray Cell) (sh : Shape) (t : TableView) (m : MinSplit) : Prop :=
  ∃ x e subs emp eqv fw inst, branches a sh t m.1 x e subs emp eqv fw inst ∧ m.2 = inst.*1.

Lemma find_split_spec a sh t positions min :
  array_ok (tv_values t) a → values_ok (tv_values t) → view_ok a sh t →
  Forall (λ pos, pos < num_inputs t) positions → from_option (switches a sh t) True min →
  ∃ r, find_split a t positions min = Some r ∧
    match r with
    | inl sub => forwards a sh t sub
    | inr o => from_option (switches a sh t) True o ∧ (positions ≠ [] ∨ min ≠ None → o ≠ None)
    end.
Proof.
  intros Ha Hv Ht Hpos. revert min. induction Hpos as [|pos positions Hpos _ IH]; intros min Hmin.
  { exists (inr min). split; [done|]. split; [done|]. by intros [?|?]. }
  destruct (split_branches a sh t pos Ha Hv Ht Hpos) as (x & e & subs & emp & eqv & fw & inst & Hbr).
  cbn [find_split]. rewrite (br_split _ _ _ _ _ _ _ _ _ _ _ Hbr). cbn [mbind option_bind].
  rewrite (br_merge _ _ _ _ _ _ _ _ _ _ _ Hbr). cbn [mbind option_bind].
  destruct (fw && (length inst =? 1)) eqn:Ef.
  - apply andb_true_iff in Ef as [-> Hone%Nat.eqb_eq].
    destruct inst as [|[[vals vp] st] [|]]; try done.
    destruct (br_ok _ _ _ _ _ _ _ _ _ _ _ Hbr) as (Hall & Hcov & _ & Hfw).
    apply Forall_singleton in Hall as (X & s & _ & Hvp & _ & _ & _). cbn in Hvp.
    destruct (last subs) as [[s' sub]|] eqn:El; cycle 1.
    { apply last_None in El. subst subs. cbn in Hvp. lia. }
    eexists. split; [done|]. rewrite last_lookup in El.
    exists pos, x, e, subs, emp, eqv, true, [(vals, vp, st)], vp, s', (pred (length subs)).
    split_and!; [done|done|done|]. intros j Hj.
    destruct (Hcov j Hj) as [He|(X' & vp' & st' & y & Hin & _ & _ & Hsame)].
    { rewrite (Hfw eq_refl j Hj) in He. done. }
    apply list_elem_of_singleton in Hin. injection Hin as _ <- _. exact Hsame.
  - destruct (IH (if from_option (λ x0 : MinSplit, length inst <? length x0.2) true min
      then Some (pos, inst.*1) else min)) as (r & Hr & Hspec).
    { destruct (from_option _ _ min); [|done]. cbn. by exists x, e, subs, emp, eqv, fw, inst. }
    exists r. split; [done|]. destruct r as [sub|o]; [done|]. destruct Hspec as [Ho Hne].
    split; [done|]. intros _. apply Hne. right.
    destruct (from_option _ true min) eqn:E; [done|]. by destruct min.
Qed.

(** A split is always found; the cases of a switch are its instances. *)
Lemma table_min_split_spec a sh t :
  array_ok (tv_values t) a → values_ok (tv_values t) → view_ok a sh t → 0 < num_inputs t →
  ∃ split, table_min_split a t = Some (Some split) ∧
    match split with
    | SplitForward sub => forwards a sh t sub
    | SplitSwitch input cases => ∃ pos x e subs emp eqv fw inst,
        branches a sh t pos x e subs emp eqv fw inst ∧ input = x.1 ∧
        Forall2 (λ i case, case.1 = i.1.1 ∧ case.2 = i.2) inst cases
    end.
Proof.
  intros Ha Hv Ht Hpos. unfold table_min_split.
  destruct (find_split_spec a sh t (seq 0 (num_inputs t)) None Ha Hv Ht) as (r & -> & Hr).
  { apply Forall_seq. lia. }
  { done. }
  cbn [mbind option_bind]. destruct r as [sub|o]; [by eexists|]. destruct Hr as [Ho Hne].
  destruct o as [[pos config]|]; cycle 1.
  { destruct Hne; [|done]. left. destruct (num_inputs t); [lia|done]. }
  destruct Ho as (x & e & subs & emp & eqv & fw & inst & Hbr & Hcfg). cbn in Hbr, Hcfg. subst config.
  destruct (br_dim _ _ _ _ _ _ _ _ _ _ _ Hbr) as (d & Hd & Hx). unfold input_from_pos.
  rewrite Hd. cbn [mbind option_bind]. rewrite Hx. cbn [mbind option_bind].
  rewrite (br_split _ _ _ _ _ _ _ _ _ _ _ Hbr). cbn [mbind option_bind].
  destruct (br_ok _ _ _ _ _ _ _ _ _ _ _ Hbr) as (Hall & _ & Hsort & _).
  destruct (find_views_spec a (inst.*1) subs 0 Hsort) as (cases & Hcs & Hf).
  { apply Forall_fmap, Forall_forall. intros i Hi. rewrite Forall_forall in Hall.
    destruct (Hall i Hi) as (X & s & _ & _ & Hs & He & _). cbn. split; [lia|].
    exists (s, i.2). rewrite Nat.sub_0_r. split; [done|].
    destruct (br_sub _ _ _ _ _ _ _ _ _ _ _ Hbr _ _ Hs) as (Hemp & _). cbn in Hemp |- *.
    by rewrite Hemp, He. }
  unfold enumerate. rewrite Hcs. cbn [mbind option_bind]. eexists. split; [done|].
  exists pos, x, e, subs, emp, eqv, fw, inst. split_and!; [done|done|].
  apply Forall2_fmap_l in Hf. apply Forall2_same_length_lookup_2; [by eapply Forall2_length|].
  intros i c case Hc Hcase. destruct (Forall2_lookup_lr _ _ _ _ _ _ Hf Hc Hcase) as (H1 & s & H2).
  cbn in H1, H2. split; [done|]. rewrite Forall_lookup in Hall.
  destruct (Hall _ _ Hc) as (X & s' & _ & _ & Hs & _). rewrite Nat.sub_0_r, Hs in H2. congruence.
Qed.

(** ** Draining the table *)

(** [a'] differs from [a] only in the cells of a view. *)
Definition untouched (a a' : NDArray Cell) (sh : Shape) : Prop :=
  nd_dims a' = nd_dims a ∧
  ∀ full, in_range (nd_dims a) full → (∀ idx, shape_fill sh idx ≠ Some full) →
    nd_data a' !! flatten (nd_dims a) full = nd_data a !! flatten (nd_dims a) full.

Lemma shape_fill_fix_sub sh l k idx full :
  shape_fill (shape_fix l k sh) idx = Some full → ∃ idx', shape_fill sh idx' = Some full.
Proof.
  revert l idx full. induction sh as [|[x|] sh IH]; intros l idx full.
  - by exists [].
  - cbn [shape_fix shape_fill]. intros (f & Hf & ->)%fmap_Some.
    destruct (IH _ _ _ Hf) as [idx' H']. exists idx'. by rewrite H'.
  - destruct l as [|l]; cbn [shape_fix shape_fill].
    + intros (f & Hf & ->)%fmap_Some. exists (k :: idx). by rewrite Hf.
    + destruct idx as [|i idx]; [done|]. intros (f & Hf & ->)%fmap_Some.
      destruct (IH _ _ _ Hf) as [idx' H']. exists (i :: idx'). by rewrite H'.
Qed.

Lemma untouched_sub a a' sh l k : untouched a a' (shape_fix l k sh) → untouched a a' sh.
Proof.
  intros [Hd Hu]. split; [done|]. intros full Hr Hn. apply Hu; [done|]. intros idx Hi.
  apply shape_fill_fix_sub in Hi as [idx' Hi']. by apply (Hn idx').
Qed.

Lemma untouched_trans a a1 a2 sh : untouched a a1 sh → untouched a1 a2 sh → untouched a a2 sh.
Proof.
  intros [Hd1 H1] [Hd2 H2]. split; [congruence|]. intros full Hr Hn.
  rewrite <-H1 by done. rewrite Hd1 in H2. by apply H2.
Qed.

(** Draining a branch leaves the others as they are. *)
Lemma untouched_content a a' sh pos k j n idx :
  shape_ok (nd_dims a) sh → shape_bounds (nd_dims a) sh !! pos = Some n → k ≠ j → j < n →
  untouched a a' (shape_fix pos k sh) →
  in_range (shape_bounds (nd_dims a) (shape_fix pos j sh)) idx →
  content a' (shape_fix pos j sh) idx = content a (shape_fix pos j sh) idx.
Proof.
  intros Hok Hn Hne Hj [Hd Hu] Hi. unfold content. rewrite Hd.
  destruct (shape_fill_in_range _ _ _ (shape_ok_fix _ _ _ _ _ Hok Hn Hj) Hi) as (full & Hf & Hr).
  rewrite Hf. cbn. apply Hu; [done|]. intros idx' Hf'. apply Hne.
  by apply (shape_fill_fix_inj _ _ _ _ _ _ _ _ _ Hok Hn Hf' Hf).
Qed.

Lemma content_fix a sh pos n k idx :
  shape_ok (nd_dims a) sh → shape_bounds (nd_dims a) sh !! pos = Some n → idx !! pos = Some k →
  content a (shape_fix pos k sh) (delete pos idx) = content a sh idx.
Proof.
  intros Hok Hn Hk. unfold content. pose proof (lookup_lt_Some _ _ _ Hk) as Hl.
  rewrite (shape_fill_fix _ _ _ _ _ _ Hok Hn); cycle 1.
  { rewrite length_delete by by eexists. lia. }
  assert (take pos (delete pos idx) ++ k :: drop pos (delete pos idx) = idx) as ->; [|done].
  rewrite delete_take_drop, take_app_le, take_take, Nat.min_id
    by (rewrite length_take; lia).
  rewrite drop_app_ge by (rewrite length_take; lia). rewrite length_take, Nat.min_l by lia.
  rewrite Nat.sub_diag, drop_0. by apply take_drop_middle.
Qed.

Lemma Forall2_delete' {A B : Type} (P : A → B → Prop) l k i :
  Forall2 P l k → Forall2 P (delete i l) (delete i k).
Proof.
  intros H. rewrite !delete_take_drop. apply Forall2_app; [by apply Forall2_take|].
  by apply Forall2_drop.
Qed.

Lemma index_of_in_range a sh w t idx :
  array_ok (tv_values t) a → view_ok a sh t → index_of w t idx → in_range (bounds t) idx.
Proof.
  intros (_ & Hdims & _) [(Hok & Hb & _) Hmap] Hi. unfold bounds. rewrite Hb.
  apply Forall2_same_length_lookup_2.
  { rewrite <-(length_free_dims 0 _ _ Hok), <-Hmap. by eapply Forall2_length. }
  intros i n k Hn Hk. destruct (Forall2_lookup_r _ _ _ _ _ Hi Hk) as (d & Hd & x & Hx & e & y & He & Hy & _).
  rewrite Hmap in Hd. destruct (free_dims_bounds 0 _ _ _ _ Hok Hd) as [_ Hbd].
  rewrite Hn, Nat.sub_0_r, Hdims, list_lookup_fmap, Hx in Hbd. injection Hbd as ->.
  destruct He as (_ & _ & ->). rewrite length_fmap. by eapply lookup_lt_Some.
Qed.

Lemma index_of_delete w t sub pos idx :
  tv_values sub = tv_values t → dim_map sub = delete pos (dim_map t) → index_of w t idx →
  index_of w sub (delete pos idx).
Proof. intros Hv Hd Hi. unfold index_of. rewrite Hv, Hd. by apply Forall2_delete'. Qed.

Lemma filter_allows_switch w i cases v :
  filter_allows ir inputs w (Switch i cases) v ↔
  ∃ c, c ∈ cases ∧ vs_allows ir inputs w c.1 (w_input w i) ∧ filter_allows ir inputs w c.2 v.
Proof.
  induction cases as [|[g f] cases IH]; cbn.
  - split; [done|]. intros (c & ?%elem_of_nil & _). done.
  - cbn in IH. rewrite IH. split.
    + intros [H|(c & Hc & H)]; [exists (g, f)|exists c]; (split; [|done]); [left|by right].
    + intros (c & [->|Hc]%elem_of_cons & H); [by left|]. right. by exists c.
Qed.

Lemma extract_rules_allows w c v :
  filter_allows ir inputs w (Rules (extract_rules c).1) v ↔ cell_allows ir inputs w c v.
Proof.
  unfold extract_rules, cell_allows. cbn.
  induction c as [|[[conds cs] sets] c IH]; [by split; constructor|]. cbn.
  rewrite Forall_app, Forall_cons, Forall_fmap, IH. cbn.
  assert (Forall ((λ r, rule_allows ir inputs w r v) ∘ (λ alts, mkRule conds alts cs)) sets ↔
    (triggers ir inputs w conds cs → Forall (λ s, vs_allows ir inputs w s v) sets)) as ->; [|done].
  rewrite !Forall_forall. unfold rule_allows. cbn. naive_solver.
Qed.

(** Branches with the same content allow the same values. *)
Lemma same_branch_allows a sh t pos x e subs emp eqv fw inst w v j vp idx c :
  branches a sh t pos x e subs emp eqv fw inst → same_branch eqv j vp → world_ok w →
  j < length subs → vp < length subs → in_range (delete pos (bounds t)) idx →
  content a (shape_fix pos j sh) idx = Some c →
  ∃ c', content a (shape_fix pos vp sh) idx = Some c' ∧
    (cell_allows ir inputs w c v ↔ cell_allows ir inputs w c' v).
Proof.
  intros Hbr [->|He] Hw Hj Hvp Hi Hc; [by exists c|].
  destruct (br_eqv _ _ _ _ _ _ _ _ _ _ _ Hbr j vp idx He Hj Hvp Hi) as
    (c1 & c2 & H1 & H2 & Hwf1 & Hwf2 & Heq).
  rewrite Hc in H1. injection H1 as <-. exists c2. split; [done|]. by apply cell_eqb_allows.
Qed.

(** The filter of a view allows what the cells allow. *)
Definition implements (a : NDArray Cell) (sh : Shape) (t : TableView) (f : SubFilter) : Prop :=
  ∀ w v idx c, world_ok w → inputs_ok ir inputs w → index_of w t idx → content a sh idx = Some c →
    (filter_allows ir inputs w f v ↔ cell_allows ir inputs w c v).

Lemma drain_first_spec a sh t :
  array_ok (tv_values t) a → view_ok a sh t → num_inputs t = 0 →
  ∃ rules a', drain_first a t = Some (rules, a') ∧ array_ok (tv_values t) a' ∧
    untouched a a' sh ∧ implements a sh t (Rules rules).
Proof.
  intros Ha Ht Hn. pose proof Ha as (Hlen & Hdims & Hwf). pose proof Ht as [(Hok & Hb & _) Hmap].
  assert (bounds t = []) as Hnil.
  { unfold bounds. rewrite Hb. apply nil_length_inv. rewrite <-(length_free_dims 0 _ _ Hok), <-Hmap.
    done. }
  destruct (view_index_content a sh t [] Hlen Ht) as (full & c & Hf & Hr & Hfl & Hc & Hcc).
  { rewrite Hnil. constructor. }
  unfold drain_first, view_enumerate_mut. rewrite ndrange_collect_indices. cbn [mbind option_bind].
  fold (bounds t). rewrite Hnil. cbn [indices mapM]. rewrite Hfl. cbn [mbind option_bind]. rewrite Hc.
  cbn. rewrite Hc. cbn. eexists _, _. split; [done|]. split; [|split; [split; [done|]|]].
  - split; [|split]; cbn; [by rewrite length_insert|done|].
    apply Forall_insert; [done|]. constructor.
  - intros full' Hr' Hne. cbn. rewrite list_lookup_insert_ne; [done|]. intros Heq.
    apply (flatten_inj _ _ _ Hr Hr') in Heq as <-. by apply (Hne []).
  - intros w v idx c' Hw Hi Hidx Hc'. unfold index_of in Hidx.
    apply nil_length_inv in Hn. rewrite Hn in Hidx. apply Forall2_nil_inv_l in Hidx as ->.
    rewrite Hcc in Hc'. injection Hc' as <-. apply extract_rules_allows.
Qed.

Section step.
Context (fuel : nat).
Hypothesis IH : ∀ a sh t, num_inputs t < fuel → array_ok (tv_values t) a → values_ok (tv_values t) →
  view_ok a sh t → ∃ f a', truth_table_to_filter fuel a t = Some (f, a') ∧
    array_ok (tv_values t) a' ∧ untouched a a' sh ∧ implements a sh t f.

Lemma cases_spec a sh t pos x e subs emp eqv fw inst cases acc a1 :
  array_ok (tv_values t) a → values_ok (tv_values t) → view_ok a sh t → num_inputs t < S fuel →
  branches a sh t pos x e subs emp eqv fw inst →
  ∀ rest, suffix rest inst → Forall2 (λ i case, case.1 = i.1.1 ∧ case.2 = i.2) rest cases →
  array_ok (tv_values t) a1 → untouched a a1 sh →
  (∀ i idx, i ∈ rest → in_range (delete pos (bounds t)) idx →
    content a1 (shape_fix pos i.1.2 sh) idx = content a (shape_fix pos i.1.2 sh) idx) →
  ∃ fs a', foldM (λ '(sub_filters, a) '(values, view),
      '(f, a) ← truth_table_to_filter fuel a view;
      Some (sub_filters ++ [(values, f)], a)) cases (acc, a1) = Some (acc ++ fs, a') ∧
    array_ok (tv_values t) a' ∧ untouched a a' sh ∧
    Forall2 (λ (i : ValueSet * nat * TableView) (c : ValueSet * SubFilter),
      c.1 = i.1.1 ∧ implements a (shape_fix pos i.1.2 sh) i.2 c.2) rest fs.
Proof.
  intros Ha Hv Ht Hn Hbr rest Hsuf Hcases. revert acc a1 Hsuf.
  pose proof Ht as [(Hok & Hb & _) _]. destruct (br_ok _ _ _ _ _ _ _ _ _ _ _ Hbr) as (Hall & _ & Hsort & _).
  pose proof (br_bound _ _ _ _ _ _ _ _ _ _ _ Hbr) as Hbd. unfold bounds in Hbd. rewrite Hb in Hbd.
  induction Hcases as [|[[vals vp] st] [vals' view] rest cases [Hc1 Hc2] Hcases IHc];
    intros acc a1 Hsuf Ha1 Hu1 Hcont.
  { exists [], a1. rewrite app_nil_r. do 3 (split; [done|]). constructor. }
  cbn in Hc1, Hc2. subst vals' view. rewrite Forall_forall in Hall.
  assert (∀ i, i ∈ (vals, vp, st) :: rest → i ∈ inst) as Hin.
  { intros i Hi. destruct Hsuf as [pre ->]. apply elem_of_app. by right. }
  destruct (Hall _ (Hin _ ltac:(left))) as (X & s & _ & Hvp & Hs & _). cbn in Hvp, Hs.
  destruct (br_sub _ _ _ _ _ _ _ _ _ _ _ Hbr _ _ Hs) as (_ & Hst & Hvst & Hdst). cbn in Hst, Hvst, Hdst.
  assert (nd_dims a1 = nd_dims a) as Hd1 by apply Hu1.
  destruct (br_dim _ _ _ _ _ _ _ _ _ _ _ Hbr) as (d & Hd & _).
  destruct (IH a1 (shape_fix pos vp sh) st) as (f & a2 & Hf & Ha2 & Hu2 & Himp).
  { unfold num_inputs in *. rewrite Hdst, length_delete by by eexists.
    apply lookup_lt_Some in Hd. lia. }
  { by rewrite Hvst. }
  { by rewrite Hvst. }
  { unfold view_ok in *. by rewrite Hd1. }
  cbn [foldM]. rewrite Hf. cbn [mbind option_bind]. rewrite Hvst in Ha2.
  assert (StronglySorted lt (((vals, vp, st) :: rest).*1.*2)) as Hsr.
  { destruct Hsuf as [pre ->]. rewrite !fmap_app in Hsort. by apply StronglySorted_app_1_r in Hsort. }
  cbn in Hsr. apply StronglySorted_cons in Hsr as [Hlt _]. rewrite Forall_forall in Hlt.
  destruct (IHc (acc ++ [(vals, f)]) a2) as (fs & a3 & Hfs & Ha3 & Hu3 & Hall3).
  { destruct Hsuf as [pre ->]. exists (pre ++ [(vals, vp, st)]). by rewrite <-app_assoc. }
  { done. }
  { eapply untouched_trans; [exact Hu1|]. by eapply untouched_sub. }
  { intros i idx Hi Hidx. rewrite <-Hcont by (done || by right).
    destruct (Hall _ (Hin i ltac:(by right))) as (X' & s' & _ & Hvp' & _).
    assert (vp < i.1.2) as Hlti.
    { apply Hlt. by apply list_elem_of_fmap_2, list_elem_of_fmap_2. }
    apply (untouched_content a1 a2 sh pos vp i.1.2 (length subs)); rewrite ?Hd1; try done; [lia|].
    rewrite shape_bounds_fix by done. rewrite <-Hb, <-delete_take_drop. done. }
  exists ((vals, f) :: fs), a3. rewrite Hfs, <-app_assoc. do 3 (split; [done|]).
  constructor; [|done]. cbn. split; [done|]. intros w v idx c Hw Hi Hidx Hcc.
  apply (Himp w v idx c Hw Hi Hidx). rewrite <-Hcc. apply (Hcont (vals, vp, st)); [left|].
  assert (bounds st = delete pos (bounds t)) as <-.
  { destruct Hst as [(_ & Hbs & _) _]. unfold bounds.
    rewrite Hbs, shape_bounds_fix, <-Hb by done. by rewrite delete_take_drop. }
  apply (index_of_in_range a (shape_fix pos vp sh) w); [by rewrite Hvst|done|done].
Qed.
End step.

Lemma content_at_branch a sh t pos x e subs emp eqv fw inst idx k c :
  array_ok (tv_values t) a → view_ok a sh t → in_range (bounds t) idx → idx !! pos = Some k →
  branches a sh t pos x e subs emp eqv fw inst → content a sh idx = Some c →
  k < length subs ∧ in_range (delete pos (bounds t)) (delete pos idx) ∧
  content a (shape_fix pos k sh) (delete pos idx) = Some c.
Proof.
  intros Ha [(Hok & Hb & _) _] Hi Hk Hbr Hc.
  pose proof (br_bound _ _ _ _ _ _ _ _ _ _ _ Hbr) as Hbd.
  destruct (Forall2_lookup_r _ _ _ _ _ Hi Hk) as (n & Hn & Hlt). rewrite Hbd in Hn.
  injection Hn as <-. split; [done|]. split; [by apply Forall2_delete'|].
  rewrite (content_fix a sh pos (length subs)); [done|done| |done]. unfold bounds in Hbd. by rewrite <-Hb.
Qed.

Lemma value_at_unique w x e k y :
  value_at w x k → input_listed x e → value_keys e !! k = Some y → w_input w x.1 = VEnum y.
Proof.
  intros (e' & y' & (He & _) & Hy & Hw) (He' & _) Hk. rewrite He in He'. injection He' as ->.
  congruence.
Qed.

(** The switch on the input of a split allows what the cells allow. *)
Lemma switch_implements a sh t pos x e subs emp eqv fw inst fs :
  array_ok (tv_values t) a → view_ok a sh t →
  branches a sh t pos x e subs emp eqv fw inst →
  Forall2 (λ (i : ValueSet * nat * TableView) (c : ValueSet * SubFilter),
    c.1 = i.1.1 ∧ implements a (shape_fix pos i.1.2 sh) i.2 c.2) inst fs →
  implements a sh t (Switch x.1 fs).
Proof.
  intros Ha Ht Hbr Hfs w v idx c Hw Hi Hidx Hc.
  destruct (br_dim _ _ _ _ _ _ _ _ _ _ _ Hbr) as (d & Hd & Hx).
  pose proof (br_listed _ _ _ _ _ _ _ _ _ _ _ Hbr) as Hlist.
  destruct (br_ok _ _ _ _ _ _ _ _ _ _ _ Hbr) as (Hall & Hcov & _). rewrite Forall_forall in Hall.
  destruct (Forall2_lookup_l _ _ _ _ _ Hidx Hd) as (k & Hk & x' & Hx' & Hval).
  rewrite Hx in Hx'. injection Hx' as <-.
  destruct (content_at_branch _ _ _ _ _ _ _ _ _ _ _ idx k c Ha Ht
    ltac:(by eapply index_of_in_range) Hk Hbr Hc) as (Hkl & Hr & Hck).
  assert (∃ y, value_keys e !! k = Some y) as [y Hy].
  { apply lookup_lt_is_Some. by rewrite <-(br_length _ _ _ _ _ _ _ _ _ _ _ Hbr). }
  pose proof (value_at_unique _ _ _ _ _ Hval Hlist Hy) as Hwx.
  assert (∀ i f X, i ∈ inst → i.1.1 = VSEnum (enum_name e) X ∅ → same_branch eqv k i.1.2 →
    implements a (shape_fix pos i.1.2 sh) i.2 f →
    (filter_allows ir inputs w f v ↔ cell_allows ir inputs w c v)) as Hbranch.
  { intros i f X Hin _ Hsame Himp. destruct (Hall i Hin) as (X' & s & _ & Hvp & Hs & _).
    destruct (same_branch_allows a sh t pos x e subs emp eqv fw inst w v k i.1.2 _ c Hbr Hsame Hw
      Hkl Hvp Hr Hck) as (c' & Hc' & ->).
    apply (Himp w v (delete pos idx)); try done.
    destruct (br_sub _ _ _ _ _ _ _ _ _ _ _ Hbr _ _ Hs) as (_ & _ & Hvs & Hds).
    by apply (index_of_delete w t). }
  rewrite filter_allows_switch. split.
  - intros (cs & Hin & Hg & Hf). apply list_elem_of_lookup in Hin as [j Hj].
    destruct (Forall2_lookup_r _ _ _ _ _ Hfs Hj) as (i & Hij & Hg' & Himp).
    apply list_elem_of_lookup_2 in Hij. destruct (Hall i Hij) as (X & s & HX & _ & _ & _ & Hkeys).
    rewrite Hg', HX, Hwx in Hg. destruct Hg as (z & [= <-] & [Hz|(? & ? & ? & ? & ? & _)]); [|set_solver].
    destruct (Hkeys y Hz) as (j' & Hj' & _ & _ & Hsame).
    destruct Hlist as (_ & Hnd & _). pose proof (NoDup_lookup _ _ _ _ Hnd Hj' Hy) as ->.
    by apply (Hbranch i cs.2 X Hij HX Hsame Himp).
  - intros Hcell. destruct (Hcov k Hkl) as [He|(X & vp & st & y' & Hin & Hy' & HyX & Hsame)].
    { exfalso. revert Hcell. eapply cell_is_empty_allows.
      exact (br_emp _ _ _ _ _ _ _ _ _ _ _ Hbr k _ c He Hkl Hr Hck). }
    rewrite Hy in Hy'. injection Hy' as <-.
    pose proof Hin as Hin'. apply list_elem_of_lookup in Hin' as [j Hj].
    destruct (Forall2_lookup_l _ _ _ _ _ Hfs Hj) as (cs & Hcs & Hg & Himp).
    exists cs. split; [by eapply list_elem_of_lookup_2|]. split.
    + rewrite Hg, Hwx. cbn. exists y. split; [done|]. by left.
    + by apply (Hbranch _ cs.2 X Hin eq_refl Hsame Himp).
Qed.

(** A branch that stands for all the others. *)
Lemma forwards_view a sh t sub :
  array_ok (tv_values t) a → view_ok a sh t → forwards a sh t sub →
  ∃ pos k, view_ok a (shape_fix pos k sh) sub ∧ tv_values sub = tv_values t ∧
    num_inputs sub < num_inputs t ∧
    ∀ f, implements a (shape_fix pos k sh) sub f → implements a sh t f.
Proof.
  intros Ha Ht (pos & x & e & subs & emp & eqv & fw & inst & vp & s & k & Hbr & Hk & Hvp & Hsame).
  destruct (br_sub _ _ _ _ _ _ _ _ _ _ _ Hbr _ _ Hk) as (_ & Hok & Hv & Hd). cbn in Hok, Hv, Hd.
  destruct (br_dim _ _ _ _ _ _ _ _ _ _ _ Hbr) as (d & Hdp & Hx).
  exists pos, k. split; [done|]. split; [done|]. split.
  { unfold num_inputs. rewrite Hd, length_delete by by eexists. apply lookup_lt_Some in Hdp. lia. }
  intros f Himp.
  intros w v idx c Hw Hi Hidx Hc.
  destruct (Forall2_lookup_l _ _ _ _ _ Hidx Hdp) as (kw & Hkw & _).
  destruct (content_at_branch _ _ _ _ _ _ _ _ _ _ _ idx kw c Ha Ht
    ltac:(by eapply index_of_in_range) Hkw Hbr Hc) as (Hkl & Hr & Hck).
  apply lookup_lt_Some in Hk.
  destruct (same_branch_allows a sh t pos x e subs emp eqv fw inst w v kw vp _ c Hbr (Hsame kw Hkl)
    Hw Hkl Hvp Hr Hck) as (c1 & Hc1 & ->).
  assert (∃ ck, content a (shape_fix pos k sh) (delete pos idx) = Some ck) as [ck Hck'].
  { pose proof Ha as (Hlen & _). destruct (view_index_content a _ sub (delete pos idx) Hlen Hok) as
      (full & ck & _ & _ & _ & _ & H); [|by exists ck].
    apply (index_of_in_range a (shape_fix pos k sh) w);
      [by rewrite Hv|done|by apply (index_of_delete w t)]. }
  destruct (same_branch_allows a sh t pos x e subs emp eqv fw inst w v k vp _ ck Hbr (Hsame k Hk)
    Hw Hk Hvp Hr Hck') as (c2 & Hc2 & Heq).
  rewrite Hc1 in Hc2. injection Hc2 as <-. rewrite <-Heq.
  apply (Himp w v (delete pos idx)); try done. by apply (index_of_delete w t).
Qed.

Lemma truth_table_to_filter_spec fuel a sh t :
  num_inputs t < fuel → array_ok (tv_values t) a → values_ok (tv_values t) → view_ok a sh t →
  ∃ f a', truth_table_to_filter fuel a t = Some (f, a') ∧
    array_ok (tv_values t) a' ∧ untouched a a' sh ∧ implements a sh t f.
Proof.
  revert a sh t. induction fuel as [|fuel IH]; intros a sh t Hn Ha Hv Ht; [lia|].
  cbn [truth_table_to_filter]. destruct (Nat.eqb_spec (num_inputs t) 0) as [H0|H0].
  { destruct (drain_first_spec a sh t Ha Ht H0) as (rules & a' & -> & Ha' & Hu & Himp).
    cbn [mbind option_bind]. by exists (Rules rules), a'. }
  destruct (table_min_split_spec a sh t Ha Hv Ht) as (split & -> & Hs); [lia|].
  cbn [mbind option_bind]. destruct split as [input cases|sub].
  - destruct Hs as (pos & x & e & subs & emp & eqv & fw & inst & Hbr & -> & Hcases).
    destruct (cases_spec fuel IH a sh t pos x e subs emp eqv fw inst cases [] a Ha Hv Ht Hn Hbr inst)
      as (fs & a' & Hf & Ha' & Hu & Hall); [done|done|done|by split|done|].
    rewrite Hf. cbn [mbind option_bind app]. exists (Switch x.1 fs), a'.
    do 3 (split; [done|]). by eapply switch_implements.
  - destruct (forwards_view a sh t sub Ha Ht Hs) as (pos & k & Hok & Htv & Hlt & Himp).
    destruct (IH a _ sub ltac:(lia) ltac:(by rewrite Htv) ltac:(by rewrite Htv) Hok) as
      (f & a' & Hf & Ha' & Hu & Hfi). exists f, a'. split; [done|]. rewrite <-Htv. split; [done|].
    split; [by eapply untouched_sub|]. by apply Himp.
Qed.
End filter.

(** ** Building the table *)

Lemma indices_lookup ds idx : in_range ds idx → indices ds !! flatten ds idx = Some idx.
Proof.
  intros Hr. apply elem_of_indices in Hr. apply list_elem_of_lookup in Hr as [i Hi].
  assert ((flatten ds <$> indices ds) !! i = Some (flatten ds idx)) as Hfl
    by by rewrite list_lookup_fmap, Hi.
  rewrite flatten_indices in Hfl. apply lookup_seq in Hfl as [Hfl _]. by rewrite Hfl.
Qed.

Lemma shape_fill_whole l : shape_fill (replicate (length l) None) l = Some l.
Proof. induction l as [|i l IH]; [done|]. cbn. by rewrite IH. Qed.

Section build.
Context (ir : IrDesc) (inputs : list ChoiceInstance) (Hir : desc_ok ir).

(** Every input is a choice of the description, on an enum of the description if any. *)
Definition inputs_declared : Prop :=
  Forall (λ i, ∃ choice, get_choice ir (ci_choice i) = Some choice ∧
    ∀ name, choice_def choice = DefEnum name → is_Some (get_enum ir name)) inputs.

Lemma table_inputs_spec :
  inputs_declared →
  ∃ l, mapM (table_input ir) (enumerate inputs) = Some l ∧ values_ok ir inputs (omap id l).
Proof.
  intros Hd. unfold inputs_declared in Hd. rewrite Forall_lookup in Hd.
  assert (∀ x, x ∈ enumerate inputs → ∃ o, table_input ir x = Some o ∧
    ∀ y, o = Some y → ∃ e, input_listed ir inputs y e) as Hall.
  { intros [i c] Hin. unfold enumerate in Hin. apply list_elem_of_lookup in Hin as [k Hk].
    apply lookup_zip_Some in Hk as [Hi Hc]. apply lookup_seq in Hi as [-> _].
    destruct (Hd _ _ Hc) as (choice & Hch & He). cbn. rewrite Hch. cbn.
    destruct (vs_is_empty (fragile_values choice)); cbn; [|by eexists].
    destruct (choice_def choice) as [name| |] eqn:Edef; [|by eexists|by eexists].
    destruct (He name eq_refl) as [e Hen]. rewrite Hen. cbn. eexists. split; [done|].
    intros y [= <-]. exists e. destruct (Hir name e Hen) as [Hname (Hnd & _)]. split_and!.
    - unfold input_enum. cbn. rewrite Hc. cbn. rewrite Hch. cbn. rewrite Edef. cbn. done.
    - done.
    - cbn. unfold vs_enum_values. by rewrite Hname. }
  clear Hd. revert Hall. generalize (enumerate inputs) as l. induction l as [|x l IH]; intros Hall.
  { exists []. split; [done|constructor]. }
  destruct (Hall x ltac:(left)) as (o & Ho & Hoe).
  destruct IH as (l' & Hl' & Hok); [intros y Hy; apply Hall; by right|].
  exists (o :: l'). cbn [mapM]. rewrite Ho, Hl'. split; [done|]. destruct o as [y|]; cbn; [|done].
  constructor; [by apply Hoe|done].
Qed.

(** The assignment at an index of the table. *)
Lemma table_mapping_spec values index :
  values_ok ir inputs values → in_range ((λ x, length x.2) <$> values) index →
  ∃ m, table_mapping values index = Some m ∧ mapping_ok ir inputs m ∧
    ∀ w, Forall2 (value_at ir inputs w) values index → agrees w m.
Proof.
  intros Hv Hr. unfold table_mapping, zip_eq.
  rewrite (proj2 (Nat.eqb_eq _ _)) by (apply Forall2_length in Hr; by rewrite length_fmap in Hr).
  cbn [mbind option_bind].
  assert (∃ entries, mapM (λ '(idx, (input, sets)), s ← sets !! idx; Some (input, s)) (zip index values)
      = Some entries ∧
    Forall (λ p, ∃ e y, input_enum ir inputs p.1 = Some e ∧ y ∈ value_keys e ∧
      p.2 = VSEnum (enum_name e) {[y]} ∅) entries ∧
    ∀ w, Forall2 (value_at ir inputs w) values index →
      Forall (λ p, ∃ n y, p.2 = VSEnum n {[y]} ∅ ∧ w_input w p.1 = VEnum y) entries)
    as (entries & -> & Hent & Hag).
  { apply Forall2_fmap_l in Hr. revert Hv.
    induction Hr as [|[input sets] k values index Hk _ IH]; intros Hv.
    { exists []. split; [done|]. split; [constructor|]. constructor. }
    apply Forall_cons in Hv as [[e He] Hv]. destruct (IH Hv) as (entries & Hm & Hent & Hag).
    pose proof He as (He1 & Hnd & Hs). cbn in He1, Hs, Hk. rewrite Hs, length_fmap in Hk.
    destruct (lookup_lt_is_Some_2 _ _ Hk) as [y Hy].
    cbn [zip zip_with mapM]. rewrite Hs, list_lookup_fmap, Hy. cbn [fmap option_fmap option_map mbind option_bind].
    rewrite Hm. eexists. split; [done|]. split.
    - constructor; [|done]. exists e, y. split_and!; [done| |done]. by eapply list_elem_of_lookup_2.
    - intros w Hw. apply Forall2_cons in Hw as [Hw1 Hw]. constructor; [|by apply Hag].
      cbn. exists (enum_name e), y. split; [done|].
      rewrite <-Hs in Hw1. exact (value_at_unique ir inputs w (input, sets) e k y Hw1 He Hy). }
  cbn [mbind option_bind]. eexists. split; [done|].
  assert (∀ i s, (list_to_map (reverse entries) : gmap nat ValueSet) !! i = Some s → (i, s) ∈ entries)
    as Hin.
  { intros i s Hs. apply elem_of_list_to_map_2 in Hs. by rewrite elem_of_reverse in Hs. }
  rewrite Forall_forall in Hent. split.
  - intros i s Hs%Hin. destruct (Hent _ Hs) as (e & y & He & Hy & Hse). cbn in He, Hse.
    exists e, y. split_and!; [done| |done|done]. by apply (input_enum_get ir inputs Hir i).
  - intros w Hw i n vs ins Hs%Hin z Hz. specialize (Hag w Hw). rewrite Forall_forall in Hag.
    destruct (Hag _ Hs) as (n' & y & Hse & Hwi). cbn in Hse, Hwi. injection Hse as -> -> ->.
    by apply elem_of_singleton in Hz as ->.
Qed.

Lemma omap_id_Forall {A : Type} (P : A → Prop) (l : list (option A)) :
  Forall P (omap id l) ↔ Forall (from_option P True) l.
Proof.
  induction l as [|[x|] l IH]; cbn; [by split; constructor|by rewrite !Forall_cons, IH|].
  rewrite Forall_cons, IH. cbn. tauto.
Qed.

Lemma table_cell_spec t rules values index :
  Forall (rule_ok ir inputs t) rules → values_ok ir inputs values →
  in_range ((λ x, length x.2) <$> values) index →
  ∃ c, table_cell ir inputs rules values index = Some c ∧ cell_wf c ∧
    ∀ w v, world_ok w → inputs_ok ir inputs w → value_ok ir t v →
      Forall2 (value_at ir inputs w) values index →
      (cell_allows ir inputs w c v ↔ Forall (λ r, rule_allows ir inputs w r v) rules).
Proof.
  intros Hr Hv Hi. destruct (table_mapping_spec values index Hv Hi) as (m & Hm & Hmok & Hag).
  unfold table_cell. rewrite Hm. cbn [mbind option_bind].
  assert (∃ l, mapM (rule_instantiate ir inputs m) rules = Some l ∧
    Forall (rule_ok ir inputs t) (omap id l) ∧
    ∀ w v, inputs_ok ir inputs w → agrees w m → value_ok ir t v →
      (Forall (λ r, rule_allows ir inputs w r v) rules ↔
       Forall (λ r, rule_allows ir inputs w r v) (omap id l))) as (l & -> & Hl & Hx).
  { induction Hr as [|r rules Hr _ (l & Hl & Hlok & Hlx)].
    { exists []. split; [done|]. split; [constructor|]. by split; constructor. }
    destruct (rule_instantiate_exact ir inputs Hir t m r Hr Hmok) as (o & Ho & Hok & Hox).
    exists (o :: l). cbn [mapM]. rewrite Ho, Hl. split; [done|].
    rewrite omap_id_Forall, Forall_cons, <-omap_id_Forall. split; [done|].
    intros w v Hw Ha Hvo. rewrite omap_id_Forall, !Forall_cons, <-omap_id_Forall.
    by rewrite (Hox w v Hw Ha Hvo), (Hlx w v Hw Ha Hvo). }
  cbn [mbind option_bind].
  destruct (cell_build_exact ir inputs Hir t _ Hl) as (c & Hc & Hwf & _ & Hcx).
  exists c. split; [done|]. split; [done|]. intros w v Hw Hi' Hvo Hat.
  rewrite (Hcx w v Hw Hi'). symmetry. apply Hx; auto.
Qed.
Lemma world_index values w :
  values_ok ir inputs values → inputs_ok ir inputs w → ∃ idx, Forall2 (value_at ir inputs w) values idx.
Proof.
  intros Hv Hi. induction Hv as [|x vals [e He] _ [idx IH]]; [by exists []|].
  pose proof He as (He' & _). destruct (Hi _ _ He') as (y & Hwy & Hy).
  apply list_elem_of_lookup in Hy as [k Hk]. exists (k :: idx). constructor; [|done].
  exists e, y. done.
Qed.

Lemma world_index_in_range values w idx :
  Forall2 (value_at ir inputs w) values idx → in_range ((λ x, length x.2) <$> values) idx.
Proof.
  intros Hidx. apply Forall2_fmap_l. eapply Forall2_impl; [exact Hidx|].
  intros x k (e & y & (_ & _ & Hx) & Hy & _). cbn. rewrite Hx, length_fmap.
  by eapply lookup_lt_Some.
Qed.

(** The cell at the index of a world is equivalent to the rules in this world. *)
Lemma table_build_spec t rules :
  inputs_declared → Forall (rule_ok ir inputs t) rules →
  ∃ tbl, table_build ir inputs rules = Some tbl ∧ values_ok ir inputs (tt_values tbl) ∧
    array_ok (tt_values tbl) (tt_rules tbl) ∧
    ∀ w v idx c, world_ok w → inputs_ok ir inputs w → value_ok ir t v →
      Forall2 (value_at ir inputs w) (tt_values tbl) idx →
      nd_data (tt_rules tbl) !! flatten (nd_dims (tt_rules tbl)) idx = Some c →
      (cell_allows ir inputs w c v ↔ Forall (λ r, rule_allows ir inputs w r v) rules).
Proof.
  intros Hin Hr. destruct (table_inputs_spec Hin) as (l & Hl & Hv). unfold table_build.
  rewrite Hl. cbn [mbind option_bind]. set (values := omap id l) in *.
  set (sizes := (λ x : nat * list ValueSet, length x.2) <$> values).
  rewrite ndrange_collect_indices. cbn [mbind option_bind].
  pose proof (λ index Hi, table_cell_spec t rules values index Hr Hv
    (proj1 (elem_of_indices sizes index) Hi)) as Hcell.
  rewrite (mapM_total _ (λ index, default [] (table_cell ir inputs rules values index)));
    [|by intros index Hi; destruct (Hcell index Hi) as (c & -> & _)].
  cbn [mbind option_bind]. set (data := _ <$> indices sizes).
  assert (@length Cell data = product sizes) as Hlen
    by (unfold data; rewrite length_fmap; apply length_indices).
  unfold nd_new, rassert. rewrite Hlen, Nat.eqb_refl. cbn [mbind option_bind].
  eexists. split; [done|]. split; [done|]. split.
  { split; [done|]. split; [done|]. apply Forall_fmap, Forall_forall. intros index Hi. cbn.
    destruct (Hcell index Hi) as (c & -> & Hwf & _). done. }
  cbn [tt_values tt_rules nd_data nd_dims]. intros w v idx c Hw Hi Hvo Hidx Hc.
  pose proof (world_index_in_range _ _ _ Hidx) as Hr'. unfold data in Hc.
  rewrite list_lookup_fmap, (indices_lookup sizes idx Hr') in Hc. injection Hc as <-.
  destruct (Hcell idx) as (c & Hc & _ & Hcx); [by apply elem_of_indices|]. rewrite Hc. cbn.
  by apply Hcx.
Qed.
End build.

(** [opt_rules] neither panics nor changes what the rules allow. *)
Lemma opt_rules_exact (ir : IrDesc) (inputs : list ChoiceInstance) (t : ValueType)
    (rules : list Rule) :
  desc_ok ir → inputs_declared ir inputs → Forall (rule_ok ir inputs t) rules →
  ∃ f, opt_rules ir inputs rules = Some f ∧
    ∀ w v, world_ok w → inputs_ok ir inputs w → value_ok ir t v →
      (filter_allows ir inputs w f v ↔ Forall (λ r, rule_allows ir inputs w r v) rules).
Proof.
  intros Hir Hin Hr. unfold opt_rules. destruct (length rules =? 1).
  { exists (Rules rules). done. }
  destruct (table_build_spec ir inputs Hir t rules Hin Hr) as (tbl & -> & Hv & Ha & Hx).
  cbn [mbind option_bind]. pose proof Ha as (_ & Hdims & _).
  assert (length (nd_dims (tt_rules tbl)) = length (tt_values tbl)) as Hsz
    by by rewrite Hdims, length_fmap.
  destruct (truth_table_to_filter_spec ir inputs (S (length (tt_values tbl))) (tt_rules tbl)
    (replicate (length (nd_dims (tt_rules tbl))) None) (table_view tbl)) as (f & a' & Hf & _ & _ & Himp).
  { unfold num_inputs. cbn. rewrite length_seq. lia. }
  { done. }
  { done. }
  { split; [apply (view_shape_initial (tt_rules tbl))|]. cbn. by rewrite free_dims_whole, Hsz. }
  rewrite Hf. cbn [mbind option_bind]. exists f. split; [done|]. intros w v Hw Hi Hvo.
  destruct (world_index ir inputs _ w Hv Hi) as [idx Hidx].
  pose proof (world_index_in_range _ _ _ _ _ Hidx) as Hr'. rewrite <-Hdims in Hr'.
  destruct (lookup_lt_is_Some_2 (nd_data (tt_rules tbl)) (flatten (nd_dims (tt_rules tbl)) idx))
    as [c Hc].
  { destruct Ha as [-> _]. by apply flatten_bound. }
  rewrite <-(Hx w v idx c Hw Hi Hvo Hidx Hc). apply (Himp w v idx c Hw Hi).
  - apply Forall2_same_length_lookup_2.
    { cbn. rewrite length_seq. by eapply Forall2_length. }
    intros i d k Hd Hk. apply lookup_seq in Hd as [-> _].
    destruct (Forall2_lookup_r _ _ _ _ _ Hidx Hk) as (x & Hx' & Hval). by exists x.
  - unfold content. rewrite (Forall2_length _ _ _ Hr'), shape_fill_whole. exact Hc.
Qed.

(** Without inputs there is nothing to test. *)
Lemma opt_rules_no_inputs ir rules f : opt_rules ir [] rules = Some f → ∃ rs, f = Rules rs.
Proof.
  unfold opt_rules. destruct (length rules =? 1); [intros [= <-]; by eexists|].
  destruct (table_build ir [] rules) as [tbl|] eqn:E; [|done]. cbn [mbind option_bind].
  assert (tt_values tbl = []) as Hv.
  { unfold table_build in E. apply bind_Some in E as (values & Ev & E). injection Ev as <-.
    apply bind_Some in E as (indexes & _ & E). apply bind_Some in E as (data & _ & E).
    apply bind_Some in E as (a & _ & E). by injection E as <-. }
  unfold table_view. rewrite Hv. cbn [length truth_table_to_filter num_inputs dim_map seq Nat.eqb].
  destruct (drain_first _ _) as [[rs a]|]; [|done]. cbn. intros [= <-]. by eexists.
Qed.

(** C9: The truth table is exact: for well-typed rules on declared inputs, [opt_rules]
    returns a filter without panicking, and in every world (an assignment of values to
    the inputs, of booleans and integers to the host code and of objects to the sets)
    the filter allows exactly the values that every rule allows.  This covers the
    instantiation and normalisation of the rules, their merge into cells, the merge of
    equal branches, the inputs that are skipped and the cells drained through aliased
    views. *)
Theorem opt_rules_correct (ir : IrDesc) (inputs : list ChoiceInstance) (t : ValueType)
    (rules : list Rule) :
  desc_ok ir → inputs_declared ir inputs → Forall (rule_ok ir inputs t) rules →
  ∃ f, opt_rules ir inputs rules = Some f ∧
    ∀ w v, world_ok w → inputs_ok ir inputs w → value_ok ir t v →
      (filter_allows ir inputs w f v ↔ Forall (λ r, rule_allows ir inputs w r v) rules).
Proof. apply opt_rules_exact. Qed.

(** The representation of the tests: three enums, and a choice on each. *)
Definition ex_enum (name : string) (n : nat) : Enum :=
  mkEnum name None ((λ i, ((name +:+ "_" +:+ pretty.pretty i)%string, None)) <$> seq 0 n) [] None.

Definition ex_choice (name enum : string) : Choice :=
  mkChoice name None (Plain []) (DefEnum enum) [] [] [] (VSEnum enum ∅ ∅).

Definition ex_desc : IrDesc :=
  mkIrDesc [("enum_b", ex_choice "enum_b" "B"); ("enum_c", ex_choice "enum_c" "C")]%string
    [("A", ex_enum "A" 4); ("B", ex_enum "B" 3); ("C", ex_enum "C" 3)]%string [] [].

Definition ex_inputs : list ChoiceInstance :=
  [mkChoiceInstance "enum_b" []; mkChoiceInstance "enum_c" []].

Definition ex_rules : list Rule :=
  [mkRule [CEnum 0 {["B_0"]} false false] (VSEnum "A" {["A_0"; "A_1"]} ∅) [];
   mkRule [CEnum 0 {["B_1"]} false false; CEnum 1 {["C_0"; "C_1"]} false false]
     (VSEnum "A" {["A_1"; "A_2"]} ∅) [];
   mkRule [CEnum 0 {["B_0"]} true false; CEnum 1 {["C_1"; "C_2"]} false false;
           CCode (mkCode "code_0" []) false]
     (VSEnum "A" {["A_2"; "A_3"]} ∅) []]%string.

(** The host code [code_0] is true; code with variables is not. *)
Definition ex_world : World :=
  mkWorld (λ i, VEnum (if i =? 0 then "B_1"%string else "C_1"%string))
    (λ c, bool_decide (code_vars c = []) && bool_decide (code c = "code_0"%string))
    (λ _, 7%Z) (λ _ _, True).

Lemma rdedup_nil {A : Type} `{EqDecision A} (l : list A) : rdedup l = [] → l = [].
Proof.
  induction l as [|x [|y l] IH]; [done|done|]. cbn [rdedup]. case_decide; [|done].
  intros Hn. by specialize (IH Hn).
Qed.

Lemma code_normalize_vars c : code_vars (code_normalize c) = [] ↔ code_vars c = [].
Proof.
  destruct c as [text vars]. unfold code_normalize. cbn.
  set (f := λ '(text, vars) '(var, old_name), _).
  assert (∀ l t acc, length (foldl f (t, acc) l).2 = length acc + length l) as Hlen.
  { induction l as [|[v n] l IH]; intros t acc; cbn; [lia|]. rewrite IH, length_app. cbn. lia. }
  specialize (Hlen vars text []). destruct (foldl f (text, []) vars) as [text' vars'] eqn:E.
  cbn in Hlen |- *. split.
  - intros Hd. destruct (rsort_by_key fst vars') as [|x l] eqn:Es.
    + pose proof (rsort_by_key_perm fst vars') as Hp. rewrite Es in Hp.
      apply Permutation_nil in Hp. subst vars'. by destruct vars.
    + by apply rdedup_nil in Hd.
  - intros ->. cbn in E. by injection E as <- <-.
Qed.

Lemma ex_world_ok : world_ok ex_world.
Proof.
  split; [|done|done]. intros [text [|v vars]]; [done|]. cbn -[code_normalize].
  rewrite !(bool_decide_ext _ _ (code_normalize_vars _)). done.
Qed.

Lemma opt_rules_correct_witness :
  ∃ f, opt_rules ex_desc ex_inputs ex_rules = Some f ∧
    (filter_allows ex_desc ex_inputs ex_world f (VEnum "A_2") ↔
     Forall (λ r, rule_allows ex_desc ex_inputs ex_world r (VEnum "A_2")) ex_rules).
Proof.
  destruct (opt_rules_correct ex_desc ex_inputs (TyEnum "A") ex_rules) as (f & Hf & Hx).
  - intros n e He. apply im_get_elem, list_elem_of_In in He.
    destruct He as [He|[He|[He|[]]]]; injection He as <- <-;
      (split; [reflexivity|]; apply (bool_decide_unpack _); vm_compute; exact I).
  - repeat constructor; eexists; (split; [reflexivity|]); intros n [= <-]; by eexists.
  - repeat constructor; try (by eexists); vm_compute; (split; [reflexivity|]); eexists;
      (split; [reflexivity|]); intros i neg inv Hj; by apply not_elem_of_empty in Hj.
  - exists f. split; [exact Hf|]. apply Hx.
    + apply ex_world_ok.
    + intros [|[|i]] e He; vm_compute in He; try discriminate He; injection He as <-;
        eexists; (split; [reflexivity|]); apply (bool_decide_unpack _); vm_compute; exact I.
    + eexists. split; [reflexivity|]. apply (bool_decide_unpack _). vm_compute. exact I.
Defined.
