(* ===== verification/Adapting.v ===== *)
(** * The meaning of renamed conditions, value sets and rules

    An adaptator renames the variables and the inputs of a condition; an input may also
    be inversed.  What is renamed means in a world what the original means in the world
    seen through the adaptator.  The second half builds the worlds of an environment,
    which gives objects to variables, from values for the instances of the choices. *)
From S2P Require Import Prelude Utils Orders GenSets Filters FilterSemantics.

(** The inputs that a condition and a value set read. *)
Definition cond_uses (c : Condition) : list nat :=
  match c with
  | CCode _ _ | CBool _ => []
  | CEnum input _ _ _ => [input]
  | CCmpCode lhs _ _ => [lhs]
  | CCmpInput lhs rhs _ _ => [lhs; rhs]
  end.

Definition vs_uses (s : ValueSet) : list nat :=
  match s with
  | VSEnum _ _ inputs => (λ i, i.1.1) <$> elements inputs
  | VSInteger _ cmp_inputs _ _ => snd <$> elements cmp_inputs
  end.

Definition rule_uses (r : Rule) : list nat :=
  (conditions r ≫= cond_uses) ++ vs_uses (alternatives r).

(** * Renaming *)
Section renaming.
Context (ir : IrDesc) (inputs inputs' : list ChoiceInstance) (a : Adaptator).

(** The adaptator keeps the type of the inputs in [uses], and only inverses enums. *)
Definition renames (uses : list nat) : Prop :=
  Forall (λ i, let '(j, inversed) := adaptator_input a i in
    input_enum ir inputs' j = input_enum ir inputs i ∧
    (inversed = true → is_Some (input_enum ir inputs i))) uses.

(** World [w] is what [w'] is seen through the adaptator, on the inputs in [uses]. *)
Record sees (uses : list nat) (w w' : World) : Prop := {
  sees_input : Forall (λ i, let '(j, inversed) := adaptator_input a i in
    w_input w i = input_value ir inputs' w' inversed j) uses;
  sees_code c : w_code w c = w_code w' (code_adapt a c);
  sees_num c : w_num w c = w_num w' (code_adapt a c);
  sees_set v s : w_set w v s ↔ w_set w' (adaptator_variable a v) (set_adapt a s)
}.
End renaming.

Lemma singleton_uses (i : nat) l : i ∈ l → [i] ⊆ l.
Proof. intros Hi j ->%list_elem_of_singleton. done. Qed.

Section exact.
Context (ir : IrDesc) (Hir : desc_ok ir) (inputs inputs' : list ChoiceInstance) (a : Adaptator).
#[local] Notation renames := (renames ir inputs inputs' a).
#[local] Notation sees := (sees ir inputs' a).
Implicit Types (w : World).

Lemma renames_app l k : renames (l ++ k) ↔ renames l ∧ renames k.
Proof. apply Forall_app. Qed.

Lemma sees_app l k w w' : sees (l ++ k) w w' → sees l w w' ∧ sees k w w'.
Proof. intros [[H1 H2]%Forall_app ? ? ?]. by split; constructor. Qed.

Lemma renames_sub l k : l ⊆ k → renames k → renames l.
Proof. unfold renames. rewrite !Forall_forall. set_solver. Qed.

Lemma sees_sub l k w w' : l ⊆ k → sees k w w' → sees l w w'.
Proof.
  intros Hl [Hi ? ? ?]. constructor; try done. revert Hi. rewrite !Forall_forall. set_solver.
Qed.

(** The value of an enum input, read with or without inversion. *)
Lemma input_value_sees w w' i j b inverse e x :
  input_enum ir inputs i = Some e → input_enum ir inputs' j = Some e →
  w_input w i = input_value ir inputs' w' b j → w_input w' j = VEnum x →
  input_value ir inputs w inverse i = VEnum (if xorb inverse b then enum_inverse e x else x).
Proof.
  intros Hi Hj Hw Hx. destruct (input_enum_get _ _ Hir i e Hi) as [_ Hok].
  unfold input_value, inverse_value in *. rewrite Hj, Hx in Hw. rewrite Hw, Hi.
  destruct inverse, b; cbn; [|done..]. by rewrite enum_inverse_involutive.
Qed.

Lemma enum_inverse_sides e b br x y :
  enum_ok e →
  (if xorb b br then enum_inverse e x else x) = y ↔
  (if b then enum_inverse e x else x) = (if br then enum_inverse e y else y).
Proof.
  intros Hok. pose proof (enum_inverse_involutive e Hok) as Hi.
  destruct b, br; cbn; split; intros E; try done; try congruence.
Qed.

Lemma cond_adapt_exact c :
  cond_ok ir inputs c → renames (cond_uses c) →
  ∃ c', cond_adapt a c = Some c' ∧ cond_ok ir inputs' c' ∧
    (∀ i, i ∈ cond_uses c' → ∃ k, k ∈ cond_uses c ∧ (adaptator_input a k).1 = i) ∧
    ∀ w w', sees (cond_uses c) w w' → inputs_ok ir inputs' w' →
      cond_holds ir inputs' w' c' = cond_holds ir inputs w c.
Proof.
  intros Hc Hr. destruct c as [code neg|i values neg inv|b|lhs rhs op|lhs rhs op inv];
    cbn [cond_adapt cond_uses] in *.
  - eexists. split; [done|]. split; [done|]. split; [set_solver|]. intros w w' Hw _. cbn.
    by rewrite (sees_code _ _ _ _ _ _ Hw).
  - apply Forall_inv in Hr. destruct (adaptator_input a i) as [j b] eqn:Ej.
    destruct Hr as [He Hb]. destruct Hc as [e Hc].
    eexists. split; [done|]. split; [exists e; by rewrite He|]. split.
    { intros k. cbn. rewrite list_elem_of_singleton. intros ->. exists i.
      rewrite Ej. split; [set_solver|done]. }
    intros w w' Hw Hi. cbn [cond_holds]. rewrite Hc in He.
    destruct (input_value_enum _ _ w' (xorb inv b) j e Hi He) as (x & Hx & _ & _).
    pose proof (sees_input _ _ _ _ _ _ Hw) as Hs. apply Forall_inv in Hs. rewrite Ej in Hs.
    rewrite (input_value_sees w w' i j b inv e x Hc He Hs Hx).
    unfold input_value, inverse_value. rewrite He, Hx. by destruct (xorb inv b).
  - eexists. split; [done|]. split; [done|]. split; [set_solver|]. done.
  - apply Forall_inv in Hr. destruct (adaptator_input a lhs) as [j b] eqn:Ej.
    destruct Hr as [He Hb]. cbn in Hc. destruct b; [destruct (Hb eq_refl); congruence|].
    eexists. split; [done|]. split; [cbn; congruence|]. split.
    { intros k. cbn. rewrite list_elem_of_singleton. intros ->. exists lhs.
      rewrite Ej. split; [set_solver|done]. }
    intros w w' Hw Hi. cbn [cond_holds].
    pose proof (sees_input _ _ _ _ _ _ Hw) as Hs. apply Forall_inv in Hs. rewrite Ej in Hs.
    rewrite Hs. cbn. by rewrite (sees_num _ _ _ _ _ _ Hw).
  - apply Forall_cons in Hr as [Hl Hr%Forall_inv].
    destruct (adaptator_input a lhs) as [jl bl] eqn:El, (adaptator_input a rhs) as [jr br] eqn:Er.
    destruct Hl as [Hel Hbl], Hr as [Her Hbr], Hc as (He & Hinv & Hop).
    eexists. split; [done|]. split.
    { cbn. rewrite Hel, Her. split; [done|]. split; [|done].
      destruct inv, bl, br; cbn; intros; try done; try (by apply Hinv); try (by apply Hbl);
        rewrite He; by apply Hbr. }
    split.
    { intros k. cbn. rewrite elem_of_cons, list_elem_of_singleton.
      intros [->| ->]; [exists lhs; rewrite El|exists rhs; rewrite Er]; (split; [set_solver|done]). }
    intros w w' Hw Hi. cbn [cond_holds].
    pose proof (sees_input _ _ _ _ _ _ Hw) as [Hsl Hsr%Forall_inv]%Forall_cons.
    rewrite El in Hsl. rewrite Er in Hsr.
    destruct (input_enum ir inputs lhs) as [e|] eqn:Ei.
    + symmetry in He. rewrite He in Her.
      destruct (input_enum_get _ _ Hir lhs e Ei) as [_ Hok].
      destruct (input_value_enum _ _ w' (xorb (xorb inv bl) br) jl e Hi Hel) as (x & Hx & _ & ->).
      destruct (input_value_enum _ _ w' br jr e Hi Her) as (y & Hy & _ & Hy').
      rewrite (input_value_sees w w' lhs jl bl inv e x Ei Hel Hsl Hx), Hsr, Hy', Hy.
      pose proof (enum_inverse_sides e (xorb inv bl) br x y Hok) as Hs.
      destruct (Hop ltac:(by eexists)) as [->| ->]; cbn; [|f_equal]; by apply bool_decide_ext.
    + destruct bl; [by destruct (Hbl eq_refl)|]. destruct br; [rewrite <-He in Hbr; by destruct (Hbr eq_refl)|].
      destruct inv; [by destruct (Hinv eq_refl)|]. cbn [xorb]. cbn. by rewrite Hsl, Hsr.
Qed.

Lemma input_allows_adapt w w' i neg inv e x :
  input_enum ir inputs i = Some e → renames [i] → sees [i] w w' → inputs_ok ir inputs' w' →
  input_allows ir inputs' w' (adapt_enum_input a (i, neg, inv)) x ↔
  input_allows ir inputs w (i, neg, inv) x.
Proof.
  intros Hi Hr Hw Hin. apply Forall_inv in Hr.
  pose proof (Forall_inv (sees_input _ _ _ _ _ _ Hw)) as Hs. unfold adapt_enum_input.
  cbn beta in Hs.
  destruct (adaptator_input a i) as [j b]. destruct Hr as [He _]. rewrite Hi in He.
  destruct (input_value_enum _ _ w' (xorb inv b) j e Hin He) as (y & Hy & _ & Hv).
  unfold input_allows. cbn [fst snd].
  by rewrite Hv, (input_value_sees w w' i j b inv e y Hi He Hs Hy).
Qed.

Lemma mapM_adapt_cmp_input l :
  (∀ op i, (op, i) ∈ l → (adaptator_input a i).2 = false) →
  mapM (adapt_cmp_input a) l = Some ((λ x, (x.1, (adaptator_input a x.2).1)) <$> l).
Proof.
  induction l as [|[op i] l IH]; intros Hl; [done|]. cbn [mapM adapt_cmp_input].
  pose proof (Hl op i ltac:(left)) as Hi. destruct (adaptator_input a i) as [j b] eqn:Ej.
  cbn in Hi. subst b. cbn [mbind option_bind]. rewrite IH by (intros op' i' ?; apply (Hl op'); by right).
  cbn. by rewrite Ej.
Qed.

Lemma elem_of_vs_uses_integer f ci cc u op i :
  (op, i) ∈ ci → i ∈ vs_uses (VSInteger f ci cc u).
Proof. intros H. cbn. apply list_elem_of_fmap. exists (op, i). by rewrite elem_of_elements. Qed.

(** What [vs_adapt] promises on one value set. *)
Definition adapts_vs (t : ValueType) (s : ValueSet) : Prop :=
  ∃ s', vs_adapt a s = Some s' ∧ vs_ok ir inputs' (value_type_adapt a t) s' ∧
    (∀ i, i ∈ vs_uses s' → ∃ k, k ∈ vs_uses s ∧ (adaptator_input a k).1 = i) ∧
    ∀ w w' v, sees (vs_uses s) w w' → inputs_ok ir inputs' w' →
      (vs_allows ir inputs' w' s' v ↔ vs_allows ir inputs w s v).

Lemma vs_adapt_enum name values ins e :
  get_enum ir name = Some e →
  (∀ i neg inv, (i, neg, inv) ∈ ins → input_enum ir inputs i = Some e) →
  renames (vs_uses (VSEnum name values ins)) → adapts_vs (TyEnum name) (VSEnum name values ins).
Proof.
  intros He Hins Hr.
  assert (∀ i neg inv, (i, neg, inv) ∈ ins → [i] ⊆ vs_uses (VSEnum name values ins)) as Huse.
  { intros i neg inv Hi. apply singleton_uses, list_elem_of_fmap. exists (i, neg, inv).
    by rewrite elem_of_elements. }
  assert (∀ i neg inv, (i, neg, inv) ∈ ins → renames [i]) as Hr1
    by (intros i neg inv Hi; by eapply renames_sub, Hr; eapply Huse).
  eexists. split; [done|]. split; [|split].
  - split; [done|]. exists e. split; [done|]. intros i neg inv.
    rewrite elem_of_map. intros ([[i' neg'] inv'] & E & Hi).
    specialize (Hr1 _ _ _ Hi). apply Forall_inv in Hr1. unfold adapt_enum_input in E.
    destruct (adaptator_input a i') as [j b]. injection E as -> -> ->. destruct Hr1 as [-> _].
    by apply (Hins i' neg' inv').
  - intros i. cbn [vs_uses]. rewrite list_elem_of_fmap.
    intros ([[i1 neg] inv] & -> & Hi%elem_of_elements).
    apply elem_of_map in Hi as ([[k ng] iv] & E & Hi).
    exists k. split; [apply (Huse k ng iv Hi); left|]. unfold adapt_enum_input in E.
    destruct (adaptator_input a k). by injection E.
  - intros w w' v Hw Hin. rewrite !vs_allows_enum. unfold enum_allows. setoid_rewrite elem_of_map.
    assert (∀ i neg inv x, (i, neg, inv) ∈ ins →
      input_allows ir inputs' w' (adapt_enum_input a (i, neg, inv)) x ↔
      input_allows ir inputs w (i, neg, inv) x) as Hx.
    { intros i neg inv x Hi. apply (input_allows_adapt w w' i neg inv e x);
        [by apply (Hins i neg inv)|by apply (Hr1 i neg inv)|by eapply sees_sub, Hw; eapply Huse|done]. }
    split; intros (x & -> & [Hv|Hv]); exists x; (split; [done|]); [by left| |by left|]; right.
    + destruct Hv as (j & ([[i neg] inv] & -> & Hi) & Ha). exists (i, neg, inv).
      split; [done|]. by apply Hx.
    + destruct Hv as ([[i neg] inv] & Hi & Ha). exists (adapt_enum_input a (i, neg, inv)).
      split; [by exists (i, neg, inv)|]. by apply Hx.
Qed.

Lemma elem_of_adapted_inputs (ci : gset (CmpOp * nat)) op j :
  (op, j) ∈ (list_to_set ((λ x, (x.1, (adaptator_input a x.2).1)) <$> elements ci) : gset (CmpOp * nat)) ↔
  ∃ i, (op, i) ∈ ci ∧ (adaptator_input a i).1 = j.
Proof.
  rewrite elem_of_list_to_set, list_elem_of_fmap. split.
  - intros ([op' k] & [= -> ->] & Hk%elem_of_elements). by exists k.
  - intros (i & Hi & <-). exists (op, i). by rewrite elem_of_elements.
Qed.

Lemma vs_adapt_integer t f ci cc u :
  vs_ok ir inputs t (VSInteger f ci cc u) → renames (vs_uses (VSInteger f ci cc u)) →
  adapts_vs t (VSInteger f ci cc u).
Proof.
  intros Hs Hr.
  assert (∀ op i, (op, i) ∈ ci → [i] ⊆ vs_uses (VSInteger f ci cc u)) as Huse
    by (intros op i Hi; by apply singleton_uses, (elem_of_vs_uses_integer f ci cc u op)).
  assert (∀ op i, (op, i) ∈ ci → input_enum ir inputs' (adaptator_input a i).1 = None ∧
    (adaptator_input a i).2 = false) as Hj.
  { intros op i Hi. assert (input_enum ir inputs i = None) as He by (destruct t; try done; by apply (Hs op)).
    pose proof (Forall_inv (renames_sub _ _ (Huse _ _ Hi) Hr)) as Hr1. cbn beta in Hr1.
    destruct (adaptator_input a i) as [j []]; cbn; destruct Hr1 as [He' Hb]; rewrite He in *; [|done].
    by destruct (Hb eq_refl). }
  unfold adapts_vs. cbn [vs_adapt].
  rewrite mapM_adapt_cmp_input by (intros op i Hi%elem_of_elements; by apply (Hj op)).
  cbn [mbind option_bind]. eexists. split; [done|]. split; [|split].
  - destruct t as [|[]| |]; try done; cbn; intros op i (k & Hk & <-)%elem_of_adapted_inputs;
      by apply (Hj op).
  - intros i. cbn [vs_uses]. rewrite list_elem_of_fmap.
    intros ([op j] & -> & (k & Hk & Hkj)%elem_of_elements%elem_of_adapted_inputs).
    exists k. split; [by apply (elem_of_vs_uses_integer f ci cc u op)|done].
  - intros w w' v Hw Hin. cbn [vs_allows].
    assert (∀ op i, (op, i) ∈ ci → w_input w i = w_input w' (adaptator_input a i).1) as Hwi.
    { intros op i Hi. pose proof (Forall_inv (sees_input _ _ _ _ _ _ (sees_sub _ _ _ _ (Huse _ _ Hi) Hw))) as Hs1.
      destruct (Hj op i Hi) as [_ Hb]. cbn beta in Hs1.
      destruct (adaptator_input a i) as [j b]. cbn in *. by subst b. }
    split; intros (n & -> & [Hf|[(op & i & Hi & Ho)|(op & c & Hc & Ho)]]); exists n; (split; [done|]);
      try (by left); right.
    + left. apply elem_of_adapted_inputs in Hi as (k & Hk & <-). exists op, k. by rewrite (Hwi op k Hk).
    + right. apply elem_of_map in Hc as ([op' c'] & [= -> ->] & Hc). exists op', c'. split; [done|].
      cbn in Ho. by rewrite (sees_num _ _ _ _ _ _ Hw).
    + left. exists op, (adaptator_input a i).1. split; [|by rewrite <-(Hwi op i Hi)].
      apply elem_of_adapted_inputs. by exists i.
    + right. exists op, (code_adapt a c). split; [by apply elem_of_map; exists (op, c)|].
      by rewrite <-(sees_num _ _ _ _ _ _ Hw).
Qed.

Lemma vs_adapt_exact t s : vs_ok ir inputs t s → renames (vs_uses s) → adapts_vs t s.
Proof.
  intros Hs Hr. destruct s as [n values ins|f ci cc u]; [|by apply vs_adapt_integer].
  destruct t as [name| | |]; try done. destruct Hs as (-> & e & He & Hins).
  by apply (vs_adapt_enum name values ins e).
Qed.

(** Renaming a rule. *)
Lemma conds_adapt_exact conds :
  Forall (cond_ok ir inputs) conds → renames (conds ≫= cond_uses) →
  ∃ l, mapM (cond_adapt a) conds = Some l ∧ Forall (cond_ok ir inputs') l ∧
    (∀ i, i ∈ l ≫= cond_uses → ∃ k, k ∈ conds ≫= cond_uses ∧ (adaptator_input a k).1 = i) ∧
    ∀ w w', sees (conds ≫= cond_uses) w w' → inputs_ok ir inputs' w' →
      (λ c, cond_holds ir inputs' w' c) <$> l = (λ c, cond_holds ir inputs w c) <$> conds.
Proof.
  induction 1 as [|c conds Hc _ IH]; intros Hr.
  { exists []. split_and!; [done|done|set_solver|done]. }
  cbn in Hr. apply renames_app in Hr as [Hr1 Hr2].
  destruct (cond_adapt_exact c Hc Hr1) as (c' & Ea & Hok & Hu & Hh), (IH Hr2) as (l & El & Hl & Hus & Hhs).
  exists (c' :: l). cbn [mapM]. rewrite Ea, El. split; [done|]. split; [by constructor|]. split.
  - intros i. cbn. rewrite elem_of_app. intros [(k & Hk & <-)%Hu|(k & Hk & <-)%Hus]; exists k;
      (split; [|done]); apply elem_of_app; [by left|by right].
  - intros w w' Hw Hin. cbn in Hw. apply sees_app in Hw as [Hw1 Hw2]. cbn. f_equal; [by apply Hh|by apply Hhs].
Qed.

Lemma triggers_set_constraints_adapt w w' uses sets :
  sees uses w w' →
  Forall (λ x, w_set w' x.1 x.2) (set_constraints_adapt a sets) ↔ Forall (λ x, w_set w x.1 x.2) sets.
Proof.
  intros Hw. unfold set_constraints_adapt, set_constraints_new. rewrite rsort_by_key_perm, Forall_fmap.
  apply Forall_iff. intros [v s]. cbn. symmetry. apply Hw.
Qed.

Lemma rule_adapt_exact t r :
  rule_ok ir inputs t r → renames (rule_uses r) →
  ∃ r', rule_adapt a r = Some r' ∧ rule_ok ir inputs' (value_type_adapt a t) r' ∧
    (∀ i, i ∈ rule_uses r' → ∃ k, k ∈ rule_uses r ∧ (adaptator_input a k).1 = i) ∧
    ∀ w w' v, sees (rule_uses r) w w' → inputs_ok ir inputs' w' →
      (rule_allows ir inputs' w' r' v ↔ rule_allows ir inputs w r v).
Proof.
  intros [Hc Hs] [Hr1 Hr2]%renames_app.
  destruct (conds_adapt_exact _ Hc Hr1) as (l & El & Hl & Hu & Hh).
  destruct (vs_adapt_exact t _ Hs Hr2) as (s' & Es & Hs' & Hus & Hx).
  unfold rule_adapt. rewrite El, Es. eexists. split; [done|]. split; [done|]. split.
  - intros i. unfold rule_uses. cbn [conditions alternatives].
    rewrite elem_of_app. intros [(k & Hk & <-)%Hu|(k & Hk & <-)%Hus]; exists k;
      (split; [|done]); apply elem_of_app; [by left|by right].
  - intros w w' v [Hw1 Hw2]%sees_app Hin. unfold rule_allows, triggers.
    cbn [conditions alternatives set_constraints].
    rewrite (Hx w w' v Hw2 Hin), (triggers_set_constraints_adapt w w' _ _ Hw1).
    rewrite <-(Forall_fmap (λ c, cond_holds ir inputs' w' c) (λ b, b = true)), (Hh w w' Hw1 Hin), Forall_fmap.
    done.
Qed.
End exact.
