(* ===== verification/Instances.v ===== *)
(** * Worlds of objects

    An interpretation gives each choice its value on each tuple of objects, evaluates the
    host code on the objects that its variables stand for, and gives each set its
    objects.  With an environment from variables to objects it makes a world for any
    list of inputs; renaming the inputs is composing the environment. *)
From S2P Require Import Prelude Utils Orders GenSets Filters FilterSemantics Adapting.

Record Interp (Obj : Type) := mkInterp {
  i_val : string → list Obj → Value;
  i_bool : string → list (Obj * string) → bool;
  i_num : string → list (Obj * string) → Z;
  i_den : string → option Obj → Obj → Prop
}.
Arguments i_val {Obj}.
Arguments i_bool {Obj}.
Arguments i_num {Obj}.
Arguments i_den {Obj}.

Section world.
Context {Obj : Type} (I : Interp Obj) (env : Var → Obj).

Definition code_env (c : Code) : list (Obj * string) := (λ '(v, n), (env v, n)) <$> code_vars c.

Definition inst_value (c : ChoiceInstance) : Value := i_val I (ci_choice c) (env <$> ci_vars c).

(** Sets are identified by the name of their definition, as in the code. *)
Definition in_set (s : GSet) (o : Obj) : Prop := set_den (λ d, i_den I (def_name d)) env s o.

Definition env_world (inputs : list ChoiceInstance) : World := {|
  w_input i := from_option inst_value (VNum 0) (inputs !! i);
  w_code c := i_bool I (code c) (code_env c);
  w_num c := i_num I (code c) (code_env c);
  w_set v s := in_set s (env v)
|}.

(** The world in which the value of an input is another one. *)
Definition with_input (i : nat) (v : Value) (w : World) : World := {|
  w_input j := if decide (j = i) then v else w_input w j;
  w_code := w_code w;
  w_num := w_num w;
  w_set := w_set w
|}.
End world.

(** Environments that give the arguments the same objects. *)
Definition same_args {Obj : Type} (env env' : Var → Obj) : Prop := ∀ i, env (Arg i) = env' (Arg i).

(** A set whose parameters are arguments of the choice. *)
Fixpoint args_only (s : GSet) : Prop :=
  match s with
  | mkSet _ rc v =>
    match v with Some (ForallVar _) => False | _ => True end ∧
    match rc with Some r => args_only r | None => True end
  end.

(** ** Well-formed descriptions, instances and interpretations *)
Record choice_ok (ir : IrDesc) (name : string) (ch : Choice) : Prop := {
  choice_ok_name : choice_name ch = name;
  choice_ok_enum n : def_as_enum (choice_def ch) = Some n → is_Some (get_enum ir n);
  choice_ok_inverse names t : arguments ch = Symmetric names t true →
    is_Some (def_as_enum (choice_def ch));
  choice_ok_sets : Forall (λ s, wf_set s ∧ args_only s) (arguments_sets (arguments ch))
}.

Definition choices_ok (ir : IrDesc) : Prop :=
  ∀ name ch, get_choice ir name = Some ch → choice_ok ir name ch.

Definition instance_ok (ir : IrDesc) (c : ChoiceInstance) : Prop :=
  ∃ ch, get_choice ir (ci_choice c) = Some ch ∧ length (ci_vars c) = arguments_len (arguments ch).

Definition choice_enum (ir : IrDesc) (name : string) : option Enum :=
  ch ← get_choice ir name; n ← def_as_enum (choice_def ch); get_enum ir n.

Definition choice_inverse (ir : IrDesc) (name : string) (v : Value) : Value :=
  match v, choice_enum ir name with
  | VEnum s, Some e => VEnum (enum_inverse e s)
  | _, _ => v
  end.

Definition inverse_when (ir : IrDesc) (b : bool) (name : string) (v : Value) : Value :=
  if b then choice_inverse ir name v else v.

Record interp_ok {Obj : Type} (ir : IrDesc) (I : Interp Obj) : Prop := {
  value_typed name e objs : choice_enum ir name = Some e →
    ∃ s, i_val I name objs = VEnum s ∧ s ∈ value_keys e;
  value_typed_num name ch objs : get_choice ir name = Some ch → choice_enum ir name = None →
    ∃ n, i_val I name objs = VNum n;
  value_symmetric name ch names t inverse x y :
    get_choice ir name = Some ch → arguments ch = Symmetric names t inverse →
    i_val I name [y; x] = inverse_when ir inverse name (i_val I name [x; y]);
  bool_normalized env c : w_code (env_world I env []) (code_normalize c) = w_code (env_world I env []) c;
  num_normalized' env c : w_num (env_world I env []) (code_normalize c) = w_num (env_world I env []) c
}.

Lemma set_den_named {Obj : Type} (den : string → option Obj → Obj → Prop) env s t o :
  s ≡ t → set_den (λ d, den (def_name d)) env s o → set_den (λ d, den (def_name d)) env t o.
Proof.
  unfold equiv, gset_equiv. revert s t. fix IH 1. intros [d r v] [d' r' v']. cbn.
  intros [= -> Hk ->] [Hd Hrd]. split; [done|].
  destruct r as [r|], r' as [r'|]; try done. injection Hk as Hk. by apply (IH r r').
Qed.

Section facts.
Context (ir : IrDesc) (Hir : desc_ok ir) (Hch : choices_ok ir).

Lemma input_enum_choice inputs i :
  input_enum ir inputs i = (c ← inputs !! i; choice_enum ir (ci_choice c)).
Proof. reflexivity. Qed.

Section interp.
Context {Obj : Type} (I : Interp Obj) (HI : interp_ok ir I).

Lemma env_world_ok env inputs : world_ok (env_world I env inputs).
Proof.
  constructor.
  - intros c. apply (bool_normalized _ _ HI env).
  - intros c. apply (num_normalized' _ _ HI env).
  - intros v s t. apply set_den_named.
Qed.

Lemma env_world_inputs_ok env inputs : inputs_ok ir inputs (env_world I env inputs).
Proof.
  intros i e. rewrite input_enum_choice. cbn. destruct (inputs !! i) as [c|]; [|done]. cbn.
  intros He. by apply (value_typed _ _ HI).
Qed.

Lemma input_value_env env inputs i c b :
  inputs !! i = Some c →
  input_value ir inputs (env_world I env inputs) b i = inverse_when ir b (ci_choice c) (inst_value I env c).
Proof.
  intros Hc. unfold input_value, inverse_when, inverse_value, choice_inverse.
  rewrite input_enum_choice. cbn. by rewrite Hc.
Qed.

(** Environments seen through an adaptator. *)
Section through.
Context (a : Adaptator) (env env' : Var → Obj) (Henv : ∀ v, env v = env' (adaptator_variable a v)).

Lemma inst_value_adapt c : inst_value I env' (choice_instance_adapt a c) = inst_value I env c.
Proof.
  unfold inst_value. cbn. f_equal. rewrite <-list_fmap_compose. apply list_fmap_ext.
  intros _ v _. by rewrite Henv.
Qed.

Lemma code_env_adapt c : code_env env' (code_adapt a c) = code_env env c.
Proof.
  unfold code_env. cbn. rewrite <-list_fmap_compose. apply list_fmap_ext.
  intros _ [v n] _. cbn. by rewrite Henv.
Qed.

Lemma in_set_adapt s o : in_set I env' (set_adapt a s) o ↔ in_set I env s o.
Proof.
  unfold in_set. revert s. fix IH 1. intros [d r v]. cbn. apply Morphisms_Prop.and_iff_morphism.
  - assert (env' <$> (adaptator_variable a <$> v) = env <$> v) as ->; [|done].
    destruct v as [v|]; [|done]. cbn. by rewrite Henv.
  - destruct r as [r|]; [apply IH|done].
Qed.

(** The world of the environment is what the world of the other is through the adaptator,
    as soon as the adaptator leads each input to one with the same value. *)
Lemma env_world_sees inputs inputs' uses :
  Forall (λ i, let '(j, b) := adaptator_input a i in
    w_input (env_world I env inputs) i = input_value ir inputs' (env_world I env' inputs') b j) uses →
  sees ir inputs' a uses (env_world I env inputs) (env_world I env' inputs').
Proof.
  intros Hi. constructor; [done| | |]; cbn [w_code w_num w_set env_world].
  - intros c. by rewrite code_env_adapt.
  - intros c. by rewrite code_env_adapt.
  - intros v s. by rewrite in_set_adapt, <-Henv.
Qed.
End through.
End interp.

(** ** Normalised instances *)
Lemma choice_instance_normalize_exact c :
  instance_ok ir c →
  ∃ b c', choice_instance_normalize ir c = Some (b, c') ∧ ci_choice c' = ci_choice c ∧
    instance_ok ir c' ∧ choice_instance_normalize ir c' = Some (false, c') ∧
    (b = true → is_Some (choice_enum ir (ci_choice c))) ∧
    (∀ v, v ∈ ci_vars c' ↔ v ∈ ci_vars c) ∧
    ∀ (Obj : Type) (I : Interp Obj) env, interp_ok ir I →
      inst_value I env c = inverse_when ir b (ci_choice c) (inst_value I env c').
Proof.
  clear Hir. intros (ch & Hg & Hl). unfold choice_instance_normalize at 1. rewrite Hg. cbn [mbind option_bind].
  assert (∀ c', ci_choice c' = ci_choice c → length (ci_vars c') = length (ci_vars c) → instance_ok ir c') as Hok
    by (intros c' E1 E2; exists ch; by rewrite E1, E2).
  destruct (arguments ch) as [vars|names t inverse] eqn:Ea.
  { exists false, c. split_and!; try done; [by apply Hok|]. unfold choice_instance_normalize.
    by rewrite Hg; cbn; rewrite Ea. }
  cbn in Hl. destruct c as [name [|v0 [|v1 [|]]]]; try done. cbn [ci_vars ci_choice] in *.
  destruct (rcmp v0 v1) eqn:Ec; cycle 2.
  { exists inverse, (mkChoiceInstance name [v1; v0]). split_and!; try done; [by apply Hok| | | |].
    - unfold choice_instance_normalize. cbn [ci_choice ci_vars]. rewrite Hg. cbn [mbind option_bind].
      by rewrite Ea, (rcmp_flip v0 v1), Ec.
    - intros ->. unfold choice_enum. rewrite Hg. cbn. destruct (Hch name ch Hg) as [_ He Hi _].
      destruct (Hi names t Ea) as [n Hn]. rewrite Hn. cbn. by apply He.
    - intros v. set_solver.
    - intros Obj I env HI. unfold inst_value. cbn. by rewrite (value_symmetric _ _ HI name ch names t inverse (env v1)). }
  all: exists false, (mkChoiceInstance name [v0; v1]); split_and!; try done; [by apply Hok|].
  all: unfold choice_instance_normalize; cbn [ci_choice ci_vars]; rewrite Hg; cbn [mbind option_bind];
    by rewrite Ea, Ec.
Qed.

(** ** Rules over renamed inputs *)
Section leads.
Context (a : Adaptator) (inputs inputs' : list ChoiceInstance).

(** The adaptator leads input [i] to an input of the same choice, that has the value of
    the renamed instance, up to inversion. *)
Definition leads_to (i : nat) : Prop :=
  let '(j, b) := adaptator_input a i in
  ∃ c c', inputs !! i = Some c ∧ inputs' !! j = Some c' ∧ ci_choice c' = ci_choice c ∧
    (b = true → is_Some (choice_enum ir (ci_choice c))) ∧
    ∀ (Obj : Type) (I : Interp Obj) env, interp_ok ir I →
      inst_value I env (choice_instance_adapt a c) = inverse_when ir b (ci_choice c) (inst_value I env c').

Lemma leads_to_renames uses : Forall leads_to uses → renames ir inputs inputs' a uses.
Proof.
  intros Hl. eapply Forall_impl; [exact Hl|]. clear Hl. intros i. unfold leads_to. destruct (adaptator_input a i) as [j b].
  intros (c & c' & Hc & Hc' & En & Hb & _). rewrite !input_enum_choice, Hc, Hc'. cbn.
  rewrite En. split; [done|exact Hb].
Qed.

Lemma leads_to_sees {Obj : Type} (I : Interp Obj) env env' uses :
  interp_ok ir I → (∀ v, env v = env' (adaptator_variable a v)) → Forall leads_to uses →
  sees ir inputs' a uses (env_world I env inputs) (env_world I env' inputs').
Proof.
  intros HI Henv Hl. apply env_world_sees; [done|]. eapply Forall_impl; [exact Hl|]. clear Hl.
  intros i. unfold leads_to. destruct (adaptator_input a i) as [j b].
  intros (c & c' & Hc & Hc' & En & Hb & Hv). rewrite (input_value_env I env' inputs' j c' b Hc').
  cbn. rewrite Hc. cbn. by rewrite En, <-(Hv _ _ _ HI), (inst_value_adapt I a env env').
Qed.

Lemma leads_to_lookup i : leads_to i → (adaptator_input a i).1 < length inputs'.
Proof.
  unfold leads_to. destruct (adaptator_input a i) as [j b]. intros (c & c' & _ & Hc' & _).
  by apply lookup_lt_Some in Hc'.
Qed.

Lemma rule_ok_adapted_type l t r : rule_ok ir l (value_type_adapt a t) r → rule_ok ir l t r.
Proof. intros [Hc Hs]. split; [done|]. by destruct t as [|[]| |]. Qed.

Lemma rules_adapt_env t rules :
  Forall (rule_ok ir inputs t) rules → Forall (λ r, Forall leads_to (rule_uses r)) rules →
  ∃ rules', mapM (rule_adapt a) rules = Some rules' ∧ Forall (rule_ok ir inputs' t) rules' ∧
    Forall (λ r, Forall (λ i, i < length inputs') (rule_uses r)) rules' ∧
    ∀ (Obj : Type) (I : Interp Obj) env env' v,
      interp_ok ir I → (∀ x, env x = env' (adaptator_variable a x)) →
      (Forall (λ r, rule_allows ir inputs' (env_world I env' inputs') r v) rules' ↔
       Forall (λ r, rule_allows ir inputs (env_world I env inputs) r v) rules).
Proof.
  intros Hr Hl. induction Hr as [|r rules Hr _ IH]; [by exists []|].
  apply Forall_cons in Hl as [Hl Hls].
  destruct (IH Hls) as (rules' & E & Hok & Hu & Hx).
  destruct (rule_adapt_exact ir Hir inputs inputs' a t r Hr (leads_to_renames _ Hl))
    as (r' & Er & Hr' & Hur & Hxr).
  exists (r' :: rules'). cbn [mapM]. rewrite Er, E. split; [done|].
  split; [constructor; [by apply rule_ok_adapted_type|done]|]. split.
  - constructor; [|done]. apply Forall_forall. intros i (k & Hk & <-)%Hur.
    rewrite Forall_forall in Hl. by apply leads_to_lookup, Hl.
  - intros Obj I env env' v HI Henv. rewrite !Forall_cons, (Hx Obj I env env' v HI Henv).
    by rewrite (Hxr _ _ v (leads_to_sees I env env' _ HI Henv Hl) (env_world_inputs_ok I HI env' inputs')).
Qed.
End leads.
End facts.
