(* ===== verification/FlatFilters.v ===== *)
(** * Flat filters (telamon-gen/src/flat_filter.rs)

    A flat filter is a list of rules over inputs and quantified variables, for one choice.
    Filters over the same inputs are merged, by trying every way to map the variables of
    the one to variables of the other. *)
From S2P Require Import Prelude Utils Orders GenSets Filters FilterSemantics Adapting Instances Permutations.

Record FlatFilter := mkFlatFilter {
  ff_vars : list GSet;
  ff_inputs : list ChoiceInstance;
  ff_rules : list Rule;
  ff_set_constraints : SetConstraints
}.

(** The loop that normalises inputs and records those that are inversed. *)
Fixpoint normalize_inputs (ir : IrDesc) (pos : nat) (inputs : list ChoiceInstance) (a : Adaptator)
  : option (list ChoiceInstance * Adaptator) :=
  match inputs with
  | [] => Some ([], a)
  | input :: inputs =>
    '(inversed, input) ← choice_instance_normalize ir input;
    let a := if (inversed : bool) then set_inversed pos a else a in
    '(inputs, a) ← normalize_inputs ir (S pos) inputs a;
    Some (input :: inputs, a)
  end.

(** [FlatFilter::new]. *)
Definition flat_filter_new (ir : IrDesc) (vars : list GSet) (inputs : list ChoiceInstance)
    (rules : list Rule) (set_constraints : SetConstraints) : option FlatFilter :=
  '(inputs, a) ← normalize_inputs ir 0 inputs adaptator_default;
  rules ← mapM (rule_adapt a) rules;
  Some (mkFlatFilter vars inputs rules set_constraints).

(** [FlatFilter::deconstruct]. *)
Definition deconstruct (f : FlatFilter)
  : list GSet * list ChoiceInstance * list Rule * SetConstraints :=
  (ff_vars f, ff_inputs f, ff_rules f, ff_set_constraints f).

(** Whether the variables of the other filter range over the sets they are mapped to. *)
Fixpoint match_vars (vars other_vars : list GSet) (old_id : nat) (var_map : list nat)
    (a : Adaptator) : option (option Adaptator) :=
  match var_map with
  | [] => Some (Some a)
  | new_id :: var_map =>
    old ← other_vars !! old_id; new ← vars !! new_id;
    if set_eqb old new
    then match_vars vars other_vars (S old_id) var_map
           (set_variable (ForallVar old_id) (ForallVar new_id) a).2
    else Some None
  end.

(** Whether each input of the other filter is an input of this one. *)
Fixpoint match_inputs (ir : IrDesc) (input_map : IndexMap ChoiceInstance nat) (old_id : nat)
    (inputs : list ChoiceInstance) (a : Adaptator) : option (option Adaptator) :=
  match inputs with
  | [] => Some (Some a)
  | input :: inputs =>
    '(inversed, new_input) ← choice_instance_normalize ir (choice_instance_adapt a input);
    let a := if (inversed : bool) then set_inversed old_id a else a in
    match im_get new_input input_map with
    | Some new_id => match_inputs ir input_map (S old_id) inputs (set_input old_id new_id a)
    | None => Some None
    end
  end.

(** The map from the inputs to their positions. *)
Definition input_positions (inputs : list ChoiceInstance) : IndexMap ChoiceInstance nat :=
  foldl (λ m x, (im_insert x.2 x.1 m).2) [] (enumerate inputs).

(** The loop over the mappings of variables: the rules of [other] are added for each
    mapping that fits, and the filters are merged when they have as many variables. *)
Fixpoint merge_var_maps (ir : IrDesc) (input_map : IndexMap ChoiceInstance nat)
    (other self : FlatFilter) (merged : bool) (var_maps : list (list nat))
  : option (bool * FlatFilter) :=
  match var_maps with
  | [] => Some (merged, self)
  | var_map :: var_maps =>
    let! by_vars := match_vars (ff_vars self) (ff_vars other) 0 var_map adaptator_default in
    let! by_inputs := match by_vars with
                      | Some a => match_inputs ir input_map 0 (ff_inputs other) a
                      | None => Some None
                      end in
    match by_inputs with
    | None => merge_var_maps ir input_map other self merged var_maps
    | Some a =>
      rules ← mapM (rule_adapt a) (ff_rules other);
      let self := mkFlatFilter (ff_vars self) (ff_inputs self) (ff_rules self ++ rules)
                    (ff_set_constraints self) in
      if length (ff_vars self) =? length (ff_vars other) then
        if bool_decide (ff_inputs self = []) then Some (true, self)
        else merge_var_maps ir input_map other self true var_maps
      else merge_var_maps ir input_map other self merged var_maps
    end
  end.

(** [FlatFilter::try_merge].  As many turns as there are lists of variables exhaust the
    permutations. *)
Definition try_merge (ir : IrDesc) (self other : FlatFilter) : option (bool * FlatFilter) :=
  if negb (Bool.eqb (bool_decide (ff_inputs self = [])) (bool_decide (ff_inputs other = [])))
  then Some (false, self)
  else if negb (set_constraints_eqb (ff_set_constraints self) (ff_set_constraints other))
  then Some (false, self)
  else
    let n := length (ff_vars self) in
    let k := length (ff_vars other) in
    var_maps ← pp_collect (S (n ^ k)) (pp_new (seq 0 n) k);
    merge_var_maps ir (input_positions (ff_inputs self)) other self false var_maps.

(** The turn of [merge] for one filter: it is merged into every filter that it fits. *)
Fixpoint merge_into (ir : IrDesc) (filter : FlatFilter) (merged : bool)
    (others : list FlatFilter) : option (bool * list FlatFilter) :=
  match others with
  | [] => Some (merged, [])
  | other :: others =>
    '(b, other) ← try_merge ir other filter;
    '(merged, others) ← merge_into ir filter (merged || b) others;
    Some (merged, other :: others)
  end.

Definition merge_turn (ir : IrDesc) (merged_filters : list FlatFilter) (filter : FlatFilter)
  : option (list FlatFilter) :=
  '(merged, merged_filters) ← merge_into ir filter false merged_filters;
  Some (if (merged : bool) then merged_filters else merged_filters ++ [filter]).

(** [flat_filter::merge]: the filters with more inputs come first. *)
Definition merge_filters (ir : IrDesc) (filters : list FlatFilter) : option (list FlatFilter) :=
  foldM (merge_turn ir) (reverse (rsort_by_key (λ f, length (ff_inputs f)) filters)) [].

(** [FlatFilter::inverse]. *)
Definition inverse_rule (ir : IrDesc) (antisymmetric : bool) (r : Rule) : option Rule :=
  r ← rule_adapt swap_arguments r;
  if antisymmetric then
    alts ← vs_inverse ir (alternatives r);
    Some (mkRule (conditions r) alts (set_constraints r))
  else Some r.

Definition flat_filter_inverse (ir : IrDesc) (antisymmetric : bool) (f : FlatFilter)
  : option FlatFilter :=
  rules ← mapM (inverse_rule ir antisymmetric) (ff_rules f);
  flat_filter_new ir (set_adapt swap_arguments <$> ff_vars f)
    (choice_instance_adapt swap_arguments <$> ff_inputs f) rules
    (set_constraints_adapt swap_arguments (ff_set_constraints f)).

(** * What a flat filter allows *)

Section meaning.
Context {Obj : Type} (ir : IrDesc) (I : Interp Obj).

(** The environments that a filter quantifies over. *)
Definition ff_domain (env : Var → Obj) (f : FlatFilter) : Prop :=
  (∀ j s, ff_vars f !! j = Some s → in_set I env s (env (ForallVar j))) ∧
  Forall (λ x, in_set I env x.2 (env x.1)) (ff_set_constraints f).

Definition rules_allow (env : Var → Obj) (inputs : list ChoiceInstance) (rules : list Rule)
    (v : Value) : Prop :=
  Forall (λ r, rule_allows ir inputs (env_world I env inputs) r v) rules.

(** A value is allowed for some arguments when every rule allows it, for all objects. *)
Definition ff_allows (env : Var → Obj) (v : Value) (f : FlatFilter) : Prop :=
  ∀ env', same_args env env' → ff_domain env' f → rules_allow env' (ff_inputs f) (ff_rules f) v.
End meaning.

(** Filters whose rules are well typed and only read their inputs. *)
Definition rules_ok (ir : IrDesc) (inputs : list ChoiceInstance) (t : ValueType) (rules : list Rule) : Prop :=
  Forall (rule_ok ir inputs t) rules ∧
  Forall (λ r, Forall (λ i, i < length inputs) (rule_uses r)) rules.

Record ff_ok (ir : IrDesc) (t : ValueType) (f : FlatFilter) : Prop := {
  ff_inputs_ok : Forall (instance_ok ir) (ff_inputs f);
  ff_normalized : Forall (λ c, choice_instance_normalize ir c = Some (false, c)) (ff_inputs f);
  ff_rules_ok : rules_ok ir (ff_inputs f) t (ff_rules f)
}.

Section facts.
Context (ir : IrDesc) (Hir : desc_ok ir) (Hch : choices_ok ir).

Lemma adaptator_input_fresh a i : ad_inputs a !! i = None → adaptator_input a i = (i, false).
Proof. intros H. unfold adaptator_input. by rewrite H. Qed.

Lemma adaptator_input_inversed a i j :
  adaptator_input (set_inversed i a) j =
  if decide (i = j) then ((adaptator_input a i).1, true) else adaptator_input a j.
Proof.
  unfold set_inversed, adaptator_input. destruct (default _ (ad_inputs a !! i)) as [k b] eqn:E.
  cbn [ad_inputs]. case_decide as Eij; subst; [by rewrite lookup_insert_eq|by rewrite lookup_insert_ne].
Qed.

Lemma adaptator_input_set_input a i n j :
  adaptator_input (set_input i n a) j =
  if decide (i = j) then (n, (adaptator_input a i).2) else adaptator_input a j.
Proof.
  unfold set_input, adaptator_input. destruct (default _ (ad_inputs a !! i)) as [k b] eqn:E.
  cbn [ad_inputs]. case_decide as Eij; subst; [by rewrite lookup_insert_eq|by rewrite lookup_insert_ne].
Qed.

Lemma ad_variables_inversed i a : ad_variables (set_inversed i a) = ad_variables a.
Proof. unfold set_inversed. by destruct (default _ _). Qed.

Lemma ad_variables_set_input i n a : ad_variables (set_input i n a) = ad_variables a.
Proof. unfold set_input. by destruct (default _ _). Qed.

(** Each input is normalised in place. *)
Lemma normalize_inputs_spec inputs pos a :
  Forall (instance_ok ir) inputs → (∀ i, pos ≤ i → adaptator_input a i = (i, false)) →
  ∃ inputs' a', normalize_inputs ir pos inputs a = Some (inputs', a') ∧
    length inputs' = length inputs ∧ ad_variables a' = ad_variables a ∧
    Forall (instance_ok ir) inputs' ∧
    Forall (λ c, choice_instance_normalize ir c = Some (false, c)) inputs' ∧
    (∀ i, i < pos → adaptator_input a' i = adaptator_input a i) ∧
    (∀ i, pos + length inputs ≤ i → adaptator_input a' i = (i, false)) ∧
    ∀ i c, inputs !! i = Some c → ∃ b c', choice_instance_normalize ir c = Some (b, c') ∧
      inputs' !! i = Some c' ∧ adaptator_input a' (pos + i) = (pos + i, b).
Proof.
  intros Hin. revert pos a. induction Hin as [|c inputs Hc _ IH]; intros pos a Ha.
  { exists [], a. split_and!; try done. intros i Hi. apply Ha. cbn in Hi. lia. }
  destruct (choice_instance_normalize_exact ir Hch c Hc) as (b & c' & En & _ & Hok & Hn & _).
  set (a1 := if b then set_inversed pos a else a).
  assert (∀ i, adaptator_input a1 i = if decide (i = pos) then (pos, b) else adaptator_input a i) as Ha1.
  { intros i. unfold a1. destruct b.
    - rewrite adaptator_input_inversed, Ha by lia. by do 2 case_decide; subst.
    - case_decide; subst; [by rewrite Ha|done]. }
  destruct (IH (S pos) a1) as (inputs' & a' & E & Hlen & Hvars & Hoks & Hns & Hlt & Hge & Hx).
  { intros i Hi. rewrite Ha1, decide_False by lia. apply Ha. lia. }
  exists (c' :: inputs'), a'. cbn [normalize_inputs]. rewrite En. cbn [mbind option_bind].
  fold a1. rewrite E. split; [done|]. split_and!.
  - cbn. by rewrite Hlen.
  - rewrite Hvars. unfold a1. destruct b; [apply ad_variables_inversed|done].
  - by constructor.
  - by constructor.
  - intros i Hi. rewrite Hlt, Ha1, decide_False by lia. done.
  - intros i Hi. apply Hge. cbn in Hi. lia.
  - intros [|i] d Hd; cbn in Hd.
    + injection Hd as <-. exists b, c'. split; [done|]. split; [done|].
      rewrite Nat.add_0_r, Hlt, Ha1, decide_True by lia. done.
    + destruct (Hx i d Hd) as (b' & d' & Hd1 & Hd2 & Hd3). exists b', d'. split; [done|].
      split; [done|]. by rewrite <-Nat.add_succ_comm, Hd3.
Qed.

Lemma instance_ok_adapt a c : instance_ok ir c → instance_ok ir (choice_instance_adapt a c).
Proof. intros (ch & Hg & Hl). exists ch. cbn. by rewrite length_fmap. Qed.

Lemma instances_ok_adapt a l :
  Forall (instance_ok ir) l → Forall (instance_ok ir) (choice_instance_adapt a <$> l).
Proof. intros Hl. apply Forall_fmap. eapply Forall_impl; [exact Hl|]. apply instance_ok_adapt. Qed.

(** An input that is led to its normalised, renamed instance. *)
Lemma leads_to_normalized a inputs inputs' i j b c c' :
  inputs !! i = Some c → instance_ok ir c →
  choice_instance_normalize ir (choice_instance_adapt a c) = Some (b, c') →
  adaptator_input a i = (j, b) → inputs' !! j = Some c' → leads_to ir a inputs inputs' i.
Proof.
  intros Hc Hok Hn Ha Hc'.
  destruct (choice_instance_normalize_exact ir Hch _ (instance_ok_adapt a c Hok))
    as (b0 & c0 & Hn0 & En & _ & _ & Hb & _ & Hv). rewrite Hn in Hn0. injection Hn0 as <- <-.
  unfold leads_to. rewrite Ha. exists c, c'. by split_and!.
Qed.

Lemma adaptator_variable_default a v : ad_variables a = ∅ → adaptator_variable a v = v.
Proof. intros H. unfold adaptator_variable. by rewrite H. Qed.

Lemma choice_instance_adapt_default a c : ad_variables a = ∅ → choice_instance_adapt a c = c.
Proof.
  intros H. destruct c as [n vars]. unfold choice_instance_adapt. cbn. f_equal.
  rewrite <-(list_fmap_id vars) at 2. apply list_fmap_ext. intros _ v _.
  by apply adaptator_variable_default.
Qed.

(** [FlatFilter::new] keeps what the rules allow. *)
Lemma flat_filter_new_exact t vars inputs rules sets :
  Forall (instance_ok ir) inputs → rules_ok ir inputs t rules →
  ∃ f, flat_filter_new ir vars inputs rules sets = Some f ∧ ff_ok ir t f ∧
    ff_vars f = vars ∧ ff_set_constraints f = sets ∧ length (ff_inputs f) = length inputs ∧
    ∀ (Obj : Type) (I : Interp Obj) env v, interp_ok ir I →
      (rules_allow ir I env (ff_inputs f) (ff_rules f) v ↔ rules_allow ir I env inputs rules v).
Proof.
  intros Hin [Hr Hu].
  destruct (normalize_inputs_spec inputs 0 adaptator_default Hin) as
    (inputs' & a & E & Hlen & Hvars & Hoks & Hns & _ & _ & Hx); [by intros i _; apply adaptator_input_fresh|].
  cbn in Hvars.
  destruct (rules_adapt_env ir Hir a inputs inputs' t rules Hr) as (rules' & Er & Hr' & Hu' & Hxr).
  { eapply Forall_impl; [exact Hu|]. cbn. intros r Hur.
    eapply Forall_impl; [exact Hur|]. cbn. intros i Hi.
    destruct (lookup_lt_is_Some_2 _ _ Hi) as [c Hc]. destruct (Hx i c Hc) as (b & c' & Hn & Hc' & Ha).
    eapply leads_to_normalized; [exact Hc|exact (Forall_lookup_1 _ _ _ _ Hin Hc)| |exact Ha|exact Hc'].
    by rewrite choice_instance_adapt_default. }
  exists (mkFlatFilter vars inputs' rules' sets). unfold flat_filter_new. rewrite E.
  cbn [mbind option_bind]. rewrite Er. split_and!; try done.
  intros Obj I env v HI. cbn [ff_inputs ff_rules]. apply Hxr; [done|].
  intros x. by rewrite adaptator_variable_default.
Qed.

(** ** Inverse filters *)

Lemma vs_inverse_exact inputs name e s :
  get_enum ir name = Some e → vs_ok ir inputs (TyEnum name) s →
  ∃ s', vs_inverse ir s = Some s' ∧ vs_ok ir inputs (TyEnum name) s' ∧
    (∀ i, i ∈ vs_uses s' → i ∈ vs_uses s) ∧
    ∀ w x, inputs_ok ir inputs w →
      (vs_allows ir inputs w s' (VEnum x) ↔ vs_allows ir inputs w s (VEnum (enum_inverse e x))).
Proof.
  intros He Hs. destruct s as [n values ins|]; [|done]. destruct Hs as (-> & e' & He' & Hins).
  rewrite He in He'. injection He' as <-. destruct (Hir name e He) as [_ Hok].
  assert (∀ i neg inv, (i, neg, inv) ∈ (set_map (λ '(id, neg, inverse), (id, neg, negb inverse)) ins
      : gset (nat * bool * bool)) ↔ (i, neg, negb inv) ∈ ins) as Hmap.
  { intros i neg inv. rewrite elem_of_map. split.
    - intros ([[i' neg'] inv'] & [= -> -> ->] & H). by rewrite negb_involutive.
    - intros H. exists (i, neg, negb inv). by rewrite negb_involutive. }
  cbn [vs_inverse]. rewrite He. cbn [mbind option_bind]. eexists. split; [done|]. split; [|split].
  - split; [done|]. exists e. split; [done|]. intros i neg inv H%Hmap. by apply (Hins i neg (negb inv)).
  - intros i. cbn. rewrite !list_elem_of_fmap. intros ([[i' neg] inv] & -> & H%elem_of_elements%Hmap).
    exists (i', neg, negb inv). by rewrite elem_of_elements.
  - intros w x Hw. rewrite !vs_allows_enum. unfold enum_allows.
    assert (∀ i neg inv, (i, neg, negb inv) ∈ ins → input_allows ir inputs w (i, neg, inv) x ↔
      input_allows ir inputs w (i, neg, negb inv) (enum_inverse e x)) as Hi.
    { intros i neg inv H. pose proof (Hins i neg (negb inv) H) as Hie.
      destruct (input_value_enum _ _ w inv i e Hw Hie) as (y & Hy & _ & Hv).
      destruct (input_value_enum _ _ w (negb inv) i e Hw Hie) as (y' & Hy' & _ & Hv').
      rewrite Hy in Hy'. injection Hy' as <-. unfold input_allows. cbn [fst snd]. rewrite Hv, Hv'.
      pose proof (enum_inverse_involutive e Hok) as Hii.
      assert (x = (if inv then enum_inverse e y else y) ↔
        enum_inverse e x = (if negb inv then enum_inverse e y else y)) as Hxy
        by (destruct inv; cbn; split; intros E; congruence).
      destruct neg; naive_solver. }
    split; intros (z & [= <-] & H); eexists; (split; [done|]);
      (destruct H as [H|([[i neg] inv] & H1 & H2)]; [left; by apply (elem_of_inverse_map e Hok)|right]).
    + apply Hmap in H1. exists (i, neg, negb inv). split; [done|]. by apply Hi.
    + exists (i, neg, negb inv). rewrite Hmap, negb_involutive. split; [done|].
      apply Hi; by rewrite negb_involutive.
Qed.

Lemma swap_arguments_variable v :
  adaptator_variable swap_arguments v =
  if decide (v = Arg 0) then Arg 1 else if decide (v = Arg 1) then Arg 0 else v.
Proof.
  unfold adaptator_variable, swap_arguments, set_variable, adaptator_default. cbn [snd ad_variables].
  destruct (decide (v = Arg 0)) as [->|H0]; [done|].
  destruct (decide (v = Arg 1)) as [->|H1]; [done|].
  by rewrite !lookup_insert_ne, lookup_empty by done.
Qed.

Lemma swap_arguments_involutive v :
  adaptator_variable swap_arguments (adaptator_variable swap_arguments v) = v.
Proof. rewrite !swap_arguments_variable. repeat case_decide; congruence. Qed.

(** The environment in which the two arguments are exchanged. *)
Definition swap_env {Obj : Type} (env : Var → Obj) : Var → Obj :=
  λ v, env (adaptator_variable swap_arguments v).

(** Environments that differ by the exchange of the two arguments. *)
Definition swaps {Obj : Type} (env env' : Var → Obj) : Prop :=
  ∀ v, env v = env' (adaptator_variable swap_arguments v).

Lemma swaps_swap_env {Obj : Type} (env : Var → Obj) : swaps env (swap_env env).
Proof. intros v. unfold swap_env. by rewrite swap_arguments_involutive. Qed.

Lemma swap_env_swaps {Obj : Type} (env : Var → Obj) : swaps (swap_env env) env.
Proof. done. Qed.

Lemma swap_env_same_args {Obj : Type} (env env' : Var → Obj) :
  same_args env env' → same_args (swap_env env) (swap_env env').
Proof.
  intros H i. unfold swap_env. rewrite swap_arguments_variable. repeat case_decide; apply H.
Qed.

Lemma ff_domain_swap {Obj : Type} (I : Interp Obj) env env' f f' :
  swaps env env' → ff_vars f' = set_adapt swap_arguments <$> ff_vars f →
  ff_set_constraints f' = set_constraints_adapt swap_arguments (ff_set_constraints f) →
  ff_domain I env' f' ↔ ff_domain I env f.
Proof.
  intros Hs Hv Hc. unfold ff_domain. rewrite Hv, Hc.
  pose proof (in_set_adapt I swap_arguments env env' Hs) as Hin.
  apply Morphisms_Prop.and_iff_morphism.
  - assert (∀ j, env (ForallVar j) = env' (ForallVar j)) as Hj
      by (intros j; by rewrite Hs, swap_arguments_variable).
    split; intros H j s Hl.
    + specialize (H j (set_adapt swap_arguments s)). rewrite list_lookup_fmap, Hl in H.
      rewrite Hj. apply Hin. by apply H.
    + rewrite list_lookup_fmap in Hl. destruct (ff_vars f !! j) as [s0|] eqn:Es; [|done].
      injection Hl as <-. rewrite <-Hj. apply Hin. by apply (H j).
  - unfold set_constraints_adapt, set_constraints_new. rewrite rsort_by_key_perm, Forall_fmap.
    apply Forall_iff. intros [v s]. unfold compose. cbn [fst snd]. by rewrite Hin, Hs.
Qed.

(** The inverse of a value of a type. *)
Definition type_inverse (t : ValueType) (v : Value) : Value :=
  match t, v with
  | TyEnum name, VEnum x => from_option (λ e, VEnum (enum_inverse e x)) v (get_enum ir name)
  | _, _ => v
  end.

Lemma inverse_rule_exact t inputs antisymmetric r :
  (antisymmetric = true → ∃ name e, t = TyEnum name ∧ get_enum ir name = Some e) →
  rule_ok ir inputs t r → Forall (λ i, i < length inputs) (rule_uses r) →
  let inputs' := choice_instance_adapt swap_arguments <$> inputs in
  ∃ r', inverse_rule ir antisymmetric r = Some r' ∧ rule_ok ir inputs' t r' ∧
    Forall (λ i, i < length inputs') (rule_uses r') ∧
    ∀ (Obj : Type) (I : Interp Obj) env env' v, interp_ok ir I → swaps env env' → value_ok ir t v →
      (rule_allows ir inputs' (env_world I env' inputs') r' v ↔
       rule_allows ir inputs (env_world I env inputs) r
         (if antisymmetric then type_inverse t v else v)).
Proof.
  intros Ht Hr Hu inputs'.
  assert (Forall (leads_to ir swap_arguments inputs inputs') (rule_uses r)) as Hl.
  { eapply Forall_impl; [exact Hu|]. intros i Hi. destruct (lookup_lt_is_Some_2 _ _ Hi) as [c Hc].
    unfold leads_to, adaptator_input. cbn [ad_inputs swap_arguments set_variable snd adaptator_default].
    rewrite lookup_empty. cbn. exists c, (choice_instance_adapt swap_arguments c).
    unfold inputs'. rewrite list_lookup_fmap, Hc. split_and!; done. }
  destruct (rule_adapt_exact ir Hir inputs inputs' swap_arguments t r Hr (leads_to_renames _ _ _ _ _ Hl))
    as (r1 & E & Hr1%rule_ok_adapted_type & Hu1 & Hx).
  unfold inverse_rule. rewrite E. cbn [mbind option_bind].
  assert (Forall (λ i, i < length inputs') (rule_uses r1)) as Hu1'.
  { apply Forall_forall. intros i (k & Hk & <-)%Hu1. rewrite Forall_forall in Hl.
    by eapply leads_to_lookup, Hl. }
  assert (∀ (Obj : Type) (I : Interp Obj) env env' v, interp_ok ir I → swaps env env' →
    rule_allows ir inputs' (env_world I env' inputs') r1 v ↔
    rule_allows ir inputs (env_world I env inputs) r v) as Hx1.
  { intros Obj I env env' v HI Hs. apply Hx; [|by apply env_world_inputs_ok].
    by apply leads_to_sees. }
  destruct antisymmetric; [|by exists r1; split_and!; try done; intros; apply Hx1].
  destruct (Ht eq_refl) as (name & e & -> & He). destruct Hr1 as [Hc1 Hs1].
  destruct (vs_inverse_exact inputs' name e _ He Hs1) as (s' & Es & Hs' & Hus & Hxs).
  rewrite Es. cbn [mbind option_bind]. eexists. split; [done|]. split; [done|]. split.
  - apply Forall_forall. unfold rule_uses. cbn [conditions alternatives].
    rewrite Forall_forall in Hu1'. intros i [Hi|Hi%Hus]%elem_of_app; apply Hu1', elem_of_app; auto.
  - intros Obj I env env' v HI Hsw Hv. destruct v as [x|]; [|done]. unfold type_inverse. rewrite He. cbn [from_option].
    rewrite <-(Hx1 _ _ _ _ _ HI Hsw). unfold rule_allows, triggers. cbn [conditions alternatives set_constraints].
    by rewrite Hxs by by apply env_world_inputs_ok.
Qed.

Lemma inverse_rules_exact t inputs antisymmetric rules :
  (antisymmetric = true → ∃ name e, t = TyEnum name ∧ get_enum ir name = Some e) →
  rules_ok ir inputs t rules →
  ∃ rules', mapM (inverse_rule ir antisymmetric) rules = Some rules' ∧
    rules_ok ir (choice_instance_adapt swap_arguments <$> inputs) t rules' ∧
    ∀ (Obj : Type) (I : Interp Obj) env env' v, interp_ok ir I → swaps env env' → value_ok ir t v →
      (rules_allow ir I env' (choice_instance_adapt swap_arguments <$> inputs) rules' v ↔
       rules_allow ir I env inputs rules (if antisymmetric then type_inverse t v else v)).
Proof.
  intros Ht [Hr Hu]. induction Hr as [|r rules Hr _ IH].
  { exists []. split; [done|]. split; [by split|]. intros. split; constructor. }
  apply Forall_cons in Hu as [Hu Hus]. destruct (IH Hus) as (rules' & E & [Hok Hu'] & Hx).
  destruct (inverse_rule_exact t inputs antisymmetric r Ht Hr Hu) as (r' & Er & Hr' & Hur' & Hxr).
  exists (r' :: rules'). cbn [mapM]. rewrite Er, E. split; [done|].
  split; [split; by constructor|]. intros Obj I env env' v HI Hs Hv. unfold rules_allow in *.
  by rewrite !Forall_cons, (Hxr Obj I env env' v HI Hs Hv), (Hx Obj I env env' v HI Hs Hv).
Qed.

Lemma flat_filter_inverse_exact t antisymmetric f :
  (antisymmetric = true → ∃ name e, t = TyEnum name ∧ get_enum ir name = Some e) → ff_ok ir t f →
  ∃ f', flat_filter_inverse ir antisymmetric f = Some f' ∧ ff_ok ir t f' ∧
    ff_vars f' = set_adapt swap_arguments <$> ff_vars f ∧
    ff_set_constraints f' = set_constraints_adapt swap_arguments (ff_set_constraints f) ∧
    ∀ (Obj : Type) (I : Interp Obj) env v, interp_ok ir I → value_ok ir t v →
      (ff_allows ir I env v f' ↔
       ff_allows ir I (swap_env env) (if antisymmetric then type_inverse t v else v) f).
Proof.
  intros Ht [Hin Hn Hr].
  destruct (inverse_rules_exact t _ antisymmetric _ Ht Hr) as (rules' & E & Hr' & Hx).
  destruct (flat_filter_new_exact t (set_adapt swap_arguments <$> ff_vars f) _ rules'
    (set_constraints_adapt swap_arguments (ff_set_constraints f)) (instances_ok_adapt _ _ Hin) Hr')
    as (f' & Ef & Hok & Hvars & Hsets & _ & Hxf).
  exists f'. unfold flat_filter_inverse. rewrite E. cbn [mbind option_bind]. split_and!; try done.
  intros Obj I env v HI Hv.
  assert (∀ env1 env2, swaps env1 env2 → (ff_domain I env2 f' → rules_allow ir I env2 (ff_inputs f') (ff_rules f') v) ↔
    (ff_domain I env1 f → rules_allow ir I env1 (ff_inputs f) (ff_rules f)
      (if antisymmetric then type_inverse t v else v))) as Hone.
  { intros env1 env2 Hs. rewrite (ff_domain_swap I env1 env2 f f' Hs Hvars Hsets).
    by rewrite (Hxf Obj I env2 v HI), (Hx Obj I env1 env2 v HI Hs Hv). }
  unfold ff_allows. split; intros H env2 Hs.
  - apply (Hone _ (swap_env env2) (swaps_swap_env env2)). apply H.
    intros i. rewrite <-(swap_env_same_args _ _ Hs i). apply swaps_swap_env.
  - apply (Hone _ env2 (swap_env_swaps env2)). apply H. by apply swap_env_same_args.
Qed.

(** ** Merging *)

(** The sets of the variables do not depend on other variables: [try_merge] compares them
    without renaming their parameters. *)
Definition mergeable (f : FlatFilter) : Prop :=
  Forall args_only (ff_vars f) ∧
  Forall (λ x, (∃ i, x.1 = Arg i) ∧ args_only x.2) (ff_set_constraints f).

Lemma in_set_args_only {Obj : Type} (I : Interp Obj) env env' s o :
  args_only s → same_args env env' → in_set I env s o ↔ in_set I env' s o.
Proof.
  unfold in_set. intros Ha Hs. revert s Ha. fix IH 1. intros [d r v] [Hv Hr]. cbn.
  apply Morphisms_Prop.and_iff_morphism.
  - destruct v as [[i|]|]; [|done|done]. cbn. by rewrite Hs.
  - destruct r as [r|]; [by apply IH|done].
Qed.

Lemma match_vars_spec vars other_vars old_id var_map a a' :
  match_vars vars other_vars old_id var_map a = Some (Some a') →
  ad_inputs a' = ad_inputs a ∧
  (∀ v, (∀ j, v = ForallVar j → j < old_id ∨ old_id + length var_map ≤ j) →
    ad_variables a' !! v = ad_variables a !! v) ∧
  ∀ i new, var_map !! i = Some new → ad_variables a' !! ForallVar (old_id + i) = Some (ForallVar new) ∧
    ∃ s t, other_vars !! (old_id + i) = Some s ∧ vars !! new = Some t ∧ s ≡ t.
Proof.
  revert old_id a. induction var_map as [|new var_map IH]; intros old_id a.
  { intros [= <-]. split_and!; try done. }
  cbn [match_vars]. destruct (other_vars !! old_id) as [s|] eqn:Es; [|done].
  destruct (vars !! new) as [t|] eqn:Et; [|done]. cbn [mbind option_bind].
  destruct (set_eqb s t) eqn:E; [|done]. apply set_eqb_spec in E.
  intros (Hi & Hout & Hin)%IH. cbn in Hi, Hout. split; [done|]. split.
  - intros v Hv. rewrite Hout.
    + rewrite lookup_insert_ne; [done|]. intros <-. destruct (Hv old_id eq_refl); cbn in *; lia.
    + intros j ->. destruct (Hv j eq_refl); cbn in *; lia.
  - intros [|i] m Hm; cbn in Hm.
    + injection Hm as ->. rewrite Nat.add_0_r. split; [|by exists s, t].
      rewrite Hout; [by rewrite lookup_insert_eq|]. intros j [= <-]. lia.
    + rewrite <-Nat.add_succ_comm. by apply Hin.
Qed.

Lemma match_vars_total vars other_vars old_id var_map a :
  Forall (λ new, new < length vars) var_map → old_id + length var_map ≤ length other_vars →
  is_Some (match_vars vars other_vars old_id var_map a).
Proof.
  intros Hv. revert old_id a. induction Hv as [|new var_map Hnew _ IH]; intros old_id a Hl; [by eexists|].
  cbn in Hl. cbn [match_vars].
  destruct (lookup_lt_is_Some_2 other_vars old_id ltac:(lia)) as [s ->].
  destruct (lookup_lt_is_Some_2 vars new Hnew) as [t ->]. cbn [mbind option_bind].
  destruct (set_eqb s t); [apply IH; lia|by eexists].
Qed.

Lemma input_positions_sound inputs c p :
  im_get c (input_positions inputs) = Some p → inputs !! p = Some c.
Proof.
  unfold input_positions.
  assert (∀ l m, (∀ x, x ∈ l → inputs !! x.1 = Some x.2) →
    (∀ c p, im_get c m = Some p → inputs !! p = Some c) →
    ∀ c p, im_get c (foldl (λ m x, (im_insert x.2 x.1 m).2) m l) = Some p → inputs !! p = Some c) as H.
  { induction l as [|x l IH]; intros m Hl Hm; [done|]. cbn [foldl]. apply IH; [set_solver|].
    intros c' p'. rewrite im_get_insert. case_decide as E; [|apply Hm].
    intros [= <-]. subst c'. apply Hl. left. }
  apply H; [|done]. intros [i d] Hx. apply list_elem_of_lookup in Hx as [k Hk].
  apply lookup_zip_Some in Hk as [Hk1 Hk2]. by apply lookup_seq in Hk1 as [-> _].
Qed.

Lemma adaptator_input_variables a a' i : ad_inputs a = ad_inputs a' → adaptator_input a i = adaptator_input a' i.
Proof. unfold adaptator_input. by intros ->. Qed.

Lemma choice_instance_adapt_variables a a' c :
  ad_variables a = ad_variables a' → choice_instance_adapt a c = choice_instance_adapt a' c.
Proof. unfold choice_instance_adapt, adaptator_variable. by intros ->. Qed.

(** Matching the inputs ends with an adaptator that leads each to an input. *)
Lemma match_inputs_spec input_map inputs old_id a :
  Forall (instance_ok ir) inputs → (∀ i, old_id ≤ i → adaptator_input a i = (i, false)) →
  ∃ o, match_inputs ir input_map old_id inputs a = Some o ∧
    ∀ a', o = Some a' → ad_variables a' = ad_variables a ∧
      (∀ i, i < old_id → adaptator_input a' i = adaptator_input a i) ∧
      ∀ i c, inputs !! i = Some c → ∃ b c' j,
        choice_instance_normalize ir (choice_instance_adapt a c) = Some (b, c') ∧
        im_get c' input_map = Some j ∧ adaptator_input a' (old_id + i) = (j, b).
Proof.
  intros Hin. revert old_id a. induction Hin as [|c inputs Hc _ IH]; intros old_id a Ha.
  { exists (Some a). split; [done|]. intros a' [= <-]. done. }
  destruct (choice_instance_normalize_exact ir Hch _ (instance_ok_adapt a c Hc))
    as (b & c' & En & _). cbn [match_inputs]. rewrite En. cbn [mbind option_bind].
  destruct (im_get c' input_map) as [j|] eqn:Ej; [|by exists None].
  set (a1 := set_input old_id j (if b then set_inversed old_id a else a)).
  assert (∀ i, adaptator_input a1 i = if decide (i = old_id) then (j, b) else adaptator_input a i) as Ha1.
  { intros i. unfold a1. rewrite adaptator_input_set_input. destruct b.
    - rewrite !adaptator_input_inversed. repeat case_decide; by subst.
    - repeat case_decide; subst; try done. by rewrite Ha. }
  assert (ad_variables a1 = ad_variables a) as Hv.
  { unfold a1. rewrite ad_variables_set_input. by destruct b; [apply ad_variables_inversed|]. }
  destruct (IH (S old_id) a1) as (o & E & Ho).
  { intros i Hi. rewrite Ha1, decide_False by lia. apply Ha. lia. }
  exists o. split; [done|]. intros a' ->. destruct (Ho a' eq_refl) as (Hv' & Hlt & Hx).
  split_and!; [by rewrite Hv'| |].
  - intros i Hi. rewrite Hlt, Ha1, decide_False by lia. done.
  - intros [|i] d Hd; cbn in Hd.
    + injection Hd as <-. exists b, c', j. split_and!; try done.
      rewrite Nat.add_0_r, Hlt, Ha1, decide_True by lia. done.
    + destruct (Hx i d Hd) as (b' & d' & j' & H1 & H2 & H3). exists b', d', j'.
      rewrite (choice_instance_adapt_variables a a1), <-Nat.add_succ_comm by done. done.
Qed.

(** An adaptator that maps variable [j] to the [j]-th value of [var_map]. *)
Definition renaming (var_map : list nat) (a : Adaptator) : Prop :=
  (∀ i, adaptator_variable a (Arg i) = Arg i) ∧
  ∀ j, adaptator_variable a (ForallVar j) = ForallVar (default j (var_map !! j)).

Lemma match_vars_renaming vars other_vars var_map a :
  match_vars vars other_vars 0 var_map adaptator_default = Some (Some a) →
  length var_map = length other_vars →
  ad_inputs a = ∅ ∧ renaming var_map a ∧
  ∀ j s, other_vars !! j = Some s → ∃ new t, var_map !! j = Some new ∧ vars !! new = Some t ∧ s ≡ t.
Proof.
  intros (Hi & Hout & Hin)%match_vars_spec Hl. cbn in Hout, Hin. split; [done|]. split.
  - unfold renaming, adaptator_variable. split.
    + intros i. by rewrite Hout, lookup_empty.
    + intros j. destruct (var_map !! j) as [new|] eqn:Ej.
      * by destruct (Hin j new Ej) as [-> _].
      * rewrite Hout, lookup_empty; [done|]. intros j' [= <-]. apply lookup_ge_None in Ej. lia.
  - intros j s Hs. pose proof (lookup_lt_Some _ _ _ Hs) as Hlt. rewrite <-Hl in Hlt.
    destruct (lookup_lt_is_Some_2 _ _ Hlt) as [new Hnew].
    destruct (Hin j new Hnew) as (_ & s' & u & Hs' & Ht & E). cbn in Hs'.
    rewrite Hs in Hs'. injection Hs' as <-. by exists new, u.
Qed.

Lemma set_constraints_eqb_find l k :
  set_constraints_eqb l k = true ↔ Forall2 (λ x y, x.1 = y.1 ∧ x.2 ≡ y.2) l k.
Proof.
  revert k. induction l as [|[v s] l IH]; intros [|[w u] k]; cbn [set_constraints_eqb].
  - split; [constructor|done].
  - split; [done|by inversion 1].
  - split; [done|by inversion 1].
  - rewrite !andb_true_iff, IH, bool_decide_eq_true, set_eqb_spec. split.
    + intros [[-> E] H]. by constructor.
    + inversion 1 as [|? ? ? ? [E1 E2] H1]; simplify_eq/=. done.
Qed.

Section merge.
Context {Obj : Type} (I : Interp Obj) (self other : FlatFilter) (Hm : mergeable self) (Hmo : mergeable other).
Context (Hsc : set_constraints_eqb (ff_set_constraints self) (ff_set_constraints other) = true).

Lemma set_constraints_same env env' :
  same_args env env' →
  Forall (λ x, in_set I env x.2 (env x.1)) (ff_set_constraints self) ↔
  Forall (λ x, in_set I env' x.2 (env' x.1)) (ff_set_constraints other).
Proof.
  intros Hs. destruct Hm as [_ Ha]. pose proof (proj1 (set_constraints_eqb_find _ _) Hsc) as H2.
  clear Hsc Hm Hmo. induction H2 as [|x y l k [Ev Es] _ IH]; [done|].
  apply Forall_cons in Ha as [[[i Hi] Hx] Ha]. rewrite !Forall_cons, (IH Ha), <-Ev, Hi, <-(Hs i).
  assert (in_set I env x.2 (env (Arg i)) ↔ in_set I env' y.2 (env (Arg i))) as ->; [|done].
  rewrite (in_set_args_only I env env' _ _ Hx Hs). split; by apply set_den_named.
Qed.

(** Each way to see the variables of [other] in those of [self]. *)
Lemma ff_domain_pull var_map a env env' :
  renaming var_map a → same_args env' env → (∀ v, env v = env' (adaptator_variable a v)) →
  (∀ j s, ff_vars other !! j = Some s → ∃ new t, var_map !! j = Some new ∧ ff_vars self !! new = Some t ∧ s ≡ t) →
  ff_domain I env' self → ff_domain I env other.
Proof.
  intros [_ Hf] Hs Henv Hx [Hd Hc]. split; [|by apply (set_constraints_same env' env Hs)].
  intros j s Hj. destruct (Hx j s Hj) as (new & u & Hnew & Hu & E).
  rewrite Henv, Hf, Hnew. cbn. destruct Hmo as [Ha _].
  apply (in_set_args_only I env' env _ _ (Forall_lookup_1 _ _ _ _ Ha Hj) Hs).
  apply (set_den_named _ _ u s); [done|]. by apply Hd.
Qed.

(** With as many variables, every choice of objects for [other] is one for [self]. *)
Lemma ff_domain_push var_map a env :
  renaming var_map a → NoDup var_map → (∀ i, i < length (ff_vars self) → i ∈ var_map) →
  (∀ j s, ff_vars other !! j = Some s → ∃ new t, var_map !! j = Some new ∧ ff_vars self !! new = Some t ∧ s ≡ t) →
  length var_map = length (ff_vars other) → Forall (λ new, new < length var_map) var_map →
  ff_domain I env other →
  ∃ env', same_args env env' ∧ (∀ v, env v = env' (adaptator_variable a v)) ∧ ff_domain I env' self.
Proof.
  intros [Ha Hf] Hnd Hsurj Hx Hlen Hlt [Hd Hc].
  set (env' := λ v, match v with
    | ForallVar i => match list_find (eq i) var_map with
                     | Some (j, _) => env (ForallVar j) | None => env (ForallVar i) end
    | Arg i => env (Arg i) end).
  assert (∀ j new, var_map !! j = Some new → env' (ForallVar new) = env (ForallVar j)) as Hnew.
  { intros j new Hj. cbn. rewrite (proj2 (list_find_Some (eq new) var_map j new)); [done|].
    split; [done|]. split; [done|]. intros i y Hi Hij <-. pose proof (NoDup_lookup _ _ _ _ Hnd Hi Hj). lia. }
  assert (∀ i, length var_map ≤ i → env' (ForallVar i) = env (ForallVar i)) as Hout.
  { intros i Hi. cbn. destruct (list_find (eq i) var_map) as [[k y]|] eqn:Ef; [|done]. exfalso.
    apply list_find_Some in Ef as (Hk & <- & _).
    pose proof (Forall_lookup_1 _ _ _ _ Hlt Hk). cbn in *. lia. }
  assert (same_args env env') as Hs by done. clearbody env'.
  exists env'. split; [done|]. split.
  - intros [i|j]; [by rewrite Ha, Hs|]. rewrite Hf. destruct (var_map !! j) as [new|] eqn:Ej; cbn [default].
    + symmetry. by apply Hnew.
    + symmetry. apply Hout. by apply lookup_ge_None.
  - split; [|apply (set_constraints_same env' env); [intros i; by rewrite Hs|done]].
    intros i u Hi. destruct (proj1 (list_elem_of_lookup _ _) (Hsurj i (lookup_lt_Some _ _ _ Hi))) as [j Hj].
    pose proof (lookup_lt_Some _ _ _ Hj) as Hjl. rewrite Hlen in Hjl.
    destruct (lookup_lt_is_Some_2 _ _ Hjl) as [s Hsj].
    destruct (Hx j s Hsj) as (new & u' & Hj' & Hu' & E). rewrite Hj in Hj'. injection Hj' as <-.
    rewrite Hi in Hu'. injection Hu' as <-. rewrite (Hnew j i Hj).
    destruct Hmo as [Hao _]. apply (set_den_named _ _ s u); [done|].
    apply (in_set_args_only I env env' _ _ (Forall_lookup_1 _ _ _ _ Hao Hsj)); [done|]. by apply Hd.
Qed.
End merge.

(** [f] allows no value that [g] rejects. *)
Definition entails (f g : FlatFilter) : Prop :=
  ∀ (Obj : Type) (I : Interp Obj) env v, interp_ok ir I → ff_allows ir I env v f → ff_allows ir I env v g.

(** A filter with more rules. *)
Definition extends (self self' : FlatFilter) : Prop :=
  ff_vars self' = ff_vars self ∧ ff_inputs self' = ff_inputs self ∧
  ff_set_constraints self' = ff_set_constraints self ∧ ff_rules self ⊆ ff_rules self'.

Lemma extends_refl f : extends f f.
Proof. by split_and!. Qed.

Lemma extends_trans f g h : extends f g → extends g h → extends f h.
Proof. intros (H1 & H2 & H3 & H4) (H5 & H6 & H7 & H8). split_and!; [congruence..|set_solver]. Qed.

Lemma extends_entails self self' : extends self self' → entails self' self.
Proof.
  intros (Hv & Hi & Hc & Hr) Obj I env v HI H env' Hs [Hd1 Hd2].
  unfold rules_allow. rewrite <-Hi. apply Forall_forall. intros r Hin%Hr.
  assert (ff_domain I env' self') as Hd by (split; [by rewrite Hv|by rewrite Hc]).
  specialize (H env' Hs Hd). unfold rules_allow in H. rewrite Forall_forall in H. by apply H.
Qed.

Lemma extends_mergeable self self' : extends self self' → mergeable self → mergeable self'.
Proof. intros (Hv & _ & Hc & _). unfold mergeable. by rewrite Hv, Hc. Qed.

Lemma ff_ok_extend t self rules :
  ff_ok ir t self → rules_ok ir (ff_inputs self) t rules →
  ff_ok ir t (mkFlatFilter (ff_vars self) (ff_inputs self) (ff_rules self ++ rules) (ff_set_constraints self)).
Proof.
  intros [Hi Hn [Hr Hu]] [Hr' Hu']. constructor; [done|done|]. split; by apply Forall_app.
Qed.

(** The rules added for one mapping of the variables. *)
Lemma merge_one t self other var_map a :
  ff_ok ir t self → ff_ok ir t other → mergeable self → mergeable other →
  set_constraints_eqb (ff_set_constraints self) (ff_set_constraints other) = true →
  is_partial_permutation (seq 0 (length (ff_vars self))) (length (ff_vars other)) var_map →
  match_vars (ff_vars self) (ff_vars other) 0 var_map adaptator_default = Some (Some a) →
  ∃ o, match_inputs ir (input_positions (ff_inputs self)) 0 (ff_inputs other) a = Some o ∧
    ∀ a', o = Some a' → ∃ rules, mapM (rule_adapt a') (ff_rules other) = Some rules ∧
      let self' := mkFlatFilter (ff_vars self) (ff_inputs self) (ff_rules self ++ rules)
                     (ff_set_constraints self) in
      ff_ok ir t self' ∧ extends self self' ∧
      (∀ (Obj : Type) (I : Interp Obj) env v, interp_ok ir I →
        ff_allows ir I env v self → ff_allows ir I env v other → ff_allows ir I env v self') ∧
      (length (ff_vars self) = length (ff_vars other) → entails self' other).
Proof.
  intros Hs Ho Hm Hmo Hsc (Hl & Hnd & Hsub) Hv.
  destruct (match_vars_renaming _ _ _ _ Hv Hl) as (Hai & Hren & Hx).
  destruct (match_inputs_spec (input_positions (ff_inputs self)) (ff_inputs other) 0 a (ff_inputs_ok _ _ _ Ho))
    as (o & E & Hmi); [intros i _; apply adaptator_input_fresh; by rewrite Hai|].
  exists o. split; [done|]. intros a' ->. destruct (Hmi a' eq_refl) as (Hav & _ & Hin). clear Hmi.
  assert (renaming var_map a') as Hren' by (unfold renaming, adaptator_variable in *; by rewrite Hav).
  destruct (ff_rules_ok _ _ _ Ho) as [Hr Hu].
  destruct (rules_adapt_env ir Hir a' (ff_inputs other) (ff_inputs self) t _ Hr) as (rules & Er & Hr' & Hu' & Hxr).
  { eapply Forall_impl; [exact Hu|]. cbn. intros r Hur. eapply Forall_impl; [exact Hur|]. cbn. intros i Hi.
    destruct (lookup_lt_is_Some_2 _ _ Hi) as [c Hc]. destruct (Hin i c Hc) as (b & c' & j & Hn & Hj & Haj).
    rewrite (choice_instance_adapt_variables a a') in Hn by done.
    eapply leads_to_normalized; [exact Hc|exact (Forall_lookup_1 _ _ _ _ (ff_inputs_ok _ _ _ Ho) Hc)|exact Hn|exact Haj|].
    by apply input_positions_sound. }
  exists rules. split; [done|]. intros self'. split; [by apply ff_ok_extend|].
  assert (extends self self') as Hext by (split_and!; try done; set_solver).
  split; [done|]. split.
  - intros Obj I env v HI H1 H2 env' Hse Hd. unfold rules_allow. cbn [ff_inputs ff_rules self'].
    apply Forall_app. split; [by apply H1|].
    set (env2 := λ x, env' (adaptator_variable a' x)).
    apply (Hxr Obj I env2 env' v HI ltac:(done)).
    assert (same_args env' env2) as Hs2 by (intros i; unfold env2; by rewrite (proj1 Hren')).
    apply H2; [intros i; by rewrite (Hse i)|].
    by apply (ff_domain_pull I self other Hm Hmo Hsc var_map a' env2 env').
  - intros Hlen Obj I env v HI H env2 Hse Hd.
    assert (Forall (λ new, new < length var_map) var_map) as Hlt.
    { apply Forall_forall. intros x Hx'%Hsub%elem_of_seq. lia. }
    assert (∀ i, i < length (ff_vars self) → i ∈ var_map) as Hsurj.
    { intros i Hi. assert (var_map ≡ₚ seq 0 (length (ff_vars self))) as ->.
      { apply submseteq_length_Permutation; [by apply NoDup_submseteq|rewrite length_seq; lia]. }
      apply elem_of_seq. lia. }
    destruct (ff_domain_push I self other Hm Hmo Hsc var_map a' env2 Hren' Hnd Hsurj Hx Hl Hlt Hd)
      as (env' & Hs' & Henv & Hd').
    specialize (H env' ltac:(intros i; by rewrite (Hse i)) Hd'). unfold rules_allow in H.
    cbn [ff_inputs ff_rules self'] in H. apply Forall_app in H as [_ H].
    by apply (Hxr Obj I env2 env' v HI Henv).
Qed.

(** What merging [other] into [self] gives. *)
Definition merges (t : ValueType) (self other : FlatFilter) (merged b : bool) (self' : FlatFilter) : Prop :=
  ff_ok ir t self' ∧ extends self self' ∧
  (∀ (Obj : Type) (I : Interp Obj) env v, interp_ok ir I →
    ff_allows ir I env v self → ff_allows ir I env v other → ff_allows ir I env v self') ∧
  (b = true → merged = true ∨ entails self' other).

Lemma merges_trans t self1 self2 self3 other m1 m2 b :
  merges t self1 other m1 m2 self2 → merges t self2 other m2 b self3 → merges t self1 other m1 b self3.
Proof.
  intros (_ & (Ev & Ei & Ec & Er) & Hx1 & Hb1) (Hok & Hext & Hx2 & Hb2).
  pose proof Hext as (Ev' & Ei' & Ec' & Er'). split_and!; [done| | |].
  - split_and!; [congruence..|set_solver].
  - intros Obj I env v HI H1 H2. apply Hx2; auto.
  - intros [->|He]%Hb2; [|by right]. destruct (Hb1 eq_refl) as [->|He]; [by left|right].
    intros Obj I env v HI H. apply He; [done|]. by apply (extends_entails self2 self3).
Qed.

Lemma merges_refl t self other merged : ff_ok ir t self → merges t self other merged merged self.
Proof. intros Hok. split_and!; try done. intros ->. by left. Qed.

Lemma merge_var_maps_spec t self other merged var_maps :
  ff_ok ir t self → ff_ok ir t other → mergeable self → mergeable other →
  set_constraints_eqb (ff_set_constraints self) (ff_set_constraints other) = true →
  Forall (is_partial_permutation (seq 0 (length (ff_vars self))) (length (ff_vars other))) var_maps →
  ∃ b self', merge_var_maps ir (input_positions (ff_inputs self)) other self merged var_maps = Some (b, self') ∧
    merges t self other merged b self'.
Proof.
  intros Hs Ho Hm Hmo Hsc Hp. revert self merged Hs Hm Hsc Hp.
  induction var_maps as [|var_map var_maps IH]; intros self merged Hs Hm Hsc Hp.
  { exists merged, self. split; [done|]. by apply merges_refl. }
  apply Forall_cons in Hp as [Hp Hps]. cbn [merge_var_maps].
  destruct (match_vars_total (ff_vars self) (ff_vars other) 0 var_map adaptator_default) as [[a|] Ev].
  { destruct Hp as (_ & _ & Hsub). apply Forall_forall. intros x Hx%Hsub%elem_of_seq. lia. }
  { destruct Hp as (-> & _). lia. }
  - rewrite Ev. cbn [mbind option_bind].
    destruct (merge_one t self other var_map a Hs Ho Hm Hmo Hsc Hp Ev) as (o & Eo & Hone).
    rewrite Eo. cbn [mbind option_bind]. destruct o as [a'|]; [|by apply IH].
    destruct (Hone a' eq_refl) as (rules & Er & Hok & Hext & Hx & He). rewrite Er. cbn [mbind option_bind].
    set (self1 := mkFlatFilter _ _ _ _) in *.
    assert (∀ b, (b = true → merged = true ∨ entails self1 other) → merges t self other merged b self1) as Hm1
      by (by intros b Hb; split_and!).
    assert (∀ m1, (m1 = true → merged = true ∨ entails self1 other) → ∃ b self',
      merge_var_maps ir (input_positions (ff_inputs self)) other self1 m1 var_maps = Some (b, self') ∧
      merges t self other merged b self') as Hrec.
    { intros m1 Hb. destruct (IH self1 m1 Hok (extends_mergeable _ _ Hext Hm) Hsc Hps) as (b & self' & E & Hmg).
      exists b, self'. split; [exact E|]. by apply (merges_trans t self self1 self' other merged m1 b (Hm1 m1 Hb)). }
    cbn [ff_vars ff_inputs self1]. destruct (Nat.eqb_spec (length (ff_vars self)) (length (ff_vars other))) as [El|_].
    + case_bool_decide.
      * exists true, self1. split; [done|]. apply Hm1. auto.
      * apply Hrec. auto.
    + apply Hrec. auto.
  - rewrite Ev. cbn [mbind option_bind]. by apply IH.
Qed.

Lemma try_merge_spec t self other :
  ff_ok ir t self → ff_ok ir t other → mergeable self → mergeable other →
  ∃ b self', try_merge ir self other = Some (b, self') ∧ merges t self other false b self'.
Proof.
  intros Hs Ho Hm Hmo. unfold try_merge.
  assert (merges t self other false false self) as Hr by by apply merges_refl.
  destruct (negb (Bool.eqb _ _)); [by exists false, self|].
  destruct (set_constraints_eqb (ff_set_constraints self) (ff_set_constraints other)) eqn:Hsc;
    [cbn [negb]|by exists false, self].
  destruct (pp_collect_bounded (seq 0 (length (ff_vars self))) (length (ff_vars other)) (NoDup_seq _ _))
    as (l & El & _ & Hl). rewrite length_seq in El. rewrite El. cbn [mbind option_bind].
  apply merge_var_maps_spec; try done. apply Forall_forall. intros q. apply Hl.
Qed.

Lemma merge_into_spec t f merged others :
  ff_ok ir t f → mergeable f → Forall (λ g, ff_ok ir t g ∧ mergeable g) others →
  ∃ b others', merge_into ir f merged others = Some (b, others') ∧
    Forall (λ g, ff_ok ir t g ∧ mergeable g) others' ∧ Forall2 extends others others' ∧
    ∀ (Obj : Type) (I : Interp Obj) env v, interp_ok ir I →
      (Forall (ff_allows ir I env v) others → ff_allows ir I env v f → Forall (ff_allows ir I env v) others') ∧
      (Forall (ff_allows ir I env v) others' → Forall (ff_allows ir I env v) others ∧
        (b = true → merged = true ∨ ff_allows ir I env v f)).
Proof.
  intros Hf Hmf Ho. revert merged. induction Ho as [|g others [Hg Hmg] _ IH]; intros merged.
  { exists merged, []. split; [done|]. split; [done|]. split; [done|]. intros. split; [done|]. intros _. split; [done|]. by left. }
  destruct (try_merge_spec t g f Hg Hf Hmg Hmf) as (b & g' & E & Hg' & Hext & Hx & Hb).
  destruct (IH (merged || b)) as (b' & others' & E' & Hoks & Hexts & Hxs).
  exists b', (g' :: others'). cbn [merge_into]. rewrite E. cbn [mbind option_bind]. rewrite E'.
  split; [done|]. split.
  { constructor; [|done]. split; [done|]. by apply (extends_mergeable g). }
  split; [by constructor|]. intros Obj I env v HI. destruct (Hxs Obj I env v HI) as [H1 H2]. split.
  - intros [Hgv Hov]%Forall_cons Hfv. constructor; [by apply Hx|by apply H1].
  - intros [Hgv Hov]%Forall_cons. destruct (H2 Hov) as [H3 H4]. split.
    + constructor; [|done]. by apply (extends_entails g g').
    + intros [Hmb|Hfv]%H4; [|by right]. apply orb_true_iff in Hmb as [->| ->]; [by left|].
      right. destruct (Hb eq_refl) as [?|He]; [done|]. by apply He.
Qed.

Lemma merge_filters_exact t filters :
  Forall (λ g, ff_ok ir t g ∧ mergeable g) filters →
  ∃ l, merge_filters ir filters = Some l ∧ Forall (λ g, ff_ok ir t g ∧ mergeable g) l ∧
    Forall (λ g, ∃ f, f ∈ filters ∧ extends f g) l ∧
    ∀ (Obj : Type) (I : Interp Obj) env v, interp_ok ir I →
      (Forall (ff_allows ir I env v) l ↔ Forall (ff_allows ir I env v) filters).
Proof.
  intros Hf. unfold merge_filters.
  assert (∀ todo done, Forall (λ g, ff_ok ir t g ∧ mergeable g) todo →
    Forall (λ g, ff_ok ir t g ∧ mergeable g) done →
    ∃ l, foldM (merge_turn ir) todo done = Some l ∧ Forall (λ g, ff_ok ir t g ∧ mergeable g) l ∧
      Forall (λ g, ∃ f, f ∈ todo ++ done ∧ extends f g) l ∧
      ∀ (Obj : Type) (I : Interp Obj) env v, interp_ok ir I →
      (Forall (ff_allows ir I env v) l ↔
       Forall (ff_allows ir I env v) done ∧ Forall (ff_allows ir I env v) todo)) as Hgen.
  { clear filters Hf. intros todo. induction todo as [|f todo IH]; intros done Htodo Hdone.
    { exists done. split; [easy|]. split; [easy|]. split; [|intros; rewrite Forall_nil; tauto].
      apply Forall_forall. intros g Hg. exists g. split; [easy|apply extends_refl]. }
    apply Forall_cons in Htodo as [[Hf Hmf] Htodo].
    destruct (merge_into_spec t f false done Hf Hmf Hdone) as (b & done' & E & Hd' & Hext & Hx).
    set (next := if b then done' else done' ++ [f]).
    destruct (IH next Htodo) as (l & El & Hl & Hle & Hxl).
    { unfold next. destruct b; [done|]. apply Forall_app. split; [done|]. by constructor. }
    exists l. cbn [foldM].
    assert (merge_turn ir done f = Some next) as -> by (unfold merge_turn; by rewrite E).
    cbn [mbind option_bind].
    split; [done|]. split; [done|]. split.
    { eapply Forall_impl; [exact Hle|]. intros g (g0 & Hg0 & Hg). apply elem_of_app in Hg0 as [Hg0|Hg0].
      { exists g0. split; [|exact Hg]. apply elem_of_app. left. by right. }
      assert (g0 ∈ done' ∨ g0 = f) as [Hd0| ->].
      { unfold next in Hg0. destruct b; [by left|]. apply elem_of_app in Hg0 as [?|?%list_elem_of_singleton]; auto. }
      - apply list_elem_of_lookup in Hd0 as [k Hk]. destruct (Forall2_lookup_r _ _ _ _ _ Hext Hk) as (g1 & Hk1 & He1).
        exists g1. split; [|by apply (extends_trans g1 g0 g)]. apply elem_of_app. right. by eapply list_elem_of_lookup_2.
      - exists f. split; [apply elem_of_app; left; left|exact Hg]. }
    intros Obj I env v HI. rewrite (Hxl Obj I env v HI), Forall_cons.
    destruct (Hx Obj I env v HI) as [H1 H2]. unfold next. destruct b.
    - split; [intros [Hd Ht]|intros (Hd & Hfv & Ht); split; [by apply H1|done]].
      destruct (H2 Hd) as [H3 H4]. split; [done|]. split; [|done]. by destruct (H4 eq_refl).
    - rewrite Forall_app, Forall_singleton. split; [|intros (Hd & Hfv & Ht); split_and!; [by apply H1|done|done]].
      intros [[Hd Hfv] Ht]. by destruct (H2 Hd). }
  destruct (Hgen (reverse (rsort_by_key (λ f, length (ff_inputs f)) filters)) []) as (l & El & Hl & Hle & Hx).
  { by rewrite reverse_Permutation, rsort_by_key_perm. }
  { constructor. }
  exists l. split; [done|]. split; [done|]. split.
  { eapply Forall_impl; [exact Hle|]. intros g (f & Hf' & He). exists f. split; [|done].
    by rewrite app_nil_r, elem_of_reverse, rsort_by_key_perm in Hf'. }
  intros Obj I env v HI.
  rewrite (Hx Obj I env v HI), reverse_Permutation, rsort_by_key_perm, Forall_nil. tauto.
Qed.
End facts.
