(* ===== verification/Environments.v ===== *)
(** * Environments of choices (the second half of telamon-gen/src/ir/mod.rs)

    A constraint, a trigger or a counter binds variables to sets.  To act on a choice the
    binding is seen from its arguments: they keep the objects they stand for, the other
    variables are quantified, and the sets of the arguments that are smaller than what the
    choice expects become constraints.  A constraint whose parameter is quantified is
    turned around: the parameter ranges over the reverse set. *)
From S2P Require Import Prelude Utils Orders GenSets Filters FilterSemantics Adapting Instances.

(** The loop on the arguments of the instance: each takes its variable out of the
    environment, and is constrained to its set unless the choice expects that very set. *)
Fixpoint bind_arguments (arg_id : nat) (src_vars : list (Var * GSet)) (vars : gmap Var GSet)
    (a : Adaptator) (constraints : list (Var * GSet))
  : option (gmap Var GSet * Adaptator * list (Var * GSet)) :=
  match src_vars with
  | [] => Some (vars, a, constraints)
  | (mapped_var, given_set) :: src_vars =>
    expected_set ← vars !! mapped_var;
    bind_arguments (S arg_id) src_vars (delete mapped_var vars)
      (set_variable mapped_var (Arg arg_id) a).2
      (if set_eqb expected_set given_set then constraints
       else constraints ++ [(Arg arg_id, expected_set)])
  end.

(** The loop on the remaining variables: those that were arguments come first. *)
Fixpoint bind_foralls (forall_id : nat) (vars : list (Var * GSet)) (a : Adaptator)
    (arg_foralls other_foralls : list GSet) : Adaptator * list GSet * list GSet :=
  match vars with
  | [] => (a, arg_foralls, other_foralls)
  | (mapped_var, set) :: vars =>
    let a := (set_variable mapped_var (ForallVar forall_id) a).2 in
    match mapped_var with
    | Arg _ => bind_foralls (S forall_id) vars a (arg_foralls ++ [set]) other_foralls
    | ForallVar _ => bind_foralls (S forall_id) vars a arg_foralls (other_foralls ++ [set])
    end
  end.

(** One constraint whose parameter is quantified, turned around. *)
Definition reverse_constraint (live : string → option SetDef) (var : Var) (set : GSet)
    (forall_id : nat) (arg_foralls other_foralls : list GSet)
  : option (GSet * list GSet * list GSet) :=
  let! forall_set :=
    if forall_id <? length arg_foralls then arg_foralls !! forall_id
    else other_foralls !! (forall_id - length arg_foralls) in
  let! reversed := set_reverse live set var forall_set in
  '(superset, reverse_set) ← reversed;
  rassert (bool_decide (set_arg superset = None));;
  Some (superset,
    if forall_id <? length arg_foralls then <[forall_id := reverse_set]> arg_foralls else arg_foralls,
    if forall_id <? length arg_foralls then other_foralls
    else <[forall_id - length arg_foralls := reverse_set]> other_foralls).

Fixpoint reverse_constraints (live : string → option SetDef) (constraints : list (Var * GSet))
    (arg_foralls other_foralls : list GSet)
  : option (list (Var * GSet) * list GSet * list GSet) :=
  match constraints with
  | [] => Some ([], arg_foralls, other_foralls)
  | (var, set) :: constraints =>
    let! turned :=
      match set_arg set with
      | Some (ForallVar forall_id) => reverse_constraint live var set forall_id arg_foralls other_foralls
      | _ => Some (set, arg_foralls, other_foralls)
      end in
    let '(set, arg_foralls, other_foralls) := turned in
    let! rest := reverse_constraints live constraints arg_foralls other_foralls in
    let '(constraints, arg_foralls, other_foralls) := rest in
    Some ((var, set) :: constraints, arg_foralls, other_foralls)
  end.

(** The [retain] that ends [adapt_env_ext]. *)
Definition retained (arguments : ChoiceArguments) (x : Var * GSet) : option bool :=
  match set_arg x.2 with
  | Some (ForallVar _) =>
    match x.1 with
    | Arg arg_id => given ← arguments_get arguments arg_id; Some (negb (is_subset_of_def given.2 x.2))
    | ForallVar _ => panic
    end
  | _ => Some true
  end.

Fixpoint retain_constraints (arguments : ChoiceArguments) (constraints : list (Var * GSet))
  : option (list (Var * GSet)) :=
  match constraints with
  | [] => Some []
  | x :: constraints =>
    let! keep := retained arguments x in
    let! rest := retain_constraints arguments constraints in
    Some (if (keep : bool) then x :: rest else rest)
  end.

(** [IrDesc::adapt_env_ext]. *)
Definition adapt_env_ext (ir : IrDesc) (vars : gmap Var GSet) (choice_instance : ChoiceInstance)
  : option (list GSet * list GSet * SetConstraints * Adaptator) :=
  target ← get_choice ir (ci_choice choice_instance);
  src_vars ← zip_eq (ci_vars choice_instance) (arguments_sets (arguments target));
  '(vars, a, constraints) ← bind_arguments 0 src_vars vars adaptator_default [];
  let '(a, arg_foralls, other_foralls) :=
    bind_foralls 0 (rsort_by_key fst (map_to_list vars)) a [] [] in
  let constraints := (λ x, (x.1, set_adapt a x.2)) <$> constraints in
  '(constraints, arg_foralls, other_foralls) ←
    reverse_constraints (get_set_def ir) constraints (set_adapt a <$> arg_foralls)
      (set_adapt a <$> other_foralls);
  constraints ← retain_constraints (arguments target) constraints;
  Some (arg_foralls, other_foralls, set_constraints_new constraints, a).

(** [IrDesc::adapt_env]. *)
Definition adapt_env (ir : IrDesc) (vars : gmap Var GSet) (choice_instance : ChoiceInstance)
  : option (list GSet * SetConstraints * Adaptator) :=
  '(arg_foralls, other_foralls, set_constraints, a) ← adapt_env_ext ir vars choice_instance;
  Some (arg_foralls ++ other_foralls, set_constraints, a).

(** * Theorems *)

(** ** Binding variables *)

Lemma adaptator_variable_set a old new v :
  adaptator_variable (set_variable old new a).2 v = if decide (v = old) then new else adaptator_variable a v.
Proof.
  unfold adaptator_variable, set_variable. cbn. case_decide as E; [subst; by rewrite lookup_insert_eq|].
  by rewrite lookup_insert_ne.
Qed.

Lemma bind_arguments_spec k src vars a cs :
  NoDup src.*1 → (∀ v, v ∈ src.*1 → is_Some (vars !! v)) →
  ∃ vars' a' new, bind_arguments k src vars a cs = Some (vars', a', cs ++ new) ∧
    (∀ v, vars' !! v = if decide (v ∈ src.*1) then None else vars !! v) ∧
    ad_inputs a' = ad_inputs a ∧
    (∀ v, v ∉ src.*1 → adaptator_variable a' v = adaptator_variable a v) ∧
    (∀ i v given, src !! i = Some (v, given) → adaptator_variable a' v = Arg (k + i)) ∧
    ∀ c, c ∈ new ↔ ∃ i v given, src !! i = Some (v, given) ∧ vars !! v = Some c.2 ∧
      c.1 = Arg (k + i) ∧ ¬ c.2 ≡ given.
Proof.
  revert k vars a cs. induction src as [|[v g] src IH]; intros k vars a cs Hnd Hv.
  { exists vars, a, []. rewrite app_nil_r. split_and!; try done.
    intros c. split; [by intros ?%elem_of_nil|]. by intros (i & ? & ? & H & _). }
  cbn [fmap list_fmap] in Hnd, Hv. apply NoDup_cons in Hnd as [Hvs Hnd]. cbn [fst] in *.
  destruct (Hv v ltac:(left)) as [s Es]. cbn [bind_arguments]. rewrite Es. cbn [mbind option_bind].
  set (cs1 := if set_eqb s g then cs else cs ++ [(Arg k, s)]).
  destruct (IH (S k) (delete v vars) (set_variable v (Arg k) a).2 cs1 Hnd)
    as (vars' & a' & new & E & Hvars & Hin & Hout & Hmap & Hnew).
  { intros u Hu. rewrite lookup_delete_ne; [apply Hv; by right|]. by intros ->. }
  exists vars', a', ((if set_eqb s g then [] else [(Arg k, s)]) ++ new). rewrite E. split.
  { f_equal. f_equal. unfold cs1. by destruct (set_eqb s g); cbn; [|rewrite <-app_assoc]. }
  split; [|split_and!].
  - intros u. rewrite Hvars. destruct (decide (u = v)) as [->|Hne].
    + rewrite lookup_delete_eq, decide_False by done. by rewrite decide_True by left.
    + rewrite lookup_delete_ne by done. apply decide_ext. rewrite fmap_cons, elem_of_cons. cbn. naive_solver.
  - by rewrite Hin.
  - intros u Hu. rewrite fmap_cons, not_elem_of_cons in Hu. cbn in Hu. destruct Hu as [Huv Hu].
    by rewrite Hout, adaptator_variable_set, decide_False by done.
  - intros [|i] u g' Hi; cbn in Hi.
    + injection Hi as <- <-. by rewrite Hout, adaptator_variable_set, decide_True, Nat.add_0_r by done.
    + rewrite <-Nat.add_succ_comm. by apply (Hmap i u g').
  - intros c. rewrite elem_of_app, Hnew. split.
    + intros [Hc|(i & u & g' & Hi & Hu & Hc & Hn)].
      * destruct (set_eqb s g) eqn:Eq; [by apply elem_of_nil in Hc|].
        apply list_elem_of_singleton in Hc as ->. exists 0, v, g. rewrite Nat.add_0_r.
        split_and!; try done. cbn. rewrite <-set_eqb_spec. by rewrite Eq.
      * exists (S i), u, g'. rewrite <-Nat.add_succ_comm. split_and!; try done.
        apply lookup_delete_Some in Hu as [_ Hu]. done.
    + intros ([|i] & u & g' & Hi & Hu & Hc & Hn); cbn in Hi.
      * injection Hi as <- <-. left. rewrite Es in Hu. injection Hu as ->.
        rewrite Nat.add_0_r in Hc. destruct (set_eqb c.2 g) eqn:Eq; [by apply set_eqb_spec in Eq|].
        apply list_elem_of_singleton. by destruct c; cbn in *; subst.
      * right. exists i, u, g'. rewrite Nat.add_succ_comm. split_and!; try done.
        rewrite lookup_delete_ne; [done|]. intros <-. apply Hvs, list_elem_of_fmap.
        exists (v, g'). split; [done|]. by eapply list_elem_of_lookup_2.
Qed.

Definition is_arg (x : Var * GSet) : bool := match x.1 with Arg _ => true | ForallVar _ => false end.

Lemma bind_foralls_spec k l a af os :
  NoDup l.*1 →
  ∃ a', bind_foralls k l a af os =
      (a', af ++ (filter (λ x, is_arg x = true) l).*2, os ++ (filter (λ x, is_arg x = false) l).*2) ∧
    ad_inputs a' = ad_inputs a ∧
    (∀ v, v ∉ l.*1 → adaptator_variable a' v = adaptator_variable a v) ∧
    (∀ i v s, l !! i = Some (v, s) → adaptator_variable a' v = ForallVar (k + i)).
Proof.
  revert k a af os. induction l as [|[v s] l IH]; intros k a af os Hnd.
  { exists a. cbn. by rewrite !app_nil_r. }
  cbn [fmap list_fmap] in Hnd. apply NoDup_cons in Hnd as [Hv Hnd]. cbn [fst] in *.
  set (a1 := (set_variable v (ForallVar k) a).2).
  destruct (IH (S k) a1 (af ++ (if is_arg (v, s) then [s] else [])) (os ++ (if is_arg (v, s) then [] else [s])) Hnd)
    as (a' & E & Hin & Hout & Hmap).
  exists a'. split.
  { rewrite !filter_cons. cbn [bind_foralls]. fold a1.
    destruct v as [i|i]; cbn in E |- *; rewrite ?app_nil_r in E; rewrite E; cbn; by rewrite <-!app_assoc. }
  split_and!.
  - done.
  - intros u Hu. rewrite fmap_cons, not_elem_of_cons in Hu. cbn in Hu. destruct Hu as [Huv Hu].
    unfold a1 in Hout. by rewrite Hout, adaptator_variable_set, decide_False by done.
  - intros [|i] u s' Hi; cbn in Hi.
    + injection Hi as <- <-. unfold a1 in Hout.
      by rewrite Hout, adaptator_variable_set, decide_True, Nat.add_0_r by done.
    + rewrite <-Nat.add_succ_comm. by apply (Hmap i u s').
Qed.

(** Sorted variables: the arguments come before the others. *)
Lemma sorted_variables_split (l : list (Var * GSet)) :
  StronglySorted rle l.*1 →
  filter (λ x, is_arg x = true) l ++ filter (λ x, is_arg x = false) l = l.
Proof.
  induction l as [|[v s] l IH]; intros Hs; [done|]. cbn in Hs. inversion Hs as [|? ? Hs' Hv]; subst.
  rewrite !filter_cons. destruct v as [i|i]; cbn [is_arg fst].
  - rewrite decide_True, decide_False by done. cbn. f_equal. by apply IH.
  - assert (filter (λ x, is_arg x = true) l = []) as E.
    { apply elem_of_nil_inv. intros [u t] [Hu Hut]%list_elem_of_filter. rewrite Forall_forall in Hv.
      specialize (Hv u ltac:(apply list_elem_of_fmap; by exists (u, t))). by destruct u. }
    rewrite decide_False, decide_True, E by done. cbn. f_equal. rewrite <-(IH Hs') at 2. by rewrite E.
Qed.

(** ** Reverse sets *)

(** A set that can be turned around into a set without parameter. *)
Definition invertible (live : string → option SetDef) (s : GSet) : Prop :=
  ∃ r, def_reverse live (set_def s) = Some (Some r) ∧ wf_def r ∧ is_Some (def_arg r) ∧
    ∀ sup, match set_reverse_constraint s with Some c => Some c | None => def_arg r end = Some sup →
      set_arg sup = None.

Lemma invertible_adapt live a s : invertible live s → invertible live (set_adapt a s).
Proof.
  intros (r & Hr & Hwf & Ha & Hs). destruct s as [d rc v]. exists r. split_and!; try done.
  intros sup Hsup. cbn in *. destruct rc as [c|]; [|by apply Hs].
  injection Hsup as <-. destruct c as [d' rc' v']. by rewrite (Hs _ eq_refl : v' = None).
Qed.

Lemma list_insert_forall {A : Type} (P : nat → A → Prop) (l : list A) i s s' :
  l !! i = Some s → (P i s' ∧ ∀ j t, j ≠ i → l !! j = Some t → P j t) ↔ ∀ j t, <[i := s']> l !! j = Some t → P j t.
Proof.
  intros Hi. pose proof (lookup_lt_Some _ _ _ Hi) as Hlt. split.
  - intros [H1 H2] j t. destruct (decide (j = i)) as [->|Hne].
    + rewrite list_lookup_insert_eq by done. by intros [= <-].
    + rewrite list_lookup_insert_ne by done. by apply H2.
  - intros H. split; [apply H; by rewrite list_lookup_insert_eq|].
    intros j t Hne Hj. apply H. by rewrite list_lookup_insert_ne.
Qed.

Lemma lookup_app_cases {A : Type} (l k : list A) i :
  (l ++ k) !! i = if i <? length l then l !! i else k !! (i - length l).
Proof. destruct (Nat.ltb_spec i (length l)); [by rewrite lookup_app_l|by rewrite lookup_app_r]. Qed.

(** Sets with a parameter have a definition with an argument. *)
Fixpoint params_wf (s : GSet) : Prop :=
  match s with
  | mkSet d rc v =>
    (is_Some v → is_Some (def_arg d)) ∧ match rc with Some r => params_wf r | None => True end
  end.

Lemma params_wf_adapt a s : params_wf s → params_wf (set_adapt a s).
Proof.
  revert s. fix IH 1. intros [d rc v]. cbn. intros [Hd Hr]. split.
  - intros Hv. apply Hd. by destruct v as [v|]; [|destruct Hv].
  - destruct rc as [c|]; [by apply IH|done].
Qed.

Lemma wf_set_params_wf s : wf_set s → params_wf s.
Proof.
  revert s. fix IH 1. intros [d rc v]. cbn. intros (Hv & _ & Hr). split; [by apply Hv|].
  destruct rc as [c|]; [by apply IH|done].
Qed.

Section reversal.
Context {Obj : Type} (live : string → option SetDef) (U : SetDef → Prop) (I : Interp Obj).

(** The universe of definitions is closed under reversal, a reverse set holds the
    parameters of the sets that hold an object, and its argument the objects. *)
Record reversible_sets : Prop := {
  rs_model : set_model U (λ d, i_den I (def_name d));
  rs_closed d r : U d → def_reverse live d = Some (Some r) → U r;
  rs_den d r x y : U d → def_reverse live d = Some (Some r) →
    i_den I (def_name d) (Some y) x ↔ i_den I (def_name r) (Some x) y;
  rs_arg d r s x y env : U d → def_reverse live d = Some (Some r) → def_arg r = Some s →
    set_arg s = None → i_den I (def_name d) (Some y) x → in_set I env s x
}.

Context (HU : reversible_sets).

Definition good_set (s : GSet) : Prop := set_in U s ∧ params_wf s.

Lemma set_reverse_exact s fid v arg :
  set_in U s → good_set arg → invertible live s → set_arg s = Some fid →
  ∃ sup rev, set_reverse live s v arg = Some (Some (sup, rev)) ∧ set_arg sup = None ∧
    good_set rev ∧
    ∀ env, (in_set I env s (env v) ∧ in_set I env arg (env fid)) ↔
           (in_set I env sup (env v) ∧ in_set I env rev (env fid)).
Proof.
  intros Hs [Harg Hpw] (r & Hr & Hwf & Ha & Hsup) Hfid. destruct s as [d rc w]. cbn in Hr, Hsup, Hfid.
  subst w. cbn in Hs. destruct Hs as [Hd Hrc]. pose proof (rs_closed HU d r Hd Hr) as HUr.
  unfold set_reverse. cbn [set_def set_reverse_constraint]. rewrite Hr. cbn [mbind option_bind].
  assert (∃ sup, (match rc with Some r => Some r | None => def_arg r end) = Some sup) as [sup Esup]
    by (destruct rc as [c|]; [by exists c|by destruct Ha as [s ->]; exists s]).
  rewrite Esup. cbn [mbind option_bind]. unfold set_new. rewrite decide_True by (split; [done|by eexists]).
  cbn [mbind option_bind].
  destruct (is_subset_of_total (mkSet r None (Some v)) arg) as [b Eb].
  { cbn. split_and!; [split; [done|by eexists]|done|done]. }
  rewrite Eb. cbn [mbind option_bind]. eexists sup, _. split; [done|].
  pose proof (Hsup sup Esup) as Hsa. split; [done|].
  assert (set_in U (if b then mkSet r None (Some v) else mkSet r (Some arg) (Some v))) as Hin
    by (by destruct b; cbn).
  split; [destruct b; (split; [done|]); cbn; by split|]. intros env. cbn [set_def set_arg].
  assert (in_set I env (if b then mkSet r None (Some v) else mkSet r (Some arg) (Some v)) (env fid) ↔
    i_den I (def_name r) (Some (env v)) (env fid) ∧ in_set I env arg (env fid)) as Hrev.
  { destruct b; [|done]. split; [|by intros [H _]]. intros [H _]. split; [done|].
    apply (is_subset_of_den U _ (rs_model HU) env (mkSet r None (Some v)) arg); [by split|done|done|by split]. }
  rewrite Hrev. unfold in_set at 1. cbn [set_den fmap option_fmap option_map].
  rewrite (rs_den HU d r _ _ Hd Hr). destruct rc as [c|]; cbn in Esup.
  - injection Esup as ->. fold (in_set I env sup (env v)). tauto.
  - split; [|tauto]. intros [[H _] Harg']. split; [|done].
    apply (rs_arg HU d r sup _ (env fid) env Hd Hr Esup Hsa). by apply (rs_den HU d r).
Qed.

(** The environment that a choice quantifies over. *)
Definition bound_domain (env : Var → Obj) (foralls : list GSet) (constraints : list (Var * GSet)) : Prop :=
  (∀ j s, foralls !! j = Some s → in_set I env s (env (ForallVar j))) ∧
  Forall (λ x, in_set I env x.2 (env x.1)) constraints.

Lemma reverse_constraint_spec v s fid afs os :
  set_in U s → Forall good_set (afs ++ os) → invertible live s → set_arg s = Some (ForallVar fid) →
  fid < length (afs ++ os) →
  ∃ sup afs' os', reverse_constraint live v s fid afs os = Some (sup, afs', os') ∧
    set_arg sup = None ∧ length afs' = length afs ∧ length (afs' ++ os') = length (afs ++ os) ∧
    Forall good_set (afs' ++ os') ∧
    ∀ env, (in_set I env s (env v) ∧ ∀ j t, (afs ++ os) !! j = Some t → in_set I env t (env (ForallVar j))) ↔
      (in_set I env sup (env v) ∧ ∀ j t, (afs' ++ os') !! j = Some t → in_set I env t (env (ForallVar j))).
Proof.
  intros Hs Hf Hinv Ha Hlt. destruct (lookup_lt_is_Some_2 _ _ Hlt) as [u Hu].
  pose proof (Forall_lookup_1 _ _ _ _ Hf Hu) as HuU.
  destruct (set_reverse_exact s _ v u Hs HuU Hinv Ha) as (sup & rev & E & Hsup & Hrev & Hx).
  unfold reverse_constraint. rewrite <-lookup_app_cases, Hu. cbn [mbind option_bind]. rewrite E.
  cbn [mbind option_bind]. rewrite bool_decide_eq_true_2 by done. cbn [mbind option_bind].
  set (afs' := if fid <? length afs then <[fid:=rev]> afs else afs).
  set (os' := if fid <? length afs then os else <[fid - length afs:=rev]> os).
  assert (afs' ++ os' = <[fid := rev]> (afs ++ os)) as Eapp.
  { unfold afs', os'. destruct (Nat.ltb_spec fid (length afs)).
    - by rewrite insert_app_l.
    - by rewrite insert_app_r_alt. }
  exists sup, afs', os'. split; [done|]. split; [done|]. split.
  { unfold afs'. destruct (fid <? length afs); [by rewrite length_insert|done]. }
  rewrite Eapp, length_insert. split; [done|]. split.
  { by apply Forall_insert. }
  intros env. rewrite <-(list_insert_forall (λ j t, in_set I env t (env (ForallVar j))) _ _ u rev Hu).
  specialize (Hx env). split.
  - intros [H1 H2]. destruct (proj1 Hx (conj H1 (H2 _ _ Hu))) as [H3 H4]. split_and!; [done|done|].
    intros j t _. apply H2.
  - intros (H1 & H2 & H3). destruct (proj2 Hx (conj H1 H2)) as [H4 H5]. split; [done|].
    intros j t Hj. destruct (decide (j = fid)) as [->|Hne]; [|by apply H3].
    rewrite Hu in Hj. by injection Hj as <-.
Qed.

(** No set is left with a quantified parameter. *)
Definition turned (x : Var * GSet) : Prop :=
  (∀ fid, set_arg x.2 ≠ Some (ForallVar fid)) ∧
  (is_Some (set_arg x.2) → is_Some (def_arg (set_def x.2))).

Lemma reverse_constraints_spec cs afs os :
  Forall (λ x, good_set x.2) cs → Forall good_set (afs ++ os) →
  Forall (λ x, ∀ fid, set_arg x.2 = Some (ForallVar fid) → invertible live x.2 ∧ fid < length (afs ++ os)) cs →
  ∃ cs' afs' os', reverse_constraints live cs afs os = Some (cs', afs', os') ∧
    cs'.*1 = cs.*1 ∧ Forall turned cs' ∧ Forall good_set (afs' ++ os') ∧ length (afs' ++ os') = length (afs ++ os) ∧
    ∀ env, bound_domain env (afs ++ os) cs ↔ bound_domain env (afs' ++ os') cs'.
Proof.
  intros Hcs. revert afs os. induction Hcs as [|[v s] cs Hs _ IH]; intros afs os Hf Hinv.
  { exists [], afs, os. by split_and!. }
  apply Forall_cons in Hinv as [Hi Hinv]. cbn [snd] in *.
  assert (∃ s1 afs1 os1, match set_arg s with
      | Some (ForallVar fid) => reverse_constraint live v s fid afs os
      | _ => Some (s, afs, os) end = Some (s1, afs1, os1) ∧ turned (v, s1) ∧
    length (afs1 ++ os1) = length (afs ++ os) ∧ Forall good_set (afs1 ++ os1) ∧
    ∀ env, (in_set I env s (env v) ∧ ∀ j t, (afs ++ os) !! j = Some t → in_set I env t (env (ForallVar j))) ↔
      (in_set I env s1 (env v) ∧ ∀ j t, (afs1 ++ os1) !! j = Some t → in_set I env t (env (ForallVar j))))
    as (s1 & afs1 & os1 & E & Ht & Hl & Hf1 & Hx).
  { destruct Hs as [HsU Hsp].
    assert ((∀ fid, set_arg s ≠ Some (ForallVar fid)) → turned (v, s)) as Hself
      by (intros H; split; [done|]; destruct s; cbn; by apply Hsp).
    destruct (set_arg s) as [[i|fid]|] eqn:Ea;
      [exists s, afs, os; split_and!; try done; by apply Hself| |exists s, afs, os; split_and!; try done; by apply Hself].
    destruct (Hi fid eq_refl) as [Hv Hlt].
    destruct (reverse_constraint_spec v s fid afs os HsU Hf Hv Ea Hlt) as (sup & afs1 & os1 & E & Hsup & _ & Hl & Hf1 & Hx).
    exists sup, afs1, os1. split_and!; try done. unfold turned. cbn. rewrite Hsup. by split; [|intros []]. }
  destruct (IH afs1 os1 Hf1) as (cs' & afs' & os' & E' & Hk & Ht' & Hg' & Hl' & Hx').
  { by rewrite Hl. }
  exists ((v, s1) :: cs'), afs', os'. cbn [reverse_constraints]. rewrite E. cbn [mbind option_bind].
  rewrite E'. cbn [mbind option_bind]. split; [done|]. split; [by cbn; f_equal|].
  split; [by constructor|]. split; [done|]. split; [by rewrite Hl'|].
  intros env. specialize (Hx env). specialize (Hx' env). unfold bound_domain in *.
  rewrite !Forall_cons. cbn [fst snd]. tauto.
Qed.

Lemma retain_constraints_turned args cs : Forall turned cs → retain_constraints args cs = Some cs.
Proof.
  induction 1 as [|[v s] cs Hx _ IH]; [done|]. cbn [retain_constraints]. unfold retained. cbn [snd].
  destruct Hx as [Hx _]. cbn in Hx.
  destruct (set_arg s) as [[i|fid]|] eqn:E; [|by destruct (Hx fid)|]; cbn [mbind option_bind];
    by rewrite IH.
Qed.
End reversal.

(** ** The environment of a choice *)
Section adapt_env.
Context {Obj : Type} (ir : IrDesc) (U : SetDef → Prop) (I : Interp Obj).

(** The environments in which each variable is in its set. *)
Definition env_domain (env : Var → Obj) (vars : gmap Var GSet) : Prop :=
  ∀ v s, vars !! v = Some s → in_set I env s (env v).

(** The instance has distinct variables of the environment, and a set of an argument
    whose parameter is not an argument can be turned around. *)
Record env_ok (vars : gmap Var GSet) (inst : ChoiceInstance) (ch : Choice) : Prop := {
  env_choice : get_choice ir (ci_choice inst) = Some ch;
  env_length : length (ci_vars inst) = length (arguments_sets (arguments ch));
  env_nodup : NoDup (ci_vars inst);
  env_bound v : v ∈ ci_vars inst → is_Some (vars !! v);
  env_sets v s : vars !! v = Some s → good_set U s;
  env_params v s u : v ∈ ci_vars inst → vars !! v = Some s → set_arg s = Some u →
    is_Some (vars !! u) ∧ (u ∉ ci_vars inst → invertible (get_set_def ir) s)
}.

(** The sets that the choice already guarantees, in the new variables. *)
Definition guaranteed (env' : Var → Obj) (a : Adaptator) (vars : gmap Var GSet)
    (inst : ChoiceInstance) (ch : Choice) : Prop :=
  ∀ k v s given, ci_vars inst !! k = Some v → vars !! v = Some s →
    arguments_sets (arguments ch) !! k = Some given → s ≡ given →
    in_set I env' (set_adapt a s) (env' (Arg k)).

Lemma set_arg_adapt a s : set_arg (set_adapt a s) = adaptator_variable a <$> set_arg s.
Proof. by destruct s. Qed.

Lemma set_in_adapt a s : set_in U s → set_in U (set_adapt a s).
Proof.
  revert s. fix IH 1. intros [d rc v]. cbn. intros [Hd Hr]. split; [done|].
  destruct rc as [c|]; [by apply IH|done].
Qed.

Lemma good_set_adapt a s : good_set U s → good_set U (set_adapt a s).
Proof. intros [H1 H2]. split; [by apply set_in_adapt|by apply params_wf_adapt]. Qed.

(** The remaining variables, in order. *)
Definition other_vars (vars : gmap Var GSet) (inst : ChoiceInstance) : list (Var * GSet) :=
  rsort_by_key fst (map_to_list (filter (λ x, x.1 ∉ ci_vars inst) vars)).

Lemma elem_of_other_vars vars inst v s :
  (v, s) ∈ other_vars vars inst ↔ vars !! v = Some s ∧ v ∉ ci_vars inst.
Proof.
  unfold other_vars. rewrite rsort_by_key_perm, elem_of_map_to_list, map_lookup_filter_Some. done.
Qed.

Lemma NoDup_other_vars vars inst : NoDup (other_vars vars inst).*1.
Proof. unfold other_vars. rewrite rsort_by_key_perm. apply NoDup_fst_map_to_list. Qed.

(** What the adaptator does to the variables of the environment. *)
Record adapts_env (a : Adaptator) (vars : gmap Var GSet) (inst : ChoiceInstance) : Prop := {
  adapts_arg k v : ci_vars inst !! k = Some v → adaptator_variable a v = Arg k;
  adapts_forall j v s : other_vars vars inst !! j = Some (v, s) → adaptator_variable a v = ForallVar j;
  adapts_inputs : ad_inputs a = ∅
}.

(** Choosing objects for the original variables is choosing objects for the new ones. *)
Lemma adapts_env_inverse a vars inst env env2 :
  adapts_env a vars inst → NoDup (ci_vars inst) →
  (∀ k v, ci_vars inst !! k = Some v → env2 v = env (Arg k)) →
  ∃ env' : Var → Obj, same_args env env' ∧ ∀ v, is_Some (vars !! v) → env2 v = env' (adaptator_variable a v).
Proof.
  intros [Ha Hf _] Hnd Hargs.
  exists (λ x, match x with
    | ForallVar j => from_option (λ y, env2 y.1) (env x) (other_vars vars inst !! j)
    | Arg k => env (Arg k)
    end). split; [done|]. intros v [s Hs]. destruct (decide (v ∈ ci_vars inst)) as [Hv|Hv].
  - apply list_elem_of_lookup in Hv as [k Hk]. by rewrite (Ha k v Hk), (Hargs k v Hk).
  - assert ((v, s) ∈ other_vars vars inst) as Ho by by apply elem_of_other_vars.
    apply list_elem_of_lookup in Ho as [j Hj]. by rewrite (Hf j v s Hj), Hj.
Qed.

Lemma adapted_domain a vars inst ch env' new :
  adapts_env a vars inst → env_ok vars inst ch → guaranteed env' a vars inst ch →
  (∀ c, c ∈ new ↔ ∃ i v given, zip (ci_vars inst) (arguments_sets (arguments ch)) !! i = Some (v, given) ∧
    vars !! v = Some c.2 ∧ c.1 = Arg i ∧ ¬ c.2 ≡ given) →
  env_domain (λ v, env' (adaptator_variable a v)) vars ↔
  bound_domain I env' (set_adapt a <$> (other_vars vars inst).*2) ((λ x, (x.1, set_adapt a x.2)) <$> new).
Proof.
  intros Had Hok Hg Hnew. set (env := λ v, env' (adaptator_variable a v)).
  assert (∀ s o, in_set I env' (set_adapt a s) o ↔ in_set I env s o) as Hin
    by (intros s o; by apply in_set_adapt).
  unfold bound_domain. split.
  - intros Hd. split.
    + intros j t Hj. rewrite !list_lookup_fmap in Hj. destruct (other_vars vars inst !! j) as [[v s]|] eqn:Ej; [|done].
      injection Hj as <-. apply Hin. rewrite <-(adapts_forall _ _ _ Had j v s Ej).
      apply (Hd v s). apply (elem_of_other_vars _ inst). by eapply list_elem_of_lookup_2.
    + apply Forall_fmap, Forall_forall. intros [x s] (i & v & g & Hz & Hs & Hx & _)%Hnew. cbn in Hx, Hs |- *. subst x.
      apply lookup_zip_Some in Hz as [Hv _]. apply Hin. rewrite <-(adapts_arg _ _ _ Had i v Hv). by apply (Hd v s).
  - intros [Hd Hc] v s Hs. destruct (decide (v ∈ ci_vars inst)) as [Hv|Hv].
    + apply list_elem_of_lookup in Hv as [k Hk].
      destruct (lookup_lt_is_Some_2 (arguments_sets (arguments ch)) k) as [g Hgk].
      { rewrite <-(env_length _ _ _ Hok). by eapply lookup_lt_Some. }
      unfold env at 2. rewrite (adapts_arg _ _ _ Had k v Hk). apply Hin.
      destruct (decide (s ≡ g)) as [E|E]; [by apply (Hg k v s g)|].
      rewrite Forall_fmap, Forall_forall in Hc. apply (Hc (Arg k, s)), Hnew.
      exists k, v, g. split_and!; try done. by apply lookup_zip_Some.
    + assert ((v, s) ∈ other_vars vars inst) as Ho by by apply elem_of_other_vars.
      apply list_elem_of_lookup in Ho as [j Hj]. unfold env at 2. rewrite (adapts_forall _ _ _ Had j v s Hj).
      apply Hin, Hd. by rewrite !list_lookup_fmap, Hj.
Qed.

Lemma zip_fst_same {A B : Type} (l : list A) (k : list B) : length l = length k → (zip l k).*1 = l.
Proof. intros H. apply fst_zip. lia. Qed.

Lemma zip_eq_same {A B : Type} (l : list A) (k : list B) : length l = length k → zip_eq l k = Some (zip l k).
Proof. intros H. unfold zip_eq. by rewrite H, Nat.eqb_refl. Qed.

(** What is left of the environment after the arguments are taken out. *)
Lemma remaining_vars vars vars' inst :
  (∀ v, vars' !! v = if decide (v ∈ ci_vars inst) then None else vars !! v) →
  rsort_by_key fst (map_to_list vars') = other_vars vars inst.
Proof.
  intros H. unfold other_vars. do 2 f_equal. apply map_eq. intros v. rewrite H.
  apply option_eq. intros s. rewrite map_lookup_filter_Some. cbn. case_decide; naive_solver.
Qed.

Lemma adapt_env_ext_exact vars inst ch :
  reversible_sets (get_set_def ir) U I → env_ok vars inst ch →
  ∃ afs os sc a, adapt_env_ext ir vars inst = Some (afs, os, sc, a) ∧ adapts_env a vars inst ∧
    length (afs ++ os) = length (other_vars vars inst) ∧ Forall (good_set U) (afs ++ os) ∧
    Forall (λ x, (∃ i, x.1 = Arg i ∧ i < length (ci_vars inst)) ∧ turned x) sc ∧
    ∀ env', guaranteed env' a vars inst ch →
      (env_domain (λ v, env' (adaptator_variable a v)) vars ↔ bound_domain I env' (afs ++ os) sc).
Proof.
  intros HU Hok. pose proof Hok as [Hch Hl Hnd Hb Hs Hp].
  set (src := zip (ci_vars inst) (arguments_sets (arguments ch))).
  assert (src.*1 = ci_vars inst) as Hsrc by by apply zip_fst_same.
  destruct (bind_arguments_spec 0 src vars adaptator_default []) as
    (vars' & a1 & new & E1 & Hvars' & Hin1 & Hout1 & Hmap1 & Hnew); [by rewrite Hsrc|by rewrite Hsrc|].
  rewrite Hsrc in Hvars', Hout1. pose proof (remaining_vars _ _ _ Hvars') as Hrem.
  destruct (bind_foralls_spec 0 (other_vars vars inst) a1 [] [] (NoDup_other_vars _ _)) as (a & E2 & Hin2 & Hout2 & Hmap2).
  assert (adapts_env a vars inst) as Had.
  { constructor; [|exact Hmap2|by rewrite Hin2, Hin1]. intros k v Hk.
    rewrite Hout2.
    - destruct (lookup_lt_is_Some_2 (arguments_sets (arguments ch)) k) as [g Hg]; [rewrite <-Hl; by eapply lookup_lt_Some|].
      apply (Hmap1 k v g), lookup_zip_Some. done.
    - intros ([v' s] & -> & Hvs)%list_elem_of_fmap. apply elem_of_other_vars in Hvs as [_ Hv].
      by eapply Hv, list_elem_of_lookup_2. }
  set (afs0 := (filter (λ x, is_arg x = true) (other_vars vars inst)).*2) in *.
  set (os0 := (filter (λ x, is_arg x = false) (other_vars vars inst)).*2) in *.
  assert (afs0 ++ os0 = (other_vars vars inst).*2) as Happ.
  { unfold afs0, os0. rewrite <-fmap_app, sorted_variables_split; [done|]. apply rsort_by_key_sorted. }
  assert ((set_adapt a <$> afs0) ++ (set_adapt a <$> os0) = set_adapt a <$> (other_vars vars inst).*2) as Happ'
    by by rewrite <-fmap_app, Happ.
  destruct (reverse_constraints_spec (get_set_def ir) U I HU ((λ x, (x.1, set_adapt a x.2)) <$> new)
    (set_adapt a <$> afs0) (set_adapt a <$> os0)) as (cs & afs & os & E3 & Hk & Hturn & Hgood & Hlen & Hdom).
  { apply Forall_fmap, Forall_forall. intros c (i & v & g & _ & Hv & _)%Hnew. cbn.
    by eapply good_set_adapt, Hs. }
  { rewrite Happ'. apply Forall_fmap, Forall_fmap, Forall_forall. intros [v s] [Hv _]%elem_of_other_vars.
    cbn. by eapply good_set_adapt, Hs. }
  { apply Forall_fmap, Forall_forall. intros c (i & v & g & Hz & Hv & _)%Hnew fid. cbn.
    rewrite set_arg_adapt. destruct (set_arg c.2) as [u|] eqn:Eu; [|done]. cbn. intros [= Hfid].
    apply lookup_zip_Some in Hz as [Hvi _].
    destruct (Hp v c.2 u ltac:(by eapply list_elem_of_lookup_2) Hv Eu) as [[su Hsu] Hinv].
    destruct (decide (u ∈ ci_vars inst)) as [Hu|Hu].
    { apply list_elem_of_lookup in Hu as [k Hku]. by rewrite (adapts_arg _ _ _ Had k u Hku) in Hfid. }
    split; [by apply invertible_adapt, Hinv|].
    assert ((u, su) ∈ other_vars vars inst) as Ho by by apply elem_of_other_vars.
    apply list_elem_of_lookup in Ho as [j Hj]. rewrite (adapts_forall _ _ _ Had j u su Hj) in Hfid.
    injection Hfid as <-. rewrite Happ', !length_fmap. by eapply lookup_lt_Some. }
  exists afs, os, (set_constraints_new cs), a. split.
  { unfold adapt_env_ext. rewrite Hch. cbn [mbind option_bind]. rewrite zip_eq_same by done.
    cbn [mbind option_bind]. fold src. rewrite E1. cbn [mbind option_bind]. rewrite app_nil_l.
    rewrite Hrem, E2, !app_nil_l, E3. cbn [mbind option_bind].
    by rewrite (retain_constraints_turned _ _ Hturn). }
  split; [done|]. split; [by rewrite Hlen, Happ', !length_fmap|]. split; [done|]. split.
  - unfold set_constraints_new. rewrite rsort_by_key_perm. apply Forall_and. split; [|done].
    apply Forall_forall. intros x Hx. assert (x.1 ∈ cs.*1) as Hx1 by (apply list_elem_of_fmap; by exists x).
    rewrite Hk in Hx1. rewrite <-list_fmap_compose in Hx1. apply list_elem_of_fmap in Hx1 as (c & -> & Hc).
    apply Hnew in Hc as (i & v & g & Hz & _ & Hc & _). exists i. split; [done|].
    apply lookup_zip_Some in Hz as [Hz _]. by eapply lookup_lt_Some.
  - intros env' Hg. rewrite (adapted_domain a vars inst ch env' new Had Hok Hg Hnew), <-Happ', (Hdom env').
    unfold bound_domain, set_constraints_new. by rewrite rsort_by_key_perm.
Qed.
End adapt_env.
