(* ===== verification/Constraints.v ===== *)
(** * From constraints to flat filters (telamon-gen/src/constraint.rs, and
    [ChoiceCondition::new] of ir/choice.rs)

    A constraint is a disjunction of conditions that holds for all objects of some sets.
    For each input it is turned into a filter: when the conditions on other inputs are
    false, the values of the input are those that satisfy a condition on it. *)
From S2P Require Import Prelude Utils Orders GenSets Filters FilterSemantics Adapting Instances Environments FlatFilters Permutations.

Record Constraint := mkConstraint {
  c_vars : list GSet;
  c_inputs : list ChoiceInstance;
  c_conditions : list Condition;
  restrict_fragile : bool
}.

(** ** Duplicate inputs *)

(** Each input gets the position of the first input equal to it. *)
Fixpoint assign_positions (old_pos : nat) (inputs : list ChoiceInstance)
    (input_map : IndexMap ChoiceInstance nat) (a : Adaptator) : IndexMap ChoiceInstance nat * Adaptator :=
  match inputs with
  | [] => (input_map, a)
  | input :: inputs =>
    let next_pos := length input_map in
    match im_get input input_map with
    | Some new_pos => assign_positions (S old_pos) inputs input_map (set_input old_pos new_pos a)
    | None =>
      assign_positions (S old_pos) inputs (im_insert input next_pos input_map).2
        (set_input old_pos next_pos a)
    end
  end.

(** The inputs that open a position are kept. *)
Definition keep_inputs (a : Adaptator) (inputs : list ChoiceInstance) : list ChoiceInstance :=
  foldl (λ new_input_defs '(old_pos, input),
      if (adaptator_input a old_pos).1 =? length new_input_defs then new_input_defs ++ [input]
      else new_input_defs)
    [] (enumerate inputs).

(** [dedup_inputs]. *)
Definition dedup_inputs (ir : IrDesc) (inputs : list ChoiceInstance)
  : option (list ChoiceInstance * Adaptator) :=
  '(inputs, a) ← normalize_inputs ir 0 inputs adaptator_default;
  let '(_, a) := assign_positions 0 inputs [] a in
  Some (keep_inputs a inputs, a).

(** [Constraint::dedup_inputs]. *)
Definition constraint_dedup_inputs (ir : IrDesc) (c : Constraint) : option Constraint :=
  '(inputs, a) ← dedup_inputs ir (c_inputs c);
  conditions ← mapM (cond_adapt a) (c_conditions c);
  Some (mkConstraint (c_vars c) inputs conditions (restrict_fragile c)).

(** ** The point of view of an input *)

(** [Vec::swap_remove]. *)
Definition swap_remove {A : Type} (i : nat) (l : list A) : option (A * list A) :=
  x ← l !! i; y ← last l; Some (x, take (length l - 1) (<[i := y]> l)).

(** A condition on the input extends the values it allows; the others are renamed. *)
Definition split_condition (ir : IrDesc) (self_id : nat) (value_type : ValueType) (a : Adaptator)
    (acc : ValueSet * list Condition) (c : Condition) : option (ValueSet * list Condition) :=
  let '(self_condition, others) := acc in
  let! alternatives := alternatives_of ir c self_id value_type in
  match alternatives with
  | Some alternatives =>
    alternatives ← vs_adapt a alternatives;
    self_condition ← vs_extend self_condition alternatives;
    Some (self_condition, others)
  | None => c ← cond_adapt a c; Some (self_condition, others ++ [c])
  end.

(** [ChoiceCondition::new]. *)
Definition choice_condition_new (ir : IrDesc) (inputs : list ChoiceInstance) (self_id : nat)
    (conds : list Condition) (env : gmap Var GSet)
  : option (list GSet * SetConstraints * ChoiceCondition * Adaptator) :=
  self ← inputs !! self_id;
  '(foralls, sets, a) ← adapt_env ir env self;
  '(removed, inputs) ← swap_remove self_id inputs;
  let a := set_input (length inputs) self_id a in
  choice ← get_choice ir (ci_choice removed);
  let value_type := value_type_adapt a (choice_value_type choice) in
  self_condition ← vs_empty value_type;
  '(self_condition, others) ← foldM (split_condition ir self_id value_type a) conds (self_condition, []);
  Some (foralls, sets, mkChoiceCondition (choice_instance_adapt a <$> inputs) self_condition others, a).

(** ** Flat filters *)

(** Whether an argument is used where its given set is not precise enough: as an argument
    of an input. *)
Fixpoint used_by_inputs (ir : IrDesc) (var : Var) (given_set : GSet) (inputs : list ChoiceInstance)
  : option bool :=
  match inputs with
  | [] => Some false
  | input :: inputs =>
    match list_find (λ v, v = var) (ci_vars input) with
    | Some (pos, _) =>
      choice ← get_choice ir (ci_choice input);
      arg ← arguments_get (arguments choice) pos;
      if is_subset_of_def given_set arg.2 then used_by_inputs ir var given_set inputs else Some true
    | None => used_by_inputs ir var given_set inputs
    end
  end.

(** Or as the parameter of another set. *)
Fixpoint used_by_sets (var : Var) (given_set : GSet) (sets : list GSet) : option bool :=
  match sets with
  | [] => Some false
  | s :: sets =>
    if bool_decide (set_arg s = Some var) then
      arg ← def_arg (set_def s);
      let! b := is_subset_of given_set arg in
      if (b : bool) then used_by_sets var given_set sets else Some true
    else used_by_sets var given_set sets
  end.

Definition reverse_constraints_of (sets : list GSet) : list GSet := omap set_reverse_constraint sets.

(** The turn of the loop that tells the constraints to check before the inputs are read. *)
Definition sort_constraint (ir : IrDesc) (choice : Choice) (inputs : list ChoiceInstance)
    (foralls : list GSet) (acc : list (Var * GSet) * list (Var * GSet)) (x : Var * GSet)
  : option (list (Var * GSet) * list (Var * GSet)) :=
  let '(input_set_constraints, inner_set_constraints) := acc in
  let '(var, subset) := x in
  given ← match var with
          | Arg i => arguments_get (arguments choice) i
          | ForallVar _ => panic
          end;
  by_inputs ← used_by_inputs ir var given.2 inputs;
  by_sets ← used_by_sets var given.2 ((input_set_constraints.*2 ++ foralls) ++ reverse_constraints_of foralls);
  Some (if by_inputs || by_sets then (input_set_constraints ++ [x], inner_set_constraints)
        else (input_set_constraints, inner_set_constraints ++ [x])).

Definition constraint_env (vars : list GSet) : gmap Var GSet :=
  list_to_map ((λ '(i, s), (ForallVar i, s)) <$> enumerate vars).

(** [gen_flat_filter]. *)
Definition gen_flat_filter (ir : IrDesc) (c : Constraint) (input_id : nat) : option (option FlatFilter) :=
  input ← c_inputs c !! input_id;
  choice ← get_choice ir (ci_choice input);
  '(foralls, all_set_constraints, conds, _) ←
    choice_condition_new ir (c_inputs c) input_id (c_conditions c) (constraint_env (c_vars c));
  self_cond ← (if restrict_fragile c then Some (self_condition conds)
               else vs_extend (self_condition conds) (fragile_values choice));
  full ← vs_is_full ir self_cond;
  if (full : bool) then Some None
  else
    let others := cond_negate <$> others_conditions conds in
    '(input_set_constraints, inner_set_constraints) ←
      foldM (sort_constraint ir choice (cc_inputs conds) foralls) (reverse all_set_constraints) ([], []);
    let rule := mkRule others self_cond (set_constraints_new (reverse inner_set_constraints)) in
    f ← flat_filter_new ir foralls (cc_inputs conds) [rule]
          (set_constraints_new (reverse input_set_constraints));
    Some (Some f).

(** [Constraint::gen_filters]: the filters of one input, and of all. *)
Definition input_filters (ir : IrDesc) (c : Constraint) (x : nat * ChoiceInstance)
  : option (list (string * FlatFilter)) :=
  let '(input_id, input) := x in
  let! filter := gen_flat_filter ir c input_id in
  match filter with
  | None => Some []
  | Some filter =>
    choice ← get_choice ir (ci_choice input);
    match arguments choice with
    | Plain _ => Some [(ci_choice input, filter)]
    | Symmetric _ _ inverse =>
      filter' ← flat_filter_inverse ir inverse filter;
      Some [(ci_choice input, filter'); (ci_choice input, filter)]
    end
  end.

Definition gen_filters (ir : IrDesc) (c : Constraint) : option (list (string * FlatFilter)) :=
  filters ← mapM (input_filters ir c) (enumerate (c_inputs c));
  Some (concat filters).

(** * Theorems *)

(** ** Duplicate inputs *)

Definition add_key (keys : list ChoiceInstance) (c : ChoiceInstance) : list ChoiceInstance :=
  if decide (c ∈ keys) then keys else keys ++ [c].

Lemma add_keys_prefix l K : K `prefix_of` foldl add_key K l.
Proof.
  revert K. induction l as [|c l IH]; intros K; [done|]. cbn. etrans; [|apply IH].
  unfold add_key. case_decide; [done|by apply prefix_app_r].
Qed.

Lemma add_keys_nodup l K : NoDup K → NoDup (foldl add_key K l).
Proof.
  revert K. induction l as [|c l IH]; intros K HK; [done|]. cbn. apply IH.
  unfold add_key. case_decide; [done|]. apply NoDup_app. split; [done|]. split; [|apply NoDup_singleton].
  by intros x Hx ->%list_elem_of_singleton.
Qed.

Lemma elem_of_add_keys l K x : x ∈ foldl add_key K l ↔ x ∈ K ∨ x ∈ l.
Proof.
  revert K. induction l as [|c l IH]; intros K; cbn; [set_solver|]. rewrite IH.
  unfold add_key. case_decide; set_solver.
Qed.

(** The map from the keys to their positions. *)
Definition positions_of (keys : list ChoiceInstance) : IndexMap ChoiceInstance nat :=
  (λ x, (x.2, x.1)) <$> enumerate keys.

Lemma enumerate_snoc {A : Type} (l : list A) x : enumerate (l ++ [x]) = enumerate l ++ [(length l, x)].
Proof.
  unfold enumerate. rewrite length_app, seq_app. cbn [length Nat.add seq].
  by rewrite zip_with_app by by rewrite length_seq.
Qed.

Lemma lookup_enumerate {A : Type} (l : list A) i : enumerate l !! i = (λ x, (i, x)) <$> l !! i.
Proof.
  unfold enumerate. destruct (l !! i) as [x|] eqn:E; cbn.
  - apply lookup_zip_Some. split; [|done]. apply lookup_seq. split; [done|]. by apply lookup_lt_Some in E.
  - apply lookup_ge_None. rewrite length_zip_with, length_seq, Nat.min_id. by apply lookup_ge_None.
Qed.

Lemma positions_of_elem keys c p : (c, p) ∈ positions_of keys ↔ keys !! p = Some c.
Proof.
  unfold positions_of. rewrite list_elem_of_fmap. split.
  - intros ([i x] & [= -> ->] & Hx). apply list_elem_of_lookup in Hx as [k Hk].
    rewrite lookup_enumerate in Hk. destruct (keys !! k) eqn:E; [|done]. by injection Hk as -> ->.
  - intros Hp. exists (p, c). split; [done|]. apply list_elem_of_lookup. exists p.
    by rewrite lookup_enumerate, Hp.
Qed.

Lemma positions_of_get keys c p :
  NoDup keys → im_get c (positions_of keys) = Some p ↔ keys !! p = Some c.
Proof.
  intros Hnd. split; [by intros Hp%im_get_elem%positions_of_elem|]. intros Hp.
  destruct (proj2 (im_get_keys c (positions_of keys))) as [q Hq].
  { unfold im_keys. apply list_elem_of_fmap. exists (c, p). split; [done|]. by apply positions_of_elem. }
  rewrite Hq. f_equal. apply (NoDup_lookup keys q p c Hnd); [|done].
  by apply positions_of_elem, im_get_elem.
Qed.

Lemma positions_of_none keys c : im_get c (positions_of keys) = None ↔ c ∉ keys.
Proof.
  rewrite eq_None_not_Some, im_get_keys. unfold im_keys, positions_of.
  rewrite <-list_fmap_compose. unfold enumerate. cbn.
  assert ((fst ∘ (λ x : nat * ChoiceInstance, (x.2, x.1))) <$> zip (seq 0 (length keys)) keys = keys) as ->; [|done].
  rewrite (list_fmap_ext _ snd) by done. apply snd_zip. by rewrite length_seq.
Qed.

Lemma positions_of_length keys : length (positions_of keys) = length keys.
Proof. unfold positions_of, enumerate. rewrite length_fmap, length_zip_with, length_seq. lia. Qed.

Lemma assign_positions_spec old_pos inputs keys a :
  NoDup keys →
  ∃ a', assign_positions old_pos inputs (positions_of keys) a = (positions_of (foldl add_key keys inputs), a') ∧
    ad_variables a' = ad_variables a ∧
    (∀ i, i < old_pos → adaptator_input a' i = adaptator_input a i) ∧
    ∀ i c, inputs !! i = Some c → ∃ p, foldl add_key keys inputs !! p = Some c ∧
      adaptator_input a' (old_pos + i) = (p, (adaptator_input a (old_pos + i)).2).
Proof.
  revert old_pos keys a. induction inputs as [|c inputs IH]; intros old_pos keys a Hnd.
  { by exists a. }
  assert (∃ p, assign_positions old_pos (c :: inputs) (positions_of keys) a =
      assign_positions (S old_pos) inputs (positions_of (add_key keys c)) (set_input old_pos p a) ∧
    add_key keys c !! p = Some c) as (p & E & Hp).
  { cbn [assign_positions]. unfold add_key. rewrite positions_of_length. case_decide as Hc.
    - apply list_elem_of_lookup in Hc as [p Hp]. exists p. split; [|done].
      by rewrite (proj2 (positions_of_get keys c p Hnd) Hp).
    - pose proof (proj2 (positions_of_none keys c) Hc) as Hn. rewrite Hn. exists (length keys). split.
      + f_equal. unfold im_insert. rewrite Hn. cbn [snd]. unfold positions_of. by rewrite enumerate_snoc, fmap_app.
      + by rewrite lookup_app_r, Nat.sub_diag by done. }
  destruct (IH (S old_pos) (add_key keys c) (set_input old_pos p a)) as (a' & E' & Hv & Hlt & Hx).
  { by apply (add_keys_nodup [c]). }
  exists a'. rewrite E. cbn [foldl]. split; [done|]. split_and!.
  - by rewrite Hv, ad_variables_set_input.
  - intros i Hi. rewrite Hlt, adaptator_input_set_input, decide_False by lia. done.
  - intros [|i] d Hd; cbn in Hd.
    + injection Hd as <-. exists p. split.
      * eapply prefix_lookup_Some; [exact Hp|apply add_keys_prefix].
      * rewrite Nat.add_0_r, Hlt, adaptator_input_set_input, decide_True by lia. done.
    + destruct (Hx i d Hd) as (q & Hq & Ha). exists q. split; [done|].
      rewrite <-Nat.add_succ_comm, Ha, adaptator_input_set_input, decide_False by lia. done.
Qed.

Lemma keep_inputs_spec a inputs :
  (∀ i c, inputs !! i = Some c → ∃ p, foldl add_key [] inputs !! p = Some c ∧ (adaptator_input a i).1 = p) →
  keep_inputs a inputs = foldl add_key [] inputs.
Proof.
  intros Ha. unfold keep_inputs. set (K := foldl add_key [] inputs) in *.
  assert (NoDup K) as HK by (apply add_keys_nodup; constructor).
  assert (∀ l k, inputs = l ++ k → foldl (λ new_input_defs '(old_pos, input),
      if (adaptator_input a old_pos).1 =? length new_input_defs then new_input_defs ++ [input]
      else new_input_defs) [] (enumerate l) = foldl add_key [] l) as H.
  { intros l. induction l as [|c l IH] using rev_ind; intros k E; [done|].
    rewrite enumerate_snoc, !foldl_app, (IH ([c] ++ k)) by by rewrite E, <-app_assoc. cbn [foldl].
    set (D := foldl add_key [] l).
    assert (add_key D c `prefix_of` K) as Hpre.
    { unfold K. rewrite E, !foldl_app. cbn [foldl]. apply add_keys_prefix. }
    assert (inputs !! length l = Some c) as Hc.
    { rewrite E, <-app_assoc, lookup_app_r, Nat.sub_diag by done. done. }
    destruct (Ha _ _ Hc) as (p & Hp & ->). unfold add_key in *. case_decide as Hin.
    - apply list_elem_of_lookup in Hin as [q Hq]. pose proof (prefix_lookup_Some _ _ _ _ Hq Hpre) as HqK.
      rewrite (NoDup_lookup K p q c HK Hp HqK). apply lookup_lt_Some in Hq.
      by rewrite (proj2 (Nat.eqb_neq _ _)) by lia.
    - assert (K !! length D = Some c) as HD.
      { eapply prefix_lookup_Some; [|exact Hpre]. by rewrite lookup_app_r, Nat.sub_diag by done. }
      by rewrite (NoDup_lookup K p _ c HK Hp HD), Nat.eqb_refl. }
  by apply (H inputs []); rewrite app_nil_r.
Qed.

(** ** What a constraint means *)

Definition conds_ok (ir : IrDesc) (inputs : list ChoiceInstance) (conds : list Condition) : Prop :=
  Forall (cond_ok ir inputs) conds ∧ Forall (λ c, Forall (λ i, i < length inputs) (cond_uses c)) conds.

Record constraint_ok (ir : IrDesc) (c : Constraint) : Prop := {
  constraint_inputs_ok : Forall (instance_ok ir) (c_inputs c);
  constraint_conds_ok : conds_ok ir (c_inputs c) (c_conditions c)
}.

(** One of the conditions holds. *)
Definition some_holds (ir : IrDesc) (inputs : list ChoiceInstance) (w : World) (conds : list Condition) : Prop :=
  Exists (λ c, cond_holds ir inputs w c = true) conds.

Definition constraint_holds {Obj : Type} (ir : IrDesc) (I : Interp Obj) (env : Var → Obj) (c : Constraint) : Prop :=
  some_holds ir (c_inputs c) (env_world I env (c_inputs c)) (c_conditions c).

Lemma some_holds_fmap ir inputs w conds :
  some_holds ir inputs w conds ↔ true ∈ (λ c, cond_holds ir inputs w c) <$> conds.
Proof.
  unfold some_holds. rewrite Exists_exists, list_elem_of_fmap. naive_solver.
Qed.

Section facts.
Context (ir : IrDesc) (Hir : desc_ok ir) (Hch : choices_ok ir).

Lemma dedup_inputs_exact inputs :
  Forall (instance_ok ir) inputs →
  ∃ new a, dedup_inputs ir inputs = Some (new, a) ∧ NoDup new ∧ Forall (instance_ok ir) new ∧
    Forall (λ c, choice_instance_normalize ir c = Some (false, c)) new ∧ ad_variables a = ∅ ∧
    ∀ i, i < length inputs → leads_to ir a inputs new i.
Proof.
  intros Hin.
  destruct (normalize_inputs_spec ir Hch inputs 0 adaptator_default Hin) as
    (inputs1 & a1 & E1 & Hlen & Hv1 & Hok1 & Hn1 & _ & _ & Hx1); [by intros i _; apply adaptator_input_fresh|].
  destruct (assign_positions_spec 0 inputs1 [] a1 NoDup_nil_2) as (a & E2 & Hv2 & _ & Hx2).
  set (new := foldl add_key [] inputs1) in *. change (positions_of []) with ([] : IndexMap ChoiceInstance nat) in E2.
  assert (∀ x, x ∈ new → x ∈ inputs1) as Hsub by (intros x [?%elem_of_nil|?]%elem_of_add_keys; done).
  exists new, a. unfold dedup_inputs. rewrite E1. cbn [mbind option_bind]. rewrite E2.
  rewrite keep_inputs_spec; cycle 1.
  { intros i c Hc. destruct (Hx2 i c Hc) as (p & Hp & Ha). exists p. split; [done|].
    cbn in Ha. by rewrite Ha. }
  split; [done|]. split_and!.
  - apply add_keys_nodup. constructor.
  - rewrite Forall_forall in *. auto.
  - rewrite Forall_forall in *. auto.
  - by rewrite Hv2, Hv1.
  - intros i Hi. destruct (lookup_lt_is_Some_2 _ _ Hi) as [c Hc].
    destruct (Hx1 i c Hc) as (b & c' & Hn & Hc' & Ha1). destruct (Hx2 i c' Hc') as (p & Hp & Ha).
    cbn in Ha, Ha1. rewrite Ha1 in Ha. cbn in Ha.
    eapply leads_to_normalized; [done|exact Hc|exact (Forall_lookup_1 _ _ _ _ Hin Hc)| |exact Ha|exact Hp].
    by rewrite choice_instance_adapt_default by by rewrite Hv2, Hv1.
Qed.

Lemma cond_adapt_env inputs inputs' a c :
  cond_ok ir inputs c → Forall (leads_to ir a inputs inputs') (cond_uses c) →
  ∃ c', cond_adapt a c = Some c' ∧ cond_ok ir inputs' c' ∧
    Forall (λ i, i < length inputs') (cond_uses c') ∧
    ∀ (Obj : Type) (I : Interp Obj) env env', interp_ok ir I → (∀ x, env x = env' (adaptator_variable a x)) →
      cond_holds ir inputs' (env_world I env' inputs') c' = cond_holds ir inputs (env_world I env inputs) c.
Proof.
  intros Hc Hl. destruct (cond_adapt_exact ir Hir inputs inputs' a c Hc (leads_to_renames ir a inputs inputs' _ Hl))
    as (c' & E & Hok & Hu & Hh).
  exists c'. split; [done|]. split; [done|]. split.
  - apply Forall_forall. intros i (k & Hk & <-)%Hu. rewrite Forall_forall in Hl. by eapply leads_to_lookup, Hl.
  - intros Obj I env env' HI Henv. apply Hh; [by apply leads_to_sees|by apply env_world_inputs_ok].
Qed.

(** Removing duplicate inputs keeps the meaning of a constraint. *)
Lemma constraint_dedup_inputs_exact c :
  constraint_ok ir c →
  ∃ c', constraint_dedup_inputs ir c = Some c' ∧ constraint_ok ir c' ∧
    c_vars c' = c_vars c ∧ restrict_fragile c' = restrict_fragile c ∧ NoDup (c_inputs c') ∧
    Forall (λ i, choice_instance_normalize ir i = Some (false, i)) (c_inputs c') ∧
    ∀ (Obj : Type) (I : Interp Obj) env, interp_ok ir I →
      (constraint_holds ir I env c' ↔ constraint_holds ir I env c).
Proof.
  intros [Hin [Hc Hu]]. destruct (dedup_inputs_exact _ Hin) as (new & a & E & Hnd & Hok & Hn & Hv & Hl).
  assert (∃ conds, mapM (cond_adapt a) (c_conditions c) = Some conds ∧ conds_ok ir new conds ∧
    ∀ (Obj : Type) (I : Interp Obj) env, interp_ok ir I →
      (λ c, cond_holds ir new (env_world I env new) c) <$> conds =
      (λ d, cond_holds ir (c_inputs c) (env_world I env (c_inputs c)) d) <$> c_conditions c)
    as (conds & Ec & Hco & Hh).
  { induction Hc as [|d conds Hd _ IH]; [by exists []|]. apply Forall_cons in Hu as [Hud Hu].
    destruct (IH Hu) as (conds' & Ec & [Hco Huo] & Hh).
    destruct (cond_adapt_env _ new a d Hd) as (d' & Ed & Hd' & Hud' & Hhd).
    { eapply Forall_impl; [exact Hud|]. cbn. intros i Hi. by apply Hl. }
    exists (d' :: conds'). cbn [mapM]. rewrite Ed, Ec. split; [done|]. split; [split; by constructor|].
    intros Obj I env HI. cbn. f_equal; [|by apply Hh]. apply Hhd; [done|].
    intros x. by rewrite adaptator_variable_default. }
  eexists. unfold constraint_dedup_inputs. rewrite E. cbn [mbind option_bind]. rewrite Ec.
  split; [done|]. split; [by split|]. split_and!; try done.
  intros Obj I env HI. unfold constraint_holds, some_holds. cbn [c_inputs c_conditions].
  specialize (Hh Obj I env HI).
  fold (some_holds ir new (env_world I env new) conds).
  fold (some_holds ir (c_inputs c) (env_world I env (c_inputs c)) (c_conditions c)).
  by rewrite !some_holds_fmap, Hh.
Qed.

End facts.

(** ** The alternatives of a condition *)
Section alternatives.
Context (ir : IrDesc) (Hir : desc_ok ir).

(** The values listed are values of the enum. *)
Definition cond_values_ok (inputs : list ChoiceInstance) (c : Condition) : Prop :=
  match c with
  | CEnum i values _ _ => ∀ e, input_enum ir inputs i = Some e → values ⊆ list_to_set (value_keys e)
  | _ => True
  end.

Definition vs_values_ok (s : ValueSet) : Prop :=
  match s with
  | VSEnum name values _ => ∀ e, get_enum ir name = Some e → values ⊆ list_to_set (value_keys e)
  | VSInteger _ _ _ _ => True
  end.

(** The type of the values of an input. *)
Definition self_type (inputs : list ChoiceInstance) (id : nat) (t : ValueType) : Prop :=
  match t with
  | TyEnum name => ∃ e, get_enum ir name = Some e ∧ input_enum ir inputs id = Some e
  | TyRange _ | TyNumericSet _ => input_enum ir inputs id = None
  | TyConstant => False
  end.

(** Half ranges are not compared to other inputs. *)
Definition comparable (id : nat) (t : ValueType) (c : Condition) : Prop :=
  match c with
  | CCmpInput lhs rhs _ _ => lhs = id ∨ rhs = id → lhs ≠ rhs → t ≠ TyRange true
  | _ => True
  end.

Lemma with_input_self id v w : w_input (with_input id v w) id = v.
Proof. cbn. by rewrite decide_True. Qed.

Lemma with_input_other id v w i : i ≠ id → w_input (with_input id v w) i = w_input w i.
Proof. intros H. cbn. by rewrite decide_False. Qed.

Lemma input_value_with inputs id v w b i :
  input_value ir inputs (with_input id v w) b i =
  if decide (i = id) then (if b then inverse_value ir inputs id v else v) else input_value ir inputs w b i.
Proof. unfold input_value. cbn. case_decide as E; [by subst|done]. Qed.

Lemma cond_holds_with_other inputs id v w c :
  id ∉ cond_uses c → cond_holds ir inputs (with_input id v w) c = cond_holds ir inputs w c.
Proof.
  intros Hid. destruct c as [code neg|i values neg inv|b|lhs rhs op|lhs rhs op inv]; cbn [cond_uses] in Hid;
    rewrite ?not_elem_of_cons in Hid; cbn [cond_holds]; try done;
    rewrite ?input_value_with, ?with_input_other, ?decide_False by naive_solver; done.
Qed.

Lemma normalize_values_ok values negate inverse e :
  enum_ok e → values ⊆ list_to_set (value_keys e) →
  normalize_values values negate inverse e ⊆ list_to_set (value_keys e).
Proof.
  intros He Hv x. unfold normalize_values. destruct negate.
  - rewrite !elem_of_list_to_set, list_elem_of_filter. by intros [_ ?].
  - destruct inverse; [|by apply Hv]. rewrite elem_of_map. intros (y & -> & Hy%Hv%elem_of_list_to_set).
    apply elem_of_list_to_set. by apply enum_inverse_key.
Qed.

(** What [alternatives_of] promises on a condition on the input. *)
Definition alternatives_spec (inputs : list ChoiceInstance) (id : nat) (t : ValueType) (c : Condition)
    (s : ValueSet) : Prop :=
  vs_ok ir inputs t s ∧ vs_values_ok s ∧ id ∉ vs_uses s ∧ vs_uses s ⊆ cond_uses c ∧
  ∀ w v, inputs_ok ir inputs w → value_ok ir t v →
    (cond_holds ir inputs (with_input id v w) c = true ↔ vs_allows ir inputs w s v).

Lemma vs_uses_no_inputs name values : vs_uses (VSEnum name values ∅) = [].
Proof. cbn. by rewrite elements_empty. Qed.

Lemma vs_allows_no_inputs inputs w name values x :
  vs_allows ir inputs w (VSEnum name values ∅) (VEnum x) ↔ x ∈ values.
Proof.
  clear Hir. rewrite vs_allows_enum. unfold enum_allows. split.
  - intros (y & [= <-] & [H|(j & H & _)]); [done|set_solver].
  - intros H. exists x. split; [done|by left].
Qed.

Lemma from_properties_enum inputs id name e op inv :
  cond_ok ir inputs (CCmpInput id id op inv) → get_enum ir name = Some e → input_enum ir inputs id = Some e →
  ∃ s, vs_from_properties ir (TyEnum name) (allows_eq op) inv = Some s ∧
    alternatives_spec inputs id (TyEnum name) (CCmpInput id id op inv) s.
Proof.
  intros (_ & Hinv & Hop) He Hi. destruct (Hir name e He) as [Hn Hok].
  cbn [vs_from_properties]. rewrite He. cbn [mbind option_bind].
  set (values := if inv
      then normalize_values (list_to_set (filter (λ v, enum_inverse e v = v) (value_keys e))) (negb (allows_eq op)) false e
      else normalize_values ∅ (allows_eq op) false e).
  exists (VSEnum name values ∅). split.
  { unfold normalized_enum_set, vs_enum_values, values. rewrite Hn. by destruct inv. }
  split; [split; [done|exists e; split; [done|set_solver]]|]. split.
  { intros e' He'. rewrite He in He'. injection He' as <-. unfold values.
    destruct inv; (apply normalize_values_ok; [done|]); [|set_solver].
    intros x. rewrite !elem_of_list_to_set, list_elem_of_filter. by intros [_ ?]. }
  rewrite vs_uses_no_inputs. split; [apply not_elem_of_nil|]. split; [apply list_subseteq_nil|].
  intros w v Hw Hv. destruct v as [x|]; [|done]. destruct Hv as (e' & He' & Hx).
  rewrite He in He'. injection He' as <-.
  cbn [cond_holds]. rewrite input_value_with, with_input_self, decide_True, vs_allows_no_inputs by done.
  assert ((if inv then inverse_value ir inputs id (VEnum x) else VEnum x) =
    VEnum (if inv then enum_inverse e x else x)) as -> by (destruct inv; [by apply inverse_value_enum|done]).
  unfold values. destruct inv; rewrite (elem_of_normalize_values e Hok) by done.
  - rewrite (bool_decide_ext (x ∈ _) (enum_inverse e x = x));
      [|rewrite elem_of_list_to_set, list_elem_of_filter; tauto].
    destruct (Hop ltac:(by eexists)) as [->| ->]; cbn; by case_bool_decide.
  - rewrite (bool_decide_eq_false_2 (x ∈ _)) by apply not_elem_of_empty.
    destruct (Hop ltac:(by eexists)) as [->| ->]; cbn; by rewrite bool_decide_eq_true_2.
Qed.

Lemma from_properties_integer inputs id t op :
  input_enum ir inputs id = None → (∃ half, t = TyRange half) ∨ (∃ u, t = TyNumericSet u) →
  ∃ s, vs_from_properties ir t (allows_eq op) false = Some s ∧
    alternatives_spec inputs id t (CCmpInput id id op false) s.
Proof.
  intros Hi Ht. exists (VSInteger (allows_eq op) ∅ ∅ (full_type t)). split.
  { by destruct Ht as [[half ->]|[u ->]]; destruct op. }
  split; [by destruct Ht as [[half ->]|[u ->]]; intros op' i ?%elem_of_empty|]. split; [done|].
  cbn [vs_uses]. rewrite elements_empty. split; [apply not_elem_of_nil|]. split; [apply list_subseteq_nil|].
  intros w v Hw Hv. assert (∃ n, v = VNum n) as [n ->].
  { destruct Ht as [[half ->]|[u ->]]; destruct v; try done; by eexists. }
  cbn [cond_holds]. unfold input_value. rewrite !with_input_self. cbn.
  split.
  - intros H. exists n. split; [done|]. left. destruct op; cbn in H |- *; try done; lia.
  - intros (m & [= <-] & [H|[(? & ? & H & _)|(? & ? & H & _)]]); [|set_solver..].
    destruct op; cbn in H |- *; try done; lia.
Qed.

(** A comparison of the input with another one. *)
Lemma from_input_enum inputs id name e other op inv c :
  get_enum ir name = Some e → input_enum ir inputs other = Some e → id ≠ other → other ∈ cond_uses c →
  op = OpEq ∨ op = OpNeq →
  (∀ w x y, inputs_ok ir inputs w → input_value ir inputs w inv other = VEnum y →
    cond_holds ir inputs (with_input id (VEnum x) w) c = op_holds op (VEnum x) (VEnum y)) →
  ∃ s, vs_from_input (TyEnum name) other op inv = Some s ∧ alternatives_spec inputs id (TyEnum name) c s.
Proof.
  intros He Ho Hne Hu Hop Hc. eexists. split; [done|]. cbn [vs_from_input].
  assert (∀ i neg iv, (i, neg, iv) ∈ ({[(other, bool_decide (op = OpNeq), inv)]} : gset (nat * bool * bool)) ↔
    i = other ∧ neg = bool_decide (op = OpNeq) ∧ iv = inv) as Hin by set_solver.
  split; [split; [done|exists e; split; [done|]; by intros i neg iv (-> & _)%Hin]|].
  split; [intros e' _; set_solver|]. cbn [vs_uses]. rewrite elements_singleton. cbn.
  split; [by rewrite list_elem_of_singleton|]. split; [by apply singleton_uses|].
  intros w v Hw Hv. destruct v as [x|]; [|done].
  destruct (input_value_enum _ _ w inv other e Hw Ho) as (z & _ & _ & Hz). rewrite (Hc w x _ Hw Hz).
  set (y := if inv then _ else _) in *. split.
  - intros H. exists x. split; [done|]. right. exists other, (bool_decide (op = OpNeq)), inv, y.
    split; [by apply Hin|]. split; [done|]. destruct Hop as [->| ->]; cbn in H |- *;
      rewrite ?negb_true_iff, ?bool_decide_eq_true, ?bool_decide_eq_false in H; done.
  - intros (x' & [= <-] & [H|(i & neg & iv & y' & (-> & -> & ->)%Hin & Hy & H)]); [set_solver|].
    rewrite Hz in Hy. injection Hy as <-. destruct Hop as [->| ->]; cbn in H |- *;
      rewrite ?negb_true_iff, ?bool_decide_eq_true, ?bool_decide_eq_false; done.
Qed.

Lemma from_input_integer inputs id t other op c :
  input_enum ir inputs other = None → id ≠ other → other ∈ cond_uses c →
  t = TyRange false ∨ (∃ u, t = TyNumericSet u) →
  (∀ w n, cond_holds ir inputs (with_input id (VNum n) w) c = op_holds op (VNum n) (w_input w other)) →
  ∃ s, vs_from_input t other op false = Some s ∧ alternatives_spec inputs id t c s.
Proof.
  intros Ho Hne Hu Ht Hc. exists (VSInteger false {[(op, other)]} ∅ (full_type t)).
  split; [by destruct Ht as [->|[u ->]]|].
  assert (∀ op' i, (op', i) ∈ ({[(op, other)]} : gset (CmpOp * nat)) ↔ op' = op ∧ i = other) as Hin by set_solver.
  split; [destruct Ht as [->|[u ->]]; cbn; by intros op' i (_ & ->)%Hin|]. split; [done|].
  cbn [vs_uses]. rewrite elements_singleton. cbn.
  split; [by rewrite list_elem_of_singleton|]. split; [by apply singleton_uses|].
  intros w v Hw Hv. assert (∃ n, v = VNum n) as [n ->].
  { destruct Ht as [->|[u ->]]; destruct v; try done; by eexists. }
  rewrite Hc. split.
  - intros H. exists n. split; [done|]. right. left. exists op, other. split; [by apply Hin|done].
  - intros (m & [= <-] & [H|[(op' & i & (-> & ->)%Hin & H)|(op' & c' & H & _)]]); [done|done|set_solver].
Qed.

Lemma cmp_lhs_enum inputs id e rhs op inv w x y :
  input_enum ir inputs id = Some e → input_enum ir inputs rhs = Some e → id ≠ rhs →
  op = OpEq ∨ op = OpNeq → inputs_ok ir inputs w → input_value ir inputs w inv rhs = VEnum y →
  cond_holds ir inputs (with_input id (VEnum x) w) (CCmpInput id rhs op inv) = op_holds op (VEnum x) (VEnum y).
Proof.
  intros Hi Hr Hne Hop Hw Hy. destruct (input_enum_get _ _ Hir _ _ Hi) as [_ Hok].
  destruct (input_value_enum _ _ w inv rhs e Hw Hr) as (z & Hz & _ & Hz'). rewrite Hy in Hz'.
  injection Hz' as ->. cbn [cond_holds].
  rewrite input_value_with, decide_True, with_input_other, Hz by done.
  assert ((if inv then inverse_value ir inputs id (VEnum x) else VEnum x) =
    VEnum (if inv then enum_inverse e x else x)) as -> by (destruct inv; [by apply inverse_value_enum|done]).
  pose proof (enum_inverse_sides e false inv x z Hok) as Hs. cbn in Hs.
  destruct Hop as [->| ->]; cbn; [|f_equal]; by apply bool_decide_ext.
Qed.

Lemma alternatives_of_exact inputs id t c :
  cond_ok ir inputs c → cond_values_ok inputs c → comparable id t c → self_type inputs id t →
  ∃ o, alternatives_of ir c id t = Some o ∧
    match o with None => id ∉ cond_uses c | Some s => alternatives_spec inputs id t c s end.
Proof.
  intros Hc Hvals Hcmp Ht. destruct c as [code neg|i values neg inv|b|lhs rhs op|lhs rhs op inv]; cbn [alternatives_of].
  - exists None. split; [done|]. apply not_elem_of_nil.
  - case_decide as E; [subst i|exists None; split; [done|]; cbn; by rewrite list_elem_of_singleton].
    destruct Hc as [e Hi]. destruct t as [name|half|u|]; [| | |done]; [|cbn in Ht; congruence..].
    destruct Ht as (e' & He & Hi'). rewrite Hi in Hi'. injection Hi' as <-. cbn [type_as_enum mbind option_bind].
    rewrite He. cbn [mbind option_bind]. destruct (Hir name e He) as [Hn Hok].
    unfold normalized_enum_set, vs_enum_values. rewrite Hn. eexists. split; [done|].
    split; [split; [done|exists e; split; [done|set_solver]]|]. split.
    { intros e' He'. rewrite He in He'. injection He' as <-. apply normalize_values_ok; [done|]. by apply Hvals. }
    rewrite vs_uses_no_inputs. split; [apply not_elem_of_nil|]. split; [apply list_subseteq_nil|].
    intros w v Hw Hv. destruct v as [x|]; [|done]. destruct Hv as (e' & He' & Hx).
    rewrite He in He'. injection He' as <-. rewrite vs_allows_no_inputs, (elem_of_normalize_values e Hok) by done.
    cbn [cond_holds]. rewrite input_value_with, decide_True by done.
    destruct inv; [by rewrite (inverse_value_enum _ _ _ _ _ Hi)|done].
  - exists None. split; [done|]. apply not_elem_of_nil.
  - case_decide as E; [subst lhs|exists None; split; [done|]; cbn; by rewrite list_elem_of_singleton].
    cbn in Hc. eexists. split; [done|].
    assert (∀ v, value_ok ir t v → ∃ n, v = VNum n) as Hnum.
    { destruct t as [name|half|u|]; [destruct Ht as (e & _ & ?); congruence| | |done]; intros [x|n] Hv; try done; by exists n. }
    split; [destruct t as [name|half|u|]; [destruct Ht as (e & _ & ?); congruence| | |done]; by intros op' i ?%elem_of_empty|].
    split; [done|]. cbn [vs_uses]. rewrite elements_empty. split; [apply not_elem_of_nil|]. split; [apply list_subseteq_nil|].
    intros w v Hw [n ->]%Hnum. cbn [cond_holds]. rewrite with_input_self. split.
    + intros H. exists n. split; [done|]. right. right. exists op, rhs. split; [set_solver|done].
    + intros (m & [= <-] & [H|[(? & ? & H & _)|(op' & c & H1 & H)]]); [done|set_solver|].
      apply elem_of_singleton in H1. by injection H1 as -> ->.
  - pose proof Hc as (He & Hinv & Hop).
    case_decide as E1.
    { destruct E1 as [<- <-]. destruct t as [name|half|u|]; [| | |done].
      - destruct Ht as (e & Hn & Hi). destruct (from_properties_enum inputs id name e op inv Hc Hn Hi) as (s & -> & Hs).
        by exists (Some s).
      - assert (inv = false) as -> by (destruct inv; [|done]; destruct (Hinv eq_refl); cbn in Ht; congruence).
        destruct (from_properties_integer inputs id (TyRange half) op Ht) as (s & -> & Hs); [by eauto|]. by exists (Some s).
      - assert (inv = false) as -> by (destruct inv; [|done]; destruct (Hinv eq_refl); cbn in Ht; congruence).
        destruct (from_properties_integer inputs id (TyNumericSet u) op Ht) as (s & -> & Hs); [by eauto|]. by exists (Some s). }
    destruct (input_enum ir inputs lhs) as [e|] eqn:El.
    + destruct t as [name|half|u|]; [| | |done].
      * destruct Ht as (e' & Hn & Hi).
        case_decide as E2; [subst lhs|]; [|case_decide as E3; [subst rhs|]].
        -- assert (e' = e) as -> by congruence. symmetry in He.
           destruct (from_input_enum inputs id name e rhs op inv (CCmpInput id rhs op inv) Hn He)
             as (s & -> & Hs); [naive_solver|cbn; set_solver|apply Hop; by eexists| |by exists (Some s)].
           intros w x y Hw. apply (cmp_lhs_enum inputs id e); try done; [naive_solver|apply Hop; by eexists].
        -- assert (e' = e) as -> by congruence.
           destruct (from_input_enum inputs id name e lhs (op_inverse op) inv (CCmpInput lhs id op inv) Hn El)
             as (s & -> & Hs); [naive_solver|cbn; set_solver| | |by exists (Some s)].
           { destruct (Hop ltac:(by eexists)) as [->| ->]; tauto. }
           intros w x y Hw Hy. cbn [cond_holds]. rewrite input_value_with, decide_False by naive_solver.
           by rewrite Hy, with_input_self, op_holds_inverse.
        -- exists None. split; [done|]. cbn. rewrite !not_elem_of_cons. split_and!; [naive_solver..|apply not_elem_of_nil].
      * case_decide as E2; [subst lhs; cbn in Ht; congruence|].
        case_decide as E3; [subst rhs; cbn in Ht; congruence|].
        exists None. split; [done|]. cbn. rewrite !not_elem_of_cons. split_and!; [naive_solver..|apply not_elem_of_nil].
      * case_decide as E2; [subst lhs; cbn in Ht; congruence|].
        case_decide as E3; [subst rhs; cbn in Ht; congruence|].
        exists None. split; [done|]. cbn. rewrite !not_elem_of_cons. split_and!; [naive_solver..|apply not_elem_of_nil].
    + assert (inv = false) as -> by (destruct inv; [|done]; destruct (Hinv eq_refl); congruence).
      case_decide as E2; [|case_decide as E3];
        [| |exists None; split; [done|]; cbn; rewrite !not_elem_of_cons; split_and!; [naive_solver..|apply not_elem_of_nil]].
      * subst lhs. assert (t = TyRange false ∨ ∃ u, t = TyNumericSet u) as Ht'.
        { destruct t as [name|[]|u|]; [destruct Ht as (e & _ & ?); congruence| | | |done]; [|by left|by right; eexists].
          by destruct (Hcmp ltac:(tauto) ltac:(naive_solver)). }
        destruct (from_input_integer inputs id t rhs op (CCmpInput id rhs op false)) as (s & -> & Hs);
          [done|naive_solver|cbn; set_solver|done| |by exists (Some s)].
        intros w n. cbn [cond_holds]. unfold input_value. by rewrite with_input_self, with_input_other by naive_solver.
      * subst rhs. assert (t = TyRange false ∨ ∃ u, t = TyNumericSet u) as Ht'.
        { destruct t as [name|[]|u|]; [destruct Ht as (e & _ & ?); congruence| | | |done]; [|by left|by right; eexists].
          by destruct (Hcmp ltac:(tauto) ltac:(naive_solver)). }
        destruct (from_input_integer inputs id t lhs (op_inverse op) (CCmpInput lhs id op false)) as (s & -> & Hs);
          [done|naive_solver|cbn; set_solver|done| |by exists (Some s)].
        intros w n. cbn [cond_holds]. unfold input_value. rewrite with_input_self, with_input_other by naive_solver.
        symmetry. apply op_holds_inverse.
Qed.
End alternatives.
