(* ===== verification/ConstraintFilters.v ===== *)
(** * The flat filters of a constraint mean the constraint

    The filter generated for an input of a constraint allows a value exactly when the
    constraint would hold with that value, for all the objects of the quantified sets.
    This file holds the proofs about the second half of constraint.rs, modelled in
    Constraints.v. *)
From S2P Require Import Prelude Utils Orders GenSets Filters FilterSemantics Adapting Instances Environments FlatFilters Permutations Constraints.

(** ** Unions of value sets, full value sets *)
Section values.
Context (ir : IrDesc) (Hir : desc_ok ir).

Lemma vs_uses_enum name values ins i :
  i ∈ vs_uses (VSEnum name values ins) ↔ ∃ neg inv, (i, neg, inv) ∈ ins.
Proof.
  cbn. rewrite list_elem_of_fmap. setoid_rewrite elem_of_elements. split.
  - intros ([[j neg] inv] & -> & H). by exists neg, inv.
  - intros (neg & inv & H). by exists (i, neg, inv).
Qed.

Lemma vs_uses_integer f ci cc u i : i ∈ vs_uses (VSInteger f ci cc u) ↔ ∃ op, (op, i) ∈ ci.
Proof.
  cbn. rewrite list_elem_of_fmap. setoid_rewrite elem_of_elements. split.
  - intros ([op j] & -> & H). by exists op.
  - intros (op & H). by exists (op, i).
Qed.

Lemma exists_or_pair {A B : Type} (P Q R : A → B → Prop) :
  (∃ a b, (P a b ∨ Q a b) ∧ R a b) ↔ (∃ a b, P a b ∧ R a b) ∨ (∃ a b, Q a b ∧ R a b).
Proof.
  split; [intros (a & b & [H|H] & HR); [left|right]|intros [(a & b & H & HR)|(a & b & H & HR)]];
    exists a, b; tauto.
Qed.

Lemma vs_extend_exact inputs t s s' :
  vs_ok ir inputs t s → vs_ok ir inputs t s' →
  ∃ u, vs_extend s s' = Some u ∧ vs_ok ir inputs t u ∧
    (vs_values_ok ir s → vs_values_ok ir s' → vs_values_ok ir u) ∧
    (∀ i, i ∈ vs_uses u → i ∈ vs_uses s ∨ i ∈ vs_uses s') ∧
    ∀ w v, vs_allows ir inputs w u v ↔ vs_allows ir inputs w s v ∨ vs_allows ir inputs w s' v.
Proof.
  clear Hir. intros Hs Hs'. destruct s as [n values ins|f ci cc u], s' as [n' values' ins'|f' ci' cc' u'];
    [|by destruct t|by destruct t|].
  - destruct t as [name| | |]; try done. destruct Hs as (-> & e & He & Hi), Hs' as (-> & e' & He' & Hi').
    assert (e' = e) as -> by congruence. eexists. split; [done|]. split; [|split_and!].
    + split; [done|]. exists e. split; [done|]. intros i neg inv. rewrite elem_of_union. naive_solver.
    + intros H H' e1 H1. apply union_subseteq. split; [by apply H|by apply H'].
    + intros i. rewrite !vs_uses_enum. set_solver.
    + intros w v. rewrite !vs_allows_enum. unfold enum_allows. set_solver.
  - cbn [vs_extend]. assert (∀ w v, vs_allows ir inputs w (VSInteger f ci cc u) v → ∃ n, v = VNum n) as Hn
      by (intros w v (n & -> & _); by exists n).
    assert (∀ w v, vs_allows ir inputs w (VSInteger f' ci' cc' u') v → ∃ n, v = VNum n) as Hn'
      by (intros w v (n & -> & _); by exists n).
    destruct (f || f') eqn:Ef; (eexists; split; [done|]).
    + split; [by destruct t|]. split; [done|]. split; [intros i; rewrite !vs_uses_integer; tauto|].
      intros w v. split.
      * intros (n & -> & _). rewrite !vs_allows_integer. apply orb_true_iff in Ef. tauto.
      * intros H. assert (∃ n, v = VNum n) as [n ->] by naive_solver. apply vs_allows_integer. by left.
    + apply orb_false_iff in Ef as [-> ->]. split.
      { destruct t; try done; cbn in *; intros op i [H|H]%elem_of_union; eauto. }
      split; [done|]. split; [intros i; rewrite !vs_uses_integer; set_solver|].
      assert (∀ w n, vs_allows ir inputs w (VSInteger false (ci ∪ ci') (cc ∪ cc') u) (VNum n) ↔
        vs_allows ir inputs w (VSInteger false ci cc u) (VNum n) ∨
        vs_allows ir inputs w (VSInteger false ci' cc' u') (VNum n)) as Hall.
      { intros w n. rewrite !vs_allows_integer. setoid_rewrite elem_of_union. rewrite !exists_or_pair. tauto. }
      intros w v. split.
      * intros H. pose proof H as (n & -> & _). by apply Hall.
      * intros H. assert (∃ n, v = VNum n) as [n ->] by (destruct H; eauto). by apply Hall.
Qed.

Lemma vs_empty_exact inputs t :
  t ≠ TyConstant → (∀ name, t = TyEnum name → is_Some (get_enum ir name)) →
  ∃ s, vs_empty t = Some s ∧ vs_ok ir inputs t s ∧ vs_values_ok ir s ∧ vs_uses s = [] ∧
    ∀ w v, ¬ vs_allows ir inputs w s v.
Proof.
  clear Hir. intros Hc Hn. destruct t as [name|half|u|]; [| | |done]; (eexists; split; [done|]).
  - split; [destruct (Hn name eq_refl) as [e He]; split; [done|]; exists e; split; [done|set_solver]|].
    split; [intros e _; set_solver|]. split; [cbn; by rewrite elements_empty|].
    intros w v (x & _ & [H|(i & neg & inv & y & H & _)]); set_solver.
  - split; [set_solver|]. split; [done|]. split; [cbn; by rewrite elements_empty|].
    intros w v (x & _ & [H|[(op & i & H & _)|(op & i & H & _)]]); set_solver.
  - split; [set_solver|]. split; [done|]. split; [cbn; by rewrite elements_empty|].
    intros w v (x & _ & [H|[(op & i & H & _)|(op & i & H & _)]]); set_solver.
Qed.

(** [is_full] is only true of sets that allow every value. *)
Lemma vs_is_full_exact inputs t s :
  vs_ok ir inputs t s → vs_values_ok ir s →
  ∃ b, vs_is_full ir s = Some b ∧ (b = true → ∀ w v, value_ok ir t v → vs_allows ir inputs w s v).
Proof.
  intros Hs Hv. destruct s as [n values ins|f ci cc u].
  - destruct t as [name| | |]; try done. destruct Hs as (-> & e & He & _). cbn. rewrite He. cbn.
    eexists. split; [done|]. intros Hl%Nat.eqb_eq w v. destruct v as [x|]; [|done].
    intros (e' & He' & Hx). assert (e' = e) as -> by congruence. exists x. split; [done|]. left.
    destruct (Hir name e He) as [_ [Hnd _]].
    assert (values = list_to_set (value_keys e)) as ->; [|by apply elem_of_list_to_set].
    apply set_subseteq_size_eq; [by apply Hv|]. rewrite size_list_to_set by done.
    unfold value_keys, im_keys. rewrite length_fmap. lia.
  - eexists. split; [done|]. intros -> w v Hx. destruct t; try done; destruct v as [|n]; try done;
      exists n; split; try done; by left.
Qed.
End values.

(** ** Negated conditions *)

Section negation.
Context (ir : IrDesc) (Hir : desc_ok ir) (inputs : list ChoiceInstance).

(** Each input has a value of its type. *)
Definition inputs_typed (w : World) : Prop :=
  inputs_ok ir inputs w ∧ ∀ i, input_enum ir inputs i = None → ∃ n, w_input w i = VNum n.

Lemma env_world_typed {Obj : Type} (I : Interp Obj) env :
  interp_ok ir I → Forall (instance_ok ir) inputs → inputs_typed (env_world I env inputs).
Proof.
  intros HI Hin. split; [by apply env_world_inputs_ok|]. intros i Hi. cbn.
  destruct (inputs !! i) as [c|] eqn:E; [|by exists 0%Z]. cbn. rewrite input_enum_choice, E in Hi. cbn in Hi.
  destruct (Forall_lookup_1 _ _ _ _ Hin E) as (ch & Hg & _). by eapply (value_typed_num _ _ HI).
Qed.

Lemma op_negate_holds op x y : op_holds (op_negate op) (VNum x) (VNum y) = negb (op_holds op (VNum x) (VNum y)).
Proof.
  destruct op; cbn; rewrite ?negb_involutive; try done; apply eq_iff_eq_true; rewrite ?negb_true_iff; lia.
Qed.

Lemma op_negate_holds_enum op x y :
  op = OpEq ∨ op = OpNeq → op_holds (op_negate op) (VEnum x) (VEnum y) = negb (op_holds op (VEnum x) (VEnum y)).
Proof. intros [->| ->]; cbn; by rewrite ?negb_involutive. Qed.

Lemma cond_uses_negate c : cond_uses (cond_negate c) = cond_uses c.
Proof. by destruct c. Qed.

(** [Condition::negate] is the negation, and keeps the condition well typed. *)
Lemma cond_negate_exact c :
  cond_ok ir inputs c →
  cond_ok ir inputs (cond_negate c) ∧
  ∀ w, inputs_typed w → cond_holds ir inputs w (cond_negate c) = negb (cond_holds ir inputs w c).
Proof.
  intros Hc. destruct c as [code neg|i values neg inv|b|lhs rhs op|lhs rhs op inv]; cbn [cond_negate].
  - split; [done|]. intros w _. cbn. by destruct neg, (w_code w code).
  - split; [done|]. intros w [Hw _]. destruct Hc as [e He]. cbn [cond_holds].
    destruct (input_value_enum ir inputs w inv i e Hw He) as (x & _ & _ & ->). by destruct neg, (bool_decide _).
  - split; [done|]. done.
  - split; [done|]. intros w [_ Hw]. cbn. destruct (Hw lhs Hc) as [n ->]. apply op_negate_holds.
  - destruct Hc as (He & Hinv & Hop). split.
    { cbn. split_and!; [done|done|]. intros H. destruct (Hop H) as [->| ->]; cbn; tauto. }
    intros w [Hw Hwn]. cbn [cond_holds]. destruct (input_enum ir inputs lhs) as [e|] eqn:El.
    + destruct (input_value_enum ir inputs w inv lhs e Hw El) as (x & _ & _ & ->).
      destruct (input_value_enum ir inputs w false rhs e Hw (eq_sym He)) as (y & -> & _ & _).
      apply op_negate_holds_enum, Hop. by eexists.
    + destruct inv; [by destruct (Hinv eq_refl)|]. destruct (Hwn lhs El) as [x Hx], (Hwn rhs (eq_sym He)) as [y Hy].
      unfold input_value. rewrite Hx, Hy. apply op_negate_holds.
Qed.

(** No condition holds when all their negations do. *)
Lemma negated_holds conds w :
  Forall (cond_ok ir inputs) conds → inputs_typed w →
  (Forall (λ c, cond_holds ir inputs w c = true) (cond_negate <$> conds) ↔ ¬ some_holds ir inputs w conds).
Proof.
  intros Hc Hw. rewrite Forall_fmap. unfold some_holds. rewrite <-Forall_Exists_neg.
  induction Hc as [|c conds Hc _ IH]; [done|]. rewrite !Forall_cons, IH.
  unfold compose. rewrite (proj2 (cond_negate_exact c Hc) w Hw). rewrite negb_true_iff, not_true_iff_false. done.
Qed.

Lemma some_holds_dec conds w : {some_holds ir inputs w conds} + {¬ some_holds ir inputs w conds}.
Proof. apply Exists_dec. intros c. apply bool_dec. Qed.
End negation.

(** ** Splitting the conditions *)

Lemma vs_ok_adapted_type ir l a t s : vs_ok ir l (value_type_adapt a t) s ↔ vs_ok ir l t s.
Proof. by destruct t as [|[]| |]. Qed.

Lemma value_ok_adapted_type ir a t v : value_ok ir (value_type_adapt a t) v ↔ value_ok ir t v.
Proof. by destruct t as [|[]| |]. Qed.

Lemma vs_adapt_values_ok ir a s s' : vs_adapt a s = Some s' → vs_values_ok ir s → vs_values_ok ir s'.
Proof.
  destruct s as [n values ins|f ci cc u]; cbn [vs_adapt]; [by intros [= <-]|].
  destruct (mapM _ _); [|done]. by intros [= <-].
Qed.

Lemma some_holds_snoc ir inputs w conds c :
  some_holds ir inputs w (conds ++ [c]) ↔ some_holds ir inputs w conds ∨ cond_holds ir inputs w c = true.
Proof. unfold some_holds. by rewrite Exists_app, Exists_cons, Exists_nil, (right_id False or). Qed.

Lemma some_holds_cons ir inputs w c conds :
  some_holds ir inputs w (c :: conds) ↔ cond_holds ir inputs w c = true ∨ some_holds ir inputs w conds.
Proof. apply Exists_cons. Qed.

Section split.
Context (ir : IrDesc) (Hir : desc_ok ir) (inputs inputs' : list ChoiceInstance) (id : nat) (a : Adaptator).
Context (t : ValueType) (Ht : self_type ir inputs id t).
Context (Hlead : ∀ i, i < length inputs → i ≠ id → leads_to ir a inputs inputs' i).

(** The conditions of a constraint, for an input. *)
Record cond_fits (c : Condition) : Prop := {
  fits_ok : cond_ok ir inputs c;
  fits_values : cond_values_ok ir inputs c;
  fits_comparable : comparable id t c;
  fits_uses : Forall (λ i, i < length inputs) (cond_uses c)
}.

Lemma leads_to_others c uses :
  cond_fits c → uses ⊆ cond_uses c → id ∉ uses → Forall (leads_to ir a inputs inputs') uses.
Proof.
  intros [_ _ _ Hu] Hs Hid. rewrite Forall_forall in *. intros i Hi. apply Hlead; [by apply Hu, Hs|].
  by intros ->.
Qed.

(** The value sets over the new inputs. *)
Definition vs_good (s : ValueSet) : Prop :=
  vs_ok ir inputs' t s ∧ vs_values_ok ir s ∧ ∀ i, i ∈ vs_uses s → i < length inputs'.

Lemma alternatives_adapted c s :
  cond_fits c → alternatives_spec ir inputs id t c s →
  ∃ s', vs_adapt a s = Some s' ∧ vs_good s' ∧
    ∀ (Obj : Type) (I : Interp Obj) env env' v,
      interp_ok ir I → (∀ x, env x = env' (adaptator_variable a x)) → value_ok ir t v →
      (cond_holds ir inputs (with_input id v (env_world I env inputs)) c = true ↔
       vs_allows ir inputs' (env_world I env' inputs') s' v).
Proof.
  intros Hc (Hs & Hv & Hid & Hu & Hx). pose proof (leads_to_others c _ Hc Hu Hid) as Hl.
  destruct (vs_adapt_exact ir Hir inputs inputs' a t s Hs (leads_to_renames ir a inputs inputs' _ Hl))
    as (s' & E & Hs' & Hu' & Hx').
  exists s'. split; [done|]. split.
  - split; [by apply (vs_ok_adapted_type ir inputs' a)|]. split; [by eapply vs_adapt_values_ok|].
    intros i (k & Hk & <-)%Hu'. rewrite Forall_forall in Hl. by eapply leads_to_lookup, Hl.
  - intros Obj I env env' v HI Henv Hvo. rewrite (Hx _ v); [|by apply env_world_inputs_ok|done].
    symmetry. apply Hx'; [by apply leads_to_sees|by apply env_world_inputs_ok].
Qed.

Lemma other_adapted c :
  cond_fits c → id ∉ cond_uses c →
  ∃ c', cond_adapt a c = Some c' ∧ conds_ok ir inputs' [c'] ∧
    ∀ (Obj : Type) (I : Interp Obj) env env' v,
      interp_ok ir I → (∀ x, env x = env' (adaptator_variable a x)) →
      cond_holds ir inputs (with_input id v (env_world I env inputs)) c =
      cond_holds ir inputs' (env_world I env' inputs') c'.
Proof.
  intros Hc Hid. destruct (cond_adapt_env ir Hir inputs inputs' a c (fits_ok c Hc))
    as (c' & E & Hc' & Hu & Hx); [by apply (leads_to_others c)|].
  exists c'. split; [done|]. split; [split; by apply Forall_singleton|].
  intros Obj I env env' v HI Henv. by rewrite cond_holds_with_other, (Hx Obj I env env').
Qed.

Lemma conds_ok_snoc l c : conds_ok ir inputs' l → conds_ok ir inputs' [c] → conds_ok ir inputs' (l ++ [c]).
Proof. intros [H1 H2] [H3 H4]. split; by apply Forall_app. Qed.

(** One condition either extends the values allowed or is kept for later. *)
Lemma split_condition_exact s others c :
  vs_good s → conds_ok ir inputs' others → cond_fits c →
  ∃ s' others', split_condition ir id t a (s, others) c = Some (s', others') ∧
    vs_good s' ∧ conds_ok ir inputs' others' ∧
    ∀ (Obj : Type) (I : Interp Obj) env env' v,
      interp_ok ir I → (∀ x, env x = env' (adaptator_variable a x)) → value_ok ir t v →
      let w' := env_world I env' inputs' in
      (vs_allows ir inputs' w' s' v ∨ some_holds ir inputs' w' others' ↔
       (vs_allows ir inputs' w' s v ∨ some_holds ir inputs' w' others) ∨
        cond_holds ir inputs (with_input id v (env_world I env inputs)) c = true).
Proof.
  intros (Hs & Hsv & Hsu) Ho Hc. pose proof Hc as [Hok Hv Hcmp _].
  destruct (alternatives_of_exact ir Hir inputs id t c Hok Hv Hcmp Ht) as (o & E & Hspec).
  cbn [split_condition]. rewrite E. cbn [mbind option_bind]. destruct o as [alt|].
  - destruct (alternatives_adapted c alt Hc Hspec) as (alt' & -> & (Ha & Hav & Hau) & Hx). cbn [mbind option_bind].
    destruct (vs_extend_exact ir inputs' t s alt' Hs Ha) as (u & -> & Hu & Huv & Huu & Hux). cbn [mbind option_bind].
    eexists _, _. split; [done|]. split; [|split; [done|]].
    + split; [done|]. split; [by apply Huv|]. intros i [Hi|Hi]%Huu; auto.
    + intros Obj I env env' v HI Henv Hvo. cbn zeta. rewrite Hux, (Hx Obj I env env' v HI Henv Hvo). tauto.
  - destruct (other_adapted c Hc Hspec) as (c' & -> & Hc' & Hx). cbn [mbind option_bind].
    eexists _, _. split; [done|]. split; [by split|]. split; [by apply conds_ok_snoc|].
    intros Obj I env env' v HI Henv Hvo. cbn zeta. rewrite some_holds_snoc, (Hx Obj I env env' v HI Henv). tauto.
Qed.

Lemma split_conditions_exact conds s others :
  vs_good s → conds_ok ir inputs' others → Forall cond_fits conds →
  ∃ s' others', foldM (split_condition ir id t a) conds (s, others) = Some (s', others') ∧
    vs_good s' ∧ conds_ok ir inputs' others' ∧
    ∀ (Obj : Type) (I : Interp Obj) env env' v,
      interp_ok ir I → (∀ x, env x = env' (adaptator_variable a x)) → value_ok ir t v →
      let w' := env_world I env' inputs' in
      (vs_allows ir inputs' w' s' v ∨ some_holds ir inputs' w' others' ↔
       (vs_allows ir inputs' w' s v ∨ some_holds ir inputs' w' others) ∨
        some_holds ir inputs (with_input id v (env_world I env inputs)) conds).
Proof.
  intros Hs Ho Hc. revert s others Hs Ho. induction Hc as [|c conds Hc _ IH]; intros s others Hs Ho.
  { exists s, others. split_and!; try done. intros Obj I env env' v _ _ _. cbn zeta. unfold some_holds at 3.
    rewrite Exists_nil. tauto. }
  destruct (split_condition_exact s others c Hs Ho Hc) as (s1 & o1 & E1 & Hs1 & Ho1 & Hx1).
  destruct (IH s1 o1 Hs1 Ho1) as (s2 & o2 & E2 & Hs2 & Ho2 & Hx2).
  exists s2, o2. cbn [foldM]. rewrite E1. cbn [mbind option_bind]. split_and!; try done.
  intros Obj I env env' v HI Henv Hv. specialize (Hx1 Obj I env env' v HI Henv Hv).
  specialize (Hx2 Obj I env env' v HI Henv Hv). cbn zeta in *.
  rewrite some_holds_cons, Hx2, Hx1. clear. tauto.
Qed.
End split.

(** ** The point of view of an input *)

Lemma swap_remove_spec {A : Type} (l : list A) i x :
  l !! i = Some x →
  ∃ rest, swap_remove i l = Some (x, rest) ∧ length l = S (length rest) ∧
    ∀ j y, j ≠ i → l !! j = Some y → rest !! (if decide (j = length rest) then i else j) = Some y.
Proof.
  intros Hi. pose proof (lookup_lt_Some _ _ _ Hi) as Hlt. unfold swap_remove. rewrite Hi. cbn [mbind option_bind].
  destruct (last l) as [y|] eqn:El; [|apply last_None in El; by subst]. cbn [mbind option_bind].
  eexists. split; [done|]. rewrite length_take, length_insert, Nat.min_l by lia. split; [lia|].
  rewrite last_lookup in El. intros j z Hne Hj. pose proof (lookup_lt_Some _ _ _ Hj) as Hjl.
  case_decide as E.
  - rewrite lookup_take_lt by lia. rewrite list_lookup_insert_eq by done.
    rewrite <-El, <-Hj, E. f_equal. lia.
  - rewrite lookup_take_lt by lia. by rewrite list_lookup_insert_ne by done.
Qed.

Lemma elem_of_swap_remove {A : Type} (l : list A) i x rest y :
  swap_remove i l = Some (x, rest) → y ∈ rest → y ∈ l.
Proof.
  unfold swap_remove. destruct (l !! i) as [z|] eqn:Ei; [|done]. cbn. destruct (last l) as [u|] eqn:El; [|done]. cbn.
  intros [= <- <-]. intros [j Hj]%list_elem_of_lookup. apply lookup_take_Some in Hj as [Hj _].
  apply list_lookup_insert_Some in Hj as [(-> & -> & _)|[_ Hj]]; [|by eapply list_elem_of_lookup_2].
  rewrite last_lookup in El. by eapply list_elem_of_lookup_2.
Qed.

Section point_of_view.
Context (ir : IrDesc) (Hir : desc_ok ir) (Hch : choices_ok ir).

Lemma self_type_choice inputs id inst ch :
  inputs !! id = Some inst → get_choice ir (ci_choice inst) = Some ch → self_type ir inputs id (choice_value_type ch).
Proof.
  clear Hir. intros Hi Hc. unfold self_type, choice_value_type. rewrite input_enum_choice, Hi. cbn.
  unfold choice_enum. rewrite Hc. cbn. destruct (Hch _ _ Hc) as [_ He _ _].
  destruct (choice_def ch) as [name|kind value iter incr cond vis base|u]; cbn in *; [|done..].
  destruct (He name eq_refl) as [e Hn]. by exists e.
Qed.

Lemma self_type_adapted inputs id a t : self_type ir inputs id t → self_type ir inputs id (value_type_adapt a t).
Proof. by destruct t. Qed.

Lemma cond_fits_adapted inputs id a t c : cond_fits ir inputs id t c → cond_fits ir inputs id (value_type_adapt a t) c.
Proof. intros [H1 H2 H3 H4]. constructor; try done. by destruct t, c. Qed.

(** Renamed inputs, with one input taken out. *)
Lemma leads_to_swapped inputs rest id inst a :
  Forall (instance_ok ir) inputs → ad_inputs a = ∅ → length inputs = S (length rest) →
  (∀ j y, j ≠ id → inputs !! j = Some y → rest !! (if decide (j = length rest) then id else j) = Some y) →
  inputs !! id = Some inst →
  let a' := set_input (length rest) id a in
  ∀ i, i < length inputs → i ≠ id → leads_to ir a' inputs (choice_instance_adapt a' <$> rest) i.
Proof.
  clear Hir Hch. intros Hin Ha Hl Hr Hid. cbn zeta. intros i Hi Hne. destruct (lookup_lt_is_Some_2 _ _ Hi) as [c Hc].
  specialize (Hr i c Hne Hc). set (a' := set_input (length rest) id a).
  assert (adaptator_input a' i = (if decide (i = length rest) then id else i, false)) as E.
  { unfold a'. rewrite adaptator_input_set_input.
    assert (adaptator_input a i = (i, false)) as Ei by (apply adaptator_input_fresh; by rewrite Ha).
    destruct (decide (i = length rest)) as [<-|Hn]; [by rewrite decide_True, Ei|by rewrite decide_False, Ei]. }
  unfold leads_to. rewrite E.
  exists c, (choice_instance_adapt a' c). rewrite list_lookup_fmap, Hr. by split_and!.
Qed.

Lemma adaptator_variable_same a a' x : ad_variables a = ad_variables a' → adaptator_variable a x = adaptator_variable a' x.
Proof. clear Hir Hch. intros H. unfold adaptator_variable. by rewrite H. Qed.

(** What [choice_condition_new] promises: the conditions on the input are the values of
    [self_condition], the others are kept, and the variables are bound as [adapt_env] does. *)
Record condition_spec {Obj : Type} (U : SetDef → Prop) (I : Interp Obj) (inputs : list ChoiceInstance) (id : nat)
    (inst : ChoiceInstance) (ch : Choice) (conds : list Condition) (vars : gmap Var GSet) (foralls : list GSet)
    (sc : SetConstraints) (cc : ChoiceCondition) (a0 : Adaptator) : Prop := {
  spec_adapts : adapts_env a0 vars inst;
  spec_foralls : Forall (good_set U) foralls;
  spec_sets : Forall (λ x, (∃ i, x.1 = Arg i ∧ i < length (ci_vars inst)) ∧ turned x) sc;
  spec_inputs : Forall (instance_ok ir) (cc_inputs cc);
  spec_self : vs_good ir (cc_inputs cc) (choice_value_type ch) (self_condition cc);
  spec_others : conds_ok ir (cc_inputs cc) (others_conditions cc);
  spec_domain env' : guaranteed I env' a0 vars inst ch →
    env_domain I (λ x, env' (adaptator_variable a0 x)) vars ↔ bound_domain I env' foralls sc;
  spec_holds env env' v : (∀ x, env x = env' (adaptator_variable a0 x)) → value_ok ir (choice_value_type ch) v →
    some_holds ir inputs (with_input id v (env_world I env inputs)) conds ↔
    vs_allows ir (cc_inputs cc) (env_world I env' (cc_inputs cc)) (self_condition cc) v ∨
    some_holds ir (cc_inputs cc) (env_world I env' (cc_inputs cc)) (others_conditions cc)
}.

Lemma choice_condition_new_exact {Obj : Type} U (I : Interp Obj) inputs id inst ch conds vars :
  interp_ok ir I → reversible_sets (get_set_def ir) U I →
  inputs !! id = Some inst → env_ok ir U vars inst ch → Forall (instance_ok ir) inputs →
  Forall (cond_fits ir inputs id (choice_value_type ch)) conds →
  ∃ foralls sc cc a a0, choice_condition_new ir inputs id conds vars = Some (foralls, sc, cc, a) ∧
    condition_spec U I inputs id inst ch conds vars foralls sc cc a0.
Proof.
  intros HI HU Hid Hok Hin Hc. pose proof (env_choice _ _ _ _ _ Hok) as Hg.
  destruct (adapt_env_ext_exact ir U I vars inst ch HU Hok) as (afs & os & sc & a0 & E & Had & _ & Hgood & Hsc & Hdom).
  destruct (swap_remove_spec inputs id inst Hid) as (rest & Es & Hl & Hr).
  set (a := set_input (length rest) id a0). set (t := value_type_adapt a (choice_value_type ch)).
  assert (∀ x, adaptator_variable a x = adaptator_variable a0 x) as Hav
    by (intros x; apply adaptator_variable_same, ad_variables_set_input).
  set (inputs' := choice_instance_adapt a <$> rest).
  assert (Forall (instance_ok ir) inputs') as Hin'.
  { apply instances_ok_adapt, Forall_forall. intros c Hcr. apply elem_of_swap_remove with (1 := Es) in Hcr.
    rewrite Forall_forall in Hin. by apply Hin. }
  pose proof (self_type_adapted inputs id a _ (self_type_choice inputs id inst ch Hid Hg)) as Ht. fold t in Ht.
  destruct (vs_empty_exact ir inputs' t) as (s0 & E0 & Hs0 & Hv0 & Hu0 & Hx0).
  { intros Et. by rewrite Et in Ht. }
  { intros name Et. rewrite Et in Ht. destruct Ht as (e & He & _). by eexists. }
  destruct (split_conditions_exact ir Hir inputs inputs' id a t Ht
    (leads_to_swapped inputs rest id inst a0 Hin (adapts_inputs _ _ _ Had) Hl Hr Hid) conds s0 [])
    as (s & others & Ef & (Hs & Hsv & Hsu) & Ho & Hx).
  { split; [done|]. split; [done|]. rewrite Hu0. by intros i ?%elem_of_nil. }
  { by split; constructor. }
  { eapply Forall_impl; [exact Hc|]. intros c. apply cond_fits_adapted. }
  exists (afs ++ os), sc, (mkChoiceCondition inputs' s others), a, a0. split.
  { unfold choice_condition_new, adapt_env. rewrite Hid. cbn [mbind option_bind]. rewrite E. cbn [mbind option_bind].
    rewrite Es. cbn [mbind option_bind]. fold a. rewrite Hg. cbn [mbind option_bind]. fold t.
    rewrite E0. cbn [mbind option_bind]. by rewrite Ef. }
  constructor; try done.
  - split; [by apply (vs_ok_adapted_type ir inputs' a)|done].
  - intros env env' v Henv Hv. cbn [cc_inputs self_condition others_conditions].
    rewrite (Hx Obj I env env' v HI); [|intros x; by rewrite Hav|by apply value_ok_adapted_type].
    unfold some_holds at 2. rewrite Exists_nil. pose proof (Hx0 (env_world I env' inputs') v). tauto.
Qed.
End point_of_view.

(** ** Sorting the set constraints *)

Lemma arguments_get_sets a i :
  i < arguments_len a → ∃ x, arguments_get a i = Some x ∧ arguments_sets a !! i = Some x.2.
Proof.
  destruct a as [vars|[l r] t inverse]; cbn [arguments_get arguments_sets arguments_len]; intros Hi.
  - destruct (lookup_lt_is_Some_2 _ _ Hi) as [x Hx]. exists x. by rewrite list_lookup_fmap, Hx.
  - destruct i as [|[|i]]; [..|lia]; by eexists.
Qed.

Lemma used_by_inputs_total ir var given inputs :
  Forall (instance_ok ir) inputs → is_Some (used_by_inputs ir var given inputs).
Proof.
  induction 1 as [|c inputs (ch & Hg & Hl) _ IH]; [by eexists|]. cbn [used_by_inputs].
  destruct (list_find _ (ci_vars c)) as [[pos x]|] eqn:E; [|done]. rewrite Hg. cbn [mbind option_bind].
  apply list_find_Some in E as (E%lookup_lt_Some & _). rewrite Hl in E.
  destruct (arguments_get_sets _ _ E) as (y & -> & _). cbn [mbind option_bind].
  destruct (is_subset_of_def _ _); [done|by eexists].
Qed.

Lemma used_by_sets_total var given sets :
  wf_set given → Forall (λ s, is_Some (set_arg s) → is_Some (def_arg (set_def s))) sets →
  is_Some (used_by_sets var given sets).
Proof.
  intros Hw. induction 1 as [|s sets Hs _ IH]; [by eexists|]. cbn [used_by_sets].
  case_bool_decide as E; [|done]. destruct Hs as [arg ->]; [by eexists|]. cbn [mbind option_bind].
  destruct (is_subset_of_total given arg Hw) as [b ->]. cbn [mbind option_bind]. destruct b; [done|by eexists].
Qed.

Lemma params_wf_arg s : params_wf s → is_Some (set_arg s) → is_Some (def_arg (set_def s)).
Proof. destruct s as [d rc v]. by intros [H _]. Qed.

Lemma reverse_constraints_of_wf sets :
  Forall params_wf sets →
  Forall (λ s, is_Some (set_arg s) → is_Some (def_arg (set_def s))) (reverse_constraints_of sets).
Proof.
  intros Hs. unfold reverse_constraints_of. apply Forall_forall. intros r (s & Hin & Hr)%list_elem_of_omap.
  rewrite Forall_forall in Hs. specialize (Hs s Hin). destruct s as [d rc v]. cbn in Hr. subst rc.
  destruct Hs as [_ Hs]. by apply params_wf_arg.
Qed.

Section sorting.
Context (ir : IrDesc) (Hch : choices_ok ir) (ch : Choice) (inputs : list ChoiceInstance) (foralls : list GSet).
Context (name : string) (Hg : get_choice ir name = Some ch).
Context (Hin : Forall (instance_ok ir) inputs) (Hf : Forall params_wf foralls).

(** A constraint on an argument whose set is well formed. *)
Definition sortable (x : Var * GSet) : Prop :=
  (∃ i, x.1 = Arg i ∧ i < arguments_len (arguments ch)) ∧
  (is_Some (set_arg x.2) → is_Some (def_arg (set_def x.2))).

Lemma sort_constraint_total ins inn x :
  Forall sortable ins → sortable x →
  ∃ ins' inn', sort_constraint ir ch inputs foralls (ins, inn) x = Some (ins', inn') ∧
    Forall sortable ins' ∧ ins' ++ inn' ≡ₚ x :: ins ++ inn.
Proof.
  intros Hs Hx. pose proof Hx as ((i & Ei & Hi) & Hxp). destruct x as [var subset]. cbn in Ei, Hxp. subst var.
  unfold sort_constraint. destruct (arguments_get_sets _ _ Hi) as (given & -> & Hgs). cbn [mbind option_bind].
  destruct (used_by_inputs_total ir (Arg i) given.2 inputs Hin) as [b1 ->]. cbn [mbind option_bind].
  assert (wf_set given.2) as Hw.
  { destruct (Hch _ _ Hg) as [_ _ _ Hsets]. by apply (Forall_lookup_1 _ _ _ _ Hsets Hgs). }
  destruct (used_by_sets_total (Arg i) given.2 ((ins.*2 ++ foralls) ++ reverse_constraints_of foralls) Hw) as [b2 ->].
  { rewrite !Forall_app. split_and!; [|by eapply Forall_impl; [exact Hf|apply params_wf_arg]|by apply reverse_constraints_of_wf].
    apply Forall_fmap. eapply Forall_impl; [exact Hs|]. by intros y [_ Hy]. }
  cbn [mbind option_bind]. destruct (b1 || b2); (eexists _, _; split; [done|]).
  - split; [apply Forall_app; split; [done|by apply Forall_singleton]|].
    rewrite <-app_assoc. cbn. symmetry. apply Permutation_middle.
  - split; [done|]. rewrite app_assoc. symmetry. apply Permutation_cons_append.
Qed.

Lemma sort_constraints_total l ins inn :
  Forall sortable ins → Forall sortable l →
  ∃ ins' inn', foldM (sort_constraint ir ch inputs foralls) l (ins, inn) = Some (ins', inn') ∧
    ins' ++ inn' ≡ₚ l ++ ins ++ inn.
Proof.
  intros Hs Hl. revert ins inn Hs. induction Hl as [|x l Hx _ IH]; intros ins inn Hs; [by exists ins, inn|].
  destruct (sort_constraint_total ins inn x Hs Hx) as (ins1 & inn1 & E1 & Hs1 & P1).
  destruct (IH ins1 inn1 Hs1) as (ins2 & inn2 & E2 & P2). exists ins2, inn2. cbn [foldM]. rewrite E1.
  cbn [mbind option_bind]. split; [done|]. rewrite P2, P1. cbn. symmetry. apply Permutation_middle.
Qed.
End sorting.

(** ** Environments that agree on the variables of a constraint *)

Fixpoint set_vars (s : GSet) : list Var :=
  match s with
  | mkSet _ rc v => option_list v ++ match rc with Some r => set_vars r | None => [] end
  end.

Definition cond_vars (c : Condition) : list Var :=
  match c with
  | CCode code _ => (code_vars code).*1
  | CCmpCode _ rhs _ => (code_vars rhs).*1
  | CEnum _ _ _ _ | CBool _ | CCmpInput _ _ _ _ => []
  end.

Section agree.
Context {Obj : Type} (I : Interp Obj) (env env2 : Var → Obj).

Lemma in_set_agree s o :
  (∀ x, x ∈ set_vars s → env x = env2 x) → in_set I env s o ↔ in_set I env2 s o.
Proof.
  unfold in_set. revert s. fix IH 1. intros [d rc v]. cbn. intros H. apply Morphisms_Prop.and_iff_morphism.
  - assert (env <$> v = env2 <$> v) as ->; [|done]. destruct v as [v|]; [|done]. cbn. f_equal. apply H.
    cbn. left.
  - destruct rc as [r|]; [|done]. apply IH. intros x Hx. apply H. apply elem_of_app. by right.
Qed.

Lemma code_env_agree c : (∀ x, x ∈ (code_vars c).*1 → env x = env2 x) → code_env env c = code_env env2 c.
Proof.
  intros H. unfold code_env. apply list_fmap_ext. intros i [v n] Hi. f_equal. apply H.
  apply list_elem_of_fmap. exists (v, n). split; [done|]. by eapply list_elem_of_lookup_2.
Qed.

Lemma env_world_agree inputs i :
  (∀ c x, c ∈ inputs → x ∈ ci_vars c → env x = env2 x) →
  w_input (env_world I env inputs) i = w_input (env_world I env2 inputs) i.
Proof.
  intros H. cbn. destruct (inputs !! i) as [c|] eqn:E; [|done]. cbn. unfold inst_value. f_equal.
  apply list_fmap_ext. intros j x Hx. apply (H c); by eapply list_elem_of_lookup_2.
Qed.

Lemma some_holds_agree ir inputs id v conds :
  (∀ c x, c ∈ inputs → x ∈ ci_vars c → env x = env2 x) →
  (∀ c x, c ∈ conds → x ∈ cond_vars c → env x = env2 x) →
  some_holds ir inputs (with_input id v (env_world I env inputs)) conds ↔
  some_holds ir inputs (with_input id v (env_world I env2 inputs)) conds.
Proof.
  intros Hi Hc. unfold some_holds. rewrite !Exists_exists.
  assert (∀ c, c ∈ conds → cond_holds ir inputs (with_input id v (env_world I env inputs)) c =
    cond_holds ir inputs (with_input id v (env_world I env2 inputs)) c) as H.
  { intros c Hcc. specialize (Hc c).
    assert (∀ i, w_input (with_input id v (env_world I env inputs)) i =
      w_input (with_input id v (env_world I env2 inputs)) i) as Hw.
    { intros i. cbn [w_input with_input]. case_decide; [done|]. by apply env_world_agree. }
    destruct c as [code neg|i values neg inv|b|lhs rhs op|lhs rhs op inv]; cbn [cond_holds cond_vars] in *;
      unfold input_value; rewrite ?Hw; try done; cbn [w_code w_num with_input env_world]; do 2 f_equal;
      rewrite (code_env_agree _) by (intros x Hx; by apply Hc); done. }
  split; intros (c & Hcc & Hh); exists c; (split; [done|]); [by rewrite <-H|by rewrite H].
Qed.
End agree.

(** ** Fragile values *)

(** Values that are listed, not read from inputs. *)
Definition vs_constant (s : ValueSet) : Prop :=
  match s with
  | VSEnum _ _ ins => ins = ∅
  | VSInteger _ ci cc _ => ci = ∅ ∧ cc = ∅
  end.

Definition lists (s : ValueSet) (v : Value) : Prop :=
  match s, v with
  | VSEnum _ values _, VEnum x => x ∈ values
  | VSInteger f _ _ _, VNum _ => f = true
  | _, _ => False
  end.

Lemma vs_constant_lists ir inputs w s v : vs_constant s → vs_allows ir inputs w s v ↔ lists s v.
Proof.
  destruct s as [n values ins|f ci cc u].
  - intros ->. destruct v as [y|m]; cbn [lists]; [apply vs_allows_no_inputs|]. split; [|intros []]. by intros (y & Hy & _).
  - intros [-> ->]. destruct v as [y|m]; cbn [lists]; [split; [|intros []]; by intros (m & Hm & _)|].
    rewrite vs_allows_integer. split; [|by left]. by intros [?|[(? & ? & ?%elem_of_empty & _)|(? & ? & ?%elem_of_empty & _)]].
Qed.

Record fragile_ok (ir : IrDesc) (ch : Choice) : Prop := {
  fragile_typed inputs : vs_ok ir inputs (choice_value_type ch) (fragile_values ch);
  fragile_values_ok : vs_values_ok ir (fragile_values ch);
  fragile_constant : vs_constant (fragile_values ch)
}.

Lemma vs_constant_uses s : vs_constant s → vs_uses s = [].
Proof. destruct s; cbn; [intros ->|intros [-> _]]; by rewrite elements_empty. Qed.

(** ** The filter of an input *)

(** The constraint only mentions its own variables. *)
Record closed (c : Constraint) : Prop := {
  closed_inputs i x : i ∈ c_inputs c → x ∈ ci_vars i → is_Some (constraint_env (c_vars c) !! x);
  closed_conds d x : d ∈ c_conditions c → x ∈ cond_vars d → is_Some (constraint_env (c_vars c) !! x);
  closed_sets s x : s ∈ c_vars c → x ∈ set_vars s → is_Some (constraint_env (c_vars c) !! x)
}.

Lemma constraint_env_lookup l x s :
  constraint_env l !! x = Some s ↔ ∃ i, x = ForallVar i ∧ l !! i = Some s.
Proof.
  unfold constraint_env.
  assert (NoDup ((λ '(i, s), (ForallVar i, s)) <$> enumerate l).*1) as Hnd.
  { clear x s. rewrite <-list_fmap_compose. apply NoDup_alt. intros i j x. rewrite !list_lookup_fmap, !lookup_enumerate.
    destruct (l !! i), (l !! j); cbn; try done. intros [= <-]. by intros [= ->]. }
  rewrite <-elem_of_list_to_map by done. rewrite list_elem_of_fmap. split.
  - intros ([i s'] & [= -> ->] & [k Hk]%list_elem_of_lookup). rewrite lookup_enumerate in Hk. exists i.
    destruct (l !! k) eqn:E; [|done]. cbn in Hk. injection Hk as -> ->. done.
  - intros (i & -> & Hi). exists (i, s). split; [done|]. apply list_elem_of_lookup. exists i.
    by rewrite lookup_enumerate, Hi.
Qed.

(** A set of a constraint that a choice expects has no parameter. *)
Lemma closed_set_free c s g a :
  closed c → s ∈ c_vars c → s ≡ g → args_only g → set_adapt a s = s.
Proof.
  intros Hc Hs He Hg. assert (∀ x, x ∈ set_vars s → ∃ i, x = ForallVar i) as Hx.
  { intros x Hx. destruct (closed_sets c Hc s x Hs Hx) as [u (i & -> & _)%constraint_env_lookup]. by exists i. }
  clear Hs. revert s g He Hg Hx. fix IH 1. intros [d rc v] [d' rc' v']. cbn. unfold equiv, gset_equiv. cbn.
  intros [= En Er ->] [Hv Hr] Hx. f_equal.
  - destruct rc as [r|], rc' as [r'|]; try done. cbn. f_equal. injection Er as Er.
    apply (IH r r'); [done|done|]. intros x Hxr. apply Hx, elem_of_app. by right.
  - destruct v' as [v'|]; [|done]. cbn in Hx. destruct (Hx v' ltac:(left)) as [i ->]. done.
Qed.

Section filter.
Context {Obj : Type} (ir : IrDesc) (Hir : desc_ok ir) (Hch : choices_ok ir).
Context (U : SetDef → Prop) (I : Interp Obj) (HI : interp_ok ir I) (HU : reversible_sets (get_set_def ir) U I).
Context (c : Constraint) (Hcl : closed c) (Hin : Forall (instance_ok ir) (c_inputs c)).

(** What is asked of an input for its filter. *)
Record input_ok (id : nat) (inst : ChoiceInstance) (ch : Choice) : Prop := {
  input_ok_lookup : c_inputs c !! id = Some inst;
  input_ok_env : env_ok ir U (constraint_env (c_vars c)) inst ch;
  input_ok_conds : Forall (cond_fits ir (c_inputs c) id (choice_value_type ch)) (c_conditions c);
  input_ok_fragile : fragile_ok ir ch
}.

(** The arguments of the choice are in the sets it declares. *)
Definition args_in_sets (env : Var → Obj) (ch : Choice) : Prop :=
  ∀ k given, arguments_sets (arguments ch) !! k = Some given → in_set I env given (env (Arg k)).

(** The constraint would hold with this value of the input, for all objects that the
    arguments of the input leave free. *)
Definition would_hold (id : nat) (inst : ChoiceInstance) (ch : Choice) (env : Var → Obj) (v : Value) : Prop :=
  ∀ env2, (∀ k x, ci_vars inst !! k = Some x → env2 x = env (Arg k)) →
    env_domain I env2 (constraint_env (c_vars c)) →
    some_holds ir (c_inputs c) (with_input id v (env_world I env2 (c_inputs c))) (c_conditions c) ∨
    (restrict_fragile c = false ∧ lists (fragile_values ch) v).

Context (id : nat) (inst : ChoiceInstance) (ch : Choice) (Hok : input_ok id inst ch).
Context (foralls : list GSet) (sc : SetConstraints) (cc : ChoiceCondition) (a0 : Adaptator).
Context (Hspec : condition_spec ir U I (c_inputs c) id inst ch (c_conditions c) (constraint_env (c_vars c))
  foralls sc cc a0).
#[local] Notation t := (choice_value_type ch).
#[local] Notation vars := (constraint_env (c_vars c)).

Lemma declared_guaranteed env env' : args_in_sets env ch → same_args env env' → guaranteed I env' a0 vars inst ch.
Proof using Hch Hcl Hok.
  intros Ha Hsame k x s given Hk Hs Hg He. apply constraint_env_lookup in Hs as (i & -> & Hs).
  destruct (Hch _ _ (env_choice _ _ _ _ _ (input_ok_env _ _ _ Hok))) as [_ _ _ Hsets].
  destruct (Forall_lookup_1 _ _ _ _ Hsets Hg) as [_ Hao].
  rewrite (closed_set_free c s given a0 Hcl (list_elem_of_lookup_2 _ _ _ Hs) He Hao).
  apply (set_den_named _ _ given s); [by symmetry|]. rewrite <-(Hsame k).
  apply (in_set_args_only I env env' given _ Hao Hsame). by apply Ha.
Qed.

Lemma would_hold_exact env v :
  args_in_sets env ch → value_ok ir t v →
  would_hold id inst ch env v ↔
  ∀ env', same_args env env' → bound_domain I env' foralls sc →
    (vs_allows ir (cc_inputs cc) (env_world I env' (cc_inputs cc)) (self_condition cc) v ∨
     some_holds ir (cc_inputs cc) (env_world I env' (cc_inputs cc)) (others_conditions cc)) ∨
    (restrict_fragile c = false ∧ lists (fragile_values ch) v).
Proof using Hch Hcl Hok Hspec.
  intros Ha Hv. pose proof (spec_adapts _ _ _ _ _ _ _ _ _ _ _ _ _ Hspec) as Had.
  pose proof (spec_domain _ _ _ _ _ _ _ _ _ _ _ _ _ Hspec) as Hdom.
  pose proof (spec_holds _ _ _ _ _ _ _ _ _ _ _ _ _ Hspec) as Hh. unfold would_hold. split.
  - intros H env' Hs Hd. rewrite <-(Hh (λ x, env' (adaptator_variable a0 x)) env' v) by done.
    apply H.
    + intros k x Hk. by rewrite (adapts_arg _ _ _ Had k x Hk), (Hs k).
    + apply (Hdom env'); [by eapply declared_guaranteed|done].
  - intros H env2 Hargs Hd.
    destruct (adapts_env_inverse a0 vars inst env env2 Had (env_nodup _ _ _ _ _ (input_ok_env _ _ _ Hok)) Hargs)
      as (env' & Hs & Hx).
    set (env3 := λ x, env' (adaptator_variable a0 x)).
    assert (∀ x, is_Some (vars !! x) → env2 x = env3 x) as Hx3 by done.
    rewrite (some_holds_agree I env2 env3).
    + rewrite (Hh env3 env' v) by done. apply (H env' Hs). apply (Hdom env'); [by eapply declared_guaranteed|].
      intros x s Hl. fold env3. pose proof Hl as Hl'. apply constraint_env_lookup in Hl' as (i & -> & Hi).
      change (env' (adaptator_variable a0 (ForallVar i))) with (env3 (ForallVar i)).
      rewrite <-(Hx3 (ForallVar i)) by by eexists.
      apply (in_set_agree I env2 env3); [|by apply Hd]. intros x Hxs. apply Hx3.
      apply (closed_sets c Hcl s); [by eapply list_elem_of_lookup_2|done].
    + intros i x Hi Hxi. by apply Hx3, (closed_inputs c Hcl i).
    + intros d x Hdc Hxd. by apply Hx3, (closed_conds c Hcl d).
Qed.

(** The values of the filter: those of the condition on the input, and the fragile ones
    when they must not be restricted. *)
Lemma filter_values :
  ∃ s, (if restrict_fragile c then Some (self_condition cc)
        else vs_extend (self_condition cc) (fragile_values ch)) = Some s ∧ vs_good ir (cc_inputs cc) t s ∧
    ∀ w v, vs_allows ir (cc_inputs cc) w s v ↔
      vs_allows ir (cc_inputs cc) w (self_condition cc) v ∨ (restrict_fragile c = false ∧ lists (fragile_values ch) v).
Proof using Hok Hspec.
  pose proof (spec_self _ _ _ _ _ _ _ _ _ _ _ _ _ Hspec) as (Hs & Hv & Hu).
  destruct (restrict_fragile c).
  - exists (self_condition cc). split; [done|]. split; [done|]. intros w v. split; [by left|]. by intros [H|[H _]].
  - destruct (input_ok_fragile _ _ _ Hok) as [Hf Hfv Hfc].
    destruct (vs_extend_exact ir (cc_inputs cc) t _ _ Hs (Hf _)) as (u & -> & Hus & Huv & Huu & Hux).
    exists u. split; [done|]. split.
    + split; [done|]. split; [by apply Huv|]. intros i [Hi|Hi]%Huu; [by apply Hu|].
      rewrite (vs_constant_uses _ Hfc) in Hi. by apply elem_of_nil in Hi.
    + intros w v. rewrite Hux, (vs_constant_lists ir (cc_inputs cc) w _ v Hfc). tauto.
Qed.

Lemma sc_sortable : Forall (sortable ch) (reverse sc).
Proof using Hok Hspec.
  apply Forall_reverse. eapply Forall_impl; [exact (spec_sets _ _ _ _ _ _ _ _ _ _ _ _ _ Hspec)|].
  intros x [(i & Hi & Hl) [_ Ht]]. split; [|done]. exists i. split; [done|].
  rewrite (env_length _ _ _ _ _ (input_ok_env _ _ _ Hok)) in Hl.
  by destruct (arguments ch) as [l|[] ? ?]; cbn in *; [rewrite length_fmap in Hl|].
Qed.

(** The single rule of the filter. *)
Lemma filter_rule_ok s inner :
  vs_good ir (cc_inputs cc) t s →
  rules_ok ir (cc_inputs cc) t [mkRule (cond_negate <$> others_conditions cc) s inner].
Proof using Hspec.
  intros (Hs & _ & Hu). destruct (spec_others _ _ _ _ _ _ _ _ _ _ _ _ _ Hspec) as [Ho Hou].
  split; apply Forall_singleton.
  - split; [|done]. cbn. apply Forall_fmap. eapply Forall_impl; [exact Ho|]. intros d Hd.
    by apply (cond_negate_exact ir (cc_inputs cc) d Hd).
  - unfold rule_uses. cbn [conditions alternatives]. apply Forall_app. split; [|by apply Forall_forall].
    apply Forall_forall. intros i (d & Hi & (e & -> & He)%list_elem_of_fmap)%list_elem_of_bind.
    rewrite cond_uses_negate in Hi. rewrite Forall_forall in Hou. specialize (Hou e He).
    rewrite Forall_forall in Hou. by apply Hou.
Qed.

Lemma filter_rule_allows env' s inner v :
  rules_allow ir I env' (cc_inputs cc) [mkRule (cond_negate <$> others_conditions cc) s inner] v ↔
  (Forall (λ x, in_set I env' x.2 (env' x.1)) inner →
   vs_allows ir (cc_inputs cc) (env_world I env' (cc_inputs cc)) s v ∨
   some_holds ir (cc_inputs cc) (env_world I env' (cc_inputs cc)) (others_conditions cc)).
Proof using HI Hspec.
  destruct (spec_others _ _ _ _ _ _ _ _ _ _ _ _ _ Hspec) as [Ho _].
  pose proof (spec_inputs _ _ _ _ _ _ _ _ _ _ _ _ _ Hspec) as Hcin.
  unfold rules_allow. rewrite Forall_singleton. unfold rule_allows, triggers.
  cbn [conditions alternatives set_constraints w_set env_world].
  rewrite (negated_holds ir (cc_inputs cc) _ _ Ho (env_world_typed ir (cc_inputs cc) I env' HI Hcin)).
  destruct (some_holds_dec ir (cc_inputs cc) (others_conditions cc) (env_world I env' (cc_inputs cc))); tauto.
Qed.
End filter.

(** The sorted constraints are the constraints. *)
Lemma bound_domain_split {Obj : Type} (I : Interp Obj) env' foralls sc ins inn f :
  ins ++ inn ≡ₚ reverse sc → ff_vars f = foralls → ff_set_constraints f = set_constraints_new (reverse ins) →
  bound_domain I env' foralls sc ↔
  ff_domain I env' f ∧ Forall (λ x, in_set I env' x.2 (env' x.1)) (set_constraints_new (reverse inn)).
Proof.
  intros Hp Hv Hs. unfold bound_domain, ff_domain, set_constraints_new in *. rewrite Hv, Hs.
  rewrite !rsort_by_key_perm, !reverse_Permutation.
  rewrite <-(reverse_Permutation sc), <-Hp, Forall_app. tauto.
Qed.

Section gen.
Context {Obj : Type} (ir : IrDesc) (Hir : desc_ok ir) (Hch : choices_ok ir).
Context (U : SetDef → Prop) (I : Interp Obj) (HI : interp_ok ir I) (HU : reversible_sets (get_set_def ir) U I).

(** The filter of an input allows a value exactly when the constraint would hold with it;
    no filter is generated when it would hold with any. *)
Lemma gen_flat_filter_exact c id inst ch :
  closed c → Forall (instance_ok ir) (c_inputs c) → input_ok ir U c id inst ch →
  ∃ o, gen_flat_filter ir c id = Some o ∧
    match o with
    | Some f => ff_ok ir (choice_value_type ch) f ∧
        ∀ env v, args_in_sets I env ch → value_ok ir (choice_value_type ch) v →
          ff_allows ir I env v f ↔ would_hold ir I c id inst ch env v
    | None => ∀ env v, args_in_sets I env ch → value_ok ir (choice_value_type ch) v →
        would_hold ir I c id inst ch env v
    end.
Proof.
  intros Hcl Hin Hok. pose proof Hok as [Hid Henv Hconds Hfr]. pose proof (env_choice _ _ _ _ _ Henv) as Hg.
  destruct (choice_condition_new_exact ir Hir Hch U I (c_inputs c) id inst ch (c_conditions c) _ HI HU Hid Henv Hin Hconds)
    as (foralls & sc & cc & a & a0 & E & Hspec).
  destruct (filter_values ir U I c id inst ch Hok foralls sc cc a0 Hspec) as (s & Es & Hsg & Hsx).
  pose proof (would_hold_exact ir Hch U I c Hcl id inst ch Hok foralls sc cc a0 Hspec) as Hwould.
  unfold gen_flat_filter. rewrite Hid. cbn [mbind option_bind]. rewrite Hg. cbn [mbind option_bind].
  rewrite E. cbn [mbind option_bind]. rewrite Es. cbn [mbind option_bind].
  destruct Hsg as (Hs & Hsv & Hsu).
  destruct (vs_is_full_exact ir Hir (cc_inputs cc) _ s Hs Hsv) as (full & -> & Hfull). cbn [mbind option_bind].
  destruct full.
  { exists None. split; [done|]. intros env v Ha Hv. apply (Hwould env v Ha Hv). intros env' _ _.
    pose proof (proj1 (Hsx _ _) (Hfull eq_refl (env_world I env' (cc_inputs cc)) v Hv)). tauto. }
  destruct (sort_constraints_total ir Hch ch (cc_inputs cc) foralls (ci_choice inst) Hg (spec_inputs _ _ _ _ _ _ _ _ _ _ _ _ _ Hspec)
    ltac:(eapply Forall_impl; [exact (spec_foralls _ _ _ _ _ _ _ _ _ _ _ _ _ Hspec)|by intros g [_ Hp]])
    (reverse sc) [] [] ltac:(constructor) (sc_sortable ir U I c id inst ch Hok foralls sc cc a0 Hspec)) as (ins & inn & -> & Hp).
  cbn [mbind option_bind]. rewrite app_nil_r in Hp.
  destruct (flat_filter_new_exact ir Hir Hch _ foralls (cc_inputs cc) _ (set_constraints_new (reverse ins))
    (spec_inputs _ _ _ _ _ _ _ _ _ _ _ _ _ Hspec)
    (filter_rule_ok ir U I c id inst ch foralls sc cc a0 Hspec s (set_constraints_new (reverse inn)) (conj Hs (conj Hsv Hsu))))
    as (f & Ef & Hfok & Hvars & Hsets & _ & Hfx).
  rewrite Ef. cbn [mbind option_bind]. exists (Some f). split; [done|]. split; [done|].
  intros env v Ha Hv. rewrite (Hwould env v Ha Hv). unfold ff_allows.
  assert (∀ env', (ff_domain I env' f → rules_allow ir I env' (ff_inputs f) (ff_rules f) v) ↔
    (bound_domain I env' foralls sc →
      (vs_allows ir (cc_inputs cc) (env_world I env' (cc_inputs cc)) (self_condition cc) v ∨
       some_holds ir (cc_inputs cc) (env_world I env' (cc_inputs cc)) (others_conditions cc)) ∨
      (restrict_fragile c = false ∧ lists (fragile_values ch) v))) as H.
  { intros env'. rewrite (Hfx Obj I env' v HI), (filter_rule_allows ir U I HI c id inst ch foralls sc cc a0 Hspec).
    rewrite (bound_domain_split I env' foralls sc ins inn f Hp Hvars Hsets), Hsx. clear. tauto. }
  split; intros Hall env' Hsame; apply H; by apply Hall.
Qed.

(** ** All the filters of a constraint *)

(** The objects that an instance applies its choice to. *)
Definition arg_env (env : Var → Obj) (inst : ChoiceInstance) (x : Var) : Obj :=
  match x with
  | Arg k => from_option env (env x) (ci_vars inst !! k)
  | ForallVar _ => env x
  end.

(** The value that a choice has on its arguments. *)
Definition own_value (env : Var → Obj) (name : string) (ch : Choice) : Value :=
  i_val I name (env <$> (Arg <$> seq 0 (arguments_len (arguments ch)))).

(** What the type checker ensures: instances apply choices to objects of the declared
    sets, and the set of symmetric arguments has no parameter. *)
Record well_scoped (c : Constraint) : Prop := {
  scoped_inputs id inst : c_inputs c !! id = Some inst → ∃ ch, input_ok ir U c id inst ch;
  scoped_args id inst ch env : c_inputs c !! id = Some inst → get_choice ir (ci_choice inst) = Some ch →
    env_domain I env (constraint_env (c_vars c)) → args_in_sets I (arg_env env inst) ch;
  scoped_symmetric id inst ch names s inverse : c_inputs c !! id = Some inst →
    get_choice ir (ci_choice inst) = Some ch → arguments ch = Symmetric names s inverse → set_vars s = []
}.

Lemma own_value_ok env name ch : get_choice ir name = Some ch → value_ok ir (choice_value_type ch) (own_value env name ch).
Proof using Hch HI.
  intros Hg. unfold own_value, choice_value_type. set (objs := env <$> _).
  destruct (Hch _ _ Hg) as [_ He _ _].
  assert (choice_enum ir name = (n ← def_as_enum (choice_def ch); get_enum ir n)) as Ec
    by (unfold choice_enum; by rewrite Hg).
  destruct (choice_def ch) as [n|kind value iter incr cond vis base|u] eqn:Ed; cbn in *.
  - destruct (He n eq_refl) as [e Hn]. rewrite Hn in Ec.
    destruct (value_typed _ _ HI name e objs Ec) as (x & -> & Hx). by exists e.
  - by destruct (value_typed_num _ _ HI name ch objs Hg Ec) as [n ->].
  - by destruct (value_typed_num _ _ HI name ch objs Hg Ec) as [n ->].
Qed.

(** An environment that agrees with the arguments gives the instance the value that the
    choice has on them. *)
Lemma own_value_instance env env2 inst ch :
  get_choice ir (ci_choice inst) = Some ch → length (ci_vars inst) = arguments_len (arguments ch) →
  (∀ k x, ci_vars inst !! k = Some x → env2 x = env (Arg k)) →
  own_value env (ci_choice inst) ch = inst_value I env2 inst.
Proof using.
  intros Hg Hl Hx. unfold own_value, inst_value. f_equal. apply list_eq. intros k.
  rewrite !list_lookup_fmap, <-Hl. destruct (ci_vars inst !! k) as [x|] eqn:E.
  - rewrite lookup_seq_lt by by eapply lookup_lt_Some. cbn. by rewrite (Hx k x E).
  - rewrite lookup_seq_ge; [done|]. by apply lookup_ge_None.
Qed.

Lemma some_holds_own inputs id inst env2 v conds :
  inputs !! id = Some inst → v = inst_value I env2 inst →
  some_holds ir inputs (with_input id v (env_world I env2 inputs)) conds ↔
  some_holds ir inputs (env_world I env2 inputs) conds.
Proof using.
  intros Hid ->. unfold some_holds.
  assert (∀ c, cond_holds ir inputs (with_input id (inst_value I env2 inst) (env_world I env2 inputs)) c =
    cond_holds ir inputs (env_world I env2 inputs) c) as H.
  { assert (∀ i, w_input (with_input id (inst_value I env2 inst) (env_world I env2 inputs)) i =
      w_input (env_world I env2 inputs) i) as Hw.
    { intros i. cbn. case_decide; [subst|done]. by rewrite Hid. }
    intros c. destruct c; cbn [cond_holds]; unfold input_value; by rewrite ?Hw. }
  split; intros Hx; (eapply Exists_impl; [exact Hx|]); intros c Hc; cbn beta in *; congruence.
Qed.

(** On the values that the choices have, the constraint of an input is the constraint. *)
Lemma would_hold_own c id inst ch env :
  restrict_fragile c = true → c_inputs c !! id = Some inst → get_choice ir (ci_choice inst) = Some ch →
  length (ci_vars inst) = arguments_len (arguments ch) →
  would_hold ir I c id inst ch env (own_value env (ci_choice inst) ch) ↔
  ∀ env2, (∀ k x, ci_vars inst !! k = Some x → env2 x = env (Arg k)) →
    env_domain I env2 (constraint_env (c_vars c)) → constraint_holds ir I env2 c.
Proof using.
  intros Hr Hid Hg Hl. unfold would_hold, constraint_holds. rewrite Hr.
  split; intros H env2 Hx Hd; specialize (H env2 Hx Hd);
    rewrite (some_holds_own _ _ inst) in * by (try done; by apply own_value_instance); [by destruct H as [H|[? _]]|by left].
Qed.

(** Symmetric choices: swapping the arguments. *)
Section symmetric.
Context (name : string) (ch : Choice) (names : string * string) (s : GSet) (inverse : bool).
Context (Hg : get_choice ir name = Some ch) (Ha : arguments ch = Symmetric names s inverse).

Lemma args_in_sets_swap env : set_vars s = [] → args_in_sets I env ch → args_in_sets I (swap_env env) ch.
Proof using Ha.
  intros Hs H k given Hk. unfold args_in_sets in H. rewrite Ha in H, Hk. cbn in H, Hk.
  assert (∀ o, in_set I (swap_env env) s o ↔ in_set I env s o) as Hin.
  { intros o. apply in_set_agree. rewrite Hs. by intros x ?%elem_of_nil. }
  destruct k as [|[|k]]; cbn in Hk; [| |done]; injection Hk as <-; apply Hin.
  - by apply (H 1).
  - by apply (H 0).
Qed.

Lemma own_value_swap env :
  (if inverse then type_inverse ir (choice_value_type ch) (own_value env name ch) else own_value env name ch)
  = own_value (swap_env env) name ch.
Proof using Hch HI Hg Ha.
  unfold own_value. rewrite Ha. cbn [arguments_len seq fmap list_fmap].
  assert (swap_env env (Arg 0) = env (Arg 1)) as -> by (unfold swap_env; by rewrite swap_arguments_variable).
  assert (swap_env env (Arg 1) = env (Arg 0)) as -> by (unfold swap_env; by rewrite swap_arguments_variable).
  rewrite (value_symmetric _ _ HI name ch names s inverse (env (Arg 0)) (env (Arg 1)) Hg Ha).
  unfold inverse_when. destruct inverse; [|done].
  destruct (Hch _ _ Hg) as [_ _ Hi _]. destruct (Hi names s Ha) as [n Hn].
  unfold choice_inverse, choice_enum, choice_value_type. rewrite Hg. cbn. rewrite Hn. cbn.
  destruct (choice_def ch); cbn in Hn; [|done..]. injection Hn as ->. cbn.
  by destruct (i_val I name _), (get_enum ir n).
Qed.

Lemma inverse_type : inverse = true → ∃ n e, choice_value_type ch = TyEnum n ∧ get_enum ir n = Some e.
Proof using Hch Hg Ha.
  intros ->. destruct (Hch _ _ Hg) as [_ He Hi _]. destruct (Hi names s Ha) as [n Hn].
  destruct (He n Hn) as [e Hne]. exists n, e. split; [|done]. unfold choice_value_type.
  destruct (choice_def ch); cbn in Hn; [|done..]. by injection Hn as ->.
Qed.
End symmetric.

(** The filters of an input allow the values that the choice has exactly when the
    constraint holds for the input. *)
Lemma input_filters_exact c id inst ch :
  closed c → Forall (instance_ok ir) (c_inputs c) → well_scoped c → restrict_fragile c = true →
  c_inputs c !! id = Some inst → input_ok ir U c id inst ch →
  ∃ l, input_filters ir c (id, inst) = Some l ∧ (∀ x, x ∈ l → x.1 = ci_choice inst ∧ ff_ok ir (choice_value_type ch) x.2) ∧
    ((∀ env, args_in_sets I env ch → would_hold ir I c id inst ch env (own_value env (ci_choice inst) ch)) ↔
     ∀ f env, (ci_choice inst, f) ∈ l → args_in_sets I env ch →
       ff_allows ir I env (own_value env (ci_choice inst) ch) f).
Proof using Hir Hch HI HU.
  intros Hcl Hin Hsc Hr Hid Hok. pose proof (env_choice _ _ _ _ _ (input_ok_env _ _ _ _ _ _ Hok)) as Hg.
  destruct (gen_flat_filter_exact c id inst ch Hcl Hin Hok) as (o & E & Ho).
  unfold input_filters. rewrite E. cbn [mbind option_bind]. destruct o as [f|]; cycle 1.
  { exists []. split; [done|]. split; [by intros x ?%elem_of_nil|]. split; [by intros _ f env ?%elem_of_nil|].
    intros _ env Ha. by apply Ho, own_value_ok. }
  destruct Ho as [Hf Hx]. rewrite Hg. cbn [mbind option_bind].
  assert (∀ env, args_in_sets I env ch → ff_allows ir I env (own_value env (ci_choice inst) ch) f ↔
    would_hold ir I c id inst ch env (own_value env (ci_choice inst) ch)) as Hfw
    by (intros env Ha; by apply Hx, own_value_ok).
  destruct (arguments ch) as [l|names s inverse] eqn:Ea.
  - eexists. split; [done|]. split; [by intros x ->%list_elem_of_singleton|]. split.
    + intros H f' env Hf'%list_elem_of_singleton Ha. injection Hf' as ->. by apply Hfw, H.
    + intros H env Ha. apply Hfw; [done|]. apply H; [by apply list_elem_of_singleton|done].
  - destruct (flat_filter_inverse_exact ir Hir Hch _ inverse f (inverse_type _ ch names s inverse Hg Ea) Hf)
      as (f' & -> & Hf' & _ & _ & Hinv). cbn [mbind option_bind].
    eexists. split; [done|]. split; [by intros x [->| ->%list_elem_of_singleton]%elem_of_cons|]. split.
    + intros H g env Hgl Ha. apply elem_of_cons in Hgl as [[= ->]|Hgl].
      * rewrite (Hinv Obj I env _ HI (own_value_ok env _ ch Hg)), (own_value_swap _ ch names s inverse Hg Ea env).
        apply Hfw, H; by apply (args_in_sets_swap ch names s inverse Ea env (scoped_symmetric _ Hsc id inst ch names s inverse Hid Hg Ea)).
      * apply list_elem_of_singleton in Hgl. injection Hgl as ->. by apply Hfw, H.
    + intros H env Ha. apply Hfw; [done|]. apply H; [|done]. apply elem_of_cons. right. by apply list_elem_of_singleton.
Qed.

Lemma arg_env_instance env inst k x : ci_vars inst !! k = Some x → env x = arg_env env inst (Arg k).
Proof using. intros H. cbn. by rewrite H. Qed.

(** The constraint holds for all objects exactly when it would hold, for each input, with
    the value that its choice has. *)
Lemma constraint_holds_inputs c :
  Forall (instance_ok ir) (c_inputs c) → well_scoped c → restrict_fragile c = true → c_inputs c ≠ [] →
  (∀ env, env_domain I env (constraint_env (c_vars c)) → constraint_holds ir I env c) ↔
  ∀ id inst ch, c_inputs c !! id = Some inst → get_choice ir (ci_choice inst) = Some ch →
    ∀ env, args_in_sets I env ch → would_hold ir I c id inst ch env (own_value env (ci_choice inst) ch).
Proof using.
  intros Hin Hsc Hr Hne. split.
  - intros H id inst ch Hid Hg env _. destruct (Forall_lookup_1 _ _ _ _ Hin Hid) as (ch' & Hg' & Hl).
    assert (ch' = ch) as -> by congruence.
    apply (would_hold_own c id inst ch env Hr Hid Hg Hl). intros env2 _. apply H.
  - intros H env Hd. destruct (c_inputs c) as [|inst inputs] eqn:Ec; [done|].
    assert (c_inputs c !! 0 = Some inst) as Hid by by rewrite Ec.
    rewrite <-Ec in Hin. destruct (Forall_lookup_1 _ _ _ _ Hin Hid) as (ch & Hg & Hl).
    specialize (H 0 inst ch eq_refl Hg (arg_env env inst) (scoped_args _ Hsc 0 inst ch env Hid Hg Hd)).
    pose proof (proj1 (would_hold_own c 0 inst ch (arg_env env inst) Hr Hid Hg Hl) H) as Hh.
    apply Hh; [|done]. apply arg_env_instance.
Qed.

Lemma gen_filters_exact c :
  closed c → Forall (instance_ok ir) (c_inputs c) → well_scoped c → restrict_fragile c = true → c_inputs c ≠ [] →
  ∃ l, gen_filters ir c = Some l ∧
    (∀ name f, (name, f) ∈ l → ∃ ch, get_choice ir name = Some ch ∧ ff_ok ir (choice_value_type ch) f) ∧
    ((∀ env, env_domain I env (constraint_env (c_vars c)) → constraint_holds ir I env c) ↔
     ∀ name f ch env, (name, f) ∈ l → get_choice ir name = Some ch → args_in_sets I env ch →
       ff_allows ir I env (own_value env name ch) f).
Proof using Hir Hch HI HU.
  intros Hcl Hin Hsc Hr Hne. pose proof (constraint_holds_inputs c Hin Hsc Hr Hne) as Hci.
  assert (∀ id inst, c_inputs c !! id = Some inst → ∃ ch l, get_choice ir (ci_choice inst) = Some ch ∧
    input_filters ir c (id, inst) = Some l ∧ (∀ x, x ∈ l → x.1 = ci_choice inst ∧ ff_ok ir (choice_value_type ch) x.2) ∧
    ((∀ env, args_in_sets I env ch → would_hold ir I c id inst ch env (own_value env (ci_choice inst) ch)) ↔
     ∀ f env, (ci_choice inst, f) ∈ l → args_in_sets I env ch →
       ff_allows ir I env (own_value env (ci_choice inst) ch) f)) as Hx.
  { intros id inst Hid. destruct (scoped_inputs _ Hsc id inst Hid) as [ch Hok].
    destruct (input_filters_exact c id inst ch Hcl Hin Hsc Hr Hid Hok) as (l & E & Hn & Hiff).
    exists ch, l. split; [exact (env_choice _ _ _ _ _ (input_ok_env _ _ _ _ _ _ Hok))|]. done. }
  unfold gen_filters.
  destruct (mapM (input_filters ir c) (enumerate (c_inputs c))) as [ls|] eqn:E; cycle 1.
  { exfalso. apply eq_None_not_Some in E. apply E, mapM_is_Some, Forall_forall.
    intros [id inst] [k Hk]%list_elem_of_lookup. rewrite lookup_enumerate in Hk.
    destruct (c_inputs c !! k) as [i|] eqn:Ek; [|done]. cbn in Hk. injection Hk as -> ->.
    destruct (Hx _ _ Ek) as (ch & l & _ & El & _). by exists l. }
  exists (concat ls). split; [done|]. apply mapM_Some in E.
  assert (∀ id inst l, c_inputs c !! id = Some inst → input_filters ir c (id, inst) = Some l →
    ∀ x, x ∈ l → x ∈ concat ls) as Hsub.
  { intros id inst l Hid Hl x Hxl. apply list_elem_of_In, in_concat. exists l.
    rewrite <-!list_elem_of_In. split; [|done].
    destruct (Forall2_lookup_l _ _ _ id (id, inst) E) as (l' & Hl' & El'); [by rewrite lookup_enumerate, Hid|].
    rewrite Hl in El'. injection El' as ->. by eapply list_elem_of_lookup_2. }
  assert (∀ x, x ∈ concat ls → ∃ id inst l, c_inputs c !! id = Some inst ∧
    input_filters ir c (id, inst) = Some l ∧ x ∈ l) as Hback.
  { intros x (l & Hl & Hxl)%list_elem_of_In%in_concat. rewrite <-!list_elem_of_In in *.
    apply list_elem_of_lookup in Hl as [k Hk].
    destruct (Forall2_lookup_r _ _ _ k l E Hk) as ([id inst] & Hid & El). rewrite lookup_enumerate in Hid.
    destruct (c_inputs c !! k) as [i|] eqn:Ek; [|done]. cbn in Hid. injection Hid as -> ->. by exists id, inst, l. }
  split.
  { intros name f (id & inst & l & Hid & El & Hfl)%Hback.
    destruct (Hx _ _ Hid) as (ch & l' & Hg & El' & Hn & _). rewrite El in El'. injection El' as <-.
    destruct (Hn _ Hfl) as [En Hok]. cbn in En, Hok. subst name. by exists ch. }
  rewrite Hci. split.
  - intros H name f ch env (id & inst & l & Hid & El & Hfl)%Hback Hg Ha.
    destruct (Hx _ _ Hid) as (ch' & l' & Hg' & El' & Hn & Hiff). rewrite El in El'. injection El' as <-.
    destruct (Hn _ Hfl) as [En _]. cbn in En. subst name. assert (ch' = ch) as -> by congruence.
    apply Hiff; [|done|done]. by apply (H _ _ ch Hid).
  - intros H id inst ch Hid Hg. destruct (Hx _ _ Hid) as (ch' & l & Hg' & El & _ & Hiff).
    assert (ch' = ch) as -> by congruence. apply Hiff. intros f env Hf Ha.
    apply (H (ci_choice inst) f ch env); [|done|done]. by apply (Hsub id inst l).
Qed.
End gen.
