(* ===== verification/Registering.v ===== *)
(** * Registering filters (the first half of telamon-gen/src/ir/mod.rs, and the end of
    [process] in telamon-gen/src/lib.rs)

    A filter is stored in the choice it restricts, and calls to it are registered
    wherever its result may change: in each choice it reads, in each set it quantifies
    over and in the initialisation of its own choice. *)
From S2P Require Import Prelude Utils MultiMap Permutations Orders GenSets Filters FilterSemantics TruthTable Adapting Instances Environments FlatFilters Constraints ConstraintFilters.

(** [self.choices.get_mut(name).unwrap()] followed by a write. *)
Definition update_choice (name : string) (f : Choice → Choice) (ir : IrDesc) : option IrDesc :=
  _ ← get_choice ir name;
  Some (mkIrDesc (im_update name f (choices ir)) (enums ir) (set_defs ir) (Filters.triggers ir)).

(** [IrDesc::add_onchange]. *)
Definition add_onchange (choice : string) (action : OnChangeAction) (ir : IrDesc) : option IrDesc :=
  inverse ←
    (if applies_to_symmetric (oc_action action) then
       ch ← get_choice ir choice;
       if is_symmetric (arguments ch) then Some <$> on_change_action_inverse ir action else Some None
     else Some None);
  ir ← update_choice choice (choice_add_onchange action) ir;
  match inverse with
  | Some action => update_choice choice (choice_add_onchange action) ir
  | None => Some ir
  end.

(** [IrDesc::gen_filter_call_action]. *)
Definition gen_filter_call_action (ir : IrDesc) (filtered : string) (id : nat) (changed : ChoiceInstance)
    (env : gmap Var GSet) (num_foralls : nat) : option OnChangeAction :=
  '(choice_foralls, filter_foralls, set_constraints, a) ← adapt_env_ext ir env changed;
  ch ← get_choice ir filtered;
  let num_args := arguments_len (arguments ch) in
  let args := adaptator_variable a <$> ((Arg <$> seq 0 num_args) ++ (ForallVar <$> seq 0 num_foralls)) in
  let filter_ref := FrFunction filtered id args in
  let filtered_args := (λ i, adaptator_variable a (Arg i)) <$> seq 0 num_args in
  let remote_filter :=
    mkRemoteFilterCall (mkChoiceInstance filtered filtered_args) (mkFilterCall filter_foralls filter_ref) in
  Some (mkOnChangeAction choice_foralls set_constraints (RemoteFilter remote_filter)).

(** The variables of a filter: the arguments of its choice and what it quantifies over,
    in the sets it constrains them to. *)
Definition filter_env (args foralls : list GSet) (set_constraints : SetConstraints) : gmap Var GSet :=
  list_to_map ((λ '(v, s), (v, default s (find_set v set_constraints))) <$>
    (((λ '(i, s), (Arg i, s)) <$> enumerate args) ++ ((λ '(i, s), (ForallVar i, s)) <$> enumerate foralls))).

(** [IrDesc::register_filter_call]. *)
Definition register_filter_call (filtered : string) (filter_id : nat) (changed : ChoiceInstance)
    (foralls : list GSet) (set_constraints : SetConstraints) (ir : IrDesc) : option IrDesc :=
  ch ← get_choice ir filtered;
  let env := filter_env (arguments_sets (arguments ch)) foralls set_constraints in
  changed_choice ← get_choice ir (ci_choice changed);
  ir ←
    (if is_symmetric (arguments changed_choice) then
       v1 ← ci_vars changed !! 1;
       v0 ← ci_vars changed !! 0;
       let changed := mkChoiceInstance (ci_choice changed) [v1; v0] in
       action ← gen_filter_call_action ir filtered filter_id changed env (length foralls);
       add_onchange (ci_choice changed) action ir
     else Some ir);
  action ← gen_filter_call_action ir filtered filter_id changed env (length foralls);
  add_onchange (ci_choice changed) action ir.

(** ** New objects *)

(** The loop that renames the variables that are neither the object nor its parameter. *)
Fixpoint number_foralls (forall_index : nat) (vars : list (Var * GSet)) (a : Adaptator)
  : list GSet * Adaptator :=
  match vars with
  | [] => ([], a)
  | (old_id, set) :: vars =>
    let a := (set_variable old_id (ForallVar forall_index) a).2 in
    let '(sets, a') := number_foralls (S forall_index) vars a in
    (set_adapt a set :: sets, a')
  end.

(** [adapt_to_var_context]. *)
Definition adapt_to_var_context (args foralls : list GSet) (var : Var) (reverse : bool)
  : option (list GSet * Adaptator) :=
  let a := (set_variable var (Arg (if reverse then 1 else 0)) adaptator_default).2 in
  set ← match var with Arg i => args !! i | ForallVar i => foralls !! i end;
  let arg_var := set_arg set in
  a ← match arg_var with
      | Some arg => Some (set_variable arg (Arg (if reverse then 0 else 1)) a).2
      | None => rassert (negb reverse);; Some a
      end;
  let vars := ((λ '(i, s), (Arg i, s)) <$> enumerate args) ++ ((λ '(i, s), (ForallVar i, s)) <$> enumerate foralls) in
  Some (number_foralls 0 (filter (λ x, x.1 ≠ var ∧ Some x.1 ≠ arg_var) vars) a).

(** The arguments of the choice in the sets that the filter constrains them to. *)
Fixpoint constrain_arguments (constraints : SetConstraints) (choice_args : list GSet) : option (list GSet) :=
  match constraints with
  | [] => Some choice_args
  | (Arg i, s) :: constraints =>
    _ ← choice_args !! i;
    constrain_arguments constraints (<[i := s]> choice_args)
  | (ForallVar _, _) :: _ => panic
  end.

(** The set that new objects are added to, and the set of its parameter: a reverse set is
    turned back into the set it comes from. *)
Definition object_set (live : string → option SetDef) (choice_args foralls : list GSet) (i : nat) (set : GSet)
  : option (GSet * option GSet * bool) :=
  if bool_decide (def_name (set_def set) = "") then
    arg ← def_arg (set_def set);
    let! reversed := set_reverse live set (ForallVar i) arg in
    '(rev_arg_set, rev_set) ← reversed;
    Some (rev_set, Some rev_arg_set, true)
  else
    match set_arg set with
    | None => Some (set, None, false)
    | Some (ForallVar id) => s ← foralls !! id; Some (set, Some s, false)
    | Some (Arg id) => s ← choice_args !! id; Some (set, Some s, false)
    end.

(** The constraint on the parameter of the new object. *)
Definition parameter_constraint (a : Adaptator) (set : GSet) (arg_set : option GSet) : option SetConstraints :=
  match arg_set with
  | None => Some []
  | Some arg_set =>
    arg ← def_arg (set_def set);
    let! b := is_subset_of arg arg_set in
    Some (if (b : bool) then [] else set_constraints_new [(Arg 1, set_adapt a arg_set)])
  end.

(** [set_defs.get_mut(name).unwrap().1.filter.push(call)]. *)
Definition add_new_object_filter (name : string) (call : list GSet * SetConstraints * RemoteFilterCall)
    (ir : IrDesc) : option IrDesc :=
  _ ← im_get name (set_defs ir);
  Some (mkIrDesc (choices ir) (enums ir)
    (im_update name (λ x, (x.1, mkOnNewObject (ono_filter x.2 ++ [call]))) (set_defs ir)) (Filters.triggers ir)).

Definition register_new_object (filter : FilterRef) (choice : Choice) (choice_args foralls : list GSet)
    (ir : IrDesc) (x : nat * GSet) : option IrDesc :=
  let '(i, set) := x in
  '(set, arg_set, reverse) ← object_set (get_set_def ir) choice_args foralls i set;
  '(new_foralls, a) ← adapt_to_var_context choice_args foralls (ForallVar i) reverse;
  set_constraints ← parameter_constraint a set arg_set;
  filter_ref ← filter_ref_adapt a filter;
  let remote_call :=
    mkRemoteFilterCall (choice_instance_adapt a (self_choice choice)) (mkFilterCall [] filter_ref) in
  add_new_object_filter (def_name (set_def set)) (new_foralls, set_constraints, remote_call) ir.

(** [IrDesc::register_filter_on_new_objs]. *)
Definition register_filter_on_new_objs (filter : FilterRef) (choice : string) (foralls : list GSet)
    (set_constraints : SetConstraints) (ir : IrDesc) : option IrDesc :=
  ch ← get_choice ir choice;
  choice_args ← constrain_arguments set_constraints (arguments_sets (arguments ch));
  foldM (register_new_object filter ch choice_args foralls) (enumerate foralls) ir.

(** ** Filters *)

(** [IrDesc::add_filter]. *)
Definition add_filter (choice : string) (filter : Filter) (forall_vars : list GSet)
    (set_constraints : SetConstraints) (ir : IrDesc) : option IrDesc :=
  '(filter_ref, ir) ←
    match filter_inputs filter with
    | [] =>
      match filter_rules filter with
      | Rules rules => Some (FrInline rules, ir)
      | Switch _ _ => panic
      end
    | inputs =>
      ch ← get_choice ir choice;
      let filter_id := (choice_add_filter filter ch).1 in
      ir ← update_choice choice (λ ch, (choice_add_filter filter ch).2) ir;
      ir ← foldM (λ ir input, register_filter_call choice filter_id input forall_vars set_constraints ir) inputs ir;
      ch ← get_choice ir choice;
      let args := (Arg <$> seq 0 (arguments_len (arguments ch))) ++ (ForallVar <$> seq 0 (length forall_vars)) in
      Some (FrFunction choice filter_id args, ir)
    end;
  ir ← register_filter_on_new_objs filter_ref choice forall_vars set_constraints ir;
  update_choice choice
    (choice_add_filter_action (mkFilterAction set_constraints (mkFilterCall forall_vars filter_ref))) ir.

(** ** From constraints to filters: the end of [process] *)

(** The sets of the variables of a filter, in the order of its arguments. *)
Definition filter_sets (args vars : list GSet) (set_constraints : SetConstraints) : list GSet :=
  ((λ '(id, s), default s (find_set (Arg id) set_constraints)) <$> enumerate args) ++ vars.

(** One merged flat filter is compiled and added to the choice. *)
Definition compile_filter (choice : string) (ir : IrDesc) (f : FlatFilter) : option IrDesc :=
  let '(vars, inputs, rules, set_constraints) := deconstruct f in
  rules ← opt_rules ir inputs rules;
  ch ← get_choice ir choice;
  let args := filter_sets (arguments_sets (arguments ch)) vars set_constraints in
  add_filter choice (mkFilter args inputs rules) vars set_constraints ir.

Definition constraint_filters (ir : IrDesc) (c : Constraint) : option (list (string * FlatFilter)) :=
  c ← constraint_dedup_inputs ir c;
  gen_filters ir c.

(** The flat filters of all constraints, by choice. *)
Definition collect_filters (ir : IrDesc) (constraints : list Constraint)
  : option (MultiHashMap (K := string) (V := FlatFilter)) :=
  foldM (λ filters c,
    new ← constraint_filters ir c;
    Some (foldl (λ filters '(choice, f), mm_insert choice f filters) filters new)) constraints mm_default.

Definition compile_choice (ir : IrDesc) (x : string * list FlatFilter) : option IrDesc :=
  let '(choice, filters) := x in
  merged ← merge_filters ir filters;
  foldM (compile_filter choice) merged ir.

Definition process_filters (ir : IrDesc) (constraints : list Constraint) : option IrDesc :=
  filters ← collect_filters ir constraints;
  foldM compile_choice (mm_into_iter filters) ir.

(** * Theorems *)

(** ** Calls *)

(** An action of a choice, when the choice changes on some objects, calls a filter of
    another choice with the given objects as arguments. *)
Definition action_calls {Obj : Type} (I : Interp Obj) (act : OnChangeAction) (objs : list Obj)
    (name : string) (id : nat) (args : list Obj) : Prop :=
  match oc_action act with
  | RemoteFilter call =>
    match fc_filter_ref (rc_filter call) with
    | FrFunction name' id' vars =>
      name' = name ∧ id' = id ∧
      ∃ env : Var → Obj, (∀ k o, objs !! k = Some o → env (Arg k) = o) ∧
        bound_domain I env (oc_forall_vars act ++ fc_forall_vars (rc_filter call)) (oc_set_constraints act) ∧
        args = env <$> vars ∧ env <$> ci_vars (rc_choice call) = take (length (ci_vars (rc_choice call))) args
    | FrInline _ => False
    end
  | _ => False
  end.

(** The variables of a filter. *)
Definition filter_vars (num_args num_foralls : nat) : list Var :=
  (Arg <$> seq 0 num_args) ++ (ForallVar <$> seq 0 num_foralls).

(** The sets only mention variables of the environment. *)
Definition closed_env (vars : gmap Var GSet) : Prop :=
  ∀ v s x, vars !! v = Some s → x ∈ set_vars s → is_Some (vars !! x).

Section calls.
Context {Obj : Type} (U : SetDef → Prop) (I : Interp Obj).

Lemma env_domain_pull ir vars a0 inst ch env env' :
  closed_env vars → env_ok ir U vars inst ch → adapts_env a0 vars inst → env_domain I env vars →
  (∀ v, is_Some (vars !! v) → env v = env' (adaptator_variable a0 v)) →
  env_domain I (λ v, env' (adaptator_variable a0 v)) vars ∧ guaranteed I env' a0 vars inst ch.
Proof.
  intros Hcl Hok Had Hd Henv.
  assert (∀ v s, vars !! v = Some s →
    in_set I (λ v, env' (adaptator_variable a0 v)) s (env' (adaptator_variable a0 v))) as H.
  { intros v s Hv. rewrite <-(Henv v) by by eexists.
    apply (in_set_agree I env); [|by apply Hd]. intros x Hx. apply Henv, (Hcl v s x Hv Hx). }
  split; [done|]. intros k v s given Hk Hs _ _. rewrite <-(adapts_arg _ _ _ Had k v Hk).
  apply (in_set_adapt I a0 (λ v, env' (adaptator_variable a0 v)) env'); [done|]. by apply H.
Qed.

Lemma gen_filter_call_action_exact ir filtered ch id inst ch' vars n :
  reversible_sets (get_set_def ir) U I → get_choice ir filtered = Some ch → env_ok ir U vars inst ch' →
  closed_env vars → (∀ v, v ∈ filter_vars (arguments_len (arguments ch)) n → is_Some (vars !! v)) →
  ∃ act, gen_filter_call_action ir filtered id inst vars n = Some act ∧
    applies_to_symmetric (oc_action act) = false ∧
    ∀ env, env_domain I env vars →
      action_calls I act (env <$> ci_vars inst) filtered id (env <$> filter_vars (arguments_len (arguments ch)) n).
Proof.
  intros HU Hg Hok Hcl Hb.
  destruct (adapt_env_ext_exact ir U I vars inst ch' HU Hok) as (afs & os & sc & a & E & Had & _ & _ & _ & Hdom).
  unfold gen_filter_call_action. rewrite E. cbn [mbind option_bind]. rewrite Hg. cbn [mbind option_bind].
  eexists. split; [done|]. split; [done|]. intros env Hd. unfold action_calls.
  cbn [oc_action fc_filter_ref rc_filter oc_forall_vars oc_set_constraints fc_forall_vars rc_choice ci_vars].
  split; [done|]. split; [done|].
  destruct (adapts_env_inverse a vars inst (arg_env env inst) env Had (env_nodup _ _ _ _ _ Hok) (arg_env_instance env inst))
    as (env' & Hs & Hx).
  destruct (env_domain_pull ir vars a inst ch' env env' Hcl Hok Had Hd Hx) as [Hd' Hgu].
  exists env'. split_and!.
  - intros k o Hk. rewrite list_lookup_fmap in Hk. destruct (ci_vars inst !! k) as [x|] eqn:Ek; [|done].
    injection Hk as <-. rewrite <-Hs. cbn. by rewrite Ek.
  - by apply Hdom.
  - rewrite <-list_fmap_compose. apply list_fmap_ext. intros j x Hj. apply Hx, Hb. by eapply list_elem_of_lookup_2.
  - rewrite !length_fmap, length_seq. unfold filter_vars. rewrite fmap_app, take_app_length' by by rewrite !length_fmap, length_seq.
    rewrite <-!list_fmap_compose. apply list_fmap_ext. intros j x Hj. cbn. symmetry. apply Hx, Hb.
    apply elem_of_app. left. apply list_elem_of_fmap. exists x. split; [done|]. by eapply list_elem_of_lookup_2.
Qed.
End calls.

(** ** What registration changes *)

(** Choices only gain actions and filters. *)
Record choice_grows (c c' : Choice) : Prop := {
  grows_name : choice_name c' = choice_name c;
  grows_arguments : arguments c' = arguments c;
  grows_def : choice_def c' = choice_def c;
  grows_on_change : on_change c `prefix_of` on_change c';
  grows_filters : filters c `prefix_of` filters c'
}.

#[export] Instance choice_grows_preorder : PreOrder choice_grows.
Proof.
  split; [by intros c; constructor|].
  intros c1 c2 c3 [H1 H2 H3 H4 H5] [H6 H7 H8 H9 H10]. constructor; try congruence; by etrans.
Qed.

Record desc_grows (ir ir' : IrDesc) : Prop := {
  grows_enums : enums ir' = enums ir;
  grows_sets name : get_set_def ir' name = get_set_def ir name;
  grows_new_objects name d o : im_get name (set_defs ir) = Some (d, o) →
    ∃ o', im_get name (set_defs ir') = Some (d, o') ∧ ono_filter o `prefix_of` ono_filter o';
  grows_choices name ch : get_choice ir name = Some ch →
    ∃ ch', get_choice ir' name = Some ch' ∧ choice_grows ch ch';
  grows_no_choice name : get_choice ir name = None → get_choice ir' name = None
}.

#[export] Instance desc_grows_preorder : PreOrder desc_grows.
Proof.
  split; [intros ir; constructor; [done|done| | |done]; by eexists|].
  intros ir1 ir2 ir3 [H1 H2 Hn1 H3 H7] [H4 H5 Hn2 H6 H8]. constructor; [congruence|congruence| | |auto].
  - intros name d o Ho. destruct (Hn1 name d o Ho) as (o2 & Ho2 & Hp2), (Hn2 name d o2 Ho2) as (o3 & Ho3 & Hp3).
    exists o3. split; [done|]. by etrans.
  - intros name ch Hg. destruct (H3 name ch Hg) as (ch2 & Hg2 & Hc2), (H6 name ch2 Hg2) as (ch3 & Hg3 & Hc3).
    exists ch3. split; [done|]. by etrans.
Qed.

Lemma update_choice_get name f ir ir' :
  update_choice name f ir = Some ir' →
  ∀ n, get_choice ir' n = if decide (n = name) then f <$> get_choice ir n else get_choice ir n.
Proof.
  unfold update_choice. destruct (get_choice ir name) as [c|] eqn:E; [|done]. cbn. intros [= <-] n.
  unfold get_choice. cbn [choices]. apply im_get_update.
Qed.

Lemma update_choice_grows name f ir ch :
  get_choice ir name = Some ch → (∀ c, choice_grows c (f c)) →
  ∃ ir', update_choice name f ir = Some ir' ∧ desc_grows ir ir' ∧ get_choice ir' name = Some (f ch).
Proof.
  intros Hg Hf. assert (∃ ir', update_choice name f ir = Some ir') as [ir' E]
    by (unfold update_choice; rewrite Hg; by eexists).
  exists ir'. split; [done|]. pose proof (update_choice_get name f ir ir' E) as Hget.
  split; [|by rewrite Hget, decide_True, Hg]. unfold update_choice in E. rewrite Hg in E. injection E as <-.
  constructor; [done|done|by eexists| |].
  - intros n c Hc. rewrite Hget. case_decide as En; [|by exists c].
    rewrite Hc. cbn. exists (f c). by split.
  - intros n Hn. rewrite Hget, Hn. by case_decide.
Qed.

Lemma add_onchange_grows_choice act c : choice_grows c (choice_add_onchange act c).
Proof. constructor; try done. by apply prefix_app_r. Qed.

Lemma add_filter_grows_choice f c : choice_grows c (choice_add_filter f c).2.
Proof. constructor; try done. by apply prefix_app_r. Qed.

Lemma add_filter_action_grows_choice act c : choice_grows c (choice_add_filter_action act c).
Proof. by constructor. Qed.

(** What registering calls leaves as it is. *)
Definition static (c : Choice) : ChoiceArguments * ChoiceDef * list FilterAction * list Filter * ValueSet :=
  (arguments c, choice_def c, filter_actions c, filters c, no_propagate_values c).

Definition same_static (ir ir' : IrDesc) : Prop := ∀ n, static <$> get_choice ir' n = static <$> get_choice ir n.

#[export] Instance same_static_preorder : PreOrder same_static.
Proof. split; [done|]. intros ir1 ir2 ir3 H1 H2 n. by rewrite H2, H1. Qed.

Lemma update_choice_static name f ir ir' :
  (∀ c, static (f c) = static c) → update_choice name f ir = Some ir' → same_static ir ir'.
Proof.
  intros Hf E n. rewrite (update_choice_get name f ir ir' E). case_decide; [|done].
  destruct (get_choice ir n); [|done]. cbn. by rewrite Hf.
Qed.

(** An action that is not registered for symmetric choices is only added as it is. *)
Lemma add_onchange_plain name act ir ch :
  get_choice ir name = Some ch → applies_to_symmetric (oc_action act) = false →
  ∃ ir', add_onchange name act ir = Some ir' ∧ desc_grows ir ir' ∧ same_static ir ir' ∧
    get_choice ir' name = Some (choice_add_onchange act ch).
Proof.
  intros Hg Hs. unfold add_onchange. rewrite Hs. cbn [mbind option_bind].
  destruct (update_choice_grows name (choice_add_onchange act) ir ch Hg (add_onchange_grows_choice act)) as (ir' & E & Hgr & Hg').
  pose proof (update_choice_static name (choice_add_onchange act) ir ir' ltac:(done) E) as Hst. rewrite E.
  cbn [mbind option_bind]. by exists ir'.
Qed.

(** ** Hypotheses carried over to a grown description *)
Section grown.
Context {Obj : Type} (U : SetDef → Prop) (I : Interp Obj) (ir ir' : IrDesc) (Hgr : desc_grows ir ir').

Lemma def_reverse_grows d : def_reverse (get_set_def ir') d = def_reverse (get_set_def ir) d.
Proof. unfold def_reverse. destruct (def_reverse_set d); try done; by rewrite (grows_sets _ _ Hgr). Qed.

Lemma invertible_grows s : invertible (get_set_def ir) s → invertible (get_set_def ir') s.
Proof. intros (r & Hr & H). exists r. by rewrite def_reverse_grows. Qed.

Lemma reversible_sets_grows : reversible_sets (get_set_def ir) U I → reversible_sets (get_set_def ir') U I.
Proof.
  intros [Hm Hc Hd Ha]. constructor; [done| | |].
  - intros d r. rewrite def_reverse_grows. apply Hc.
  - intros d r x y Hu. rewrite def_reverse_grows. by apply Hd.
  - intros d r s x y env Hu. rewrite def_reverse_grows. by apply Ha.
Qed.

Lemma env_ok_grows vars inst ch :
  env_ok ir U vars inst ch → ∃ ch', env_ok ir' U vars inst ch' ∧ choice_grows ch ch'.
Proof.
  intros [Hg Hl Hnd Hb Hs Hp]. destruct (grows_choices _ _ Hgr _ _ Hg) as (ch' & Hg' & Hc).
  exists ch'. split; [|done]. constructor; try done; [by rewrite (grows_arguments _ _ Hc)|].
  intros v s u Hv Hvs Hu. destruct (Hp v s u Hv Hvs Hu) as [H1 H2]. split; [done|].
  intros Hn. by apply invertible_grows, H2.
Qed.
End grown.

(** ** Registering the calls for an input *)
Section register.
Context {Obj : Type} (U : SetDef → Prop) (I : Interp Obj).

(** When the choice [name] changes on some objects, filter [id] of [filtered] is called. *)
Definition change_calls (ir : IrDesc) (name : string) (objs : list Obj) (filtered : string) (id : nat)
    (args : list Obj) : Prop :=
  ∃ ch act, get_choice ir name = Some ch ∧ act ∈ on_change ch ∧ action_calls I act objs filtered id args.

Lemma change_calls_grows ir ir' name objs filtered id args :
  desc_grows ir ir' → change_calls ir name objs filtered id args → change_calls ir' name objs filtered id args.
Proof.
  intros Hgr (ch & act & Hg & Ha & Hc). destruct (grows_choices _ _ Hgr _ _ Hg) as (ch' & Hg' & Hch).
  exists ch', act. split; [done|]. split; [|done]. destruct (grows_on_change _ _ Hch) as [l ->].
  apply elem_of_app. by left.
Qed.

(** The action of one instance of the changed choice. *)
Lemma register_action_exact ir filtered ch id inst ch' vars n :
  reversible_sets (get_set_def ir) U I → get_choice ir filtered = Some ch → env_ok ir U vars inst ch' →
  closed_env vars → (∀ v, v ∈ filter_vars (arguments_len (arguments ch)) n → is_Some (vars !! v)) →
  ∃ act ir', gen_filter_call_action ir filtered id inst vars n = Some act ∧
    add_onchange (ci_choice inst) act ir = Some ir' ∧ desc_grows ir ir' ∧ same_static ir ir' ∧
    ∀ env, env_domain I env vars →
      change_calls ir' (ci_choice inst) (env <$> ci_vars inst) filtered id
        (env <$> filter_vars (arguments_len (arguments ch)) n).
Proof.
  intros HU Hg Hok Hcl Hb.
  destruct (gen_filter_call_action_exact U I ir filtered ch id inst ch' vars n HU Hg Hok Hcl Hb) as (act & E & Hs & Hc).
  destruct (add_onchange_plain (ci_choice inst) act ir ch' (env_choice _ _ _ _ _ Hok) Hs) as (ir' & E' & Hgr & Hst & Hg').
  exists act, ir'. split_and!; try done. intros env Hd. exists (choice_add_onchange act ch'), act.
  split; [done|]. split; [|by apply Hc]. cbn. apply elem_of_app. right. by apply list_elem_of_singleton.
Qed.

(** The instance with its arguments swapped. *)
Definition swapped (inst : ChoiceInstance) : ChoiceInstance :=
  mkChoiceInstance (ci_choice inst) (reverse (ci_vars inst)).

(** A symmetric choice may be stored with its arguments in either order. *)
Definition changed_instances (ir : IrDesc) (inst : ChoiceInstance) : list ChoiceInstance :=
  match get_choice ir (ci_choice inst) with
  | Some ch => if is_symmetric (arguments ch) then [swapped inst; inst] else [inst]
  | None => []
  end.

Lemma register_filter_call_exact ir filtered ch id inst foralls sc :
  let vars := filter_env (arguments_sets (arguments ch)) foralls sc in
  reversible_sets (get_set_def ir) U I → get_choice ir filtered = Some ch → instance_ok ir inst →
  (∀ i, i ∈ changed_instances ir inst → ∃ ch', env_ok ir U vars i ch') →
  closed_env vars →
  (∀ v, v ∈ filter_vars (arguments_len (arguments ch)) (length foralls) → is_Some (vars !! v)) →
  ∃ ir', register_filter_call filtered id inst foralls sc ir = Some ir' ∧ desc_grows ir ir' ∧ same_static ir ir' ∧
    ∀ env i, env_domain I env vars → i ∈ changed_instances ir inst →
      change_calls ir' (ci_choice inst) (env <$> ci_vars i) filtered id
        (env <$> filter_vars (arguments_len (arguments ch)) (length foralls)).
Proof.
  cbn zeta. set (vars := filter_env _ _ _). intros HU Hg (chi & Hgi & Hl) Hok Hcl Hb.
  unfold changed_instances in *. rewrite Hgi in *. unfold register_filter_call. rewrite Hg. cbn [mbind option_bind].
  rewrite Hgi. cbn [mbind option_bind]. fold vars.
  destruct (is_symmetric (arguments chi)) eqn:Es; cycle 1.
  { destruct (Hok inst ltac:(left)) as [ch' Hok']. cbn [mbind option_bind].
    destruct (register_action_exact ir filtered ch id inst ch' vars (length foralls) HU Hg Hok' Hcl Hb)
      as (act & ir' & -> & E & Hgr & Hst & Hc). cbn [mbind option_bind]. exists ir'. split_and!; try done.
    intros env i Hd ->%list_elem_of_singleton. by apply Hc. }
  assert (∃ v0 v1, ci_vars inst = [v0; v1]) as (v0 & v1 & Ev).
  { destruct (arguments chi); [done|]. cbn in Hl. destruct (ci_vars inst) as [|v0 [|v1 [|]]]; try done. by exists v0, v1. }
  assert (swapped inst = mkChoiceInstance (ci_choice inst) [v1; v0]) as Esw by (unfold swapped; by rewrite Ev).
  destruct (Hok (swapped inst) ltac:(left)) as [chs Hoks]. rewrite Ev. cbn [mbind option_bind lookup list_lookup].
  rewrite <-Esw.
  destruct (register_action_exact ir filtered ch id (swapped inst) chs vars (length foralls) HU Hg Hoks Hcl Hb)
    as (act1 & ir1 & -> & E1 & Hgr1 & Hst1 & Hc1). cbn [mbind option_bind]. rewrite E1.
  cbn [mbind option_bind].
  destruct (grows_choices _ _ Hgr1 _ _ Hg) as (ch1 & Hg1 & Hch1).
  destruct (Hok inst ltac:(right; left)) as [ch0 Hok0].
  destruct (env_ok_grows U ir ir1 Hgr1 vars inst ch0 Hok0) as (ch0' & Hok0' & _).
  assert (arguments ch1 = arguments ch) as Ea by apply Hch1.
  destruct (register_action_exact ir1 filtered ch1 id inst ch0' vars (length foralls)
    (reversible_sets_grows U I ir ir1 Hgr1 HU) Hg1 Hok0' Hcl) as (act2 & ir2 & -> & E2 & Hgr2 & Hst2 & Hc2).
  { by rewrite Ea. }
  rewrite Ea in Hc2. cbn [mbind option_bind]. rewrite E2. exists ir2. split; [done|]. split; [by etrans|]. split; [by etrans|].
  intros env i Hd [->| ->%list_elem_of_singleton]%elem_of_cons; [|by apply Hc2].
  apply (change_calls_grows ir1 ir2); [done|]. by apply Hc1.
Qed.

Lemma changed_instances_grows ir ir' inst :
  desc_grows ir ir' → instance_ok ir inst → changed_instances ir' inst = changed_instances ir inst.
Proof.
  intros Hgr (ch & Hg & _). destruct (grows_choices _ _ Hgr _ _ Hg) as (ch' & Hg' & Hch).
  unfold changed_instances. by rewrite Hg, Hg', (grows_arguments _ _ Hch).
Qed.

Lemma instance_ok_grows ir ir' inst : desc_grows ir ir' → instance_ok ir inst → instance_ok ir' inst.
Proof.
  intros Hgr (ch & Hg & Hl). destruct (grows_choices _ _ Hgr _ _ Hg) as (ch' & Hg' & Hch).
  exists ch'. by rewrite (grows_arguments _ _ Hch).
Qed.

(** What is asked of an input for its calls to be registered. *)
Definition callable (ir : IrDesc) (vars : gmap Var GSet) (inst : ChoiceInstance) : Prop :=
  instance_ok ir inst ∧ ∀ i, i ∈ changed_instances ir inst → ∃ ch, env_ok ir U vars i ch.

Lemma callable_grows ir ir' vars inst : desc_grows ir ir' → callable ir vars inst → callable ir' vars inst.
Proof.
  intros Hgr [Hi Hc]. split; [by apply (instance_ok_grows ir)|].
  intros i. rewrite (changed_instances_grows ir ir' inst Hgr Hi). intros Hin.
  destruct (Hc i Hin) as [ch Hok]. destruct (env_ok_grows U ir ir' Hgr vars i ch Hok) as (ch' & Hok' & _).
  by exists ch'.
Qed.

Lemma register_inputs_exact ir filtered ch id inputs foralls sc :
  let vars := filter_env (arguments_sets (arguments ch)) foralls sc in
  reversible_sets (get_set_def ir) U I → get_choice ir filtered = Some ch → Forall (callable ir vars) inputs →
  closed_env vars →
  (∀ v, v ∈ filter_vars (arguments_len (arguments ch)) (length foralls) → is_Some (vars !! v)) →
  ∃ ir', foldM (λ ir input, register_filter_call filtered id input foralls sc ir) inputs ir = Some ir' ∧
    desc_grows ir ir' ∧ same_static ir ir' ∧
    ∀ env inst i, env_domain I env vars → inst ∈ inputs → i ∈ changed_instances ir inst →
      change_calls ir' (ci_choice inst) (env <$> ci_vars i) filtered id
        (env <$> filter_vars (arguments_len (arguments ch)) (length foralls)).
Proof.
  cbn zeta. intros HU Hg Hin Hcl Hb. revert ir ch HU Hg Hin Hcl Hb.
  induction inputs as [|inst inputs IH]; intros ir ch HU Hg Hin Hcl Hb.
  { exists ir. split; [done|]. split; [done|]. split; [done|]. by intros env inst i _ ?%elem_of_nil. }
  apply Forall_cons in Hin as [[Hi Hok] Hin].
  destruct (register_filter_call_exact ir filtered ch id inst foralls sc HU Hg Hi Hok Hcl Hb) as (ir1 & E1 & Hgr1 & Hst1 & Hc1).
  destruct (grows_choices _ _ Hgr1 _ _ Hg) as (ch1 & Hg1 & Hch1).
  assert (arguments ch1 = arguments ch) as Ea by apply Hch1.
  destruct (IH ir1 ch1 (reversible_sets_grows U I ir ir1 Hgr1 HU) Hg1) as (ir2 & E2 & Hgr2 & Hst2 & Hc2).
  { rewrite Ea. eapply Forall_impl; [exact Hin|]. intros c. by apply callable_grows. }
  { by rewrite Ea. }
  { by rewrite Ea. }
  rewrite Ea in Hc2. exists ir2. cbn [foldM]. rewrite E1. cbn [mbind option_bind]. split; [done|].
  split; [by etrans|]. split; [by etrans|]. intros env inst' i Hd [->|Hi']%elem_of_cons Hch.
  - apply (change_calls_grows ir1 ir2); [done|]. by apply Hc1.
  - apply Hc2; [done|done|]. rewrite Forall_forall in Hin. destruct (Hin _ Hi') as [Hio _].
    by rewrite (changed_instances_grows ir ir1).
Qed.
End register.

(** ** New objects *)

Lemma set_adapt_agree a a' s :
  (∀ x, x ∈ set_vars s → adaptator_variable a x = adaptator_variable a' x) → set_adapt a s = set_adapt a' s.
Proof.
  revert s. fix IH 1. intros [d rc v]. cbn. intros H. f_equal.
  - destruct rc as [r|]; [|done]. cbn. f_equal. apply IH. intros x Hx. apply H, elem_of_app. by right.
  - destruct v as [v|]; [|done]. cbn. f_equal. apply H. left.
Qed.

(** No set mentions a variable that comes after it. *)
Fixpoint defined_first (vars : list (Var * GSet)) : Prop :=
  match vars with
  | [] => True
  | (v, s) :: vars => (∀ x, x ∈ set_vars s → x ∉ vars.*1) ∧ defined_first vars
  end.

Lemma defined_first_filter (P : Var * GSet → Prop) `{∀ x, Decision (P x)} vars :
  defined_first vars → defined_first (filter P vars).
Proof.
  induction vars as [|[v s] vars IH]; [done|]. cbn [defined_first]. intros [Hs Hd]. rewrite filter_cons.
  case_decide; [|by apply IH]. cbn [defined_first]. split; [|by apply IH]. intros x Hx.
  intros (y & -> & Hy)%list_elem_of_fmap. apply (Hs _ Hx). apply list_elem_of_fmap. exists y.
  split; [done|]. by apply list_elem_of_filter in Hy as [_ Hy].
Qed.

Lemma number_foralls_spec k vars a :
  NoDup vars.*1 → defined_first vars →
  ∃ a', number_foralls k vars a = (set_adapt a' <$> vars.*2, a') ∧ ad_inputs a' = ad_inputs a ∧
    (∀ v, v ∉ vars.*1 → adaptator_variable a' v = adaptator_variable a v) ∧
    (∀ j v s, vars !! j = Some (v, s) → adaptator_variable a' v = ForallVar (k + j)).
Proof.
  revert k a. induction vars as [|[v s] vars IH]; intros k a Hnd Hdf.
  { exists a. by split_and!. }
  cbn [fmap list_fmap fst] in Hnd. apply NoDup_cons in Hnd as [Hv Hnd]. destruct Hdf as [Hs Hdf].
  cbn [number_foralls].
  destruct (IH (S k) (set_variable v (ForallVar k) a).2 Hnd Hdf) as (a' & -> & Hin & Hout & Hmap).
  exists a'. split_and!.
  - cbn. do 2 f_equal. apply set_adapt_agree. intros x Hx. by rewrite Hout by by apply Hs.
  - done.
  - intros u Hu. rewrite fmap_cons, not_elem_of_cons in Hu. cbn [fst] in Hu. destruct Hu as [Huv Hu].
    by rewrite Hout, adaptator_variable_set, decide_False by done.
  - intros [|j] u s' Hj; cbn in Hj.
    + injection Hj as <- <-. by rewrite Hout, adaptator_variable_set, decide_True, Nat.add_0_r by done.
    + rewrite <-Nat.add_succ_comm. by apply (Hmap j u s').
Qed.

(** The variables of a filter with their sets. *)
Definition var_list (args foralls : list GSet) : list (Var * GSet) :=
  ((λ '(i, s), (Arg i, s)) <$> enumerate args) ++ ((λ '(i, s), (ForallVar i, s)) <$> enumerate foralls).

Lemma elem_of_var_list args foralls v s :
  (v, s) ∈ var_list args foralls ↔
  match v with Arg i => args !! i = Some s | ForallVar i => foralls !! i = Some s end.
Proof.
  unfold var_list. rewrite elem_of_app, !list_elem_of_fmap.
  assert (∀ (l : list GSet) i t, (i, t) ∈ enumerate l ↔ l !! i = Some t) as He.
  { intros l i t. rewrite list_elem_of_lookup. split.
    - intros [k Hk]. rewrite lookup_enumerate in Hk. destruct (l !! k) eqn:E; [|done]. by injection Hk as -> ->.
    - intros Hl. exists i. by rewrite lookup_enumerate, Hl. }
  split.
  - intros [([i t] & [= -> ->] & Hi)|([i t] & [= -> ->] & Hi)]; by apply He.
  - destruct v as [i|i]; intros Hi; [left|right]; exists (i, s); (split; [done|]); by apply He.
Qed.

Lemma var_list_fst args foralls : (var_list args foralls).*1 = filter_vars (length args) (length foralls).
Proof.
  unfold var_list, filter_vars. rewrite fmap_app, <-!list_fmap_compose. f_equal.
  - rewrite (list_fmap_ext _ (Arg ∘ fst)) by by intros i [].
    rewrite list_fmap_compose. f_equal. unfold enumerate. rewrite fst_zip; [done|]. by rewrite length_seq.
  - rewrite (list_fmap_ext _ (ForallVar ∘ fst)) by by intros i [].
    rewrite list_fmap_compose. f_equal. unfold enumerate. rewrite fst_zip; [done|]. by rewrite length_seq.
Qed.

Lemma filter_vars_nodup m n : NoDup (filter_vars m n).
Proof.
  unfold filter_vars. apply NoDup_app. split; [|split].
  - apply NoDup_fmap_2; [by intros ? ? [=]|]. apply NoDup_seq.
  - intros x (i & -> & _)%list_elem_of_fmap (j & Hj & _)%list_elem_of_fmap. done.
  - apply NoDup_fmap_2; [by intros ? ? [=]|]. apply NoDup_seq.
Qed.

Lemma NoDup_fst_filter {A B : Type} (P : A * B → Prop) `{∀ x, Decision (P x)} (l : list (A * B)) :
  NoDup l.*1 → NoDup (filter P l).*1.
Proof.
  induction l as [|x l IH]; [done|]. cbn [fmap list_fmap]. rewrite NoDup_cons. intros [Hx Hl].
  rewrite filter_cons. case_decide; [|by apply IH]. cbn [fmap list_fmap]. apply NoDup_cons. split; [|by apply IH].
  intros (y & Ey & [_ Hy]%list_elem_of_filter)%list_elem_of_fmap. apply Hx, list_elem_of_fmap. by exists y.
Qed.

(** [adapt_to_var_context] for a set of the foralls: its object comes first, then the
    parameter, then the variables that are left, in order. *)
Definition left_vars (args foralls : list GSet) (i : nat) (set : GSet) : list (Var * GSet) :=
  filter (λ x, x.1 ≠ ForallVar i ∧ Some x.1 ≠ set_arg set) (var_list args foralls).

Lemma adapt_to_var_context_exact args foralls i set :
  foralls !! i = Some set → set_arg set ≠ Some (ForallVar i) → defined_first (var_list args foralls) →
  ∃ a, adapt_to_var_context args foralls (ForallVar i) false
      = Some (set_adapt a <$> (left_vars args foralls i set).*2, a) ∧ ad_inputs a = ∅ ∧
    adaptator_variable a (ForallVar i) = Arg 0 ∧
    (∀ p, set_arg set = Some p → adaptator_variable a p = Arg 1) ∧
    ∀ j v s, left_vars args foralls i set !! j = Some (v, s) → adaptator_variable a v = ForallVar j.
Proof.
  intros Hi Hne Hdf. unfold adapt_to_var_context. rewrite Hi. cbn [mbind option_bind].
  set (a0 := (set_variable (ForallVar i) (Arg 0) adaptator_default).2).
  set (a1 := match set_arg set with Some p => (set_variable p (Arg 1) a0).2 | None => a0 end).
  assert ((a ← match set_arg set with
      | Some arg => Some (set_variable arg (Arg 1) a0).2
      | None => rassert (negb false);; Some a0 end;
    Some (number_foralls 0 (left_vars args foralls i set) a)) = Some (number_foralls 0 (left_vars args foralls i set) a1))
    as E by (unfold a1; by destruct (set_arg set)).
  assert (NoDup (left_vars args foralls i set).*1) as Hnd.
  { apply NoDup_fst_filter. rewrite var_list_fst. apply filter_vars_nodup. }
  destruct (number_foralls_spec 0 (left_vars args foralls i set) a1 Hnd (defined_first_filter _ _ Hdf))
    as (a & Ea & Hin & Hout & Hmap).
  assert (∀ v, v = ForallVar i ∨ Some v = set_arg set → v ∉ (left_vars args foralls i set).*1) as Hleft.
  { intros v Hv ([u s] & -> & [[H1 H2] _]%list_elem_of_filter)%list_elem_of_fmap. cbn in *. tauto. }
  exists a. split_and!.
  - etrans; [exact E|]. by rewrite Ea.
  - rewrite Hin. unfold a1. by destruct (set_arg set).
  - rewrite Hout by (apply Hleft; by left). unfold a1, a0. destruct (set_arg set) as [p|].
    + rewrite adaptator_variable_set, decide_False by congruence. by rewrite adaptator_variable_set, decide_True.
    + by rewrite adaptator_variable_set, decide_True.
  - intros p Hp. rewrite Hout by (apply Hleft; right; by rewrite Hp). unfold a1. rewrite Hp.
    by rewrite adaptator_variable_set, decide_True.
  - intros j v s Hj. apply (Hmap j v s Hj).
Qed.

(** Renaming never fails as long as no input is inversed. *)
Lemma adaptator_input_none a i : ad_inputs a = ∅ → adaptator_input a i = (i, false).
Proof. intros H. unfold adaptator_input. by rewrite H. Qed.

Lemma rule_adapt_total a r : ad_inputs a = ∅ → is_Some (rule_adapt a r).
Proof.
  intros Ha. unfold rule_adapt.
  assert (is_Some (mapM (cond_adapt a) (conditions r))) as [conds ->].
  { apply mapM_is_Some, Forall_forall. intros c _. unfold compose.
    destruct c as [code neg|i values neg inv|b|lhs rhs op|lhs rhs op inv]; cbn [cond_adapt];
      rewrite ?(adaptator_input_none a) by done; by eexists. }
  cbn [mbind option_bind].
  assert (is_Some (vs_adapt a (alternatives r))) as [alts ->]; [|by eexists].
  destruct (alternatives r) as [n values ins|f ci cc u]; cbn [vs_adapt]; [by eexists|].
  assert (is_Some (mapM (adapt_cmp_input a) (elements ci))) as [l ->]; [|by eexists].
  apply mapM_is_Some, Forall_forall. intros [op i] _. unfold compose, adapt_cmp_input.
  rewrite (adaptator_input_none a) by done. by eexists.
Qed.

Lemma filter_ref_adapt_total a ref : ad_inputs a = ∅ → is_Some (filter_ref_adapt a ref).
Proof.
  intros Ha. destruct ref as [rules|name id args]; cbn [filter_ref_adapt]; [|by eexists].
  assert (is_Some (mapM (rule_adapt a) rules)) as [l ->]; [|by eexists].
  apply mapM_is_Some, Forall_forall. intros r _. by apply rule_adapt_total.
Qed.

Section new_objects.
Context {Obj : Type} (I : Interp Obj).

(** When an object is added to a set, with its parameter if the set has one, a filter is
    run on the objects that its variables stand for. *)
Definition new_object_runs (ir : IrDesc) (set : string) (obj : Obj) (param : option Obj) (ref : FilterRef)
    (vars : list Var) (env : Var → Obj) : Prop :=
  ∃ d o foralls sc call a (env' : Var → Obj),
    im_get set (set_defs ir) = Some (d, o) ∧ (foralls, sc, call) ∈ ono_filter o ∧
    filter_ref_adapt a ref = Some (fc_filter_ref (rc_filter call)) ∧
    env' (Arg 0) = obj ∧ (∀ p, param = Some p → env' (Arg 1) = p) ∧ bound_domain I env' foralls sc ∧
    ∀ v, v ∈ vars → env v = env' (adaptator_variable a v).

Lemma new_object_runs_grows ir ir' set obj param ref vars env :
  desc_grows ir ir' → new_object_runs ir set obj param ref vars env → new_object_runs ir' set obj param ref vars env.
Proof.
  intros Hgr (d & o & foralls & sc & call & a & env' & Ho & Hin & Hc).
  destruct (grows_new_objects _ _ Hgr _ _ _ Ho) as (o' & Ho' & [l Hl]).
  exists d, o', foralls, sc, call, a, env'. split; [done|]. split; [|done]. rewrite Hl. apply elem_of_app. by left.
Qed.

Lemma add_new_object_filter_exact name call ir d o :
  im_get name (set_defs ir) = Some (d, o) →
  ∃ ir', add_new_object_filter name call ir = Some ir' ∧ desc_grows ir ir' ∧ choices ir' = choices ir ∧
    im_get name (set_defs ir') = Some (d, mkOnNewObject (ono_filter o ++ [call])).
Proof.
  intros Ho. unfold add_new_object_filter. rewrite Ho. cbn [mbind option_bind]. eexists. split; [done|].
  assert (∀ n, im_get n (im_update name (λ x, (x.1, mkOnNewObject (ono_filter x.2 ++ [call]))) (set_defs ir)) =
    if decide (n = name) then (λ x, (x.1, mkOnNewObject (ono_filter x.2 ++ [call]))) <$> im_get n (set_defs ir)
    else im_get n (set_defs ir)) as Hget by (intros n; apply im_get_update).
  split; [|split; [done|cbn [set_defs]; by rewrite Hget, decide_True, Ho]]. constructor; [done| | |by eexists|done].
  - intros n. unfold get_set_def. cbn [set_defs]. rewrite Hget. case_decide; [|done]. by destruct (im_get n (set_defs ir)).
  - intros n d' o' Ho'. cbn [set_defs]. rewrite Hget. case_decide; [|by exists o']. rewrite Ho'. cbn.
    eexists. split; [done|]. cbn. by apply prefix_app_r.
Qed.

(** A set of the foralls that is registered under its name. *)
Record registrable (ir : IrDesc) (args foralls : list GSet) (i : nat) (set : GSet) : Prop := {
  reg_named : def_name (set_def set) ≠ "";
  reg_known : is_Some (im_get (def_name (set_def set)) (set_defs ir));
  reg_param p : set_arg set = Some p → p ≠ ForallVar i ∧ (∃ s, (p, s) ∈ var_list args foralls) ∧
    ∃ d, def_arg (set_def set) = Some d ∧ wf_set d
}.

Lemma registrable_grows ir ir' args foralls i set :
  desc_grows ir ir' → registrable ir args foralls i set → registrable ir' args foralls i set.
Proof.
  intros Hgr [H1 [[d o] H2] H3]. constructor; [done| |done].
  destruct (grows_new_objects _ _ Hgr _ _ _ H2) as (o' & Ho' & _). by eexists.
Qed.

(** The objects that the filter is called with, from those of its variables. *)
Definition object_env (env : Var → Obj) (i : nat) (set : GSet) (rest : list (Var * GSet)) (x : Var) : Obj :=
  match x with
  | Arg 0 => env (ForallVar i)
  | Arg 1 => from_option env (env x) (set_arg set)
  | Arg _ => env x
  | ForallVar j => from_option (λ y, env y.1) (env x) (rest !! j)
  end.

Definition in_domain (env : Var → Obj) (vars : list (Var * GSet)) : Prop :=
  ∀ v s, (v, s) ∈ vars → in_set I env s (env v).

Lemma object_env_renames args foralls i set a env :
  foralls !! i = Some set →
  adaptator_variable a (ForallVar i) = Arg 0 →
  (∀ p, set_arg set = Some p → adaptator_variable a p = Arg 1) →
  (∀ j v s, left_vars args foralls i set !! j = Some (v, s) → adaptator_variable a v = ForallVar j) →
  ∀ v, v ∈ (var_list args foralls).*1 →
    env v = object_env env i set (left_vars args foralls i set) (adaptator_variable a v).
Proof.
  intros Hi H0 H1 Hl v ([v' s] & -> & Hv)%list_elem_of_fmap. cbn [fst].
  destruct (decide (v' = ForallVar i)) as [->|Hne]; [by rewrite H0|].
  destruct (decide (Some v' = set_arg set)) as [Hp|Hnp].
  { rewrite (H1 v') by done. cbn. by rewrite <-Hp. }
  assert ((v', s) ∈ left_vars args foralls i set) as Hin by by apply list_elem_of_filter.
  apply list_elem_of_lookup in Hin as [j Hj]. rewrite (Hl j v' s Hj). cbn. by rewrite Hj.
Qed.

(** The sets only mention the listed variables. *)
Definition closed_list (vars : list (Var * GSet)) : Prop :=
  ∀ v s x, (v, s) ∈ vars → x ∈ set_vars s → x ∈ vars.*1.

Lemma object_env_domain args foralls i set a env :
  closed_list (var_list args foralls) → in_domain env (var_list args foralls) →
  (∀ v, v ∈ (var_list args foralls).*1 →
    env v = object_env env i set (left_vars args foralls i set) (adaptator_variable a v)) →
  ∀ v s, (v, s) ∈ var_list args foralls →
    in_set I (object_env env i set (left_vars args foralls i set)) (set_adapt a s)
      (object_env env i set (left_vars args foralls i set) (adaptator_variable a v)).
Proof.
  intros Hcl Hd Hx v s Hv. set (env' := object_env env i set (left_vars args foralls i set)) in *.
  apply (in_set_adapt I a (λ x, env' (adaptator_variable a x)) env'); [done|].
  assert (env' (adaptator_variable a v) = env v) as ->.
  { symmetry. apply Hx. apply list_elem_of_fmap. by exists (v, s). }
  apply (in_set_agree I env); [|by apply Hd]. intros x Hxs. by apply Hx, (Hcl v s x).
Qed.

Lemma register_new_object_exact ir ch ref args foralls i set :
  foralls !! i = Some set → registrable ir args foralls i set →
  defined_first (var_list args foralls) → closed_list (var_list args foralls) →
  ∃ ir', register_new_object ref ch args foralls ir (i, set) = Some ir' ∧ desc_grows ir ir' ∧ choices ir' = choices ir ∧
    ∀ env, in_domain env (var_list args foralls) →
      new_object_runs ir' (def_name (set_def set)) (env (ForallVar i)) (env <$> set_arg set) ref
        (filter_vars (length args) (length foralls)) env.
Proof.
  intros Hi [Hname [[d o] Hknown] Hp] Hdf Hcl. unfold register_new_object.
  assert (∃ os, object_set (get_set_def ir) args foralls i set = Some (set, os, false) ∧
    ∀ s, os = Some s → ∃ p, set_arg set = Some p ∧ (p, s) ∈ var_list args foralls) as (os & -> & Hos).
  { unfold object_set. rewrite bool_decide_eq_false_2 by done. destruct (set_arg set) as [p|]; [|by exists None].
    destruct (Hp p eq_refl) as (_ & [s Hs] & _). pose proof Hs as Hs'. apply elem_of_var_list in Hs'.
    exists (Some s). destruct p as [j|j]; rewrite Hs'; cbn [mbind option_bind]; (split; [done|]);
      intros s' [= <-]; by eexists. }
  cbn [mbind option_bind].
  destruct (adapt_to_var_context_exact args foralls i set Hi) as (a & -> & Hin & H0 & H1 & Hl); [|done|].
  { intros E. by destruct (Hp _ E). }
  cbn [mbind option_bind].
  pose proof (λ env, object_env_renames args foralls i set a env Hi H0 H1 Hl) as Hx.
  pose proof (λ env Hd, object_env_domain args foralls i set a env Hcl Hd (Hx env)) as Hdom.
  assert (∃ sc, parameter_constraint a set os = Some sc ∧ ∀ env, in_domain env (var_list args foralls) →
    Forall (λ x, in_set I (object_env env i set (left_vars args foralls i set)) x.2
      (object_env env i set (left_vars args foralls i set) x.1)) sc) as (sc & -> & Hsc).
  { unfold parameter_constraint. destruct os as [s|]; [|by exists []].
    destruct (Hos s eq_refl) as (p & Hps & Hpv). destruct (Hp p Hps) as (_ & _ & da & -> & Hw).
    cbn [mbind option_bind]. destruct (is_subset_of_total da s Hw) as [b ->]. cbn [mbind option_bind].
    eexists. split; [done|]. intros env Hd. destruct b; [done|]. unfold set_constraints_new.
    rewrite rsort_by_key_perm. apply Forall_singleton. cbn [fst snd]. rewrite <-(H1 p Hps). by apply Hdom. }
  cbn [mbind option_bind]. destruct (filter_ref_adapt_total a ref Hin) as [r Er]. rewrite Er. cbn [mbind option_bind].
  match goal with |- context [add_new_object_filter _ ?call _] =>
    destruct (add_new_object_filter_exact (def_name (set_def set)) call ir d o Hknown) as (ir' & -> & Hgr & Hc & Hget)
  end.
  exists ir'. split; [done|]. split; [done|]. split; [done|]. intros env Hd.
  eexists d, _, _, sc, _, a, (object_env env i set (left_vars args foralls i set)).
  split; [exact Hget|]. split; [cbn; apply elem_of_app; right; by apply list_elem_of_singleton|].
  split; [done|]. split; [done|]. split.
  { intros p Hpe. cbn. by destruct (set_arg set) as [q|]; [injection Hpe as <-|]. }
  split.
  - split; [|by apply Hsc]. intros j s Hj. rewrite !list_lookup_fmap in Hj.
    destruct (left_vars args foralls i set !! j) as [[v s']|] eqn:Ej; [|done]. injection Hj as <-.
    rewrite <-(Hl j v s' Ej). apply (Hdom env Hd v s').
    by apply list_elem_of_lookup_2, list_elem_of_filter in Ej as [_ Ej].
  - intros v Hv. apply Hx. by rewrite var_list_fst.
Qed.

Lemma register_new_objects_exact ir ch ref args foralls l :
  Forall (λ x, foralls !! x.1 = Some x.2 ∧ registrable ir args foralls x.1 x.2) l →
  defined_first (var_list args foralls) → closed_list (var_list args foralls) →
  ∃ ir', foldM (register_new_object ref ch args foralls) l ir = Some ir' ∧ desc_grows ir ir' ∧ choices ir' = choices ir ∧
    ∀ env i set, in_domain env (var_list args foralls) → (i, set) ∈ l →
      new_object_runs ir' (def_name (set_def set)) (env (ForallVar i)) (env <$> set_arg set) ref
        (filter_vars (length args) (length foralls)) env.
Proof.
  intros Hl Hdf Hcl. revert ir Hl. induction l as [|[i set] l IH]; intros ir Hl.
  { exists ir. split; [done|]. split; [done|]. split; [done|]. by intros env i set _ ?%elem_of_nil. }
  apply Forall_cons in Hl as [[Hi Hr] Hl]. cbn in Hi, Hr.
  destruct (register_new_object_exact ir ch ref args foralls i set Hi Hr Hdf Hcl) as (ir1 & E1 & Hgr1 & Hc1 & Hx1).
  destruct (IH ir1) as (ir2 & E2 & Hgr2 & Hc2 & Hx2).
  { eapply Forall_impl; [exact Hl|]. intros x [H1 H2]. split; [done|]. by eapply registrable_grows. }
  exists ir2. cbn [foldM]. rewrite E1. cbn [mbind option_bind]. split; [done|]. split; [by etrans|].
  split; [congruence|]. intros env j s Hd [[= -> ->]|Hj]%elem_of_cons; [|by apply Hx2].
  apply (new_object_runs_grows ir1 ir2); [done|]. by apply Hx1.
Qed.
End new_objects.

