(* ===== verification/Compiling.v ===== *)
(** * From constraints to filters

    The proofs about [add_filter] and the end of [process]: the filters that are stored
    allow what the constraints allow, and are called wherever their result may change.
    The definitions are in Registering.v. *)
From S2P Require Import Prelude Utils MultiMap Permutations Orders GenSets Filters FilterSemantics TruthTable Adapting Instances Environments FlatFilters Constraints ConstraintFilters Registering.

(** ** The variables of a filter *)

Lemma find_set_cons v x s sc : find_set v ((x, s) :: sc) = if decide (x = v) then Some s else find_set v sc.
Proof. unfold find_set. cbn. by case_decide. Qed.

Lemma find_set_none v sc : v ∉ sc.*1 → find_set v sc = None.
Proof.
  induction sc as [|[x s] sc IH]; [done|]. rewrite fmap_cons, not_elem_of_cons. cbn [fst]. intros [Hv Hs].
  rewrite find_set_cons, decide_False by done. by apply IH.
Qed.

(** Each argument of the choice is constrained at most once. *)
Definition constrains_arguments (num_args : nat) (sc : SetConstraints) : Prop :=
  NoDup sc.*1 ∧ Forall (λ x, ∃ i, x.1 = Arg i ∧ i < num_args) sc.

Lemma constrain_arguments_exact sc args :
  constrains_arguments (length args) sc →
  ∃ args', constrain_arguments sc args = Some args' ∧ length args' = length args ∧
    ∀ i, args' !! i = (λ s, default s (find_set (Arg i) sc)) <$> args !! i.
Proof.
  intros [Hnd Hf]. revert args Hnd Hf. induction sc as [|[v s] sc IH]; intros args Hnd Hf.
  { exists args. split_and!; try done. intros i. by destruct (args !! i). }
  cbn [fmap list_fmap fst] in Hnd. apply NoDup_cons in Hnd as [Hv Hnd].
  apply Forall_cons in Hf as [(i & Ei & Hi) Hf]. cbn in Ei. subst v. cbn [constrain_arguments].
  destruct (lookup_lt_is_Some_2 _ _ Hi) as [s0 Hs0]. rewrite Hs0. cbn [mbind option_bind].
  destruct (IH (<[i := s]> args) Hnd) as (args' & E & Hl & Hx); [by rewrite length_insert|].
  exists args'. split; [done|]. split; [by rewrite Hl, length_insert|]. intros j. rewrite Hx, find_set_cons.
  destruct (decide (i = j)) as [->|Hne].
  - rewrite list_lookup_insert_eq, decide_True, Hs0 by done. cbn. by rewrite find_set_none.
  - rewrite list_lookup_insert_ne, decide_False by congruence. done.
Qed.

Lemma lookup_var_list args foralls v s :
  (list_to_map (var_list args foralls) : gmap Var GSet) !! v = Some s ↔ (v, s) ∈ var_list args foralls.
Proof. rewrite <-elem_of_list_to_map; [done|]. rewrite var_list_fst. apply filter_vars_nodup. Qed.

(** The environment of the filter maps its variables to the constrained sets. *)
Lemma filter_env_var_list sc args args' foralls :
  constrains_arguments (length args) sc → length args' = length args →
  (∀ i, args' !! i = (λ s, default s (find_set (Arg i) sc)) <$> args !! i) →
  filter_env args foralls sc = list_to_map (var_list args' foralls).
Proof.
  intros [_ Hf] Hl Hx. unfold filter_env, var_list. rewrite fmap_app. f_equal. f_equal.
  - rewrite <-list_fmap_compose. apply list_eq. intros i.
    rewrite !list_lookup_fmap, !lookup_enumerate, Hx. by destruct (args !! i).
  - rewrite <-list_fmap_compose. apply list_fmap_ext. intros k [i s] _. cbn. do 2 f_equal.
    rewrite find_set_none; [done|]. intros ([x t] & E & Hin)%list_elem_of_fmap.
    rewrite Forall_forall in Hf. destruct (Hf _ Hin) as (j & Ej & _). cbn in *. congruence.
Qed.

(** ** Adding a filter *)
Section add_filter.
Context {Obj : Type} (U : SetDef → Prop) (I : Interp Obj).

(** What is asked of a filter on a choice: its inputs can be seen from its variables, and
    what it quantifies over is known. *)
Record filter_fits (ir : IrDesc) (ch : Choice) (inputs : list ChoiceInstance) (args foralls : list GSet)
    (sc : SetConstraints) : Prop := {
  fits_constrained : constrain_arguments sc (arguments_sets (arguments ch)) = Some args;
  fits_constraints : constrains_arguments (length (arguments_sets (arguments ch))) sc;
  fits_inputs : Forall (callable U ir (list_to_map (var_list args foralls))) inputs;
  fits_foralls i set : foralls !! i = Some set → registrable ir args foralls i set;
  fits_order : defined_first (var_list args foralls);
  fits_closed : closed_list (var_list args foralls)
}.

Lemma filter_fits_grows ir ir' ch ch' inputs args foralls sc :
  desc_grows ir ir' → arguments ch' = arguments ch →
  filter_fits ir ch inputs args foralls sc → filter_fits ir' ch' inputs args foralls sc.
Proof.
  intros Hgr Ha [H1 H2 H3 H4 H5 H6]. constructor; [by rewrite Ha|by rewrite Ha| | |done|done].
  - eapply Forall_impl; [exact H3|]. intros c. by apply callable_grows.
  - intros i set Hi. by eapply registrable_grows, H4.
Qed.

Lemma arguments_sets_length a : length (arguments_sets a) = arguments_len a.
Proof. destruct a as [l|]; cbn; [by rewrite length_fmap|done]. Qed.

Lemma fits_length ir ch inputs args foralls sc :
  filter_fits ir ch inputs args foralls sc → length args = arguments_len (arguments ch).
Proof.
  intros [H1 H2 _ _ _ _]. destruct (constrain_arguments_exact sc _ H2) as (args' & E & Hl & _).
  rewrite H1 in E. injection E as <-. by rewrite arguments_sets_length in Hl.
Qed.

(** The part of [add_filter] common to all filters. *)
Lemma finish_filter_exact ir choice ch ref inputs args foralls sc :
  get_choice ir choice = Some ch → filter_fits ir ch inputs args foralls sc →
  let act := mkFilterAction sc (mkFilterCall foralls ref) in
  ∃ ir', (ir ← register_filter_on_new_objs ref choice foralls sc ir;
      update_choice choice (choice_add_filter_action act) ir) = Some ir' ∧ desc_grows ir ir' ∧
    (∀ n, get_choice ir' n = if decide (n = choice) then Some (choice_add_filter_action act ch) else get_choice ir n) ∧
    ∀ env i set, in_domain I env (var_list args foralls) → foralls !! i = Some set →
      new_object_runs I ir' (def_name (set_def set)) (env (ForallVar i)) (env <$> set_arg set) ref
        (filter_vars (length args) (length foralls)) env.
Proof.
  intros Hg [Hca Hsc Hin Hreg Hdf Hcl] act. unfold register_filter_on_new_objs. rewrite Hg. cbn [mbind option_bind].
  rewrite Hca. cbn [mbind option_bind].
  destruct (register_new_objects_exact I ir ch ref args foralls (enumerate foralls)) as (ir1 & -> & Hgr1 & Hc1 & Hx1);
    [|done|done|].
  { apply Forall_forall. intros [i s] [k Hk]%list_elem_of_lookup. rewrite lookup_enumerate in Hk.
    destruct (foralls !! k) as [t|] eqn:Ek; [|done]. cbn in Hk. injection Hk as -> ->. cbn. split; [done|].
    by apply Hreg. }
  cbn [mbind option_bind].
  assert (∀ n, get_choice ir1 n = get_choice ir n) as Hg1 by (intros n; unfold get_choice; by rewrite Hc1).
  destruct (update_choice_grows choice (choice_add_filter_action act) ir1 ch) as (ir2 & E2 & Hgr2 & Hg2);
    [by rewrite Hg1|apply add_filter_action_grows_choice|].
  exists ir2. split; [done|]. split; [by etrans|]. split.
  - intros n. rewrite (update_choice_get _ _ _ _ E2), Hg1. case_decide; [subst; by rewrite Hg|done].
  - intros env i set Hd Hi. apply (new_object_runs_grows I ir1); [done|]. apply Hx1; [done|].
    apply list_elem_of_lookup. exists i. by rewrite lookup_enumerate, Hi.
Qed.

(** Storing a filter and registering the calls for its inputs. *)
Lemma store_filter_exact ir choice ch f args foralls sc :
  get_choice ir choice = Some ch → reversible_sets (get_set_def ir) U I →
  filter_fits ir ch (filter_inputs f) args foralls sc →
  let id := length (filters ch) in
  ∃ ir', (ir ← update_choice choice (λ ch, (choice_add_filter f ch).2) ir;
      foldM (λ ir input, register_filter_call choice id input foralls sc ir) (filter_inputs f) ir) = Some ir' ∧
    desc_grows ir ir' ∧
    (∀ n, static <$> get_choice ir' n =
      static <$> (if decide (n = choice) then Some (choice_add_filter f ch).2 else get_choice ir n)) ∧
    ∀ env inst i, in_domain I env (var_list args foralls) → inst ∈ filter_inputs f → i ∈ changed_instances ir inst →
      change_calls I ir' (ci_choice inst) (env <$> ci_vars i) choice id
        (env <$> filter_vars (length args) (length foralls)).
Proof.
  intros Hg HU Hfits id. pose proof (fits_length _ _ _ _ _ _ Hfits) as Hl. destruct Hfits as [Hca Hsc Hin Hreg Hdf Hcl].
  destruct (constrain_arguments_exact sc _ Hsc) as (args1 & E1 & Hl1 & Hx1). rewrite Hca in E1. injection E1 as <-.
  pose proof (filter_env_var_list sc _ args foralls Hsc Hl1 Hx1) as Henv.
  destruct (update_choice_grows choice (λ ch, (choice_add_filter f ch).2) ir ch Hg (add_filter_grows_choice f))
    as (ir1 & Eu & Hgr1 & Hg1). rewrite Eu. cbn [mbind option_bind].
  set (ch1 := (choice_add_filter f ch).2) in *. assert (arguments ch1 = arguments ch) as Ea1 by done.
  destruct (register_inputs_exact U I ir1 choice ch1 id (filter_inputs f) foralls sc (reversible_sets_grows U I ir ir1 Hgr1 HU) Hg1)
    as (ir2 & E2 & Hgr2 & Hst2 & Hc2).
  { rewrite Ea1, Henv. eapply Forall_impl; [exact Hin|]. intros c. by apply callable_grows. }
  { rewrite Ea1, Henv. intros v s x Hv%lookup_var_list Hx.
    pose proof (Hcl v s x Hv Hx) as ([y t] & -> & Hy)%list_elem_of_fmap. exists t. by apply lookup_var_list. }
  { rewrite Ea1, Henv, <-Hl. intros v Hv. rewrite <-var_list_fst in Hv.
    apply list_elem_of_fmap in Hv as ([y t] & -> & Hy). exists t. by apply lookup_var_list. }
  rewrite Ea1, Henv, <-Hl in Hc2. exists ir2. split; [done|]. split; [by etrans|]. split.
  - intros n. rewrite Hst2, (update_choice_get _ _ _ _ Eu). case_decide; [subst; by rewrite Hg|done].
  - intros env inst i Hd Hi Hch. apply Hc2; [|done|].
    + intros v s Hv. by apply Hd, lookup_var_list.
    + rewrite Forall_forall in Hin. destruct (Hin inst Hi) as [Hio _]. by rewrite (changed_instances_grows ir ir1).
Qed.

(** The reference to the filter: its rules when it reads nothing. *)
Definition filter_reference (choice : string) (ch : Choice) (f : Filter) (args foralls : list GSet)
    (ref : FilterRef) : Prop :=
  match filter_inputs f with
  | [] => ∃ rules, filter_rules f = Rules rules ∧ ref = FrInline rules
  | _ => ref = FrFunction choice (length (filters ch)) (filter_vars (length args) (length foralls))
  end.

(** The choice after the filter is added. *)
Definition choice_with_filter (ch : Choice) (f : Filter) (act : FilterAction) : Choice :=
  choice_add_filter_action act (match filter_inputs f with [] => ch | _ => (choice_add_filter f ch).2 end).

(** A stored filter is called wherever its result may change. *)
Definition filter_called (ir ir' : IrDesc) (choice : string) (ref : FilterRef) (inputs : list ChoiceInstance)
    (args foralls : list GSet) (env : Var → Obj) : Prop :=
  let vars := filter_vars (length args) (length foralls) in
  (∀ inst i id args, inst ∈ inputs → i ∈ changed_instances ir inst → ref = FrFunction choice id args →
    change_calls I ir' (ci_choice inst) (env <$> ci_vars i) choice id (env <$> vars)) ∧
  (∀ i set, foralls !! i = Some set →
    new_object_runs I ir' (def_name (set_def set)) (env (ForallVar i)) (env <$> set_arg set) ref vars env).

Lemma add_filter_exact ir choice ch f args foralls sc :
  get_choice ir choice = Some ch → reversible_sets (get_set_def ir) U I →
  (filter_inputs f = [] → ∃ rules, filter_rules f = Rules rules) →
  filter_fits ir ch (filter_inputs f) args foralls sc →
  ∃ ir' ref, add_filter choice f foralls sc ir = Some ir' ∧ desc_grows ir ir' ∧
    filter_reference choice ch f args foralls ref ∧
    (∀ n, static <$> get_choice ir' n = static <$> (if decide (n = choice)
      then Some (choice_with_filter ch f (mkFilterAction sc (mkFilterCall foralls ref))) else get_choice ir n)) ∧
    ∀ env, in_domain I env (var_list args foralls) →
      filter_called ir ir' choice ref (filter_inputs f) args foralls env.
Proof.
  intros Hg HU Hne Hfits. unfold add_filter, filter_reference, choice_with_filter.
  destruct (filter_inputs f) as [|inst0 inputs0] eqn:Ein.
  { destruct (Hne eq_refl) as [rules Er]. rewrite Er. cbn [mbind option_bind].
    destruct (finish_filter_exact ir choice ch (FrInline rules) [] args foralls sc Hg Hfits) as (ir' & -> & Hgr & Hget & Hx).
    exists ir', (FrInline rules). split; [done|]. split; [done|]. split; [by exists rules|]. split.
    - intros n. by rewrite Hget.
    - intros env Hd. split; [|intros i set; by apply Hx]. by intros inst i id a Hi%elem_of_nil. }
  rewrite Hg. cbn [mbind option_bind].
  assert ((choice_add_filter f ch).1 = length (filters ch)) as -> by (cbn; rewrite length_app; cbn; lia).
  rewrite <-Ein in Hfits |- *.
  destruct (store_filter_exact ir choice ch f args foralls sc Hg HU Hfits) as (ir2 & E & Hgr2 & Hst2 & Hc2).
  destruct (update_choice choice _ ir) as [ir1|]; [|done]. cbn [mbind option_bind] in E |- *.
  rewrite E. cbn [mbind option_bind].
  pose proof (Hst2 choice) as Hst. rewrite decide_True in Hst by done.
  destruct (get_choice ir2 choice) as [ch2|] eqn:Hg2; [|done]. cbn [mbind option_bind].
  cbn in Hst. injection Hst as Ha2 Hd2 Hfa2 Hf2 Hnp2.
  pose proof (filter_fits_grows ir ir2 ch ch2 _ _ _ _ Hgr2 Ha2 Hfits) as Hfits2.
  rewrite <-(fits_length _ _ _ _ _ _ Hfits2). fold (filter_vars (length args) (length foralls)).
  set (ref := FrFunction choice (length (filters ch)) (filter_vars (length args) (length foralls))).
  destruct (finish_filter_exact ir2 choice ch2 ref _ args foralls sc Hg2 Hfits2) as (ir' & E' & Hgr & Hget & Hx).
  exists ir', ref. split; [exact E'|]. split; [by etrans|]. split; [done|]. split.
  - intros n. rewrite Hget. case_decide; [|by rewrite Hst2, decide_False].
    cbn. unfold static. cbn. by rewrite Ha2, Hd2, Hfa2, Hf2, Hnp2.
  - intros env Hd. split; [|intros i set; by apply Hx]. intros inst i id a Hi Hch [= <- <-].
    apply (change_calls_grows I ir2); [done|]. by apply Hc2.
Qed.
End add_filter.

(** ** The meaning of filters in a grown description *)
Section grown_meaning.
Context (ir ir' : IrDesc) (Hgr : desc_grows ir ir').

Lemma get_enum_grows n : get_enum ir' n = get_enum ir n.
Proof. unfold get_enum. by rewrite (grows_enums _ _ Hgr). Qed.

(** What the meaning of a filter reads of a choice. *)
Lemma get_choice_grows n :
  (λ c, (choice_name c, arguments c, choice_def c)) <$> get_choice ir' n =
  (λ c, (choice_name c, arguments c, choice_def c)) <$> get_choice ir n.
Proof.
  destruct (get_choice ir n) as [ch|] eqn:E.
  - destruct (grows_choices _ _ Hgr n ch E) as (ch' & -> & [H1 H2 H3 _ _]). cbn. by rewrite H1, H2, H3.
  - by rewrite (grows_no_choice _ _ Hgr n E).
Qed.

Lemma get_choice_back n ch' :
  get_choice ir' n = Some ch' → ∃ ch, get_choice ir n = Some ch ∧ choice_grows ch ch'.
Proof.
  intros E'. destruct (get_choice ir n) as [ch|] eqn:E.
  - destruct (grows_choices _ _ Hgr n ch E) as (c & Ec & Hc). exists ch. split; [done|]. congruence.
  - by rewrite (grows_no_choice _ _ Hgr n E) in E'.
Qed.

Lemma choice_enum_grows n : choice_enum ir' n = choice_enum ir n.
Proof.
  pose proof (get_choice_grows n) as H. unfold choice_enum.
  destruct (get_choice ir' n), (get_choice ir n); cbn in *; try done.
  injection H as _ _ ->. by destruct (def_as_enum _); [cbn; apply get_enum_grows|].
Qed.

Lemma input_enum_grows inputs i : input_enum ir' inputs i = input_enum ir inputs i.
Proof. rewrite !input_enum_choice. destruct (inputs !! i); [|done]. cbn. apply choice_enum_grows. Qed.

Lemma input_value_grows inputs w b i : input_value ir' inputs w b i = input_value ir inputs w b i.
Proof. unfold input_value, inverse_value. by rewrite input_enum_grows. Qed.

Lemma cond_holds_grows inputs w c : cond_holds ir' inputs w c = cond_holds ir inputs w c.
Proof. destruct c; cbn [cond_holds]; by rewrite ?input_value_grows. Qed.

Lemma vs_allows_grows inputs w s v : vs_allows ir' inputs w s v ↔ vs_allows ir inputs w s v.
Proof.
  destruct s as [n values ins|f ci cc u]; [|done]. rewrite !vs_allows_enum. unfold enum_allows, input_allows.
  by setoid_rewrite input_value_grows.
Qed.

Lemma rule_allows_grows inputs w r v : rule_allows ir' inputs w r v ↔ rule_allows ir inputs w r v.
Proof.
  unfold rule_allows, triggers. rewrite vs_allows_grows.
  assert (Forall (λ c, cond_holds ir' inputs w c = true) (conditions r) ↔
    Forall (λ c, cond_holds ir inputs w c = true) (conditions r)) as ->; [|done].
  apply Forall_iff. intros c. by rewrite cond_holds_grows.
Qed.

Lemma filter_allows_grows inputs w f v : filter_allows ir' inputs w f v ↔ filter_allows ir inputs w f v.
Proof.
  revert f. fix IH 1. intros [input cases|rules]; cbn [filter_allows].
  - induction cases as [|[guard f] cases IHc]; [done|]. rewrite vs_allows_grows, IHc, (IH f). done.
  - apply Forall_iff. intros r. apply rule_allows_grows.
Qed.

Lemma desc_ok_grows : desc_ok ir → desc_ok ir'.
Proof. intros H n e. rewrite get_enum_grows. apply H. Qed.

Lemma choices_ok_grows : choices_ok ir → choices_ok ir'.
Proof.
  intros H n ch' (ch & Hg & [Hn Ha Hd _ _])%get_choice_back. destruct (H n ch Hg) as [H1 H2 H3 H4].
  constructor; rewrite ?Hn, ?Ha, ?Hd; try done. intros n' E. rewrite get_enum_grows. by apply H2.
Qed.

Lemma interp_ok_grows {Obj : Type} (I : Interp Obj) : interp_ok ir I → interp_ok ir' I.
Proof.
  intros [H1 H2 H3 H4 H5]. constructor; [| | |done|done].
  - intros n e objs. rewrite choice_enum_grows. apply H1.
  - intros n ch' objs (ch & Hg & _)%get_choice_back. rewrite choice_enum_grows. by apply (H2 n ch).
  - intros n ch' names t inverse x y (ch & Hg & Hc)%get_choice_back. rewrite (grows_arguments _ _ Hc). intros Ha.
    rewrite (H3 n ch names t inverse x y Hg Ha). unfold inverse_when, choice_inverse. by rewrite choice_enum_grows.
Qed.

Lemma cond_ok_grows inputs c : cond_ok ir inputs c → cond_ok ir' inputs c.
Proof. destruct c; cbn [cond_ok]; by rewrite ?input_enum_grows. Qed.

Lemma vs_ok_grows inputs t s : vs_ok ir inputs t s → vs_ok ir' inputs t s.
Proof.
  destruct t, s as [n values ins|f ci cc u]; cbn [vs_ok]; try done.
  - intros (-> & e & He & Hi). split; [done|]. exists e. rewrite get_enum_grows. split; [done|].
    intros i neg inv Hin. rewrite input_enum_grows. by apply (Hi i neg inv).
  - intros H op i Hin. rewrite input_enum_grows. by apply (H op i).
  - intros H op i Hin. rewrite input_enum_grows. by apply (H op i).
Qed.

Lemma rules_ok_grows inputs t rules : rules_ok ir inputs t rules → rules_ok ir' inputs t rules.
Proof.
  intros [H1 H2]. split; [|done]. eapply Forall_impl; [exact H1|]. intros r [Hc Hs].
  split; [|by apply vs_ok_grows]. eapply Forall_impl; [exact Hc|]. intros c. apply cond_ok_grows.
Qed.

Lemma normalize_grows c b c' :
  choice_instance_normalize ir c = Some (b, c') → choice_instance_normalize ir' c = Some (b, c').
Proof.
  unfold choice_instance_normalize. pose proof (get_choice_grows (ci_choice c)) as H.
  destruct (get_choice ir (ci_choice c)), (get_choice ir' (ci_choice c)); cbn in H |- *; try done.
  by injection H as _ -> _.
Qed.

Lemma ff_ok_grows t f : ff_ok ir t f → ff_ok ir' t f.
Proof.
  intros [H1 H2 H3]. constructor; [| |by apply rules_ok_grows].
  - eapply Forall_impl; [exact H1|]. intros c. by apply instance_ok_grows.
  - eapply Forall_impl; [exact H2|]. intros c. apply normalize_grows.
Qed.

Lemma ff_allows_grows {Obj : Type} (I : Interp Obj) env v f : ff_allows ir' I env v f ↔ ff_allows ir I env v f.
Proof.
  unfold ff_allows, rules_allow. split; intros H env' Hs Hd; specialize (H env' Hs Hd);
    (eapply Forall_impl; [exact H|]); intros r; apply rule_allows_grows.
Qed.

Lemma value_ok_grows t v : value_ok ir' t v ↔ value_ok ir t v.
Proof. destruct t, v; cbn; try done. by setoid_rewrite get_enum_grows. Qed.
End grown_meaning.

(** ** Compiling one flat filter *)
Section compile.
Context {Obj : Type} (U : SetDef → Prop) (I : Interp Obj).

(** What a filter action of a choice allows: the filter that is called, or the inlined
    rules, for all objects of the quantified sets. *)
Definition action_allows (ir : IrDesc) (env : Var → Obj) (v : Value) (act : FilterAction) : Prop :=
  ∀ env', same_args env env' → bound_domain I env' (fc_forall_vars (fa_filter act)) (fa_set_constraints act) →
    match fc_filter_ref (fa_filter act) with
    | FrInline rules => Forall (λ r, rule_allows ir [] (env_world I env' []) r v) rules
    | FrFunction name id args => ∃ ch f, get_choice ir name = Some ch ∧ filters ch !! id = Some f ∧
        args = filter_vars (arguments_len (arguments ch)) (length (fc_forall_vars (fa_filter act))) ∧
        filter_allows ir (filter_inputs f) (env_world I env' (filter_inputs f)) (filter_rules f) v
    end.

(** The filter that is called exists. *)
Definition resolved (ir : IrDesc) (act : FilterAction) : Prop :=
  match fc_filter_ref (fa_filter act) with
  | FrInline _ => True
  | FrFunction name id _ => ∃ ch f, get_choice ir name = Some ch ∧ filters ch !! id = Some f
  end.

Lemma resolved_grows ir ir' act : desc_grows ir ir' → resolved ir act → resolved ir' act.
Proof.
  intros Hgr. unfold resolved. destruct (fc_filter_ref _) as [|name id args]; [done|].
  intros (ch & f & Hg & Hf). destruct (grows_choices _ _ Hgr _ _ Hg) as (ch' & Hg' & Hc).
  exists ch', f. split; [done|]. eapply prefix_lookup_Some; [done|]. apply Hc.
Qed.

Lemma action_allows_grows ir ir' env v act :
  desc_grows ir ir' → resolved ir act → action_allows ir' env v act ↔ action_allows ir env v act.
Proof.
  intros Hgr Hr. unfold action_allows, resolved in *.
  assert (∀ env', match fc_filter_ref (fa_filter act) with
    | FrInline rules => Forall (λ r, rule_allows ir' [] (env_world I env' []) r v) rules
    | FrFunction name id args => ∃ ch f, get_choice ir' name = Some ch ∧ filters ch !! id = Some f ∧
        args = filter_vars (arguments_len (arguments ch)) (length (fc_forall_vars (fa_filter act))) ∧
        filter_allows ir' (filter_inputs f) (env_world I env' (filter_inputs f)) (filter_rules f) v
    end ↔ match fc_filter_ref (fa_filter act) with
    | FrInline rules => Forall (λ r, rule_allows ir [] (env_world I env' []) r v) rules
    | FrFunction name id args => ∃ ch f, get_choice ir name = Some ch ∧ filters ch !! id = Some f ∧
        args = filter_vars (arguments_len (arguments ch)) (length (fc_forall_vars (fa_filter act))) ∧
        filter_allows ir (filter_inputs f) (env_world I env' (filter_inputs f)) (filter_rules f) v
    end) as H.
  { intros env'. destruct (fc_filter_ref _) as [rules|name id args].
    - apply Forall_iff. intros r. by apply rule_allows_grows.
    - destruct Hr as (ch0 & f0 & Hg0 & Hf0). destruct (grows_choices _ _ Hgr _ _ Hg0) as (ch1 & Hg1 & Hc).
      assert (filters ch1 !! id = Some f0) as Hf1 by (eapply prefix_lookup_Some; [done|apply Hc]).
      split.
      + intros (ch & f & Hg & Hf & Ha & Hx). assert (ch = ch1) as -> by congruence. assert (f = f0) as -> by congruence.
        exists ch0, f0. rewrite <-(grows_arguments _ _ Hc). split_and!; try done. by apply (filter_allows_grows ir ir' Hgr).
      + intros (ch & f & Hg & Hf & Ha & Hx). assert (ch = ch0) as -> by congruence. assert (f = f0) as -> by congruence.
        exists ch1, f0. rewrite (grows_arguments _ _ Hc). split_and!; try done. by apply (filter_allows_grows ir ir'). }
  split; intros Hall env' Hs Hd; apply H; by apply Hall.
Qed.

Lemma inputs_declared_ok ir inputs :
  choices_ok ir → Forall (instance_ok ir) inputs → inputs_declared ir inputs.
Proof.
  intros Hch Hin. eapply Forall_impl; [exact Hin|]. intros c (ch & Hg & _). exists ch. split; [done|].
  intros n Hn. destruct (Hch _ _ Hg) as [_ He _ _]. apply He. by rewrite Hn.
Qed.

(** A flat filter is compiled into an action with the same meaning, that is called
    wherever its result may change. *)
Lemma compile_filter_exact ir choice ch t f args :
  desc_ok ir → choices_ok ir → interp_ok ir I → reversible_sets (get_set_def ir) U I →
  get_choice ir choice = Some ch → ff_ok ir t f →
  filter_fits U ir ch (ff_inputs f) args (ff_vars f) (ff_set_constraints f) →
  ∃ ir' act, compile_filter choice ir f = Some ir' ∧ desc_grows ir ir' ∧ resolved ir' act ∧
    (∀ n, filter_actions <$> get_choice ir' n =
      if decide (n = choice) then Some (filter_actions ch ++ [act]) else filter_actions <$> get_choice ir n) ∧
    (∀ env v, value_ok ir t v → (action_allows ir' env v act ↔ ff_allows ir I env v f)) ∧
    ∀ env, in_domain I env (var_list args (ff_vars f)) →
      filter_called I ir ir' choice (fc_filter_ref (fa_filter act)) (ff_inputs f) args (ff_vars f) env.
Proof.
  intros Hir Hch HI HU Hg Hf Hfits. destruct Hf as [Hin _ [Hr _]].
  destruct (opt_rules_exact ir (ff_inputs f) t (ff_rules f) Hir (inputs_declared_ok ir _ Hch Hin) Hr) as (g & Eg & Hx).
  unfold compile_filter. destruct f as [vars inputs rules sc]. cbn [deconstruct ff_vars ff_inputs ff_rules ff_set_constraints] in *.
  rewrite Eg. cbn [mbind option_bind]. rewrite Hg. cbn [mbind option_bind].
  set (F := mkFilter (filter_sets (arguments_sets (arguments ch)) vars sc) inputs g).
  destruct (add_filter_exact U I ir choice ch F args vars sc Hg HU) as (ir' & ref & -> & Hgr & Href & Hst & Hcalled); [|done|].
  { cbn. intros ->. by apply (opt_rules_no_inputs ir rules). }
  set (act := mkFilterAction sc (mkFilterCall vars ref)) in *.
  exists ir', act. split; [done|]. split; [done|].
  assert (match inputs with [] => ∃ rs, g = Rules rs ∧ ref = FrInline rs
    | _ => ref = FrFunction choice (length (filters ch)) (filter_vars (length args) (length vars)) ∧
        ∃ ch', get_choice ir' choice = Some ch' ∧ filters ch' !! length (filters ch) = Some F ∧ arguments ch' = arguments ch
    end) as Hres.
  { unfold filter_reference in Href. cbn in Href. destruct inputs as [|c0 inputs0]; [done|]. split; [done|].
    pose proof (Hst choice) as Hc. rewrite decide_True in Hc by done.
    destruct (get_choice ir' choice) as [ch'|]; [|done]. cbn in Hc. injection Hc as Ha _ _ Hfl _.
    exists ch'. split; [done|]. split; [|done]. by rewrite Hfl, lookup_app_r, Nat.sub_diag by done. }
  split; [|split; [|split]].
  - unfold resolved. cbn. destruct inputs as [|c0 inputs0]; [by destruct Hres as (rs & _ & ->)|].
    destruct Hres as (-> & ch' & Hg' & Hf' & _). by exists ch', F.
  - intros n. specialize (Hst n). case_decide as En.
    + subst n. destruct (get_choice ir' choice) as [ch'|]; [|done]. cbn in Hst |- *. unfold choice_with_filter in Hst.
      cbn in Hst. by destruct inputs; injection Hst as _ _ -> _ _.
    + destruct (get_choice ir' n), (get_choice ir n); cbn in Hst |- *; try done. by injection Hst as _ _ -> _ _.
  - intros env v Hv. unfold action_allows, ff_allows. cbn [fa_filter fc_forall_vars fa_set_constraints fc_filter_ref act].
    assert (∀ env', filter_allows ir inputs (env_world I env' inputs) g v ↔ rules_allow ir I env' inputs rules v) as Hgx.
    { intros env'. apply Hx; [apply (env_world_ok ir I HI)|by apply env_world_inputs_ok|done]. }
    pose proof (fits_length _ _ _ _ _ _ _ Hfits) as Hl.
    destruct inputs as [|c0 inputs0]; cycle 1.
    + destruct Hres as (-> & ch' & Hg' & Hf' & Ha').
      split; intros H env' Hs Hd; specialize (H env' Hs Hd).
      * destruct H as (ch2 & f2 & Hg2 & Hf2 & _ & H). assert (ch2 = ch') as -> by congruence.
        assert (f2 = F) as -> by congruence. apply Hgx. by apply (filter_allows_grows ir ir').
      * exists ch', F. split; [done|]. split; [done|]. split; [by rewrite Ha', Hl|].
        apply (filter_allows_grows ir ir' Hgr), Hgx, H.
    + destruct Hres as (rs & -> & ->).
      split; intros H env' Hs Hd; specialize (H env' Hs Hd).
      * apply Hgx. cbn. eapply Forall_impl; [exact H|]. intros r. exact (proj1 (rule_allows_grows ir ir' Hgr _ _ r v)).
      * apply Hgx in H. cbn in H. eapply Forall_impl; [exact H|]. intros r. exact (proj2 (rule_allows_grows ir ir' Hgr _ _ r v)).
  - intros env Hd. by apply Hcalled.
Qed.

(** A flat filter whose variables, inputs and sets suit the choice. *)
Definition flat_fits (ir : IrDesc) (ch : Choice) (f : FlatFilter) : Prop :=
  ∃ args, filter_fits U ir ch (ff_inputs f) args (ff_vars f) (ff_set_constraints f).

Lemma flat_fits_extends ir ch f g : extends f g → flat_fits ir ch f → flat_fits ir ch g.
Proof. intros (Hv & Hi & Hs & _) [args H]. exists args. by rewrite Hv, Hi, Hs. Qed.

Lemma flat_fits_grows ir ir' ch ch' f :
  desc_grows ir ir' → arguments ch' = arguments ch → flat_fits ir ch f → flat_fits ir' ch' f.
Proof. intros Hgr Ha [args H]. exists args. by eapply filter_fits_grows. Qed.

(** The actions that compilation adds to the choices. *)
Definition adds_actions (ir ir' : IrDesc) (choice : string) (acts : list FilterAction) : Prop :=
  ∀ n, filter_actions <$> get_choice ir' n =
    if decide (n = choice) then (λ c, filter_actions c ++ acts) <$> get_choice ir n
    else filter_actions <$> get_choice ir n.

Lemma adds_actions_nil ir choice : adds_actions ir ir choice [].
Proof. intros n. case_decide; [|done]. destruct (get_choice ir n); [|done]. cbn. by rewrite app_nil_r. Qed.

Lemma adds_actions_app ir ir1 ir2 choice acts acts' :
  adds_actions ir ir1 choice acts → adds_actions ir1 ir2 choice acts' → adds_actions ir ir2 choice (acts ++ acts').
Proof.
  intros H1 H2 n. rewrite H2. specialize (H1 n). case_decide; [|done].
  destruct (get_choice ir1 n), (get_choice ir n); cbn in *; try done. injection H1 as ->. by rewrite app_assoc.
Qed.

(** The description while filters are added to it. *)
Record compiling (ir : IrDesc) : Prop := {
  comp_desc : desc_ok ir;
  comp_choices : choices_ok ir;
  comp_interp : interp_ok ir I;
  comp_sets : reversible_sets (get_set_def ir) U I
}.

Lemma compiling_grows ir ir' : desc_grows ir ir' → compiling ir → compiling ir'.
Proof.
  intros Hgr [H1 H2 H3 H4]. constructor.
  - by apply (desc_ok_grows ir).
  - by apply (choices_ok_grows ir).
  - by apply (interp_ok_grows ir).
  - by apply (reversible_sets_grows U I ir).
Qed.

(** What compiling some flat filters of a choice gives. *)
Definition compiled (ir ir' : IrDesc) (choice : string) (t : ValueType) (fs : list FlatFilter)
    (acts : list FilterAction) : Prop :=
  desc_grows ir ir' ∧ Forall (resolved ir') acts ∧ adds_actions ir ir' choice acts ∧
  ∀ env v, value_ok ir t v →
    (Forall (action_allows ir' env v) acts ↔ Forall (ff_allows ir I env v) fs).

Lemma compile_filters_exact ir choice ch t fs :
  compiling ir → get_choice ir choice = Some ch → Forall (λ f, ff_ok ir t f ∧ flat_fits ir ch f) fs →
  ∃ ir' acts, foldM (compile_filter choice) fs ir = Some ir' ∧ compiled ir ir' choice t fs acts.
Proof.
  intros Hc Hg Hf. revert ir ch Hc Hg Hf. induction fs as [|f fs IH]; intros ir ch Hc Hg Hf.
  { exists ir, []. split; [done|]. split; [done|]. split; [done|]. split; [apply adds_actions_nil|]. done. }
  apply Forall_cons in Hf as [[Hok [args Hfit]] Hf]. destruct Hc as [Hir Hch HI HU].
  destruct (compile_filter_exact ir choice ch t f args Hir Hch HI HU Hg Hok Hfit)
    as (ir1 & act & E1 & Hgr1 & Hr1 & Ha1 & Hx1 & _).
  destruct (grows_choices _ _ Hgr1 _ _ Hg) as (ch1 & Hg1 & Hch1).
  destruct (IH ir1 ch1 (compiling_grows ir ir1 Hgr1 ltac:(by constructor)) Hg1) as (ir2 & acts & E2 & Hgr2 & Hr2 & Ha2 & Hx2).
  { eapply Forall_impl; [exact Hf|]. intros g [H1 H2]. split; [by apply (ff_ok_grows ir)|].
    eapply flat_fits_grows; [done| |done]. apply Hch1. }
  exists ir2, (act :: acts). cbn [foldM]. rewrite E1. cbn [mbind option_bind]. split; [done|].
  split; [by etrans|]. split; [constructor; [by apply (resolved_grows ir1)|done]|]. split.
  - apply (adds_actions_app ir ir1 ir2 choice [act] acts); [|done]. intros n. rewrite Ha1.
    case_decide; [subst; by rewrite Hg|done].
  - intros env v Hv. rewrite !Forall_cons, (action_allows_grows ir1 ir2) by done. rewrite (Hx1 env v Hv).
    rewrite (Hx2 env v) by by apply (value_ok_grows ir ir1).
    apply Morphisms_Prop.and_iff_morphism; [done|]. apply Forall_iff. intros g. by apply ff_allows_grows.
Qed.

(** The filters of a choice are merged, then compiled. *)
Lemma compile_choice_exact ir choice ch fs :
  let t := choice_value_type ch in
  compiling ir → get_choice ir choice = Some ch →
  Forall (λ f, ff_ok ir t f ∧ mergeable f ∧ flat_fits ir ch f) fs →
  ∃ ir' acts, compile_choice ir (choice, fs) = Some ir' ∧ compiled ir ir' choice t fs acts.
Proof.
  intros t Hc Hg Hf. pose proof Hc as [Hir Hch HI HU].
  destruct (merge_filters_exact ir Hir Hch t fs) as (l & El & Hl & Hle & Hlx).
  { eapply Forall_impl; [exact Hf|]. by intros f (H1 & H2 & _). }
  destruct (compile_filters_exact ir choice ch t l Hc Hg) as (ir' & acts & E & Hgr & Hr & Ha & Hx).
  { rewrite Forall_forall in *. intros g Hgl. split; [by apply Hl|]. destruct (Hle g Hgl) as (f & Hfl & He).
    apply (flat_fits_extends ir ch f g He). by apply Hf. }
  exists ir', acts. unfold compile_choice. rewrite El. cbn [mbind option_bind]. split; [done|].
  split_and!; try done. intros env v Hv. rewrite (Hx env v Hv). by apply Hlx.
Qed.

(** ** All choices *)

(** The flat filters of a choice in a list of pairs. *)
Definition filters_for (l : list (string * list FlatFilter)) (n : string) : list FlatFilter :=
  default [] ((list_to_map l : gmap string (list FlatFilter)) !! n).

Lemma filters_for_cons n0 fs l n :
  filters_for ((n0, fs) :: l) n = if decide (n = n0) then fs else filters_for l n.
Proof.
  unfold filters_for. cbn. case_decide as E; [subst; by rewrite lookup_insert_eq|].
  by rewrite lookup_insert_ne by congruence.
Qed.

Lemma filters_for_none l n : n ∉ l.*1 → filters_for l n = [].
Proof. intros H. unfold filters_for. by rewrite not_elem_of_list_to_map_1. Qed.

(** What compiling the flat filters of all choices gives. *)
Definition all_compiled (ir ir' : IrDesc) (l : list (string * list FlatFilter)) : Prop :=
  desc_grows ir ir' ∧ ∀ n ch', get_choice ir' n = Some ch' →
    ∃ ch acts, get_choice ir n = Some ch ∧ filter_actions ch' = filter_actions ch ++ acts ∧
      ∀ env v, value_ok ir (choice_value_type ch) v →
        (Forall (action_allows ir' env v) acts ↔ Forall (ff_allows ir I env v) (filters_for l n)).

Definition choice_filters_ok (ir : IrDesc) (n : string) (fs : list FlatFilter) : Prop :=
  ∃ ch, get_choice ir n = Some ch ∧
    Forall (λ f, ff_ok ir (choice_value_type ch) f ∧ mergeable f ∧ flat_fits ir ch f) fs.

Lemma choice_filters_ok_grows ir ir' n fs :
  desc_grows ir ir' → choice_filters_ok ir n fs → choice_filters_ok ir' n fs.
Proof.
  intros Hgr (ch & Hg & Hf). destruct (grows_choices _ _ Hgr _ _ Hg) as (ch' & Hg' & Hc).
  exists ch'. split; [done|]. unfold choice_value_type. rewrite (grows_def _ _ Hc).
  eapply Forall_impl; [exact Hf|]. intros f (H1 & H2 & H3). split; [by apply (ff_ok_grows ir)|]. split; [done|].
  eapply flat_fits_grows; [done| |done]. apply Hc.
Qed.

Lemma all_compiled_cons ir ir1 ir2 n0 ch0 fs acts l :
  n0 ∉ l.*1 → get_choice ir n0 = Some ch0 →
  compiled ir ir1 n0 (choice_value_type ch0) fs acts → all_compiled ir1 ir2 l → all_compiled ir ir2 ((n0, fs) :: l).
Proof.
  intros Hn Hg (Hgr1 & Hr1 & Ha1 & Hx1) (Hgr2 & Hx2). split; [by etrans|]. intros n ch2 Hg2.
  destruct (Hx2 n ch2 Hg2) as (ch1 & acts1 & Hg1 & Hfa1 & Hsem1).
  destruct (get_choice_back ir ir1 Hgr1 n ch1 Hg1) as (ch & Hgn & Hch).
  specialize (Ha1 n). rewrite Hg1, Hgn in Ha1. cbn in Ha1.
  assert (∀ env v, value_ok ir (choice_value_type ch) v →
    Forall (action_allows ir2 env v) acts1 ↔ Forall (ff_allows ir I env v) (filters_for l n)) as Hsem.
  { intros env v Hv. rewrite Hsem1.
    - apply Forall_iff. intros f. by apply ff_allows_grows.
    - apply (value_ok_grows ir ir1 Hgr1). unfold choice_value_type in *. by rewrite (grows_def _ _ Hch). }
  setoid_rewrite filters_for_cons. case_decide as En.
  - subst n0. assert (ch = ch0) as -> by congruence. exists ch0, (acts ++ acts1). split; [done|]. split.
    { rewrite Hfa1. injection Ha1 as ->. by rewrite app_assoc. }
    intros env v Hv. rewrite Forall_app, (Hsem env v Hv), (filters_for_none l n Hn), Forall_nil.
    rewrite <-(Hx1 env v Hv), (right_id True and).
    split; intros H; (eapply Forall_impl; [exact (proj2 (Forall_and _ acts) (conj Hr1 H))|]); intros act [Hr Ha];
      by apply (action_allows_grows ir1 ir2 env v act Hgr2 Hr).
  - exists ch, acts1. split; [done|]. split; [|done]. rewrite Hfa1. by injection Ha1 as ->.
Qed.

Lemma compile_choices_exact ir l :
  compiling ir → NoDup l.*1 → Forall (λ x, choice_filters_ok ir x.1 x.2) l →
  ∃ ir', foldM compile_choice l ir = Some ir' ∧ all_compiled ir ir' l.
Proof.
  intros Hc Hnd Hl. revert ir Hc Hl. induction l as [|[n0 fs] l IH]; intros ir Hc Hl.
  { exists ir. split; [done|]. split; [done|]. intros n ch Hg. exists ch, []. split; [done|].
    by rewrite app_nil_r. }
  cbn [fmap list_fmap fst] in Hnd. apply NoDup_cons in Hnd as [Hn Hnd].
  apply Forall_cons in Hl as [(ch & Hg & Hf) Hl]. cbn [fst snd] in Hg, Hf.
  destruct (compile_choice_exact ir n0 ch fs Hc Hg Hf) as (ir1 & acts & E1 & Hcomp). pose proof Hcomp as [Hgr1 _].
  destruct (IH Hnd ir1 (compiling_grows ir ir1 Hgr1 Hc)) as (ir2 & E2 & Hall).
  { eapply Forall_impl; [exact Hl|]. intros x. by apply choice_filters_ok_grows. }
  exists ir2. cbn [foldM]. rewrite E1. cbn [mbind option_bind]. split; [done|].
  by apply (all_compiled_cons ir ir1 ir2 n0 ch fs acts l).
Qed.

(** ** Collecting the flat filters *)

Definition values_of (m : MultiHashMap (K := string) (V := FlatFilter)) (n : string) : list FlatFilter :=
  default [] (mm_map m !! n).

Lemma values_of_insert n f m n' g :
  g ∈ values_of (mm_insert n f m) n' ↔ g ∈ values_of m n' ∨ (n' = n ∧ g = f).
Proof.
  unfold values_of, mm_insert. cbn [mm_map]. destruct (decide (n' = n)) as [->|Hne].
  - rewrite lookup_insert_eq. cbn. rewrite elem_of_app, list_elem_of_singleton. tauto.
  - rewrite lookup_insert_ne by done. tauto.
Qed.

Lemma values_of_inserts new m n f :
  f ∈ values_of (foldl (λ m '(choice, f), mm_insert choice f m) m new) n ↔ f ∈ values_of m n ∨ (n, f) ∈ new.
Proof.
  revert m. induction new as [|[n0 f0] new IH]; intros m; cbn [foldl]; [set_solver|].
  rewrite IH, values_of_insert, elem_of_cons. split; [|intros [?|[[= -> ->]|?]]; tauto].
  intros [[?|[-> ->]]|?]; tauto.
Qed.

Lemma mm_wf_inserts new (m : MultiHashMap (K := string) (V := FlatFilter)) :
  mm_wf m → mm_wf (foldl (λ m '(choice, f), mm_insert choice f m) m new).
Proof.
  revert m. induction new as [|[n f] new IH]; intros m Hm; [done|]. cbn [foldl]. by apply IH, mm_insert_wf.
Qed.

Lemma collect_filters_exact ir cs :
  Forall (λ c, is_Some (constraint_filters ir c)) cs →
  ∃ m, collect_filters ir cs = Some m ∧ mm_wf m ∧
    ∀ n f, f ∈ values_of m n ↔ ∃ c l, c ∈ cs ∧ constraint_filters ir c = Some l ∧ (n, f) ∈ l.
Proof.
  intros Hcs. unfold collect_filters.
  assert (∀ m, mm_wf m → ∃ m', foldM (λ filters c, new ← constraint_filters ir c;
      Some (foldl (λ filters '(choice, f), mm_insert choice f filters) filters new)) cs m = Some m' ∧ mm_wf m' ∧
    ∀ n f, f ∈ values_of m' n ↔ f ∈ values_of m n ∨ ∃ c l, c ∈ cs ∧ constraint_filters ir c = Some l ∧ (n, f) ∈ l) as H.
  { induction Hcs as [|c cs [l Hl] _ IH]; intros m Hm.
    - exists m. split; [done|]. split; [done|]. intros n f. split; [by left|].
      intros [?|(c & l & ?%elem_of_nil & _)]; done.
    - cbn [foldM]. rewrite Hl. cbn [mbind option_bind].
      destruct (IH (foldl (λ filters '(choice, f), mm_insert choice f filters) m l) (mm_wf_inserts l m Hm)) as (m' & E & Hw & Hx).
      exists m'. split; [done|]. split; [done|]. intros n f. rewrite Hx, values_of_inserts. split.
      + intros [[?|?]|(c' & l' & ? & ? & ?)]; [by left|right; exists c, l|right; exists c', l'];
          (split; [|done]); [left|by right].
      + intros [?|(c' & l' & [->|?]%elem_of_cons & E' & ?)]; [by left; left| |right; by exists c', l'].
        left. right. congruence. }
  destruct (H mm_default) as (m & E & Hw & Hx).
  { intros k. cbn. by rewrite lookup_empty. }
  exists m. split; [done|]. split; [done|]. intros n f. rewrite Hx.
  assert (f ∉ values_of mm_default n) as Hn; [|tauto]. unfold values_of, mm_default, mm_with_hasher. cbn.
  rewrite lookup_empty. apply not_elem_of_nil.
Qed.

(** ** The whole of it *)

(** What is asked of a constraint: once its inputs are deduplicated it is well scoped, and
    its flat filters suit their choices. *)
Definition constraint_fits (ir : IrDesc) (c : Constraint) : Prop :=
  constraint_ok ir c ∧ ∃ c', constraint_dedup_inputs ir c = Some c' ∧ closed c' ∧ well_scoped ir U I c' ∧
    restrict_fragile c' = true ∧ c_inputs c' ≠ [] ∧
    ∀ l n ch f, gen_filters ir c' = Some l → (n, f) ∈ l → get_choice ir n = Some ch →
      mergeable f ∧ flat_fits ir ch f.

(** All the flat filters of a constraint allow the values of their choices. *)
Definition flat_filters_allow (ir : IrDesc) (l : list (string * FlatFilter)) : Prop :=
  ∀ n f ch env, (n, f) ∈ l → get_choice ir n = Some ch → args_in_sets I env ch →
    ff_allows ir I env (own_value I env n ch) f.

Lemma constraint_filters_exact ir c :
  compiling ir → constraint_fits ir c →
  ∃ l, constraint_filters ir c = Some l ∧
    (∀ n f, (n, f) ∈ l → ∃ ch, get_choice ir n = Some ch ∧
      ff_ok ir (choice_value_type ch) f ∧ mergeable f ∧ flat_fits ir ch f) ∧
    ((∀ env, env_domain I env (constraint_env (c_vars c)) → constraint_holds ir I env c) ↔ flat_filters_allow ir l).
Proof.
  intros [Hir Hch HI HU] (Hok & c' & E & Hcl & Hsc & Hr & Hne & Hf).
  destruct (constraint_dedup_inputs_exact ir Hir Hch c Hok) as (c1 & E1 & Hok1 & Hv & _ & _ & _ & Hx).
  rewrite E in E1. injection E1 as <-.
  destruct (gen_filters_exact ir Hir Hch U I HI HU c' Hcl (constraint_inputs_ok _ _ Hok1) Hsc Hr Hne) as (l & El & Hl & Hiff).
  exists l. unfold constraint_filters. rewrite E. cbn [mbind option_bind]. split; [done|]. split.
  - intros n f Hnf. destruct (Hl n f Hnf) as (ch & Hg & Hff). exists ch. split; [done|]. split; [done|].
    by apply (Hf l n ch f).
  - unfold flat_filters_allow. rewrite <-Hiff, Hv.
    split; intros H env Hd; apply (Hx Obj I env HI); by apply H.
Qed.

(** No filter has been added yet. *)
Definition no_actions (ir : IrDesc) : Prop := ∀ n ch, get_choice ir n = Some ch → filter_actions ch = [].

(** The actions of a choice allow the value that it has, on all its arguments. *)
Definition actions_allow (ir : IrDesc) : Prop :=
  ∀ n ch act env, get_choice ir n = Some ch → act ∈ filter_actions ch → args_in_sets I env ch →
    action_allows ir env (own_value I env n ch) act.

Lemma own_value_arguments env n ch ch' : arguments ch' = arguments ch → own_value I env n ch' = own_value I env n ch.
Proof. intros H. unfold own_value. by rewrite H. Qed.

(** The actions of the choices are the compiled flat filters of the constraints. *)
Lemma process_actions ir ir' (cs : list Constraint) m :
  compiling ir → no_actions ir →
  (∀ n f, f ∈ values_of m n ↔ ∃ c l, c ∈ cs ∧ constraint_filters ir c = Some l ∧ (n, f) ∈ l) →
  (∀ n, filters_for (mm_into_iter m) n = values_of m n) → all_compiled ir ir' (mm_into_iter m) →
  actions_allow ir' ↔ ∀ c l, c ∈ cs → constraint_filters ir c = Some l → flat_filters_allow ir l.
Proof.
  intros [Hir Hch HI HU] Hna Hm Hfor [Hgr Hall].
  assert (∀ n ch ch' env, get_choice ir n = Some ch → get_choice ir' n = Some ch' →
    (∀ act, act ∈ filter_actions ch' → action_allows ir' env (own_value I env n ch') act) ↔
    Forall (ff_allows ir I env (own_value I env n ch)) (values_of m n)) as H.
  { intros n ch ch' env Hg Hg'. destruct (Hall n ch' Hg') as (ch0 & acts & Hg0 & Hfa & Hx).
    assert (ch0 = ch) as -> by congruence. rewrite Hfa, (Hna n ch Hg), app_nil_l, <-Forall_forall, <-Hfor.
    destruct (grows_choices _ _ Hgr n ch Hg) as (ch1 & Hg1 & Hc1). assert (ch1 = ch') as -> by congruence.
    rewrite (own_value_arguments env n ch ch' (grows_arguments _ _ Hc1)). apply Hx.
    by apply own_value_ok. }
  split.
  - intros Hact c l Hcc El n f ch env Hnf Hg Ha. destruct (grows_choices _ _ Hgr n ch Hg) as (ch' & Hg' & Hc).
    assert (Forall (ff_allows ir I env (own_value I env n ch)) (values_of m n)) as Hf.
    { apply (H n ch ch' env Hg Hg'). intros act Hin. apply (Hact n ch' act env Hg' Hin).
      unfold args_in_sets. by rewrite (grows_arguments _ _ Hc). }
    rewrite Forall_forall in Hf. apply Hf, Hm. by exists c, l.
  - intros Hfl n ch' act env Hg' Hin Ha. destruct (get_choice_back ir ir' Hgr n ch' Hg') as (ch & Hg & Hc).
    revert act Hin. apply (H n ch ch' env Hg Hg'). apply Forall_forall. intros f (c & l & Hcc & El & Hnf)%Hm.
    apply (Hfl c l Hcc El n f ch env Hnf Hg). unfold args_in_sets in *. by rewrite <-(grows_arguments _ _ Hc).
Qed.

Lemma process_filters_exact ir (cs : list Constraint) :
  compiling ir → no_actions ir → Forall (constraint_fits ir) cs →
  ∃ ir', process_filters ir cs = Some ir' ∧
    ((∀ c env, c ∈ cs → env_domain I env (constraint_env (c_vars c)) → constraint_holds ir I env c) ↔
     actions_allow ir').
Proof.
  intros Hc Hna Hcs. pose proof Hc as [Hir Hch HI HU].
  assert (∀ c, c ∈ cs → ∃ l, constraint_filters ir c = Some l ∧
    (∀ n f, (n, f) ∈ l → ∃ ch, get_choice ir n = Some ch ∧
      ff_ok ir (choice_value_type ch) f ∧ mergeable f ∧ flat_fits ir ch f) ∧
    ((∀ env, env_domain I env (constraint_env (c_vars c)) → constraint_holds ir I env c) ↔ flat_filters_allow ir l)) as Hl.
  { intros c Hcc. rewrite Forall_forall in Hcs. by apply constraint_filters_exact, Hcs. }
  destruct (collect_filters_exact ir cs) as (m & Em & Hwf & Hm).
  { apply Forall_forall. intros c Hcc. destruct (Hl c Hcc) as (l & -> & _). by eexists. }
  assert (∀ n, filters_for (mm_into_iter m) n = values_of m n) as Hfor.
  { intros n. unfold filters_for, values_of, mm_into_iter. by rewrite list_to_map_to_list. }
  destruct (compile_choices_exact ir (mm_into_iter m) Hc (NoDup_fst_map_to_list _)) as (ir' & E & Hgr & Hall).
  { apply Forall_forall. intros [n fs] Hn. cbn [fst snd]. apply elem_of_map_to_list in Hn.
    assert (∀ f, f ∈ fs → ∃ ch, get_choice ir n = Some ch ∧
      ff_ok ir (choice_value_type ch) f ∧ mergeable f ∧ flat_fits ir ch f) as Hfs.
    { intros f Hf. assert (f ∈ values_of m n) as Hv by (unfold values_of; by rewrite Hn).
      apply Hm in Hv as (c & l & Hcc & El & Hnf). destruct (Hl c Hcc) as (l' & El' & Hx & _).
      rewrite El in El'. injection El' as <-. by apply Hx. }
    destruct fs as [|f0 fs]; [by destruct (Hwf n)|]. destruct (Hfs f0 ltac:(left)) as (ch & Hg & _).
    exists ch. split; [done|]. apply Forall_forall. intros f Hf. destruct (Hfs f Hf) as (ch' & Hg' & Hx).
    assert (ch' = ch) as -> by congruence. done. }
  exists ir'. unfold process_filters. rewrite Em. cbn [mbind option_bind]. split; [done|].
  assert (actions_allow ir' ↔ ∀ c l, c ∈ cs → constraint_filters ir c = Some l → flat_filters_allow ir l) as ->.
  { apply (process_actions ir ir' cs m); done. }
  split.
  - intros H c l Hcc El. destruct (Hl c Hcc) as (l' & El' & _ & Hiff). rewrite El in El'. injection El' as <-.
    apply Hiff. intros env. by apply H.
  - intros H c env Hcc. destruct (Hl c Hcc) as (l & El & _ & Hiff). revert env. apply Hiff. by apply (H c).
Qed.
End compile.
