(* ===== verification/Generator.v ===== *)
(** * The constraint compiler as a whole

    The theorems about the passes that turn constraints into filters: environments seen
    from a choice, flat filters, their merge, their compilation and their registration;
    with the transitivity of an order as a running example. *)
From S2P Require Import Prelude Utils MultiMap Permutations Orders GenSets Filters FilterSemantics TruthTable Adapting Instances Environments FlatFilters Constraints ConstraintFilters Registering Compiling.

(** ** An example: a transitive order

    An antisymmetric choice on the pairs of a set, whose values are before, after and
    same. *)
Definition ord_def : SetDef := setdef_build "Stmt" None None ReverseNone [] [].
Definition ord_set : GSet := mkSet ord_def None None.

Definition ord_enum : Enum :=
  mkEnum "Order" None [("BEFORE", None); ("AFTER", None); ("SAME", None)] [] (Some [("BEFORE", "AFTER")])%string.

Definition ord_choice : Choice :=
  mkChoice "order" None (Symmetric ("lhs", "rhs") ord_set true) (DefEnum "Order") [] [] [] (VSEnum "Order" ∅ ∅).

Definition ord_desc : IrDesc :=
  mkIrDesc [("order", ord_choice)] [("Order", ord_enum)] [("Stmt", (ord_def, mkOnNewObject []))] [].

Definition ord_inst (x y : nat) : ChoiceInstance := mkChoiceInstance "order" [ForallVar x; ForallVar y].

(** Forall a, b, c: a is not before b, or b is not before c, or a is before c. *)
Definition ord_constraint : Constraint :=
  mkConstraint [ord_set; ord_set; ord_set] [ord_inst 0 1; ord_inst 1 2; ord_inst 0 2]
    [CEnum 0 {["BEFORE"]} true false; CEnum 1 {["BEFORE"]} true false; CEnum 2 {["BEFORE"]} false false]%string true.

(** The objects are the numbers, ordered as numbers. *)
Definition ord_value (objs : list nat) : string :=
  (match objs with
   | [x; y] => if Nat.ltb x y then "BEFORE" else if Nat.ltb y x then "AFTER" else "SAME"
   | _ => "SAME"
   end)%string.

Definition ord_interp : Interp nat := {|
  i_val _ objs := VEnum (ord_value objs);
  i_bool _ _ := true;
  i_num _ _ := 0%Z;
  i_den name param _ := name = "Stmt"%string ∧ param = None
|}.

Definition ord_universe (d : SetDef) : Prop := d = ord_def.

Lemma ord_get_choice n ch : get_choice ord_desc n = Some ch → n = "order"%string ∧ ch = ord_choice.
Proof. unfold get_choice. cbn. case_decide as E; [|done]. intros [= <-]. by rewrite <-E. Qed.

Lemma ord_get_enum n e : get_enum ord_desc n = Some e → n = "Order"%string ∧ e = ord_enum.
Proof. unfold get_enum. cbn. case_decide as E; [|done]. intros [= <-]. by rewrite <-E. Qed.

Lemma ord_choice_enum n e : choice_enum ord_desc n = Some e → n = "order"%string ∧ e = ord_enum.
Proof.
  unfold choice_enum. destruct (get_choice ord_desc n) as [ch|] eqn:E; [|done].
  apply ord_get_choice in E as [-> ->]. cbn [mbind option_bind choice_def ord_choice def_as_enum].
  intros H. split; [done|]. by apply ord_get_enum in H as [_ ->].
Qed.

Lemma ord_desc_ok : desc_ok ord_desc.
Proof.
  intros n e [-> ->]%ord_get_enum. split; [done|]. apply (bool_decide_unpack _). by vm_compute.
Qed.

Lemma ord_choices_ok : choices_ok ord_desc.
Proof.
  intros n ch [-> ->]%ord_get_choice. constructor; cbn.
  - done.
  - intros n [= <-]. by eexists.
  - intros names t _. by eexists.
  - by repeat constructor; cbn; try (intros []; done).
Qed.

Lemma ord_interp_ok : interp_ok ord_desc ord_interp.
Proof.
  constructor; [| | |done|done].
  - intros n e objs [-> ->]%ord_choice_enum. eexists. split; [done|].
    change (ord_value objs ∈ ["BEFORE"; "AFTER"; "SAME"]%string). unfold ord_value.
    destruct objs as [|x [|y [|]]]; [set_solver..| |set_solver].
    destruct (Nat.ltb x y); [set_solver|]. destruct (Nat.ltb y x); set_solver.
  - by intros n ch objs [-> ->]%ord_get_choice.
  - intros n ch names t inverse x y [-> ->]%ord_get_choice [= <- <- <-].
    change (VEnum (ord_value [y; x]) = VEnum (enum_inverse ord_enum (ord_value [x; y]))). unfold ord_value.
    destruct (Nat.ltb x y) eqn:E1, (Nat.ltb y x) eqn:E2; try (by vm_compute).
    apply Nat.ltb_lt in E1, E2. lia.
Qed.

Lemma ord_reversible : reversible_sets (get_set_def ord_desc) ord_universe ord_interp.
Proof.
  unfold ord_universe. constructor; [|by intros d r ->|by intros d r x y ->|by intros d r s x y env ->].
  constructor; [by intros d s ->| | | |].
  - by intros d d' a o -> ->.
  - by intros d s a o ->.
  - by intros d d' a a' o -> ->.
  - by intros d d' a a' o -> -> _ _ [_ ->] [_ ->].
Qed.

Lemma ord_compiling : compiling ord_universe ord_interp ord_desc.
Proof.
  constructor; [apply ord_desc_ok|apply ord_choices_ok|apply ord_interp_ok|apply ord_reversible].
Qed.

Lemma ord_good_set : good_set ord_universe ord_set.
Proof. split; [by split|]. split; [|done]. by intros []. Qed.

(** A pair of variables, where all variables range over the set. *)
Lemma ord_env_ok (vars : gmap Var GSet) x y :
  (∀ v s, vars !! v = Some s → s = ord_set) → x ≠ y → is_Some (vars !! x) → is_Some (vars !! y) →
  env_ok ord_desc ord_universe vars (mkChoiceInstance "order" [x; y]) ord_choice.
Proof.
  intros Hs Hne Hx Hy. constructor; [done|done| | | |].
  - repeat constructor; [|by intros ?%elem_of_nil]. by intros ->%list_elem_of_singleton.
  - cbn. intros v [->|[->|[]%elem_of_nil]%elem_of_cons]%elem_of_cons; done.
  - intros v s ->%Hs. apply ord_good_set.
  - by intros v s u _ ->%Hs.
Qed.

Lemma ord_vars v s : constraint_env (c_vars ord_constraint) !! v = Some s → s = ord_set.
Proof.
  intros (i & -> & Hi)%constraint_env_lookup. by destruct i as [|[|[|i]]]; inversion Hi.
Qed.

Lemma ord_bound i : i < 3 → is_Some (constraint_env (c_vars ord_constraint) !! ForallVar i).
Proof. intros Hi. exists ord_set. apply constraint_env_lookup. exists i. split; [done|]. destruct i as [|[|[|]]]; [done..|lia]. Qed.

Lemma ord_inputs id inst :
  c_inputs ord_constraint !! id = Some inst → ∃ x y, inst = ord_inst x y ∧ x ≠ y ∧ x < 3 ∧ y < 3.
Proof.
  destruct id as [|[|[|id]]]; cbn; intros [= <-]; [exists 0, 1|exists 1, 2|exists 0, 2]; split_and!; done || lia.
Qed.

Lemma ord_closed : closed ord_constraint.
Proof.
  constructor.
  - intros i x [id Hid]%list_elem_of_lookup. apply ord_inputs in Hid as (a & b & -> & _ & Ha & Hb).
    intros [->|[->|[]%elem_of_nil]%elem_of_cons]%elem_of_cons; by apply ord_bound.
  - intros d x Hd. cbn in Hd. rewrite !elem_of_cons in Hd. destruct Hd as [->|[->|[->|[]%elem_of_nil]]]; by intros ?%elem_of_nil.
  - intros s x Hs. cbn in Hs. rewrite !elem_of_cons in Hs. destruct Hs as [->|[->|[->|[]%elem_of_nil]]]; by intros ?%elem_of_nil.
Qed.

Lemma ord_constraint_ok : constraint_ok ord_desc ord_constraint.
Proof.
  constructor.
  - repeat constructor; eexists; done.
  - split; repeat constructor; cbn; try lia; by eexists.
Qed.

Lemma ord_fits id c :
  id < 3 → c ∈ c_conditions ord_constraint → cond_fits ord_desc (c_inputs ord_constraint) id (TyEnum "Order") c.
Proof.
  intros Hid Hc. cbn in Hc. rewrite !elem_of_cons in Hc.
  assert (∃ i neg, i < 3 ∧ c = CEnum i {["BEFORE"%string]} neg false) as (i & neg & Hi & ->).
  { destruct Hc as [->|[->|[->|[]%elem_of_nil]]]; do 2 eexists; (split; [|reflexivity]); lia. }
  assert (input_enum ord_desc (c_inputs ord_constraint) i = Some ord_enum) as E by (destruct i as [|[|[|]]]; [done..|lia]).
  constructor.
  - by exists ord_enum.
  - intros e He. assert (e = ord_enum) as -> by congruence.
    change (value_keys ord_enum) with ["BEFORE"; "AFTER"; "SAME"]%string. set_solver.
  - done.
  - by apply Forall_singleton.
Qed.

Lemma ord_fragile : fragile_ok ord_desc ord_choice.
Proof.
  constructor; [|by intros e _|done]. intros inputs. split; [done|]. exists ord_enum. split; [done|].
  by intros i neg inv ?%elem_of_empty.
Qed.

Lemma ord_input_ok id inst :
  c_inputs ord_constraint !! id = Some inst → input_ok ord_desc ord_universe ord_constraint id inst ord_choice.
Proof.
  intros Hid. pose proof (ord_inputs id inst Hid) as (x & y & -> & Hne & Hx & Hy). constructor.
  - done.
  - apply ord_env_ok; [apply ord_vars|congruence|by apply ord_bound|by apply ord_bound].
  - apply Forall_forall. intros c Hc. apply ord_fits; [by apply lookup_lt_Some in Hid|done].
  - apply ord_fragile.
Qed.

Lemma ord_scoped : well_scoped ord_desc ord_universe ord_interp ord_constraint.
Proof.
  constructor.
  - intros id inst Hid. exists ord_choice. by apply ord_input_ok.
  - intros id inst ch env Hid [_ ->]%ord_get_choice _ k given Hk.
    assert (given = ord_set) as -> by (by destruct k as [|[|]]; inversion Hk). done.
  - by intros id inst ch names s inverse _ [_ ->]%ord_get_choice [= <- <- <-].
Qed.

(** The flat filters of the constraint are on two pairs of the arguments of the choice
    and of a third object. *)
Definition ord_pair (c : ChoiceInstance) : Prop :=
  ∃ x y, c = mkChoiceInstance "order" [x; y] ∧ x ≠ y ∧ x ∈ filter_vars 2 1 ∧ y ∈ filter_vars 2 1.

Definition ord_pairb (c : ChoiceInstance) : bool :=
  match ci_vars c with
  | [x; y] => bool_decide (ci_choice c = "order"%string) && bool_decide (x ≠ y) &&
      bool_decide (x ∈ filter_vars 2 1) && bool_decide (y ∈ filter_vars 2 1)
  | _ => false
  end.

Lemma ord_pairb_spec c : ord_pairb c = true → ord_pair c.
Proof.
  destruct c as [n [|x [|y [|]]]]; try done. unfold ord_pairb. cbn [ci_vars ci_choice].
  rewrite !andb_true_iff, !bool_decide_eq_true. intros (((-> & Hne) & Hx) & Hy). by exists x, y.
Qed.

Definition ord_args : list GSet := [ord_set; ord_set].

Lemma ord_var_list v s : (v, s) ∈ var_list ord_args [ord_set] → s = ord_set.
Proof.
  intros H%elem_of_var_list. destruct v as [i|i]; [by destruct i as [|[|]]; inversion H|by destruct i; inversion H].
Qed.

Lemma ord_filter_bound x :
  x ∈ filter_vars 2 1 → is_Some ((list_to_map (var_list ord_args [ord_set]) : gmap Var GSet) !! x).
Proof.
  intros Hx. change (filter_vars 2 1) with (filter_vars (length ord_args) (length [ord_set])) in Hx.
  rewrite <-var_list_fst in Hx. apply list_elem_of_fmap in Hx as ([v s] & -> & Hv). exists s. by apply lookup_var_list.
Qed.

Lemma ord_pair_callable c :
  ord_pair c → callable ord_universe ord_desc (list_to_map (var_list ord_args [ord_set])) c.
Proof.
  intros (x & y & -> & Hne & Hx & Hy). split; [by exists ord_choice|].
  assert (∀ v s, (list_to_map (var_list ord_args [ord_set]) : gmap Var GSet) !! v = Some s → s = ord_set) as Hs
    by (intros v s H%lookup_var_list; by apply ord_var_list in H).
  intros i [->|[->|[]%elem_of_nil]%elem_of_cons]%elem_of_cons; exists ord_choice;
    (apply ord_env_ok; [done|done| |]; by apply ord_filter_bound).
Qed.

Lemma ord_no_vars v s x : (v, s) ∈ var_list ord_args [ord_set] → x ∉ set_vars s.
Proof. intros ->%ord_var_list. apply not_elem_of_nil. Qed.

Lemma ord_flat_fits f :
  ff_vars f = [ord_set] → ff_set_constraints f = [] → Forall ord_pair (ff_inputs f) →
  mergeable f ∧ flat_fits ord_universe ord_desc ord_choice f.
Proof.
  intros Hv Hs Hi. split.
  { unfold mergeable. rewrite Hv, Hs. split; [|done]. by apply Forall_singleton. }
  exists ord_args. rewrite Hv, Hs. constructor.
  - done.
  - split; [constructor|done].
  - eapply Forall_impl; [exact Hi|]. apply ord_pair_callable.
  - intros i set Hset. assert (set = ord_set) as -> by (by destruct i; inversion Hset). by constructor; [|eexists|].
  - cbn. split_and!; try done; by intros x ?%elem_of_nil.
  - by intros v s x Hvs Hx%(ord_no_vars v).
Qed.

Lemma ord_gen_fits l n f :
  gen_filters ord_desc ord_constraint = Some l → (n, f) ∈ l →
  mergeable f ∧ flat_fits ord_universe ord_desc ord_choice f.
Proof.
  intros E Hf.
  assert (Forall (λ x, ff_vars x.2 = [ord_set] ∧ ff_set_constraints x.2 = [] ∧ Forall (λ c, ord_pairb c = true) (ff_inputs x.2)) l) as H.
  { vm_compute in E. injection E as <-. by repeat constructor. }
  rewrite Forall_forall in H. destruct (H _ Hf) as (H1 & H2 & H3). apply ord_flat_fits; [done|done|].
  eapply Forall_impl; [exact H3|]. apply ord_pairb_spec.
Qed.

Lemma ord_constraint_fits : constraint_fits ord_universe ord_interp ord_desc ord_constraint.
Proof.
  split; [apply ord_constraint_ok|]. exists ord_constraint.
  split; [by vm_compute|]. split; [apply ord_closed|]. split; [apply ord_scoped|]. split; [done|]. split; [done|].
  intros l n ch f E Hf [_ ->]%ord_get_choice. by apply (ord_gen_fits l n).
Qed.

(** The order of the numbers is transitive. *)
Lemma ord_before objs :
  bool_decide (ord_value objs ∈ ({["BEFORE"]} : gset string)%string) = bool_decide (ord_value objs = "BEFORE"%string).
Proof. apply bool_decide_ext. apply elem_of_singleton. Qed.

Lemma ord_cond env id a b neg :
  c_inputs ord_constraint !! id = Some (ord_inst a b) →
  cond_holds ord_desc (c_inputs ord_constraint) (env_world ord_interp env (c_inputs ord_constraint))
    (CEnum id {["BEFORE"%string]} neg false) = xorb neg (Nat.ltb (env (ForallVar a)) (env (ForallVar b))).
Proof.
  intros Hid. cbn [cond_holds]. unfold input_value. cbn [w_input env_world]. rewrite Hid.
  unfold inst_value. cbn [from_option i_val ord_interp ci_vars ci_choice ord_inst fmap list_fmap].
  rewrite ord_before. f_equal. unfold ord_value. destruct (Nat.ltb (env _) (env _)) eqn:E; [reflexivity|].
  by destruct (Nat.ltb (env (ForallVar b)) _).
Qed.

Lemma ord_transitive env :
  env_domain ord_interp env (constraint_env (c_vars ord_constraint)) →
  constraint_holds ord_desc ord_interp env ord_constraint.
Proof.
  intros _. unfold constraint_holds, some_holds. rewrite Exists_exists.
  destruct (Nat.ltb (env (ForallVar 0)) (env (ForallVar 1))) eqn:Exy.
  2: { exists (CEnum 0 {["BEFORE"%string]} true false). rewrite (ord_cond env 0 0 1), Exy by done. split; [left|done]. }
  destruct (Nat.ltb (env (ForallVar 1)) (env (ForallVar 2))) eqn:Eyz.
  2: { exists (CEnum 1 {["BEFORE"%string]} true false). rewrite (ord_cond env 1 1 2), Eyz by done. split; [right; left|done]. }
  exists (CEnum 2 {["BEFORE"%string]} false false). rewrite (ord_cond env 2 0 2) by done. split; [right; right; left|].
  apply Nat.ltb_lt in Exy, Eyz. apply Nat.ltb_lt. lia.
Qed.

(** ** From constraints to filters *)

(** C7: The constraint compiler is exact.  For constraints whose flat filters suit their
    choices, the passes of [process] (removing duplicate inputs, one flat filter per
    input and its inverse for symmetric choices, merging, truth tables, registration)
    succeed, and the constraints hold for all objects exactly when, for every choice and
    all its arguments, the filters attached to the choice allow the value it has. *)
Theorem process_filters_correct {Obj : Type} (U : SetDef → Prop) (I : Interp Obj) (ir : IrDesc)
    (cs : list Constraint) :
  compiling U I ir → no_actions ir → Forall (constraint_fits U I ir) cs →
  ∃ ir', process_filters ir cs = Some ir' ∧
    ((∀ c env, c ∈ cs → env_domain I env (constraint_env (c_vars c)) → constraint_holds ir I env c) ↔
     actions_allow I ir').
Proof. apply process_filters_exact. Qed.

Lemma process_filters_correct_witness :
  ∃ ir', process_filters ord_desc [ord_constraint] = Some ir' ∧ actions_allow ord_interp ir'.
Proof.
  destruct (process_filters_correct ord_universe ord_interp ord_desc [ord_constraint]) as (ir' & E & H).
  - apply ord_compiling.
  - by intros n ch [-> ->]%ord_get_choice.
  - apply Forall_singleton. apply ord_constraint_fits.
  - exists ir'. split; [exact E|]. apply H. intros c env ->%list_elem_of_singleton. apply ord_transitive.
Defined.

Lemma ord_args_in_sets env : args_in_sets ord_interp env ord_choice.
Proof.
  intros k given Hk. assert (given = ord_set) as -> by (by destruct k as [|[|]]; inversion Hk). done.
Qed.

(** C10: The flat filter of an input is exact.  [gen_flat_filter] never panics on an input
    whose instance suits the variables of the constraint.  The filter it returns allows a
    value for some arguments exactly when the constraint would hold with that value for
    all the objects of the other variables (or the value is fragile and the constraint
    must not restrict it); without a filter the constraint would hold with any value. *)
Theorem gen_flat_filter_correct {Obj : Type} (U : SetDef → Prop) (I : Interp Obj) (ir : IrDesc)
    (c : Constraint) (id : nat) (inst : ChoiceInstance) (ch : Choice) :
  compiling U I ir → closed c → Forall (instance_ok ir) (c_inputs c) → input_ok ir U c id inst ch →
  ∃ o, gen_flat_filter ir c id = Some o ∧
    ∀ env v, args_in_sets I env ch → value_ok ir (choice_value_type ch) v →
      (from_option (ff_allows ir I env v) True o ↔ would_hold ir I c id inst ch env v).
Proof.
  intros [Hir Hch HI HU] Hcl Hin Hok.
  destruct (gen_flat_filter_exact ir Hir Hch U I HI HU c id inst ch Hcl Hin Hok) as (o & E & Ho).
  exists o. split; [done|]. intros env v Ha Hv. destruct o as [f|]; cbn [from_option].
  - by apply Ho.
  - split; [by intros _; apply Ho|done].
Qed.

Lemma gen_flat_filter_correct_witness :
  ∃ o, gen_flat_filter ord_desc ord_constraint 2 = Some o ∧
    ∀ env, from_option (ff_allows ord_desc ord_interp env (VEnum "AFTER"%string)) True o ↔
      would_hold ord_desc ord_interp ord_constraint 2 (ord_inst 0 2) ord_choice env (VEnum "AFTER"%string).
Proof.
  destruct (gen_flat_filter_correct ord_universe ord_interp ord_desc ord_constraint 2 (ord_inst 0 2) ord_choice
    ord_compiling ord_closed (constraint_inputs_ok _ _ ord_constraint_ok) (ord_input_ok 2 (ord_inst 0 2) eq_refl))
    as (o & E & H).
  exists o. split; [exact E|]. intros env. apply H.
  - apply ord_args_in_sets.
  - exists ord_enum. split; [reflexivity|]. apply (bool_decide_unpack _). by vm_compute.
Defined.

(** ** Environments *)

(** C21: Adapting an environment to a choice is exact.  [adapt_env_ext] never panics on an
    instance with distinct variables; it renames the variables of the instance to the
    arguments and the other ones to new variables, and the sets it returns, with the
    parameters turned around where needed, hold the same objects as the original sets
    when the arguments are in the sets of the choice. *)
Theorem adapt_env_correct {Obj : Type} (U : SetDef → Prop) (I : Interp Obj) (ir : IrDesc)
    (vars : gmap Var GSet) (inst : ChoiceInstance) (ch : Choice) :
  compiling U I ir → env_ok ir U vars inst ch →
  ∃ afs os sc a, adapt_env_ext ir vars inst = Some (afs, os, sc, a) ∧ adapts_env a vars inst ∧
    length (afs ++ os) = length (other_vars vars inst) ∧
    ∀ env, guaranteed I env a vars inst ch →
      (env_domain I (λ v, env (adaptator_variable a v)) vars ↔ bound_domain I env (afs ++ os) sc).
Proof.
  intros [Hir _ _ HU] Hok.
  destruct (adapt_env_ext_exact ir U I vars inst ch HU Hok) as (afs & os & sc & a & E & Ha & Hl & _ & _ & H).
  by exists afs, os, sc, a.
Qed.

Lemma adapt_env_correct_witness :
  ∃ afs os sc a, adapt_env_ext ord_desc (constraint_env (c_vars ord_constraint)) (ord_inst 2 0) = Some (afs, os, sc, a) ∧
    length (afs ++ os) = length (other_vars (constraint_env (c_vars ord_constraint)) (ord_inst 2 0)).
Proof.
  destruct (adapt_env_correct ord_universe ord_interp ord_desc (constraint_env (c_vars ord_constraint)) (ord_inst 2 0)
    ord_choice ord_compiling) as (afs & os & sc & a & E & _ & Hl & _).
  - apply ord_env_ok; [apply ord_vars|done|apply ord_bound; lia|apply ord_bound; lia].
  - by exists afs, os, sc, a.
Defined.

(** ** Merging *)

(** C22: Merging flat filters preserves what they allow.  For well-typed filters whose sets
    do not depend on each other, [merge_filters] never panics, every filter it returns has
    the variables and the inputs of one of the given filters, and together they allow the
    same values for all arguments as the given filters. *)
Theorem merge_filters_correct {Obj : Type} (U : SetDef → Prop) (I : Interp Obj) (ir : IrDesc)
    (t : ValueType) (filters : list FlatFilter) :
  compiling U I ir → Forall (λ g, ff_ok ir t g ∧ mergeable g) filters →
  ∃ l, merge_filters ir filters = Some l ∧ Forall (λ g, ∃ f, f ∈ filters ∧ extends f g) l ∧
    ∀ env v, Forall (ff_allows ir I env v) l ↔ Forall (ff_allows ir I env v) filters.
Proof.
  intros [Hir Hch HI _] Hf.
  destruct (merge_filters_exact ir Hir Hch t filters Hf) as (l & E & _ & Hx & H).
  exists l. split; [done|]. split; [done|]. intros env v. by apply H.
Qed.

(** The flat filters of the transitive order. *)
Definition ord_filters : list FlatFilter :=
  match gen_filters ord_desc ord_constraint with Some l => snd <$> l | None => [] end.

Lemma ord_filters_ok : Forall (λ g, ff_ok ord_desc (TyEnum "Order") g ∧ mergeable g) ord_filters.
Proof.
  destruct (gen_filters_exact ord_desc ord_desc_ok ord_choices_ok ord_universe ord_interp ord_interp_ok ord_reversible
    ord_constraint ord_closed (constraint_inputs_ok _ _ ord_constraint_ok) ord_scoped eq_refl) as (l & E & Hok & _); [done|].
  unfold ord_filters. rewrite E. apply Forall_fmap, Forall_forall. intros [n f] Hf. unfold compose. cbn [snd].
  destruct (Hok _ _ Hf) as (ch & [-> ->]%ord_get_choice & Hff). split; [exact Hff|]. by apply (ord_gen_fits l "order").
Qed.

Lemma merge_filters_correct_witness :
  ∃ l, merge_filters ord_desc ord_filters = Some l ∧
    ∀ env v, Forall (ff_allows ord_desc ord_interp env v) l ↔ Forall (ff_allows ord_desc ord_interp env v) ord_filters.
Proof.
  destruct (merge_filters_correct ord_universe ord_interp ord_desc (TyEnum "Order") ord_filters ord_compiling ord_filters_ok)
    as (l & E & _ & H).
  exists l. split; [exact E|exact H].
Defined.

(** ** Registration *)

(** C11: A filter runs whenever its result may change.  [add_filter] succeeds for a filter
    whose inputs and quantified sets are known; afterwards, for all objects that the
    filter ranges over, a change of any of its inputs, seen from either side when the
    choice of the input is symmetric, calls the filter on these objects, and adding any
    of the quantified objects to its set runs the filter. *)
Theorem add_filter_registers_calls {Obj : Type} (U : SetDef → Prop) (I : Interp Obj) (ir : IrDesc)
    (choice : string) (ch : Choice) (f : Filter) (args foralls : list GSet) (sc : SetConstraints) :
  get_choice ir choice = Some ch → reversible_sets (get_set_def ir) U I → filter_inputs f ≠ [] →
  filter_fits U ir ch (filter_inputs f) args foralls sc →
  let vars := filter_vars (length args) (length foralls) in
  ∃ ir', add_filter choice f foralls sc ir = Some ir' ∧
    ∀ env, in_domain I env (var_list args foralls) →
      (∀ inst i, inst ∈ filter_inputs f → i ∈ changed_instances ir inst →
        change_calls I ir' (ci_choice inst) (env <$> ci_vars i) choice (length (filters ch)) (env <$> vars)) ∧
      (∀ i set, foralls !! i = Some set →
        new_object_runs I ir' (def_name (set_def set)) (env (ForallVar i)) (env <$> set_arg set)
          (FrFunction choice (length (filters ch)) vars) vars env).
Proof.
  intros Hg HU Hne Hfits vars.
  destruct (add_filter_exact U I ir choice ch f args foralls sc Hg HU) as (ir' & ref & E & _ & Href & _ & H);
    [done|exact Hfits|].
  unfold filter_reference in Href. destruct (filter_inputs f) as [|i0 l0] eqn:Ei; [done|]. subst ref.
  exists ir'. split; [exact E|]. intros env Hd. destruct (H env Hd) as [H1 H2]. split; [|exact H2].
  intros inst i Hi Hc. by apply (H1 inst i _ vars).
Qed.

(** A filter that reads the order of both arguments with a third object. *)
Definition ord_filter : Filter :=
  mkFilter [ord_set; ord_set; ord_set]
    [mkChoiceInstance "order" [Arg 0; ForallVar 0]; mkChoiceInstance "order" [Arg 1; ForallVar 0]] (Rules []).

Lemma ord_filter_fits : filter_fits ord_universe ord_desc ord_choice (filter_inputs ord_filter) ord_args [ord_set] [].
Proof.
  assert (flat_fits ord_universe ord_desc ord_choice (mkFlatFilter [ord_set] (filter_inputs ord_filter) [] [])) as [args H].
  { apply ord_flat_fits; [done|done|]. apply (Forall_impl (λ c, ord_pairb c = true)); [|apply ord_pairb_spec].
    by repeat constructor. }
  cbn [ff_inputs ff_vars ff_set_constraints] in H. pose proof (fits_constrained _ _ _ _ _ _ _ H) as [= <-]. exact H.
Qed.

Lemma add_filter_registers_calls_witness :
  ∃ ir', add_filter "order" ord_filter [ord_set] [] ord_desc = Some ir' ∧
    ∀ x y z : nat, change_calls ord_interp ir' "order" [z; y] "order" 0 [x; y; z].
Proof.
  destruct (add_filter_registers_calls ord_universe ord_interp ord_desc "order" ord_choice ord_filter ord_args [ord_set] []
    eq_refl ord_reversible) as (ir' & E & H); [done|apply ord_filter_fits|].
  exists ir'. split; [exact E|]. intros x y z.
  destruct (H (λ v, match v with Arg 0 => x | Arg _ => y | ForallVar _ => z end)) as [Hc _].
  { intros v s Hv. rewrite (ord_var_list _ _ Hv). by split. }
  apply (Hc (mkChoiceInstance "order" [Arg 1; ForallVar 0]) (mkChoiceInstance "order" [ForallVar 0; Arg 1])); [|by left].
  right. left.
Defined.

(** ** Merging filters whose sets depend on each other

    [try_merge] compares the sets of both filters before the variables of the other one
    are renamed.  When a set takes a variable as its parameter, two filters over the same
    sets may be merged although the renamed sets differ. *)
Definition dep_parent : SetDef := setdef_build "A" None None ReverseNone [] [].
Definition dep_set : GSet := mkSet dep_parent None None.
Definition dep_child : SetDef := setdef_build "B" (Some dep_set) None ReverseNone [] [].
Definition dep_child_of (v : Var) : GSet := mkSet dep_child None (Some v).

Definition dep_enum : Enum := mkEnum "E" None [("P", None); ("Q", None)]%string [] None.

Definition dep_choice (name : string) (args : list (string * GSet)) : Choice :=
  mkChoice name None (Plain args) (DefEnum "E") [] [] [] (VSEnum "E" ∅ ∅).

Definition dep_desc : IrDesc :=
  mkIrDesc [("c", dep_choice "c" [("x", dep_set); ("y", dep_set)]); ("e", dep_choice "e" [("z", mkSet dep_child None None)])]%string
    [("E", dep_enum)]%string
    [("A", (dep_parent, mkOnNewObject [])); ("B", (dep_child, mkOnNewObject []))]%string [].

(** For all [x], [y] in [A] and [z] in [B(x)]: when [c(x, y)] and [e(z)] are [P], only [P]
    is allowed. *)
Definition dep_other : FlatFilter :=
  mkFlatFilter [dep_set; dep_set; dep_child_of (ForallVar 0)]
    [mkChoiceInstance "c" [ForallVar 0; ForallVar 1]; mkChoiceInstance "e" [ForallVar 2]]
    [mkRule [CEnum 0 {["P"]} false false; CEnum 1 {["P"]} false false]%string (VSEnum "E" {["P"%string]} ∅) []] [].

(** A filter on the same sets and the inputs [c(y, x)] and [e(z)], without a rule. *)
Definition dep_self : FlatFilter :=
  mkFlatFilter [dep_set; dep_set; dep_child_of (ForallVar 0)]
    [mkChoiceInstance "c" [ForallVar 1; ForallVar 0]; mkChoiceInstance "e" [ForallVar 2]] [] [].

(** Two objects in [A], one in [B] of each. *)
Definition dep_interp : Interp nat := {|
  i_val name objs := VEnum (if decide (objs = [0; 1] ∨ objs = [10]) then "P" else "Q")%string;
  i_bool _ _ := true;
  i_num _ _ := 0%Z;
  i_den name param o :=
    name = "A"%string ∧ (o = 0 ∨ o = 1) ∨
    name = "B"%string ∧ match param with Some p => o = 10 + p ∧ p ≤ 1 | None => o = 10 ∨ o = 11 end
|}.

Lemma dep_self_ok : ff_ok dep_desc (TyEnum "E") dep_self.
Proof. by constructor; repeat constructor; eexists. Qed.

Lemma dep_other_ok : ff_ok dep_desc (TyEnum "E") dep_other.
Proof.
  constructor; [by repeat constructor; eexists|by repeat constructor|].
  split; [|by repeat constructor; cbn; lia]. apply Forall_singleton. split; [by repeat constructor; eexists|].
  cbn. split; [done|]. eexists. split; [done|]. by intros i negate inverse ?%elem_of_empty.
Qed.

(** The rule of the other filter, with its inputs in the order of the first one. *)
Definition dep_merged : FlatFilter :=
  mkFlatFilter (ff_vars dep_self) (ff_inputs dep_self) (ff_rules dep_other) [].

Lemma dep_try_merge : try_merge dep_desc dep_self dep_other = Some (true, dep_merged).
Proof. by vm_compute. Qed.

Lemma dep_merged_allows env : ff_allows dep_desc dep_interp env (VEnum "Q") dep_merged.
Proof.
  intros env' _ [Hd _]. apply Forall_singleton. intros [_ Hc]. exfalso.
  apply Forall_cons in Hc as [H1 Hc]. apply Forall_cons in Hc as [H2 _].
  assert (∀ i objs, cond_holds dep_desc (ff_inputs dep_merged) (env_world dep_interp env' (ff_inputs dep_merged))
      (CEnum i {["P"%string]} false false) = true →
    (∃ n, ff_inputs dep_merged !! i = Some (mkChoiceInstance n objs)) → env' <$> objs = [0; 1] ∨ env' <$> objs = [10]) as H.
  { intros i objs E [n Hi]. cbn [cond_holds] in E. unfold input_value in E. cbn [w_input env_world] in E. rewrite Hi in E.
    cbn [from_option] in E. unfold inst_value in E. cbn [i_val dep_interp ci_vars ci_choice] in E.
    case_decide as Hin; [done|]. cbn [xorb] in E. by apply bool_decide_eq_true, elem_of_singleton in E. }
  destruct (H 0 [ForallVar 1; ForallVar 0] H1) as [[= Hy Hx]|]; [by eexists| |done].
  destruct (H 1 [ForallVar 2] H2) as [|[= Hz]]; [by eexists|done|].
  destruct (Hd 2 (dep_child_of (ForallVar 0)) eq_refl) as [Hin _].
  destruct Hin as [[? _]|[_ [Hin _]]]; [done|]. rewrite Hz, Hx in Hin. lia.
Qed.

Lemma dep_other_rejects env : ¬ ff_allows dep_desc dep_interp env (VEnum "Q") dep_other.
Proof.
  intros H.
  set (env' := λ v, match v with ForallVar 0 => 0 | ForallVar 1 => 1 | ForallVar _ => 10 | Arg k => env (Arg k) end).
  assert (ff_domain dep_interp env' dep_other) as Hd.
  { split; [|constructor]. intros [|[|[|j]]] s [= <-]; (split; [|done]); cbn.
    - left. split; [done|by left].
    - left. split; [done|by right].
    - right. split; [done|lia]. }
  specialize (H env' (λ k, eq_refl) Hd). apply (Forall_cons_1 _ _ _) in H as [H _].
  destruct H as (x & E & H).
  { split; [constructor|]. by repeat constructor. }
  injection E as <-. destruct H as [H|(i & neg & inv & y & H & _)].
  - by apply elem_of_singleton in H.
  - by apply elem_of_empty in H.
Qed.

(** Merging drops a restriction of a filter with dependent sets.  [try_merge] accepts
    to merge a well-typed filter over x and y in A and z in B(x) by exchanging x and y,
    although z is then in B(y): the merged filter allows a value that the filter it
    replaces rejects. *)
Theorem try_merge_drops_dependent_filter :
  ff_ok dep_desc (TyEnum "E") dep_self ∧ ff_ok dep_desc (TyEnum "E") dep_other ∧
  try_merge dep_desc dep_self dep_other = Some (true, dep_merged) ∧
  ∀ env, ff_allows dep_desc dep_interp env (VEnum "Q") dep_merged ∧
    ¬ ff_allows dep_desc dep_interp env (VEnum "Q") dep_other.
Proof.
  split; [apply dep_self_ok|]. split; [apply dep_other_ok|]. split; [apply dep_try_merge|].
  intros env. split; [apply dep_merged_allows|apply dep_other_rejects].
Qed.
