(* ===== verification/EnumDomains.v ===== *)
(** * Printed enums (telamon-gen/src/print/mod.rs, template/enum_def.rs and inverse.rs)

    Each enum of the description is printed as a bit set: the value at position [i] of
    [value_def_order] is bit [i], aliases are unions, and pairs of inverse values sit on
    neighbour bits so that the inverse of a set is two shifts.  Here [None] also stands for
    printed code that does not compile. *)
From S2P Require Import Prelude Utils Orders GenSets Filters FilterSemantics.
#[local] Open Scope Z_scope.

(** The keys that are left by [IndexMap::remove]: the crate only promises that the key is
    removed and that the other entries are kept, not their order. *)
Class KeyRemoval := {
  keys_remove : string → list string → option (list string);
  keys_remove_perm k keys : k ∈ keys → ∃ rest, keys_remove k keys = Some rest ∧ keys ≡ₚ k :: rest
}.

(** The pairs of the mapping, side by side. *)
Definition paired (mapping : list (string * string)) : list string :=
  mapping ≫= λ '(x, y), [x; y].

Definition value_def_order `{KeyRemoval} (e : Enum) : option (list string) :=
  match inverse_mapping e with
  | Some mapping =>
    rest ← foldM (λ values x, keys_remove x values) (paired mapping) (value_keys e);
    Some (paired mapping ++ rest)
  | None => Some (value_keys e)
  end.

(** The width of the type that holds the bits. *)
Definition bits_type (num_values : nat) : option Z :=
  if (num_values <=? 8)%nat then Some 8
  else if (num_values <=? 16)%nat then Some 16
  else if (num_values <=? 32)%nat then Some 32
  else if (num_values <=? 64)%nat then Some 64
  else panic.

Definition position (x : string) (order : list string) : option nat := fst <$> list_find (x =.) order.

Section printed.
Context `{KeyRemoval} (e : Enum).

Definition num_values : nat := length (enum_values e).

Definition bit_index (x : string) : option nat := order ← value_def_order e; position x order.

(** The constants of the values. *)
Definition value_const (x : string) : option Z := i ← bit_index x; Some (Z.shiftl 1 (Z.of_nat i)).

(** [a | b | ...]; an empty list prints nothing. *)
Definition union_of (consts : list (option Z)) : option Z :=
  match consts with
  | [] => None
  | c :: consts => b ← c; foldM (λ b c, c ← c; Some (Z.lor b c)) consts b
  end.

(** The constants of the aliases.  An alias may stand for another one: [fuel] bounds the
    length of such a chain. *)
Fixpoint alias_const (fuel : nat) (x : string) : option Z :=
  match fuel with
  | O => None
  | S fuel =>
    match im_get x (enum_aliases e) with
    | Some (values, _) => union_of (alias_const fuel <$> elements values)
    | None => value_const x
    end
  end.

Definition enum_const (x : string) : option Z := alias_const (S (length (enum_aliases e))) x.

(** ** The domain *)

Definition all_bits : Z := Z.ones (Z.of_nat num_values).

Definition ed_all : Z := all_bits.
Definition ed_failed : Z := 0.
Definition ed_insert (self alternatives : Z) : Z := Z.lor self alternatives.

Definition ed_is_failed (self : Z) : bool := self =? 0.

Definition ed_is_constrained (self : Z) : option bool :=
  w ← bits_type num_values; Some (count_ones (Z.to_nat w) self <=? 1)%nat.

Definition ed_contains (self other : Z) : bool := Z.land self other =? other.
Definition ed_intersects (self other : Z) : bool := negb (Z.land self other =? 0).
Definition ed_restrict (self alternatives : Z) : Z := Z.land self alternatives.
Definition ed_bitand (self other : Z) : Z := Z.land self other.
Definition ed_bitor (self other : Z) : Z := Z.lor self other.
Definition ed_bitxor (self other : Z) : Z := Z.lxor self other.
Definition ed_not (self : Z) : Z := Z.lxor self all_bits.

Definition ed_list (self : Z) : list Z :=
  filter (λ x, Z.land self x ≠ 0) ((λ x, Z.shiftl 1 (Z.of_nat x)) <$> seq 0 num_values).

Definition ed_into_option (self : Z) : option Z := if ed_is_failed self then None else Some self.

Definition ed_bisect (self other : Z) : list Z :=
  option_list (ed_into_option (ed_bitand self other)) ++
  option_list (ed_into_option (ed_bitand self (ed_not other))).

Definition ed_eq (self other : Z) : option bool :=
  b ← ed_is_constrained self; Some (b && (self =? other)).

Definition ed_neq (self other : Z) : bool := negb (ed_intersects self other).

(** The printed function [inverse]: the enum has none without a mapping. *)
Definition ed_inverse `{Profile} (self : Z) : option Z :=
  mapping ← inverse_mapping e;
  let rest := filter (λ x, x ∉ mapping.*1 ++ mapping.*2) (value_keys e) in
  low ← union_of (value_const <$> mapping.*1);
  high ← union_of (value_const <$> mapping.*2);
  same ← (if decide (rest = []) then Some 0 else union_of (value_const <$> rest));
  w ← bits_type num_values;
  high_bits ← ushl w (Z.land self low) 1;
  let low_bits := Z.shiftr (Z.land self high) 1 in
  let same_bits := Z.land self same in
  Some (Z.lor (Z.lor low_bits high_bits) same_bits).
End printed.

(** * Theorems *)

(** The domain holds the value. *)
Definition ed_has `{KeyRemoval} (e : Enum) (bits : Z) (x : string) : bool :=
  match bit_index e x with Some i => Z.testbit bits (Z.of_nat i) | None => false end.

(** Domains of the enum: only the bits of its values are set. *)
Definition ed_wf (e : Enum) (bits : Z) : Prop := 0 ≤ bits < 2 ^ Z.of_nat (num_values e).

(** ** The order of the values *)

Lemma vec_swap_remove_perm {A : Type} (i : nat) (l : list A) x :
  l !! i = Some x → ∃ l', vec_swap_remove i l = Some (x, l') ∧ l ≡ₚ x :: l'.
Proof.
  intros Hi. unfold vec_swap_remove. rewrite Hi. cbn [mbind option_bind].
  destruct l as [|y l _] using rev_ind; [done|]. rewrite last_snoc. cbn [mbind option_bind].
  eexists; split; [done|]. rewrite length_app. cbn [length].
  replace (pred (length l + 1)) with (length l) by lia.
  destruct (decide (i < length l)%nat) as [Hlt|Hge].
  - rewrite lookup_app_l in Hi by done. rewrite (insert_app_l l [y] i y) by done.
    rewrite take_app_length' by (by rewrite length_insert).
    rewrite <-Permutation_cons_append. rewrite insert_take_drop by lia.
    rewrite <-(take_drop_middle l i x Hi) at 1. rewrite <-!Permutation_middle. apply perm_swap.
  - apply lookup_lt_Some in Hi as Hl. rewrite length_app in Hl. cbn in Hl. assert (i = length l) as -> by lia.
    rewrite lookup_app_r, Nat.sub_diag in Hi by lia. cbn in Hi. injection Hi as ->.
    rewrite list_insert_id by (rewrite lookup_app_r, Nat.sub_diag by lia; done).
    rewrite take_app_length. by rewrite <-Permutation_cons_append.
Qed.

(** Removal by moving the last key to the place of the removed one. *)
Definition swap_remove_key (k : string) (keys : list string) : option (list string) :=
  '(i, _) ← list_find (k =.) keys; snd <$> vec_swap_remove i keys.

Lemma swap_remove_key_perm k keys :
  k ∈ keys → ∃ rest, swap_remove_key k keys = Some rest ∧ keys ≡ₚ k :: rest.
Proof.
  intros Hk. unfold swap_remove_key.
  destruct (list_find_elem_of (k =.) keys k Hk eq_refl) as [[i x] Hf]. rewrite Hf. cbn [mbind option_bind].
  apply list_find_Some in Hf as (Hi & <- & _).
  destruct (vec_swap_remove_perm i keys k Hi) as (l' & -> & Hp). by exists l'.
Qed.

Definition swap_removal : KeyRemoval := {| keys_remove := swap_remove_key; keys_remove_perm := swap_remove_key_perm |}.

Lemma keys_remove_all `{KeyRemoval} ks keys :
  NoDup ks → ks ⊆ keys → ∃ rest, foldM (λ values x, keys_remove x values) ks keys = Some rest ∧ keys ≡ₚ ks ++ rest.
Proof.
  revert keys. induction ks as [|k ks IH]; intros keys Hnd Hsub; cbn; [by exists keys|].
  apply NoDup_cons in Hnd as [Hk Hnd].
  destruct (keys_remove_perm k keys) as (keys' & -> & Hp); [apply Hsub; set_solver|]. cbn.
  destruct (IH keys' Hnd) as (rest & -> & Hr).
  { intros x Hx. assert (x ∈ k :: keys') as Hx' by (rewrite <-Hp; apply Hsub; set_solver). set_solver. }
  exists rest. split; [done|]. by rewrite Hp, Hr.
Qed.

Lemma paired_perm mapping : paired mapping ≡ₚ mapping.*1 ++ mapping.*2.
Proof.
  induction mapping as [|[x y] m IH]; [done|]. cbn. apply Permutation_skip. rewrite <-Permutation_middle.
  apply Permutation_skip, IH.
Qed.

Lemma paired_lookup mapping j x y :
  mapping !! j = Some (x, y) → paired mapping !! (2 * j)%nat = Some x ∧ paired mapping !! S (2 * j) = Some y.
Proof.
  revert j. induction mapping as [|[a b] m IH]; intros [|j] Hj; cbn in Hj; [done|done| |].
  - by injection Hj as -> ->.
  - replace (2 * S j)%nat with (S (S (2 * j))) by lia. apply (IH j Hj).
Qed.

Lemma length_paired mapping : length (paired mapping) = (2 * length mapping)%nat.
Proof.
  induction mapping as [|[x y] m IH]; [done|].
  change (S (S (length (paired m))) = (2 * S (length m))%nat). lia.
Qed.

Lemma value_def_order_ok `{KeyRemoval} e :
  enum_ok e → ∃ rest, value_def_order e = Some (paired (default [] (inverse_mapping e)) ++ rest) ∧
    value_keys e ≡ₚ paired (default [] (inverse_mapping e)) ++ rest.
Proof.
  intros (Hk & Hm & Hin). unfold value_def_order. destruct (inverse_mapping e) as [m|]; cbn in *; [|by exists (value_keys e)].
  destruct (keys_remove_all (paired m) (value_keys e)) as (rest & -> & Hp).
  - by rewrite paired_perm.
  - intros x Hx. rewrite paired_perm, elem_of_app, !list_elem_of_fmap in Hx. rewrite Forall_forall in Hin.
    by destruct Hx as [([a b] & -> & Hab)|([a b] & -> & Hab)]; apply Hin in Hab as [? ?].
  - by exists rest.
Qed.

Section facts.
Context `{KeyRemoval} (e : Enum) (He : enum_ok e).

Lemma order_exists : ∃ order, value_def_order e = Some order ∧ order ≡ₚ value_keys e ∧ NoDup order.
Proof.
  destruct (value_def_order_ok e He) as (rest & Ho & Hp). eexists. split; [exact Ho|]. split; [by symmetry|].
  rewrite <-Hp. apply He.
Qed.

Lemma position_lookup x order i : NoDup order → order !! i = Some x → position x order = Some i.
Proof.
  intros Hnd Hi. unfold position. destruct (list_find_elem_of (x =.) order x) as [[j y] Hf]; [by eapply list_elem_of_lookup_2|done|].
  rewrite Hf. cbn. apply list_find_Some in Hf as (Hj & <- & _). f_equal. by eapply NoDup_lookup.
Qed.

Lemma bit_index_Some x i : bit_index e x = Some i ↔ ∃ order, value_def_order e = Some order ∧ order !! i = Some x.
Proof.
  unfold bit_index. destruct order_exists as (order & Ho & _ & Hnd). rewrite Ho. cbn. split.
  - unfold position. intros ([j y] & Hf & ->)%fmap_Some. apply list_find_Some in Hf as (Hj & <- & _). by exists order.
  - intros (? & [= <-] & Hi). by apply position_lookup.
Qed.

Lemma bit_index_key x : x ∈ value_keys e ↔ ∃ i, bit_index e x = Some i ∧ (i < num_values e)%nat.
Proof.
  destruct order_exists as (order & Ho & Hp & Hnd). split.
  - intros Hx. rewrite <-Hp in Hx. apply list_elem_of_lookup_1 in Hx as [i Hi]. exists i. split.
    + apply bit_index_Some. by exists order.
    + apply lookup_lt_Some in Hi. rewrite Hp in Hi. unfold value_keys, im_keys in Hi. by rewrite length_fmap in Hi.
  - intros (i & (? & Ho' & Hi)%bit_index_Some & _). rewrite Ho in Ho'. injection Ho' as <-. rewrite <-Hp. by eapply list_elem_of_lookup_2.
Qed.

Lemma bit_index_lt x i : bit_index e x = Some i → (i < num_values e)%nat.
Proof.
  intros (order & Ho & Hi)%bit_index_Some. destruct order_exists as (order' & Ho' & Hp & Hnd). rewrite Ho in Ho'. injection Ho' as ->.
  apply lookup_lt_Some in Hi. rewrite Hp in Hi. unfold value_keys, im_keys in Hi. by rewrite length_fmap in Hi.
Qed.

Lemma bit_index_inj x y i : bit_index e x = Some i → bit_index e y = Some i → x = y.
Proof. intros (o & Ho & Hx)%bit_index_Some (o' & Ho' & Hy)%bit_index_Some. rewrite Ho in Ho'. injection Ho' as <-. congruence. Qed.

Lemma bit_index_surj i : (i < num_values e)%nat → ∃ x, bit_index e x = Some i.
Proof.
  intros Hi. destruct order_exists as (order & Ho & Hp & Hnd). destruct (lookup_lt_is_Some_2 order i) as [x Hx].
  { rewrite Hp. unfold value_keys, im_keys. by rewrite length_fmap. }
  exists x. apply bit_index_Some. by exists order.
Qed.

Lemma ed_has_key bits x : ed_has e bits x = true → x ∈ value_keys e.
Proof.
  unfold ed_has. destruct (bit_index e x) as [i|] eqn:Ei; [|done]. intros _. apply bit_index_key. exists i.
  split; [done|]. by eapply bit_index_lt.
Qed.

(** Domains are determined by the values they hold. *)
Lemma ed_ext a b : ed_wf e a → ed_wf e b → (∀ x, ed_has e a x = ed_has e b x) → a = b.
Proof.
  intros Ha Hb Hx. apply Z.bits_inj'. intros n Hn. destruct (Z_lt_le_dec n (Z.of_nat (num_values e))) as [Hlt|Hge].
  - destruct (bit_index_surj (Z.to_nat n)) as [x Hi]; [lia|]. specialize (Hx x). unfold ed_has in Hx. rewrite Hi, Z2Nat.id in Hx by done. done.
  - assert (∀ c, ed_wf e c → Z.testbit c n = false) as Hout; [|by rewrite !Hout].
    intros c [Hc0 Hc]. rewrite <-(Z.mod_small c (2 ^ Z.of_nat (num_values e))) by lia. apply Z.mod_pow2_bits_high. lia.
Qed.

(** ** Operations, value by value *)

Lemma ed_all_wf : ed_wf e (ed_all e).
Proof. unfold ed_wf, ed_all, all_bits. rewrite Z.ones_equiv. pose proof (Z.pow_pos_nonneg 2 (Z.of_nat (num_values e))). lia. Qed.

Lemma ed_wf_bits bits n : ed_wf e bits → Z.of_nat (num_values e) ≤ n → Z.testbit bits n = false.
Proof.
  intros [Hc0 Hc] Hn. rewrite <-(Z.mod_small bits (2 ^ Z.of_nat (num_values e))) by lia. apply Z.mod_pow2_bits_high. lia.
Qed.

Lemma ed_wf_of_bits bits : 0 ≤ bits → (∀ n, Z.of_nat (num_values e) ≤ n → Z.testbit bits n = false) → ed_wf e bits.
Proof.
  intros H0 Hb. split; [done|]. destruct (Z.eq_dec bits 0) as [->|Hne]; [apply Z.pow_pos_nonneg; lia|].
  apply Z.log2_lt_pow2; [lia|]. destruct (Z_lt_le_dec (Z.log2 bits) (Z.of_nat (num_values e))) as [Hl|Hl]; [done|].
  specialize (Hb _ Hl). rewrite Z.bit_log2 in Hb by lia. done.
Qed.

Lemma ed_failed_wf : ed_wf e ed_failed.
Proof. unfold ed_wf, ed_failed. split; [done|]. apply Z.pow_pos_nonneg; lia. Qed.

Lemma ed_land_wf a b : ed_wf e a → ed_wf e b → ed_wf e (Z.land a b).
Proof.
  intros Ha Hb. apply ed_wf_of_bits; [apply Z.land_nonneg; left; apply Ha|].
  intros n Hn. by rewrite Z.land_spec, (ed_wf_bits a).
Qed.

Lemma ed_lor_wf a b : ed_wf e a → ed_wf e b → ed_wf e (Z.lor a b).
Proof.
  intros Ha Hb. apply ed_wf_of_bits; [apply Z.lor_nonneg; split; [apply Ha|apply Hb]|].
  intros n Hn. by rewrite Z.lor_spec, (ed_wf_bits a), (ed_wf_bits b).
Qed.

Lemma ed_not_wf a : ed_wf e a → ed_wf e (ed_not e a).
Proof.
  intros Ha. pose proof ed_all_wf as Hall. apply ed_wf_of_bits.
  - apply Z.lxor_nonneg. destruct Ha, Hall. done.
  - intros n Hn. unfold ed_not. rewrite Z.lxor_spec, (ed_wf_bits a), (ed_wf_bits (all_bits e)) by done. done.
Qed.

Lemma ed_has_all x : x ∈ value_keys e → ed_has e (ed_all e) x = true.
Proof.
  intros (i & Hi & Hlt)%bit_index_key. unfold ed_has. rewrite Hi. apply Z.ones_spec_low. lia.
Qed.

Lemma ed_has_failed x : ed_has e ed_failed x = false.
Proof. unfold ed_has. destruct (bit_index e x); [apply Z.testbit_0_l|done]. Qed.

Lemma ed_has_land a b x : ed_has e (Z.land a b) x = ed_has e a x && ed_has e b x.
Proof. unfold ed_has. destruct (bit_index e x); [apply Z.land_spec|done]. Qed.

Lemma ed_has_lor a b x : ed_has e (Z.lor a b) x = ed_has e a x || ed_has e b x.
Proof. unfold ed_has. destruct (bit_index e x); [apply Z.lor_spec|done]. Qed.

Lemma ed_has_not a x : x ∈ value_keys e → ed_has e (ed_not e a) x = negb (ed_has e a x).
Proof.
  intros (i & Hi & Hlt)%bit_index_key. unfold ed_has, ed_not. rewrite Hi, Z.lxor_spec.
  unfold all_bits. rewrite Z.ones_spec_low by lia. apply xorb_true_r.
Qed.

Lemma ed_failed_spec a : ed_wf e a → ed_is_failed a = true ↔ ∀ x, ed_has e a x = false.
Proof.
  intros Ha. unfold ed_is_failed. rewrite Z.eqb_eq. split.
  - intros ->. apply ed_has_failed.
  - intros Hx. apply (ed_ext a 0 Ha ed_failed_wf). intros x. rewrite Hx. symmetry. apply ed_has_failed.
Qed.

Lemma ed_intersects_spec a b :
  ed_wf e a → ed_wf e b → ed_intersects a b = true ↔ ∃ x, ed_has e a x = true ∧ ed_has e b x = true.
Proof.
  intros Ha Hb. unfold ed_intersects. split.
  - intros Hi. destruct (decide (Exists (λ x, ed_has e (Z.land a b) x = true) (value_keys e))) as [Hx|Hx].
    + apply Exists_exists in Hx as (x & _ & Hx). exists x. rewrite ed_has_land in Hx. by apply andb_true_iff.
    + assert (ed_is_failed (Z.land a b) = true) as Hf; [|unfold ed_is_failed in Hf; by rewrite Hf in Hi].
      apply (ed_failed_spec _ (ed_land_wf a b Ha Hb)). intros x. apply not_true_is_false. intros Hx'. apply Hx.
      apply Exists_exists. exists x. split; [by eapply ed_has_key|done].
  - intros (x & Hxa & Hxb). apply negb_true_iff, not_true_is_false. intros H0.
    pose proof (proj1 (ed_failed_spec _ (ed_land_wf a b Ha Hb)) H0 x) as Hx. rewrite ed_has_land, Hxa, Hxb in Hx. done.
Qed.

Lemma ed_contains_spec a b :
  ed_wf e a → ed_wf e b → ed_contains a b = true ↔ ∀ x, ed_has e b x = true → ed_has e a x = true.
Proof.
  intros Ha Hb. unfold ed_contains. rewrite Z.eqb_eq. split.
  - intros H0 x Hx. rewrite <-H0, ed_has_land in Hx. by apply andb_true_iff in Hx as [? _].
  - intros Hx. apply (ed_ext _ _ (ed_land_wf a b Ha Hb) Hb). intros x. rewrite ed_has_land.
    destruct (ed_has e b x) eqn:E; [by rewrite (Hx x E)|apply andb_false_r].
Qed.

(** ** Constants *)

Lemma value_const_spec x :
  x ∈ value_keys e → ∃ b, value_const e x = Some b ∧ ed_wf e b ∧ ∀ y, ed_has e b y = bool_decide (y = x).
Proof.
  intros (i & Hi & Hlt)%bit_index_key. unfold value_const. rewrite Hi. cbn. eexists. split; [done|].
  assert (∀ n, 0 ≤ n → Z.testbit (Z.shiftl 1 (Z.of_nat i)) n = (n =? Z.of_nat i)) as Hbit.
  { intros n Hn. rewrite Z.shiftl_spec by done.
    destruct (Z.eqb_spec n (Z.of_nat i)) as [->|Hne]; [by rewrite Z.sub_diag|].
    change 1 with (2 ^ 0). apply Z.pow2_bits_false. lia. }
  split.
  - apply ed_wf_of_bits; [apply Z.shiftl_nonneg; lia|]. intros n Hn. rewrite Hbit by lia. apply Z.eqb_neq. lia.
  - intros y. unfold ed_has. destruct (bit_index e y) as [j|] eqn:Ej.
    + rewrite Hbit by lia. case_bool_decide as Hy.
      * subst y. rewrite Hi in Ej. injection Ej as ->. apply Z.eqb_refl.
      * apply Z.eqb_neq. intros Hij. apply Hy. apply (bit_index_inj y x i); [|done]. rewrite Ej. f_equal. lia.
    + case_bool_decide as Hy; [|done]. subst y. congruence.
Qed.

Lemma union_of_spec (cs : list (option Z)) (P : list (string → bool)) :
  cs ≠ [] → Forall2 (λ c p, ∃ b, c = Some b ∧ ed_wf e b ∧ ∀ y, ed_has e b y = p y) cs P →
  ∃ b, union_of cs = Some b ∧ ed_wf e b ∧ ∀ y, ed_has e b y = existsb (λ p, p y) P.
Proof.
  intros Hne HF. destruct HF as [|c p cs P (b & -> & Hb & Hp) HF]; [done|]. cbn [union_of]. clear Hne. cbn [mbind option_bind].
  assert (∃ b', foldM (λ b c, let! c := c in Some (Z.lor b c)) cs b = Some b' ∧ ed_wf e b' ∧
    ∀ y, ed_has e b' y = ed_has e b y || existsb (λ p, p y) P) as (b' & Hb' & Hw & Hy).
  { clear Hp. revert b Hb. induction HF as [|c p' cs P (b1 & -> & Hb1 & Hp1) HF IH]; intros b Hb; cbn.
    - exists b. split; [done|]. split; [done|]. intros y. by rewrite orb_false_r.
    - destruct (IH (Z.lor b b1) (ed_lor_wf _ _ Hb Hb1)) as (b' & Hb' & Hw & Hy). exists b'. split; [done|]. split; [done|].
      intros y. by rewrite Hy, ed_has_lor, Hp1, orb_assoc. }
  exists b'. split; [done|]. split; [done|]. intros y. cbn. by rewrite Hy, Hp.
Qed.

Lemma union_of_values (xs : list string) :
  xs ≠ [] → Forall (.∈ value_keys e) xs →
  ∃ b, union_of (value_const e <$> xs) = Some b ∧ ed_wf e b ∧ ∀ y, ed_has e b y = bool_decide (y ∈ xs).
Proof.
  intros Hne Hxs. destruct (union_of_spec (value_const e <$> xs) ((λ x y, bool_decide (y = x)) <$> xs)) as (b & Hb & Hw & Hy).
  - by destruct xs.
  - apply Forall2_fmap_2, Forall_Forall2_diag. eapply Forall_impl; [exact Hxs|]. intros x Hx. by apply value_const_spec.
  - exists b. split; [done|]. split; [done|]. intros y. rewrite Hy. clear. induction xs as [|x xs IH]; [by rewrite bool_decide_eq_false_2 by set_solver|].
    cbn. rewrite IH. repeat case_bool_decide; set_solver.
Qed.

(** The printed width holds all the values. *)
Lemma bits_type_holds w : bits_type (num_values e) = Some w → Z.of_nat (num_values e) ≤ w.
Proof. unfold bits_type. repeat case_match; intros [= <-]; rewrite ?Nat.leb_le in *; lia. Qed.

Lemma bits_type_some : (num_values e ≤ 64)%nat → ∃ w, bits_type (num_values e) = Some w.
Proof.
  intros Hn. unfold bits_type. repeat (case_match; [by eexists|]).
  match goal with H : (_ <=? 64)%nat = false |- _ => apply Nat.leb_gt in H; lia end.
Qed.

(** At most one value is left. *)
Lemma ed_constrained_spec bits :
  (num_values e ≤ 64)%nat → ed_wf e bits →
  ∃ b, ed_is_constrained e bits = Some b ∧
    (b = true ↔ ∀ x y, ed_has e bits x = true → ed_has e bits y = true → x = y).
Proof.
  intros Hn Hw. destruct (bits_type_some Hn) as [w Hbt]. pose proof (bits_type_holds w Hbt) as Hwn.
  unfold ed_is_constrained. rewrite Hbt. cbn. eexists. split; [done|]. rewrite Nat.leb_le. unfold count_ones.
  set (l := filter _ _). assert (Hl : ∀ i, i ∈ l ↔ Z.testbit bits (Z.of_nat i) = true).
  { intros i. unfold l. rewrite list_elem_of_filter, elem_of_seq. split; [by intros [? _]|]. intros Hi. split; [done|].
    split; [lia|]. cbn. destruct (decide (i < Z.to_nat w)%nat) as [|Hge]; [done|].
    rewrite (ed_wf_bits bits) in Hi by (done || lia). done. }
  assert (Hnd : NoDup l) by (apply NoDup_filter, NoDup_seq). clearbody l. split.
  - intros Hle x y Hx Hy. unfold ed_has in Hx, Hy.
    destruct (bit_index e x) as [i|] eqn:Ei; [|done]. destruct (bit_index e y) as [j|] eqn:Ej; [|done].
    apply Hl in Hx, Hy. destruct l as [|a [|b l]]; cbn in Hle; [set_solver| |lia].
    rewrite list_elem_of_singleton in Hx, Hy. subst i j. by eapply bit_index_inj.
  - intros Huniq. destruct l as [|a [|b l]]; cbn; [lia|lia|]. exfalso.
    assert (Z.testbit bits (Z.of_nat a) = true) as Ha by (apply Hl; set_solver).
    assert (Z.testbit bits (Z.of_nat b) = true) as Hb by (apply Hl; set_solver).
    assert (∀ i, Z.testbit bits (Z.of_nat i) = true → (i < num_values e)%nat) as Hlt.
    { intros i Hi. destruct (decide (i < num_values e)%nat) as [|Hge]; [done|]. by rewrite (ed_wf_bits bits) in Hi by (done || lia). }
    destruct (bit_index_surj a) as [x Hx]; [by apply Hlt|]. destruct (bit_index_surj b) as [y Hy]; [by apply Hlt|].
    assert (x = y) as -> by (apply Huniq; unfold ed_has; by rewrite ?Hx, ?Hy). rewrite Hx in Hy. injection Hy as ->.
    apply NoDup_cons in Hnd as [Hnin _]. set_solver.
Qed.

(** [list] gives the values of the domain, in the order of their bits. *)
Lemma ed_list_spec bits order :
  value_def_order e = Some order →
  Forall2 (λ b x, value_const e x = Some b) (ed_list e bits) (filter (λ x, ed_has e bits x = true) order).
Proof.
  intros Ho. destruct order_exists as (order' & Ho' & Hp & Hnd). rewrite Ho in Ho'. injection Ho' as <-.
  unfold ed_list. assert (length order = num_values e) as <-.
  { rewrite Hp. unfold value_keys, im_keys. by rewrite length_fmap. }
  assert (∀ k l, (∀ i x, l !! i = Some x → bit_index e x = Some (k + i)%nat) →
    Forall2 (λ b x, value_const e x = Some b)
      (filter (λ x, Z.land bits x ≠ 0) ((λ x, Z.shiftl 1 (Z.of_nat x)) <$> seq k (length l)))
      (filter (λ x, ed_has e bits x = true) l)) as Hgen.
  { intros k l. revert k. induction l as [|x l IH]; intros k Hl; [constructor|].
    assert (bit_index e x = Some k) as Hx by (rewrite (Hl 0%nat x eq_refl); f_equal; lia).
    assert (∀ i y, l !! i = Some y → bit_index e y = Some (S k + i)%nat) as Hl'.
    { intros i y Hi. rewrite (Hl (S i) y Hi). f_equal. lia. }
    cbn [length seq fmap list_fmap]. rewrite (filter_cons (λ x, Z.land bits x ≠ 0)), (filter_cons (λ x, ed_has e bits x = true)).
    assert (Z.land bits (Z.shiftl 1 (Z.of_nat k)) ≠ 0 ↔ ed_has e bits x = true) as Hiff.
    { unfold ed_has. rewrite Hx. rewrite Z.shiftl_1_l. destruct (Z.testbit bits (Z.of_nat k)) eqn:Eb; split; intros Hz; try done.
      - intros H0. assert (Z.testbit (Z.land bits (2 ^ Z.of_nat k)) (Z.of_nat k) = true) as Ht.
        { by rewrite Z.land_spec, Eb, Z.pow2_bits_true by lia. }
        by rewrite H0, Z.testbit_0_l in Ht.
      - exfalso. apply Hz. apply Z.bits_inj'. intros n Hn. rewrite Z.land_spec, Z.testbit_0_l.
        destruct (Z.eq_dec n (Z.of_nat k)) as [->|Hne]; [by rewrite Eb|]. rewrite (Z.pow2_bits_false (Z.of_nat k) n) by lia. apply andb_false_r. }
    destruct (decide (Z.land bits (Z.shiftl 1 (Z.of_nat k)) ≠ 0)) as [Hd|Hd]; destruct (decide (ed_has e bits x = true)) as [Hd'|Hd'];
      try tauto; [|by apply IH]. constructor; [unfold value_const; by rewrite Hx|by apply IH]. }
  apply Hgen. intros i x Hi. apply bit_index_Some. by exists order.
Qed.

(** ** The inverse *)

Lemma enum_inverse_pair j x y :
  default [] (inverse_mapping e) !! j = Some (x, y) → enum_inverse e x = y ∧ enum_inverse e y = x.
Proof.
  intros Hj. unfold enum_inverse. destruct He as (_ & Hnd & _). set (m := default [] (inverse_mapping e)) in *. clearbody m.
  revert j Hj. induction m as [|[a b] m IH]; intros j Hj; [done|]. cbn in Hnd.
  apply NoDup_cons in Hnd as [Ha Hnd]. rewrite <-Permutation_middle in Hnd. apply NoDup_cons in Hnd as [Hb Hnd].
  assert (a ≠ b) as Hab by (intros ->; apply Ha; set_solver).
  destruct j as [|j]; cbn in Hj.
  - injection Hj as -> ->. cbn. rewrite (decide_True _ _ eq_refl). rewrite decide_False by done. by rewrite decide_True.
  - destruct (IH Hnd j Hj) as [Hx Hy]. apply list_elem_of_lookup_2 in Hj.
    assert (x ∈ m.*1 ∧ y ∈ m.*2) as [Hxm Hym] by (split; apply list_elem_of_fmap; by exists (x, y)).
    cbn. assert (a ≠ x ∧ b ≠ x ∧ a ≠ y ∧ b ≠ y) as (? & ? & ? & ?) by (repeat split; intros ->; set_solver).
    rewrite !decide_False by done. done.
Qed.

Lemma enum_inverse_self x :
  x ∉ (default [] (inverse_mapping e)).*1 ++ (default [] (inverse_mapping e)).*2 → enum_inverse e x = x.
Proof. intros Hx. unfold enum_inverse. by apply inverse_in_not. Qed.

(** The bits of a mask of values. *)
Lemma mask_bit b (xs : list string) order n :
  value_def_order e = Some order → ed_wf e b → (∀ y, ed_has e b y = bool_decide (y ∈ xs)) →
  Z.testbit b (Z.of_nat n) = match order !! n with Some y => bool_decide (y ∈ xs) | None => false end.
Proof.
  intros Ho Hw Hy. destruct (order !! n) as [y|] eqn:En.
  - rewrite <-Hy. unfold ed_has. by rewrite (proj2 (bit_index_Some y n)) by (by exists order).
  - apply ed_wf_bits; [done|]. destruct order_exists as (order' & Ho' & Hp & Hnd). rewrite Ho in Ho'. injection Ho' as <-.
    apply lookup_ge_None in En. rewrite Hp in En. unfold value_keys, im_keys in En. rewrite length_fmap in En.
    unfold num_values. lia.
Qed.

(** The neighbours of a bit, in the order of the values. *)
Lemma paired_even m rest j x y :
  m !! j = Some (x, y) → (paired m ++ rest) !! (2 * j)%nat = Some x ∧ (paired m ++ rest) !! S (2 * j) = Some y.
Proof.
  intros Hj. destruct (paired_lookup m j x y Hj) as [H1 H2]. split; by apply lookup_app_l_Some.
Qed.

Lemma paired_cases m rest i z :
  (paired m ++ rest) !! i = Some z →
  (∃ j y, m !! j = Some (z, y) ∧ i = (2 * j)%nat) ∨ (∃ j x, m !! j = Some (x, z) ∧ i = S (2 * j)) ∨
  (z ∈ rest ∧ (2 * length m ≤ i)%nat).
Proof.
  intros Hi. destruct (decide (i < 2 * length m)%nat) as [Hlt|Hge].
  - pose proof (Nat.div_mod_eq i 2) as Hdm. pose proof (Nat.mod_upper_bound i 2 ltac:(lia)) as Hmod.
    destruct (lookup_lt_is_Some_2 m (i / 2)) as [[x y] Hj]; [apply Nat.Div0.div_lt_upper_bound; lia|].
    destruct (paired_even m rest _ x y Hj) as [H1 H2]. destruct (decide (i mod 2 = 0)%nat) as [H0|H0].
    + left. exists (i / 2)%nat, y. replace (2 * (i / 2))%nat with i in * by lia. rewrite Hi in H1. injection H1 as ->. done.
    + right; left. exists (i / 2)%nat, x. replace (S (2 * (i / 2))) with i in * by lia. rewrite Hi in H2. injection H2 as ->. done.
  - right; right. rewrite lookup_app_r in Hi by (rewrite length_paired; lia). split; [by eapply list_elem_of_lookup_2|lia].
Qed.

Section inverse.
Context `{Profile} (m : list (string * string)) (Hm : inverse_mapping e = Some m) (Hne : m ≠ []) (Hn : (num_values e ≤ 64)%nat).

Lemma mapping_facts : NoDup (m.*1 ++ m.*2) ∧ Forall (.∈ value_keys e) (m.*1) ∧ Forall (.∈ value_keys e) (m.*2).
Proof.
  destruct He as (_ & Hnd & Hin). rewrite Hm in Hnd, Hin. cbn in *. split; [done|].
  split; apply Forall_fmap; eapply Forall_impl; [exact Hin| |exact Hin|]; intros p Hp; apply Hp.
Qed.

(** The shifted bits. *)
Lemma shifted_bits w bits low high n :
  bits_type (num_values e) = Some w → 0 ≤ n →
  ∃ hb, ushl w (Z.land bits low) 1 = Some hb ∧ 0 ≤ hb ∧
    Z.testbit hb n = (n <? w) && (1 <=? n) && Z.testbit bits (n - 1) && Z.testbit low (n - 1) ∧
    Z.testbit (Z.shiftr (Z.land bits high) 1) n = Z.testbit bits (n + 1) && Z.testbit high (n + 1).
Proof.
  intros Hw Hn0. assert (1 < w) as Hw1 by (unfold bits_type, panic in Hw; repeat case_match; simplify_eq; lia).
  unfold ushl. rewrite (proj2 (Z.ltb_lt 1 w) Hw1). eexists. split; [done|]. split.
  { apply Z.mod_pos_bound, Z.pow_pos_nonneg; lia. }
  split.
  - unfold wrap. destruct (Z.ltb_spec n w) as [Hlt|Hge].
    + rewrite Z.mod_pow2_bits_low, Z.shiftl_spec by lia. destruct (Z.leb_spec 1 n) as [H1|H1].
      * by rewrite Z.land_spec.
      * rewrite Z.testbit_neg_r by lia. done.
    + rewrite Z.mod_pow2_bits_high by lia. done.
  - by rewrite Z.shiftr_spec, Z.land_spec by lia.
Qed.

(** Which bits are set in the masks of the printed function. *)
Lemma mask_positions order rest low high same :
  value_def_order e = Some order → order = paired m ++ rest →
  ed_wf e low → (∀ y, ed_has e low y = bool_decide (y ∈ m.*1)) →
  ed_wf e high → (∀ y, ed_has e high y = bool_decide (y ∈ m.*2)) →
  ed_wf e same → (∀ y, ed_has e same y = bool_decide (y ∈ filter (λ x, x ∉ m.*1 ++ m.*2) (value_keys e))) →
  ∀ n, (Z.testbit low (Z.of_nat n) = true ↔ ∃ j, (j < length m)%nat ∧ n = (2 * j)%nat) ∧
    (Z.testbit high (Z.of_nat n) = true ↔ ∃ j, (j < length m)%nat ∧ n = S (2 * j)) ∧
    (Z.testbit same (Z.of_nat n) = true ↔ (2 * length m ≤ n < num_values e)%nat).
Proof.
  intros Ho -> Wl Hl Wh Hh Ws Hs n. destruct mapping_facts as (Hnd & _). apply NoDup_app in Hnd as (Hnd1 & Hdis & Hnd2).
  destruct order_exists as (order' & Ho' & Hp & Hndo). rewrite Ho in Ho'. injection Ho' as <-.
  assert (length (paired m ++ rest) = num_values e) as Hlen.
  { rewrite Hp. unfold value_keys, im_keys. by rewrite length_fmap. }
  rewrite (mask_bit low _ _ n Ho Wl Hl), (mask_bit high _ _ n Ho Wh Hh), (mask_bit same _ _ n Ho Ws Hs).
  destruct ((paired m ++ rest) !! n) as [z|] eqn:En.
  - rewrite !bool_decide_eq_true. pose proof (lookup_lt_Some _ _ _ En) as Hlt. rewrite list_elem_of_filter.
    assert (z ∈ value_keys e) as Hz by (rewrite <-Hp; by eapply list_elem_of_lookup_2).
    destruct (paired_cases m rest n z En) as [(j & y & Hj & ->)|[(j & x & Hj & ->)|[Hr Hge]]].
    + pose proof (lookup_lt_Some _ _ _ Hj) as Hjl. assert (z ∈ m.*1) as Hz1 by (apply list_elem_of_fmap; exists (z, y); split; [done|by eapply list_elem_of_lookup_2]).
      split; [split; [intros _; by exists j|done]|]. split; [|split; [set_solver|lia]].
      split; [intros Hz2; by destruct (Hdis z)|]. intros (k & _ & Hk). lia.
    + pose proof (lookup_lt_Some _ _ _ Hj) as Hjl. assert (z ∈ m.*2) as Hz2 by (apply list_elem_of_fmap; exists (x, z); split; [done|by eapply list_elem_of_lookup_2]).
      split; [|split; [split; [intros _; by exists j|done]|split; [set_solver|lia]]].
      split; [intros Hz1; by destruct (Hdis z)|]. intros (k & _ & Hk). lia.
    + apply NoDup_app in Hndo as (_ & Hd & _). assert (z ∉ m.*1 ++ m.*2) as Hzm by (intros Hin; apply (Hd z); [by rewrite paired_perm|done]).
      split; [split; [set_solver|intros (k & Hk & ->); lia]|]. split; [split; [set_solver|intros (k & Hk & ->); lia]|].
      split; [intros _; lia|done].
  - apply lookup_ge_None in En. assert (length (paired m ++ rest) = 2 * length m + length rest)%nat as Hl2 by (by rewrite length_app, length_paired).
    split; [split; [done|intros (k & Hk & ->); lia]|]. split; [split; [done|intros (k & Hk & ->); lia]|]. split; [done|lia].
Qed.

Lemma ed_inverse_spec bits :
  ed_wf e bits →
  ∃ b, ed_inverse e bits = Some b ∧ ed_wf e b ∧ ∀ x, x ∈ value_keys e → ed_has e b x = ed_has e bits (enum_inverse e x).
Proof.
  intros Hb. destruct mapping_facts as (Hnd & Hk1 & Hk2).
  destruct (value_def_order_ok e He) as (rest & Ho & Hp). rewrite Hm in Ho, Hp. cbn [default] in Ho, Hp.
  destruct (union_of_values m.*1) as (low & Elow & Wlow & Hlow); [by destruct m|done|].
  destruct (union_of_values m.*2) as (high & Ehigh & Whigh & Hhigh); [by destruct m|done|].
  set (others := filter (λ x, x ∉ m.*1 ++ m.*2) (value_keys e)).
  assert (∃ same, (if decide (others = []) then Some 0 else union_of (value_const e <$> others)) = Some same ∧ ed_wf e same ∧
    ∀ y, ed_has e same y = bool_decide (y ∈ others)) as (same & Esame & Wsame & Hsame).
  { destruct (decide (others = [])) as [E|E].
    - exists 0. split; [done|]. split; [apply ed_failed_wf|]. intros y. rewrite E. transitivity false; [apply ed_has_failed|].
      by rewrite bool_decide_eq_false_2 by set_solver.
    - apply union_of_values; [done|]. apply Forall_forall. intros x. unfold others. rewrite list_elem_of_filter. tauto. }
  destruct (bits_type_some Hn) as [w Hw]. pose proof (bits_type_holds w Hw) as Hwn.
  destruct (shifted_bits w bits low high 0 Hw ltac:(lia)) as (hb & Ehb & Hhb0 & _).
  unfold ed_inverse. rewrite Hm. cbn [mbind option_bind]. fold others. rewrite Elow, Ehigh. cbn [mbind option_bind].
  rewrite Esame, Hw. cbn [mbind option_bind]. rewrite Ehb. cbn [mbind option_bind]. eexists. split; [done|].
  assert (∀ n, 0 ≤ n → Z.testbit (Z.lor (Z.lor (Z.shiftr (Z.land bits high) 1) hb) (Z.land bits same)) n =
    Z.testbit bits (n + 1) && Z.testbit high (n + 1) ||
    (n <? w) && (1 <=? n) && Z.testbit bits (n - 1) && Z.testbit low (n - 1) ||
    Z.testbit bits n && Z.testbit same n) as Hbit.
  { intros n Hn0. destruct (shifted_bits w bits low high n Hw Hn0) as (hb' & Ehb' & _ & H1 & H2). rewrite Ehb in Ehb'. injection Ehb' as <-.
    by rewrite !Z.lor_spec, H1, H2, Z.land_spec. }
  pose proof (mask_positions _ rest low high same Ho eq_refl Wlow Hlow Whigh Hhigh Wsame Hsame) as Hpos.
  assert (2 * length m + length rest = num_values e)%nat as Hlen.
  { rewrite <-length_paired, <-length_app, <-Hp. unfold value_keys, im_keys. by rewrite length_fmap. }
  assert (1 ≤ length m)%nat as Hm1 by (destruct m; [done|cbn; lia]).
  split.
  - apply ed_wf_of_bits.
    + rewrite !Z.lor_nonneg, Z.shiftr_nonneg, !Z.land_nonneg. destruct Hb. tauto.
    + intros n Hge. rewrite Hbit by lia. rewrite (ed_wf_bits bits (n + 1)), (ed_wf_bits bits n) by (done || lia).
      destruct (Z.testbit low (n - 1)) eqn:El; [|by rewrite !andb_false_r].
      rewrite <-(Z2Nat.id (n - 1)) in El by lia. apply Hpos in El as (j & Hj & Hn1). lia.
  - intros x Hx. rewrite Hp in Hx. apply list_elem_of_lookup_1 in Hx as [i Hi].
    assert (∀ k z, (paired m ++ rest) !! k = Some z → ed_has e bits z = Z.testbit bits (Z.of_nat k)) as Hhas.
    { intros k z Hk. unfold ed_has. by rewrite (proj2 (bit_index_Some z k)) by (by eexists). }
    unfold ed_has at 1. rewrite (proj2 (bit_index_Some x i)) by (by eexists). rewrite Hbit by lia.
    replace (Z.of_nat i + 1) with (Z.of_nat (S i)) by lia.
    destruct (paired_cases m rest i x Hi) as [(j & y & Hj & ->)|[(j & y & Hj & ->)|[Hr Hge]]].
    + destruct (enum_inverse_pair j x y) as [-> _]; [by rewrite Hm|]. pose proof (lookup_lt_Some _ _ _ Hj) as Hjl.
      destruct (paired_even m rest j x y Hj) as [_ Hy]. rewrite (Hhas _ _ Hy).
      rewrite (proj2 (proj1 (proj2 (Hpos (S (2 * j)))))) by (by exists j). rewrite andb_true_r.
      assert (Z.testbit same (Z.of_nat (2 * j)) = false) as ->.
      { apply not_true_is_false. intros Ht%Hpos. lia. }
      assert ((1 <=? Z.of_nat (2 * j)) && Z.testbit bits (Z.of_nat (2 * j) - 1) && Z.testbit low (Z.of_nat (2 * j) - 1) = false) as Hl0.
      { destruct (Z.leb_spec 1 (Z.of_nat (2 * j))) as [H1|H1]; [|done]. destruct (Z.testbit low _) eqn:El; [|apply andb_false_r].
        rewrite <-(Z2Nat.id (Z.of_nat (2 * j) - 1)) in El by lia. apply Hpos in El as (k & Hk & Hn1). lia. }
      rewrite <-!andb_assoc in *. rewrite Hl0, !andb_false_r, !orb_false_r. done.
    + destruct (enum_inverse_pair j y x) as [_ ->]; [by rewrite Hm|]. pose proof (lookup_lt_Some _ _ _ Hj) as Hjl.
      destruct (paired_even m rest j y x Hj) as [Hy _]. rewrite (Hhas _ _ Hy).
      replace (Z.of_nat (S (2 * j)) - 1) with (Z.of_nat (2 * j)) by lia.
      rewrite (proj2 (proj1 (Hpos (2 * j)%nat))) by (by exists j).
      assert (Z.testbit same (Z.of_nat (S (2 * j))) = false) as ->.
      { apply not_true_is_false. intros Ht%Hpos. lia. }
      assert (Z.testbit high (Z.of_nat (S (S (2 * j)))) = false) as ->.
      { apply not_true_is_false. intros Ht%Hpos. destruct Ht as (k & Hk & Hn1). lia. }
      rewrite (proj2 (Z.ltb_lt _ _)), (proj2 (Z.leb_le _ _)) by lia.
      by rewrite !andb_false_r, !andb_true_r, orb_false_r.
    + rewrite enum_inverse_self.
      2:{ rewrite Hm. cbn. destruct order_exists as (order' & Ho' & _ & Hndo). rewrite Ho in Ho'. injection Ho' as <-.
          apply NoDup_app in Hndo as (_ & Hd & _). intros Hin. apply (Hd x); [by rewrite paired_perm|done]. }
      rewrite (Hhas _ _ Hi). pose proof (lookup_lt_Some _ _ _ Hi) as Hil. rewrite length_app, length_paired in Hil.
      assert (2 * length m ≤ i < num_values e)%nat as Hrng. { split; [exact Hge|]. rewrite <-Hlen. exact Hil. }
      rewrite (proj2 (proj2 (proj2 (Hpos i))) Hrng).
      assert (Z.testbit high (Z.of_nat (S i)) = false) as ->.
      { apply not_true_is_false. intros Ht%Hpos. destruct Ht as (k & Hk & Hn1). lia. }
      assert (Z.testbit low (Z.of_nat i - 1) = false) as ->.
      { destruct (decide (i = 0)%nat) as [->|Hi0]; [done|]. apply not_true_is_false. intros Ht.
        rewrite <-(Z2Nat.id (Z.of_nat i - 1)) in Ht by lia. apply Hpos in Ht as (k & Hk & Hn1). lia. }
      by rewrite !andb_false_r, andb_true_r.
Qed.
End inverse.
End facts.

(** ** The domain as a set *)

Lemma ed_bisect_exact `{KeyRemoval} e a b x :
  enum_ok e → ed_wf e a → ed_wf e b →
  Forall (λ d, ed_is_failed d = false) (ed_bisect e a b) ∧
  length (filter (λ d, ed_has e d x = true) (ed_bisect e a b)) = if ed_has e a x then 1%nat else 0%nat.
Proof.
  intros He Ha Hb. unfold ed_bisect, ed_bitand. pose proof (ed_not_wf e b Hb) as Hnb.
  assert (∀ d, ed_wf e d → Forall (λ d, ed_is_failed d = false) (option_list (ed_into_option d)) ∧
    length (filter (λ d, ed_has e d x = true) (option_list (ed_into_option d))) = if ed_has e d x then 1%nat else 0%nat) as Hd.
  { intros d Hd. unfold ed_into_option. destruct (ed_is_failed d) eqn:Ef; cbn [option_list].
    - split; [constructor|]. by rewrite (proj1 (ed_failed_spec e He d Hd) Ef x).
    - split; [by constructor|]. change (option_list (Some d)) with [d].
      rewrite filter_cons. by case_decide as E; destruct (ed_has e d x). }
  destruct (Hd _ (ed_land_wf e a b Ha Hb)) as [Hf1 Hl1], (Hd _ (ed_land_wf e a _ Ha Hnb)) as [Hf2 Hl2].
  split; [by apply Forall_app|]. rewrite filter_app, length_app, Hl1, Hl2, !ed_has_land.
  destruct (ed_has e a x) eqn:Ex; [|done]. rewrite ed_has_not by (done || by eapply ed_has_key). by destruct (ed_has e b x).
Qed.

Lemma ed_inverse_exact `{Profile, KeyRemoval} e m a :
  enum_ok e → (num_values e ≤ 64)%nat → inverse_mapping e = Some m → m ≠ [] → ed_wf e a →
  ∃ c, ed_inverse e a = Some c ∧ ed_wf e c ∧ ed_inverse e c = Some a ∧
    ∀ x, x ∈ value_keys e → ed_has e c x = ed_has e a (enum_inverse e x).
Proof.
  intros He Hn Hm Hne Ha. destruct (ed_inverse_spec e He m Hm Hne Hn a Ha) as (c & Hc & Wc & Hx).
  destruct (ed_inverse_spec e He m Hm Hne Hn c Wc) as (d & Hd & Wd & Hy). exists c. split; [done|]. split; [done|].
  split; [|done]. rewrite Hd. f_equal. apply (ed_ext e He); [done..|]. intros x.
  destruct (decide (x ∈ value_keys e)) as [Hk|Hk].
  - rewrite Hy, Hx by (done || by apply (enum_inverse_key e He)). by rewrite (enum_inverse_involutive e He).
  - assert (∀ z, ed_has e z x = false) as Hout; [|by rewrite !Hout].
    intros z. apply not_true_is_false. intros Hz. apply Hk. by eapply ed_has_key.
Qed.

(** C23: The printed enums are sets of values.  For a well-formed enum with at most 64
    values, each value has a constant that holds it alone; domains are equal when they
    hold the same values; insertion, restriction and negation are union, intersection and
    complement; failure, containment, intersection and being constrained are emptiness,
    inclusion, a common value and having at most one value; the listed values are those of
    the domain, bisecting it partitions it without empty parts, and the inverse printed
    with two shifts maps each value to its inverse and is an involution. *)
Theorem printed_enum_refines_set `{Profile, KeyRemoval} (e : Enum) (a b : Z) :
  enum_ok e → (num_values e ≤ 64)%nat → ed_wf e a → ed_wf e b →
  (∀ x, x ∈ value_keys e → ∃ c, value_const e x = Some c ∧ ed_wf e c ∧ ∀ y, ed_has e c y = bool_decide (y = x)) ∧
  (a = b ↔ ∀ x, ed_has e a x = ed_has e b x) ∧
  (∀ x, ed_has e (ed_insert a b) x = ed_has e a x || ed_has e b x) ∧
  (∀ x, ed_has e (ed_restrict a b) x = ed_has e a x && ed_has e b x) ∧
  (∀ x, x ∈ value_keys e → ed_has e (ed_all e) x = true ∧ ed_has e (ed_not e a) x = negb (ed_has e a x)) ∧
  (ed_is_failed a = true ↔ ∀ x, ed_has e a x = false) ∧
  (ed_contains a b = true ↔ ∀ x, ed_has e b x = true → ed_has e a x = true) ∧
  (ed_intersects a b = true ↔ ∃ x, ed_has e a x = true ∧ ed_has e b x = true) ∧
  (∃ c, ed_is_constrained e a = Some c ∧ (c = true ↔ ∀ x y, ed_has e a x = true → ed_has e a y = true → x = y)) ∧
  (∃ order, value_def_order e = Some order ∧ order ≡ₚ value_keys e ∧
    Forall2 (λ c x, value_const e x = Some c) (ed_list e a) (filter (λ x, ed_has e a x = true) order)) ∧
  Forall (λ d, ed_is_failed d = false) (ed_bisect e a b) ∧
  (∀ x, length (filter (λ d, ed_has e d x = true) (ed_bisect e a b)) = if ed_has e a x then 1%nat else 0%nat) ∧
  (∀ m, inverse_mapping e = Some m → m ≠ [] → ∃ c, ed_inverse e a = Some c ∧ ed_wf e c ∧ ed_inverse e c = Some a ∧
    ∀ x, x ∈ value_keys e → ed_has e c x = ed_has e a (enum_inverse e x)).
Proof.
  intros He Hn Ha Hb. destruct (order_exists e He) as (order & Ho & Hp & _).
  split; [by apply value_const_spec|]. split; [split; [by intros ->|by apply ed_ext]|].
  split; [intros; apply ed_has_lor|]. split; [intros; apply ed_has_land|].
  split; [intros; split; [by apply ed_has_all|by apply ed_has_not]|]. split; [by apply ed_failed_spec|].
  split; [by apply ed_contains_spec|]. split; [by apply ed_intersects_spec|]. split; [by apply ed_constrained_spec|].
  split; [exists order; split; [done|]; split; [done|]; by apply ed_list_spec|].
  split; [by apply (ed_bisect_exact e a b EmptyString)|]. split; [intros x; by apply ed_bisect_exact|].
  intros m Hm Hne. by apply (ed_inverse_exact e m).
Qed.

(** Before, after and same: the domain of [BEFORE] and [SAME] has the inverse [AFTER] and
    [SAME]. *)
Lemma printed_enum_refines_set_witness :
  let e := mkEnum "Order" None [("SAME", None); ("BEFORE", None); ("AFTER", None)] [] (Some [("BEFORE", "AFTER")]) in
  @value_def_order swap_removal e = Some ["BEFORE"; "AFTER"; "SAME"] ∧ @ed_inverse swap_removal e debug_profile 5 = Some 6 ∧
  @ed_inverse swap_removal e debug_profile 6 = Some 5.
Proof.
  intros e. split; [reflexivity|].
  destruct (@printed_enum_refines_set debug_profile swap_removal e 5 6) as (_ & _ & _ & _ & _ & _ & _ & _ & _ & _ & _ & _ & Hi);
    [apply (bool_decide_unpack _); vm_compute; exact I|by vm_compute; lia|by vm_compute|by vm_compute|].
  destruct (Hi [("BEFORE", "AFTER")]) as (c & Hc & _ & Hc' & _); [done|done|].
  assert (@ed_inverse swap_removal e debug_profile 5 = Some 6) as E by (vm_compute; reflexivity).
  split; [exact E|]. rewrite E in Hc. injection Hc as <-. exact Hc'.
Defined.
