(* ===== verification/SolverStore.v ===== *)
(** * The store of the printed solver (telamon-gen/src/print/template/getter.rs, store.rs
    and actions.rs)

    telamon-gen prints a solver for the description: a store with the domain of each
    choice on each tuple of objects, and a record of the domains that changed and were not
    propagated.  Symmetric choices are stored once for the two orders of their arguments.
    Objects stand for their identifiers, and the code of the host language is a
    parameter.  A printed expression that does not compile is a panic here. *)
From S2P Require Import Prelude Utils Orders Domains GenSets Filters FilterSemantics Instances EnumDomains.
#[local] Open Scope Z_scope.

(** ** The host language

    What the attributes of the sets and the quoted code evaluate to on an instance of the
    representation.  [pop_key] is the first key of a hash map. *)
Class Host (F Obj : Type) := {
  h_iter : F → string → option Obj → list Obj;
  h_from_superset : F → string → option Obj → Obj → option Obj;
  h_bool : F → string → list (Obj * string) → bool;
  h_num : F → string → list (Obj * string) → Z;
  h_universe : F → string → list (Obj * string) → list Z
}.

(** ** Domains *)
Inductive Dom :=
| DomEnum (bits : Z)
| DomNum (s : NumericSet)
| DomRange (r : Ranges.Range)
| DomHalf (h : HalfRanges.HalfRange).

#[global] Instance numeric_set_eq_dec : EqDecision NumericSet.
Proof. solve_decision. Defined.
#[global] Instance range_eq_dec : EqDecision Ranges.Range.
Proof. solve_decision. Defined.
#[global] Instance half_range_eq_dec : EqDecision HalfRanges.HalfRange.
Proof. solve_decision. Defined.
#[global] Instance Dom_eq_dec : EqDecision Dom.
Proof. solve_decision. Defined.

Section domains.
Context `{Profile, KeyRemoval} (ir : IrDesc).

(** [T::all] of a type, over the universe of a numeric set. *)
Definition dom_all (t : ValueType) (universe : list Z) : option Dom :=
  match t with
  | TyEnum name => e ← get_enum ir name; Some (DomEnum (ed_all e))
  | TyNumericSet _ => DomNum <$> NumericSets.all universe
  | TyRange false => Some (DomRange Ranges.ALL)
  | TyRange true => Some (DomHalf HalfRanges.ALL)
  | TyConstant => panic
  end.

(** [T::FAILED]: half ranges have none. *)
Definition dom_failed (t : ValueType) : option Dom :=
  match t with
  | TyEnum _ => Some (DomEnum ed_failed)
  | TyNumericSet _ => Some (DomNum NumericSets.FAILED)
  | TyRange false => Some (DomRange Ranges.FAILED)
  | TyRange true | TyConstant => panic
  end.

Definition dom_insert (a b : Dom) : option Dom :=
  match a, b with
  | DomEnum x, DomEnum y => Some (DomEnum (ed_insert x y))
  | DomNum x, DomNum y => Some (DomNum (NumericSets.insert x y))
  | DomRange x, DomRange y => Some (DomRange (Ranges.insert x y))
  | DomHalf x, DomHalf y => Some (DomHalf (HalfRanges.insert x y))
  | _, _ => panic
  end.

Definition dom_restrict (a b : Dom) : option Dom :=
  match a, b with
  | DomEnum x, DomEnum y => Some (DomEnum (ed_restrict x y))
  | DomNum x, DomNum y => Some (DomNum (NumericSets.restrict x y))
  | DomRange x, DomRange y => Some (DomRange (Ranges.restrict x y))
  | DomHalf x, DomHalf y => Some (DomHalf (HalfRanges.restrict x y))
  | _, _ => panic
  end.

Definition dom_is_failed (a : Dom) : bool :=
  match a with
  | DomEnum x => ed_is_failed x
  | DomNum x => NumericSets.is_failed x
  | DomRange x => Ranges.is_failed x
  | DomHalf x => HalfRanges.is_failed x
  end.

Definition dom_is_constrained (t : ValueType) (a : Dom) : option bool :=
  match t, a with
  | TyEnum name, DomEnum x => e ← get_enum ir name; ed_is_constrained e x
  | _, DomEnum _ => panic
  | _, DomNum x => Some (NumericSets.is_constrained x)
  | _, DomRange x => Some (Ranges.is_constrained x)
  | _, DomHalf x => Some (HalfRanges.is_constrained x)
  end.

(** [Domain::intersects], redefined by enums. *)
Definition dom_intersects (a b : Dom) : option bool :=
  match a, b with
  | DomEnum x, DomEnum y => Some (ed_intersects x y)
  | _, _ => other ← dom_restrict b a; Some (negb (dom_is_failed other))
  end.

(** [Domain::is]. *)
Definition dom_is (a b : Dom) : option Trivalent :=
  other ← dom_restrict b a;
  Some (if dom_is_failed other then TFalse else if decide (other = a) then TTrue else TMaybe).

(** [inverse], on the printed enums that have it. *)
Definition dom_inverse (t : ValueType) (a : Dom) : option Dom :=
  match t, a with
  | TyEnum name, DomEnum x => e ← get_enum ir name; DomEnum <$> ed_inverse e x
  | _, _ => panic
  end.

(** [!a], on enums. *)
Definition dom_not (t : ValueType) (a : Dom) : option Dom :=
  match t, a with
  | TyEnum name, DomEnum x => e ← get_enum ir name; Some (DomEnum (ed_not e x))
  | _, _ => panic
  end.

(** [complement], on enums and numeric sets. *)
Definition dom_complement (t : ValueType) (universe : list Z) (a : Dom) : option Dom :=
  match a with
  | DomEnum _ => dom_not t a
  | DomNum x => DomNum <$> NumericSets.complement x universe
  | DomRange _ | DomHalf _ => panic
  end.

(** The numbers of a domain; enums are no [NumSet]. *)
#[global] Instance dom_num_set : NumSet Dom (list Z) := {|
  min_value d u :=
    match d with
    | DomEnum _ => panic
    | DomNum s => min_value s u
    | DomRange r => min_value r tt
    | DomHalf h => min_value h tt
    end;
  max_value d u :=
    match d with
    | DomEnum _ => panic
    | DomNum s => max_value s u
    | DomRange r => max_value r tt
    | DomHalf h => max_value h tt
    end;
  into_num_set d u v :=
    match d with
    | DomEnum _ => panic
    | DomNum s => into_num_set s u v
    | DomRange r => into_num_set r tt v
    | DomHalf h => into_num_set h tt v
    end
|}.
End domains.

(** ** The store *)

(** The domains of each choice, by the identifiers of its arguments. *)
Notation Store Obj := (gmap string (gmap (list Obj) Dom)).
(** The old and the new domains. *)
Notation Diff Obj := (gmap string (gmap (list Obj) (Dom * Dom))).

Section store.
Context {F Obj : Type} `{Profile, KeyRemoval} `{Host F Obj} `{Countable Obj, RustOrd Obj, Inhabited Obj}.


Record Solver := mkSolver {
  sv_fun : F;
  sv_store : Store Obj;
  sv_diff : Diff Obj
}.

(** An action restricts a choice to a domain. *)
Record Action := mkAction { act_choice : string; act_ids : list Obj; act_dom : Dom }.

(** *** Computations on the solver, that may return an error or panic *)
Definition Sol (A : Type) : Type := Solver → option (Solver * result A unit).

Definition sret {A : Type} (x : A) : Sol A := λ s, Some (s, ROk x).

Definition serr {A : Type} : Sol A := λ s, Some (s, RErr tt).

Definition sbind {A B : Type} (m : Sol A) (k : A → Sol B) : Sol B := λ s,
  match m s with
  | None => None
  | Some (s, RErr x) => Some (s, RErr x)
  | Some (s, ROk x) => k x s
  end.

(** A part that only reads the solver. *)
Definition sread {A : Type} (f : Solver → option A) : Sol A := λ s, x ← f s; Some (s, ROk x).

Fixpoint sfor {A : Type} (l : list A) (body : A → Sol unit) : Sol unit :=
  match l with
  | [] => sret tt
  | x :: l => sbind (body x) (λ _, sfor l body)
  end.

(** *** Getters *)
Context (ir : IrDesc).

Definition is_antisymmetric (a : ChoiceArguments) : bool :=
  match a with Symmetric _ _ inverse => inverse | Plain _ => false end.

(** The arguments in the order of the store, and whether they were swapped. *)
Definition stored_ids (ch : Choice) (ids : list Obj) : option (list Obj * bool) :=
  if is_symmetric (arguments ch) then
    match ids with
    | [lhs; rhs] => Some (match rcmp lhs rhs with Gt => ([rhs; lhs], true) | _ => ([lhs; rhs], false) end)
    | _ => panic
    end
  else Some (ids, false).

(** A value for the arguments seen in the other order. *)
Definition inverse_swapped (ch : Choice) (swapped : bool) (d : Dom) : option Dom :=
  if swapped && is_antisymmetric (arguments ch) then dom_inverse ir (choice_value_type ch) d else Some d.

Definition store_lookup (store : Store Obj) (name : string) (ids : list Obj) : option Dom :=
  doms ← store !! name; doms !! ids.

(** [get_{{name}}]. *)
Definition store_get (name : string) (ids : list Obj) (store : Store Obj) : option Dom :=
  ch ← get_choice ir name;
  '(ids, swapped) ← stored_ids ch ids;
  d ← store_lookup store name ids;
  inverse_swapped ch swapped d.

Definition diff_lookup (diff : Diff Obj) (name : string) (ids : list Obj) : option (Dom * Dom) :=
  doms ← diff !! name; doms !! ids.

(** [get_old_{{name}}]. *)
Definition store_get_old (name : string) (ids : list Obj) (store : Store Obj) (diff : Diff Obj) : option Dom :=
  ch ← get_choice ir name;
  '(ids, swapped) ← stored_ids ch ids;
  d ← match diff_lookup diff name ids with
      | Some (old, _) => Some old
      | None => store_lookup store name ids
      end;
  inverse_swapped ch swapped d.

(** [self.{{name}}.get_mut(&args).unwrap()], followed by a write. *)
Definition store_write (name : string) (ids : list Obj) (d : Dom) (store : Store Obj) : Store Obj :=
  alter (λ doms, <[ids := d]> doms) name store.

(** [set_{{name}}]. *)
Definition store_set (name : string) (ids : list Obj) (value : Dom) (store : Store Obj) : option (Store Obj) :=
  ch ← get_choice ir name;
  '(ids, swapped) ← stored_ids ch ids;
  value ← inverse_swapped ch swapped value;
  _ ← store_lookup store name ids;
  Some (store_write name ids value store).

(** [diff.{{name}}.entry(args).or_insert((old, new)).1 = new]. *)
Definition diff_record (name : string) (ids : list Obj) (old new : Dom) (diff : Diff Obj) : Diff Obj :=
  let doms := default ∅ (diff !! name) in
  let entry := match doms !! ids with Some (old, _) => (old, new) | None => (old, new) end in
  <[name := <[ids := entry]> doms]> diff.

(** The operation of [restrict_{{name}}]: counters apply a difference. *)
Definition restrict_op (def : ChoiceDef) (d value : Dom) : option Dom :=
  match def with
  | DefCounter kind _ _ _ _ _ _ =>
    match kind, d, value with
    | CounterAdd, DomRange d, DomRange v => DomRange <$> Ranges.apply_diff_add d v
    | CounterMul, DomRange d, DomRange v => DomRange <$> Ranges.apply_diff_mul d v
    | CounterAdd, DomHalf d, DomHalf v => DomHalf <$> HalfRanges.apply_diff_add d v
    | CounterMul, DomHalf d, DomHalf v => DomHalf <$> HalfRanges.apply_diff_mul d v
    | _, _, _ => panic
    end
  | DefEnum _ | DefNumber _ => dom_restrict d value
  end.

(** The end of [restrict_{{name}}] and of [update_{{name}}]. *)
Definition commit_domain (name : string) (ids : list Obj) (old new : Dom) : Sol unit := λ s,
  let diff := if decide (old = new) then sv_diff s else diff_record name ids old new (sv_diff s) in
  Some (mkSolver (sv_fun s) (store_write name ids new (sv_store s)) diff,
        if dom_is_failed new then RErr tt else ROk tt).

(** [restrict_{{name}}] of the store. *)
Definition store_restrict (name : string) (ids : list Obj) (value : Dom) : Sol unit := λ s,
  ch ← get_choice ir name;
  '(ids, swapped) ← stored_ids ch ids;
  value ← inverse_swapped ch swapped value;
  old ← store_lookup (sv_store s) name ids;
  new ← restrict_op (choice_def ch) old value;
  commit_domain name ids old new s.

(** The operations that take an increment out of a counter and put another one in. *)
Definition exchange_incr (kind : CounterKind) (d old_incr new_incr : Dom) : option Dom :=
  match kind, d, old_incr, new_incr with
  | CounterAdd, DomRange d, DomRange a, DomRange b => d ← Ranges.sub_add d a; DomRange <$> Ranges.add_add d b
  | CounterMul, DomRange d, DomRange a, DomRange b => d ← Ranges.sub_mul d a; DomRange <$> Ranges.add_mul d b
  | CounterAdd, DomHalf d, DomHalf a, DomHalf b => d ← HalfRanges.sub_add d a; DomHalf <$> HalfRanges.add_add d b
  | CounterMul, DomHalf d, DomHalf a, DomHalf b => d ← HalfRanges.sub_mul d a; DomHalf <$> HalfRanges.add_mul d b
  | _, _, _, _ => panic
  end.

(** [update_{{name}}], that only counters have. *)
Definition store_update (name : string) (ids : list Obj) (old_incr new_incr : Dom) : Sol unit := λ s,
  ch ← get_choice ir name;
  '(ids, _) ← stored_ids ch ids;
  old ← store_lookup (sv_store s) name ids;
  new ← match choice_def ch with
        | DefCounter kind _ _ _ _ _ _ => exchange_incr kind old old_incr new_incr
        | DefEnum _ | DefNumber _ => panic
        end;
  commit_domain name ids old new s.

(** [DomainDiff::is_empty]. *)
Definition diff_is_empty (diff : Diff Obj) : bool :=
  bool_decide (map_Forall (λ _ (doms : gmap (list Obj) (Dom * Dom)), doms = ∅) diff).

(** [pop_{{name}}_diff], which removes the first entry of the map; [first_key] gives its
    key, in the order of the hash map. *)
Definition pop_diff (first_key : gmap (list Obj) (Dom * Dom) → option (list Obj)) (name : string) (diff : Diff Obj)
  : option (option (list Obj * Dom * Dom) * Diff Obj) :=
  let doms := default ∅ (diff !! name) in
  match first_key doms with
  | None => Some (None, diff)
  | Some k =>
    '(old, new) ← doms !! k;
    Some (Some (k, old, new), <[name := delete k doms]> diff)
  end.

(** [apply_action]. *)
Definition apply_action (a : Action) : Sol unit := store_restrict (act_choice a) (act_ids a) (act_dom a).

(** [Action::complement]: counters have none. *)
Definition action_complement (universe : list Z) (a : Action) : option (option Action) :=
  ch ← get_choice ir (act_choice a);
  match choice_def ch with
  | DefCounter _ _ _ _ _ _ _ => Some None
  | DefEnum _ | DefNumber _ =>
    d ← dom_complement ir (choice_value_type ch) universe (act_dom a);
    Some (Some (mkAction (act_choice a) (act_ids a) d))
  end.
End store.

Arguments Solver F Obj {_ _}.
Arguments Action : clear implicits.

Notation "'let*' x ':=' e 'in' k" := (sbind e (λ x, k))
  (at level 200, x pattern, e at level 200, k at level 200, right associativity) : rust_scope.
Notation "'do*' e ';' k" := (sbind e (λ _, k))
  (at level 200, e at level 100, k at level 200, right associativity) : rust_scope.
