(* ===== verification/LoopNests.v ===== *)
(** * Loops and set constraints of the printed solver (telamon-gen/src/print/ast.rs,
    template/loop_nest.rs, conflict.rs, set_constraints.rs and set/)

    The solver quantifies over objects with nests of loops on sets.  A loop skips the
    objects of the variables bound before it whose set may share objects with its own.
    A variable of the printed code is the variable of the description that it stands for:
    the printer gives each of them a name of its own. *)
From S2P Require Import Prelude Utils Orders Domains GenSets Filters FilterSemantics Instances EnumDomains SolverStore.

(** ** The variables of a piece of printed code, with their sets *)
Record PrintContext := mkPrintContext {
  ctx_vars : gmap Var GSet;
  ctx_inputs : list ValueType
}.

(** [Context::new]; the inputs carry the types of their values. *)
Definition context_new (ir : IrDesc) (choice : Choice) (foralls : list GSet) (input_defs : list ChoiceInstance)
  : option PrintContext :=
  inputs ← mapM (instance_value_type ir) input_defs;
  Some (mkPrintContext
    (list_to_map (((λ '(id, s), (ForallVar id, s)) <$> enumerate foralls) ++
                  ((λ '(id, s), (Arg id, s)) <$> enumerate (arguments_sets (arguments choice)))))
    inputs).

(** ** References to sets *)
Inductive SetAst := mkSetAst (sa_def : SetDef) (sa_var : option Var) (sa_constraints : list SetAst).

Definition sa_def (s : SetAst) : SetDef := let '(mkSetAst d _ _) := s in d.
Definition sa_var (s : SetAst) : option Var := let '(mkSetAst _ v _) := s in v.
Definition sa_constraints (s : SetAst) : list SetAst := let '(mkSetAst _ _ c) := s in c.

(** The name of the parameter of a set. *)
Definition param_name (ctx : PrintContext) (var : option Var) : option (option Var) :=
  match var with Some v => _ ← ctx_vars ctx !! v; Some (Some v) | None => Some None end.

(** [Set::new] on a set without reverse constraint: the sets of [path_to_superset] have
    none, once the first one has been taken away. *)
Definition set_ast_plain (ctx : PrintContext) (s : GSet) : option SetAst :=
  let! var := param_name ctx (set_arg s) in Some (mkSetAst (set_def s) var []).

(** [Set::new]. *)
Fixpoint set_ast_new (ctx : PrintContext) (s : GSet) : option SetAst :=
  match s with
  | mkSet d (Some rev_set) v =>
    rev_set_ast ← set_ast_new ctx rev_set;
    let! sup := superset rev_set in
    sup ← sup;
    path ← path_to_superset (mkSet d None v) sup;
    constraints ← mapM (set_ast_plain ctx) (reverse path);
    Some (mkSetAst (sa_def rev_set_ast) (sa_var rev_set_ast) constraints)
  | mkSet d None v => set_ast_plain ctx (mkSet d None v)
  end.

(** ** Conflicts *)

(** A variable bound before, and the set it is in. *)
Record Conflict := mkConflict { conflict_var : Var; conflict_set : GSet }.

Record ConflictAst := mkConflictAst { ca_var : Var; ca_set : SetDef }.

(** [Conflict::generate_ast]. *)
Definition generate_ast (c : Conflict) (set : GSet) : option (option ConflictAst) :=
  let! common := get_collision_level (conflict_set c) set in
  Some (mkConflictAst (conflict_var c) <$> common).

(** [Conflict::choice_args]. *)
Definition choice_args (choice : Choice) : list Conflict :=
  (λ '(pos, t), mkConflict (Arg pos) t) <$> enumerate (arguments_sets (arguments choice)).

(** ** Loop nests *)
Record Level := mkLevel { lv_var : Var; lv_set : SetAst; lv_conflicts : list ConflictAst }.

Record LoopNest := mkLoopNest { levels : list Level; triangular : bool }.

(** [LoopNest::build_level], for nests that do not skip new objects. *)
Definition build_level (ctx : PrintContext) (outer_vars : list Conflict) (var : Var)
  : option (Level * list Conflict) :=
  set ← ctx_vars ctx !! var;
  conflicts ← mapM (λ c, generate_ast c set) outer_vars;
  set_ast ← set_ast_new ctx set;
  Some (mkLevel var set_ast (omap id conflicts), outer_vars ++ [mkConflict var set]).

Fixpoint build_levels (ctx : PrintContext) (outer_vars : list Conflict) (vars : list Var)
  : option (list Level * list Conflict) :=
  match vars with
  | [] => Some ([], outer_vars)
  | var :: vars =>
    '(level, outer_vars) ← build_level ctx outer_vars var;
    '(levels, outer_vars) ← build_levels ctx outer_vars vars;
    Some (level :: levels, outer_vars)
  end.

(** [LoopNest::new], with the variables bound after it. *)
Definition loop_nest_new (vars : list Var) (ctx : PrintContext) (outer_vars : list Conflict)
  : option (LoopNest * list Conflict) :=
  '(levels, outer_vars) ← build_levels ctx outer_vars vars;
  Some (mkLoopNest levels false, outer_vars).

(** [LoopNest::triangular]. *)
Definition loop_nest_triangular (lhs rhs : Var) (ctx : PrintContext) : option LoopNest :=
  lhs_set ← ctx_vars ctx !! lhs;
  rhs_set ← ctx_vars ctx !! rhs;
  rassert (set_eqb lhs_set rhs_set);;
  set ← set_ast_new ctx lhs_set;
  Some (mkLoopNest [mkLevel lhs set []; mkLevel rhs set [mkConflictAst lhs (sa_def set)]] true).

(** [iteration_space] of print/choice.rs. *)
Definition iteration_space (choice : Choice) (ctx : PrintContext) : option LoopNest :=
  match arguments choice with
  | Plain vars => fst <$> loop_nest_new (Arg <$> seq 0 (length vars)) ctx []
  | Symmetric _ _ _ => loop_nest_triangular (Arg 0) (Arg 1) ctx
  end.

(** ** Set constraints *)
Record SetConstraintAst := mkSetConstraintAst { sc_var : Var; sc_sets : list SetAst }.

(** [SetConstraint::new]: the sets to go through from the set of the variable. *)
Fixpoint set_constraint_asts (constraints : SetConstraints) (ctx : PrintContext)
  : option (list SetConstraintAst) :=
  match constraints with
  | [] => Some []
  | (var, expected) :: constraints =>
    current ← ctx_vars ctx !! var;
    sets ← path_to_superset expected current;
    sets ← mapM (set_ast_new ctx) (reverse sets);
    rest ← set_constraint_asts constraints ctx;
    Some (match sets with [] => rest | _ => mkSetConstraintAst var sets :: rest end)
  end.

(** * Running the loops *)
Section run.
Context {F Obj : Type} `{Host F Obj} `{Countable Obj, RustOrd Obj, Inhabited Obj} (fn : F).
Implicit Types (env : Var → Obj).

(** The objects that the variables stand for when a choice is given its arguments. *)
Definition args_env (ids : list Obj) : Var → Obj := λ v,
  match v with Arg i => default inhabitant (ids !! i) | ForallVar _ => inhabitant end.

Definition bind_var (var : Var) (o : Obj) env : Var → Obj := λ v, if decide (v = var) then o else env v.

(** The [from_superset] of a set, then those of its constraints. *)
Fixpoint from_superset (s : SetAst) env (item : Obj) : option Obj :=
  match s with
  | mkSetAst def var constraints =>
    item ← h_from_superset fn (def_name def) (env <$> var) item;
    (fix go (cs : list SetAst) (item : Obj) : option Obj :=
       match cs with
       | [] => Some item
       | c :: cs => item ← from_superset c env item; go cs item
       end) constraints item
  end.

(** The iterator of a set: constraints filter its items. *)
Definition set_iterator (s : SetAst) env : list Obj :=
  omap (λ obj, foldM (λ obj c, from_superset c env obj) (sa_constraints s) obj)
    (h_iter fn (def_name (sa_def s)) (env <$> sa_var s)).

(** Whether the conflicts of a level make it skip an object. *)
Definition conflicts_with (triangular : bool) env (o : Obj) (c : ConflictAst) : bool :=
  if triangular then match rcmp o (env (ca_var c)) with Gt => false | _ => true end
  else bool_decide (o = env (ca_var c)).

(** The environments that the body of a nest is run in, in order. *)
Fixpoint level_envs (triangular : bool) (levels : list Level) env : list (Var → Obj) :=
  match levels with
  | [] => [env]
  | level :: levels =>
    filter (λ o, existsb (conflicts_with triangular env o) (lv_conflicts level) = false)
      (set_iterator (lv_set level) env) ≫= λ o, level_envs triangular levels (bind_var (lv_var level) o env)
  end.

Definition nest_envs (nest : LoopNest) env : list (Var → Obj) := level_envs (triangular nest) (levels nest) env.

(** The nested [if let Some(var) = ...]: the environment of the body, if it is run. *)
Fixpoint constrained_env (constraints : list SetConstraintAst) env : option (Var → Obj) :=
  match constraints with
  | [] => Some env
  | c :: constraints =>
    o ← foldM (λ o s, from_superset s env o) (sc_sets c) (env (sc_var c));
    constrained_env constraints (bind_var (sc_var c) o env)
  end.
End run.
