(* ===== verification/PrintedFilters.v ===== *)
(** * Printed filters (telamon-gen/src/print/filter.rs, value_set.rs, value.rs and the
    templates filter.rs, positive_filter.rs and rule.rs)

    A filter is printed as a function that starts from the empty domain and inserts the
    values that the cases of its switches and its rules allow.  It reads domains instead
    of values: a condition holds when no value of its input falsifies it. *)
From S2P Require Import Prelude Utils Orders Domains GenSets Filters FilterSemantics Instances EnumDomains SolverStore LoopNests.

(** ** What is printed *)

(** A rule; values and conditions are printed in place. *)
Record RuleAst := mkRuleAst {
  ra_conditions : list Condition;
  ra_set_conditions : list SetConstraintAst;
  ra_values : ValueSet
}.

Definition rule_ast_new (rule : Rule) (ctx : PrintContext) : option RuleAst :=
  set_conditions ← set_constraint_asts (set_constraints rule) ctx;
  Some (mkRuleAst (conditions rule) set_conditions (alternatives rule)).

Inductive PositiveFilter :=
| PfSwitch (var : nat) (cases : list (ValueSet * PositiveFilter))
| PfAllowValues (values : ValueSet)
| PfAllowAll (value_type : ValueType)
| PfRules (value_type : ValueType) (rules : list RuleAst)
| PfEmpty.

(** [PositiveFilter::rules]. *)
Definition positive_rules (rules : list Rule) (choice : Choice) (ctx : PrintContext) : option PositiveFilter :=
  let value_type := full_type (choice_value_type choice) in
  match rules with
  | [] => Some (PfAllowAll value_type)
  | [mkRule [] alternatives []] => Some (if vs_is_empty alternatives then PfEmpty else PfAllowValues alternatives)
  | rules => PfRules value_type <$> mapM (λ r, rule_ast_new r ctx) rules
  end.

(** [PositiveFilter::new]. *)
Fixpoint positive_filter_new (filter : SubFilter) (choice : Choice) (ctx : PrintContext) : option PositiveFilter :=
  match filter with
  | Rules rules => positive_rules rules choice ctx
  | Switch switch cases =>
    PfSwitch switch <$>
      (fix go (cases : list (ValueSet * SubFilter)) : option (list (ValueSet * PositiveFilter)) :=
         match cases with
         | [] => Some []
         | (values, sub_filter) :: cases =>
           sub_filter ← positive_filter_new sub_filter choice ctx;
           rest ← go cases;
           Some ((values, sub_filter) :: rest)
         end) cases
  end.

(** [Filter]: the arguments are named after the arguments of the choice and the foralls. *)
Record FilterAst := mkFilterAst {
  fi_num_args : nat;
  fi_type : ValueType;
  fi_bindings : list ChoiceInstance;
  fi_context : PrintContext;
  fi_body : PositiveFilter
}.

(** [Filter::new]. *)
Definition filter_ast_new (filter : Filter) (choice : Choice) (ir : IrDesc) : option FilterAst :=
  let num_args := arguments_len (arguments choice) in
  rassert (num_args <=? length (filter_arguments filter))%nat;;
  ctx ← context_new ir choice (drop num_args (filter_arguments filter)) (filter_inputs filter);
  body ← positive_filter_new (filter_rules filter) choice ctx;
  Some (mkFilterAst num_args (full_type (choice_value_type choice)) (filter_inputs filter) ctx body).

(** * Running the filters *)
Section run.
Context {F Obj : Type} `{Profile, KeyRemoval} `{Host F Obj} `{Countable Obj, RustOrd Obj, Inhabited Obj}.
Context (ir : IrDesc) (fn : F).

(** [print::value::universe]. *)
Definition universe (env : Var → Obj) (t : ValueType) : list Z :=
  match t with TyNumericSet c => h_universe fn (code c) (code_env env c) | _ => [] end.

(** [T::all(universe)]. *)
Definition full_domain (env : Var → Obj) (t : ValueType) : option Dom := dom_all ir t (universe env t).

Section env.
Context (ctx : PrintContext) (env : Var → Obj) (inputs : list Dom).

(** An input, with the type of its values. *)
Definition input_dom (i : nat) : option (ValueType * Dom) :=
  t ← ctx_inputs ctx !! i; d ← inputs !! i; Some (t, d).

(** ** Value sets *)

(** [(!)input(.inverse())] in a set of enum values. *)
Definition enum_input (x : nat * bool * bool) : option Dom :=
  let '(input, negate, inverse) := x in
  '(t, d) ← input_dom input;
  d ← (if inverse : bool then dom_inverse ir t d else Some d);
  if negate : bool then dom_not ir t d else Some d.

(** [a | b | ...], on enums. *)
Fixpoint dom_union (first : Dom) (parts : list (option Dom)) : option Dom :=
  match parts with
  | [] => Some first
  | part :: parts =>
    part ← part;
    match first, part with
    | DomEnum a, DomEnum b => dom_union (DomEnum (ed_bitor a b)) parts
    | _, _ => panic
    end
  end.

(** [enum_set].  The values of a set are values of the enum: aliases were expanded. *)
Definition enum_set (name : string) (values : gset string) (ins : gset (nat * bool * bool)) : option Dom :=
  e ← get_enum ir name;
  match ((λ x, DomEnum <$> value_const e x) <$> elements values) ++ (enum_input <$> elements ins) with
  | [] => panic
  | first :: parts => first ← first; dom_union first parts
  end.

(** [integer_domain_constructor]: the domain of type [t] that respects [op] with regard
    to another domain. *)
Definition integer_domain_constructor {D U : Type} `{NumSet D U} (op : CmpOp) (t : ValueType) (from : D) (from_universe : U)
  : option Dom :=
  let u := universe env t in
  match t with
  | TyNumericSet _ =>
    DomNum <$>
      match op with
      | OpLt => NumericSets.new_lt u from from_universe
      | OpGt => NumericSets.new_gt u from from_universe
      | OpLeq => NumericSets.new_leq u from from_universe
      | OpGeq => NumericSets.new_geq u from from_universe
      | OpEq => NumericSets.new_eq u from from_universe
      | OpNeq => panic
      end
  | TyRange false =>
    DomRange <$>
      match op with
      | OpLt => Ranges.new_lt from from_universe
      | OpGt => Ranges.new_gt from from_universe
      | OpLeq => Ranges.new_leq from from_universe
      | OpGeq => Ranges.new_geq from from_universe
      | OpEq => Ranges.new_eq from from_universe
      | OpNeq => panic
      end
  | TyRange true =>
    DomHalf <$>
      match op with
      | OpLt => HalfRanges.new_lt from from_universe
      | OpGt => HalfRanges.new_gt from from_universe
      | OpLeq => HalfRanges.new_leq from from_universe
      | OpGeq => HalfRanges.new_geq from from_universe
      | OpEq => HalfRanges.new_eq from from_universe
      | OpNeq => panic
      end
  | TyEnum _ | TyConstant => panic
  end.

(** A number given by a piece of code. *)
Definition code_num (c : Code) : Z := h_num fn (code c) (code_env env c).

Definition integer_input (t : ValueType) (x : CmpOp * nat) : option Dom :=
  let '(op, input) := x in
  '(ti, d) ← input_dom input;
  integer_domain_constructor op t d (universe env ti).

Definition integer_code (t : ValueType) (x : CmpOp * Code) : option Dom :=
  let '(op, c) := x in integer_domain_constructor op t (code_num c) tt.

(** [value_set::print].  The domains of integers have no [|]: a set with several
    comparisons does not compile. *)
Definition value_set_dom (s : ValueSet) : option Dom :=
  if vs_is_empty s then dom_failed (vs_t s)
  else
    match s with
    | VSEnum name values ins => enum_set name values ins
    | VSInteger true _ _ t => full_domain env t
    | VSInteger false cmp_inputs cmp_code t =>
      match (integer_input t <$> elements cmp_inputs) ++ (integer_code t <$> elements cmp_code) with
      | [part] => part
      | _ => panic
      end
    end.

(** ** Conditions *)

(** [comparison]: enums have no universe. *)
Definition comparison {D U : Type} `{NumSet D U} (op : CmpOp) (lhs : ValueType * Dom) (rhs : D) (rhs_universe : U)
  : option bool :=
  match lhs.1 with
  | TyEnum _ => panic
  | _ =>
    let u := universe env lhs.1 in
    match op with
    | OpEq => is_eq lhs.2 u rhs rhs_universe
    | OpNeq =>
      match lhs.2 with
      | DomNum s => NumericSets.ns_is_neq s u rhs rhs_universe
      | _ => is_neq lhs.2 u rhs rhs_universe
      end
    | OpLt => is_lt lhs.2 u rhs rhs_universe
    | OpGt => is_gt lhs.2 u rhs rhs_universe
    | OpLeq => is_leq lhs.2 u rhs rhs_universe
    | OpGeq => is_geq lhs.2 u rhs rhs_universe
    end
  end.

(** [filter::condition]: whether the condition holds for sure. *)
Definition condition (c : Condition) : option bool :=
  match c with
  | CBool b => Some b
  | CCode c negate => Some (xorb negate (h_bool fn (code c) (code_env env c)))
  | CEnum input values negate inverse =>
    '(t, d) ← input_dom input;
    name ← type_as_enum t;
    e ← get_enum ir name;
    set ← value_set_dom (normalized_enum_set values (negb negate) inverse e);
    b ← dom_intersects d set;
    Some (negb b)
  | CCmpCode lhs rhs op =>
    lhs ← input_dom lhs;
    comparison op lhs (code_num rhs) tt
  | CCmpInput lhs rhs op inverse =>
    lhs ← input_dom lhs;
    '(t, rhs) ← input_dom rhs;
    match t with
    | TyEnum _ => panic
    | _ => if inverse : bool then panic else comparison op lhs rhs (universe env t)
    end
  end.

(** [a && b && ...]. *)
Fixpoint all_conditions (conds : list Condition) : option bool :=
  match conds with
  | [] => Some true
  | c :: conds => let! b := condition c in if (b : bool) then all_conditions conds else Some false
  end.
End env.

(** ** Rules and filters *)

(** A rule restricts [values]. *)
Definition run_rule (ctx : PrintContext) (env : Var → Obj) (inputs : list Dom) (values : Dom) (r : RuleAst) : option Dom :=
  match constrained_env fn (ra_set_conditions r) env with
  | None => Some values
  | Some env =>
    let! b := all_conditions ctx env inputs (ra_conditions r) in
    if (b : bool) then
      allowed ← value_set_dom ctx env inputs (ra_values r);
      dom_restrict values allowed
    else Some values
  end.

(** A filter inserts values in [values]. *)
Fixpoint run_positive (ctx : PrintContext) (env : Var → Obj) (inputs : list Dom) (f : PositiveFilter) (values : Dom)
  : option Dom :=
  match f with
  | PfSwitch var cases =>
    (fix go (cases : list (ValueSet * PositiveFilter)) (values : Dom) : option Dom :=
       match cases with
       | [] => Some values
       | (guard, f) :: cases =>
         '(_, d) ← input_dom ctx inputs var;
         guard ← value_set_dom ctx env inputs guard;
         let! b := dom_intersects d guard in
         values ← (if (b : bool) then run_positive ctx env inputs f values else Some values);
         go cases values
       end) cases values
  | PfAllowValues allowed => allowed ← value_set_dom ctx env inputs allowed; dom_insert values allowed
  | PfAllowAll t => all ← full_domain env t; dom_insert values all
  | PfRules t rules =>
    all ← full_domain env t;
    new_values ← foldM (run_rule ctx env inputs) rules all;
    dom_insert values new_values
  | PfEmpty => Some values
  end.

(** The objects that the arguments and the foralls of a filter stand for. *)
Definition call_env (num_args : nat) (objs : list Obj) : Var → Obj := λ v,
  default inhabitant (match v with Arg i => take num_args objs !! i | ForallVar i => drop num_args objs !! i end).

(** [filter_{{id}}], on the objects that it is given. *)
Definition run_filter (f : FilterAst) (objs : list Obj) (store : Store Obj) : option Dom :=
  let env := call_env (fi_num_args f) objs in
  values ← dom_failed (fi_type f);
  inputs ← mapM (λ c, store_get ir (ci_choice c) (env <$> ci_vars c) store) (fi_bindings f);
  run_positive (fi_context f) env inputs (fi_body f) values.
End run.
