(* ===== verification/TopSort.v ===== *)
(** * Ordering the choices (telamon-gen/src/print/mod.rs)

    The solver computes counters before the counters they feed, so the choices are printed
    in a topological order: [stable_topological_sort] is Kahn's algorithm, with a heap
    that gives the first ready node in the original order. *)
From S2P Require Import Prelude Utils Orders GenSets Filters.

(** ** The data of the algorithm *)
Record NodeData := mkNodeData { nd_index : nat; nd_num_predecessors : nat; nd_successors : list nat }.

Definition node_data_new (index : nat) : NodeData := mkNodeData index 0 [].

Definition add_successor (s : nat) (d : NodeData) : NodeData :=
  mkNodeData (nd_index d) (nd_num_predecessors d) (nd_successors d ++ [s]).

Definition set_num_predecessors (k : nat) (d : NodeData) : NodeData :=
  mkNodeData (nd_index d) k (nd_successors d).

(** [node_data[i].as_mut().unwrap()], followed by a write. *)
Definition update_node (i : nat) (f : NodeData → NodeData) (node_data : list (option NodeData))
  : option (list (option NodeData)) :=
  let! slot := node_data !! i in
  d ← slot;
  Some (<[i := Some (f d)]> node_data).

(** The heap: the entry of least index comes first, as [Ord] reverses the indices. *)
Fixpoint queue_push (d : NodeData) (queue : list NodeData) : list NodeData :=
  match queue with
  | [] => [d]
  | d' :: queue' => if nd_index d <=? nd_index d' then d :: queue else d' :: queue_push d queue'
  end.

(** [data.take().unwrap()] of a ready node goes to the queue. *)
Definition take_ready (i : nat) (state : list (option NodeData) * list NodeData)
  : option (list (option NodeData) * list NodeData) :=
  let '(node_data, queue) := state in
  let! slot := node_data !! i in
  d ← slot;
  Some (if nd_num_predecessors d =? 0 then (<[i := None]> node_data, queue_push d queue) else (node_data, queue)).

(** One successor of a sorted node. *)
Definition visit_successor (state : list (option NodeData) * list NodeData) (s : nat)
  : option (list (option NodeData) * list NodeData) :=
  let '(node_data, queue) := state in
  let! slot := node_data !! s in
  d ← slot;
  rassert (negb (nd_num_predecessors d =? 0));;
  let node_data := <[s := Some (set_num_predecessors (pred (nd_num_predecessors d)) d)]> node_data in
  take_ready s (node_data, queue).

(** The loop on the queue. *)
Fixpoint sort_loop (fuel : nat) (node_data : list (option NodeData)) (queue : list NodeData) (sorted : list nat)
  : option (list (option NodeData) * list nat) :=
  match fuel with
  | O => None
  | S fuel =>
    match queue with
    | [] => Some (node_data, sorted)
    | data :: queue =>
      '(node_data, queue) ← foldM visit_successor (nd_successors data) (node_data, queue);
      sort_loop fuel node_data queue (sorted ++ [nd_index data])
    end
  end.

(** The predecessors and the successors of each node, by index. *)
Definition link_node (node_data : list (option NodeData)) (x : nat * list nat) : option (list (option NodeData)) :=
  let '(index, preds) := x in
  node_data ← foldM (λ node_data p, update_node p (add_successor index) node_data) preds node_data;
  update_node index (set_num_predecessors (length preds)) node_data.

(** The sort, on the indices of the nodes. *)
Definition sort_indices (preds : list (list nat)) : option (list nat * list nat) :=
  let n := length preds in
  node_data ← foldM link_node (enumerate preds) (Some ∘ node_data_new <$> seq 0 n);
  '(node_data, queue) ← foldM (λ state i, take_ready i state) (seq 0 n) (node_data, []);
  '(node_data, sorted) ← sort_loop (S n) node_data queue [];
  Some (sorted, filter (λ i, is_Some (node_data !! i ≫= id)) (seq 0 n)).

(** [stable_topological_sort]. *)
Definition stable_topological_sort {N : Type} `{EqDecision N} (nodes : list N) (predecessors : N → list N)
  : outcome (list N) (list N * list N) :=
  let! _ := rassert (bool_decide (NoDup nodes)) in
  let! preds := mapM (λ node, mapM (λ p, fst <$> list_find (p =.) nodes) (predecessors node)) nodes in
  let! (sorted, cycles) := sort_indices preds in
  let! sorted := mapM (λ i, nodes !! i) sorted in
  if length sorted =? length nodes then ok sorted
  else let! cycles := mapM (λ i, nodes !! i) cycles in err (sorted, cycles).

(** The choice that feeds a counter. *)
Definition counter_input (ir : IrDesc) (choice : string) : list string :=
  match choice_def <$> get_choice ir choice with
  | Some (DefCounter _ (CvChoice counter) _ _ _ _ _) => [ci_choice counter]
  | _ => []
  end.

(** [order_choices]. *)
Definition order_choices (ir : IrDesc) : option (list Choice) :=
  let! sorted := stable_topological_sort (choice_name ∘ snd <$> choices ir) (counter_input ir) in
  match sorted with
  | ROk sorted => mapM (get_choice ir) sorted
  | RErr _ => panic
  end.

(** * Theorems *)

Lemma update_node_ok i f d node_data :
  node_data !! i = Some (Some d) → update_node i f node_data = Some (<[i := Some (f d)]> node_data).
Proof. intros Hi. unfold update_node. by rewrite Hi. Qed.

Section indices.
Context (preds : list (list nat)).
Notation n := (length preds).
Hypothesis Hpreds : Forall (Forall (λ p, p < n)) preds.

Definition preds_of (i : nat) : list nat := default [] (preds !! i).

(** How many times [p] is a predecessor of [i]. *)
Definition times (p i : nat) : nat := length (filter (p =.) (preds_of i)).

(** The predecessors that are not sorted yet, with repetitions. *)
Definition waiting (sorted : list nat) (i : nat) : nat := length (filter (.∉ sorted) (preds_of i)).

(** The successors: each node once for each time it has the predecessor. *)
Definition succs_ok (i : nat) (succs : list nat) : Prop := ∀ j, length (filter (j =.) succs) = times i j.

Lemma preds_of_lt i p : p ∈ preds_of i → p < n.
Proof.
  unfold preds_of. destruct (preds !! i) as [l|] eqn:E; cbn; [|set_solver]. intros Hp.
  rewrite Forall_lookup in Hpreds. specialize (Hpreds i l E). rewrite Forall_forall in Hpreds. by apply Hpreds.
Qed.

Lemma waiting_snoc sorted i p : p ∉ sorted → waiting sorted i = waiting (sorted ++ [p]) i + times p i.
Proof.
  intros Hp. unfold waiting, times. induction (preds_of i) as [|x l IH]; [done|]. rewrite !filter_cons.
  repeat case_decide; cbn; try lia; exfalso; set_solver.
Qed.

Lemma waiting_zero sorted i : waiting sorted i = 0 ↔ ∀ p, p ∈ preds_of i → p ∈ sorted.
Proof using Type.
  clear Hpreds.
  unfold waiting. rewrite length_zero_iff_nil. split.
  - intros E p Hp. destruct (decide (p ∈ sorted)) as [|Hn]; [done|].
    assert (p ∈ filter (.∉ sorted) (preds_of i)) as Hin by (by apply list_elem_of_filter). rewrite E in Hin. set_solver.
  - intros Hall. apply filter_none. intros p Hp Hn. by apply Hn, Hall.
Qed.

(** ** Linking the nodes *)

Record linked (k : nat) (extra : list nat) (extra_succ : nat) (node_data : list (option NodeData)) : Prop := {
  linked_length : length node_data = n;
  linked_node i : i < n → ∃ d, node_data !! i = Some (Some d) ∧ nd_index d = i ∧
    nd_num_predecessors d = (if i <? k then length (preds_of i) else 0) ∧
    ∀ j, length (filter (j =.) (nd_successors d)) =
      (if j <? k then times i j else 0) + (if j =? extra_succ then length (filter (i =.) extra) else 0)
}.

Lemma link_preds k done_ rest node_data :
  preds_of k = done_ ++ rest → k < n → linked k done_ k node_data →
  ∃ node_data', foldM (λ node_data p, update_node p (add_successor k) node_data) rest node_data = Some node_data' ∧
    linked k (preds_of k) k node_data'.
Proof.
  intros Hd Hk. revert done_ Hd node_data. induction rest as [|p rest IH]; intros done_ Hd node_data Hl; cbn.
  - exists node_data. split; [done|]. by rewrite Hd, app_nil_r.
  - assert (p < n) as Hp by (apply (preds_of_lt k); rewrite Hd; set_solver).
    destruct (linked_node _ _ _ _ Hl p Hp) as (d & Hdp & Hi & Hnum & Hs).
    rewrite (update_node_ok _ _ _ _ Hdp). cbn [mbind option_bind].
    apply (IH (done_ ++ [p])); [by rewrite Hd, <-app_assoc|]. constructor; [rewrite length_insert; apply Hl|].
    intros i Hin. destruct (decide (i = p)) as [->|Hne].
    + eexists. split; [apply list_lookup_insert_eq; by rewrite (linked_length _ _ _ _ Hl)|]. split; [done|]. split; [done|].
      intros j. cbn [nd_successors add_successor]. rewrite filter_app, length_app, Hs, filter_app, length_app.
      destruct (decide (j = k)) as [->|Hjk].
      * rewrite Nat.eqb_refl, Nat.ltb_irrefl. rewrite !filter_cons, !filter_nil, !decide_True by done. cbn [length]. lia.
      * rewrite (proj2 (Nat.eqb_neq j k)) by done. rewrite filter_cons, filter_nil, decide_False by done. cbn [length]. lia.
    + rewrite list_lookup_insert_ne by done. destruct (linked_node _ _ _ _ Hl i Hin) as (d' & Hd' & Hi' & Hn' & Hs').
      exists d'. split; [done|]. split; [done|]. split; [done|]. intros j. rewrite Hs', filter_app, length_app.
      rewrite (filter_cons (i =.)), filter_nil, decide_False by done. cbn [length]. by rewrite Nat.add_0_r.
Qed.

Lemma link_all :
  ∃ node_data, foldM link_node (enumerate preds) (Some ∘ node_data_new <$> seq 0 n) = Some node_data ∧
    linked n [] n node_data.
Proof.
  apply (foldM_enumerate_inv (λ k node_data, linked k [] k node_data)).
  - constructor; [by rewrite length_fmap, length_seq|]. intros i Hi. exists (node_data_new i).
    rewrite list_lookup_fmap, lookup_seq_lt by done. split; [done|]. split; [done|]. split; [done|]. intros j. change (0 = 0 + (if j =? 0 then 0 else 0)). by destruct (j =? 0).
  - intros k ps node_data Hk Hl. pose proof (lookup_lt_Some _ _ _ Hk) as Hlt.
    assert (preds_of k = ps) as Hps by (unfold preds_of; by rewrite Hk).
    destruct (link_preds k [] ps node_data) as (nd' & Hf & Hl'); [by rewrite Hps|done|done|].
    unfold link_node. rewrite Hf. cbn [mbind option_bind].
    destruct (linked_node _ _ _ _ Hl' k Hlt) as (d & Hd & Hi & Hnum & Hs). rewrite (update_node_ok _ _ _ _ Hd).
    eexists. split; [done|]. constructor; [rewrite length_insert; apply Hl'|]. intros i Hin.
    assert (∀ j, (if j <? k then times i j else 0) + (if j =? k then length (filter (i =.) (preds_of k)) else 0) =
      (if j <? S k then times i j else 0) + (if j =? S k then length (filter (i =.) []) else 0)) as Hj.
    { intros j. destruct (Nat.ltb_spec j k), (Nat.ltb_spec j (S k)), (Nat.eqb_spec j k), (Nat.eqb_spec j (S k)); subst; cbn; unfold times; lia. }
    destruct (decide (i = k)) as [->|Hne].
    + eexists. split; [apply list_lookup_insert_eq; by rewrite (linked_length _ _ _ _ Hl')|].
      cbn [nd_index nd_num_predecessors nd_successors set_num_predecessors]. split; [done|].
      split; [by rewrite (proj2 (Nat.ltb_lt k (S k))), Hps by lia|]. intros j. by rewrite Hs, Hj.
    + rewrite list_lookup_insert_ne by done. destruct (linked_node _ _ _ _ Hl' i Hin) as (d' & Hd' & Hi' & Hn' & Hs').
      exists d'. split; [done|]. split; [done|]. split; [|intros j; by rewrite Hs', Hj].
      rewrite Hn'. destruct (Nat.ltb_spec i k), (Nat.ltb_spec i (S k)); try lia; done.
Qed.

(** ** The loop *)

(** An entry of the table or of the queue: its successors are known. *)
Definition entry_ok (i : nat) (d : NodeData) : Prop := nd_index d = i ∧ succs_ok i (nd_successors d).

(** The node that comes next: the first one whose predecessors are sorted. *)
Definition first_ready (sorted : list nat) (i : nat) : Prop :=
  i < n ∧ i ∉ sorted ∧ waiting sorted i = 0 ∧ ∀ j, j < i → j ∉ sorted → waiting sorted j ≠ 0.

(** Every node is the next one after the nodes before it. *)
Definition greedy (sorted : list nat) : Prop := ∀ k i, sorted !! k = Some i → first_ready (take k sorted) i.

(** The state of the loop; [pending] are the successors of the last sorted node that were
    not visited yet. *)
Record sorting (sorted pending : list nat) (node_data : list (option NodeData)) (queue : list NodeData) : Prop := {
  so_length : length node_data = n;
  so_nodup : NoDup (sorted ++ (nd_index <$> queue));
  so_ordered : StronglySorted Nat.lt (nd_index <$> queue);
  so_queue d : d ∈ queue → nd_index d < n ∧ succs_ok (nd_index d) (nd_successors d) ∧ waiting sorted (nd_index d) = 0;
  so_greedy : greedy sorted;
  so_waiting i d : node_data !! i = Some (Some d) →
    nd_index d = i ∧ succs_ok i (nd_successors d) ∧ i ∉ sorted ++ (nd_index <$> queue) ∧ 0 < nd_num_predecessors d ∧
    nd_num_predecessors d = waiting sorted i + length (filter (i =.) pending);
  so_taken i : node_data !! i = Some None → i ∈ sorted ++ (nd_index <$> queue);
  so_pending i : i ∈ pending → i < n ∧ i ∉ sorted ++ (nd_index <$> queue)
}.

Lemma queue_push_perm d queue : queue_push d queue ≡ₚ d :: queue.
Proof. induction queue as [|d' q IH]; [done|]. cbn. case_match; [done|]. rewrite IH. apply perm_swap. Qed.

Lemma queue_push_sorted d queue :
  StronglySorted Nat.lt (nd_index <$> queue) → nd_index d ∉ nd_index <$> queue → StronglySorted Nat.lt (nd_index <$> queue_push d queue).
Proof.
  induction queue as [|d' q IH]; cbn; intros Hs Hd; [by repeat constructor|].
  apply StronglySorted_inv in Hs as [Hs Hf]. apply not_elem_of_cons in Hd as [Hne Hd].
  destruct (Nat.leb_spec (nd_index d) (nd_index d')) as [Hle|Hgt]; cbn.
  - constructor; [by constructor|]. constructor; [unfold Nat.lt; lia|]. eapply Forall_impl; [exact Hf|]. unfold Nat.lt. intros; lia.
  - constructor; [by apply IH|]. rewrite queue_push_perm. cbn. constructor; [done|done].
Qed.

(** A node is put in the queue when its last predecessor is sorted. *)
Lemma visit_ok sorted s pending node_data queue :
  sorting sorted (s :: pending) node_data queue →
  ∃ node_data' queue', visit_successor (node_data, queue) s = Some (node_data', queue') ∧
    sorting sorted pending node_data' queue'.
Proof.
  intros Hs. destruct (so_pending _ _ _ _ Hs s) as [Hlt Hnin]; [set_solver|].
  destruct (lookup_lt_is_Some_2 node_data s) as [[d|] Hslot]; [by rewrite (so_length _ _ _ _ Hs)| |].
  2:{ exfalso. by apply Hnin, (so_taken _ _ _ _ Hs). }
  destruct (so_waiting _ _ _ _ Hs s d Hslot) as (Hi & Hsu & Hn & Hpos & Hnum).
  rewrite filter_cons, decide_True in Hnum by done. cbn [length] in Hnum.
  assert (s < length node_data) as Hsl by (by rewrite (so_length _ _ _ _ Hs)).
  unfold visit_successor. rewrite Hslot. cbn [mbind option_bind].
  rewrite (proj2 (Nat.eqb_neq (nd_num_predecessors d) 0)) by lia. cbn [negb rassert mbind option_bind].
  unfold take_ready. rewrite list_lookup_insert_eq by done. cbn [mbind option_bind nd_num_predecessors set_num_predecessors].
  assert (∀ i d', i ≠ s → node_data !! i = Some (Some d') →
    nd_index d' = i ∧ succs_ok i (nd_successors d') ∧ i ∉ sorted ++ (nd_index <$> queue) ∧ 0 < nd_num_predecessors d' ∧
    nd_num_predecessors d' = waiting sorted i + length (filter (i =.) pending)) as Hother.
  { intros i d' Hne Hd'. destruct (so_waiting _ _ _ _ Hs i d' Hd') as (? & ? & ? & ? & Hnum').
    rewrite filter_cons, decide_False in Hnum' by done. done. }
  assert (∀ i, i ∈ pending → i < n ∧ i ∉ sorted ++ (nd_index <$> queue)) as Hpend.
  { intros i Hip. apply (so_pending _ _ _ _ Hs). set_solver. }
  destruct (Nat.eqb_spec (pred (nd_num_predecessors d)) 0) as [H0|H0]; eexists _, _; (split; [done|]).
  - assert (waiting sorted s = 0 ∧ length (filter (s =.) pending) = 0) as [Hw Hf] by lia.
    set (d' := set_num_predecessors _ d). rewrite list_insert_insert_eq.
    assert (nd_index <$> queue_push d' queue ≡ₚ s :: (nd_index <$> queue)) as Hperm by (rewrite queue_push_perm; cbn; by rewrite Hi).
    constructor.
    + rewrite length_insert. apply Hs.
    + rewrite Hperm, <-Permutation_middle. constructor; [done|apply Hs].
    + apply queue_push_sorted; [apply Hs|]. cbn. rewrite Hi. set_solver.
    + intros x. rewrite queue_push_perm. intros [->|Hx]%elem_of_cons; [|by apply (so_queue _ _ _ _ Hs)]. cbn. by rewrite Hi.
    + apply Hs.
    + intros i x Hix. destruct (decide (i = s)) as [->|Hne]; [by rewrite list_lookup_insert_eq in Hix|].
      rewrite list_lookup_insert_ne in Hix by done. destruct (Hother i x Hne Hix) as (? & ? & Hni & ?).
      split; [done|]. split; [done|]. split; [|done]. rewrite Hperm. set_solver.
    + intros i Hix. rewrite Hperm. destruct (decide (i = s)) as [->|Hne]; [set_solver|].
      rewrite list_lookup_insert_ne in Hix by done. apply (so_taken _ _ _ _ Hs) in Hix. set_solver.
    + intros i Hip. destruct (Hpend i Hip) as [? ?]. split; [done|]. rewrite Hperm.
      apply length_zero_iff_nil in Hf. assert (i ≠ s); [|set_solver]. intros ->.
      assert (s ∈ filter (s =.) pending) as Hin by (by apply list_elem_of_filter). rewrite Hf in Hin. set_solver.
  - constructor; try apply Hs; [by rewrite length_insert; apply Hs| | |done].
    + intros i x Hix. destruct (decide (i = s)) as [->|Hne].
      * rewrite list_lookup_insert_eq in Hix by done. injection Hix as <-. cbn. split; [done|]. split; [done|]. split; [done|]. lia.
      * rewrite list_lookup_insert_ne in Hix by done. by apply Hother.
    + intros i Hix. destruct (decide (i = s)) as [->|Hne]; [by rewrite list_lookup_insert_eq in Hix|].
      rewrite list_lookup_insert_ne in Hix by done. by apply (so_taken _ _ _ _ Hs).
Qed.

Lemma visit_all sorted pending node_data queue :
  sorting sorted pending node_data queue →
  ∃ node_data' queue', foldM visit_successor pending (node_data, queue) = Some (node_data', queue') ∧
    sorting sorted [] node_data' queue'.
Proof.
  revert node_data queue. induction pending as [|s pending IH]; intros nd q Hs; [by exists nd, q|].
  destruct (visit_ok _ _ _ _ _ Hs) as (nd' & q' & Hv & Hs'). cbn [foldM]. rewrite Hv. cbn [mbind option_bind]. by apply IH.
Qed.

(** Nodes in the queue or in the table are ready exactly when they are in the queue. *)
Lemma ready_in_queue sorted node_data queue j :
  sorting sorted [] node_data queue → j < n → j ∉ sorted → waiting sorted j = 0 → j ∈ nd_index <$> queue.
Proof.
  intros Hs Hj Hnin Hw. destruct (lookup_lt_is_Some_2 node_data j) as [[d|] Hd]; [by rewrite (so_length _ _ _ _ Hs)| |].
  - destruct (so_waiting _ _ _ _ Hs j d Hd) as (_ & _ & _ & Hpos & Hnum). cbn in Hnum. lia.
  - apply (so_taken _ _ _ _ Hs) in Hd. set_solver.
Qed.

Lemma greedy_snoc sorted i : greedy sorted → first_ready sorted i → greedy (sorted ++ [i]).
Proof.
  intros Hg Hi k x Hk. apply lookup_app_Some in Hk as [Hk|[Hge Hk]].
  - rewrite take_app_le by (apply lookup_lt_Some in Hk; lia). by apply Hg.
  - apply list_lookup_singleton_Some in Hk as [Hk <-]. assert (k = length sorted) as -> by lia. by rewrite take_app_length.
Qed.

Lemma greedy_closed sorted i p : greedy sorted → i ∈ sorted → p ∈ preds_of i → p ∈ sorted.
Proof.
  intros Hg [k Hk]%list_elem_of_lookup_1 Hp. destruct (Hg k i Hk) as (_ & _ & Hw & _).
  apply (proj1 (waiting_zero _ _) Hw) in Hp. by apply elem_of_take in Hp as (? & ? & ?); eapply list_elem_of_lookup_2.
Qed.

(** The head of the queue is the next node; its successors are to be visited. *)
Lemma pop_ok sorted node_data data queue :
  sorting sorted [] node_data (data :: queue) → sorting (sorted ++ [nd_index data]) (nd_successors data) node_data queue.
Proof.
  intros Hs. set (i := nd_index data). destruct (so_queue _ _ _ _ Hs data) as (Hi & Hsu & Hw); [set_solver|]. fold i in Hi, Hsu, Hw.
  pose proof (so_nodup _ _ _ _ Hs) as Hnd. cbn in Hnd. fold i in Hnd.
  assert (i ∉ sorted ∧ i ∉ nd_index <$> queue) as [His Hiq].
  { rewrite <-Permutation_middle in Hnd. apply NoDup_cons in Hnd as [Hnd _]. set_solver. }
  pose proof (so_ordered _ _ _ _ Hs) as Hord. cbn in Hord. apply StronglySorted_inv in Hord as [Hord Hmin].
  assert (∀ x, x ∈ (sorted ++ [i]) ++ (nd_index <$> queue) ↔ x ∈ sorted ++ (nd_index <$> data :: queue)) as Hsame.
  { intros x. cbn. fold i. set_solver. }
  assert (∀ j, i ∈ preds_of j → j < n ∧ j ∉ sorted ++ (nd_index <$> data :: queue)) as Hopen.
  { intros j Hj. split.
    { unfold preds_of in Hj. destruct (preds !! j) eqn:E; [by apply lookup_lt_Some in E|cbn in Hj; set_solver]. }
    intros [Hjs|Hjq]%elem_of_app.
    - by apply His, (greedy_closed sorted j i (so_greedy _ _ _ _ Hs)).
    - apply list_elem_of_fmap in Hjq as (d & -> & Hd). destruct (so_queue _ _ _ _ Hs d Hd) as (_ & _ & Hwd).
      by apply His, (proj1 (waiting_zero _ _) Hwd). }
  constructor.
  - apply Hs.
  - rewrite <-app_assoc. apply Hnd.
  - done.
  - intros d Hd. destruct (so_queue _ _ _ _ Hs d) as (? & ? & Hwd); [set_solver|]. split; [done|]. split; [done|].
    rewrite waiting_zero in *. intros p Hp. apply elem_of_app. left. by apply Hwd.
  - apply greedy_snoc; [apply Hs|]. split; [done|]. split; [done|]. split; [done|]. intros j Hji Hjs Hj0.
    pose proof (ready_in_queue _ _ _ j Hs ltac:(lia) Hjs Hj0) as Hq. cbn in Hq. fold i in Hq.
    apply elem_of_cons in Hq as [->|Hq]; [lia|]. rewrite Forall_forall in Hmin. specialize (Hmin j Hq). unfold Nat.lt in Hmin. lia.
  - intros j d Hd. destruct (so_waiting _ _ _ _ Hs j d Hd) as (? & ? & Hnj & ? & Hnum). split; [done|]. split; [done|].
    split; [by rewrite Hsame|]. split; [done|]. rewrite Hnum, (waiting_snoc sorted j i His), Hsu. cbn. lia.
  - intros j Hj. rewrite Hsame. by apply Hs.
  - intros j Hj. rewrite Hsame. apply Hopen. destruct (decide (i ∈ preds_of j)) as [|Hnp]; [done|]. exfalso.
    assert (times i j = 0) as Ht.
    { unfold times. apply length_zero_iff_nil. apply filter_none. intros x Hx <-. done. }
    rewrite <-Hsu in Ht. apply length_zero_iff_nil in Ht.
    assert (j ∈ filter (j =.) (nd_successors data)) as Hin by (by apply list_elem_of_filter). rewrite Ht in Hin. set_solver.
Qed.

(** When the queue is empty, the nodes that are left wait for each other. *)
Definition sorted_all (sorted : list nat) (node_data : list (option NodeData)) : Prop :=
  NoDup sorted ∧ greedy sorted ∧ length node_data = n ∧
  ∀ i, i < n → (is_Some (node_data !! i ≫= id) ↔ i ∉ sorted) ∧ (i ∉ sorted → waiting sorted i ≠ 0).

Lemma sort_loop_ok fuel sorted node_data queue :
  n < fuel + length sorted → sorting sorted [] node_data queue →
  ∃ node_data' sorted', sort_loop fuel node_data queue sorted = Some (node_data', sorted') ∧ sorted_all sorted' node_data'.
Proof.
  revert sorted node_data queue. induction fuel as [|fuel IH]; intros sorted nd queue Hf Hs.
  - exfalso. assert (length sorted ≤ n); [|lia]. rewrite <-(length_seq n 0). apply submseteq_length, NoDup_submseteq.
    + pose proof (so_nodup _ _ _ _ Hs) as Hnd. by apply NoDup_app in Hnd as (? & _).
    + intros i Hi. apply list_elem_of_lookup_1 in Hi as [k Hk]. apply elem_of_seq. destruct (so_greedy _ _ _ _ Hs k i Hk). lia.
  - cbn. destruct queue as [|data queue].
    + exists nd, sorted. split; [done|]. split; [|split; [apply Hs|split; [apply Hs|]]].
      { pose proof (so_nodup _ _ _ _ Hs) as Hnd. by rewrite app_nil_r in Hnd. }
      intros i Hi. destruct (lookup_lt_is_Some_2 nd i) as [[d|] Hd]; [by rewrite (so_length _ _ _ _ Hs)| |]; rewrite Hd; cbn.
      * destruct (so_waiting _ _ _ _ Hs i d Hd) as (_ & _ & Hni & Hpos & Hnum). rewrite app_nil_r in Hni. cbn in Hnum.
        split; [by split; [|by eexists]|lia].
      * apply (so_taken _ _ _ _ Hs) in Hd. rewrite app_nil_r in Hd. split; [|done]. split; [by intros [? ?]|done].
    + destruct (visit_all _ _ _ _ (pop_ok _ _ _ _ Hs)) as (nd' & q' & -> & Hs'). cbn. apply IH; [|done].
      rewrite length_app. cbn. lia.
Qed.

(** ** The queue at the start of the loop *)

Record started (k : nat) (node_data : list (option NodeData)) (queue : list NodeData) : Prop := {
  st_length : length node_data = n;
  st_ordered : StronglySorted Nat.lt (nd_index <$> queue);
  st_queue d : d ∈ queue → nd_index d < k ∧ succs_ok (nd_index d) (nd_successors d) ∧ waiting [] (nd_index d) = 0;
  st_taken i : node_data !! i = Some None → i ∈ nd_index <$> queue;
  st_node i d : node_data !! i = Some (Some d) → nd_index d = i ∧ succs_ok i (nd_successors d) ∧
    i ∉ nd_index <$> queue ∧ nd_num_predecessors d = waiting [] i ∧ (i < k → 0 < nd_num_predecessors d)
}.

Lemma waiting_nil i : waiting [] i = length (preds_of i).
Proof. unfold waiting. by rewrite filter_all by set_solver. Qed.

Lemma started_0 node_data : linked n [] n node_data → started 0 node_data [].
Proof.
  intros Hl. assert (∀ i s, node_data !! i = Some s → i < n) as Hlt.
  { intros i s Hi. apply lookup_lt_Some in Hi. by rewrite (linked_length _ _ _ _ Hl) in Hi. }
  constructor; [apply Hl|constructor|set_solver| |].
  - intros i Hi. destruct (linked_node _ _ _ _ Hl i (Hlt _ _ Hi)) as (d & Hd & _). congruence.
  - intros i d' Hi. destruct (linked_node _ _ _ _ Hl i (Hlt _ _ Hi)) as (d & Hd & Hix & Hnum & Hs).
    assert (d' = d) as -> by congruence. split; [done|]. split.
    { intros j. rewrite Hs. cbn [length filter list_filter]. destruct (Nat.ltb_spec j n) as [|Hj].
      - destruct (j =? n); cbn; lia.
      - assert (times i j = 0) as ->.
        { unfold times, preds_of. by rewrite lookup_ge_None_2. }
        by destruct (j =? n). }
    split; [cbn; set_solver|]. rewrite Hnum, (proj2 (Nat.ltb_lt i n)), waiting_nil by eauto. split; [done|lia].
Qed.

Lemma started_step k node_data queue :
  k < n → started k node_data queue →
  ∃ state, take_ready k (node_data, queue) = Some state ∧ started (S k) state.1 state.2.
Proof.
  intros Hk Hs. destruct (lookup_lt_is_Some_2 node_data k) as [[d|] Hd]; [by rewrite (st_length _ _ _ Hs)| |].
  2:{ exfalso. apply (st_taken _ _ _ Hs), list_elem_of_fmap in Hd as (d & Hkd & Hd).
      destruct (st_queue _ _ _ Hs d Hd) as [? _]. lia. }
  destruct (st_node _ _ _ Hs k d Hd) as (Hi & Hsu & Hq & Hw & _).
  unfold take_ready. rewrite Hd. cbn [mbind option_bind]. eexists. split; [done|].
  destruct (Nat.eqb_spec (nd_num_predecessors d) 0) as [H0|H0]; cbn [fst snd].
  - assert (nd_index <$> queue_push d queue ≡ₚ k :: (nd_index <$> queue)) as Hperm by (rewrite queue_push_perm; cbn; by rewrite Hi).
    constructor.
    + rewrite length_insert. apply Hs.
    + apply queue_push_sorted; [apply Hs|by rewrite Hi].
    + intros x. rewrite queue_push_perm. intros [->|Hx]%elem_of_cons.
      * rewrite Hi. split; [lia|]. split; [done|lia].
      * destruct (st_queue _ _ _ Hs x Hx) as (? & ? & ?). split; [lia|done].
    + intros i Hix. rewrite Hperm. destruct (decide (i = k)) as [->|Hne]; [set_solver|].
      rewrite list_lookup_insert_ne in Hix by done. apply (st_taken _ _ _ Hs) in Hix. set_solver.
    + intros i x Hix. destruct (decide (i = k)) as [->|Hne].
      { apply lookup_lt_Some in Hd. by rewrite list_lookup_insert_eq in Hix. }
      rewrite list_lookup_insert_ne in Hix by done. destruct (st_node _ _ _ Hs i x Hix) as (? & ? & ? & ? & Hp).
      split; [done|]. split; [done|]. split; [rewrite Hperm; set_solver|]. split; [done|]. intros; apply Hp; lia.
  - constructor; [apply Hs|apply Hs| |apply Hs|].
    + intros x Hx. destruct (st_queue _ _ _ Hs x Hx) as (? & ? & ?). split; [lia|done].
    + intros i x Hix. destruct (st_node _ _ _ Hs i x Hix) as (? & ? & ? & ? & Hp). split; [done|]. split; [done|].
      split; [done|]. split; [done|]. intros Hlt. destruct (decide (i = k)) as [->|]; [|apply Hp; lia].
      assert (x = d) as -> by congruence. lia.
Qed.

Lemma sorted_lt_nodup (l : list nat) : StronglySorted Nat.lt l → NoDup l.
Proof.
  induction 1 as [|x l _ IH Hf]; constructor; [|done]. intros Hx. rewrite Forall_forall in Hf.
  specialize (Hf x Hx). unfold Nat.lt in Hf. lia.
Qed.

Lemma started_sorting node_data queue : started n node_data queue → sorting [] [] node_data queue.
Proof.
  intros Hs. constructor; cbn [app].
  - apply Hs.
  - by apply sorted_lt_nodup, Hs.
  - apply Hs.
  - apply Hs.
  - intros k i Hk. by rewrite lookup_nil in Hk.
  - intros i d Hd. destruct (st_node _ _ _ Hs i d Hd) as (? & ? & ? & Hw & Hp). split; [done|]. split; [done|].
    split; [done|]. split; [|cbn; lia]. apply Hp. apply lookup_lt_Some in Hd. by rewrite (st_length _ _ _ Hs) in Hd.
  - apply Hs.
  - set_solver.
Qed.

(** The nodes that are sorted, and the others, that wait for each other. *)
Lemma sort_indices_ok :
  ∃ sorted cycles, sort_indices preds = Some (sorted, cycles) ∧ greedy sorted ∧ sorted ++ cycles ≡ₚ seq 0 n ∧
    ∀ i, i ∈ cycles → ∃ p, p ∈ preds_of i ∧ p ∈ cycles.
Proof.
  destruct link_all as (nd & Hlink & Hl). unfold sort_indices. rewrite Hlink. cbn [mbind option_bind].
  destruct (foldM_enumerate_inv (λ k s, started k s.1 s.2) (λ s x, take_ready x.2 s) (seq 0 n) (nd, [])) as ([nd1 q] & Hready & Hst).
  { by apply started_0. }
  { intros k i [nd1 q] Hk Hst. apply lookup_seq in Hk as [-> Hk]. by apply started_step. }
  rewrite length_seq in Hst. cbn [fst snd] in Hst.
  assert (∀ l k s, foldM (λ s x, take_ready (snd x) s) (zip (seq k (length l)) l) s = foldM (λ s i, take_ready i s) l s) as Hzip.
  { clear. induction l as [|x l IH]; intros k s; [done|]. cbn [length seq zip zip_with foldM snd]. destruct (take_ready x s); [apply IH|done]. }
  unfold enumerate in Hready. rewrite Hzip in Hready. rewrite Hready. cbn [mbind option_bind].
  destruct (sort_loop_ok (S n) [] nd1 q) as (nd2 & sorted & -> & Hnd & Hg & Hlen & Hall); [cbn; lia|by apply started_sorting|].
  cbn [mbind option_bind]. eexists _, _. split; [done|]. split; [done|].
  assert (∀ i, i ∈ filter (λ i, is_Some (nd2 !! i ≫= id)) (seq 0 n) ↔ i < n ∧ i ∉ sorted) as Hcy.
  { intros i. rewrite list_elem_of_filter, elem_of_seq. split.
    - intros [Hi [_ Hlt]]. split; [lia|]. apply Hall; [lia|done].
    - intros [Hlt Hi]. split; [|lia]. by apply Hall. }
  split.
  - apply NoDup_Permutation.
    + apply NoDup_app. split; [done|]. split; [|apply NoDup_filter, NoDup_seq]. intros i Hi Hf. by apply Hcy in Hf as [_ ?].
    + apply NoDup_seq.
    + intros i. rewrite elem_of_app, Hcy, elem_of_seq. split.
      * intros [Hi|[Hi _]]; [|lia]. apply list_elem_of_lookup_1 in Hi as [k Hk]. destruct (Hg k i Hk). lia.
      * intros [_ Hi]. destruct (decide (i ∈ sorted)); [by left|right]. split; [lia|done].
  - intros i [Hi Hni]%Hcy. destruct (Hall i Hi) as [_ Hw]. specialize (Hw Hni). unfold waiting in Hw.
    destruct (filter (.∉ sorted) (preds_of i)) as [|p l] eqn:E; [done|].
    assert (p ∈ filter (.∉ sorted) (preds_of i)) as Hp by (rewrite E; left). apply list_elem_of_filter in Hp as [Hps Hp].
    exists p. split; [done|]. apply Hcy. split; [by apply (preds_of_lt i)|done].
Qed.
End indices.

(** ** The sort of the nodes *)

Section nodes.
Context {N : Type} `{EqDecision N} (nodes : list N) (predecessors : N → list N).
Hypothesis Hnodup : NoDup nodes.
Hypothesis Hclosed : ∀ x p, x ∈ nodes → p ∈ predecessors x → p ∈ nodes.

(** [l] is the list of the nodes of indices [ixs]. *)
Definition at_indices (ixs : list nat) (l : list N) : Prop := Forall2 (λ i x, nodes !! i = Some x) ixs l.

Lemma at_indices_total ixs : Forall (λ i, i < length nodes) ixs → ∃ l, mapM (λ i, nodes !! i) ixs = Some l ∧ at_indices ixs l.
Proof.
  intros Hf. destruct (mapM (λ i, nodes !! i) ixs) as [l|] eqn:E; [exists l; split; [done|by apply mapM_Some]|].
  apply mapM_None, Exists_exists in E as (i & Hi & Hn). rewrite Forall_forall in Hf.
  apply lookup_ge_None in Hn. specialize (Hf i Hi). lia.
Qed.

Lemma at_indices_elem ixs l i x : at_indices ixs l → nodes !! i = Some x → i ∈ ixs ↔ x ∈ l.
Proof.
  intros Hat Hi. induction Hat as [|j y ixs l Hj _ IH]; [set_solver|]. rewrite !elem_of_cons, IH.
  split; intros [->|]; auto; left; [congruence|]. by apply (NoDup_lookup nodes _ _ y).
Qed.

Lemma at_indices_seq l : at_indices (seq 0 (length nodes)) l → l = nodes.
Proof.
  intros Hat. apply list_eq. intros i. destruct (decide (i < length nodes)) as [Hi|Hi].
  - destruct (Forall2_lookup_l _ _ _ i i Hat) as (x & Hx & Hix); [by rewrite lookup_seq_lt|]. by rewrite Hx, Hix.
  - rewrite (lookup_ge_None_2 nodes) by lia. apply lookup_ge_None_2. apply Forall2_length in Hat. rewrite length_seq in Hat. lia.
Qed.

Lemma at_indices_perm ixs js l k : ixs ≡ₚ js → at_indices ixs l → at_indices js k → l ≡ₚ k.
Proof.
  intros Hp Hl Hk. destruct (Permutation_Forall2 Hp Hl) as (l' & Hp' & Hl').
  rewrite Hp'. assert (l' = k) as ->; [|done]. clear Hl Hp Hp'. revert l' Hl'.
  induction Hk as [|j y js k Hj _ IH]; intros l' Hl'; inversion Hl'; subst; [done|]. f_equal; [congruence|by apply IH].
Qed.

(** The table of the predecessors. *)
Lemma predecessors_indices :
  ∃ preds, mapM (λ node, mapM (λ p, fst <$> list_find (p =.) nodes) (predecessors node)) nodes = Some preds ∧
    Forall2 (λ ixs node, at_indices ixs (predecessors node)) preds nodes.
Proof using Hnodup Hclosed.
  assert (∀ l, (∀ x, x ∈ l → x ∈ nodes) →
    ∃ preds, mapM (λ node, mapM (λ p, fst <$> list_find (p =.) nodes) (predecessors node)) l = Some preds ∧
      Forall2 (λ ixs node, at_indices ixs (predecessors node)) preds l) as H; [|by apply H].
  induction l as [|x l IH]; intros Hl; [by exists []|].
  destruct IH as (preds & Hp & Hf); [set_solver|].
  assert (∀ k, (∀ p, p ∈ k → p ∈ nodes) → ∃ ixs, mapM (λ p, fst <$> list_find (p =.) nodes) k = Some ixs ∧ at_indices ixs k) as Hk.
  { induction k as [|p k IHk]; intros Hk; [exists []; split; [done|constructor]|]. destruct IHk as (ixs & His & Hat); [set_solver|].
    destruct (list_find_elem_of (p =.) nodes p) as [[i y] Hfind]; [apply Hk; set_solver|done|].
    exists (i :: ixs). cbn [mapM]. rewrite Hfind. cbn [fmap option_fmap option_map mbind option_bind fst]. rewrite His. split; [done|]. constructor; [|done].
    apply list_find_Some in Hfind as (Hi & <- & _). done. }
  destruct (Hk (predecessors x)) as (ixs & His & Hat); [intros p; apply Hclosed, Hl; set_solver|].
  exists (ixs :: preds). cbn. rewrite His. cbn. rewrite Hp. split; [done|]. by constructor.
Qed.

(** Each node comes after its predecessors, and is the first one in the original order
    that could come at its place. *)
Definition stable_order (sorted : list N) : Prop :=
  ∀ k x, sorted !! k = Some x → (∀ p, p ∈ predecessors x → p ∈ take k sorted) ∧
    ∀ i j y, nodes !! i = Some x → nodes !! j = Some y → j < i → y ∉ take k sorted →
      ∃ p, p ∈ predecessors y ∧ p ∉ take k sorted.

Lemma greedy_stable preds ixs l :
  Forall2 (λ ixs node, at_indices ixs (predecessors node)) preds nodes → at_indices ixs l → greedy preds ixs → stable_order l.
Proof using Hnodup Hclosed.
  intros Hp Hat Hg k x Hk. destruct (Forall2_lookup_r _ _ _ _ _ Hat Hk) as (i & Hi & Hix).
  assert (at_indices (take k ixs) (take k l)) as Hatk by (by apply Forall2_take).
  destruct (Hg k i Hi) as (_ & _ & Hw & Hfirst).
  assert (∀ i x, nodes !! i = Some x → at_indices (preds_of preds i) (predecessors x)) as Hpreds.
  { intros i' x' Hi'. destruct (Forall2_lookup_r _ _ _ _ _ Hp Hi') as (ps & Hps & Hatp). unfold preds_of. by rewrite Hps. }
  split.
  - intros p Hpp. apply list_elem_of_lookup_1 in Hpp as [m Hm].
    destruct (Forall2_lookup_r _ _ _ _ _ (Hpreds i x Hix) Hm) as (pi & Hpi & Hpx).
    apply (at_indices_elem _ _ pi p Hatk Hpx), (proj1 (waiting_zero _ _ _) Hw). by eapply list_elem_of_lookup_2.
  - intros i' j y Hi' Hj Hji Hy. assert (i' = i) as -> by (by apply (NoDup_lookup nodes _ _ x)).
    assert (j ∉ take k ixs) as Hjk by (by rewrite (at_indices_elem _ _ j y Hatk Hj)).
    specialize (Hfirst j Hji Hjk). unfold waiting in Hfirst.
    destruct (filter (.∉ take k ixs) (preds_of preds j)) as [|pi ps] eqn:E; [done|].
    assert (pi ∈ filter (.∉ take k ixs) (preds_of preds j)) as Hpi by (rewrite E; left).
    apply list_elem_of_filter in Hpi as [Hnk Hpi]. apply list_elem_of_lookup_1 in Hpi as [m Hm].
    destruct (Forall2_lookup_l _ _ _ _ _ (Hpreds j y Hj) Hm) as (p & Hpp & Hpx).
    exists p. split; [by eapply list_elem_of_lookup_2|]. by rewrite <-(at_indices_elem _ _ pi p Hatk Hpx).
Qed.

Lemma topological_sort_exact :
  ∃ r, stable_topological_sort nodes predecessors = Some r ∧
    match r with
    | ROk sorted => stable_order sorted ∧ sorted ≡ₚ nodes
    | RErr (sorted, cycles) => stable_order sorted ∧ sorted ++ cycles ≡ₚ nodes ∧ cycles ≠ [] ∧
        ∀ x, x ∈ cycles → ∃ p, p ∈ predecessors x ∧ p ∈ cycles
    end.
Proof using Hnodup Hclosed.
  unfold stable_topological_sort. rewrite bool_decide_eq_true_2 by done. cbn [rassert mbind option_bind].
  destruct predecessors_indices as (preds & -> & Hp). cbn [mbind option_bind].
  pose proof (Forall2_length _ _ _ Hp) as Hlen.
  assert (Forall (Forall (λ p, p < length preds)) preds) as Hb.
  { rewrite Hlen. apply Forall_lookup_2. intros i ps Hi. destruct (Forall2_lookup_l _ _ _ _ _ Hp Hi) as (x & _ & Hat).
    apply Forall_lookup_2. intros m p Hm. destruct (Forall2_lookup_l _ _ _ _ _ Hat Hm) as (y & _ & Hy). by apply lookup_lt_Some in Hy. }
  destruct (sort_indices_ok preds Hb) as (sorted & cycles & -> & Hg & Hperm & Hcy). cbn [mbind option_bind].
  rewrite Hlen in Hperm.
  assert (∀ i, i ∈ sorted ++ cycles → i < length nodes) as Hlt.
  { intros i. rewrite Hperm, elem_of_seq. lia. }
  destruct (at_indices_total sorted) as (ls & Hls & Hats); [apply Forall_forall; intros; apply Hlt; set_solver|].
  destruct (at_indices_total cycles) as (lc & Hlc & Hatc); [apply Forall_forall; intros; apply Hlt; set_solver|].
  destruct (at_indices_total (seq 0 (length nodes))) as (ln & _ & Hatn).
  { apply Forall_forall. intros i Hi%elem_of_seq. lia. }
  pose proof (at_indices_seq _ Hatn) as ->.
  assert (ls ++ lc ≡ₚ nodes) as Hall by (eapply at_indices_perm; [exact Hperm|by apply Forall2_app|done]).
  pose proof (greedy_stable _ _ _ Hp Hats Hg) as Hst.
  rewrite Hls. cbn [mbind option_bind].
  destruct (Nat.eqb_spec (length ls) (length nodes)) as [He|He].
  - eexists. split; [done|]. cbn. split; [done|]. rewrite <-Hall in He. rewrite length_app in He.
    destruct lc; [by rewrite app_nil_r in Hall|cbn in He; lia].
  - rewrite Hlc. eexists. split; [done|]. split; [done|]. split; [done|]. split.
    { intros ->. rewrite app_nil_r in Hall. by rewrite Hall in He. }
    intros x [k Hk]%list_elem_of_lookup_1. destruct (Forall2_lookup_r _ _ _ _ _ Hatc Hk) as (i & Hi & Hix).
    destruct (Hcy i) as (pi & Hpi & Hpc); [by eapply list_elem_of_lookup_2|].
    destruct (Forall2_lookup_r _ _ _ _ _ Hp Hix) as (ps & Hps & Hatp). unfold preds_of in Hpi. rewrite Hps in Hpi. cbn in Hpi.
    apply list_elem_of_lookup_1 in Hpi as [m Hm]. destruct (Forall2_lookup_l _ _ _ _ _ Hatp Hm) as (p & Hpp & Hpx).
    exists p. split; [by eapply list_elem_of_lookup_2|]. by apply (at_indices_elem _ _ pi p Hatc Hpx).
Qed.
(** C25: [stable_topological_sort], on distinct nodes whose predecessors are nodes, always
    answers.  Each node it sorts comes after its predecessors, and ixs, of the nodes that
    could come at that place, the first one of the original list.  [Ok] has all the nodes;
    [Err] has them all between its two lists, and each node of the second one has a
    predecessor in it. *)
Theorem topological_sort_correct :
  ∃ r, stable_topological_sort nodes predecessors = Some r ∧
    match r with
    | ROk sorted => stable_order sorted ∧ sorted ≡ₚ nodes
    | RErr (sorted, cycles) => stable_order sorted ∧ sorted ++ cycles ≡ₚ nodes ∧ cycles ≠ [] ∧
        ∀ x, x ∈ cycles → ∃ p, p ∈ predecessors x ∧ p ∈ cycles
    end.
Proof using Hnodup Hclosed. exact topological_sort_exact. Qed.
End nodes.

(** The tests of the file: a node with a predecessor is printed right after it, ... *)
Example sort_right_after_dep :
  stable_topological_sort ["a"; "b:d"; "c"; "d"; "e"]
    (λ node, if bool_decide (node = "b:d") then ["d"] else []) = ok ["a"; "c"; "d"; "b:d"; "e"].
Proof. reflexivity. Qed.

(** ... and a node that depends on a cycle is returned with it. *)
Example sort_cycle :
  stable_topological_sort ["a:b"; "b:a"; "c:a"; "d"]
    (λ node, if bool_decide (node = "a:b") then ["b:a"] else if bool_decide (node = "b:a") then ["a:b"]
      else if bool_decide (node = "c:a") then ["a:b"] else []) = err (["d"], ["a:b"; "b:a"; "c:a"]).
Proof. reflexivity. Qed.

Lemma topological_sort_correct_witness :
  ∃ r, stable_topological_sort ["a"; "b:d,c"; "c:d"; "d"; "e"]
    (λ node, if bool_decide (node = "b:d,c") then ["d"; "c:d"] else if bool_decide (node = "c:d") then ["d"] else []) = Some r ∧
    r = ROk ["a"; "d"; "c:d"; "b:d,c"; "e"].
Proof.
  destruct (topological_sort_correct ["a"; "b:d,c"; "c:d"; "d"; "e"]
    (λ node, if bool_decide (node = "b:d,c") then ["d"; "c:d"] else if bool_decide (node = "c:d") then ["d"] else [])) as (r & Hr & _).
  - by apply (bool_decide_unpack (NoDup _)).
  - intros x p _ Hp. destruct (bool_decide (x = "b:d,c")); [set_solver|]. destruct (bool_decide (x = "c:d")); set_solver.
  - exists r. split; [exact Hr|]. vm_compute in Hr. congruence.
Defined.
