(* ===== verification/PropagationAst.v ===== *)
(** * What is printed for a choice (telamon-gen/src/print/choice.rs)

    The filters to run to initialise the domain of the choice, and the actions to perform
    when it changes. *)
From S2P Require Import Prelude Utils Orders Domains GenSets Filters FilterSemantics Instances EnumDomains SolverStore LoopNests PrintedFilters TopSort.

Inductive FilterRefAst :=
| FraInline (rules : list RuleAst)
| FraCall (choice : string) (id : nat) (arguments : list Var).

Record FilterCallAst := mkFilterCallAst {
  fca_context : PrintContext;
  fca_loop_nest : LoopNest;
  fca_filter_ref : FilterRefAst
}.

(** [FilterRef::new]. *)
Definition filter_ref_ast (filter_ref : FilterRef) (ctx : PrintContext) : option FilterRefAst :=
  match filter_ref with
  | FrInline rules => FraInline <$> mapM (λ r, rule_ast_new r ctx) rules
  | FrFunction choice id args =>
    _ ← mapM (λ v, ctx_vars ctx !! v) args;
    Some (FraCall choice id args)
  end.

(** [FilterCall::new]. *)
Definition filter_call_ast (filter_call : FilterCall) (conflicts : list Conflict) (forall_offset : nat)
    (ctx : PrintContext) : option FilterCallAst :=
  let num_foralls := length (fc_forall_vars filter_call) in
  let foralls := (λ i, ForallVar (i + forall_offset)) <$> seq 0 num_foralls in
  filter_ref ← filter_ref_ast (fc_filter_ref filter_call) ctx;
  '(loop_nest, _) ← loop_nest_new foralls ctx conflicts;
  Some (mkFilterCallAst ctx loop_nest filter_ref).

(** [vars_with_sets]: only the variables matter, their sets must have a reference. *)
Definition vars_with_sets (choice : Choice) (vars : list Var) (ctx : PrintContext) : option (list Var) :=
  _ ← mapM (λ v, ctx_vars ctx !! v) vars;
  sets ← mapM (set_ast_new ctx) (arguments_sets (arguments choice));
  pairs ← zip_eq vars sets;
  Some pairs.*1.

Record RemoteFilterCallAst := mkRemoteFilterCallAst {
  rfc_choice : string;
  rfc_is_symmetric : bool;
  rfc_filter_call : FilterCallAst;
  rfc_full_type : ValueType;
  rfc_arguments : list Var
}.

(** [RemoteFilterCall::new]. *)
Definition remote_filter_call_ast (ir : IrDesc) (remote_call : RemoteFilterCall) (conflicts : list Conflict)
    (forall_offset : nat) (ctx : PrintContext) : option RemoteFilterCallAst :=
  let inst := rc_choice remote_call in
  choice ← get_choice ir (ci_choice inst);
  filter_call ← filter_call_ast (rc_filter remote_call) conflicts forall_offset ctx;
  arguments ← vars_with_sets choice (ci_vars inst) ctx;
  let full := value_type_adapt (from_arguments (ci_vars inst)) (full_type (choice_value_type choice)) in
  Some (mkRemoteFilterCallAst (choice_name choice) (is_symmetric (Filters.arguments choice)) filter_call full arguments).

(** An action to run at filter initialisation. *)
Record FilterActionAst := mkFilterActionAst {
  faa_constraints : list SetConstraintAst;
  faa_body : FilterCallAst
}.

(** [FilterAction::new]. *)
Definition filter_action_ast (ir : IrDesc) (choice : Choice) (action : FilterAction) : option FilterActionAst :=
  ctx ← context_new ir choice (fc_forall_vars (fa_filter action)) [];
  body ← filter_call_ast (fa_filter action) (choice_args choice) 0 ctx;
  constraints ← set_constraint_asts (fa_set_constraints action) ctx;
  Some (mkFilterActionAst constraints body).

(** ** Actions on a change *)

(** What a counter is printed with. *)
Record CounterAst := mkCounterAst {
  co_name : string;
  co_arguments : list Var;
  co_kind : CounterKind;
  co_is_half : bool
}.

Inductive ChoiceActionAst :=
| CaFilterSelf
| CaFilterRemote (call : RemoteFilterCallAst)
| CaIncrCounter (counter : CounterAst) (value : CounterVal) (incr_condition : ValueSet)
| CaUpdateCounter (counter : CounterAst) (incr_name : string) (incr_args : list Var) (incr_condition : ValueSet)
    (incr_type : ValueType)
| CaTrigger (id : nat) (arguments : list Var) (inputs : list ChoiceInstance) (others_conditions : list Condition)
    (self_condition : ValueSet).

Record OnChangeActionAst := mkOnChangeActionAst {
  oca_context : PrintContext;
  oca_constraints : list SetConstraintAst;
  oca_loop_nest : LoopNest;
  oca_action : ChoiceActionAst
}.

(** The choice must be a counter. *)
Definition counter_ast (ir : IrDesc) (counter : ChoiceInstance) (ctx : PrintContext) : option CounterAst :=
  choice ← get_choice ir (ci_choice counter);
  arguments ← vars_with_sets choice (ci_vars counter) ctx;
  match choice_def choice with
  | DefCounter kind _ _ _ _ visibility _ =>
    Some (mkCounterAst (ci_choice counter) arguments kind (bool_decide (visibility = NoMax)))
  | DefEnum _ | DefNumber _ => panic
  end.

(** [ChoiceAction::new]. *)
Definition choice_action_ast (ir : IrDesc) (action : ChoiceAction) (forall_offset : nat) (conflicts : list Conflict)
    (ctx : PrintContext) (current_choice : Choice) : option ChoiceActionAst :=
  match action with
  | FilterSelf => Some CaFilterSelf
  | RemoteFilter remote_call => CaFilterRemote <$> remote_filter_call_ast ir remote_call conflicts forall_offset ctx
  | IncrCounter counter value incr_condition =>
    counter ← counter_ast ir counter ctx;
    Some (CaIncrCounter counter value incr_condition)
  | UpdateCounter counter incr incr_condition =>
    incr_choice ← get_choice ir (ci_choice incr);
    counter ← counter_ast ir counter ctx;
    incr_args ← vars_with_sets incr_choice (ci_vars incr) ctx;
    Some (CaUpdateCounter counter (ci_choice incr) incr_args incr_condition (choice_value_type current_choice))
  | Trigger id condition code inverse_self_cond =>
    let arguments :=
      (Arg <$> seq 0 (arguments_len (arguments current_choice))) ++ (ForallVar <$> seq 0 forall_offset) in
    _ ← mapM (λ v, ctx_vars ctx !! v) arguments;
    self_condition ← inverse_if ir inverse_self_cond (self_condition condition);
    Some (CaTrigger id arguments (cc_inputs condition) (others_conditions condition) self_condition)
  end.

(** [OnChangeAction::new]. *)
Definition on_change_action_ast (ir : IrDesc) (choice : Choice) (action : OnChangeAction) : option OnChangeActionAst :=
  let forall_vars := oc_forall_vars action ++ action_variables (oc_action action) in
  ctx ← context_new ir choice forall_vars (action_inputs (oc_action action));
  let forall_offset := length (oc_forall_vars action) in
  '(loop_nest, conflicts) ← loop_nest_new (ForallVar <$> seq 0 forall_offset) ctx (choice_args choice);
  constraints ← set_constraint_asts (oc_set_constraints action) ctx;
  act ← choice_action_ast ir (oc_action action) forall_offset conflicts ctx choice;
  Some (mkOnChangeActionAst ctx constraints loop_nest act).

(** ** Counters *)

(** The increments of a counter: the fields of [RestrictCounter] and [ComputeCounter]. *)
Record IncrementsAst := mkIncrementsAst {
  in_kind : CounterKind;
  in_is_half : bool;
  in_base : Code;
  in_incr : ChoiceInstance;
  in_iter : LoopNest;
  in_type : ValueType;
  in_condition : ValueSet;
  in_value : CounterVal
}.

(** [RestrictCounter::new] and [ComputeCounter::new]. *)
Definition increments_ast (ir : IrDesc) (choice : Choice) : option (option IncrementsAst) :=
  match choice_def choice with
  | DefCounter kind value incr_iter incr incr_condition visibility base =>
    ctx ← context_new ir choice incr_iter [];
    '(nest, _) ← loop_nest_new (ForallVar <$> seq 0 (length incr_iter)) ctx (choice_args choice);
    Some (Some (mkIncrementsAst kind (bool_decide (visibility = NoMax)) base incr nest (vs_t incr_condition)
      incr_condition value))
  | DefEnum _ | DefNumber _ => Some None
  end.

(** ** Choices *)

(** [Ast] of a choice. *)
Record ChoiceAst := mkChoiceAst {
  cha_choice : Choice;
  cha_iteration_space : LoopNest;
  cha_increments : option IncrementsAst;
  cha_on_change : list OnChangeActionAst;
  cha_filter_actions : list FilterActionAst;
  cha_filters : list FilterAst
}.

(** [Ast::new]. *)
Definition choice_ast_new (ir : IrDesc) (choice : Choice) : option ChoiceAst :=
  filter_actions ← mapM (filter_action_ast ir choice) (filter_actions choice);
  on_change ← mapM (on_change_action_ast ir choice) (on_change choice);
  filters ← mapM (λ f, filter_ast_new f choice ir) (filters choice);
  ctx ← context_new ir choice [] [];
  iteration_space ← iteration_space choice ctx;
  let! increments := increments_ast ir choice in
  Some (mkChoiceAst choice iteration_space increments on_change filter_actions filters).

(** ** Triggers *)

(** [dummy_choice] of ir/choice.rs. *)
Definition dummy_choice : Choice :=
  mkChoice "DUMMY" None (Plain []) (DefEnum "Bool") [] [] [] (VSEnum "Bool" ∅ ∅).

(** [Trigger] of print/mod.rs: where the trigger is looked for at the start, and when it
    fires. *)
Record TriggerAst := mkTriggerAst {
  ta_context : PrintContext;
  ta_loop_nest : LoopNest;
  ta_inputs : list ChoiceInstance;
  ta_arguments : list Var;
  ta_conditions : list Condition
}.

(** [Trigger::new]. *)
Definition trigger_ast_new (ir : IrDesc) (t : TriggerDef) : option TriggerAst :=
  ctx ← context_new ir dummy_choice (trigger_foralls t) (trigger_inputs t);
  let foralls := ForallVar <$> seq 0 (length (trigger_foralls t)) in
  '(nest, _) ← loop_nest_new foralls ctx [];
  Some (mkTriggerAst ctx nest (trigger_inputs t) foralls (trigger_conditions t)).

(** ** The whole description *)
Record SolverAst := mkSolverAst {
  sva_choices : list ChoiceAst;
  sva_triggers : list TriggerAst
}.

(** [print] of print/mod.rs: the choices come in the order of [order_choices]. *)
Definition print_solver (ir : IrDesc) : option SolverAst :=
  let! ordered := order_choices ir in
  choices ← mapM (choice_ast_new ir) ordered;
  triggers ← mapM (trigger_ast_new ir) (Filters.triggers ir);
  Some (mkSolverAst choices triggers).
