(* ===== verification/Propagation.v ===== *)
(** * Propagation in the printed solver (telamon-gen/src/print/template/choice_def.rs,
    on_change.rs, filter_call.rs, the templates of the actions and main.rs)

    When the domain of a choice changes, the solver runs its actions: it filters the
    choices that depend on it, updates counters and fires triggers.  A restriction is
    recorded in the difference, which is propagated choice after choice until it is
    empty. *)
From S2P Require Import Prelude Utils Orders Domains GenSets Filters FilterSemantics Instances EnumDomains SolverStore LoopNests PrintedFilters TopSort PropagationAst.

(** What a counter is incremented by. *)
Inductive Amount := AmCode (n : Z) | AmDom (t : ValueType) (d : Dom).

Section propagation.
Context {F Obj : Type} `{Profile, KeyRemoval} `{Host F Obj} `{Countable Obj, RustOrd Obj, Inhabited Obj}.
#[local] Notation Sol := (Sol (F := F) (Obj := Obj)).
Implicit Types (env : Var → Obj) (ids : list Obj).

(** A body that returns a list, run on each element. *)
Fixpoint sconcat {A B : Type} (l : list A) (body : A → Sol (list B)) : Sol (list B) :=
  match l with
  | [] => sret []
  | x :: l => let* a := body x in let* b := sconcat l body in sret (a ++ b)
  end.

(** The description, the solver printed for it, the first key of a hash map, and what a
    trigger does: the quoted code and the lowering that follows. *)
Context (ir : IrDesc) (code : SolverAst).
Context (first_key : gmap (list Obj) (Dom * Dom) → option (list Obj)).
Context (run_trigger : nat → list Obj → Sol (list (Action Obj))).

Definition choice_code (name : string) : option ChoiceAst :=
  snd <$> list_find (λ c, choice_name (cha_choice c) = name) (sva_choices code).

(** The objects that the arguments of a choice stand for. *)
Definition arg_objs (ch : Choice) env : list Obj := env ∘ Arg <$> seq 0 (arguments_len (arguments ch)).

(** ** Filters *)

(** [filter_call]: the call, or the rules, for all the objects of the nest. *)
Definition run_filter_call (fn : F) (store : Store Obj) (call : FilterCallAst) env (values : Dom) : option Dom :=
  foldM (λ values env,
    match fca_filter_ref call with
    | FraInline rules => foldM (run_rule ir fn (fca_context call) env []) rules values
    | FraCall name id args =>
      c ← choice_code name;
      f ← cha_filters c !! id;
      filter_res ← run_filter ir fn f (env <$> args) store;
      dom_restrict values filter_res
    end) (nest_envs fn (fca_loop_nest call) env) values.

(** [filter] of a choice: the values it can take. *)
Definition choice_filter (c : ChoiceAst) env (s : Solver F Obj) : option Dom :=
  values ← full_domain ir (sv_fun s) env (full_type (choice_value_type (cha_choice c)));
  foldM (λ values a,
    match constrained_env (sv_fun s) (faa_constraints a) env with
    | None => Some values
    | Some env => run_filter_call (sv_fun s) (sv_store s) (faa_body a) env values
    end) (cha_filter_actions c) values.

(** ** Counters *)

Definition instance_dom (use_old : bool) (c : ChoiceInstance) env (s : Solver F Obj) : option Dom :=
  let ids := env <$> ci_vars c in
  if use_old then store_get_old ir (ci_choice c) ids (sv_store s) (sv_diff s)
  else store_get ir (ci_choice c) ids (sv_store s).

(** [increment_amount]. *)
Definition increment_amount (use_old : bool) (value : CounterVal) env (s : Solver F Obj) : option Amount :=
  match value with
  | CvCode c => Some (AmCode (code_num (sv_fun s) env c))
  | CvChoice c => t ← instance_value_type ir c; d ← instance_dom use_old c env s; Some (AmDom t d)
  end.

(** [Value::get_min] and [Value::get_max]. *)
Definition amount_min (fn : F) env (a : Amount) : option Z :=
  match a with AmCode n => min_value n tt | AmDom t d => min_value d (universe fn env t) end.

Definition amount_max (fn : F) env (a : Amount) : option Z :=
  match a with AmCode n => max_value n tt | AmDom t d => max_value d (universe fn env t) end.

Definition counter_op (kind : CounterKind) (a b : Z) : option Z :=
  match kind with CounterAdd => uadd 32 a b | CounterMul => umul 32 a b end.

(** [inverse_operator]. *)
Definition counter_neg_op (kind : CounterKind) (a b : Z) : option Z :=
  match kind with CounterAdd => usub 32 a b | CounterMul => udiv a b end.

Definition counter_min (d : Dom) : option Z :=
  match d with DomRange r => Some (Ranges.rmin r) | DomHalf h => Some (HalfRanges.hmin h) | _ => panic end.

Definition counter_max (d : Dom) : option Z :=
  match d with DomRange r => Some (Ranges.rmax r) | _ => panic end.

(** [contains] of the enums that conditions are on. *)
Definition dom_contains (a b : Dom) : option bool :=
  match a, b with
  | DomEnum x, DomEnum y => Some (ed_contains x y)
  | DomNum x, DomNum y => Some (NumericSets.contains x y)
  | DomRange x, DomRange y => Some (Ranges.contains x y)
  | DomHalf x, DomHalf y => Some (HalfRanges.contains x y)
  | _, _ => panic
  end.

(** A condition on the increments, that has no inputs. *)
Definition incr_condition_dom (fn : F) env (condition : ValueSet) : option Dom :=
  value_set_dom ir fn (mkPrintContext ∅ []) env [] condition.

(** [new_values], within the current domain of the counter. *)
Definition clip_counter (is_half : bool) (current new_values : Dom) : option Ranges.Range :=
  match is_half, current, new_values with
  | true, DomHalf c, DomRange v => Some (Ranges.mkRange (Z.max (Ranges.rmin v) (HalfRanges.hmin c)) (Ranges.rmax v))
  | false, DomRange c, DomRange v => Some (Ranges.restrict v c)
  | _, _, _ => panic
  end.

(** The values left to a possible increment, of amount [amount], by new bounds on the
    counter. *)
Definition narrow_increment (fn : F) (inc : IncrementsAst) env (amount : Amount) (current : Dom)
    (new_values : Ranges.Range) : option Dom :=
  val ← full_domain ir fn env (in_type inc);
  cond ← incr_condition_dom fn env (in_condition inc);
  cur_min ← counter_min current;
  amin ← amount_min fn env amount;
  with_incr ← counter_op (in_kind inc) cur_min amin;
  val ← (if (Ranges.rmax new_values <? with_incr)%Z then
           excluded ← dom_not ir (in_type inc) cond; dom_restrict val excluded
         else Some val);
  if in_is_half inc then Some val
  else
    cur_max ← counter_max current;
    amax ← amount_max fn env amount;
    needed ← counter_op (in_kind inc) (Ranges.rmin new_values) amax;
    if (cur_max <? needed)%Z then dom_restrict val cond else Some val.

(** The values left to the amount of an increment that is taken. *)
Definition narrow_amount (fn : F) (inc : IncrementsAst) (c : ChoiceInstance) env (amount : Amount) (current : Dom)
    (new_values : Ranges.Range) : option Dom :=
  t ← instance_value_type ir c;
  cur_min ← counter_min current;
  rest ← counter_neg_op (in_kind inc) (Ranges.rmax new_values) cur_min;
  amin ← amount_min fn env amount;
  max_val ← counter_op (in_kind inc) rest amin;
  integer_domain_constructor fn env OpLeq (full_type t) max_val tt.

Definition loop_envs (nest : LoopNest) env : Sol (list (Var → Obj)) :=
  sread (λ s : Solver F Obj, Some (nest_envs (sv_fun s) nest env)).

(** The body of [restrict_counter]: the increment of the counter for the objects of
    [env]; [restrict] and [restrict_incr] restrict the amount and the increment. *)
Definition restrict_increment {A : Type} (restrict restrict_incr : ChoiceInstance → list Obj → Dom → Sol (list A))
    (inc : IncrementsAst) (current : Dom) (new_values : Ranges.Range) env : Sol (list A) :=
  let incr := in_incr inc in
  let* status := sread (λ s,
    d ← instance_dom false incr env s; cond ← incr_condition_dom (sv_fun s) env (in_condition inc); dom_is d cond) in
  let* amount := sread (increment_amount false (in_value inc) env) in
  match status, in_value inc with
  | TMaybe, _ =>
    let* val := sread (λ s, narrow_increment (sv_fun s) inc env amount current new_values) in
    restrict_incr incr (env <$> ci_vars incr) val
  | TTrue, CvChoice c =>
    let* val := sread (λ s, narrow_amount (sv_fun s) inc c env amount current new_values) in
    restrict c (env <$> ci_vars c) val
  | _, _ => sret []
  end.

(** [restrict] of a choice.  The amount of a counter may be another counter: [fuel]
    bounds the depth. *)
Fixpoint restrict_choice (fuel : nat) (name : string) ids (new_values : Dom) : Sol (list unit) :=
  match fuel with
  | O => λ _, None
  | S fuel =>
    let* c := sread (λ _, choice_code name) in
    match cha_increments c with
    | None => do* store_restrict ir name ids new_values; sret []
    | Some inc =>
      let* current := sread (λ s, store_get ir name ids (sv_store s)) in
      let* new_values := sread (λ _, clip_counter (in_is_half inc) current new_values) in
      if Ranges.is_failed new_values then serr
      else
        let* envs := loop_envs (in_iter inc) (args_env ids) in
        sconcat envs (restrict_increment (λ c, restrict_choice fuel (ci_choice c))
          (λ c ids val, do* store_restrict ir (ci_choice c) ids val; sret []) inc current new_values)
    end
  end.

(** [restrict_delayed]: the actions that would restrict the choice. *)
Fixpoint restrict_delayed (fuel : nat) (name : string) ids (new_values : Dom) : Sol (list (Action Obj)) :=
  match fuel with
  | O => λ _, None
  | S fuel =>
    let* c := sread (λ _, choice_code name) in
    let* current := sread (λ s, store_get ir name ids (sv_store s)) in
    match cha_increments c with
    | None =>
      let* new_values := sread (λ _, dom_restrict new_values current) in
      if dom_is_failed new_values then serr
      else sret (if decide (new_values = current) then [] else [mkAction name ids new_values])
    | Some inc =>
      let* new_values := sread (λ _, clip_counter (in_is_half inc) current new_values) in
      if Ranges.is_failed new_values then serr
      else
        let* envs := loop_envs (in_iter inc) (args_env ids) in
        sconcat envs (restrict_increment (λ c, restrict_delayed fuel (ci_choice c))
          (λ c, restrict_delayed fuel (ci_choice c)) inc current new_values)
    end
  end.

(** The depth of the restrictions: counters have no cycle. *)
Definition depth : nat := S (length (sva_choices code)).

Definition restrict (name : string) ids (new_values : Dom) : Sol unit :=
  do* restrict_choice depth name ids new_values; sret tt.

(** The bounds that an increment adds to a counter, from [old] increments. *)
Definition add_increment (fn : F) (inc : IncrementsAst) env (counter : Dom) (s : Solver F Obj) : option Dom :=
  amount ← increment_amount true (in_value inc) env s;
  incr ← instance_dom true (in_incr inc) env s;
  cond ← incr_condition_dom fn env (in_condition inc);
  counter ← (match counter with
    | DomRange r =>
      let! b := dom_intersects cond incr in
      if (b : bool) then
        amax ← amount_max fn env amount; v ← counter_op (in_kind inc) (Ranges.rmax r) amax;
        Some (DomRange (Ranges.mkRange (Ranges.rmin r) v))
      else Some counter
    | _ => Some counter
    end);
  let! b := dom_contains cond incr in
  if (b : bool) then
    amin ← amount_min fn env amount;
    match counter with
    | DomRange r => v ← counter_op (in_kind inc) (Ranges.rmin r) amin; Some (DomRange (Ranges.mkRange v (Ranges.rmax r)))
    | DomHalf h => v ← counter_op (in_kind inc) (HalfRanges.hmin h) amin; Some (DomHalf (HalfRanges.mkHalfRange v))
    | _ => panic
    end
  else Some counter.

(** [compute_counter]. *)
Definition compute_counter (inc : IncrementsAst) env (s : Solver F Obj) : option Dom :=
  let fn := sv_fun s in
  base ← integer_domain_constructor fn env OpEq (TyRange (in_is_half inc)) (code_num fn env (in_base inc)) tt;
  foldM (λ counter env, add_increment fn inc env counter s) (nest_envs fn (in_iter inc) env) base.

(** ** The actions of [on_change] *)

(** [incr_counter]: the increment is decided by the change. *)
Definition incr_counter (counter : CounterAst) (value : CounterVal) (condition : ValueSet) (old new : Dom) env
  : Sol unit :=
  let* cond := sread (λ s, incr_condition_dom (sv_fun s) env condition) in
  let* was := sread (λ _, dom_is old cond) in
  let zero := counter_zero (co_kind counter) in
  let ids := env <$> co_arguments counter in
  if is_maybe was then
    let* status := sread (λ _, dom_is new cond) in
    let* amount := sread (increment_amount true value env) in
    if is_true status then
      let* min := sread (λ s, amount_min (sv_fun s) env amount) in
      store_restrict ir (co_name counter) ids
        (if co_is_half counter then DomHalf (HalfRanges.mkHalfRange min) else DomRange (Ranges.mkRange min zero))
    else if negb (co_is_half counter) && is_false status then
      let* max := sread (λ s, amount_max (sv_fun s) env amount) in
      store_restrict ir (co_name counter) ids (DomRange (Ranges.mkRange zero max))
    else sret tt
  else sret tt.

(** Bounds of an increment that may not be taken, or is not. *)
Definition set_zero (zero : Z) (is_incr : Trivalent) (d : Dom) : Dom :=
  match d with
  | DomRange r =>
    DomRange (Ranges.mkRange (if maybe_false is_incr then zero else Ranges.rmin r)
      (if is_false is_incr then zero else Ranges.rmax r))
  | DomHalf h => DomHalf (HalfRanges.mkHalfRange (if maybe_false is_incr then zero else HalfRanges.hmin h))
  | _ => d
  end.

(** [update_counter]: the amount of an increment changes. *)
Definition update_counter (counter : CounterAst) (incr_name : string) (incr_args : list Var) (condition : ValueSet)
    (incr_type : ValueType) (old new : Dom) env : Sol unit :=
  let* incr := sread (λ s, store_get_old ir incr_name (env <$> incr_args) (sv_store s) (sv_diff s)) in
  let counter_type := TyRange (co_is_half counter) in
  let* old_incr := sread (λ s, integer_domain_constructor (sv_fun s) env OpEq counter_type old (universe (sv_fun s) env incr_type)) in
  let* new_incr := sread (λ s, integer_domain_constructor (sv_fun s) env OpEq counter_type new (universe (sv_fun s) env incr_type)) in
  let* is_incr := sread (λ s, cond ← incr_condition_dom (sv_fun s) env condition; dom_is incr cond) in
  let zero := counter_zero (co_kind counter) in
  let old_incr := set_zero zero is_incr old_incr in
  let new_incr := set_zero zero is_incr new_incr in
  if decide (old_incr = new_incr) then sret tt
  else store_update ir (co_name counter) (env <$> co_arguments counter) old_incr new_incr.

(** [choice_filter]: filters another choice, in one order of its arguments if it is
    symmetric. *)
Definition filter_remote (call : RemoteFilterCallAst) env : Sol unit :=
  let ids := env <$> rfc_arguments call in
  let* skip := sread (λ _,
    if rfc_is_symmetric call then
      match ids with
      | a :: b :: _ => Some (match rcmp a b with Lt => false | _ => true end)
      | _ => panic
      end
    else Some false) in
  if (skip : bool) then sret tt
  else
    let* values := sread (λ s,
      values ← full_domain ir (sv_fun s) env (rfc_full_type call);
      run_filter_call (sv_fun s) (sv_store s) (rfc_filter_call call) env values) in
    restrict (rfc_choice call) ids values.

(** [trigger_on_change]: the calls of triggers to make once the actions are run. *)
Definition trigger_on_change (ctx : PrintContext) (id : nat) (args : list Var) (inputs : list ChoiceInstance)
    (others : list Condition) (self : ValueSet) (old new : Dom) env : Sol (list (nat * list Obj)) :=
  let* inputs := sread (λ s, mapM (λ c, instance_dom true c env s) inputs) in
  let* fires := sread (λ s,
    let! others := all_conditions ir (sv_fun s) ctx env inputs others in
    if (others : bool) then
      self ← value_set_dom ir (sv_fun s) ctx env inputs self;
      was ← dom_is old self;
      if maybe_true was then is_now ← dom_is new self; Some (is_true is_now) else Some false
    else Some false) in
  sret (if fires : bool then [(id, env <$> args)] else []).

Definition run_action (c : ChoiceAst) (old new : Dom) (a : OnChangeActionAst) env
  : Sol (list (nat * list Obj)) :=
  match oca_action a with
  | CaFilterSelf =>
    let* values := sread (choice_filter c env) in
    do* restrict (choice_name (cha_choice c)) (arg_objs (cha_choice c) env) values; sret []
  | CaFilterRemote call => do* filter_remote call env; sret []
  | CaIncrCounter counter value condition => do* incr_counter counter value condition old new env; sret []
  | CaUpdateCounter counter incr_name incr_args condition incr_type =>
    do* update_counter counter incr_name incr_args condition incr_type old new env; sret []
  | CaTrigger id args inputs others self => trigger_on_change (oca_context a) id args inputs others self old new env
  end.

(** The body of an action, for all the objects of its nest. *)
Definition run_on_change (c : ChoiceAst) ids (old new : Dom) (a : OnChangeActionAst) : Sol (list (nat * list Obj)) :=
  let* inner := sread (λ s, Some (constrained_env (sv_fun s) (oca_constraints a) (args_env ids))) in
  match inner with
  | None => sret []
  | Some env => let* envs := loop_envs (oca_loop_nest a) env in sconcat envs (run_action c old new a)
  end.

(** [on_change] of a choice. *)
Definition on_change_choice (c : ChoiceAst) ids (old new : Dom) : Sol unit :=
  let* calls := sconcat (cha_on_change c) (run_on_change c ids old new) in
  let* actions := sconcat calls (λ '(id, objs), run_trigger id objs) in
  sfor actions (apply_action ir).

(** ** The loops *)

(** The changes of one choice. *)
Fixpoint propagate_choice (fuel : nat) (c : ChoiceAst) : Sol unit :=
  match fuel with
  | O => λ _, None
  | S fuel =>
    let* entry := (λ s : Solver F Obj,
      '(entry, diff) ← pop_diff first_key (choice_name (cha_choice c)) (sv_diff s);
      Some (mkSolver (sv_fun s) (sv_store s) diff, ROk entry)) in
    match entry with
    | None => sret tt
    | Some (ids, old, new) => do* on_change_choice c ids old new; propagate_choice fuel c
    end
  end.

(** [propagate_changes]. *)
Definition propagate_changes (fuel : nat) : Sol unit := sfor (sva_choices code) (propagate_choice fuel).

(** [while !diff.is_empty()]. *)
Fixpoint propagate_all (fuel : nat) : Sol unit :=
  match fuel with
  | O => λ _, None
  | S fuel' => λ s : Solver F Obj,
    if diff_is_empty (sv_diff s) then sret tt s else (do* propagate_changes fuel; propagate_all fuel') s
  end.

(** [apply_decisions]. *)
Definition apply_decisions (fuel : nat) (actions : list (Action Obj)) (fn : F) (store : Store Obj)
  : option (Solver F Obj * result unit unit) :=
  (do* sfor actions (apply_action ir); propagate_all fuel) (mkSolver fn store ∅).

(** ** Initialisation *)

(** [alloc]. *)
Definition alloc_choice (fn : F) (c : ChoiceAst) (store : Store Obj) env : option (Store Obj) :=
  let ch := cha_choice c in
  d ← full_domain ir fn env (choice_value_type ch);
  '(ids, _) ← stored_ids ch (arg_objs ch env);
  Some (<[choice_name ch := <[ids := d]> (default ∅ (store !! choice_name ch))]> store).

Definition choice_envs (fn : F) (c : ChoiceAst) : list (Var → Obj) :=
  nest_envs fn (cha_iteration_space c) (λ _, inhabitant).

(** [DomainStore::new]. *)
Definition store_new (fn : F) : option (Store Obj) :=
  foldM (λ store c, foldM (alloc_choice fn c) (choice_envs fn c) store) (sva_choices code) ∅.

(** The changes made by [m] are recorded in a difference that is not used. *)
Definition with_unused_diff {A : Type} (m : Sol A) : Sol A := λ s,
  '(s', r) ← m s;
  Some (mkSolver (sv_fun s') (sv_store s') (sv_diff s), r).

(** [run_filters]. *)
Definition run_filters (c : ChoiceAst) env : Sol unit :=
  let name := choice_name (cha_choice c) in
  let ids := arg_objs (cha_choice c) env in
  do* (match cha_increments c with
       | None => sret tt
       | Some inc => λ s,
         values ← compute_counter inc env s;
         store ← store_set ir name ids values (sv_store s);
         Some (mkSolver (sv_fun s) store (sv_diff s), ROk tt)
       end);
  let* values := sread (choice_filter c env) in
  with_unused_diff (restrict name ids values).

(** [get_diff_add] and [get_diff_mul]. *)
Definition get_diff (kind : CounterKind) (old new : Dom) : option Dom :=
  match kind, old, new with
  | CounterAdd, DomRange a, DomRange b => DomRange <$> Ranges.get_diff_add a b
  | CounterMul, DomRange a, DomRange b => DomRange <$> Ranges.get_diff_mul a b
  | CounterAdd, DomHalf a, DomHalf b => DomHalf <$> HalfRanges.get_diff_add a b
  | CounterMul, DomHalf a, DomHalf b => DomHalf <$> HalfRanges.get_diff_mul a b
  | _, _, _ => panic
  end.

(** [propagate]: the actions that a choice calls for. *)
Definition propagate (c : ChoiceAst) env : Sol (list (Action Obj)) :=
  let name := choice_name (cha_choice c) in
  let ids := arg_objs (cha_choice c) env in
  let* old := sread (λ s, store_get ir name ids (sv_store s)) in
  let* counter := (match cha_increments c with
    | None => sret []
    | Some inc =>
      let* value := sread (compute_counter inc env) in
      if decide (old = value) then sret []
      else let* d := sread (λ _, get_diff (in_kind inc) old value) in sret [mkAction name ids d]
    end) in
  let* new := sread (choice_filter c env) in
  let* actions := restrict_delayed depth name ids new in
  sret (counter ++ actions).

(** [check_trigger]: the objects a trigger fires on. *)
Definition check_trigger (id : nat) (t : TriggerAst) : Sol (list (nat * list Obj)) :=
  let* envs := loop_envs (ta_loop_nest t) (λ _, inhabitant) in
  sconcat envs (λ env,
    let* fires := sread (λ s,
      inputs ← mapM (λ c, instance_dom true c env s) (ta_inputs t);
      all_conditions ir (sv_fun s) (ta_context t) env inputs (ta_conditions t)) in
    sret (if fires : bool then [(id, env <$> ta_arguments t)] else [])).

(** [init_domain]: the actions to apply to the new domain. *)
Definition init_domain : Sol (list (Action Obj)) :=
  do* sfor (sva_choices code) (λ c, let* envs := loop_envs (cha_iteration_space c) (λ _, inhabitant) in sfor envs (run_filters c));
  let* calls := sconcat (enumerate (sva_triggers code)) (λ '(id, t), check_trigger id t) in
  let* actions := sconcat (sva_choices code) (λ c,
    let* envs := loop_envs (cha_iteration_space c) (λ _, inhabitant) in sconcat envs (propagate c)) in
  let* triggered := sconcat calls (λ '(id, objs), run_trigger id objs) in
  sret (actions ++ triggered).
End propagation.
