(* ===== verification/SolverFacts.v ===== *)
(** * Facts about the store of the printed solver

    Domains of enum choices hold values; getters and restrictions of the store are exact
    on them, seen in either order of symmetric arguments, and a restriction that changes a
    domain makes the store smaller. *)
From S2P Require Import Prelude Utils Orders Domains GenSets Filters FilterSemantics Instances EnumDomains SolverStore.
#[local] Open Scope nat_scope.

(** ** Sums over maps *)
Section map_sum.
Context {K A : Type} `{Countable K}.
Implicit Types (m : gmap K A) (f : A → nat).

Definition map_sum f m : nat := sum_list_with f (map_to_list m).*2.

Lemma map_sum_empty f : map_sum f ∅ = 0.
Proof. unfold map_sum. by rewrite map_to_list_empty. Qed.

Lemma map_sum_insert_new f m i x : m !! i = None → map_sum f (<[i:=x]> m) = f x + map_sum f m.
Proof. intros Hi. unfold map_sum. by rewrite map_to_list_insert by done. Qed.

Lemma map_sum_delete f m i x : m !! i = Some x → map_sum f m = f x + map_sum f (delete i m).
Proof. intros Hi. rewrite <-(insert_delete_id m i x Hi) at 1. apply map_sum_insert_new. by rewrite lookup_delete_eq. Qed.

Lemma map_sum_insert f m i x y : m !! i = Some y → map_sum f (<[i:=x]> m) + f y = map_sum f m + f x.
Proof.
  intros Hi. rewrite (map_sum_delete f m i y Hi), <-(insert_delete_eq m i x), map_sum_insert_new by (by rewrite lookup_delete_eq). lia.
Qed.

Lemma map_sum_zero f m i x : map_sum f m = 0 → m !! i = Some x → f x = 0.
Proof. intros H0 Hi. rewrite (map_sum_delete f m i x Hi) in H0. lia. Qed.
End map_sum.

(** ** Descriptions whose printed solver only has enums *)
Record printable (ir : IrDesc) : Prop := {
  printable_desc : desc_ok ir;
  printable_choices : choices_ok ir;
  printable_enum name ch : get_choice ir name = Some ch → is_Some (def_as_enum (choice_def ch));
  printable_width name e : get_enum ir name = Some e → (num_values e ≤ 64)%nat;
  printable_inverse name ch e : get_choice ir name = Some ch → is_antisymmetric (arguments ch) = true →
    choice_enum ir name = Some e → ∃ m, inverse_mapping e = Some m ∧ m ≠ []
}.

(** The domain is one of the enum; it has a value. *)
Definition enum_dom (e : Enum) (d : Dom) : Prop := ∃ x, d = DomEnum x ∧ ed_wf e x.
Definition has `{KeyRemoval} (e : Enum) (d : Dom) (s : string) : bool := match d with DomEnum x => ed_has e x s | _ => false end.

(** The number of values. *)
Definition dom_size (d : Dom) : nat := match d with DomEnum x => count_ones 64 x | _ => 0 end.

Lemma filter_length_le {A : Type} (P Q : A → Prop) `{∀ x, Decision (P x)} `{∀ x, Decision (Q x)} (l : list A) :
  (∀ x, x ∈ l → P x → Q x) → length (filter P l) ≤ length (filter Q l).
Proof.
  induction l as [|x l IH]; intros HPQ; [done|]. rewrite !filter_cons.
  assert (length (filter P l) ≤ length (filter Q l)) as Hl by (apply IH; intros; apply HPQ; [by right|done]).
  repeat case_decide; cbn; try lia. exfalso. naive_solver (by left).
Qed.

Lemma filter_length_lt {A : Type} (P Q : A → Prop) `{∀ x, Decision (P x)} `{∀ x, Decision (Q x)} (l : list A) y :
  (∀ x, x ∈ l → P x → Q x) → y ∈ l → Q y → ¬ P y → length (filter P l) < length (filter Q l).
Proof.
  intros HPQ [l1 [l2 ->]]%list_elem_of_split HQ HP. rewrite !filter_app, !filter_cons, !length_app.
  rewrite decide_False, decide_True by done. cbn [length].
  pose proof (filter_length_le P Q l1 ltac:(intros; apply HPQ; set_solver)).
  pose proof (filter_length_le P Q l2 ltac:(intros; apply HPQ; set_solver)). lia.
Qed.

Section enum.
Context `{Profile, KeyRemoval} (ir : IrDesc) (e : Enum) (He : enum_ok e) (Hn : (num_values e ≤ 64)%nat).

Lemma has_key d s : has e d s = true → s ∈ value_keys e.
Proof. destruct d; try done. by apply ed_has_key. Qed.

Lemma has_ext a b : enum_dom e a → enum_dom e b → (∀ s, has e a s = has e b s) → a = b.
Proof using He. intros (x & -> & Hx) (y & -> & Hy) Hext. f_equal. by apply (ed_ext e He). Qed.

Lemma dom_restrict_enum a b :
  enum_dom e a → enum_dom e b →
  ∃ c, dom_restrict a b = Some c ∧ enum_dom e c ∧ ∀ s, has e c s = has e a s && has e b s.
Proof.
  intros (x & -> & Hx) (y & -> & Hy). eexists. split; [done|]. split; [eexists; split; [done|by apply ed_land_wf]|].
  intros s. apply ed_has_land.
Qed.

Lemma dom_insert_enum a b :
  enum_dom e a → enum_dom e b →
  ∃ c, dom_insert a b = Some c ∧ enum_dom e c ∧ ∀ s, has e c s = has e a s || has e b s.
Proof.
  intros (x & -> & Hx) (y & -> & Hy). eexists. split; [done|]. split; [eexists; split; [done|by apply ed_lor_wf]|].
  intros s. apply ed_has_lor.
Qed.

Lemma dom_not_enum t a :
  get_enum ir t = Some e → enum_dom e a →
  ∃ c, dom_not ir (TyEnum t) a = Some c ∧ enum_dom e c ∧ ∀ s, s ∈ value_keys e → has e c s = negb (has e a s).
Proof.
  intros Ht (x & -> & Hx). cbn. rewrite Ht. eexists. split; [done|]. split; [eexists; split; [done|by apply ed_not_wf]|].
  intros s. by apply ed_has_not.
Qed.

Lemma dom_inverse_enum t a m :
  get_enum ir t = Some e → inverse_mapping e = Some m → m ≠ [] → enum_dom e a →
  ∃ c, dom_inverse ir (TyEnum t) a = Some c ∧ enum_dom e c ∧
    ∀ s, s ∈ value_keys e → has e c s = has e a (enum_inverse e s).
Proof.
  intros Ht Hm Hne (x & -> & Hx). cbn. rewrite Ht. cbn.
  destruct (ed_inverse_spec e He m Hm Hne Hn x Hx) as (b & -> & Hb & Hs). eexists. split; [done|]. split; [by eexists|done].
Qed.

Lemma dom_all_enum t u : get_enum ir t = Some e →
  ∃ c, dom_all ir (TyEnum t) u = Some c ∧ enum_dom e c ∧ ∀ s, s ∈ value_keys e → has e c s = true.
Proof.
  intros Ht. cbn. rewrite Ht. eexists. split; [done|]. split; [eexists; split; [done|apply ed_all_wf]|].
  intros s. by apply ed_has_all.
Qed.

Lemma dom_failed_enum t : ∃ c, dom_failed (TyEnum t) = Some c ∧ enum_dom e c ∧ ∀ s, has e c s = false.
Proof.
  eexists. split; [done|]. split; [eexists; split; [done|apply ed_failed_wf]|]. intros s. apply ed_has_failed.
Qed.

Lemma dom_is_failed_enum a : enum_dom e a → dom_is_failed a = true ↔ ∀ s, has e a s = false.
Proof. intros (x & -> & Hx). by apply ed_failed_spec. Qed.

Lemma dom_intersects_enum a b :
  enum_dom e a → enum_dom e b →
  ∃ r, dom_intersects a b = Some r ∧ (r = true ↔ ∃ s, has e a s = true ∧ has e b s = true).
Proof.
  intros (x & -> & Hx) (y & -> & Hy). eexists. split; [done|]. by apply ed_intersects_spec.
Qed.

(** A domain that loses a value is smaller. *)
Lemma dom_size_restrict a b c :
  enum_dom e a → dom_restrict a b = Some c → dom_size c ≤ dom_size a ∧ (c ≠ a → dom_size c < dom_size a).
Proof using Hn.
  intros (x & -> & Hx) Hc. destruct b as [y| | |]; try done. injection Hc as <-. unfold ed_restrict. cbn [dom_size]. unfold count_ones. split.
  - apply filter_length_le. intros i _. rewrite Z.land_spec. by intros [? _]%andb_true_iff.
  - intros Hne. destruct (decide (Exists (λ i, Z.testbit x (Z.of_nat i) = true ∧ Z.testbit y (Z.of_nat i) = false) (seq 0 64))) as [Hex|Hall].
    + apply Exists_exists in Hex as (i & Hi & Hxi & Hyi). apply (filter_length_lt _ _ _ i); [|done|done|].
      * intros j _. rewrite Z.land_spec. by intros [? _]%andb_true_iff.
      * by rewrite Z.land_spec, Hyi, andb_false_r.
    + exfalso. apply Hne. f_equal. apply Z.bits_inj'. intros n Hn0. rewrite Z.land_spec.
      destruct (decide (n < 64)%Z) as [Hlt|Hge].
      * destruct (Z.testbit x n) eqn:Exn; [|done]. destruct (Z.testbit y n) eqn:Eyn; [done|]. exfalso. apply Hall, Exists_exists.
        exists (Z.to_nat n). rewrite Z2Nat.id by done. split; [apply elem_of_seq; lia|done].
      * by rewrite (ed_wf_bits e x n) by (done || lia).
Qed.
End enum.

(** ** The store *)
Section store.
Context {F Obj : Type} `{Profile, KeyRemoval} `{Countable Obj, RustOrd Obj, Inhabited Obj}.
Context (ir : IrDesc) (Hir : printable ir).
Implicit Types (store : Store Obj) (ids : list Obj).

(** Each domain of the store is one of the enum of its choice. *)
Definition typed_store store : Prop :=
  ∀ name ids d, store_lookup store name ids = Some d → ∃ e, choice_enum ir name = Some e ∧ enum_dom e d.

(** The domain holds the value that the choice has in the interpretation. *)
Definition admits_value (I : Interp Obj) (name : string) ids (d : Dom) : Prop :=
  ∃ e s, choice_enum ir name = Some e ∧ i_val I name ids = VEnum s ∧ has e d s = true.

Definition holds (I : Interp Obj) store : Prop :=
  ∀ name ids d, store_lookup store name ids = Some d → admits_value I name ids d.

(** The choice has a domain for these arguments. *)
Definition allocated store (x : string * list Obj) : Prop :=
  ∃ ch ids b d, get_choice ir x.1 = Some ch ∧ stored_ids ch x.2 = Some (ids, b) ∧ store_lookup store x.1 ids = Some d.

Lemma choice_enum_info name ch :
  get_choice ir name = Some ch →
  ∃ n e, choice_def ch = DefEnum n ∧ choice_value_type ch = TyEnum n ∧ get_enum ir n = Some e ∧
    choice_enum ir name = Some e ∧ enum_ok e ∧ (num_values e ≤ 64)%nat.
Proof using Hir.
  intros Hg. destruct (printable_enum _ Hir _ _ Hg) as [n Hn].
  destruct (choice_ok_enum _ _ _ (printable_choices _ Hir _ _ Hg) n Hn) as [e He].
  destruct (choice_def ch) eqn:Ed; try done. injection Hn as ->. exists n, e. split; [done|].
  split; [unfold choice_value_type; by rewrite Ed|]. split; [done|]. split; [unfold choice_enum; rewrite Hg; cbn; by rewrite Ed|].
  split; [apply (printable_desc _ Hir n e He)|by apply (printable_width _ Hir n)].
Qed.

Lemma choice_enum_choice name e : choice_enum ir name = Some e → ∃ ch, get_choice ir name = Some ch.
Proof. unfold choice_enum. destruct (get_choice ir name) as [ch|]; [by exists ch|done]. Qed.

(** A value seen from the order of the stored arguments. *)
Lemma inverse_swapped_enum name ch ids ids' b e d :
  get_choice ir name = Some ch → choice_enum ir name = Some e → stored_ids ch ids = Some (ids', b) → enum_dom e d →
  ∃ c, inverse_swapped ir ch b d = Some c ∧ enum_dom e c ∧
    (∀ I, interp_ok ir I → admits_value I name ids' d → admits_value I name ids c) ∧
    (∀ I, interp_ok ir I → admits_value I name ids d → admits_value I name ids' c).
Proof using Hir.
  intros Hg He Hst Hd. destruct (choice_enum_info name ch Hg) as (n & e' & Hdef & Hty & Hge & He' & Hok & Hw).
  rewrite He in He'. injection He' as <-. unfold inverse_swapped.
  assert (b = false → ids' = ids) as Hsame.
  { intros ->. unfold stored_ids in Hst. destruct (is_symmetric (arguments ch)); [|congruence].
    destruct ids as [|lhs [|rhs [|]]]; try done. destruct (rcmp lhs rhs); congruence. }
  destruct b; [|cbn; rewrite Hsame by done; exists d; tauto].
  destruct (arguments ch) as [vars|names t inverse] eqn:Ea; unfold stored_ids in Hst; rewrite Ea in Hst; cbn in Hst; [done|].
  destruct ids as [|lhs [|rhs [|]]]; try done. destruct (rcmp lhs rhs); try done. injection Hst as <-. cbn [andb is_antisymmetric].
  assert (∀ I : Interp Obj, interp_ok ir I → i_val I name [lhs; rhs] = inverse_when ir inverse name (i_val I name [rhs; lhs]) ∧
    i_val I name [rhs; lhs] = inverse_when ir inverse name (i_val I name [lhs; rhs])) as Hval.
  { intros I HI. split; by apply (value_symmetric _ _ HI name ch names t). }
  destruct inverse.
  - destruct (printable_inverse _ Hir name ch e Hg) as (m & Hm & Hne); [by rewrite Ea|done|].
    rewrite Hty. destruct (dom_inverse_enum ir e Hok Hw n d m Hge Hm Hne Hd) as (c & -> & Hc & Hs).
    assert (∀ s, has e d s = true → has e c (enum_inverse e s) = true) as Hinv.
    { intros s Hk. rewrite Hs, (enum_inverse_involutive e Hok); [done|]. by apply (enum_inverse_key e Hok), (has_key e Hok d). }
    exists c. split; [done|]. split; [done|]. split; intros I HI (e' & s & He'' & Hv & Hk); assert (e' = e) as -> by congruence;
      exists e, (enum_inverse e s); (split; [done|]); (split; [|by apply Hinv]); destruct (Hval I HI) as [E1 E2];
      [rewrite E1|rewrite E2]; rewrite Hv; cbn; by rewrite He.
  - exists d. split; [done|]. split; [done|]. split; intros I HI (e' & s & He'' & Hv & Hk); exists e', s;
      (split; [done|]); (split; [|done]); destruct (Hval I HI) as [E1 E2]; by rewrite <-Hv.
Qed.

(** [get] never fails on arguments that have a domain. *)
Lemma store_get_enum store name ids :
  typed_store store → allocated store (name, ids) →
  ∃ e d, choice_enum ir name = Some e ∧ store_get ir name ids store = Some d ∧ enum_dom e d ∧
    ∀ I, interp_ok ir I → holds I store → admits_value I name ids d.
Proof using Hir.
  intros Ht (ch & ids' & b & d & Hg & Hst & Hd). cbn [fst snd] in *. destruct (Ht _ _ _ Hd) as (e & He & Hed).
  destruct (inverse_swapped_enum name ch ids ids' b e d Hg He Hst Hed) as (c & Hc & Hec & E1 & _).
  exists e, c. split; [done|]. unfold store_get. rewrite Hg. cbn [mbind option_bind]. rewrite Hst. cbn [mbind option_bind].
  rewrite Hd. cbn [mbind option_bind]. split; [done|]. split; [done|]. intros I HI Hh. by apply E1, Hh.
Qed.

(** *** Writing a domain *)
Lemma store_lookup_write store name ids d d' name' ids' :
  store_lookup store name ids = Some d →
  store_lookup (store_write name ids d' store) name' ids' =
    if decide (name' = name ∧ ids' = ids) then Some d' else store_lookup store name' ids'.
Proof.
  unfold store_lookup, store_write. intros Hd. destruct (store !! name) as [doms|] eqn:E; [|done]. cbn in Hd.
  destruct (decide (name' = name)) as [->|Hne].
  - rewrite lookup_alter_eq, E. cbn. destruct (decide (ids' = ids)) as [->|Hi].
    + by rewrite lookup_insert_eq, decide_True.
    + rewrite lookup_insert_ne, decide_False by naive_solver. done.
  - rewrite lookup_alter_ne, decide_False by naive_solver. done.
Qed.

(** The number of values left in the store. *)
Definition store_size store : nat := map_sum (map_sum dom_size) store.

Lemma store_size_write store name ids d d' :
  store_lookup store name ids = Some d →
  store_size (store_write name ids d' store) + dom_size d = store_size store + dom_size d'.
Proof.
  unfold store_lookup, store_write, store_size. intros Hd. destruct (store !! name) as [doms|] eqn:E; [|done]. cbn in Hd.
  assert (alter (λ doms, <[ids:=d']> doms) name store = <[name:=<[ids:=d']> doms]> store) as ->.
  { apply map_eq. intros n. destruct (decide (n = name)) as [->|Hne].
    - by rewrite lookup_alter_eq, lookup_insert_eq, E.
    - by rewrite lookup_alter_ne, lookup_insert_ne by done. }
  pose proof (map_sum_insert (map_sum dom_size) store name (<[ids:=d']> doms) doms E).
  pose proof (map_sum_insert dom_size doms ids d' d Hd). lia.
Qed.
End store.
