(* ===== verification/SolverSteps.v ===== *)
(** * Computations of the printed solver that keep the solutions

    A computation on the solver makes progress when it returns, only takes values out of
    the domains, and loses no solution that it is meant to keep.  Progress composes, and
    the loops of the propagation terminate on it: each turn takes a change out of the
    difference, which only grows when the store loses values. *)
From S2P Require Import Prelude Utils Orders Domains GenSets Filters FilterSemantics Instances EnumDomains SolverStore SolverFacts LoopNests PrintedFilters TopSort PropagationAst Propagation.
#[local] Open Scope nat_scope.

Section steps.
Context {F Obj : Type} `{Profile, KeyRemoval} `{Host F Obj} `{Countable Obj, RustOrd Obj, Inhabited Obj}.
Context (ir : IrDesc) (Hir : printable ir).
Context (sol : Interp Obj → Prop) (Hsol : ∀ I, sol I → interp_ok ir I).
#[local] Notation Sol := (Sol (F := F) (Obj := Obj)).
Implicit Types (s : Solver F Obj) (ids : list Obj).

(** ** States *)

(** The domains of the store are typed; the changes are those of domains of the store. *)
Record valid s : Prop := {
  valid_store : typed_store ir (sv_store s);
  valid_diff name ids x : diff_lookup (sv_diff s) name ids = Some x → is_Some (store_lookup (sv_store s) name ids)
}.

(** What is left to do: the values that may be lost, twice, and the changes. *)
Definition potential s : nat := 2 * store_size (sv_store s) + map_sum size (sv_diff s).

(** The domains that [s] and [s'] have in common, smaller in [s']. *)
Definition shrinks (store store' : Store Obj) : Prop := ∀ name ids,
  match store_lookup store name ids, store_lookup store' name ids with
  | Some d, Some d' => ∀ e v, choice_enum ir name = Some e → has e d' v = true → has e d v = true
  | None, None => True
  | _, _ => False
  end.

Record advances s s' : Prop := {
  adv_fun : sv_fun s' = sv_fun s;
  adv_shrinks : shrinks (sv_store s) (sv_store s');
  adv_potential : potential s' ≤ potential s
}.

#[export] Instance shrinks_preorder : PreOrder shrinks.
Proof.
  split.
  - intros store name ids. destruct (store_lookup store name ids); [|done]. by intros e v _.
  - intros s1 s2 s3 H12 H23 name ids. specialize (H12 name ids). specialize (H23 name ids).
    destruct (store_lookup s1 name ids), (store_lookup s2 name ids), (store_lookup s3 name ids); try done.
    intros e v He Hv. by apply (H12 e), (H23 e).
Qed.

#[export] Instance advances_preorder : PreOrder advances.
Proof.
  split; [by intros s; constructor|].
  intros s1 s2 s3 [Ef1 Es1 Ep1] [Ef2 Es2 Ep2]. constructor; [congruence|by etrans|lia].
Qed.

Lemma allocated_shrinks store store' x : shrinks store store' → allocated ir store x → allocated ir store' x.
Proof.
  intros Hsh (ch & ids & b & d & Hg & Hst & Hd). specialize (Hsh x.1 ids). rewrite Hd in Hsh.
  destruct (store_lookup store' x.1 ids) as [d'|] eqn:E; [|done]. by exists ch, ids, b, d'.
Qed.

Lemma lookup_shrinks store store' name ids :
  shrinks store store' → is_Some (store_lookup store' name ids) ↔ is_Some (store_lookup store name ids).
Proof.
  intros Hsh. specialize (Hsh name ids). destruct (store_lookup store name ids), (store_lookup store' name ids); done.
Qed.

(** ** Progress *)

(** The computation returns a state that is further; it only fails when there is no
    solution, and keeps all of them.  [Q] describes what it returns. *)
Definition runs {A : Type} (m : Sol A) (Q : A → Solver F Obj → Prop) s : Prop :=
  ∃ s' r, m s = Some (s', r) ∧ valid s' ∧ advances s s' ∧ (∀ x, r = ROk x → Q x s') ∧
    ∀ I, sol I → holds ir I (sv_store s) → is_ok r = true ∧ holds ir I (sv_store s').

Lemma runs_ret {A : Type} (x : A) (Q : A → Solver F Obj → Prop) s : valid s → Q x s → runs (sret x) Q s.
Proof. intros Hs HQ. exists s, (ROk x). split; [done|]. split; [done|]. split; [done|]. by split; [intros y [= <-]|]. Qed.

Lemma runs_bind {A B : Type} (m : Sol A) (k : A → Sol B) (Q : A → Solver F Obj → Prop) (R : B → Solver F Obj → Prop) s :
  runs m Q s → (∀ x s', valid s' → advances s s' → Q x s' → runs (k x) R s') → runs (sbind m k) R s.
Proof.
  intros (s1 & r & Hm & Hv & Ha & HQ & HI) Hk. unfold runs, sbind. rewrite Hm. destruct r as [x|u].
  - destruct (Hk x s1 Hv Ha (HQ x eq_refl)) as (s2 & r & Hk' & Hv' & Ha' & HR & HI').
    exists s2, r. split; [done|]. split; [done|]. split; [by etrans|]. split; [done|]. intros I Hs Hh.
    by apply HI', HI.
  - exists s1, (RErr u). split; [done|]. split; [done|]. split; [done|]. split; [done|]. intros I Hs Hh. by destruct (HI I Hs Hh).
Qed.

Lemma runs_weaken {A : Type} (m : Sol A) (Q R : A → Solver F Obj → Prop) s :
  runs m Q s → (∀ x s', Q x s' → R x s') → runs m R s.
Proof. intros (s1 & r & Hm & Hv & Ha & HQ & HI) HQR. exists s1, r. naive_solver. Qed.

Lemma runs_read {A : Type} (f : Solver F Obj → option A) (Q : A → Prop) s x :
  valid s → f s = Some x → Q x → runs (sread f) (λ x s', Q x ∧ s' = s) s.
Proof.
  intros Hs Hf HQ. unfold runs, sread. rewrite Hf. exists s, (ROk x). split; [done|]. split; [done|]. split; [done|].
  by split; [intros y [= <-]|].
Qed.

(** A value that is read, whatever it is, and used at once. *)
Lemma runs_let {A B : Type} (f : Solver F Obj → option A) (k : A → Sol B) (R : B → Solver F Obj → Prop) s x :
  f s = Some x → runs (k x) R s → runs (sbind (sread f) k) R s.
Proof. intros Hf Hk. unfold runs, sbind, sread. rewrite Hf. exact Hk. Qed.

(** Loops whose body makes progress from all the states that are further. *)
Lemma runs_for {A : Type} (l : list A) (body : A → Sol unit) s :
  valid s → (∀ x s', x ∈ l → valid s' → advances s s' → runs (body x) (λ _ _, True) s') → runs (sfor l body) (λ _ _, True) s.
Proof.
  revert s. induction l as [|x l IH]; intros s Hs Hb; [by apply runs_ret|]. cbn.
  eapply runs_bind; [apply Hb; [left|done|done]|]. intros _ s' Hs' Ha _. apply IH; [done|].
  intros y s'' Hy Hs'' Ha'. apply Hb; [by right|done|by etrans].
Qed.

Lemma runs_concat {A B : Type} (l : list A) (body : A → Sol (list B)) s :
  valid s → (∀ x s', x ∈ l → valid s' → advances s s' → runs (body x) (λ y _, y = []) s') →
  runs (sconcat l body) (λ y _, y = []) s.
Proof.
  revert s. induction l as [|x l IH]; intros s Hs Hb; [by apply runs_ret|]. cbn.
  eapply runs_bind; [apply Hb; [left|done|done]|]. intros ? s' Hs' Ha ->.
  eapply runs_bind; [apply IH; [done|]; intros y s'' Hy Hs'' Ha'; apply Hb; [by right|done|by etrans]|].
  intros ? s'' Hs'' _ ->. by apply runs_ret.
Qed.

(** ** Restricting a domain *)

Lemma diff_lookup_record (name : string) (ids : list Obj) (old new : Dom) (diff : Diff Obj) (name' : string) (ids' : list Obj) :
  is_Some (diff_lookup (diff_record name ids old new diff) name' ids') ↔
  (name' = name ∧ ids' = ids) ∨ is_Some (diff_lookup diff name' ids').
Proof.
  unfold diff_lookup, diff_record. destruct (decide (name' = name)) as [->|Hn].
  - rewrite lookup_insert_eq. cbn. destruct (decide (ids' = ids)) as [->|Hi].
    + rewrite lookup_insert_eq. split; [by left|by eexists].
    + rewrite lookup_insert_ne by done. destruct (diff !! name) as [doms|]; cbn; [|rewrite lookup_empty]; naive_solver.
  - rewrite lookup_insert_ne by done. naive_solver.
Qed.

Lemma diff_record_size (name : string) (ids : list Obj) (old new : Dom) (diff : Diff Obj) :
  map_sum size (diff_record name ids old new diff) ≤ S (map_sum size diff).
Proof.
  unfold diff_record. set (entry := match default ∅ (diff !! name) !! ids with Some (o, _) => (o, new) | None => (old, new) end).
  destruct (diff !! name) as [doms|] eqn:E; cbn [from_option id] in entry |- *.
  - pose proof (map_sum_insert size diff name (<[ids:=entry]> doms) doms E) as Hs.
    assert (size (<[ids:=entry]> doms) ≤ S (size doms)); [|lia]. rewrite map_size_insert. destruct (doms !! ids); cbn; lia.
  - rewrite map_sum_insert_new by done. rewrite map_size_insert, lookup_empty, map_size_empty. cbn. lia.
Qed.

(** A domain that loses values: the change is recorded. *)
Lemma commit_domain_runs name ids e old new s :
  valid s → store_lookup (sv_store s) name ids = Some old → choice_enum ir name = Some e → enum_ok e → enum_dom e new →
  dom_size new ≤ dom_size old → (new ≠ old → dom_size new < dom_size old) →
  (∀ v, has e new v = true → has e old v = true) →
  (∀ I, sol I → holds ir I (sv_store s) → admits_value ir I name ids new) →
  runs (commit_domain name ids old new) (λ _ _, True) s.
Proof.
  intros Hs Hold He Hok Hnew Hle Hlt Hsub HI. unfold commit_domain. eexists _, _. split; [reflexivity|].
  assert (∀ n i, store_lookup (store_write name ids new (sv_store s)) n i =
    if decide (n = name ∧ i = ids) then Some new else store_lookup (sv_store s) n i) as Hw
    by (intros n i; by apply store_lookup_write with (d := old)).
  pose proof (store_size_write (sv_store s) name ids old new Hold) as Hsz.
  split; [|split; [|split]].
  - constructor; cbn [sv_store sv_diff].
    + intros n i d. rewrite Hw. case_decide as E; [destruct E as [-> ->]; intros [= <-]; by exists e|]. apply Hs.
    + intros n i x Hx. rewrite Hw. destruct (decide (n = name ∧ i = ids)) as [E|E]; [by eexists|]. destruct (decide (old = new)); [by apply (valid_diff _ Hs n i x)|].
      assert (is_Some (diff_lookup (diff_record name ids old new (sv_diff s)) n i)) as Hsome by by eexists.
      apply diff_lookup_record in Hsome as [?|[y Hy]]; [done|]. by apply (valid_diff _ Hs n i y).
  - constructor; [done| |].
    + intros n i. cbn [sv_store]. rewrite Hw. case_decide as E.
      * destruct E as [-> ->]. rewrite Hold. intros e' v He'. assert (e' = e) as -> by congruence. apply Hsub.
      * destruct (store_lookup (sv_store s) n i); [|done]. by intros e' v _.
    + unfold potential. cbn [sv_store sv_diff]. destruct (decide (old = new)) as [->|Hne]; [lia|].
      pose proof (Hlt ltac:(congruence)). pose proof (diff_record_size name ids old new (sv_diff s)). lia.
  - done.
  - intros I Hi Hh. pose proof (HI I Hi Hh) as Hadm. split.
    + destruct (dom_is_failed new) eqn:Ef; [|done]. destruct Hadm as (e' & v & He' & _ & Hv). assert (e' = e) as -> by congruence.
      rewrite (proj1 (dom_is_failed_enum e Hok new Hnew) Ef) in Hv. done.
    + intros n i d. cbn [sv_store]. rewrite Hw. case_decide as E; [destruct E as [-> ->]; intros [= <-]; done|]. apply Hh.
Qed.

(** [store_restrict] on arguments that have a domain, with a domain that the solutions
    are in. *)
Lemma store_restrict_runs name ids e d s :
  valid s → allocated ir (sv_store s) (name, ids) → choice_enum ir name = Some e → enum_dom e d →
  (∀ I, sol I → holds ir I (sv_store s) → admits_value ir I name ids d) →
  runs (store_restrict ir name ids d) (λ _ _, True) s.
Proof using Hir Hsol.
  intros Hs (ch & ids' & b & old & Hg & Hst & Hold) He Hd HI. cbn [fst snd] in *.
  destruct (choice_enum_info ir Hir name ch Hg) as (n & e' & Hdef & _ & _ & He' & Hok & Hn).
  assert (e' = e) as -> by congruence.
  destruct (inverse_swapped_enum ir Hir name ch ids ids' b e d Hg He Hst Hd) as (c & Hc & Hec & _ & Hadm).
  destruct (valid_store _ Hs _ _ _ Hold) as (e'' & He'' & Hod). assert (e'' = e) as -> by congruence.
  destruct (dom_restrict_enum e old c Hod Hec) as (new & Hnew & Hen & Hhas).
  destruct (dom_size_restrict e Hn old c new Hod Hnew) as [Hle Hlt].
  assert (∀ x : Solver F Obj, store_restrict ir name ids d x =
    (old ← store_lookup (sv_store x) name ids'; new ← dom_restrict old c; commit_domain name ids' old new x)) as Hrun.
  { intros x. unfold store_restrict. rewrite Hg. cbn [mbind option_bind]. rewrite Hst. cbn [mbind option_bind]. rewrite Hc.
    cbn [mbind option_bind]. by rewrite Hdef. }
  assert (runs (commit_domain name ids' old new) (λ _ _, True) s) as (s' & r & E & Hrest).
  { apply (commit_domain_runs name ids' e); [done..| |].
    - intros v. rewrite Hhas. by intros [? _]%andb_true_iff.
    - intros I Hi Hh. destruct (Hadm I (Hsol I Hi) (HI I Hi Hh)) as (e1 & v & He1 & Hv & Hcv).
      destruct (Hh _ _ _ Hold) as (e2 & v2 & He2 & Hv2 & Hov). assert (e1 = e) as -> by congruence. assert (e2 = e) as -> by congruence.
      assert (v2 = v) as -> by congruence. exists e, v. split; [done|]. split; [done|]. by rewrite Hhas, Hov, Hcv. }
  exists s', r. split; [|done]. rewrite Hrun, Hold. cbn [mbind option_bind]. by rewrite Hnew.
Qed.
End steps.
