(* ===== verification/PropagationRuns.v ===== *)
(** * The propagation terminates and keeps the solutions

    For descriptions with enums only, the loops of the printed solver are run on the code
    that the printer outputs.  The actions of a change are the subject of another file:
    here they are only known to make progress. *)
From S2P Require Import Prelude Utils Orders Domains GenSets Filters FilterSemantics Instances EnumDomains SolverStore SolverFacts LoopNests PrintedFilters TopSort PropagationAst Propagation SolverSteps.
#[local] Open Scope nat_scope.

(** ** The printed code *)
Section printed.
Context (ir : IrDesc) (Hir : printable ir) (code : SolverAst) (Hcode : print_solver ir = Some code).

Lemma get_choice_name name ch : get_choice ir name = Some ch → choice_name ch = name.
Proof using Hir. intros Hg. apply (printable_choices _ Hir _ _ Hg). Qed.

Lemma counter_input_none name : counter_input ir name = [].
Proof using Hir.
  unfold counter_input. destruct (get_choice ir name) as [ch|] eqn:Hg; [|done]. cbn.
  destruct (choice_enum_info ir Hir name ch Hg) as (n & e & -> & _). done.
Qed.

Lemma choices_lookup name ch : get_choice ir name = Some ch → ch ∈ (choices ir).*2.
Proof using.
  unfold get_choice. generalize (choices ir) as m. intros m. induction m as [|[k c] m IH]; [done|]. cbn.
  case_decide as E; [intros [= <-]; left|]. intros Hc. right. by apply IH.
Qed.

(** The choices of the description are printed, each once. *)
Lemma printed_choices :
  ∃ ordered, order_choices ir = Some ordered ∧ Forall2 (λ ch c, choice_ast_new ir ch = Some c) ordered (sva_choices code) ∧
    (∀ ch, ch ∈ ordered → get_choice ir (choice_name ch) = Some ch) ∧
    (∀ name ch, get_choice ir name = Some ch → ch ∈ ordered).
Proof using Hir Hcode.
  unfold print_solver in Hcode. destruct (order_choices ir) as [ordered|] eqn:Ho; [|done]. cbn [mbind option_bind] in Hcode.
  destruct (mapM (choice_ast_new ir) ordered) as [cs|] eqn:Hm; [|done]. cbn [mbind option_bind] in Hcode.
  destruct (mapM (trigger_ast_new ir) _) as [ts|]; [|done]. injection Hcode as <-. exists ordered. split; [done|].
  split; [by apply mapM_Some|]. unfold order_choices in Ho.
  set (names := choice_name ∘ snd <$> choices ir) in *.
  destruct (decide (NoDup names)) as [Hnd|Hnd].
  2:{ exfalso. unfold stable_topological_sort in Ho. by rewrite bool_decide_eq_false_2 in Ho. }
  destruct (topological_sort_exact names (counter_input ir) Hnd) as (r & Hr & Hspec).
  { intros x p _. rewrite counter_input_none. set_solver. }
  rewrite Hr in Ho. cbn [mbind option_bind] in Ho. destruct r as [sorted|]; [|done].
  destruct Hspec as [_ Hperm]. apply mapM_Some in Ho. split.
  - intros ch Hch. apply list_elem_of_lookup_1 in Hch as [i Hi].
    destruct (Forall2_lookup_r _ _ _ _ _ Ho Hi) as (n & _ & Hg). by rewrite (get_choice_name n).
  - intros name ch Hg. assert (choice_name ch ∈ sorted) as Hin.
    { rewrite Hperm. unfold names. rewrite list_fmap_compose. apply list_elem_of_fmap. exists ch. split; [done|].
      by apply (choices_lookup name). }
    apply list_elem_of_lookup_1 in Hin as [i Hi]. destruct (Forall2_lookup_l _ _ _ _ _ Ho Hi) as (ch' & Hch' & Hg').
    rewrite (get_choice_name name ch Hg) in Hg'. assert (ch' = ch) as -> by congruence. by eapply list_elem_of_lookup_2.
Qed.

Lemma choice_ast_choice ch c : choice_ast_new ir ch = Some c → cha_choice c = ch.
Proof using.
  unfold choice_ast_new. intros E. repeat (apply bind_Some in E as (? & _ & E)). by injection E as <-.
Qed.

Lemma printed_choice c : c ∈ sva_choices code →
  ∃ ch, cha_choice c = ch ∧ get_choice ir (choice_name ch) = Some ch ∧ choice_ast_new ir ch = Some c.
Proof using Hir Hcode.
  intros Hc. destruct printed_choices as (ordered & _ & Hf & H1 & _).
  apply list_elem_of_lookup_1 in Hc as [i Hi]. destruct (Forall2_lookup_r _ _ _ _ _ Hf Hi) as (ch & Hch & Hast).
  exists ch. split; [by apply choice_ast_choice|]. split; [|done]. apply H1. by eapply list_elem_of_lookup_2.
Qed.

Lemma choice_printed name ch : get_choice ir name = Some ch →
  ∃ c, c ∈ sva_choices code ∧ cha_choice c = ch ∧ choice_ast_new ir ch = Some c ∧ choice_code code name = Some c.
Proof using Hir Hcode.
  intros Hg. destruct printed_choices as (ordered & _ & Hf & H1 & H2).
  pose proof (H2 name ch Hg) as Hin. apply list_elem_of_lookup_1 in Hin as [i Hi].
  destruct (Forall2_lookup_l _ _ _ _ _ Hf Hi) as (c & Hc & Hast). pose proof (choice_ast_choice _ _ Hast) as Hcc.
  assert (c ∈ sva_choices code) as Hcin by by eapply list_elem_of_lookup_2.
  exists c. split; [done|]. split; [done|]. split; [done|]. unfold choice_code.
  destruct (list_find_elem_of (λ c, choice_name (cha_choice c) = name) (sva_choices code) c Hcin) as [[j c'] Hfind].
  { rewrite Hcc. by apply get_choice_name. }
  rewrite Hfind. cbn. f_equal. apply list_find_Some in Hfind as (Hj & Hn & _).
  assert (c' ∈ sva_choices code) as Hc' by by eapply list_elem_of_lookup_2.
  destruct (printed_choice c' Hc') as (ch' & Hcc' & Hg' & Hast'). rewrite Hcc' in Hn. rewrite Hn in Hg'. congruence.
Qed.

Lemma printed_increments ch c n : choice_ast_new ir ch = Some c → choice_def ch = DefEnum n → cha_increments c = None.
Proof using.
  unfold choice_ast_new. intros E Hd. repeat (apply bind_Some in E as (? & ? & E)). injection E as <-. cbn.
  match goal with Hi : increments_ast _ _ = Some ?x |- _ => unfold increments_ast in Hi; rewrite Hd in Hi; by injection Hi as <- end.
Qed.
End printed.

Section runs.
Context {F Obj : Type} `{Profile, KeyRemoval} `{Host F Obj} `{Countable Obj, RustOrd Obj, Inhabited Obj}.
Context (ir : IrDesc) (Hir : printable ir) (code : SolverAst) (Hcode : print_solver ir = Some code).
Context (sol : Interp Obj → Prop) (Hsol : ∀ I, sol I → interp_ok ir I).
Context (first_key : gmap (list Obj) (Dom * Dom) → option (list Obj)).
Context (run_trigger : nat → list Obj → Sol (F := F) (Obj := Obj) (list (Action Obj))).
#[local] Notation Sol := (Sol (F := F) (Obj := Obj)).
#[local] Notation runs := (runs ir sol).
Implicit Types (s : Solver F Obj) (ids : list Obj).

(** [restrict] of a choice that is not a counter. *)
Lemma restrict_runs name ids e d s :
  valid ir s → allocated ir (sv_store s) (name, ids) → choice_enum ir name = Some e → enum_dom e d →
  (∀ I, sol I → holds ir I (sv_store s) → admits_value ir I name ids d) →
  runs (restrict ir code name ids d) (λ _ _, True) s.
Proof using Hir Hsol Hcode.
  intros Hs Hal He Hd HI. destruct (choice_enum_choice ir name e He) as [ch Hg].
  destruct (choice_printed ir Hir code Hcode name ch Hg) as (c & _ & Hcc & Hast & Hc).
  destruct (choice_enum_info ir Hir name ch Hg) as (n & _ & Hdef & _).
  unfold restrict, depth. cbn [restrict_choice].
  apply (runs_bind ir sol _ _ (λ _ _, True)); [|intros x s' Hv _ _; by apply runs_ret].
  eapply runs_let; [exact Hc|]. rewrite (printed_increments ir ch c n Hast Hdef).
  eapply runs_bind; [by apply (store_restrict_runs ir Hir sol Hsol name ids e)|]. intros _ s' Hv _ _. by apply runs_ret.
Qed.

(** ** The loops of the propagation *)

(** The first key of a map: there is one unless the map is empty. *)
Hypothesis Hfirst : ∀ m : gmap (list Obj) (Dom * Dom),
  match first_key m with Some k => is_Some (m !! k) | None => m = ∅ end.

(** The actions of a change make progress, in the states that come after [s0]. *)
Context (s0 : Solver F Obj).
Hypothesis Hchange : ∀ c ids old new s, c ∈ sva_choices code → valid ir s → advances ir s0 s →
  is_Some (store_lookup (sv_store s) (choice_name (cha_choice c)) ids) →
  runs (on_change_choice ir code run_trigger c ids old new) (λ _ _, True) s.

Definition changes_of (c : ChoiceAst) s : gmap (list Obj) (Dom * Dom) :=
  default ∅ (sv_diff s !! choice_name (cha_choice c)).

(** A change is taken out. *)
Lemma pop_diff_progress name s (k : list Obj) old new :
  valid ir s → default ∅ (sv_diff s !! name) !! k = Some (old, new) →
  let s' := mkSolver (sv_fun s) (sv_store s) (<[name := delete k (default ∅ (sv_diff s !! name))]> (sv_diff s)) in
  valid ir s' ∧ advances ir s s' ∧ potential s' < potential s ∧ is_Some (store_lookup (sv_store s) name k).
Proof.
  intros Hs Hk. destruct (sv_diff s !! name) as [doms|] eqn:E; cbn [default from_option id] in *; [|by rewrite lookup_empty in Hk].
  assert (potential (mkSolver (sv_fun s) (sv_store s) (<[name := delete k doms]> (sv_diff s))) < potential s) as Hp.
  { unfold potential. cbn [sv_store sv_diff].
    pose proof (map_sum_insert size (sv_diff s) name (delete k doms) doms E). rewrite map_size_delete, Hk in *.
    assert (size doms ≠ 0) by (intros Hz; apply map_size_empty_iff in Hz; subst; by rewrite lookup_empty in Hk). cbn in *. lia. }
  cbn zeta. split; [|split; [|split; [done|]]].
  - constructor; [apply Hs|]. intros n i x. unfold diff_lookup. cbn [sv_diff sv_store].
    destruct (decide (n = name)) as [->|Hne].
    + rewrite lookup_insert_eq. cbn. intros Hx%lookup_delete_Some. apply (valid_diff _ _ Hs name i x).
      unfold diff_lookup. rewrite E. apply Hx.
    + rewrite lookup_insert_ne by done. apply (valid_diff _ _ Hs).
  - constructor; [done|by cbn|]. lia.
  - apply (valid_diff _ _ Hs name k (old, new)). unfold diff_lookup. by rewrite E.
Qed.

(** The changes of one choice: if it had some, there is less to do. *)
Lemma propagate_choice_runs fuel c s :
  c ∈ sva_choices code → valid ir s → advances ir s0 s → potential s < fuel →
  runs (propagate_choice ir code first_key run_trigger fuel c) (λ _ s', potential s' < potential s ∨ changes_of c s = ∅ ∧ s' = s) s.
Proof using Hir Hcode Hsol Hfirst Hchange.
  intros Hc. revert s. induction fuel as [|fuel IH]; intros s Hs Hadv Hf; [lia|]. cbn [propagate_choice].
  pose proof (Hfirst (changes_of c s)) as Hk. unfold changes_of in Hk. unfold changes_of.
  destruct (first_key (default ∅ (sv_diff s !! choice_name (cha_choice c)))) as [k|] eqn:Ek.
  - destruct Hk as [[old new] Hk]. destruct (pop_diff_progress _ s k old new Hs Hk) as (Hv & Ha & Hp & Hal).
    set (sp := mkSolver (sv_fun s) (sv_store s) (<[choice_name (cha_choice c) := delete k (default ∅ (sv_diff s !! choice_name (cha_choice c)))]> (sv_diff s))) in *.
    apply (runs_bind ir sol _ _ (λ x s', x = Some (k, old, new) ∧ s' = sp)).
    { unfold pop_diff. eexists _, (ROk (Some (k, old, new))). rewrite Ek. cbn [mbind option_bind]. rewrite Hk. cbn [mbind option_bind].
      split; [reflexivity|]. split; [exact Hv|]. split; [exact Ha|]. split; [intros x [= <-]; by split|done]. }
    intros x s1 Hv1 Ha1 [-> ->].
    eapply runs_bind; [apply Hchange; [done|done|by etrans|exact Hal]|]. intros _ s2 Hv2 Ha2 _.
    pose proof (adv_potential _ _ _ Ha2) as Hp2. eapply runs_weaken; [apply IH; [done|by do 2 (etrans; [done|])|lia]|].
    intros _ s3 [Hlt|[_ ->]]; left; lia.
  - eexists _, (ROk tt). unfold sbind, pop_diff. rewrite Ek. split; [by destruct s|]. split; [done|]. split; [done|].
    split; [|done]. intros x _. right. split; [done|]. by destruct s.
Qed.

(** The changes of all the choices: there is less to do if one of them had some. *)
Lemma propagate_list_runs fuel l s :
  (∀ c, c ∈ l → c ∈ sva_choices code) → valid ir s → advances ir s0 s → potential s < fuel →
  runs (sfor l (propagate_choice ir code first_key run_trigger fuel))
    (λ _ s', potential s' < potential s ∨ s' = s ∧ ∀ c, c ∈ l → changes_of c s = ∅) s.
Proof using Hir Hcode Hsol Hfirst Hchange.
  revert s. induction l as [|c l IH]; intros s Hl Hs Hadv Hf.
  { apply runs_ret; [done|]. right. split; [done|set_solver]. }
  cbn [sfor]. eapply runs_bind; [apply propagate_choice_runs; [apply Hl; left|done..]|].
  intros ? s1 Hs1 Ha1 H1'. pose proof (adv_potential _ _ _ Ha1).
  eapply runs_weaken; [apply IH; [intros; apply Hl; by right|done|by etrans|lia]|].
  intros _ s2 [Hlt|[-> Hall]]; [left; lia|]. destruct H1' as [Hlt|[Hc ->]]; [by left|]. right. split; [done|].
  intros c' [->|Hc']%elem_of_cons; [done|by apply Hall].
Qed.

Lemma diff_not_empty s :
  valid ir s → diff_is_empty (sv_diff s) = false → ∃ c, c ∈ sva_choices code ∧ changes_of c s ≠ ∅.
Proof using Hir Hcode.
  intros Hs He. unfold diff_is_empty in He. apply bool_decide_eq_false, map_not_Forall in He as (name & doms & Hd & Hne); [|intros ? ?; apply _].
  destruct (map_choose doms Hne) as (k & [old new] & Hk).
  assert (diff_lookup (sv_diff s) name k = Some (old, new)) as Hdl by (unfold diff_lookup; by rewrite Hd).
  destruct (valid_diff _ _ Hs _ _ _ Hdl) as [d Hst]. destruct (valid_store _ _ Hs _ _ _ Hst) as (e & He & _).
  destruct (choice_enum_choice ir name e He) as [ch Hg].
  destruct (choice_printed ir Hir code Hcode name ch Hg) as (c & Hc & Hcc & _). exists c. split; [done|].
  unfold changes_of. by rewrite Hcc, (get_choice_name ir Hir name ch Hg), Hd.
Qed.

(** The outer loop stops with an empty difference, or fails. *)
Lemma propagate_all_runs fuel s :
  valid ir s → advances ir s0 s → potential s < fuel →
  runs (propagate_all ir code first_key run_trigger fuel) (λ _ s', diff_is_empty (sv_diff s') = true) s.
Proof using Hir Hcode Hsol Hfirst Hchange.
  revert s. induction fuel as [|fuel IH]; intros s Hs Hadv Hf; [lia|].
  assert (∀ m, (propagate_all ir code first_key run_trigger (S fuel)) s = m s →
    runs m (λ _ s', diff_is_empty (sv_diff s') = true) s →
    runs (propagate_all ir code first_key run_trigger (S fuel)) (λ _ s', diff_is_empty (sv_diff s') = true) s) as Hrun.
  { intros m Em Hm. unfold SolverSteps.runs. rewrite Em. exact Hm. }
  destruct (diff_is_empty (sv_diff s)) eqn:Ee.
  - apply (Hrun (sret tt)); [cbn [propagate_all]; by rewrite Ee|]. by apply runs_ret.
  - apply (Hrun (do* propagate_changes ir code first_key run_trigger (S fuel); propagate_all ir code first_key run_trigger fuel));
      [cbn [propagate_all]; by rewrite Ee|].
    unfold propagate_changes. eapply runs_bind; [apply propagate_list_runs; done|].
    intros ? s1 Hs1 Ha1 HQ. apply IH; [done|by etrans|]. destruct HQ as [Hlt|[-> Hall]]; [lia|].
    destruct (diff_not_empty s Hs Ee) as (c & Hc & Hne). by destruct Hne; apply Hall.
Qed.

(** A decision on arguments that have a domain, with a domain of the choice. *)
Definition decision_ok (store : Store Obj) (a : Action Obj) : Prop :=
  allocated ir store (act_choice a, act_ids a) ∧ ∃ e, choice_enum ir (act_choice a) = Some e ∧ enum_dom e (act_dom a).

Lemma decisions_run (actions : list (Action Obj)) s :
  valid ir s → Forall (decision_ok (sv_store s)) actions →
  (∀ I a, sol I → a ∈ actions → admits_value ir I (act_choice a) (act_ids a) (act_dom a)) →
  runs (sfor actions (apply_action ir)) (λ _ _, True) s.
Proof using Hir Hsol.
  intros Hs Ha HI. rewrite Forall_forall in Ha. apply runs_for; [done|]. intros a s' Hin Hs' Hadv.
  destruct (Ha a Hin) as (Hal & e & He & Hd). unfold apply_action. apply (store_restrict_runs ir Hir sol Hsol _ _ e); try done.
  - apply (allocated_shrinks ir (sv_store s)); [apply Hadv|exact Hal].
  - intros I Hi _. by apply HI.
Qed.
End runs.
