(* ===== verification/LoopRuns.v ===== *)
(** * Running the printed loops and set constraints

    The environments in which the body of a nest is run give each variable an object of
    its set, and the set constraints that are printed around a piece of code are those of
    the description. *)
From S2P Require Import Prelude Utils Orders Domains GenSets Filters FilterSemantics Instances Environments Constraints ConstraintFilters EnumDomains SolverStore LoopNests.
From Stdlib Require Import FunctionalExtensionality.
#[local] Open Scope nat_scope.

(** The printed references to a reverse set go through the sets it was reversed from. *)
Definition checked_set (s : GSet) : Prop :=
  match set_reverse_constraint s with
  | None => True
  | Some r => set_reverse_constraint r = None ∧
      ∃ sup p, superset r = Some (Some sup) ∧ path_to_superset (without_reverse_constraints s) sup = Some p ∧ p ≠ []
  end.

(** The variables of the sets are bound before the variables that range over them. *)
Fixpoint in_scope (vars : list (Var * GSet)) : Prop :=
  match vars with
  | [] => True
  | (v, s) :: rest => v ∉ rest.*1 ∧ (∀ x, x ∈ set_vars s → x ≠ v ∧ x ∉ rest.*1) ∧ in_scope rest
  end.

(** A constraint that is printed with the membership in its set. *)
Definition checked_constraint (ctx : PrintContext) (x : Var * GSet) : Prop :=
  checked_set x.2 ∧ ∃ current p, ctx_vars ctx !! x.1 = Some current ∧ path_to_superset x.2 current = Some p ∧ p ≠ [].

Lemma path_loop_start d rc v target out p :
  path_loop d rc v target out = Some p → p ≠ [] → ∀ x, x ∈ out → x ∈ p.
Proof.
  revert rc v out. induction d as [d Ed|d s Ed IH] using def_chain_ind; intros rc v out Hp Hne x Hx;
    rewrite path_loop_eq, Ed in Hp; (destruct (set_eqb _ target); [by injection Hp as <-|]); [by injection Hp as <-|].
  destruct (superset_var (set_arg s) v) as [w|]; [|done]. cbn in Hp.
  apply (IH _ _ _ Hp Hne). apply elem_of_app. by left.
Qed.

Lemma path_starts s target p : path_to_superset s target = Some p → p ≠ [] → s ∈ p.
Proof.
  destruct s as [d rc v]. unfold path_to_superset. cbn [set_def set_reverse_constraint set_arg]. rewrite path_loop_eq.
  destruct (set_eqb _ target); [by intros [= <-]|]. destruct (def_superset d) as [s|]; [|by intros [= <-]].
  destruct (superset_var (set_arg s) v) as [w|]; [|done]. cbn. intros Hp Hne.
  apply (path_loop_start _ _ _ _ _ _ Hp Hne). set_solver.
Qed.

Lemma set_ast_plain_spec ctx s sa : set_ast_plain ctx s = Some sa → sa = mkSetAst (set_def s) (set_arg s) [].
Proof.
  unfold set_ast_plain, param_name. intros E. destruct (set_arg s) as [v|]; [|by injection E as <-].
  destruct (ctx_vars ctx !! v); [|done]. by injection E as <-.
Qed.

Section loops.
Context {F Obj : Type} `{Host F Obj} `{Countable Obj, RustOrd Obj, Inhabited Obj} (fn : F) (I : Interp Obj).
Implicit Types (env : Var → Obj).

(** The host language gives the interpretation of sets: the iterators list objects of the
    set, and an object of a superset is cast to a set that it is in. *)
Record host_sets : Prop := {
  host_iter name p o : o ∈ h_iter fn name p → i_den I name p o;
  host_cast name p o o' : h_from_superset fn name p o = Some o' → o' = o ∧ i_den I name p o
}.
Context (Hhost : host_sets).

(** Casts do not change the object. *)
Lemma casts_same cs env o o' : foldM (λ o c, h_from_superset fn (def_name (sa_def c)) (env <$> sa_var c) o) cs o = Some o' → o' = o.
Proof using Hhost.
  revert o. induction cs as [|c cs IH]; intros o; cbn; [by intros [= <-]|].
  destruct (h_from_superset fn _ _ o) as [o1|] eqn:E; [|done]. cbn. intros Hf.
  destruct (host_cast Hhost _ _ _ _ E) as [-> _]. by apply IH.
Qed.

(** What a printed reference checks. *)
Definition ast_holds env (sa : SetAst) (o : Obj) : Prop :=
  i_den I (def_name (sa_def sa)) (env <$> sa_var sa) o ∧
  Forall (λ c, sa_constraints c = [] ∧ i_den I (def_name (sa_def c)) (env <$> sa_var c) o) (sa_constraints sa).

Lemma constraints_cast env cs o o' :
  Forall (λ c, sa_constraints c = []) cs → foldM (λ o c, from_superset fn c env o) cs o = Some o' →
  o' = o ∧ Forall (λ c, sa_constraints c = [] ∧ i_den I (def_name (sa_def c)) (env <$> sa_var c) o) cs.
Proof using Hhost.
  intros Hcs. revert o. induction Hcs as [|c cs Hc _ IH]; intros o; cbn [foldM]; [by intros [= <-]|].
  destruct c as [d v l]. cbn in Hc. subst l. cbn [from_superset].
  destruct (h_from_superset fn (def_name d) (env <$> v) o) as [o1|] eqn:E; [|done]. cbn [mbind option_bind].
  destruct (host_cast Hhost _ _ _ _ E) as [-> Hd]. intros Hf. destruct (IH o Hf) as [-> Hall]. split; [done|]. by constructor.
Qed.

Lemma from_superset_ast env sa o o' :
  Forall (λ c, sa_constraints c = []) (sa_constraints sa) → from_superset fn sa env o = Some o' → o' = o ∧ ast_holds env sa o.
Proof using Hhost.
  destruct sa as [d v cs]. cbn [sa_constraints]. intros Hcs Hf.
  assert (from_superset fn (mkSetAst d v cs) env o =
    (item ← h_from_superset fn (def_name d) (env <$> v) o; foldM (λ o c, from_superset fn c env o) cs item)) as E.
  { cbn [from_superset]. destruct (h_from_superset fn _ _ o) as [o1|]; [|done]. cbn. clear. revert o1.
    induction cs as [|c cs IH]; intros o1; [done|]. cbn. destruct (from_superset fn c env o1); [apply IH|done]. }
  rewrite E in Hf. destruct (h_from_superset fn (def_name d) (env <$> v) o) as [o1|] eqn:E1; [|done]. cbn [mbind option_bind] in Hf.
  destruct (host_cast Hhost _ _ _ _ E1) as [-> Hd]. destruct (constraints_cast env cs o o' Hcs Hf) as [-> Hall].
  split; [done|]. by split.
Qed.

Lemma set_iterator_ast env sa o :
  Forall (λ c, sa_constraints c = []) (sa_constraints sa) → o ∈ set_iterator fn sa env → ast_holds env sa o.
Proof using Hhost.
  intros Hcs (o1 & Ho1 & Hf)%list_elem_of_omap. apply (host_iter Hhost) in Ho1.
  destruct (constraints_cast env _ o1 o Hcs Hf) as [-> Hall]. by split.
Qed.

(** A printed reference checks the membership in the set of the description. *)
Lemma set_ast_exact ctx s sa env o :
  set_ast_new ctx s = Some sa → checked_set s →
  Forall (λ c, sa_constraints c = []) (sa_constraints sa) ∧ (ast_holds env sa o → in_set I env s o).
Proof using.
  destruct s as [d [r|] v]; unfold checked_set; cbn [set_reverse_constraint].
  - intros E (Hr & sup & p & Hsup & Hp & Hne). destruct r as [dr rr vr]. cbn in Hr. subst rr.
    cbn [set_ast_new] in E. destruct (set_ast_plain ctx (mkSet dr None vr)) as [ra|] eqn:Era; [|done]. cbn [mbind option_bind] in E.
    rewrite Hsup in E. cbn [mbind option_bind] in E. unfold without_reverse_constraints in Hp. cbn [set_def set_arg] in Hp.
    rewrite Hp in E. cbn [mbind option_bind] in E.
    destruct (mapM (set_ast_plain ctx) (reverse p)) as [cs|] eqn:Ecs; [|done]. injection E as <-. apply set_ast_plain_spec in Era as ->.
    apply mapM_Some in Ecs. cbn [sa_constraints sa_def sa_var set_def set_arg]. split.
    + apply Forall_forall. intros c Hc. apply list_elem_of_lookup_1 in Hc as [i Hi].
      destruct (Forall2_lookup_r _ _ _ _ _ Ecs Hi) as (x & _ & Hx). by apply set_ast_plain_spec in Hx as ->.
    + intros [Hrd Hall]. cbn [sa_def sa_var] in Hrd. unfold in_set. cbn. split; [|split; [exact Hrd|done]].
      assert (mkSet d None v ∈ reverse p) as Hin by (apply elem_of_reverse; by apply (path_starts _ sup p)).
      apply list_elem_of_lookup_1 in Hin as [i Hi]. destruct (Forall2_lookup_l _ _ _ _ _ Ecs Hi) as (c & Hc & Hx).
      apply set_ast_plain_spec in Hx as ->. cbn [sa_constraints] in Hall. rewrite Forall_forall in Hall.
      by destruct (Hall _ (list_elem_of_lookup_2 _ _ _ Hc)).
  - intros E _. cbn [set_ast_new] in E. apply set_ast_plain_spec in E as ->. cbn. split; [constructor|].
    intros [Hd _]. by split.
Qed.

(** ** Set constraints *)

Lemma bind_same v env : bind_var v (env v) env = env.
Proof. apply functional_extensionality. intros x. unfold bind_var. by case_decide; subst. Qed.

(** Casting along any path gives the same object. *)
Lemma from_superset_same ctx s sa env o o' :
  set_ast_new ctx s = Some sa → from_superset fn sa env o = Some o' → o' = o.
Proof using Hhost.
  intros E Hf. assert (Forall (λ c, sa_constraints c = []) (sa_constraints sa)) as Hcs.
  { destruct s as [d [r|] v]; cbn [set_ast_new] in E; [|apply set_ast_plain_spec in E as ->; constructor].
    apply bind_Some in E as (ra & _ & E). apply bind_Some in E as (sup & _ & E). apply bind_Some in E as (sup' & _ & E).
    apply bind_Some in E as (p & _ & E). apply bind_Some in E as (cs & Ecs & E). injection E as <-. apply mapM_Some in Ecs.
    cbn [sa_constraints]. apply Forall_forall. intros c Hc. apply list_elem_of_lookup_1 in Hc as [i Hi].
    destruct (Forall2_lookup_r _ _ _ _ _ Ecs Hi) as (x & _ & Hx). by apply set_ast_plain_spec in Hx as ->. }
  by destruct (from_superset_ast env sa o o' Hcs Hf).
Qed.

Lemma path_cast ctx path sas env o o' :
  mapM (set_ast_new ctx) path = Some sas → foldM (λ o s, from_superset fn s env o) sas o = Some o' →
  o' = o ∧ ∀ s, s ∈ path → checked_set s → in_set I env s o.
Proof using Hhost.
  intros Hm%mapM_Some Hf. revert o Hf. induction Hm as [|s sa path sas Hs _ IH]; intros o; cbn [foldM].
  { intros [= <-]. split; [done|]. set_solver. }
  destruct (from_superset fn sa env o) as [o1|] eqn:E; [|done]. cbn [mbind option_bind]. intros Hf.
  pose proof (from_superset_same ctx s sa env o o1 Hs E) as ->. destruct (IH o Hf) as [-> Hall]. split; [done|].
  intros s' [->|Hs']%elem_of_cons Hck; [|by apply Hall].
  destruct (set_ast_exact ctx s sa env o Hs Hck) as [Hcs Hin]. apply Hin. by apply (from_superset_ast env sa o o Hcs).
Qed.

Lemma constrained_env_exact ctx scs asts env env' :
  set_constraint_asts scs ctx = Some asts → Forall (checked_constraint ctx) scs →
  constrained_env fn asts env = Some env' → env' = env ∧ Forall (λ x, in_set I env x.2 (env x.1)) scs.
Proof using Hhost.
  revert asts env. induction scs as [|[v s] scs IH]; intros asts env E Hck.
  { cbn in E. injection E as <-. cbn. by intros [= <-]. }
  apply Forall_cons in Hck as [(Hcs & current & p & Hv & Hp & Hne) Hck]. cbn [fst snd] in *.
  cbn [set_constraint_asts] in E. rewrite Hv in E. cbn [mbind option_bind] in E. rewrite Hp in E. cbn [mbind option_bind] in E.
  destruct (mapM (set_ast_new ctx) (reverse p)) as [sas|] eqn:Em; [|done]. cbn [mbind option_bind] in E.
  destruct (set_constraint_asts scs ctx) as [rest|] eqn:Er; [|done]. cbn [mbind option_bind] in E. injection E as <-.
  assert (sas ≠ []) as Hsas.
  { intros ->. apply mapM_Some in Em. apply Forall2_length in Em. rewrite length_reverse in Em. by destruct p. }
  destruct sas as [|sa sas]; [done|]. cbn [constrained_env sc_sets sc_var].
  destruct (foldM _ (sa :: sas) (env v)) as [o|] eqn:Ef; [|done]. cbn [mbind option_bind].
  destruct (path_cast ctx (reverse p) (sa :: sas) env (env v) o Em Ef) as [-> Hin]. rewrite bind_same. intros Hc.
  destruct (IH rest env eq_refl Hck Hc) as [-> Hall]. split; [done|]. constructor; [|done]. cbn [fst snd].
  apply Hin; [|done]. apply elem_of_reverse. by apply (path_starts _ current p).
Qed.

(** ** Loop nests *)

Lemma build_levels_spec ctx outer vars ls outer' :
  build_levels ctx outer vars = Some (ls, outer') →
  ∃ sets, Forall2 (λ v s, ctx_vars ctx !! v = Some s) vars sets ∧
    Forall2 (λ l x, lv_var l = x.1 ∧ set_ast_new ctx x.2 = Some (lv_set l)) ls (zip vars sets).
Proof.
  revert outer ls. induction vars as [|v vars IH]; intros outer ls E.
  { cbn in E. injection E as <- _. exists []. split; constructor. }
  cbn [build_levels] in E. apply bind_Some in E as ([l outer1] & El & E). apply bind_Some in E as ([ls' outer2] & Els & E).
  injection E as <- <-. destruct (IH _ _ Els) as (sets & Hsets & Hls).
  unfold build_level in El. destruct (ctx_vars ctx !! v) as [s|] eqn:Hv; [|done]. cbn [mbind option_bind] in El.
  apply bind_Some in El as (cs & _ & El). apply bind_Some in El as (sa & Hsa & El). injection El as <- _.
  exists (s :: sets). split; [by constructor|]. cbn [zip zip_with]. by constructor.
Qed.

Lemma level_envs_exact ctx tri ls vars env env' :
  Forall2 (λ l x, lv_var l = x.1 ∧ set_ast_new ctx x.2 = Some (lv_set l)) ls vars →
  in_scope vars → Forall (λ x, checked_set x.2) vars → env' ∈ level_envs fn tri ls env →
  (∀ v, v ∉ vars.*1 → env' v = env v) ∧ Forall (λ x, in_set I env' x.2 (env' x.1)) vars.
Proof using Hhost.
  intros Hls. revert env. induction Hls as [|l [v s] ls vars [Hv Hs] _ IH]; intros env Hsc Hck Hin.
  { cbn in Hin. apply list_elem_of_singleton in Hin as ->. split; [done|constructor]. }
  cbn [fst snd] in *. destruct Hsc as (Hvn & Hsv & Hsc). apply Forall_cons in Hck as [Hcs Hck]. cbn [snd] in Hcs.
  cbn [level_envs] in Hin. apply list_elem_of_bind in Hin as (o & Hin & Ho). apply list_elem_of_filter in Ho as [_ Ho].
  destruct (IH _ Hsc Hck Hin) as [Hout Hall]. rewrite Hv in *.
  assert (env' v = o) as Hevo by (rewrite Hout by done; unfold bind_var; by rewrite decide_True).
  split.
  - intros x Hx. cbn in Hx. apply not_elem_of_cons in Hx as [Hxv Hx]. rewrite Hout by done. unfold bind_var. by rewrite decide_False.
  - constructor; [|done]. cbn [fst snd]. rewrite Hevo.
    destruct (set_ast_exact ctx s (lv_set l) env o Hs Hcs) as [Hcn Himp].
    apply (in_set_agree I env); [|by apply Himp, set_iterator_ast]. intros x Hx. destruct (Hsv x Hx) as [Hxv Hxn].
    rewrite Hout by done. unfold bind_var. by rewrite decide_False.
Qed.

(** The environments of the body of a printed nest. *)
Lemma nest_envs_exact ctx vars outer nest outer' env env' :
  loop_nest_new vars ctx outer = Some (nest, outer') →
  (∀ sets, Forall2 (λ v s, ctx_vars ctx !! v = Some s) vars sets → in_scope (zip vars sets) ∧ Forall (λ x, checked_set x.2) (zip vars sets)) →
  env' ∈ nest_envs fn nest env →
  (∀ v, v ∉ vars → env' v = env v) ∧ ∀ v s, v ∈ vars → ctx_vars ctx !! v = Some s → in_set I env' s (env' v).
Proof using Hhost.
  unfold loop_nest_new. intros E Hok Hin. apply bind_Some in E as ([ls o] & El & E). injection E as <- _.
  destruct (build_levels_spec ctx outer vars ls o El) as (sets & Hsets & Hls). destruct (Hok sets Hsets) as [Hsc Hck].
  destruct (level_envs_exact ctx false ls (zip vars sets) env env' Hls Hsc Hck Hin) as [Hout Hall].
  assert ((zip vars sets).*1 = vars) as Hf by (apply fst_zip; by rewrite (Forall2_length _ _ _ Hsets)). rewrite Hf in Hout.
  split; [done|]. intros v s Hv Hs. rewrite Forall_forall in Hall. apply list_elem_of_lookup_1 in Hv as [i Hi].
  destruct (Forall2_lookup_l _ _ _ _ _ Hsets Hi) as (s' & Hs' & Hvs). assert (s' = s) as -> by congruence.
  apply (Hall (v, s)). apply (list_elem_of_lookup_2 _ i). by apply lookup_zip_Some.
Qed.
End loops.

(** ** The variables of a context *)
Lemma context_new_vars ir choice foralls insts ctx :
  context_new ir choice foralls insts = Some ctx →
  mapM (instance_value_type ir) insts = Some (ctx_inputs ctx) ∧
  (∀ i, ctx_vars ctx !! ForallVar i = foralls !! i) ∧ (∀ i, ctx_vars ctx !! Arg i = arguments_sets (arguments choice) !! i).
Proof.
  unfold context_new. intros E. apply bind_Some in E as (types & Ht & E). injection E as <-. cbn [ctx_vars ctx_inputs].
  split; [done|].
  assert (∀ v, (list_to_map (((λ '(id, s), (ForallVar id, s)) <$> enumerate foralls) ++
      ((λ '(id, s), (Arg id, s)) <$> enumerate (arguments_sets (arguments choice)))) : gmap Var GSet) !! v =
    match v with Arg i => arguments_sets (arguments choice) !! i | ForallVar i => foralls !! i end) as Hl; [|by split; intros i; rewrite Hl].
  intros v. set (args := arguments_sets (arguments choice)).
  assert (∀ (l : list GSet) i t, (i, t) ∈ enumerate l ↔ l !! i = Some t) as He.
  { intros l i t. rewrite list_elem_of_lookup. split.
    - intros [k Hk]. rewrite lookup_enumerate in Hk. destruct (l !! k) eqn:Ek; [|done]. by injection Hk as -> ->.
    - intros Hl. exists i. by rewrite lookup_enumerate, Hl. }
  assert (∀ (l : list GSet), (enumerate l).*1 = seq 0 (length l)) as Hfst.
  { intros l. unfold enumerate. rewrite fst_zip; [done|]. by rewrite length_seq. }
  apply option_eq. intros s. rewrite <-elem_of_list_to_map.
  - rewrite elem_of_app, !list_elem_of_fmap. split.
    + intros [([i t] & [= -> ->] & Hi)|([i t] & [= -> ->] & Hi)]; by apply He.
    + destruct v as [i|i]; intros Hi; [right|left]; exists (i, s); (split; [done|]); by apply He.
  - rewrite fmap_app, <-!list_fmap_compose.
    rewrite (list_fmap_ext (fst ∘ λ '(id, s), (ForallVar id, s)) (ForallVar ∘ fst)) by (by intros _ [] _).
    rewrite (list_fmap_ext (fst ∘ λ '(id, s), (Arg id, s)) (Arg ∘ fst)) by (by intros _ [] _).
    rewrite !list_fmap_compose, !Hfst. apply NoDup_app. split; [|split].
    + apply NoDup_fmap_2; [by intros ? ? [=]|]. apply NoDup_seq.
    + intros x (i & -> & _)%list_elem_of_fmap (j & Hj & _)%list_elem_of_fmap. done.
    + apply NoDup_fmap_2; [by intros ? ? [=]|]. apply NoDup_seq.
Qed.
