(* ===== verification/FilterRuns.v ===== *)
(** * Running the printed filters

    On descriptions with enums only, printed value sets, conditions, rules and filters
    never fail, and a filter keeps each value that it allows in a world whose inputs are
    in the domains that it reads. *)
From S2P Require Import Prelude Utils Orders Domains GenSets Filters FilterSemantics Instances Environments Constraints ConstraintFilters EnumDomains SolverStore SolverFacts LoopNests LoopRuns PrintedFilters.
#[local] Open Scope nat_scope.

(** The inverse of the enum is printed. *)
Definition has_inverse (e : Enum) : Prop := ∃ m, inverse_mapping e = Some m ∧ m ≠ [].

Section printable.
Context (ir : IrDesc) (insts : list ChoiceInstance).

(** Value sets: values of the enum, and inputs that are not negated. *)
Definition vs_printable (n : string) (s : ValueSet) : Prop :=
  ∃ e values ins, s = VSEnum n values ins ∧ get_enum ir n = Some e ∧ (∀ x, x ∈ values → x ∈ value_keys e) ∧
    ∀ i neg inv, (i, neg, inv) ∈ ins → neg = false ∧ input_enum ir insts i = Some e ∧ (inv = true → has_inverse e).

Definition cond_printable (c : Condition) : Prop :=
  match c with
  | CBool _ | CCode _ _ => True
  | CEnum i values _ _ => ∃ e, input_enum ir insts i = Some e ∧ ∀ x, x ∈ values → x ∈ value_keys e
  | CCmpCode _ _ _ | CCmpInput _ _ _ _ => False
  end.

Definition rule_printable (ctx : PrintContext) (n : string) (r : Rule) : Prop :=
  Forall cond_printable (conditions r) ∧ Forall (checked_constraint ctx) (set_constraints r) ∧ vs_printable n (alternatives r).

Fixpoint filter_printable (ctx : PrintContext) (n : string) (f : SubFilter) : Prop :=
  match f with
  | Rules rules => Forall (rule_printable ctx n) rules
  | Switch input cases =>
    (∃ e, input_enum ir insts input = Some e) ∧
    (fix all (cases : list (ValueSet * SubFilter)) : Prop :=
       match cases with
       | [] => True
       | (guard, f) :: cases =>
         (∃ e, input_enum ir insts input = Some e ∧ vs_printable (enum_name e) guard) ∧ filter_printable ctx n f ∧ all cases
       end) cases
  end.
End printable.

Lemma dom_union_ok `{KeyRemoval} e first parts :
  enum_dom e first → Forall (λ p, ∃ d, p = Some d ∧ enum_dom e d) parts →
  ∃ d, dom_union first parts = Some d ∧ enum_dom e d ∧
    (∀ x, has e first x = true → has e d x = true) ∧
    ∀ p c x, p ∈ parts → p = Some c → has e c x = true → has e d x = true.
Proof.
  intros Hf Hp. revert first Hf. induction Hp as [|p parts (d & -> & Hd) _ IH]; intros first Hf.
  { exists first. split; [done|]. split; [done|]. split; [done|]. set_solver. }
  destruct (dom_insert_enum e first d Hf Hd) as (u & Hu & Hud & Hhas).
  destruct Hf as (a & -> & Ha), Hd as (b & -> & Hb). cbn in Hu. injection Hu as <-.
  destruct (IH _ Hud) as (r & Hr & Hrd & H1' & H2'). exists r. split; [exact Hr|]. split; [done|]. split.
  - intros x Hx. apply H1'. by rewrite Hhas, Hx.
  - intros p c x [->|Hin]%elem_of_cons Hc Hx; [|by apply (H2' p c)]. injection Hc as <-. apply H1'. by rewrite Hhas, Hx, orb_true_r.
Qed.

Section values.
Context {F Obj : Type} `{Profile, KeyRemoval} `{Host F Obj} `{Countable Obj, RustOrd Obj, Inhabited Obj}.
Context (ir : IrDesc) (Hir : printable ir) (fn : F) (ctx : PrintContext) (env : Var → Obj) (inputs : list Dom) (insts : list ChoiceInstance).

(** The domains of the inputs. *)
Hypothesis Htyped : ∀ i e, input_enum ir insts i = Some e →
  ∃ n d, ctx_inputs ctx !! i = Some (TyEnum n) ∧ get_enum ir n = Some e ∧ inputs !! i = Some d ∧ enum_dom e d.

(** A world whose inputs are in these domains, that the host language agrees with. *)
Record world_in (w : World) : Prop := {
  world_inputs i e d : input_enum ir insts i = Some e → inputs !! i = Some d → ∃ s, w_input w i = VEnum s ∧ has e d s = true;
  world_code c : w_code w c = h_bool fn (code c) (code_env env c)
}.

Lemma get_enum_ok n e : get_enum ir n = Some e → enum_ok e ∧ (num_values e ≤ 64) ∧ enum_name e = n.
Proof using Hir. intros He. destruct (printable_desc _ Hir n e He). split; [done|]. split; [by apply (printable_width _ Hir n)|done]. Qed.

Lemma enum_input_ok e i inv :
  input_enum ir insts i = Some e → (inv = true → has_inverse e) →
  ∃ d, enum_input ir ctx inputs (i, false, inv) = Some d ∧ enum_dom e d ∧
    ∀ w y, world_in w → input_value ir insts w inv i = VEnum y → has e d y = true.
Proof using Hir Htyped.
  intros Hi Hinv. destruct (Htyped i e Hi) as (n & d & Ht & Hn & Hd & Hed). destruct (get_enum_ok n e Hn) as (Hok & Hw & _).
  unfold enum_input, input_dom. rewrite Ht, Hd. cbn [mbind option_bind].
  assert (∀ w, world_in w → ∃ s, w_input w i = VEnum s ∧ has e d s = true) as Hworld by (intros w Hw'; by apply (world_inputs w Hw')).
  destruct inv.
  - destruct (Hinv eq_refl) as (m & Hm & Hne). destruct (dom_inverse_enum ir e Hok Hw n d m Hn Hm Hne Hed) as (c & -> & Hc & Hs).
    exists c. split; [done|]. split; [done|]. intros w y Hww Hy. destruct (Hworld w Hww) as (s & Es & Hhs).
    unfold input_value, inverse_value in Hy. rewrite Es, Hi in Hy. injection Hy as <-.
    rewrite Hs by by apply (enum_inverse_key e Hok), (has_key e Hok d). by rewrite (enum_inverse_involutive e Hok).
  - exists d. split; [done|]. split; [done|]. intros w y Hww Hy. destruct (Hworld w Hww) as (s & Es & Hhs).
    cbn in Hy. rewrite Es in Hy. by injection Hy as <-.
Qed.

(** A printed value set has all the values that it may allow. *)
Lemma value_set_ok n e s :
  vs_printable ir insts n s → get_enum ir n = Some e →
  ∃ d, value_set_dom ir fn ctx env inputs s = Some d ∧ enum_dom e d ∧
    ∀ w x, world_in w → vs_allows ir insts w s (VEnum x) → has e d x = true.
Proof using Hir Htyped.
  intros (e' & values & ins & -> & He' & Hvalues & Hins) He. assert (e' = e) as -> by congruence.
  destruct (get_enum_ok n e He) as (Hok & Hw & _). unfold value_set_dom.
  destruct (vs_is_empty (VSEnum n values ins)) eqn:Eempty.
  { cbn in Eempty. apply andb_true_iff in Eempty as [Hv%bool_decide_eq_true Hi%bool_decide_eq_true].
    destruct (dom_failed_enum e n) as (d & Hd & Hed & Hf). exists d. split; [exact Hd|]. split; [done|].
    intros w x _ (y & [= <-] & [Hx|(i & neg & inv & y' & Hin & _)]); subst; set_solver. }
  unfold enum_set. rewrite He. cbn [mbind option_bind].
  set (parts := ((λ x, DomEnum <$> value_const e x) <$> elements values) ++ (enum_input ir ctx inputs <$> elements ins)).
  assert (Forall (λ p, ∃ d, p = Some d ∧ enum_dom e d) parts) as Hparts.
  { apply Forall_app. split; apply Forall_fmap, Forall_forall; cbn.
    - intros x Hx%elem_of_elements. destruct (value_const_spec e Hok x (Hvalues x Hx)) as (b & -> & Hb & _). eexists. split; [done|by eexists].
    - intros [[i neg] inv] Hx%elem_of_elements. destruct (Hins i neg inv Hx) as (-> & Hi & Hinv).
      destruct (enum_input_ok e i inv Hi Hinv) as (d & -> & Hd & _). by exists d. }
  assert (∀ w x, world_in w → vs_allows ir insts w (VSEnum n values ins) (VEnum x) → ∃ c, Some c ∈ parts ∧ has e c x = true) as Hall.
  { intros w x Hww (y & [= <-] & [Hx|(i & neg & inv & y' & Hin & Hy & Hneg)]).
    - destruct (value_const_spec e Hok x (Hvalues x Hx)) as (b & Hb & _ & Hhas). exists (DomEnum b). split.
      + apply elem_of_app. left. apply list_elem_of_fmap. exists x. rewrite Hb. split; [done|by apply elem_of_elements].
      + cbn. rewrite Hhas. by apply bool_decide_eq_true_2.
    - destruct (Hins i neg inv Hin) as (-> & Hi & Hinv). cbn in Hneg. subst y'.
      destruct (enum_input_ok e i inv Hi Hinv) as (d & Hd & _ & Hhas). exists d. split; [|by apply (Hhas w)].
      apply elem_of_app. right. apply list_elem_of_fmap. exists (i, false, inv). split; [by rewrite Hd|by apply elem_of_elements]. }
  assert (parts ≠ []) as Hne.
  { intros [Ev Ei]%app_nil. cbn in Eempty. apply not_true_iff_false in Eempty. apply Eempty.
    apply fmap_nil_inv, elements_empty_iff in Ev. apply fmap_nil_inv, elements_empty_iff in Ei.
    rewrite !bool_decide_eq_true_2 by (by apply leibniz_equiv). done. }
  clearbody parts. destruct parts as [|p parts]; [done|].
  apply Forall_cons in Hparts as [(first & -> & Hfirst) Hparts]. cbn [mbind option_bind].
  destruct (dom_union_ok e first parts Hfirst Hparts) as (d & Hd & Hed & H1' & H2'). exists d. split; [exact Hd|]. split; [done|].
  intros w x Hww Hx. destruct (Hall w x Hww Hx) as (c & [[= <-]|Hc]%elem_of_cons & Hcx); [by apply H1'|by apply (H2' (Some c) c)].
Qed.

(** A printed condition is true only when the condition holds for sure. *)
Lemma condition_ok c :
  cond_printable ir insts c →
  ∃ b, condition ir fn ctx env inputs c = Some b ∧ (b = true → ∀ w, world_in w → cond_holds ir insts w c = true).
Proof using Hir Htyped.
  destruct c as [cd neg|i values neg inv|b|? ? ?|? ? ? ?]; cbn [cond_printable condition cond_holds]; try done.
  - intros _. eexists. split; [done|]. intros Hb w Hw. by rewrite (world_code _ Hw).
  - intros (e & Hi & Hvalues). destruct (Htyped i e Hi) as (n & d & Ht & Hn & Hd & Hed).
    destruct (get_enum_ok n e Hn) as (Hok & Hw64 & Hname). unfold input_dom. rewrite Ht, Hd. cbn [mbind option_bind type_as_enum].
    rewrite Hn. cbn [mbind option_bind]. unfold normalized_enum_set, vs_enum_values. rewrite Hname.
    assert (vs_printable ir insts n (VSEnum n (normalize_values values (negb neg) inv e) ∅)) as Hvp.
    { exists e, (normalize_values values (negb neg) inv e), ∅. split; [done|]. split; [done|]. split.
      - intros x. unfold normalize_values. destruct (negb neg).
        + rewrite elem_of_list_to_set, list_elem_of_filter. tauto.
        + destruct inv; [|apply Hvalues]. intros Hx%(elem_of_inverse_map e Hok). rewrite <-(enum_inverse_involutive e Hok x).
          by apply (enum_inverse_key e Hok), Hvalues.
      - intros ? ? ? Hx. set_solver. }
    destruct (value_set_ok n e _ Hvp Hn) as (set & -> & Hset & Hsound). cbn [mbind option_bind].
    destruct (dom_intersects_enum e Hok d set Hed Hset) as (r & -> & Hr). cbn [mbind option_bind]. eexists. split; [done|].
    intros Hb w Hw. destruct (world_inputs w Hw i e d Hi Hd) as (s & Hs & Hhs).
    pose proof (has_key e Hok d s Hhs) as Hkey.
    assert (s ∉ normalize_values values (negb neg) inv e) as Hns.
    { intros Hin. apply negb_true_iff, not_true_iff_false in Hb. apply Hb, Hr. exists s. split; [done|]. apply (Hsound w); [done|].
      exists s. split; [done|]. by left. }
    rewrite (elem_of_normalize_values e Hok values (negb neg) inv s Hkey) in Hns.
    unfold input_value, inverse_value. rewrite Hs, Hi. destruct inv, neg; cbn in *; by destruct (bool_decide _).
  - intros _. by eexists.
Qed.

Lemma all_conditions_ok conds :
  Forall (cond_printable ir insts) conds →
  ∃ b, all_conditions ir fn ctx env inputs conds = Some b ∧
    (b = true → ∀ w, world_in w → Forall (λ c, cond_holds ir insts w c = true) conds).
Proof using Hir Htyped.
  induction 1 as [|c conds Hc _ IH]; [by exists true|]. cbn [all_conditions].
  destruct (condition_ok c Hc) as (b & -> & Hb). cbn [mbind option_bind]. destruct b; [|by exists false].
  destruct IH as (b' & Hb' & Hall). exists b'. split; [done|]. intros Ht w Hw. constructor; [by apply Hb|by apply Hall].
Qed.
End values.

(** The host language agrees with the interpretation. *)
Record host_ok {F Obj : Type} `{Host F Obj} (fn : F) (I : Interp Obj) : Prop := {
  host_sets_ok : host_sets fn I;
  host_bool c l : h_bool fn c l = i_bool I c l
}.

Section rules.
Context {F Obj : Type} `{Profile, KeyRemoval} `{Host F Obj} `{Countable Obj, RustOrd Obj, Inhabited Obj}.
Context (ir : IrDesc) (Hir : printable ir) (fn : F) (ctx : PrintContext) (inputs : list Dom) (insts : list ChoiceInstance).
Hypothesis Htyped : ∀ i e, input_enum ir insts i = Some e →
  ∃ n d, ctx_inputs ctx !! i = Some (TyEnum n) ∧ get_enum ir n = Some e ∧ inputs !! i = Some d ∧ enum_dom e d.
Implicit Types (env : Var → Obj) (I : Interp Obj).

(** The values of the inputs are in the domains. *)
Definition interp_in I env : Prop :=
  host_ok fn I ∧ ∀ i e d, input_enum ir insts i = Some e → inputs !! i = Some d →
    ∃ s, w_input (env_world I env insts) i = VEnum s ∧ has e d s = true.

Lemma interp_world_in I env : interp_in I env → world_in ir fn env inputs insts (env_world I env insts).
Proof. intros [Hh Hi]. constructor; [done|]. intros c. cbn. symmetry. apply (host_bool fn I Hh). Qed.

Lemma run_rule_ok n e env r ra values :
  rule_printable ir insts ctx n r → rule_ast_new r ctx = Some ra → get_enum ir n = Some e → enum_dom e values →
  ∃ d, run_rule ir fn ctx env inputs values ra = Some d ∧ enum_dom e d ∧
    ∀ I x, interp_in I env → has e values x = true → rule_allows ir insts (env_world I env insts) r (VEnum x) → has e d x = true.
Proof using Hir Htyped.
  intros (Hconds & Hsets & Halts) Era He Hv. unfold rule_ast_new in Era. apply bind_Some in Era as (asts & Easts & [= <-]).
  unfold run_rule. cbn [ra_set_conditions ra_conditions ra_values].
  destruct (constrained_env fn asts env) as [env'|] eqn:Ec; [|by exists values].
  destruct (all_conditions_ok ir Hir fn ctx env' inputs insts Htyped (conditions r) Hconds) as (b & -> & Hb). cbn [mbind option_bind].
  destruct b; [|by exists values].
  destruct (value_set_ok ir Hir fn ctx env' inputs insts Htyped n e _ Halts He) as (allowed & -> & Ha & Hsound). cbn [mbind option_bind].
  destruct (dom_restrict_enum e values allowed Hv Ha) as (d & Hd & Hed & Hhas). exists d. split; [done|]. split; [done|].
  intros I x Hin Hx Hr. destruct (constrained_env_exact fn I (host_sets_ok _ _ (proj1 Hin)) ctx _ asts env env' Easts Hsets Ec) as [-> Hall].
  pose proof (interp_world_in I env Hin) as Hw. rewrite Hhas, Hx. cbn. apply (Hsound _ x Hw), Hr. split; [exact Hall|by apply Hb].
Qed.

Lemma run_rules_ok n e env rules ras values :
  Forall (rule_printable ir insts ctx n) rules → mapM (λ r, rule_ast_new r ctx) rules = Some ras → get_enum ir n = Some e → enum_dom e values →
  ∃ d, foldM (run_rule ir fn ctx env inputs) ras values = Some d ∧ enum_dom e d ∧
    ∀ I x, interp_in I env → has e values x = true →
      Forall (λ r, rule_allows ir insts (env_world I env insts) r (VEnum x)) rules → has e d x = true.
Proof using Hir Htyped.
  intros Hr Hm%mapM_Some He. revert values. induction Hm as [|r ra rules ras Hra _ IH]; intros values Hv.
  { exists values. split; [done|]. by split. }
  apply Forall_cons in Hr as [Hr Hrs]. cbn [foldM].
  destruct (run_rule_ok n e env r ra values Hr Hra He Hv) as (d & -> & Hd & Hsound). cbn [mbind option_bind].
  destruct (IH Hrs d Hd) as (d' & Hd' & Hed & Hsound'). exists d'. split; [done|]. split; [done|].
  intros I x Hin Hx [Ha Has]%Forall_cons. apply (Hsound' I x Hin); [by apply (Hsound I)|done].
Qed.

(** The rules of a filter, as they are printed. *)
Lemma positive_rules_ok n e env ch rules pf values :
  choice_value_type ch = TyEnum n → get_enum ir n = Some e → Forall (rule_printable ir insts ctx n) rules →
  positive_rules rules ch ctx = Some pf → enum_dom e values →
  ∃ d, run_positive ir fn ctx env inputs pf values = Some d ∧ enum_dom e d ∧ (∀ x, has e values x = true → has e d x = true) ∧
    ∀ I x, interp_in I env → x ∈ value_keys e →
      Forall (λ r, rule_allows ir insts (env_world I env insts) r (VEnum x)) rules → has e d x = true.
Proof using Hir Htyped.
  intros Hty He Hr Hpf Hv. destruct (get_enum_ok ir Hir n e He) as (Hok & _ & _).
  destruct (dom_all_enum ir e Hok n (universe fn env (TyEnum n)) He) as (all & Hall & Haed & Hahas).
  assert (∀ pf u (P : Interp Obj → string → Prop), run_positive ir fn ctx env inputs pf values = dom_insert values u → enum_dom e u →
    (∀ I x, interp_in I env → x ∈ value_keys e → P I x → has e u x = true) →
    ∃ d, run_positive ir fn ctx env inputs pf values = Some d ∧ enum_dom e d ∧ (∀ x, has e values x = true → has e d x = true) ∧
      ∀ I x, interp_in I env → x ∈ value_keys e → P I x → has e d x = true) as Hinsert.
  { intros pf' u P -> Hu Hsound. destruct (dom_insert_enum e values u Hv Hu) as (d & Hd & Hed & Hhas).
    exists d. split; [done|]. split; [done|]. split; [intros x Hx; by rewrite Hhas, Hx|].
    intros I x Hin Hx HP. by rewrite Hhas, (Hsound I x Hin Hx HP), orb_true_r. }
  unfold positive_rules in Hpf. rewrite Hty in Hpf. cbn [full_type] in Hpf.
  destruct rules as [|[conds alts sets] rules].
  { injection Hpf as <-. apply (Hinsert _ all); [|done|by intros; apply Hahas]. cbn [run_positive]. unfold full_domain. by rewrite Hall. }
  assert (pf = PfAllowValues alts ∧ vs_is_empty alts = false ∧ conds = [] ∧ sets = [] ∧ rules = [] ∨
    pf = PfEmpty ∧ vs_is_empty alts = true ∧ conds = [] ∧ sets = [] ∧ rules = [] ∨
    ∃ ras, mapM (λ r, rule_ast_new r ctx) (mkRule conds alts sets :: rules) = Some ras ∧ pf = PfRules (TyEnum n) ras) as Hcases.
  { destruct conds, sets, rules; try (right; right; apply fmap_Some in Hpf as (ras & Hras & ->); by exists ras).
    destruct (vs_is_empty alts); injection Hpf as <-; auto 10. }
  destruct Hcases as [(-> & _ & -> & -> & ->)|[(-> & Hempty & -> & -> & ->)|(ras & Hras & ->)]].
  - apply Forall_singleton in Hr as (_ & _ & Halts). cbn [alternatives] in Halts.
    destruct (value_set_ok ir Hir fn ctx env inputs insts Htyped n e alts Halts He) as (u & Hu & Hued & Hsound).
    apply (Hinsert _ u); [cbn [run_positive]; by rewrite Hu|done|]. intros I x Hin Hx [Ha _]%Forall_cons.
    apply (Hsound _ x (interp_world_in I env Hin)), Ha. split; constructor.
  - exists values. split; [done|]. split; [done|]. split; [done|]. intros I x Hin Hx [Ha _]%Forall_cons.
    assert (vs_allows ir insts (env_world I env insts) alts (VEnum x)) as Hva by (apply Ha; split; constructor).
    apply Forall_singleton in Hr as (_ & _ & (e' & vals & ins & Hs & _)). cbn [alternatives] in Hs. subst alts.
    cbn in Hempty. apply andb_true_iff in Hempty as [E1%bool_decide_eq_true E2%bool_decide_eq_true]. subst vals ins.
    destruct Hva as (y & [= <-] & [?|(? & ? & ? & ? & ? & _)]); set_solver.
  - destruct (run_rules_ok n e env _ ras all Hr Hras He Haed) as (u & Hu & Hued & Hsound).
    apply (Hinsert _ u); [cbn [run_positive]; unfold full_domain; rewrite Hall; cbn [mbind option_bind]; by rewrite Hu|done|].
    intros I x Hin Hx Ha. apply (Hsound I x Hin); [by apply Hahas|done].
Qed.

(** A printed filter keeps the values it starts with and those that the filter allows. *)
Lemma positive_filter_ok n e env ch f :
  choice_value_type ch = TyEnum n → get_enum ir n = Some e → filter_printable ir insts ctx n f →
  ∀ pf values, positive_filter_new f ch ctx = Some pf → enum_dom e values →
  ∃ d, run_positive ir fn ctx env inputs pf values = Some d ∧ enum_dom e d ∧ (∀ x, has e values x = true → has e d x = true) ∧
    ∀ I x, interp_in I env → x ∈ value_keys e → filter_allows ir insts (env_world I env insts) f (VEnum x) → has e d x = true.
Proof using Hir Htyped.
  intros Hty He. revert f. fix IH 1. intros [input cases|rules] Hp pf values Hpf Hv; cbn [positive_filter_new] in Hpf.
  2:{ by apply (positive_rules_ok n e env ch rules pf values). }
  cbn [filter_printable] in Hp. destruct Hp as [(ei & Hei) Hp]. apply fmap_Some in Hpf as (pcases & Hpc & ->).
  destruct (Htyped input ei Hei) as (ni & di & Hti & Hni & Hdi & Hedi). destruct (get_enum_ok ir Hir ni ei Hni) as (Hoki & _ & Hname).
  cbn [run_positive filter_allows]. revert pcases values Hpc Hv Hp.
  induction cases as [|[guard f] cases IHc]; intros pcases values Hpc Hv Hp.
  { injection Hpc as <-. exists values. split; [done|]. by split. }
  destruct Hp as ((e' & He' & Hguard) & Hf & Hp). assert (e' = ei) as -> by congruence. rewrite Hname in Hguard.
  apply bind_Some in Hpc as (pf & Hpf & Hpc). apply bind_Some in Hpc as (rest & Hrest & [= <-]).
  unfold input_dom. rewrite Hti, Hdi. cbn [mbind option_bind].
  destruct (value_set_ok ir Hir fn ctx env inputs insts Htyped ni ei guard Hguard Hni) as (g & -> & Hg & Hgs). cbn [mbind option_bind].
  destruct (dom_intersects_enum ei Hoki di g Hedi Hg) as (b & -> & Hb). cbn [mbind option_bind].
  assert (∃ v', (if b then run_positive ir fn ctx env inputs pf values else Some values) = Some v' ∧ enum_dom e v' ∧
    (∀ x, has e values x = true → has e v' x = true) ∧
    ∀ I x, interp_in I env → x ∈ value_keys e → vs_allows ir insts (env_world I env insts) guard (w_input (env_world I env insts) input) →
      filter_allows ir insts (env_world I env insts) f (VEnum x) → has e v' x = true) as (v' & Hv' & Hved & Hmono & Hsound).
  { destruct b.
    - destruct (IH f Hf pf values Hpf Hv) as (v' & Hv' & Hed & Hm & Hs). exists v'. split; [done|]. split; [done|]. split; [done|].
      intros I x Hin Hx _ Ha. by apply (Hs I).
    - exists values. split; [done|]. split; [done|]. split; [done|]. intros I x Hin Hx Hga _. exfalso.
      destruct (proj2 Hin input ei di Hei Hdi) as (s & Hs & Hhs). rewrite Hs in Hga.
      assert (false = true) as ?; [|done]. apply Hb. exists s. split; [done|]. by apply (Hgs _ s (interp_world_in I env Hin)). }
  rewrite Hv'. cbn [mbind option_bind]. destruct (IHc rest v' Hrest Hved Hp) as (d & Hd & Hed & Hm & Hs).
  exists d. split; [|split; [done|split]].
  - rewrite <-Hd. unfold input_dom. by rewrite Hti, Hdi.
  - intros x Hx. by apply Hm, Hmono.
  - intros I x Hin Hx [[Hga Ha]|Hany]; [|by apply (Hs I)]. by apply Hm, (Hsound I).
Qed.
End rules.
