(* ===== verification/CallRuns.v ===== *)
(** * Running the calls of filters and the actions of a change

    A filter action or a remote filter call of the description allows the value that an
    interpretation gives to the filtered choice, for all objects of its sets.  Then the
    printed calls keep this value.  When the domain of a choice changes, the printed solver
    filters the choice itself and the choices that depend on it: for a description with
    enums only, all of it returns, and no solution is lost. *)
From S2P Require Import Prelude Domains Utils Orders GenSets Filters FilterSemantics Instances FlatFilters Environments.
From S2P Require Import Constraints ConstraintFilters EnumDomains SolverStore LoopNests PrintedFilters TopSort PropagationAst.
From S2P Require Import Propagation SolverFacts SolverSteps PropagationRuns LoopRuns FilterRuns.
#[local] Open Scope nat_scope.

(** ** What is asked of the description *)
Section printable.
Context (ir : IrDesc).

(** The sets of the quantified variables: they only mention arguments and variables that
    are bound before. *)
Definition foralls_printable (offset : nat) (sets : list GSet) : Prop :=
  in_scope (zip (ForallVar <$> seq offset (length sets)) sets) ∧ Forall checked_set sets.

Definition function_printable (ch : Choice) (n : string) (f : Filter) : Prop :=
  ∀ ctx, context_new ir ch (drop (arguments_len (arguments ch)) (filter_arguments f)) (filter_inputs f) = Some ctx →
    filter_printable ir (filter_inputs f) ctx n (filter_rules f).

(** A call of a filter of the choice [filtered]. *)
Definition ref_printable (ctx : PrintContext) (filtered : string) (ref : FilterRef) : Prop :=
  ∃ ch n, get_choice ir filtered = Some ch ∧ choice_def ch = DefEnum n ∧
    match ref with
    | FrInline rules => Forall (rule_printable ir [] ctx n) rules
    | FrFunction name id _ => name = filtered ∧ ∃ f, filters ch !! id = Some f ∧ function_printable ch n f
    end.

(** The constraints are on the arguments of the choice. *)
Definition constraints_printable (ctx : PrintContext) (scs : SetConstraints) : Prop :=
  Forall (λ x, checked_constraint ctx x ∧ (∃ i, x.1 = Arg i) ∧ args_only x.2) scs.

Definition filter_action_printable (ch : Choice) (act : FilterAction) : Prop :=
  foralls_printable 0 (fc_forall_vars (fa_filter act)) ∧
  ∀ ctx, context_new ir ch (fc_forall_vars (fa_filter act)) [] = Some ctx →
    constraints_printable ctx (fa_set_constraints act) ∧
    ref_printable ctx (choice_name ch) (fc_filter_ref (fa_filter act)).

(** The variables that are bound by the outer loops. *)
Definition bound_before (n : nat) (v : Var) : Prop := match v with Arg _ => True | ForallVar j => j < n end.

Definition on_change_printable (ch : Choice) (act : OnChangeAction) : Prop :=
  match oc_action act with
  | FilterSelf => oc_forall_vars act = [] ∧ ∀ ctx, context_new ir ch [] [] = Some ctx → constraints_printable ctx (oc_set_constraints act)
  | RemoteFilter call =>
    foralls_printable 0 (oc_forall_vars act) ∧ foralls_printable (length (oc_forall_vars act)) (fc_forall_vars (rc_filter call)) ∧
    Forall (λ s, ∀ v, v ∈ set_vars s → bound_before (length (oc_forall_vars act)) v) (oc_forall_vars act) ∧
    Forall (bound_before (length (oc_forall_vars act))) (ci_vars (rc_choice call)) ∧
    ∀ ctx, context_new ir ch (oc_forall_vars act ++ fc_forall_vars (rc_filter call)) [] = Some ctx →
      constraints_printable ctx (oc_set_constraints act) ∧
      ref_printable ctx (ci_choice (rc_choice call)) (fc_filter_ref (rc_filter call))
  | _ => False
  end.

Definition calls_printable : Prop := ∀ name ch, get_choice ir name = Some ch →
  Forall (filter_action_printable ch) (filter_actions ch) ∧ Forall (on_change_printable ch) (on_change ch).
End printable.

(** ** What an interpretation must allow *)
Section allows.
Context {Obj : Type} `{Inhabited Obj} (ir : IrDesc) (I : Interp Obj).
Implicit Types (env : Var → Obj).

(** A call allows a value. *)
Definition ref_allows env (ref : FilterRef) (v : Value) : Prop :=
  match ref with
  | FrInline rules => Forall (λ r, rule_allows ir [] (env_world I env []) r v) rules
  | FrFunction name id args => ∀ ch f, get_choice ir name = Some ch → filters ch !! id = Some f →
      filter_allows ir (filter_inputs f)
        (env_world I (call_env (arguments_len (arguments ch)) (env <$> args)) (filter_inputs f)) (filter_rules f) v
  end.

(** The filters that initialise the choices, and those that are run on a change, allow the
    value of the choice they filter. *)
Record calls_allow : Prop := {
  self_allows name ch act env : get_choice ir name = Some ch → act ∈ filter_actions ch → args_in_sets I env ch →
    bound_domain I env (fc_forall_vars (fa_filter act)) (fa_set_constraints act) →
    ref_allows env (fc_filter_ref (fa_filter act)) (own_value I env name ch);
  remote_allows name ch act call env : get_choice ir name = Some ch → act ∈ on_change ch → oc_action act = RemoteFilter call →
    args_in_sets I env ch → bound_domain I env (oc_forall_vars act ++ fc_forall_vars (rc_filter call)) (oc_set_constraints act) →
    ref_allows env (fc_filter_ref (rc_filter call)) (inst_value I env (rc_choice call))
}.
End allows.

(** ** What is read *)
Section reads.
Context {F Obj : Type} `{Host F Obj} `{Countable Obj, RustOrd Obj, Inhabited Obj} (code : SolverAst) (fn : F).
Implicit Types (env : Var → Obj) (ids : list Obj).

(** The domains that a filter reads. *)
Definition filter_reads (f : FilterAst) (objs : list Obj) : list (string * list Obj) :=
  (λ c, (ci_choice c, call_env (fi_num_args f) objs <$> ci_vars c)) <$> fi_bindings f.

Definition ref_reads (ref : FilterRefAst) env : list (string * list Obj) :=
  match ref with
  | FraInline _ => []
  | FraCall name id args =>
    match choice_code code name ≫= λ c, cha_filters c !! id with
    | Some f => filter_reads f (env <$> args)
    | None => []
    end
  end.

Definition call_reads (call : FilterCallAst) env : list (string * list Obj) :=
  nest_envs fn (fca_loop_nest call) env ≫= ref_reads (fca_filter_ref call).

Definition choice_reads (c : ChoiceAst) env : list (string * list Obj) :=
  cha_filter_actions c ≫= λ a,
    match constrained_env fn (faa_constraints a) env with Some env => call_reads (faa_body a) env | None => [] end.

(** A symmetric choice is only filtered in one order of its arguments. *)
Definition skipped (call : RemoteFilterCallAst) env : bool :=
  rfc_is_symmetric call &&
  match env <$> rfc_arguments call with a :: b :: _ => match rcmp a b with Lt => false | _ => true end | _ => true end.

Definition action_reads (c : ChoiceAst) (a : OnChangeActionAst) env : list (string * list Obj) :=
  match oca_action a with
  | CaFilterSelf => (choice_name (cha_choice c), arg_objs (cha_choice c) env) :: choice_reads c env
  | CaFilterRemote call =>
    if skipped call env then [] else (rfc_choice call, env <$> rfc_arguments call) :: call_reads (rfc_filter_call call) env
  | _ => []
  end.

(** The domains that the actions of a change read or restrict. *)
Definition change_reads (c : ChoiceAst) ids : list (string * list Obj) :=
  cha_on_change c ≫= λ a,
    match constrained_env fn (oca_constraints a) (args_env ids) with
    | Some env => nest_envs fn (oca_loop_nest a) env ≫= action_reads c a
    | None => []
    end.
End reads.

(** ** Filters *)
Section runs.
Context {F Obj : Type} `{Profile, KeyRemoval} `{Host F Obj} `{Countable Obj, RustOrd Obj, Inhabited Obj}.
Context (ir : IrDesc) (Hir : printable ir) (Hcalls : calls_printable ir) (code : SolverAst) (Hcode : print_solver ir = Some code).
Context (fn : F).
Implicit Types (env : Var → Obj) (ids : list Obj) (store : Store Obj) (I : Interp Obj).

(** What is known of an interpretation: it respects the types and the host language. *)
Definition interp_host I : Prop := host_ok fn I ∧ interp_ok ir I.

Lemma instance_enum_type inst e :
  choice_enum ir (ci_choice inst) = Some e → ∃ n, instance_value_type ir inst = Some (TyEnum n) ∧ get_enum ir n = Some e.
Proof using Hir.
  intros He. destruct (choice_enum_choice ir _ e He) as [ch Hg].
  destruct (choice_enum_info ir Hir _ ch Hg) as (n & e' & Hdef & Hty & Hn & He' & _). exists n.
  unfold instance_value_type. rewrite Hg. cbn. rewrite Hty. cbn. split; [done|congruence].
Qed.

(** A printed function filters its choice. *)
Lemma run_filter_ok name ch n e f fa objs store :
  get_choice ir name = Some ch → choice_def ch = DefEnum n → get_enum ir n = Some e → function_printable ir ch n f →
  filter_ast_new f ch ir = Some fa → typed_store ir store → Forall (allocated ir store) (filter_reads fa objs) →
  ∃ d, run_filter ir fn fa objs store = Some d ∧ enum_dom e d ∧
    ∀ I x, interp_host I → holds ir I store → x ∈ value_keys e →
      filter_allows ir (filter_inputs f) (env_world I (call_env (arguments_len (arguments ch)) objs) (filter_inputs f)) (filter_rules f) (VEnum x) →
      has e d x = true.
Proof using Hir.
  intros Hg Hdef He Hp Hfa Ht Hreads. unfold filter_ast_new in Hfa. apply bind_Some in Hfa as (u & _ & Hfa).
  apply bind_Some in Hfa as (ctx & Hctx & Hfa). apply bind_Some in Hfa as (body & Hbody & [= <-]).
  set (insts := filter_inputs f) in *. set (env := call_env (arguments_len (arguments ch)) objs).
  destruct (context_new_vars _ _ _ _ _ Hctx) as (Htypes%mapM_Some & _).
  unfold run_filter. cbn [fi_num_args fi_type fi_bindings fi_context fi_body]. fold env.
  assert (choice_value_type ch = TyEnum n) as Hty by (unfold choice_value_type; by rewrite Hdef). rewrite Hty. cbn [full_type].
  destruct (dom_failed_enum e n) as (failed & -> & Hfd & Hf). cbn [mbind option_bind].
  assert (∃ ds, mapM (λ c, store_get ir (ci_choice c) (env <$> ci_vars c) store) insts = Some ds ∧
    Forall2 (λ c d, ∃ e, choice_enum ir (ci_choice c) = Some e ∧ enum_dom e d ∧
      ∀ I, interp_host I → holds ir I store → admits_value ir I (ci_choice c) (env <$> ci_vars c) d) insts ds) as (ds & Hds & Htyped).
  { unfold filter_reads in Hreads. cbn [fi_bindings fi_num_args] in Hreads. fold insts env in Hreads. clear Htypes Hctx Hbody.
    clearbody insts. induction insts as [|c insts IH]; [by exists []; split; [|constructor]|].
    apply Forall_cons in Hreads as [Hc Hreads]. destruct (IH Hreads) as (ds & Hds & Htyped).
    destruct (store_get_enum ir Hir store _ _ Ht Hc) as (ec & d & Hec & Hd & Hed & Hadm). exists (d :: ds).
    cbn [mapM]. rewrite Hd. cbn [mbind option_bind]. rewrite Hds. split; [done|]. constructor; [|done]. exists ec.
    split; [done|]. split; [done|]. intros I [_ HI]. by apply Hadm. }
  rewrite Hds. cbn [mbind option_bind].
  assert (∀ i ei, input_enum ir insts i = Some ei →
    ∃ m d, ctx_inputs ctx !! i = Some (TyEnum m) ∧ get_enum ir m = Some ei ∧ ds !! i = Some d ∧ enum_dom ei d ∧
      ∀ I, interp_host I → holds ir I store → ∃ s, w_input (env_world I env insts) i = VEnum s ∧ has ei d s = true) as Hin.
  { intros i ei Hei. rewrite input_enum_choice in Hei. destruct (insts !! i) as [c|] eqn:Ei; [|done]. cbn in Hei.
    destruct (instance_enum_type c ei Hei) as (m & Hm & Hgm). destruct (Forall2_lookup_l _ _ _ _ _ Htypes Ei) as (t & Hti & Htc).
    destruct (Forall2_lookup_l _ _ _ _ _ Htyped Ei) as (d & Hd & e' & He' & Hed & Hadm). exists m, d.
    split; [congruence|]. split; [done|]. split; [done|]. split; [congruence|]. intros I Hi Hh.
    destruct (Hadm I Hi Hh) as (e'' & s & He'' & Hv & Hs). exists s. cbn [w_input env_world]. rewrite Ei. cbn. split; [done|].
    by assert (e'' = ei) as -> by congruence. }
  destruct (positive_filter_ok ir Hir fn ctx ds insts ltac:(intros i ei Hei; destruct (Hin i ei Hei) as (m & d & ? & ? & ? & ? & _); by exists m, d)
    n e env ch (filter_rules f) Hty He (Hp ctx Hctx) body failed Hbody Hfd) as (d & Hd & Hed & _ & Hsound).
  exists d. split; [done|]. split; [done|]. intros I x Hi Hh Hx Ha. apply (Hsound I x); [|done|done].
  split; [apply Hi|]. intros i ei di Hei Hdi. destruct (Hin i ei Hei) as (m & d' & _ & _ & Hd' & _ & Hs).
  assert (d' = di) as <- by congruence. by apply Hs.
Qed.

Lemma choice_ast_parts ch c :
  choice_ast_new ir ch = Some c →
  mapM (filter_action_ast ir ch) (filter_actions ch) = Some (cha_filter_actions c) ∧
  mapM (on_change_action_ast ir ch) (on_change ch) = Some (cha_on_change c) ∧
  mapM (λ f, filter_ast_new f ch ir) (filters ch) = Some (cha_filters c).
Proof using.
  unfold choice_ast_new. intros E. apply bind_Some in E as (fas & Hfas & E). apply bind_Some in E as (ocs & Hocs & E).
  apply bind_Some in E as (fs & Hfs & E). do 3 apply bind_Some in E as (? & _ & E). by injection E as <-.
Qed.

(** One call, for the objects of one environment. *)
Lemma ref_runs_ok filtered ch n e ctx ref ast env values store :
  get_choice ir filtered = Some ch → choice_def ch = DefEnum n → get_enum ir n = Some e →
  ref_printable ir ctx filtered ref → filter_ref_ast ref ctx = Some ast → typed_store ir store →
  Forall (allocated ir store) (ref_reads code ast env) → enum_dom e values →
  ∃ d, match ast with
    | FraInline rules => foldM (run_rule ir fn ctx env []) rules values
    | FraCall name id args =>
      c ← choice_code code name; f ← cha_filters c !! id;
      filter_res ← run_filter ir fn f (env <$> args) store; dom_restrict values filter_res
    end = Some d ∧ enum_dom e d ∧
    ∀ I x, interp_host I → holds ir I store → has e values x = true → ref_allows ir I env ref (VEnum x) → has e d x = true.
Proof using Hir Hcode.
  intros Hg Hdef He (ch' & n' & Hg' & Hdef' & Hp) Hast Ht Hreads Hv.
  assert (ch' = ch) as -> by congruence. assert (n' = n) as -> by congruence.
  destruct (get_enum_ok ir Hir n e He) as (Hok & _ & _).
  destruct ref as [rules|name id args]; cbn [filter_ref_ast] in Hast.
  - apply fmap_Some in Hast as (ras & Hras & ->).
    destruct (run_rules_ok ir Hir fn ctx [] [] ltac:(done) n e env rules ras values Hp Hras He Hv) as (d & Hd & Hed & Hsound).
    exists d. split; [exact Hd|]. split; [done|]. intros I x Hi Hh Hx Ha. apply (Hsound I x); [|done|done]. split; [apply Hi|done].
  - destruct Hp as (-> & f & Hf & Hfp). apply bind_Some in Hast as (vs & _ & [= <-]).
    destruct (choice_printed ir Hir code Hcode filtered ch Hg) as (c & _ & Hcc & Hca & Hcode'). rewrite Hcode'. cbn [mbind option_bind].
    destruct (choice_ast_parts ch c Hca) as (_ & _ & Hfs%mapM_Some).
    destruct (Forall2_lookup_l _ _ _ _ _ Hfs Hf) as (fa & Hfa & Hfast). rewrite Hfa. cbn [mbind option_bind].
    cbn [ref_reads] in Hreads. rewrite Hcode' in Hreads. cbn [mbind option_bind] in Hreads. rewrite Hfa in Hreads.
    destruct (run_filter_ok filtered ch n e f fa (env <$> args) store Hg Hdef He Hfp Hfast Ht Hreads) as (r & -> & Hr & Hsound).
    cbn [mbind option_bind]. destruct (dom_restrict_enum e values r Hv Hr) as (d & Hd & Hed & Hhas). exists d. split; [done|]. split; [done|].
    intros I x Hi Hh Hx Ha. rewrite Hhas, Hx. cbn. apply (Hsound I x Hi Hh); [by apply (has_key e Hok values)|by apply Ha].
Qed.

Lemma run_filter_call_ok filtered ch n e fc conflicts offset ctx call env values store :
  get_choice ir filtered = Some ch → choice_def ch = DefEnum n → get_enum ir n = Some e →
  ref_printable ir ctx filtered (fc_filter_ref fc) → filter_call_ast fc conflicts offset ctx = Some call → typed_store ir store →
  Forall (allocated ir store) (call_reads code fn call env) → enum_dom e values →
  ∃ d, run_filter_call ir code fn store call env values = Some d ∧ enum_dom e d ∧
    ∀ I x, interp_host I → holds ir I store → has e values x = true →
      (∀ env', env' ∈ nest_envs fn (fca_loop_nest call) env → ref_allows ir I env' (fc_filter_ref fc) (VEnum x)) → has e d x = true.
Proof using Hir Hcode.
  intros Hg Hdef He Hp Hast Ht Hreads Hv. unfold filter_call_ast in Hast.
  apply bind_Some in Hast as (ast & Hast & E). apply bind_Some in E as ([nest o] & Hnest & [= <-]).
  unfold run_filter_call, call_reads in *. cbn [fca_filter_ref fca_loop_nest fca_context] in *.
  revert values Hv Hreads. induction (nest_envs fn nest env) as [|env' envs IH]; intros values Hv Hreads.
  { exists values. split; [done|]. by split. }
  cbn [mbind list_bind] in Hreads. apply Forall_app in Hreads as [Hr Hreads]. cbn [foldM].
  destruct (ref_runs_ok filtered ch n e ctx _ ast env' values store Hg Hdef He Hp Hast Ht Hr Hv) as (d & Hd & Hed & Hsound).
  rewrite Hd. cbn [mbind option_bind]. destruct (IH d Hed Hreads) as (d' & Hd' & Hed' & Hsound'). exists d'. split; [done|]. split; [done|].
  intros I x Hi Hh Hx Ha. apply (Hsound' I x Hi Hh); [|intros env2 H2'; apply Ha; by right].
  apply (Hsound I x Hi Hh Hx), Ha. left.
Qed.

(** ** The objects of the loops *)

Lemma shifted_foralls k m : (λ i, ForallVar (i + k)) <$> seq 0 m = ForallVar <$> seq k m.
Proof using.
  apply list_eq. intros i. rewrite !list_lookup_fmap. destruct (decide (i < m)).
  - rewrite !lookup_seq_lt by done. cbn. do 2 f_equal. lia.
  - by rewrite !lookup_seq_ge by lia.
Qed.

(** The body of a nest on the sets [m], in a context of the sets [l ++ m ++ r]. *)
Lemma nest_domain I l m r ctx outer nest outer' env env' :
  host_sets fn I → (∀ i, ctx_vars ctx !! ForallVar i = (l ++ m ++ r) !! i) →
  loop_nest_new (ForallVar <$> seq (length l) (length m)) ctx outer = Some (nest, outer') →
  foralls_printable (length l) m → env' ∈ nest_envs fn nest env →
  same_args env env' ∧ (∀ j, j < length l → env' (ForallVar j) = env (ForallVar j)) ∧
  ∀ j s, m !! j = Some s → in_set I env' s (env' (ForallVar (length l + j))).
Proof using.
  intros Hh Hctx Hnest [Hsc Hck] Hin. set (vars := ForallVar <$> seq (length l) (length m)) in *.
  assert (∀ j s, m !! j = Some s → ctx_vars ctx !! ForallVar (length l + j) = Some s) as Hlk.
  { intros j s Hj. rewrite Hctx, lookup_app_r, Nat.add_comm, Nat.add_sub by lia. by apply lookup_app_l_Some. }
  destruct (nest_envs_exact fn I Hh ctx vars outer nest outer' env env' Hnest) as [Hout Hdom]; [|done|].
  { intros sets Hsets. assert (sets = m) as ->; [|split; [done|]].
    - apply list_eq. intros j. pose proof (Forall2_length _ _ _ Hsets) as Hl. unfold vars in Hl. rewrite length_fmap, length_seq in Hl.
      destruct (m !! j) as [s|] eqn:Ej.
      + assert (vars !! j = Some (ForallVar (length l + j))) as Hv.
        { unfold vars. rewrite list_lookup_fmap, lookup_seq_lt by (by eapply lookup_lt_Some). done. }
        destruct (Forall2_lookup_l _ _ _ _ _ Hsets Hv) as (s' & Hs' & Hc). rewrite (Hlk j s Ej) in Hc. congruence.
      + apply lookup_ge_None in Ej. apply lookup_ge_None. lia.
    - apply Forall_forall. intros [v s] Hx%elem_of_zip_r. rewrite Forall_forall in Hck. by apply Hck. }
  split; [|split].
  - intros i. symmetry. apply Hout. intros (? & ? & _)%list_elem_of_fmap. done.
  - intros j Hj. apply Hout. intros (i & [= ->] & Hi%elem_of_seq)%list_elem_of_fmap. lia.
  - intros j s Hj. apply Hdom; [|by apply Hlk]. apply list_elem_of_fmap. exists (length l + j). split; [done|].
    apply elem_of_seq. apply lookup_lt_Some in Hj. lia.
Qed.

Lemma args_in_sets_same I ch name env env' :
  get_choice ir name = Some ch → same_args env env' → args_in_sets I env ch → args_in_sets I env' ch.
Proof using Hir.
  intros Hg Hsame Ha k given Hk. rewrite <-(Hsame k).
  pose proof (choice_ok_sets _ _ _ (printable_choices _ Hir _ _ Hg)) as Hok. rewrite Forall_forall in Hok.
  destruct (Hok given (list_elem_of_lookup_2 _ _ _ Hk)) as [_ Hao].
  apply (in_set_args_only I env env' given _ Hao Hsame). by apply Ha.
Qed.

Lemma constraints_same I env env' (scs : SetConstraints) ctx :
  constraints_printable ctx scs → same_args env env' →
  Forall (λ x, in_set I env x.2 (env x.1)) scs → Forall (λ x, in_set I env' x.2 (env' x.1)) scs.
Proof using.
  intros Hp Hsame. rewrite !Forall_forall. intros Ha [v s] Hx. unfold constraints_printable in Hp. rewrite Forall_forall in Hp.
  destruct (Hp _ Hx) as (_ & (i & Hi) & Hao). cbn [fst snd] in *. subst v. rewrite <-(Hsame i).
  apply (in_set_args_only I env env' s _ Hao Hsame). by apply (Ha (Arg i, s)).
Qed.

Lemma checked_constraints ctx scs : constraints_printable ctx scs → Forall (checked_constraint ctx) scs.
Proof using. intros Hp. eapply Forall_impl; [exact Hp|]. by intros x [? _]. Qed.

Lemma own_value_same I env env' name ch : same_args env env' → own_value I env name ch = own_value I env' name ch.
Proof using.
  intros Hsame. unfold own_value. f_equal. rewrite <-!list_fmap_compose. apply list_fmap_ext. intros _ i _. apply Hsame.
Qed.

(** [filter] of a choice: it never fails, and keeps the value of the choice. *)
Lemma choice_filter_ok name ch c n e env (s : Solver F Obj) :
  get_choice ir name = Some ch → choice_def ch = DefEnum n → get_enum ir n = Some e → choice_ast_new ir ch = Some c →
  typed_store ir (sv_store s) → sv_fun s = fn → Forall (allocated ir (sv_store s)) (choice_reads code fn c env) →
  ∃ d, choice_filter ir code c env s = Some d ∧ enum_dom e d ∧
    ∀ I x, interp_host I → calls_allow ir I → holds ir I (sv_store s) → args_in_sets I env ch → x ∈ value_keys e →
      own_value I env name ch = VEnum x → has e d x = true.
Proof using Hir Hcalls Hcode.
  intros Hg Hdef He Hc Ht Hfun Hreads. pose proof (choice_ast_choice ir ch c Hc) as Hcc.
  destruct (choice_ast_parts ch c Hc) as (Hfas & _ & _). destruct (Hcalls name ch Hg) as [Hfap _].
  destruct (get_enum_ok ir Hir n e He) as (Hok & _ & _).
  unfold choice_filter. rewrite Hcc. assert (choice_value_type ch = TyEnum n) as Hty by (unfold choice_value_type; by rewrite Hdef).
  rewrite Hty. cbn [full_type]. unfold full_domain. rewrite Hfun.
  destruct (dom_all_enum ir e Hok n (universe fn env (TyEnum n)) He) as (all & -> & Haed & Hahas). cbn [mbind option_bind].
  cut (∀ acts asts values, (∀ a, a ∈ acts → a ∈ filter_actions ch) → mapM (filter_action_ast ir ch) acts = Some asts → enum_dom e values →
    Forall (allocated ir (sv_store s)) (asts ≫= λ a, match constrained_env fn (faa_constraints a) env with Some env => call_reads code fn (faa_body a) env | None => [] end) →
    ∃ d, foldM (λ values a, match constrained_env fn (faa_constraints a) env with None => Some values
        | Some env => run_filter_call ir code fn (sv_store s) (faa_body a) env values end) asts values = Some d ∧ enum_dom e d ∧
      ∀ I x, interp_host I → calls_allow ir I → holds ir I (sv_store s) → args_in_sets I env ch → own_value I env name ch = VEnum x →
        has e values x = true → has e d x = true).
  { intros Hcut. destruct (Hcut (filter_actions ch) (cha_filter_actions c) all ltac:(done) Hfas Haed Hreads) as (d & Hd & Hed & Hs).
    exists d. split; [done|]. split; [done|]. intros I x Hi Hca Hh Ha Hx Hv. by apply (Hs I x), Hahas. }
  intros acts asts values Hsub Hm%mapM_Some. revert values. induction Hm as [|act ast acts asts Hast _ IH]; intros values Hv Hr.
  { exists values. split; [done|]. by split. }
  cbn [mbind list_bind] in Hr. apply Forall_app in Hr as [Hr Hrs]. cbn [foldM].
  unfold filter_action_ast in Hast. apply bind_Some in Hast as (ctx & Hctx & Hast). apply bind_Some in Hast as (body & Hbody & Hast).
  apply bind_Some in Hast as (constraints & Hcon & [= <-]). cbn [faa_constraints faa_body] in *.
  rewrite Forall_forall in Hfap. destruct (Hfap act (Hsub act ltac:(left))) as [Hfp Hcp]. destruct (Hcp ctx Hctx) as [Hsc Href].
  rewrite (get_choice_name ir Hir name ch Hg) in Href. destruct (context_new_vars _ _ _ _ _ Hctx) as (_ & Hfv & _).
  assert (∃ v', match constrained_env fn constraints env with None => Some values
      | Some env => run_filter_call ir code fn (sv_store s) body env values end = Some v' ∧ enum_dom e v' ∧
    ∀ I x, interp_host I → calls_allow ir I → holds ir I (sv_store s) → args_in_sets I env ch → own_value I env name ch = VEnum x →
      has e values x = true → has e v' x = true) as (v' & -> & Hv' & Hs').
  { destruct (constrained_env fn constraints env) as [env1|] eqn:Ec; [|by exists values].
    destruct (run_filter_call_ok name ch n e _ _ _ ctx body env1 values (sv_store s) Hg Hdef He Href Hbody Ht Hr Hv) as (v' & Hd & Hed & Hsound).
    exists v'. split; [done|]. split; [done|]. intros I x Hi Hca Hh Ha Hx Hvx. apply (Hsound I x Hi Hh Hvx). intros env2 Hin.
    destruct (constrained_env_exact fn I (host_sets_ok _ _ (proj1 Hi)) ctx _ constraints env env1 Hcon (checked_constraints _ _ Hsc) Ec) as [-> Hall].
    unfold filter_call_ast in Hbody. apply bind_Some in Hbody as (ra & _ & Hbody). apply bind_Some in Hbody as ([nest o] & Hnest & [= <-]).
    cbn [fca_loop_nest] in Hin. rewrite shifted_foralls in Hnest.
    destruct (nest_domain I [] (fc_forall_vars (fa_filter act)) [] ctx (choice_args ch) nest o env env2 (host_sets_ok _ _ (proj1 Hi))) as (Hsame & _ & Hdom);
      [intros i; by rewrite app_nil_r|done|done|done|].
    rewrite <-Hx, (own_value_same I env env2 name ch Hsame). apply (self_allows ir I Hca name ch act env2 Hg).
    - apply Hsub. left.
    - by apply (args_in_sets_same I ch name env).
    - split; [exact Hdom|]. by apply (constraints_same I env env2 _ ctx). }
  cbn [mbind option_bind]. destruct (IH ltac:(intros a Ha; apply Hsub; by right) v' Hv' Hrs) as (d & Hd & Hed & Hs).
  exists d. split; [done|]. split; [done|]. intros I x Hi Hca Hh Ha Hx Hvx. apply (Hs I x Hi Hca Hh Ha Hx). by apply (Hs' I).
Qed.
End runs.

(** * The actions of a change make progress *)

Section runs.
Context {F Obj : Type} `{Profile, KeyRemoval} `{Host F Obj} `{Countable Obj, RustOrd Obj, Inhabited Obj}.
Context (ir : IrDesc) (Hir : printable ir) (Hcalls : calls_printable ir) (code : SolverAst) (Hcode : print_solver ir = Some code).
Context (fn : F) (sol : Interp Obj → Prop).
Context (Hhost : ∀ I, sol I → interp_host ir fn I) (Hallow : ∀ I, sol I → calls_allow ir I).
#[local] Notation Sol := (Sol (F := F) (Obj := Obj)).
#[local] Notation runs := (runs ir sol).
Implicit Types (env : Var → Obj) (ids : list Obj) (s : Solver F Obj) (I : Interp Obj).

#[local] Lemma sol_typed I : sol I → interp_ok ir I.
Proof using Hhost. intros Hi. apply (Hhost I Hi). Qed.

Lemma vars_with_sets_same ch vars ctx vars' : vars_with_sets ch vars ctx = Some vars' →
  vars' = vars ∧ length vars = length (arguments_sets (arguments ch)).
Proof using.
  unfold vars_with_sets. intros E. apply bind_Some in E as (? & _ & E). apply bind_Some in E as (sets & Hs%mapM_Some & E).
  apply bind_Some in E as (pairs & Hz & [= <-]). unfold zip_eq in Hz. destruct (Nat.eqb_spec (length vars) (length sets)) as [El|]; [|done].
  injection Hz as <-. rewrite fst_zip by lia. split; [done|]. by rewrite El, (Forall2_length _ _ _ Hs).
Qed.

(** A remote filter, for the objects of the outer loops. *)
Lemma filter_remote_runs inst fc conflicts offset ctx call env s :
  ref_printable ir ctx (ci_choice inst) (fc_filter_ref fc) →
  remote_filter_call_ast ir (mkRemoteFilterCall inst fc) conflicts offset ctx = Some call →
  valid ir s → sv_fun s = fn →
  (skipped call env = false →
    Forall (allocated ir (sv_store s)) ((rfc_choice call, env <$> rfc_arguments call) :: call_reads code fn (rfc_filter_call call) env)) →
  (∀ I env', sol I → env' ∈ nest_envs fn (fca_loop_nest (rfc_filter_call call)) env →
    ref_allows ir I env' (fc_filter_ref fc) (inst_value I env inst)) →
  runs (filter_remote ir code call env) (λ _ _, True) s.
Proof using Hir Hcode Hhost.
  intros Hp Hast Hs Hfun Hreads HI. unfold remote_filter_call_ast in Hast. cbn [rc_choice rc_filter] in Hast.
  apply bind_Some in Hast as (ch & Hg & Hast). apply bind_Some in Hast as (call' & Hcall & Hast).
  apply bind_Some in Hast as (args & Hargs & [= <-]). destruct (vars_with_sets_same _ _ _ _ Hargs) as [-> Hlen].
  destruct (choice_enum_info ir Hir _ ch Hg) as (n & e & Hdef & Hty & Hn & He & Hok & _).
  pose proof (get_choice_name ir Hir _ ch Hg) as Hname.
  unfold skipped in Hreads. unfold filter_remote. cbn [rfc_choice rfc_is_symmetric rfc_filter_call rfc_full_type rfc_arguments] in *.
  rewrite Hname, Hty in *. cbn [full_type value_type_adapt] in *.
  assert (∃ skip : bool, (if is_symmetric (arguments ch) then match env <$> ci_vars inst with
      | a :: b :: _ => Some (match rcmp a b with Lt => false | _ => true end) | _ => panic end else Some false) = Some skip ∧
    (skip = false → Forall (allocated ir (sv_store s)) ((ci_choice inst, env <$> ci_vars inst) :: call_reads code fn call' env)))
    as (skip & Hskip & Hal).
  { destruct (arguments ch) as [|names t inv] eqn:Ea; cbn [is_symmetric] in *; [by exists false; split; [|intros _; apply Hreads]|].
    cbn in Hlen. destruct (ci_vars inst) as [|x [|y l]]; try done. eexists. split; [reflexivity|]. exact Hreads. }
  eapply runs_let; [exact Hskip|]. destruct skip; [by apply runs_ret|]. specialize (Hal eq_refl).
  apply Forall_cons in Hal as [Hal Hcr]. destruct (dom_all_enum ir e Hok n (universe fn env (TyEnum n)) Hn) as (all & Hall & Haed & Hahas).
  destruct (run_filter_call_ok ir Hir code Hcode fn (ci_choice inst) ch n e fc conflicts offset ctx call' env all (sv_store s)
    Hg Hdef Hn Hp Hcall (valid_store _ _ Hs) Hcr Haed) as (d & Hd & Hed & Hsound).
  eapply runs_let; [unfold full_domain; rewrite Hfun, Hall; cbn [mbind option_bind]; exact Hd|].
  apply (restrict_runs ir Hir code Hcode sol sol_typed _ _ e); try done. intros I Hi Hh.
  destruct (store_get_enum ir Hir _ _ _ (valid_store _ _ Hs) Hal) as (e' & cur & He' & _ & Hec & Hadm). assert (e' = e) as -> by congruence.
  destruct (Hadm I (sol_typed I Hi) Hh) as (e'' & x & He'' & Hx & Hcx). assert (e'' = e) as -> by congruence.
  exists e, x. split; [done|]. split; [done|]. apply (Hsound I x (Hhost I Hi) Hh); [by apply Hahas, (has_key e Hok cur)|].
  intros env' Hin. rewrite <-Hx. by apply HI.
Qed.

(** ** The actions *)

Lemma oca_parts ch act oca : on_change_action_ast ir ch act = Some oca →
  ∃ ctx nest conflicts, context_new ir ch (oc_forall_vars act ++ action_variables (oc_action act)) (action_inputs (oc_action act)) = Some ctx ∧
    loop_nest_new (ForallVar <$> seq 0 (length (oc_forall_vars act))) ctx (choice_args ch) = Some (nest, conflicts) ∧
    set_constraint_asts (oc_set_constraints act) ctx = Some (oca_constraints oca) ∧
    choice_action_ast ir (oc_action act) (length (oc_forall_vars act)) conflicts ctx ch = Some (oca_action oca) ∧
    oca_loop_nest oca = nest.
Proof using.
  unfold on_change_action_ast. intros E. apply bind_Some in E as (ctx & Hctx & E). apply bind_Some in E as ([nest o] & Hnest & E).
  apply bind_Some in E as (cs & Hcs & E). apply bind_Some in E as (a & Ha & [= <-]). by exists ctx, nest, o.
Qed.

(** [filter_self]. *)
Lemma filter_self_runs name ch c env s :
  get_choice ir name = Some ch → choice_ast_new ir ch = Some c → valid ir s → sv_fun s = fn →
  Forall (allocated ir (sv_store s)) ((name, arg_objs ch env) :: choice_reads code fn c env) →
  (∀ I, sol I → args_in_sets I env ch) →
  runs (let* values := sread (choice_filter ir code c env) in do* restrict ir code name (arg_objs ch env) values; sret ([] : list (nat * list Obj)))
    (λ y _, y = []) s.
Proof using Hir Hcalls Hcode Hhost Hallow.
  intros Hg Hast Hs Hfun [Hal Hreads]%Forall_cons Hargs.
  destruct (choice_enum_info ir Hir _ ch Hg) as (n & e & Hdef & _ & Hn & He & Hok & _).
  destruct (choice_filter_ok ir Hir Hcalls code Hcode fn name ch c n e env s Hg Hdef Hn Hast (valid_store _ _ Hs) Hfun Hreads)
    as (d & Hd & Hed & Hsound).
  eapply runs_let; [exact Hd|]. eapply runs_bind; [|intros ? s' Hs' _ _; apply runs_ret; [done|reflexivity]].
  apply (restrict_runs ir Hir code Hcode sol sol_typed _ _ e); try done. intros I Hi Hh.
  destruct (store_get_enum ir Hir _ _ _ (valid_store _ _ Hs) Hal) as (e' & cur & He' & _ & Hec & Hadm). assert (e' = e) as -> by congruence.
  destruct (Hadm I (sol_typed I Hi) Hh) as (e'' & x & He'' & Hx & Hcx). assert (e'' = e) as -> by congruence.
  exists e, x. split; [done|]. split; [done|]. apply (Hsound I x (Hhost I Hi) (Hallow I Hi) Hh (Hargs I Hi)); [by apply (has_key e Hok cur)|].
  unfold own_value. rewrite <-list_fmap_compose. exact Hx.
Qed.

Lemma run_action_runs name ch c act oca old new env env' s :
  get_choice ir name = Some ch → choice_ast_new ir ch = Some c → act ∈ on_change ch → on_change_action_ast ir ch act = Some oca →
  valid ir s → sv_fun s = fn → env' ∈ nest_envs fn (oca_loop_nest oca) env →
  Forall (allocated ir (sv_store s)) (action_reads code fn c oca env') →
  (∀ I, sol I → args_in_sets I env ch ∧ Forall (λ x, in_set I env x.2 (env x.1)) (oc_set_constraints act)) →
  runs (run_action ir code c old new oca env') (λ y _, y = []) s.
Proof using Hir Hcalls Hcode Hhost Hallow.
  intros Hg Hc Hact Hoca Hs Hfun Hin Hreads Hargs. pose proof (choice_ast_choice ir ch c Hc) as Hcc.
  pose proof (get_choice_name ir Hir name ch Hg) as Hname.
  destruct (Hcalls name ch Hg) as [_ Hp]. rewrite Forall_forall in Hp. specialize (Hp act Hact). unfold on_change_printable in Hp.
  destruct (oca_parts ch act oca Hoca) as (ctx & nest & conflicts & Hctx & Hnest & Hcs & Ha & <-).
  destruct (context_new_vars _ _ _ _ _ Hctx) as (_ & Hfv & _). pose proof Hallow as Hall.
  unfold run_action, action_reads in *. destruct (oc_action act) as [|rc| | |] eqn:Eact; try done; cbn [action_variables action_inputs] in *.
  - destruct Hp as [Hnil Hp]. injection Ha as Ea. rewrite <-Ea in *. rewrite Hcc, Hname in *. rewrite Hnil in *.
    apply (filter_self_runs name ch c env' s Hg Hc Hs Hfun Hreads). intros I Hi.
    apply (args_in_sets_same ir Hir I ch name env env' Hg); [|by apply Hargs].
    by destruct (nest_domain fn I [] [] [] ctx (choice_args ch) (oca_loop_nest oca) conflicts env env'
      (host_sets_ok _ _ (proj1 (Hhost I Hi))) Hfv Hnest ltac:(split; [done|constructor]) Hin) as [Hsame _].
  - destruct Hp as (Hp1 & Hp2 & Hb & Hbi & Hp). destruct (Hp ctx Hctx) as [Hsc Href].
    cbn [choice_action_ast] in Ha. apply fmap_Some in Ha as (call & Hcall & Ea). rewrite Ea in *.
    eapply runs_bind; [|intros ? s' Hs' _ _; apply runs_ret; [done|reflexivity]].
    destruct rc as [inst fc]. cbn [rc_choice rc_filter] in *.
    apply (filter_remote_runs inst fc conflicts (length (oc_forall_vars act)) ctx call env' s Href Hcall Hs Hfun).
    { intros Hskip. by rewrite Hskip in Hreads. }
    intros I env2 Hi Hin2. destruct (Hargs I Hi) as [Hai Hci]. pose proof (host_sets_ok _ _ (proj1 (Hhost I Hi))) as Hh.
    destruct (nest_domain fn I [] (oc_forall_vars act) (fc_forall_vars fc) ctx (choice_args ch) (oca_loop_nest oca) conflicts env env'
      Hh Hfv Hnest Hp1 Hin) as (Hsame1 & _ & Hdom1).
    assert (∃ o, loop_nest_new (ForallVar <$> seq (length (oc_forall_vars act)) (length (fc_forall_vars fc))) ctx conflicts =
      Some (fca_loop_nest (rfc_filter_call call), o)) as [o Hnest2].
    { unfold remote_filter_call_ast in Hcall. cbn [rc_choice rc_filter] in Hcall. apply bind_Some in Hcall as (? & _ & Hcall).
      apply bind_Some in Hcall as (call' & Hcall' & Hcall). apply bind_Some in Hcall as (? & _ & [= <-]). cbn [rfc_filter_call].
      unfold filter_call_ast in Hcall'. apply bind_Some in Hcall' as (? & _ & Hcall'). apply bind_Some in Hcall' as ([n2 o2] & Hn2 & [= <-]).
      cbn [fca_loop_nest]. exists o2. by rewrite <-shifted_foralls. }
    destruct (nest_domain fn I (oc_forall_vars act) (fc_forall_vars fc) [] ctx conflicts _ o env' env2 Hh
      ltac:(intros i; by rewrite app_nil_r) Hnest2 Hp2 Hin2) as (Hsame2 & Hout & Hdom2).
    assert (∀ v, bound_before (length (oc_forall_vars act)) v → env2 v = env' v) as Hagree.
    { intros [i|j] Hv; [symmetry; apply Hsame2|by apply Hout]. }
    assert (inst_value I env' inst = inst_value I env2 inst) as ->.
    { unfold inst_value. f_equal. apply list_fmap_ext. intros i v Hv. rewrite Forall_forall in Hbi. symmetry.
      by apply Hagree, Hbi, (list_elem_of_lookup_2 _ i). }
    apply (remote_allows ir I (Hallow I Hi) name ch act (mkRemoteFilterCall inst fc) env2 Hg Hact Eact).
    + by apply (args_in_sets_same ir Hir I ch name env' env2 Hg Hsame2), (args_in_sets_same ir Hir I ch name env env' Hg Hsame1).
    + split.
      * cbn [rc_filter]. intros j st Hj. apply lookup_app_Some in Hj as [Hj|[Hle Hj]].
        -- pose proof (lookup_lt_Some _ _ _ Hj). rewrite Hout by done. rewrite Forall_forall in Hb.
           apply (in_set_agree I env'); [|by apply Hdom1]. intros x Hx. symmetry. apply Hagree.
           by apply (Hb st); [eapply list_elem_of_lookup_2|].
        -- pose proof (Hdom2 _ _ Hj) as Hd. by replace (length (oc_forall_vars act) + (j - length (oc_forall_vars act))) with j in Hd by lia.
      * apply (constraints_same I env' env2 _ ctx Hsc Hsame2). by apply (constraints_same I env env' _ ctx Hsc Hsame1).
Qed.

(** The domains of an action of a change: those that its calls read and restrict. *)
Lemma run_on_change_runs name ch c act oca ids old new s :
  get_choice ir name = Some ch → choice_ast_new ir ch = Some c → act ∈ on_change ch → on_change_action_ast ir ch act = Some oca →
  valid ir s → sv_fun s = fn →
  Forall (allocated ir (sv_store s)) (match constrained_env fn (oca_constraints oca) (args_env ids) with
    | Some env => nest_envs fn (oca_loop_nest oca) env ≫= action_reads code fn c oca | None => [] end) →
  (∀ I, sol I → args_in_sets I (args_env ids) ch) →
  runs (run_on_change ir code c ids old new oca) (λ y _, y = []) s.
Proof using Hir Hcalls Hcode Hhost Hallow.
  intros Hg Hc Hact Hoca Hs Hfun Hreads Hargs. unfold run_on_change. eapply runs_let; [by rewrite Hfun|].
  destruct (constrained_env fn (oca_constraints oca) (args_env ids)) as [env|] eqn:Ec; [|by apply runs_ret].
  eapply runs_let; [by rewrite Hfun|]. apply runs_concat; [done|]. intros env' s' Hin Hs' Hadv.
  apply (run_action_runs name ch c act oca old new env env' s'); try done.
  - rewrite <-Hfun. apply Hadv.
  - rewrite Forall_forall in Hreads |- *. intros x Hx. apply (allocated_shrinks ir (sv_store s)); [apply Hadv|].
    apply Hreads, list_elem_of_bind. by exists env'.
  - intros I Hi. destruct (oca_parts ch act oca Hoca) as (ctx & nest & conflicts & Hctx & _ & Hcs & _ & _).
    assert (constraints_printable ctx (oc_set_constraints act)) as Hsc.
    { destruct (Hcalls name ch Hg) as [_ Hp]. rewrite Forall_forall in Hp. specialize (Hp act Hact). unfold on_change_printable in Hp.
      destruct (oc_action act) as [|rc| | |]; try done; cbn [action_variables action_inputs] in Hctx.
      - destruct Hp as [Hnil Hp]. rewrite Hnil in Hctx. by apply Hp.
      - destruct Hp as (_ & _ & _ & _ & Hp). by apply (Hp ctx). }
    destruct (constrained_env_exact fn I (host_sets_ok _ _ (proj1 (Hhost I Hi))) ctx _ _ (args_env ids) env Hcs
      (checked_constraints _ _ Hsc) Ec) as [-> Hall]. split; [by apply Hargs|done].
Qed.

(** [on_change] of a choice. *)
Lemma on_change_choice_runs run_trigger c ids old new s :
  c ∈ sva_choices code → valid ir s → sv_fun s = fn → Forall (allocated ir (sv_store s)) (change_reads code fn c ids) →
  (∀ I, sol I → args_in_sets I (args_env ids) (cha_choice c)) →
  runs (on_change_choice ir code run_trigger c ids old new) (λ _ _, True) s.
Proof using Hir Hcalls Hcode Hhost Hallow.
  intros Hc Hs Hfun Hreads Hargs. destruct (printed_choice ir Hir code Hcode c Hc) as (ch & Hcc & Hg & Hast). rewrite Hcc in Hargs.
  destruct (choice_ast_parts ir ch c Hast) as (_ & Hoc%mapM_Some & _). unfold on_change_choice.
  apply (runs_bind ir sol _ _ (λ y _, y = [])).
  - apply runs_concat; [done|]. intros oca s' Hin Hs' Hadv. pose proof Hin as Hin2. apply list_elem_of_lookup_1 in Hin2 as [i Hi].
    destruct (Forall2_lookup_r _ _ _ _ _ Hoc Hi) as (act & Hacti & Hact).
    apply (run_on_change_runs (choice_name ch) ch c act oca); try done; [by eapply list_elem_of_lookup_2|rewrite <-Hfun; apply Hadv|].
    rewrite Forall_forall in Hreads |- *. intros x Hx. apply (allocated_shrinks ir (sv_store s)); [apply Hadv|].
    apply Hreads. unfold change_reads. apply list_elem_of_bind. by exists oca.
  - intros ? s' Hs' _ ->. cbn [sconcat]. apply (runs_bind ir sol _ _ (λ y _, y = [])); [by apply runs_ret|].
    intros ? s2 Hs2 _ ->. by apply runs_ret.
Qed.
End runs.
