(* ===== verification/SolverSound.v ===== *)
(** * The propagation of the printed solver

    The solver printed for a description with enums terminates: from domains that the
    store holds and decisions on them, [apply_decisions] returns with nothing left to
    propagate, or finds a contradiction.  It only takes values out of the domains, and
    keeps every assignment that the registered filters allow. *)
From S2P Require Import Prelude Utils Orders Domains GenSets Filters FilterSemantics Instances Environments Constraints ConstraintFilters FlatFilters Registering Compiling Generator EnumDomains SolverStore SolverFacts LoopNests LoopRuns PrintedFilters FilterRuns TopSort PropagationAst Propagation SolverSteps PropagationRuns CallRuns.
#[local] Open Scope nat_scope.

Section sound.
Context {F Obj : Type} `{Profile, KeyRemoval} `{Host F Obj} `{Countable Obj, RustOrd Obj, Inhabited Obj}.
Context (ir : IrDesc) (code : SolverAst) (fn : F) (store : Store Obj).
Implicit Types (I : Interp Obj) (actions : list (Action Obj)).

(** The actions of a change of a stored domain only involve stored domains. *)
Definition store_closed : Prop := ∀ c ids, c ∈ sva_choices code →
  is_Some (store_lookup store (choice_name (cha_choice c)) ids) → Forall (allocated ir store) (change_reads code fn c ids).

(** An assignment of values to the choices that the filters allow, and that agrees with
    the decisions. *)
Record solution actions I : Prop := {
  sol_host : interp_host ir fn I;
  sol_allow : calls_allow ir I;
  sol_args name ch ids : get_choice ir name = Some ch → is_Some (store_lookup store name ids) → args_in_sets I (args_env ids) ch;
  sol_decided a : a ∈ actions → admits_value ir I (act_choice a) (act_ids a) (act_dom a)
}.

(** [first_key] returns a key of the map, if there is one. *)
Definition picks_key (first_key : gmap (list Obj) (Dom * Dom) → option (list Obj)) : Prop :=
  ∀ m, match first_key m with Some k => is_Some (m !! k) | None => m = ∅ end.

Lemma apply_decisions_exact first_key run_trigger actions fuel :
  printable ir → calls_printable ir → print_solver ir = Some code → picks_key first_key →
  typed_store ir store → store_closed → Forall (decision_ok ir store) actions → 2 * store_size store < fuel →
  ∃ s r, apply_decisions ir code first_key run_trigger fuel actions fn store = Some (s, r) ∧
    typed_store ir (sv_store s) ∧ shrinks ir store (sv_store s) ∧ (r = ROk tt → diff_is_empty (sv_diff s) = true) ∧
    ∀ I, solution actions I → holds ir I store → r = ROk tt ∧ holds ir I (sv_store s).
Proof.
  intros Hir Hcalls Hcode Hfirst Ht Hclosed Hdec Hfuel. set (s0 := mkSolver fn store ∅).
  set (sol := solution actions). assert (∀ I, sol I → interp_ok ir I) as Hsol by (intros I Hi; apply (sol_host _ _ Hi)).
  assert (valid ir s0) as Hs0 by (constructor; [done|]; unfold diff_lookup; cbn; by intros n i x; rewrite lookup_empty).
  assert (potential s0 < fuel) as Hp by (unfold potential, s0; cbn [sv_store sv_diff]; rewrite map_sum_empty; lia).
  assert (∀ c ids old new s, c ∈ sva_choices code → valid ir s → advances ir s0 s →
    is_Some (store_lookup (sv_store s) (choice_name (cha_choice c)) ids) →
    runs ir sol (on_change_choice ir code run_trigger c ids old new) (λ _ _, True) s) as Hchange.
  { intros c ids old new s Hc Hs [Hf Hsh _] Hal. rewrite (lookup_shrinks ir store _ _ _ Hsh) in Hal.
    apply (on_change_choice_runs ir Hir Hcalls code Hcode fn sol); try done; [by intros I []..| |].
    - eapply Forall_impl; [by apply Hclosed|]. intros x. by apply allocated_shrinks.
    - intros I Hi. destruct (printed_choice ir Hir code Hcode c Hc) as (ch & Hcc & Hg & _). rewrite Hcc in Hal |- *.
      by apply (sol_args _ _ Hi (choice_name ch)). }
  assert (runs ir sol (do* sfor actions (apply_action ir); propagate_all ir code first_key run_trigger fuel)
    (λ _ s, diff_is_empty (sv_diff s) = true) s0) as (s & r & E & Hv & Ha & HQ & HI).
  { eapply runs_bind; [apply (decisions_run ir Hir sol Hsol actions s0 Hs0 Hdec); intros I a Hi; apply (sol_decided _ _ Hi)|].
    intros _ s Hs Ha _. apply (propagate_all_runs ir Hir code Hcode sol Hsol first_key run_trigger Hfirst s0 Hchange); try done.
    pose proof (adv_potential _ _ _ Ha). lia. }
  exists s, r. split; [exact E|]. split; [apply Hv|]. split; [apply Ha|]. split; [by intros ->; apply (HQ tt)|].
  intros I Hi Hh. destruct (HI I Hi Hh) as [Hr Hh']. split; [|done]. by destruct r as [[]|].
Qed.
End sound.

(** C5: The propagation of the printed solver.  For a description with enums only, the
    solver that is printed terminates and never panics: with more fuel than twice the
    number of values in the store, [apply_decisions] returns.  It only takes values out of
    domains, that stay typed.  If it succeeds nothing is left to propagate.  If an
    assignment of values to the choices is allowed by the registered filters, held by the
    store and by the decisions, the propagation succeeds and the new store still holds
    it. *)
Theorem apply_decisions_sound {F Obj : Type} `{Profile, KeyRemoval} `{Host F Obj} `{Countable Obj, RustOrd Obj, Inhabited Obj}
    (ir : IrDesc) (code : SolverAst) (fn : F) (store : Store Obj) (actions : list (Action Obj)) (fuel : nat)
    (first_key : gmap (list Obj) (Dom * Dom) → option (list Obj)) (run_trigger : nat → list Obj → Sol (list (Action Obj))) :
  printable ir → calls_printable ir → print_solver ir = Some code → picks_key first_key →
  typed_store ir store → store_closed ir code fn store → Forall (decision_ok ir store) actions → 2 * store_size store < fuel →
  ∃ s r, apply_decisions ir code first_key run_trigger fuel actions fn store = Some (s, r) ∧
    typed_store ir (sv_store s) ∧ shrinks ir store (sv_store s) ∧ (r = ROk tt → diff_is_empty (sv_diff s) = true) ∧
    ∀ I, solution ir fn store actions I → holds ir I store → r = ROk tt ∧ holds ir I (sv_store s).
Proof. apply apply_decisions_exact. Qed.

(** ** The order *)

(** The description with the filter of the transitivity. *)
Definition ord_enum_set (values : list string) : ValueSet := VSEnum "Order" (list_to_set values) ∅.
Definition ord_rule (values : list string) : Rule := mkRule [] (ord_enum_set values) [].

Definition ord_cases (input : nat) (before after same : SubFilter) : SubFilter :=
  Switch input [(ord_enum_set ["BEFORE"], before); (ord_enum_set ["AFTER"], after); (ord_enum_set ["SAME"], same)]%string.

Definition ord_rules (values : list string) : SubFilter := Rules [ord_rule values].

(** The order of the arguments, from the orders of each with a third object. *)
Definition ord_transitivity : Filter :=
  mkFilter [ord_set; ord_set; ord_set]
    [mkChoiceInstance "order" [Arg 0; ForallVar 0]; mkChoiceInstance "order" [Arg 1; ForallVar 0]]
    (ord_cases 0
      (ord_cases 1 (Rules []) (ord_rules ["BEFORE"]) (ord_rules ["BEFORE"; "SAME"]))
      (ord_cases 1 (ord_rules ["AFTER"]) (Rules []) (ord_rules ["AFTER"; "SAME"]))
      (ord_cases 1 (ord_rules ["AFTER"; "SAME"]) (ord_rules ["BEFORE"; "SAME"]) (Rules [])))%string.

Definition ord_call (a b c : Var) : OnChangeAction :=
  mkOnChangeAction [ord_set] [] (RemoteFilter (mkRemoteFilterCall (mkChoiceInstance "order" [a; b])
    (mkFilterCall [] (FrFunction "order" 0 [a; b; c])))).

Definition ord_printed : Choice :=
  mkChoice "order" None (Symmetric ("lhs", "rhs")%string ord_set true) (DefEnum "Order")
    [ord_call (Arg 1) (ForallVar 0) (Arg 0); ord_call (Arg 0) (ForallVar 0) (Arg 1);
     ord_call (ForallVar 0) (Arg 1) (Arg 0); ord_call (ForallVar 0) (Arg 0) (Arg 1)]
    [mkFilterAction [] (mkFilterCall [ord_set] (FrFunction "order" 0 [Arg 0; Arg 1; ForallVar 0]))]
    [ord_transitivity] (VSEnum "Order" ∅ ∅).

(** A new object is compared with all the pairs of objects. *)
Definition ord_new_object : OnNewObject :=
  mkOnNewObject [([ord_set; ord_set], [], mkRemoteFilterCall (mkChoiceInstance "order" [ForallVar 0; ForallVar 1])
    (mkFilterCall [] (FrFunction "order" 0 [ForallVar 0; ForallVar 1; Arg 0])))].

Definition ord_ir : IrDesc :=
  mkIrDesc [("order", ord_printed)] [("Order", ord_enum)] [("Stmt", (ord_def, ord_new_object))]%string [].

Example ord_processed : process_filters ord_desc [ord_constraint] = Some ord_ir.
Proof. vm_compute. reflexivity. Qed.

Lemma ord_ir_choice n ch : get_choice ord_ir n = Some ch → n = "order"%string ∧ ch = ord_printed.
Proof. unfold get_choice. cbn. case_decide as E; [|done]. intros [= <-]. by rewrite <-E. Qed.

Lemma ord_ir_grows : desc_grows ord_desc ord_ir.
Proof.
  constructor; [done| | | |].
  - intros n. unfold get_set_def. cbn. by case_decide.
  - intros n d o. cbn. case_decide; [|done]. intros [= <- <-]. eexists. split; [done|]. apply prefix_nil.
  - intros n ch [-> ->]%ord_get_choice. eexists. split; [done|]. constructor; try done; apply prefix_nil.
  - intros n. unfold get_choice. cbn. by case_decide.
Qed.

Lemma ord_printable : printable ord_ir.
Proof.
  constructor.
  - apply (desc_ok_grows _ _ ord_ir_grows), ord_desc_ok.
  - apply (choices_ok_grows _ _ ord_ir_grows), ord_choices_ok.
  - intros n ch [-> ->]%ord_ir_choice. by eexists.
  - intros n e. rewrite (get_enum_grows _ _ ord_ir_grows). intros [-> ->]%ord_get_enum. cbn. lia.
  - intros n ch e _ _. rewrite (choice_enum_grows _ _ ord_ir_grows). intros [-> ->]%ord_choice_enum.
    eexists. split; [reflexivity|done].
Qed.

Lemma ord_set_printable insts values :
  Forall (λ x, x ∈ ["BEFORE"; "AFTER"; "SAME"]%string) values → vs_printable ord_ir insts "Order" (ord_enum_set values).
Proof.
  intros Hv. rewrite Forall_forall in Hv. exists ord_enum, (list_to_set values), ∅. split; [done|]. split; [done|].
  split; [|set_solver]. intros x Hx%elem_of_list_to_set. by apply Hv.
Qed.

Lemma ord_rules_printable insts ctx values :
  Forall (λ x, x ∈ ["BEFORE"; "AFTER"; "SAME"]%string) values → filter_printable ord_ir insts ctx "Order" (ord_rules values).
Proof. intros Hv. constructor; [|done]. split; [done|]. split; [done|]. by apply ord_set_printable. Qed.

Lemma ord_cases_printable insts ctx i before after same :
  input_enum ord_ir insts i = Some ord_enum → filter_printable ord_ir insts ctx "Order" before →
  filter_printable ord_ir insts ctx "Order" after → filter_printable ord_ir insts ctx "Order" same →
  filter_printable ord_ir insts ctx "Order" (ord_cases i before after same).
Proof.
  intros Hi Hb Ha Hs. split; [by eexists|].
  assert (∀ x, x ∈ ["BEFORE"; "AFTER"; "SAME"]%string →
    ∃ e, input_enum ord_ir insts i = Some e ∧ vs_printable ord_ir insts (enum_name e) (ord_enum_set [x])) as Hg.
  { intros x Hx. exists ord_enum. split; [done|]. apply ord_set_printable. by apply Forall_singleton. }
  repeat (split; [apply Hg; set_solver|]; split; [done|]). done.
Qed.

Lemma ord_set_checked : checked_set ord_set.
Proof. done. Qed.

Lemma ord_calls_printable : calls_printable ord_ir.
Proof.
  assert (∀ offset, foralls_printable offset [ord_set]) as Hf.
  { intros offset. split; [|by repeat constructor]. cbn. split; [set_solver|]. split; [set_solver|done]. }
  assert (∀ ctx args, ref_printable ord_ir ctx "order" (FrFunction "order" 0 args)) as Hr.
  { intros ctx args. exists ord_printed, "Order"%string. split; [done|]. split; [done|]. split; [done|].
    exists ord_transitivity. split; [done|]. intros ctx' _.
    assert (∀ i, i < 2 → input_enum ord_ir (filter_inputs ord_transitivity) i = Some ord_enum) as Hi.
    { intros [|[|i]] Hlt; [done|done|lia]. }
    repeat first [apply ord_cases_printable; [by apply Hi; lia|..] | apply ord_rules_printable, Forall_forall; set_solver | by constructor]. }
  intros n ch [-> ->]%ord_ir_choice. split.
  - apply Forall_singleton. split; [apply Hf|]. intros ctx _. split; [by constructor|apply Hr].
  - assert (∀ a b c, Forall (bound_before 1) [a; b] → on_change_printable ord_ir ord_printed (ord_call a b c)) as Hoc.
    { intros a b c Hb. split; [apply Hf|]. split; [split; [done|by constructor]|]. split; [repeat constructor; set_solver|].
      split; [exact Hb|]. intros ctx _. split; [by constructor|apply Hr]. }
    cbn [on_change ord_printed]. rewrite !Forall_cons, Forall_nil.
    do 4 (split; [apply Hoc; repeat constructor; cbn; lia|]). done.
Qed.

(** The order of the numbers is allowed. *)
Lemma ord_transitivity_allows env a b c :
  env (Arg 0) = a → env (Arg 1) = b → env (ForallVar 0) = c →
  filter_allows ord_ir (filter_inputs ord_transitivity) (env_world ord_interp env (filter_inputs ord_transitivity))
    (filter_rules ord_transitivity) (VEnum (ord_value [a; b])).
Proof.
  intros Ea Eb Ec. set (w := env_world _ _ _).
  assert (w_input w 0 = VEnum (ord_value [a; c])) as E0 by (cbn; unfold inst_value; cbn; by rewrite Ea, Ec).
  assert (w_input w 1 = VEnum (ord_value [b; c])) as E1 by (cbn; unfold inst_value; cbn; by rewrite Eb, Ec).
  clearbody w. assert (∀ i before after same x, w_input w i = VEnum x →
    filter_allows ord_ir (filter_inputs ord_transitivity) w
      (if String.eqb x "BEFORE" then before else if String.eqb x "AFTER" then after else same) (VEnum (ord_value [a; b])) →
    x ∈ ["BEFORE"; "AFTER"; "SAME"]%string →
    filter_allows ord_ir (filter_inputs ord_transitivity) w (ord_cases i before after same) (VEnum (ord_value [a; b]))) as Hcases.
  { intros i before after same x Hx Hf Hin. cbn [ord_cases filter_allows]. rewrite Hx.
    assert (∀ y, vs_allows ord_ir (filter_inputs ord_transitivity) w (ord_enum_set [y]) (VEnum y)) as Hy.
    { intros y. exists y. split; [done|]. left. set_solver. }
    repeat (apply elem_of_cons in Hin as [->|Hin]); [left| right; left | right; right; left |by apply elem_of_nil in Hin]; by split. }
  assert (∀ values, Exists (λ x, x = ord_value [a; b]) values →
    filter_allows ord_ir (filter_inputs ord_transitivity) w (ord_rules values) (VEnum (ord_value [a; b]))) as Hrules.
  { intros values Hx. constructor; [|done]. intros _. exists (ord_value [a; b]). split; [done|]. left.
    apply elem_of_list_to_set. apply Exists_exists in Hx as (x & Hx & ->). done. }
  assert (∀ x y, ord_value [x; y] ∈ ["BEFORE"; "AFTER"; "SAME"]%string) as Hin.
  { intros x y. unfold ord_value. destruct (Nat.ltb x y); [set_solver|]. destruct (Nat.ltb y x); set_solver. }
  cbn [filter_rules ord_transitivity]. eapply Hcases; [exact E0| |apply Hin]. revert Hrules. unfold ord_value.
  assert (∀ before after same, filter_allows ord_ir (filter_inputs ord_transitivity) w
      (if String.eqb (ord_value [b; c]) "BEFORE" then before else if String.eqb (ord_value [b; c]) "AFTER" then after else same) (VEnum (ord_value [a; b])) →
    filter_allows ord_ir (filter_inputs ord_transitivity) w (ord_cases 1 before after same) (VEnum (ord_value [a; b]))) as Hcase1.
  { intros before after same Hf. by apply (Hcases 1 before after same _ E1). }
  clear Hcases E0 E1 Hin. revert Hcase1. unfold ord_value. intros Hcase1 Hrules.
  destruct (Nat.ltb_spec a c), (Nat.ltb_spec c a), (Nat.ltb_spec b c), (Nat.ltb_spec c b), (Nat.ltb_spec a b), (Nat.ltb_spec b a); try lia;
    cbn [String.eqb Ascii.eqb Bool.eqb] in *; apply Hcase1; first [by constructor | apply Hrules; by repeat first [by left | right]].
Qed.

Lemma ord_calls_allow : calls_allow ord_ir ord_interp.
Proof.
  assert (∀ env args a b c, env <$> args = [a; b; c] →
    ref_allows ord_ir ord_interp env (FrFunction "order" 0 args) (VEnum (ord_value [a; b]))) as Hr.
  { intros env args a b c E ch f [_ ->]%ord_ir_choice [= <-]. rewrite E. by apply ord_transitivity_allows with (c := c). }
  constructor.
  - intros n ch act env [-> ->]%ord_ir_choice ->%list_elem_of_singleton _ _. by apply (Hr env _ _ _ (env (ForallVar 0))).
  - intros n ch act call env [-> ->]%ord_ir_choice Hact. cbn [on_change ord_printed] in Hact.
    repeat (apply elem_of_cons in Hact as [->|Hact];
      [intros [= <-] _ _; unfold inst_value; cbn [rc_choice ci_vars ci_choice fmap list_fmap i_val ord_interp]; by eapply Hr|]).
    by apply elem_of_nil in Hact.
Qed.

(** The host: the objects of the set are the first numbers. *)
#[local] Instance nat_host : Host nat nat := {|
  h_iter n name param := if decide (name = "Stmt"%string ∧ param = None) then seq 0 n else [];
  h_from_superset _ _ _ _ := None;
  h_bool _ _ _ := true;
  h_num _ _ _ := 0%Z;
  h_universe _ _ _ := []
|}.

Definition first_nat_key (m : gmap (list nat) (Dom * Dom)) : option (list nat) := fst <$> head (map_to_list m).

Definition no_trigger (id : nat) (objs : list nat) : Sol (F := nat) (Obj := nat) (list (Action nat)) := λ _, None.

Lemma first_nat_key_picks : picks_key first_nat_key.
Proof.
  intros m. unfold first_nat_key. destruct (map_to_list m) as [|[k x] l] eqn:E; cbn; [by apply map_to_list_empty_iff|].
  exists x. apply elem_of_map_to_list. rewrite E. left.
Qed.

#[local] Instance ord_profile : Profile := debug_profile.
#[local] Existing Instance swap_removal.

Definition ord_code : SolverAst := default (mkSolverAst [] []) (print_solver ord_ir).

(** The initial store for three objects: each pair has all the orders. *)
Definition ord_store : Store nat := default ∅ (store_new ord_ir ord_code 3).

Definition ord_decisions : list (Action nat) :=
  let before x y := mkAction "order" [x; y] (DomEnum 1) in [before 0 1; before 1 2].

Lemma ord_store_domains :
  ord_store = {["order"%string := list_to_map [([0; 1], DomEnum 7); ([0; 2], DomEnum 7); ([1; 2], DomEnum 7)]]}.
Proof. vm_compute. reflexivity. Qed.

Lemma ord_store_lookup name ids d : store_lookup ord_store name ids = Some d →
  name = "order"%string ∧ d = DomEnum 7 ∧ ids ∈ [[0; 1]; [0; 2]; [1; 2]].
Proof.
  unfold store_lookup. rewrite ord_store_domains. intros (doms & [<- <-]%lookup_singleton_Some & Hd)%bind_Some.
  apply elem_of_list_to_map_2 in Hd. split; [done|]. set_solver.
Qed.

Lemma ord_has_all x : x ∈ ["BEFORE"; "AFTER"; "SAME"]%string → has ord_enum (DomEnum 7) x = true.
Proof. intros Hx. repeat (apply elem_of_cons in Hx as [->|Hx]; [by vm_compute|]). by apply elem_of_nil in Hx. Qed.

Lemma ord_store_typed : typed_store ord_ir ord_store.
Proof.
  intros name ids d (-> & -> & _)%ord_store_lookup. exists ord_enum. split; [done|]. exists 7%Z. split; [done|]. by vm_compute.
Qed.

Lemma ord_allocated x y : x < 3 → y < 3 → x ≠ y → allocated ord_ir ord_store ("order"%string, [x; y]).
Proof.
  intros Hx Hy Hne. destruct x as [|[|[|x]]], y as [|[|[|y]]]; try lia; exists ord_printed; eexists _, _, _; split; done || (vm_compute; done).
Qed.

Definition ord_pair_name (x : string * list nat) : bool :=
  match x with (name, [a; b]) => String.eqb name "order" && (a <? 3) && (b <? 3) && negb (a =? b) | _ => false end.

Lemma ord_store_closed : store_closed ord_ir ord_code 3 ord_store.
Proof.
  assert (forallb (λ c, forallb (λ ids, forallb ord_pair_name (change_reads ord_code 3 c ids)) [[0; 1]; [0; 2]; [1; 2]])
    (sva_choices ord_code) = true) as Hall by (vm_compute; reflexivity).
  intros c ids Hc [d (Hn & _ & Hids)%ord_store_lookup]. rewrite forallb_forall in Hall.
  pose proof (Hall c (proj1 (list_elem_of_In _ _) Hc)) as Hall'. rewrite forallb_forall in Hall'.
  pose proof (Hall' ids (proj1 (list_elem_of_In _ _) Hids)) as Hreads. rewrite forallb_forall in Hreads.
  apply Forall_forall. intros [name l] Hx%list_elem_of_In. pose proof (Hreads _ Hx) as Hp.
  destruct l as [|a [|b [|]]]; try done. unfold ord_pair_name in Hp. rewrite !andb_true_iff, negb_true_iff, Nat.eqb_neq, !Nat.ltb_lt in Hp.
  destruct Hp as [[[->%String.eqb_eq Ha] Hb] Hne]. by apply ord_allocated.
Qed.

Lemma ord_holds : holds ord_ir ord_interp ord_store.
Proof.
  intros name ids d (-> & -> & _)%ord_store_lookup. eexists ord_enum, _. split; [done|]. split; [reflexivity|].
  apply ord_has_all. unfold ord_value. destruct ids as [|x [|y [|]]]; [set_solver..| |set_solver].
  destruct (Nat.ltb x y); [set_solver|]. destruct (Nat.ltb y x); set_solver.
Qed.

Lemma ord_solution : solution ord_ir 3 ord_store ord_decisions ord_interp.
Proof.
  constructor.
  - split; [|apply (interp_ok_grows _ _ ord_ir_grows), ord_interp_ok]. split; [|done]. constructor; [|done].
    intros name p o. cbn. case_decide as E; [by destruct E as [-> ->]|]. by intros ?%elem_of_nil.
  - apply ord_calls_allow.
  - intros name ch ids [_ ->]%ord_ir_choice _ k given Hk.
    assert (given = ord_set) as -> by (by destruct k as [|[|]]; inversion Hk). by split.
  - intros a Ha. repeat (apply elem_of_cons in Ha as [->|Ha]; [eexists ord_enum, _; split; [done|]; split; [reflexivity|]; by vm_compute|]).
    by apply elem_of_nil in Ha.
Qed.

Example ord_derived :
  ('(s, _) ← apply_decisions ord_ir ord_code first_nat_key no_trigger 19 ord_decisions 3 ord_store;
    store_lookup (sv_store s) "order" [0; 2]) = DomEnum <$> value_const ord_enum "BEFORE".
Proof. vm_compute. reflexivity. Qed.

(** From 0 before 1 and 1 before 2, the solver finds that 0 is before 2. *)
Lemma apply_decisions_sound_witness :
  ∃ s, apply_decisions ord_ir ord_code first_nat_key no_trigger 19 ord_decisions 3 ord_store = Some (s, ROk tt) ∧
    diff_is_empty (sv_diff s) = true ∧ holds ord_ir ord_interp (sv_store s) ∧
    store_lookup (sv_store s) "order" [0; 2] = DomEnum <$> value_const ord_enum "BEFORE".
Proof.
  destruct (apply_decisions_sound ord_ir ord_code 3 ord_store ord_decisions 19 first_nat_key no_trigger)
    as (s & r & E & _ & _ & He & Hsol).
  - apply ord_printable.
  - apply ord_calls_printable.
  - vm_compute. reflexivity.
  - apply first_nat_key_picks.
  - apply ord_store_typed.
  - apply ord_store_closed.
  - repeat constructor; try (by apply ord_allocated; lia); exists ord_enum; (split; [done|]); eexists; (split; [done|]); by vm_compute.
  - assert (store_size ord_store = 9) as -> by (by vm_compute). lia.
  - destruct (Hsol ord_interp ord_solution ord_holds) as [-> Hh]. exists s. split; [exact E|]. split; [by apply He|]. split; [exact Hh|].
    pose proof ord_derived as Hd. by rewrite E in Hd.
Defined.
