(* ===== verification/Float64.v ===== *)
(** * Comparing floats

    The comparisons of [f64] that the explorer and the performance model rely on.  The
    comparison of IEEE 754 values is a strict weak order once NaNs are set aside, which
    are on no side of any comparison. *)
From S2P Require Import Prelude Types Utils Orders.
From Stdlib Require Import Floats.SpecFloat.

(** [std::f64::INFINITY] and its opposite. *)
Definition INFINITY : f64 := S754_infinity false.
Definition NEG_INFINITY : f64 := S754_infinity true.

Definition is_infinite (a : f64) : bool := match a with S754_infinity _ => true | _ => false end.

Definition is_finite (a : f64) : bool := negb (is_nan a || is_infinite a).

(** [f64::min]: a NaN is ignored when the other value is not one. *)
Definition f64_min (a b : f64) : f64 :=
  if is_nan a then b else if is_nan b then a else if SFltb a b then a else b.

Declare Scope f64_scope.
Delimit Scope f64_scope with f64.
Notation "a < b" := (SFltb a b = true) : f64_scope.
Notation "a ≤ b" := (SFleb a b = true) : f64_scope.
#[local] Open Scope f64_scope.

Definition f64_add (a b : f64) : f64 := SFadd f64_prec f64_emax a b.
Definition f64_sub (a b : f64) : f64 := SFsub f64_prec f64_emax a b.
Definition f64_mul (a b : f64) : f64 := SFmul f64_prec f64_emax a b.
Definition f64_div (a b : f64) : f64 := SFdiv f64_prec f64_emax a b.

(** The conversion [as f64] of an integer. *)
Definition f64_of_Z (n : Z) : f64 := binary_normalize f64_prec f64_emax n 0 false.

(** ** The order of the floats

    A value that is not a NaN has a key (its class, its signed exponent and its signed
    mantissa), and values are compared as their keys. *)
Definition f64_key (a : f64) : Z * Z * Z :=
  (match a with
   | S754_infinity true => (-2, 0, 0)
   | S754_finite true m e => (-1, - e, Z.neg m)
   | S754_zero _ | S754_nan => (0, 0, 0)
   | S754_finite false m e => (1, e, Z.pos m)
   | S754_infinity false => (2, 0, 0)
   end)%Z.

Lemma prod_cmp_unfold {A B : Type} `{RustOrd A, RustOrd B} (x y : A * B) :
  rcmp x y = match rcmp x.1 y.1 with Eq => rcmp x.2 y.2 | c => c end.
Proof. done. Qed.

Lemma SFcompare_key a b : is_nan a = false → is_nan b = false → SFcompare a b = Some (rcmp (f64_key a) (f64_key b)).
Proof.
  intros Ha Hb. rewrite !prod_cmp_unfold.
  destruct a as [s|s| |s m e], b as [t|t| |t n f]; try done; try (by destruct s, t); try (by destruct s); try (by destruct t).
  destruct s, t; cbn -[Z.compare Z.opp]; try done.
  change (rcmp (-1)%Z (-1)%Z) with Eq. cbn [fst snd]. change (rcmp (-e)%Z (-f)%Z) with (Z.compare (-e) (-f)).
  by destruct (Z.compare_spec e f), (Z.compare_spec (-e) (-f)); try lia.
Qed.

Lemma f64_lt_key a b : a < b ↔ is_nan a = false ∧ is_nan b = false ∧ rlt (f64_key a) (f64_key b).
Proof.
  unfold SFltb, rlt. destruct (is_nan a) eqn:Ha, (is_nan b) eqn:Hb.
  1,2: destruct a; naive_solver.
  - destruct b; try done. destruct a; naive_solver.
  - rewrite SFcompare_key by done. destruct (rcmp _ _); naive_solver.
Qed.

Lemma f64_le_key a b : a ≤ b ↔ is_nan a = false ∧ is_nan b = false ∧ rle (f64_key a) (f64_key b).
Proof.
  unfold SFleb, rle. destruct (is_nan a) eqn:Ha, (is_nan b) eqn:Hb.
  1,2: destruct a; naive_solver.
  - destruct b; try done. destruct a; naive_solver.
  - rewrite SFcompare_key by done. destruct (rcmp _ _); naive_solver.
Qed.

Lemma f64_lt_irrefl a : ¬ a < a.
Proof. rewrite f64_lt_key. intros (_ & _ & H). by apply rlt_irrefl in H. Qed.

Lemma f64_lt_trans a b c : a < b → b < c → a < c.
Proof. rewrite !f64_lt_key. intros (Ha & _ & H1) (_ & Hc & H2). split_and!; try done. by etrans. Qed.

Lemma f64_le_refl a : is_nan a = false → a ≤ a.
Proof. intros H. rewrite f64_le_key. split_and!; try done. unfold rle. by rewrite rcmp_refl. Qed.

Lemma f64_lt_le a b : a < b → a ≤ b.
Proof. rewrite f64_lt_key, f64_le_key. intros (Ha & Hb & H). split_and!; try done. by apply rlt_le. Qed.

Lemma f64_lt_le_trans a b c : a < b → b ≤ c → a < c.
Proof.
  rewrite !f64_lt_key, f64_le_key. intros (Ha & _ & H1) (_ & Hc & H2). split_and!; try done.
  apply rle_lt_eq in H2 as [H2|H2]; [by etrans|congruence].
Qed.

Lemma f64_le_lt_trans a b c : a ≤ b → b < c → a < c.
Proof.
  rewrite !f64_lt_key, f64_le_key. intros (Ha & _ & H1) (_ & Hc & H2). split_and!; try done.
  apply rle_lt_eq in H1 as [H1|H1]; [by etrans|congruence].
Qed.

Lemma f64_le_trans a b c : a ≤ b → b ≤ c → a ≤ c.
Proof.
  rewrite !f64_le_key. intros (Ha & _ & H1) (_ & Hc & H2). split_and!; try done.
  apply rle_lt_eq. apply rle_lt_eq in H1 as [H1| ->]; [|by apply rle_lt_eq in H2].
  apply rle_lt_eq in H2 as [H2|<-]; left; [by etrans|done].
Qed.

(** Without NaNs, one of two values is strictly below the other or the converse holds. *)
Lemma f64_not_lt a b : is_nan a = false → is_nan b = false → ¬ a < b ↔ b ≤ a.
Proof.
  intros Ha Hb. rewrite f64_lt_key, f64_le_key. unfold rle, rlt. rewrite (rcmp_flip (f64_key a) (f64_key b)).
  destruct (rcmp (f64_key a) (f64_key b)); cbn; naive_solver.
Qed.

Lemma f64_lt_not_le a b : a < b → ¬ b ≤ a.
Proof. intros H1 H2. by apply (f64_lt_irrefl a), (f64_lt_le_trans a b). Qed.

Lemma f64_min_le a b c : is_nan a = false → is_nan b = false → c < f64_min a b ↔ c < a ∧ c < b.
Proof.
  intros Ha Hb. unfold f64_min. rewrite Ha, Hb. destruct (SFltb a b) eqn:E.
  - split; [|tauto]. intros H. split; [done|]. by apply (f64_lt_trans c a).
  - split; [|tauto]. intros H. split; [|done]. apply (f64_lt_le_trans c b); [done|].
    apply f64_not_lt; [done|done|congruence].
Qed.

Lemma SFcompare_antisym a b : SFcompare b a = CompOpp <$> SFcompare a b.
Proof.
  destruct (is_nan a) eqn:Ha; [destruct a, b; done|].
  destruct (is_nan b) eqn:Hb; [destruct b; try done; by destruct a|].
  rewrite !SFcompare_key by done. by rewrite (rcmp_flip (f64_key a) (f64_key b)).
Qed.
