(* ===== verification/Config.v ===== *)
(** * Configuration of the exploration (src/src/explorer/config.rs)

    The parameters of the search algorithms with their defaults, and the choice orderings
    with their text form.  Reading configuration files is not modelled. *)
From S2P Require Import Prelude Types Utils Orders Float64.
From Stdlib Require Import Floats.SpecFloat Strings.Ascii Strings.String.

(** ** Bandit algorithms *)
Record TAGConfig := mkTAGConfig { topk : nat; delta : f64 }.

Definition tag_config_default : TAGConfig := mkTAGConfig 10 (f64_of_Z 1).

(** [Uct]: sqrt(log(sum of the visits) / visits); [AlphaPuct]: p * sqrt(sum of the visits)
    / visits, with p uniform. *)
Inductive Formula := Uct | AlphaPuct.
Inductive Reward := NegTime | Speed | LogSpeed.
Inductive ValueReduction := Mean | Best.
Inductive Normalization := GlobalBest.

Record UCTConfig := mkUCTConfig {
  exploration_constant : f64;
  normalization : option Normalization;
  value_reduction : ValueReduction;
  reward : Reward;
  formula : Formula
}.

Definition uct_config_default : UCTConfig :=
  mkUCTConfig (SFsqrt f64_prec f64_emax (f64_of_Z 2)) None Best Speed Uct.

Inductive TreePolicyConfig :=
| PolicyBound
| PolicyWeightedRandom
| PolicyTAG (config : TAGConfig)
| PolicyUCT (config : UCTConfig)
| PolicyRoundRobin.

Definition tree_policy_default : TreePolicyConfig := PolicyTAG tag_config_default.

(** How to choose between nodes when no children have been evaluated. *)
Inductive NewNodeOrder := OrderApi | OrderRandom | OrderBound | OrderWeightedRandom.

Definition new_node_order_default : NewNodeOrder := OrderWeightedRandom.

(** ** Choice orderings *)
Inductive ChoiceGroup :=
| GroupLowerLayout | GroupSize | GroupDimKind | GroupDimMap | GroupOrder | GroupMemSpace | GroupInstFlag
| GroupThreads | GroupThreadSize | GroupDimFusion | GroupDimNesting.

#[global] Instance ChoiceGroup_eq_dec : EqDecision ChoiceGroup.
Proof. solve_decision. Defined.

Definition ChoiceOrdering : Type := list ChoiceGroup.

Definition DEFAULT_ORDERING : ChoiceOrdering :=
  [GroupLowerLayout; GroupSize; GroupDimKind; GroupDimMap; GroupMemSpace; GroupOrder; GroupInstFlag].

Record BanditConfig := mkBanditConfig {
  initial_cut : option f64;
  backtrack_deadends : bool;
  new_nodes_order : NewNodeOrder;
  choice_ordering : ChoiceOrdering;
  tree_policy : TreePolicyConfig
}.

Definition bandit_config_default : BanditConfig :=
  mkBanditConfig None false new_node_order_default DEFAULT_ORDERING tree_policy_default.

Inductive SearchAlgorithm := BoundOrder | Mcts (config : BanditConfig).

(** The fields of [Config] that the search reads; the paths of the outputs are left out. *)
Record Config := mkConfig {
  num_workers : nat;
  stop_bound : option f64;
  check_all : bool;
  max_evaluations : option nat;
  distance_to_best : option f64;
  restart_every_n_evals : option nat;
  algorithm : SearchAlgorithm
}.

(** [num_cpus::get()] gives the number of workers. *)
Definition config_default (num_cpus : nat) : Config :=
  mkConfig num_cpus None false None None None (Mcts bandit_config_default).

(** ** Text form *)
#[local] Open Scope string_scope.

Definition choice_group_display (g : ChoiceGroup) : string :=
  match g with
  | GroupLowerLayout => "lower_layout"
  | GroupSize => "size"
  | GroupDimKind => "dim_kind"
  | GroupDimMap => "dim_map"
  | GroupOrder => "order"
  | GroupMemSpace => "mem_space"
  | GroupInstFlag => "inst_flag"
  | GroupThreads => "threads"
  | GroupThreadSize => "thread_size"
  | GroupDimFusion => "dim_fusion"
  | GroupDimNesting => "dim_nesting"
  end.

(** The derived [Debug] prints the name of the constructor. *)
Definition choice_group_debug (g : ChoiceGroup) : string :=
  match g with
  | GroupLowerLayout => "LowerLayout"
  | GroupSize => "Size"
  | GroupDimKind => "DimKind"
  | GroupDimMap => "DimMap"
  | GroupOrder => "Order"
  | GroupMemSpace => "MemSpace"
  | GroupInstFlag => "InstFlag"
  | GroupThreads => "Threads"
  | GroupThreadSize => "ThreadSize"
  | GroupDimFusion => "DimFusion"
  | GroupDimNesting => "DimNesting"
  end.

Definition choice_group_from_str (s : string) : result ChoiceGroup string :=
  if s =? "lower_layout" then ROk GroupLowerLayout
  else if s =? "size" then ROk GroupSize
  else if s =? "dim_kind" then ROk GroupDimKind
  else if s =? "dim_map" then ROk GroupDimMap
  else if s =? "order" then ROk GroupOrder
  else if s =? "mem_space" then ROk GroupMemSpace
  else if s =? "inst_flag" then ROk GroupInstFlag
  else if s =? "threads" then ROk GroupThreads
  else if s =? "thread_size" then ROk GroupThreadSize
  else if s =? "dim_fusion" then ROk GroupDimFusion
  else if s =? "dim_nesting" then ROk GroupDimNesting
  else RErr s.

(** The [Display] of an ordering prints its groups with [Debug]. *)
Definition choice_ordering_display (o : ChoiceOrdering) : string :=
  match o with
  | [] => ""
  | first :: rest =>
    choice_group_debug first ++ foldr (λ elem s, "," ++ choice_group_debug elem ++ s) "" rest
  end.

(** [str::split] on a character. *)
Fixpoint str_split (sep : ascii) (s : string) : list string :=
  match s with
  | EmptyString => [EmptyString]
  | String c s =>
    if Ascii.eqb c sep then EmptyString :: str_split sep s
    else match str_split sep s with
         | first :: rest => String c first :: rest
         | [] => [String c EmptyString]
         end
  end.

(** Collecting results stops at the first error. *)
Fixpoint collect_results {A E : Type} (l : list (result A E)) : result (list A) E :=
  match l with
  | [] => ROk []
  | RErr e :: _ => RErr e
  | ROk x :: l => match collect_results l with ROk xs => ROk (x :: xs) | RErr e => RErr e end
  end.

Definition choice_ordering_from_str (s : string) : result ChoiceOrdering string :=
  collect_results (map choice_group_from_str (str_split "," s)).

(** The text that [choice_ordering_from_str] reads. *)
Definition choice_ordering_text (o : ChoiceOrdering) : string :=
  String.concat "," (map choice_group_display o).

(** ** Theorems *)
Lemma choice_group_roundtrip g : choice_group_from_str (choice_group_display g) = ROk g.
Proof. by destruct g. Qed.

Lemma choice_group_from_display s g : choice_group_from_str s = ROk g → s = choice_group_display g.
Proof.
  unfold choice_group_from_str.
  repeat match goal with
  | |- context [String.eqb s ?t] => destruct (String.eqb_spec s t) as [->|]; [by intros [= <-]|]
  end. done.
Qed.

(** A string without the separator is a single part. *)
Fixpoint lacks_char (sep : ascii) (s : string) : bool :=
  match s with EmptyString => true | String c s => negb (Ascii.eqb c sep) && lacks_char sep s end.

Lemma str_split_lacks sep s : lacks_char sep s = true → str_split sep s = [s].
Proof.
  induction s as [|c s IH]; [done|]. cbn. intros [Hc Hs]%andb_true_iff.
  apply negb_true_iff in Hc. by rewrite Hc, IH.
Qed.

Lemma str_split_app sep s t :
  lacks_char sep s = true → str_split sep (s ++ String sep t) = s :: str_split sep t.
Proof.
  induction s as [|c s IH]; intros Hl.
  - change (str_split sep (String sep t) = "" :: str_split sep t). cbn. by rewrite Ascii.eqb_refl.
  - apply andb_true_iff in Hl as [Hc Hs]. apply negb_true_iff in Hc.
    change (str_split sep (String c (s ++ String sep t)) = String c s :: str_split sep t). cbn.
    by rewrite Hc, IH.
Qed.

Lemma choice_ordering_text_cons g h o :
  choice_ordering_text (g :: h :: o) = choice_group_display g ++ String "," (choice_ordering_text (h :: o)).
Proof. done. Qed.

Lemma choice_ordering_roundtrip o : o ≠ [] → choice_ordering_from_str (choice_ordering_text o) = ROk o.
Proof.
  unfold choice_ordering_from_str. induction o as [|g o IH]; [done|]. intros _. destruct o as [|h o].
  - unfold choice_ordering_text. cbn [map String.concat]. rewrite str_split_lacks by (by destruct g).
    cbn [map collect_results]. by rewrite choice_group_roundtrip.
  - rewrite choice_ordering_text_cons, str_split_app by (by destruct g).
    cbn [map collect_results]. rewrite choice_group_roundtrip. by rewrite IH.
Qed.

Lemma choice_group_debug_rejected g : choice_group_from_str (choice_group_debug g) = RErr (choice_group_debug g).
Proof. by destruct g. Qed.

(** What an ordering prints is never read back: the first group is already rejected. *)
Lemma choice_ordering_display_rejected o :
  choice_ordering_from_str (choice_ordering_display o) =
    RErr (match o with [] => "" | g :: _ => choice_group_debug g end).
Proof.
  destruct o as [|g [|h o]]; [done| |]; unfold choice_ordering_from_str, choice_ordering_display; cbn [foldr].
  - by destruct g.
  - change (?a ++ ("," ++ ?b)) with (a ++ String "," b). rewrite str_split_app by (by destruct g).
    cbn [map collect_results]. by rewrite choice_group_debug_rejected.
Qed.

Lemma str_split_concat s : str_split "," s ≠ [] ∧ String.concat "," (str_split "," s) = s.
Proof.
  induction s as [|c s [Hne IH]]; [done|]. cbn. destruct (Ascii.eqb_spec c ",") as [->|].
  - split; [done|]. destruct (str_split "," s) as [|x l]; [done|]. cbn in *. by rewrite IH.
  - destruct (str_split "," s) as [|x l]; [done|]. split; [done|]. rewrite <-IH. by destruct l.
Qed.

Lemma collect_results_ok {A E : Type} (l : list (result A E)) xs : collect_results l = ROk xs → l = map ROk xs.
Proof.
  revert xs. induction l as [|[x|e] l IH]; intros xs; cbn; [by intros [= <-]| |done].
  destruct (collect_results l); [|done]. intros [= <-]. cbn. by rewrite (IH _ eq_refl).
Qed.

Lemma map_from_str parts o : map choice_group_from_str parts = map ROk o → parts = map choice_group_display o.
Proof.
  revert o. induction parts as [|p parts IH]; intros [|g o]; try done. cbn. intros [= Hp Ho].
  by rewrite (choice_group_from_display p g Hp), (IH o Ho).
Qed.

(** The text form of choice orderings.  Parsing accepts exactly the non-empty lists of
    group names separated by commas and gives the groups back, but what [Display] prints
    for an ordering is never accepted: it prints the names of the constructors, which
    parsing rejects from the first one. *)
Theorem choice_ordering_text_form (o : ChoiceOrdering) (s : string) :
  (choice_ordering_from_str s = ROk o ↔ o ≠ [] ∧ s = choice_ordering_text o) ∧
  is_ok (choice_ordering_from_str (choice_ordering_display o)) = false.
Proof.
  split; [|by rewrite choice_ordering_display_rejected].
  split; [|intros [Ho ->]; by apply choice_ordering_roundtrip].
  intros H%collect_results_ok%map_from_str. destruct (str_split_concat s) as [Hne E].
  unfold choice_ordering_text. rewrite <-H, E. split; [|done]. intros ->. by rewrite H in Hne.
Qed.
