(* ===== verification/Candidates.v ===== *)
(** * Candidates (src/src/explorer/candidate.rs and the actions of choice.rs)

    A candidate is a node of the search tree: a part of the search space with the lower
    bound that the performance model gives it.  What the explorer asks of the search space
    is the class [SearchSpaceOps]: applying decisions is generated by telamon-gen, and
    choices and bounds are the business of other components. *)
From S2P Require Import Prelude Types Utils Orders Float64 Config.

(** ** Actions *)
Inductive ActionEx (Act : Type) : Type :=
| RegularAction (action : Act)
| LowerLayout (mem : nat) (st_dims ld_dims : list nat).
Arguments RegularAction {Act} action.
Arguments LowerLayout {Act} mem st_dims ld_dims.

#[global] Instance ActionEx_eq_dec {Act : Type} `{EqDecision Act} : EqDecision (ActionEx Act).
Proof. solve_decision. Defined.

(** ** The search space as the explorer sees it

    [apply_decisions] and [lower_layout] change the space in place and may fail;
    [choice_list] are the choices left, in the given order; [fix_order] fixes the order of
    a space without choices, and may panic; [space_bound] is the value of the bound that
    the performance model computes. *)
Class SearchSpaceOps (Space Act : Type) := {
  apply_decisions : list Act → Space → Space * result unit unit;
  lower_layout : nat → list nat → list nat → Space → Space * result unit unit;
  choice_list : ChoiceOrdering → Space → list (list (ActionEx Act));
  fix_order : Space → option Space;
  space_bound : Space → f64
}.

Section candidates.
Context {Space Act : Type} `{SearchSpaceOps Space Act}.

Record ActionError := mkActionError { ae_action : ActionEx Act; ae_space : Space }.

(** [ActionEx::apply_to]. *)
Definition apply_to (self : ActionEx Act) (space : Space) : result Space ActionError :=
  let '(space, r) :=
    match self with
    | RegularAction action => apply_decisions [action] space
    | LowerLayout mem st_dims ld_dims => lower_layout mem st_dims ld_dims space
    end in
  match r with
  | ROk _ => ROk space
  | RErr _ => RErr (mkActionError self space)
  end.

(** [choice::default_list]. *)
Definition default_list (space : Space) : list (list (ActionEx Act)) := choice_list DEFAULT_ORDERING space.

(** ** Candidates *)
Record Candidate := mkCandidate {
  space : Space;
  bound : f64;
  depth : nat;
  actions : list (ActionEx Act)
}.

Definition with_actions (space : Space) (bound : f64) (actions : list (ActionEx Act)) : Candidate :=
  mkCandidate space bound (length actions) actions.

Definition candidate_new (space : Space) (bound : f64) : Candidate := with_actions space bound [].

(** [Candidate::apply_decision]; the last action comes first. *)
Definition apply_decision (self : Candidate) (action : ActionEx Act) : result Candidate ActionError :=
  match apply_to action (space self) with
  | ROk space => ROk (mkCandidate space (space_bound space) (depth self + 1) (action :: actions self))
  | RErr e => RErr e
  end.

(** [Candidate::apply_choice]: the actions that fail are skipped. *)
Definition apply_choice (self : Candidate) (choice : list (ActionEx Act)) : list Candidate :=
  omap (λ action, match apply_decision self action with ROk c => Some c | RErr _ => None end) choice.

(** The candidate that the callers of the stores evaluate. *)
Definition prepare (c : Candidate) : option Candidate :=
  s ← fix_order (space c);
  Some (mkCandidate s (bound c) (depth c) (actions c)).

(** The candidates are compared by their bounds; [cmp] unwraps. *)
Definition candidate_partial_cmp (self rhs : Candidate) : option comparison :=
  SpecFloat.SFcompare (bound self) (bound rhs).

Definition candidate_eq (self rhs : Candidate) : bool := SpecFloat.SFeqb (bound self) (bound rhs).

Definition candidate_cmp (self rhs : Candidate) : option comparison := candidate_partial_cmp self rhs.

(** ** The search tree *)

(** The candidates below a candidate: those obtained from its first choice. *)
Definition children (c : Candidate) : list Candidate :=
  match default_list (space c) with
  | [] => []
  | choice :: _ => apply_choice c choice
  end.

(** An implementation has no choice left. *)
Definition is_leaf (c : Candidate) : bool :=
  match default_list (space c) with [] => true | _ => false end.

(** The actions of a candidate, from the first to the last, lead from the root to its
    space. *)
Fixpoint replay (actions : list (ActionEx Act)) (space : Space) : option Space :=
  match actions with
  | [] => Some space
  | action :: actions =>
    match apply_to action space with ROk space => replay actions space | RErr _ => None end
  end.

Lemma replay_snoc l a s : replay (l ++ [a]) s = s ← replay l s; match apply_to a s with ROk s => Some s | RErr _ => None end.
Proof.
  revert s. induction l as [|b l IH]; intros s; cbn; [by destruct (apply_to a s)|].
  destruct (apply_to b s); [apply IH|done].
Qed.

Lemma elem_of_apply_choice c choice c' :
  c' ∈ apply_choice c choice ↔ ∃ action, action ∈ choice ∧ apply_decision c action = ROk c'.
Proof.
  unfold apply_choice. rewrite list_elem_of_omap. apply exist_proper. intros a.
  destruct (apply_decision c a); naive_solver.
Qed.

(** What the search relies on: a candidate knows its depth, its bound and how it was made
    from the space of the root. *)
Record candidate_ok (root : Space) (c : Candidate) : Prop := {
  ok_depth : depth c = length (actions c);
  ok_bound : bound c = space_bound (space c);
  ok_replay : replay (reverse (actions c)) root = Some (space c)
}.

Lemma apply_decision_ok root c a c' :
  candidate_ok root c → apply_decision c a = ROk c' → candidate_ok root c'.
Proof.
  intros [Hd Hb Hr]. unfold apply_decision. destruct (apply_to a (space c)) as [s|] eqn:E; [|done].
  intros [= <-]. constructor; cbn [depth actions bound space].
  - cbn [length]. lia.
  - done.
  - rewrite reverse_cons, replay_snoc, Hr. cbn. by rewrite E.
Qed.

Lemma children_ok root c : candidate_ok root c → Forall (candidate_ok root) (children c).
Proof.
  intros Hc. unfold children. destruct (default_list (space c)); [constructor|].
  apply Forall_forall. intros c' (a & _ & E)%elem_of_apply_choice. by eapply apply_decision_ok.
Qed.

(** ** Finite trees

    Every decision narrows the search space: some height of the spaces decreases along
    the actions.  The leaves below a candidate are then a list. *)
Context (height : Space → nat).

Definition narrows : Prop :=
  ∀ s choice a s', choice ∈ default_list s → a ∈ choice → apply_to a s = ROk s' → height s' < height s.

Fixpoint leaves_at (n : nat) (c : Candidate) : list Candidate :=
  if is_leaf c then [c] else
  match n with 0 => [] | S n => concat (leaves_at n <$> children c) end.

Fixpoint nodes_at (n : nat) (c : Candidate) : nat :=
  S (match n with 0 => 0 | S n => sum_list (nodes_at n <$> children c) end).

(** The number of candidates below a candidate, itself included. *)
Definition nodes (c : Candidate) : nat := nodes_at (height (space c)) c.

(** All the implementations below a candidate. *)
Definition leaves (c : Candidate) : list Candidate := leaves_at (height (space c)) c.

Lemma children_height c c' : narrows → c' ∈ children c → height (space c') < height (space c).
Proof.
  unfold children. intros Hn. destruct (default_list (space c)) as [|choice l] eqn:E; [by intros ?%elem_of_nil|].
  intros (a & Ha & Hc)%elem_of_apply_choice. unfold apply_decision in Hc.
  destruct (apply_to a (space c)) as [s|] eqn:Ea; [|done]. injection Hc as <-. cbn.
  apply (Hn (space c) choice a); [|done|done]. rewrite E. by left.
Qed.

Lemma children_nil c : narrows → height (space c) = 0 → children c = [].
Proof.
  intros Hn Hh. destruct (children c) as [|c' l] eqn:E; [done|]. pose proof (children_height c c' Hn) as H'.
  rewrite E in H'. specialize (H' (list_elem_of_here _ _)). lia.
Qed.

(** A function computed along the tree does not depend on its fuel. *)
Lemma at_enough {B : Type} (f : nat → Candidate → B) (g : Candidate → list B → B) n m c :
  narrows → (∀ c, f 0 c = g c []) → (∀ n c, f (S n) c = g c (f n <$> children c)) →
  height (space c) ≤ n → height (space c) ≤ m → f n c = f m c.
Proof.
  intros Hn H0 HS. revert m c. induction n as [|n IH]; intros m c H1 H2.
  - destruct m as [|m]; [done|]. rewrite HS, children_nil by (done || lia). apply H0.
  - destruct m as [|m]; rewrite HS; [rewrite children_nil by (done || lia); symmetry; apply H0|].
    rewrite HS. f_equal. apply list_fmap_ext. intros i c' Hi%list_elem_of_lookup_2.
    pose proof (children_height c c' Hn Hi). apply IH; lia.
Qed.

Lemma leaves_unfold c :
  narrows → leaves c = if is_leaf c then [c] else concat (leaves <$> children c).
Proof.
  intros Hn. set (g := λ (c : Candidate) (ls : list (list Candidate)), if is_leaf c then [c] else concat ls).
  assert (∀ n c, leaves_at (S n) c = g c (leaves_at n <$> children c)) as HS by done.
  unfold leaves. rewrite (at_enough leaves_at g _ (S (height (space c))) c Hn) by (done || lia).
  rewrite HS. unfold g. destruct (is_leaf c); [done|]. f_equal. apply list_fmap_ext.
  intros i c' Hi%list_elem_of_lookup_2. pose proof (children_height c c' Hn Hi).
  apply (at_enough leaves_at g); done || lia.
Qed.

Lemma nodes_unfold c : narrows → nodes c = S (sum_list (nodes <$> children c)).
Proof.
  intros Hn. set (g := λ (c : Candidate) (ls : list nat), S (sum_list ls)).
  assert (∀ n c, nodes_at (S n) c = g c (nodes_at n <$> children c)) as HS by done.
  unfold nodes. rewrite (at_enough nodes_at g _ (S (height (space c))) c Hn) by (done || lia).
  rewrite HS. unfold g. do 2 f_equal. apply list_fmap_ext.
  intros i c' Hi%list_elem_of_lookup_2. pose proof (children_height c c' Hn Hi).
  apply (at_enough nodes_at g); done || lia.
Qed.

(** The implementations below a candidate through candidates that satisfy [p] only. *)
Context (p : Candidate → bool).

Fixpoint kept_at (n : nat) (c : Candidate) : list Candidate :=
  if p c then
    if is_leaf c then [c] else
    match n with 0 => [] | S n => concat (kept_at n <$> children c) end
  else [].

Definition kept (c : Candidate) : list Candidate := kept_at (height (space c)) c.

Lemma kept_unfold c :
  narrows → kept c = if p c then if is_leaf c then [c] else concat (kept <$> children c) else [].
Proof.
  intros Hn. set (g := λ (c : Candidate) (ls : list (list Candidate)), if p c then if is_leaf c then [c] else concat ls else []).
  assert (∀ n c, kept_at (S n) c = g c (kept_at n <$> children c)) as HS by done.
  unfold kept. rewrite (at_enough kept_at g _ (S (height (space c))) c Hn) by (done || lia).
  rewrite HS. unfold g. destruct (p c), (is_leaf c); try done. f_equal. apply list_fmap_ext.
  intros i c' Hi%list_elem_of_lookup_2. pose proof (children_height c c' Hn Hi).
  apply (at_enough kept_at g); done || lia.
Qed.
End candidates.
Arguments Candidate Space Act : clear implicits.
Arguments ActionError Space Act : clear implicits.
