(* ===== verification/CandidateList.v ===== *)
(** * The list of candidates to process (src/src/explorer/parallel_list.rs)

    [CandidateList], the queue that the workers of the exhaustive search share, and the
    operations that [ParallelCandidateList] performs while it holds the lock.  The
    interleavings of the workers are in ParallelSearch.v. *)
From S2P Require Import Prelude Types Utils Orders Float64 Config Candidates.
From Stdlib Require Import Floats.SpecFloat.

(** ** Interval heaps

    The queue comes from the crate interval-heap: a priority queue with access to both
    ends.  Comparisons of elements may panic, and the operations then do. *)
Class IntervalHeap (A : Type) := {
  heap : Type;
  heap_new : heap;
  heap_push : A → heap → option heap;
  heap_pop_min : heap → option (option A * heap);
  heap_pop_max : heap → option (option A * heap);
  heap_max : heap → option A;
  heap_len : heap → nat;
  heap_elements : heap → list A
}.
Arguments heap A {_}.

(** What the crate documents, for elements that can be compared with each other. *)
Class IntervalHeapOk (A : Type) `{IntervalHeap A} (cmp : A → A → option comparison) (ok : A → Prop) : Prop := {
  heap_new_elements : heap_elements heap_new = [];
  heap_len_elements h : heap_len h = length (heap_elements h);
  heap_push_elements x h : ok x → Forall ok (heap_elements h) →
    ∃ h', heap_push x h = Some h' ∧ heap_elements h' ≡ₚ x :: heap_elements h;
  heap_pop_min_elements h : Forall ok (heap_elements h) →
    ∃ o h', heap_pop_min h = Some (o, h') ∧ heap_elements h ≡ₚ option_list o ++ heap_elements h' ∧
      (o = None → heap_elements h = []) ∧ ∀ x y, o = Some x → y ∈ heap_elements h' → cmp x y ≠ Some Gt;
  heap_pop_max_elements h : Forall ok (heap_elements h) →
    ∃ o h', heap_pop_max h = Some (o, h') ∧ heap_elements h ≡ₚ option_list o ++ heap_elements h' ∧
      (o = None → heap_elements h = []) ∧ ∀ x y, o = Some x → y ∈ heap_elements h' → cmp y x ≠ Some Gt;
  heap_max_elements h : Forall ok (heap_elements h) → ∃ h', heap_pop_max h = Some (heap_max h, h')
}.

Section candidate_list.
Context {Space Act : Type} `{SearchSpaceOps Space Act} `{IntervalHeap (Candidate Space Act)}.
Notation Candidate := (Candidate Space Act).

Record CandidateList := mkCandidateList {
  cut : f64;
  queue : heap Candidate;
  n_leaf : nat;
  n_candidate : nat;
  n_dropped : nat
}.

Definition candidate_list_new : CandidateList := mkCandidateList INFINITY heap_new 0 0 0.

Definition drop_candidate (self : CandidateList) : CandidateList :=
  mkCandidateList (cut self) (queue self) (n_leaf self) (n_candidate self) (n_dropped self + 1).

Definition insert (self : CandidateList) (candidate : Candidate) : option CandidateList :=
  let self := mkCandidateList (cut self) (queue self) (n_leaf self) (n_candidate self + 1) (n_dropped self) in
  if SFltb (bound candidate) (cut self) then
    queue ← heap_push candidate (queue self);
    Some (mkCandidateList (cut self) queue (n_leaf self) (n_candidate self) (n_dropped self))
  else Some (drop_candidate self).

(** The loop of [update_cut]: the candidates at or above the cut are dropped, from the
    worst one. *)
Fixpoint drop_above (fuel : nat) (self : CandidateList) : option CandidateList :=
  match fuel with
  | 0 => None
  | S fuel =>
    match heap_max (queue self) with
    | Some x =>
      if SFleb (cut self) (bound x) then
        '(candidate, queue) ← heap_pop_max (queue self);
        _ ← candidate;
        drop_above fuel
          (drop_candidate (mkCandidateList (cut self) queue (n_leaf self) (n_candidate self) (n_dropped self)))
      else Some self
    | None => Some self
    end
  end.

Definition update_cut (self : CandidateList) (new_cut : f64) : option CandidateList :=
  drop_above (S (heap_len (queue self)))
    (mkCandidateList new_cut (queue self) (n_leaf self) (n_candidate self) (n_dropped self)).

Definition pop (self : CandidateList) : option (option Candidate * CandidateList) :=
  '(candidate, queue) ← heap_pop_min (queue self);
  Some (candidate, mkCandidateList (cut self) queue (n_leaf self) (n_candidate self) (n_dropped self)).

(** ** Under the lock

    The mutex protects the list and the number of workers that may still insert
    candidates. *)
Definition Locked : Type := CandidateList * nat.

Definition parallel_new (num_worker : nat) : Locked := (candidate_list_new, num_worker).

(** [insert_many]; the caller then wakes the waiting workers up. *)
Definition insert_many (candidates : list Candidate) (lock : Locked) : option Locked :=
  list ← foldM insert candidates lock.1;
  Some (list, lock.2).

Definition parallel_update_cut (new_cut : f64) (lock : Locked) : option Locked :=
  list ← update_cut lock.1 new_cut;
  Some (list, lock.2).

(** One turn of the loop of [pop]: a candidate, the end of the search, which the last
    worker announces to the others, or a wait on the condition variable. *)
Inductive PopTurn :=
| PopCandidate (candidate : Candidate)
| PopFinished
| PopWait.

Definition pop_turn (lock : Locked) : option (PopTurn * Locked) :=
  '(candidate, list) ← pop lock.1;
  match candidate with
  | Some candidate => Some (PopCandidate candidate, (list, lock.2))
  | None =>
    match lock.2 with
    | 0 => panic (* the subtraction overflows *)
    | 1 => Some (PopFinished, (list, 0))
    | S n => Some (PopWait, (list, n))
    end
  end.

(** ** Lemmas *)
Definition no_nan (c : Candidate) : Prop := is_nan (bound c) = false.

Context `{!IntervalHeapOk Candidate candidate_cmp no_nan}.

(** The queue only has candidates below the cut. *)
Definition list_ok (self : CandidateList) : Prop :=
  Forall (λ c, bound c < cut self)%f64 (heap_elements (queue self)).

Lemma below_no_nan c k : (bound c < k)%f64 → no_nan c.
Proof. intros (Hn & _)%f64_lt_key. done. Qed.

Lemma list_ok_no_nan self : list_ok self → Forall no_nan (heap_elements (queue self)).
Proof. intros Hl. eapply Forall_impl; [exact Hl|]. intros c. apply below_no_nan. Qed.

Lemma candidate_list_new_ok : list_ok candidate_list_new.
Proof. unfold list_ok. cbn. by rewrite heap_new_elements. Qed.

Lemma insert_spec self c :
  list_ok self →
  ∃ self', insert self c = Some self' ∧ list_ok self' ∧ cut self' = cut self ∧
    heap_elements (queue self') ≡ₚ
      (if SFltb (bound c) (cut self) then [c] else []) ++ heap_elements (queue self).
Proof.
  intros Hl. unfold insert. cbn [cut queue]. destruct (SFltb (bound c) (cut self)) eqn:E.
  - destruct (heap_push_elements c (queue self)) as (q & -> & Hq).
    { by eapply below_no_nan. }
    { by apply list_ok_no_nan. }
    eexists. split; [done|]. split; [|split; [done|exact Hq]].
    unfold list_ok. cbn. rewrite Hq. by constructor.
  - eexists. split; [done|]. by split_and!.
Qed.

Lemma inserts_spec self cs :
  list_ok self →
  ∃ self', foldM insert cs self = Some self' ∧ list_ok self' ∧ cut self' = cut self ∧
    heap_elements (queue self') ≡ₚ filter (λ c, SFltb (bound c) (cut self) = true) cs ++ heap_elements (queue self).
Proof.
  revert self. induction cs as [|c cs IH]; intros self Hl; [by exists self|]. cbn [foldM].
  destruct (insert_spec self c Hl) as (s1 & -> & Hl1 & Hc1 & He1). cbn [mbind option_bind].
  destruct (IH s1 Hl1) as (s2 & -> & Hl2 & Hc2 & He2). exists s2. split; [done|]. split; [done|].
  split; [congruence|]. rewrite He2, He1, Hc1, filter_cons. destruct (SFltb (bound c) (cut self)).
  - rewrite decide_True by done. cbn. by rewrite Permutation_middle.
  - by rewrite decide_False.
Qed.

(** [update_cut] keeps exactly the candidates below the new cut. *)
Lemma drop_above_spec fuel self :
  Forall no_nan (heap_elements (queue self)) → is_nan (cut self) = false →
  length (heap_elements (queue self)) < fuel →
  ∃ self', drop_above fuel self = Some self' ∧ list_ok self' ∧ cut self' = cut self ∧
    heap_elements (queue self') ≡ₚ filter (λ c, SFltb (bound c) (cut self) = true) (heap_elements (queue self)).
Proof.
  revert self. induction fuel as [|fuel IH]; intros self Hn Hc Hf; [lia|]. cbn [drop_above].
  destruct (heap_pop_max_elements _ Hn) as (o & q & Ep & Hq & Hnone & Hmax).
  destruct (heap_max_elements _ Hn) as (q' & Em). rewrite Ep in Em. injection Em as Eo ->. rewrite <-Eo.
  destruct o as [x|].
  - assert (no_nan x ∧ Forall no_nan (heap_elements q')) as [Hx Hn'].
    { rewrite Hq in Hn. by apply Forall_cons in Hn. }
    destruct (SFleb (cut self) (bound x)) eqn:E.
    + rewrite Ep. cbn [mbind option_bind]. set (s1 := drop_candidate _).
      destruct (IH s1) as (s' & E' & Hl' & Hc' & He').
      { exact Hn'. }
      { exact Hc. }
      { cbn. rewrite Hq in Hf. cbn in Hf. lia. }
      exists s'. split; [exact E'|]. split; [done|]. split; [done|]. rewrite He', Hq.
      change (option_list (Some x) ++ heap_elements q') with (x :: heap_elements q').
      rewrite filter_cons, decide_False; [done|]. intros Hlt. by apply f64_lt_not_le in Hlt.
    + exists self. split; [done|].
      assert (list_ok self) as Hl.
      { assert ((bound x < cut self)%f64) as Hxc.
        { destruct (SFltb (bound x) (cut self)) eqn:E2; [done|]. exfalso.
          assert (¬ (bound x < cut self)%f64) as H2 by congruence. apply f64_not_lt in H2; [congruence|done|done]. }
        unfold list_ok. rewrite Hq. constructor; [done|]. apply Forall_forall. intros y Hy.
        rewrite Forall_forall in Hn'. apply (f64_le_lt_trans _ (bound x)); [|done].
        apply f64_not_lt; [done|by apply Hn'|]. intros Hlt. apply (Hmax x y eq_refl Hy).
        unfold candidate_cmp, candidate_partial_cmp. rewrite SFcompare_antisym. unfold SFltb in Hlt.
        by destruct (SFcompare (bound x) (bound y)) as [[]|]. }
      split; [done|]. split; [done|]. rewrite filter_all; [done|]. by apply Forall_forall.
  - exists self. split; [done|]. split; [|split; [done|by rewrite (Hnone eq_refl)]]. unfold list_ok. by rewrite (Hnone eq_refl).
Qed.

Lemma update_cut_spec self k :
  list_ok self → is_nan k = false →
  ∃ self', update_cut self k = Some self' ∧ list_ok self' ∧ cut self' = k ∧
    heap_elements (queue self') ≡ₚ filter (λ c, SFltb (bound c) k = true) (heap_elements (queue self)).
Proof.
  intros Hl Hk. unfold update_cut. rewrite heap_len_elements.
  apply (drop_above_spec _ (mkCandidateList k (queue self) (n_leaf self) (n_candidate self) (n_dropped self)));
    [exact (list_ok_no_nan self Hl)|done|cbn; lia].
Qed.

Lemma pop_spec self :
  list_ok self →
  ∃ o self', pop self = Some (o, self') ∧ list_ok self' ∧ cut self' = cut self ∧
    heap_elements (queue self) ≡ₚ option_list o ++ heap_elements (queue self') ∧
    (o = None → heap_elements (queue self) = []).
Proof.
  intros Hl. unfold pop.
  destruct (heap_pop_min_elements (queue self)) as (o & q & -> & Hq & Hnone & _); [by apply list_ok_no_nan|].
  eexists o, _. split; [done|]. cbn [queue cut]. split_and!; [|done|done|done].
  unfold list_ok in *. cbn [queue cut]. rewrite Hq in Hl. by apply Forall_app in Hl as [_ Hl].
Qed.
End candidate_list.
Arguments CandidateList Space Act {_}.

(** ** A heap

    A list from which the extreme elements are extracted satisfies the contract. *)
Section list_heap.
Context {A : Type} (cmp : A → A → option comparison).

(** The first of the elements that is not after any other, for [flip] the last one. *)
Fixpoint extract (flip : bool) (x : A) (l : list A) : option (A * list A) :=
  match l with
  | [] => Some (x, [])
  | y :: l =>
    '(z, rest) ← extract flip y l;
    c ← (if flip then cmp z x else cmp x z);
    Some (match c with Gt => (z, x :: rest) | _ => (x, z :: rest) end)
  end.

Definition extract_list (flip : bool) (l : list A) : option (option A * list A) :=
  match l with
  | [] => Some (None, [])
  | x :: l => '(y, rest) ← extract flip x l; Some (Some y, rest)
  end.

#[local] Instance list_heap : IntervalHeap A := {|
  heap := list A;
  heap_new := [];
  heap_push x h := Some (x :: h);
  heap_pop_min h := extract_list false h;
  heap_pop_max h := extract_list true h;
  heap_max h := match extract_list true h with Some (o, _) => o | None => None end;
  heap_len h := length h;
  heap_elements h := h
|}.

Context (ok : A → Prop).
Hypothesis cmp_total : ∀ x y, ok x → ok y → ∃ c, cmp x y = Some c.
Hypothesis cmp_antisym : ∀ x y c, cmp x y = Some c → cmp y x = Some (CompOpp c).
Hypothesis cmp_trans : ∀ x y z, cmp x y ≠ Some Gt → cmp y z ≠ Some Gt → ok x → ok y → ok z → cmp x z ≠ Some Gt.

Lemma extract_spec flip x l :
  ok x → Forall ok l →
  ∃ y rest, extract flip x l = Some (y, rest) ∧ x :: l ≡ₚ y :: rest ∧
    ∀ z, z ∈ rest → (if flip then cmp z y else cmp y z) ≠ Some Gt.
Proof.
  revert x. induction l as [|y l IH]; intros x Hx Hl.
  { exists x, []. split; [done|]. split; [done|]. by intros z ?%elem_of_nil. }
  apply Forall_cons in Hl as [Hy Hl]. cbn [extract].
  destruct (IH y Hy Hl) as (z & rest & -> & Hp & Hz). cbn [mbind option_bind].
  assert (ok z ∧ Forall ok rest) as [Hoz Hor] by (apply Forall_cons; rewrite <-Hp; by constructor).
  rewrite Forall_forall in Hor.
  assert (∃ c, (if flip then cmp z x else cmp x z) = Some c) as [c Hc] by (destruct flip; by apply cmp_total).
  rewrite Hc. cbn [mbind option_bind].
  assert (∀ u, u ∈ rest → ok u ∧ (if flip then cmp u z else cmp z u) ≠ Some Gt) as Hu by (intros u Hu; split; [by apply Hor|by apply Hz]).
  destruct (decide (c = Gt)) as [->|Hne].
  - exists z, (x :: rest). split; [done|]. split; [rewrite Hp; apply perm_swap|].
    intros u [->|Hin]%elem_of_cons; [|by apply Hz].
    destruct flip; apply cmp_antisym in Hc; rewrite Hc; done.
  - exists x, (z :: rest). split; [by destruct c|]. split; [by rewrite Hp|].
    intros u [->|Hin]%elem_of_cons; [destruct flip; congruence|]. destruct (Hu u Hin) as [Hou Hzu].
    destruct flip; [apply (cmp_trans u z x)|apply (cmp_trans x z u)]; try done; congruence.
Qed.

Lemma extract_list_spec flip l :
  Forall ok l →
  ∃ o rest, extract_list flip l = Some (o, rest) ∧ l ≡ₚ option_list o ++ rest ∧ (o = None → l = []) ∧
    ∀ x y, o = Some x → y ∈ rest → (if flip then cmp y x else cmp x y) ≠ Some Gt.
Proof.
  intros Hl. destruct l as [|x l]; [by exists None, []|]. apply Forall_cons in Hl as [Hx Hl]. cbn [extract_list].
  destruct (extract_spec flip x l Hx Hl) as (y & rest & -> & Hp & Hy). cbn [mbind option_bind].
  exists (Some y), rest. split_and!; try done. by intros ? z [= <-]; apply Hy.
Qed.

Lemma list_heap_ok : IntervalHeapOk A cmp ok.
Proof.
  constructor; cbn.
  - done.
  - done.
  - intros x h _ _. by exists (x :: h).
  - intros h Hh. apply (extract_list_spec false h Hh).
  - intros h Hh. apply (extract_list_spec true h Hh).
  - intros h Hh. destruct (extract_list_spec true h Hh) as (o & rest & -> & _). by exists rest.
Qed.
End list_heap.

(** For candidates ordered by their bounds. *)
Section candidate_heap.
Context {Space Act : Type} `{SearchSpaceOps Space Act}.

Lemma candidate_cmp_le (x y : Candidate Space Act) :
  no_nan x → no_nan y → candidate_cmp x y ≠ Some Gt ↔ (bound x ≤ bound y)%f64.
Proof.
  intros Hx Hy. unfold candidate_cmp, candidate_partial_cmp, SFleb. rewrite SFcompare_key by done.
  by destruct (rcmp _ _).
Qed.

Lemma candidate_heap_ok : @IntervalHeapOk (Candidate Space Act) (list_heap candidate_cmp) candidate_cmp no_nan.
Proof.
  apply list_heap_ok.
  - intros x y Hx Hy. unfold candidate_cmp, candidate_partial_cmp. rewrite SFcompare_key by done. by eexists.
  - intros x y c. unfold candidate_cmp, candidate_partial_cmp. rewrite (SFcompare_antisym (bound x)). by intros ->.
  - intros x y z Hxy Hyz Hx Hy Hz. apply candidate_cmp_le in Hxy, Hyz; try done. apply candidate_cmp_le; [done|done|].
    by eapply f64_le_trans.
Qed.
End candidate_heap.
