(* ===== verification/Stabilizer.v ===== *)
(** * Stabilised evaluations (src/src/device/context.rs)

    [Stabilizer] and [StableEvaluator]: a kernel is run several times to average its
    runtime, unless its bound or its first run rules it out.  A kernel is a state and the
    function that runs it once. *)
From S2P Require Import Prelude Types Utils Orders Float64.
From Stdlib Require Import Floats.SpecFloat.

(** ** Sorting

    [slice::sort_by] on a short slice: from the last element to the first, each element
    moves past the ones that are less than it. *)
Section sorting.
Context {A : Type} (is_less : A → A → option bool).

Fixpoint insert_head (x : A) (l : list A) : option (list A) :=
  match l with
  | [] => Some [x]
  | y :: l =>
    b ← is_less y x;
    if (b : bool) then cons y <$> insert_head x l else Some (x :: y :: l)
  end.

Fixpoint sort_by (l : list A) : option (list A) :=
  match l with
  | [] => Some []
  | x :: l => l ← sort_by l; insert_head x l
  end.

Lemma insert_head_perm x l l' : insert_head x l = Some l' → l' ≡ₚ x :: l.
Proof.
  revert l'. induction l as [|y l IH]; intros l'; cbn; [by intros [= <-]|].
  destruct (is_less y x) as [[]|]; cbn; [|by intros [= <-]|done].
  destruct (insert_head x l) as [k|]; [|done]. intros [= <-]. rewrite (IH k) by done. apply perm_swap.
Qed.

Lemma sort_by_perm l l' : sort_by l = Some l' → l' ≡ₚ l.
Proof.
  revert l'. induction l as [|x l IH]; intros l'; cbn; [by intros [= <-]|].
  destruct (sort_by l) as [k|]; [|done]. cbn. intros H%insert_head_perm. by rewrite H, (IH k).
Qed.
End sorting.

Definition f64_less (a b : f64) : option bool := (λ c, bool_decide (c = Lt)) <$> cmp_f64 a b.

(** The conversion [as usize] of a float saturates. *)
Definition f64_as_usize (a : f64) : Z :=
  let max := (2 ^ 64 - 1)%Z in
  match a with
  | S754_infinity false => max
  | S754_finite false m e => Z.min max (if (0 <=? e)%Z then Z.shiftl (Z.pos m) e else Z.shiftr (Z.pos m) (- e))
  | _ => 0%Z
  end.

(** ** The stabilizer *)
Record Stabilizer := mkStabilizer {
  skip_bad_candidates : bool;
  skip_threshold : f64;
  num_evals : nat;
  num_outliers : nat
}.

Definition stabilizer_default : Stabilizer := mkStabilizer false (f64_of_Z 3) 1 0.

Definition with_skip_bad_candidates (self : Stabilizer) (skip : bool) : Stabilizer :=
  mkStabilizer skip (skip_threshold self) (num_evals self) (num_outliers self).
Definition with_skip_threshold (self : Stabilizer) (threshold : f64) : Stabilizer :=
  mkStabilizer (skip_bad_candidates self) threshold (num_evals self) (num_outliers self).
Definition with_num_evals (self : Stabilizer) (n : nat) : Stabilizer :=
  mkStabilizer (skip_bad_candidates self) (skip_threshold self) n (num_outliers self).
Definition with_num_outliers (self : Stabilizer) (n : nat) : Stabilizer :=
  mkStabilizer (skip_bad_candidates self) (skip_threshold self) (num_evals self) n.

Section evaluate.
Context {K : Type} (kernel_evaluate : K → option f64 * K).

(** The runs stop at the first one that fails. *)
Fixpoint run_times (n : nat) (k : K) : option (list f64) * K :=
  match n with
  | 0 => (Some [], k)
  | S n =>
    match kernel_evaluate k with
    | (None, k) => (None, k)
    | (Some t, k) => let '(ts, k) := run_times n k in (cons t <$> ts, k)
    end
  end.

Definition f64_sum (l : list f64) : f64 := foldl f64_add (S754_zero false) l.

(** The average of the samples that are the closest to the median. *)
Definition stable_average (num_evals num_samples : nat) (runtimes : list f64) : option f64 :=
  runtimes_by_value ← sort_by f64_less runtimes;
  median ← runtimes_by_value !! (num_evals / 2);
  runtimes_by_delta ←
    sort_by (λ lhs rhs, f64_less (SFabs (f64_sub lhs median)) (SFabs (f64_sub rhs median))) runtimes_by_value;
  _ ← rassert (num_samples <=? length runtimes_by_delta);
  Some (f64_div (f64_sum (take num_samples runtimes_by_delta)) (f64_of_Z (Z.of_nat num_samples))).

(** The runs that are averaged, after the checks. *)
Definition stable_runs (self : Stabilizer) (num_evals : nat) (k : K) : option (option f64 * K) :=
  let num_samples := 1 `max` (num_evals - num_outliers self) in
  match run_times num_evals k with
  | (None, k) => Some (None, k)
  | (Some runtimes, k) => average ← stable_average num_evals num_samples runtimes; Some (Some average, k)
  end.

(** [StableEvaluator::evaluate]. *)
Definition stable_evaluate (self : Stabilizer) (bound best : option f64) (k : K) : option (option f64 * K) :=
  if skip_bad_candidates self then
    match bound with
    | Some bound =>
      if match best with Some best => SFleb best bound | None => false end then Some (Some INFINITY, k) else
      match kernel_evaluate k with
      | (None, k) => Some (None, k)
      | (Some t0, k) =>
        if SFleb bound (f64_mul t0 (skip_threshold self)) then Some (Some t0, k)
        else
          stable_runs self
            (1 `max` Z.to_nat (Z.min (Z.of_nat (num_evals self)) (f64_as_usize (f64_div (f64_of_Z 1000000000) t0)))) k
      end
    | None => stable_runs self (num_evals self) k
    end
  else stable_runs self (num_evals self) k.

(** The result when the bound is below the first run, up to the threshold. *)
Lemma stable_evaluate_first self b best k t0 k' :
  skip_bad_candidates self = true → kernel_evaluate k = (Some t0, k') → (b ≤ f64_mul t0 (skip_threshold self))%f64 →
  stable_evaluate self (Some b) best k =
    Some (if match best with Some best => SFleb best b | None => false end then (Some INFINITY, k) else (Some t0, k')).
Proof.
  intros Hs Hk Hb. unfold stable_evaluate. rewrite Hs, Hk, Hb. by destruct (match best with Some _ => _ | None => _ end).
Qed.

(** The stabilizer of the explorer (which skips bad candidates) never averages a
    kernel whose bound is sound: whatever the number of evaluations asked for and however
    far the first run is from the best time known, a first run that, times the threshold,
    reaches the bound of the candidate is the result, after this one run; a candidate
    whose bound is not below the best time is given up without a run. *)
Theorem stabilizer_never_averages self (b t0 : f64) (best : option f64) (k k' : K) n outliers :
  kernel_evaluate k = (Some t0, k') → (b ≤ f64_mul t0 (skip_threshold self))%f64 →
  let self := with_num_outliers (with_num_evals (with_skip_bad_candidates self true) n) outliers in
  stable_evaluate self (Some b) best k =
    Some (if match best with Some best => SFleb best b | None => false end then (Some INFINITY, k) else (Some t0, k')).
Proof. intros Hk Hb. by apply stable_evaluate_first. Qed.
End evaluate.

(** A kernel whose runs take longer and longer, with ten runs asked for: the first run is
    below the best time known, and still is the only one. *)
Lemma stabilizer_never_averages_witness :
  let run (k : Z) := (Some (f64_of_Z k), (k + 1)%Z) in
  run 5%Z = (Some (f64_of_Z 5), 6%Z) ∧ (f64_of_Z 4 ≤ f64_mul (f64_of_Z 5) (f64_of_Z 3))%f64 ∧
  stable_evaluate run (with_num_outliers (with_num_evals (with_skip_bad_candidates stabilizer_default true) 10) 2)
    (Some (f64_of_Z 4)) (Some (f64_of_Z 100)) 5%Z = Some (Some (f64_of_Z 5), 6%Z).
Proof.
  cbn zeta. split; [reflexivity|]. split; [vm_compute; reflexivity|].
  etrans; [apply (stabilizer_never_averages _ stabilizer_default _ (f64_of_Z 5) _ _ 6%Z); vm_compute; reflexivity|].
  vm_compute. reflexivity.
Defined.

(** Without a bound the runs are averaged: the outlier is left out. *)
Example stable_evaluate_average :
  let run (k : Z) := (Some (f64_of_Z (if (k =? 2)%Z then 1000 else 4)), (k + 1)%Z) in
  stable_evaluate run (with_num_outliers (with_num_evals stabilizer_default 5) 1) None None 0%Z =
    Some (Some (f64_of_Z 4), 5%Z).
Proof. vm_compute. reflexivity. Qed.
