(* ===== verification/Monitor.v ===== *)
(** * Evaluations and the monitor (src/src/explorer/monitor.rs, store.rs and mod.rs)

    The interface of the stores of candidates, the callback that evaluates an
    implementation, and the thread that receives the evaluations, keeps the best one and
    updates the cut of the store.  Timeouts and logging are not modelled. *)
From S2P Require Import Prelude Types Utils Orders Float64 Config Candidates.
From Stdlib Require Import Floats.SpecFloat.

(** ** Stores

    The operations that the monitor calls on a store of candidates; they may panic. *)
Class Store (Space Act T PayLoad : Type) := {
  store_update_cut : f64 → T → option T;
  store_commit_evaluation : list (ActionEx Act) → PayLoad → f64 → T → option T;
  store_stop_exploration : T → option T
}.

Definition f64_zero : f64 := S754_zero false.

(** The default [stop_exploration]. *)
Definition default_stop_exploration {T : Type} (update_cut : f64 → T → option T) (store : T) : option T :=
  update_cut f64_zero store.

Section monitor.
Context {Space Act : Type} `{SearchSpaceOps Space Act}.
Notation Candidate := (Candidate Space Act).

(** ** Evaluating an implementation

    The callback of [explore_space].  The evaluator measures the kernel, or gives up; a
    result that may become the best one is checked. *)
Definition opt_ltb (a b : option f64) : bool :=
  match a, b with
  | Some a, Some b => SFltb a b
  | None, Some _ => true
  | _, None => false
  end.

Definition evaluate_leaf (config : Config) (check_result_fn : option (Candidate → bool))
    (leaf : Candidate) (measured : option f64) (best : option f64) : f64 * option f64 :=
  let eval := default INFINITY measured in
  let eval :=
    match check_result_fn with
    | Some check =>
      if is_finite eval && (check_all config || bool_decide (best = None) || opt_ltb (Some eval) best) then
        if check leaf then eval else INFINITY
      else eval
    | None => eval
    end in
  (eval, if is_finite eval && (bool_decide (best = None) || opt_ltb (Some eval) best) then Some eval else best).

(** ** The monitor *)
Inductive TerminationReason := MaxEvaluations | Timeout.

Record Status := mkStatus {
  best_candidate : option (Candidate * f64);
  num_evaluations : nat
}.

Definition status_default : Status := mkStatus None 0.

(** The new cut after an evaluation; it is 0 to stop the search. *)
Definition get_new_cut (config : Config) (eval : f64) : f64 :=
  if match stop_bound config with Some bound => SFltb eval bound | None => false end then f64_zero
  else match distance_to_best config with
       | Some ratio => f64_mul (f64_sub (f64_of_Z 1) (f64_div ratio (f64_of_Z 100))) eval
       | None => eval
       end.

Context {T PayLoad : Type} `{Store Space Act T PayLoad}.

Definition is_new_best (status : Status) (eval : f64) : bool :=
  match best_candidate status with Some (_, time) => SFltb eval time | None => true end.

Definition handle_message (config : Config) (message : Candidate * f64 * PayLoad) (store : T) (status : Status)
  : option (result unit TerminationReason * T * Status) :=
  let '(cand, eval, payload) := message in
  store ← store_commit_evaluation (actions cand) payload eval store;
  let change := is_new_best status eval in
  store ← (if change then store_update_cut (get_new_cut config eval) store else Some store);
  let status := if change then mkStatus (Some (cand, eval)) (num_evaluations status) else status in
  if is_infinite eval then Some (ROk (), store, status)
  else
    let status := mkStatus (best_candidate status) (num_evaluations status + 1) in
    match max_evaluations config with
    | Some max =>
      if max <=? num_evaluations status then Some (RErr MaxEvaluations, store, status)
      else Some (ROk (), store, status)
    | None => Some (ROk (), store, status)
    end.

(** The end of [monitor]: an early termination stops the exploration of the store. *)
Definition monitor_result (r : result unit TerminationReason) (store : T) : option T :=
  match r with ROk _ => Some store | RErr _ => store_stop_exploration store end.
End monitor.
Arguments Status Space Act : clear implicits.
