(* ===== verification/ParallelSearch.v ===== *)
(** * The exhaustive search with several workers

    [find_best_ex] with the algorithm [BoundOrder] (src/src/explorer/mod.rs): the workers
    of [explore_space] call [ParallelCandidateList::explore] (parallel_list.rs), the
    evaluator measures what they find, and the monitor prunes the list.  A step is what a
    thread does between two releases of the lock. *)
From S2P Require Import Prelude Types Utils Orders Float64 Config Candidates CandidateList Monitor.
From Stdlib Require Import Floats.SpecFloat.

Section search.
Context {Space Act : Type} `{SearchSpaceOps Space Act} `{IntervalHeap (Candidate Space Act)}.
Notation Candidate := (Candidate Space Act).
Notation Locked := (@Locked Space Act _).

(** ** The store *)
#[export] Instance parallel_list_store : Store Space Act Locked unit := {|
  store_update_cut := parallel_update_cut;
  store_commit_evaluation _ _ _ l := Some l;
  store_stop_exploration := default_stop_exploration parallel_update_cut
|}.

(** ** Workers

    A worker is about to call [explore] or has just inserted candidates ([WReady]); it
    waits on the condition variable, or was notified and waits for the lock; it holds a
    candidate; [explore] has returned an implementation to it, or nothing. *)
Inductive Worker :=
| WReady
| WWaiting
| WWoken
| WHolding (candidate : Candidate)
| WReturned (candidate : Candidate)
| WDone.

Definition after_pop (x : PopTurn * Locked) : Worker * Locked * bool :=
  match x.1 with
  | PopCandidate c => (WHolding c, x.2, false)
  | PopFinished => (WDone, x.2, true)
  | PopWait => (WWaiting, x.2, false)
  end.

(** What a worker does next, and whether it notifies the others: a turn of the loop of
    [pop], which counts the worker again when it was waiting; a turn of the loop of
    [explore] with the candidate; the submission of an implementation. *)
Definition worker_turn (w : Worker) (lock : Locked) : option (Worker * Locked * bool) :=
  match w with
  | WReady => after_pop <$> pop_turn lock
  | WWoken => after_pop <$> pop_turn (lock.1, lock.2 + 1)
  | WHolding c =>
    match default_list (space c) with
    | choice :: _ => lock ← insert_many (apply_choice c choice) lock; Some (WReady, lock, true)
    | [] => Some (WReturned c, lock, false)
    end
  | WReturned c => Some (WReady, lock, false)
  | WWaiting | WDone => Some (w, lock, false)
  end.

Definition can_run (w : Worker) : bool :=
  match w with WWaiting | WDone => false | _ => true end.

(** [Condvar::notify_all]. *)
Definition wake (w : Worker) : Worker := match w with WWaiting => WWoken | _ => w end.

Definition notify_all (ws : list Worker) : list Worker := wake <$> ws.

(** ** The whole search

    The list and its lock, the workers, the results of [explore] so far, the
    implementations submitted to the evaluator, the best time it measured, the messages
    on their way to the monitor, what the monitor knows, and whether it still listens. *)
Record Search := mkSearch {
  lock : Locked;
  workers : list Worker;
  explored : list Candidate;
  evaluating : list Candidate;
  best_time : option f64;
  channel : list (Candidate * f64);
  status : Status Space Act;
  listening : bool
}.

Definition search_start (config : Config) (candidates : list Candidate) : option Search :=
  lock ← insert_many candidates (parallel_new (num_workers config));
  Some (mkSearch lock (replicate (num_workers config) WReady) [] [] None [] status_default true).

(** The results of the evaluator, given the best time it knows. *)
Context (config : Config) (check_result_fn : option (Candidate → bool)).
Context (measures : Candidate → option f64 → option f64 → Prop).

Definition turn_explored (w : Worker) (s : Search) : list Candidate :=
  match w with
  | WHolding c => if is_leaf c then c :: explored s else explored s
  | _ => explored s
  end.

(** A step of a worker; the implementations it is given are prepared and submitted. *)
Definition worker_step (i : nat) (s : Search) : option Search :=
  w ← workers s !! i;
  '(w', lock, notify) ← worker_turn w (lock s);
  let ws := <[i := w']> (workers s) in
  evaluating ← match w with
               | WReturned c => c ← prepare c; Some (c :: evaluating s)
               | _ => Some (evaluating s)
               end;
  Some (mkSearch lock (if (notify : bool) then notify_all ws else ws) (turn_explored w s) evaluating
    (best_time s) (channel s) (status s) (listening s)).

(** An evaluation: the message is sent while the best time is locked. *)
Definition evaluate_step (leaf : Candidate) (rest : list Candidate) (measured : option f64) (s : Search) : Search :=
  let '(eval, best) := evaluate_leaf config check_result_fn leaf measured (best_time s) in
  mkSearch (lock s) (workers s) (explored s) rest best (channel s ++ [(leaf, eval)]) (status s) (listening s).

(** The monitor handles the first message; messages are lost once it has stopped. *)
Definition monitor_step (s : Search) : option Search :=
  match channel s with
  | [] => None
  | (leaf, eval) :: channel =>
    if listening s then
      '(r, lock, status) ← handle_message config (leaf, eval, tt) (lock s) (status s);
      lock ← monitor_result r lock;
      Some (mkSearch lock (workers s) (explored s) (evaluating s) (best_time s) channel status (is_ok r))
    else Some (mkSearch (lock s) (workers s) (explored s) (evaluating s) (best_time s) channel (status s) false)
  end.

Definition spurious_step (i : nat) (s : Search) : Search :=
  mkSearch (lock s) (<[i := WWoken]> (workers s)) (explored s) (evaluating s) (best_time s) (channel s)
    (status s) (listening s).

(** The steps, and the wakeups that no thread asked for. *)
Inductive search_step : Search → Search → Prop :=
| StepWorker i w s s' : workers s !! i = Some w → can_run w = true → worker_step i s = Some s' → search_step s s'
| StepEvaluate leaf rest measured s :
  evaluating s ≡ₚ leaf :: rest → measures leaf (best_time s) measured →
  search_step s (evaluate_step leaf rest measured s)
| StepMonitor s s' : monitor_step s = Some s' → search_step s s'.

Inductive spurious_wakeup : Search → Search → Prop :=
| SpuriousWakeup i s : workers s !! i = Some WWaiting → spurious_wakeup s (spurious_step i s).

Inductive any_step (s s' : Search) : Prop :=
| AnyStep : search_step s s' → any_step s s'
| AnyWakeup : spurious_wakeup s s' → any_step s s'.

Definition reachable (s0 s : Search) : Prop := rtc any_step s0 s.

Definition search_done (s : Search) : Prop :=
  Forall (eq WDone) (workers s) ∧ evaluating s = [] ∧ channel s = [].
End search.
Arguments Worker : clear implicits.
Arguments Search : clear implicits.
