(* ===== verification/SearchExample.v ===== *)
(** * An example of a search

    A search space with three implementations, and runs of the search given by a
    schedule: the tests that the theorems on the search apply. *)
From S2P Require Import Prelude Types Utils Orders Float64 Config Candidates CandidateList Stabilizer Monitor ParallelSearch.
From Stdlib Require Import Floats.SpecFloat.

(** ** Schedules *)
Inductive Turn :=
| DoWorker (i : nat)
| DoWakeup (i : nat)
| DoEvaluate
| DoMonitor.

Section schedule.
Context {Space Act : Type} `{SearchSpaceOps Space Act} `{IntervalHeap (Candidate Space Act)}.
Notation Candidate := (Candidate Space Act).
Notation Search := (Search Space Act _).
Context (config : Config) (check_result_fn : option (Candidate → bool)).
Context (measure : Candidate → option f64 → option (option f64)).

Definition perform (t : Turn) (s : Search) : option Search :=
  match t with
  | DoWorker i =>
    w ← workers s !! i;
    if can_run w then worker_step i s else None
  | DoWakeup i =>
    w ← workers s !! i;
    match w with WWaiting => Some (spurious_step i s) | _ => None end
  | DoEvaluate =>
    match evaluating s with
    | [] => None
    | leaf :: rest => m ← measure leaf (best_time s); Some (evaluate_step config check_result_fn leaf rest m s)
    end
  | DoMonitor => monitor_step config s
  end.

Definition performs (ts : list Turn) (s : Search) : option Search := foldl (λ s t, s ← s; perform t s) (Some s) ts.

Definition is_done (s : Search) : bool :=
  forallb (λ w, match w with WDone => true | _ => false end) (workers s) &&
  match evaluating s, channel s with [], [] => true | _, _ => false end.

Lemma is_done_ok s : is_done s = true → search_done s.
Proof.
  unfold is_done, search_done. rewrite andb_true_iff, forallb_forall. intros [Hw He].
  destruct (evaluating s), (channel s); try done. split; [|done]. apply Forall_forall.
  intros w Hin%list_elem_of_In. specialize (Hw w Hin). by destruct w.
Qed.

Context (measures : Candidate → option f64 → option f64 → Prop).
Hypothesis measure_ok : ∀ c best m, measure c best = Some m → measures c best m.

Lemma perform_step t s s' :
  perform t s = Some s' →
  search_step config check_result_fn measures s s' ∨ spurious_wakeup s s' ∧ ∃ i, t = DoWakeup i.
Proof.
  destruct t as [i|i| |]; cbn [perform].
  - destruct (workers s !! i) as [w|] eqn:Ew; [|done]. cbn [mbind option_bind]. destruct (can_run w) eqn:Er; [|done].
    intros E. left. by eapply StepWorker.
  - destruct (workers s !! i) as [[]|] eqn:Ew; try done. cbn [mbind option_bind]. intros [= <-]. right.
    split; [by apply SpuriousWakeup|by exists i].
  - destruct (evaluating s) as [|leaf rest] eqn:Ee; [done|].
    destruct (measure leaf (best_time s)) as [m|] eqn:Em; [|done]. cbn [mbind option_bind]. intros [= <-]. left.
    apply StepEvaluate; [by rewrite Ee|by apply measure_ok].
  - intros E. left. by apply StepMonitor.
Qed.

Lemma performs_snoc ts t s : performs (ts ++ [t]) s = s ← performs ts s; perform t s.
Proof. unfold performs. by rewrite foldl_app. Qed.

Lemma performs_reachable ts s s' :
  performs ts s = Some s' → reachable config check_result_fn measures s s'.
Proof.
  revert s'. induction ts as [|t ts IH] using rev_ind; intros s'; [intros [= <-]; apply rtc_refl|].
  rewrite performs_snoc. destruct (performs ts s) as [s1|]; [|done]. cbn [mbind option_bind]. intros E.
  eapply rtc_r; [by apply IH|]. apply perform_step in E as [E|[E _]]; [by left|by right].
Qed.
End schedule.

(** ** A small search space

    The root has one choice; one of the actions is not valid, and one of the two
    implementations left is the fastest. *)
Inductive Small := SmallRoot | SmallLeft | SmallMiddle | SmallRight.

#[export] Instance small_ops : SearchSpaceOps Small nat := {|
  apply_decisions l s :=
    match s, l with
    | SmallRoot, [0] => (SmallLeft, ROk ())
    | SmallRoot, [1] => (SmallRoot, RErr ())
    | SmallRoot, [2] => (SmallMiddle, ROk ())
    | SmallRoot, [3] => (SmallRight, ROk ())
    | s, _ => (s, RErr ())
    end;
  lower_layout _ _ _ s := (s, RErr ());
  choice_list _ s :=
    match s with
    | SmallRoot => [[RegularAction 0; RegularAction 1; RegularAction 2; RegularAction 3]]
    | _ => []
    end;
  fix_order s := Some s;
  space_bound s := f64_of_Z (match s with SmallRoot => 1 | SmallLeft => 4 | SmallMiddle => 1 | SmallRight => 2 end)
|}.

#[export] Instance small_heap : IntervalHeap (Candidate Small nat) := list_heap candidate_cmp.

#[export] Instance small_heap_ok : IntervalHeapOk (Candidate Small nat) candidate_cmp no_nan := candidate_heap_ok.

Definition small_height (s : Small) : nat := match s with SmallRoot => 1 | _ => 0 end.

Lemma small_narrows : narrows small_height.
Proof.
  intros s choice a s' Hc Ha. destruct s; try by apply elem_of_nil in Hc.
  apply list_elem_of_singleton in Hc as ->. repeat (apply elem_of_cons in Ha as [->|Ha]; [cbn; intros E; simplify_eq; cbn; lia|]).
  by apply elem_of_nil in Ha.
Qed.

(** The second implementation is slow, and the third one invalid. *)
Definition small_time (s : Small) : f64 :=
  f64_of_Z (match s with SmallRoot => 1 | SmallLeft => 5 | SmallMiddle => 9 | SmallRight => 3 end).

Definition small_run (k : Small) : option f64 * Small := (Some (small_time k), k).

Definition small_check (c : Candidate Small nat) : bool :=
  match space c with SmallRight => false | _ => true end.

Definition small_config : Config := mkConfig 2 None false None None None BoundOrder.

Definition small_root : Candidate Small nat := candidate_new SmallRoot (space_bound SmallRoot).

(** The stabilizer of the explorer measures the kernels. *)
Definition small_stabilizer : Stabilizer := with_skip_bad_candidates stabilizer_default true.

Definition small_measure (c : Candidate Small nat) (best : option f64) : option (option f64) :=
  fst <$> stable_evaluate small_run small_stabilizer (Some (bound c)) best (space c).

Definition small_measures (c : Candidate Small nat) (best m : option f64) : Prop := small_measure c best = Some m.

(** A whole search with two workers; one of them is woken up for no reason. *)
Definition small_schedule : list Turn :=
  [DoWorker 1; DoWorker 0; DoWakeup 0; DoWorker 0; DoWorker 1; DoWorker 1; DoWorker 1; DoWorker 1; DoWorker 1; DoWorker 0;
   DoWorker 0; DoEvaluate; DoWorker 1; DoWorker 1; DoWorker 1; DoWorker 0; DoWorker 0; DoMonitor; DoEvaluate;
   DoEvaluate; DoWorker 1; DoMonitor; DoMonitor].

Lemma small_search :
  ∃ s0 s, search_start small_config [small_root] = Some s0 ∧
    performs small_config (Some small_check) small_measure small_schedule s0 = Some s ∧ is_done s = true.
Proof.
  assert (match search_start small_config [small_root] with
          | Some s0 =>
            match performs small_config (Some small_check) small_measure small_schedule s0 with
            | Some s => is_done s
            | None => false
            end
          | None => false
          end = true) as Hrun by (vm_compute; reflexivity).
  destruct (search_start _ _) as [s0|]; [|done]. exists s0.
  destruct (performs _ _ _ _ _) as [s|]; [|done]. by exists s.
Qed.

Lemma is_done_workers (s : Search Small nat _) i w : is_done s = true → workers s !! i = Some w → WDone ∈ workers s.
Proof.
  intros (Hd & _)%is_done_ok Hi. rewrite Forall_forall in Hd. pose proof (Hd w (list_elem_of_lookup_2 _ _ _ Hi)) as <-.
  by eapply list_elem_of_lookup_2.
Qed.

Lemma small_times (c : Candidate Small nat) t : (small_run (space c)).1 = Some t → is_finite t = true ∧ (t ≤ f64_mul t (skip_threshold small_stabilizer))%f64.
Proof. intros [= <-]. by destruct (space c); split. Qed.

(** Whatever its bound, a kernel gives a runtime. *)
Lemma small_measure_total c best : ∃ m, small_measure c best = Some m ∧ is_nan (default INFINITY m) = false.
Proof.
  unfold small_measure, stable_evaluate. change (skip_bad_candidates small_stabilizer) with true. cbn match.
  destruct (match best with Some _ => _ | None => _ end); [by eexists|].
  destruct c as [s b d l]. cbn [space bound small_run].
  destruct (SFleb b _); [by eexists; split; [|destruct s]|].
  destruct s; eexists; (split; [vm_compute; reflexivity|reflexivity]).
Qed.
