(* ===== verification/ParallelFacts.v ===== *)
(** * The exhaustive search: what it explores

    The invariant of the search: which candidates are still to be explored and by whom,
    and how many workers are counted. *)
From S2P Require Import Prelude Types Utils Orders Float64 Config Candidates CandidateList Stabilizer Monitor ParallelSearch SearchExample.
From Stdlib Require Import Floats.SpecFloat.

Section facts.
Context {Space Act : Type} `{SearchSpaceOps Space Act} `{IntervalHeap (Candidate Space Act)}.
Context `{!IntervalHeapOk (Candidate Space Act) candidate_cmp no_nan}.
Notation Candidate := (Candidate Space Act).
Notation Locked := (@Locked Space Act _).
Notation Worker := (Worker Space Act).
Notation Search := (Search Space Act _).

Definition active (w : Worker) : nat :=
  match w with WReady | WHolding _ | WReturned _ => 1 | _ => 0 end.

Definition held (w : Worker) : option Candidate := match w with WHolding c => Some c | _ => None end.

(** The candidates still to be explored. *)
Definition pending (s : Search) : list Candidate :=
  heap_elements (queue (lock s).1) ++ omap held (workers s).

(** ** One turn *)
Lemma pop_turn_spec (l : Locked) :
  list_ok l.1 → 1 ≤ l.2 →
  ∃ t l', pop_turn l = Some (t, l') ∧ list_ok l'.1 ∧ cut l'.1 = cut l.1 ∧
    match t with
    | PopCandidate c => heap_elements (queue l.1) ≡ₚ c :: heap_elements (queue l'.1) ∧ l'.2 = l.2
    | PopFinished => heap_elements (queue l.1) = [] ∧ heap_elements (queue l'.1) = [] ∧ l.2 = 1 ∧ l'.2 = 0
    | PopWait => heap_elements (queue l.1) = [] ∧ heap_elements (queue l'.1) = [] ∧ l.2 = S l'.2 ∧ 1 ≤ l'.2
    end.
Proof.
  destruct l as [l n]. cbn. intros Hl Hn. unfold pop_turn. cbn [fst snd].
  destruct (pop_spec l Hl) as (o & l' & -> & Hl' & Hc & He & Hnone). cbn [mbind option_bind].
  destruct o as [c|].
  - eexists _, _. split; [done|]. by split_and!.
  - specialize (Hnone eq_refl). rewrite Hnone in He. apply Permutation_nil_l in He. cbn in He.
    destruct n as [|[|n]]; [lia| |]; eexists _, _; (split; [done|]); cbn; split_and!; try done; lia.
Qed.

Lemma insert_many_spec cs (l : Locked) :
  list_ok l.1 →
  ∃ l', insert_many cs l = Some l' ∧ list_ok l'.1 ∧ cut l'.1 = cut l.1 ∧ l'.2 = l.2 ∧
    heap_elements (queue l'.1) ≡ₚ filter (λ c, SFltb (bound c) (cut l.1) = true) cs ++ heap_elements (queue l.1).
Proof.
  intros Hl. unfold insert_many. destruct (inserts_spec l.1 cs Hl) as (l' & -> & Hl' & Hc & He).
  eexists. split; [done|]. by split_and!.
Qed.

(** What a turn of a worker does to the candidates: the ones before, the ones after, and
    the implementation that [explore] returns. *)
Inductive turn_effect (w : Worker) (l : Locked) : Worker → Locked → bool → Prop :=
| TurnPop c l' : w = WReady ∨ w = WWoken → heap_elements (queue l.1) ≡ₚ c :: heap_elements (queue l'.1) →
    l'.2 = l.2 + 1 - active w → turn_effect w l (WHolding c) l' false
| TurnEnd l' : w = WReady ∨ w = WWoken → heap_elements (queue l.1) = [] → heap_elements (queue l'.1) = [] →
    l.2 = active w → l'.2 = 0 → turn_effect w l WDone l' true
| TurnWait l' : w = WReady ∨ w = WWoken → heap_elements (queue l.1) = [] → heap_elements (queue l'.1) = [] →
    l.2 = l'.2 + active w → 1 ≤ l'.2 → turn_effect w l WWaiting l' false
| TurnExpand c l' : w = WHolding c → is_leaf c = false →
    heap_elements (queue l'.1) ≡ₚ filter (λ c, SFltb (bound c) (cut l.1) = true) (children c) ++ heap_elements (queue l.1) →
    l'.2 = l.2 → turn_effect w l WReady l' true
| TurnLeaf c : w = WHolding c → is_leaf c = true → turn_effect w l (WReturned c) l false
| TurnSubmit c : w = WReturned c → turn_effect w l WReady l false.

Lemma worker_turn_effect w (l : Locked) :
  list_ok l.1 → (w = WReady → 1 ≤ l.2) → can_run w = true →
  ∃ w' l' n, worker_turn w l = Some (w', l', n) ∧ list_ok l'.1 ∧ cut l'.1 = cut l.1 ∧ turn_effect w l w' l' n.
Proof.
  intros Hl Hn Hr. destruct w as [| | |c|c|]; try done; cbn [worker_turn].
  - destruct (pop_turn_spec l Hl (Hn eq_refl)) as (t & l' & -> & Hl' & Hc & Ht).
    destruct t as [c| |]; eexists _, _, _; (split; [done|]); (split; [done|]); (split; [done|]).
    + destruct Ht. apply TurnPop; [by left|done|cbn; lia].
    + destruct Ht as (? & ? & ? & ?). apply TurnEnd; [by left|done|done|done|done].
    + destruct Ht as (? & ? & ? & ?). apply TurnWait; [by left|done|done|cbn; lia|done].
  - destruct (pop_turn_spec (l.1, l.2 + 1) Hl) as (t & l' & -> & Hl' & Hc & Ht); [cbn; lia|]. cbn [fst snd] in *.
    destruct t as [c| |]; eexists _, _, _; (split; [done|]); (split; [done|]); (split; [done|]).
    + destruct Ht. apply TurnPop; [by right|done|cbn; lia].
    + destruct Ht as (? & ? & ? & ?). apply TurnEnd; [by right|done|done|cbn; lia|done].
    + destruct Ht as (? & ? & ? & ?). apply TurnWait; [by right|done|done|cbn; lia|done].
  - destruct (default_list (space c)) as [|choice rest] eqn:E.
    + eexists _, _, _. split; [done|]. split; [done|]. split; [done|]. apply TurnLeaf; [done|]. unfold is_leaf. by rewrite E.
    + destruct (insert_many_spec (apply_choice c choice) l Hl) as (l' & -> & Hl' & Hc & H2 & He). cbn [mbind option_bind].
      eexists _, _, _. split; [done|]. split; [done|]. split; [done|]. eapply TurnExpand; [done| | |done].
      * unfold is_leaf. by rewrite E.
      * unfold children. by rewrite E.
  - eexists _, _, _. split; [done|]. split; [done|]. split; [done|]. by eapply TurnSubmit.
Qed.

(** ** Notifications change neither the count nor the candidates *)
Lemma wake_active (ws : list Worker) : sum_list_with active (notify_all ws) = sum_list_with active ws.
Proof. unfold notify_all. induction ws as [|w ws IH]; [done|]. cbn. rewrite IH. by destruct w. Qed.

Lemma wake_held (ws : list Worker) : omap held (notify_all ws) = omap held ws.
Proof. unfold notify_all. induction ws as [|w ws IH]; [done|]. cbn. rewrite IH. by destruct w. Qed.

Lemma wake_done (ws : list Worker) : WDone ∈ notify_all ws ↔ WDone ∈ ws.
Proof.
  unfold notify_all. rewrite list_elem_of_fmap. split.
  - intros (w & E & Hw). by destruct w; cbn in E; try done.
  - intros Hw. by exists WDone.
Qed.

(** ** The invariant *)
Context (height : Space → nat).
Context (Hnarrows : narrows height).

(** The lists of implementations below several candidates. *)
Definition all_leaves (cs : list Candidate) : list Candidate := concat (leaves height <$> cs).

Definition all_kept (p : Candidate → bool) (cs : list Candidate) : list Candidate := concat (kept height p <$> cs).

(** [p] holds below all the cuts only. *)
Definition below_cuts (cuts : list f64) (p : Candidate → bool) : Prop :=
  ∀ c, p c = true → Forall (λ k, bound c < k)%f64 cuts.

Record search_inv (init : list Candidate) (cuts : list f64) (s : Search) : Prop := {
  inv_list : list_ok (lock s).1;
  inv_cut : is_nan (cut (lock s).1) = false;
  inv_cuts : cut (lock s).1 ∈ cuts;
  inv_active : (lock s).2 = sum_list_with active (workers s);
  inv_alive : 1 ≤ (lock s).2 ∨ WDone ∈ workers s;
  inv_end : WDone ∈ workers s → heap_elements (queue (lock s).1) = [] ∧
    Forall (λ w, w = WDone ∨ w = WWoken) (workers s);
  inv_returned c : WReturned c ∈ workers s → is_leaf c = true;
  inv_once : explored s ++ all_leaves (pending s) ⊆+ all_leaves init;
  inv_all p : below_cuts cuts p → all_kept p init ⊆+ explored s ++ all_kept p (pending s)
}.

#[export] Instance all_leaves_perm : Proper ((≡ₚ) ==> (≡ₚ)) all_leaves.
Proof. intros l k Hlk. unfold all_leaves. by rewrite Hlk. Qed.

#[export] Instance all_kept_perm p : Proper ((≡ₚ) ==> (≡ₚ)) (all_kept p).
Proof. intros l k Hlk. unfold all_kept. by rewrite Hlk. Qed.

Lemma all_leaves_cons c cs : all_leaves (c :: cs) = leaves height c ++ all_leaves cs.
Proof. done. Qed.

Lemma all_leaves_app cs ds : all_leaves (cs ++ ds) = all_leaves cs ++ all_leaves ds.
Proof. unfold all_leaves. by rewrite fmap_app, concat_app. Qed.

Lemma all_kept_cons p c cs : all_kept p (c :: cs) = kept height p c ++ all_kept p cs.
Proof. done. Qed.

Lemma all_kept_app p cs ds : all_kept p (cs ++ ds) = all_kept p cs ++ all_kept p ds.
Proof. unfold all_kept. by rewrite fmap_app, concat_app. Qed.

Lemma all_leaves_children c : is_leaf c = false → leaves height c = all_leaves (children c).
Proof. intros Hc. by rewrite leaves_unfold, Hc. Qed.

Lemma all_kept_false p c : p c = false → kept height p c = [].
Proof. intros Hc. by rewrite kept_unfold, Hc. Qed.

(** Candidates that are dropped may have leaves, but none that is kept. *)
Lemma all_leaves_filter (P : Candidate → Prop) `{∀ c, Decision (P c)} cs : all_leaves (filter P cs) ⊆+ all_leaves cs.
Proof.
  induction cs as [|c cs IH]; [done|]. rewrite filter_cons, all_leaves_cons. case_decide.
  - rewrite all_leaves_cons. by apply submseteq_app.
  - by apply submseteq_inserts_l.
Qed.

Lemma all_kept_filter p (P : Candidate → Prop) `{∀ c, Decision (P c)} cs :
  (∀ c, p c = true → P c) → all_kept p (filter P cs) = all_kept p cs.
Proof.
  intros HP. induction cs as [|c cs IH]; [done|]. rewrite filter_cons, all_kept_cons. case_decide as Hc.
  - by rewrite all_kept_cons, IH.
  - destruct (p c) eqn:E; [by apply HP in E|]. by rewrite (all_kept_false p c E).
Qed.

Lemma option_list_some {A : Type} (x : A) l : option_list (Some x) ++ l = x :: l.
Proof. done. Qed.

Lemma option_list_none {A : Type} (l : list A) : option_list None ++ l = l.
Proof. done. Qed.

(** The effect of a turn on the candidates. *)
Lemma turn_pending w (l : Locked) w' l' n rest p :
  turn_effect w l w' l' n → (∀ c, p c = true → bound c < cut l.1)%f64 →
  let before := heap_elements (queue l.1) ++ option_list (held w) ++ rest in
  let after := heap_elements (queue l'.1) ++ option_list (held w') ++ rest in
  let out := match w with WHolding c => if is_leaf c then [c] else [] | _ => [] end in
  out ++ all_leaves after ⊆+ all_leaves before ∧ all_kept p before ⊆+ out ++ all_kept p after.
Proof.
  intros Ht Hp. destruct Ht as [c l' Hw He _|l' Hw He He' _ _|l' Hw He He' _ _|c l' -> Hc He _|c -> Hc|c ->]; cbn zeta.
  - assert (held w = None ∧ match w with WHolding c => if is_leaf c then [c] else [] | _ => [] end = []) as [-> ->]
      by (by destruct Hw as [->| ->]).
    cbn [held]. rewrite option_list_some, option_list_none, He, <-app_comm_cons, Permutation_middle. done.
  - assert (held w = None ∧ match w with WHolding c => if is_leaf c then [c] else [] | _ => [] end = []) as [-> ->]
      by (by destruct Hw as [->| ->]).
    by rewrite He, He'.
  - assert (held w = None ∧ match w with WHolding c => if is_leaf c then [c] else [] | _ => [] end = []) as [-> ->]
      by (by destruct Hw as [->| ->]).
    by rewrite He, He'.
  - rewrite Hc, He. cbn [held]. rewrite option_list_some, option_list_none, !app_nil_l.
    rewrite <-Permutation_middle, all_leaves_cons, all_kept_cons, <-app_assoc, !all_leaves_app, !all_kept_app.
    split.
    + rewrite all_leaves_children by done. apply submseteq_app; [apply all_leaves_filter|done].
    + rewrite all_kept_filter by (intros c' Hc'; by apply Hp). apply submseteq_app; [|done].
      rewrite kept_unfold, Hc by done. destruct (p c); [unfold all_kept; done|apply submseteq_nil_l].
  - rewrite Hc. cbn [held]. rewrite option_list_some, option_list_none, <-Permutation_middle, all_leaves_cons, all_kept_cons.
    rewrite leaves_unfold, kept_unfold, Hc by done. split; [done|]. destruct (p c); [done|]. by apply submseteq_cons.
  - done.
Qed.

Lemma turn_active w (l : Locked) w' l' n : turn_effect w l w' l' n → active w ≤ l.2 → l'.2 + active w = l.2 + active w'.
Proof. intros []; cbn [active]; subst; cbn [active]; lia. Qed.

Lemma active_le (ws : list Worker) i w : ws !! i = Some w → active w ≤ sum_list_with active ws.
Proof. intros Hi. pose proof (sum_list_with_insert active ws i w WDone Hi). cbn in *. lia. Qed.

Lemma active_zero (ws : list Worker) w : sum_list_with active ws = 0 → w ∈ ws → active w = 0.
Proof. intros Hs (i & Hi)%list_elem_of_lookup. pose proof (active_le ws i w Hi). lia. Qed.

(** The workers after a turn. *)
Definition turn_workers (n : bool) (i : nat) (w' : Worker) (ws : list Worker) : list Worker :=
  if n then notify_all (<[i := w']> ws) else <[i := w']> ws.

Lemma turn_workers_active n (ws : list Worker) i w w' :
  ws !! i = Some w → sum_list_with active (turn_workers n i w' ws) + active w = sum_list_with active ws + active w'.
Proof. intros Hi. unfold turn_workers. destruct n; rewrite ?wake_active; by apply sum_list_with_insert. Qed.

Lemma turn_workers_held n (ws : list Worker) i w w' :
  ws !! i = Some w →
  omap held ws ≡ₚ option_list (held w) ++ omap held (<[i := WReady]> ws) ∧
  omap held (turn_workers n i w' ws) ≡ₚ option_list (held w') ++ omap held (<[i := WReady]> ws).
Proof.
  intros Hi. split.
  - pose proof (omap_insert_perm held ws i w WReady Hi) as Hp. cbn [held] in Hp. by rewrite Hp.
  - assert (omap held (turn_workers n i w' ws) = omap held (<[i := w']> ws)) as ->
      by (unfold turn_workers; destruct n; by rewrite ?wake_held).
    assert (<[i := w']> ws !! i = Some w') as Hi' by (apply list_lookup_insert_eq; by eapply lookup_lt_Some).
    pose proof (omap_insert_perm held (<[i := w']> ws) i w' WReady Hi') as Hp.
    cbn [held] in Hp. rewrite list_insert_insert_eq in Hp. by rewrite Hp.
Qed.

Lemma elem_of_turn_workers n (ws : list Worker) i w' u :
  u ∈ turn_workers n i w' ws → ∃ v, (v = w' ∨ v ∈ ws) ∧ (u = v ∨ n = true ∧ u = wake v).
Proof.
  unfold turn_workers. destruct n; [intros (v & -> & Hv)%list_elem_of_fmap|intros Hv]; apply elem_of_insert in Hv.
  - exists v. split; [done|by right].
  - exists u. split; [done|by left].
Qed.

Lemma turn_workers_elem n (ws : list Worker) i w w' :
  ws !! i = Some w → w' = WDone → WDone ∈ turn_workers n i w' ws.
Proof.
  intros Hi ->. assert (WDone ∈ <[i := WDone]> ws) as Hin.
  { apply list_elem_of_lookup. exists i. apply list_lookup_insert_eq. by eapply lookup_lt_Some. }
  unfold turn_workers. destruct n; [by apply wake_done|done].
Qed.

(** A worker that has finished stays so. *)
Lemma turn_workers_done n (ws : list Worker) i w w' :
  ws !! i = Some w → can_run w = true → WDone ∈ ws → WDone ∈ turn_workers n i w' ws.
Proof.
  intros Hi Hr (j & Hj)%list_elem_of_lookup. assert (i ≠ j) as Hne by (intros ->; rewrite Hi in Hj; by injection Hj as ->).
  assert (WDone ∈ <[i := w']> ws) as Hin.
  { apply list_elem_of_lookup. exists j. by rewrite list_lookup_insert_ne. }
  unfold turn_workers. destruct n; [by apply wake_done|done].
Qed.

(** When nobody is counted, a notification leaves only workers that have finished or were
    woken up. *)
Lemma notified_idle (ws : list Worker) :
  sum_list_with active (notify_all ws) = 0 → Forall (λ w, w = WDone ∨ w = WWoken) (notify_all ws).
Proof.
  intros Hs. apply Forall_forall. intros u Hu. pose proof (active_zero _ u Hs Hu) as Ha.
  apply list_elem_of_fmap in Hu as (v & -> & _). destruct v; cbn in *; try done; [by right..|by left].
Qed.

Lemma done_before n (ws : list Worker) i w' :
  w' ≠ WDone → WDone ∈ turn_workers n i w' ws → WDone ∈ ws.
Proof.
  intros Hne (v & Hv & Hu)%elem_of_turn_workers. assert (v = WDone) as ->.
  { destruct Hu as [->|[_ Hu]]; [done|]. by destruct v. }
  by destruct Hv as [<-|Hv].
Qed.

(** Once a worker has finished, the others that are left were notified and find nothing. *)
Lemma done_turn w (l : Locked) w' l' n i (ws : list Worker) :
  turn_effect w l w' l' n → ws !! i = Some w → can_run w = true → l.2 = sum_list_with active ws →
  (WDone ∈ ws → heap_elements (queue l.1) = [] ∧ Forall (λ w, w = WDone ∨ w = WWoken) ws) →
  WDone ∈ turn_workers n i w' ws →
  heap_elements (queue l'.1) = [] ∧ Forall (λ w, w = WDone ∨ w = WWoken) (turn_workers n i w' ws).
Proof.
  intros Ht Hi Hr Ha He Hd. pose proof (turn_active _ _ _ _ _ Ht) as Hta. rewrite Ha in Hta.
  specialize (Hta (active_le _ _ _ Hi)). pose proof (turn_workers_active n ws i w w' Hi) as Hs.
  assert (WDone ∈ ws → (w = WWoken ∧ l.2 = 0) ∧ heap_elements (queue l.1) = []) as Hbefore.
  { intros H'. destruct (He H') as [Hq Hall]. rewrite Forall_forall in Hall. split; [|done]. split.
    - destruct (Hall w) as [->| ->]; [by eapply list_elem_of_lookup_2|done|done].
    - rewrite Ha. clear -Hall. induction ws as [|u ws IH]; [done|]. cbn. rewrite IH.
      + destruct (Hall u) as [->| ->]; [by left|done|done].
      + intros x Hx. apply Hall. by right. }
  destruct Ht as [c l' Hw Hq _|l' Hw Hq Hq' Hlw Hl0|l' Hw Hq Hq' Hlw Hl1|c l' -> Hc Hq _|c -> Hc|c ->].
  - apply done_before in Hd; [|done]. destruct (Hbefore Hd) as [_ Hq0]. rewrite Hq0 in Hq.
    by apply Permutation_nil_cons in Hq.
  - split; [done|]. apply notified_idle. cbn in Hs. unfold turn_workers in Hs. lia.
  - apply done_before in Hd; [|done]. destruct (Hbefore Hd) as [[-> Hl2] _]. cbn in *. lia.
  - apply done_before in Hd; [|done]. by destruct (Hbefore Hd) as [[? _] _].
  - apply done_before in Hd; [|done]. by destruct (Hbefore Hd) as [[? _] _].
  - apply done_before in Hd; [|done]. by destruct (Hbefore Hd) as [[? _] _].
Qed.

Lemma returned_turn w (l : Locked) w' l' n i (ws : list Worker) c :
  turn_effect w l w' l' n → (∀ c, WReturned c ∈ ws → is_leaf c = true) →
  WReturned c ∈ turn_workers n i w' ws → is_leaf c = true.
Proof.
  intros Ht Hret (v & Hv & Hu)%elem_of_turn_workers. assert (v = WReturned c) as ->.
  { destruct Hu as [->|[_ Hu]]; [done|]. by destruct v. }
  destruct Hv as [<-|Hv]; [|by apply Hret]. by inversion Ht; subst.
Qed.

Lemma worker_step_inv init cuts i w (s s' : Search) :
  search_inv init cuts s → workers s !! i = Some w → can_run w = true → worker_step i s = Some s' →
  search_inv init cuts s' ∧ ∃ w' l' n, turn_effect w (lock s) w' l' n ∧ lock s' = l' ∧ cut (lock s').1 = cut (lock s).1 ∧
    workers s' = turn_workers n i w' (workers s) ∧ explored s' = turn_explored w s ∧
    best_time s' = best_time s ∧ channel s' = channel s ∧ status s' = status s ∧ listening s' = listening s ∧
    match w with WReturned c => c' ← prepare c; Some (c' :: evaluating s) | _ => Some (evaluating s) end = Some (evaluating s').
Proof.
  intros Hinv Hi Hr. pose proof (active_le _ _ _ Hi) as Hle. pose proof Hinv as [Hl Hcn Hck Ha Hal He Hret Ho Hall].
  destruct (worker_turn_effect w (lock s) Hl) as (w' & l' & n & E & Hl' & Hc' & Ht); [intros ->; cbn in Hle; lia|done|].
  unfold worker_step. rewrite Hi. cbn [mbind option_bind]. rewrite E. cbn [mbind option_bind].
  destruct (match w with WReturned c => _ | _ => _ end) as [evs|] eqn:Ee; [|done]. cbn [mbind option_bind].
  intros [= <-]. split; cycle 1.
  { exists w', l', n. split; [done|]. cbn. by split_and!. }
  pose proof (turn_active _ _ _ _ _ Ht) as Hta. rewrite Ha in Hta. specialize (Hta Hle).
  pose proof (turn_workers_active n (workers s) i w w' Hi) as Htw.
  destruct (turn_workers_held n (workers s) i w w' Hi) as [Hh1 Hh2].
  fold (turn_workers n i w' (workers s)).
  assert (∀ out, turn_explored w s ++ out =
    (match w with WHolding c => if is_leaf c then [c] else [] | _ => [] end) ++ explored s ++ out) as Hout.
  { intros out. destruct w; cbn; try done. by destruct (is_leaf _). }
  constructor; unfold pending in *; cbn [lock workers explored].
  - done.
  - by rewrite Hc'.
  - by rewrite Hc'.
  - lia.
  - inversion Ht; subst; cbn [active] in *; try (left; lia).
    right. by eapply turn_workers_elem.
  - intros Hd. by eapply done_turn.
  - intros c. by eapply returned_turn.
  - rewrite Hh2, Hout, app_assoc, (Permutation_app_comm _ (explored s)), <-app_assoc. etrans; [|exact Ho].
    rewrite Hh1. apply submseteq_app; [done|].
    by apply (turn_pending w (lock s) w' l' n (omap held (<[i:=WReady]> (workers s))) (λ _, false)).
  - intros p Hp. etrans; [by apply Hall|].
    rewrite Hh2, Hout, app_assoc, (Permutation_app_comm _ (explored s)), <-app_assoc, Hh1. apply submseteq_app; [done|].
    apply (turn_pending w (lock s) w' l' n); [done|]. intros c Hc. specialize (Hp c Hc). rewrite Forall_forall in Hp. by apply Hp.
Qed.

(** The candidates before and after a turn. *)
Lemma pending_turn (s s' : Search) n i w w' l' :
  workers s !! i = Some w → lock s' = l' → workers s' = turn_workers n i w' (workers s) →
  pending s ≡ₚ heap_elements (queue (lock s).1) ++ option_list (held w) ++ omap held (<[i := WReady]> (workers s)) ∧
  pending s' ≡ₚ heap_elements (queue l'.1) ++ option_list (held w') ++ omap held (<[i := WReady]> (workers s)).
Proof.
  intros Hi Hl Hw. unfold pending. rewrite Hl, Hw. destruct (turn_workers_held n (workers s) i w w' Hi) as [H1 H2].
  by rewrite H1, H2.
Qed.

(** ** The other steps *)
Lemma search_inv_ext init cuts (s s' : Search) :
  lock s' = lock s → workers s' = workers s → explored s' = explored s → search_inv init cuts s → search_inv init cuts s'.
Proof.
  intros Hl Hw He [H1 H2 H3 H4 H5 H6 H7 H8 H9]. assert (pending s' = pending s) as Hp by (unfold pending; by rewrite Hl, Hw).
  constructor; by rewrite ?Hp, ?Hl, ?Hw, ?He.
Qed.

Lemma below_cuts_subseteq cuts cuts' p : cuts ⊆ cuts' → below_cuts cuts' p → below_cuts cuts p.
Proof.
  intros Hs Hp c Hc. specialize (Hp c Hc). rewrite Forall_forall in *. intros k Hk. by apply Hp, Hs.
Qed.

Lemma search_inv_weaken init cuts cuts' (s : Search) :
  cuts ⊆ cuts' → search_inv init cuts s → search_inv init cuts' s.
Proof.
  intros Hs [H1 H2 H3 H4 H5 H6 H7 H8 H9]. constructor; try done; [by apply Hs|].
  intros p Hp. apply H9. by eapply below_cuts_subseteq.
Qed.

Lemma spurious_inv init cuts (s s' : Search) : spurious_wakeup s s' → search_inv init cuts s → search_inv init cuts s'.
Proof.
  intros [i s1 Hi] [H1 H2 H3 H4 H5 H6 H7 H8 H9].
  assert (pending (spurious_step i s1) ≡ₚ pending s1) as Hp.
  { unfold pending. cbn [lock workers spurious_step]. apply Permutation_app_head.
    pose proof (omap_insert_perm held (workers s1) i WWaiting WWoken Hi) as Hp. by cbn in Hp. }
  pose proof (sum_list_with_insert active (workers s1) i WWaiting WWoken Hi) as Ha.
  constructor; try done; cbn [lock workers spurious_step].
  - cbn in Ha. lia.
  - destruct H5 as [H5|H5]; [by left|]. destruct (H6 H5) as [_ Hw]. rewrite Forall_forall in Hw.
    by destruct (Hw WWaiting (list_elem_of_lookup_2 _ _ _ Hi)).
  - intros [|Hd]%elem_of_insert; [done|]. destruct (H6 Hd) as [_ Hw]. rewrite Forall_forall in Hw.
    by destruct (Hw WWaiting (list_elem_of_lookup_2 _ _ _ Hi)).
  - intros c [|Hc]%elem_of_insert; [done|by apply H7].
  - by rewrite Hp.
  - intros p Hpc. rewrite Hp. by apply H9.
Qed.

(** Pruning the list. *)
Definition with_lock (l : Locked) (s : Search) : Search :=
  mkSearch l (workers s) (explored s) (evaluating s) (best_time s) (channel s) (status s) (listening s).

Lemma cut_inv init cuts k (s : Search) :
  search_inv init cuts s → is_nan k = false →
  ∃ l, parallel_update_cut k (lock s) = Some l ∧ search_inv init (k :: cuts) (with_lock l s) ∧ cut l.1 = k ∧
    heap_elements (queue l.1) ⊆+ heap_elements (queue (lock s).1).
Proof.
  intros [H1 H2 H3 H4 H5 H6 H7 H8 H9] Hk. unfold parallel_update_cut.
  destruct (update_cut_spec (lock s).1 k H1 Hk) as (l & -> & Hl & Hc & He). eexists. split; [done|].
  split; [|split; [done|cbn [fst]; rewrite He; apply sublist_submseteq, sublist_filter]].
  constructor; unfold pending in *; cbn [lock workers explored with_lock fst snd]; try done.
  - by rewrite Hc.
  - rewrite Hc. by left.
  - intros Hd. destruct (H6 Hd) as [Hq Hw]. split; [|done]. rewrite Hq in He. by apply Permutation_nil_r in He.
  - etrans; [|exact H8]. apply submseteq_app; [done|]. rewrite He, !all_leaves_app.
    apply submseteq_app; [apply all_leaves_filter|done].
  - intros p Hp. etrans; [apply H9|].
    + eapply below_cuts_subseteq; [|exact Hp]. intros x Hx. by right.
    + rewrite He, !all_kept_app, all_kept_filter; [done|]. intros c Hpc. specialize (Hp c Hpc). by apply Forall_cons in Hp as [Hp _].
Qed.

Context (config : Config) (check_result_fn : option (Candidate → bool)).
Context (measures : Candidate → option f64 → option f64 → Prop).

(** The cut computed from an evaluation can be compared. *)
Definition cut_defined : Prop := ∀ e, is_nan e = false → is_nan (get_new_cut config e) = false.

Context (Hcut : cut_defined).

Definition after_message (leaf : Candidate) (eval : f64) (st : Status Space Act) : option (Candidate * f64) :=
  if is_new_best st eval then Some (leaf, eval) else best_candidate st.

Lemma monitor_step_inv init cuts leaf eval rest (s : Search) :
  search_inv init cuts s → channel s = (leaf, eval) :: rest → is_nan eval = false →
  ∃ s' ks, monitor_step config s = Some s' ∧ search_inv init (ks ++ cuts) s' ∧
    workers s' = workers s ∧ explored s' = explored s ∧ evaluating s' = evaluating s ∧ best_time s' = best_time s ∧
    channel s' = rest ∧ heap_elements (queue (lock s').1) ⊆+ heap_elements (queue (lock s).1) ∧
    (listening s = true → best_candidate (status s') = after_message leaf eval (status s) ∧
      (max_evaluations config = None → listening s' = true ∧
        cut (lock s').1 = (if is_new_best (status s) eval then get_new_cut config eval else cut (lock s).1) ∧
        ks = if is_new_best (status s) eval then [get_new_cut config eval] else [])).
Proof.
  intros Hinv Hch Hn. unfold monitor_step. rewrite Hch. destruct (listening s) eqn:Els; cycle 1.
  { eexists _, []. split; [done|]. split; [by apply (search_inv_ext init cuts s)|]. by split_and!. }
  unfold handle_message. cbn [store_commit_evaluation store_update_cut parallel_list_store mbind option_bind].
  assert (∃ l ks, (if is_new_best (status s) eval then parallel_update_cut (get_new_cut config eval) (lock s) else Some (lock s)) = Some l ∧
    search_inv init (ks ++ cuts) (with_lock l s) ∧ heap_elements (queue l.1) ⊆+ heap_elements (queue (lock s).1) ∧
    cut l.1 = (if is_new_best (status s) eval then get_new_cut config eval else cut (lock s).1) ∧
    ks = if is_new_best (status s) eval then [get_new_cut config eval] else [])
    as (l & ks & -> & Hinv' & Hsub & Hcl & Hks).
  { destruct (is_new_best _ _).
    - destruct (cut_inv init cuts (get_new_cut config eval) s Hinv (Hcut _ Hn)) as (l & -> & Hl & ? & ?).
      by exists l, [get_new_cut config eval].
    - exists (lock s), []. split; [done|]. split; [|done]. by apply (search_inv_ext init cuts s). }
  cbn [mbind option_bind].
  set (st1 := if is_new_best (status s) eval then mkStatus (Some (leaf, eval)) (num_evaluations (status s)) else status s).
  assert (best_candidate st1 = after_message leaf eval (status s)) as Hst
    by (unfold st1, after_message; by destruct (is_new_best _ _)).
  destruct (is_infinite eval).
  { eexists _, ks. split; [done|]. split; [by apply (search_inv_ext init (ks ++ cuts) (with_lock l s))|]. cbn. by split_and!. }
  destruct (max_evaluations config) as [max|]; cycle 1.
  { eexists _, ks. split; [done|]. split; [by apply (search_inv_ext init (ks ++ cuts) (with_lock l s))|]. cbn. by split_and!. }
  destruct (max <=? _).
  - unfold monitor_result. cbn [mbind option_bind store_stop_exploration parallel_list_store]. unfold default_stop_exploration.
    destruct (cut_inv init (ks ++ cuts) f64_zero (with_lock l s) Hinv' eq_refl) as (l' & El & Hl' & _ & Hsub').
    cbn [lock with_lock] in El. rewrite El. cbn [mbind option_bind]. eexists _, (f64_zero :: ks).
    split; [done|]. split; [by apply (search_inv_ext init (f64_zero :: ks ++ cuts) (with_lock l' s))|].
    cbn in *. split_and!; try done. by etrans.
  - eexists _, ks. split; [done|]. split; [by apply (search_inv_ext init (ks ++ cuts) (with_lock l s))|]. cbn. by split_and!.
Qed.

(** ** Runs *)

(** The evaluator never measures a NaN. *)
Definition measures_defined : Prop := ∀ c b m, measures c b m → is_nan (default INFINITY m) = false.

Definition messages_defined (s : Search) : Prop := Forall (λ m, is_nan m.2 = false) (channel s).

Notation any_step := (any_step config check_result_fn measures).

Lemma evaluate_leaf_defined leaf m b : is_nan (default INFINITY m) = false → is_nan (evaluate_leaf config check_result_fn leaf m b).1 = false.
Proof.
  intros Hm. unfold evaluate_leaf. cbn [fst]. destruct check_result_fn as [check|]; [|done].
  destruct (is_finite _ && _); [|done]. by destruct (check leaf).
Qed.

Lemma evaluate_step_fields leaf rest m (s : Search) :
  let s' := evaluate_step config check_result_fn leaf rest m s in
  let r := evaluate_leaf config check_result_fn leaf m (best_time s) in
  lock s' = lock s ∧ workers s' = workers s ∧ explored s' = explored s ∧ evaluating s' = rest ∧ best_time s' = r.2 ∧
  channel s' = channel s ++ [(leaf, r.1)] ∧ status s' = status s ∧ listening s' = listening s.
Proof. by split_and!. Qed.

(** The cuts of the list along a run, the last one first. *)
Inductive run (s0 : Search) : list f64 → Search → Prop :=
| RunStart : run s0 [cut (lock s0).1] s0
| RunStep ks s s' : run s0 ks s → any_step s s' → run s0 (cut (lock s').1 :: ks) s'.

Context (Hmeasures : measures_defined).

Lemma any_step_inv init cuts (s s' : Search) :
  search_inv init cuts s → messages_defined s → any_step s s' →
  messages_defined s' ∧ (∃ ks, search_inv init (ks ++ cuts) s') ∧
  (max_evaluations config = None → listening s = true →
    listening s' = true ∧ search_inv init (cut (lock s').1 :: cuts) s').
Proof.
  intros Hinv Hmsg Hstep.
  assert (search_inv init cuts s' → (∃ ks, search_inv init (ks ++ cuts) s') ∧ search_inv init (cut (lock s').1 :: cuts) s') as Hsame.
  { intros Hi. split; [by exists []|]. eapply search_inv_weaken; [|exact Hi]. intros x Hx. by right. }
  destruct Hstep as [Hstep|Hs]; [destruct Hstep as [i w s s' Hi Hr Hs|leaf rest m s He Hm|s s' Hs]|].
  - destruct (worker_step_inv init cuts i w s s' Hinv Hi Hr Hs) as (Hinv' & w' & l' & n & _ & _ & _ & _ & _ & _ & Hch & _ & Hls & _).
    destruct (Hsame Hinv'). split; [unfold messages_defined; by rewrite Hch|]. split; [done|]. intros _. by rewrite Hls.
  - destruct (evaluate_step_fields leaf rest m s) as (H1 & H2 & H3 & _ & _ & Hch & _ & Hls).
    destruct Hsame as [Ha Hb]; [by apply (search_inv_ext init cuts s)|]. split; [|split; [done|intros _; by rewrite Hls]].
    unfold messages_defined. rewrite Hch. apply Forall_app. split; [done|]. apply Forall_singleton.
    apply evaluate_leaf_defined. by eapply Hmeasures.
  - destruct (channel s) as [|[leaf eval] rest] eqn:Hch; [unfold monitor_step in Hs; by rewrite Hch in Hs|].
    unfold messages_defined in Hmsg. rewrite Hch in Hmsg. apply Forall_cons in Hmsg as [Hn Hmsg].
    destruct (monitor_step_inv init cuts leaf eval rest s Hinv Hch Hn) as (s1 & ks & E & Hinv' & _ & _ & _ & _ & Hc1 & _ & Hst).
    rewrite Hs in E. injection E as <-. split; [unfold messages_defined; by rewrite Hc1|]. split; [by exists ks|].
    intros Hmax Hls. destruct (Hst Hls) as [_ H1]. destruct (H1 Hmax) as (Hl & Hc & Hks). split; [done|].
    eapply search_inv_weaken; [|exact Hinv']. rewrite Hc, Hks. destruct (is_new_best _ _); intros x Hx; [done|by right].
  - pose proof (spurious_inv init cuts s s' Hs Hinv) as Hinv'. destruct (Hsame Hinv').
    assert (messages_defined s' ∧ listening s' = listening s) as [? Hls] by (destruct Hs; by split).
    split; [done|]. split; [done|]. intros _. by rewrite Hls.
Qed.

(** ** The start *)
Lemma replicate_ready n : sum_list_with active (replicate n WReady) = n ∧ omap held (replicate n WReady) = [].
Proof. induction n as [|n [IH1 IH2]]; [done|]. cbn. by rewrite IH1, IH2. Qed.

Lemma search_start_inv candidates :
  1 ≤ num_workers config →
  ∃ s0, search_start config candidates = Some s0 ∧ search_inv candidates [INFINITY] s0 ∧ cut (lock s0).1 = INFINITY ∧
    workers s0 = replicate (num_workers config) WReady ∧ explored s0 = [] ∧ evaluating s0 = [] ∧ best_time s0 = None ∧
    channel s0 = [] ∧ status s0 = status_default ∧ listening s0 = true ∧
    heap_elements (queue (lock s0).1) ≡ₚ filter (λ c, SFltb (bound c) INFINITY = true) candidates.
Proof.
  intros Hn. unfold search_start.
  destruct (insert_many_spec candidates (parallel_new (num_workers config)) candidate_list_new_ok) as (l & -> & Hl & Hc & H2 & He).
  cbn [mbind option_bind]. eexists. split; [done|]. cbn [fst snd parallel_new cut candidate_list_new queue] in *.
  destruct (replicate_ready (num_workers config)) as [Hr1 Hr2].
  assert (heap_elements (@heap_new Candidate _) = []) as Hnew by apply heap_new_elements. rewrite Hnew, app_nil_r in He.
  assert (WDone ∉ replicate (num_workers config) (@WReady Space Act)) as Hnd.
  { intros Hd%elem_of_replicate. by destruct Hd. }
  split; [|by split_and!].
  constructor; unfold pending; cbn [lock workers explored]; rewrite ?Hr1, ?Hr2, ?app_nil_r.
  - done.
  - by rewrite Hc.
  - rewrite Hc. by left.
  - done.
  - left. lia.
  - done.
  - intros c Hd%elem_of_replicate. by destruct Hd.
  - rewrite app_nil_l, He. apply all_leaves_filter.
  - intros p Hp. rewrite app_nil_l, He, all_kept_filter; [done|]. intros c Hpc. specialize (Hp c Hpc).
    by apply Forall_cons in Hp as [Hp _].
Qed.

Lemma run_inv init s0 ks s :
  search_inv init [cut (lock s0).1] s0 → messages_defined s0 → run s0 ks s →
  messages_defined s ∧ (∃ cuts, search_inv init cuts s) ∧
  (max_evaluations config = None → listening s0 = true → listening s = true ∧ search_inv init ks s).
Proof.
  intros Hi0 Hm0 Hrun. induction Hrun as [|ks s s' Hrun IH Hstep].
  - split; [done|]. split; [by eexists|]. done.
  - destruct IH as (Hm & [cuts Hinv] & Hls). destruct (any_step_inv init cuts s s' Hinv Hm Hstep) as (Hm' & [ks' Hinv'] & _).
    split; [done|]. split; [by eexists|]. intros Hmax Hl0. destruct (Hls Hmax Hl0) as [Hl Hi].
    destruct (any_step_inv init ks s s' Hi Hm Hstep) as (_ & _ & H'). by apply H'.
Qed.

(** A worker only stops when there is nothing left to explore. *)
Lemma done_pending init cuts (s : Search) : search_inv init cuts s → WDone ∈ workers s → pending s = [].
Proof.
  intros Hinv Hd. destruct (inv_end _ _ _ Hinv Hd) as [Hq Hw]. unfold pending. rewrite Hq. cbn. clear -Hw.
  induction Hw as [|w ws [->| ->] Hw IH]; done.
Qed.

(** C12: the exhaustive search explores every implementation at most once, whatever the
    interleaving of the workers, the evaluator and the monitor, and spurious wakeups
    included; if the number of evaluations is not limited, as soon as [explore] tells one
    worker that the search is over, every implementation that can be reached through
    candidates whose bounds are below all the cuts of the run has been explored. *)
Theorem bound_order_exhaustive candidates s0 ks s :
  restart_every_n_evals config = None → 1 ≤ num_workers config →
  search_start config candidates = Some s0 → run s0 ks s →
  explored s ⊆+ all_leaves candidates ∧
  (max_evaluations config = None → WDone ∈ workers s → ∀ p, below_cuts ks p → all_kept p candidates ⊆+ explored s).
Proof.
  intros _ Hn Hs Hrun.
  destruct (search_start_inv candidates Hn) as (s1 & E & Hinv0 & Hc0 & Hw0 & He0 & Hev0 & Hb0 & Hch0 & Hst0 & Hl0 & _).
  rewrite Hs in E. injection E as <-. rewrite <-Hc0 in Hinv0.
  destruct (run_inv candidates s0 ks s Hinv0) as (_ & [cuts Hinv] & Hmax); [unfold messages_defined; by rewrite Hch0|done|].
  split.
  - etrans; [|exact (inv_once _ _ _ Hinv)]. by apply submseteq_inserts_r.
  - intros Hnone Hd p Hp. destruct (Hmax Hnone Hl0) as [_ Hinv']. etrans; [by apply (inv_all _ _ _ Hinv')|].
    rewrite (done_pending _ _ _ Hinv' Hd). unfold all_kept. cbn. by rewrite app_nil_r.
Qed.
End facts.

(** A schedule is a run. *)
Lemma performs_run {Space Act : Type} `{SearchSpaceOps Space Act} `{IntervalHeap (Candidate Space Act)}
    config check_result_fn measure measures ts (s0 s : Search Space Act _) :
  (∀ c best m, measure c best = Some m → measures c best m) →
  performs config check_result_fn measure ts s0 = Some s → ∃ ks, run config check_result_fn measures s0 ks s.
Proof.
  intros Hm. revert s. induction ts as [|t ts IH] using rev_ind; intros s; [intros [= <-]; eexists; apply RunStart|].
  rewrite performs_snoc. destruct (performs _ _ _ ts s0) as [s1|]; [|done]. cbn [mbind option_bind]. intros E.
  destruct (IH s1 eq_refl) as (ks & Hrun). eexists. eapply RunStep; [exact Hrun|].
  apply (perform_step _ _ _ measures Hm) in E as [E|[E _]]; [by left|by right].
Qed.

Lemma small_measures_defined : measures_defined small_measures.
Proof. intros c b m E. destruct (small_measure_total c b) as (m' & E' & Hm). unfold small_measures in E. by simplify_eq. Qed.

Lemma small_cut_defined : cut_defined small_config.
Proof. by intros e. Qed.

(** Of the three implementations of the example, those whose bound is below the final cut. *)
Lemma bound_order_exhaustive_witness :
  ∃ s0 ks s, search_start small_config [small_root] = Some s0 ∧
    run small_config (Some small_check) small_measures s0 ks s ∧ WDone ∈ workers s ∧
    explored s ⊆+ all_leaves small_height [small_root] ∧
    ∀ p, below_cuts ks p → all_kept small_height p [small_root] ⊆+ explored s.
Proof.
  destruct small_search as (s0 & s & E0 & E & Hd).
  destruct (performs_run _ _ _ small_measures _ s0 s (λ _ _ _ E, E) E) as (ks & Hrun).
  assert (length (workers s) = 2) as Hlen.
  { assert ((s0 ← search_start small_config [small_root]; s ← performs small_config (Some small_check) small_measure small_schedule s0;
      Some (length (workers s))) = Some 2) as Hl by (vm_compute; reflexivity).
    rewrite E0 in Hl. cbn [mbind option_bind] in Hl. rewrite E in Hl. by injection Hl. }
  assert (WDone ∈ workers s) as Hw.
  { destruct (workers s) as [|w ws] eqn:Ew; [done|]. rewrite <-Ew. by apply (is_done_workers s 0 w); [|rewrite Ew]. }
  exists s0, ks, s. do 3 (split; [done|]).
  destruct (bound_order_exhaustive small_height small_narrows small_config (Some small_check) small_measures small_cut_defined
    small_measures_defined [small_root] s0 ks s eq_refl ltac:(cbn; lia) E0 Hrun) as [Hl Hr].
  split; [done|]. by apply Hr.
Defined.
