(* ===== verification/SearchResult.v ===== *)
(** * The exhaustive search: what it returns

    When the bounds of the performance model are lower bounds of the runtimes, the
    candidate that the monitor keeps is the fastest valid implementation of the search
    space. *)
From S2P Require Import Prelude Types Utils Orders Float64 Config Candidates CandidateList Stabilizer Monitor ParallelSearch SearchExample ParallelFacts.
From Stdlib Require Import Floats.SpecFloat.

Section result.
Context {Space Act : Type} `{SearchSpaceOps Space Act} `{IntervalHeap (Candidate Space Act)}.
Context `{!IntervalHeapOk (Candidate Space Act) candidate_cmp no_nan}.
Notation Candidate := (Candidate Space Act).
Notation Locked := (@Locked Space Act _).
Notation Worker := (Worker Space Act).
Notation Search := (Search Space Act _).

Context (height : Space → nat) (Hnarrows : narrows height).

(** ** Kernels

    The evaluator runs the kernel of the implementation under the stabilizer. *)
Context {K : Type} (kernel_evaluate : K → option f64 * K) (kernel : Candidate → K) (stabilizer : Stabilizer).
Context (config : Config) (check_result_fn : option (Candidate → bool)).

Definition stable_measures (c : Candidate) (best m : option f64) : Prop :=
  fst <$> stable_evaluate kernel_evaluate stabilizer (Some (bound c)) best (kernel c) = Some m.

Definition kernel_time (c : Candidate) : option f64 := (kernel_evaluate (kernel c)).1.

Definition valid (c : Candidate) : bool := match check_result_fn with Some check => check c | None => true end.

(** The runtime of an implementation, infinite when it does not run or is not valid. *)
Definition score (c : Candidate) : f64 :=
  match kernel_time c with Some t => if valid c then t else INFINITY | None => INFINITY end.

(** A runtime is finite, and the threshold of the stabilizer is at least one. *)
Definition times_ok : Prop :=
  skip_bad_candidates stabilizer = true ∧
  ∀ c t, kernel_time c = Some t → is_finite t = true ∧ (t ≤ f64_mul t (skip_threshold stabilizer))%f64.

(** The bound of the space is the bound of the candidate. *)
Definition computed (c : Candidate) : Prop := bound c = space_bound (space c).

(** The bound of a candidate is below the runtimes of its implementations. *)
Definition sound_bounds : Prop :=
  ∀ c l p t, computed c → l ∈ leaves height c → prepare l = Some p → kernel_time p = Some t → (bound c ≤ t)%f64.

Notation all_leaves := (all_leaves height).

Definition leaf_of (init : list Candidate) (p : Candidate) : Prop := ∃ l, l ∈ all_leaves init ∧ prepare l = Some p.

Lemma elem_of_all_leaves l cs : l ∈ all_leaves cs ↔ ∃ c, c ∈ cs ∧ l ∈ leaves height c.
Proof.
  unfold ParallelFacts.all_leaves. rewrite list_elem_of_In, in_concat. split.
  - intros (ls & Hls & Hl). rewrite <-list_elem_of_In in Hls. rewrite <-list_elem_of_In in Hl. apply list_elem_of_fmap in Hls as (c & -> & Hc). by exists c.
  - intros (c & Hc & Hl). exists (leaves height c). rewrite <-!list_elem_of_In. split; [|done]. by apply list_elem_of_fmap_2.
Qed.

Lemma children_computed c : Forall computed (children c).
Proof.
  unfold children. destruct (default_list (space c)); [constructor|]. apply Forall_forall.
  intros c' (a & _ & E)%elem_of_apply_choice. unfold apply_decision in E. destruct (apply_to a (space c)); [|done].
  by injection E as <-.
Qed.

Lemma leaves_computed c l : computed c → l ∈ leaves height c → computed l ∧ is_leaf l = true ∧ leaves height l = [l].
Proof.
  remember (height (space c)) as n eqn:Hn. revert c Hn. induction (lt_wf n) as [n _ IH]. intros c -> Hc.
  rewrite leaves_unfold by done. destruct (is_leaf c) eqn:E.
  - intros ->%list_elem_of_singleton. split_and!; [done|done|]. by rewrite leaves_unfold, E.
  - intros (c' & Hc' & Hl)%(elem_of_all_leaves l (children c)).
    eapply (IH (height (space c'))); [by apply children_height|done| |done].
    pose proof (children_computed c) as Hall. rewrite Forall_forall in Hall. by apply Hall.
Qed.

(** ** The order of the scores *)
Lemma finite_no_nan t : is_finite t = true → is_nan t = false.
Proof. by destruct t. Qed.

Lemma finite_below_infinity t : is_finite t = true → (t < INFINITY)%f64.
Proof. by destruct t as [|[]| |[]]. Qed.

Lemma not_lt_le (a b : f64) : is_nan a = false → is_nan b = false → ¬ (a < b)%f64 → (b ≤ a)%f64.
Proof. intros Ha Hb Hl. by apply f64_not_lt. Qed.

Lemma le_no_nan (a b : f64) : (a ≤ b)%f64 → is_nan a = false ∧ is_nan b = false.
Proof. rewrite f64_le_key. tauto. Qed.

(** The best time once the messages on their way have been received. *)
Definition next_best (m : option f64) (e : f64) : option f64 :=
  match m with Some b => if SFltb e b then Some e else Some b | None => Some e end.

Definition fold_best (m : option f64) (msgs : list (Candidate * f64)) : option f64 := foldl next_best m (snd <$> msgs).

Lemma next_best_le m e b : is_nan e = false → m = Some b → is_nan b = false →
  ∃ f, next_best m e = Some f ∧ (f ≤ b)%f64 ∧ (f ≤ e)%f64 ∧ is_nan f = false.
Proof.
  intros He -> Hb. cbn. destruct (SFltb e b) eqn:E.
  - exists e. split_and!; [done|by apply f64_lt_le|by apply f64_le_refl|done].
  - exists b. split_and!; [done|by apply f64_le_refl|apply not_lt_le; [done|done|congruence]|done].
Qed.

Lemma fold_best_le msgs b :
  Forall (λ m, is_nan m.2 = false) msgs → is_nan b = false →
  ∃ f, fold_best (Some b) msgs = Some f ∧ (f ≤ b)%f64.
Proof.
  intros Hm. revert b. induction Hm as [|[c e] msgs He Hm IH]; intros b Hb; [exists b; split; [done|by apply f64_le_refl]|].
  destruct (next_best_le (Some b) e b He eq_refl Hb) as (f & E & Hle & _ & Hf).
  destruct (IH f Hf) as (g & Hg & Hgf). exists g. split; [|by eapply f64_le_trans].
  unfold fold_best in *. cbn [fmap list_fmap foldl]. cbn [snd]. by rewrite E.
Qed.

Lemma fold_best_app m msgs c e : fold_best m (msgs ++ [(c, e)]) = next_best (fold_best m msgs) e.
Proof. unfold fold_best. by rewrite fmap_app, foldl_app. Qed.

(** Below [t] is the best time, or a message on its way. *)
Definition reached (s : Search) (t : f64) : Prop :=
  ∃ f, fold_best (snd <$> best_candidate (status s)) (channel s) = Some f ∧ (f ≤ t)%f64.

(** A message is exact, infinite, or not better than one received before. *)
Fixpoint messages_ok (init : list Candidate) (m : option f64) (msgs : list (Candidate * f64)) : Prop :=
  match msgs with
  | [] => True
  | (c, e) :: msgs =>
    leaf_of init c ∧ is_nan e = false ∧ (e = score c ∨ e = INFINITY ∨ ∃ b, m = Some b ∧ (b ≤ e)%f64) ∧
    messages_ok init (next_best m e) msgs
  end.

Lemma messages_ok_app init m msgs c e :
  messages_ok init m msgs → leaf_of init c → is_nan e = false →
  e = score c ∨ e = INFINITY ∨ (∃ b, fold_best m msgs = Some b ∧ (b ≤ e)%f64) →
  messages_ok init m (msgs ++ [(c, e)]).
Proof.
  revert m. induction msgs as [|[c' e'] msgs IH]; intros m Hm Hc He Hs; [by split_and!|].
  cbn in Hm. destruct Hm as (Hc' & He' & Hs' & Hm). change ((messages_ok init m ((c', e') :: (msgs ++ [(c, e)])))).
  cbn [messages_ok]. split_and!; [done..|]. by apply IH.
Qed.

(** ** The invariant of the results *)
Context (Hstop : stop_bound config = None) (Hdist : distance_to_best config = None) (Hmax : max_evaluations config = None).
Context (Htimes : times_ok) (Hsound : sound_bounds).

Notation search_step := (search_step config check_result_fn stable_measures).
Notation any_step := (any_step config check_result_fn stable_measures).

Record result_inv (init : list Candidate) (s : Search) : Prop := {
  ri_listening : listening s = true;
  ri_cut : cut (lock s).1 = match best_candidate (status s) with Some (_, e) => e | None => INFINITY end;
  ri_pending : Forall computed (pending s);
  ri_returned : ∀ c, WReturned c ∈ workers s → c ∈ all_leaves init;
  ri_evaluating : Forall (leaf_of init) (evaluating s);
  ri_messages : messages_ok init (snd <$> best_candidate (status s)) (channel s);
  ri_best : ∀ c e, best_candidate (status s) = Some (c, e) →
    leaf_of init c ∧ is_nan e = false ∧ (e = score c ∨ e = INFINITY);
  ri_time : ∀ b, best_time s = Some b → reached s b
}.

(** An implementation that is still to be taken into account, or that is not better than
    the best one. *)
Definition target_inv (l p : Candidate) (s : Search) : Prop :=
  reached s (score p) ∨ l ∈ all_leaves (pending s) ∨ WReturned l ∈ workers s ∨ p ∈ evaluating s.

Lemma get_new_cut_exact e : get_new_cut config e = e.
Proof. unfold get_new_cut. by rewrite Hstop, Hdist. Qed.

Lemma reached_ext (s s' : Search) t :
  best_candidate (status s') = best_candidate (status s) → channel s' = channel s → reached s t → reached s' t.
Proof. intros Hb Hc. unfold reached. by rewrite Hb, Hc. Qed.

Lemma score_le p t : score p = t → is_finite t = true → kernel_time p = Some t ∧ valid p = true.
Proof.
  unfold score. destruct (kernel_time p) as [u|]; [|by intros <-]. destruct (valid p); [by intros ->|by intros <-].
Qed.

(** A candidate that is dropped is not better than the best one. *)
Lemma dropped_reached init (s : Search) c l p :
  result_inv init s → messages_defined s → computed c → l ∈ leaves height c → prepare l = Some p → is_finite (score p) = true →
  ¬ (bound c < cut (lock s).1)%f64 → reached s (score p).
Proof.
  intros Hri Hm Hc Hl Hp Hfin Hcut. destruct (score_le p _ eq_refl Hfin) as [Ht _].
  pose proof (Hsound c l p _ Hc Hl Hp Ht) as Hb. destruct (le_no_nan _ _ Hb) as [Hn1 Hn2].
  rewrite (ri_cut _ _ Hri) in Hcut. unfold reached.
  destruct (best_candidate (status s)) as [[cb e]|] eqn:E; cycle 1.
  { exfalso. apply Hcut. eapply f64_le_lt_trans; [exact Hb|]. by apply finite_below_infinity. }
  destruct (ri_best _ _ Hri cb e E) as (_ & He & _). apply not_lt_le in Hcut; [|done|done].
  destruct (fold_best_le (channel s) e Hm He) as (f & Hf & Hfe). exists f. split; [exact Hf|].
  eapply f64_le_trans; [exact Hfe|]. by eapply f64_le_trans.
Qed.

(** The candidates that a turn leaves. *)
Lemma turn_computed w (l : Locked) w' l' n rest :
  turn_effect w l w' l' n → Forall computed (heap_elements (queue l.1) ++ option_list (held w) ++ rest) →
  Forall computed (heap_elements (queue l'.1) ++ option_list (held w') ++ rest).
Proof.
  intros Ht. rewrite !Forall_app. intros (Hq & Hh & Hr).
  assert (Forall computed (option_list (held (@WDone Space Act)))) as Hnil by constructor.
  destruct Ht as [c l' _ He _|l' _ _ He' _ _|l' _ _ He' _ _|c l' -> _ He _|c -> _|c ->].
  - rewrite He in Hq. apply Forall_cons in Hq as [Hc Hq]. split_and!; [done|by repeat constructor|done].
  - rewrite He'. by split_and!.
  - rewrite He'. by split_and!.
  - rewrite He. split_and!; [|done|done]. apply Forall_app. split; [|done].
    pose proof (children_computed c) as Hall. rewrite Forall_forall in *. intros x [_ Hx]%list_elem_of_filter. by apply Hall.
  - by split_and!.
  - by split_and!.
Qed.

Lemma turn_target w (l : Locked) w' l' n rest t :
  turn_effect w l w' l' n → Forall computed (heap_elements (queue l.1) ++ option_list (held w) ++ rest) →
  t ∈ all_leaves (heap_elements (queue l.1) ++ option_list (held w) ++ rest) →
  t ∈ all_leaves (heap_elements (queue l'.1) ++ option_list (held w') ++ rest) ∨ w' = WReturned t ∨
  ∃ c, computed c ∧ t ∈ leaves height c ∧ ¬ (bound c < cut l.1)%f64.
Proof.
  intros Ht. rewrite !all_leaves_app, !Forall_app, !elem_of_app. intros (Hq & Hh & Hr) Hin.
  destruct Ht as [c l' Hw He _|l' Hw He He' _ _|l' Hw He He' _ _|c l' -> Hc He _|c -> Hc|c ->].
  - left. assert (held w = None) as Hw' by (by destruct Hw as [->| ->]). rewrite Hw' in Hin.
    rewrite He, all_leaves_cons, elem_of_app in Hin. cbn [held]. unfold ParallelFacts.all_leaves at 2. cbn. rewrite app_nil_r.
    destruct Hin as [[?|?]|[?%elem_of_nil|?]]; tauto.
  - left. assert (held w = None) as Hw' by (by destruct Hw as [->| ->]). rewrite Hw', He in Hin.
    destruct Hin as [?%elem_of_nil|[?%elem_of_nil|?]]; tauto.
  - left. assert (held w = None) as Hw' by (by destruct Hw as [->| ->]). rewrite Hw', He in Hin.
    destruct Hin as [?%elem_of_nil|[?%elem_of_nil|?]]; tauto.
  - destruct Hin as [Hin|[Hin|Hin]].
    + left. left. rewrite He, all_leaves_app, elem_of_app. by right.
    + unfold ParallelFacts.all_leaves in Hin. cbn in Hin. rewrite app_nil_r, leaves_unfold, Hc in Hin by done.
      apply (elem_of_all_leaves t (children c)) in Hin as (c' & Hc' & Hin).
      destruct (SFltb (bound c') (cut l.1)) eqn:E.
      * left. left. rewrite He, all_leaves_app, elem_of_app. left. apply elem_of_all_leaves. exists c'. split; [|done].
        by apply list_elem_of_filter.
      * right. right. exists c'. split; [|split; [done|congruence]].
        pose proof (children_computed c) as Hall. rewrite Forall_forall in Hall. by apply Hall.
    + left. by right; right.
  - destruct Hin as [Hin|[Hin|Hin]]; [left; by left| |left; by right; right].
    unfold ParallelFacts.all_leaves in Hin. cbn in Hin. rewrite app_nil_r, leaves_unfold, Hc in Hin by done.
    apply list_elem_of_singleton in Hin as ->. by right; left.
  - left. cbn in Hin. destruct Hin as [?|[?%elem_of_nil|?]]; tauto.
Qed.

Lemma returned_before n (ws : list Worker) i w w' c :
  ws !! i = Some w → WReturned c ∈ ws → WReturned c ∈ turn_workers n i w' ws ∨ w = WReturned c.
Proof.
  intros Hi (j & Hj)%list_elem_of_lookup. destruct (decide (i = j)) as [->|Hne].
  - right. rewrite Hi in Hj. by injection Hj as ->.
  - left. assert (WReturned c ∈ <[i := w']> ws) as Hin.
    { apply list_elem_of_lookup. exists j. by rewrite list_lookup_insert_ne. }
    unfold turn_workers. destruct n; [|done]. apply list_elem_of_fmap. by exists (WReturned c).
Qed.

Lemma returned_after n (ws : list Worker) i w' c :
  WReturned c ∈ turn_workers n i w' ws → WReturned c ∈ ws ∨ w' = WReturned c.
Proof.
  intros (v & Hv & Hu)%elem_of_turn_workers. assert (v = WReturned c) as ->.
  { destruct Hu as [->|[_ Hu]]; [done|]. by destruct v. }
  by destruct Hv as [<-|Hv]; [right|left].
Qed.

Lemma turn_workers_new (n : bool) (ws : list Worker) i w c :
  ws !! i = Some w → WReturned c ∈ turn_workers n i (WReturned c) ws.
Proof.
  intros Hi. assert (WReturned c ∈ <[i := WReturned c]> ws) as Hin.
  { apply list_elem_of_lookup. exists i. apply list_lookup_insert_eq. by eapply lookup_lt_Some. }
  unfold turn_workers. destruct n; [|done]. apply list_elem_of_fmap. by exists (WReturned c).
Qed.

Definition target_kept (init : list Candidate) (s s' : Search) : Prop :=
  ∀ l p, l ∈ all_leaves init → prepare l = Some p → is_finite (score p) = true → target_inv l p s → target_inv l p s'.

Lemma worker_result init cuts i w (s s' : Search) :
  search_inv height init cuts s → messages_defined s → result_inv init s →
  workers s !! i = Some w → can_run w = true → worker_step i s = Some s' →
  result_inv init s' ∧ target_kept init s s'.
Proof.
  intros Hinv Hm Hri Hi Hr Hs.
  destruct (worker_step_inv height Hnarrows init cuts i w s s' Hinv Hi Hr Hs)
    as (Hinv' & w' & l' & n & Ht & Hl & Hc & Hw & _ & Hb & Hch & Hst & Hls & Hev).
  destruct (pending_turn s s' n i w w' l' Hi Hl Hw) as [Hp1 Hp2].
  pose proof Hri as [H1 H2 H3 H4 H5 H6 H7 H8].
  assert (∀ t, reached s t → reached s' t) as Hre by (intros t; apply reached_ext; [by rewrite Hst|done]).
  split.
  - constructor; rewrite ?Hls, ?Hc, ?Hst, ?Hch; try done.
    + rewrite Hp2. rewrite Hp1 in H3. by eapply turn_computed.
    + intros c. rewrite Hw. intros [Hin|E]%returned_after; [by apply H4|]. subst w'.
      eapply elem_of_submseteq; [|exact (inv_once _ _ _ _ Hinv)]. inversion Ht as [| | | |c' E1 E2|]; subst. apply elem_of_app. right.
      rewrite Hp1, all_leaves_app, elem_of_app. right. cbn [held].
      rewrite option_list_some, all_leaves_cons, elem_of_app. left.
      rewrite leaves_unfold, E2 by done. by left.
    + destruct w; try (injection Hev as <-; done). destruct (prepare candidate) as [p|] eqn:E; [|done].
      injection Hev as <-. constructor; [|done]. exists candidate. split; [|done]. apply H4. by eapply list_elem_of_lookup_2.
    + intros b. rewrite Hb. intros Hbt. by apply Hre, H8.
  - intros l p Hl0 Hp Hfin [Hre0|[Hpend|[Hret|Heval]]].
    + left. by apply Hre.
    + rewrite Hp1 in Hpend. rewrite Hp1 in H3.
      destruct (turn_target w (lock s) w' l' n _ l Ht H3 Hpend) as [Hin|[->|(c & Hcc & Hlc & Hcut)]].
      * right. left. by rewrite Hp2.
      * right. right. left. rewrite Hw. by eapply turn_workers_new.
      * left. apply Hre. by eapply dropped_reached.
    + destruct (returned_before n (workers s) i w w' l Hi Hret) as [Hin| ->].
      * right. right. left. by rewrite Hw.
      * right. right. right. rewrite Hp in Hev. injection Hev as <-. by left.
    + right. right. right. destruct w; try (injection Hev as <-; done). destruct (prepare candidate); [|done].
      injection Hev as <-. by right.
Qed.

Lemma spurious_result init (s s' : Search) :
  result_inv init s → spurious_wakeup s s' → result_inv init s' ∧ target_kept init s s'.
Proof.
  intros Hri Hs. revert Hri. destruct Hs as [i s1 Hi]. intros Hri. pose proof Hri as [H1 H2 H3 H4 H5 H6 H7 H8].
  assert (pending (spurious_step i s1) ≡ₚ pending s1) as Hp.
  { unfold pending. cbn [lock workers spurious_step]. apply Permutation_app_head.
    pose proof (omap_insert_perm held (workers s1) i WWaiting WWoken Hi) as Hp. by cbn in Hp. }
  split.
  - constructor; [exact H1|exact H2|by rewrite Hp| |exact H5|exact H6|exact H7|exact H8].
    intros c. cbn [workers spurious_step]. intros [|Hin]%elem_of_insert; [done|by apply H4].
  - intros l p _ _ _ [?|[?|[Hret|?]]]; [by left|right; left; by rewrite Hp| |by right; right; right].
    right. right. left. cbn [workers spurious_step]. destruct (returned_before false (workers s1) i WWaiting WWoken l Hi Hret); done.
Qed.

(** ** Evaluations *)
Lemma leaf_of_bound init p t :
  Forall computed init → leaf_of init p → kernel_time p = Some t → (bound p ≤ t)%f64.
Proof.
  intros Hinit (l & (c & Hc & Hl)%elem_of_all_leaves & Hp) Ht. rewrite Forall_forall in Hinit.
  destruct (leaves_computed c l (Hinit c Hc) Hl) as (Hcl & _ & Hll). unfold prepare in Hp.
  destruct (fix_order (space l)) as [sp|] eqn:E; [|done]. injection Hp as <-. cbn [bound].
  apply (Hsound l l (mkCandidate sp (bound l) (depth l) (actions l)) t Hcl); [rewrite Hll; by left| |done].
  unfold prepare. by rewrite E.
Qed.

(** What the stabilizer measures: the runtime, unless the bound shows that it is not
    better than the best time. *)
Lemma measured_cases init p best m :
  Forall computed init → leaf_of init p → stable_measures p best m →
  (default INFINITY m = INFINITY ∧ ∀ t, kernel_time p = Some t → ∃ b, best = Some b ∧ (b ≤ t)%f64) ∨
  ∃ t, m = Some t ∧ kernel_time p = Some t ∧ is_finite t = true.
Proof.
  intros Hinit Hp. destruct Htimes as [Hskip Ht]. unfold stable_measures, kernel_time.
  destruct (kernel_evaluate (kernel p)) as [[t|] k'] eqn:E; cbn [fst].
  - destruct (Ht p t) as [Hfin Hthr]; [unfold kernel_time; by rewrite E|].
    assert ((bound p ≤ t)%f64) as Hb by (eapply leaf_of_bound; [done|done|unfold kernel_time; by rewrite E]).
    rewrite (stable_evaluate_first _ _ _ _ _ t k' Hskip E) by (by eapply f64_le_trans).
    destruct best as [b|]; [destruct (SFleb b (bound p)) eqn:Eb|]; intros [= <-].
    + left. split; [done|]. intros t' [= <-]. eexists. split; [done|]. by eapply f64_le_trans.
    + right. by exists t.
    + right. by exists t.
  - unfold stable_evaluate. rewrite Hskip, E. destruct (match best with Some _ => _ | None => _ end); intros [= <-]; by left.
Qed.

Lemma evaluate_leaf_cases init p best m :
  Forall computed init → leaf_of init p → stable_measures p best m → (∀ b, best = Some b → is_nan b = false) →
  let r := evaluate_leaf config check_result_fn p m best in
  is_nan r.1 = false ∧
  (r.1 = score p ∨ r.1 = INFINITY ∨ ∃ b, best = Some b ∧ (b ≤ r.1)%f64) ∧
  (is_finite (score p) = true → r.1 = score p ∨ ∃ b, best = Some b ∧ (b ≤ score p)%f64) ∧
  (∀ b, r.2 = Some b → best = Some b ∨ r.1 = b).
Proof.
  intros Hinit Hp Hm Hbest. cbn zeta. unfold evaluate_leaf.
  destruct (measured_cases init p best m Hinit Hp Hm) as [[-> Hskip]|(t & -> & Ht & Hfin)].
  - assert (∀ b : bool, is_finite INFINITY && b = false) as Hinf by done. destruct check_result_fn as [check|]; rewrite !Hinf; cbn [fst snd];
      (split; [done|]; split; [by right; left|]; split; [|by left]); intros Hs; right;
      destruct (score_le p _ eq_refl Hs) as [Hk _]; destruct (Hskip _ Hk) as (b0 & Hb0 & Hle); by exists b0.
  - cbn [default id]. rewrite Hfin. cbn [andb].
    assert (∀ e : f64, is_finite e = true →
      bool_decide (best = None) || opt_ltb (Some e) best = false → ∃ b, best = Some b ∧ (b ≤ e)%f64) as Hnot.
    { intros e He. destruct best as [b|]; [|done]. cbn. intros Hlt. exists b. split; [done|].
      apply not_lt_le; [by apply finite_no_nan|by apply Hbest|congruence]. }
    assert (∀ e b, (if is_finite e && (bool_decide (best = None) || opt_ltb (Some e) best) then Some e else best) = Some b →
      best = Some b ∨ e = b) as Hnew.
    { intros e b. destruct (_ && _); [|by left]. intros [= ->]. by right. }
    assert (score p = if valid p then t else INFINITY) as Hscore by (unfold score; by rewrite Ht). unfold valid in Hscore.
    destruct check_result_fn as [check|]; cbn [fst snd].
    + destruct (check_all config || bool_decide (best = None) || opt_ltb (Some t) best) eqn:Ec; cbn [fst snd].
      * rewrite <-Hscore. split_and!; [|by left|by left|apply Hnew].
        rewrite Hscore. destruct (check p); [by apply finite_no_nan|done].
      * assert (bool_decide (best = None) || opt_ltb (Some t) best = false) as Hno
          by (destruct (check_all config), (bool_decide _); done).
        destruct (Hnot t Hfin Hno) as (b & Hb & Hle). split_and!; [by apply finite_no_nan|by right; right; exists b| |apply Hnew].
        intros Hs. right. exists b. split; [done|]. rewrite Hscore in *. by destruct (check p).
    + split_and!; [by apply finite_no_nan|by left|by left|apply Hnew].
Qed.

Lemma fold_best_defined m msgs f :
  (∀ b, m = Some b → is_nan b = false) → Forall (λ m, is_nan m.2 = false) msgs → fold_best m msgs = Some f → is_nan f = false.
Proof.
  intros Hm Hall. revert m Hm. induction Hall as [|[c e] msgs He Hall IH]; intros m Hm; [apply Hm|].
  apply (IH (next_best m e)). intros b. destruct m as [b'|]; cbn; [|by intros [= <-]].
  destruct (SFltb e b'); intros [= <-]; [done|by apply Hm].
Qed.

Lemma reached_send init (s s' : Search) c e :
  result_inv init s → messages_defined s → is_nan e = false →
  best_candidate (status s') = best_candidate (status s) → channel s' = channel s ++ [(c, e)] →
  (∀ t, reached s t → reached s' t) ∧ reached s' e.
Proof.
  intros Hri Hm He Hb Hc. unfold reached. rewrite Hb, Hc, fold_best_app. split.
  - intros t (f & -> & Hf). destruct (le_no_nan _ _ Hf) as [Hn _].
    destruct (next_best_le (Some f) e f He eq_refl Hn) as (g & Hg & Hgf & _). exists g. split; [done|]. by eapply f64_le_trans.
  - destruct (fold_best _ _) as [f|] eqn:E; [|exists e; split; [done|by apply f64_le_refl]].
    assert (is_nan f = false) as Hn.
    { eapply fold_best_defined; [|exact Hm|exact E]. intros b.
      destruct (best_candidate (status s)) as [[cb eb]|] eqn:Eb; [|done]. intros [= <-].
      by destruct (ri_best _ _ Hri _ _ Eb) as (_ & ? & _). }
    destruct (next_best_le (Some f) e f He eq_refl Hn) as (g & Hg & _ & Hge & _). by exists g.
Qed.

Lemma evaluate_result init leaf rest m (s : Search) :
  Forall computed init → messages_defined s → result_inv init s →
  evaluating s ≡ₚ leaf :: rest → stable_measures leaf (best_time s) m →
  let s' := evaluate_step config check_result_fn leaf rest m s in
  result_inv init s' ∧ messages_defined s' ∧ target_kept init s s'.
Proof.
  intros Hinit Hm Hri He Hms. cbn zeta. pose proof Hri as [H1 H2 H3 H4 H5 H6 H7 H8].
  destruct (evaluate_step_fields config check_result_fn leaf rest m s) as (E1 & E2 & E3 & E4 & E5 & E6 & E7 & E8).
  set (s' := evaluate_step _ _ _ _ _ _) in *. rewrite He in H5. apply Forall_cons in H5 as [Hleaf Hrest].
  assert (∀ b, best_time s = Some b → is_nan b = false) as Hb.
  { intros b Hb. destruct (H8 b Hb) as (f & _ & Hf). by apply le_no_nan in Hf as [_ ?]. }
  destruct (evaluate_leaf_cases init leaf (best_time s) m Hinit Hleaf Hms Hb) as (Hn & Hr & Ht & Hnb).
  destruct (reached_send init s s' leaf _ Hri Hm Hn) as [Hre Hnew]; [by rewrite E7|done|].
  split; [|split].
  - constructor; rewrite ?E1, ?E7, ?E8; try done.
    + rewrite E6. apply messages_ok_app; [done|done|done|]. destruct Hr as [Hr|[Hr|(b & Hb' & Hle)]]; [by left|by right; left|].
      right. right. destruct (H8 b Hb') as (f & Hf & Hfb). exists f. split; [exact Hf|]. by eapply f64_le_trans.
    + intros b. rewrite E5. intros [Hb'|<-]%Hnb; [by apply Hre, H8|done].
  - unfold messages_defined. rewrite E6. apply Forall_app. split; [done|]. by apply Forall_singleton.
  - intros l p _ _ Hfin [Hr0|[Hp|[Hret|Hin]]].
    + left. by apply Hre.
    + right. left. unfold pending in *. by rewrite E1, E2.
    + right. right. left. by rewrite E2.
    + rewrite He in Hin. apply elem_of_cons in Hin as [->|Hin]; [|right; right; right; by rewrite E4].
      left. destruct (Ht Hfin) as [<-|(b & Hb' & Hle)]; [done|]. apply Hre.
      destruct (H8 b Hb') as (f & Hf & Hfb). exists f. split; [exact Hf|]. by eapply f64_le_trans.
Qed.

(** What the monitor does with a message, while it listens. *)
Lemma monitor_step_lock (s s' : Search) leaf eval rest :
  listening s = true → channel s = (leaf, eval) :: rest → monitor_step config s = Some s' →
  (if is_new_best (status s) eval then parallel_update_cut eval (lock s) else Some (lock s)) = Some (lock s') ∧
  workers s' = workers s ∧ explored s' = explored s ∧ evaluating s' = evaluating s ∧ best_time s' = best_time s ∧
  channel s' = rest ∧ listening s' = true ∧ best_candidate (status s') = after_message leaf eval (status s).
Proof.
  intros Hls Hch. unfold monitor_step, handle_message, after_message. rewrite Hch, Hls, get_new_cut_exact, Hmax.
  cbn [store_commit_evaluation store_update_cut parallel_list_store mbind option_bind].
  destruct (is_new_best (status s) eval); [destruct (parallel_update_cut eval (lock s)) as [l|]; [|done]|];
    cbn [mbind option_bind]; by destruct (is_infinite eval); intros [= <-].
Qed.

Lemma monitor_best init (s s' : Search) leaf eval rest :
  listening s = true → channel s = (leaf, eval) :: rest → monitor_step config s = Some s' →
  result_inv init s → messages_defined s →
  snd <$> best_candidate (status s') = next_best (snd <$> best_candidate (status s)) eval ∧
  ∀ t, reached s t ↔ reached s' t.
Proof.
  intros Hls Hch Hs Hri Hm. destruct (monitor_step_lock s s' leaf eval rest Hls Hch Hs) as (_ & _ & _ & _ & _ & Hc & _ & Hb).
  assert (snd <$> best_candidate (status s') = next_best (snd <$> best_candidate (status s)) eval) as E.
  { rewrite Hb. unfold after_message, is_new_best. destruct (best_candidate (status s)) as [[cb e]|]; [|done]. cbn.
    by destruct (SFltb eval e). }
  split; [exact E|]. intros t. unfold reached. rewrite E, Hch, Hc. done.
Qed.

Lemma monitor_result_step init cuts (s s' : Search) :
  search_inv height init cuts s → result_inv init s → messages_defined s → monitor_step config s = Some s' →
  result_inv init s' ∧ target_kept init s s'.
Proof.
  intros Hinv Hri Hm Hs. pose proof Hri as [H1 H2 H3 H4 H5 H6 H7 H8].
  destruct (channel s) as [|[leaf eval] rest] eqn:Hch; [unfold monitor_step in Hs; by rewrite Hch in Hs|].
  destruct (monitor_step_lock s s' leaf eval rest H1 Hch Hs) as (Hl & Hw & He & Hev & Hbt & Hc & Hls & Hb).
  destruct (monitor_best init s s' leaf eval rest H1 Hch Hs Hri Hm) as [Hsnd Hre].
  cbn [messages_ok] in H6. destruct H6 as (Hleaf & Hn & Hscore & Hrest).
  assert (list_ok (lock s).1) as Hlist by exact (inv_list _ _ _ _ Hinv).
  assert (∃ P : Candidate → bool, heap_elements (queue (lock s').1) ≡ₚ filter (λ c, P c = true) (heap_elements (queue (lock s).1)) ∧
    (∀ c, P c = false → ¬ (bound c < cut (lock s').1)%f64) ∧
    cut (lock s').1 = match best_candidate (status s') with Some (_, e) => e | None => INFINITY end)
    as (P & HP & Hdrop & Hcut).
  { rewrite Hb. unfold after_message. destruct (is_new_best (status s) eval) eqn:Enew.
    - unfold parallel_update_cut in Hl. destruct (update_cut_spec (lock s).1 eval Hlist Hn) as (l & El & Hlo & Hlc & Hle).
      rewrite El in Hl. injection Hl as <-. cbn [fst]. exists (λ c, SFltb (bound c) eval). rewrite Hlc.
      split; [done|]. split; [|done]. intros c. congruence.
    - injection Hl as <-. exists (λ _, true). rewrite filter_all; [by split_and!|by intros]. }
  assert (result_inv init s') as Hri'.
  { constructor; try done.
    - unfold pending in *. rewrite Hw, HP. apply Forall_app in H3 as [H3a H3b]. apply Forall_app. split; [|done].
      rewrite Forall_forall in *. intros x [_ Hx]%list_elem_of_filter. by apply H3a.
    - intros c. rewrite Hw. apply H4.
    - by rewrite Hev.
    - by rewrite Hsnd, Hc.
    - intros c e. rewrite Hb. unfold after_message, is_new_best. destruct (best_candidate (status s)) as [[cb eb]|] eqn:Eb.
      + destruct (SFltb eval eb) eqn:Elt; intros [= <- <-]; [|by eapply H7]. split_and!; [done|done|].
        destruct Hscore as [?|[->|(b & [= <-] & Hle)]]; [by left|by right|]. by apply f64_lt_not_le in Elt.
      + intros [= <- <-]. split_and!; [done|done|].
        destruct Hscore as [?|[->|(b & [=] & Hle)]]; [by left|by right].
    - intros b. rewrite Hbt. intros Hbt'. by apply Hre, H8. }
  split; [done|]. intros l p Hl0 Hp Hfin [Hr|[Hpend|[Hret|Hin]]].
  - left. by apply Hre.
  - unfold pending in Hpend. rewrite all_leaves_app, elem_of_app in Hpend. destruct Hpend as [Hpend|Hpend].
    + apply elem_of_all_leaves in Hpend as (c & Hcq & Hlc). unfold pending in H3. apply Forall_app in H3 as [H3 _].
      rewrite Forall_forall in H3. destruct (P c) eqn:EP.
      * right. left. unfold pending. rewrite all_leaves_app, elem_of_app. left. apply elem_of_all_leaves. exists c.
        split; [|done]. rewrite HP. by apply list_elem_of_filter.
      * left. apply (dropped_reached init s' c l p Hri'); [|by apply H3|done|done|done|by apply Hdrop].
        unfold messages_defined in *. rewrite Hc, Hch in *. by apply Forall_cons in Hm as [_ ?].
    + right. left. unfold pending. rewrite Hw, all_leaves_app, elem_of_app. by right.
  - right. right. left. by rewrite Hw.
  - right. right. right. by rewrite Hev.
Qed.

(** ** The whole search *)
Record whole_inv (init : list Candidate) (s : Search) : Prop := {
  wi_search : ∃ cuts, search_inv height init cuts s;
  wi_messages : messages_defined s;
  wi_result : result_inv init s
}.

Lemma whole_step init (s s' : Search) :
  Forall computed init → whole_inv init s → any_step s s' → whole_inv init s' ∧ target_kept init s s'.
Proof.
  intros Hinit [[cuts Hinv] Hm Hri] [Hs|Hs]; [destruct Hs as [i w s s' Hi Hr Hs|leaf rest m s He Hms|s s' Hs]|].
  - destruct (worker_step_inv height Hnarrows init cuts i w s s' Hinv Hi Hr Hs) as (Hinv' & w' & l' & n & _ & _ & _ & _ & _ & _ & Hch & _).
    destruct (worker_result init cuts i w s s' Hinv Hm Hri Hi Hr Hs) as [Hri' Hk]. split; [|done].
    constructor; [by exists cuts|unfold messages_defined; by rewrite Hch|done].
  - destruct (evaluate_result init leaf rest m s Hinit Hm Hri He Hms) as (Hri' & Hm' & Hk). split; [|done].
    constructor; [|done|done]. exists cuts. by apply (search_inv_ext height init cuts s).
  - destruct (monitor_result_step init cuts s s' Hinv Hri Hm Hs) as [Hri' Hk]. split; [|done].
    destruct (channel s) as [|[leaf eval] rest] eqn:Hch; [unfold monitor_step in Hs; by rewrite Hch in Hs|].
    unfold messages_defined in Hm. rewrite Hch in Hm. apply Forall_cons in Hm as [Hn Hm].
    destruct (monitor_step_inv height Hnarrows config) with (init := init) (cuts := cuts) (leaf := leaf) (eval := eval) (rest := rest) (s := s)
      as (s1 & ks & E & Hinv' & _ & _ & _ & _ & Hc1 & _); [|done|done|done|].
    { intros e. by rewrite get_new_cut_exact. }
    rewrite Hs in E. injection E as <-. constructor; [by eexists|unfold messages_defined; by rewrite Hc1|done].
  - pose proof (spurious_inv height init cuts s s' Hs Hinv) as Hinv'.
    destruct (spurious_result init s s' Hri Hs) as [Hri' Hk]. split; [|done].
    constructor; [by exists cuts| |done]. by destruct Hs.
Qed.

Lemma whole_start init s0 :
  1 ≤ num_workers config → Forall computed init → search_start config init = Some s0 →
  whole_inv init s0 ∧
  ∀ l p, l ∈ all_leaves init → prepare l = Some p → is_finite (score p) = true → target_inv l p s0.
Proof.
  intros Hn Hinit Hs.
  destruct (search_start_inv height Hnarrows config init Hn)
    as (s1 & E & Hinv & Hc & Hw & He & Hev & Hbt & Hch & Hst & Hls & Hq).
  rewrite Hs in E. injection E as <-.
  assert (pending s0 ≡ₚ filter (λ c, SFltb (bound c) INFINITY = true) init) as Hp.
  { unfold pending. rewrite Hq, Hw. destruct (replicate_ready (Space := Space) (Act := Act) (num_workers config)) as [_ ->].
    by rewrite app_nil_r. }
  split.
  - constructor; [by eexists|unfold messages_defined; by rewrite Hch|]. constructor; rewrite ?Hst, ?Hch, ?Hbt, ?Hev; try done.
    + rewrite Hp. rewrite Forall_forall in *. intros x [_ Hx]%list_elem_of_filter. by apply Hinit.
    + intros c. rewrite Hw. intros Hd%elem_of_replicate. by destruct Hd.
  - intros l p (c & Hc' & Hl)%elem_of_all_leaves Hpr Hfin. right. left. rewrite Hp. apply elem_of_all_leaves.
    exists c. split; [|done]. apply list_elem_of_filter. split; [|done].
    rewrite Forall_forall in Hinit. destruct (score_le p _ eq_refl Hfin) as [Ht _].
    eapply f64_le_lt_trans; [eapply Hsound; [by apply Hinit|exact Hl|exact Hpr|exact Ht]|by apply finite_below_infinity].
Qed.

Lemma whole_reachable init s0 s :
  1 ≤ num_workers config → Forall computed init → search_start config init = Some s0 → rtc any_step s0 s →
  whole_inv init s ∧ ∀ l p, l ∈ all_leaves init → prepare l = Some p → is_finite (score p) = true → target_inv l p s.
Proof.
  intros Hn Hinit Hs Hrun. pose proof (whole_start init s0 Hn Hinit Hs) as H0'.
  revert s Hrun. refine (rtc_ind_r _ s0 H0' _). intros s1 s _ Hstep [Hi Ht].
  destruct (whole_step init s1 s Hinit Hi Hstep) as [Hi' Hk]. split; [done|]. intros l p Hl Hp Hfin. by apply (Hk l p), Ht.
Qed.

(** C1: when the exhaustive search is over, without a limit on the evaluations, and if
    the bounds are below the runtimes of the implementations, the monitor keeps a valid
    implementation whose runtime is the smallest of all the valid implementations of the
    search space that can be run, as soon as there is one; what the monitor keeps is in
    any case an implementation of the search space, with its exact runtime when this is
    finite.  Nothing depends on the order in which the workers, the evaluator and the
    monitor proceed. *)
Theorem find_best_optimal init s0 s :
  restart_every_n_evals config = None → 1 ≤ num_workers config → Forall computed init → search_start config init = Some s0 →
  reachable config check_result_fn stable_measures s0 s → search_done s →
  (∀ l p, l ∈ all_leaves init → prepare l = Some p → is_finite (score p) = true →
    ∃ best, best_candidate (status s) = Some (best, score best) ∧ (score best ≤ score p)%f64 ∧
      leaf_of init best ∧ valid best = true) ∧
  (∀ best e, best_candidate (status s) = Some (best, e) →
    leaf_of init best ∧ (is_finite e = true → e = score best)).
Proof.
  intros _ Hn Hinit Hs Hrun (Hdone & Hev & Hch).
  destruct (whole_reachable init s0 s Hn Hinit Hs Hrun) as [[[cuts Hinv] Hm Hri] Ht]. split.
  - intros l p Hl Hp Hfin.
    assert (pending s = []) as Hpend.
    { apply (done_pending height init cuts); [done|]. pose proof (inv_active _ _ _ _ Hinv) as Ha.
      destruct (inv_alive _ _ _ _ Hinv) as [Hal|Hal]; [|done]. exfalso. rewrite Ha in Hal. clear -Hdone Hal.
      induction Hdone as [|w ws <- Hdone IH]; [cbn in Hal; lia|]. apply IH. exact Hal. }
    destruct (Ht l p Hl Hp Hfin) as [Hr|[Hin|[Hin|Hin]]].
    + unfold reached in Hr. rewrite Hch in Hr. destruct Hr as (f & Hf & Hle). unfold fold_best in Hf. cbn in Hf.
      destruct (best_candidate (status s)) as [[c e]|] eqn:Eb; [|done]. cbn in Hf. injection Hf as ->.
      destruct (ri_best _ _ Hri c f Eb) as (Hleaf & Hnan & Hsc).
      assert (f = score c) as ->.
      { destruct Hsc as [| ->]; [done|]. by apply f64_lt_not_le in Hle; [|apply finite_below_infinity]. }
      exists c. split_and!; [done|done|done|]. destruct (valid c) eqn:Ev; [done|].
      assert (score c = INFINITY) as Einf by (unfold score; rewrite Ev; by destruct (kernel_time c)).
      rewrite Einf in Hle. by apply f64_lt_not_le in Hle; [|apply finite_below_infinity].
    + rewrite Hpend in Hin. by apply elem_of_nil in Hin.
    + rewrite Forall_forall in Hdone. by specialize (Hdone _ Hin).
    + rewrite Hev in Hin. by apply elem_of_nil in Hin.
  - intros best e Eb. destruct (ri_best _ _ Hri best e Eb) as (Hleaf & _ & [Hsc| ->]); by split.
Qed.
End result.

(** The search of the example finds the implementation of runtime 5: the one of runtime 3
    is not valid. *)
Lemma small_sound : sound_bounds small_height small_run space.
Proof.
  intros c l p t. unfold computed. destruct c as [s b d a]. cbn [space bound]. intros ->. unfold leaves. cbn [space].
  destruct s; cbn; rewrite ?elem_of_cons, ?elem_of_nil; intros Hl Hp Ht; unfold prepare in Hp; unfold kernel_time in Ht;
    repeat (destruct Hl as [->|Hl] || destruct Hl); cbn in Hp; injection Hp as <-; cbn in Ht; injection Ht as <-;
    vm_compute; reflexivity.
Qed.

Lemma find_best_optimal_witness :
  ∃ s0 s, search_start small_config [small_root] = Some s0 ∧
    reachable small_config (Some small_check) (stable_measures small_run space small_stabilizer) s0 s ∧ search_done s ∧
    (∃ best, best_candidate (status s) = Some (best, score small_run space (Some small_check) best)).
Proof.
  destruct small_search as (s0 & s & E0 & E & Hd). apply is_done_ok in Hd.
  pose proof (performs_reachable _ _ _ (stable_measures small_run space small_stabilizer) (λ _ _ _ E, E) _ _ _ E) as Hrun.
  exists s0, s. do 3 (split; [done|]).
  destruct (find_best_optimal small_height small_narrows small_run space small_stabilizer small_config (Some small_check)
    eq_refl eq_refl eq_refl (conj eq_refl small_times) small_sound [small_root] s0 s eq_refl ltac:(cbn; lia)
    ltac:(by repeat constructor) E0 Hrun Hd) as [Hbest _].
  destruct (leaves small_height small_root) as [|l ls] eqn:El; [by vm_compute in El|].
  destruct (Hbest l l) as (best & Hb & _).
  - unfold ParallelFacts.all_leaves. cbn [fmap list_fmap]. rewrite El. by left.
  - vm_compute in El. by injection El as <- _.
  - vm_compute in El. injection El as <- _. vm_compute. reflexivity.
  - by exists best.
Defined.
