(* ===== verification/SearchProgress.v ===== *)
(** * The exhaustive search: it ends

    No thread waits forever: while the search is not over, some thread can take a step,
    and every step of a thread decreases a measure.  A wakeup that no thread asked for
    only lets one worker look at the list once more. *)
From S2P Require Import Prelude Types Utils Orders Float64 Config Candidates CandidateList Stabilizer Monitor ParallelSearch SearchExample ParallelFacts.
From Stdlib Require Import Floats.SpecFloat.

Section progress.
Context {Space Act : Type} `{SearchSpaceOps Space Act} `{IntervalHeap (Candidate Space Act)}.
Context `{!IntervalHeapOk (Candidate Space Act) candidate_cmp no_nan}.
Notation Candidate := (Candidate Space Act).
Notation Locked := (@Locked Space Act _).
Notation Worker := (Worker Space Act).
Notation Search := (Search Space Act _).
Context (height : Space → nat) (Hnarrows : narrows height).
Context (config : Config) (check_result_fn : option (Candidate → bool)).
Context (measures : Candidate → option f64 → option f64 → Prop).
Context (Hcut : cut_defined config) (Hmeasures : measures_defined measures).

Notation search_step := (search_step config check_result_fn measures).
Notation any_step := (any_step config check_result_fn measures).

(** ** The measure *)
Section measure.
Context (N : nat).

Definition tree_size (cs : list Candidate) : nat := sum_list_with (nodes height) cs.

Definition work (w : Worker) : nat :=
  match w with
  | WDone => 0
  | WWaiting => N + 1
  | WReady | WWoken => N + 2
  | WReturned _ => N + 5
  | WHolding c => N + 1 + (N + 5) * nodes height c
  end.

Definition remaining (s : Search) : nat :=
  (N + 5) * tree_size (heap_elements (queue (lock s).1)) + sum_list_with work (workers s) +
  2 * length (evaluating s) + length (channel s).

Lemma nodes_positive c : 1 ≤ nodes height c.
Proof. rewrite nodes_unfold by done. lia. Qed.

Lemma wake_work (ws : list Worker) : sum_list_with work (notify_all ws) ≤ sum_list_with work ws + length ws.
Proof. unfold notify_all. induction ws as [|w ws IH]; [done|]. cbn. destruct w; cbn; lia. Qed.

Lemma turn_work n (ws : list Worker) i w w' :
  ws !! i = Some w → length ws = N →
  sum_list_with work (turn_workers n i w' ws) + work w ≤ sum_list_with work ws + work w' + (if n then N else 0).
Proof.
  intros Hi Hlen. pose proof (sum_list_with_insert work ws i w w' Hi) as Hs. unfold turn_workers. destruct n; [|lia].
  pose proof (wake_work (<[i := w']> ws)) as Hw. rewrite length_insert, Hlen in Hw. lia.
Qed.

Lemma nodes_children c : nodes height c = S (tree_size (children c)).
Proof. rewrite nodes_unfold by done. f_equal. unfold tree_size. induction (children c) as [|c' cs IH]; [done|]. cbn in *. by rewrite IH. Qed.

Lemma turn_decreases w (l : Locked) w' l' n (ws : list Worker) i (added : nat) :
  turn_effect w l w' l' n → ws !! i = Some w → length ws = N →
  added ≤ (match w with WReturned _ => 2 | _ => 0 end) →
  (N + 5) * tree_size (heap_elements (queue l'.1)) + sum_list_with work (turn_workers n i w' ws) + added <
  (N + 5) * tree_size (heap_elements (queue l.1)) + sum_list_with work ws.
Proof.
  intros Ht Hi Hlen Hadd. pose proof (turn_work n ws i w w' Hi Hlen) as Hw.
  assert (∀ c cs, tree_size (c :: cs) = nodes height c + tree_size cs) as Hcons by done.
  assert (∀ cs ds, tree_size (cs ++ ds) = tree_size cs + tree_size ds) as Happ
    by (intros; apply sum_list_with_app).
  destruct Ht as [c l' Hor He _|l' Hor He He' _ _|l' Hor He He' _ _|c l' -> Hc He _|c -> Hc|c ->]; unfold tree_size in *.
  - assert (work w = N + 2) as Ew by (by destruct Hor as [->| ->]).
    assert (added = 0) as -> by (destruct Hor as [->| ->]; lia). rewrite He, Hcons. cbn [work] in Hw. lia.
  - assert (work w = N + 2) as Ew by (by destruct Hor as [->| ->]).
    assert (added = 0) as -> by (destruct Hor as [->| ->]; lia). rewrite He, He'. cbn [work] in Hw. cbn [sum_list_with foldr]. lia.
  - assert (work w = N + 2) as Ew by (by destruct Hor as [->| ->]).
    assert (added = 0) as -> by (destruct Hor as [->| ->]; lia). rewrite He, He'. cbn [work] in Hw. lia.
  - assert (added = 0) as -> by lia. rewrite He, Happ.
    pose proof (sum_list_with_filter (nodes height) (λ c, SFltb (bound c) (cut l.1) = true) (children c)) as Hf.
    cbn [work] in Hw. rewrite nodes_children in Hw. unfold tree_size in Hw. nia.
  - assert (added = 0) as -> by lia. cbn [work] in Hw. pose proof (nodes_positive c). nia.
  - cbn [work] in Hw. lia.
Qed.

Lemma tree_size_submseteq cs ds : cs ⊆+ ds → tree_size cs ≤ tree_size ds.
Proof.
  unfold tree_size. intros (ks & ->)%submseteq_Permutation. rewrite sum_list_with_app. lia.
Qed.

Lemma turn_workers_length n (ws : list Worker) i w : length (turn_workers n i w ws) = length ws.
Proof. unfold turn_workers. destruct n; [unfold notify_all; rewrite length_fmap|]; apply length_insert. Qed.

(** ** Every step of a thread decreases the measure *)
Lemma step_decreases init cuts (s s' : Search) :
  search_inv height init cuts s → messages_defined s → length (workers s) = N → search_step s s' →
  remaining s' < remaining s ∧ length (workers s') = N.
Proof.
  intros Hinv Hm Hlen Hs. destruct Hs as [i w s s' Hi Hr Hs|leaf rest m s He Hms|s s' Hs].
  - destruct (worker_step_inv height Hnarrows init cuts i w s s' Hinv Hi Hr Hs)
      as (_ & w' & l' & n & Ht & Hl & _ & Hw & _ & _ & Hch & _ & _ & Hev).
    split; [|by rewrite Hw, turn_workers_length]. unfold remaining. rewrite Hl, Hch, Hw.
    assert (∃ added, 2 * length (evaluating s') = 2 * length (evaluating s) + added ∧
      added ≤ match w with WReturned _ => 2 | _ => 0 end) as (added & Hadd & Hle).
    { destruct w as [| | |c|c|]; try (injection Hev as <-; exists 0; split; lia).
      destruct (prepare c); [|done]. injection Hev as <-. exists 2. cbn [length]. split; lia. }
    pose proof (turn_decreases w (lock s) w' l' n (workers s) i added Ht Hi Hlen Hle). lia.
  - destruct (evaluate_step_fields config check_result_fn leaf rest m s) as (E1 & E2 & E3 & E4 & E5 & E6 & E7 & E8).
    unfold remaining. rewrite E1, E2, E4, E6, He, length_app. cbn [length]. split; [lia|done].
  - destruct (channel s) as [|[leaf eval] rest] eqn:Hch; [unfold monitor_step in Hs; by rewrite Hch in Hs|].
    unfold messages_defined in Hm. rewrite Hch in Hm. apply Forall_cons in Hm as [Hn Hm].
    destruct (monitor_step_inv height Hnarrows config Hcut init cuts leaf eval rest s Hinv Hch Hn)
      as (s1 & ks & E & _ & Hw & _ & Hev & _ & Hc1 & Hsub & _).
    rewrite Hs in E. injection E as <-. apply tree_size_submseteq in Hsub.
    unfold remaining. rewrite Hw, Hev, Hc1, Hch. cbn [length]. split; [nia|done].
Qed.

Lemma spurious_raises (s s' : Search) :
  spurious_wakeup s s' → remaining s' = remaining s + 1 ∧ length (workers s') = length (workers s).
Proof.
  intros [i s1 Hi]. unfold remaining, spurious_step. cbn [lock workers evaluating channel].
  pose proof (sum_list_with_insert work (workers s1) i WWaiting WWoken Hi) as Hs. cbn [work] in Hs.
  split; [lia|]. by rewrite length_insert.
Qed.
End measure.

(** ** No thread waits forever *)
Context (Htotal : ∀ c best, ∃ m, measures c best m).
Context (Hprepare : ∀ c, is_leaf c = true → ∃ p, prepare c = Some p).

Lemma worker_can_step init cuts i w (s : Search) :
  search_inv height init cuts s → workers s !! i = Some w → can_run w = true → ∃ s', worker_step i s = Some s'.
Proof.
  intros Hinv Hi Hr. pose proof (active_le _ _ _ Hi) as Hle. rewrite <-(inv_active _ _ _ _ Hinv) in Hle.
  destruct (worker_turn_effect w (lock s) (inv_list _ _ _ _ Hinv)) as (w' & l' & n & E & _); [intros ->; exact Hle|done|].
  unfold worker_step. rewrite Hi. cbn [mbind option_bind]. rewrite E. cbn [mbind option_bind].
  destruct w as [| | |c|c|]; try (by eexists). destruct (Hprepare c) as (p & ->); [|by eexists].
  apply (inv_returned _ _ _ _ Hinv). by eapply list_elem_of_lookup_2.
Qed.

Lemma no_deadlock init cuts (s : Search) :
  search_inv height init cuts s → messages_defined s → search_done s ∨ ∃ s', search_step s s'.
Proof.
  intros Hinv Hm. destruct (evaluating s) as [|leaf rest] eqn:He; cycle 1.
  { right. destruct (Htotal leaf (best_time s)) as (m & Hms). eexists. apply (StepEvaluate _ _ _ leaf rest m); [by rewrite He|done]. }
  destruct (channel s) as [|[leaf eval] rest] eqn:Hch; cycle 1.
  { right. unfold messages_defined in Hm. rewrite Hch in Hm. apply Forall_cons in Hm as [Hn _].
    destruct (monitor_step_inv height Hnarrows config Hcut init cuts leaf eval rest s Hinv Hch Hn) as (s1 & ks & E & _).
    exists s1. by apply StepMonitor. }
  destruct (decide (Forall (λ w, can_run w = false) (workers s))) as [Hall|Hnot]; cycle 1.
  { right. apply not_Forall_Exists in Hnot; [|apply _]. apply Exists_exists in Hnot as (w & Hw & Hr).
    apply list_elem_of_lookup in Hw as (i & Hi). pose proof (proj1 (not_false_iff_true _) Hr) as Hr'.
    destruct (worker_can_step init cuts i w s Hinv Hi Hr') as (s' & Hs). exists s'. by eapply StepWorker. }
  left. split; [|done]. rewrite Forall_forall in Hall.
  assert (WDone ∈ workers s) as Hd.
  { destruct (inv_alive _ _ _ _ Hinv) as [Ha|Ha]; [|done]. rewrite (inv_active _ _ _ _ Hinv) in Ha. exfalso. clear -Hall Ha.
    induction (workers s) as [|w ws IH]; [cbn in Ha; lia|]. cbn in Ha. assert (can_run w = false) as Hr by (apply Hall; by left).
    apply IH; [intros x Hx; apply Hall; by right|]. by destruct w. }
  destruct (inv_end _ _ _ _ Hinv Hd) as [_ Hw]. rewrite Forall_forall in *. intros w Hin.
  destruct (Hw w Hin) as [->| ->]; [done|]. by specialize (Hall _ Hin).
Qed.

(** Runs, with the number of steps of the threads and of spurious wakeups. *)
Inductive counted_run (s0 : Search) : nat → nat → Search → Prop :=
| CountedStart : counted_run s0 0 0 s0
| CountedStep k n s s' : counted_run s0 k n s → search_step s s' → counted_run s0 (S k) n s'
| CountedWakeup k n s s' : counted_run s0 k n s → spurious_wakeup s s' → counted_run s0 k (S n) s'.

(** C8: the exhaustive search never deadlocks and ends: as long as it is not over, a
    worker, the evaluator or the monitor can take a step; and a run with [n] spurious
    wakeups has at most as many steps as the size of the search trees, the number of
    workers and [n] allow. *)
Theorem exhaustive_search_ends candidates s0 k n s :
  restart_every_n_evals config = None → 1 ≤ num_workers config →
  search_start config candidates = Some s0 → counted_run s0 k n s →
  (search_done s ∨ ∃ s', search_step s s') ∧
  k ≤ (num_workers config + 5) * tree_size candidates + num_workers config * (num_workers config + 2) + n.
Proof.
  intros _ Hn Hs Hrun.
  destruct (search_start_inv height Hnarrows config candidates Hn)
    as (s1 & E & Hinv0 & Hc0 & Hw0 & He0 & Hev0 & Hb0 & Hch0 & Hst0 & Hl0 & Hq0).
  rewrite Hs in E. injection E as <-. set (N := num_workers config) in *.
  assert (remaining N s0 ≤ (N + 5) * tree_size candidates + N * (N + 2)) as H0'.
  { unfold remaining. rewrite Hw0, Hev0, Hch0. cbn [length].
    assert (sum_list_with (work N) (replicate N (@WReady Space Act)) = N * (N + 2)) as ->.
    { generalize N at 2 3 as j. intros j. induction j as [|j IH]; [done|]. cbn in *. rewrite IH. lia. }
    assert (tree_size (heap_elements (queue (lock s0).1)) ≤ tree_size candidates) as Ht
      by (apply tree_size_submseteq; rewrite Hq0; apply sublist_submseteq, sublist_filter).
    nia. }
  assert ((∃ cuts, search_inv height candidates cuts s) ∧ messages_defined s ∧ length (workers s) = N ∧
    k + remaining N s ≤ remaining N s0 + n) as ([cuts Hinv] & Hm & _ & Hk).
  { clear Hs. induction Hrun as [|k n s s' Hrun IH Hstep|k n s s' Hrun IH Hstep].
    - split; [by eexists|]. split; [unfold messages_defined; by rewrite Hch0|]. rewrite Hw0, length_replicate. split; [done|lia].
    - destruct IH as ([cuts Hinv] & Hm & Hlen & Hk).
      destruct (any_step_inv height Hnarrows config check_result_fn measures Hcut Hmeasures candidates cuts s s' Hinv Hm)
        as (Hm' & [ks Hinv'] & _); [by left|].
      destruct (step_decreases N candidates cuts s s' Hinv Hm Hlen Hstep) as [Hlt Hlen'].
      split; [by eexists|]. split; [done|]. split; [done|lia].
    - destruct IH as ([cuts Hinv] & Hm & Hlen & Hk).
      destruct (any_step_inv height Hnarrows config check_result_fn measures Hcut Hmeasures candidates cuts s s' Hinv Hm)
        as (Hm' & [ks Hinv'] & _); [by right|].
      destruct (spurious_raises N s s' Hstep) as [Heq Hlen'].
      split; [by eexists|]. split; [done|]. split; [congruence|lia]. }
  split; [by eapply no_deadlock|]. lia.
Qed.
End progress.

Lemma performs_counted {Space Act : Type} `{SearchSpaceOps Space Act} `{IntervalHeap (Candidate Space Act)}
    config check_result_fn measure measures ts (s0 s : Search Space Act _) :
  (∀ c best m, measure c best = Some m → measures c best m) →
  performs config check_result_fn measure ts s0 = Some s →
  ∃ k n, counted_run config check_result_fn measures s0 k n s ∧ k + n = length ts.
Proof.
  intros Hm. revert s. induction ts as [|t ts IH] using rev_ind; intros s; [intros [= <-]; exists 0, 0; split; [constructor|done]|].
  rewrite performs_snoc. destruct (performs _ _ _ ts s0) as [s1|]; [|done]. cbn [mbind option_bind]. intros E.
  destruct (IH s1 eq_refl) as (k & n & Hrun & Hkn). rewrite length_app. cbn [length].
  apply (perform_step _ _ _ measures Hm) in E as [E|[E _]].
  - exists (S k), n. split; [by eapply CountedStep|lia].
  - exists k, (S n). split; [by eapply CountedWakeup|lia].
Qed.

(** The run of the example has 23 turns. *)
Lemma exhaustive_search_ends_witness :
  ∃ s0 s k n, search_start small_config [small_root] = Some s0 ∧
    counted_run small_config (Some small_check) small_measures s0 k n s ∧ k + n = 23 ∧
    (search_done s ∨ ∃ s', search_step small_config (Some small_check) small_measures s s') ∧
    k ≤ 7 * tree_size small_height [small_root] + 8 + n.
Proof.
  destruct small_search as (s0 & s & E0 & E & _).
  destruct (performs_counted _ _ _ small_measures _ s0 s (λ _ _ _ E, E) E) as (k & n & Hrun & Hkn).
  exists s0, s, k, n. do 2 (split; [done|]). split; [by rewrite Hkn|].
  apply (exhaustive_search_ends small_height small_narrows small_config (Some small_check) small_measures small_cut_defined
    small_measures_defined) with (candidates := [small_root]) (s0 := s0); [|..|done|cbn; lia|exact E0|exact Hrun].
  - intros c best. destruct (small_measure_total c best) as (m & Hm & _). by exists m.
  - intros c _. by eexists.
Defined.
