(* ===== verification/Rollout.v ===== *)
(** * Rollouts and full explorations (src/src/explorer/local_selection.rs and [gen_space] of mod.rs)

    The policies that pick a child of a candidate, the descents that follow them with and
    without backtracking, and the depth-first exploration of the whole search space.
    Random numbers come from the crate rand: a generator is a state. *)
From S2P Require Import Prelude Types Utils Orders Float64 Config Candidates CandidateList SearchExample.
From Stdlib Require Import Floats.SpecFloat.

(** ** Random numbers

    [gen_range lo hi] is a number of [lo..hi]; [weighted_sample] is
    [WeightedChoice::new(items).sample()], the index of an item. *)
Class Rng (R : Type) := {
  gen_range : nat → nat → R → option (nat * R);
  weighted_sample : list Z → R → option (nat * R)
}.

(** What the crate documents: an empty range panics, and so does the choice without
    items, with a null total weight or one that does not fit [u32]; an item of null weight
    is not chosen. *)
Class RngOk (R : Type) `{Rng R} : Prop := {
  gen_range_ok lo hi r : lo < hi → ∃ n r', gen_range lo hi r = Some (n, r') ∧ lo ≤ n < hi;
  weighted_sample_ok ws r :
    Forall (Z.le 0) ws → (0 < foldr Z.add 0 ws < 2 ^ 32)%Z →
    ∃ i r', weighted_sample ws r = Some (i, r') ∧ ∃ w, ws !! i = Some w ∧ (0 < w)%Z
}.

(** A generator that always takes the first value. *)
#[export] Instance first_rng : Rng unit := {|
  gen_range lo hi r := if lo <? hi then Some (lo, r) else None;
  weighted_sample ws r := (λ '(i, _), (i, r)) <$> list_find (λ w, 0 < w)%Z ws
|}.

#[export] Instance first_rng_ok : RngOk unit.
Proof.
  constructor.
  - intros lo hi r Hlt. unfold gen_range, first_rng. rewrite (proj2 (Nat.ltb_lt lo hi) Hlt). exists lo, r. split; [done|lia].
  - intros ws r Hws Hsum. cbn.
    destruct (list_find (λ w, 0 < w)%Z ws) as [[i w]|] eqn:E.
    + apply list_find_Some in E as (Hi & Hw & _). exists i, r. split; [done|]. by exists w.
    + apply list_find_None in E. exfalso. assert (foldr Z.add 0 ws ≤ 0)%Z; [|lia]. clear Hsum Hws.
      induction E as [|w ws Hw _ IH]; cbn; lia.
Qed.

(** The conversion [as u32] of a float saturates; a float rounded down converts to the
    same integer. *)
Definition f64_as_u32 (a : f64) : Z :=
  let max := (2 ^ 32 - 1)%Z in
  match a with
  | S754_infinity false => max
  | S754_finite false m e => Z.min max (if (0 <=? e)%Z then Z.shiftl (Z.pos m) e else Z.shiftr (Z.pos m) (- e))
  | _ => 0%Z
  end.

(** [Iterator::min_by] and [max_by]: the first of the minima, the last of the maxima. *)
Section extrema.
Context {A : Type} (cmp : A → A → option comparison).

Fixpoint min_by_from (x : A) (l : list A) : option A :=
  match l with
  | [] => Some x
  | y :: l => c ← cmp x y; min_by_from (match c with Gt => y | _ => x end) l
  end.

Definition min_by (l : list A) : option (option A) :=
  match l with [] => Some None | x :: l => Some <$> min_by_from x l end.

Fixpoint max_by_from (x : A) (l : list A) : option A :=
  match l with
  | [] => Some x
  | y :: l => c ← cmp x y; max_by_from (match c with Gt => x | _ => y end) l
  end.

Definition max_by (l : list A) : option (option A) :=
  match l with [] => Some None | x :: l => Some <$> max_by_from x l end.
End extrema.

Section rollout.
Context {Space Act : Type} `{SearchSpaceOps Space Act} {R : Type} `{Rng R} `{Profile}.
Notation Candidate := (Candidate Space Act).

(** ** Policies *)
Definition choose_cand_best (nodes : list (nat * f64)) : option (option nat) :=
  best ← min_by (λ x1 x2, cmp_f64 x1.2 x2.2) nodes; Some (option_map fst best).

Definition choose_cand_rand (nodes : list (nat * f64)) (rng : R) : option (option nat * R) :=
  match length nodes with
  | 0 => Some (None, rng)
  | S _ as len => '(n, rng) ← gen_range 0 len rng; Some (fst <$> nodes !! n, rng)
  end.

(** The weight of a child: the additions on [u32] panic or wrap. *)
Definition cand_weight (max_bound cut x : f64) : option Z :=
  if is_infinite cut then uadd 32 1 (f64_as_u32 (f64_div (f64_mul (f64_of_Z 10) max_bound) x))
  else
    _ ← rassert (SFleb x cut);
    Some (Z.max 1 (f64_as_u32 (f64_mul (f64_of_Z 1000) (f64_sub (f64_of_Z 1) (f64_div x cut))))).

Definition choose_cand_weighted (nodes : list (nat * f64)) (cut : f64) (rng : R) : option (option nat * R) :=
  max_bound ← max_by (λ x1 x2, cmp_f64 x1.2 x2.2) nodes;
  match max_bound with
  | None => Some (None, rng)
  | Some (_, max_bound) =>
    weighted_items ← mapM (λ '(ind, x), weight ← cand_weight max_bound cut x; Some (ind, weight)) nodes;
    match weighted_items with
    | [] => Some (None, rng)
    | _ =>
      '(i, rng) ← weighted_sample (snd <$> weighted_items) rng;
      item ← weighted_items !! i;
      Some (Some item.1, rng)
    end
  end.

(** [NewNodeOrder::pick_index]. *)
Definition pick_index (self : NewNodeOrder) (nodes : list (nat * f64)) (cut : f64) (rng : R)
  : option (option nat * R) :=
  let nodes := filter (λ n, SFltb n.2 cut = true) nodes in
  match self with
  | OrderApi => Some (fst <$> head nodes, rng)
  | OrderWeightedRandom => choose_cand_weighted nodes cut rng
  | OrderBound => i ← choose_cand_best nodes; Some (i, rng)
  | OrderRandom => choose_cand_rand nodes rng
  end.

(** [NewNodeOrder::pick_candidate]. *)
Definition pick_candidate (self : NewNodeOrder) (new_nodes : list Candidate) (cut : f64) (rng : R)
  : option (option nat * R) :=
  pick_index self (imap (λ i c, (i, bound c)) new_nodes) cut rng.

(** ** Descents *)
Context (choice_order : ChoiceOrdering) (pick : list (nat * f64) → f64 → R → option (option nat * R)) (cut : f64).

Inductive StepResult :=
| StepNext (candidate : Candidate)
| DeadEnd
| Implementation.

(** [Rollout::step]. *)
Definition rollout_step (candidate : Candidate) (rng : R) : option (StepResult * R) :=
  match choice_list choice_order (space candidate) with
  | choice :: _ =>
    let children := apply_choice candidate choice in
    '(idx, rng) ← pick (imap (λ i c, (i, bound c)) children) cut rng;
    match idx with
    | Some idx => child ← children !! idx; Some (StepNext child, rng)
    | None => Some (DeadEnd, rng)
    end
  | [] => Some (Implementation, rng)
  end.

(** [Rollout::descend]; the result of the outermost option is that of the fuel and of the
    panics. *)
Fixpoint descend (fuel : nat) (candidate : Candidate) (rng : R) : option (option Candidate * R) :=
  match fuel with
  | 0 => None
  | S fuel =>
    '(r, rng) ← rollout_step candidate rng;
    match r with
    | StepNext next => descend fuel next rng
    | DeadEnd => Some (None, rng)
    | Implementation => Some (Some candidate, rng)
    end
  end.

(** [Rollout::descend_with_path]. *)
Fixpoint descend_with_path (fuel : nat) (candidate : Candidate) (path : list Candidate) (rng : R)
  : option (option Candidate * list Candidate * R) :=
  match fuel with
  | 0 => None
  | S fuel =>
    '(r, rng) ← rollout_step candidate rng;
    match r with
    | StepNext next => descend_with_path fuel next (path ++ [candidate]) rng
    | DeadEnd => Some (None, path ++ [candidate], rng)
    | Implementation => Some (Some candidate, path, rng)
    end
  end.

(** The loop of [descend_backtrack] over the children that were not tried yet. *)
Fixpoint backtrack_loop (descend_backtrack : Candidate → R → option (option Candidate * R)) (fuel : nat)
    (children : list (option Candidate)) (rng : R) : option (option Candidate * R) :=
  match fuel with
  | 0 => None
  | S fuel =>
    '(idx, rng) ← pick (omap id (imap (λ ix child, (λ c, (ix, bound c)) <$> child) children)) cut rng;
    match idx with
    | None => Some (None, rng)
    | Some ix =>
      child ← children !! ix;
      child ← child;
      '(r, rng) ← descend_backtrack child rng;
      match r with
      | Some implementation => Some (Some implementation, rng)
      | None => backtrack_loop descend_backtrack fuel (<[ix := None]> children) rng
      end
    end
  end.

(** [Rollout::descend_backtrack]. *)
Fixpoint descend_backtrack (fuel : nat) (candidate : Candidate) (rng : R) : option (option Candidate * R) :=
  match fuel with
  | 0 => None
  | S fuel =>
    match choice_list choice_order (space candidate) with
    | choice :: _ =>
      let children :=
        (λ action, match apply_decision candidate action with ROk child => Some child | RErr _ => None end) <$> choice in
      backtrack_loop (descend_backtrack fuel) (S (length children)) children rng
    | [] => Some (Some candidate, rng)
    end
  end.

(** ** What the descents find

    The implementations below a candidate, through choices in the given order and through
    candidates whose bound is below the cut. *)
Inductive below (c : Candidate) : Candidate → Prop :=
| BelowHere : choice_list choice_order (space c) = [] → below c c
| BelowChild choice rest action c' l :
  choice_list choice_order (space c) = choice :: rest → action ∈ choice → apply_decision c action = ROk c' →
  (bound c' < cut)%f64 → below c' l → below c l.

(** A policy picks a child below the cut as long as there is one, whatever the numbers. *)
Definition picks_below_cut : Prop :=
  ∀ nodes rng, ∃ o rng', pick nodes cut rng = Some (o, rng') ∧
    match o with
    | Some i => ∃ b, (i, b) ∈ nodes ∧ (b < cut)%f64
    | None => ∀ i b, (i, b) ∈ nodes → ¬ (b < cut)%f64
    end.

Context (height : Space → nat).

(** Every action of the choices considered narrows the search space. *)
Definition narrows_in : Prop :=
  ∀ s choice a s', choice ∈ choice_list choice_order s → a ∈ choice → apply_to a s = ROk s' → height s' < height s.

Context (Hpick : picks_below_cut) (Hnarrows : narrows_in).

Lemma choice_height c choice rest a c' :
  choice_list choice_order (space c) = choice :: rest → a ∈ choice → apply_decision c a = ROk c' →
  height (space c') < height (space c).
Proof.
  intros Hc Ha. unfold apply_decision. destruct (apply_to a (space c)) as [s|] eqn:E; [|done]. intros [= <-]. cbn [space].
  apply (Hnarrows (space c) choice a); [rewrite Hc; by left|done|done].
Qed.

Lemma elem_of_children_bounds (children : list (option Candidate)) i b :
  (i, b) ∈ omap id (imap (λ ix child, (λ c, (ix, bound c)) <$> child) children) ↔
  ∃ c, children !! i = Some (Some c) ∧ b = bound c.
Proof.
  rewrite list_elem_of_omap. split.
  - intros (o & Ho & E). apply elem_of_lookup_imap in Ho as (j & child & -> & Hj). cbn in E.
    destruct child as [c|]; [|done]. injection E as -> <-. by exists c.
  - intros (c & Hc & ->). exists (Some (i, bound c)). split; [|done]. apply elem_of_lookup_imap. by exists i, (Some c).
Qed.

Definition finds (c : Candidate) (r : option Candidate) : Prop :=
  match r with Some l => below c l | None => ∀ l, ¬ below c l end.

Lemma omap_insert_none (children : list (option Candidate)) ix c :
  children !! ix = Some (Some c) → length (omap id children) = S (length (omap id (<[ix := None]> children))).
Proof.
  revert ix. induction children as [|o children IH]; intros [|ix] Hi; try done.
  - injection Hi as ->. done.
  - change (<[S ix := None]> (o :: children)) with (o :: <[ix := None]> children). specialize (IH ix Hi).
    destruct o; cbn [omap list_omap id length]; by rewrite IH.
Qed.

Lemma omap_length_le {A B : Type} (f : A → option B) (l : list A) : length (omap f l) ≤ length l.
Proof. induction l as [|x l IH]; [done|]. cbn. destruct (f x); cbn; lia. Qed.

Lemma backtrack_loop_finds rec fuel children rng :
  (∀ ix c, children !! ix = Some (Some c) → ∀ rng, ∃ r rng', rec c rng = Some (r, rng') ∧ finds c r) →
  length (omap id children) < fuel →
  ∃ r rng', backtrack_loop rec fuel children rng = Some (r, rng') ∧
    match r with
    | Some l => ∃ ix c, children !! ix = Some (Some c) ∧ (bound c < cut)%f64 ∧ below c l
    | None => ∀ ix c l, children !! ix = Some (Some c) → (bound c < cut)%f64 → ¬ below c l
    end.
Proof.
  revert children rng. induction fuel as [|fuel IH]; intros children rng Hrec Hf; [lia|]. cbn [backtrack_loop].
  destruct (Hpick (omap id (imap (λ ix child, (λ c, (ix, bound c)) <$> child) children)) rng) as (o & rng1 & -> & Ho).
  cbn [mbind option_bind]. destruct o as [ix|]; cycle 1.
  { exists None, rng1. split; [done|]. intros ix c l Hc Hb _. apply (Ho ix (bound c)); [|done].
    apply elem_of_children_bounds. by exists c. }
  destruct Ho as (b & Hin & Hb). apply elem_of_children_bounds in Hin as (c & Hc & ->). rewrite Hc. cbn [mbind option_bind].
  destruct (Hrec ix c Hc rng1) as (r & rng2 & -> & Hr). cbn [mbind option_bind]. destruct r as [l|].
  { exists (Some l), rng2. split; [done|]. by exists ix, c. }
  assert (∀ j c', <[ix := None]> children !! j = Some (Some c') → children !! j = Some (Some c')) as Hsub.
  { intros j c' Hj. apply list_lookup_insert_Some in Hj as [(_ & ? & _)|(_ & Hj)]; done. }
  destruct (IH (<[ix := None]> children) rng2) as (r & rng3 & -> & Hres).
  - intros j c' Hj. apply (Hrec j c'). by apply Hsub.
  - pose proof (omap_insert_none children ix c Hc). lia.
  - exists r, rng3. split; [done|]. destruct r as [l|].
    + destruct Hres as (j & c' & Hj & Hbc & Hl). exists j, c'. split; [by apply Hsub|done].
    + intros j c' l Hj Hbc. destruct (decide (j = ix)) as [->|Hne].
      * rewrite Hc in Hj. injection Hj as <-. apply Hr.
      * apply (Hres j c' l); [|done]. by rewrite list_lookup_insert_ne.
Qed.

(** C27: a rollout with backtracking misses nothing: for every policy that picks a child
    below the cut as long as there is one, [descend_backtrack] ends without a panic on any
    candidate; it returns an implementation below the candidate through candidates whose
    bounds are below the cut, and returns none only when there is no such implementation. *)
Theorem descend_backtrack_complete c rng :
  ∃ r rng', descend_backtrack (S (height (space c))) c rng = Some (r, rng') ∧
    match r with Some l => below c l | None => ∀ l, ¬ below c l end.
Proof.
  assert (∀ n c rng, height (space c) < n →
    ∃ r rng', descend_backtrack n c rng = Some (r, rng') ∧ finds c r) as Hn; [|apply Hn; lia].
  clear c rng. induction n as [|n IH]; intros c rng Hh; [lia|]. cbn [descend_backtrack].
  destruct (choice_list choice_order (space c)) as [|choice rest] eqn:Ec.
  { exists (Some c), rng. split; [done|]. by apply BelowHere. }
  set (children := _ <$> choice).
  assert (∀ ix c', children !! ix = Some (Some c') → ∃ a, a ∈ choice ∧ apply_decision c a = ROk c') as Hch.
  { intros ix c' Hix. unfold children in Hix. apply list_lookup_fmap_Some in Hix as (a & Ha & E).
    exists a. split; [by eapply list_elem_of_lookup_2|]. destruct (apply_decision c a); congruence. }
  destruct (backtrack_loop_finds (descend_backtrack n) (S (length children)) children rng)
    as (r & rng' & -> & Hr).
  - intros ix c' Hix rng1. destruct (Hch ix c' Hix) as (a & Ha & E). apply IH.
    pose proof (choice_height c choice rest a c' Ec Ha E). lia.
  - apply Nat.lt_succ_r, omap_length_le.
  - exists r, rng'. split; [done|]. destruct r as [l|]; cbn [finds].
    + destruct Hr as (ix & c' & Hix & Hb & Hl). destruct (Hch ix c' Hix) as (a & Ha & E). by eapply BelowChild.
    + intros l Hl. destruct Hl as [Hnil|choice' rest' a c' l Hc Ha E Hb Hl]; [congruence|].
      rewrite Ec in Hc. injection Hc as <- <-. apply list_elem_of_lookup in Ha as (ix & Hix).
      apply (Hr ix c' l); [|done|done]. unfold children. rewrite list_lookup_fmap, Hix. cbn. by rewrite E.
Qed.

(** Without backtracking, what is found is below the candidate too, and the path holds the
    candidates in between; a rollout that fails has ended in a candidate without a child
    below the cut. *)
Lemma rollout_step_sound c rng :
  ∃ r rng', rollout_step c rng = Some (r, rng') ∧
    match r with
    | StepNext c' => height (space c') < height (space c) ∧ ∀ l, below c' l → below c l
    | DeadEnd => ∀ l, ¬ below c l
    | Implementation => below c c
    end.
Proof.
  unfold rollout_step. destruct (choice_list choice_order (space c)) as [|choice rest] eqn:Ec.
  { exists Implementation, rng. split; [done|]. by apply BelowHere. }
  destruct (Hpick (imap (λ i c, (i, bound c)) (apply_choice c choice)) rng) as (o & rng1 & -> & Ho).
  cbn [mbind option_bind]. destruct o as [i|].
  - destruct Ho as (b & Hin & Hb). apply elem_of_lookup_imap in Hin as (j & c' & [= -> ->] & Hj). rewrite Hj.
    cbn [mbind option_bind]. eexists _, _. split; [done|].
    apply list_elem_of_lookup_2, elem_of_apply_choice in Hj as (a & Ha & E).
    split; [by eapply choice_height|]. intros l Hl. by eapply BelowChild.
  - eexists _, _. split; [done|]. intros l Hl. destruct Hl as [Hnil|choice' rest' a c' l Hc Ha E Hb Hl]; [congruence|].
    rewrite Ec in Hc. injection Hc as <- <-. assert (c' ∈ apply_choice c choice) as Hin by (apply elem_of_apply_choice; by exists a).
    apply list_elem_of_lookup in Hin as (i & Hi). apply (Ho i (bound c')); [|done].
    apply elem_of_lookup_imap. by exists i, c'.
Qed.

Lemma descend_sound c path rng :
  ∃ r ps rng', descend (S (height (space c))) c rng = Some (r, rng') ∧
    descend_with_path (S (height (space c))) c path rng = Some (r, path ++ ps, rng') ∧
    match r with Some l => below c l | None => ∃ d, last ps = Some d ∧ ∀ l, ¬ below d l end.
Proof.
  assert (∀ n c path rng, height (space c) < n →
    ∃ r ps rng', descend n c rng = Some (r, rng') ∧
    descend_with_path n c path rng = Some (r, path ++ ps, rng') ∧
    match r with Some l => below c l | None => ∃ d, last ps = Some d ∧ ∀ l, ¬ below d l end) as Hn; [|apply Hn; lia].
  clear c path rng. induction n as [|n IH]; intros c path rng Hh; [lia|]. cbn [descend descend_with_path].
  destruct (rollout_step_sound c rng) as (r & rng1 & -> & Hr). cbn [mbind option_bind]. destruct r as [c'| |].
  - destruct Hr as [Hlt Hb]. destruct (IH c' (path ++ [c]) rng1) as (r & ps & rng2 & -> & -> & Hres); [lia|].
    exists r, (c :: ps), rng2. split; [done|]. rewrite <-app_assoc. split; [done|]. destruct r; [by apply Hb|].
    destruct Hres as (d & Hd & Hnb). exists d. split; [|done]. destruct ps; [done|exact Hd].
  - exists None, [c], rng1. split; [done|]. split; [done|]. by exists c.
  - exists (Some c), [], rng1. by rewrite app_nil_r.
Qed.
End rollout.

(** ** The policies pick a child below the cut *)
Lemma min_by_from_total {A : Type} (cmp : A → A → option comparison) (x : A) l :
  (∀ y z, y ∈ x :: l → z ∈ x :: l → is_Some (cmp y z)) → ∃ y, min_by_from cmp x l = Some y ∧ y ∈ x :: l.
Proof.
  revert x. induction l as [|z l IH]; intros x Hc; [exists x; split; [done|by left]|]. cbn [min_by_from].
  destruct (Hc x z) as [c Hxz]; [by left|by right; left|]. rewrite Hxz. cbn [mbind option_bind].
  set (w := match c with Gt => z | _ => x end). assert (∀ y, y ∈ w :: l → y ∈ x :: z :: l) as Hsub.
  { intros y [->|Hy]%elem_of_cons; [|by right; right]. unfold w. destruct c; [by left|by left|by right; left]. }
  destruct (IH w) as (y & -> & Hy); [intros; apply Hc; by apply Hsub|]. exists y. split; [done|by apply Hsub].
Qed.

Lemma cmp_f64_total a b : is_nan a = false → is_nan b = false → is_Some (cmp_f64 a b).
Proof. intros Ha Hb. unfold cmp_f64. rewrite Ha, Hb. cbn [orb]. destruct (SFltb a b); [by eexists|]. destruct (SFltb _ EPSILON); by eexists. Qed.

Lemma pick_index_ok {R : Type} `{RngOk R} `{Profile} self cut :
  self ≠ OrderWeightedRandom → picks_below_cut (pick_index self) cut.
Proof.
  intros Hself nodes rng. unfold pick_index. set (l := filter _ nodes).
  assert (∀ i b, (i, b) ∈ l ↔ (i, b) ∈ nodes ∧ (b < cut)%f64) as Hl.
  { intros i b. unfold l. rewrite list_elem_of_filter. cbn [snd]. tauto. }
  assert (∀ o : option (nat * f64), (∀ x, o = Some x → x ∈ l) → (o = None → l = []) →
    match option_map fst o with
    | Some i => ∃ b, (i, b) ∈ nodes ∧ (b < cut)%f64
    | None => ∀ i b, (i, b) ∈ nodes → ¬ (b < cut)%f64
    end) as Ho.
  { intros [[i b]|] Hs Hn; cbn.
    - exists b. by apply Hl, Hs.
    - intros i b Hin Hb. assert ((i, b) ∈ l) as Hi by by apply Hl. rewrite Hn in Hi by done. by apply elem_of_nil in Hi. }
  destruct self; [| | |done].
  - exists (option_map fst (head l)), rng. split; [done|]. apply Ho; [|by destruct l].
    intros x. destruct l as [|y l']; [done|]. intros [= ->]. by left.
  - unfold choose_cand_rand. destruct (length l) as [|n] eqn:El.
    + exists None, rng. split; [done|]. apply (Ho None); [done|]. intros _. by apply nil_length_inv.
    + destruct (gen_range_ok 0 (S n) rng) as (k & rng' & -> & _ & Hk); [lia|]. cbn [mbind option_bind].
      eexists _, _. split; [done|]. change (fst <$> l !! k) with (option_map fst (l !! k)). apply Ho.
      * intros x Hx. by eapply list_elem_of_lookup_2.
      * intros Hx. apply lookup_ge_None in Hx. lia.
  - unfold choose_cand_best, min_by. destruct l as [|x l'] eqn:El.
    + eexists _, _. split; [done|]. by apply (Ho None).
    + destruct (min_by_from_total (λ x1 x2, cmp_f64 x1.2 x2.2) x l') as (y & -> & Hy).
      { intros [i a] [j b] Ha Hb. cbn [snd]. apply Hl in Ha as [_ Ha]. apply Hl in Hb as [_ Hb].
        apply f64_lt_key in Ha as (Ha & _). apply f64_lt_key in Hb as (Hb & _). by apply cmp_f64_total. }
      cbn [fmap option_fmap option_map mbind option_bind]. eexists _, _. split; [done|]. apply (Ho (Some y)); [|done].
      by intros z [= <-].
Qed.

(** ** The whole search space

    [gen_space] of mod.rs: a depth-first exploration; the last candidate pushed comes
    first.  The callbacks are the list of their calls. *)
(** The theorem applies to a small search space. *)
Lemma small_narrows_in : narrows_in DEFAULT_ORDERING small_height.
Proof.
  intros s choice a s' Hc Ha. destruct s; try by apply elem_of_nil in Hc.
  apply list_elem_of_singleton in Hc as ->. repeat (apply elem_of_cons in Ha as [->|Ha]; [cbn; intros E; simplify_eq; cbn; lia|]).
  by apply elem_of_nil in Ha.
Qed.

Lemma descend_backtrack_complete_witness :
  let root := candidate_new SmallRoot (f64_of_Z 1) in
  let pick := @pick_index unit _ debug_profile OrderBound in
  descend_backtrack DEFAULT_ORDERING pick (f64_of_Z 3) 2 root () =
    Some (Some (mkCandidate SmallMiddle (f64_of_Z 1) 1 [RegularAction 2]), ()) ∧
  ∃ r rng, descend_backtrack DEFAULT_ORDERING pick (f64_of_Z 3) 2 root () = Some (r, rng) ∧
    match r with
    | Some l => below DEFAULT_ORDERING (f64_of_Z 3) root l
    | None => ∀ l, ¬ below DEFAULT_ORDERING (f64_of_Z 3) root l
    end.
Proof.
  split; [by vm_compute|].
  exact (descend_backtrack_complete DEFAULT_ORDERING (@pick_index unit _ debug_profile OrderBound) (f64_of_Z 3) small_height
    (@pick_index_ok unit _ _ debug_profile OrderBound (f64_of_Z 3) ltac:(discriminate)) small_narrows_in (candidate_new SmallRoot (f64_of_Z 1)) ()).
Defined.

Section gen_space.
Context {Space Act : Type} `{SearchSpaceOps Space Act}.
Notation Candidate := (Candidate Space Act).

Inductive SpaceEvent :=
| OnNode (candidate : Candidate)
| OnLeaf (candidate : Candidate).

(** The end of the vector is the head of the list. *)
Fixpoint gen_space_loop (fuel : nat) (stack : list Candidate) : option (list SpaceEvent) :=
  match stack with
  | [] => Some []
  | candidate :: stack =>
    match fuel with
    | 0 => None
    | S fuel =>
      match default_list (space candidate) with
      | choice :: _ =>
        events ← gen_space_loop fuel (reverse (apply_choice candidate choice) ++ stack);
        Some (OnNode candidate :: events)
      | [] =>
        leaf ← prepare candidate;
        events ← gen_space_loop fuel stack;
        Some (OnLeaf leaf :: events)
      end
    end
  end.

Definition gen_space (fuel : nat) (space : Space) : option (list SpaceEvent) :=
  gen_space_loop fuel [candidate_new space (space_bound space)].

Definition leaf_events (events : list SpaceEvent) : list Candidate :=
  omap (λ e, match e with OnLeaf c => Some c | OnNode _ => None end) events.

Definition node_events (events : list SpaceEvent) : list Candidate :=
  omap (λ e, match e with OnNode c => Some c | OnLeaf _ => None end) events.

Context (height : Space → nat) (Hnarrows : narrows height).
Context (Hfix : ∀ c : Candidate, is_leaf c = true → is_Some (prepare c)).

(** The calls below a candidate: the candidate comes before what is below it, and the last
    child first. *)
Fixpoint visits_at (n : nat) (c : Candidate) : list SpaceEvent :=
  if is_leaf c then [OnLeaf (default c (prepare c))]
  else OnNode c :: match n with 0 => [] | S n => concat (reverse (visits_at n <$> children c)) end.

Definition visits (c : Candidate) : list SpaceEvent := visits_at (height (space c)) c.

Lemma visits_unfold c :
  visits c = if is_leaf c then [OnLeaf (default c (prepare c))] else OnNode c :: concat (visits <$> reverse (children c)).
Proof.
  set (g := λ (c : Candidate) (ls : list (list SpaceEvent)),
    if is_leaf c then [OnLeaf (default c (prepare c))] else OnNode c :: concat (reverse ls)).
  assert (∀ n c, visits_at (S n) c = g c (visits_at n <$> children c)) as HS by done.
  unfold visits. rewrite (at_enough height visits_at g _ (S (height (space c))) c Hnarrows) by (done || lia).
  rewrite HS. unfold g. destruct (is_leaf c); [done|]. rewrite fmap_reverse. do 3 f_equal. apply list_fmap_ext.
  intros i c' Hi%list_elem_of_lookup_2. pose proof (children_height height c c' Hnarrows Hi).
  apply (at_enough height visits_at g); done || lia.
Qed.

Lemma sum_nodes_perm (cs ds : list Candidate) : cs ≡ₚ ds → sum_list (nodes height <$> cs) = sum_list (nodes height <$> ds).
Proof. intros Hp. induction Hp; cbn in *; lia. Qed.

Lemma sum_nodes_app (cs ds : list Candidate) :
  sum_list (nodes height <$> (cs ++ ds)) = sum_list (nodes height <$> cs) + sum_list (nodes height <$> ds).
Proof. rewrite fmap_app. apply sum_list_with_app. Qed.

Lemma gen_space_loop_leaves n stack :
  sum_list (nodes height <$> stack) ≤ n →
  ∃ events, gen_space_loop n stack = Some events ∧
    events = concat (visits <$> stack) ∧ length events = sum_list (nodes height <$> stack) ∧
    Some <$> leaf_events events ≡ₚ prepare <$> concat (leaves height <$> stack) ∧
    Forall (λ c, is_leaf c = false) (node_events events).
Proof.
  revert stack. induction n as [|n IH]; intros [|c stack] Hn; try (exists []; by repeat constructor).
  { exfalso. cbn in Hn. rewrite nodes_unfold in Hn by done. lia. }
  cbn [gen_space_loop]. rewrite fmap_cons in Hn. change (sum_list (nodes height c :: (nodes height <$> stack)))
    with (nodes height c + sum_list (nodes height <$> stack)) in Hn. rewrite nodes_unfold in Hn by done.
  rewrite !fmap_cons. cbn [concat]. rewrite (leaves_unfold height), visits_unfold by done.
  destruct (default_list (space c)) as [|choice rest] eqn:Ec.
  - assert (is_leaf c = true) as Hleaf by (unfold is_leaf; by rewrite Ec). rewrite Hleaf.
    destruct (Hfix c Hleaf) as [leaf Hl]. rewrite Hl. cbn [mbind option_bind].
    assert (children c = []) as Hch by (unfold children; by rewrite Ec). rewrite Hch in Hn. cbn [fmap list_fmap sum_list sum_list_with foldr] in Hn.
    destruct (IH stack) as (events & -> & Hvis & Hlen & Hev & Hnode); [cbn in Hn; lia|]. cbn [mbind option_bind].
    eexists. split; [done|]. split; [by rewrite Hvis|]. split; [|split].
    + cbn [length]. rewrite Hlen. change (S (sum_list (nodes height <$> stack)) = nodes height c + sum_list (nodes height <$> stack)).
      rewrite nodes_unfold, Hch by done. done.
    + change (leaf_events (OnLeaf leaf :: events)) with (leaf :: leaf_events events). rewrite fmap_cons. cbn [app].
      rewrite fmap_cons, Hl. by constructor.
    + done.
  - assert (is_leaf c = false) as Hleaf by (unfold is_leaf; by rewrite Ec). rewrite Hleaf.
    assert (children c = apply_choice c choice) as Hch by (unfold children; by rewrite Ec). rewrite <-Hch.
    assert (sum_list (nodes height <$> (reverse (children c) ++ stack)) =
      sum_list (nodes height <$> children c) + sum_list (nodes height <$> stack)) as Hsum.
    { by rewrite sum_nodes_app, (sum_nodes_perm (reverse (children c)) (children c)) by apply reverse_Permutation. }
    destruct (IH (reverse (children c) ++ stack)) as (events & -> & Hvis & Hlen & Hev & Hnode); [lia|].
    cbn [mbind option_bind]. eexists. split; [done|]. split; [by rewrite Hvis, fmap_app, concat_app|]. split; [|split].
    + cbn [length]. rewrite Hlen, Hsum. change (sum_list (nodes height c :: (nodes height <$> stack)))
        with (nodes height c + sum_list (nodes height <$> stack)). rewrite (nodes_unfold height c) by done. lia.
    + change (leaf_events (OnNode c :: events)) with (leaf_events events). rewrite Hev.
      rewrite (fmap_app (leaves height)), concat_app, !fmap_app. apply Permutation_app; [|done].
      by rewrite reverse_Permutation.
    + change (node_events (OnNode c :: events)) with (c :: node_events events). by constructor.
Qed.

(** C28: exploring the full search space ends after one turn per candidate, and makes
    these calls: each candidate that is not an implementation is given to the callback of
    the nodes, itself and before the candidates below it, and each implementation to that
    of the leaves, with its order fixed; the candidates below one are visited from the last
    child to the first.  So each implementation of the space is given exactly once. *)
Theorem gen_space_explores_all (s : Space) :
  let root := candidate_new s (space_bound s) in
  ∃ events, gen_space (nodes height root) s = Some events ∧
    events = visits root ∧ length events = nodes height root ∧
    Some <$> leaf_events events ≡ₚ prepare <$> leaves height root ∧
    Forall (λ c, is_leaf c = false) (node_events events).
Proof.
  cbn zeta. unfold gen_space. destruct (gen_space_loop_leaves (nodes height (candidate_new s (space_bound s))) [candidate_new s (space_bound s)])
    as (events & E & Hvis & Hlen & Hev & Hnode); [cbn; lia|].
  exists events. split; [exact E|]. cbn [fmap list_fmap concat] in *. rewrite app_nil_r in Hev, Hvis. split; [done|]. split; [|done].
  rewrite Hlen. cbn. lia.
Qed.
End gen_space.

Lemma gen_space_explores_all_witness :
  gen_space 4 SmallRoot = Some
    [OnNode (candidate_new SmallRoot (f64_of_Z 1));
     OnLeaf (mkCandidate SmallRight (f64_of_Z 2) 1 [RegularAction 3]);
     OnLeaf (mkCandidate SmallMiddle (f64_of_Z 1) 1 [RegularAction 2]);
     OnLeaf (mkCandidate SmallLeft (f64_of_Z 4) 1 [RegularAction 0])] ∧
  let root := candidate_new SmallRoot (f64_of_Z 1) in
  ∃ events, gen_space (nodes small_height root) SmallRoot = Some events ∧
    events = visits small_height root ∧ length events = nodes small_height root ∧
    Some <$> leaf_events events ≡ₚ prepare <$> leaves small_height root ∧
    Forall (λ c, is_leaf c = false) (node_events events).
Proof.
  split; [by vm_compute|].
  apply (gen_space_explores_all small_height small_narrows (λ c _, ex_intro _ _ eq_refl) SmallRoot).
Defined.
