(* ===== verification/Evaluations.v ===== *)
(** * The best evaluations of an edge (the [Evaluations] of src/src/explorer/mcts.rs)

    The sorted vector in which the TAG policy keeps the smallest evaluations. *)
From S2P Require Import Prelude Types Utils Orders Float64 Config.
From Stdlib Require Import Floats.SpecFloat.

(** ** Binary search with a comparison that may panic *)
Fixpoint try_search_loop {A : Type} (fuel : nat) (f : A → option comparison) (l : list A) (base size : nat) : option nat :=
  match fuel with
  | 0 => Some base
  | S fuel =>
    if 1 <? size then
      let half := size / 2 in
      let mid := base + half in
      match l !! mid with
      | Some x =>
        c ← f x;
        try_search_loop fuel f l (match c with Gt => base | _ => mid end) (size - half)
      | None => Some base
      end
    else Some base
  end.

Definition try_binary_search_by {A : Type} (f : A → option comparison) (l : list A) : option (result nat nat) :=
  if length l =? 0 then Some (RErr 0) else
  base ← try_search_loop (length l) f l 0 (length l);
  match l !! base with
  | Some x =>
    c ← f x;
    Some (match c with Eq => ROk base | Lt => RErr (S base) | Gt => RErr base end)
  | None => Some (RErr base)
  end.

Lemma try_search_loop_total {A : Type} (f : A → option comparison) g (l : list A) fuel base size :
  (∀ x, x ∈ l → f x = Some (g x)) → try_search_loop fuel f l base size = Some (binary_search_loop fuel g l base size).
Proof.
  intros Hf. revert base size. induction fuel as [|fuel IH]; intros base size; [done|]. cbn [try_search_loop binary_search_loop].
  destruct (1 <? size); [|done]. destruct (l !! (base + size / 2)) as [x|] eqn:Ex; [|done].
  rewrite (Hf x) by by eapply list_elem_of_lookup_2. cbn [mbind option_bind]. apply IH.
Qed.

Lemma try_binary_search_total {A : Type} (f : A → option comparison) g (l : list A) :
  (∀ x, x ∈ l → f x = Some (g x)) → try_binary_search_by f l = Some (binary_search_by g l).
Proof.
  intros Hf. unfold try_binary_search_by, binary_search_by. destruct (length l =? 0); [done|].
  rewrite (try_search_loop_total f g) by done. cbn [mbind option_bind].
  destruct (l !! _) as [x|] eqn:Ex; [|done]. rewrite (Hf x) by by eapply list_elem_of_lookup_2. cbn. by destruct (g x).
Qed.

(** ** The evaluations *)
Definition Evaluations : Type := list f64.

Definition evaluations_new : Evaluations := [].

Fixpoint skip_equal (l : list f64) (threshold : f64) (pos : nat) : option nat :=
  match l with
  | [] => Some pos
  | x :: l =>
    c ← cmp_f64 x threshold;
    match c with Eq => skip_equal l threshold (S pos) | _ => Some pos end
  end.

(** [Evaluations::count_lte]. *)
Definition count_lte (self : Evaluations) (threshold : f64) : option nat :=
  r ← try_binary_search_by (λ probe, cmp_f64 probe threshold) self;
  match r with
  | ROk pos => skip_equal (drop pos self) threshold pos
  | RErr pos => Some pos
  end.

(** [Evaluations::record]. *)
Definition record (self : Evaluations) (eval : f64) (topk : nat) : option (bool * Evaluations) :=
  r ← try_binary_search_by (λ probe, cmp_f64 probe eval) self;
  let pos := match r with ROk pos | RErr pos => pos end in
  if pos <? topk then
    let self := if topk <=? length self then removelast self else self in
    self ← vec_insert pos eval self;
    Some (true, self)
  else Some (false, self).

Definition evaluations_max (self : Evaluations) : option f64 := last self.

(** ** The evaluations are the best ones

    On floats that are equal or further apart than the precision of [cmp_f64], the
    comparison is that of the floats, and the vector is sorted. *)
Definition comparable (V : f64 → Prop) : Prop :=
  ∀ a b, V a → V b → cmp_f64 a b = SFcompare a b ∧ is_nan a = false.

Definition f64_leq (a b : f64) : Prop := (a ≤ b)%f64.

Lemma cmp_Lt a b : SFcompare a b = Some Lt ↔ (a < b)%f64.
Proof. unfold SFltb. destruct (SFcompare a b) as [[]|]; naive_solver. Qed.

Lemma compare_eq a b : is_nan a = false → is_nan b = false → SFcompare a b = Some Eq → f64_key a = f64_key b.
Proof. intros Ha Hb. rewrite SFcompare_key by done. intros [= E]. by apply rcmp_eq. Qed.

Section sorted.
Context (V : f64 → Prop) (HV : comparable V).

Definition sorted_evals (l : list f64) : Prop := Forall V l ∧ StronglySorted f64_leq l.

(** The comparison with [x], as a total function. *)
Definition probe (x a : f64) : comparison := default Eq (SFcompare a x).

Lemma probe_cmp x a : V x → V a → cmp_f64 a x = Some (probe x a).
Proof.
  intros Hx Ha. destruct (HV a x Ha Hx) as [-> Hn]. destruct (HV x a Hx Ha) as [_ Hn']. unfold probe.
  by rewrite (SFcompare_key a x Hn Hn').
Qed.

Lemma probe_spec x a : V x → V a →
  match probe x a with Lt => (a < x)%f64 | Eq => (a ≤ x)%f64 ∧ (x ≤ a)%f64 | Gt => (x < a)%f64 end.
Proof.
  intros Hx Ha. destruct (HV a x Ha Hx) as [_ Hna]. destruct (HV x a Hx Ha) as [_ Hnx]. unfold probe, SFltb, SFleb.
  rewrite (SFcompare_antisym a x), (SFcompare_key a x Hna Hnx).
  cbn [fmap option_fmap option_map default from_option]. by destruct (rcmp (f64_key a) (f64_key x)).
Qed.

Lemma probe_monotone l x : V x → sorted_evals l → cmp_monotone (probe x) l.
Proof.
  intros Hx [HVl Hs] i j a b Hij Ha Hb. rewrite Forall_lookup in HVl.
  pose proof (HVl i a Ha) as HVa. pose proof (HVl j b Hb) as HVb.
  assert ((a ≤ b)%f64) as Hab by (eapply (StronglySorted_lookup f64_leq); eauto).
  pose proof (probe_spec x a Hx HVa) as Pa. pose proof (probe_spec x b Hx HVb) as Pb. split; intros E.
  - rewrite E in Pb. assert ((a < x)%f64) as Hlt by by eapply f64_le_lt_trans.
    destruct (probe x a); [|done|].
    + exfalso. destruct Pa as [_ Pa]. by apply f64_lt_not_le in Hlt.
    + exfalso. apply (f64_lt_irrefl a). by eapply f64_lt_trans.
  - rewrite E in Pa. assert ((x < b)%f64) as Hlt by by eapply f64_lt_le_trans.
    destruct (probe x b); [| |done].
    + exfalso. destruct Pb as [Pb _]. by apply f64_lt_not_le in Hlt.
    + exfalso. apply (f64_lt_irrefl b). by eapply f64_lt_trans.
Qed.

(** The position found splits the vector at the evaluation. *)
Lemma search_splits l x :
  V x → sorted_evals l →
  ∃ r, try_binary_search_by (λ a, cmp_f64 a x) l = Some r ∧
    let pos := match r with ROk pos | RErr pos => pos end in
    pos ≤ length l ∧ (∀ a, a ∈ take pos l → (a ≤ x)%f64) ∧ (∀ a, a ∈ drop pos l → (x ≤ a)%f64) ∧
    match r with RErr _ => ∀ a, a ∈ drop pos l → (x < a)%f64 | ROk _ => ∃ a, l !! pos = Some a ∧ (a ≤ x)%f64 end.
Proof.
  intros Hx Hl. pose proof Hl as [HVl Hs]. rewrite Forall_forall in HVl.
  rewrite (try_binary_search_total _ (probe x)) by (intros a Ha; apply probe_cmp; [done|by apply HVl]).
  eexists. split; [done|]. pose proof (binary_search_by_spec _ l (probe_monotone l x Hx Hl)) as Hb.
  destruct (binary_search_by _ l) as [i|i]; cbn zeta.
  - destruct Hb as (a & Ha & Ea). pose proof (probe_spec x a Hx) as Pa. rewrite Ea in Pa.
    destruct Pa as [P1 P2]; [apply HVl; by eapply list_elem_of_lookup_2|].
    pose proof (lookup_lt_Some _ _ _ Ha). split; [lia|]. split; [|split; [|by exists a]].
    + intros b (j & Hj)%list_elem_of_lookup. apply lookup_take_Some in Hj as [Hj Hji].
      eapply f64_le_trans; [|exact P1]. eapply (StronglySorted_lookup f64_leq); [exact Hs|exact Hj|exact Ha|done].
    + intros b (j & Hj)%list_elem_of_lookup. rewrite lookup_drop in Hj. eapply f64_le_trans; [exact P2|].
      destruct (decide (j = 0)) as [->|Hne].
      * rewrite Nat.add_0_r in Hj. assert (Some a = Some b) as [= <-] by exact (eq_trans (eq_sym Ha) Hj). apply f64_le_refl. by apply f64_le_key in P1 as (? & ? & _).
      * eapply (StronglySorted_lookup f64_leq); [exact Hs|exact Ha|exact Hj|lia].
  - destruct Hb as (Hle & Hlo & Hhi). split; [done|].
    assert (∀ a, a ∈ drop i l → (x < a)%f64) as Hdrop.
    { intros a (j & Hj)%list_elem_of_lookup. rewrite lookup_drop in Hj. pose proof (probe_spec x a Hx) as Pa.
      rewrite (Hhi (i + j) a) in Pa by (lia || done). apply Pa, HVl. by eapply list_elem_of_lookup_2. }
    split; [|split; [|exact Hdrop]].
    + intros a (j & Hj)%list_elem_of_lookup. apply lookup_take_Some in Hj as [Hj Hji]. pose proof (probe_spec x a Hx) as Pa.
      rewrite (Hlo j a) in Pa by (lia || done). apply f64_lt_le, Pa, HVl. by eapply list_elem_of_lookup_2.
    + intros a Ha. by apply f64_lt_le, Hdrop.
Qed.

(** Inserting at that position keeps the vector sorted. *)
Lemma sorted_insert l x pos :
  V x → sorted_evals l → (∀ a, a ∈ take pos l → (a ≤ x)%f64) → (∀ a, a ∈ drop pos l → (x ≤ a)%f64) →
  sorted_evals (take pos l ++ x :: drop pos l).
Proof.
  intros Hx [HVl Hs] Hlo Hhi. split.
  - rewrite <-(take_drop pos l) in HVl. apply Forall_app in HVl as [H1 H2]. apply Forall_app. split; [done|by constructor].
  - rewrite <-(take_drop pos l) in Hs. apply StronglySorted_app in Hs as (Hcross & H1 & H2). apply StronglySorted_app.
    split; [|split; [done|]].
    + intros a b Ha [->|Hb]%elem_of_cons; [by apply Hlo|by apply Hcross].
    + constructor; [done|]. apply Forall_forall. intros b Hb. by apply Hhi.
Qed.

(** What recording keeps: the smallest evaluations, as many as [topk] allows. *)
Record best_of (topk : nat) (evs l : list f64) : Prop := {
  best_sorted : sorted_evals l;
  best_length : length l = topk `min` length evs;
  best_split : ∃ dropped, l ++ dropped ≡ₚ evs ∧ ∀ x y, x ∈ l → y ∈ dropped → (x ≤ y)%f64
}.

Lemma sorted_snoc l x : sorted_evals (l ++ [x]) → sorted_evals l ∧ V x ∧ ∀ y, y ∈ l → (y ≤ x)%f64.
Proof.
  intros [HV' Hs]. apply Forall_app in HV' as [H1 H2%Forall_cons]. apply StronglySorted_app in Hs as (H3 & H4 & _).
  split; [done|]. split; [tauto|]. intros y Hy. apply H3; [done|by left].
Qed.

Lemma vec_insert_some {A : Type} i (x : A) l : i ≤ length l → vec_insert i x l = Some (take i l ++ x :: drop i l).
Proof. intros Hi. unfold vec_insert. destruct (Nat.leb_spec i (length l)); [done|lia]. Qed.

Lemma record_best topk evs l x :
  V x → Forall V evs → best_of topk evs l →
  ∃ b l', record l x topk = Some (b, l') ∧ best_of topk (x :: evs) l' ∧
    (b = false → ∀ y, y ∈ l → (y ≤ x)%f64).
Proof.
  intros Hx Hevs [Hs Hlen (dropped & Hp & Hd)]. unfold record.
  destruct (search_splits l x Hx Hs) as (r & -> & Hpos & Hlo & Hhi & Hr). cbn [mbind option_bind].
  set (pos := match r with ROk pos | RErr pos => pos end) in *.
  assert (length l + length dropped = length evs) as Hcount by (rewrite <-length_app; by rewrite Hp).
  destruct (Nat.ltb_spec pos topk) as [Hlt|Hge]; cycle 1.
  { assert (pos = length l) as Hpl by lia. exists false, l. split; [done|].
    assert (∀ y, y ∈ l → (y ≤ x)%f64) as Hall by (intros y Hy; apply Hlo; by rewrite Hpl, firstn_all).
    split; [|done]. constructor; [done|cbn; lia|]. exists (x :: dropped). split; [by rewrite <-Permutation_middle, Hp|].
    intros y z Hy [->|Hz]%elem_of_cons; [by apply Hall|by apply Hd]. }
  destruct (Nat.leb_spec topk (length l)) as [Hfull|Hroom]; cycle 1.
  { rewrite vec_insert_some by done. cbn [mbind option_bind]. eexists true, _. split; [done|]. split; [|done].
    assert (dropped = []) as -> by (destruct dropped; [done|cbn in Hcount; lia]). rewrite app_nil_r in Hp.
    constructor; [by apply sorted_insert| |].
    - rewrite length_app. cbn [length]. rewrite length_take, length_drop. lia.
    - exists []. rewrite app_nil_r. split; [by rewrite <-Permutation_middle, take_drop, Hp|]. by intros y z _ ?%elem_of_nil. }
  destruct (exists_last (l := l)) as (l0 & z & ->); [by intros ->; cbn in *; lia|]. rewrite removelast_last.
  rewrite length_app in *. cbn [length] in *. rewrite vec_insert_some by lia. cbn [mbind option_bind].
  eexists true, _. split; [done|]. split; [|done].
  rewrite (take_app_le l0 [z]) in Hlo by lia. rewrite (drop_app_le l0 [z]) in Hhi by lia.
  destruct (sorted_snoc l0 z Hs) as (Hs0 & Hz & Hl0z).
  assert ((x ≤ z)%f64) as Hxz by (apply Hhi, elem_of_app; right; by left).
  constructor.
  - apply sorted_insert; [done|done|done|]. intros a Ha. apply Hhi, elem_of_app. by left.
  - rewrite length_app. cbn [length]. rewrite length_take, length_drop. lia.
  - exists (z :: dropped). split.
    + assert (take pos l0 ++ x :: drop pos l0 ≡ₚ x :: l0) as Hperm by (by rewrite <-Permutation_middle, take_drop).
      by rewrite Hperm, <-Hp, <-app_assoc.
    + intros a b Ha Hb. assert (a = x ∨ a ∈ l0) as Ha'.
      { rewrite elem_of_app, elem_of_cons in Ha. destruct Ha as [Ha|[->|Ha]]; [right|by left|right].
        - by eapply elem_of_submseteq; [exact Ha|apply sublist_submseteq, sublist_take].
        - by eapply elem_of_submseteq; [exact Ha|apply sublist_submseteq, sublist_drop]. }
      apply elem_of_cons in Hb as [->|Hb].
      * destruct Ha' as [->|Ha']; [done|by apply Hl0z].
      * destruct Ha' as [->|Ha']; [|apply Hd; [apply elem_of_app; by left|done]].
        eapply f64_le_trans; [exact Hxz|]. apply Hd; [apply elem_of_app; right; by left|done].
Qed.

(** [count_lte] counts the evaluations that are not above the threshold. *)
Lemma skip_equal_count l x pos :
  V x → sorted_evals l → (∀ a, a ∈ l → (x ≤ a)%f64) →
  skip_equal l x pos = Some (pos + length (filter (λ a, SFleb a x = true) l)).
Proof.
  intros Hx. revert pos. induction l as [|a l IH]; intros pos [HVl Hs] Hall; [cbn; f_equal; lia|]. cbn [skip_equal].
  apply Forall_cons in HVl as [Ha HVl]. rewrite (probe_cmp x a Hx Ha). cbn [mbind option_bind].
  pose proof (probe_spec x a Hx Ha) as Hc. apply StronglySorted_inv in Hs as [Hs Hle]. rewrite filter_cons.
  destruct (probe x a).
  - destruct Hc as [Hc _]. rewrite decide_True by done. rewrite IH; [f_equal; cbn [length]; by rewrite Nat.add_succ_r|done|].
    intros b Hb. apply Hall. by right.
  - exfalso. apply f64_lt_not_le in Hc. apply Hc, Hall. by left.
  - rewrite decide_False by (intros Hax; by apply f64_lt_not_le in Hc). f_equal.
    rewrite filter_none; [cbn; lia|]. intros b Hb Hbx. rewrite Forall_forall in Hle.
    apply f64_lt_not_le in Hc. apply Hc. eapply f64_le_trans; [by apply Hle|done].
Qed.

(** C29: the TAG policy keeps the best evaluations.  On evaluations that [cmp_f64] tells
    apart exactly, recording any sequence does not panic and leaves a sorted vector with
    the [topk] smallest of them, and [count_lte] of that vector is the number of its
    evaluations that are not above the threshold. *)
Theorem evaluations_keep_best topk evs t :
  Forall V evs → V t →
  ∃ l n, foldM (λ l e, '(_, l) ← record l e topk; Some l) evs evaluations_new = Some l ∧
    sorted_evals l ∧ length l = topk `min` length evs ∧
    (∃ dropped, l ++ dropped ≡ₚ evs ∧ ∀ x y, x ∈ l → y ∈ dropped → (x ≤ y)%f64) ∧
    count_lte l t = Some n ∧ n = length (filter (λ a, SFleb a t = true) l).
Proof.
  intros Hevs Ht.
  assert (∀ done (l : list f64), Forall V done → best_of topk done l →
    ∃ l' : list f64, foldM (λ l e, '(_, l) ← record l e topk; Some l) evs l = Some l' ∧ best_of topk (reverse evs ++ done) l') as Hfold.
  { clear t Ht. induction Hevs as [|x evs Hx Hevs IH]; intros done l Hdone Hb; [by exists l|]. cbn [foldM].
    destruct (record_best topk done l x Hx Hdone Hb) as (b & l1 & -> & Hb1 & _). cbn [mbind option_bind].
    destruct (IH (x :: done) l1) as (l2 & -> & Hb2); [by constructor|done|]. exists l2. split; [done|].
    by rewrite reverse_cons, <-app_assoc. }
  destruct (Hfold [] evaluations_new) as (l & -> & [Hs Hlen (dropped & Hp & Hd)]); [done| |].
  { constructor; [by split; constructor|cbn; lia|]. exists []. split; [done|]. by intros x y ?%elem_of_nil. }
  rewrite app_nil_r in *. exists l. destruct (search_splits l t Ht Hs) as (r & Er & Hpos & Hlo & Hhi & Hr).
  assert (∀ pos, (∀ a, a ∈ take pos l → (a ≤ t)%f64) →
    length (filter (λ a, SFleb a t = true) l) = length (take pos l) + length (filter (λ a, SFleb a t = true) (drop pos l))) as Hsplit.
  { intros pos Hall. rewrite <-(take_drop pos l) at 1. etrans; [|apply length_app]. f_equal.
    etrans; [apply filter_app|]. f_equal. by apply filter_all. }
  destruct r as [pos|pos]; cbn zeta in *.
  - exists (pos + length (filter (λ a, SFleb a t = true) (drop pos l))). split; [done|]. split; [done|].
    split; [by rewrite Hlen, length_reverse|]. split; [|split].
    + exists dropped. split; [by rewrite Hp, reverse_Permutation|done].
    + unfold count_lte. rewrite Er. cbn [mbind option_bind]. apply skip_equal_count; [done| |done].
      destruct Hs as [H1 H2]. rewrite <-(take_drop pos l) in H1, H2. apply Forall_app in H1 as [_ H1].
      apply StronglySorted_app in H2 as (_ & _ & H2). by split.
    + symmetry. etrans; [exact (Hsplit pos Hlo)|]. rewrite length_take. lia.
  - exists pos. split; [done|]. split; [done|]. split; [by rewrite Hlen, length_reverse|]. split; [|split].
    + exists dropped. split; [by rewrite Hp, reverse_Permutation|done].
    + unfold count_lte. by rewrite Er.
    + symmetry. etrans; [exact (Hsplit pos Hlo)|]. rewrite length_take, filter_none; [cbn; lia|]. intros a Ha Hat. apply Hr in Ha. by apply f64_lt_not_le in Ha.
Qed.
End sorted.

(** Three evaluations, of which the two smallest are kept. *)
Lemma evaluations_keep_best_witness :
  let V := λ a : f64, a ∈ [f64_of_Z 30; f64_of_Z 10; f64_of_Z 20] in
  comparable V ∧
  ∃ l, foldM (λ l e, '(_, l) ← record l e 2; Some l) [f64_of_Z 30; f64_of_Z 10; f64_of_Z 20] evaluations_new = Some l ∧
    length l = 2 ∧ count_lte l (f64_of_Z 20) = Some 2.
Proof.
  assert (comparable (λ a : f64, a ∈ [f64_of_Z 30; f64_of_Z 10; f64_of_Z 20])) as Hc.
  { intros a b Ha Hb. rewrite !elem_of_cons, elem_of_nil in Ha, Hb.
    destruct Ha as [->|[->|[->|[]]]], Hb as [->|[->|[->|[]]]]; split; vm_compute; reflexivity. }
  cbn zeta. split; [exact Hc|].
  destruct (evaluations_keep_best _ Hc 2 [f64_of_Z 30; f64_of_Z 10; f64_of_Z 20] (f64_of_Z 20)) as (l & n & E & _ & Hlen & _ & Hn & _).
  - apply Forall_forall. intros x Hx. exact Hx.
  - right. right. by left.
  - exists l. split; [exact E|]. split; [exact Hlen|]. vm_compute in E. injection E as <-. vm_compute. reflexivity.
Defined.
