(* ===== verification/MctsPolicies.v ===== *)
(** * The policies of the tree search (src/src/explorer/mcts.rs)

    How a child is selected among those that a policy is shown: the selectors, the policies
    on unexplored nodes, and the bandit policies (UCT, TAG, round robin) with their
    statistics.  The natural logarithm is that of the platform. *)
From S2P Require Import Prelude Types Utils Orders Float64 Config Evaluations Candidates Rollout.
From Stdlib Require Import Floats.SpecFloat.

(** ** Selectors *)
Inductive Selector (T : Type) :=
| SelectRandom (weights : list (T * f64))
| SelectMaximum (scores : list (T * f64))
| SelectExact (value : T).
Arguments SelectRandom {T} weights.
Arguments SelectMaximum {T} scores.
Arguments SelectExact {T} value.

Definition try_random {T : Type} (weights : list (T * f64)) : option (Selector T) :=
  match weights with [] => None | _ => Some (SelectRandom weights) end.

Definition try_maximum {T : Type} (scores : list (T * f64)) : option (Selector T) :=
  match scores with [] => None | _ => Some (SelectMaximum scores) end.

(** [Selector::map], with a function that may panic. *)
Definition selector_map {T U : Type} (f : T → option U) (self : Selector T) : option (Selector U) :=
  match self with
  | SelectRandom weights => SelectRandom <$> mapM (λ '(value, w), u ← f value; Some (u, w)) weights
  | SelectMaximum scores => SelectMaximum <$> mapM (λ '(value, w), u ← f value; Some (u, w)) scores
  | SelectExact value => SelectExact <$> f value
  end.

Definition f64_of_nat (n : nat) : f64 := f64_of_Z (Z.of_nat n).

Definition f64_recip (a : f64) : f64 := f64_div (f64_of_Z 1) a.

(** [f64::max]: a NaN is ignored when the other value is not one. *)
Definition f64_max (a b : f64) : f64 :=
  if is_nan a then b else if is_nan b then a else if SFltb a b then b else a.

Definition f64_sqrt (a : f64) : f64 := SFsqrt f64_prec f64_emax a.

(** 1e-6. *)
Definition f64_micro : f64 := S754_finite false 4722366482869645 (-72).

Section policies.
Context {R : Type} `{Rng R} (f64_ln : f64 → f64).

(** [Selector::select]; the maximum is the last one. *)
Definition select {T : Type} (self : Selector T) (rng : R) : option (T * R) :=
  match self with
  | SelectRandom weights =>
    n ← udiv u32_max (wrap 32 (Z.of_nat (length weights)));
    let resolution := f64_of_Z n in
    let total_weight := foldl f64_add (S754_zero false) (snd <$> weights) in
    '(index, rng) ← weighted_sample ((λ '(_, w), f64_as_u32 (f64_mul (f64_div w total_weight) resolution)) <$> weights) rng;
    w ← weights !! index;
    Some (w.1, rng)
  | SelectMaximum scores =>
    best ← max_by (λ lhs rhs, cmp_f64 lhs.2 rhs.2) scores;
    best ← best;
    Some (best.1, rng)
  | SelectExact value => Some (value, rng)
  end.

(** [NewNodeOrder::into_selector]. *)
Definition into_selector {T : Type} (self : NewNodeOrder) (cut : f64) (bounds : list (T * f64)) : option (Selector T) :=
  let bounds := filter (λ b, SFltb b.2 cut = true) bounds in
  match self with
  | OrderApi => SelectExact ∘ fst <$> head bounds
  | OrderWeightedRandom =>
    if is_infinite cut then try_random ((λ '(idx, b), (idx, f64_recip (f64_add b f64_micro))) <$> bounds)
    else try_random ((λ '(idx, b), (idx, f64_sub (f64_of_Z 1) (f64_div b cut))) <$> bounds)
  | OrderBound => try_maximum ((λ '(idx, b), (idx, SFopp b)) <$> bounds)
  | OrderRandom => try_random ((λ '(idx, _), (idx, f64_of_Z 1)) <$> bounds)
  end.

(** ** What a policy sees

    The children shown to a policy: for each, the index of its edge, the data of the edge
    and the bound of the node. *)
Record ChildView (E : Type) := mkChildView { cv_index : Z; cv_data : E; cv_bound : f64 }.

(** A policy picks a position of the view, with the selector that is logged, and may
    change the data of the edge; after an evaluation it updates the data of the edges of
    the path. *)
Record TreePolicy (E : Type) := mkTreePolicy {
  pick_child : f64 → list (ChildView E) → R → option (option (nat * Selector Z * E) * R);
  backpropagate : E → option f64 → option E
}.

(** [NodeView::select_with], then an update of the data of the child. *)
Definition select_with {E : Type} (down : E → E) (children : list (ChildView E)) (selector : Selector nat) (rng : R)
  : option (nat * Selector Z * E * R) :=
  '(index, rng) ← select selector rng;
  selector ← selector_map (λ i, cv_index E <$> children !! i) selector;
  child ← children !! index;
  Some (index, selector, down (cv_data E child), rng).

Definition with_selector {E : Type} (down : E → E) (children : list (ChildView E)) (selector : option (Selector nat)) (rng : R)
  : option (option (nat * Selector Z * E) * R) :=
  match selector with
  | Some selector => '(r, rng) ← select_with down children selector rng; Some (Some r, rng)
  | None => Some (None, rng)
  end.

(** [pick_child] of [NewNodeOrder]. *)
Definition new_node_order_policy (E : Type) (self : NewNodeOrder) : TreePolicy E := {|
  pick_child cut children rng :=
    with_selector id children
      (into_selector self cut (filter (λ b, SFltb b.2 cut = true) (imap (λ i child, (i, cv_bound E child)) children))) rng;
  backpropagate data _ := Some data
|}.

(** ** Visits *)
Definition CommonStats : Type := nat.
Definition common_stats_default : CommonStats := 0.
Definition common_down (self : CommonStats) : CommonStats := S self.

(** ** UCT *)
Record UCTStats := mkUCTStats { best_evaluation : f64; sum_evaluations : f64; uct_common : CommonStats }.

Definition uct_stats_default : UCTStats := mkUCTStats NEG_INFINITY (S754_zero false) common_stats_default.

Definition uct_down (self : UCTStats) : UCTStats :=
  mkUCTStats (best_evaluation self) (sum_evaluations self) (common_down (uct_common self)).

Definition uct_up (self : UCTStats) (eval : f64) : UCTStats :=
  mkUCTStats (if SFltb (best_evaluation self) eval then eval else best_evaluation self)
    (f64_add (sum_evaluations self) eval) (uct_common self).

Definition uct_reward (self : UCTConfig) (evaln : f64) : f64 :=
  match reward self with
  | NegTime => SFopp evaln
  | Speed => f64_recip evaln
  | LogSpeed => SFopp (f64_ln evaln)
  end.

Definition exploration_factor (self : UCTConfig) (cut : f64) : f64 :=
  match normalization self with
  | Some GlobalBest => f64_mul (exploration_constant self) (SFabs (uct_reward self cut))
  | None => exploration_constant self
  end.

Definition exploration_term (self : UCTConfig) (cut visits total_visits : f64) (num_children : nat) : f64 :=
  f64_mul (exploration_factor self cut)
    match formula self with
    | Uct => f64_sqrt (f64_div (f64_ln total_visits) visits)
    | AlphaPuct =>
      f64_div (f64_mul (f64_recip (f64_of_nat num_children)) (f64_sqrt total_visits)) (f64_add (f64_of_Z 1) visits)
    end.

Definition uct_value (self : UCTConfig) (stats : UCTStats) : f64 * nat :=
  let num_visits := uct_common stats in
  (match value_reduction self with
   | Best => best_evaluation stats
   | Mean => f64_div (sum_evaluations stats) (f64_of_nat num_visits)
   end, num_visits).

Definition uct_policy (self : UCTConfig) : TreePolicy UCTStats := {|
  pick_child cut children rng :=
    let stats := imap (λ i child, (i, (cv_bound _ child, uct_value self (cv_data _ child)))) children in
    let unvisited :=
      (λ '(idx, (b, _)), (idx, b)) <$> filter (λ '(_, (_, (_, visits))), is_infinite cut = true ∨ visits = 0) stats in
    let selector :=
      match into_selector OrderWeightedRandom cut unvisited with
      | Some selector => Some selector
      | None =>
        let total_visits := f64_of_nat (sum_list ((λ '(_, (_, (_, visits))), visits) <$> stats)) in
        let num_children := length stats in
        try_maximum ((λ '(idx, (_, (value, visits))),
          (idx, f64_add value (exploration_term self cut (f64_of_nat visits) total_visits num_children))) <$> stats)
      end in
    with_selector uct_down children selector rng;
  backpropagate stats eval :=
    Some (match eval with Some eval => uct_up stats (uct_reward self eval) | None => stats end)
|}.

(** ** TAG *)
Record TAGStats := mkTAGStats { evaluations : Evaluations; tag_common : CommonStats }.

Definition tag_stats_default : TAGStats := mkTAGStats evaluations_new common_stats_default.

Definition tag_down (self : TAGStats) : TAGStats := mkTAGStats (evaluations self) (common_down (tag_common self)).

Definition tag_up (self : TAGStats) (eval : f64) (topk : nat) : option TAGStats :=
  '(_, evals) ← record (evaluations self) eval topk;
  Some (mkTAGStats evals (tag_common self)).

Definition heval (self : TAGConfig) (n_successes n_branch_trials n_trials n_branches : nat) : option f64 :=
  _ ← rassert (0 <? n_branches);
  _ ← rassert (n_branch_trials <=? n_trials);
  Some (match n_branch_trials with
        | 0 => INFINITY
        | _ =>
          let alpha :=
            f64_max (f64_ln (f64_div (f64_mul (f64_of_Z 2) (f64_of_nat (n_trials * n_branches))) (delta self))) (S754_zero false) in
          let sqrt_body := f64_mul alpha (f64_add (f64_mul (f64_of_Z 2) (f64_of_nat n_successes)) alpha) in
          f64_div (f64_add (f64_add (f64_of_nat n_successes) alpha) (f64_sqrt sqrt_body)) (f64_of_nat n_branch_trials)
        end).

(** The evaluations of an edge are sorted: the first one that is not recorded ends them. *)
Fixpoint record_until (topk : nat) (evals : list f64) (acc : Evaluations) : option Evaluations :=
  match evals with
  | [] => Some acc
  | eval :: evals =>
    '(recorded, acc) ← record acc eval topk;
    if (recorded : bool) then record_until topk evals acc else Some acc
  end.

(** The threshold under which an evaluation is a success. *)
Definition tag_threshold (topk : nat) (edges : list TAGStats) : option f64 :=
  evalns ← foldM (λ acc edge, record_until topk (evaluations edge) acc) edges evaluations_new;
  Some (default INFINITY (evaluations_max evalns)).

Definition tag_policy (self : TAGConfig) : TreePolicy TAGStats := {|
  pick_child cut children rng :=
    let edges := filter (λ '(_, (_, b, _)), SFltb b cut = true)
      (imap (λ i child, (i, (cv_data _ child, cv_bound _ child, tag_common (cv_data _ child)))) children) in
    selector ←
      match into_selector OrderWeightedRandom cut
        ((λ '(idx, (_, b, _)), (idx, b)) <$> filter (λ '(_, (_, _, num_visits)), num_visits = 0) edges) with
      | Some selector => Some (Some selector)
      | None =>
        threshold ← tag_threshold (topk self) ((λ '(_, (edge, _, _)), edge) <$> edges);
        stats ← mapM (λ '(ix, (edge, _, num_visits)),
          n ← count_lte (evaluations edge) threshold; Some (ix, n, num_visits)) edges;
        let num_visits := sum_list (snd <$> stats) in
        let num_children := length stats in
        scores ← mapM (λ '(ix, child_successes, child_visits),
          score ← heval self child_successes child_visits num_visits num_children; Some (ix, score)) stats;
        Some (try_maximum scores)
      end;
    with_selector tag_down children selector rng;
  backpropagate stats eval :=
    match eval with Some eval => tag_up stats eval (topk self) | None => Some stats end
|}.

(** ** Round robin *)
Definition round_robin_policy : TreePolicy CommonStats := {|
  pick_child _ children rng :=
    with_selector common_down children
      (try_maximum (imap (λ i child, (i, SFopp (f64_of_nat (cv_data _ child)))) children)) rng;
  backpropagate stats _ := Some stats
|}.

(** ** What the tree search relies on

    Shown children below the cut, a policy picks one of them; without any, none. *)
Definition policy_ok {E : Type} (policy : TreePolicy E) : Prop :=
  ∀ cut children rng, Forall (λ child, cv_bound E child < cut)%f64 children →
    ∃ r rng', pick_child E policy cut children rng = Some (r, rng') ∧
      match r with Some (i, _, _) => i < length children | None => children = [] end.

Lemma max_by_from_total {A : Type} (cmp : A → A → option comparison) (x : A) l :
  (∀ y z, y ∈ x :: l → z ∈ x :: l → is_Some (cmp y z)) → ∃ y, max_by_from cmp x l = Some y ∧ y ∈ x :: l.
Proof.
  revert x. induction l as [|z l IH]; intros x Hc; [exists x; split; [done|by left]|]. cbn [max_by_from].
  destruct (Hc x z) as [c Hxz]; [by left|by right; left|]. rewrite Hxz. cbn [mbind option_bind].
  set (w := match c with Gt => x | _ => z end). assert (∀ y, y ∈ w :: l → y ∈ x :: z :: l) as Hsub.
  { intros y [->|Hy]%elem_of_cons; [|by right; right]. unfold w. destruct c; [by right; left|by right; left|by left]. }
  destruct (IH w) as (y & -> & Hy); [intros; apply Hc; by apply Hsub|]. exists y. split; [done|by apply Hsub].
Qed.

Lemma selector_map_maximum {T U : Type} (f : T → option U) (l : list (T * f64)) :
  (∀ x, x ∈ l → is_Some (f x.1)) → is_Some (selector_map f (SelectMaximum l)).
Proof.
  intros Hf. cbn [selector_map]. apply fmap_is_Some. apply mapM_is_Some. apply Forall_forall. intros [x w] Hx.
  destruct (Hf _ Hx) as [u Hu]. cbn in *. rewrite Hu. by eexists.
Qed.

(** The deterministic orders on unexplored nodes. *)
Lemma new_node_order_policy_ok (E : Type) self :
  self = OrderApi ∨ self = OrderBound → policy_ok (new_node_order_policy E self).
Proof.
  intros Hself cut children rng Hall. cbn [pick_child new_node_order_policy].
  set (bounds := imap (λ i child, (i, cv_bound E child)) children).
  assert (∀ b, b ∈ bounds → (b.2 < cut)%f64 ∧ b.1 < length children) as Hb.
  { intros b Hb. apply elem_of_lookup_imap in Hb as (i & child & -> & Hi). cbn. split; [|by eapply lookup_lt_Some].
    rewrite Forall_lookup in Hall. by eapply Hall. }
  assert (filter (λ b, SFltb b.2 cut = true) bounds = bounds) as Hf by (apply filter_all; intros b Hin; by apply Hb).
  unfold into_selector. rewrite !Hf.
  assert (∀ i, i < length children → is_Some (children !! i)) as Hi by (intros i; apply lookup_lt_is_Some_2).
  assert (children = [] ∨ bounds ≠ []) as [E0|Hne] by (unfold bounds; destruct children; [by left|by right]).
  { assert (bounds = []) as -> by (unfold bounds; by rewrite E0). destruct Hself as [->| ->]; eexists _, _; done. }
  destruct Hself as [->| ->].
  - destruct bounds as [|[i b] bounds'] eqn:Eb; [done|]. cbn [head fmap option_fmap option_map compose fst with_selector].
    destruct (Hb (i, b)) as [_ Hlt]; [by left|]. cbn [fst] in Hlt. destruct (Hi i Hlt) as [c Hc].
    unfold select_with. cbn [select selector_map mbind option_bind]. rewrite Hc. cbn [fmap option_fmap option_map mbind option_bind].
    eexists _, _. by split.
  - set (scores := (λ '(idx, b), (idx, SFopp b)) <$> bounds).
    assert (∀ x, x ∈ scores → x.1 < length children ∧ is_nan x.2 = false) as Hs.
    { intros x ([i b] & -> & Hin)%list_elem_of_fmap. destruct (Hb _ Hin) as [Hlt Hi']. split; [done|]. cbn in *.
      apply f64_lt_key in Hlt as (Hn & _). by destruct b. }
    assert (∃ x l, scores = x :: l) as (x & l & Es).
    { unfold scores. destruct bounds as [|b l]; [done|]. by eexists _, _. }
    rewrite Es in *. cbn [try_maximum with_selector]. unfold select_with. cbn [select].
    destruct (max_by_from_total (λ lhs rhs : nat * f64, cmp_f64 lhs.2 rhs.2) x l) as (y & Ey & Hy).
    { intros y z Hy Hz. apply cmp_f64_total; by apply Hs. }
    unfold max_by. rewrite Ey. cbn [fmap option_fmap option_map mbind option_bind].
    destruct (selector_map_maximum (λ i, cv_index E <$> children !! i) (x :: l)) as [sel ->].
    { intros z Hz. destruct (Hs z Hz) as [Hlt _]. destruct (Hi _ Hlt) as [c ->]. by eexists. }
    cbn [mbind option_bind]. destruct (Hs y Hy) as [Hlt _]. destruct (Hi _ Hlt) as [c ->]. cbn [mbind option_bind].
    eexists _, _. by split.
Qed.
End policies.
Arguments mkChildView {E} cv_index cv_data cv_bound.
Arguments pick_child {R E} t _ _ _.
Arguments backpropagate {R E} t _ _.
Arguments TreePolicy R E : clear implicits.
