(* ===== verification/Mcts.v ===== *)
(** * Monte-Carlo tree search (src/src/explorer/mcts.rs)

    The tree of nodes and edges, the cursor that walks it, the walkers and the store
    [MctsStore], for the calls of one worker at a time.  Nodes are numbered in the order
    of their creation, which is their identifier; the algorithm-specific data of the edges
    belongs to the policies.  The events, which are only logged, are not modelled. *)
From S2P Require Import Prelude Types Utils Orders Float64 Config Candidates Rollout MctsPolicies.
From Stdlib Require Import Floats.SpecFloat.

Section mcts.
Context {Space Act : Type} `{SearchSpaceOps Space Act} {R : Type}.
Notation Action := (ActionEx Act).
Notation Candidate := (Candidate Space Act).

(** ** The tree *)
Section tree.
Context {E : Type} (edge_default : E).

(** An edge: the node it leads to once there is one, its index, its action and its data. *)
Record Edge := mkEdge { edge_node : option nat; edge_index : Z; edge_action : Action; edge_data : E }.

(** A node; the bound is absent when constraints killed the node. *)
Record Node := mkNode {
  node_depth : nat;
  node_parent : option (nat * Z);
  node_children : list Edge;
  node_bound : option f64;
  node_dead : bool;
  node_expanded : bool;
  node_candidate : option Space
}.

(** The configuration of the bandit, the policies and the environment are those of the
    store. *)
Record MctsStore := mkMctsStore {
  nodes_of : list Node;
  store_cut : f64;
  store_cut_epoch : nat;
  restart_id : nat;
  store_stop : bool;
  store_rng : R
}.

Definition with_nodes (nodes : list Node) (s : MctsStore) : MctsStore :=
  mkMctsStore nodes (store_cut s) (store_cut_epoch s) (restart_id s) (store_stop s) (store_rng s).

Definition with_rng (rng : R) (s : MctsStore) : MctsStore :=
  mkMctsStore (nodes_of s) (store_cut s) (store_cut_epoch s) (restart_id s) (store_stop s) rng.

Definition set_dead (n : Node) : Node :=
  mkNode (node_depth n) (node_parent n) (node_children n) (node_bound n) true (node_expanded n) None.
Definition set_expanded (b : bool) (n : Node) : Node :=
  mkNode (node_depth n) (node_parent n) (node_children n) (node_bound n) (node_dead n) b (node_candidate n).
Definition set_candidate (c : option Space) (n : Node) : Node :=
  mkNode (node_depth n) (node_parent n) (node_children n) (node_bound n) (node_dead n) (node_expanded n) c.
Definition set_children (l : list Edge) (n : Node) : Node :=
  mkNode (node_depth n) (node_parent n) l (node_bound n) (node_dead n) (node_expanded n) (node_candidate n).
Definition set_edge_node (o : option nat) (e : Edge) : Edge := mkEdge o (edge_index e) (edge_action e) (edge_data e).
Definition set_edge_data (d : E) (e : Edge) : Edge := mkEdge (edge_node e) (edge_index e) (edge_action e) d.

Definition get_node (id : nat) (s : MctsStore) : option Node := nodes_of s !! id.

Definition update_node (id : nat) (f : Node → Node) (s : MctsStore) : option MctsStore :=
  n ← get_node id s;
  Some (with_nodes (<[id := f n]> (nodes_of s)) s).

(** The edge at a position of the children of a node. *)
Definition update_edge (id pos : nat) (f : Edge → Edge) (s : MctsStore) : option MctsStore :=
  n ← get_node id s;
  e ← node_children n !! pos;
  update_node id (set_children (<[pos := f e]> (node_children n))) s.

Definition is_live (n : Node) : bool := bool_decide (is_Some (node_bound n)) && negb (node_dead n).

Definition is_implementation (n : Node) : bool :=
  bool_decide (is_Some (node_bound n)) && bool_decide (node_children n = []).

(** [Node::kill] also clears the candidate. *)
Definition kill (id : nat) (s : MctsStore) : option MctsStore := update_node id set_dead s.

Definition take_candidate (id : nat) (s : MctsStore) : option (option Space * MctsStore) :=
  n ← get_node id s;
  s ← update_node id (set_candidate None) s;
  Some (node_candidate n, s).

Definition store_candidate (id : nat) (c : Space) (s : MctsStore) : option MctsStore :=
  update_node id (set_candidate (Some c)) s.

(** ** The environment *)
Context (config : BanditConfig).

Definition list_actions (candidate : Space) : list Action :=
  default [] (head (choice_list (choice_ordering config) candidate)).

Definition apply_action (candidate : Space) (action : Action) : option Space :=
  let '(candidate, r) :=
    match action with
    | RegularAction action => apply_decisions [action] candidate
    | LowerLayout mem st_dims ld_dims => lower_layout mem st_dims ld_dims candidate
    end in
  if is_ok r then Some candidate else None.

(** [Tree::node]: the index of an edge has 16 bits. *)
Definition tree_node (parent : option (nat * Z)) (candidate : option Space) (s : MctsStore) : option (nat * MctsStore) :=
  _ ← rassert (bool_decide (is_Some parent) || bool_decide (is_Some candidate));
  depth ← match parent with
          | Some (p, _) => n ← get_node p s; Some (node_depth n + 1)
          | None => Some 0
          end;
  let children :=
    match candidate with
    | Some candidate => imap (λ ix action, mkEdge None (wrap 16 (Z.of_nat ix)) action edge_default) (list_actions candidate)
    | None => []
    end in
  let bound := space_bound <$> candidate in
  Some (length (nodes_of s),
    with_nodes (nodes_of s ++ [mkNode depth parent children bound (bool_decide (bound = None)) false None]) s).

(** ** The cursor *)
Inductive Policy := PolicyBandit | PolicyDefault.

(** The cut that the cursor knows, the edges taken, and the node it points to. *)
Record NodeCursor := mkNodeCursor {
  cursor_cut : f64;
  cursor_cut_epoch : nat;
  cursor_path : list (Policy * nat * Z);
  cursor_node : nat
}.

Inductive Error := DeadEndAt (cursor : NodeCursor) | Aborted.

Definition cut_node (cut : f64) (id : nat) (s : MctsStore) : option (bool * MctsStore) :=
  n ← get_node id s;
  if is_live n then
    bound ← node_bound n;
    if SFltb bound cut then Some (false, s)
    else s ← kill id s; Some (true, s)
  else Some (true, s).

(** [NodeCursor::cut]. *)
Definition cursor_do_cut (c : NodeCursor) (s : MctsStore) : option (bool * MctsStore) :=
  cut_node (cursor_cut c) (cursor_node c) s.

(** [check_stop]: a cursor learns a new cut here only. *)
Definition check_stop (c : NodeCursor) (s : MctsStore) : option (result NodeCursor Error * MctsStore) :=
  if store_stop s then Some (RErr Aborted, s)
  else if store_cut_epoch s =? cursor_cut_epoch c then
    n ← get_node (cursor_node c) s;
    if is_live n then Some (ROk c, s) else Some (RErr (DeadEndAt c), s)
  else
    let c := mkNodeCursor (store_cut s) (store_cut_epoch s) (cursor_path c) (cursor_node c) in
    '(dead, s) ← cursor_do_cut c s;
    if (dead : bool) then Some (RErr (DeadEndAt c), s) else Some (ROk c, s).

(** The live child at a position: the position, the node, and its candidate when the node
    is new.  [live_children_iter] has no candidate to make new nodes from. *)
Definition live_child (c : NodeCursor) (candidate : option Space) (pos : nat) (s : MctsStore)
  : option (option (nat * nat * option Space) * MctsStore) :=
  n ← get_node (cursor_node c) s;
  edge ← node_children n !! pos;
  match edge_node edge with
  | Some id =>
    '(dead, s) ← cut_node (cursor_cut c) id s;
    Some (if (dead : bool) then None else Some (pos, id, None), s)
  | None =>
    candidate ← candidate;
    let child := apply_action candidate (edge_action edge) in
    '(id, s) ← tree_node (Some (cursor_node c, edge_index edge)) child s;
    child_node ← get_node id s;
    s ← match child with
        | None => _ ← rassert (negb (is_live child_node)); kill id s
        | Some _ => Some s
        end;
    '(dead, s) ← cut_node (cursor_cut c) id s;
    s ← update_edge (cursor_node c) pos (set_edge_node (Some id)) s;
    if (dead : bool) then Some (None, s)
    else _ ← rassert (bool_decide (is_Some child)); Some (Some (pos, id, child), s)
  end.

Fixpoint live_children_from (c : NodeCursor) (candidate : option Space) (positions : list nat) (s : MctsStore)
  : option (list (nat * nat * option Space) * MctsStore) :=
  match positions with
  | [] => Some ([], s)
  | pos :: positions =>
    '(child, s) ← live_child c candidate pos s;
    '(l, s) ← live_children_from c candidate positions s;
    Some (option_list child ++ l, s)
  end.

Definition live_children (c : NodeCursor) (candidate : option Space) (s : MctsStore)
  : option (list (nat * nat * option Space) * MctsStore) :=
  n ← get_node (cursor_node c) s;
  live_children_from c candidate (seq 0 (length (node_children n))) s.

(** The candidate of a child, made again when the node is not new. *)
Definition child_candidate (id pos : nat) (candidate : Space) (child : option Space) (s : MctsStore) : option Space :=
  match child with
  | Some child => Some child
  | None =>
    n ← get_node id s;
    edge ← node_children n !! pos;
    apply_action candidate (edge_action edge)
  end.

(** [NodeCursor::expand]. *)
Definition expand (c : NodeCursor) (s : MctsStore) : option (option Space * MctsStore) :=
  '(dead, s) ← cursor_do_cut c s;
  n ← get_node (cursor_node c) s;
  if (dead : bool) || node_expanded n then Some (None, s) else
  '(candidate, s) ← take_candidate (cursor_node c) s;
  match candidate with
  | Some candidate =>
    '(children, s) ← live_children c (Some candidate) s;
    s ← foldM (λ s '(pos, id, child),
          child ← child_candidate (cursor_node c) pos candidate child s;
          store_candidate id child s) children s;
    s ← update_node (cursor_node c) (set_expanded true) s;
    Some (Some candidate, s)
  | None =>
    n ← get_node (cursor_node c) s;
    _ ← rassert (negb (is_live n));
    Some (None, s)
  end.

(** The path and the node at the end of a descent. *)
Definition Trace : Type := list (Policy * nat * Z) * nat.

(** [NodeCursor::evaluate]. *)
Definition evaluate (c : NodeCursor) (candidate : Space) (s : MctsStore)
  : option (result (Space * Trace) NodeCursor * MctsStore) :=
  '(dead, s) ← cursor_do_cut c s;
  if (dead : bool) then Some (RErr c, s) else Some (ROk (candidate, (cursor_path c, cursor_node c)), s).

(** What a checkpoint does with a failure: the cursor goes back to the node it was made
    at, and the search goes on from there. *)
Definition restore (checkpoint cursor : NodeCursor) : NodeCursor :=
  mkNodeCursor (cursor_cut cursor) (cursor_cut_epoch cursor)
    (take (length (cursor_path checkpoint)) (cursor_path cursor)) (cursor_node checkpoint).

Inductive Outcome :=
| Return (r : result (Space * Trace) Error)
| Retry (cursor : NodeCursor).

Definition checkpoint (at_ : NodeCursor) (o : Outcome) : Outcome :=
  match o with
  | Return (RErr (DeadEndAt cursor)) => if backtrack_deadends config then Retry (restore at_ cursor) else o
  | Return _ => o
  | Retry cursor => Retry (restore at_ cursor)
  end.

(** The cursor after [select_child]. *)
Definition move_to (c : NodeCursor) (policy : Policy) (index : Z) (id : nat) : NodeCursor :=
  mkNodeCursor (cursor_cut c) (cursor_cut_epoch c) (cursor_path c ++ [(policy, cursor_node c, index)]) id.

(** The view of some children; their nodes have bounds. *)
Definition view_of (id : nat) (children : list (nat * nat * option Space)) (s : MctsStore) : option (list (ChildView E)) :=
  mapM (λ '(pos, child, _),
    n ← get_node id s;
    edge ← node_children n !! pos;
    child ← get_node child s;
    bound ← node_bound child;
    Some (mkChildView (edge_index edge) (edge_data edge) bound)) children.

(** The child that a policy picks, whose edge it updates, and the index of its edge. *)
Definition pick (policy : TreePolicy R E) (c : NodeCursor) (children : list (nat * nat * option Space)) (s : MctsStore)
  : option (option (nat * nat * option Space * Z) * MctsStore) :=
  view ← view_of (cursor_node c) children s;
  '(picked, rng) ← pick_child policy (cursor_cut c) view (store_rng s);
  let s := with_rng rng s in
  match picked with
  | Some (i, _, data) =>
    '(pos, id, child) ← children !! i;
    n ← get_node (cursor_node c) s;
    edge ← node_children n !! pos;
    s ← update_edge (cursor_node c) pos (set_edge_data data) s;
    Some (Some (pos, id, child, edge_index edge), s)
  | None => Some (None, s)
  end.

(** The assertion on the children when none of them was picked. *)
Definition none_live (children : list (nat * nat * option Space)) (s : MctsStore) : bool :=
  forallb (λ '(_, id, _), match get_node id s with Some n => negb (is_live n) | None => false end) children.

(** ** The walkers *)
Context (default_policy tree_policy : TreePolicy R E).

Definition Walk : Type := NodeCursor → Space → MctsStore → option (result (Space * Trace) Error * MctsStore).

(** [PolicyWalker::walk]: an implementation is killed once it is evaluated; [loop] is the
    loop on the other nodes. *)
Definition walk_with (loop : Walk) : Walk := λ c candidate s,
  n ← get_node (cursor_node c) s;
  if is_implementation n then
    '(r, s) ← evaluate c candidate s;
    match r with
    | ROk (candidate, trace) => s ← kill trace.2 s; Some (ROk (candidate, trace), s)
    | RErr c => Some (RErr (DeadEndAt c), s)
    end
  else loop c candidate s.

Fixpoint walk_loop (fuel : nat) (c : NodeCursor) (candidate : Space) (s : MctsStore)
  : option (result (Space * Trace) Error * MctsStore) :=
  match fuel with
  | 0 => None
  | S fuel =>
    '(r, s) ← check_stop c s;
    match r with
    | RErr e => Some (RErr e, s)
    | ROk c =>
      '(children, s) ← live_children c (Some candidate) s;
      '(picked, s) ← pick default_policy c children s;
      '(outcome, s) ←
        match picked with
        | Some (pos, id, child, index) =>
          child ← child_candidate (cursor_node c) pos candidate child s;
          '(r, s) ← walk_with (walk_loop fuel) (move_to c PolicyDefault index id) child s;
          Some (Return r, s)
        | None =>
          _ ← rassert (none_live children s);
          s ← kill (cursor_node c) s;
          Some (Retry c, s)
        end;
      match checkpoint c outcome with
      | Return r => Some (r, s)
      | Retry c => walk_loop fuel c candidate s
      end
    end
  end.

Definition walk (fuel : nat) : Walk := walk_with (walk_loop fuel).

Fixpoint partition_expanded (children : list (nat * nat * option Space)) (s : MctsStore)
  : option (list (nat * nat * option Space) * list (nat * nat * option Space)) :=
  match children with
  | [] => Some ([], [])
  | ((_, id, _) as child) :: children =>
    n ← get_node id s;
    '(expanded, unexpanded) ← partition_expanded children s;
    Some (if node_expanded n then (child :: expanded, unexpanded) else (expanded, child :: unexpanded))
  end.

(** [MctsWalker::select_intree]; [loop] is the loop on the children. *)
Definition select_intree_with (loop : NodeCursor → MctsStore → option (result (Space * Trace) Error * MctsStore))
  (c : NodeCursor) (s : MctsStore) : option (result (Space * Trace) Error * MctsStore) :=
  n ← get_node (cursor_node c) s;
  _ ← rassert (node_expanded n);
  _ ← rassert (negb (is_implementation n));
  loop c s.

(** Unexpanded children come first. *)
Fixpoint intree_loop (fuel : nat) (c : NodeCursor) (s : MctsStore)
  : option (result (Space * Trace) Error * MctsStore) :=
  match fuel with
  | 0 => None
  | S fuel =>
    '(r, s) ← check_stop c s;
    match r with
    | RErr e => Some (RErr e, s)
    | ROk c =>
      '(children, s) ← live_children c None s;
      '(expanded, unexpanded) ← partition_expanded children s;
      '(picked, s) ← pick default_policy c unexpanded s;
      '(outcome, s) ←
        match picked with
        | Some (_, id, _, index) =>
          let c := move_to c PolicyDefault index id in
          '(candidate, s) ← expand c s;
          match candidate with
          | Some candidate => '(r, s) ← walk fuel c candidate s; Some (Return r, s)
          | None => Some (Retry c, s)
          end
        | None =>
          _ ← rassert (none_live unexpanded s);
          '(picked, s) ← pick tree_policy c expanded s;
          match picked with
          | Some (_, id, _, index) =>
            let c := move_to c PolicyBandit index id in
            n ← get_node id s;
            _ ← rassert (node_expanded n);
            if is_implementation n then Some (Retry c, s)
            else '(r, s) ← select_intree_with (intree_loop fuel) c s; Some (Return r, s)
          | None =>
            _ ← rassert (none_live expanded s);
            s ← kill (cursor_node c) s;
            Some (Retry c, s)
          end
        end;
      match checkpoint c outcome with
      | Return r => Some (r, s)
      | Retry c => intree_loop fuel c s
      end
    end
  end.

Definition select_intree (fuel : nat) (c : NodeCursor) (s : MctsStore) : option (result (Space * Trace) Error * MctsStore) :=
  select_intree_with (intree_loop fuel) c s.

(** ** The store *)
Definition mcts_new (space : Space) (rng : R) : option MctsStore :=
  '(root, s) ← tree_node None (Some space)
    (mkMctsStore [] (default INFINITY (initial_cut config)) 0 0 false rng);
  store_candidate root space s.

Definition new_cursor (s : MctsStore) : NodeCursor := mkNodeCursor (store_cut s) (store_cut_epoch s) [] 0.

Definition mcts_update_cut (new_cut : f64) (s : MctsStore) : MctsStore :=
  mkMctsStore (nodes_of s) (f64_min new_cut (store_cut s)) (S (store_cut_epoch s)) (restart_id s) (store_stop s) (store_rng s).

Definition mcts_stop_exploration (s : MctsStore) : MctsStore :=
  mkMctsStore (nodes_of s) (store_cut s) (store_cut_epoch s) (restart_id s) true (store_rng s).

Definition Payload : Type := Trace * nat.

(** An edge is found by its index. *)
Definition backpropagate_edge (eval : option f64) (s : MctsStore) (step : Policy * nat * Z) : option MctsStore :=
  match step with
  | (PolicyBandit, parent, index) =>
    n ← get_node parent s;
    if node_expanded n then
      edge ← node_children n !! Z.to_nat index;
      data ← backpropagate tree_policy (edge_data edge) eval;
      update_edge parent (Z.to_nat index) (set_edge_data data) s
    else Some s
  | (PolicyDefault, _, _) => Some s
  end.

Definition mcts_commit_evaluation (payload : Payload) (eval : f64) (s : MctsStore) : option MctsStore :=
  if payload.2 <? restart_id s then Some s
  else
    let eval := if is_finite eval then Some eval else None in
    foldM (backpropagate_edge eval) payload.1.1 s.

(** The actions of a node, the last one first. *)
Fixpoint rev_actions (fuel id : nat) (s : MctsStore) : option (list Action) :=
  match fuel with
  | 0 => None
  | S fuel =>
    n ← get_node id s;
    match node_parent n with
    | None => Some []
    | Some (parent, index) =>
      p ← get_node parent s;
      edge ← node_children p !! Z.to_nat index;
      actions ← rev_actions fuel parent s;
      Some (edge_action edge :: actions)
    end
  end.

Definition node_actions (id : nat) (s : MctsStore) : option (list Action) :=
  n ← get_node id s;
  reverse <$> rev_actions (S (node_depth n)) id s.

(** [MctsStore::explore]. *)
Definition finish_explore (candidate : Space) (trace : Trace) (s : MctsStore) : option (Candidate * Payload) :=
  n ← get_node trace.2 s;
  bound ← node_bound n;
  actions ← node_actions trace.2 s;
  Some (with_actions candidate bound actions, (trace, restart_id s)).

Fixpoint mcts_explore (fuel : nat) (s : MctsStore) : option (option (Candidate * Payload) * MctsStore) :=
  match fuel with
  | 0 => None
  | S fuel =>
    let cursor := new_cursor s in
    '(dead, s) ← cursor_do_cut cursor s;
    if (dead : bool) then Some (None, s) else
    root ← get_node 0 s;
    '(evaluated, s) ←
      (if node_expanded root then Some (None, s) else
       '(candidate, s) ← expand cursor s;
       match candidate with
       | Some candidate => '(r, s) ← walk fuel cursor candidate s; Some (Some r, s)
       | None => Some (None, s)
       end);
    '(r, s) ← match evaluated with Some r => Some (r, s) | None => select_intree fuel cursor s end;
    match r with
    | ROk (candidate, trace) => x ← finish_explore candidate trace s; Some (Some x, s)
    | RErr (DeadEndAt _) => mcts_explore fuel s
    | RErr Aborted => Some (None, s)
    end
  end.

(** [Node::reset] and [MctsStore::restart]: the nodes stay, and dead nodes stay dead. *)
Context (edge_reset : E → E).

Fixpoint reset_node (fuel id : nat) (s : MctsStore) : option MctsStore :=
  match fuel with
  | 0 => None
  | S fuel =>
    s ← update_node id (λ n, set_candidate None (set_expanded false n)) s;
    n ← get_node id s;
    foldM (λ s pos,
      edge ← node_children n !! pos;
      s ← match edge_node edge with Some child => reset_node fuel child s | None => Some s end;
      update_edge id pos (λ e, set_edge_data (edge_reset (edge_data e)) e) s) (seq 0 (length (node_children n))) s
  end.

Definition mcts_restart (space : Space) (s : MctsStore) : option MctsStore :=
  let s := mkMctsStore (nodes_of s) (store_cut s) (store_cut_epoch s) (S (restart_id s)) (store_stop s) (store_rng s) in
  s ← reset_node (S (length (nodes_of s))) 0 s;
  store_candidate 0 space s.
End tree.
End mcts.
