(* ===== verification/MctsGuard.v ===== *)
(** * Policies in the Monte-Carlo search (src/src/explorer/mcts.rs)

    The theorems on the tree are proved for policies that always answer.  Here a policy
    that may panic is compared with the one that answers in its place ([total_policy]):
    where the policy answers, the calls on the store have the same results.  The data of
    the edges, on which a policy may rely, satisfies an invariant of the policy.

    Every policy of the crate honours its contract [PolicyOk]: it picks a child that it is
    shown, and updates the data of the edges without a panic; for TAG, whose comparisons
    panic on NaN, because the evaluations that it records are finite. *)
From S2P Require Import Prelude Types Utils Orders Float64 Config Candidates Rollout Evaluations MctsPolicies Mcts.
From Stdlib Require Import Floats.SpecFloat.

(** ** Conditions on a policy *)
Section conditions.
Context {R E : Type}.
Implicit Types p q : TreePolicy R E.

(** When a policy answers, it picks one of the children that it is shown, if they are all
    below the cut and there are some. *)
Definition policy_sound p : Prop :=
  ∀ cut children rng r rng', Forall (λ child, cv_bound E child < cut)%f64 children →
    pick_child p cut children rng = Some (r, rng') →
    match r with Some (i, _, _) => i < length children | None => children = [] end.

(** The policy that picks the first child where [p] panics, and leaves the data of an edge
    as it is where [p] panics after an evaluation. *)
Definition total_policy p : TreePolicy R E := {|
  pick_child cut children rng :=
    match pick_child p cut children rng with
    | Some r => Some r
    | None => Some (match children with [] => None | child :: _ => Some (0, SelectExact (cv_index E child), cv_data E child) end, rng)
    end;
  backpropagate data eval := Some (default data (backpropagate p data eval))
|}.

Lemma total_policy_ok p : policy_sound p → policy_ok (total_policy p).
Proof.
  intros Hp cut children rng Hall. cbn [pick_child total_policy].
  destruct (pick_child p cut children rng) as [[r rng']|] eqn:Er.
  - exists r, rng'. split; [done|]. exact (Hp _ _ _ _ _ Hall Er).
  - destruct children as [|child children]; eexists _, _; (split; [done|]); [done|cbn; lia].
Qed.

(** The data and the bounds that the policy is shown. *)
Context (D : E → Prop) (B : f64 → Prop).

Definition shown (child : ChildView E) : Prop := D (cv_data E child) ∧ B (cv_bound E child).

(** On such children, the answers of [p] are those of [q]. *)
Definition answers_as p q : Prop :=
  ∀ cut children rng r, Forall shown children → pick_child p cut children rng = Some r → pick_child q cut children rng = Some r.

(** The data stays in [D] when the policy picks a child. *)
Definition pick_keeps p : Prop :=
  ∀ cut children rng i selector data rng', Forall shown children →
    pick_child p cut children rng = Some (Some (i, selector, data), rng') → D data.

(** The policy always answers. *)
Definition policy_answers p : Prop :=
  ∀ cut children rng, Forall shown children → is_Some (pick_child p cut children rng).

(** After an evaluation, or a failed one, the data is updated and stays in [D]. *)
Definition backpropagate_keeps p : Prop :=
  ∀ data eval, D data → (∀ e, eval = Some e → is_finite e = true) → ∃ data', backpropagate p data eval = Some data' ∧ D data'.

Lemma answers_as_total p : answers_as p (total_policy p).
Proof. intros cut children rng r _ Hr. cbn. by rewrite Hr. Qed.

Lemma total_answers_as p : policy_answers p → answers_as (total_policy p) p.
Proof. intros Hp cut children rng r Hall. cbn. by destruct (Hp cut children rng Hall) as [r' ->]. Qed.

Lemma total_keeps p : pick_keeps p → pick_keeps (total_policy p).
Proof.
  intros Hp cut children rng i selector data rng' Hall. cbn.
  destruct (pick_child p cut children rng) as [r|] eqn:Er; [intros [= ->]; by eapply Hp|].
  destruct children as [|child children]; intros [= <- <- <- <-]. by inversion Hall as [|? ? [Hd _]].
Qed.
End conditions.

(** The contract of a policy, with an invariant of the data of the edges.  It says nothing
    of the picks that panic. *)
Class PolicyOk {R E : Type} (D : E → Prop) (p : TreePolicy R E) : Prop := {
  pok_sound : policy_sound p;
  pok_keeps : pick_keeps D (λ _, True) p;
  pok_backpropagate : backpropagate_keeps D p
}.

Lemma pick_keeps_bound {R E : Type} (D : E → Prop) (B : f64 → Prop) (p : TreePolicy R E) :
  pick_keeps D (λ _, True) p → pick_keeps D B p.
Proof. intros Hp cut children rng i sel d rng' Hall. apply Hp. eapply Forall_impl; [exact Hall|]. by intros child [Hd _]. Qed.

(** ** The store under two policies *)
Section guard.
Context {Space Act : Type} `{SearchSpaceOps Space Act} {R E : Type} (edge_default : E) (config : BanditConfig).
Context (D : E → Prop) (B : f64 → Prop) (HD : D edge_default) (HB : ∀ space, B (space_bound space)).
Notation Store := (@MctsStore Space Act R E).
Notation Node := (@Node Space Act E).
Notation Edge := (@Edge Act E).
Implicit Types (s : Store) (n : Node).

Definition node_data_ok n : Prop :=
  Forall (λ e : Edge, D (edge_data e)) (node_children n) ∧ ∀ b, node_bound n = Some b → B b.

(** The data of all the edges. *)
Definition data_ok s : Prop := Forall node_data_ok (nodes_of s).

Lemma get_node_data id s n : data_ok s → get_node id s = Some n → node_data_ok n.
Proof. intros Hs Hn. exact (Forall_lookup_1 _ _ _ _ Hs Hn). Qed.

Lemma update_node_data id f s s' :
  data_ok s → (∀ n, get_node id s = Some n → node_data_ok n → node_data_ok (f n)) → update_node id f s = Some s' → data_ok s'.
Proof.
  intros Hs Hf (n & Hn & [= <-])%bind_Some. apply Forall_insert; [done|]. by eapply Hf, get_node_data.
Qed.

Lemma update_edge_data id pos f s s' :
  data_ok s → (∀ e, D (edge_data e) → D (edge_data (f e))) → update_edge id pos f s = Some s' → data_ok s'.
Proof.
  intros Hs Hf (n & Hn & (e & He & Hu)%bind_Some)%bind_Some. eapply update_node_data; [done| |exact Hu].
  intros n' Hn' [Hd Hb]. split; [|exact Hb]. apply Forall_insert; [|apply Hf].
  - rewrite Hn in Hn'. injection Hn' as <-. exact Hd.
  - destruct (get_node_data _ _ _ Hs Hn) as [Hd' _]. exact (Forall_lookup_1 _ _ _ _ Hd' He).
Qed.

Lemma kill_data id s s' : data_ok s → kill id s = Some s' → data_ok s'.
Proof. intros Hs. apply update_node_data; [done|]. by intros n _ Hn. Qed.

Lemma store_candidate_data id c s s' : data_ok s → store_candidate id c s = Some s' → data_ok s'.
Proof. intros Hs. apply update_node_data; [done|]. by intros n _ Hn. Qed.

Lemma take_candidate_data id s r s' : data_ok s → take_candidate id s = Some (r, s') → data_ok s'.
Proof. intros Hs (n & _ & (s1 & H1 & [= _ <-])%bind_Some)%bind_Some. revert H1. apply update_node_data; [done|]. by intros n' _ Hn'. Qed.

Lemma tree_node_data parent candidate s id s' :
  data_ok s → tree_node edge_default config parent candidate s = Some (id, s') → data_ok s'.
Proof.
  intros Hs (_ & _ & (d & _ & [= _ <-])%bind_Some)%bind_Some. apply Forall_app. split; [done|]. constructor; [|done].
  destruct candidate as [c|]; cbn; (split; [|by intros b [= <-]]); [|done].
  apply Forall_forall. intros e (i & a & -> & _)%elem_of_lookup_imap. exact HD.
Qed.

Lemma cut_node_data cut id s r s' : data_ok s → cut_node cut id s = Some (r, s') → data_ok s'.
Proof.
  intros Hs (n & _ & E1)%bind_Some. destruct (is_live n); [|by injection E1 as _ <-].
  apply bind_Some in E1 as (b & _ & E1). destruct (SFltb b cut); [by injection E1 as _ <-|].
  apply bind_Some in E1 as (s1 & H1 & [= _ <-]). by eapply kill_data.
Qed.

Lemma check_stop_data c s r s' : data_ok s → check_stop c s = Some (r, s') → data_ok s'.
Proof.
  unfold check_stop. intros Hs. destruct (store_stop s); [by intros [= _ <-]|]. destruct (_ =? _).
  - intros (n & _ & E1)%bind_Some. destruct (is_live n); by injection E1 as _ <-.
  - intros ([dead s1] & H1%cut_node_data & E1)%bind_Some; [|done]. destruct dead; by injection E1 as _ <-.
Qed.

Lemma live_child_data c candidate pos s r s' :
  data_ok s → live_child edge_default config c candidate pos s = Some (r, s') → data_ok s'.
Proof.
  intros Hs (n & _ & (e & _ & E1)%bind_Some)%bind_Some. destruct (edge_node e) as [id|].
  - apply bind_Some in E1 as ([dead s1] & H1%cut_node_data & [= _ <-]); done.
  - apply bind_Some in E1 as (sp & _ & ([id s1] & H1%tree_node_data & E1)%bind_Some); [|done].
    apply bind_Some in E1 as (cn & _ & (s2 & H2 & E1)%bind_Some). assert (data_ok s2) as Hs2.
    { destruct (apply_action _ _); [by injection H2 as <-|]. apply bind_Some in H2 as (_ & _ & H2). by eapply kill_data. }
    apply bind_Some in E1 as ([dead s3] & H3 & (s4 & H4 & E1)%bind_Some). apply cut_node_data in H3; [|done].
    apply update_edge_data in H4; [|done|done].
    destruct dead; [by injection E1 as _ <-|]. apply bind_Some in E1 as (_ & _ & [= _ <-]). done.
Qed.

Lemma live_children_data c candidate s r s' :
  data_ok s → live_children edge_default config c candidate s = Some (r, s') → data_ok s'.
Proof.
  intros Hs (n & _ & E1)%bind_Some. revert s r Hs E1. generalize (seq 0 (length (node_children n))) as l.
  induction l as [|pos l IH]; intros s r Hs E1; cbn [live_children_from] in E1; [by injection E1 as _ <-|].
  apply bind_Some in E1 as ([ch s1] & H1 & ([ls s2] & H2 & [= _ <-])%bind_Some).
  eapply IH; [|exact H2]. by eapply live_child_data.
Qed.

Lemma expand_data c s r s' : data_ok s → expand edge_default config c s = Some (r, s') → data_ok s'.
Proof.
  intros Hs ([dead s1] & H1 & (n & _ & E1)%bind_Some)%bind_Some. apply cut_node_data in H1; [|done].
  destruct (dead || node_expanded n); [by injection E1 as _ <-|].
  apply bind_Some in E1 as ([cand s2] & H2%take_candidate_data & E1); [|done]. destruct cand as [cand|].
  - apply bind_Some in E1 as ([ch s3] & H3 & (s4 & H4 & (s5 & H5 & [= _ <-])%bind_Some)%bind_Some). apply live_children_data in H3; [|done].
    assert (data_ok s4) as Hs4; [|revert H5; apply update_node_data; [done|]; by intros n' _ Hn']. revert H4. apply (foldM_inv data_ok); [|done].
    intros s6 [[pos id] child] s7 _ Hs6 (x & _ & H6)%bind_Some. by eapply store_candidate_data.
  - apply bind_Some in E1 as (n' & _ & (_ & _ & [= _ <-])%bind_Some). done.
Qed.

Lemma view_of_shown id children s view : data_ok s → view_of id children s = Some view → Forall (shown D B) view.
Proof.
  intros Hs Hv. apply mapM_Some in Hv. apply Forall_forall. intros v (i & Hi)%list_elem_of_lookup.
  destruct (Forall2_lookup_r _ _ _ _ _ Hv Hi) as ([[pos child] sp] & _ & E1).
  apply bind_Some in E1 as (n & Hn & (e & He & (cn & Hc & (b & Hb & [= <-])%bind_Some)%bind_Some)%bind_Some).
  destruct (get_node_data _ _ _ Hs Hn) as [Hd _], (get_node_data _ _ _ Hs Hc) as [_ Hbd].
  split; [exact (Forall_lookup_1 _ _ _ _ Hd He)|by apply Hbd].
Qed.

Lemma pick_answers_as p q c children s r s' :
  answers_as D B p q → pick_keeps D B p → data_ok s → pick p c children s = Some (r, s') →
  pick q c children s = Some (r, s') ∧ data_ok s'.
Proof.
  intros Hpq Hk Hs (view & Hv & ([picked rng] & Hp & E1)%bind_Some)%bind_Some.
  pose proof (view_of_shown _ _ _ _ Hs Hv) as Hall. unfold pick. rewrite Hv. cbn [mbind option_bind].
  rewrite (Hpq _ _ _ _ Hall Hp). cbn [mbind option_bind]. split; [done|].
  destruct picked as [[[i sel] data]|]; [|by injection E1 as _ <-].
  apply bind_Some in E1 as ([[pos id] child] & _ & (n & _ & (e & _ & (s1 & H1 & [= _ <-])%bind_Some)%bind_Some)%bind_Some).
  revert H1. apply update_edge_data; [exact Hs|]. intros e' _. exact (Hk _ _ _ _ _ _ _ Hall Hp).
Qed.

(** The two policies of a search, and those that answer as they do. *)
Context (dp tp dq tq : TreePolicy R E).
Context (Hd : answers_as D B dp dq) (Ht : answers_as D B tp tq) (Hdk : pick_keeps D B dp) (Htk : pick_keeps D B tp).
Notation walk_with := (@walk_with Space Act R E).
Notation walk_loop := (@walk_loop Space Act _ R E edge_default config).
Notation walk := (@walk Space Act _ R E edge_default config).
Notation intree_loop := (@intree_loop Space Act _ R E edge_default config).
Notation mcts_explore := (@mcts_explore Space Act _ R E edge_default config).

Lemma walk_with_answers_as (f g : Walk) c candidate s r s' :
  (∀ c candidate s r s', data_ok s → f c candidate s = Some (r, s') → g c candidate s = Some (r, s') ∧ data_ok s') →
  data_ok s → walk_with f c candidate s = Some (r, s') → walk_with g c candidate s = Some (r, s') ∧ data_ok s'.
Proof.
  intros Hfg Hs (n & Hn & E1)%bind_Some. unfold Mcts.walk_with. rewrite Hn. cbn [mbind option_bind].
  destruct (is_implementation n); [|by apply Hfg]. split; [done|].
  apply bind_Some in E1 as ([o s1] & ([dead s2] & H2 & E2)%bind_Some & E1). apply cut_node_data in H2; [|done].
  assert (s2 = s1) as <- by (destruct dead; by injection E2 as _ <-).
  destruct o as [[cand trace]|]; [|by injection E1 as _ <-]. apply bind_Some in E1 as (s3 & H3 & [= _ <-]). by apply kill_data in H3.
Qed.

Lemma walk_loop_answers_as fuel c candidate s r s' :
  data_ok s → walk_loop dp fuel c candidate s = Some (r, s') → walk_loop dq fuel c candidate s = Some (r, s') ∧ data_ok s'.
Proof.
  revert c candidate s r s'. induction fuel as [|fuel IH]; intros c candidate s r s' Hs; [done|].
  cbn [Mcts.walk_loop]. intros ([st s1] & H1 & E1)%bind_Some. rewrite H1. cbn [mbind option_bind].
  apply check_stop_data in H1; [|done]. destruct st as [c'|e]; [|injection E1 as <- <-; by split].
  apply bind_Some in E1 as ([ch s2] & H2 & ([pk s3] & H3 & ([o s4] & H4 & E1)%bind_Some)%bind_Some).
  rewrite H2. cbn [mbind option_bind]. apply live_children_data in H2; [|done].
  apply (pick_answers_as dp dq) in H3 as [-> Hs3]; [|done..]. cbn [mbind option_bind].
  match goal with |- (x ← ?m; _) = _ ∧ _ => assert (m = Some (o, s4) ∧ data_ok s4) as [-> Hs4] end.
  { destruct pk as [[[[pos id] child] index]|].
    - apply bind_Some in H4 as (cc & Hcc & ([r' s5] & H5 & [= <- <-])%bind_Some). rewrite Hcc. cbn [mbind option_bind].
      destruct (walk_with_answers_as _ _ _ _ _ _ _ IH Hs3 H5) as [-> Hs5]. by split.
    - split; [done|]. apply bind_Some in H4 as (_ & _ & (s5 & H5 & [= _ <-])%bind_Some). by apply kill_data in H5. }
  cbn [mbind option_bind]. destruct (checkpoint config c' o) as [r'|c'']; [injection E1 as <- <-; by split|by apply IH].
Qed.

Lemma walk_answers_as fuel c candidate s r s' :
  data_ok s → walk dp fuel c candidate s = Some (r, s') → walk dq fuel c candidate s = Some (r, s') ∧ data_ok s'.
Proof. apply walk_with_answers_as. intros; by apply walk_loop_answers_as. Qed.

Lemma select_intree_answers_as (f g : NodeCursor → Store → option (result (Space * Trace) Error * Store)) c s r s' :
  (∀ c s r s', data_ok s → f c s = Some (r, s') → g c s = Some (r, s') ∧ data_ok s') →
  data_ok s → select_intree_with f c s = Some (r, s') → select_intree_with g c s = Some (r, s') ∧ data_ok s'.
Proof.
  intros Hfg Hs (n & Hn & ([] & H1 & ([] & H2 & E1)%bind_Some)%bind_Some)%bind_Some. unfold select_intree_with.
  rewrite Hn. cbn [mbind option_bind]. rewrite H1. cbn [mbind option_bind]. rewrite H2. cbn [mbind option_bind]. by apply Hfg.
Qed.

Lemma intree_loop_answers_as fuel c s r s' :
  data_ok s → intree_loop dp tp fuel c s = Some (r, s') → intree_loop dq tq fuel c s = Some (r, s') ∧ data_ok s'.
Proof.
  revert c s r s'. induction fuel as [|fuel IH]; intros c s r s' Hs; [done|].
  cbn [Mcts.intree_loop]. intros ([st s1] & H1 & E1)%bind_Some. rewrite H1. cbn [mbind option_bind].
  apply check_stop_data in H1; [|done]. destruct st as [c'|e]; [|injection E1 as <- <-; by split].
  apply bind_Some in E1 as ([ch s2] & H2 & ([ex un] & Hpart & ([pk s3] & H3 & ([o s4] & H4 & E1)%bind_Some)%bind_Some)%bind_Some).
  rewrite H2. cbn [mbind option_bind]. apply live_children_data in H2; [|done]. rewrite Hpart. cbn [mbind option_bind].
  apply (pick_answers_as dp dq) in H3 as [-> Hs3]; [|done..]. cbn [mbind option_bind].
  match goal with |- (x ← ?m; _) = _ ∧ _ => assert (m = Some (o, s4) ∧ data_ok s4) as [-> Hs4] end.
  { destruct pk as [[[[pos id] child] index]|].
    - apply bind_Some in H4 as ([cand s5] & H5 & H4). rewrite H5. cbn [mbind option_bind]. apply expand_data in H5; [|done].
      destruct cand as [cand|]; [|injection H4 as <- <-; by split].
      apply bind_Some in H4 as ([r' s6] & H6 & [= <- <-]). apply walk_answers_as in H6 as [-> Hs6]; [|done]. by split.
    - apply bind_Some in H4 as ([] & Hl & ([pk' s5] & H5 & H4)%bind_Some). rewrite Hl. cbn [mbind option_bind].
      apply (pick_answers_as tp tq) in H5 as [-> Hs5]; [|done..]. cbn [mbind option_bind].
      destruct pk' as [[[[pos id] child] index]|].
      + apply bind_Some in H4 as (n & Hn & ([] & Hex & H4)%bind_Some). rewrite Hn. cbn [mbind option_bind].
        rewrite Hex. cbn [mbind option_bind]. destruct (is_implementation n); [injection H4 as <- <-; by split|].
        apply bind_Some in H4 as ([r' s6] & H6 & [= <- <-]). apply (select_intree_answers_as _ _ _ _ _ _ IH) in H6 as [-> Hs6]; [|done]. by split.
      + split; [done|]. apply bind_Some in H4 as (_ & _ & (s6 & H6 & [= _ <-])%bind_Some). by apply kill_data in H6. }
  cbn [mbind option_bind]. destruct (checkpoint config c' o) as [r'|c'']; [injection E1 as <- <-; by split|by apply IH].
Qed.

Lemma explore_answers_as fuel s r s' :
  data_ok s → mcts_explore dp tp fuel s = Some (r, s') → mcts_explore dq tq fuel s = Some (r, s') ∧ data_ok s'.
Proof.
  revert s r s'. induction fuel as [|fuel IH]; intros s r s' Hs; [done|]. cbn [Mcts.mcts_explore].
  intros ([dead s1] & H1 & E1)%bind_Some. rewrite H1. cbn [mbind option_bind]. apply cut_node_data in H1; [|done].
  destruct dead; [injection E1 as <- <-; by split|].
  apply bind_Some in E1 as (root & Hr & ([ev s2] & H2 & ([o s3] & H3 & E1)%bind_Some)%bind_Some). rewrite Hr. cbn [mbind option_bind].
  match goal with |- (x ← ?m; _) = _ ∧ _ => assert (m = Some (ev, s2) ∧ data_ok s2) as [-> Hs2] end.
  { destruct (node_expanded root); [injection H2 as <- <-; by split|].
    apply bind_Some in H2 as ([cand s4] & H4 & H2). rewrite H4. cbn [mbind option_bind]. apply expand_data in H4; [|done].
    destruct cand as [cand|]; [|injection H2 as <- <-; by split].
    apply bind_Some in H2 as ([r' s5] & H5 & [= <- <-]). apply walk_answers_as in H5 as [-> Hs5]; [|done]. by split. }
  cbn [mbind option_bind].
  match goal with |- (x ← ?m; _) = _ ∧ _ => assert (m = Some (o, s3) ∧ data_ok s3) as [-> Hs3] end.
  { destruct ev as [r'|]; [injection H3 as <- <-; by split|]. revert H3. apply select_intree_answers_as; [|done].
    intros; by apply intree_loop_answers_as. }
  cbn [mbind option_bind]. destruct o as [[cand trace]|[c|]]; [|by apply IH|injection E1 as <- <-; by split].
  split; [done|]. apply bind_Some in E1 as (x & _ & [= _ <-]). exact Hs3.
Qed.

(** *** Evaluations *)
Lemma commit_total payload eval s s' :
  mcts_commit_evaluation tp payload eval s = Some s' → mcts_commit_evaluation (total_policy tp) payload eval s = Some s'.
Proof.
  unfold mcts_commit_evaluation. destruct (payload.2 <? restart_id s); [done|].
  generalize (if is_finite eval then Some eval else None) as ev. intros ev. generalize payload.1.1 as l. intros l.
  revert s. induction l as [|step l IH]; intros s; cbn [foldM]; [done|].
  intros (s1 & H1 & E1)%bind_Some. assert (backpropagate_edge (total_policy tp) ev s step = Some s1) as ->; [|by apply IH].
  destruct step as [[[|] parent] index]; [|done]. cbn in H1 |- *.
  apply bind_Some in H1 as (n & Hn & H1). rewrite Hn. cbn [mbind option_bind]. destruct (node_expanded n); [|done].
  apply bind_Some in H1 as (e & He & (d & Ed & H1)%bind_Some). rewrite He. cbn [mbind option_bind]. rewrite Ed. exact H1.
Qed.

Context (Hback : backpropagate_keeps D tp).

Lemma commit_data payload eval s s' :
  data_ok s → mcts_commit_evaluation (total_policy tp) payload eval s = Some s' →
  mcts_commit_evaluation tp payload eval s = Some s' ∧ data_ok s'.
Proof.
  unfold mcts_commit_evaluation. destruct (payload.2 <? restart_id s); [by intros Hs [= <-]|].
  set (ev := if is_finite eval then Some eval else None).
  assert (∀ e, ev = Some e → is_finite e = true) as Hev by (unfold ev; intros e; by destruct (is_finite eval) eqn:Ef; [intros [= <-]|]).
  generalize payload.1.1 as l. clearbody ev. clear eval. intros l. revert s. induction l as [|step l IH]; intros s Hs; cbn [foldM]; [by intros [= <-]|].
  intros (s1 & H1 & E1)%bind_Some. assert (backpropagate_edge tp ev s step = Some s1 ∧ data_ok s1) as [-> Hs1].
  { destruct step as [[[|] parent] index]; [|injection H1 as <-; by split]. cbn in H1 |- *.
    apply bind_Some in H1 as (n & Hn & H1). rewrite Hn. cbn [mbind option_bind].
    destruct (node_expanded n); [|injection H1 as <-; by split].
    apply bind_Some in H1 as (e & He & H1). rewrite He. cbn [mbind option_bind] in *.
    destruct (get_node_data _ _ _ Hs Hn) as [Hde _]. pose proof (Forall_lookup_1 _ _ _ _ Hde He) as Hdata.
    destruct (Hback (edge_data e) ev Hdata Hev) as (d & Ed & HDd). rewrite Ed in H1 |- *. cbn [default mbind option_bind] in *.
    split; [exact H1|]. revert H1. by apply update_edge_data. }
  by apply IH.
Qed.
End guard.

(** * The policies of the crate honour their contract *)

(** ** Recording evaluations that are not NaN *)
Definition numbers (l : list f64) : Prop := Forall (λ x, is_nan x = false) l.

Lemma finite_number x : is_finite x = true → is_nan x = false.
Proof. unfold is_finite. by destruct (is_nan x). Qed.

Lemma binary_search_loop_lt {A : Type} (g : A → comparison) (l : list A) fuel base size :
  0 < size → base + size ≤ length l → binary_search_loop fuel g l base size < length l.
Proof.
  revert base size. induction fuel as [|fuel IH]; intros base size Hs Hl; cbn [binary_search_loop]; [lia|].
  destruct (Nat.ltb_spec 1 size) as [H1|]; [|lia]. destruct (l !! (base + size / 2)) as [x|] eqn:Ex; [|lia].
  assert (0 < size / 2 < size) by (split; [apply Nat.div_str_pos; lia|apply Nat.div_lt; lia]).
  apply IH; [lia|]. destruct (g x); lia.
Qed.

Lemma binary_search_by_le {A : Type} (g : A → comparison) (l : list A) : merge_result (binary_search_by g l) ≤ length l.
Proof.
  unfold binary_search_by. destruct (Nat.eqb_spec (length l) 0); [cbn; lia|].
  pose proof (binary_search_loop_lt g l (length l) 0 (length l) ltac:(lia) ltac:(lia)) as Hlt.
  destruct (l !! _) as [x|]; [destruct (g x)|]; cbn; lia.
Qed.

Lemma search_number l x : numbers l → is_nan x = false →
  ∃ r, try_binary_search_by (λ probe, cmp_f64 probe x) l = Some r ∧ match r with ROk pos | RErr pos => pos end ≤ length l.
Proof.
  intros Hl Hx. exists (binary_search_by (λ probe, default Eq (cmp_f64 probe x)) l). split.
  - apply try_binary_search_total. intros y Hy. unfold numbers in Hl. rewrite Forall_forall in Hl.
    by destruct (cmp_f64_total y x (Hl y Hy) Hx) as [c ->].
  - exact (binary_search_by_le _ l).
Qed.

Lemma record_number l x topk : numbers l → is_nan x = false → ∃ b l', record l x topk = Some (b, l') ∧ numbers l'.
Proof.
  intros Hl Hx. destruct (search_number l x Hl Hx) as (r & Hr & Hpos). unfold record. rewrite Hr. cbn [mbind option_bind].
  set (pos := match r with ROk pos | RErr pos => pos end) in *.
  destruct (Nat.ltb_spec pos topk) as [Hlt|]; [|by eexists _, _].
  set (l' := if topk <=? length l then removelast l else l).
  assert (numbers l' ∧ pos ≤ length l') as [Hl' Hpos'].
  { unfold l'. destruct (Nat.leb_spec topk (length l)); [|done].
    destruct (exists_last (l := l)) as (l0 & z & ->); [by intros ->; cbn in *; lia|]. rewrite removelast_last.
    rewrite length_app in *. cbn [length] in *. split; [|lia]. by apply Forall_app in Hl as [? _]. }
  rewrite vec_insert_some by done. cbn [mbind option_bind]. eexists _, _. split; [done|].
  rewrite <-(take_drop pos l') in Hl'. apply Forall_app in Hl' as [H1 H2]. apply Forall_app. split; [done|by constructor].
Qed.

(** ** Counts are numbers *)
Lemma iter_pos_inv {A : Type} (P : A → Prop) (f : A → A) n x : (∀ x, P x → P (f x)) → P x → P (SpecFloat.iter_pos f n x).
Proof. intros Hf. revert x. induction n as [n IH|n IH|]; intros x Hx; cbn; auto. Qed.

Definition shr_nonneg (r : shr_record) : Prop := (0 ≤ shr_m r)%Z.

Lemma shr_1_nonneg r : shr_nonneg r → shr_nonneg (shr_1 r).
Proof. destruct r as [[|m|m] ? ?]; unfold shr_nonneg; cbn; [done| |lia]. by destruct m. Qed.

Lemma shr_fexp_nonneg m e l : (0 ≤ m)%Z → shr_nonneg (shr_fexp f64_prec f64_emax m e l).1.
Proof.
  intros Hm. unfold shr_fexp, shr. assert (shr_nonneg (shr_record_of_loc m l)) as Hr.
  { by destruct l as [|[]]. }
  destruct (_ - e)%Z; try exact Hr. cbn [fst]. apply iter_pos_inv; [apply shr_1_nonneg|exact Hr].
Qed.

Lemma binary_round_aux_number m e l : (0 ≤ m)%Z → is_nan (binary_round_aux f64_prec f64_emax false m e l) = false.
Proof.
  intros Hm. unfold binary_round_aux. pose proof (shr_fexp_nonneg m e l Hm) as H1.
  destruct (shr_fexp f64_prec f64_emax m e l) as [r1 e1]. cbn [fst] in H1.
  set (m1 := round_nearest_even (shr_m r1) (loc_of_shr_record r1)).
  assert (0 ≤ m1)%Z as Hm1.
  { unfold m1, round_nearest_even, shr_nonneg in *. destruct (loc_of_shr_record r1) as [|[]]; try lia. destruct (Z.even _); lia. }
  pose proof (shr_fexp_nonneg m1 e1 loc_Exact Hm1) as H2. destruct (shr_fexp f64_prec f64_emax m1 e1 loc_Exact) as [r2 e2].
  unfold shr_nonneg in H2. cbn [fst] in H2. destruct (shr_m r2); [done| |lia]. by destruct (_ <=? _)%Z.
Qed.

Lemma f64_of_nat_number n : is_nan (f64_of_nat n) = false.
Proof.
  unfold f64_of_nat, f64_of_Z, binary_normalize. destruct (Z.of_nat n) as [|m|m] eqn:En; [done| |lia].
  unfold binary_round. destruct (shl_align m 0 _) as [m' e']. by apply binary_round_aux_number.
Qed.

(** ** Picks *)
Section picks.
Context {R E : Type} `{Rng R, Profile} (f64_ln : f64 → f64).
Implicit Types (children : list (ChildView E)).

Lemma with_selector_picks (down : E → E) children selector rng r rng' :
  with_selector down children selector rng = Some (r, rng') →
  match r with
  | Some (i, _, data) => ∃ child, children !! i = Some child ∧ data = down (cv_data E child)
  | None => selector = None
  end.
Proof.
  unfold with_selector. destruct selector as [sel|]; [|by intros [= <- _]].
  intros ([[[i sel'] data] rng0] & Hsel & [= <- _])%bind_Some.
  apply bind_Some in Hsel as ([i' rng1] & _ & (sel1 & _ & (child & Hc & [= -> _ <- _])%bind_Some)%bind_Some).
  by exists child.
Qed.

Lemma try_random_none {T : Type} (l : list (T * f64)) : try_random l = None → l = [].
Proof. by destruct l. Qed.

Lemma try_maximum_none {T : Type} (l : list (T * f64)) : try_maximum l = None → l = [].
Proof. by destruct l. Qed.

Lemma into_selector_none {T : Type} self cut (bounds : list (T * f64)) :
  into_selector self cut bounds = None → filter (λ b, SFltb b.2 cut = true) bounds = [].
Proof.
  unfold into_selector. destruct self; [| | |destruct (is_infinite cut)].
  all: intros E1; try apply try_random_none in E1; try apply try_maximum_none in E1; try by apply fmap_nil_inv in E1.
  all: by destruct (filter _ bounds).
Qed.

(** A policy that chooses a selector is sound when it finds one as soon as there is a child
    below the cut. *)
Lemma selector_sound (p : TreePolicy R E) (down : E → E) :
  (∀ cut children rng r, pick_child p cut children rng = Some r → ∃ selector,
     with_selector down children selector rng = Some r ∧
     (Forall (λ child, cv_bound E child < cut)%f64 children → selector = None → children = [])) →
  policy_sound p ∧ ∀ D : E → Prop, (∀ d, D d → D (down d)) → pick_keeps D (λ _, True) p.
Proof.
  intros Hp. split.
  - intros cut children rng r rng' Hall (sel & Hs & Hnil)%Hp. apply with_selector_picks in Hs.
    destruct r as [[[i s] d]|]; [|by apply Hnil]. destruct Hs as (child & Hc & _). by eapply lookup_lt_Some.
  - intros D HD cut children rng i sel d rng' Hall (s & Hs & _)%Hp. apply with_selector_picks in Hs as (child & Hc & ->).
    apply HD. by apply (Forall_lookup_1 _ _ _ _ Hall Hc).
Qed.

Lemma imap_nil {A B : Type} (f : nat → A → B) l : imap f l = [] → l = [].
Proof. by destruct l. Qed.
End picks.

Section policies.
Context {R : Type} `{Rng R, Profile} (f64_ln : f64 → f64).

#[global] Instance new_node_order_contract (E : Type) (D : E → Prop) self : PolicyOk D (new_node_order_policy (R := R) E self).
Proof.
  destruct (selector_sound (new_node_order_policy (R := R) E self) id) as [Hs Hk].
  - intros cut children rng r Hr. eexists. split; [exact Hr|]. intros Hall Hnone%into_selector_none.
    rewrite filter_all in Hnone; [|by intros x [Hx _]%list_elem_of_filter].
    rewrite filter_all in Hnone; [by apply imap_nil in Hnone|].
    intros b (i & child & -> & Hi)%elem_of_lookup_imap. exact (Forall_lookup_1 _ _ _ _ Hall Hi).
  - split; [done|by apply Hk|]. intros data eval Hd _. by exists data.
Qed.

#[global] Instance uct_contract self : PolicyOk (λ _, True) (uct_policy (R := R) f64_ln self).
Proof.
  destruct (selector_sound (uct_policy (R := R) f64_ln self) uct_down) as [Hs Hk].
  - intros cut children rng r Hr. eexists. split; [exact Hr|]. intros _. destruct (into_selector _ _ _); [done|].
    intros Hnone%try_maximum_none. apply fmap_nil_inv in Hnone. by apply imap_nil in Hnone.
  - split; [done|by apply Hk|]. intros data eval _ _. by eexists.
Qed.

#[global] Instance round_robin_contract : PolicyOk (λ _, True) (round_robin_policy (R := R)).
Proof.
  destruct (selector_sound (round_robin_policy (R := R)) common_down) as [Hs Hk].
  - intros cut children rng r Hr. eexists. split; [exact Hr|]. intros _ Hnone%try_maximum_none. by apply imap_nil in Hnone.
  - split; [done|by apply Hk|]. intros data eval _ _. by eexists.
Qed.

Definition tag_data (d : TAGStats) : Prop := numbers (evaluations d).

#[global] Instance tag_contract self : PolicyOk tag_data (tag_policy (R := R) f64_ln self).
Proof.
  destruct (selector_sound (tag_policy (R := R) f64_ln self) tag_down) as [Hs Hk].
  - intros cut children rng r (sel & Hsel & Hr)%bind_Some. exists sel. split; [exact Hr|]. intros Hall ->.
    destruct (into_selector _ _ _); [done|]. apply bind_Some in Hsel as (thr & _ & (stats & Hst & (scores & Hsc & Hmax)%bind_Some)%bind_Some).
    injection Hmax as ->%try_maximum_none. apply length_mapM in Hsc, Hst. rewrite Hsc in Hst. cbn [length] in Hst.
    apply nil_length_inv in Hst. rewrite filter_all in Hst; [by apply imap_nil in Hst|].
    intros x (i & child & -> & Hi)%elem_of_lookup_imap. exact (Forall_lookup_1 _ _ _ _ Hall Hi).
  - split; [done|by apply Hk|]. intros data eval Hd Hev. cbn. destruct eval as [e|]; [|by exists data].
    destruct (record_number (evaluations data) e (topk self) Hd) as (b & l & Hr & Hl); [by apply finite_number, Hev|].
    unfold tag_up. rewrite Hr. by eexists.
Qed.

(** The order of the API always answers, and so does round robin. *)
Lemma api_answers (E : Type) (D : E → Prop) (B : f64 → Prop) : policy_answers D B (new_node_order_policy (R := R) E OrderApi).
Proof.
  intros cut children rng _. cbn [pick_child new_node_order_policy into_selector].
  set (bounds := filter _ (filter _ _)). assert (∀ b, b ∈ bounds → is_Some (children !! b.1)) as Hb.
  { intros b [_ [_ (i & child & -> & Hi)%elem_of_lookup_imap]%list_elem_of_filter]%list_elem_of_filter. by eexists. }
  destruct bounds as [|b bounds]; [by eexists|]. destruct (Hb b) as [child Hc]; [by left|].
  cbn [head fmap option_fmap option_map compose with_selector]. unfold select_with. cbn [select selector_map mbind option_bind].
  rewrite Hc. by eexists.
Qed.

Lemma round_robin_answers (B : f64 → Prop) : policy_answers (λ _, True) B (round_robin_policy (R := R)).
Proof.
  intros cut children rng _. cbn [pick_child round_robin_policy].
  set (scores := imap (λ i child, (i, SFopp (f64_of_nat (cv_data _ child)))) children).
  assert (∀ x, x ∈ scores → is_Some (cv_index _ <$> children !! x.1) ∧ is_nan x.2 = false) as Hs.
  { intros x (i & child & -> & Hi)%elem_of_lookup_imap. split; [exists (cv_index _ child); apply fmap_Some; by exists child|]. cbn.
    unfold f64_of_nat. pose proof (f64_of_nat_number (cv_data _ child)) as Hn. unfold f64_of_nat in Hn. by destruct (f64_of_Z _). }
  destruct scores as [|x l] eqn:Es; [by eexists|]. cbn [try_maximum with_selector]. unfold select_with. cbn [select].
  destruct (max_by_from_total (λ lhs rhs : nat * f64, cmp_f64 lhs.2 rhs.2) x l) as (y & Ey & Hy).
  { intros y z Hy Hz. apply cmp_f64_total; by apply Hs. }
  unfold max_by. rewrite Ey. cbn [fmap option_fmap option_map mbind option_bind].
  destruct (selector_map_maximum (λ i, cv_index _ <$> children !! i) (x :: l)) as [sel ->]; [by intros z Hz; apply Hs|].
  cbn [mbind option_bind]. destruct (Hs y Hy) as [[k Hk]%fmap_is_Some _]. rewrite Hk. by eexists.
Qed.
End policies.
