(* ===== verification/MctsInvariant.v ===== *)
(** * The tree of the Monte-Carlo search: its invariant, and the children of a node

    Every node stands for a sequence of actions from the root, dead nodes have nothing
    left to explore, and a potential bounds the work that is left.  Under this invariant,
    listing the live children of a node does not panic, makes the nodes that are missing,
    and leaves dead every child that it does not list. *)
From S2P Require Import Prelude Types Utils Orders Float64 Config Candidates Rollout MctsPolicies Mcts.
From Stdlib Require Import Floats.SpecFloat.

Section invariant.
Context {Space Act : Type} `{SearchSpaceOps Space Act} {R E : Type} (edge_default : E).
Context (config : BanditConfig) (height : Space → nat) (root : Space).
Notation Action := (ActionEx Act).
Notation Store := (@MctsStore Space Act R E).
Notation Node := (@Node Space Act E).
Notation Edge := (@Edge Act E).
Notation list_actions := (list_actions config).

(** The actions considered narrow the search space, and fit the indexes of the edges. *)
Definition actions_narrow : Prop :=
  ∀ s a s', a ∈ list_actions s → apply_action s a = Some s' → height s' < height s.

Definition actions_fit : Prop := ∀ s, (Z.of_nat (length (list_actions s)) ≤ 2 ^ 16)%Z.

Context (Hnarrow : actions_narrow) (Hfit : actions_fit).

(** The implementations below a space, through spaces below the cut. *)
Inductive reach (cut : f64) : Space → list Action → Space → Prop :=
| ReachLeaf s : (space_bound s < cut)%f64 → list_actions s = [] → reach cut s [] s
| ReachStep s a s' acts l :
  (space_bound s < cut)%f64 → a ∈ list_actions s → apply_action s a = Some s' → reach cut s' acts l → reach cut s (a :: acts) l.

Lemma reach_bound cut s acts l : reach cut s acts l → (space_bound s < cut)%f64.
Proof. by intros []. Qed.

Lemma reach_mono cut cut' s acts l :
  (∀ b, b < cut' → b < cut)%f64 → reach cut' s acts l → reach cut s acts l.
Proof. intros Hc. induction 1; [apply ReachLeaf; auto|eapply ReachStep; eauto]. Qed.

(** ** The potential: what may still be killed below a space *)
Fixpoint weight_at (n : nat) (s : Space) : nat :=
  S (sum_list_with (λ a,
    match apply_action s a with
    | Some s' => match n with 0 => 0 | S n => weight_at n s' end
    | None => 1
    end) (list_actions s)).

Definition weight (s : Space) : nat := weight_at (height s) s.

Definition action_weight (s : Space) (a : Action) : nat :=
  match apply_action s a with Some s' => weight s' | None => 1 end.

Lemma weight_enough n m s : height s ≤ n → height s ≤ m → weight_at n s = weight_at m s.
Proof.
  revert m s. induction n as [|n IH]; intros m s Hn Hm; destruct m as [|m]; cbn [weight_at]; f_equal;
    apply sum_list_with_ext; intros a Ha; destruct (apply_action s a) as [s'|] eqn:Es; try done;
    pose proof (Hnarrow s a s' Ha Es); try lia. apply IH; lia.
Qed.

Lemma weight_unfold s : weight s = S (sum_list_with (action_weight s) (list_actions s)).
Proof.
  unfold weight. rewrite (weight_enough _ (S (height s))) by lia. cbn [weight_at]. f_equal.
  apply sum_list_with_ext. intros a Ha. unfold action_weight. destruct (apply_action s a) as [s'|] eqn:Es; [|done].
  unfold weight. pose proof (Hnarrow s a s' Ha Es). apply weight_enough; lia.
Qed.

(** ** Ghost state

    What each node stands for: the actions that lead to it from the root, and its space
    when they are valid. *)
Definition Ghost : Type := list (list Action * option Space).

(** The work left at a node: itself, and the edges that do not lead anywhere yet. *)
Definition edge_work (sp : Space) (e : Edge) : nat :=
  match edge_node e with Some _ => 0 | None => action_weight sp (edge_action e) end.

Definition node_work (g : list Action * option Space) (n : Node) : nat :=
  if node_dead n then 0
  else match g.2 with Some sp => S (sum_list_with (edge_work sp) (node_children n)) | None => 0 end.

Fixpoint work_of (G : Ghost) (nodes : list Node) : nat :=
  match G, nodes with g :: G, n :: nodes => node_work g n + work_of G nodes | _, _ => 0 end.

Definition potential (G : Ghost) (s : Store) : nat := work_of G (nodes_of s).

Lemma work_of_insert G nodes id g n n' :
  G !! id = Some g → nodes !! id = Some n →
  work_of G (<[id := n']> nodes) + node_work g n = work_of G nodes + node_work g n'.
Proof.
  revert G id. induction nodes as [|m nodes IH]; intros [|h G] [|id] Hg Hn; try done.
  - injection Hg as ->. injection Hn as ->. change (node_work g n' + work_of G nodes + node_work g n = node_work g n + work_of G nodes + node_work g n'). lia.
  - specialize (IH G id Hg Hn). change (node_work h m + work_of G (<[id := n']> nodes) + node_work g n = node_work h m + work_of G nodes + node_work g n'). lia.
Qed.

Lemma work_of_snoc G nodes g n : length G = length nodes → work_of (G ++ [g]) (nodes ++ [n]) = work_of G nodes + node_work g n.
Proof.
  revert G. induction nodes as [|m nodes IH]; intros [|h G] Hl; try done. injection Hl as Hl.
  change (node_work h m + work_of (G ++ [g]) (nodes ++ [n]) = node_work h m + work_of G nodes + node_work g n). rewrite IH by done. lia.
Qed.

(** ** The invariant *)

(** All the implementations below the cut under a node are those of nodes in [done]. *)
Definition completed (G : Ghost) (done : list nat) (cut : f64) (g : list Action * option Space) : Prop :=
  ∀ sp acts l, g.2 = Some sp → reach cut sp acts l → ∃ id, id ∈ done ∧ G !! id = Some (g.1 ++ acts, Some l).

(** A node whose parent is expanded is ready to be expanded, unless it is or it is dead;
    [x] is the node that is being expanded. *)
Definition ready (x : option nat) (id : nat) (n : Node) : Prop :=
  node_dead n = true ∨ node_expanded n = true ∨ is_Some (node_candidate n) ∨ x = Some id.

Definition child_ready (G : Ghost) (x : option nat) (s : Store) (e : Edge) : Prop :=
  ∃ id n g, edge_node e = Some id ∧ nodes_of s !! id = Some n ∧ G !! id = Some g ∧ ready x id n.

Record node_ok (G : Ghost) (done : list nat) (x : option nat) (s : Store) (id : nat) (g : list Action * option Space) (n : Node) : Prop := {
  ok_bound : node_bound n = space_bound <$> g.2;
  ok_dead : g.2 = None → node_dead n = true;
  ok_children : edge_action <$> node_children n = match g.2 with Some sp => list_actions sp | None => [] end;
  ok_index pos e : node_children n !! pos = Some e → edge_index e = Z.of_nat pos;
  ok_depth : node_depth n = length g.1;
  ok_parent : match node_parent n with
    | None => id = 0 ∧ g = ([], Some root)
    | Some (p, ix) => p < id ∧ ∃ path sp pos a, G !! p = Some (path, Some sp) ∧ ix = Z.of_nat pos ∧
        list_actions sp !! pos = Some a ∧ g = (path ++ [a], apply_action sp a)
    end;
  ok_edge pos e child : node_children n !! pos = Some e → edge_node e = Some child →
    ∃ n', nodes_of s !! child = Some n' ∧ node_parent n' = Some (id, Z.of_nat pos);
  ok_candidate c : node_candidate n = Some c → g.2 = Some c;
  ok_expanded : node_expanded n = true → Forall (child_ready G x s) (node_children n);
  ok_implementation : node_expanded n = true → is_implementation n = true → x ≠ Some id → node_dead n = true;
  ok_completed : node_dead n = true → completed G done (store_cut s) g
}.

Record tree_inv (G : Ghost) (done : list nat) (x : option nat) (s : Store) : Prop := {
  inv_length : length G = length (nodes_of s);
  inv_nodes id g n : G !! id = Some g → nodes_of s !! id = Some n → node_ok G done x s id g n;
  inv_root : ∃ n, nodes_of s !! 0 = Some n ∧ G !! 0 = Some ([], Some root) ∧
    (node_dead n = true ∨ node_expanded n = true ∨ node_candidate n = Some root ∨ x = Some 0)
}.

(** How nodes and stores evolve while the tree is explored. *)
Record edge_evolves (e e' : Edge) : Prop := {
  ev_index : edge_index e' = edge_index e;
  ev_action : edge_action e' = edge_action e;
  ev_node child : edge_node e = Some child → edge_node e' = Some child
}.

Record node_evolves (n n' : Node) : Prop := {
  ev_depth : node_depth n' = node_depth n;
  ev_parent : node_parent n' = node_parent n;
  ev_bound : node_bound n' = node_bound n;
  ev_children : Forall2 edge_evolves (node_children n) (node_children n');
  ev_dead : node_dead n = true → node_dead n' = true;
  ev_expanded : node_expanded n = true → node_expanded n' = true
}.

Record evolves (G G' : Ghost) (s s' : Store) : Prop := {
  ev_ghost : ∃ G1, G' = G ++ G1;
  ev_nodes id n : nodes_of s !! id = Some n → ∃ n', nodes_of s' !! id = Some n' ∧ node_evolves n n';
  ev_cut : store_cut s' = store_cut s;
  ev_epoch : store_cut_epoch s' = store_cut_epoch s;
  ev_restart : restart_id s' = restart_id s;
  ev_stop : store_stop s' = store_stop s
}.

#[export] Instance edge_evolves_refl : Reflexive edge_evolves.
Proof. by constructor. Qed.
#[export] Instance edge_evolves_trans : Transitive edge_evolves.
Proof. intros x y z [] []. constructor; [congruence|congruence|auto]. Qed.
#[export] Instance node_evolves_refl : Reflexive node_evolves.
Proof. intros n. constructor; try done. Qed.
#[export] Instance node_evolves_trans : Transitive node_evolves.
Proof. intros x y z [] []. constructor; try congruence; try auto. by etrans. Qed.

Lemma evolves_refl G s : evolves G G s s.
Proof. constructor; try done; [exists []; by rewrite app_nil_r|]. intros id n Hn. by exists n. Qed.

Lemma evolves_trans G1 G2 G3 s1 s2 s3 : evolves G1 G2 s1 s2 → evolves G2 G3 s2 s3 → evolves G1 G3 s1 s3.
Proof.
  intros [[A ->] N1 C1 E1 R1 S1] [[B ->] N2 C2 E2 R2 S2]. constructor; try congruence; [exists (A ++ B); by rewrite app_assoc|].
  intros id n Hn. destruct (N1 id n Hn) as (n1 & H1 & V1). destruct (N2 id n1 H1) as (n2 & H2 & V2). exists n2. split; [done|]. by etrans.
Qed.

Lemma evolves_ghost G G' s s' id g : evolves G G' s s' → G !! id = Some g → G' !! id = Some g.
Proof. intros [[A ->] _ _ _ _ _] Hg. by apply lookup_app_l_Some. Qed.

(** ** Changing one node *)
(** What a node relies on, in the other nodes. *)
Definition stays_ready (x x' : option nat) (s s' : Store) : Prop :=
  ∀ j m m', nodes_of s !! j = Some m → nodes_of s' !! j = Some m' → ready x j m → ready x' j m'.

Lemma completed_mono G G' done done' cut g :
  (∃ G1, G' = G ++ G1) → done ⊆ done' → completed G done cut g → completed G' done' cut g.
Proof.
  intros [G1 ->] Hd Hc sp acts l Hsp Hr. destruct (Hc sp acts l Hsp Hr) as (id & Hid & Hg). exists id.
  split; [by apply Hd|]. by apply lookup_app_l_Some.
Qed.

Lemma node_ok_mono G G' done done' x x' s s' id g n :
  evolves G G' s s' → stays_ready x x' s s' → done ⊆ done' → (x' ≠ Some id → x ≠ Some id) →
  node_ok G done x s id g n → node_ok G' done' x' s' id g n.
Proof.
  intros Hev Hready Hd Hx [H1 H2 H3 H4 H5 H6 H7 H8 H9 H10 H11]. constructor; try done.
  - destruct (node_parent n) as [[p ix]|]; [|done]. destruct H6 as (Hp & path & sp & pos & a & Hg & Hr). split; [done|].
    exists path, sp, pos, a. split; [by eapply evolves_ghost|done].
  - intros pos e child Hpos He. destruct (H7 pos e child Hpos He) as (m & Hm & Hpar).
    destruct (ev_nodes _ _ _ _ Hev child m Hm) as (m' & Hm' & Hev'). exists m'. split; [done|]. by rewrite (ev_parent _ _ Hev').
  - intros Hexp. eapply Forall_impl; [by apply H9|]. intros e (child & m & gm & He & Hm & Hgm & Hr).
    destruct (ev_nodes _ _ _ _ Hev child m Hm) as (m' & Hm' & Hev'). exists child, m', gm. split; [done|]. split; [done|].
    split; [by eapply evolves_ghost|]. by eapply (Hready child m m').
  - intros Hexp Himp Hne. by apply H10; [..|apply Hx].
  - intros Hdead. rewrite (ev_cut _ _ _ _ Hev). eapply completed_mono; [by apply (ev_ghost _ _ _ _ Hev)|done|by apply H11].
Qed.

(** How the store evolves when a node does. *)
Lemma update_evolves G x x' (s : Store) id n n' :
  nodes_of s !! id = Some n → node_evolves n n' → (ready x id n → ready x' id n') → (∀ j, j ≠ id → x = Some j → x' = Some j) →
  let s' := with_nodes (<[id := n']> (nodes_of s)) s in
  evolves G G s s' ∧ stays_ready x x' s s'.
Proof.
  intros Hn Hevn Hready Hx s'. assert (nodes_of s' !! id = Some n') as Hn' by (cbn; apply list_lookup_insert_eq; by eapply lookup_lt_Some).
  split.
  - constructor; try done; [exists []; by rewrite app_nil_r|]. intros j m Hj. destruct (decide (j = id)) as [->|Hne].
    + exists n'. rewrite Hn in Hj. by injection Hj as <-.
    + exists m. split; [|done]. cbn. by rewrite list_lookup_insert_ne.
  - intros j m m' Hm Hm' Hr. destruct (decide (j = id)) as [->|Hne]; [simplify_eq; by apply Hready|].
    cbn in Hm'. rewrite list_lookup_insert_ne in Hm' by done. simplify_eq.
    destruct Hr as [?|[?|[?|?]]]; [by left|by right; left|by right; right; left|right; right; right; by apply Hx].
Qed.

(** The root is ready too. *)
Lemma update_root G done x x' (s : Store) id g n n' :
  tree_inv G done x s → G !! id = Some g → nodes_of s !! id = Some n →
  (ready x id n → ready x' id n') → (∀ j, j ≠ id → x = Some j → x' = Some j) → (∀ c, node_candidate n' = Some c → g.2 = Some c) →
  ∃ r, <[id := n']> (nodes_of s) !! 0 = Some r ∧ G !! 0 = Some ([], Some root) ∧
    (node_dead r = true ∨ node_expanded r = true ∨ node_candidate r = Some root ∨ x' = Some 0).
Proof.
  intros Hinv Hg Hn Hready Hx Hc. destruct (inv_root _ _ _ _ Hinv) as (r & Hr & Hgr & Hcase). destruct (decide (0 = id)) as [<-|Hne].
  - rewrite Hn in Hr. injection Hr as <-. exists n'. split; [apply list_lookup_insert_eq; by eapply lookup_lt_Some|]. split; [done|].
    destruct Hready as [?|[?|[[c Hc']|?]]]; [|by left|by right; left| |by right; right; right].
    + destruct Hcase as [?|[?|[Hc'|?]]]; [by left|by right; left|right; right; left; by eexists|by right; right; right].
    + right. right. left. rewrite Hc'. pose proof (Hc c Hc') as Hgc. rewrite Hgr in Hg. injection Hg as <-. by cbn in Hgc.
  - exists r. split; [by rewrite list_lookup_insert_ne|]. split; [done|].
    destruct Hcase as [?|[?|[?|?]]]; [by left|by right; left|by right; right; left|right; right; right; by apply Hx].
Qed.

Lemma update_inv G done x x' (s : Store) id g n n' :
  tree_inv G done x s → G !! id = Some g → nodes_of s !! id = Some n → node_evolves n n' →
  (ready x id n → ready x' id n') → (∀ j, j ≠ id → x = Some j → x' = Some j) →
  let s' := with_nodes (<[id := n']> (nodes_of s)) s in
  node_ok G done x' s' id g n' → tree_inv G done x' s'.
Proof.
  intros Hinv Hg Hn Hevn Hready Hx s' Hok. destruct (update_evolves G x x' s id n n' Hn Hevn Hready Hx) as [Hev Hst]. constructor.
  - cbn. rewrite length_insert. apply (inv_length _ _ _ _ Hinv).
  - intros j gj m Hgj Hm. destruct (decide (j = id)) as [->|Hne].
    + cbn in Hm. rewrite list_lookup_insert_eq in Hm by (by eapply lookup_lt_Some). by simplify_eq.
    + cbn in Hm. rewrite list_lookup_insert_ne in Hm by done.
      eapply (node_ok_mono G G done done x x' s s'); [done|done|done| |by eapply (inv_nodes _ _ _ _ Hinv)].
      intros Hx' Hxj. by apply Hx', Hx.
  - apply (update_root G done x x' s id g n n'); try done. by apply (ok_candidate _ _ _ _ _ _ _ Hok).
Qed.

(** A node that changes: what is left to show is about the node itself. *)
Lemma update_ok G done x x' (s : Store) id g n n' :
  tree_inv G done x s → G !! id = Some g → nodes_of s !! id = Some n → node_evolves n n' →
  (ready x id n → ready x' id n') → (∀ j, j ≠ id → x = Some j → x' = Some j) → (x' ≠ Some id → x ≠ Some id) →
  let s' := with_nodes (<[id := n']> (nodes_of s)) s in
  (evolves G G s s' → node_ok G done x' s' id g n → node_ok G done x' s' id g n') →
  tree_inv G done x' s' ∧ evolves G G s s' ∧ stays_ready x x' s s' ∧ nodes_of s' !! id = Some n'.
Proof.
  intros Hinv Hg Hn Hevn Hready Hx Hx' s' Hok. destruct (update_evolves G x x' s id n n' Hn Hevn Hready Hx) as [Hev Hst].
  split; [|split; [done|split; [done|cbn; apply list_lookup_insert_eq; by eapply lookup_lt_Some]]].
  apply (update_inv G done x x' s id g n n'); try done. apply Hok; [done|].
  eapply (node_ok_mono G G done done x x' s s'); [done|done|done|done|by eapply (inv_nodes _ _ _ _ Hinv)].
Qed.

Lemma update_potential G (s : Store) id g n n' :
  G !! id = Some g → nodes_of s !! id = Some n →
  potential G (with_nodes (<[id := n']> (nodes_of s)) s) + node_work g n = potential G s + node_work g n'.
Proof. intros Hg Hn. by apply work_of_insert. Qed.

(** The index of the node exists on both sides. *)
Lemma ghost_node G done x (s : Store) id n : tree_inv G done x s → nodes_of s !! id = Some n → ∃ g, G !! id = Some g.
Proof.
  intros Hinv Hn. apply lookup_lt_is_Some_2. rewrite (inv_length _ _ _ _ Hinv). by eapply lookup_lt_Some.
Qed.

Lemma node_ghost G done x (s : Store) id g : tree_inv G done x s → G !! id = Some g → ∃ n, nodes_of s !! id = Some n.
Proof.
  intros Hinv Hg. apply lookup_lt_is_Some_2. rewrite <-(inv_length _ _ _ _ Hinv). by eapply lookup_lt_Some.
Qed.

(** *** Killing a node *)
Lemma kill_inv G done x (s : Store) id g n :
  tree_inv G done x s → G !! id = Some g → nodes_of s !! id = Some n → completed G done (store_cut s) g →
  ∃ s', kill id s = Some s' ∧ tree_inv G done x s' ∧ evolves G G s s' ∧ stays_ready x x s s' ∧
    nodes_of s' = <[id := set_dead n]> (nodes_of s) ∧ store_rng s' = store_rng s ∧
    potential G s' ≤ potential G s ∧ (node_dead n = false → g.2 ≠ None → potential G s' < potential G s).
Proof.
  intros Hinv Hg Hn Hc. unfold kill, update_node, get_node. rewrite Hn. cbn [mbind option_bind].
  set (s' := with_nodes _ s). exists s'. split; [done|].
  destruct (update_ok G done x x s id g n (set_dead n) Hinv Hg Hn) as (Hinv' & He & Hs & _); [by constructor|by left|by intros|done| |].
  { intros _ [K1 K2 K3 K4 K5 K6 K7 K8 K9 K10 K11]. by constructor. }
  pose proof (update_potential G s id g n (set_dead n) Hg Hn) as Hp. unfold node_work at 2 in Hp. cbn [node_dead set_dead] in Hp.
  split_and!; try done.
  - fold s' in Hp. lia.
  - intros Hd Hsp. fold s' in Hp. unfold node_work in Hp. rewrite Hd in Hp. destruct g.2; [lia|done].
Qed.

(** The cut only kills nodes without implementations below the cut. *)
Lemma cut_completed G done x (s : Store) id g n :
  tree_inv G done x s → G !! id = Some g → nodes_of s !! id = Some n →
  (∀ b, node_bound n = Some b → ¬ (b < store_cut s)%f64) → completed G done (store_cut s) g.
Proof.
  intros Hinv Hg Hn Hb sp acts l Hsp Hr. exfalso. pose proof (inv_nodes _ _ _ _ Hinv id g n Hg Hn) as Hok.
  apply (Hb (space_bound sp)); [|by eapply reach_bound]. by rewrite (ok_bound _ _ _ _ _ _ _ Hok), Hsp.
Qed.

Lemma live_spec G done x (s : Store) id g n :
  tree_inv G done x s → G !! id = Some g → nodes_of s !! id = Some n → is_live n = true →
  node_dead n = false ∧ ∃ sp, g.2 = Some sp ∧ node_bound n = Some (space_bound sp).
Proof.
  intros Hinv Hg Hn Hl. pose proof (inv_nodes _ _ _ _ Hinv id g n Hg Hn) as Hok. unfold is_live in Hl.
  apply andb_true_iff in Hl as [Hb Hd]. split; [by apply negb_true_iff|].
  apply bool_decide_eq_true in Hb as [b Hb]. pose proof (ok_bound _ _ _ _ _ _ _ Hok) as E'. rewrite Hb in E'.
  destruct g.2 as [sp|]; [|done]. exists sp. split; [done|]. rewrite Hb. exact E'.
Qed.

Lemma cut_node_inv G done x (s : Store) id g n :
  tree_inv G done x s → G !! id = Some g → nodes_of s !! id = Some n →
  ∃ b s', cut_node (store_cut s) id s = Some (b, s') ∧ tree_inv G done x s' ∧ evolves G G s s' ∧ stays_ready x x s s' ∧
    potential G s' ≤ potential G s ∧ store_rng s' = store_rng s ∧
    (if b : bool then ∃ n', nodes_of s' !! id = Some n' ∧ node_dead n' = true
     else s' = s ∧ is_live n = true ∧ ∃ sp, g.2 = Some sp ∧ (space_bound sp < store_cut s)%f64) ∧
    (∀ j m, j ≠ id → nodes_of s !! j = Some m → nodes_of s' !! j = Some m).
Proof.
  intros Hinv Hg Hn. unfold cut_node, get_node. rewrite Hn. cbn [mbind option_bind].
  destruct (is_live n) eqn:El; cycle 1.
  { exists true, s. split; [done|]. split; [done|]. split; [apply evolves_refl|]. split; [intros j m m'; congruence|].
    split; [done|]. split; [done|]. split; [|done]. exists n. split; [done|]. unfold is_live in El.
    pose proof (inv_nodes _ _ _ _ Hinv id g n Hg Hn) as Hok. destruct (node_dead n) eqn:Ed; [done|].
    rewrite andb_true_r in El. apply bool_decide_eq_false in El. pose proof (ok_bound _ _ _ _ _ _ _ Hok) as E'.
    pose proof (ok_dead _ _ _ _ _ _ _ Hok) as Hd. destruct g.2; [|by rewrite Hd in Ed]. rewrite E' in El. by destruct El; eexists. }
  destruct (live_spec G done x s id g n Hinv Hg Hn El) as (Hd & sp & Hsp & Hb). rewrite Hb. cbn [mbind option_bind].
  destruct (SFltb (space_bound sp) (store_cut s)) eqn:Elt.
  { exists false, s. split; [done|]. split; [done|]. split; [apply evolves_refl|]. split; [intros j m m'; congruence|].
    split; [done|]. split; [done|]. split; [|done]. split; [done|]. split; [done|]. by exists sp. }
  destruct (kill_inv G done x s id g n Hinv Hg Hn) as (s' & -> & Hinv' & He & Hs & Hnodes & Hrng & Hp & _).
  { eapply cut_completed; [done|done|done|]. intros b Hb'. rewrite Hb in Hb'. injection Hb' as <-. by rewrite Elt. }
  cbn [mbind option_bind]. exists true, s'. split_and!; try done.
  - exists (set_dead n). split; [|done]. rewrite Hnodes. apply list_lookup_insert_eq. by eapply lookup_lt_Some.
  - intros j m Hne Hj. rewrite Hnodes. by rewrite list_lookup_insert_ne.
Qed.
End invariant.

(** * Listing and making children *)

Section children.
Context {Space Act : Type} `{SearchSpaceOps Space Act} {R E : Type} (edge_default : E).
Context (config : BanditConfig) (height : Space → nat) (root : Space).
Notation Action := (ActionEx Act).
Notation Store := (@MctsStore Space Act R E).
Notation Node := (@Node Space Act E).
Notation Edge := (@Edge Act E).
Notation list_actions := (list_actions config).
Notation Ghost := (@Ghost Space Act).
Context (Hnarrow : actions_narrow config height) (Hfit : actions_fit config).
Notation tree_inv := (@tree_inv Space Act _ R E config root).
Notation node_ok := (@node_ok Space Act _ R E config root).
Notation potential := (@potential Space Act _ R E config height).
Notation completed := (@completed Space Act _ config).
Notation live_child := (@live_child Space Act _ R E edge_default config).
Notation live_children := (@live_children Space Act _ R E edge_default config).
Notation live_children_from := (@live_children_from Space Act _ R E edge_default config).
Notation tree_node := (@tree_node Space Act _ R E edge_default config).

(** Nodes that the cut spares stay as they are, but for their edges. *)
Definition keeps (s s' : Store) : Prop :=
  ∀ j m b, nodes_of s !! j = Some m → node_dead m = false → node_bound m = Some b → (b < store_cut s)%f64 →
    ∃ m', nodes_of s' !! j = Some m' ∧ node_dead m' = false ∧ node_expanded m' = node_expanded m ∧
      (is_Some (node_candidate m) → is_Some (node_candidate m')).

Lemma keeps_refl s : keeps s s.
Proof. intros j m b Hm Hd Hb Hlt. by exists m. Qed.

Lemma keeps_trans G G' s1 s2 s3 : evolves G G' s1 s2 → keeps s1 s2 → keeps s2 s3 → keeps s1 s3.
Proof.
  intros He H1 H2 j m b Hm Hd Hb Hlt. destruct (H1 j m b Hm Hd Hb Hlt) as (m1 & Hm1 & Hd1 & He1 & Hc1).
  destruct (ev_nodes _ _ _ _ He j m Hm) as (m1' & Hm1' & Hev). rewrite Hm1 in Hm1'. injection Hm1' as <-.
  destruct (H2 j m1 b Hm1 Hd1) as (m2 & Hm2 & Hd2 & He2 & Hc2).
  - by rewrite (ev_bound _ _ Hev).
  - by rewrite (ev_cut _ _ _ _ He).
  - exists m2. split; [done|]. split; [congruence|]. split; [congruence|]. auto.
Qed.

Lemma cut_node_keeps G done x (s s' : Store) id g n b :
  tree_inv G done x s → G !! id = Some g → nodes_of s !! id = Some n →
  cut_node (store_cut s) id s = Some (b, s') → keeps s s'.
Proof.
  intros Hinv Hg Hn E1 j m c Hm Hd Hb Hlt.
  destruct (cut_node_inv config height root G done x s id g n Hinv Hg Hn) as (b' & s1 & E2 & _ & _ & _ & _ & _ & Hcase & Hother).
  rewrite E1 in E2. injection E2 as <- <-. destruct (decide (j = id)) as [->|Hne]; [|exists m; split; [by apply Hother|done]].
  rewrite Hn in Hm. injection Hm as <-. unfold cut_node, get_node in E1. rewrite Hn in E1. cbn [mbind option_bind] in E1.
  unfold is_live in E1. rewrite Hd, Hb in E1. cbn in E1. rewrite Hlt in E1. injection E1 as <- <-. by exists n.
Qed.

(** ** Edges *)
Lemma update_edge_spec id pos f (s : Store) n e :
  nodes_of s !! id = Some n → node_children n !! pos = Some e →
  update_edge id pos f s = Some (with_nodes (<[id := set_children (<[pos := f e]> (node_children n)) n]> (nodes_of s)) s).
Proof. intros Hn He. unfold update_edge, get_node. rewrite Hn. cbn. rewrite He. cbn. unfold update_node, get_node. by rewrite Hn. Qed.

Lemma insert_evolves (l : list Edge) pos e e' : l !! pos = Some e → edge_evolves e e' → Forall2 edge_evolves l (<[pos := e']> l).
Proof.
  intros He Hev. apply Forall2_same_length_lookup_2; [by rewrite length_insert|].
  intros i a b Ha Hb. destruct (decide (i = pos)) as [->|Hne].
  - rewrite list_lookup_insert_eq in Hb by (by eapply lookup_lt_Some). by simplify_eq.
  - rewrite list_lookup_insert_ne in Hb by done. simplify_eq. reflexivity.
Qed.

Lemma insert_actions (l : list Edge) pos e e' :
  l !! pos = Some e → edge_action e' = edge_action e → edge_action <$> <[pos := e']> l = edge_action <$> l.
Proof.
  intros He Ha. rewrite list_fmap_insert, Ha. apply list_insert_id. by rewrite list_lookup_fmap, He.
Qed.

(** Changing an edge: its node, when it had none, or its data. *)
Lemma edge_inv G done x (s : Store) id g n pos e e' :
  tree_inv G done x s → G !! id = Some g → nodes_of s !! id = Some n → node_children n !! pos = Some e →
  edge_evolves e e' →
  (∀ child, edge_node e' = Some child → edge_node e = Some child ∨
    ∃ n' gc, nodes_of s !! child = Some n' ∧ G !! child = Some gc ∧ node_parent n' = Some (id, Z.of_nat pos) ∧ node_expanded n = false) →
  let n' := set_children (<[pos := e']> (node_children n)) n in
  let s' := with_nodes (<[id := n']> (nodes_of s)) s in
  tree_inv G done x s' ∧ evolves G G s s' ∧ stays_ready x x s s' ∧ keeps s s' ∧
  potential G s' + node_work config height g n = potential G s + node_work config height g n'.
Proof.
  intros Hinv Hg Hn He Hev Hnode n' s'.
  assert (node_evolves n n') as Hevn by (constructor; try done; by eapply insert_evolves).
  assert (∀ p a, <[pos := e']> (node_children n) !! p = Some a → p = pos ∧ a = e' ∨ p ≠ pos ∧ node_children n !! p = Some a) as Hlook.
  { intros p a Hp. destruct (decide (p = pos)) as [->|Hne].
    - left. rewrite list_lookup_insert_eq in Hp by (by eapply lookup_lt_Some). by injection Hp as <-.
    - right. by rewrite list_lookup_insert_ne in Hp. }
  destruct (update_ok config root G done x x s id g n n' Hinv Hg Hn Hevn) as (Hinv' & Hevs & Hst & Hid); [done|done|done| |].
  { intros Hevs [K1 K2 K3 K4 K5 K6 K7 K8 K9 K10 K11]. constructor; try done.
    - cbn. by rewrite (insert_actions _ pos e) by (done || apply Hev).
    - intros p a [[-> ->]|[_ Hp]]%Hlook; [|by apply K4]. rewrite (ev_index _ _ Hev). by apply K4.
    - intros p a child [[-> ->]|[_ Hp]]%Hlook Hc; [|by eapply K7].
      destruct (Hnode child Hc) as [Hold|(m & gc & Hm & Hgc & Hpar & _)]; [by eapply K7|].
      destruct (ev_nodes _ _ _ _ Hevs child m Hm) as (m' & Hm' & Hevm). exists m'. split; [done|]. by rewrite (ev_parent _ _ Hevm).
    - intros Hexp. pose proof (K9 Hexp) as Hall. rewrite Forall_lookup in Hall. apply Forall_lookup. intros p a [[-> ->]|[_ Hp]]%Hlook; [|by eapply Hall].
      destruct (Hall pos e He) as (child & m & gm & Hc & Hr). exists child, m, gm. split; [|done]. by apply Hev.
    - intros Hexp Himp Hx. apply K10; [done| |done]. unfold is_implementation in *. cbn [node_bound node_children set_children n'] in Himp.
      apply andb_true_iff in Himp as [Hb Hnil]. apply bool_decide_eq_true in Hnil.
      assert (length (<[pos := e']> (node_children n)) = 0) as Hlen by (by rewrite Hnil). rewrite length_insert in Hlen.
      apply nil_length_inv in Hlen. rewrite Hlen in He. done. }
  split; [exact Hinv'|]. split; [done|]. split; [done|]. split.
  - intros j m b Hm Hd Hb Hlt. destruct (decide (j = id)) as [->|Hne]; [exists n'; by simplify_eq|].
    exists m. split; [|done]. cbn. by rewrite list_lookup_insert_ne.
  - by apply update_potential.
Qed.

(** ** New nodes *)
Lemma tree_node_inv G done x (s : Store) id path sp n pos e :
  tree_inv G done x s → G !! id = Some (path, Some sp) → nodes_of s !! id = Some n → node_children n !! pos = Some e →
  let child := apply_action sp (edge_action e) in
  let G' := G ++ [(path ++ [edge_action e], child)] in
  ∃ s' n', tree_node (Some (id, edge_index e)) child s = Some (length (nodes_of s), s') ∧
    tree_inv G' done x s' ∧ evolves G G' s s' ∧ nodes_of s' = nodes_of s ++ [n'] ∧
    node_parent n' = Some (id, Z.of_nat pos) ∧ node_dead n' = bool_decide (child = None) ∧ node_candidate n' = None ∧
    store_rng s' = store_rng s ∧ potential G' s' ≤ potential G s + action_weight config height sp (edge_action e).
Proof.
  intros Hinv Hg Hn He child G'. pose proof (inv_nodes _ _ _ _ _ _ Hinv id _ n Hg Hn) as Hok.
  unfold Mcts.tree_node, get_node. rewrite (bool_decide_true (is_Some (Some (id, edge_index e)))) by (by eexists).
  unfold rassert. cbn [orb mbind option_bind]. rewrite Hn. cbn [mbind option_bind].
  eexists _, _. split; [done|]. set (n' := mkNode _ _ _ _ _ _ _). set (s' := with_nodes _ s).
  assert (evolves G G' s s') as Hev.
  { constructor; try done; [by exists [(path ++ [edge_action e], child)]|]. intros j m Hj. exists m. split; [|reflexivity].
    cbn. by apply lookup_app_l_Some. }
  assert (stays_ready x x s s') as Hst.
  { intros j m m' Hm Hm'. cbn in Hm'. rewrite (lookup_app_l_Some _ _ _ _ Hm) in Hm'. by injection Hm' as <-. }
  pose proof (inv_length _ _ _ _ _ _ Hinv) as Hlen.
  assert (node_ok G' done x s' (length (nodes_of s)) (path ++ [edge_action e], child) n') as Hok'.
  { constructor; cbn [fst snd node_bound node_dead node_children node_depth node_parent node_candidate node_expanded n']; try done.
    - intros ->. done.
    - destruct child as [sc|]; [|done]. rewrite fmap_imap. apply list_eq. intros i. rewrite list_lookup_imap.
      destruct (list_actions sc !! i) as [a|]; done.
    - intros p a. destruct child as [sc|]; [|done]. rewrite list_lookup_imap. destruct (list_actions sc !! p) as [act|] eqn:Ep; [|done].
      cbn. intros [= <-]. cbn. unfold wrap. apply Z.mod_small. apply lookup_lt_Some in Ep. pose proof (Hfit sc). lia.
    - rewrite length_app. cbn. rewrite (ok_depth _ _ _ _ _ _ _ _ _ Hok). done.
    - split; [by eapply lookup_lt_Some|]. exists path, sp, pos, (edge_action e).
      split; [by apply lookup_app_l_Some|]. split; [by apply (ok_index _ _ _ _ _ _ _ _ _ Hok)|]. split; [|done].
      pose proof (ok_children _ _ _ _ _ _ _ _ _ Hok) as Hch. cbn in Hch. rewrite <-Hch, list_lookup_fmap, He. done.
    - intros p a c. destruct child as [sc|]; [|done]. rewrite list_lookup_imap. destruct (list_actions sc !! p); [|done].
      cbn. intros [= <-]. done.
    - intros Hd. rewrite bool_decide_eq_true in Hd. intros spc acts l Hspc. cbn in Hspc. rewrite Hspc in Hd. done. }
  split; [|split; [done|]].
  - constructor.
    + unfold G'. cbn [nodes_of s' with_nodes]. rewrite !length_app. cbn [length]. lia.
    + intros j gj m Hgj Hm. cbn in Hm. apply lookup_app_Some in Hm as [Hm|[Hge Hm]].
      * destruct (ghost_node config root G done x s j m Hinv Hm) as (gj' & Hgj'). unfold G' in Hgj.
        rewrite (lookup_app_l_Some _ _ _ _ Hgj') in Hgj. injection Hgj as <-.
        eapply node_ok_mono; [exact Hev|exact Hst|done|done|]. by eapply (inv_nodes _ _ _ _ _ _ Hinv).
      * apply list_lookup_singleton_Some in Hm as [Hj <-]. assert (j = length (nodes_of s)) as -> by lia.
        assert (G' !! length (nodes_of s) = Some (path ++ [edge_action e], child)) as Hnew by (by apply list_lookup_middle).
        assert (Some gj = Some (path ++ [edge_action e], child)) as [= ->] by exact (eq_trans (eq_sym Hgj) Hnew). exact Hok'.
    + destruct (inv_root _ _ _ _ _ _ Hinv) as (r & Hr & Hgr & Hcase). exists r. split; [cbn; by apply lookup_app_l_Some|].
      split; [by apply lookup_app_l_Some|done].
  - cbn [nodes_of store_rng s' with_nodes]. split; [done|]. cbn [node_parent n']. split; [f_equal; f_equal; by apply (ok_index _ _ _ _ _ _ _ _ _ Hok)|].
    split; [cbn; by destruct child|]. split; [done|]. split; [done|].
    unfold MctsInvariant.potential. unfold G'. cbn [nodes_of s' with_nodes]. rewrite work_of_snoc by done.
    apply Nat.add_le_mono_l. unfold node_work, action_weight. fold child. cbn [node_dead n' snd node_children].
    destruct child as [sc|]; [|by cbn; lia]. rewrite bool_decide_false by done. rewrite weight_unfold by done.
    apply le_n_S. by rewrite (sum_imap _ (action_weight config height sc)).
Qed.

(** ** The live children *)

(** What is known of an edge once it has been looked at: its node is dead, or it is
    listed, live and below the cut. *)
Definition child_seen (G : Ghost) (s : Store) (id pos : nat) (listed : list (nat * nat * option Space)) : Prop :=
  ∃ n e child, nodes_of s !! id = Some n ∧ node_children n !! pos = Some e ∧ edge_node e = Some child ∧
    ((∃ m, nodes_of s !! child = Some m ∧ node_dead m = true) ∨ ∃ made, (pos, child, made) ∈ listed).

(** What is known of a child that is listed. *)
Definition child_listed (G : Ghost) (s : Store) (id : nat) (x : nat * nat * option Space) : Prop :=
  ∃ n e m g sp, nodes_of s !! id = Some n ∧ node_children n !! x.1.1 = Some e ∧ edge_node e = Some x.1.2 ∧
    nodes_of s !! x.1.2 = Some m ∧ G !! x.1.2 = Some (g, Some sp) ∧ node_dead m = false ∧ (space_bound sp < store_cut s)%f64 ∧
    (x.2 = None ∨ x.2 = Some sp).

Lemma child_listed_evolves G G' s s' id x :
  evolves G G' s s' → keeps s s' → (∀ j m g, nodes_of s !! j = Some m → G !! j = Some g → node_bound m = space_bound <$> g.2) →
  child_listed G s id x → child_listed G' s' id x.
Proof.
  intros Hev Hk Hb (n & e & m & g & sp & Hn & He & Hc & Hm & Hg & Hd & Hlt & Hx).
  destruct (ev_nodes _ _ _ _ Hev id n Hn) as (n' & Hn' & Hevn).
  destruct (Forall2_lookup_l _ _ _ _ _ (ev_children _ _ Hevn) He) as (e' & He' & Heve).
  destruct (Hk x.1.2 m (space_bound sp) Hm Hd) as (m' & Hm' & Hd' & _); [by rewrite (Hb _ _ _ Hm Hg)|done|].
  exists n', e', m', g, sp. split_and!; try done.
  - by apply (ev_node _ _ Heve).
  - by eapply evolves_ghost.
  - by rewrite (ev_cut _ _ _ _ Hev).
Qed.

Lemma child_seen_evolves G G' s s' id pos l l' :
  evolves G G' s s' → l ⊆ l' → child_seen G s id pos l → child_seen G' s' id pos l'.
Proof.
  intros Hev Hl (n & e & child & Hn & He & Hc & Hcase).
  destruct (ev_nodes _ _ _ _ Hev id n Hn) as (n' & Hn' & Hevn).
  destruct (Forall2_lookup_l _ _ _ _ _ (ev_children _ _ Hevn) He) as (e' & He' & Heve).
  exists n', e', child. split; [done|]. split; [done|]. split; [by apply (ev_node _ _ Heve)|].
  destruct Hcase as [(m & Hm & Hd)|[made Hmade]]; [left|right; exists made; by apply Hl].
  destruct (ev_nodes _ _ _ _ Hev child m Hm) as (m' & Hm' & Hevm). exists m'. split; [done|]. by apply (ev_dead _ _ Hevm).
Qed.

(** The node whose children are listed: live and below the cut. *)
Definition at_node (G : Ghost) (s : Store) (id : nat) (path : list Action) (sp : Space) : Prop :=
  ∃ n, nodes_of s !! id = Some n ∧ G !! id = Some (path, Some sp) ∧ node_dead n = false ∧ (space_bound sp < store_cut s)%f64.

Lemma bounds_of G done x (s : Store) :
  tree_inv G done x s → ∀ j m g, nodes_of s !! j = Some m → G !! j = Some g → node_bound m = space_bound <$> g.2.
Proof. intros Hinv j m g Hm Hg. by apply (ok_bound _ _ _ _ _ _ _ _ _ (inv_nodes _ _ _ _ _ _ Hinv j g m Hg Hm)). Qed.

Lemma at_node_keeps G G' done x s s' id path sp :
  tree_inv G done x s → evolves G G' s s' → keeps s s' → at_node G s id path sp → at_node G' s' id path sp.
Proof.
  intros Hinv Hev Hk (n & Hn & Hg & Hd & Hlt). destruct (Hk id n (space_bound sp) Hn Hd) as (n' & Hn' & Hd' & _).
  - by rewrite (bounds_of _ _ _ _ Hinv _ _ _ Hn Hg).
  - done.
  - exists n'. split; [done|]. split; [by eapply evolves_ghost|]. split; [done|]. by rewrite (ev_cut _ _ _ _ Hev).
Qed.

(** The effect of listing: the store is well formed, the potential did not grow. *)
Record step_ok (G G' : Ghost) (done : list nat) (x : option nat) (s s' : Store) : Prop := {
  so_inv : tree_inv G' done x s';
  so_evolves : evolves G G' s s';
  so_keeps : keeps s s';
  so_potential : potential G' s' ≤ potential G s
}.

Lemma step_ok_refl G done x s : tree_inv G done x s → step_ok G G done x s s.
Proof. intros Hinv. constructor; [done|apply evolves_refl|apply keeps_refl|done]. Qed.

Lemma step_ok_trans G1 G2 G3 done x s1 s2 s3 :
  step_ok G1 G2 done x s1 s2 → step_ok G2 G3 done x s2 s3 → step_ok G1 G3 done x s1 s3.
Proof.
  intros [I1 E1 K1 P1] [I2 E2 K2 P2]. constructor; [done|by eapply evolves_trans|by eapply keeps_trans|lia].
Qed.

Lemma live_child_ok G done x (s : Store) c path sp n e candidate pos :
  tree_inv G done x s → cursor_cut c = store_cut s → at_node G s (cursor_node c) path sp →
  nodes_of s !! cursor_node c = Some n → node_children n !! pos = Some e →
  candidate = Some sp ∧ node_expanded n = false ∨ is_Some (edge_node e) →
  ∃ r s' G', live_child c candidate pos s = Some (r, s') ∧ step_ok G G' done x s s' ∧
    child_seen G' s' (cursor_node c) pos (option_list r) ∧ (∀ y, r = Some y → child_listed G' s' (cursor_node c) y).
Proof.
  intros Hinv Hcut Hat Hn He Hcand. unfold Mcts.live_child, get_node. rewrite Hn. cbn [mbind option_bind]. rewrite He. cbn [mbind option_bind].
  destruct Hat as (n1 & Hn1 & Hg & Hdead & Hlt). rewrite Hn in Hn1. injection Hn1 as <-.
  pose proof (inv_nodes _ _ _ _ _ _ Hinv _ _ _ Hg Hn) as Hok.
  destruct (edge_node e) as [child|] eqn:Ee.
  - destruct (ok_edge _ _ _ _ _ _ _ _ _ Hok pos e child He Ee) as (m & Hm & Hpar).
    destruct (ghost_node config root G done x s child m Hinv Hm) as (gm & Hgm). rewrite Hcut.
    destruct (cut_node_inv config height root G done x s child gm m Hinv Hgm Hm) as (b & s' & Ec & Hinv' & Hev & Hst & Hp & _ & Hcase & _).
    rewrite Ec. cbn [mbind option_bind]. pose proof (cut_node_keeps G done x s s' child gm m b Hinv Hgm Hm Ec) as Hk.
    exists (if b then None else Some (pos, child, None)), s', G. split; [done|]. split; [by constructor|].
    destruct (ev_nodes _ _ _ _ Hev _ n Hn) as (n' & Hn' & Hevn).
    destruct (Forall2_lookup_l _ _ _ _ _ (ev_children _ _ Hevn) He) as (e' & He' & Heve).
    pose proof (ev_node _ _ Heve child Ee) as Hec. split.
    + exists n', e', child. split; [done|]. split; [done|]. split; [done|]. destruct b; [by left|]. right. exists None. by left.
    + intros y. destruct b; [done|]. intros [= <-]. destruct Hcase as (-> & Hl & spc & Hspc & Hltc).
      destruct (live_spec config root G done x s child gm m Hinv Hgm Hm Hl) as (Hdm & _). destruct gm as [pc oc]. cbn in Hspc. subst oc.
      exists n', e', m, pc, spc. cbn. rewrite Hn in Hn'. injection Hn' as <-. rewrite He in He'. injection He' as <-. split_and!; try done. by left.
  - destruct Hcand as [[-> Hexp]|[? [=]]]. cbn [mbind option_bind].
    destruct (tree_node_inv G done x s (cursor_node c) path sp n pos e Hinv Hg Hn He) as (s1 & n1 & Et & Hinv1 & Hev1 & Hnodes1 & Hpar1 & Hd1 & Hc1 & _ & Hp1).
    rewrite Et. cbn [mbind option_bind]. set (child := apply_action sp (edge_action e)) in *. set (id := length (nodes_of s)) in *.
    set (G1 := G ++ [(path ++ [edge_action e], child)]) in *.
    assert (nodes_of s1 !! id = Some n1) as Hid1 by (rewrite Hnodes1; by apply list_lookup_middle).
    assert (G1 !! id = Some (path ++ [edge_action e], child)) as Hgid1.
    { apply list_lookup_middle. symmetry. apply (inv_length _ _ _ _ _ _ Hinv). }
    assert (id ≠ cursor_node c) as Hne by (apply lookup_lt_Some in Hn; unfold id; lia).
    assert (nodes_of s1 !! cursor_node c = Some n) as Hn1 by (rewrite Hnodes1; by apply lookup_app_l_Some).
    assert (keeps s s1) as Hk1.
    { intros j m b Hm Hd Hb Hltm. exists m. split; [|done]. rewrite Hnodes1. by apply lookup_app_l_Some. }
    rewrite Hid1. cbn [mbind option_bind].
    assert (∃ s2, match child with
                  | Some _ => Some s1
                  | None => let! _ := rassert (negb (is_live n1)) in kill id s1
                  end = Some s2 ∧ tree_inv G1 done x s2 ∧ evolves G1 G1 s1 s2 ∧ keeps s1 s2 ∧ potential G1 s2 ≤ potential G1 s1 ∧
        nodes_of s2 !! cursor_node c = Some n ∧ (∃ n2, nodes_of s2 !! id = Some n2 ∧ node_parent n2 = node_parent n1 ∧ node_dead n2 = node_dead n1))
      as (s2 & -> & Hinv2 & Hev2 & Hk2 & Hp2 & Hn2 & n2 & Hid2 & Hpar2 & Hd2).
    { destruct child as [sc|] eqn:Ech.
      - exists s1. split; [done|]. split; [done|]. split; [apply evolves_refl|]. split; [apply keeps_refl|]. split; [done|]. split; [done|]. by exists n1.
      - assert (is_live n1 = false) as -> by (unfold is_live; rewrite Hd1; apply andb_false_r).
        cbn [negb rassert mbind option_bind].
        destruct (kill_inv config height root G1 done x s1 id _ n1 Hinv1 Hgid1 Hid1) as (s2 & -> & Hinv2 & Hev2 & _ & Hnodes2 & _ & Hp2 & _).
        { intros spc acts l Hspc. done. }
        exists s2. split; [done|]. split; [done|]. split; [done|]. split.
        { intros j m b Hm Hd Hb Hltm. exists m. split; [|done]. rewrite Hnodes2. rewrite list_lookup_insert_ne; [done|]. intros ->.
          rewrite Hid1 in Hm. injection Hm as <-. rewrite Hd1 in Hd. done. }
        split; [done|]. split; [by rewrite Hnodes2, list_lookup_insert_ne|].
        exists (set_dead n1). rewrite Hnodes2, list_lookup_insert_eq by (by eapply lookup_lt_Some). rewrite Hd1. by split_and!. }
    cbn [mbind option_bind]. rewrite Hcut. assert (store_cut s2 = store_cut s) as Hcut2.
    { by rewrite (ev_cut _ _ _ _ Hev2), (ev_cut _ _ _ _ Hev1). }
    rewrite <-Hcut2. destruct (cut_node_inv config height root G1 done x s2 id _ n2 Hinv2 Hgid1 Hid2)
      as (b & s3 & Ec & Hinv3 & Hev3 & _ & Hp3 & _ & Hcase & Hother).
    rewrite Ec. cbn [mbind option_bind]. pose proof (cut_node_keeps G1 done x s2 s3 id _ n2 b Hinv2 Hgid1 Hid2 Ec) as Hk3.
    assert (nodes_of s3 !! cursor_node c = Some n) as Hn3 by (by apply Hother).
    rewrite (update_edge_spec _ _ _ s3 n e Hn3 He). cbn [mbind option_bind].
    assert (G1 !! cursor_node c = Some (path, Some sp)) as Hg1 by (by apply lookup_app_l_Some).
    destruct (ev_nodes _ _ _ _ Hev3 id n2 Hid2) as (n3 & Hid3 & Hevn3).
    destruct (edge_inv G1 done x s3 (cursor_node c) _ n pos e (set_edge_node (Some id) e) Hinv3 Hg1 Hn3 He)
      as (Hinv4 & Hev4 & _ & Hk4 & Hp4).
    { constructor; try done. by rewrite Ee. }
    { intros ch [= <-]. right. exists n3, (path ++ [edge_action e], child). split; [done|]. split; [done|]. split; [|done].
      by rewrite (ev_parent _ _ Hevn3), Hpar2. }
    set (s4 := with_nodes _ s3) in *.
    assert (evolves G G1 s s4) as Hev.
    { eapply evolves_trans; [exact Hev1|]. eapply evolves_trans; [exact Hev2|]. by eapply evolves_trans. }
    assert (keeps s s4) as Hk.
    { eapply keeps_trans; [exact Hev1|exact Hk1|]. eapply keeps_trans; [exact Hev2|exact Hk2|]. by eapply keeps_trans. }
    assert (potential G1 s4 ≤ potential G s) as Hp.
    { unfold node_work in Hp4. rewrite Hdead in Hp4. cbn [node_dead set_children node_children snd] in Hp4. rewrite Hdead in Hp4.
      pose proof (sum_list_with_insert (edge_work config height sp) (node_children n) pos e (set_edge_node (Some id) e) He) as Hs.
      assert (edge_work config height sp e = action_weight config height sp (edge_action e)) as He1 by (unfold edge_work; by rewrite Ee).
      assert (edge_work config height sp (set_edge_node (Some id) e) = 0) as He2 by done.
      fold s4 in Hp4. lia. }
    assert (nodes_of s4 !! cursor_node c = Some (set_children (<[pos:=set_edge_node (Some id) e]> (node_children n)) n)) as Hn4.
    { cbn. apply list_lookup_insert_eq. by eapply lookup_lt_Some. }
    assert (<[pos:=set_edge_node (Some id) e]> (node_children n) !! pos = Some (set_edge_node (Some id) e)) as He4.
    { apply list_lookup_insert_eq. by eapply lookup_lt_Some. }
    assert (nodes_of s4 !! id = Some n3) as Hid4 by (cbn; by rewrite list_lookup_insert_ne).
    destruct b.
    + exists None, s4, G1. split; [done|]. split; [by constructor|]. split; [|done].
      eexists _, _, id. split; [exact Hn4|]. split; [exact He4|]. split; [done|]. left. destruct Hcase as (n3' & Hn3' & Hdd).
      exists n3. split; [done|]. by simplify_eq.
    + destruct Hcase as (-> & Hl & spc & Hspc & Hltc). cbn [snd] in Hspc. rewrite Hspc, bool_decide_true by (by eexists). cbn [rassert mbind option_bind].
      eexists _, s4, G1. split; [done|]. split; [by constructor|]. split.
      * eexists _, _, id. split; [exact Hn4|]. split; [exact He4|]. split; [done|]. right. exists (Some spc). by left.
      * intros y [= <-]. destruct (live_spec config root G1 done x s2 id _ n2 Hinv2 Hgid1 Hid2 Hl) as (Hdd & _).
        rewrite Hid2 in Hid3. injection Hid3 as <-. eexists _, _, n2, _, spc. cbn [fst snd].
        split; [exact Hn4|]. split; [exact He4|]. split; [done|]. split; [exact Hid4|]. split; [rewrite <-Hspc; exact Hgid1|]. split_and!; try done. by right.
Qed.

(** The ghost of a child is determined by its edge. *)
Lemma child_ghost G done x (s : Store) id path sp n pos e child :
  tree_inv G done x s → G !! id = Some (path, Some sp) → nodes_of s !! id = Some n → node_children n !! pos = Some e →
  edge_node e = Some child →
  edge_index e = Z.of_nat pos ∧ list_actions sp !! pos = Some (edge_action e) ∧
  G !! child = Some (path ++ [edge_action e], apply_action sp (edge_action e)).
Proof.
  intros Hinv Hg Hn He Hc. pose proof (inv_nodes _ _ _ _ _ _ Hinv id _ n Hg Hn) as Hok.
  split; [by apply (ok_index _ _ _ _ _ _ _ _ _ Hok)|].
  assert (list_actions sp !! pos = Some (edge_action e)) as Ha.
  { pose proof (ok_children _ _ _ _ _ _ _ _ _ Hok) as Hch. cbn in Hch. rewrite <-Hch, list_lookup_fmap, He. done. }
  split; [done|]. destruct (ok_edge _ _ _ _ _ _ _ _ _ Hok pos e child He Hc) as (m & Hm & Hpar).
  destruct (ghost_node config root G done x s child m Hinv Hm) as (gm & Hgm).
  pose proof (ok_parent _ _ _ _ _ _ _ _ _ (inv_nodes _ _ _ _ _ _ Hinv child gm m Hgm Hm)) as Hp. rewrite Hpar in Hp.
  destruct Hp as (_ & path' & sp' & pos' & a & Hg' & Hpos & Ha' & ->).
  assert (Some (path', Some sp') = Some (path, Some sp)) as [= -> ->] by exact (eq_trans (eq_sym Hg') Hg).
  assert (pos' = pos) as -> by lia. rewrite Ha in Ha'. injection Ha' as <-. exact Hgm.
Qed.

(** All the positions are looked at. *)
Lemma live_children_from_ok G done x (s : Store) c path sp candidate positions :
  tree_inv G done x s → cursor_cut c = store_cut s → at_node G s (cursor_node c) path sp →
  (candidate = Some sp ∨ ∃ n, nodes_of s !! cursor_node c = Some n ∧ node_expanded n = true) →
  (∀ pos, pos ∈ positions → pos < length (list_actions sp)) →
  ∃ l s' G', live_children_from c candidate positions s = Some (l, s') ∧ step_ok G G' done x s s' ∧
    (∀ pos, pos ∈ positions → child_seen G' s' (cursor_node c) pos l) ∧ (∀ y, y ∈ l → child_listed G' s' (cursor_node c) y).
Proof.
  revert s G. induction positions as [|pos positions IH]; intros s G Hinv Hcut Hat Hcand Hpos.
  { exists [], s, G. split; [done|]. split; [by apply step_ok_refl|]. by split; intros y Hy%elem_of_nil. }
  pose proof Hat as (n & Hn & Hg & _). pose proof (inv_nodes _ _ _ _ _ _ Hinv _ _ n Hg Hn) as Hok.
  assert (is_Some (node_children n !! pos)) as [e He].
  { apply lookup_lt_is_Some_2. pose proof (ok_children _ _ _ _ _ _ _ _ _ Hok) as Hch. cbn in Hch.
    rewrite <-(length_fmap edge_action), Hch. apply Hpos. by left. }
  destruct (live_child_ok G done x s c path sp n e candidate pos Hinv Hcut Hat Hn He) as (r & s1 & G1 & E1 & St1 & Seen1 & List1).
  { destruct (node_expanded n) eqn:Ex.
    - right. pose proof (ok_expanded _ _ _ _ _ _ _ _ _ Hok Ex) as Hall. rewrite Forall_lookup in Hall.
      destruct (Hall pos e He) as (ch & ? & ? & -> & _). by eexists.
    - left. split; [|done]. destruct Hcand as [?|(n' & Hn' & Hex)]; [done|]. rewrite Hn in Hn'. injection Hn' as <-. by rewrite Ex in Hex. }
  cbn [Mcts.live_children_from]. rewrite E1. cbn [mbind option_bind]. destruct St1 as [Hinv1 Hev1 Hk1 Hp1].
  destruct (IH s1 G1) as (l & s2 & G2 & E2 & St2 & Seen2 & List2); [done| | | | |].
  - by rewrite (ev_cut _ _ _ _ Hev1).
  - eapply at_node_keeps; [exact Hinv|exact Hev1|exact Hk1|exact Hat].
  - destruct Hcand as [?|(n' & Hn' & Hex)]; [by left|right]. destruct (ev_nodes _ _ _ _ Hev1 _ n' Hn') as (n1 & Hn1 & Hevn).
    exists n1. split; [done|]. by apply (ev_expanded _ _ Hevn).
  - intros p Hp. apply Hpos. by right.
  - rewrite E2. cbn [mbind option_bind]. pose proof St2 as [Hinv2 Hev2 Hk2 Hp2]. eexists _, s2, G2. split; [done|].
    split; [apply (step_ok_trans G G1 G2 done x s s1 s2); [by constructor|exact St2]|]. split.
    + intros p [->|Hp]%elem_of_cons.
      * eapply child_seen_evolves; [exact Hev2| |exact Seen1]. intros y Hy. apply elem_of_app. by left.
      * eapply child_seen_evolves; [apply evolves_refl| |by apply Seen2]. intros y Hy. apply elem_of_app. by right.
    + intros y [Hy|Hy]%elem_of_app; [|by apply List2]. eapply child_listed_evolves; [exact Hev2|exact Hk2|by eapply bounds_of|].
      apply List1. destruct r as [z|]; [|by apply elem_of_nil in Hy]. apply list_elem_of_singleton in Hy. by subst.
Qed.

Lemma live_children_ok G done x (s : Store) c path sp candidate :
  tree_inv G done x s → cursor_cut c = store_cut s → at_node G s (cursor_node c) path sp →
  (candidate = Some sp ∨ ∃ n, nodes_of s !! cursor_node c = Some n ∧ node_expanded n = true) →
  ∃ l s' G', live_children c candidate s = Some (l, s') ∧ step_ok G G' done x s s' ∧
    (∀ pos, pos < length (list_actions sp) → child_seen G' s' (cursor_node c) pos l) ∧ (∀ y, y ∈ l → child_listed G' s' (cursor_node c) y).
Proof.
  intros Hinv Hcut Hat Hcand. unfold Mcts.live_children, get_node. pose proof Hat as (n & Hn & Hg & _). rewrite Hn. cbn [mbind option_bind].
  pose proof (ok_children _ _ _ _ _ _ _ _ _ (inv_nodes _ _ _ _ _ _ Hinv _ _ n Hg Hn)) as Hch. cbn in Hch.
  rewrite <-(length_fmap edge_action), Hch.
  destruct (live_children_from_ok G done x s c path sp candidate (seq 0 (length (list_actions sp)))) as (l & s' & G' & E1 & St & Seen & List); [done|done|done|done| |].
  { intros pos Hp%elem_of_seq. lia. }
  exists l, s', G'. split; [done|]. split; [done|]. split; [|done]. intros pos Hp. apply Seen. apply elem_of_seq. lia.
Qed.
End children.
