(* ===== verification/MctsWalk.v ===== *)
(** * The tree of the Monte-Carlo search: the steps of a walk

    Picking a child, expanding a node, and killing it once it is evaluated or has no live
    children. *)
From S2P Require Import Prelude Types Utils Orders Float64 Config Candidates Rollout MctsPolicies Mcts MctsInvariant.
From Stdlib Require Import Floats.SpecFloat.

Section steps.
Context {Space Act : Type} `{SearchSpaceOps Space Act} {R E : Type} `{Rng R} (edge_default : E).
Context (config : BanditConfig) (height : Space → nat) (root : Space).
Notation Action := (ActionEx Act).
Notation Store := (@MctsStore Space Act R E).
Notation Node := (@Node Space Act E).
Notation Edge := (@Edge Act E).
Notation list_actions := (list_actions config).
Notation Ghost := (@Ghost Space Act).
Context (Hnarrow : actions_narrow config height) (Hfit : actions_fit config).
Notation tree_inv := (@tree_inv Space Act _ R E config root).
Notation node_ok := (@node_ok Space Act _ R E config root).
Notation potential := (@potential Space Act _ R E config height).
Notation completed := (@completed Space Act _ config).
Notation live_children := (@live_children Space Act _ R E edge_default config).
Notation expand := (@expand Space Act _ R E edge_default config).

(** ** Changing what is known of a node *)
Lemma with_rng_inv G done x (s : Store) rng : tree_inv G done x s → tree_inv G done x (with_rng rng s).
Proof. intros [H1 H2 H3]. constructor; [done| |done]. intros id g n Hg Hn. destruct (H2 id g n Hg Hn). by constructor. Qed.

Lemma grow_done G done done' x (s : Store) : done ⊆ done' → tree_inv G done x s → tree_inv G done' x s.
Proof.
  intros Hd [H1 H2 H3]. constructor; [done| |done]. intros id g n Hg Hn.
  eapply (node_ok_mono config root G G done done' x x s s); [apply evolves_refl|intros j m m' ? ?; congruence|done|done|by apply H2].
Qed.

(** A node that is ready needs no exemption. *)
Lemma unexempt G done (s : Store) id n :
  tree_inv G done (Some id) s → nodes_of s !! id = Some n → ready None id n →
  (node_expanded n = true → is_implementation n = true → node_dead n = true) → tree_inv G done None s.
Proof.
  intros Hinv Hn Hr Himp. destruct (ghost_node config root G done _ s id n Hinv Hn) as (g & Hg).
  pose proof (inv_nodes _ _ _ _ _ _ Hinv id g n Hg Hn) as [K1 K2 K3 K4 K5 K6 K7 K8 K9 K10 K11].
  assert (with_nodes (<[id := n]> (nodes_of s)) s = s) as Es.
  { rewrite list_insert_id by done. by destruct s. }
  pose proof (update_inv config root G done (Some id) None s id g n n Hinv Hg Hn) as Hinv'. cbn zeta in Hinv'. rewrite Es in Hinv'. apply Hinv'.
  - reflexivity.
  - by intros _.
  - intros j Hne [= ->]. done.
  - constructor; try done.
    + intros Hexp. eapply Forall_impl; [by apply K9|]. intros e (child & m & gm & He & Hm & Hgm & Hrm).
      exists child, m, gm. split_and!; try done. destruct (decide (child = id)) as [->|Hne].
      * rewrite Hn in Hm. by injection Hm as <-.
      * destruct Hrm as [?|[?|[?|[= ?]]]]; [by left|by right; left|by right; right; left|done].
    + intros ? ? _. by apply Himp.
Qed.

(** The data of an edge does not change the work left. *)
Lemma node_work_data g (n : Node) pos e data :
  node_children n !! pos = Some e →
  node_work config height g (set_children (<[pos := set_edge_data data e]> (node_children n)) n) = node_work config height g n.
Proof.
  intros He. unfold node_work. cbn [node_dead set_children node_children]. destruct (node_dead n); [done|]. destruct g.2 as [sp|]; [|done]. f_equal.
  pose proof (sum_list_with_insert (edge_work config height sp) (node_children n) pos e (set_edge_data data e) He) as Hs.
  assert (edge_work config height sp (set_edge_data data e) = edge_work config height sp e) as Hs' by done. lia.
Qed.

(** ** Picking a child *)
Lemma view_of_ok G done x (s : Store) id path sp l :
  tree_inv G done x s → G !! id = Some (path, Some sp) → (∀ y, y ∈ l → child_listed G s id y) →
  ∃ view, view_of id l s = Some view ∧ length view = length l ∧ Forall (λ child, cv_bound E child < store_cut s)%f64 view.
Proof.
  intros Hinv Hg. induction l as [|[[pos id'] made] l IH]; intros Hl; [by exists []|].
  destruct IH as (view & Ev & Hlen & Hall); [intros y Hy; apply Hl; by right|].
  destruct (Hl (pos, id', made)) as (n & e & m & g & spc & Hn & He & Hc & Hm & Hgm & Hd & Hlt & _); [by left|]. cbn [fst snd] in *.
  exists (mkChildView (edge_index e) (edge_data e) (space_bound spc) :: view). split; [|split; [cbn; by f_equal|by constructor]].
  apply mapM_Some. constructor; [|by apply mapM_Some]. unfold get_node. rewrite Hn. cbn [mbind option_bind]. rewrite He. cbn [mbind option_bind].
  rewrite Hm. cbn [mbind option_bind]. pose proof (bounds_of config root G done x s Hinv id' m _ Hm Hgm) as Hb. cbn in Hb. by rewrite Hb.
Qed.

Lemma pick_ok policy G done x (s : Store) c path sp l :
  policy_ok policy → tree_inv G done x s → cursor_cut c = store_cut s → G !! cursor_node c = Some (path, Some sp) →
  (∀ y, y ∈ l → child_listed G s (cursor_node c) y) →
  ∃ r s', pick policy c l s = Some (r, s') ∧ step_ok config height root G G done x s s' ∧
    match r with
    | Some (pos, id, child, index) => (pos, id, child) ∈ l ∧ index = Z.of_nat pos
    | None => l = []
    end.
Proof.
  intros Hpol Hinv Hcut Hg Hl. unfold pick. destruct (view_of_ok G done x s _ path sp l Hinv Hg Hl) as (view & -> & Hlen & Hall). cbn [mbind option_bind].
  rewrite Hcut. destruct (Hpol (store_cut s) view (store_rng s) Hall) as (r & rng & -> & Hr). cbn [mbind option_bind].
  pose proof (with_rng_inv G done x s rng Hinv) as Hinv1. set (s1 := with_rng rng s) in *.
  assert (step_ok config height root G G done x s s1) as St1.
  { constructor; [done| | |done].
    - constructor; try done; [exists []; by rewrite app_nil_r|]. intros j n Hj. by exists n.
    - intros j m b Hm Hd Hb Hlt. by exists m. }
  destruct r as [[[i sel] data]|]; cycle 1.
  { exists None, s1. split; [done|]. split; [done|]. destruct l; [done|]. by rewrite Hr in Hlen. }
  rewrite Hlen in Hr. destruct (lookup_lt_is_Some_2 l i Hr) as [[[pos id] child] Hi]. rewrite Hi. cbn [mbind option_bind].
  assert ((pos, id, child) ∈ l) as Hin by (by eapply list_elem_of_lookup_2).
  destruct (Hl _ Hin) as (n & e & m & g & spc & Hn & He & Hc & Hm & Hgm & Hd & Hlt & _). cbn [fst snd] in *.
  assert (nodes_of s1 !! cursor_node c = Some n) as Hn1 by done. unfold get_node. rewrite Hn1. cbn [mbind option_bind]. rewrite He. cbn [mbind option_bind].
  rewrite (update_edge_spec _ _ _ s1 n e Hn1 He). cbn [mbind option_bind].
  destruct (edge_inv config height root G done x s1 (cursor_node c) _ n pos e (set_edge_data data e) Hinv1 Hg Hn1 He) as (Hinv2 & Hev2 & _ & Hk2 & Hp2).
  { by constructor. }
  { intros ch Hch. by left. }
  eexists _, _. split; [done|]. split.
  - eapply step_ok_trans; [exact St1|]. constructor; [done|done|done|].
    rewrite (node_work_data _ n pos e data He) in Hp2.
    lia.
  - split; [done|]. by apply (child_ghost config root G done x s (cursor_node c) path sp n pos e id Hinv Hg Hn He Hc).
Qed.

(** The candidate of a child that is listed is its space. *)
Lemma child_candidate_ok G done x (s : Store) id path sp pos child made :
  tree_inv G done x s → G !! id = Some (path, Some sp) → child_listed G s id (pos, child, made) →
  ∃ a spc m, list_actions sp !! pos = Some a ∧ apply_action sp a = Some spc ∧ child_candidate id pos sp made s = Some spc ∧
    G !! child = Some (path ++ [a], Some spc) ∧ nodes_of s !! child = Some m ∧ node_dead m = false ∧ (space_bound spc < store_cut s)%f64.
Proof.
  intros Hinv Hg (n & e & m & g & spc & Hn & He & Hc & Hm & Hgm & Hd & Hlt & Hmade). cbn [fst snd] in *.
  destruct (child_ghost config root G done x s id path sp n pos e child Hinv Hg Hn He Hc) as (_ & Ha & Hgc).
  assert (Some (g, Some spc) = Some (path ++ [edge_action e], apply_action sp (edge_action e))) as [= -> Happ] by exact (eq_trans (eq_sym Hgm) Hgc).
  exists (edge_action e), spc, m. split_and!; try done.
  destruct Hmade as [-> | ->]; [|done]. unfold child_candidate, get_node. rewrite Hn. cbn [mbind option_bind]. rewrite He. cbn [mbind option_bind]. by rewrite <-Happ.
Qed.
(** ** Expanding a node *)
Lemma store_candidate_ok G done x (s : Store) id g sp m :
  tree_inv G done x s → G !! id = Some (g, Some sp) → nodes_of s !! id = Some m →
  ∃ s', store_candidate id sp s = Some s' ∧ step_ok config height root G G done x s s' ∧
    (∃ m', nodes_of s' !! id = Some m' ∧ is_Some (node_candidate m')).
Proof.
  intros Hinv Hg Hm. unfold store_candidate, update_node, get_node. rewrite Hm. cbn [mbind option_bind].
  set (m' := set_candidate (Some sp) m). set (s' := with_nodes _ s). exists s'. split; [done|].
  destruct (update_ok config root G done x x s id _ m m' Hinv Hg Hm) as (Hinv' & Hev & Hst & Hm').
  { by constructor. }
  { intros _. right. right. left. by eexists. }
  { done. }
  { done. }
  { intros _ [K1 K2 K3 K4 K5 K6 K7 K8 K9 K10 K11]. constructor; try done. }
  split; [|by exists m'; split; [|eexists]]. constructor; [done|done| |].
  - intros j n b Hn Hd Hb Hlt. destruct (decide (j = id)) as [->|Hne].
    + exists m'. rewrite Hm in Hn. injection Hn as <-. split; [done|]. split; [done|]. split; [done|]. intros _. by eexists.
    + exists n. split; [|done]. cbn. by rewrite list_lookup_insert_ne.
  - pose proof (update_potential config height G s id _ m m' Hg Hm) as Hp.
    assert (node_work config height (g, Some sp) m' = node_work config height (g, Some sp) m) as Hw by done. fold s' in Hp. lia.
Qed.

Lemma store_children_ok G done x (s : Store) id path sp (l : list (nat * nat * option Space)) :
  tree_inv G done x s → G !! id = Some (path, Some sp) → (∀ y, y ∈ l → child_listed G s id y) →
  ∃ s', foldM (λ s '(pos, ch, made), made ← child_candidate id pos sp made s; store_candidate ch made s) l s = Some s' ∧
    step_ok config height root G G done x s s' ∧
    (∀ y, y ∈ l → child_listed G s' id y ∧ ∃ m, nodes_of s' !! y.1.2 = Some m ∧ is_Some (node_candidate m)).
Proof.
  intros Hinv Hg Hl. revert s Hinv Hl. induction l as [|[[pos ch] made] l IH]; intros s Hinv Hl.
  { exists s. split; [done|]. split; [by apply step_ok_refl|]. by intros y Hy%elem_of_nil. }
  pose proof (Hl (pos, ch, made) ltac:(by left)) as Hy.
  destruct (child_candidate_ok G done x s id path sp pos ch made Hinv Hg Hy) as (a & spc & m & Ha & Happ & Ec & Hgc & Hm & Hd & Hlt).
  destruct (store_candidate_ok G done x s ch _ spc m Hinv Hgc Hm) as (s1 & E1 & St1 & m1 & Hm1 & Hc1).
  pose proof St1 as [Hinv1 Hev1 Hk1 Hp1].
  assert (∀ y, y ∈ (pos, ch, made) :: l → child_listed G s1 id y) as Hl1.
  { intros y Hyl. eapply child_listed_evolves; [exact Hev1|exact Hk1|by eapply bounds_of|by apply Hl]. }
  destruct (IH s1 Hinv1) as (s2 & E2 & St2 & Hall); [intros y Hyl; apply Hl1; by right|].
  exists s2. cbn [foldM]. rewrite Ec. cbn [mbind option_bind]. rewrite E1. cbn [mbind option_bind]. split; [done|].
  split; [by eapply step_ok_trans|]. pose proof St2 as [Hinv2 Hev2 Hk2 Hp2].
  intros y [->|Hyl]%elem_of_cons; [|by apply Hall]. split.
  - eapply child_listed_evolves; [exact Hev2|exact Hk2|by eapply bounds_of|by apply Hl1; left].
  - cbn [fst snd]. pose proof (bounds_of config root G done x s1 Hinv1 ch m1 _ Hm1 Hgc) as Hb.
    destruct (Hl1 _ ltac:(by left)) as (? & ? & m1' & ? & ? & ? & ? & ? & Hm1' & ? & Hd1 & ? & _). cbn [fst snd] in *.
    assert (m1' = m1) as -> by congruence.
    destruct (Hk2 ch m1 (space_bound spc) Hm1 Hd1) as (m2 & Hm2 & _ & _ & Hc2); [done| |exists m2; split; [done|by apply Hc2]].
    by rewrite (ev_cut _ _ _ _ Hev1).
Qed.

(** The candidate is taken: the node is exempt from being ready until it is expanded. *)
Lemma take_candidate_ok G done (s : Store) id g n :
  tree_inv G done None s → G !! id = Some g → nodes_of s !! id = Some n →
  ∃ s', take_candidate id s = Some (node_candidate n, s') ∧ tree_inv G done (Some id) s' ∧ evolves G G s s' ∧
    potential G s' = potential G s ∧ nodes_of s' !! id = Some (set_candidate None n).
Proof.
  intros Hinv Hg Hn. unfold take_candidate, update_node, get_node. rewrite Hn. cbn [mbind option_bind].
  eexists. split; [done|]. set (s' := with_nodes _ s).
  destruct (update_ok config root G done None (Some id) s id g n (set_candidate None n) Hinv Hg Hn) as (Hinv' & Hev & Hst & Hn').
  { by constructor. }
  { intros _. by right; right; right. }
  { done. }
  { done. }
  { intros _ [K1 K2 K3 K4 K5 K6 K7 K8 K9 K10 K11]. by constructor. }
  split; [done|]. split; [done|]. split; [|done].
  pose proof (update_potential config height G s id _ n (set_candidate None n) Hg Hn) as Hp.
  assert (node_work config height g (set_candidate None n) = node_work config height g n) as Hw by done. fold s' in Hp. lia.
Qed.

(** The children of an expanded node are ready. *)
Lemma set_expanded_ok G done (s : Store) id path sp n l :
  tree_inv G done (Some id) s → G !! id = Some (path, Some sp) → nodes_of s !! id = Some n →
  (∀ pos, pos < length (list_actions sp) → child_seen G s id pos l) →
  (∀ y, y ∈ l → ∃ m, nodes_of s !! y.1.2 = Some m ∧ is_Some (node_candidate m)) →
  ∃ s', update_node id (set_expanded true) s = Some s' ∧ tree_inv G done (Some id) s' ∧ evolves G G s s' ∧
    potential G s' = potential G s ∧ nodes_of s' !! id = Some (set_expanded true n).
Proof.
  intros Hinv Hg Hn Hseen Hl. unfold update_node, get_node. rewrite Hn. cbn [mbind option_bind].
  eexists. split; [done|]. set (s' := with_nodes _ s).
  destruct (update_ok config root G done (Some id) (Some id) s id _ n (set_expanded true n) Hinv Hg Hn) as (Hinv' & Hev & Hst & Hn').
  { by constructor. }
  { intros _. by right; left. }
  { done. }
  { done. }
  { intros Hev [K1 K2 K3 K4 K5 K6 K7 K8 K9 K10 K11]. constructor; try done. intros _. cbn [node_children set_expanded] in *.
    apply Forall_lookup. intros pos e He. destruct (Hseen pos) as (n1 & e1 & child & Hn1 & He1 & Hc & Hcase).
    { cbn [snd] in K3. rewrite <-K3, length_fmap. by eapply lookup_lt_Some. }
    rewrite Hn in Hn1. injection Hn1 as <-. rewrite He in He1. injection He1 as <-.
    assert (∃ m, nodes_of s !! child = Some m ∧ (node_dead m = true ∨ is_Some (node_candidate m))) as (m & Hm & Hr).
    { destruct Hcase as [(m & Hm & Hd)|(made & Hin)]; [exists m; by split; [|left]|].
      destruct (Hl _ Hin) as (m & Hm & Hc'). exists m. by split; [|right]. }
    destruct (ev_nodes _ _ _ _ Hev child m Hm) as (m' & Hm' & _).
    destruct (ghost_node config root G done _ s child m Hinv Hm) as (gm & Hgm). exists child, m', gm. split_and!; try done.
    destruct (decide (child = id)) as [->|Hne]; [by right; right; right|]. cbn in Hm'. rewrite list_lookup_insert_ne in Hm' by done. simplify_eq.
    destruct Hr as [?|?]; [by left|by right; right; left]. }
  split; [done|]. split; [done|]. split; [|done].
  pose proof (update_potential config height G s id _ n (set_expanded true n) Hg Hn) as Hp.
  assert (node_work config height (path, Some sp) (set_expanded true n) = node_work config height (path, Some sp) n) as Hw by done. fold s' in Hp. lia.
Qed.

Lemma expand_ok G done (s : Store) c path sp n :
  tree_inv G done None s → cursor_cut c = store_cut s → nodes_of s !! cursor_node c = Some n →
  G !! cursor_node c = Some (path, Some sp) → (space_bound sp < store_cut s)%f64 →
  ready None (cursor_node c) n → node_dead n = false → node_expanded n = false →
  ∃ s' G' n', expand c s = Some (Some sp, s') ∧ tree_inv G' done (Some (cursor_node c)) s' ∧ evolves G G' s s' ∧
    potential G' s' ≤ potential G s ∧ nodes_of s' !! cursor_node c = Some n' ∧ node_dead n' = false ∧ node_expanded n' = true.
Proof.
  intros Hinv Hcut Hn Hg Hlt Hr Hd Hx. pose proof (bounds_of config root G done None s Hinv _ n _ Hn Hg) as Hb. cbn in Hb.
  pose proof (inv_nodes _ _ _ _ _ _ Hinv _ _ n Hg Hn) as Hok.
  assert (node_candidate n = Some sp) as Hc.
  { destruct Hr as [?|[?|[[sp' Hsp']|?]]]; try congruence. rewrite Hsp'.
    pose proof (ok_candidate _ _ _ _ _ _ _ _ _ Hok sp' Hsp') as E1. by cbn in E1. }
  unfold Mcts.expand, cursor_do_cut, cut_node, get_node. rewrite Hn. cbn [mbind option_bind].
  unfold is_live. rewrite Hb, Hd, Hcut. rewrite bool_decide_true by (by eexists). cbn [andb negb mbind option_bind]. rewrite Hlt.
  cbn [mbind option_bind]. rewrite Hn. cbn [mbind option_bind]. rewrite Hx. cbn [orb].
  destruct (take_candidate_ok G done s (cursor_node c) _ n Hinv Hg Hn) as (s1 & -> & Hinv1 & Hev1 & Hp1 & Hn1). cbn [mbind option_bind]. rewrite Hc.
  destruct (live_children_ok edge_default config height root Hnarrow Hfit G done (Some (cursor_node c)) s1 c path sp (Some sp))
    as (l & s2 & G2 & -> & St2 & Seen2 & List2).
  { done. }
  { by rewrite (ev_cut _ _ _ _ Hev1). }
  { exists (set_candidate None n). split_and!; try done. by rewrite (ev_cut _ _ _ _ Hev1). }
  { by left. }
  cbn [mbind option_bind]. pose proof St2 as [Hinv2 Hev2 Hk2 Hp2]. pose proof (evolves_ghost _ _ _ _ _ _ Hev2 Hg) as Hg2.
  destruct (store_children_ok G2 done _ s2 (cursor_node c) path sp l Hinv2 Hg2 List2) as (s3 & -> & St3 & Hl3). cbn [mbind option_bind].
  pose proof (step_ok_trans config height root _ _ _ _ _ _ _ _ St2 St3) as [Hinv3 Hev3 Hk3 Hp3].
  destruct (Hk3 (cursor_node c) (set_candidate None n) (space_bound sp)) as (n3 & Hn3 & Hd3 & Hx3 & _); [done|done|done|by rewrite (ev_cut _ _ _ _ Hev1)|].
  destruct (set_expanded_ok G2 done s3 (cursor_node c) path sp n3 l Hinv3 Hg2 Hn3) as (s4 & -> & Hinv4 & Hev4 & Hp4 & Hn4).
  { intros pos Hpos. destruct St3 as [_ Hev23 _ _]. eapply child_seen_evolves; [exact Hev23|reflexivity|by apply Seen2]. }
  { intros y Hy. by apply Hl3. }
  cbn [mbind option_bind]. exists s4, G2, (set_expanded true n3). split_and!; try done; [|lia].
  eapply evolves_trans; [exact Hev1|]. by eapply evolves_trans.
Qed.
End steps.
