(* ===== verification/MctsDescent.v ===== *)
(** * The tree of the Monte-Carlo search: descents

    The walkers terminate without a panic: they return an implementation that was not
    returned before, or make the work that is left smaller. *)
From S2P Require Import Prelude Types Utils Orders Float64 Config Candidates Rollout MctsPolicies Mcts MctsInvariant MctsWalk.
From Stdlib Require Import Floats.SpecFloat.

Section descent.
Context {Space Act : Type} `{SearchSpaceOps Space Act} {R E : Type} `{Rng R} (edge_default : E).
Context (config : BanditConfig) (height : Space → nat) (root : Space).
Context (default_policy tree_policy : TreePolicy R E).
Notation Action := (ActionEx Act).
Notation Store := (@MctsStore Space Act R E).
Notation Node := (@Node Space Act E).
Notation list_actions := (list_actions config).
Notation Ghost := (@Ghost Space Act).
Context (Hnarrow : actions_narrow config height) (Hfit : actions_fit config).
Context (Hdefault : policy_ok default_policy) (Htree : policy_ok tree_policy).
Notation tree_inv := (@tree_inv Space Act _ R E config root).
Notation node_ok := (@node_ok Space Act _ R E config root).
Notation potential := (@potential Space Act _ R E config height).
Notation completed := (@completed Space Act _ config).
Notation live_children := (@live_children Space Act _ R E edge_default config).
Notation expand := (@expand Space Act _ R E edge_default config).
Notation walk_loop := (@walk_loop Space Act _ R E edge_default config default_policy).
Notation walk_with := (@walk_with Space Act R E).
Notation select_intree := (@select_intree Space Act _ R E edge_default config default_policy tree_policy).

(** ** Nodes and cursors *)
Definition dead_at (s : Store) (id : nat) : Prop := ∃ n, nodes_of s !! id = Some n ∧ node_dead n = true.

(** The node of a space below the cut. *)
Definition placed (G : Ghost) (s : Store) (id : nat) (path : list Action) (sp : Space) : Prop :=
  is_Some (nodes_of s !! id) ∧ G !! id = Some (path, Some sp) ∧ (space_bound sp < store_cut s)%f64.

(** The edges of a path exist. *)
Definition path_ok (s : Store) (path : list (Policy * nat * Z)) : Prop :=
  Forall (λ step, ∃ n pos, nodes_of s !! step.1.2 = Some n ∧ step.2 = Z.of_nat pos ∧ pos < length (node_children n)) path.

Definition cursor_ok (s : Store) (c : NodeCursor) : Prop :=
  cursor_cut c = store_cut s ∧ cursor_cut_epoch c = store_cut_epoch s ∧ path_ok s (cursor_path c).

Definition all_dead (done : list nat) (s : Store) : Prop := ∀ id, id ∈ done → dead_at s id.

Lemma dead_at_evolves G G' s s' id : evolves G G' s s' → dead_at s id → dead_at s' id.
Proof. intros Hev (n & Hn & Hd). destruct (ev_nodes _ _ _ _ Hev id n Hn) as (n' & Hn' & He). exists n'. split; [done|by apply (ev_dead _ _ He)]. Qed.

Lemma all_dead_evolves G G' done s s' : evolves G G' s s' → all_dead done s → all_dead done s'.
Proof. intros Hev Hd id Hid. by eapply dead_at_evolves, Hd. Qed.

Lemma placed_evolves G G' s s' id path sp : evolves G G' s s' → placed G s id path sp → placed G' s' id path sp.
Proof.
  intros Hev ([n Hn] & Hg & Hlt). destruct (ev_nodes _ _ _ _ Hev id n Hn) as (n' & Hn' & _).
  split; [by eexists|]. split; [by eapply evolves_ghost|by rewrite (ev_cut _ _ _ _ Hev)].
Qed.

Lemma path_ok_evolves G G' s s' path : evolves G G' s s' → path_ok s path → path_ok s' path.
Proof.
  intros Hev Hp. eapply Forall_impl; [exact Hp|]. intros step (n & pos & Hn & Hpos & Hlt). destruct (ev_nodes _ _ _ _ Hev _ n Hn) as (n' & Hn' & He).
  exists n', pos. by rewrite <-(Forall2_length _ _ _ (ev_children _ _ He)).
Qed.

Lemma cursor_ok_evolves G G' s s' c : evolves G G' s s' → cursor_ok s c → cursor_ok s' c.
Proof.
  intros Hev (H1 & H2 & H3). split; [by rewrite (ev_cut _ _ _ _ Hev)|]. split; [by rewrite (ev_epoch _ _ _ _ Hev)|by eapply path_ok_evolves].
Qed.

Lemma restore_ok s at_ c : cursor_ok s c → cursor_ok s (restore at_ c).
Proof. intros (H1 & H2 & H3). split; [done|]. split; [done|]. by apply Forall_take. Qed.

Lemma dead_or_live s id : is_Some (nodes_of s !! id) → dead_at s id ∨ ∃ n, nodes_of s !! id = Some n ∧ node_dead n = false.
Proof. intros [n Hn]. destruct (node_dead n) eqn:Ed; [left|right]; by exists n. Qed.

Lemma implementation_spec G done x (s : Store) id path sp n :
  tree_inv G done x s → G !! id = Some (path, Some sp) → nodes_of s !! id = Some n →
  is_implementation n = bool_decide (list_actions sp = []).
Proof.
  intros Hinv Hg Hn. pose proof (inv_nodes _ _ _ _ _ _ Hinv id _ n Hg Hn) as Hok. unfold is_implementation.
  pose proof (ok_bound _ _ _ _ _ _ _ _ _ Hok) as Hb. cbn in Hb. rewrite Hb, bool_decide_true by (by eexists). cbn [andb].
  pose proof (ok_children _ _ _ _ _ _ _ _ _ Hok) as Hch. cbn in Hch. rewrite <-Hch. apply bool_decide_ext. destruct (node_children n); done.
Qed.

(** ** Killing nodes *)
Lemma kill_done G done x (s : Store) id path sp n :
  tree_inv G done x s → x = None ∨ x = Some id → G !! id = Some (path, Some sp) → nodes_of s !! id = Some n → node_dead n = false →
  list_actions sp = [] →
  ∃ s', kill id s = Some s' ∧ tree_inv G (id :: done) None s' ∧ evolves G G s s' ∧ potential G s' < potential G s ∧ dead_at s' id.
Proof.
  intros Hinv Hx Hg Hn Hd Hnil.
  assert (tree_inv G (id :: done) x s) as Hinv1 by (eapply grow_done; [|done]; intros j Hj; by right).
  destruct (kill_inv config height root G (id :: done) x s id _ n Hinv1 Hg Hn) as (s' & -> & Hinv' & Hev & _ & Hnodes & _ & _ & Hp).
  { intros sp' acts l [= <-] Hr. exists id. split; [by left|].
    inversion Hr as [? ? ? | ? a ? ? ? ? Ha]; simplify_eq; [by rewrite app_nil_r|]. rewrite Hnil in Ha. by apply elem_of_nil in Ha. }
  assert (nodes_of s' !! id = Some (set_dead n)) as Hn' by (rewrite Hnodes; apply list_lookup_insert_eq; by eapply lookup_lt_Some).
  exists s'. split; [done|]. split; [|split; [done|split; [by apply Hp|by eexists]]].
  destruct Hx as [->| ->]; [done|]. eapply unexempt; [done|exact Hn'|by left|done].
Qed.

Lemma kill_childless G done (s : Store) id path sp n :
  tree_inv G done None s → G !! id = Some (path, Some sp) → nodes_of s !! id = Some n → node_dead n = false →
  list_actions sp ≠ [] → (∀ pos, pos < length (list_actions sp) → child_seen G s id pos []) →
  ∃ s', kill id s = Some s' ∧ tree_inv G done None s' ∧ evolves G G s s' ∧ potential G s' < potential G s.
Proof.
  intros Hinv Hg Hn Hd Hne Hseen.
  destruct (kill_inv config height root G done None s id _ n Hinv Hg Hn) as (s' & -> & Hinv' & Hev & _ & _ & _ & _ & Hp).
  { intros sp' acts l [= <-] Hr. inversion Hr as [? ? ? | ? a s1 acts' ? Hlt Ha Happ Hr']; simplify_eq.
    apply list_elem_of_lookup_1 in Ha as (pos & Hpos).
    destruct (Hseen pos) as (n1 & e & child & Hn1 & He & Hc & [(m & Hm & Hdm)|(made & Hin)]); [by eapply lookup_lt_Some| |by apply elem_of_nil in Hin].
    destruct (child_ghost config root G done None s id path sp n1 pos e child Hinv Hg Hn1 He Hc) as (_ & Ha & Hgc).
    rewrite Hpos in Ha. injection Ha as ->. rewrite Happ in Hgc.
    destruct (ok_completed _ _ _ _ _ _ _ _ _ (inv_nodes _ _ _ _ _ _ Hinv child _ m Hgc Hm) Hdm s1 acts' l) as (id' & Hid & Hg'); [done|done|].
    exists id'. split; [done|]. rewrite Hg'. cbn [fst]. by rewrite <-app_assoc. }
  exists s'. split; [done|]. split; [done|]. split; [done|]. by apply Hp.
Qed.

(** ** What a descent returns *)
Definition outcome (G G' : Ghost) (done done' : list nat) (s s' : Store) (id : nat) (r : result (Space * Trace) Error) : Prop :=
  tree_inv G' done' None s' ∧ all_dead done' s' ∧ evolves G G' s s' ∧
  match r with
  | ROk (candidate, (path, leaf)) =>
    done' = leaf :: done ∧ leaf ∉ done ∧ potential G' s' < potential G s ∧
    (∃ acts, G' !! leaf = Some (acts, Some candidate)) ∧ list_actions candidate = [] ∧ (space_bound candidate < store_cut s)%f64 ∧ path_ok s' path
  | RErr (DeadEndAt c) =>
    done' = done ∧ cursor_ok s' c ∧ (potential G' s' < potential G s ∨ potential G' s' ≤ potential G s ∧ dead_at s id)
  | RErr Aborted => done' = done ∧ store_stop s = true ∧ potential G' s' ≤ potential G s
  end.

(** An outcome, after other steps. *)
Lemma outcome_after G G1 G2 done done' s s1 s2 id id1 r :
  evolves G G1 s s1 → potential G1 s1 < potential G s ∨ potential G1 s1 ≤ potential G s ∧ (dead_at s1 id1 → dead_at s id) →
  outcome G1 G2 done done' s1 s2 id1 r → outcome G G2 done done' s s2 id r.
Proof.
  intros Hev Hp (H1 & H2 & H3 & H4). split; [done|]. split; [done|]. split; [by eapply evolves_trans|].
  destruct r as [[cand [path leaf]]|[c|]].
  - destruct H4 as (? & ? & ? & ? & ? & Hb & ?). rewrite (ev_cut _ _ _ _ Hev) in Hb. split_and!; try done. lia.
  - destruct H4 as (? & ? & Hq). split_and!; try done. destruct Hp as [?|[? Hd]], Hq as [?|[? Hd']]; [left; lia..|]. right. split; [lia|by apply Hd].
  - destruct H4 as (? & Hs & ?). rewrite (ev_stop _ _ _ _ Hev) in Hs. split_and!; try done. lia.
Qed.

(** What the body of a checkpoint does. *)
Definition attempt_ok (G G' : Ghost) (done done' : list nat) (s s' : Store) (id : nat) (o : Outcome) : Prop :=
  match o with
  | Return r => outcome G G' done done' s s' id r
  | Retry c => tree_inv G' done None s' ∧ all_dead done s' ∧ evolves G G' s s' ∧ cursor_ok s' c ∧ done' = done ∧ potential G' s' < potential G s
  end.

(** A checkpoint retries only when less work is left. *)
Lemma checkpoint_ok G G1 done done1 s s1 c o (again : NodeCursor → option (result (Space * Trace) Error * Store)) :
  ¬ dead_at s (cursor_node c) → attempt_ok G G1 done done1 s s1 (cursor_node c) o →
  (∀ c', cursor_ok s1 c' → cursor_node c' = cursor_node c → tree_inv G1 done None s1 → all_dead done s1 → evolves G G1 s s1 →
    potential G1 s1 < potential G s → ∃ r s' G' done', again c' = Some (r, s') ∧ outcome G1 G' done done' s1 s' (cursor_node c) r) →
  ∃ r s' G' done', match checkpoint config c o with Return r => Some (r, s1) | Retry c => again c end = Some (r, s') ∧
    outcome G G' done done' s s' (cursor_node c) r.
Proof.
  intros Hlive Ho Hagain.
  assert (∀ c', cursor_ok s1 c' → tree_inv G1 done None s1 → all_dead done s1 → evolves G G1 s s1 → potential G1 s1 < potential G s →
    ∃ r s' G' done', again (restore c c') = Some (r, s') ∧ outcome G G' done done' s s' (cursor_node c) r) as Hretry.
  { intros c' Hc Hinv Had Hev Hp. destruct (Hagain (restore c c')) as (r & s' & G' & done' & E1 & Hr); try done; [by apply restore_ok|].
    exists r, s', G', done'. split; [done|]. eapply outcome_after; [exact Hev|by left|exact Hr]. }
  destruct o as [[x|[c'|]]|c']; cbn [checkpoint].
  - by exists (ROk x), s1, G1, done1.
  - destruct (backtrack_deadends config); [|by exists (RErr (DeadEndAt c')), s1, G1, done1].
    destruct Ho as (Hinv & Had & Hev & -> & Hc & [Hp|[_ Hd]]); [by apply Hretry|done].
  - by exists (RErr Aborted), s1, G1, done1.
  - destruct Ho as (Hinv & Had & Hev & Hc & -> & Hp). by apply Hretry.
Qed.

(** ** The walkers *)
Lemma outcome_kill G done s s' c sp path :
  tree_inv G (cursor_node c :: done) None s' → all_dead done s → evolves G G s s' → dead_at s' (cursor_node c) → ¬ dead_at s (cursor_node c) →
  potential G s' < potential G s → G !! cursor_node c = Some (path, Some sp) → list_actions sp = [] → (space_bound sp < store_cut s)%f64 →
  cursor_ok s c → outcome G G done (cursor_node c :: done) s s' (cursor_node c) (ROk (sp, (cursor_path c, cursor_node c))).
Proof.
  intros Hinv Had Hev Hd Hnd Hp Hg Hnil Hlt (_ & _ & Hpath). split; [done|]. split.
  { intros j [->|Hj]%elem_of_cons; [done|]. by eapply all_dead_evolves. }
  split; [done|]. split_and!; try done.
  - intros Hin. by apply Hnd, Had.
  - by exists path.
  - by eapply path_ok_evolves.
Qed.

Lemma walk_with_ok loop G done x s c path sp n :
  tree_inv G done x s → x = None ∨ x = Some (cursor_node c) ∧ node_expanded n = true → all_dead done s → cursor_ok s c →
  placed G s (cursor_node c) path sp → nodes_of s !! cursor_node c = Some n → node_dead n = false →
  (list_actions sp ≠ [] → tree_inv G done None s →
    ∃ r s' G' done', loop c sp s = Some (r, s') ∧ outcome G G' done done' s s' (cursor_node c) r) →
  ∃ r s' G' done', walk_with loop c sp s = Some (r, s') ∧ outcome G G' done done' s s' (cursor_node c) r.
Proof.
  intros Hinv Hx Had Hc (_ & Hg & Hlt) Hn Hd Hloop. pose proof Hc as (Hcut & _).
  unfold Mcts.walk_with, get_node. rewrite Hn. cbn [mbind option_bind]. rewrite (implementation_spec G done x s _ path sp n Hinv Hg Hn).
  assert (¬ dead_at s (cursor_node c)) as Hnd by (intros (n' & Hn' & Hd'); congruence).
  destruct (bool_decide (list_actions sp = [])) eqn:El.
  - apply bool_decide_eq_true in El. unfold evaluate, cursor_do_cut, cut_node, get_node. rewrite Hn. cbn [mbind option_bind].
    pose proof (bounds_of config root G done x s Hinv _ n _ Hn Hg) as Hb. cbn in Hb. unfold is_live. rewrite Hb, Hd, Hcut.
    rewrite bool_decide_true by (by eexists). cbn [andb negb mbind option_bind]. rewrite Hlt. cbn [mbind option_bind snd].
    destruct (kill_done G done x s (cursor_node c) path sp n Hinv) as (s' & -> & Hinv' & Hev & Hp & Hd'); try done; [destruct Hx as [?|[? _]]; [by left|by right]|].
    cbn [mbind option_bind]. eexists _, s', G, (cursor_node c :: done). split; [done|]. by eapply outcome_kill.
  - apply bool_decide_eq_false in El. apply Hloop; [done|]. destruct Hx as [->|[-> Hexp]]; [done|].
    eapply unexempt; [done|exact Hn|by right; left|]. intros _ Himp.
    rewrite (implementation_spec G done _ s _ path sp n Hinv Hg Hn) in Himp. by apply bool_decide_eq_true in Himp.
Qed.

(** The cursor that goes to a child. *)
Lemma move_to_ok G done x (s : Store) c policy path sp pos id :
  tree_inv G done x s → G !! cursor_node c = Some (path, Some sp) → is_Some (nodes_of s !! cursor_node c) → cursor_ok s c →
  pos < length (list_actions sp) → cursor_ok s (move_to c policy (Z.of_nat pos) id).
Proof.
  intros Hinv Hg [n Hn] (H1 & H2 & H3) Hpos. split; [done|]. split; [done|]. apply Forall_app. split; [done|].
  apply Forall_singleton. exists n, pos. cbn [fst snd]. split; [done|]. split; [done|].
  pose proof (ok_children _ _ _ _ _ _ _ _ _ (inv_nodes _ _ _ _ _ _ Hinv _ _ n Hg Hn)) as Hch. cbn in Hch.
  by rewrite <-(length_fmap edge_action), Hch.
Qed.

(** The end of a loop that found no child to pick. *)
Lemma attempt_kill G G1 done s s1 c path sp n :
  evolves G G1 s s1 → tree_inv G1 done None s1 → all_dead done s → potential G1 s1 ≤ potential G s → cursor_ok s c →
  G1 !! cursor_node c = Some (path, Some sp) → nodes_of s1 !! cursor_node c = Some n → node_dead n = false → list_actions sp ≠ [] →
  (∀ pos, pos < length (list_actions sp) → child_seen G1 s1 (cursor_node c) pos []) →
  ∃ s', kill (cursor_node c) s1 = Some s' ∧ attempt_ok G G1 done done s s' (cursor_node c) (Retry c).
Proof.
  intros Hev Hinv Had Hp Hc Hg Hn Hd Hne Hseen. destruct (kill_childless G1 done s1 _ path sp n Hinv Hg Hn Hd Hne Hseen) as (s' & -> & Hinv' & Hev' & Hp').
  exists s'. split; [done|]. assert (evolves G G1 s s') as Hev2 by (by eapply evolves_trans).
  split; [done|]. split; [by eapply all_dead_evolves|]. split; [done|]. split; [by eapply cursor_ok_evolves|]. split; [done|lia].
Qed.

(** The check at the beginning of the loops. *)
Lemma check_stop_ok s c n :
  cursor_ok s c → nodes_of s !! cursor_node c = Some n →
  check_stop c s = Some (if store_stop s then RErr Aborted else if is_live n then ROk c else RErr (DeadEndAt c), s).
Proof.
  intros (_ & He & _) Hn. unfold check_stop, get_node. destruct (store_stop s); [done|]. rewrite He, Nat.eqb_refl, Hn. cbn [mbind option_bind]. by destruct (is_live n).
Qed.

Lemma checked G done s c path sp n :
  tree_inv G done None s → all_dead done s → cursor_ok s c → placed G s (cursor_node c) path sp → nodes_of s !! cursor_node c = Some n →
  (∃ e, check_stop c s = Some (RErr e, s) ∧ outcome G G done done s s (cursor_node c) (RErr e)) ∨
  check_stop c s = Some (ROk c, s) ∧ node_dead n = false ∧ at_node G s (cursor_node c) path sp.
Proof.
  intros Hinv Had Hc (_ & Hg & Hlt) Hn. rewrite (check_stop_ok s c n Hc Hn). destruct (store_stop s) eqn:Es.
  { left. exists Aborted. split; [done|]. split; [done|]. split; [done|]. split; [apply evolves_refl|done]. }
  pose proof (bounds_of config root G done None s Hinv _ n _ Hn Hg) as Hb. cbn in Hb.
  unfold is_live. rewrite Hb, bool_decide_true by (by eexists). cbn [andb]. destruct (node_dead n) eqn:Ed; cbn [negb].
  - left. exists (DeadEndAt c). split; [done|]. split; [done|]. split; [done|]. split; [apply evolves_refl|].
    split; [done|]. split; [done|]. right. split; [done|]. by exists n.
  - right. split; [done|]. split; [done|]. by exists n.
Qed.

(** A child that was picked. *)
Lemma picked_child G done (s : Store) c path sp pos id made :
  tree_inv G done None s → cursor_ok s c → placed G s (cursor_node c) path sp → child_listed G s (cursor_node c) (pos, id, made) →
  ∃ a spc m, a ∈ list_actions sp ∧ apply_action sp a = Some spc ∧ child_candidate (cursor_node c) pos sp made s = Some spc ∧
    placed G s id (path ++ [a]) spc ∧ nodes_of s !! id = Some m ∧ node_dead m = false ∧ ¬ dead_at s id ∧ height spc < height sp ∧
    (∀ policy, cursor_ok s (move_to c policy (Z.of_nat pos) id)).
Proof.
  intros Hinv Hc (Hn & Hg & Hlt) Hl.
  destruct (child_candidate_ok config root G done None s (cursor_node c) path sp pos id made Hinv Hg Hl)
    as (a & spc & m & Ha & Happ & Ec & Hgc & Hm & Hdm & Hltm).
  pose proof (list_elem_of_lookup_2 _ _ _ Ha) as Hin. exists a, spc, m. split_and!; try done.
  - intros (m' & Hm' & Hd'). congruence.
  - by apply (Hnarrow sp a spc).
  - intros policy. eapply move_to_ok; [exact Hinv|exact Hg|done|done|by eapply lookup_lt_Some].
Qed.

(** What was returned from a live child. *)
Lemma attempt_child G G1 G2 done done' s s1 s2 id child r :
  evolves G G1 s s1 → potential G1 s1 ≤ potential G s → ¬ dead_at s1 child → outcome G1 G2 done done' s1 s2 child r →
  attempt_ok G G2 done done' s s2 id (Return r).
Proof. intros Hev Hp Hnd Ho. eapply outcome_after; [exact Hev| |exact Ho]. right. split; [done|]. by intros Hd. Qed.

(** Listing the children of a live node, then picking one of some of them. *)
Lemma list_ok G done s c path sp n candidate :
  tree_inv G done None s → all_dead done s → cursor_ok s c → at_node G s (cursor_node c) path sp →
  nodes_of s !! cursor_node c = Some n → candidate = Some sp ∨ node_expanded n = true →
  ∃ l s' G', live_children c candidate s = Some (l, s') ∧ step_ok config height root G G' done None s s' ∧
    (∀ pos, pos < length (list_actions sp) → child_seen G' s' (cursor_node c) pos l) ∧ (∀ y, y ∈ l → child_listed G' s' (cursor_node c) y).
Proof.
  intros Hinv Had Hc Hat Hn Hcand. eapply live_children_ok; try done; [apply Hc|]. destruct Hcand as [?|?]; [by left|right; by exists n].
Qed.

Lemma pick_some_ok policy G done s c path sp l :
  policy_ok policy → tree_inv G done None s → cursor_ok s c → placed G s (cursor_node c) path sp →
  (∀ y, y ∈ l → child_listed G s (cursor_node c) y) →
  ∃ r s', pick policy c l s = Some (r, s') ∧ step_ok config height root G G done None s s' ∧
    (∀ y, child_listed G s (cursor_node c) y → child_listed G s' (cursor_node c) y) ∧
    match r with
    | Some (pos, id, child, index) => (pos, id, child) ∈ l ∧ index = Z.of_nat pos
    | None => l = []
    end.
Proof.
  intros Hpol Hinv Hc (_ & Hg & _) Hl.
  destruct (pick_ok config height root policy G done None s c path sp l) as (r & s' & E1 & St & Hr); try done; [apply Hc|].
  exists r, s'. split; [done|]. split; [done|]. split; [|done]. intros y Hy. destruct St as [_ Hev Hk _].
  eapply child_listed_evolves; [exact Hev|exact Hk|by eapply bounds_of|done].
Qed.

Lemma walk_loop_ok fuel G done s c path sp :
  tree_inv G done None s → all_dead done s → cursor_ok s c → placed G s (cursor_node c) path sp → list_actions sp ≠ [] →
  height sp + potential G s < fuel →
  ∃ r s' G' done', walk_loop fuel c sp s = Some (r, s') ∧ outcome G G' done done' s s' (cursor_node c) r.
Proof.
  revert G done s c path sp. induction fuel as [|fuel IH]; intros G done s c path sp Hinv Had Hc Hpl Hne Hfuel; [lia|].
  cbn [Mcts.walk_loop]. pose proof Hpl as ([n Hn] & Hg & Hlt).
  destruct (checked G done s c path sp n Hinv Had Hc Hpl Hn) as [(e & -> & Ho)|(-> & Hd & Hat)]; cbn [mbind option_bind].
  { by exists (RErr e), s, G, done. }
  assert (¬ dead_at s (cursor_node c)) as Hnd by (intros (n' & Hn' & Hd'); congruence).
  destruct (list_ok G done s c path sp n (Some sp)) as (l & s1 & G1 & -> & St1 & Seen & List); [done|done|done|done|done|by left|].
  cbn [mbind option_bind]. pose proof St1 as [Hinv1 Hev1 Hk1 Hp1].
  destruct (pick_some_ok default_policy G1 done s1 c path sp l) as (picked & s2 & -> & St2 & Hmove & Hpick);
    [done|done|eapply cursor_ok_evolves; [exact Hev1|done]|eapply placed_evolves; [exact Hev1|done]|done|].
  cbn [mbind option_bind]. pose proof (step_ok_trans config height root _ _ _ _ _ _ _ _ St1 St2) as [Hinv2 Hev2 Hk2 Hp2].
  destruct (at_node_keeps config root G G1 done None s s2 _ path sp Hinv Hev2 Hk2 Hat) as (n2 & Hn2 & Hg2 & Hd2 & Hlt2).
  pose proof (cursor_ok_evolves _ _ _ _ c Hev2 Hc) as Hc2. pose proof (all_dead_evolves _ _ _ _ _ Hev2 Had) as Had2.
  pose proof (placed_evolves _ _ _ _ _ _ _ Hev2 Hpl) as Hpl2.
  enough (∃ o s3 G3 done3,
    match picked with
    | Some (pos, id, child, index) =>
      let! child0 := child_candidate (cursor_node c) pos sp child s2
      in let! (r, s0) := walk_with (walk_loop fuel) (move_to c PolicyDefault index id) child0 s2 in Some (Return r, s0)
    | None => let! _ := rassert (none_live l s2) in let! s0 := kill (cursor_node c) s2 in Some (Retry c, s0)
    end = Some (o, s3) ∧ attempt_ok G G3 done done3 s s3 (cursor_node c) o) as (o & s3 & G3 & done3 & -> & Ho).
  { cbn [mbind option_bind]. eapply checkpoint_ok; [exact Hnd|exact Ho|]. intros c' Hc' Hnode Hinv3 Had3 Hev3 Hp3. rewrite <-Hnode.
    apply (IH G3 done s3 c' path sp); try done; [|lia]. rewrite Hnode. by eapply placed_evolves. }
  destruct picked as [[[[pos id] made] index]|].
  - destruct Hpick as [Hin ->].
    destruct (picked_child G1 done s2 c path sp pos id made Hinv2 Hc2 Hpl2 (Hmove _ (List _ Hin)))
      as (a & spc & m & Ha & Happ & -> & Hplc & Hm & Hdm & Hndc & Hh & Hcm). cbn [mbind option_bind].
    destruct (walk_with_ok (walk_loop fuel) G1 done None s2 (move_to c PolicyDefault (Z.of_nat pos) id) (path ++ [a]) spc m)
      as (r & s3 & G3 & done3 & -> & Ho); try done; [by left| |].
    + intros Hne' _. apply (IH G1 done s2 _ (path ++ [a]) spc); try done. lia.
    + cbn [mbind option_bind]. eexists (Return r), s3, G3, done3. split; [done|]. by eapply attempt_child.
  - subst l. cbn [none_live forallb rassert mbind option_bind].
    destruct (attempt_kill G G1 done s s2 c path sp n2) as (s3 & -> & Ho); try done.
    + intros pos Hpos. eapply child_seen_evolves; [apply St2|reflexivity|by apply Seen].
    + cbn [mbind option_bind]. by eexists (Retry c), s3, G1, done.
Qed.

(** *** The part of the tree that is known *)
Lemma partition_ok (l : list (nat * nat * option Space)) (s : Store) :
  (∀ y, y ∈ l → is_Some (nodes_of s !! y.1.2)) →
  ∃ ex un, partition_expanded l s = Some (ex, un) ∧ (∀ y, y ∈ l → y ∈ ex ∨ y ∈ un) ∧
    (∀ y, y ∈ ex → y ∈ l ∧ ∃ n, nodes_of s !! y.1.2 = Some n ∧ node_expanded n = true) ∧
    (∀ y, y ∈ un → y ∈ l ∧ ∃ n, nodes_of s !! y.1.2 = Some n ∧ node_expanded n = false).
Proof.
  induction l as [|[[pos id] made] l IH]; intros Hl; [by exists [], []; split_and!; try done; intros y Hy%elem_of_nil|].
  destruct IH as (ex & un & E1 & Hall & Hex & Hun); [intros y Hy; apply Hl; by right|].
  destruct (Hl (pos, id, made) ltac:(by left)) as [n Hn]. cbn [fst snd] in Hn. cbn [partition_expanded]. unfold get_node. rewrite Hn, E1. cbn [mbind option_bind].
  assert (∀ y, y ∈ ex → y ∈ (pos, id, made) :: l ∧ ∃ n, nodes_of s !! y.1.2 = Some n ∧ node_expanded n = true) as Hex'.
  { intros y Hy. destruct (Hex y Hy). split; [by right|done]. }
  assert (∀ y, y ∈ un → y ∈ (pos, id, made) :: l ∧ ∃ n, nodes_of s !! y.1.2 = Some n ∧ node_expanded n = false) as Hun'.
  { intros y Hy. destruct (Hun y Hy). split; [by right|done]. }
  destruct (node_expanded n) eqn:Ex; eexists _, _; (split; [done|]); split_and!.
  - intros y [->|Hy]%elem_of_cons; [left; by left|]. destruct (Hall y Hy); [left; by right|by right].
  - intros y [->|Hy]%elem_of_cons; [|by apply Hex']. split; [by left|by exists n].
  - done.
  - intros y [->|Hy]%elem_of_cons; [right; by left|]. destruct (Hall y Hy); [by left|right; by right].
  - done.
  - intros y [->|Hy]%elem_of_cons; [|by apply Hun']. split; [by left|by exists n].
Qed.

(** A child that is not expanded: it is expanded, then walked. *)
Lemma expand_walk_ok fuel G done s c path sp n :
  tree_inv G done None s → all_dead done s → cursor_ok s c → placed G s (cursor_node c) path sp →
  nodes_of s !! cursor_node c = Some n → node_dead n = false → node_expanded n = false → ready None (cursor_node c) n →
  height sp + potential G s < fuel →
  ∃ s1 r s' G' done', expand c s = Some (Some sp, s1) ∧ walk edge_default config default_policy fuel c sp s1 = Some (r, s') ∧
    outcome G G' done done' s s' (cursor_node c) r.
Proof.
  intros Hinv Had Hc Hpl Hn Hd Hx Hr Hfuel. pose proof Hpl as (_ & Hg & Hlt).
  destruct (expand_ok edge_default config height root Hnarrow Hfit G done s c path sp n Hinv) as (s1 & G1 & n1 & E1 & Hinv1 & Hev1 & Hp1 & Hn1 & Hd1 & Hx1); try done; [apply Hc|].
  exists s1. pose proof (placed_evolves _ _ _ _ _ _ _ Hev1 Hpl) as Hpl1.
  destruct (walk_with_ok (walk_loop fuel) G1 done (Some (cursor_node c)) s1 c path sp n1) as (r & s2 & G2 & done2 & E2 & Ho); try done.
  - by right.
  - by eapply all_dead_evolves.
  - by eapply cursor_ok_evolves.
  - intros Hne Hinv1'. apply (walk_loop_ok fuel G1 done s1 c path sp); try done; [by eapply all_dead_evolves|by eapply cursor_ok_evolves|lia].
  - exists r, s2, G2, done2. split; [done|]. split; [done|]. eapply outcome_after; [exact Hev1| |exact Ho].
    right. split; [done|]. intros (n' & Hn' & Hd'). congruence.
Qed.

(** The children of an expanded node are ready. *)
Lemma expanded_child_ready G done (s : Store) id n pos e child m g :
  tree_inv G done None s → G !! id = Some g → nodes_of s !! id = Some n → node_expanded n = true → node_children n !! pos = Some e →
  edge_node e = Some child → nodes_of s !! child = Some m → ready None child m.
Proof.
  intros Hinv Hg Hn Hx He Hc Hm. pose proof (ok_expanded _ _ _ _ _ _ _ _ _ (inv_nodes _ _ _ _ _ _ Hinv id g n Hg Hn) Hx) as Hall.
  rewrite Forall_lookup in Hall. destruct (Hall pos e He) as (child' & m' & gm & Hc' & Hm' & _ & Hr).
  rewrite Hc in Hc'. injection Hc' as <-. rewrite Hm in Hm'. by injection Hm' as <-.
Qed.

(** A child that was not expanded. *)
Lemma unexpanded_attempt fuel G done s c path sp n pos id made m0 :
  tree_inv G done None s → all_dead done s → cursor_ok s c → placed G s (cursor_node c) path sp →
  nodes_of s !! cursor_node c = Some n → node_expanded n = true → child_listed G s (cursor_node c) (pos, id, made) →
  nodes_of s !! id = Some m0 → node_expanded m0 = false → height sp + potential G s < S fuel →
  ∃ o s' G' done',
    (let c := move_to c PolicyDefault (Z.of_nat pos) id in
     let! (candidate, s) := expand c s in
     match candidate with
     | Some candidate =>
       let! (r, s) := walk edge_default config default_policy fuel c candidate s in Some (Return r, s)
     | None => Some (Retry c, s)
     end) = Some (o, s') ∧ attempt_ok G G' done done' s s' (cursor_node c) o.
Proof.
  intros Hinv Had Hc Hpl Hn Hx Hl Hm0 Hx0 Hfuel.
  destruct (picked_child G done s c path sp pos id made Hinv Hc Hpl Hl) as (a & spc & m & Ha & Happ & _ & Hplc & Hm & Hdm & Hndc & Hh & Hcm).
  rewrite Hm in Hm0. injection Hm0 as ->. pose proof Hl as (n' & e & _ & _ & _ & Hn' & He & Hce & _). cbn [fst snd] in *.
  rewrite Hn in Hn'. injection Hn' as <-. destruct Hpl as (_ & Hg & _).
  pose proof (expanded_child_ready G done s _ n pos e id m0 _ Hinv Hg Hn Hx He Hce Hm) as Hr.
  destruct (expand_walk_ok fuel G done s (move_to c PolicyDefault (Z.of_nat pos) id) (path ++ [a]) spc m0)
    as (s1 & r & s2 & G2 & done2 & E1 & E2 & Ho); try done; [cbn [cursor_node move_to]; lia|].
  cbn zeta. rewrite E1. cbn [mbind option_bind]. rewrite E2. cbn [mbind option_bind]. eexists (Return r), s2, G2, done2. split; [done|].
  eapply attempt_child; [apply evolves_refl|done|exact Hndc|exact Ho].
Qed.

(** A child that was expanded is not an implementation: those are dead. *)
Lemma expanded_attempt fuel G done s c path sp pos id made m0 :
  (∀ G done s c path sp n, tree_inv G done None s → all_dead done s → cursor_ok s c → placed G s (cursor_node c) path sp →
     list_actions sp ≠ [] → nodes_of s !! cursor_node c = Some n → node_expanded n = true → height sp + potential G s < fuel →
     ∃ r s' G' done', select_intree fuel c s = Some (r, s') ∧ outcome G G' done done' s s' (cursor_node c) r) →
  tree_inv G done None s → all_dead done s → cursor_ok s c → placed G s (cursor_node c) path sp →
  child_listed G s (cursor_node c) (pos, id, made) → nodes_of s !! id = Some m0 → node_expanded m0 = true → height sp + potential G s < S fuel →
  ∃ o s' G' done',
    (let c := move_to c PolicyBandit (Z.of_nat pos) id in
     let! n := get_node id s in
     let! _ := rassert (node_expanded n) in
     if is_implementation n then Some (Retry c, s)
     else let! (r, s) := select_intree fuel c s in Some (Return r, s)) = Some (o, s') ∧ attempt_ok G G' done done' s s' (cursor_node c) o.
Proof.
  intros IH Hinv Had Hc Hpl Hl Hm0 Hx0 Hfuel.
  destruct (picked_child G done s c path sp pos id made Hinv Hc Hpl Hl) as (a & spc & m & Ha & Happ & _ & Hplc & Hm & Hdm & Hndc & Hh & Hcm).
  rewrite Hm in Hm0. injection Hm0 as ->. cbn zeta. unfold get_node. rewrite Hm. cbn [mbind option_bind]. rewrite Hx0. cbn [rassert mbind option_bind].
  pose proof Hplc as (_ & Hgc & _).
  assert (is_implementation m0 = false) as Himp.
  { destruct (is_implementation m0) eqn:Ei; [|done]. exfalso.
    pose proof (ok_implementation _ _ _ _ _ _ _ _ _ (inv_nodes _ _ _ _ _ _ Hinv id _ m0 Hgc Hm) Hx0 Ei ltac:(done)) as Hd. by rewrite Hdm in Hd. }
  rewrite Himp. rewrite (implementation_spec G done None s id _ spc m0 Hinv Hgc Hm) in Himp. apply bool_decide_eq_false in Himp.
  destruct (IH G done s (move_to c PolicyBandit (Z.of_nat pos) id) (path ++ [a]) spc m0) as (r & s' & G' & done' & -> & Ho); try done; [lia|].
  cbn [mbind option_bind]. eexists (Return r), s', G', done'. split; [done|].
  eapply attempt_child; [apply evolves_refl|done|exact Hndc|exact Ho].
Qed.

(** Steps that keep the tree, before an attempt. *)
Lemma attempt_after G G1 G2 done done' s s1 s2 id o :
  evolves G G1 s s1 → potential G1 s1 ≤ potential G s → ¬ dead_at s1 id → attempt_ok G1 G2 done done' s1 s2 id o → attempt_ok G G2 done done' s s2 id o.
Proof.
  intros Hev Hp Hnd. destruct o as [r|c]; cbn [attempt_ok].
  - intros Ho. eapply outcome_after; [exact Hev| |exact Ho]. right. split; [done|]. by intros ?.
  - intros (H1 & H2 & H3 & H4 & -> & H6). split_and!; try done; [by eapply evolves_trans|lia].
Qed.

(** What is known in the body of the loop. *)
Definition intree_ready (G : Ghost) (done : list nat) (s : Store) (c : NodeCursor) (path : list Action) (sp : Space) : Prop :=
  tree_inv G done None s ∧ all_dead done s ∧ cursor_ok s c ∧ at_node G s (cursor_node c) path sp ∧
  ∃ n, nodes_of s !! cursor_node c = Some n ∧ node_expanded n = true.

Lemma intree_placed G done s c path sp : intree_ready G done s c path sp → placed G s (cursor_node c) path sp ∧ ¬ dead_at s (cursor_node c).
Proof.
  intros (_ & _ & _ & (n & Hn & Hg & Hd & Hlt) & _). split; [by split; [eexists|]|]. intros (n' & Hn' & Hd'). congruence.
Qed.

Lemma intree_ready_step G G' done s s' c path sp :
  step_ok config height root G G' done None s s' → intree_ready G done s c path sp → intree_ready G' done s' c path sp.
Proof.
  intros [Hinv' Hev Hk _] (Hinv & Had & Hc & Hat & n & Hn & Hx). split; [done|]. split; [by eapply all_dead_evolves|].
  split; [by eapply cursor_ok_evolves|]. split; [eapply at_node_keeps; [exact Hinv|exact Hev|exact Hk|exact Hat]|].
  destruct (ev_nodes _ _ _ _ Hev _ n Hn) as (n' & Hn' & He). exists n'. split; [done|by apply (ev_expanded _ _ He)].
Qed.

Definition expanded_is (b : bool) (s : Store) (y : nat * nat * option Space) : Prop :=
  ∃ m, nodes_of s !! y.1.2 = Some m ∧ node_expanded m = b.

Lemma intree_pick policy G done s c path sp sub :
  policy_ok policy → intree_ready G done s c path sp → (∀ y, y ∈ sub → child_listed G s (cursor_node c) y) →
  ∃ r s', pick policy c sub s = Some (r, s') ∧ step_ok config height root G G done None s s' ∧ intree_ready G done s' c path sp ∧
    (∀ y, child_listed G s (cursor_node c) y → child_listed G s' (cursor_node c) y ∧ (∀ b, expanded_is b s y → expanded_is b s' y)) ∧
    match r with
    | Some (pos, id, child, index) => (pos, id, child) ∈ sub ∧ index = Z.of_nat pos
    | None => sub = []
    end.
Proof.
  intros Hpol Hready Hl. pose proof Hready as (Hinv & Had & Hc & Hat & _). destruct (intree_placed _ _ _ _ _ _ Hready) as [Hpl _].
  destruct (pick_some_ok policy G done s c path sp sub) as (r & s' & E1 & St & Hmove & Hr); try done.
  exists r, s'. split; [done|]. split; [done|]. split; [by eapply intree_ready_step|]. split; [|done].
  intros y Hy. split; [by apply Hmove|]. intros b (m & Hm & Hb).
  destruct Hy as (_ & _ & m0 & g & spc & _ & _ & _ & Hm0 & Hg & Hd & Hlt & _). rewrite Hm in Hm0. injection Hm0 as <-.
  destruct St as [_ _ Hk _]. destruct (Hk _ m (space_bound spc) Hm Hd) as (m' & Hm' & _ & Hx & _); [by rewrite (bounds_of config root G done None s Hinv _ m _ Hm Hg)|done|].
  exists m'. split; [done|]. by rewrite Hx.
Qed.

(** The body of the loop, once the children are listed. *)
Lemma intree_attempt fuel G done s c path sp l ex un :
  (∀ G done s c path sp n, tree_inv G done None s → all_dead done s → cursor_ok s c → placed G s (cursor_node c) path sp →
     list_actions sp ≠ [] → nodes_of s !! cursor_node c = Some n → node_expanded n = true → height sp + potential G s < fuel →
     ∃ r s' G' done', select_intree fuel c s = Some (r, s') ∧ outcome G G' done done' s s' (cursor_node c) r) →
  intree_ready G done s c path sp → list_actions sp ≠ [] → height sp + potential G s < S fuel →
  (∀ pos, pos < length (list_actions sp) → child_seen G s (cursor_node c) pos l) → (∀ y, y ∈ l → child_listed G s (cursor_node c) y) →
  partition_expanded l s = Some (ex, un) →
  ∃ o s' G' done', (∀ k : Outcome → Store → option (result (Space * Trace) Error * Store),
    (let! (picked, s) := pick default_policy c un s in
     let! (outcome, s) :=
       match picked with
       | Some (_, id, _, index) =>
         let c := move_to c PolicyDefault index id in
         let! (candidate, s) := expand c s in
         match candidate with
         | Some candidate => let! (r, s) := walk edge_default config default_policy fuel c candidate s in Some (Return r, s)
         | None => Some (Retry c, s)
         end
       | None =>
         let! _ := rassert (none_live un s) in
         let! (picked, s) := pick tree_policy c ex s in
         match picked with
         | Some (_, id, _, index) =>
           let c := move_to c PolicyBandit index id in
           let! n := get_node id s in
           let! _ := rassert (node_expanded n) in
           if is_implementation n then Some (Retry c, s)
           else let! (r, s) := select_intree fuel c s in Some (Return r, s)
         | None =>
           let! _ := rassert (none_live ex s) in
           let! s := kill (cursor_node c) s in
           Some (Retry c, s)
         end
       end in
     k outcome s) = k o s') ∧ attempt_ok G G' done done' s s' (cursor_node c) o.
Proof.
  intros IH Hready Hne Hfuel Hseen Hl Hpart. destruct (partition_ok l s) as (ex' & un' & Hpart' & Hall & Hex & Hun).
  { intros y Hy. destruct (Hl y Hy) as (? & ? & ? & ? & ? & ? & ? & ? & ? & _). by eexists. }
  rewrite Hpart in Hpart'. injection Hpart' as <- <-.
  destruct (intree_pick default_policy G done s c path sp un) as (picked & s1 & -> & St1 & Hready1 & Hmove1 & Hpick1); [done..|intros y Hy; by apply Hl, Hun|].
  cbn [mbind option_bind]. pose proof St1 as [_ Hev1 _ Hp1]. pose proof Hready1 as (Hinv1 & Had1 & Hc1 & Hat1 & n1 & Hn1 & Hx1).
  destruct (intree_placed _ _ _ _ _ _ Hready1) as [Hpl1 Hnd1]. destruct picked as [[[[pos id] made] index]|].
  { destruct Hpick1 as [Hin ->]. destruct (Hun _ Hin) as [Hinl Hexp]. destruct (Hmove1 _ (Hl _ Hinl)) as [Hl1 Hb].
    destruct (Hb false Hexp) as (m & Hm & Hxm).
    destruct (unexpanded_attempt fuel G done s1 c path sp n1 pos id made m) as (o & s2 & G2 & done2 & E2 & Ho); try done; [lia|].
    exists o, s2, G2, done2. cbn [mbind option_bind] in E2. rewrite E2. split; [done|]. by eapply attempt_after. }
  subst un. cbn [none_live forallb rassert mbind option_bind].
  destruct (intree_pick tree_policy G done s1 c path sp ex) as (picked & s2 & -> & St2 & Hready2 & Hmove2 & Hpick2); [done..|intros y Hy; by apply Hmove1, Hl, Hex|].
  cbn [mbind option_bind]. pose proof (step_ok_trans config height root _ _ _ _ _ _ _ _ St1 St2) as [Hinv2 Hev2 _ Hp2].
  pose proof Hready2 as (_ & Had2 & Hc2 & Hat2 & n2 & Hn2 & Hx2). destruct (intree_placed _ _ _ _ _ _ Hready2) as [Hpl2 Hnd2].
  destruct picked as [[[[pos id] made] index]|].
  - destruct Hpick2 as [Hin ->]. destruct (Hex _ Hin) as [Hinl Hexp]. destruct (Hmove1 _ (Hl _ Hinl)) as [Hl1 Hb1].
    destruct (Hmove2 _ Hl1) as [Hl2 Hb2]. destruct (Hb2 true (Hb1 true Hexp)) as (m & Hm & Hxm).
    destruct (expanded_attempt fuel G done s2 c path sp pos id made m IH) as (o & s3 & G3 & done3 & E3 & Ho); try done; [lia|].
    exists o, s3, G3, done3. cbn [mbind option_bind] in E3. rewrite E3. split; [done|]. by eapply attempt_after.
  - subst ex. cbn [none_live forallb rassert mbind option_bind]. destruct Hat2 as (n2' & Hn2' & Hg2 & Hd2 & _). rewrite Hn2 in Hn2'. injection Hn2' as <-.
    assert (l = []) as ->.
    { destruct l as [|y l]; [done|]. destruct (Hall y ltac:(by left)) as [Hy|Hy]; by apply elem_of_nil in Hy. }
    destruct (attempt_kill G G done s2 s2 c path sp n2) as (s3 & -> & Ho); try done; [apply evolves_refl| |].
    + intros pos Hpos. eapply child_seen_evolves; [exact Hev2|reflexivity|by apply Hseen].
    + cbn [mbind option_bind]. eexists (Retry c), s3, G, done. split; [done|]. by eapply attempt_after.
Qed.

(** The node is expanded and has children: the assertions hold. *)
Lemma select_intree_asserts fuel G done s c path sp n :
  tree_inv G done None s → placed G s (cursor_node c) path sp → list_actions sp ≠ [] → nodes_of s !! cursor_node c = Some n →
  node_expanded n = true → select_intree fuel c s = intree_loop edge_default config default_policy tree_policy fuel c s.
Proof.
  intros Hinv (_ & Hg & _) Hne Hn Hx. unfold Mcts.select_intree, select_intree_with, get_node. rewrite Hn. cbn [mbind option_bind].
  rewrite Hx. cbn [rassert mbind option_bind]. rewrite (implementation_spec G done None s _ path sp n Hinv Hg Hn), (bool_decide_false _ Hne). done.
Qed.

Lemma select_intree_ok fuel G done s c path sp n :
  tree_inv G done None s → all_dead done s → cursor_ok s c → placed G s (cursor_node c) path sp → list_actions sp ≠ [] →
  nodes_of s !! cursor_node c = Some n → node_expanded n = true → height sp + potential G s < fuel →
  ∃ r s' G' done', select_intree fuel c s = Some (r, s') ∧ outcome G G' done done' s s' (cursor_node c) r.
Proof.
  revert G done s c path sp n. induction fuel as [|fuel IH]; intros G done s c path sp n Hinv Had Hc Hpl Hne Hn Hx Hfuel; [lia|].
  rewrite (select_intree_asserts (S fuel) G done s c path sp n) by done. cbn [intree_loop].
  destruct (checked G done s c path sp n Hinv Had Hc Hpl Hn) as [(e & -> & Ho)|(-> & Hd & Hat)]; cbn [mbind option_bind].
  { by exists (RErr e), s, G, done. }
  assert (¬ dead_at s (cursor_node c)) as Hnd by (intros (n' & Hn' & Hd'); congruence).
  destruct (list_ok G done s c path sp n None) as (l & s1 & G1 & -> & St1 & Seen & List); [done|done|done|done|done|by right|].
  cbn [mbind option_bind]. pose proof St1 as [_ Hev1 _ Hp1].
  assert (intree_ready G1 done s1 c path sp) as Hready1.
  { eapply intree_ready_step; [exact St1|]. split; [done|]. split; [done|]. split; [done|]. split; [done|]. by exists n. }
  destruct (partition_ok l s1) as (ex & un & Hpart & _).
  { intros y Hy. destruct (List y Hy) as (? & ? & ? & ? & ? & ? & ? & ? & ? & _). by eexists. }
  rewrite Hpart. cbn [mbind option_bind].
  destruct (intree_attempt fuel G1 done s1 c path sp l ex un IH Hready1 Hne) as (o & s2 & G2 & done2 & E2 & Ho); try done; [lia|].
  rewrite E2. eapply checkpoint_ok; [exact Hnd|by eapply attempt_after; [exact Hev1|done| |exact Ho]; apply (intree_placed _ _ _ _ _ _ Hready1)|].
  intros c' Hc' Hnode Hinv2 Had2 Hev2 Hp2. rewrite <-Hnode. destruct (ev_nodes _ _ _ _ Hev2 _ n Hn) as (n' & Hn' & He). rewrite <-Hnode in Hn'.
  assert (placed G2 s2 (cursor_node c') path sp) as Hpl2 by (rewrite Hnode; by eapply placed_evolves).
  rewrite <-(select_intree_asserts fuel G2 done s2 c' path sp n' Hinv2 Hpl2 Hne Hn') by (by apply (ev_expanded _ _ He)).
  apply (IH G2 done s2 c' path sp n'); try done; [by apply (ev_expanded _ _ He)|lia].
Qed.
End descent.
