(* ===== verification/MctsSearch.v ===== *)
(** * The Monte-Carlo search

    The theorems on the operations of the store [MctsStore]: exploring never panics and
    ends, it returns every implementation below the cut once, and nothing else. *)
From S2P Require Import Prelude Types Utils Orders Float64 Config Candidates Rollout MctsPolicies Mcts MctsInvariant MctsWalk MctsDescent.
From Stdlib Require Import Floats.SpecFloat.

Section search.
Context {Space Act : Type} `{SearchSpaceOps Space Act} {R E : Type} `{Rng R} (edge_default : E).
Context (config : BanditConfig) (height : Space → nat) (root : Space).
Context (default_policy tree_policy : TreePolicy R E).
Notation Action := (ActionEx Act).
Notation Candidate := (Candidate Space Act).
Notation Store := (@MctsStore Space Act R E).
Notation Node := (@Node Space Act E).
Notation list_actions := (list_actions config).
Notation Ghost := (@Ghost Space Act).
Context (Hnarrow : actions_narrow config height) (Hfit : actions_fit config).
Context (Hdefault : policy_ok default_policy) (Htree : policy_ok tree_policy).
Notation tree_inv := (@tree_inv Space Act _ R E config root).
Notation node_ok := (@node_ok Space Act _ R E config root).
Notation potential := (@potential Space Act _ R E config height).
Notation placed := (@placed Space Act _ R E).
Notation mcts_explore := (@mcts_explore Space Act _ R E edge_default config default_policy tree_policy).
Notation mcts_commit_evaluation := (@mcts_commit_evaluation Space Act R E tree_policy).

(** ** Actions *)
(** The actions, each among those listed, lead from a space to another. *)
Inductive leads : Space → list Action → Space → Prop :=
| LeadsNil s : leads s [] s
| LeadsStep s a s' acts l : a ∈ list_actions s → apply_action s a = Some s' → leads s' acts l → leads s (a :: acts) l.

Lemma leads_snoc s acts s' a l : leads s acts s' → a ∈ list_actions s' → apply_action s' a = Some l → leads s (acts ++ [a]) l.
Proof. induction 1; intros Ha Happ; cbn; [eapply LeadsStep; [done|done|apply LeadsNil]|eapply LeadsStep; eauto]. Qed.

Lemma ghost_leads G done x (s : Store) id acts sp : tree_inv G done x s → G !! id = Some (acts, Some sp) → leads root acts sp.
Proof.
  intros Hinv. revert acts sp. induction (lt_wf id) as [id _ IH]; intros acts sp Hg.
  destruct (node_ghost config root G done x s id _ Hinv Hg) as (n & Hn).
  pose proof (ok_parent _ _ _ _ _ _ _ _ _ (inv_nodes _ _ _ _ _ _ Hinv id _ n Hg Hn)) as Hp.
  destruct (node_parent n) as [[p ix]|]; [|destruct Hp as [_ [= -> ->]]; apply LeadsNil].
  destruct Hp as (Hlt & path & sp' & pos & a & Hgp & _ & Ha & [= -> Happ]).
  eapply leads_snoc; [by apply (IH p Hlt)|by eapply list_elem_of_lookup_2|done].
Qed.

(** The actions of a node are read on the path to the root. *)
Lemma rev_actions_ok G done x (s : Store) fuel id acts o :
  tree_inv G done x s → G !! id = Some (acts, o) → length acts < fuel → rev_actions fuel id s = Some (reverse acts).
Proof.
  intros Hinv. revert id acts o. induction fuel as [|fuel IH]; intros id acts o Hg Hfuel; [lia|].
  destruct (node_ghost config root G done x s id _ Hinv Hg) as (n & Hn). cbn [rev_actions]. unfold get_node. rewrite Hn. cbn [mbind option_bind].
  pose proof (ok_parent _ _ _ _ _ _ _ _ _ (inv_nodes _ _ _ _ _ _ Hinv id _ n Hg Hn)) as Hp.
  destruct (node_parent n) as [[p ix]|]; [|by destruct Hp as [_ [= -> ->]]].
  destruct Hp as (Hlt & path & sp' & pos & a & Hgp & -> & Ha & [= -> Happ]).
  destruct (node_ghost config root G done x s p _ Hinv Hgp) as (m & Hm). rewrite Hm. cbn [mbind option_bind].
  pose proof (ok_children _ _ _ _ _ _ _ _ _ (inv_nodes _ _ _ _ _ _ Hinv p _ m Hgp Hm)) as Hch. cbn in Hch.
  rewrite Nat2Z.id. rewrite <-Hch, list_lookup_fmap in Ha. destruct (node_children m !! pos) as [e|]; [|done]. injection Ha as <-.
  cbn [mbind option_bind]. rewrite length_app in Hfuel. cbn in Hfuel. rewrite (IH p path (Some sp') Hgp) by lia. cbn [mbind option_bind].
  by rewrite reverse_app.
Qed.

Lemma finish_explore_ok G done x (s : Store) path leaf acts sp :
  tree_inv G done x s → G !! leaf = Some (acts, Some sp) →
  finish_explore sp (path, leaf) s = Some (with_actions sp (space_bound sp) acts, ((path, leaf), restart_id s)).
Proof.
  intros Hinv Hg. unfold finish_explore, node_actions, get_node. cbn [snd].
  destruct (node_ghost config root G done x s leaf _ Hinv Hg) as (n & Hn). rewrite Hn. cbn [mbind option_bind].
  pose proof (bounds_of config root G done x s Hinv leaf n _ Hn Hg) as Hb. cbn in Hb. rewrite Hb. cbn [mbind option_bind].
  pose proof (ok_depth _ _ _ _ _ _ _ _ _ (inv_nodes _ _ _ _ _ _ Hinv leaf _ n Hg Hn)) as Hd. cbn in Hd.
  rewrite (rev_actions_ok G done x s _ leaf acts (Some sp) Hinv Hg) by lia. cbn [fmap option_fmap option_map mbind option_bind].
  by rewrite reverse_involutive.
Qed.

(** ** Exploring *)
Definition explored (G G' : Ghost) (done done' : list nat) (s s' : Store) (r : option (Candidate * Payload)) : Prop :=
  tree_inv G' done' None s' ∧ all_dead done' s' ∧ evolves G G' s s' ∧
  match r with
  | Some (candidate, (path, leaf, restart)) =>
    done' = leaf :: done ∧ leaf ∉ done ∧ potential G' s' < potential G s ∧ path_ok s' path ∧
    ∃ acts sp, G' !! leaf = Some (acts, Some sp) ∧ candidate = with_actions sp (space_bound sp) acts ∧
      list_actions sp = [] ∧ (space_bound sp < store_cut s)%f64
  | None => done' = done ∧ potential G' s' ≤ potential G s ∧ (store_stop s = true ∨ dead_at s' 0)
  end.

Lemma explored_after G G1 G2 done done' s s1 s2 r :
  evolves G G1 s s1 → potential G1 s1 ≤ potential G s → explored G1 G2 done done' s1 s2 r → explored G G2 done done' s s2 r.
Proof.
  intros Hev Hp (H1 & H2 & H3 & H4). split; [done|]. split; [done|]. split; [by eapply evolves_trans|].
  destruct r as [[cand [[path leaf] restart]]|].
  - rewrite (ev_cut _ _ _ _ Hev) in H4. destruct H4 as (? & ? & ? & ? & ?). split_and!; try done. lia.
  - rewrite (ev_stop _ _ _ _ Hev) in H4. destruct H4 as (? & ? & ?). split_and!; try done. lia.
Qed.

Lemma root_ghost G done x s : tree_inv G done x s → G !! 0 = Some ([], Some root).
Proof. intros Hinv. by destruct (inv_root _ _ _ _ _ _ Hinv) as (n & _ & Hg & _). Qed.

(** A live root: it is expanded, or the tree is descended. *)
Lemma root_outcome fuel G done s c n :
  c = new_cursor s →
  tree_inv G done None s → all_dead done s → nodes_of s !! 0 = Some n → node_dead n = false → (space_bound root < store_cut s)%f64 →
  height root + potential G s < fuel →
  ∃ r s' G' done', outcome config height root G G' done done' s s' 0 r ∧
    ∀ k : result (Space * Trace) Error → Store → option (option (Candidate * Payload) * Store),
    (let! (evaluated, s) :=
       (if node_expanded n then Some (None, s) else
        let! (candidate, s) := expand edge_default config c s in
        match candidate with
        | Some candidate =>
          let! (r, s) := walk edge_default config default_policy fuel c candidate s in Some (Some r, s)
        | None => Some (None, s)
        end) in
     let! (r, s) :=
       match evaluated with
       | Some r => Some (r, s)
       | None => select_intree edge_default config default_policy tree_policy fuel c s
       end in
     k r s) = k r s'.
Proof.
  intros -> Hinv Had Hn Hd Hlt Hfuel. pose proof (root_ghost _ _ _ _ Hinv) as Hg.
  assert (cursor_ok s (new_cursor s)) as Hc by (split; [done|split; [done|by apply Forall_nil]]).
  assert (placed G s 0 [] root) as Hpl by (by split; [eexists|]).
  destruct (node_expanded n) eqn:Hx.
  - assert (list_actions root ≠ []) as Hne.
    { intros Hnil. pose proof (implementation_spec config root G done None s 0 _ root n Hinv Hg Hn) as Himp. rewrite (bool_decide_true _ Hnil) in Himp.
      pose proof (ok_implementation _ _ _ _ _ _ _ _ _ (inv_nodes _ _ _ _ _ _ Hinv 0 _ n Hg Hn) Hx Himp ltac:(done)) as Hd'. by rewrite Hd in Hd'. }
    destruct (select_intree_ok edge_default config height root default_policy tree_policy Hnarrow Hfit Hdefault Htree fuel G done s (new_cursor s) [] root n)
      as (r & s' & G' & done' & E1 & Ho); try done.
    exists r, s', G', done'. split; [done|]. intros k. cbn [mbind option_bind]. by rewrite E1.
  - assert (ready None 0 n) as Hr.
    { destruct (inv_root _ _ _ _ _ _ Hinv) as (n' & Hn' & _ & Hcase). rewrite Hn in Hn'. injection Hn' as <-.
      destruct Hcase as [?|[?|[Hcand|?]]]; [by left|by right; left|right; right; left; by eexists|done]. }
    destruct (expand_walk_ok edge_default config height root default_policy Hnarrow Hfit Hdefault fuel G done s (new_cursor s) [] root n)
      as (s1 & r & s' & G' & done' & E1 & E2 & Ho); try done.
    exists r, s', G', done'. split; [done|]. intros k. rewrite E1. cbn [mbind option_bind]. by rewrite E2.
Qed.

Lemma mcts_explore_ok fuel G done s :
  tree_inv G done None s → all_dead done s → S (height root + potential G s) < fuel →
  ∃ r s' G' done', mcts_explore fuel s = Some (r, s') ∧ explored G G' done done' s s' r.
Proof.
  revert G done s. induction fuel as [|fuel IH]; intros G done s Hinv Had Hfuel; [lia|].
  cbn [Mcts.mcts_explore]. destruct (inv_root _ _ _ _ _ _ Hinv) as (n & Hn & Hg & Hcase).
  destruct (cut_node_inv config height root G done None s 0 _ n Hinv Hg Hn) as (b & s1 & E1 & Hinv1 & Hev1 & _ & Hp1 & _ & Hb & _).
  unfold cursor_do_cut. cbn [cursor_cut cursor_node new_cursor]. rewrite E1. cbn [mbind option_bind]. destruct b.
  { exists None, s1, G, done. split; [done|]. split; [done|]. split; [by eapply all_dead_evolves|]. split; [done|].
    split; [done|]. split; [done|]. by right. }
  destruct Hb as (-> & Hl & sp & [= <-] & Hlt). destruct (live_spec config root G done None s 0 _ n Hinv Hg Hn Hl) as (Hd & _).
  unfold get_node. rewrite Hn. cbn [mbind option_bind].
  destruct (root_outcome fuel G done s _ n eq_refl Hinv Had Hn Hd Hlt) as (r & s1 & G1 & done1 & Ho & Hk); [lia|].
  rewrite Hk. clear Hk. destruct Ho as (Hinv2 & Had2 & Hev2 & Hr). destruct r as [[cand [path leaf]]|[c|]].
  - destruct Hr as (-> & Hnew & Hp & (acts & Hgl) & Hnil & Hltc & Hpath).
    rewrite (finish_explore_ok G1 _ None s1 path leaf acts cand Hinv2 Hgl). cbn [mbind option_bind].
    eexists _, s1, G1, (leaf :: done). split; [done|]. split; [done|]. split; [done|]. split; [done|]. split_and!; try done.
    by exists acts, cand.
  - destruct Hr as (-> & _ & Hp). assert (potential G1 s1 < potential G s) as Hless.
    { destruct Hp as [?|[_ (n' & Hn' & Hd')]]; [done|congruence]. }
    destruct (IH G1 done s1 Hinv2 Had2) as (r & s2 & G2 & done2 & -> & Ho); [lia|].
    exists r, s2, G2, done2. split; [done|]. eapply explored_after; [exact Hev2|lia|exact Ho].
  - destruct Hr as (-> & Hs & Hp). exists None, s1, G1, done. split; [done|]. split; [done|]. split; [done|]. split; [done|].
    split; [done|]. split; [done|]. by left.
Qed.

(** ** The other operations of the store *)
Lemma update_cut_ok G done (s : Store) cut :
  is_nan (store_cut s) = false → tree_inv G done None s →
  is_nan (store_cut (mcts_update_cut cut s)) = false ∧ tree_inv G done None (mcts_update_cut cut s).
Proof.
  intros Hnan Hinv. split; [cbn; unfold f64_min; by destruct (is_nan cut) eqn:Ec, (SFltb cut (store_cut s)); rewrite ?Hnan|].
  destruct Hinv as [H1 H2 H3]. constructor; [done| |done]. intros id g n Hg Hn.
  destruct (H2 id g n Hg Hn) as [K1 K2 K3 K4 K5 K6 K7 K8 K9 K10 K11]. constructor; try done.
  intros Hd sp acts l Hsp Hr. apply (K11 Hd sp acts l Hsp). eapply reach_mono; [|exact Hr].
  intros b Hb. cbn in Hb. destruct (is_nan cut) eqn:Ec; [unfold f64_min in Hb; by rewrite Ec in Hb|]. by apply (f64_min_le cut (store_cut s) b Ec Hnan) in Hb as [_ Hb].
Qed.

Lemma stop_ok G done (s : Store) : tree_inv G done None s → tree_inv G done None (mcts_stop_exploration s).
Proof. intros [H1 H2 H3]. constructor; [done| |done]. intros id g n Hg Hn. destruct (H2 id g n Hg Hn). by constructor. Qed.

Context (Hback : ∀ data eval, is_Some (backpropagate tree_policy data eval)).

Lemma backpropagate_edge_ok G done (s : Store) eval step :
  tree_inv G done None s → path_ok s [step] →
  ∃ s', backpropagate_edge tree_policy eval s step = Some s' ∧ step_ok config height root G G done None s s' ∧ restart_id s' = restart_id s.
Proof.
  intros Hinv Hstep. destruct step as [[policy id] ix]. apply Forall_cons_1 in Hstep as [(n & pos & Hn & E1 & Hpos) _].
  cbn [fst snd] in *. subst ix.
  assert (step_ok config height root G G done None s s) as Hrefl by (by apply step_ok_refl).
  destruct policy; [|by exists s]. cbn [backpropagate_edge]. unfold get_node. rewrite Hn. cbn [mbind option_bind].
  destruct (node_expanded n); [|by exists s]. rewrite Nat2Z.id. destruct (lookup_lt_is_Some_2 _ _ Hpos) as [e He]. rewrite He. cbn [mbind option_bind].
  destruct (Hback (edge_data e) eval) as [data ->]. cbn [mbind option_bind]. rewrite (update_edge_spec _ _ _ s n e Hn He).
  eexists. split; [done|]. destruct (ghost_node config root G done None s id n Hinv Hn) as (g & Hg).
  destruct (edge_inv config height root G done None s id g n pos e (set_edge_data data e) Hinv Hg Hn He) as (Hinv' & Hev & _ & Hk & Hp).
  { by constructor. }
  { intros ch Hch. by left. }
  split; [|done]. constructor; [done|done|done|].
  rewrite (node_work_data config height g n pos e data He) in Hp. lia.
Qed.

Lemma commit_ok G done (s : Store) (payload : Payload) eval :
  tree_inv G done None s → path_ok s payload.1.1 →
  ∃ s', mcts_commit_evaluation payload eval s = Some s' ∧ step_ok config height root G G done None s s' ∧ restart_id s' = restart_id s.
Proof.
  intros Hinv Hpath. unfold Mcts.mcts_commit_evaluation. destruct (_ <? _).
  { exists s. split; [done|]. split; [by apply step_ok_refl|done]. }
  revert Hpath. generalize (if is_finite eval then Some eval else None). intros ev. generalize (payload.1.1). intros path.
  revert s Hinv. induction path as [|step path IH]; intros s Hinv Hpath.
  { exists s. split; [done|]. split; [by apply step_ok_refl|done]. }
  apply Forall_cons_1 in Hpath as [Hstep Hpath].
  destruct (backpropagate_edge_ok G done s ev step Hinv) as (s1 & E1 & St1 & Hr1); [by apply Forall_singleton|].
  destruct (IH s1) as (s2 & E2 & St2 & Hr2); [apply St1|eapply path_ok_evolves; [apply St1|exact Hpath]|].
  exists s2. cbn [foldM]. rewrite E1. cbn [mbind option_bind]. split; [done|]. split; [by eapply step_ok_trans|congruence].
Qed.

(** A new store. *)
Lemma mcts_new_ok rng :
  ∃ s, mcts_new edge_default config root rng = Some s ∧ tree_inv [([], Some root)] [] None s ∧
    potential [([], Some root)] s = weight config height root ∧ store_cut s = default INFINITY (initial_cut config) ∧ store_stop s = false.
Proof.
  unfold mcts_new, tree_node. rewrite (bool_decide_true (is_Some (Some root))) by (by eexists). rewrite orb_true_r. cbn [rassert mbind option_bind length].
  unfold store_candidate, update_node, get_node. cbn. eexists. split; [done|]. split; [|split; [|done]].
  - constructor; [done| |].
    + intros [|id] g n Hg Hn; [|done]. injection Hg as <-. injection Hn as <-. constructor; try done.
      * cbn. rewrite fmap_imap. apply list_eq. intros i. rewrite list_lookup_imap. by destruct (list_actions root !! i).
      * intros pos e. cbn. rewrite list_lookup_imap. destruct (list_actions root !! pos) as [act|] eqn:Ep; [|done].
        cbn. intros [= <-]. cbn. unfold wrap. apply Z.mod_small. apply lookup_lt_Some in Ep. pose proof (Hfit root). lia.
      * intros pos e c. cbn. rewrite list_lookup_imap. destruct (list_actions root !! pos); [|done]. cbn. by intros [= <-].
    + eexists. split; [done|]. split; [done|]. right. right. by left.
  - rewrite weight_unfold by done. unfold MctsInvariant.potential. cbn [nodes_of with_nodes work_of]. rewrite Nat.add_0_r.
    rewrite <-(sum_imap (edge_work config height root) (action_weight config height root)
      (λ ix action, mkEdge None (wrap 16 (Z.of_nat ix)) action edge_default)) by done. done.
Qed.
End search.
