(* ===== verification/MctsSession.v ===== *)
(** * Sessions of the Monte-Carlo search

    The calls on a store until a restart: what they return together, for a search of one
    worker. *)
From S2P Require Import Prelude Types Utils Orders Float64 Config Candidates Rollout MctsPolicies Mcts MctsGuard MctsInvariant MctsWalk MctsDescent MctsSearch.
From S2P Require Import SearchExample.
From Stdlib Require Import Floats.SpecFloat.

Section session.
Context {Space Act : Type} `{SearchSpaceOps Space Act} {R E : Type} `{Rng R} (edge_default : E).
Context (config : BanditConfig) (height : Space → nat) (root : Space).
Context (default_policy tree_policy : TreePolicy R E) (fuel : nat) (rng : R).
Notation Candidate := (Candidate Space Act).
Notation Store := (@MctsStore Space Act R E).
Notation list_actions := (list_actions config).
Notation mcts_explore := (@mcts_explore Space Act _ R E edge_default config default_policy tree_policy).
Notation mcts_commit_evaluation := (@mcts_commit_evaluation Space Act R E tree_policy).

(** The store, and the implementations that it returned. *)
Record Session := mkSession { store : Store; found : list (Candidate * Payload) }.

(** The node of an implementation. *)
Definition leaf_of (x : Candidate * Payload) : nat := x.2.1.2.

Inductive mcts_step : Session → Session → Prop :=
| StepExplore ss r s : mcts_explore fuel (store ss) = Some (r, s) → mcts_step ss (mkSession s (found ss ++ option_list r))
| StepUpdateCut ss cut : mcts_step ss (mkSession (mcts_update_cut cut (store ss)) (found ss))
| StepCommit ss x eval s :
  x ∈ found ss → mcts_commit_evaluation x.2 eval (store ss) = Some s → mcts_step ss (mkSession s (found ss))
| StepStop ss : mcts_step ss (mkSession (mcts_stop_exploration (store ss)) (found ss)).

(** The sessions that start with a new store. *)
Definition session (ss : Session) : Prop :=
  ∃ s, mcts_new edge_default config root rng = Some s ∧ rtc mcts_step (mkSession s []) ss.

Context (Hnarrow : actions_narrow config height) (Hfit : actions_fit config).
Context (Hdefault : policy_ok default_policy) (Htree : policy_ok tree_policy).
Context (Hback : ∀ data eval, is_Some (backpropagate tree_policy data eval)).
Context (Hcut : is_nan (default INFINITY (initial_cut config)) = false).
Context (Hfuel : S (height root + weight config height root) < fuel).
Notation tree_inv := (@tree_inv Space Act _ R E config root).
Notation potential := (@potential Space Act _ R E config height).

Definition found_ok (G : Ghost) (s : Store) (x : Candidate * Payload) : Prop :=
  path_ok s x.2.1.1 ∧ ∃ acts sp, G !! leaf_of x = Some (acts, Some sp) ∧ x.1 = with_actions sp (space_bound sp) acts.

Record session_inv (G : Ghost) (ss : Session) : Prop := {
  si_tree : tree_inv G (reverse (leaf_of <$> found ss)) None (store ss);
  si_dead : all_dead (reverse (leaf_of <$> found ss)) (store ss);
  si_cut : is_nan (store_cut (store ss)) = false;
  si_found : Forall (found_ok G (store ss)) (found ss);
  si_potential : potential G (store ss) + length (found ss) ≤ weight config height root
}.

Lemma found_ok_evolves G G' s s' l : evolves G G' s s' → Forall (found_ok G s) l → Forall (found_ok G' s') l.
Proof.
  intros Hev Hl. eapply Forall_impl; [exact Hl|]. intros x (Hp & acts & sp & Hg & Hx). split; [by eapply path_ok_evolves|].
  exists acts, sp. split; [by eapply evolves_ghost|done].
Qed.

(** What exploring returns at a reachable store. *)
Lemma session_explore G ss :
  session_inv G ss → ∃ r s' G', mcts_explore fuel (store ss) = Some (r, s') ∧
    explored config height root G G' (reverse (leaf_of <$> found ss)) (reverse (leaf_of <$> (found ss ++ option_list r))) (store ss) s' r.
Proof.
  intros [Hinv Had Hnan Hfound Hp].
  destruct (mcts_explore_ok edge_default config height root default_policy tree_policy Hnarrow Hfit Hdefault Htree fuel G _ (store ss) Hinv Had)
    as (r & s' & G' & done' & E1 & Hex); [lia|].
  exists r, s', G'. split; [done|].
  assert (done' = reverse (leaf_of <$> (found ss ++ option_list r))) as <-; [|done].
  destruct Hex as (_ & _ & _ & Hr). destruct r as [[cand [[path leaf] restart]]|].
  - destruct Hr as (-> & _). rewrite fmap_app, reverse_app. done.
  - destruct Hr as (-> & _). cbn [option_list]. by rewrite app_nil_r.
Qed.

Lemma session_step G ss ss' : session_inv G ss → mcts_step ss ss' → ∃ G', session_inv G' ss'.
Proof.
  intros Hinv Hstep. destruct Hstep as [ss r s E1|ss cut|ss x eval s Hx E1|ss].
  - destruct (session_explore G ss Hinv) as (r' & s' & G' & E2 & Hinv' & Had' & Hev & Hr). rewrite E1 in E2. injection E2 as <- <-.
    destruct Hinv as [_ _ Hnan Hfound Hp]. exists G'. constructor; cbn [store found]; [done|done|by rewrite (ev_cut _ _ _ _ Hev)| |].
    + apply Forall_app. split; [by eapply found_ok_evolves|]. destruct r as [[cand [[path leaf] restart]]|]; [|by constructor].
      destruct Hr as (_ & _ & _ & Hpath & acts & sp & Hg & -> & _). constructor; [|by constructor]. split; [done|]. by exists acts, sp.
    + rewrite length_app. destruct r as [[cand [[path leaf] restart]]|].
      * destruct Hr as (_ & _ & Hless & _). simpl. lia.
      * destruct Hr as (_ & Hless & _). simpl. lia.
  - destruct Hinv as [Hinv Had Hnan Hfound Hp]. destruct (update_cut_ok config root G _ (store ss) cut Hnan Hinv) as [Hnan' Hinv'].
    exists G. by constructor.
  - destruct Hinv as [Hinv Had Hnan Hfound Hp]. rewrite Forall_forall in Hfound. destruct (Hfound x Hx) as [Hpath _]. rewrite <-Forall_forall in Hfound.
    destruct (commit_ok config height root tree_policy Hback G _ (store ss) x.2 eval Hinv Hpath) as (s' & E2 & [Hinv' Hev _ Hp'] & _).
    rewrite E1 in E2. injection E2 as <-. exists G. constructor; cbn [store found]; [done|by eapply all_dead_evolves|by rewrite (ev_cut _ _ _ _ Hev)|by eapply found_ok_evolves|lia].
  - destruct Hinv as [Hinv Had Hnan Hfound Hp]. exists G. constructor; try done. by apply stop_ok.
Qed.

Lemma session_ok ss : session ss → ∃ G, session_inv G ss.
Proof.
  intros (s & E1 & Hrun). destruct (mcts_new_ok edge_default config height root Hnarrow Hfit rng) as (s0 & E2 & Hinv & Hp & Hc & _).
  rewrite E1 in E2. injection E2 as <-.
  assert (∃ G, session_inv G (mkSession s [])) as Hinit.
  { exists [([], Some root)]. constructor; cbn [store found]; [done| |by rewrite Hc|by apply Forall_nil|cbn [length]; lia]. by intros id Hid%elem_of_nil. }
  revert ss Hrun. refine (rtc_ind_r _ _ Hinit _). intros ss ss' _ Hstep [G HG]. by eapply session_step.
Qed.

Lemma total_explore_sound ss :
  session ss →
  ∃ r s, mcts_explore fuel (store ss) = Some (r, s) ∧
    match r with
    | Some (candidate, payload) =>
      leads config root (actions candidate) (space candidate) ∧ list_actions (space candidate) = [] ∧
      bound candidate = space_bound (space candidate) ∧ (bound candidate < store_cut (store ss))%f64 ∧
      depth candidate = length (actions candidate) ∧
      leaf_of (candidate, payload) ∉ leaf_of <$> found ss ∧ length (found ss) < weight config height root
    | None => True
    end.
Proof.
  intros (G & Hinv)%session_ok. destruct (session_explore G ss Hinv) as (r & s & G' & E1 & Hinv' & Had' & Hev & Hr).
  exists r, s. split; [done|]. destruct r as [[cand [[path leaf] restart]]|]; [|done].
  destruct Hr as (_ & Hnew & Hless & _ & acts & sp & Hg & -> & Hnil & Hlt). cbn [actions space bound depth with_actions].
  split; [by eapply ghost_leads|]. split; [done|]. split; [done|]. split; [done|]. split; [done|]. split; [by rewrite elem_of_reverse in Hnew|].
  pose proof (si_potential G ss Hinv) as Hp. lia.
Qed.

Lemma total_search_complete ss s acts l :
  session ss → mcts_explore fuel (store ss) = Some (None, s) → store_stop (store ss) = false →
  reach config (store_cut (store ss)) root acts l → ∃ x, x ∈ found ss ∧ x.1 = with_actions l (space_bound l) acts.
Proof.
  intros (G & Hinv)%session_ok E1 Hstop Hreach. destruct (session_explore G ss Hinv) as (r & s' & G' & E2 & Hinv' & Had' & Hev & Hr).
  rewrite E1 in E2. injection E2 as <- <-. destruct Hr as (_ & _ & [Hs|(n & Hn & Hd)]); [congruence|].
  rewrite app_nil_r in Hinv'. pose proof (root_ghost config root G' _ None s Hinv') as Hg.
  destruct (ok_completed _ _ _ _ _ _ _ _ _ (inv_nodes _ _ _ _ _ _ Hinv' 0 _ n Hg Hn) Hd root acts l) as (id & Hid & Hgl); [done|by rewrite (ev_cut _ _ _ _ Hev)|].
  rewrite elem_of_reverse in Hid. apply list_elem_of_fmap in Hid as (x & -> & Hx). exists x. split; [done|].
  pose proof (si_found G ss Hinv) as Hfound. rewrite Forall_forall in Hfound. destruct (Hfound x Hx) as (_ & acts' & sp & Hg' & Hx').
  pose proof (evolves_ghost _ _ _ _ _ _ Hev Hg') as Hg2.
  assert (Some (acts', Some sp) = Some (acts, Some l)) as [= -> ->] by exact (eq_trans (eq_sym Hg2) Hgl). done.
Qed.

Lemma total_commit_safe ss x eval :
  session ss → x ∈ found ss → ∃ s, mcts_commit_evaluation x.2 eval (store ss) = Some s.
Proof.
  intros (G & Hinv)%session_ok Hx. pose proof (si_found G ss Hinv) as Hfound. rewrite Forall_forall in Hfound. destruct (Hfound x Hx) as (Hpath & _).
  destruct (commit_ok config height root tree_policy Hback G _ (store ss) x.2 eval (si_tree G ss Hinv) Hpath) as (s & E1 & _). by exists s.
Qed.
End session.

(** ** Policies that may panic

    A session of policies that honour their contract is one of the total policies: as long
    as it goes on no policy panicked. *)
Section contracts.
Context {Space Act : Type} `{SearchSpaceOps Space Act} {R E : Type} `{Rng R} (edge_default : E).
Context (config : BanditConfig) (height : Space → nat) (root : Space).
Context (default_policy tree_policy : TreePolicy R E) (fuel : nat) (rng : R).
Context (D : E → Prop) (HD : D edge_default).
Context `{!PolicyOk D default_policy, !PolicyOk D tree_policy}.
Context (Hnarrow : actions_narrow config height) (Hfit : actions_fit config).
Context (Hcut : is_nan (default INFINITY (initial_cut config)) = false).
Context (Hfuel : S (height root + weight config height root) < fuel).
Notation session := (session edge_default config root).
Notation mcts_explore := (@mcts_explore Space Act _ R E edge_default config).
Notation mcts_commit_evaluation := (@mcts_commit_evaluation Space Act R E).
Notation total_session := (session (total_policy default_policy) (total_policy tree_policy) fuel rng).

Lemma total_explore s r s' :
  mcts_explore default_policy tree_policy fuel s = Some (r, s') →
  mcts_explore (total_policy default_policy) (total_policy tree_policy) fuel s = Some (r, s').
Proof.
  apply (explore_answers_as edge_default config (λ _, True) (λ _, True) I (λ _, I) default_policy tree_policy); try done; try apply answers_as_total.
  apply Forall_forall. intros n _. split; [|done]. by apply Forall_forall.
Qed.

Lemma session_total ss : session default_policy tree_policy fuel rng ss → total_session ss.
Proof.
  intros (s & Hs & Hrun). exists s. split; [exact Hs|]. eapply (rtc_congruence id); [|exact Hrun]. clear.
  intros ss ss' []; [apply StepExplore; by apply total_explore|apply StepUpdateCut| |apply StepStop].
  eapply StepCommit; [done|]. by apply commit_total.
Qed.

(** The data of the edges in a session. *)
Lemma session_data B ss :
  (∀ space, B (space_bound space)) → session default_policy tree_policy fuel rng ss → data_ok D B (store ss).
Proof.
  intros HB (s & Hs & Hrun). revert ss Hrun. refine (rtc_ind_r _ _ _ _).
  - cbn [store]. apply bind_Some in Hs as ([id s0] & H1 & H2). apply (tree_node_data edge_default config D B HD HB) in H1; [|by constructor].
    by apply (store_candidate_data D B) in H2.
  - intros ss ss' _ [ss1 r s1 E1|ss1 cut|ss1 x eval s1 _ E1|ss1] Hdata; cbn [store]; [|exact Hdata| |exact Hdata].
    + apply (explore_answers_as edge_default config D B HD HB default_policy tree_policy default_policy tree_policy) in E1 as [_ Hd];
        [exact Hd|by intros cut children rng1 r1 _|by intros cut children rng1 r1 _|apply pick_keeps_bound, pok_keeps|apply pick_keeps_bound, pok_keeps|exact Hdata].
    + apply commit_total in E1. by apply (commit_data D B tree_policy) in E1 as [_ Hd]; [|apply pok_backpropagate|].
Qed.

Lemma total_policies_ok : policy_ok (total_policy default_policy) ∧ policy_ok (total_policy tree_policy).
Proof. split; eapply total_policy_ok, pok_sound. Qed.

Lemma total_backpropagates data eval : is_Some (backpropagate (total_policy tree_policy) data eval).
Proof. by eexists. Qed.

(** C4: in every session, with any evaluations and any new cuts, and whatever the policies
    that honour their contract, exploring ends without a panic other than that of a policy:
    it returns when the policies answer on children with the data and the bounds that can
    be.  What it returns is an implementation that the actions of the candidate lead to
    from the root, whose bound is below the cut, and whose node was not returned before; it
    returns no more implementations than the weight of the root. *)
Theorem mcts_explore_sound ss B :
  session default_policy tree_policy fuel rng ss →
  (∀ r s, mcts_explore default_policy tree_policy fuel (store ss) = Some (r, s) →
    match r with
    | Some (candidate, payload) =>
      leads config root (actions candidate) (space candidate) ∧ list_actions config (space candidate) = [] ∧
      bound candidate = space_bound (space candidate) ∧ (bound candidate < store_cut (store ss))%f64 ∧
      depth candidate = length (actions candidate) ∧
      leaf_of (candidate, payload) ∉ leaf_of <$> found ss ∧ length (found ss) < weight config height root
    | None => True
    end) ∧
  ((∀ space, B (space_bound space)) → policy_answers D B default_policy → policy_answers D B tree_policy →
    is_Some (mcts_explore default_policy tree_policy fuel (store ss))).
Proof.
  intros Hss. pose proof (session_total ss Hss) as Htotal. destruct total_policies_ok as [Hd Ht].
  destruct (total_explore_sound edge_default config height root _ _ fuel rng Hnarrow Hfit Hd Ht total_backpropagates Hcut Hfuel ss Htotal)
    as (r & s & E1 & Hr). split.
  - intros r' s' E2%total_explore. rewrite E1 in E2. by injection E2 as <- <-.
  - intros HB Had Hat. pose proof (session_data B ss HB Hss) as Hdata.
    apply (explore_answers_as edge_default config D B HD HB _ _ default_policy tree_policy) in E1 as [-> _]; [by eexists|..|done];
      try (by apply total_answers_as); apply total_keeps, pick_keeps_bound, pok_keeps.
Qed.

(** C3: when exploring returns nothing and was not stopped, every implementation that the
    actions lead to through spaces below the cut was returned, with these actions.  The
    policies honour their contract; nothing is assumed of the panics. *)
Theorem mcts_search_complete ss s acts l :
  session default_policy tree_policy fuel rng ss →
  mcts_explore default_policy tree_policy fuel (store ss) = Some (None, s) → store_stop (store ss) = false →
  reach config (store_cut (store ss)) root acts l → ∃ x, x ∈ found ss ∧ x.1 = with_actions l (space_bound l) acts.
Proof.
  intros Htotal%session_total E1%total_explore. destruct total_policies_ok as [Hd Ht].
  by eapply (total_search_complete edge_default config height root _ _ fuel rng Hnarrow Hfit Hd Ht total_backpropagates Hcut Hfuel).
Qed.

(** C30: the evaluation of an implementation that was returned is recorded without a panic,
    however long after it was returned, for policies that honour their contract: the data
    of the edges is always such that the tree policy can be told of an evaluation. *)
Theorem mcts_commit_safe ss x eval :
  session default_policy tree_policy fuel rng ss → x ∈ found ss →
  ∃ s, mcts_commit_evaluation tree_policy x.2 eval (store ss) = Some s.
Proof.
  intros Hss Hx. pose proof (session_total ss Hss) as Htotal. destruct total_policies_ok as [Hd Ht].
  destruct (total_commit_safe edge_default config height root _ _ fuel rng Hnarrow Hfit Hd Ht total_backpropagates Hcut Hfuel ss x eval Htotal Hx)
    as [s Hs].
  apply (commit_data D (λ _, True) tree_policy) in Hs as [Hs _]; [by exists s|apply pok_backpropagate|by apply session_data].
Qed.
End contracts.


(** ** An example: the small search space *)
Definition small_bandit : BanditConfig := mkBanditConfig None true OrderApi DEFAULT_ORDERING tree_policy_default.

Lemma small_actions_narrow : actions_narrow small_bandit small_height.
Proof.
  intros s a s' Ha. destruct s; cbn in Ha; try by apply elem_of_nil in Ha.
  repeat (apply elem_of_cons in Ha as [->|Ha]; [cbn; intros E1; simplify_eq; cbn; lia|]). by apply elem_of_nil in Ha.
Qed.

Lemma small_actions_fit : actions_fit small_bandit.
Proof. intros s. destruct s; cbn; lia. Qed.

Section small.
Context {E : Type} (edge_default : E) (default_policy tree_policy : TreePolicy unit E).

Definition small_session : Session → Prop := session edge_default small_bandit SmallRoot default_policy tree_policy 10 ().

Definition small_explore := mcts_explore edge_default small_bandit default_policy tree_policy 10.

(** Explores some times, and records an evaluation of each candidate. *)
Fixpoint small_run (n : nat) : option Session :=
  match n with
  | 0 => s ← mcts_new edge_default small_bandit SmallRoot (); Some (mkSession s [])
  | S n =>
    ss ← small_run n;
    '(r, s) ← small_explore (store ss);
    let ss := mkSession s (found ss ++ option_list r) in
    match r with
    | Some x => s ← mcts_commit_evaluation tree_policy x.2 (f64_of_Z (Z.of_nat (7 + n))) s; Some (mkSession s (found ss))
    | None => Some ss
    end
  end.

Lemma small_run_session n ss : small_run n = Some ss → small_session ss.
Proof.
  revert ss. induction n as [|n IH]; intros ss; cbn [small_run].
  - destruct (mcts_new edge_default small_bandit SmallRoot ()) as [s|] eqn:E1; [|done]. intros [= <-]. by exists s; split; [|apply rtc_refl].
  - intros (ss' & (s0 & E0 & Hrun)%IH & ([r s] & E2 & E1)%bind_Some)%bind_Some. exists s0. split; [done|].
    assert (rtc (mcts_step edge_default small_bandit default_policy tree_policy 10) (mkSession s0 []) (mkSession s (found ss' ++ option_list r))) as Hr.
    { eapply rtc_r; [exact Hrun|]. by apply StepExplore. }
    destruct r as [x|]; [|by injection E1 as <-]. apply bind_Some in E1 as (s' & E3 & [= <-]).
    eapply rtc_r; [exact Hr|]. eapply (StepCommit _ _ _ _ _ (mkSession s (found ss' ++ [x]))); [|exact E3].
    apply elem_of_app. right. by left.
Qed.
End small.

(** The policies of the default configuration: weighted random draws, and TAG; and two that
    always answer. *)
#[local] Notation random_policy := (new_node_order_policy (R := unit) TAGStats OrderWeightedRandom).
#[local] Notation small_tag := (tag_policy (R := unit) (λ _, f64_of_Z 1) (mkTAGConfig 2 (f64_of_Z 1))).
#[local] Notation api_policy := (new_node_order_policy (R := unit) CommonStats OrderApi).
#[local] Notation robin_policy := (round_robin_policy (R := unit)).

Lemma tag_data_default : tag_data tag_stats_default.
Proof. constructor. Qed.

Lemma mcts_explore_sound_witness : ∃ ss, small_run common_stats_default api_policy robin_policy 1 = Some ss ∧
  (actions ∘ fst <$> found ss) = [[RegularAction 0]] ∧
  is_Some (small_explore common_stats_default api_policy robin_policy (store ss)) ∧
  ∀ candidate payload s, small_explore common_stats_default api_policy robin_policy (store ss) = Some (Some (candidate, payload), s) →
    leads small_bandit SmallRoot (actions candidate) (space candidate).
Proof.
  destruct (small_run common_stats_default api_policy robin_policy 1) as [ss|] eqn:Ess; [|vm_compute in Ess; done].
  exists ss. split; [done|]. split; [vm_compute in Ess; injection Ess as <-; reflexivity|].
  destruct (mcts_explore_sound common_stats_default small_bandit small_height SmallRoot api_policy robin_policy 10 () (λ _, True) I
    small_actions_narrow small_actions_fit eq_refl ltac:(vm_compute; lia) ss (λ _, True)) as [Hr Ha].
  - by apply small_run_session in Ess.
  - split; [by apply Ha; [|apply api_answers|apply round_robin_answers]|]. intros candidate payload s E1. by apply Hr in E1 as [Hl _].
Defined.

Lemma mcts_search_complete_witness : ∃ ss s, small_run tag_stats_default random_policy small_tag 3 = Some ss ∧
  small_explore tag_stats_default random_policy small_tag (store ss) = Some (None, s) ∧ store_stop (store ss) = false ∧
  ∃ x, x ∈ found ss ∧ x.1 = with_actions SmallRight (space_bound SmallRight) [RegularAction 3].
Proof.
  eexists _, _. split; [by vm_compute|]. split; [by vm_compute|]. split; [done|].
  eapply (mcts_search_complete tag_stats_default small_bandit small_height SmallRoot random_policy small_tag 10 () tag_data
    small_actions_narrow small_actions_fit eq_refl ltac:(vm_compute; lia)).
  - by apply (small_run_session tag_stats_default random_policy small_tag 3).
  - by vm_compute.
  - done.
  - apply (ReachStep _ _ _ _ SmallRight); [by vm_compute|cbn; set_solver|done|]. by apply ReachLeaf.
Defined.

Lemma mcts_commit_safe_witness : ∃ ss x, small_run tag_stats_default random_policy small_tag 2 = Some ss ∧ x ∈ found ss ∧
  ∃ s, mcts_commit_evaluation small_tag x.2 (f64_of_Z 7) (store ss) = Some s.
Proof.
  assert (∃ ss x, small_run tag_stats_default random_policy small_tag 2 = Some ss ∧ x ∈ found ss) as (ss & x & Hss & Hx).
  { eexists _, _. split; [by vm_compute|]. by left. }
  exists ss, x. split; [done|]. split; [done|].
  apply (mcts_commit_safe tag_stats_default small_bandit small_height SmallRoot random_policy small_tag 10 () tag_data tag_data_default
    small_actions_narrow small_actions_fit eq_refl ltac:(vm_compute; lia)); [|exact Hx].
  by apply (small_run_session tag_stats_default random_policy small_tag 2).
Defined.
