(* ===== verification/Choices.v ===== *)
(** * The choices of the search space (src/search_space/choices.exh and the files it
    includes)

    The enums that Telamon describes to telamon-gen, with the constants that are printed
    for them, the choices that the rest of the program reads, and the interface of the
    printed domain ([ChoiceDomains]), which the printed store implements. *)
From S2P Require Import Prelude Types Orders Domains SparseVec Operands Function GenSets Filters FilterSemantics EnumDomains SolverStore.
#[local] Open Scope nat_scope.

(** ** Enums *)

(** [order]: how two statements are ordered. *)
Definition order_enum : Enum :=
  mkEnum "Order" None [("BEFORE", None); ("AFTER", None); ("INNER", None); ("OUTER", None); ("MERGED", None)]
    [("NESTED", ({["INNER"; "OUTER"]}, None)); ("ORDERED", ({["BEFORE"; "AFTER"]}, None))]
    (Some [("BEFORE", "AFTER"); ("INNER", "OUTER")])%string.

(** [dim_kind]: how an iteration dimension is implemented. *)
Definition dim_kind_enum : Enum :=
  mkEnum "DimKind" None
    [("LOOP", None); ("UNROLL", None); ("INNER_VECTOR", None); ("OUTER_VECTOR", None); ("BLOCK", None); ("THREAD", None)]
    [("VECTOR", ({["INNER_VECTOR"; "OUTER_VECTOR"]}, None)); ("PARALLEL", ({["BLOCK"; "THREAD"; "VECTOR"]}, None));
     ("SEQUENTIAL", ({["LOOP"; "UNROLL"]}, None))]
    None%string.

(** [dim_mapping]: the valid mappings between two dimensions. *)
Definition dim_mapping_enum : Enum :=
  mkEnum "DimMapping" None [("NOT_MAPPED", None); ("UNROLL_MAP", None); ("THREAD_MAP", None)]
    [("MAPPED", ({["UNROLL_MAP"; "THREAD_MAP"]}, None))] None%string.

(** [mem_space]: where a memory block is located. *)
Definition mem_space_enum : Enum := mkEnum "MemSpace" None [("GLOBAL", None); ("SHARED", None)] [] None%string.

(** [thread_mapping]: how thread dimensions are mapped on the device. *)
Definition thread_mapping_enum : Enum :=
  mkEnum "ThreadMapping" None [("NOT_THREADS", None); ("MAPPED", None); ("MAPPED_OUT", None); ("MAPPED_IN", None)]
    [] (Some [("MAPPED_OUT", "MAPPED_IN")])%string.

(** The constant printed for a value or an alias. *)
Definition printed_const `{KeyRemoval} (e : Enum) (x : string) : Z := default ed_failed (enum_const e x).

Module Order.
Section consts.
Context `{KeyRemoval}.
Definition BEFORE : Z := printed_const order_enum "BEFORE".
Definition AFTER : Z := printed_const order_enum "AFTER".
Definition INNER : Z := printed_const order_enum "INNER".
Definition OUTER : Z := printed_const order_enum "OUTER".
Definition MERGED : Z := printed_const order_enum "MERGED".
End consts.
End Order.

Module DimKind.
Section consts.
Context `{KeyRemoval}.
Definition LOOP : Z := printed_const dim_kind_enum "LOOP".
Definition UNROLL : Z := printed_const dim_kind_enum "UNROLL".
Definition BLOCK : Z := printed_const dim_kind_enum "BLOCK".
Definition THREAD : Z := printed_const dim_kind_enum "THREAD".
Definition VECTOR : Z := printed_const dim_kind_enum "VECTOR".
Definition SEQUENTIAL : Z := printed_const dim_kind_enum "SEQUENTIAL".
End consts.
End DimKind.

Module DimMappings.
Section consts.
Context `{KeyRemoval}.
Definition UNROLL_MAP : Z := printed_const dim_mapping_enum "UNROLL_MAP".
Definition MAPPED : Z := printed_const dim_mapping_enum "MAPPED".
Definition ALL : Z := ed_all dim_mapping_enum.
End consts.
End DimMappings.

Module MemSpace.
Section consts.
Context `{KeyRemoval}.
Definition GLOBAL : Z := printed_const mem_space_enum "GLOBAL".
Definition SHARED : Z := printed_const mem_space_enum "SHARED".
End consts.
End MemSpace.

Module ThreadMapping.
Section consts.
Context `{KeyRemoval}.
Definition MAPPED : Z := printed_const thread_mapping_enum "MAPPED".
End consts.
End ThreadMapping.

(** ** Objects

    The identifiers that index the domains. *)
Inductive IrObj : Type :=
| ObjStmt (id : StmtId)
| ObjDim (id : DimId)
| ObjMem (id : MemId)
| ObjInst (id : InstId).

#[global] Instance IrObj_eq_dec : EqDecision IrObj.
Proof. solve_decision. Defined.

Definition obj_key (o : IrObj) : nat * nat * nat :=
  match o with
  | ObjStmt (SInst i) => (0, 0, i)
  | ObjStmt (SDim i) => (0, 1, i)
  | ObjDim i => (1, 0, i)
  | ObjMem i => (2, 0, i)
  | ObjInst i => (3, 0, i)
  end.

Definition obj_of_key (k : nat * nat * nat) : IrObj :=
  match k with
  | (0, 0, i) => ObjStmt (SInst i)
  | (0, _, i) => ObjStmt (SDim i)
  | (1, _, i) => ObjDim i
  | (2, _, i) => ObjMem i
  | (_, _, i) => ObjInst i
  end.

Lemma obj_of_key_key o : obj_of_key (obj_key o) = o.
Proof. by destruct o as [[]| | |]. Qed.

#[global] Instance IrObj_countable : Countable IrObj := inj_countable' obj_key obj_of_key obj_of_key_key.

#[global] Instance IrObj_inhabited : Inhabited IrObj := populate (ObjDim 0).

(** The derived order of the identifiers: instructions before dimensions. *)
Definition key_cmp (a b : nat * nat * nat) : comparison :=
  match Nat.compare a.1.1 b.1.1 with
  | Eq => match Nat.compare a.1.2 b.1.2 with Eq => Nat.compare a.2 b.2 | c => c end
  | c => c
  end.

Lemma key_cmp_cases a b :
  match key_cmp a b with
  | Eq => a = b
  | Lt => a.1.1 < b.1.1 ∨ a.1.1 = b.1.1 ∧ (a.1.2 < b.1.2 ∨ a.1.2 = b.1.2 ∧ a.2 < b.2)
  | Gt => b.1.1 < a.1.1 ∨ a.1.1 = b.1.1 ∧ (b.1.2 < a.1.2 ∨ a.1.2 = b.1.2 ∧ b.2 < a.2)
  end.
Proof.
  destruct a as [[a1 a2] a3], b as [[b1 b2] b3]. unfold key_cmp; cbn.
  destruct (Nat.compare_spec a1 b1), (Nat.compare_spec a2 b2), (Nat.compare_spec a3 b3); subst; auto with lia.
Qed.

#[global, program] Instance IrObj_ord : RustOrd IrObj := {| rcmp x y := key_cmp (obj_key x) (obj_key y) |}.
Next Obligation.
  intros x y. pose proof (key_cmp_cases (obj_key x) (obj_key y)) as Hc. split.
  - intros E. rewrite E in Hc. by rewrite <-(obj_of_key_key x), Hc, obj_of_key_key.
  - intros <-. destruct (key_cmp (obj_key x) (obj_key x)); [done|exfalso; lia..].
Qed.
Next Obligation.
  intros x y. cbn beta. generalize (obj_key x), (obj_key y). clear. intros a b.
  pose proof (key_cmp_cases a b) as H1. pose proof (key_cmp_cases b a) as H2.
  destruct (key_cmp a b) eqn:E1, (key_cmp b a) eqn:E2; cbn; try done; exfalso; subst; lia.
Qed.
Next Obligation.
  intros x y z. cbn beta. generalize (obj_key x), (obj_key y), (obj_key z). clear. intros a b c.
  pose proof (key_cmp_cases a b) as H1. pose proof (key_cmp_cases b c) as H2. pose proof (key_cmp_cases a c) as H3.
  intros E1 E2. rewrite E1 in H1. rewrite E2 in H2. destruct (key_cmp a c); [subst c|done|]; exfalso; lia.
Qed.

(** ** Sets and choices *)
Definition statements_def : SetDef :=
  setdef_build "Statements" None None ReverseNone
    [(ItemType, "dyn ir::Statement"); (IdType, "ir::StmtId"); (ItemGetter, "$fun.statement($id)");
     (IdGetter, "$item.stmt_id()"); (Iter, "$fun.statements()"); (Prefix, "stmt"); (NewObjs, "$objs.statements")] []%string.

Definition statements_set : GSet := mkSet statements_def None None.

Definition dimensions_def : SetDef :=
  setdef_build "Dimensions" None (Some statements_set) ReverseNone
    [(ItemType, "ir::Dimension"); (IdType, "ir::DimId"); (ItemGetter, "$fun.dim($id)"); (IdGetter, "$item.id()");
     (Iter, "$fun.dims()"); (Prefix, "dim"); (FromSuperset, "$item.as_dim()"); (NewObjs, "$objs.dimensions")]
    ["Instructions"]%string.

Definition dimensions_set : GSet := mkSet dimensions_def None None.

Definition static_dims_def : SetDef :=
  setdef_build "StaticDims" None (Some dimensions_set) ReverseNone
    [(ItemType, "ir::Dimension"); (IdType, "ir::DimId"); (ItemGetter, "$fun.dim($id)"); (IdGetter, "$item.id()");
     (Iter, "$fun.static_dims()"); (Prefix, "dim"); (FromSuperset, "$item.possible_sizes().map(|_| $item)");
     (NewObjs, "$objs.static_dims")] []%string.

Definition static_dims_set : GSet := mkSet static_dims_def None None.

Definition memory_regions_def : SetDef :=
  setdef_build "MemoryRegions" None None ReverseNone
    [(ItemType, "ir::mem::Block"); (IdType, "ir::MemId"); (ItemGetter, "$fun.mem_block($id)");
     (IdGetter, "$item.mem_id()"); (Iter, "$fun.mem_blocks()"); (Prefix, "mem"); (NewObjs, "$objs.mem_blocks")] []%string.

Definition memory_regions_set : GSet := mkSet memory_regions_def None None.

(** A choice, before the constraints give it filters. *)
Definition declared_choice (name : string) (args : ChoiceArguments) (def : ChoiceDef) (fragile : ValueSet) : Choice :=
  mkChoice name None args def [] [] [] fragile.

Definition enum_choice (name : string) (args : ChoiceArguments) (enum : Enum) : Choice :=
  declared_choice name args (DefEnum (enum_name enum)) (VSEnum (enum_name enum) ∅ ∅).

Definition size_universe : Code := mkCode "unwrap!($dim.possible_sizes())" [(Arg 0, "dim")]%string.

Definition size_choice : Choice :=
  declared_choice "size" (Plain [("dim", static_dims_set)]) (DefNumber size_universe)
    (VSInteger false ∅ ∅ (TyNumericSet size_universe))%string.

Definition order_choice : Choice := enum_choice "order" (Symmetric ("lhs", "rhs") statements_set true) order_enum.
Definition dim_kind_choice : Choice := enum_choice "dim_kind" (Plain [("dim", dimensions_set)]) dim_kind_enum.
Definition dim_mapping_choice : Choice :=
  enum_choice "dim_mapping" (Symmetric ("lhs", "rhs") dimensions_set false) dim_mapping_enum.
Definition mem_space_choice : Choice := enum_choice "mem_space" (Plain [("mem", memory_regions_set)]) mem_space_enum.
Definition thread_mapping_choice : Choice :=
  enum_choice "thread_mapping" (Symmetric ("lhs", "rhs") static_dims_set true) thread_mapping_enum.

(** The choices that the rest of the program reads. *)
Definition choices_desc : IrDesc :=
  mkIrDesc
    [("size", size_choice); ("dim_kind", dim_kind_choice); ("order", order_choice); ("dim_mapping", dim_mapping_choice);
     ("thread_mapping", thread_mapping_choice); ("mem_space", mem_space_choice)]
    [("DimKind", dim_kind_enum); ("Order", order_enum); ("DimMapping", dim_mapping_enum);
     ("ThreadMapping", thread_mapping_enum); ("MemSpace", mem_space_enum)]
    [("Statements", (statements_def, mkOnNewObject [])); ("Dimensions", (dimensions_def, mkOnNewObject []));
     ("StaticDims", (static_dims_def, mkOnNewObject [])); ("MemoryRegions", (memory_regions_def, mkOnNewObject []))] []%string.

(** ** The domain as the rest of the program reads it

    The getters of the printed store, for the choices above. *)
Class ChoiceDomains (D : Type) := {
  get_order : D → StmtId → StmtId → option Z;
  get_dim_kind : D → DimId → option Z;
  get_thread_mapping : D → DimId → DimId → option Z;
  get_mem_space : D → MemId → option Z;
  get_size : D → DimId → option NumericSet
}.

(** A partially specified implementation. *)
Record SearchSpace (D : Type) := mkSearchSpace {
  ir_instance : Function LoweringMap;
  domain : D
}.
Arguments mkSearchSpace {D}.
Arguments ir_instance {D}.
Arguments domain {D}.

Section store.
Context `{Profile, KeyRemoval} (ir : IrDesc).

Definition enum_bits (d : Dom) : option Z := match d with DomEnum bits => Some bits | _ => None end.
Definition numeric_set (d : Dom) : option NumericSet := match d with DomNum s => Some s | _ => None end.

Definition store_choices : ChoiceDomains (Store IrObj) := {|
  get_order store lhs rhs := store_get ir "order" [ObjStmt lhs; ObjStmt rhs] store ≫= enum_bits;
  get_dim_kind store dim := store_get ir "dim_kind" [ObjDim dim] store ≫= enum_bits;
  get_thread_mapping store lhs rhs := store_get ir "thread_mapping" [ObjDim lhs; ObjDim rhs] store ≫= enum_bits;
  get_mem_space store mem := store_get ir "mem_space" [ObjMem mem] store ≫= enum_bits;
  get_size store dim := store_get ir "size" [ObjDim dim] store ≫= numeric_set
|}.
End store.

(** * Facts *)

Lemma choices_declared :
  Forall (λ c, choice_new (choice_name c.2) None (arguments c.2) (choice_def c.2) = Some c.2) (choices choices_desc).
Proof. repeat constructor. Qed.

(** ** The printed constants *)
Section constants.
Context `{KeyRemoval} (e : Enum) (He : enum_ok e).

Lemma printed_value x :
  x ∈ value_keys e → im_get x (enum_aliases e) = None →
  ed_wf e (printed_const e x) ∧ ∀ y, ed_has e (printed_const e x) y = bool_decide (y = x).
Proof.
  intros Hx Ha. destruct (value_const_spec e He x Hx) as (b & Hb & Hw & Hy).
  unfold printed_const, enum_const. cbn [alias_const]. rewrite Ha, Hb. done.
Qed.

Lemma printed_alias x values doc :
  im_get x (enum_aliases e) = Some (values, doc) → values ≠ ∅ →
  set_Forall (λ v, v ∈ value_keys e ∧ im_get v (enum_aliases e) = None) values →
  ed_wf e (printed_const e x) ∧ ∀ y, ed_has e (printed_const e x) y = bool_decide (y ∈ values).
Proof.
  intros Ha Hne Hv. destruct (union_of_values e He (elements values)) as (b & Hb & Hw & Hy).
  - by rewrite elements_empty_iff, leibniz_equiv_iff.
  - apply Forall_forall. intros v Hvv%elem_of_elements. by apply Hv.
  - assert (length (enum_aliases e) ≠ 0) as Hlen by (by destruct (enum_aliases e)).
    unfold printed_const, enum_const. cbn [alias_const]. rewrite Ha.
    assert (alias_const e (length (enum_aliases e)) <$> elements values = value_const e <$> elements values) as ->.
    { apply list_fmap_ext. intros i v Hvi%list_elem_of_lookup_2%elem_of_elements. destruct (length (enum_aliases e)); [done|].
      cbn. by rewrite (proj2 (Hv v Hvi)). }
    rewrite Hb. split; [done|]. intros y. cbn [default from_option]. rewrite Hy. apply bool_decide_ext. apply elem_of_elements.
Qed.
End constants.

Lemma order_enum_ok : enum_ok order_enum.
Proof. apply (bool_decide_unpack _). by vm_compute. Qed.

Lemma dim_kind_enum_ok : enum_ok dim_kind_enum.
Proof. apply (bool_decide_unpack _). by vm_compute. Qed.

Lemma dim_mapping_enum_ok : enum_ok dim_mapping_enum.
Proof. apply (bool_decide_unpack _). by vm_compute. Qed.

Lemma mem_space_enum_ok : enum_ok mem_space_enum.
Proof. apply (bool_decide_unpack _). by vm_compute. Qed.

Lemma thread_mapping_enum_ok : enum_ok thread_mapping_enum.
Proof. apply (bool_decide_unpack _). by vm_compute. Qed.

(** The constants of [order]: each holds its value alone. *)
Lemma order_const `{KeyRemoval} x :
  x ∈ ["BEFORE"; "AFTER"; "INNER"; "OUTER"; "MERGED"]%string →
  ed_wf order_enum (printed_const order_enum x) ∧
  ∀ y, ed_has order_enum (printed_const order_enum x) y = bool_decide (y = x).
Proof.
  intros Hx. apply printed_value; [apply order_enum_ok|done|].
  repeat (apply elem_of_cons in Hx as [->|Hx]; [done|]). by apply elem_of_nil in Hx.
Qed.

Lemma dim_kind_const `{KeyRemoval} x :
  x ∈ ["LOOP"; "UNROLL"; "INNER_VECTOR"; "OUTER_VECTOR"; "BLOCK"; "THREAD"]%string →
  ed_wf dim_kind_enum (printed_const dim_kind_enum x) ∧
  ∀ y, ed_has dim_kind_enum (printed_const dim_kind_enum x) y = bool_decide (y = x).
Proof.
  intros Hx. apply printed_value; [apply dim_kind_enum_ok|done|].
  repeat (apply elem_of_cons in Hx as [->|Hx]; [done|]). by apply elem_of_nil in Hx.
Qed.

Lemma dim_kind_vector `{KeyRemoval} :
  ed_wf dim_kind_enum DimKind.VECTOR ∧
  ∀ y, ed_has dim_kind_enum DimKind.VECTOR y = bool_decide (y = "INNER_VECTOR" ∨ y = "OUTER_VECTOR")%string.
Proof.
  destruct (printed_alias dim_kind_enum dim_kind_enum_ok "VECTOR" {["INNER_VECTOR"; "OUTER_VECTOR"]}%string None) as [Hw Hy];
    [done|set_solver|intros v [->%elem_of_singleton| ->%elem_of_singleton]%elem_of_union; (split; [by apply (bool_decide_unpack _); vm_compute|done])|].
  split; [done|]. intros y. rewrite Hy. apply bool_decide_ext. set_solver.
Qed.

Lemma dim_kind_sequential `{KeyRemoval} :
  ed_wf dim_kind_enum DimKind.SEQUENTIAL ∧
  ∀ y, ed_has dim_kind_enum DimKind.SEQUENTIAL y = bool_decide (y = "LOOP" ∨ y = "UNROLL")%string.
Proof.
  destruct (printed_alias dim_kind_enum dim_kind_enum_ok "SEQUENTIAL" {["LOOP"; "UNROLL"]}%string None) as [Hw Hy];
    [done|set_solver|intros v [->%elem_of_singleton| ->%elem_of_singleton]%elem_of_union; (split; [by apply (bool_decide_unpack _); vm_compute|done])|].
  split; [done|]. intros y. rewrite Hy. apply bool_decide_ext. set_solver.
Qed.

(** ** What the getters of orders guarantee *)

(** The domains of a search space that has not failed: the order of two statements seen
    from one of them is the inverse of the order seen from the other. *)
Class ChoiceDomainsOk (D : Type) `{Profile, KeyRemoval} `{ChoiceDomains D} := {
  domains_wf : D → Prop;
  order_wf d a b x : domains_wf d → get_order d a b = Some x → ed_wf order_enum x ∧ ed_is_failed x = false;
  order_flip d a b x : domains_wf d → a ≠ b → get_order d a b = Some x →
    ∃ y, get_order d b a = Some y ∧ ed_inverse order_enum x = Some y
}.

Lemma order_inverse `{Profile, KeyRemoval} a : ed_wf order_enum a →
  ∃ c, ed_inverse order_enum a = Some c ∧ ed_wf order_enum c ∧ ed_inverse order_enum c = Some a ∧
    ∀ x, x ∈ value_keys order_enum → ed_has order_enum c x = ed_has order_enum a (enum_inverse order_enum x).
Proof. intros Ha. eapply ed_inverse_exact; [apply order_enum_ok|cbn; lia|done|done|done]. Qed.

Lemma order_inverse_failed `{Profile, KeyRemoval} a c :
  ed_wf order_enum a → ed_inverse order_enum a = Some c → ed_is_failed c = ed_is_failed a.
Proof.
  intros Ha Hc. destruct (order_inverse a Ha) as (c' & Hc' & Wc & _ & Hx). rewrite Hc in Hc'. injection Hc' as <-.
  apply eq_iff_eq_true. rewrite !ed_failed_spec by (done || apply order_enum_ok). split; intros Hf x.
  - destruct (decide (x ∈ value_keys order_enum)) as [Hk|Hk].
    + rewrite <-(enum_inverse_involutive order_enum order_enum_ok x), <-Hx by by apply (enum_inverse_key order_enum order_enum_ok). apply Hf.
    + apply not_true_is_false. intros Ht. apply Hk. by eapply ed_has_key; [apply order_enum_ok|].
  - destruct (decide (x ∈ value_keys order_enum)) as [Hk|Hk]; [by rewrite Hx|].
    apply not_true_is_false. intros Ht. apply Hk. by eapply ed_has_key; [apply order_enum_ok|].
Qed.

(** The printed store: every order stored is a domain of the enum that has not failed. *)
Section store_ok.
Context `{Profile, KeyRemoval} (ir : IrDesc).

Definition order_declared : Prop :=
  (∃ ch names t, get_choice ir "order" = Some ch ∧ arguments ch = Symmetric names t true ∧ choice_def ch = DefEnum "Order") ∧
  get_enum ir "Order" = Some order_enum.

Definition orders_stored (store : Store IrObj) : Prop :=
  ∀ ids d, store_lookup store "order" ids = Some d → ∃ bits, d = DomEnum bits ∧ ed_wf order_enum bits ∧ ed_is_failed bits = false.

Lemma inverse_swapped_order ch names t bits : arguments ch = Symmetric names t true → choice_def ch = DefEnum "Order" →
  get_enum ir "Order" = Some order_enum → inverse_swapped ir ch true (DomEnum bits) = DomEnum <$> ed_inverse order_enum bits.
Proof. intros Harg Hdef Hen. unfold inverse_swapped, is_antisymmetric, choice_value_type. rewrite Harg, Hdef. cbn. by rewrite Hen. Qed.

Context (Hir : order_declared).

Lemma store_order_cases store a b x : orders_stored store → @get_order _ (store_choices ir) store a b = Some x →
  ∃ bits, ed_wf order_enum bits ∧ ed_is_failed bits = false ∧
    (rcmp (ObjStmt a) (ObjStmt b) ≠ Gt ∧ store_lookup store "order" [ObjStmt a; ObjStmt b] = Some (DomEnum bits) ∧ x = bits ∨
     rcmp (ObjStmt a) (ObjStmt b) = Gt ∧ store_lookup store "order" [ObjStmt b; ObjStmt a] = Some (DomEnum bits) ∧
       ed_inverse order_enum bits = Some x).
Proof using Hir.
  destruct Hir as [(ch & names & t & Hch & Harg & Hdef) Hen]. intros Hs Hx. cbn [get_order store_choices] in Hx.
  apply bind_Some in Hx as (d & Hx & Hd). unfold store_get in Hx. rewrite Hch in Hx. cbn [mbind option_bind] in Hx.
  unfold stored_ids, is_symmetric in Hx. rewrite Harg in Hx. cbn [mbind option_bind] in Hx.
  pose proof (λ bits, inverse_swapped_order ch names t bits Harg Hdef Hen) as Hinv.
  destruct (rcmp (ObjStmt a) (ObjStmt b)) eqn:Ec; cbn [mbind option_bind] in Hx;
    apply bind_Some in Hx as (d0 & Hl & Hv); destruct (Hs _ _ Hl) as (bits & -> & Hw & Hf); exists bits; (split; [done|split; [done|]]).
  - left. cbn in Hv. injection Hv as <-. injection Hd as <-. done.
  - left. cbn in Hv. injection Hv as <-. injection Hd as <-. done.
  - right. rewrite Hinv in Hv. apply fmap_Some in Hv as (c & Hc & ->). injection Hd as <-. done.
Qed.

Lemma store_order_get store a b bits : store_lookup store "order" [ObjStmt a; ObjStmt b] = Some (DomEnum bits) → ed_wf order_enum bits →
  (rcmp (ObjStmt a) (ObjStmt b) ≠ Gt → @get_order _ (store_choices ir) store a b = Some bits) ∧
  (rcmp (ObjStmt b) (ObjStmt a) = Gt → @get_order _ (store_choices ir) store b a = ed_inverse order_enum bits).
Proof using Hir.
  destruct Hir as [(ch & names & t & Hch & Harg & Hdef) Hen]. intros Hl Hw. cbn [get_order store_choices].
  unfold store_get. rewrite Hch. cbn [mbind option_bind]. unfold stored_ids, is_symmetric. rewrite Harg. split.
  - intros Hc. destruct (rcmp (ObjStmt a) (ObjStmt b)) eqn:Ec; [| |done]; cbn [mbind option_bind]; by rewrite Hl.
  - intros Hc. rewrite Hc. cbn [mbind option_bind]. rewrite Hl. cbn [mbind option_bind].
    rewrite (inverse_swapped_order ch names t bits Harg Hdef Hen).
    by destruct (ed_inverse order_enum bits).
Qed.

#[program] Definition store_choices_ok : @ChoiceDomainsOk (Store IrObj) _ _ (store_choices ir) :=
  @Build_ChoiceDomainsOk _ _ _ (store_choices ir) orders_stored _ _.
Next Obligation.
  intros store a b x Hs Hx. destruct (store_order_cases store a b x Hs Hx) as (bits & Hw & Hf & [(_ & _ & ->)|(_ & _ & Hi)]); [done|].
  destruct (order_inverse bits Hw) as (c & Hc & Wc & _). rewrite Hi in Hc. injection Hc as <-. split; [done|].
  by rewrite (order_inverse_failed bits x).
Qed.
Next Obligation.
  intros store a b x Hs Hne Hx. pose proof (rcmp_flip (ObjStmt a) (ObjStmt b)) as Hflip.
  destruct (store_order_cases store a b x Hs Hx) as (bits & Hw & Hf & [(Hc & Hl & ->)|(Hc & Hl & Hi)]).
  - destruct (store_order_get store a b bits Hl Hw) as [_ Hg]. destruct (order_inverse bits Hw) as (c & Hic & _).
    exists c. split; [|done]. rewrite Hg; [done|]. rewrite Hflip. destruct (rcmp (ObjStmt a) (ObjStmt b)) eqn:Ec; [|done|done].
    apply rcmp_eq in Ec. by injection Ec.
  - destruct (store_order_get store b a bits Hl Hw) as [Hg _]. destruct (order_inverse bits Hw) as (c & Hic & _ & Hback & _).
    exists bits. split; [|by congruence]. apply Hg. by rewrite Hflip, Hc.
Qed.
End store_ok.

Lemma choices_desc_order : order_declared choices_desc.
Proof. split; [|done]. by exists order_choice, ("lhs", "rhs")%string, statements_set. Qed.
