(* ===== verification/ModelSizes.v ===== *)
(** * Sizes in the performance model (src/model/size.rs)

    The values that a size can take when the sizes of some dimensions are not decided
    yet, as an interval ([bounds]) and by divisibility ([factors]). *)
From S2P Require Import Prelude VecSet Types Size Domains SparseVec Operands Objects Function Choices.
#[local] Open Scope Z_scope.

(** A span of values. *)
Record Range := mkRange { sr_min : Z; sr_max : Z }.

Definition RANGE_ZERO : Range := mkRange 0 0.
Definition RANGE_ONE : Range := mkRange 1 1.

Definition range_new_fixed (val : Z) : Range := mkRange val val.

Definition range_is_constrained (r : Range) : bool := sr_min r =? sr_max r.

(** A span of values by factors: a value is a multiple of [fr_gcd] and divides
    [fr_lcm]. *)
Record FactorRange := mkFactorRange { fr_gcd : Z; fr_lcm : Z }.

Definition FACTOR_ZERO : FactorRange := mkFactorRange 0 0.

Definition factor_new_fixed (val : Z) : FactorRange := mkFactorRange val val.

(** The greatest common divisor and the least common multiple of the crate [num], for
    unsigned integers of a width and, for the first, for big integers.  Where the least
    common multiple does not fit, the crate panics or wraps around. *)
Class NumInteger := {
  num_gcd : Z → Z → Z;
  num_lcm : Z → Z → Z → option Z;
  num_gcd_ok a b : 0 ≤ a → 0 ≤ b → num_gcd a b = Z.gcd a b;
  num_lcm_ok w a b : 0 ≤ a → 0 ≤ b → Z.lcm a b < 2 ^ w → num_lcm w a b = Some (Z.lcm a b)
}.

(** One that panics. *)
Definition checked_lcm (w a b : Z) : option Z := if in_width w (Z.lcm a b) then Some (Z.lcm a b) else None.

Lemma checked_lcm_ok w a b : 0 ≤ a → 0 ≤ b → Z.lcm a b < 2 ^ w → checked_lcm w a b = Some (Z.lcm a b).
Proof. intros _ _ Hlt. unfold checked_lcm. rewrite (proj2 (in_width_spec w (Z.lcm a b))); [done|]. split; [apply Z.lcm_nonneg|done]. Qed.

Definition stdlib_integer : NumInteger :=
  {| num_gcd := Z.gcd; num_lcm := checked_lcm; num_gcd_ok a b _ _ := eq_refl; num_lcm_ok := checked_lcm_ok |}.

(** What the context gives for a parameter, as a [u32]. *)
Class SizeContext (Ctx : Type) := { param_as_size : Ctx → string → option Z }.

(** [BigUint::to_u64]. *)
Definition to_u64 (x : Z) : option Z := if in_width 64 x then Some x else None.

Section sizes.
Context `{Profile, NumInteger} {D Ctx : Type} `{ChoiceDomains D, SizeContext Ctx}.
Context (space : SearchSpace D) (ctx : Ctx).

(** The domain of the size of a dimension, and its universe. *)
Definition size_domain (d : DimId) : option (NumericSet * list Z) :=
  size ← get_size (domain space) d;
  x ← dim d (ir_instance space);
  universe ← possible_sizes x;
  Some (size, universe).

Definition dim_bounds (d : DimId) : option Range :=
  '(size, universe) ← size_domain d;
  mn ← min_value size universe;
  mx ← max_value size universe;
  Some (mkRange mn mx).

Definition dim_factors (d : DimId) : option FactorRange :=
  '(size, universe) ← size_domain d;
  g ← NumericSets.gcd num_gcd size universe;
  l ← NumericSets.lcm (num_lcm 32) size universe;
  Some (mkFactorRange g l).

(** The product of the parameters and of the constant, in [u64]. *)
Definition known_factor (size : PartialSize) : option Z :=
  p ← foldM (λ acc p, x ← param_as_size ctx (param_name p); umul 64 acc x) (param_factors size) 1;
  umul 64 p (static_factor size).

(** The loops over the factors and over the divisors, on big integers. *)
Definition bounds_mul (total : Z * Z) (d : DimId) : option (Z * Z) :=
  size ← dim_bounds d; Some (total.1 * sr_min size, total.2 * sr_max size).

Definition bounds_div (total : Z * Z) (d : DimId) : option (Z * Z) :=
  size ← dim_bounds d;
  total_min ← udiv total.1 (num_gcd (sr_max size) total.1);
  total_max ← udiv total.2 (sr_min size);
  Some (total_min, total_max).

Definition bounds (size : PartialSize) : option Range :=
  factor ← known_factor size;
  total ← foldM bounds_mul (Size.dim_factors size) (factor, factor);
  '(total_min, total_max) ← foldM bounds_div (divisors size) total;
  rassert (negb (total_min =? 0)) ;;
  rassert (negb (total_max =? 0)) ;;
  mn ← to_u64 total_min;
  mx ← to_u64 total_max;
  Some (mkRange mn mx).

Definition factors_mul (total : Z * Z) (d : DimId) : option (Z * Z) :=
  size ← dim_factors d; Some (total.1 * fr_gcd size, total.2 * fr_lcm size).

Definition factors_div (total : Z * Z) (d : DimId) : option (Z * Z) :=
  size ← dim_factors d;
  total_gcd ← udiv total.1 (num_gcd (fr_lcm size) total.1);
  total_lcm ← udiv total.2 (fr_gcd size);
  Some (total_gcd, total_lcm).

Definition factors (size : PartialSize) : option FactorRange :=
  factor ← known_factor size;
  total ← foldM factors_mul (Size.dim_factors size) (factor, factor);
  '(total_gcd, total_lcm) ← foldM factors_div (divisors size) total;
  g ← to_u64 total_gcd;
  l ← to_u64 total_lcm;
  Some (mkFactorRange g l).
End sizes.

(** * Theorems *)

(** ** Divisibility *)

Lemma divide_cancel_gcd G d l Y : 0 < G → 0 < l → (d | l) → (G | d * Y) → (G / Z.gcd l G | Y).
Proof.
  intros HG Hl Hdl Hdv. set (h := Z.gcd d G). assert (0 < h) as Hh.
  { unfold h. pose proof (Z.gcd_nonneg d G). destruct (Z.eq_dec (Z.gcd d G) 0) as [E|]; [|lia]. apply Z.gcd_eq_0_r in E. lia. }
  assert (h | G) as HhG by apply Z.gcd_divide_r. assert (h | d) as Hhd by apply Z.gcd_divide_l.
  assert (G / h | Y) as HY.
  { apply (Z.gauss _ (d / h)).
    - destruct Hdv as [k Hk]. exists k. destruct HhG as [a Ha], Hhd as [b Hb].
      rewrite Ha, Hb, !Z.div_mul in * by lia. apply (Z.mul_reg_r _ _ h); [lia|]. lia.
    - rewrite Z.gcd_comm. by apply Z.gcd_div_gcd; [lia|]. }
  etrans; [|exact HY]. assert (h | Z.gcd l G) as [c Hc]. { apply Z.gcd_greatest; [by etrans|done]. }
  assert (0 < Z.gcd l G) as Hlg.
  { pose proof (Z.gcd_nonneg l G). destruct (Z.eq_dec (Z.gcd l G) 0) as [E|]; [|lia]. apply Z.gcd_eq_0_r in E. lia. }
  destruct (Z.gcd_divide_r l G) as [k Hk]. set (q := Z.gcd l G) in *.
  assert (G / q = k) as -> by (rewrite Hk; apply Z.div_mul; lia).
  assert (G / h = k * c) as ->; [|by exists c; lia].
  rewrite Hk, Hc. replace (k * (c * h)) with (k * c * h) by lia. apply Z.div_mul. lia.
Qed.

Lemma divide_quotient g d Y M : 0 < g → (g | d) → (d * Y | M) → (Y | M / g).
Proof.
  intros Hg [e ->] [k ->]. exists (k * e). replace (k * (e * g * Y)) with (k * e * Y * g) by lia. by rewrite Z.div_mul by lia.
Qed.

(** ** The sizes of the dimensions *)
#[local] Instance checked : Profile := debug_profile.

Section facts.
Context `{NumInteger} {D Ctx : Type} `{ChoiceDomains D, SizeContext Ctx}.
Context (space : SearchSpace D) (ctx : Ctx) (dimv : DimId → Z).

(** The domain of the size of [d] allows the value given by [dimv]; sizes are positive. *)
Definition size_allowed (d : DimId) : Prop :=
  ∃ s u, size_domain space d = Some (s, u) ∧ num_wf s u ∧ Forall (λ x, 0 < x) u ∧ num_values s u (dimv d).

(** The value of the parameters in the context. *)
Definition param_value (p : FunParam) : Z := default 0 (param_as_size ctx (param_name p)).

Lemma allowed_pos d : size_allowed d → 0 < dimv d.
Proof.
  intros (s & u & _ & _ & Hu & Hv). rewrite Forall_forall in Hu. apply Hu.
  apply NumericSetFacts.elem_of_bit_values in Hv as (j & Hj & _). by eapply list_elem_of_lookup_2.
Qed.

Lemma dim_bounds_sound d : size_allowed d →
  ∃ r, dim_bounds space d = Some r ∧ 0 < sr_min r ∧ sr_min r ≤ dimv d ≤ sr_max r.
Proof.
  intros (s & u & Hd & Hw & Hu & Hv). unfold dim_bounds. rewrite Hd. cbn [mbind option_bind].
  destruct (num_min_ok s u Hw) as (mn & Hmn & Hmn'), (num_max_ok s u Hw) as (mx & Hmx & Hmx').
  rewrite Hmn, Hmx. cbn. eexists. split; [done|]. cbn. split; [|split; [by apply Hmn'|by apply Hmx']].
  cbn in Hmn. unfold NumericSets.ns_min_value in Hmn. destruct (NumericSets.is_failed s) eqn:Ef.
  - cbn in Hv. rewrite NumericSetFacts.is_failed_values in Hv by done. by apply elem_of_nil in Hv.
  - rewrite Forall_forall in Hu. apply Hu. by eapply list_elem_of_lookup_2.
Qed.

(** *** Folds of the two operations *)
Lemma gcd_fold (l : list Z) x g : Forall (λ x, 0 < x) (x :: l) → fold_left num_gcd l x = g → 0 < g ∧ ∀ v, v ∈ x :: l → (g | v).
Proof.
  intros Hpos <-. revert x Hpos. induction l as [|y l IH]; intros x Hpos; cbn.
  - split; [by inversion Hpos|]. intros v ->%list_elem_of_singleton. done.
  - inversion Hpos as [|? ? Hx Hyl]; subst. inversion Hyl as [|? ? Hy Hl]; subst.
    rewrite num_gcd_ok by lia. assert (0 < Z.gcd x y) as Hg.
    { pose proof (Z.gcd_nonneg x y). destruct (Z.eq_dec (Z.gcd x y) 0) as [E|]; [|lia]. apply Z.gcd_eq_0_l in E. lia. }
    destruct (IH (Z.gcd x y)) as [Hp Hd]; [by constructor|]. split; [done|].
    pose proof (Hd (Z.gcd x y) ltac:(left)) as Hxy.
    intros v Hv. apply elem_of_cons in Hv as [->|Hv]; [etrans; [exact Hxy|apply Z.gcd_divide_l]|].
    apply elem_of_cons in Hv as [->|Hv]; [etrans; [exact Hxy|apply Z.gcd_divide_r]|]. apply Hd. by right.
Qed.

(** The least common multiple of some values. *)
Definition lcm_list (l : list Z) : Z := foldr Z.lcm 1 l.

Lemma lcm_list_pos l : Forall (λ x, 0 < x) l → 0 < lcm_list l.
Proof.
  induction 1 as [|x l Hx _ IH]; [done|]. change (0 < Z.lcm x (lcm_list l)).
  pose proof (Z.lcm_nonneg x (lcm_list l)). destruct (Z.eq_dec (Z.lcm x (lcm_list l)) 0) as [E%Z.lcm_eq_0|]; lia.
Qed.

Lemma lcm_fold (l : list Z) x :
  Forall (λ x, 0 < x) (x :: l) → lcm_list (x :: l) < 2 ^ 32 → foldM (num_lcm 32) l x = Some (lcm_list (x :: l)).
Proof.
  revert x. induction l as [|y l IH]; intros x Hpos Hfit.
  { cbn. rewrite Z.lcm_1_r_nonneg; [done|]. inversion Hpos. lia. }
  inversion Hpos as [|? ? Hx Hyl]; subst. inversion Hyl as [|? ? Hy Hl]; subst.
  assert (lcm_list (x :: y :: l) = lcm_list (Z.lcm x y :: l)) as E by exact (Z.lcm_assoc x y (lcm_list l)).
  assert (0 < Z.lcm x y) as Hg.
  { pose proof (Z.lcm_nonneg x y). destruct (Z.eq_dec (Z.lcm x y) 0) as [E0%Z.lcm_eq_0|]; lia. }
  assert (Forall (λ x, 0 < x) (Z.lcm x y :: l)) as Hpos' by by constructor.
  rewrite E in Hfit |- *. cbn [foldM]. rewrite num_lcm_ok; [by apply IH|lia|lia|].
  eapply Z.le_lt_trans; [|exact Hfit]. apply Z.divide_pos_le; [by apply lcm_list_pos|]. apply Z.divide_lcm_l.
Qed.

Lemma lcm_list_divide l v : v ∈ l → (v | lcm_list l).
Proof.
  induction l as [|x l IH]; intros Hv; [by apply elem_of_nil in Hv|]. change (v | Z.lcm x (lcm_list l)).
  apply elem_of_cons in Hv as [->|Hv]; [apply Z.divide_lcm_l|]. etrans; [by apply IH|apply Z.divide_lcm_r].
Qed.

(** The least common multiple of the sizes allowed for a dimension. *)
Definition dim_lcm (d : DimId) : Z :=
  match size_domain space d with
  | Some (s, u) => lcm_list (NumericSetFacts.bit_values 0 (enabled_values s) u)
  | None => 1
  end.

Definition lcm_fits (d : DimId) : Prop := dim_lcm d < 2 ^ 32.

Lemma dim_factors_sound d : size_allowed d → lcm_fits d →
  ∃ r, dim_factors space d = Some r ∧ 0 < fr_gcd r ∧ 0 < fr_lcm r ∧ (fr_gcd r | dimv d) ∧ (dimv d | fr_lcm r) ∧ fr_lcm r = dim_lcm d.
Proof.
  unfold lcm_fits, dim_lcm.
  intros (s & u & Hd & Hw & Hu & Hv). unfold dim_factors. rewrite Hd. cbn [mbind option_bind]. intros Hfit.
  destruct Hw as (_ & Hlen & _). unfold NumericSets.gcd, NumericSets.lcm.
  rewrite NumericSetFacts.list_values_eq by done. cbn [mbind option_bind]. cbn in Hv.
  set (vs := NumericSetFacts.bit_values _ _ _) in *. assert (Forall (λ x, 0 < x) vs) as Hpos.
  { apply Forall_forall. intros v (j & Hj & _)%NumericSetFacts.elem_of_bit_values. rewrite Forall_forall in Hu.
    apply Hu. by eapply list_elem_of_lookup_2. }
  pose proof (lcm_list_pos vs Hpos) as Hlp. pose proof (lcm_list_divide vs (dimv d) Hv) as Hld.
  destruct vs as [|x l]; [by apply elem_of_nil in Hv|]. rewrite lcm_fold by done. eexists. split; [done|].
  cbn [fr_gcd fr_lcm fold1 default]. destruct (gcd_fold l x _ Hpos eq_refl). auto.
Qed.

(** *** The loops *)

Lemma known_factor_value size f : known_factor ctx size = Some f →
  f = static_factor size * zprod param_value (param_factors size).
Proof.
  unfold known_factor. assert (∀ acc p, foldM (λ acc p, x ← param_as_size ctx (param_name p); umul 64 acc x) (param_factors size) acc = Some p →
    p = acc * zprod param_value (param_factors size)) as Hp.
  { induction (param_factors size) as [|q l IH]; intros acc p; cbn [foldM zprod foldr].
    - intros [= <-]. lia.
    - intros (acc' & (x & Hx & [<- _]%arith_checked)%bind_Some & ->%IH)%bind_Some.
      assert (param_value q = x) as -> by (unfold param_value; by rewrite Hx). unfold zprod. lia. }
  intros (p & ->%Hp & [<- _]%arith_checked)%bind_Some. lia.
Qed.

Lemma udiv_pos a b : 0 < b → udiv a b = Some (a / b).
Proof. intros Hb. unfold udiv. by rewrite (proj2 (Z.eqb_neq b 0)) by lia. Qed.

Lemma factors_mul_fold ds X a b :
  Forall (size_allowed) ds → Forall lcm_fits ds → 0 < a → 0 < b → (a | X) → (X | b) →
  ∃ g l, foldM (factors_mul space) ds (a, b) = Some (g, l) ∧ 0 < g ∧ 0 < l ∧ (g | X * zprod dimv ds) ∧ (X * zprod dimv ds | l) ∧
    l = b * zprod dim_lcm ds.
Proof.
  revert X a b. induction ds as [|d ds IH]; intros X a b Hds Hfit Ha Hb HaX HXb; cbn [foldM].
  { exists a, b. cbn. by rewrite !Z.mul_1_r. }
  inversion Hds as [|? ? Hd Hds']; subst. inversion Hfit as [|? ? Hf Hfit']; subst. unfold factors_mul at 2.
  destruct (dim_factors_sound d Hd Hf) as (r & -> & Hg & Hl & Hgd & Hdl & Er). cbn [mbind option_bind fst snd].
  rewrite !zprod_cons, !Z.mul_assoc, <-Er. apply IH; [done|done|lia|lia|..].
  - etrans; [by apply Z.mul_divide_mono_r|by apply Z.mul_divide_mono_l].
  - etrans; [by apply Z.mul_divide_mono_r|by apply Z.mul_divide_mono_l].
Qed.

Lemma factors_div_fold ds X a b :
  Forall (size_allowed) ds → Forall lcm_fits ds → 0 < a → 0 < b → 0 < X → (a | X * zprod dimv ds) → (X * zprod dimv ds | b) →
  ∃ g l, foldM (factors_div space) ds (a, b) = Some (g, l) ∧ 0 < g ∧ 0 < l ∧ (g | X) ∧ (X | l) ∧ l ≤ b.
Proof.
  revert X a b. induction ds as [|d ds IH]; intros X a b Hds Hfit Ha Hb HX HaX HXb; cbn [foldM].
  { exists a, b. cbn in *. by rewrite Z.mul_1_r in *. }
  inversion Hds as [|? ? Hd Hds']; subst. inversion Hfit as [|? ? Hf Hfit']; subst. unfold factors_div at 2.
  destruct (dim_factors_sound d Hd Hf) as (r & -> & Hg & Hl & Hgd & Hdl & Er). cbn [mbind option_bind fst snd].
  pose proof (allowed_pos d Hd) as Hdp. rewrite zprod_cons in HaX, HXb.
  rewrite num_gcd_ok by lia. assert (0 < Z.gcd (fr_lcm r) a) as Hgp.
  { pose proof (Z.gcd_nonneg (fr_lcm r) a). destruct (Z.eq_dec (Z.gcd (fr_lcm r) a) 0) as [E|]; [|lia]. apply Z.gcd_eq_0_r in E. lia. }
  rewrite !udiv_pos by done. cbn [mbind option_bind].
  replace (X * (dimv d * zprod dimv ds)) with (dimv d * (X * zprod dimv ds)) in HaX, HXb by lia.
  assert (0 < zprod dimv ds) as Hzp. { apply zprod_pos. intros x Hx. apply allowed_pos. rewrite Forall_forall in Hds'. by apply Hds'. }
  destruct (IH X (a / Z.gcd (fr_lcm r) a) (b / fr_gcd r)) as (g & l & E & Hgl); [done|done| | |done| | |].
  - apply Z.div_str_pos. split; [done|]. apply Z.divide_pos_le; [done|apply Z.gcd_divide_r].
  - apply Z.div_str_pos. split; [done|]. apply Z.divide_pos_le; [done|]. etrans; [exact Hgd|]. etrans; [|exact HXb]. apply Z.divide_factor_l.
  - by apply (divide_cancel_gcd _ (dimv d)).
  - by apply (divide_quotient _ (dimv d)).
  - exists g, l. split; [exact E|]. assert (b / fr_gcd r ≤ b) by (apply Z.div_le_upper_bound; nia). naive_solver lia.
Qed.

Lemma bounds_mul_fold ds X a b :
  Forall (size_allowed) ds → 0 < a → a ≤ X ≤ b →
  ∃ mn mx, foldM (bounds_mul space) ds (a, b) = Some (mn, mx) ∧ 0 < mn ∧ mn ≤ X * zprod dimv ds ≤ mx.
Proof.
  revert X a b. induction ds as [|d ds IH]; intros X a b Hds Ha HX; cbn [foldM].
  { exists a, b. cbn. by rewrite Z.mul_1_r. }
  inversion Hds as [|? ? Hd Hds']; subst. unfold bounds_mul at 2.
  destruct (dim_bounds_sound d Hd) as (r & -> & Hmn & Hr). cbn [mbind option_bind fst snd].
  rewrite zprod_cons, Z.mul_assoc. apply IH; [done|nia|]. split; apply Z.mul_le_mono_nonneg; lia.
Qed.

(** Every divisor, at its greatest, divides what is left of the least numerator. *)
Fixpoint exact_divisions (ds : list DimId) (total : Z) : Prop :=
  match ds with
  | [] => True
  | d :: ds => ∃ r, dim_bounds space d = Some r ∧ (sr_max r | total) ∧ exact_divisions ds (total / sr_max r)
  end.

Lemma bounds_div_fold ds X a b :
  Forall (size_allowed) ds → 0 < a → 0 < X → X * zprod dimv ds ≤ b →
  ∃ mn mx, foldM (bounds_div space) ds (a, b) = Some (mn, mx) ∧ 0 < mn ∧ X ≤ mx ∧
    (exact_divisions ds a → a ≤ X * zprod dimv ds → mn ≤ X).
Proof.
  revert X a b. induction ds as [|d ds IH]; intros X a b Hds Ha HX HXb; cbn [foldM].
  { exists a, b. cbn in *. rewrite Z.mul_1_r in *. auto. }
  inversion Hds as [|? ? Hd Hds']; subst. unfold bounds_div at 2.
  destruct (dim_bounds_sound d Hd) as (r & Hr & Hmn & Hrd). rewrite Hr. cbn [mbind option_bind fst snd].
  rewrite zprod_cons in HXb |- *. rewrite num_gcd_ok by lia. assert (0 < Z.gcd (sr_max r) a) as Hgp.
  { pose proof (Z.gcd_nonneg (sr_max r) a). destruct (Z.eq_dec (Z.gcd (sr_max r) a) 0) as [E|]; [|lia]. apply Z.gcd_eq_0_r in E. lia. }
  rewrite !udiv_pos by lia. cbn [mbind option_bind].
  assert (0 < zprod dimv ds) as Hzp. { apply zprod_pos. intros x Hx. apply allowed_pos. rewrite Forall_forall in Hds'. by apply Hds'. }
  destruct (IH X (a / Z.gcd (sr_max r) a) (b / sr_min r)) as (mn & mx & E & Hp & Hmx & Hlow); [done| |done| |].
  - apply Z.div_str_pos. split; [done|]. apply Z.divide_pos_le; [done|apply Z.gcd_divide_r].
  - apply Z.div_le_lower_bound; [done|]. nia.
  - exists mn, mx. split; [exact E|]. split; [done|]. split; [done|].
    intros (r' & Hr' & Hdiv & Hex) Ha'. rewrite Hr in Hr'. injection Hr' as <-.
    assert (Z.gcd (sr_max r) a = sr_max r) as Eg by (apply Z.divide_gcd_iff; [lia|done]). rewrite Eg in Hlow.
    apply Hlow; [done|]. destruct Hdiv as [k ->]. rewrite Z.div_mul by lia. nia.
Qed.

(** What both analyses assume of a size of value [v]: its constants are positive, the
    dimensions have allowed sizes, and [v] times the divisors is the numerator. *)
Definition has_value (size : PartialSize) (v : Z) : Prop :=
  0 < static_factor size ∧ Forall (λ p, 0 < param_value p) (param_factors size) ∧
  Forall size_allowed (Size.dim_factors size ++ divisors size) ∧
  numerator param_value dimv size = v * denominator dimv size.

Lemma known_factor_pos size v f : has_value size v → known_factor ctx size = Some f → 0 < f.
Proof.
  intros (Hc & Hp & _) ->%known_factor_value. rewrite Forall_forall in Hp. apply Z.mul_pos_pos; [done|]. apply zprod_pos. apply Hp.
Qed.

Lemma value_pos size v : has_value size v → 0 < v ∧ 0 < denominator dimv size.
Proof.
  intros (Hc & Hp & [Hf Hd]%Forall_app & Hv). rewrite Forall_forall in Hp. rewrite Forall_forall in Hf. rewrite Forall_forall in Hd.
  assert (0 < denominator dimv size) as Hdp by (apply zprod_pos; intros x Hx; by apply allowed_pos, Hd).
  split; [|done]. assert (0 < numerator param_value dimv size) as Hnp.
  { unfold numerator. apply Z.mul_pos_pos; [apply Z.mul_pos_pos; [done|by apply zprod_pos]|].
    apply zprod_pos. intros x Hx. by apply allowed_pos, Hf. }
  nia.
Qed.

Lemma factors_exact size v f : has_value size v → Forall lcm_fits (Size.dim_factors size ++ divisors size) →
  known_factor ctx size = Some f →
  ∃ g l, 0 < g ∧ 0 < l ∧ (g | v) ∧ (v | l) ∧ l ≤ f * zprod dim_lcm (Size.dim_factors size) ∧
    factors space ctx size = g ← to_u64 g; l ← to_u64 l; Some (mkFactorRange g l).
Proof.
  intros Hv [Hfm Hfd]%Forall_app Hf. pose proof (known_factor_pos size v f Hv Hf) as Hfp. destruct (value_pos size v Hv) as [Hvp _].
  destruct Hv as (_ & _ & (Hm & Hd)%Forall_app & Hn). pose proof (known_factor_value size f Hf) as Hfv.
  unfold factors. rewrite Hf. cbn [mbind option_bind].
  destruct (factors_mul_fold (Size.dim_factors size) f f f) as (g & l & -> & Hg & Hl & Hgd & Hdl & El); [done..|]. cbn [mbind option_bind].
  unfold numerator in Hn. rewrite <-Hfv in Hn. rewrite Hn in Hgd, Hdl.
  destruct (factors_div_fold (divisors size) v g l) as (g' & l' & -> & ?); [done..|]. cbn. exists g', l'. rewrite <-El. naive_solver.
Qed.

Lemma bounds_exact size v f : has_value size v → known_factor ctx size = Some f →
  ∃ mn mx, 0 < mn ∧ v ≤ mx ∧
    (∀ mn0 mx0, foldM (bounds_mul space) (Size.dim_factors size) (f, f) = Some (mn0, mx0) →
      exact_divisions (divisors size) mn0 → mn ≤ v) ∧
    bounds space ctx size = mn ← to_u64 mn; mx ← to_u64 mx; Some (mkRange mn mx).
Proof.
  intros Hv Hf. pose proof (known_factor_pos size v f Hv Hf) as Hfp. destruct (value_pos size v Hv) as [Hvp _].
  destruct Hv as (_ & _ & (Hm & Hd)%Forall_app & Hn). pose proof (known_factor_value size f Hf) as Hfv.
  unfold bounds. rewrite Hf. cbn [mbind option_bind].
  destruct (bounds_mul_fold (Size.dim_factors size) f f f) as (g & l & -> & Hg & Hgl); [done|done|lia|]. cbn [mbind option_bind].
  unfold numerator in Hn. rewrite <-Hfv in Hn. rewrite Hn in Hgl.
  destruct (bounds_div_fold (divisors size) v g l) as (g' & l' & -> & Hg' & Hl' & Hlow); [done|done|done|apply Hgl|]. cbn [mbind option_bind].
  exists g', l'. split; [done|]. split; [done|]. split; [intros ? ? [= <- <-] Hex; apply Hlow; [done|apply Hgl]|].
  by rewrite (proj2 (Z.eqb_neq g' 0)), (proj2 (Z.eqb_neq l' 0)) by lia.
Qed.
End facts.

(** ** Properties *)

(** C37: For every choice of the undecided sizes that gives a size an integer value, the
    value is a multiple of the first factor computed for it and divides the second one,
    when the least common multiples of the sizes of the dimensions fit 32 bits.  Then the
    analysis panics only when the product of the known factor and of these multiples does
    not fit 64 bits.  (The known factor is computed with checked arithmetic.) *)
Theorem size_factors_sound `{NumInteger} {D Ctx : Type} `{ChoiceDomains D, SizeContext Ctx}
    (space : SearchSpace D) (ctx : Ctx) (dimv : DimId → Z) (size : PartialSize) (v f : Z) :
  has_value space ctx dimv size v → known_factor ctx size = Some f →
  Forall (lcm_fits space) (Size.dim_factors size ++ divisors size) →
  match factors space ctx size with
  | Some r => (fr_gcd r | v) ∧ (v | fr_lcm r)
  | None => 2 ^ 64 ≤ f * zprod (dim_lcm space) (Size.dim_factors size)
  end.
Proof.
  intros Hv Hf Hfit. destruct (value_pos space ctx dimv size v Hv) as [Hvp _].
  destruct (factors_exact space ctx dimv size v f Hv Hfit Hf) as (g & l & Hg & Hl & Hgv & Hvl & Hle & ->). unfold to_u64.
  assert (g ≤ l) as Hgl by (apply Z.divide_pos_le; [done|by etrans]).
  destruct (in_width 64 g) eqn:Eg; cbn [mbind option_bind]; [destruct (in_width 64 l) eqn:El; cbn [mbind option_bind]; [done|]|].
  - destruct (Z_le_gt_dec (2 ^ 64) l) as [|Hlt]; [lia|]. rewrite (proj2 (in_width_spec 64 l)) in El by lia. done.
  - destruct (Z_le_gt_dec (2 ^ 64) g) as [|Hlt]; [lia|]. rewrite (proj2 (in_width_spec 64 g)) in Eg by lia. done.
Qed.

(** C38: For every choice of the undecided sizes that gives a size an integer value, the
    value is at most the maximum computed for it.  It is at least the minimum computed
    when each divisor, at its greatest, divides what is left of the least numerator. *)
Theorem size_bounds_sound `{NumInteger} {D Ctx : Type} `{ChoiceDomains D, SizeContext Ctx}
    (space : SearchSpace D) (ctx : Ctx) (dimv : DimId → Z) (size : PartialSize) (v f : Z) :
  has_value space ctx dimv size v → known_factor ctx size = Some f →
  match bounds space ctx size with
  | Some r => v ≤ sr_max r ∧
      (∀ mn mx, foldM (bounds_mul space) (Size.dim_factors size) (f, f) = Some (mn, mx) →
        exact_divisions space (divisors size) mn → sr_min r ≤ v)
  | None => ∃ mn mx, v ≤ mx ∧ (2 ^ 64 ≤ mn ∨ 2 ^ 64 ≤ mx)
  end.
Proof.
  intros Hv Hf. destruct (bounds_exact space ctx dimv size v f Hv Hf) as (mn & mx & Hmn & Hmx & Hlow & ->). unfold to_u64.
  destruct (value_pos space ctx dimv size v Hv) as [Hvp _].
  destruct (in_width 64 mn) eqn:En; cbn [mbind option_bind].
  - destruct (in_width 64 mx) eqn:Ex; cbn [mbind option_bind]; [done|]. exists mn, mx. split; [done|]. right.
    destruct (Z_le_gt_dec (2 ^ 64) mx) as [|Hlt]; [done|]. rewrite (proj2 (in_width_spec 64 mx)) in Ex by lia. done.
  - exists mn, mx. split; [done|]. left.
    destruct (Z_le_gt_dec (2 ^ 64) mn) as [|Hlt]; [done|]. rewrite (proj2 (in_width_spec 64 mn)) in En by lia. done.
Qed.

(** ** Examples *)

(** A space that only knows sizes: a function with static dimensions over the given
    universes, and a domain for each of them. *)
#[local] Instance sizes_only : ChoiceDomains (list NumericSet) := {|
  get_order _ _ _ := None; get_dim_kind _ _ := None; get_thread_mapping _ _ _ := None; get_mem_space _ _ := None;
  get_size sizes d := sizes !! d
|}.

#[local] Instance no_params : SizeContext unit := {| param_as_size _ _ := None |}.

Definition static_dim (id : DimId) (universe : list Z) : option Dimension :=
  match dimension_new_static id universe None with ROk d => Some d | RErr _ => None end.

Definition sized_space (dims : list (list Z * Z)) : SearchSpace (list NumericSet) :=
  let ds := sv_from_vec (imap (λ i d, static_dim i d.1) dims) in
  mkSearchSpace (with_body (set_dims ds body_new) (function_new (signature_new "sizes") (mkDevice (λ _, ROk tt) (TyI 32))))
    ((λ d, mkNumericSet d.2) <$> dims).

Definition tile_size : PartialSize := mkPartialSize 24 [] [] [0]%nat.

(** 24 over a tile of 2, 4 or 8. *)
Definition tile_space : SearchSpace (list NumericSet) := sized_space [([2; 4; 8], 7)].

#[local] Existing Instance stdlib_integer.

Example tile_bounds :
  bounds tile_space tt tile_size = Some (mkRange 3 12) ∧ factors tile_space tt tile_size = Some (mkFactorRange 3 12).
Proof. vm_compute. split; reflexivity. Qed.

(** The least common multiple of two sizes may not fit the integers of the sizes. *)
Example lcm_overflows : dim_factors (sized_space [([65536; 65537], 3)]) 0 = None.
Proof. vm_compute. reflexivity. Qed.

(** The minimum computed is not one when the greatest divisor does not divide the least
    numerator: of 6 or 8 over 4, the bounds are 3 and 2. *)
Example bounds_min_too_great :
  let space := sized_space [([6; 8], 3); ([4], 1)] in
  let size := mkPartialSize 1 [] [0]%nat [1]%nat in
  bounds space tt size = Some (mkRange 3 2) ∧ has_value space tt (λ d, if (d =? 0)%nat then 8 else 4) size 2.
Proof.
  split; [vm_compute; reflexivity|]. split; [done|]. split; [constructor|]. split; [|done].
  repeat constructor.
  - exists (mkNumericSet 3), [6; 8]. split; [reflexivity|]. split; [|split; [repeat constructor|cbn; set_solver]].
    split; [cbn; lia|]. split; [cbn; lia|repeat constructor].
  - exists (mkNumericSet 1), [4]. split; [reflexivity|]. split; [|split; [repeat constructor|cbn; set_solver]].
    split; [cbn; lia|]. split; [cbn; lia|repeat constructor].
Qed.

Lemma tile_value v : v ∈ [2; 4; 8] → has_value tile_space tt (λ _, v) tile_size (24 / v).
Proof.
  intros Hv. split; [done|]. split; [constructor|]. split.
  - constructor; [|constructor]. exists (mkNumericSet 7), [2; 4; 8]. split; [reflexivity|].
    split; [|split; [repeat constructor|exact Hv]]. split; [cbn; lia|]. split; [cbn; lia|repeat constructor].
  - repeat (apply elem_of_cons in Hv as [->|Hv]; [reflexivity|]). by apply elem_of_nil in Hv.
Qed.

Lemma size_bounds_sound_witness : bounds tile_space tt tile_size = Some (mkRange 3 12) ∧ 3 ≤ 24 / 4 ≤ 12.
Proof.
  pose proof (size_bounds_sound tile_space tt (λ _, 4) tile_size (24 / 4) 24) as Hs.
  rewrite (proj1 tile_bounds) in Hs. destruct Hs as [Hmax Hmin]; [apply tile_value; set_solver|reflexivity|].
  split; [exact (proj1 tile_bounds)|]. split; [|exact Hmax]. apply (Hmin 24 24 eq_refl).
  eexists. split; [reflexivity|]. split; [by exists 3|done].
Defined.

Lemma size_factors_sound_witness : factors tile_space tt tile_size = Some (mkFactorRange 3 12) ∧ (3 | 24 / 4) ∧ (24 / 4 | 12).
Proof.
  pose proof (size_factors_sound tile_space tt (λ _, 4) tile_size (24 / 4) 24) as Hs.
  rewrite (proj2 tile_bounds) in Hs. destruct Hs as [Hg Hl]; [apply tile_value; set_solver|reflexivity| |].
  { constructor; [vm_compute; reflexivity|constructor]. }
  split; [exact (proj2 tile_bounds)|]. split; [exact Hg|exact Hl].
Defined.
