(* ===== verification/HwPressures.v ===== *)
(** * Pressure on the execution units (src/model/hw_pressure.rs)

    Lower bounds on the execution time with the reason for each of them, in the form used
    while the model is computed ([FastBound]) and in the form that is reported ([Bound]),
    and the pressure that a computation puts on each bottleneck of a device.  The levels
    and the code points that bounds refer to (level.rs, code_point.rs) are also here. *)
From S2P Require Import Prelude VecSet Types Utils Float64 EnumDomains Choices.
From Stdlib Require Import Floats.SpecFloat.
#[local] Open Scope nat_scope.

(** ** Floats *)
Definition f64_zero : f64 := S754_zero false.

(** [f64::max]: a NaN is ignored when the other value is not one. *)
Definition f64_max (a b : f64) : f64 :=
  if is_nan a then b else if is_nan b then a else if SFltb a b then b else a.

(** The literal [1.0e-6], and the factor [1.0 + 1.0e-6]. *)
Definition MICRO : f64 := S754_finite false 4722366482869645 (-72).
Definition BETTER_FACTOR : f64 := f64_add (f64_of_Z 1) MICRO.

(** ** Bounds *)
Record ExplainedBound (O : Type) := mkExplained { bound_value : f64; bound_size : nat; bound_origin : O }.
Arguments mkExplained {O}.
Arguments bound_value {O}.
Arguments bound_size {O}.
Arguments bound_origin {O}.

Inductive BottleneckLevel := LevelGlobal | LevelBlock | LevelThread.

#[global] Instance BottleneckLevel_eq_dec : EqDecision BottleneckLevel.
Proof. solve_decision. Defined.

(** The derived order. *)
Definition level_rank (l : BottleneckLevel) : nat :=
  match l with LevelGlobal => 0 | LevelBlock => 1 | LevelThread => 2 end.

Definition level_leb (a b : BottleneckLevel) : bool := level_rank a <=? level_rank b.

(** The justification of a bound, by the positions of levels and code points. *)
Inductive FastOrigin :=
| FastLatency
| FastBottleneck (id : nat) (level : BottleneckLevel)
| FastLoop (level : nat) (iterations : Z) (inner : FastOrigin)
| FastChain (before : ExplainedBound FastOrigin) (mid_point : nat) (after : ExplainedBound FastOrigin)
| FastScale (inner : FastOrigin) (factor : f64).

Notation FastBound := (ExplainedBound FastOrigin).

(** A code point, with levels as positions. *)
Inductive CodePoint :=
| CodeInst (id : InstId)
| LevelEntry (id : nat)
| LevelExit (id : nat).

#[global] Instance CodePoint_eq_dec : EqDecision CodePoint.
Proof. solve_decision. Defined.

(** A level at which latency is computed. *)
Record Level := mkLevel {
  level_dims : list DimId;
  level_latency : FastBound;
  end_latency : FastBound;
  back_edges : list (nat * FastBound);
  repeated_latency : option FastBound
}.

(** A code point, with levels as sets of dimensions. *)
Inductive Point :=
| PointInst (id : InstId)
| PointEntry (dims : list DimId)
| PointExit (dims : list DimId).

(** The justification that is reported. *)
Inductive Origin :=
| OriginLatency
| OriginBottleneck (name : string) (level : BottleneckLevel)
| OriginLoop (dims : list DimId) (iterations : Z) (inner : Origin)
| OriginChain (before : ExplainedBound Origin) (mid_point : Point) (after : ExplainedBound Origin)
| OriginScale (inner : Origin) (factor : f64)
| HardwareEvaluation.

Notation Bound := (ExplainedBound Origin).

Section explained.
Context {O : Type}.
Implicit Types b other : ExplainedBound O.

Definition is_better_than b other : bool :=
  if SFltb (f64_mul BETTER_FACTOR (bound_value other)) (bound_value b) then true
  else if SFltb (f64_mul BETTER_FACTOR (bound_value b)) (bound_value other) then false
  else bound_size b <? bound_size other.

Definition bound_eqb b other : bool := SFeqb (bound_value b) (bound_value other).

(** [partial_cmp], and [cmp] that unwraps it. *)
Definition bound_cmp b other : option comparison := SFcompare (bound_value b) (bound_value other).

(** [cmp::max]: the second one if they are equal. *)
Definition bound_max b other : option (ExplainedBound O) :=
  c ← bound_cmp b other; Some (match c with Gt => b | _ => other end).

(** [Iterator::max] keeps the last of the greatest, [Iterator::min] the first of the
    least. *)
Definition bounds_max (l : list (ExplainedBound O)) : option (option (ExplainedBound O)) :=
  match l with [] => Some None | b :: l => Some <$> foldM bound_max l b end.

Definition bounds_min (l : list (ExplainedBound O)) : option (option (ExplainedBound O)) :=
  match l with
  | [] => Some None
  | b :: l => Some <$> foldM (λ b other, c ← bound_cmp b other; Some (match c with Gt => other | _ => b end)) l b
  end.
End explained.

(** [FastBound::new]. *)
Definition fast_bound_new (value : f64) (origin : FastOrigin) : option FastBound :=
  rassert (negb (is_nan value)) ;;
  Some (mkExplained value 1 origin).

(** [FastBound::zero]: the assertion of [new] holds. *)
Definition fast_bound_zero : FastBound := mkExplained f64_zero 1 FastLatency.

Definition fb_iterate (b : FastBound) (iterations : Z) (level : nat) : FastBound :=
  mkExplained (f64_mul (bound_value b) (f64_of_Z iterations)) (bound_size b + 1)
    (FastLoop level iterations (bound_origin b)).

Definition fb_chain (b : FastBound) (mid_point : nat) (other : FastBound) : FastBound :=
  mkExplained (f64_add (bound_value b) (bound_value other)) (bound_size b + bound_size other)
    (FastChain b mid_point other).

(** [scale]; [div_ceil] panics on a zero divisor. *)
Definition fb_scale (b : FastBound) (hw_parallelism iterations max_par : Z) : option FastBound :=
  waves ← div_ceil max_par hw_parallelism;
  let factor := f64_div (f64_mul (f64_of_Z waves) (f64_of_Z iterations)) (f64_of_Z max_par) in
  Some (mkExplained (f64_mul (bound_value b) factor) (bound_size b + 1) (FastScale (bound_origin b) factor)).

(** [Bound::from_actual_time]. *)
Definition from_actual_time (value : f64) : Bound := mkExplained value 1 HardwareEvaluation.

Definition accounts_for_dim `{KeyRemoval} (level : BottleneckLevel) (kind : Z) : bool :=
  if ed_intersects kind DimKind.VECTOR then false else
  match level with
  | LevelGlobal => true
  | _ =>
    if (kind =? DimKind.BLOCK)%Z then false else
    match level with
    | LevelBlock => true
    | _ => negb (ed_intersects kind DimKind.THREAD)
    end
  end.

(** ** Explanations *)

(** The levels are only read for their dimensions. *)
Definition convert_point (levels : list Level) (point : CodePoint) : option Point :=
  match point with
  | CodeInst id => Some (PointInst id)
  | LevelEntry id => l ← levels !! id; Some (PointEntry (level_dims l))
  | LevelExit id => l ← levels !! id; Some (PointExit (level_dims l))
  end.

(** [Origin::simplify]: whether what comes before and after can be trimmed. *)
Fixpoint simplify (self : Origin) : bool * Origin * bool :=
  match self with
  | OriginLatency | OriginBottleneck _ _ | HardwareEvaluation => (false, self, false)
  | OriginLoop dims iterations inner =>
    if (iterations =? 0)%Z then (true, OriginLatency, true)
    else (true, OriginLoop dims iterations (simplify inner).1.2, true)
  | OriginScale inner factor => (false, OriginScale (simplify inner).1.2 factor, false)
  | OriginChain before mid_point after =>
    let '(mkExplained before_value before_size before_origin) := before in
    let '(mkExplained after_value after_size after_origin) := after in
    let '(trim_preds, before_origin, trim_after) := simplify before_origin in
    let '(trim_before, after_origin, trim_succs) := simplify after_origin in
    let trim_preds := trim_preds || SFeqb before_value f64_zero in
    let trim_succs := trim_succs || SFeqb after_value f64_zero in
    if trim_before && SFeqb before_value f64_zero then (true, after_origin, trim_succs)
    else if trim_after && SFeqb after_value f64_zero then (trim_preds, before_origin, true)
    else
      (trim_preds,
       OriginChain (mkExplained before_value before_size before_origin) mid_point
         (mkExplained after_value before_size after_origin),
       trim_succs)
  end.

Section explain.
Context (bottlenecks : list string) (levels : list Level) (code_points : list CodePoint).

(** [FastOrigin::explain] and [FastBound::explain]; positions out of range panic. *)
Fixpoint origin_explain (self : FastOrigin) : option Origin :=
  match self with
  | FastLatency => Some OriginLatency
  | FastBottleneck id level => name ← bottlenecks !! id; Some (OriginBottleneck name level)
  | FastChain (mkExplained before_value before_size before) mid_point (mkExplained after_value after_size after) =>
    point ← code_points !! mid_point;
    mid_point ← convert_point levels point;
    before ← origin_explain before;
    after ← origin_explain after;
    Some (OriginChain (mkExplained before_value before_size (simplify before).1.2) mid_point
            (mkExplained after_value after_size (simplify after).1.2))
  | FastLoop level iterations inner =>
    inner ← origin_explain inner;
    l ← levels !! level;
    Some (OriginLoop (level_dims l) iterations inner)
  | FastScale inner factor => inner ← origin_explain inner; Some (OriginScale inner factor)
  end.

Definition bound_explain (b : FastBound) : option Bound :=
  origin ← origin_explain (bound_origin b);
  Some (mkExplained (bound_value b) (bound_size b) (simplify origin).1.2).
End explain.

(** ** Pressure *)
Record HwPressure := mkPressure { hw_latency : f64; hw_bottlenecks : list f64 }.

(** [zero], for a device with the given bottlenecks. *)
Definition pressure_zero (bottlenecks : list string) : HwPressure :=
  mkPressure f64_zero ((λ _, f64_zero) <$> bottlenecks).

Definition pressure_bound (self : HwPressure) (level : BottleneckLevel) (rates : HwPressure) : option FastBound :=
  latency ← fast_bound_new (f64_div (hw_latency self) (hw_latency rates)) FastLatency;
  pairs ← zip_eq (hw_bottlenecks self) (hw_bottlenecks rates);
  bounds ← mapM (λ p : nat * (f64 * f64), fast_bound_new (f64_div p.2.1 p.2.2) (FastBottleneck p.1 level)) (enumerate pairs);
  m ← bounds_max (bounds ++ [latency]);
  m.

(** The loops over the bottlenecks of two pressures. *)
Definition combine_bottlenecks (f : f64 → f64 → f64) (b other : list f64) : option (list f64) :=
  pairs ← zip_eq b other; Some (list_fmap _ _ (λ p : f64 * f64, f p.1 p.2) pairs).

Definition add_parallel (self other : HwPressure) : option HwPressure :=
  b ← combine_bottlenecks f64_add (hw_bottlenecks self) (hw_bottlenecks other);
  Some (mkPressure (f64_max (hw_latency self) (hw_latency other)) b).

Definition add_sequential (self other : HwPressure) : option HwPressure :=
  b ← combine_bottlenecks f64_add (hw_bottlenecks self) (hw_bottlenecks other);
  Some (mkPressure (f64_add (hw_latency self) (hw_latency other)) b).

Definition repeat_parallel (factor : f64) (self : HwPressure) : HwPressure :=
  mkPressure (hw_latency self) ((λ b, f64_mul b factor) <$> hw_bottlenecks self).

Definition repeat_and_add_bottlenecks (factor : f64) (self other : HwPressure) : option HwPressure :=
  b ← combine_bottlenecks (λ b other, f64_add b (f64_mul other factor)) (hw_bottlenecks self) (hw_bottlenecks other);
  Some (mkPressure (hw_latency self) b).

Definition repeat_sequential (factor : f64) (self : HwPressure) : HwPressure :=
  mkPressure (f64_mul (hw_latency self) factor) ((λ b, f64_mul b factor) <$> hw_bottlenecks self).

Definition minimize (self other : HwPressure) : option HwPressure :=
  b ← combine_bottlenecks f64_min (hw_bottlenecks self) (hw_bottlenecks other);
  Some (mkPressure (f64_min (hw_latency self) (hw_latency other)) b).

(** [HwPressure::min]. *)
Definition pressure_min (l : list HwPressure) : option (option HwPressure) :=
  match l with [] => Some None | p :: l => Some <$> foldM minimize l p end.

Definition pressure_multiply (self other : HwPressure) : option HwPressure :=
  b ← combine_bottlenecks f64_mul (hw_bottlenecks self) (hw_bottlenecks other);
  Some (mkPressure (f64_mul (hw_latency self) (hw_latency other)) b).

(** * Theorems *)

(** ** The greatest of several bounds *)

Lemma SFcompare_some a b : is_nan a = false → is_nan b = false → ∃ c, SFcompare a b = Some c.
Proof. intros Ha Hb. rewrite SFcompare_key by done. by eexists. Qed.

Lemma SFcompare_gt a b : SFcompare a b = Some Gt → SFleb b a = true.
Proof.
  intros E. unfold SFleb. pose proof (SFcompare_antisym a b) as Ha. rewrite E in Ha. cbn in Ha. by rewrite Ha.
Qed.

Lemma SFcompare_not_gt a b c : SFcompare a b = Some c → c ≠ Gt → SFleb a b = true.
Proof. intros E Hc. unfold SFleb. rewrite E. by destruct c. Qed.

Section explained.
Context {O : Type}.
Implicit Types (b : ExplainedBound O) (l : list (ExplainedBound O)).

Definition not_nan b : Prop := is_nan (bound_value b) = false.

Lemma bound_max_spec b other : not_nan b → not_nan other →
  ∃ m, bound_max b other = Some m ∧ (m = b ∨ m = other) ∧ not_nan m ∧
    SFleb (bound_value b) (bound_value m) = true ∧ SFleb (bound_value other) (bound_value m) = true.
Proof.
  intros Hb Ho. unfold bound_max, bound_cmp. destruct (SFcompare_some _ _ Hb Ho) as [c E]. rewrite E. cbn.
  eexists. split; [done|]. destruct c.
  - split; [by right|]. split; [done|]. split; [by eapply SFcompare_not_gt|by apply f64_le_refl].
  - split; [by right|]. split; [done|]. split; [by eapply SFcompare_not_gt|by apply f64_le_refl].
  - split; [by left|]. split; [done|]. split; [by apply f64_le_refl|by apply SFcompare_gt].
Qed.

Lemma bounds_max_spec l : l ≠ [] → Forall not_nan l →
  ∃ m, bounds_max l = Some (Some m) ∧ m ∈ l ∧ not_nan m ∧ Forall (λ b, SFleb (bound_value b) (bound_value m) = true) l.
Proof.
  intros Hne Hl. destruct Hl as [|b l Hb Hl]; [done|]. clear Hne. cbn [bounds_max].
  revert b Hb. induction Hl as [|x l Hx Hl IH]; intros b Hb; cbn [foldM].
  - exists b. split; [done|]. split; [by left|]. split; [done|]. constructor; [by apply f64_le_refl|done].
  - destruct (bound_max_spec b x Hb Hx) as (m & -> & Hm & Hmn & Hbm & Hxm). cbn [mbind option_bind].
    destruct (IH m Hmn) as (m' & -> & Hin & Hmn' & Hall). exists m'. split; [done|].
    apply Forall_cons in Hall as [Hmm Hall]. split; [|split; [done|]].
    + apply elem_of_cons in Hin as [->|Hin]; [|by do 2 right]. destruct Hm as [->| ->]; [left|right; left].
    + constructor; [by eapply f64_le_trans|]. constructor; [by eapply f64_le_trans|done].
Qed.
End explained.

(** ** Simplification *)

Lemma origin_nested_ind (P : Origin → Prop) :
  P OriginLatency → (∀ name level, P (OriginBottleneck name level)) →
  (∀ dims iterations inner, P inner → P (OriginLoop dims iterations inner)) →
  (∀ v1 s1 o1 mid v2 s2 o2, P o1 → P o2 → P (OriginChain (mkExplained v1 s1 o1) mid (mkExplained v2 s2 o2))) →
  (∀ inner factor, P inner → P (OriginScale inner factor)) → P HardwareEvaluation → ∀ o, P o.
Proof.
  intros Hlat Hbot Hloop Hchain Hscale Hhw. fix IH 1. intros [|name level|dims n inner|[v1 s1 o1] mid [v2 s2 o2]|inner f|];
    [done|apply Hbot|apply Hloop, IH|by apply Hchain; apply IH|apply Hscale, IH|done].
Qed.

(** Simplifying again changes nothing, and trims no more on either side. *)
Lemma simplify_stable o :
  simplify (simplify o).1.2 = ((simplify (simplify o).1.2).1.1, (simplify o).1.2, (simplify (simplify o).1.2).2) ∧
  ((simplify (simplify o).1.2).1.1 = true → (simplify o).1.1 = true) ∧
  ((simplify (simplify o).1.2).2 = true → (simplify o).2 = true).
Proof.
  induction o as [| |dims n inner (IH & _)|v1 s1 o1 mid v2 s2 o2 IH1 IH2|inner f (IH & _)|] using origin_nested_ind; cbn; [done|done| | | |done].
  - destruct (n =? 0)%Z eqn:E; cbn; [done|]. rewrite E, IH. done.
  - destruct (simplify o1) as [[p1 b'] t1] eqn:E1, (simplify o2) as [[t2 a'] p2] eqn:E2. cbn in IH1, IH2.
    destruct (simplify b') as [[p1' b''] t1'] eqn:E1', (simplify a') as [[t2' a''] p2'] eqn:E2'. cbn in IH1, IH2.
    destruct IH1 as ([= ->] & Hp1 & Ht1), IH2 as ([= ->] & Ht2 & Hp2).
    destruct (t2 && SFeqb v1 f64_zero) eqn:Eb; cbn.
    + rewrite E2'. cbn. split; [done|]. split; [done|]. intros ->. by rewrite Hp2.
    + destruct (t1 && SFeqb v2 f64_zero) eqn:Ea; cbn.
      * rewrite E1'. cbn. split; [done|]. split; [|done]. intros ->. by rewrite Hp1.
      * rewrite E1', E2'. assert (t2' && SFeqb v1 f64_zero = false) as ->.
        { destruct t2'; [|done]. by rewrite Ht2 in Eb. }
        assert (t1' && SFeqb v2 f64_zero = false) as ->.
        { destruct t1'; [|done]. by rewrite Ht1 in Ea. }
        cbn. split; [done|]. rewrite !orb_true_iff. naive_solver.
  - rewrite IH. done.
Qed.

(** No loop without iterations is left. *)
Fixpoint no_empty_loop (o : Origin) : Prop :=
  match o with
  | OriginLoop _ iterations inner => iterations ≠ 0%Z ∧ no_empty_loop inner
  | OriginChain (mkExplained _ _ before) _ (mkExplained _ _ after) => no_empty_loop before ∧ no_empty_loop after
  | OriginScale inner _ => no_empty_loop inner
  | OriginLatency | OriginBottleneck _ _ | HardwareEvaluation => True
  end.

Lemma simplify_no_empty_loop o : no_empty_loop (simplify o).1.2.
Proof.
  induction o as [| |dims n inner IH|v1 s1 o1 mid v2 s2 o2 IH1 IH2|inner f IH|] using origin_nested_ind; cbn; try done.
  - destruct (Z.eqb_spec n 0); done.
  - destruct (simplify o1) as [[p1 b'] t1], (simplify o2) as [[t2 a'] p2]. cbn in IH1, IH2.
    destruct (t2 && _); [done|]. destruct (t1 && _); done.
Qed.

(** The positions that the bound refers to exist. *)
Fixpoint origin_in_range (num_bottlenecks num_levels num_points : nat) (o : FastOrigin) : Prop :=
  match o with
  | FastLatency => True
  | FastBottleneck id _ => id < num_bottlenecks
  | FastLoop level _ inner => level < num_levels ∧ origin_in_range num_bottlenecks num_levels num_points inner
  | FastChain (mkExplained _ _ before) mid_point (mkExplained _ _ after) =>
    mid_point < num_points ∧ origin_in_range num_bottlenecks num_levels num_points before ∧
    origin_in_range num_bottlenecks num_levels num_points after
  | FastScale inner _ => origin_in_range num_bottlenecks num_levels num_points inner
  end.

Definition point_in_range (num_levels : nat) (p : CodePoint) : Prop :=
  match p with CodeInst _ => True | LevelEntry id | LevelExit id => id < num_levels end.

Lemma fast_nested_ind (P : FastOrigin → Prop) :
  P FastLatency → (∀ id level, P (FastBottleneck id level)) → (∀ level iterations inner, P inner → P (FastLoop level iterations inner)) →
  (∀ v1 s1 o1 mid v2 s2 o2, P o1 → P o2 → P (FastChain (mkExplained v1 s1 o1) mid (mkExplained v2 s2 o2))) →
  (∀ inner factor, P inner → P (FastScale inner factor)) → ∀ o, P o.
Proof.
  intros Hlat Hbot Hloop Hchain Hscale. fix IH 1. intros [|id level|level n inner|[v1 s1 o1] mid [v2 s2 o2]|inner f];
    [done|apply Hbot|apply Hloop, IH|by apply Hchain; apply IH|apply Hscale, IH].
Qed.

Lemma convert_point_some levels p : point_in_range (length levels) p → is_Some (convert_point levels p).
Proof.
  destruct p as [id|id|id]; cbn; intros Hp; [by eexists|..];
    destruct (lookup_lt_is_Some_2 levels id Hp) as [l ->]; by eexists.
Qed.

Lemma origin_explain_some bottlenecks levels code_points o :
  Forall (point_in_range (length levels)) code_points →
  origin_in_range (length bottlenecks) (length levels) (length code_points) o →
  is_Some (origin_explain bottlenecks levels code_points o).
Proof.
  intros Hpts. induction o as [|id level|level n inner IH|v1 s1 o1 mid v2 s2 o2 IH1 IH2|inner f IH] using fast_nested_ind; cbn.
  - by eexists.
  - intros Hid. destruct (lookup_lt_is_Some_2 bottlenecks id Hid) as [x ->]. by eexists.
  - intros [Hl Hi]. destruct (IH Hi) as [o ->]. destruct (lookup_lt_is_Some_2 levels level Hl) as [x ->]. by eexists.
  - intros (Hm & H1 & H2). destruct (lookup_lt_is_Some_2 code_points mid Hm) as [p Hp]. rewrite Hp. cbn.
    destruct (convert_point_some levels p) as [x ->]; [by eapply Forall_lookup_1|].
    destruct (IH1 H1) as [b ->], (IH2 H2) as [a ->]. by eexists.
  - intros Hi. destruct (IH Hi) as [o ->]. by eexists.
Qed.

(** ** Properties *)

(** A bound whose levels, code points and bottlenecks exist is explained, with its
    value and its size.  The explanation has no loop without iterations, and simplifying
    it once more changes nothing. *)
Theorem bound_explained (bottlenecks : list string) (levels : list Level) (code_points : list CodePoint) (b : FastBound) :
  Forall (point_in_range (length levels)) code_points →
  origin_in_range (length bottlenecks) (length levels) (length code_points) (bound_origin b) →
  ∃ e, bound_explain bottlenecks levels code_points b = Some e ∧
    bound_value e = bound_value b ∧ bound_size e = bound_size b ∧
    no_empty_loop (bound_origin e) ∧ (simplify (bound_origin e)).1.2 = bound_origin e.
Proof.
  intros Hpts Hr. destruct (origin_explain_some bottlenecks levels code_points _ Hpts Hr) as [o Ho].
  unfold bound_explain. rewrite Ho. cbn. eexists. split; [done|]. split; [done|]. split; [done|].
  split; [apply simplify_no_empty_loop|]. cbn. by rewrite (proj1 (simplify_stable o)).
Qed.

(** Two iterations, of which one is left out: the explanation of the loop. *)
Lemma bound_explained_witness :
  let levels := [mkLevel [0] fast_bound_zero fast_bound_zero [] None] in
  let one := mkExplained (f64_of_Z 1) 1 FastLatency in
  let explained := mkExplained (f64_of_Z 3) 3 (OriginChain (mkExplained (f64_of_Z 1) 1 OriginLatency) (PointEntry [0])
    (mkExplained (f64_of_Z 2) 1 (OriginLoop [0] 2 OriginLatency))) in
  bound_explain [] levels [LevelEntry 0] (fb_chain one 0 (fb_iterate one 2 0)) = Some explained ∧
  no_empty_loop (bound_origin explained).
Proof.
  intros levels one explained.
  assert (bound_explain [] levels [LevelEntry 0] (fb_chain one 0 (fb_iterate one 2 0)) = Some explained) as E by (vm_compute; reflexivity).
  split; [exact E|].
  destruct (bound_explained [] levels [LevelEntry 0] (fb_chain one 0 (fb_iterate one 2 0))) as (e & He & _ & _ & Hl & _).
  - repeat constructor.
  - cbn. lia.
  - rewrite E in He. injection He as <-. exact Hl.
Defined.

(** Latencies of zero are trimmed next to a loop, even an empty one.  But the parts of a
    chain are explained, hence simplified, before the chain: the empty loop has become a
    latency, and the latency next to it is kept. *)
Example empty_loop_not_trimmed :
  let levels := [mkLevel [0] fast_bound_zero fast_bound_zero [] None] in
  let no_time := mkExplained f64_zero 1 OriginLatency in
  (simplify (OriginChain (mkExplained f64_zero 2 (OriginLoop [0] 0 OriginLatency)) (PointEntry [0]) no_time)).1.2 = OriginLatency ∧
  bound_origin <$> bound_explain [] levels [LevelEntry 0] (fb_chain (fb_iterate fast_bound_zero 0 0) 0 fast_bound_zero) =
    Some (OriginChain (mkExplained f64_zero 2 OriginLatency) (PointEntry [0]) (mkExplained f64_zero 2 OriginLatency)).
Proof. vm_compute. split; reflexivity. Qed.

(** The quotients that a bound is taken from. *)
Definition pressure_ratios (self rates : HwPressure) : list f64 :=
  zip_with f64_div (hw_bottlenecks self) (hw_bottlenecks rates) ++ [f64_div (hw_latency self) (hw_latency rates)].

Lemma fast_bound_new_ok value origin : is_nan value = false → fast_bound_new value origin = Some (mkExplained value 1 origin).
Proof. intros Hv. unfold fast_bound_new. by rewrite Hv. Qed.

Lemma ratios_bounds level (pairs : list (f64 * f64)) i :
  Forall (λ x, is_nan x = false) ((λ p, f64_div p.1 p.2) <$> pairs) →
  mapM (λ p : nat * (f64 * f64), fast_bound_new (f64_div p.2.1 p.2.2) (FastBottleneck p.1 level)) (zip (seq i (length pairs)) pairs) =
  Some (zip_with (λ id p, mkExplained (f64_div p.1 p.2) 1 (FastBottleneck id level)) (seq i (length pairs)) pairs).
Proof.
  revert i. induction pairs as [|[x y] pairs IH]; intros i; [done|]. rewrite fmap_cons. intros [Hx Hp]%Forall_cons.
  cbn [length seq zip zip_with mapM fst snd]. rewrite fast_bound_new_ok by done. cbn [mbind option_bind].
  unfold zip in IH. by rewrite IH.
Qed.

Lemma pressure_bound_exact self level rates :
  length (hw_bottlenecks self) = length (hw_bottlenecks rates) → Forall (λ x, is_nan x = false) (pressure_ratios self rates) →
  ∃ b, pressure_bound self level rates = Some b ∧ bound_size b = 1 ∧
    (bound_origin b = FastLatency ∧ bound_value b = f64_div (hw_latency self) (hw_latency rates) ∨
     ∃ id x y, bound_origin b = FastBottleneck id level ∧ hw_bottlenecks self !! id = Some x ∧ hw_bottlenecks rates !! id = Some y ∧
       bound_value b = f64_div x y) ∧
    Forall (λ x, SFleb x (bound_value b) = true) (pressure_ratios self rates).
Proof.
  intros Hlen Hnan. unfold pressure_ratios in Hnan. apply Forall_app in Hnan as [Hn1 [Hn2 _]%Forall_cons].
  unfold pressure_bound. rewrite fast_bound_new_ok by done. cbn [mbind option_bind].
  unfold zip_eq. rewrite (proj2 (Nat.eqb_eq _ _) Hlen). cbn [mbind option_bind].
  set (pairs := zip (hw_bottlenecks self) (hw_bottlenecks rates)).
  assert (zip_with f64_div (hw_bottlenecks self) (hw_bottlenecks rates) = (λ p, f64_div p.1 p.2) <$> pairs) as Ez.
  { rewrite zip_with_zip. apply list_fmap_ext. by intros i [] _. }
  unfold enumerate. rewrite ratios_bounds by (by rewrite <-Ez). cbn [mbind option_bind].
  set (bs := zip_with _ _ _ ++ _).
  assert (∀ b, b ∈ bs ↔ b = mkExplained (f64_div (hw_latency self) (hw_latency rates)) 1 FastLatency ∨
    ∃ id x y, hw_bottlenecks self !! id = Some x ∧ hw_bottlenecks rates !! id = Some y ∧ b = mkExplained (f64_div x y) 1 (FastBottleneck id level)) as Hbs.
  { intros b. unfold bs. rewrite elem_of_app, list_elem_of_singleton, elem_of_lookup_zip_with.
    etrans; [apply or_comm|]. apply or_iff_compat_l. split.
    - intros (i & id & [x y] & -> & Hid & Hp). apply lookup_seq in Hid as [-> _]. unfold pairs in Hp.
      apply lookup_zip_with_Some in Hp as (x' & y' & [= -> ->] & Hx & Hy). by exists i, x', y'.
    - intros (id & x & y & Hx & Hy & ->). assert (pairs !! id = Some (x, y)) as Hp by (apply lookup_zip_with_Some; naive_solver).
      exists id, id, (x, y). split; [done|]. split; [|done]. apply lookup_seq. split; [done|]. by eapply lookup_lt_Some. }
  destruct (bounds_max_spec bs) as (m & -> & Hin & Hmn & Hall).
  - unfold bs. intros [_ ?]%app_nil. done.
  - apply Forall_forall. intros b [->|(id & x & y & Hx & Hy & ->)]%Hbs; [done|]. unfold not_nan. cbn.
    rewrite Forall_forall in Hn1. apply Hn1. apply elem_of_lookup_zip_with. by exists id, x, y.
  - cbn [mbind option_bind]. exists m. split; [done|]. rewrite Forall_forall in Hall. split; [|split].
    + apply Hbs in Hin as [->|(id & x & y & _ & _ & ->)]; done.
    + apply Hbs in Hin as [->|(id & x & y & Hx & Hy & ->)]; [by left|]. right. by exists id, x, y.
    + apply Forall_app. split; [|apply Forall_singleton, (Hall (mkExplained _ 1 FastLatency)), Hbs; by left].
      apply Forall_forall. intros q (id & x & y & -> & Hx & Hy)%elem_of_lookup_zip_with.
      apply (Hall (mkExplained (f64_div x y) 1 (FastBottleneck id level))), Hbs. right. by exists id, x, y.
Qed.

(** The bound derived from a pressure is the greatest of the times that the bottlenecks
    and the latency need at the given rates, and its origin is one that needs that time.
    It is given whenever none of these times is a NaN. *)
Theorem pressure_bound_is_greatest (self : HwPressure) (level : BottleneckLevel) (rates : HwPressure) :
  length (hw_bottlenecks self) = length (hw_bottlenecks rates) → Forall (λ x, is_nan x = false) (pressure_ratios self rates) →
  ∃ b, pressure_bound self level rates = Some b ∧ bound_size b = 1 ∧
    (bound_origin b = FastLatency ∧ bound_value b = f64_div (hw_latency self) (hw_latency rates) ∨
     ∃ id x y, bound_origin b = FastBottleneck id level ∧ hw_bottlenecks self !! id = Some x ∧ hw_bottlenecks rates !! id = Some y ∧
       bound_value b = f64_div x y) ∧
    Forall (λ x, SFleb x (bound_value b) = true) (pressure_ratios self rates).
Proof. apply pressure_bound_exact. Qed.

Lemma pressure_bound_is_greatest_witness :
  let n := f64_of_Z in
  ∃ b, pressure_bound (mkPressure (n 4%Z) [n 6%Z; n 15%Z]) LevelThread (mkPressure (n 1%Z) [n 2%Z; n 3%Z]) = Some b ∧
    b = mkExplained (n 5%Z) 1 (FastBottleneck 1 LevelThread).
Proof.
  intros n. destruct (pressure_bound_is_greatest (mkPressure (n 4%Z) [n 6%Z; n 15%Z]) LevelThread (mkPressure (n 1%Z) [n 2%Z; n 3%Z])) as (b & Hb & _).
  - done.
  - vm_compute. repeat constructor.
  - exists b. split; [exact Hb|]. vm_compute in Hb. injection Hb as <-. vm_compute. reflexivity.
Defined.
