(* ===== verification/DependencyMap.v ===== *)
(** * Latencies between nodes (src/model/dependency_map.rs)

    A graph whose nodes are sorted, with a latency on each edge; the latency of a path is
    the chain of those of its edges, and [latency_to] looks for the best path from every
    node to a given one. *)
From S2P Require Import Prelude Types Utils Float64 HwPressures.
#[local] Open Scope nat_scope.

(** For each node, the latency from each of its dependencies. *)
Record DependencyMap := mkDependencyMap { dep_maps : list (gmap nat FastBound) }.

Definition dependency_map_new (size : nat) : DependencyMap := mkDependencyMap (replicate size ∅).

Definition deps (self : DependencyMap) (to : nat) : option (gmap nat FastBound) := dep_maps self !! to.

Definition add_dep (from to : nat) (latency : FastBound) (self : DependencyMap) : option DependencyMap :=
  rassert (from <? to) ;;
  d ← deps self to;
  let entry := match d !! from with
               | None => latency
               | Some old => if is_better_than latency old then latency else old
               end in
  Some (mkDependencyMap (<[to := <[from := entry]> d]> (dep_maps self))).

(** A node [i] at a known latency from the destination improves its dependencies. *)
Definition relax (i : nat) (lat_to_dest : FastBound) (latencies : list (option FastBound)) (dep : nat * FastBound)
  : option (list (option FastBound)) :=
  let '(pred, lat_to_i) := dep in
  let new_lat := fb_chain lat_to_i i lat_to_dest in
  old_lat ← latencies !! pred;
  Some (match old_lat with
        | Some x => if is_better_than new_lat x then <[pred := Some new_lat]> latencies else latencies
        | None => <[pred := Some new_lat]> latencies
        end).

Definition latency_step (self : DependencyMap) (latencies : list (option FastBound)) (i : nat)
  : option (list (option FastBound)) :=
  lat ← latencies !! i;
  match lat with
  | Some lat_to_dest => d ← deps self i; foldM (relax i lat_to_dest) (map_to_list d) latencies
  | None => Some latencies
  end.

(** The dependencies of the destination. *)
Definition direct_latency (latencies : list (option FastBound)) (dep : nat * FastBound) : option (list (option FastBound)) :=
  _ ← latencies !! dep.1; Some (<[dep.1 := Some dep.2]> latencies).

Definition latency_to (self : DependencyMap) (to : nat) : option (list (option FastBound)) :=
  d ← deps self to;
  latencies ← foldM direct_latency (map_to_list d) (replicate to None);
  foldM (latency_step self) (reverse (seq 0 to)) latencies.

Definition latency (self : DependencyMap) (from to : nat) : option (option FastBound) :=
  l ← latency_to self to; l !! from.

(** * Theorems *)

(** Dependencies only go forward. *)
Definition dep_wf (self : DependencyMap) : Prop :=
  ∀ to d from, deps self to = Some d → is_Some (d !! from) → from < to.

Definition dep_edge (self : DependencyMap) (from to : nat) (b : FastBound) : Prop :=
  ∃ d, deps self to = Some d ∧ d !! from = Some b.

(** The latency of a path, chained from the destination. *)
Inductive dep_path (self : DependencyMap) (to : nat) : nat → FastBound → Prop :=
| path_edge from b : dep_edge self from to b → dep_path self to from b
| path_chain from mid b rest :
    dep_edge self from mid b → dep_path self to mid rest → dep_path self to from (fb_chain b mid rest).

Lemma dependency_map_new_wf size : dep_wf (dependency_map_new size).
Proof.
  intros to d from Hd [b Hb]. unfold deps, dependency_map_new in Hd. cbn in Hd.
  apply lookup_replicate in Hd as [-> _]. by rewrite lookup_empty in Hb.
Qed.

Lemma add_dep_spec from to b self :
  from < to → to < length (dep_maps self) →
  ∃ self' entry, add_dep from to b self = Some self' ∧ length (dep_maps self') = length (dep_maps self) ∧
    (dep_wf self → dep_wf self') ∧ dep_edge self' from to entry ∧
    (entry = b ∨ dep_edge self from to entry ∧ is_better_than b entry = false) ∧
    ∀ f t e, (f, t) ≠ (from, to) → dep_edge self' f t e ↔ dep_edge self f t e.
Proof.
  intros Hlt Hto. unfold add_dep. rewrite (proj2 (Nat.ltb_lt _ _) Hlt). cbn [rassert mbind option_bind].
  destruct (lookup_lt_is_Some_2 _ _ Hto) as [d Hd]. unfold deps at 1. rewrite Hd. cbn [mbind option_bind].
  set (entry := match d !! from with None => b | _ => _ end).
  eexists _, entry. split; [done|]. cbn. rewrite length_insert. split; [done|].
  assert (∀ t d', deps (mkDependencyMap (<[to:=<[from:=entry]> d]> (dep_maps self))) t = Some d' ↔
    if decide (t = to) then d' = <[from:=entry]> d else deps self t = Some d') as Hdeps.
  { intros t d'. unfold deps. cbn. case_decide as E.
    - subst t. rewrite list_lookup_insert_eq by done. naive_solver.
    - by rewrite list_lookup_insert_ne by done. }
  split; [|split; [|split]].
  - intros Hwf t d' f Hd'%Hdeps Hf. case_decide as E; [|by eapply Hwf]. subst.
    destruct (decide (f = from)) as [->|Hne]; [done|]. rewrite lookup_insert_ne in Hf by done. by apply (Hwf to d).
  - exists (<[from:=entry]> d). split; [|apply lookup_insert_eq]. apply Hdeps. by rewrite decide_True.
  - unfold entry. destruct (d !! from) as [old|] eqn:Eo; [|by left].
    destruct (is_better_than b old) eqn:Eb; [by left|]. right. split; [|done]. by exists d.
  - intros f t e Hne. unfold dep_edge. split.
    + intros (d' & Hd' & He). apply Hdeps in Hd'. case_decide as E; [|by exists d'].
      subst. rewrite lookup_insert_ne in He by congruence. by exists d.
    + intros (d' & Hd' & He). destruct (decide (t = to)) as [->|Ht].
      * unfold deps in Hd'. rewrite Hd in Hd'. injection Hd' as ->. exists (<[from:=entry]> d').
        split; [apply Hdeps; by rewrite decide_True|]. by rewrite lookup_insert_ne by congruence.
      * exists d'. split; [apply Hdeps; by rewrite decide_False|done].
Qed.

(** ** The search *)
Section search.
Context (self : DependencyMap) (to : nat) (Hwf : dep_wf self).

(** The latencies found are those of paths. *)
Definition found (l : list (option FastBound)) : Prop :=
  length l = to ∧ ∀ from b, l !! from = Some (Some b) → dep_path self to from b.

(** The node has been reached. *)
Definition reached (l : list (option FastBound)) (from : nat) : Prop := ∃ b, l !! from = Some (Some b).

Lemma relax_spec i lat l pred b : found l → dep_edge self pred i b → dep_path self to i lat → pred < to →
  ∃ l', relax i lat l (pred, b) = Some l' ∧ found l' ∧ reached l' pred ∧ (∀ f, reached l f → reached l' f) ∧
    ∀ f, f ≠ pred → l' !! f = l !! f.
Proof.
  intros [Hlen Hl] He Hp Hlt. unfold relax. destruct (lookup_lt_is_Some_2 l pred) as [old Hold]; [lia|].
  rewrite Hold. cbn [mbind option_bind].
  assert (found (<[pred := Some (fb_chain b i lat)]> l) ∧ reached (<[pred := Some (fb_chain b i lat)]> l) pred ∧
    (∀ f, reached l f → reached (<[pred := Some (fb_chain b i lat)]> l) f) ∧
    ∀ f, f ≠ pred → <[pred := Some (fb_chain b i lat)]> l !! f = l !! f) as Hins.
  { split; [split|split; [|split]].
    - by rewrite length_insert.
    - intros f e Hf. destruct (decide (f = pred)) as [->|Hne].
      + rewrite list_lookup_insert_eq in Hf by lia. injection Hf as <-. by eapply path_chain.
      + rewrite list_lookup_insert_ne in Hf by done. by apply Hl.
    - eexists. apply list_lookup_insert_eq. lia.
    - intros f [e Hf]. destruct (decide (f = pred)) as [->|Hne].
      + eexists. apply list_lookup_insert_eq. lia.
      + exists e. by rewrite list_lookup_insert_ne.
    - intros f Hne. by rewrite list_lookup_insert_ne. }
  destruct old as [x|]; [destruct (is_better_than _ x)|]; eexists; (split; [done|]); try exact Hins.
  split; [done|]. split; [by exists x|]. done.
Qed.

Lemma relax_all i lat l ds : found l → dep_path self to i lat → i < to →
  (∀ p b, (p, b) ∈ ds → dep_edge self p i b ∧ p < i) →
  ∃ l', foldM (relax i lat) ds l = Some l' ∧ found l' ∧ (∀ f, reached l f → reached l' f) ∧
    (∀ p b, (p, b) ∈ ds → reached l' p) ∧ ∀ f, i ≤ f → l' !! f = l !! f.
Proof.
  intros Hl Hp Hi. revert l Hl. induction ds as [|[p b] ds IH]; intros l Hl Hds; cbn [foldM].
  - exists l. split; [done|]. split; [done|]. split; [done|]. split; [|done]. intros p b H. by apply elem_of_nil in H.
  - destruct (Hds p b) as [He Hpi]; [by left|].
    destruct (relax_spec i lat l p b Hl He Hp) as (l1 & -> & Hl1 & Hr1 & Hk1 & Hs1); [lia|]. cbn [mbind option_bind].
    destruct (IH l1 Hl1) as (l2 & -> & Hl2 & Hk2 & Hr2 & Hs2); [intros q c Hq; apply Hds; by right|].
    exists l2. split; [done|]. split; [done|]. split; [by intros f Hf; apply Hk2, Hk1|]. split.
    + intros q c Hq. apply elem_of_cons in Hq as [[= -> ->]|Hq]; [by apply Hk2|by eapply Hr2].
    + intros f Hf. rewrite Hs2 by done. apply Hs1. lia.
Qed.

(** The nodes from [i] on have improved their dependencies. *)
Definition relaxed (l : list (option FastBound)) (i : nat) : Prop :=
  (∀ from b, dep_edge self from to b → reached l from) ∧
  (∀ from mid b, dep_edge self from mid b → i ≤ mid < to → reached l mid → reached l from).

Lemma latency_loop n l : n ≤ to → to ≤ length (dep_maps self) → found l → relaxed l n →
  ∃ l', foldM (latency_step self) (reverse (seq 0 n)) l = Some l' ∧ found l' ∧ relaxed l' 0.
Proof.
  revert l. induction n as [|n IH]; intros l Hn Hlen Hl Hr; [by exists l|].
  assert (reverse (seq 0 (S n)) = n :: reverse (seq 0 n)) as -> by (by rewrite seq_S, reverse_app).
  cbn [foldM]. unfold latency_step at 2. destruct (lookup_lt_is_Some_2 l n) as [lat Hlat]; [destruct Hl; lia|]. rewrite Hlat. cbn [mbind option_bind].
  destruct lat as [lat|].
  - destruct (lookup_lt_is_Some_2 (dep_maps self) n) as [d Hd]; [lia|]. unfold deps at 1. rewrite Hd. cbn [mbind option_bind].
    destruct (relax_all n lat l (map_to_list d)) as (l' & -> & Hl' & Hk & Hall & Hs); [done|by apply Hl|lia| |].
    { intros p b Hpb%elem_of_map_to_list. split; [by exists d|]. eapply Hwf; [exact Hd|by exists b]. }
    cbn [mbind option_bind]. apply IH; [lia|done|done|]. destruct Hr as [Hr1 Hr2]. split.
    + intros from b He. by eapply Hk, Hr1.
    + intros from mid b He Hm [e Hmid]. destruct (decide (mid = n)) as [->|Hne].
      * destruct He as (d' & Hd' & Hb). unfold deps in Hd'. rewrite Hd in Hd'. injection Hd' as <-.
        eapply Hall. by apply elem_of_map_to_list.
      * rewrite Hs in Hmid by lia. apply Hk. eapply Hr2; [exact He|lia|by exists e].
  - cbn [mbind option_bind]. apply IH; [lia|done|done|]. destruct Hr as [Hr1 Hr2]. split; [done|].
    intros from mid b He Hm [e Hmid]. destruct (decide (mid = n)) as [->|Hne]; [congruence|].
    eapply Hr2; [exact He|lia|by exists e].
Qed.

Lemma direct_all ds l : found l → (∀ p b, (p, b) ∈ ds → dep_edge self p to b ∧ p < to) →
  ∃ l', foldM direct_latency ds l = Some l' ∧ found l' ∧ (∀ f, reached l f → reached l' f) ∧ (∀ p b, (p, b) ∈ ds → reached l' p).
Proof.
  revert l. induction ds as [|[p b] ds IH]; intros l [Hlen Hl] Hds; cbn [foldM].
  - exists l. split; [done|]. split; [done|]. split; [done|]. intros p b H. by apply elem_of_nil in H.
  - destruct (Hds p b) as [He Hpt]; [by left|]. unfold direct_latency at 2.
    destruct (lookup_lt_is_Some_2 l p) as [x Hx]; [lia|]. cbn [fst snd]. rewrite Hx. cbn [mbind option_bind].
    destruct (IH (<[p := Some b]> l)) as (l' & -> & Hl' & Hk & Hr).
    + split; [by rewrite length_insert|]. intros f e Hf. destruct (decide (f = p)) as [->|Hne].
      * rewrite list_lookup_insert_eq in Hf by lia. injection Hf as <-. by apply path_edge.
      * rewrite list_lookup_insert_ne in Hf by done. by apply Hl.
    + intros q c Hq. apply Hds. by right.
    + assert (reached (<[p := Some b]> l) p) as Hp by (exists b; apply list_lookup_insert_eq; lia).
      exists l'. split; [done|]. split; [done|]. split.
      * intros f [e Hf]. apply Hk. destruct (decide (f = p)) as [->|Hne]; [done|]. exists e. by rewrite list_lookup_insert_ne.
      * intros q c Hq. apply elem_of_cons in Hq as [[= -> ->]|Hq]; [by apply Hk|by eapply Hr].
Qed.

Lemma dep_edge_lt from t b : dep_edge self from t b → from < t.
Proof. intros (d & Hd & Hb). eapply Hwf; [exact Hd|by exists b]. Qed.

Lemma dep_path_lt from b : dep_path self to from b → from < to.
Proof. induction 1 as [from b He|from mid b rest He Hp IH]; [by eapply dep_edge_lt|]. apply dep_edge_lt in He. lia. Qed.

Lemma relaxed_reached l from b : relaxed l 0 → dep_path self to from b → reached l from.
Proof.
  intros [Hr1 Hr2]. induction 1 as [from b He|from mid b rest He Hp IH]; [by eapply Hr1|].
  eapply Hr2; [exact He| |done]. apply dep_path_lt in Hp. lia.
Qed.

Lemma latency_to_exact : to < length (dep_maps self) →
  ∃ l, latency_to self to = Some l ∧ length l = to ∧
    (∀ from b, l !! from = Some (Some b) → dep_path self to from b) ∧
    (∀ from b, dep_path self to from b → ∃ best, l !! from = Some (Some best)).
Proof.
  intros Hto. destruct (lookup_lt_is_Some_2 _ _ Hto) as [d Hd]. unfold latency_to. unfold deps at 1. rewrite Hd. cbn [mbind option_bind].
  destruct (direct_all (map_to_list d) (replicate to None)) as (l & -> & Hl & _ & Hr).
  - split; [apply length_replicate|]. intros from b [? _]%lookup_replicate. done.
  - intros p b Hpb%elem_of_map_to_list. assert (dep_edge self p to b) as He by (by exists d). split; [done|]. by eapply dep_edge_lt.
  - cbn [mbind option_bind]. destruct (latency_loop to l) as (l' & -> & [Hlen Hl'] & Hr'); [done|lia|done| |].
    + split; [|intros; lia]. intros from b (d' & Hd' & Hb). unfold deps in Hd'. rewrite Hd in Hd'. injection Hd' as <-.
      eapply Hr. by apply elem_of_map_to_list.
    + exists l'. split; [done|]. split; [done|]. split; [done|]. intros from b Hp. by apply (relaxed_reached l' from b).
Qed.
End search.

(** ** Properties *)

(** C15: In a graph whose edges go forward, the search for the latencies to a node returns.
    A latency it reports is that of a path of dependencies, so that it is a lower bound
    whenever those of the edges are, and it reports one for every node with a path. *)
Theorem latency_to_paths (self : DependencyMap) (to : nat) :
  dep_wf self → to < length (dep_maps self) →
  ∃ l, latency_to self to = Some l ∧ length l = to ∧
    (∀ from b, l !! from = Some (Some b) → dep_path self to from b) ∧
    (∀ from b, dep_path self to from b → ∃ best, l !! from = Some (Some best)).
Proof. intros Hwf Hto. by apply latency_to_exact. Qed.

(** Four nodes: the path through the second one is the longest to the last one, and the
    third one has no dependency to it. *)
Lemma latency_to_paths_witness :
  let lat n := mkExplained (f64_of_Z n) 1 FastLatency in
  let self := default (dependency_map_new 0)
    (m ← add_dep 0 1 (lat 5%Z) (dependency_map_new 4); m ← add_dep 1 3 (lat 2%Z) m; m ← add_dep 0 3 (lat 4%Z) m; add_dep 0 2 (lat 9%Z) m) in
  ∃ l, latency_to self 3 = Some l ∧ (fmap (M := option) bound_value <$> l) = [Some (f64_of_Z 7); Some (f64_of_Z 2); None] ∧
    ∃ b, l !! 0 = Some (Some b) ∧ dep_path self 3 0 b.
Proof.
  intros lat self. destruct (latency_to_paths self 3) as (l & Hl & _ & Hp & _).
  - intros to d from Hd Hf. assert (∃ m, self = mkDependencyMap m ∧ forallb (λ p, forallb (λ q, q.1 <? p.1) (map_to_list p.2)) (enumerate m) = true) as (m & Hm & Hall).
    { eexists. split; [vm_compute; reflexivity|vm_compute; reflexivity]. }
    rewrite Hm in Hd. unfold deps in Hd. cbn [dep_maps] in Hd. rewrite forallb_forall in Hall.
    assert ((to, d) ∈ enumerate m) as Hin.
    { unfold enumerate. apply elem_of_lookup_zip_with. exists to, to, d. split; [done|]. split; [|done]. apply lookup_seq.
      split; [done|]. by eapply lookup_lt_Some. }
    apply list_elem_of_In, Hall in Hin. rewrite forallb_forall in Hin. destruct Hf as [b Hb].
    assert ((from, b) ∈ map_to_list d) as Hfb by (by apply elem_of_map_to_list). apply list_elem_of_In, Hin, Nat.ltb_lt in Hfb. exact Hfb.
  - vm_compute. lia.
  - exists l. split; [exact Hl|]. assert (fmap (M := list) (fmap (M := option) bound_value) <$> latency_to self 3 = Some [Some (f64_of_Z 7); Some (f64_of_Z 2); None]) as E
      by (vm_compute; reflexivity).
    rewrite Hl in E. cbn in E. assert ((fmap (M := option) bound_value <$> l) = [Some (f64_of_Z 7); Some (f64_of_Z 2); None]) as El by (by injection E).
    split; [exact El|]. destruct l as [|[b|] l]; [done| |done]. exists b. split; [done|]. by apply Hp.
Defined.
