(* ===== verification/LocalInfo.v ===== *)
(** * Local information on the statements (src/model/local_info.rs)

    How statements are nested in the implementations of a space, the pressure of one
    instance of each statement and the parallelism that is available.  What the model asks
    of a device and of its context is the class [ModelContext]. *)
From S2P Require Import Prelude VecSet Types Size Utils Float64 Domains SparseVec Operands Objects Function EnumDomains Choices ModelSizes HwPressures.
#[local] Open Scope nat_scope.

#[global] Instance StmtId_countable : Countable StmtId :=
  inj_countable' (λ s, match s with SInst i => inl i | SDim d => inr d end)
    (λ x, match x with inl i => SInst i | inr d => SDim d end) ltac:(abstract by intros []).

(** The derived order of [StmtId]. *)
#[global, program] Instance StmtId_ord : RustOrd StmtId := {| rcmp := stmt_cmp |}.
Next Obligation.
  intros [i|i] [j|j]; cbn; (split; [|intros [= <-]]); try done; try (by rewrite Nat.compare_refl).
  - by intros ->%Nat.compare_eq.
  - by intros ->%Nat.compare_eq.
Qed.
Next Obligation. intros [i|i] [j|j]; cbn; try done; apply Nat.compare_antisym. Qed.
Next Obligation. intros [i|i] [j|j] [k|k]; cbn; try done; rewrite !Nat.compare_lt_iff; lia. Qed.

(** [any] and [all] stop at the first element that decides. *)
Fixpoint anyM {A : Type} (f : A → option bool) (l : list A) : option bool :=
  match l with
  | [] => Some false
  | x :: l => b ← f x; if (b : bool) then Some true else anyM f l
  end.

Fixpoint allM {A : Type} (f : A → option bool) (l : list A) : option bool :=
  match l with
  | [] => Some true
  | x :: l => b ← f x; if (b : bool) then allM f l else Some false
  end.

Fixpoint filterM {A : Type} (f : A → option bool) (l : list A) : option (list A) :=
  match l with
  | [] => Some []
  | x :: l => b ← f x; rest ← filterM f l; Some (if (b : bool) then x :: rest else rest)
  end.

(** ** Nesting *)
Record Nesting := mkNesting {
  inner_dims : list DimId;
  inner_stmts : list StmtId;
  outer_dims : list DimId;
  before_self : list DimId;
  after_self : list DimId;
  bigger_merged_dims : list DimId;
  has_inner_thread_dims : bool;
  num_unmapped_threads : PartialSize;
  max_threads_per_block : PartialSize
}.

(** ** The device and its context *)
Class ModelContext (D Ctx : Type) := {
  bottlenecks : Ctx → list string;
  thread_rates : Ctx → HwPressure;
  block_rates : Ctx → HwPressure;
  total_rates : Ctx → HwPressure;
  block_parallelism : Ctx → SearchSpace D → Z;
  device_pressure : Ctx → SearchSpace D → gmap DimId Range → gmap StmtId Nesting → StmtId → option HwPressure;
  loop_iter_pressure : Ctx → Z → HwPressure * HwPressure;
  additive_indvar_pressure : Ctx → Ty → HwPressure;
  multiplicative_indvar_pressure : Ctx → Ty → HwPressure;
  add_block_overhead : Ctx → FactorRange → FactorRange → Range → HwPressure → option HwPressure;
  lower_type : Ctx → Ty → SearchSpace D → option Ty
}.

Section local_info.
Context `{Profile, KeyRemoval, NumInteger} {D Ctx : Type} `{ChoiceDomains D, SizeContext Ctx, ModelContext D Ctx}.
Context (space : SearchSpace D) (ctx : Ctx).

Definition all_dims : list DimId := dim_id <$> sv_iter (dims (body (ir_instance space))).

Definition size_of (d : DimId) : option PartialSize := x ← dim d (ir_instance space); Some (dim_size x).

(** The product of the sizes of dimensions. *)
Definition dims_product (l : list DimId) : option PartialSize := sizes ← mapM size_of l; psize_product sizes.

(** [Nesting::get_iteration_dims]. *)
Definition outer_step (stmt : StmtId) (outer : list DimId) (d : DimId) : option (list DimId) :=
  if decide (stmt = SDim d) then Some outer else
  order ← get_order (domain space) (SDim d) stmt;
  if ed_contains Order.OUTER order then
    ok ← allM (λ other, ord ← get_order (domain space) (SDim d) (SDim other); Some (negb (ed_contains ord Order.MERGED))) outer;
    Some (if (ok : bool) then outer ++ [d] else outer)
  else Some outer.

Definition get_iteration_dims (stmt : StmtId) : option (list DimId) :=
  dims ← match stmt with
         | SInst id => i ← inst id (ir_instance space); Some (elements (iter_dims i))
         | SDim _ => foldM (outer_step stmt) all_dims []
         end;
  Some (vs_new dims).

(** The lists that the first loop of [Nesting::compute] fills. *)
Record NestingLists := mkNestingLists {
  nl_inner_dims : list DimId;
  nl_inner_stmts : list StmtId;
  nl_before_self : list DimId;
  nl_after_self : list DimId;
  nl_bigger_merged : list DimId;
  nl_inner_threads : bool
}.

Definition push_if {A : Type} (b : bool) (x : A) (l : list A) : list A := if b then l ++ [x] else l.

Definition nesting_step (stmt : StmtId) (acc : NestingLists) (other_stmt : StmtId) : option NestingLists :=
  if decide (other_stmt = stmt) then Some acc else
  order ← get_order (domain space) other_stmt stmt;
  let inner_stmts := push_if (ed_contains Order.INNER order) other_stmt (nl_inner_stmts acc) in
  match other_stmt with
  | SInst _ =>
    Some (mkNestingLists (nl_inner_dims acc) inner_stmts (nl_before_self acc) (nl_after_self acc) (nl_bigger_merged acc)
      (nl_inner_threads acc))
  | SDim dim =>
    other_kind ← get_dim_kind (domain space) dim;
    Some (mkNestingLists
      (push_if (ed_contains Order.INNER order) dim (nl_inner_dims acc)) inner_stmts
      (push_if (ed_contains (ed_bitor Order.INNER Order.BEFORE) order) dim (nl_before_self acc))
      (push_if (ed_contains (ed_bitor Order.OUTER Order.AFTER) order) dim (nl_after_self acc))
      (push_if (ed_intersects order Order.MERGED && bool_decide (rcmp other_stmt stmt = Gt)) dim (nl_bigger_merged acc))
      (if ed_intersects order Order.INNER && (other_kind =? DimKind.THREAD)%Z then true else nl_inner_threads acc))
  end.

(** Whether a thread dimension is mapped to one of the outer dimensions. *)
Definition is_mapped_out (outer_dims : list DimId) (dim_id : DimId) : option bool :=
  anyM (λ other,
    if decide (dim_id = other) then Some true else
    x ← dim other (ir_instance space);
    match possible_sizes x with
    | None => Some false
    | Some _ => mapping ← get_thread_mapping (domain space) dim_id other; Some (ed_intersects mapping ThreadMapping.MAPPED)
    end) outer_dims.

(** [Nesting::compute]. *)
Definition nesting_compute (stmt : StmtId) : option Nesting :=
  l ← foldM (nesting_step stmt) (statements (ir_instance space)) (mkNestingLists [] [] [] [] [] false);
  outer_dims ← get_iteration_dims stmt;
  unmapped ← filterM (λ d, b ← is_mapped_out outer_dims d; Some (negb b)) (thread_dims (body (ir_instance space)));
  num_unmapped_threads ← dims_product unmapped;
  threads ← filterM (λ d, kind ← get_dim_kind (domain space) d; Some (ed_intersects kind DimKind.THREAD)) outer_dims;
  max_threads_per_block ← dims_product threads;
  Some (mkNesting (vs_new (nl_inner_dims l)) (vs_new (nl_inner_stmts l)) outer_dims (vs_new (nl_before_self l))
    (vs_new (nl_after_self l)) (vs_new (nl_bigger_merged l)) (nl_inner_threads l) num_unmapped_threads max_threads_per_block).

(** ** Parallelism *)
Record Parallelism := mkParallelism {
  min_num_blocks : Z;
  min_num_threads_per_blocks : Z;
  min_num_threads : Z;
  lcm_num_blocks : Z
}.

Definition parallelism_default : Parallelism := mkParallelism 1 1 1 1.

Definition parallelism_combine (self rhs : Parallelism) : option Parallelism :=
  l ← num_lcm 64 (lcm_num_blocks self) (lcm_num_blocks rhs);
  Some (mkParallelism (Z.min (min_num_blocks self) (min_num_blocks rhs))
    (Z.min (min_num_threads_per_blocks self) (min_num_threads_per_blocks rhs))
    (Z.min (min_num_threads self) (min_num_threads rhs)) l).

(** The sizes of the block dimensions: those that are sure to be, and those that may be. *)
Definition block_sizes (acc : PartialSize * PartialSize) (d : DimId) : option (PartialSize * PartialSize) :=
  let '(min_size_blocks, max_size_blocks) := acc in
  kind ← get_dim_kind (domain space) d;
  if ed_intersects kind DimKind.BLOCK then
    size ← size_of d;
    max_size_blocks ← psize_mul_assign max_size_blocks size;
    if (kind =? DimKind.BLOCK)%Z then min_size_blocks ← psize_mul_assign min_size_blocks size; Some (min_size_blocks, max_size_blocks)
    else Some (min_size_blocks, max_size_blocks)
  else Some acc.

Definition inst_parallelism (nesting : gmap StmtId Nesting) (size_thread_dims : PartialSize) (min_threads_per_blocks : Z)
    (inst : InstId) : option Parallelism :=
  n ← nesting !! SInst inst;
  '(min_size_blocks, max_size_blocks) ← foldM block_sizes (outer_dims n) (psize_default, psize_default);
  min_num_blocks ← sr_min <$> bounds space ctx min_size_blocks;
  lcm_num_blocks ← fr_lcm <$> factors space ctx max_size_blocks;
  size_threads_and_blocks ← psize_mul min_size_blocks size_thread_dims;
  min_num_threads ← sr_min <$> bounds space ctx size_threads_and_blocks;
  Some (mkParallelism min_num_blocks min_threads_per_blocks min_num_threads lcm_num_blocks).

Definition parallelism (nesting : gmap StmtId Nesting) : option Parallelism :=
  size_thread_dims ← dims_product (thread_dims (body (ir_instance space)));
  min_threads_per_blocks ← sr_min <$> bounds space ctx size_thread_dims;
  l ← mapM (λ i, inst_parallelism nesting size_thread_dims min_threads_per_blocks (inst_id i)) (sv_iter (insts (body (ir_instance space))));
  match l with
  | [] => Some parallelism_default
  | p :: l => foldM parallelism_combine l p
  end.

(** ** Local information *)
Record LocalInfo := mkLocalInfo {
  nesting : gmap StmtId Nesting;
  hw_pressure : gmap StmtId HwPressure;
  dim_overhead : gmap DimId (HwPressure * HwPressure);
  thread_overhead : HwPressure;
  li_parallelism : Parallelism
}.

(** The tables that the induction variables change. *)
Definition IndvarTables : Type := gmap StmtId HwPressure * gmap DimId (HwPressure * HwPressure) * HwPressure.

(** [add_indvar_pressure]; [usub] is the subtraction of a size greater than one. *)
Definition add_indvar_dim (dim_sizes : gmap DimId Range) (indvar : InductionVar LoweringMap) (tables : IndvarTables) (dim : DimId)
  : option IndvarTables :=
  let '(hw_pressure, dim_overhead, thread_overhead) := tables in
  dim_kind ← get_dim_kind (domain space) dim;
  if ed_intersects dim_kind DimKind.VECTOR then Some tables else
  let t := default (TyI 32) (lower_type ctx (operand_t (ind_base indvar)) space) in
  let overhead :=
    if ed_intersects dim_kind (ed_bitor DimKind.UNROLL DimKind.LOOP) then additive_indvar_pressure ctx t
    else multiplicative_indvar_pressure ctx t in
  size ← sr_min <$> dim_sizes !! dim;
  if ed_intersects dim_kind (ed_bitor DimKind.THREAD DimKind.BLOCK) then
    thread_overhead ← add_parallel thread_overhead overhead;
    Some (hw_pressure, dim_overhead, thread_overhead)
  else if (1 <? size)%Z then
    o ← dim_overhead !! dim;
    o1 ← add_parallel o.1 overhead;
    let overhead := repeat_parallel (f64_of_Z (size - 1)) overhead in
    p ← hw_pressure !! SDim dim;
    p ← add_parallel p overhead;
    Some (<[SDim dim := p]> hw_pressure, <[dim := (o1, o.2)]> dim_overhead, thread_overhead)
  else Some tables.

Definition add_indvar_pressure (dim_sizes : gmap DimId Range) (tables : IndvarTables) (indvar : InductionVar LoweringMap)
  : option IndvarTables :=
  foldM (add_indvar_dim dim_sizes indvar) (ind_dims indvar).*1 tables.

(** Tables collected from an iterator. *)
Definition collect_map {K V : Type} `{Countable K} (f : K → option V) (keys : list K) : option (gmap K V) :=
  l ← mapM (λ k, v ← f k; Some (k, v)) keys; Some (list_to_map (reverse l)).

Definition stmt_pressure (dim_sizes : gmap DimId Range) (nestings : gmap StmtId Nesting) (stmt : StmtId) : option HwPressure :=
  is_thread ← match stmt with
              | SDim id => kind ← get_dim_kind (domain space) id; Some (kind =? DimKind.THREAD)%Z
              | SInst _ => Some false
              end;
  zero ← (if (is_thread : bool) then n ← nestings !! stmt; Some (has_inner_thread_dims n) else Some false);
  if (zero : bool) then Some (pressure_zero (bottlenecks ctx)) else device_pressure ctx space dim_sizes nestings stmt.

Definition overhead_of_dim (nestings : gmap StmtId Nesting) (d : DimId) : option (HwPressure * HwPressure) :=
  kind ← get_dim_kind (domain space) d;
  zero ← (if (kind =? DimKind.THREAD)%Z then n ← nestings !! SDim d; Some (has_inner_thread_dims n) else Some false);
  Some (if (zero : bool) then (pressure_zero (bottlenecks ctx), pressure_zero (bottlenecks ctx)) else loop_iter_pressure ctx kind).

(** [LocalInfo::compute]. *)
Definition local_info_compute : option LocalInfo :=
  dim_sizes ← collect_map (λ d, size ← size_of d; bounds space ctx size) all_dims;
  nestings ← collect_map nesting_compute (statements (ir_instance space));
  hw_pressure ← collect_map (stmt_pressure dim_sizes nestings) (statements (ir_instance space));
  dim_overhead ← collect_map (overhead_of_dim nestings) all_dims;
  par ← parallelism nestings;
  '(hw_pressure, dim_overhead, thread_overhead) ←
    foldM (add_indvar_pressure dim_sizes) (induction_vars (body (ir_instance space)))
      (hw_pressure, dim_overhead, pressure_zero (bottlenecks ctx));
  Some (mkLocalInfo nestings hw_pressure dim_overhead thread_overhead par).
End local_info.
