(* ===== verification/Levels.v ===== *)
(** * Levels of the latency graph (src/model/level.rs)

    A level is the intersection of the bodies of several loops.  [levels_generate] lists
    the levels of a space, and [LevelDag] has a map of latencies for each set of dimensions
    that may already have been processed, with the actions that go from one to others. *)
From S2P Require Import Prelude VecSet Types Size Utils Orders Float64 Domains SparseVec Operands Objects Function Dag.
From S2P Require Import EnumDomains Choices ModelSizes HwPressures DependencyMap LocalInfo.
#[local] Open Scope nat_scope.

(** A dim-map that must be accounted for. *)
Record LevelDimMap := mkLevelDimMap {
  ldm_src : InstId; ldm_dst : InstId; ldm_src_dims : list DimId; ldm_dst_dims : list DimId
}.

(** How the sequential dimensions of a level are repeated. *)
Record RepeatLevel := mkRepeatLevel { rl_level_id : nat; rl_iterations : Z }.

(** An action to perform on the [LevelDag]. *)
Inductive DagAction := Repeat (r : RepeatLevel) | ApplyDimMap (m : LevelDimMap).

Record LevelDag := mkLevelDag {
  node_ids : gmap (list DimId) nat;
  level_nodes : list (list RepeatLevel * list LevelDimMap * DependencyMap)
}.

(** [intersect_sets]. *)
Definition intersect_sets {A : Type} `{RustOrd A} (sets : list (list A)) : option (list A) :=
  match sets with [] => None | s :: sets => Some (foldl vs_intersect s sets) end.

(** [Iterator::unique]. *)
Definition unique {A : Type} `{EqDecision A} (l : list A) : list A :=
  foldl (λ seen x, if decide (x ∈ seen) then seen else seen ++ [x]) [] l.

(** [lhs >= rhs] on sets, from [partial_cmp]. *)
Definition vs_geb {A : Type} `{RustOrd A} (lhs rhs : list A) : bool :=
  match vs_partial_cmp lhs rhs with Some Gt | Some Eq => true | _ => false end.

(** [lhs <= rhs]. *)
Definition vs_leb {A : Type} `{RustOrd A} (lhs rhs : list A) : bool :=
  match vs_partial_cmp lhs rhs with Some Lt | Some Eq => true | _ => false end.

(** [Dag::from_order], for a comparison that may panic: a node is compared with those
    before it. *)
Definition from_order_checked {T : Type} (cmp : T → T → option (option comparison)) (nodes : list T) : option (Dag T) :=
  _ ← mapM (λ p : nat * T, mapM (cmp p.2) (take p.1 nodes)) (enumerate nodes);
  from_order (λ a b, default None (cmp a b)) nodes.

(** [value.is(other).is_true()] on an enum. *)
Definition ed_is_true (value other : Z) : bool :=
  let o := ed_restrict other value in negb (ed_is_failed o) && (o =? value)%Z.

Section levels.
Context `{Profile, KeyRemoval, NumInteger} {D Ctx : Type} `{ChoiceDomains D, SizeContext Ctx, ModelContext D Ctx}.
Context (space : SearchSpace D) (ctx : Ctx) (local_info : LocalInfo).

Definition nesting_of (stmt : StmtId) : option Nesting := nesting local_info !! stmt.

(** [must_consider_dim]. *)
Definition must_consider_dim (d : DimId) : option bool :=
  kind ← get_dim_kind (domain space) d;
  Some (negb (kind =? DimKind.BLOCK)%Z && negb (ed_intersects kind DimKind.VECTOR)).

(** Whether the dimension is sure to be sequential, if it is not a block. *)
Definition is_sequential (d : DimId) : option bool :=
  kind ← get_dim_kind (domain space) d;
  Some (ed_is_true (ed_bitand kind (ed_not dim_kind_enum DimKind.BLOCK)) DimKind.SEQUENTIAL).

(** ** Pressure *)

(** The pressure of the threads that start, at the root level. *)
Definition init_threads (bound_level : BottleneckLevel) (pressure : HwPressure) : option HwPressure :=
  let p := li_parallelism local_info in
  let min_num_threads := match bound_level with
                         | LevelGlobal => min_num_threads p
                         | LevelBlock => min_num_threads_per_blocks p
                         | LevelThread => 1%Z
                         end in
  init_pressure ← (if level_leb bound_level LevelBlock then
                     let num_threads := factor_new_fixed min_num_threads in
                     add_block_overhead ctx num_threads num_threads RANGE_ONE (thread_overhead local_info)
                   else Some (thread_overhead local_info));
  repeat_and_add_bottlenecks (f64_of_Z min_num_threads) pressure init_pressure.

(** Predicated instructions are those with side effects. *)
Definition is_predicated (stmt : StmtId) : option bool :=
  match stmt with
  | SInst id => i ← inst id (ir_instance space); Some (has_side_effects (inst_operator i))
  | SDim _ => Some false
  end.

(** The pressure of one instance of a statement. *)
Definition instance_pressure (bound_level : BottleneckLevel) (stmt : StmtId) : option HwPressure :=
  match stmt with
  | SDim d =>
    kind ← get_dim_kind (domain space) d;
    if accounts_for_dim bound_level kind then hw_pressure local_info !! stmt
    else fst <$> dim_overhead local_info !! d
  | SInst _ => hw_pressure local_info !! stmt
  end.

(** The overhead of the threads that are not active, and the instances to count. *)
Definition block_overhead (bound_level : BottleneckLevel) (stmt : StmtId) (n : Nesting) (num_instances : PartialSize)
    (pressure : HwPressure) : option (PartialSize * HwPressure) :=
  if level_leb bound_level LevelBlock then
    max_threads ← psize_mul (max_threads_per_block n) (num_unmapped_threads n);
    max_threads ← factors space ctx max_threads;
    predicated ← is_predicated stmt;
    if (predicated : bool) then
      max_active_threads ← factors space ctx (max_threads_per_block n);
      predication_factor ← bounds space ctx (num_unmapped_threads n);
      pressure ← add_block_overhead ctx max_active_threads max_threads predication_factor pressure;
      Some (num_instances, pressure)
    else
      num_instances ← psize_mul_assign num_instances (num_unmapped_threads n);
      pressure ← add_block_overhead ctx max_threads max_threads RANGE_ONE pressure;
      Some (num_instances, pressure)
  else Some (num_instances, pressure).

(** The body of the loop over the statements of [sum_pressure]. *)
Definition add_stmt_pressure (bound_level : BottleneckLevel) (inner_dims inner_sum_dims : list DimId) (repeat : PartialSize)
    (pressure : HwPressure) (stmt : StmtId) : option HwPressure :=
  n ← nesting_of stmt;
  match vs_intersection inner_dims (bigger_merged_dims n) with
  | _ :: _ => Some pressure
  | [] =>
    num_instances ← dims_product space (vs_intersection inner_sum_dims (outer_dims n));
    num_instances ← psize_mul num_instances repeat;
    stmt_pressure ← instance_pressure bound_level stmt;
    '(num_instances, stmt_pressure) ← block_overhead bound_level stmt n num_instances stmt_pressure;
    count ← sr_min <$> bounds space ctx num_instances;
    repeat_and_add_bottlenecks (f64_of_Z count) pressure stmt_pressure
  end.

Definition sum_pressure (bound_level : BottleneckLevel) (nest : list DimId) (repeat : PartialSize) : option HwPressure :=
  overheads ← mapM (λ d, fst <$> dim_overhead local_info !! d) nest;
  pressure ← pressure_min overheads;
  let pressure := default (pressure_zero (bottlenecks ctx)) pressure in
  pressure ← (match nest with [] => init_threads bound_level pressure | _ => Some pressure end);
  nestings ← mapM (λ d, nesting_of (SDim d)) nest;
  let inner_dims := default (vs_new (all_dims space)) (intersect_sets (inner_dims <$> nestings)) in
  inner_sum_dims ← filterM (λ d, kind ← get_dim_kind (domain space) d; Some (accounts_for_dim bound_level kind)) inner_dims;
  let inner_stmts := default (statements (ir_instance space)) (intersect_sets (inner_stmts <$> nestings)) in
  foldM (add_stmt_pressure bound_level inner_dims inner_sum_dims repeat) inner_stmts pressure.

(** [block_bound]. *)
Definition block_bound (dims : list DimId) : option FastBound :=
  n_iters ← dims_product space dims;
  pressure ← sum_pressure LevelBlock dims n_iters;
  pressure_bound pressure LevelBlock (block_rates ctx).

(** [Level::new]. *)
Definition level_new (dims : list DimId) : option Level :=
  pressure ← sum_pressure LevelThread dims psize_default;
  ends ← mapM (λ d, o ← dim_overhead local_info !! d; pressure_bound o.2 LevelThread (thread_rates ctx)) dims;
  end_latency ← bounds_min ends;
  latency ← pressure_bound pressure LevelThread (thread_rates ctx);
  only_threads ← allM (λ d, kind ← get_dim_kind (domain space) d; Some (ed_contains DimKind.THREAD kind)) dims;
  repeated_latency ← (if (only_threads : bool) then Some <$> block_bound dims else Some None);
  Some (mkLevel dims latency (default fast_bound_zero end_latency) [] repeated_latency).

(** ** The list of levels *)
Definition list_dim_map (src dst : InstId) (dim_map : DimMap) : option (option LevelDimMap) :=
  src_dims ← filterM must_consider_dim dim_map.*1;
  dst_dims ← filterM must_consider_dim dim_map.*2;
  let src_dims := vs_new src_dims in
  let dst_dims := vs_new dst_dims in
  Some (if vs_is_empty dst_dims || vs_is_empty src_dims then None else Some (mkLevelDimMap src dst src_dims dst_dims)).

Definition operand_dim_map (dst : InstId) (op : Operand LoweringMap) : option (list LevelDimMap) :=
  match op with
  | OInst src _ dim_map _ | OReduce src _ dim_map _ => m ← list_dim_map src dst dim_map; Some (option_list m)
  | _ => Some []
  end.

Definition list_dim_maps : option (list LevelDimMap) :=
  l ← mapM (λ i, l ← mapM (operand_dim_map (inst_id i)) (operands (inst_operator i)); Some (concat l))
        (sv_iter (insts (body (ir_instance space))));
  Some (concat l).

(** The nestings of a statement; those of a loop with and without the loop itself. *)
Definition stmt_nestings (stmt : StmtId) (n : Nesting) : option (list (list DimId)) :=
  outer_dims ← filterM must_consider_dim (outer_dims n);
  match stmt with
  | SDim d =>
    b ← must_consider_dim d;
    Some (if (b : bool) then [outer_dims; (vs_insert d outer_dims).1] else [])
  | SInst _ => Some [outer_dims]
  end.

Definition dim_map_nesting (m : LevelDimMap) : option (list DimId) :=
  l ← mapM (λ d, n ← nesting_of (SDim d); Some (outer_dims n)) (ldm_src_dims m ++ ldm_dst_dims m);
  intersect_sets l.

(** Whether the dimensions of [difference] are inside all those of [outer]. *)
Definition all_inside (outer difference : list DimId) : option bool :=
  allM (λ x, n ← nesting_of (SDim x); Some (vs_geb (inner_dims n) difference)) outer.

Definition nesting_cmp (lhs rhs : list DimId) : option (option comparison) :=
  match vs_partial_cmp lhs rhs with
  | Some Lt => b ← all_inside lhs (vs_new (vs_difference rhs lhs)); Some (if (b : bool) then Some Lt else None)
  | Some Gt => b ← all_inside rhs (vs_new (vs_difference lhs rhs)); Some (if (b : bool) then Some Gt else None)
  | x => Some x
  end.

(** Only the sequential part of a level with several dimensions is kept. *)
Definition sequential_part (dims : list DimId) : option (list (list DimId)) :=
  if length dims <=? 1 then Some [dims] else
  sequential ← filterM is_sequential dims;
  let sequential := vs_new sequential in
  Some (if vs_is_empty sequential then [] else [sequential]).

(** The dimensions added by each edge of the graph of nestings. *)
Definition dag_differences (dag : Dag (list DimId)) : option (list (list DimId)) :=
  l ← mapM (λ p : nat * list DimId,
    after ← dag_after_of dag p.1;
    mapM (λ end_id, e ← dag_nodes dag !! end_id; Some (vs_new (vs_difference e p.2))) after) (enumerate (dag_nodes dag));
  Some (concat l).

(** [level::generate]: the root level is the first one. *)
Definition levels_generate : option (list Level * list LevelDimMap) :=
  nestings ← mapM (λ p : StmtId * Nesting, stmt_nestings p.1 p.2) (map_to_list (nesting local_info));
  dim_maps ← list_dim_maps;
  map_nestings ← mapM dim_map_nesting dim_maps;
  dag ← from_order_checked nesting_cmp (concat nestings ++ map_nestings);
  differences ← dag_differences dag;
  dim_levels ← mapM sequential_part differences;
  levels ← mapM level_new (unique ([] :: concat dim_levels));
  Some (levels, dim_maps).

(** [RepeatLevel::new]. *)
Definition repeat_level_new (level_id : nat) (level : Level) : option (option RepeatLevel) :=
  sequential ← filterM is_sequential (level_dims level);
  iterations ← dims_product space sequential;
  iterations ← sr_min <$> bounds space ctx iterations;
  Some (if (iterations <=? 1)%Z then None else Some (mkRepeatLevel level_id iterations)).

(** ** The graph of levels *)

(** [LevelDag::new]: only the root node. *)
Definition level_dag_new (dep_map_size : nat) : option LevelDag :=
  dims ← filterM (λ d, kind ← get_dim_kind (domain space) d; Some (negb (kind =? DimKind.BLOCK)%Z)) (all_dims space);
  Some (mkLevelDag {[vs_new dims := 0]} [([], [], dependency_map_new dep_map_size)]).

(** [gen_node_id]: the node of the dimensions processed before the level. *)
Definition gen_node_id (dims : list DimId) (dep_map_size : nat) (self : LevelDag) : option (nat * LevelDag) :=
  before ← mapM (λ d, n ← nesting_of (SDim d); Some (before_self n)) dims;
  key ← intersect_sets before;
  Some (match node_ids self !! key with
        | Some id => (id, self)
        | None =>
          let id := length (level_nodes self) in
          (id, mkLevelDag (<[key := id]> (node_ids self)) (level_nodes self ++ [([], [], dependency_map_new dep_map_size)]))
        end).

Definition push_repeat (id : nat) (r : option RepeatLevel) (self : LevelDag) : option LevelDag :=
  '(repeats, maps, deps) ← level_nodes self !! id;
  Some (mkLevelDag (node_ids self) (<[id := (repeats ++ option_list r, maps, deps)]> (level_nodes self))).

Definition push_dim_map (id : nat) (m : LevelDimMap) (self : LevelDag) : option LevelDag :=
  '(repeats, maps, deps) ← level_nodes self !! id;
  Some (mkLevelDag (node_ids self) (<[id := (repeats, maps ++ [m], deps)]> (level_nodes self))).

Definition add_level (dep_map_size : nat) (dag : LevelDag) (l : nat * Level) : option LevelDag :=
  if vs_is_empty (level_dims l.2) then Some dag else
  '(node_id, dag) ← gen_node_id (level_dims l.2) dep_map_size dag;
  repeat ← repeat_level_new l.1 l.2;
  push_repeat node_id repeat dag.

Definition add_dim_map (dep_map_size : nat) (dag : LevelDag) (m : LevelDimMap) : option LevelDag :=
  '(node_id, dag) ← gen_node_id (ldm_src_dims m) dep_map_size dag;
  push_dim_map node_id m dag.

(** [LevelDag::build]. *)
Definition level_dag_build (levels : list Level) (dim_maps : list LevelDimMap) (dep_map_size : nat) : option LevelDag :=
  dag ← level_dag_new dep_map_size;
  dag ← foldM (add_level dep_map_size) (enumerate levels) dag;
  foldM (add_dim_map dep_map_size) dim_maps dag.
End levels.

(** *** Dependencies of the nodes *)
Definition add_to_node (dep_start dep_end : nat) (dep_lat : FastBound) (self : LevelDag) (id : nat) : option LevelDag :=
  '(repeats, maps, deps) ← level_nodes self !! id;
  deps ← add_dep dep_start dep_end dep_lat deps;
  Some (mkLevelDag (node_ids self) (<[id := (repeats, maps, deps)]> (level_nodes self))).

(** [add_if_processed]: in the nodes where the dimensions have been processed. *)
Definition add_if_processed (dims : list DimId) (dep_start dep_end : nat) (dep_lat : FastBound) (self : LevelDag) : option LevelDag :=
  foldM (λ self p, if vs_leb dims p.1 then add_to_node dep_start dep_end dep_lat self p.2 else Some self)
    (map_to_list (node_ids self)) self.

Definition add_dependency (nodes : list nat) (dep_start dep_end : nat) (dep_lat : FastBound) (self : LevelDag) : option LevelDag :=
  foldM (add_to_node dep_start dep_end dep_lat) nodes self.

Definition add_dependency_to_all (dep_start dep_end : nat) (dep_lat : FastBound) (self : LevelDag) : option LevelDag :=
  foldM (add_to_node dep_start dep_end dep_lat) (seq 0 (length (level_nodes self))) self.

Definition dependencies (self : LevelDag) (node : nat) : option DependencyMap := snd <$> level_nodes self !! node.

(** [LevelDag::root]. *)
Definition dag_root (self : LevelDag) : option DependencyMap := dependencies self 0.

(** ** The processing order *)

(** The dimensions that a node must have for the action to be applied to it. *)
Definition action_dims (levels : list Level) (a : DagAction) : option (list DimId) :=
  match a with
  | Repeat r => level_dims <$> levels !! rl_level_id r
  | ApplyDimMap m => Some (ldm_src_dims m)
  end.

Definition node_actions (levels : list Level) (nodes_after : list (list DimId * nat)) (from : nat) (a : DagAction)
  : option (nat * DagAction * list nat) :=
  dims ← action_dims levels a;
  Some (from, a, (filter (λ p, vs_geb p.1 dims = true) nodes_after).*2).

(** The actions of one node, which leaves it. *)
Definition drain_node (levels : list Level) (acc : list (nat * DagAction * list nat) * LevelDag) (p : list DimId * nat)
  : option (list (nat * DagAction * list nat) * LevelDag) :=
  let '(actions, self) := acc in
  let '(dims, from) := p in
  let nodes_after := filter (λ q, vs_geb q.1 dims = true) (map_to_list (node_ids self)) in
  '(repeats, maps, deps) ← level_nodes self !! from;
  new ← mapM (node_actions levels nodes_after from) ((Repeat <$> repeats) ++ (ApplyDimMap <$> maps));
  Some (actions ++ new, mkLevelDag (node_ids self) (<[from := ([], [], deps)]> (level_nodes self))).

(** [processing_order]: by decreasing number of nodes, with a stable sort. *)
Definition more_nodes (a b : nat * DagAction * list nat) : Prop := length b.2 ≤ length a.2.

#[global] Instance more_nodes_dec a b : Decision (more_nodes a b).
Proof. unfold more_nodes. apply _. Defined.

Definition processing_order (levels : list Level) (self : LevelDag) : option (list (nat * DagAction * list nat) * LevelDag) :=
  '(actions, self) ← foldM (drain_node levels) (map_to_list (node_ids self)) ([], self);
  Some (merge_sort more_nodes actions, self).
