(* ===== verification/LevelFacts.v ===== *)
(** * The order of the actions on the levels

    The actions of the graph of levels are sorted by the number of nodes that they change.
    The facts below show that this is a topological order: what an action reads has been
    written by all the actions that write it. *)
From S2P Require Import Prelude VecSet Types Size Utils Orders Float64 Domains SparseVec Operands Objects Function Dag.
From S2P Require Import EnumDomains Choices ModelSizes HwPressures DependencyMap LocalInfo Levels.
#[local] Open Scope nat_scope.

(** ** Sets *)
Section sets.
Context {A : Type} `{RustOrd A}.
Implicit Types l r : list A.

Lemma vs_geb_spec l r : strict_sorted l → strict_sorted r → vs_geb l r = true ↔ ∀ x, x ∈ r → x ∈ l.
Proof.
  intros Hl Hr. unfold vs_geb. pose proof (partial_cmp_is_inclusion l r Hl Hr) as Hc.
  destruct (vs_partial_cmp l r) as [[]|]; split; try done.
  - by intros _ x ?; subst.
  - destruct Hc as (_ & y & Hy & Hn). intros Hs. by destruct Hn; apply Hs.
  - by intros _; apply Hc.
  - destruct Hc as (_ & y & Hy & Hn). intros Hs. by destruct Hn; apply Hs.
Qed.

Lemma vs_leb_spec l r : strict_sorted l → strict_sorted r → vs_leb l r = true ↔ ∀ x, x ∈ l → x ∈ r.
Proof.
  intros Hl Hr. unfold vs_leb. pose proof (partial_cmp_is_inclusion l r Hl Hr) as Hc.
  destruct (vs_partial_cmp l r) as [[]|]; split; try done.
  - by intros _ x ?; subst.
  - by intros _; apply Hc.
  - destruct Hc as (_ & y & Hy & Hn). intros Hs. by destruct Hn; apply Hs.
  - destruct Hc as ((y & Hy & Hn) & _). intros Hs. by destruct Hn; apply Hs.
Qed.

Lemma intersect_sets_spec sets s : intersect_sets sets = Some s → Forall strict_sorted sets →
  strict_sorted s ∧ ∀ t x, t ∈ sets → x ∈ s → x ∈ t.
Proof.
  destruct sets as [|s0 sets]; [done|]. intros [= <-] [Hs0 Hsets]%Forall_cons. cbn [foldl].
  revert s0 Hs0. induction Hsets as [|t sets Ht Hsets IH]; intros s0 Hs0; cbn [foldl].
  - split; [done|]. by intros t x ->%list_elem_of_singleton.
  - rewrite vs_intersect_filter by done. destruct (IH (filter (.∈ t) s0)) as [Hs Hin]; [by apply strict_sorted_filter|].
    split; [done|]. intros t' x Ht' Hx.
    assert (x ∈ filter (.∈ t) s0) as [Hxt Hx0]%list_elem_of_filter by (apply (Hin _ x); [left|done]).
    apply elem_of_cons in Ht' as [->|Ht']; [done|]. apply elem_of_cons in Ht' as [->|Ht']; [done|].
    apply (Hin _ x); [by right|done].
Qed.
End sets.

Lemma length_filter_lt {A : Type} (P Q : A → Prop) `{∀ x, Decision (P x), ∀ x, Decision (Q x)} l x :
  (∀ y, y ∈ l → P y → Q y) → x ∈ l → Q x → ¬ P x → length (filter P l) < length (filter Q l).
Proof.
  assert (∀ k, (∀ y, y ∈ k → P y → Q y) → length (filter P k) ≤ length (filter Q k)) as Hle.
  { induction k as [|y k IH]; intros HPQ; [done|]. specialize (IH (λ z Hz, HPQ z (list_elem_of_further _ _ _ Hz))). rewrite !filter_cons.
    pose proof (HPQ y ltac:(left)). destruct (decide (P y)), (decide (Q y)); cbn; try lia; exfalso; auto. }
  intros HPQ Hx Hq Hp. induction l as [|y l IH]; [by apply elem_of_nil in Hx|]. rewrite !filter_cons.
  assert (∀ z, z ∈ l → P z → Q z) as HPQ' by (intros z Hz; apply HPQ; by right).
  apply elem_of_cons in Hx as [->|Hx].
  - rewrite decide_False, decide_True by done. cbn. specialize (Hle l HPQ'). lia.
  - specialize (IH HPQ' Hx). pose proof (HPQ y ltac:(left)). destruct (decide (P y)), (decide (Q y)); cbn; try lia; exfalso; auto.
Qed.

(** ** The graph *)

(** No dimension comes before itself in the nestings. *)
Definition nestings_ok (m : gmap StmtId Nesting) : Prop :=
  ∀ d n, m !! SDim d = Some n → strict_sorted (before_self n) ∧ d ∉ before_self n.

Definition level_sets_ok (levels : list Level) : Prop := Forall (λ l, strict_sorted (level_dims l)) levels.

(** What an action waits for is a set that is not all there in the dimensions [k] of its
    node. *)
Definition action_ok (levels : list Level) (k : list DimId) (a : DagAction) : Prop :=
  ∃ dims, action_dims levels a = Some dims ∧ strict_sorted dims ∧ ∃ d, d ∈ dims ∧ d ∉ k.

Definition node_acts (n : list RepeatLevel * list LevelDimMap * DependencyMap) : list DagAction :=
  (Repeat <$> n.1.1) ++ (ApplyDimMap <$> n.1.2).

Record level_dag_ok (levels : list Level) (dag : LevelDag) : Prop := {
  ids_sorted k i : node_ids dag !! k = Some i → strict_sorted k ∧ i < length (level_nodes dag);
  ids_inj k k' i : node_ids dag !! k = Some i → node_ids dag !! k' = Some i → k = k';
  acts_ok k i n a : node_ids dag !! k = Some i → level_nodes dag !! i = Some n → a ∈ node_acts n → action_ok levels k a
}.

Section build.
Context `{Profile, KeyRemoval, NumInteger} {D Ctx : Type} `{ChoiceDomains D, SizeContext Ctx, ModelContext D Ctx}.
Context (space : SearchSpace D) (ctx : Ctx) (local_info : LocalInfo) (levels : list Level).
Context (Hnest : nestings_ok (nesting local_info)) (Hlevels : level_sets_ok levels).

Lemma level_dag_new_ok n dag : level_dag_new space n = Some dag → level_dag_ok levels dag.
Proof.
  intros (ds & _ & [= <-])%bind_Some. constructor; cbn [node_ids level_nodes].
  - intros k i [<- <-]%lookup_singleton_Some. split; [apply vs_new_sorted|cbn; lia].
  - intros k k' i [<- <-]%lookup_singleton_Some [<- _]%lookup_singleton_Some. done.
  - intros k i nd a [<- <-]%lookup_singleton_Some [= <-] Ha. by apply elem_of_nil in Ha.
Qed.

Lemma before_sets dims before : mapM (λ d, n ← nesting_of local_info (SDim d); Some (before_self n)) dims = Some before →
  Forall strict_sorted before ∧ ∀ d, d ∈ dims → ∃ s, s ∈ before ∧ d ∉ s.
Proof.
  intros Hm%mapM_Some. induction Hm as [|d s dims before (n & Hn & [= <-])%bind_Some Hm [IH1 IH2]]; [by split; [|set_solver]|].
  apply Hnest in Hn as [Hs Hd]. split; [by constructor|]. intros x Hx. apply elem_of_cons in Hx as [->|Hx].
  - exists (before_self n). split; [left|done].
  - destruct (IH2 x Hx) as (s & Hs' & Hxs). exists s. split; [by right|done].
Qed.

(** The node of a level lacks every dimension of the level. *)
Lemma gen_node_id_ok dims n dag id dag' : dims ≠ [] → level_dag_ok levels dag → gen_node_id local_info dims n dag = Some (id, dag') →
  level_dag_ok levels dag' ∧ ∃ k, node_ids dag' !! k = Some id ∧ ∃ d, d ∈ dims ∧ d ∉ k.
Proof.
  intros Hne [Hsort Hinj Hacts] (before & Hb & Hk)%bind_Some. apply bind_Some in Hk as (k & Hk & [= Hid]).
  apply before_sets in Hb as [Hbs Hbd]. destruct (intersect_sets_spec before k Hk Hbs) as [Hks Hkin].
  assert (∃ d, d ∈ dims ∧ d ∉ k) as Hd.
  { destruct dims as [|d dims]; [done|]. exists d. split; [left|]. destruct (Hbd d) as (s & Hs & Hds); [left|].
    intros Hin. by apply Hds, (Hkin s d). }
  destruct (node_ids dag !! k) as [i|] eqn:Ek.
  - injection Hid as <- <-. split; [done|]. by exists k.
  - injection Hid as <- <-. split; [|exists k; split; [apply lookup_insert_eq|done]]. constructor; cbn [node_ids level_nodes].
    + intros k' i Hk'. rewrite length_app. cbn. destruct (decide (k' = k)) as [->|Hk'k].
      * rewrite lookup_insert_eq in Hk'. injection Hk' as <-. split; [done|lia].
      * rewrite lookup_insert_ne in Hk' by done. apply Hsort in Hk' as [? ?]. split; [done|lia].
    + intros k1 k2 i H1' H2'. destruct (decide (k1 = k)) as [->|E1], (decide (k2 = k)) as [->|E2]; [done|..].
      * rewrite lookup_insert_eq in H1'. injection H1' as <-. rewrite lookup_insert_ne in H2' by done. apply Hsort in H2' as [_ ?]. lia.
      * rewrite lookup_insert_eq in H2'. injection H2' as <-. rewrite lookup_insert_ne in H1' by done. apply Hsort in H1' as [_ ?]. lia.
      * rewrite lookup_insert_ne in H1', H2' by done. by eapply Hinj.
    + intros k' i nd a Hk' Hi Ha. destruct (decide (k' = k)) as [->|Hk'k].
      * rewrite lookup_insert_eq in Hk'. injection Hk' as <-. rewrite lookup_app_r, Nat.sub_diag in Hi by done.
        injection Hi as <-. by apply elem_of_nil in Ha.
      * rewrite lookup_insert_ne in Hk' by done. rewrite lookup_app_l in Hi by (by apply Hsort in Hk' as [_ ?]). by eapply Hacts.
Qed.

(** Writing a node whose actions are allowed. *)
Lemma write_node_ok dag id k nd : level_dag_ok levels dag → node_ids dag !! k = Some id → (∀ a, a ∈ node_acts nd → action_ok levels k a) →
  level_dag_ok levels (mkLevelDag (node_ids dag) (<[id := nd]> (level_nodes dag))).
Proof.
  intros [Hsort Hinj Hacts] Hk Hnd. constructor; cbn [node_ids level_nodes].
  - intros k' i Hk'. rewrite length_insert. by apply Hsort.
  - done.
  - intros k' i nd' a Hk' Hi Ha. destruct (decide (i = id)) as [->|Hne].
    + rewrite list_lookup_insert_eq in Hi by (by apply (Hsort k)). injection Hi as <-. rewrite (Hinj k' k id) by done. by apply Hnd.
    + rewrite list_lookup_insert_ne in Hi by done. by eapply Hacts.
Qed.

Lemma add_level_ok n dag i l dag' : level_dag_ok levels dag → levels !! i = Some l →
  add_level space ctx local_info n dag (i, l) = Some dag' → level_dag_ok levels dag'.
Proof.
  intros Hdag Hl. unfold add_level. cbn [fst snd]. destruct (level_dims l) as [|d0 ds] eqn:Ed; [by intros [= <-]|]. cbn [vs_is_empty].
  intros ([id dag1] & Hg & (r & Hr & Hp)%bind_Some)%bind_Some.
  destruct (gen_node_id_ok (d0 :: ds) n dag id dag1) as (Hdag1 & k & Hk & d & Hd & Hdk); [done|done|done|].
  apply bind_Some in Hp as ([[reps maps] deps] & Hnd & [= <-]). apply (write_node_ok dag1 id k); [done|done|].
  intros a Ha. unfold node_acts in Ha. cbn [fst snd] in Ha. rewrite fmap_app in Ha. rewrite !elem_of_app in Ha.
  assert (a ∈ node_acts (reps, maps, deps) ∨ a ∈ Repeat <$> option_list r) as [Ha'|Ha'].
  { unfold node_acts. cbn [fst snd]. rewrite elem_of_app. tauto. }
  - by eapply (acts_ok levels dag1).
  - apply list_elem_of_fmap in Ha' as (r' & -> & Hr').
    assert (rl_level_id r' = i) as Hi.
    { apply bind_Some in Hr as (? & _ & (? & _ & (? & _ & [= <-])%bind_Some)%bind_Some).
      case_match; [by apply elem_of_nil in Hr'|]. apply list_elem_of_singleton in Hr'. by subst r'. }
    exists (level_dims l). cbn [action_dims]. rewrite Hi, Hl. split; [done|]. split.
    + pose proof Hlevels as Hls. unfold level_sets_ok in Hls. rewrite Forall_forall in Hls. apply Hls. by eapply list_elem_of_lookup_2.
    + exists d. by rewrite Ed.
Qed.

Lemma add_dim_map_ok n dag m dag' : level_dag_ok levels dag → strict_sorted (ldm_src_dims m) → ldm_src_dims m ≠ [] →
  add_dim_map local_info n dag m = Some dag' → level_dag_ok levels dag'.
Proof.
  intros Hdag Hs Hne ([id dag1] & Hg & Hp)%bind_Some.
  destruct (gen_node_id_ok (ldm_src_dims m) n dag id dag1) as (Hdag1 & k & Hk & Hd); [done|done|done|].
  apply bind_Some in Hp as ([[reps maps] deps] & Hnd & [= <-]). apply (write_node_ok dag1 id k); [done|done|].
  intros a Ha. unfold node_acts in Ha. cbn [fst snd] in Ha. rewrite fmap_app in Ha. rewrite !elem_of_app in Ha.
  assert (a ∈ node_acts (reps, maps, deps) ∨ a = ApplyDimMap m) as [Ha'| ->].
  { unfold node_acts. cbn [fst snd]. rewrite elem_of_app. destruct Ha as [Ha|[Ha|Ha]]; [tauto|tauto|]. right. by apply list_elem_of_singleton in Ha. }
  - by eapply (acts_ok levels dag1).
  - exists (ldm_src_dims m). done.
Qed.

Lemma level_dag_build_ok dim_maps n dag :
  Forall (λ m, strict_sorted (ldm_src_dims m) ∧ ldm_src_dims m ≠ []) dim_maps →
  level_dag_build space ctx local_info levels dim_maps n = Some dag → level_dag_ok levels dag.
Proof.
  intros Hmaps (dag0 & Hnew%level_dag_new_ok & (dag1 & Hl & Hm)%bind_Some)%bind_Some.
  assert (level_dag_ok levels dag1) as Hdag1.
  { assert (∀ p, p ∈ enumerate levels → levels !! p.1 = Some p.2) as He.
    { intros [i l] (j & x & y & [= -> ->] & Hj & Hy)%elem_of_lookup_zip_with. by apply lookup_seq in Hj as [-> _]. }
    revert dag0 Hnew Hl He. generalize (enumerate levels). intros ps. induction ps as [|[i l] ps IH]; intros dag0 H0' Hl He; cbn [foldM] in Hl.
    - by injection Hl as <-.
    - apply bind_Some in Hl as (dag2 & Hadd & Hl). eapply IH; [|exact Hl|intros p Hp; apply He; by right].
      eapply add_level_ok; [exact H0'| |exact Hadd]. apply (He (i, l)). left. }
  clear Hl Hnew. revert dag1 Hdag1 Hm. induction Hmaps as [|m ms [Hs Hne] Hms IH]; intros dag1 Hdag1 Hm; cbn [foldM] in Hm.
  - by injection Hm as <-.
  - apply bind_Some in Hm as (dag2 & Hadd & Hm). eapply IH; [|exact Hm]. by eapply add_dim_map_ok.
Qed.
End build.

(** ** The order *)

Section order.
Context (levels : list Level).

(** An entry of the processing order: where it reads, and the nodes that it writes. *)
Record entry_ok (dag : LevelDag) (e : nat * DagAction * list nat) : Prop := mkEntryOk {
  entry_key : list DimId;
  entry_dims : list DimId;
  entry_from : node_ids dag !! entry_key = Some e.1.1;
  entry_action : action_dims levels e.1.2 = Some entry_dims;
  entry_sorted : strict_sorted entry_dims;
  entry_waits : ∃ d, d ∈ entry_dims ∧ d ∉ entry_key;
  entry_to : e.2 = (filter (λ p, vs_geb p.1 entry_dims = true) (filter (λ q, vs_geb q.1 entry_key = true) (map_to_list (node_ids dag)))).*2
}.

Lemma drain_node_ok dag acc dims from n actions : level_dag_ok levels dag → node_ids acc = node_ids dag →
  node_ids dag !! dims = Some from → level_nodes dag !! from = Some n → level_nodes acc !! from = Some n →
  ∃ new, drain_node levels (actions, acc) (dims, from) =
    Some (actions ++ new, mkLevelDag (node_ids dag) (<[from := ([], [], n.2)]> (level_nodes acc))) ∧
    Forall (entry_ok dag) new ∧ (λ e : nat * DagAction * list nat, e.1) <$> new = (λ a, (from, a)) <$> node_acts n.
Proof.
  intros Hdag Hids Hk Hn Hacc. unfold drain_node. rewrite Hacc, Hids. destruct n as [[reps maps] deps]. cbn [mbind option_bind].
  set (after := filter _ _).
  assert (∀ a, a ∈ node_acts (reps, maps, deps) → action_ok levels dims a) as Hacts by (intros a Ha; by eapply (acts_ok levels dag)).
  unfold node_acts in *. cbn [fst snd] in *.
  assert (∃ new, mapM (node_actions levels after from) ((Repeat <$> reps) ++ (ApplyDimMap <$> maps)) = Some new ∧
    Forall (entry_ok dag) new ∧ (λ e : nat * DagAction * list nat, e.1) <$> new = (λ a, (from, a)) <$> (Repeat <$> reps) ++ (ApplyDimMap <$> maps))
    as (new & -> & Hnew & Hfst).
  { revert Hacts. generalize ((Repeat <$> reps) ++ (ApplyDimMap <$> maps)). intros acts Hacts.
    induction acts as [|a acts IH]; [by exists []|]. cbn [mapM].
    destruct (Hacts a) as (ds & Hds & Hs & Hw); [left|]. unfold node_actions at 2. rewrite Hds. cbn [mbind option_bind].
    destruct IH as (new & -> & Hnew & Hfst); [intros b Hb; apply Hacts; by right|]. eexists. split; [done|]. split.
    - constructor; [|done]. by apply (mkEntryOk dag _ dims ds).
    - cbn [fmap list_fmap fst]. by rewrite Hfst. }
  cbn [mbind option_bind]. by exists new.
Qed.

Lemma drain_all_ok dag ps acc actions : level_dag_ok levels dag → node_ids acc = node_ids dag → NoDup ps.*2 →
  (∀ k i, (k, i) ∈ ps → node_ids dag !! k = Some i ∧ level_nodes acc !! i = level_nodes dag !! i) →
  ∃ new acc', foldM (drain_node levels) ps (actions, acc) = Some (actions ++ new, acc') ∧
    Forall (entry_ok dag) new ∧
    (λ e : nat * DagAction * list nat, e.1) <$> new = ps ≫= λ p, (λ a, (p.2, a)) <$> default [] (node_acts <$> level_nodes dag !! p.2).
Proof.
  intros Hdag. revert acc actions. induction ps as [|[k i] ps IH]; intros acc actions Hids Hnd Hps; cbn [foldM].
  { exists [], acc. by rewrite app_nil_r. }
  destruct (Hps k i) as [Hk Hi]; [left|]. destruct (ids_sorted levels dag Hdag k i Hk) as [_ Hlt].
  destruct (lookup_lt_is_Some_2 _ _ Hlt) as [n Hn]. rewrite Hn in Hi.
  destruct (drain_node_ok dag acc k i n actions Hdag Hids Hk Hn Hi) as (new & -> & Hnew & Hfst). cbn [mbind option_bind].
  cbn [fmap list_fmap] in Hnd. apply NoDup_cons in Hnd as [Hni Hnd].
  destruct (IH (mkLevelDag (node_ids dag) (<[i:=([], [], n.2)]> (level_nodes acc))) (actions ++ new)) as (new' & acc' & -> & Hnew' & Hfst'); [done|done| |].
  { intros k' i' Hp. destruct (Hps k' i') as [Hk' Hi']; [by right|]. split; [done|]. cbn [level_nodes].
    rewrite list_lookup_insert_ne; [done|]. intros ->. apply Hni, list_elem_of_fmap. by exists (k', i'). }
  exists (new ++ new'), acc'. rewrite app_assoc. split; [done|]. split; [by apply Forall_app|].
  rewrite fmap_app, Hfst, Hfst'. cbn. by rewrite Hn.
Qed.

(** An action that reads what another one writes changes fewer nodes. *)
Lemma entry_read_after_write dag a b : level_dag_ok levels dag → entry_ok dag a → entry_ok dag b → b.1.1 ∈ a.2 → length b.2 < length a.2.
Proof.
  intros Hdag [ka da Ha Hda Hsa Hwa Hta] [kb db Hb Hdb Hsb (d & Hd & Hdk) Htb] Hin.
  rewrite Hta in Hin. apply list_elem_of_fmap in Hin as ([k i] & Hi & [Hgd [Hgk Hki]%list_elem_of_filter]%list_elem_of_filter).
  apply elem_of_map_to_list in Hki. cbn in Hi, Hgd, Hgk. subst i. assert (k = kb) as -> by (by eapply (ids_inj levels dag)).
  pose proof (ids_sorted levels dag Hdag _ _ Ha) as [Hska _]. pose proof (ids_sorted levels dag Hdag _ _ Hb) as [Hskb _].
  rewrite vs_geb_spec in Hgd, Hgk by done. rewrite Hta, Htb, !length_fmap, !list_filter_filter.
  apply (length_filter_lt _ _ _ (kb, b.1.1)); [|by apply elem_of_map_to_list|split; by apply vs_geb_spec|].
  - intros [k i] Hk%elem_of_map_to_list [H1 H2]. cbn in *. destruct (ids_sorted levels dag Hdag _ _ Hk) as [Hsk _].
    rewrite vs_geb_spec in H1, H2 by done. split; apply vs_geb_spec; auto.
  - cbn. intros [H1 H2]. rewrite vs_geb_spec in H1 by done. by apply Hdk, H1.
Qed.
End order.

(** ** What the model is built from *)
Section built.
Context `{Profile, KeyRemoval, NumInteger} {D Ctx : Type} `{ChoiceDomains D, SizeContext Ctx, ModelContext D Ctx}.
Context (space : SearchSpace D) (ctx : Ctx).

Lemma elem_of_push_if {A : Type} (b : bool) (x y : A) l : x ∈ push_if b y l → x ∈ l ∨ x = y.
Proof. unfold push_if. destruct b; [|by left]. by rewrite elem_of_app, list_elem_of_singleton. Qed.

Lemma nesting_compute_before d n : nesting_compute space (SDim d) = Some n → strict_sorted (before_self n) ∧ d ∉ before_self n.
Proof.
  intros (l & Hl & Hn)%bind_Some.
  assert (d ∉ nl_before_self l) as Hd.
  { assert (∀ stmts acc, foldM (nesting_step space (SDim d)) stmts acc = Some l → d ∉ nl_before_self acc → d ∉ nl_before_self l) as Hfold;
      [|eapply Hfold; [exact Hl|apply not_elem_of_nil]].
    intros stmts. induction stmts as [|s stmts IH]; intros acc; cbn [foldM]; [by intros [= ->]|].
    intros (acc' & Hs & Hrest)%bind_Some Hacc. apply (IH acc' Hrest). unfold nesting_step in Hs. case_decide as Es; [by injection Hs as <-|].
    apply bind_Some in Hs as (order & _ & Hs). destruct s as [i|d']; [by injection Hs as <-|].
    apply bind_Some in Hs as (kind & _ & [= <-]). cbn [nl_before_self]. intros [Hin|Hin]%elem_of_push_if; [done|by subst]. }
  apply bind_Some in Hn as (? & _ & Hn). apply bind_Some in Hn as (? & _ & Hn). apply bind_Some in Hn as (? & _ & Hn).
  apply bind_Some in Hn as (? & _ & Hn). apply bind_Some in Hn as (? & _ & [= <-]). cbn [before_self].
  split; [apply vs_new_sorted|]. by rewrite elem_of_vs_new.
Qed.

Lemma collect_map_lookup {K V : Type} `{Countable K} (f : K → option V) keys m k v :
  collect_map f keys = Some m → m !! k = Some v → f k = Some v.
Proof.
  intros (l & Hl & [= <-])%bind_Some Hk%elem_of_list_to_map_2. rewrite elem_of_reverse in Hk.
  apply mapM_Some in Hl. induction Hl as [|x y keys l (v' & Hv & [= <-])%bind_Some Hl IH]; [by apply elem_of_nil in Hk|].
  apply elem_of_cons in Hk as [[= -> ->]|Hk]; auto.
Qed.

Lemma local_info_nestings li : local_info_compute space ctx = Some li → nestings_ok (nesting li).
Proof.
  intros (? & _ & (nestings & Hn & Hr)%bind_Some)%bind_Some.
  apply bind_Some in Hr as (? & _ & Hr). apply bind_Some in Hr as (? & _ & Hr). apply bind_Some in Hr as (? & _ & Hr).
  apply bind_Some in Hr as ([[? ?] ?] & _ & [= <-]). cbn [nesting]. intros d n Hd.
  apply nesting_compute_before. by eapply collect_map_lookup.
Qed.

Context (li : LocalInfo).

Lemma unique_elem {A : Type} `{EqDecision A} (l : list A) x : x ∈ unique l → x ∈ l.
Proof.
  unfold unique. assert (∀ seen, x ∈ foldl (λ seen x, if decide (x ∈ seen) then seen else seen ++ [x]) seen l → x ∈ seen ∨ x ∈ l) as Hs.
  { induction l as [|y l IH]; intros seen; cbn; [by left|]. intros [Hx|Hx]%IH; [|by right; right].
    case_decide; [by left|]. apply elem_of_app in Hx as [?|Hx%list_elem_of_singleton]; [by left|]. subst. right; left. }
  intros [Hx|Hx]%Hs; [by apply elem_of_nil in Hx|done].
Qed.

Lemma level_new_dims ds l : level_new space ctx li ds = Some l → level_dims l = ds.
Proof.
  intros Hl. unfold level_new in Hl.
  repeat match goal with H : _ ≫= _ = Some _ |- _ => apply bind_Some in H as (? & _ & H) end. by injection Hl as <-.
Qed.

Lemma sequential_part_sorted ds parts : strict_sorted ds → sequential_part space ds = Some parts → Forall strict_sorted parts.
Proof.
  intros Hs. unfold sequential_part. case_match; [intros [= <-]; by constructor|].
  intros (s & _ & [= <-])%bind_Some. case_match; [constructor|]. constructor; [apply vs_new_sorted|constructor].
Qed.

Lemma dag_differences_sorted dag ds : dag_differences dag = Some ds → Forall strict_sorted ds.
Proof.
  intros (l & Hl%mapM_Some & [= <-])%bind_Some. induction Hl as [|p x ps l (after & _ & Hx%mapM_Some)%bind_Some Hl IH]; cbn; [constructor|].
  apply Forall_app. split; [|done]. induction Hx as [|e y es xs (n & _ & [= <-])%bind_Some Hx IHx]; constructor; [apply vs_new_sorted|done].
Qed.

Lemma list_dim_maps_ok maps : list_dim_maps space = Some maps → Forall (λ m, strict_sorted (ldm_src_dims m) ∧ ldm_src_dims m ≠ []) maps.
Proof.
  intros (l & Hl%mapM_Some & [= <-])%bind_Some. induction Hl as [|i x js l (ms & Hms%mapM_Some & [= <-])%bind_Some Hl IH]; cbn; [constructor|].
  apply Forall_app. split; [|done]. clear IH Hl. induction Hms as [|o y os ys Ho Hms IH]; cbn; [constructor|]. apply Forall_app. split; [|done].
  assert (∀ src map, (m ← list_dim_map space src (inst_id i) map; Some (option_list m)) = Some y →
    Forall (λ m, strict_sorted (ldm_src_dims m) ∧ ldm_src_dims m ≠ []) y) as Hmap.
  { intros src map (m & Hm & [= <-])%bind_Some. unfold list_dim_map in Hm. apply bind_Some in Hm as (sd & _ & Hm).
    apply bind_Some in Hm as (dd & _ & [= <-]). case_match eqn:E; [constructor|]. constructor; [|constructor]. cbn.
    split; [apply vs_new_sorted|]. apply orb_false_iff in E as [_ E]. by destruct (vs_new sd). }
  destruct o; try (injection Ho as <-; constructor); by eapply Hmap.
Qed.

Lemma levels_generate_ok levels maps : levels_generate space ctx li = Some (levels, maps) →
  level_sets_ok levels ∧ Forall (λ m, strict_sorted (ldm_src_dims m) ∧ ldm_src_dims m ≠ []) maps.
Proof.
  intros (ns & _ & Hg)%bind_Some. apply bind_Some in Hg as (ms & Hms & Hg). apply bind_Some in Hg as (mns & _ & Hg).
  apply bind_Some in Hg as (dag & _ & Hg). apply bind_Some in Hg as (ds & Hds & Hg). apply bind_Some in Hg as (dls & Hdls & Hg).
  apply bind_Some in Hg as (ls & Hls%mapM_Some & [= <- <-]). split; [|by apply list_dim_maps_ok].
  assert (Forall strict_sorted ([] :: concat dls)) as Hall.
  { apply Forall_cons. split; [apply strict_sorted_nil|]. apply dag_differences_sorted in Hds. apply mapM_Some in Hdls.
    clear Hls. induction Hdls as [|d x ds dls Hx Hdls IH]; cbn; [constructor|]. apply Forall_cons in Hds as [Hd Hds].
    apply Forall_app. split; [|by apply IH]. by eapply sequential_part_sorted. }
  rewrite Forall_forall in Hall. assert (Forall strict_sorted (unique ([] :: concat dls))) as Hu.
  { apply Forall_forall. intros x Hx. by apply Hall, unique_elem. }
  clear Hall. unfold level_sets_ok. revert Hu. generalize dependent (unique ([] :: concat dls)). intros us Hls Hu.
  induction Hls as [|u l us ls Hl Hls IH]; constructor; apply Forall_cons in Hu as [Hu1 Hu2]; [|by apply IH].
  apply level_new_dims in Hl. by rewrite Hl.
Qed.
End built.

Lemma processing_order_exact levels dag : level_dag_ok levels dag →
  ∃ actions dag', processing_order levels dag = Some (actions, dag') ∧
    ((λ e : nat * DagAction * list nat, e.1) <$> actions) ≡ₚ
      (map_to_list (node_ids dag) ≫= λ p, (λ a, (p.2, a)) <$> default [] (node_acts <$> level_nodes dag !! p.2)) ∧
    (∀ p q a b, actions !! p = Some a → actions !! q = Some b → b.1.1 ∈ a.2 → p < q) ∧
    Forall (entry_ok levels dag) actions.
Proof.
  intros Hdag. unfold processing_order.
  destruct (drain_all_ok levels dag (map_to_list (node_ids dag)) dag [] Hdag eq_refl) as (new & dag' & -> & Hnew & Hfst).
  - apply (NoDup_fmap_2_strong snd); [|apply NoDup_map_to_list]. intros [k i] [k' i'] Hk%elem_of_map_to_list Hk'%elem_of_map_to_list E.
    cbn in E. subst i'. by rewrite (ids_inj levels dag Hdag k k' i).
  - intros k i Hk%elem_of_map_to_list. done.
  - cbn [mbind option_bind app]. exists (merge_sort more_nodes new), dag'. split; [done|].
    split; [rewrite <-Hfst; apply fmap_Permutation, merge_sort_Permutation|].
    assert (StronglySorted more_nodes (merge_sort more_nodes new)) as Hs.
    { apply Sorted_StronglySorted; [intros x y z; unfold more_nodes; lia|]. apply Sorted_merge_sort. intros x y. unfold more_nodes. lia. }
    assert (Forall (entry_ok levels dag) (merge_sort more_nodes new)) as Hall by (by rewrite merge_sort_Permutation).
    split; [|done]. intros p q a b Hp Hq Hin.
    assert (∀ i e, merge_sort more_nodes new !! i = Some e → entry_ok levels dag e) as Hok.
    { intros i e He%list_elem_of_lookup_2. rewrite Forall_forall in Hall. by apply Hall. }
    pose proof (entry_read_after_write levels dag a b Hdag (Hok _ _ Hp) (Hok _ _ Hq) Hin) as Hlt.
    destruct (decide (p < q)) as [|Hge]; [done|exfalso]. destruct (decide (p = q)) as [->|Hne]; [rewrite Hp in Hq; injection Hq as ->; lia|].
    assert (q < p) as Hqp by lia. pose proof (StronglySorted_lookup more_nodes _ q p b a Hs Hq Hp Hqp) as Hm. unfold more_nodes in Hm. lia.
Qed.

(** C14: The latencies of the levels are propagated in a topological order.  For the graph
    built for a space, the order is found, it has every action of every node once, and an
    action that reads a node comes after all those that write this node. *)
Theorem levels_processed_in_order `{Profile, KeyRemoval, NumInteger} {D Ctx : Type} `{ChoiceDomains D, SizeContext Ctx, ModelContext D Ctx}
    (space : SearchSpace D) (ctx : Ctx) (li : LocalInfo) (levels : list Level) (dim_maps : list LevelDimMap) (size : nat) (dag : LevelDag) :
  local_info_compute space ctx = Some li → levels_generate space ctx li = Some (levels, dim_maps) →
  level_dag_build space ctx li levels dim_maps size = Some dag →
  ∃ actions dag', processing_order levels dag = Some (actions, dag') ∧
    ((λ e : nat * DagAction * list nat, e.1) <$> actions) ≡ₚ
      (map_to_list (node_ids dag) ≫= λ p, (λ a, (p.2, a)) <$> default [] (node_acts <$> level_nodes dag !! p.2)) ∧
    ∀ p q a b, actions !! p = Some a → actions !! q = Some b → b.1.1 ∈ a.2 → p < q.
Proof.
  intros Hli%local_info_nestings [Hl Hm]%levels_generate_ok Hdag.
  destruct (processing_order_exact levels dag) as (actions & dag' & Ho & Hp & Ht & _); [by eapply level_dag_build_ok|]. by exists actions, dag'.
Qed.

(** ** Two nested loops around an instruction *)

Definition loop_rank (s : StmtId) : nat := match s with SDim d => d | SInst _ => 2 end.

#[local] Existing Instances swap_removal debug_profile stdlib_integer.

(** Loop 0 is around loop 1, which is around the instruction. *)
#[local] Instance nest_domains : ChoiceDomains () := {|
  get_order _ lhs rhs := Some (match Nat.compare (loop_rank lhs) (loop_rank rhs) with Lt => Order.OUTER | Gt => Order.INNER | Eq => Order.MERGED end);
  get_dim_kind _ _ := Some DimKind.LOOP;
  get_thread_mapping _ _ _ := Some ThreadMapping.MAPPED;
  get_mem_space _ _ := Some MemSpace.GLOBAL;
  get_size _ _ := Some (mkNumericSet 1)
|}.

Definition unit_pressure : HwPressure := mkPressure (f64_of_Z 1) [f64_of_Z 1].

#[local] Instance nest_sizes : SizeContext () := {| param_as_size _ _ := None |}.

#[local] Instance nest_device : ModelContext () () := {|
  bottlenecks _ := ["issue"%string];
  thread_rates _ := unit_pressure;
  block_rates _ := unit_pressure;
  total_rates _ := unit_pressure;
  block_parallelism _ _ := 1%Z;
  device_pressure _ _ _ _ _ := Some unit_pressure;
  loop_iter_pressure _ _ := (unit_pressure, unit_pressure);
  additive_indvar_pressure _ _ := unit_pressure;
  multiplicative_indvar_pressure _ _ := unit_pressure;
  add_block_overhead _ _ _ _ p := Some p;
  lower_type _ t _ := Some t
|}.

Definition loop_nest : SearchSpace () :=
  let ds := sv_from_vec [static_dim 0 [4%Z]; static_dim 1 [8%Z]] in
  let insts := sv_from_vec [Some (mkInstruction (OpUnary Mov (OInt 0 32)) 0 (list_to_set [0; 1]) None [] [])] in
  let f := function_new (signature_new "nest") (mkDevice (λ _, ROk tt) (TyI 32)) in
  mkSearchSpace (with_body (set_insts insts (set_dims ds body_new)) f) tt.

(** The inner loop is repeated first, and the outer loop reads what it has written. *)
Example loop_nest_levels :
  (li ← local_info_compute loop_nest tt;
   '(levels, dim_maps) ← levels_generate loop_nest tt li;
   dag ← level_dag_build loop_nest tt li levels dim_maps 3;
   '(actions, _) ← processing_order levels dag;
   Some (level_dims <$> levels, actions)) =
  Some ([[]; [0]; [1]], [(2, Repeat (mkRepeatLevel 2 8), [0; 1]); (1, Repeat (mkRepeatLevel 1 4), [0])]).
Proof. by vm_compute. Qed.

Lemma levels_processed_in_order_witness :
  ∃ li levels dim_maps dag actions dag',
    local_info_compute loop_nest tt = Some li ∧ levels_generate loop_nest tt li = Some (levels, dim_maps) ∧
    level_dag_build loop_nest tt li levels dim_maps 3 = Some dag ∧ processing_order levels dag = Some (actions, dag') ∧
    length actions = 2 ∧ ∀ p q a b, actions !! p = Some a → actions !! q = Some b → b.1.1 ∈ a.2 → p < q.
Proof.
  destruct (local_info_compute loop_nest tt) as [li|] eqn:Hli; [|exfalso; revert Hli; by vm_compute].
  pose proof loop_nest_levels as He. rewrite Hli in He. cbn [mbind option_bind] in He.
  apply bind_Some in He as ([levels dim_maps] & Hl & (dag & Hd & ([actions dag'] & Ha & [= _ ->])%bind_Some)%bind_Some).
  destruct (levels_processed_in_order loop_nest tt li levels dim_maps 3 dag Hli Hl Hd) as (acts & dag2 & Hp & _ & Horder).
  rewrite Ha in Hp. injection Hp as <- <-. eexists li, levels, dim_maps, dag, _, dag'. by repeat (split; [done|]).
Defined.
