(* ===== verification/CodePoints.v ===== *)
(** * Code points (src/model/code_point.rs)

    The instructions and the entries and exits of levels, ordered as they are in every
    implementation of a space. *)
From S2P Require Import Prelude VecSet Types Utils Domains SparseVec Operands Objects Function Dag.
From S2P Require Import Filters FilterSemantics EnumDomains SolverStore Choices HwPressures LocalInfo Levels.
#[local] Open Scope nat_scope.

#[global] Instance CodePoint_countable : Countable CodePoint :=
  inj_countable' (λ p, match p with CodeInst i => inl i | LevelEntry i => inr (inl i) | LevelExit i => inr (inr i) end)
    (λ x, match x with inl i => CodeInst i | inr (inl i) => LevelEntry i | inr (inr i) => LevelExit i end)
    ltac:(abstract by intros []).

(** The points with an order between them, and the position of each. *)
Record CodePointDag := mkCodePointDag { cp_dag : Dag CodePoint; cp_ids : gmap CodePoint nat }.

(** The results of several comparisons, when they agree: [fold1] on equality. *)
Definition agree (l : list (option comparison)) : option (option comparison) :=
  fold1 (λ x y, if decide (x = y) then x else None) l.

Section code_points.
Context `{Profile, KeyRemoval} {D : Type} `{ChoiceDomains D}.
Context (space : SearchSpace D) (levels : list Level).

(** The orders for which the point is lesser and greater than another. *)
Definition lesser_greater_conds (p : CodePoint) : Z * Z :=
  match p with
  | CodeInst _ => (Order.BEFORE, Order.AFTER)
  | LevelEntry _ => (ed_bitor Order.BEFORE Order.OUTER, Order.AFTER)
  | LevelExit _ => (Order.BEFORE, ed_bitor Order.AFTER Order.OUTER)
  end.

(** The statements of the point. *)
Definition blocks (p : CodePoint) : option (list StmtId) :=
  match p with
  | CodeInst id => Some [SInst id]
  | LevelEntry id | LevelExit id => l ← levels !! id; Some (SDim <$> level_dims l)
  end.

Definition is_before_dims (p : CodePoint) (dims : list DimId) : option bool :=
  if decide (p = LevelExit 0) then Some false else
  let lesser_conds := (lesser_greater_conds p).1 in
  bs ← blocks p;
  allM (λ q : StmtId * DimId,
    if decide (q.1 = SDim q.2) then Some false
    else order ← get_order (domain space) q.1 (SDim q.2); Some (ed_contains lesser_conds order))
    (list_prod bs dims).

(** [generate]. *)
Definition generate_points : list CodePoint :=
  (CodeInst ∘ inst_id <$> sv_iter (insts (body (ir_instance space)))) ++
  (LevelEntry <$> seq 0 (length levels)) ++ (LevelExit <$> seq 0 (length levels)).

(** [convert_order]. *)
Definition convert_order (lesser_cond greater_cond : Z) (if_equals : comparison) (lhs rhs : StmtId) : option (option comparison) :=
  if decide (lhs = rhs) then Some (Some if_equals) else
  order ← get_order (domain space) lhs rhs;
  Some (if ed_contains lesser_cond order then Some Lt else if ed_contains greater_cond order then Some Gt else None).

(** The conditions for two points, with the result if they share a dimension. *)
Definition compare_conds (lhs rhs : CodePoint) : option (Z * Z * comparison) :=
  let lhs_conds := lesser_greater_conds lhs in
  let rhs_conds := lesser_greater_conds rhs in
  rhs_greater ← ed_inverse order_enum rhs_conds.2;
  rhs_lesser ← ed_inverse order_enum rhs_conds.1;
  let lesser_cond := ed_bitor lhs_conds.1 rhs_greater in
  let greater_cond := ed_bitor lhs_conds.2 rhs_lesser in
  Some (match lhs, rhs with
        | LevelEntry _, LevelExit _ => (ed_insert lesser_cond Order.MERGED, greater_cond, Lt)
        | LevelExit _, LevelEntry _ => (lesser_cond, ed_insert greater_cond Order.MERGED, Gt)
        | _, _ => (lesser_cond, greater_cond, Eq)
        end).

(** The closure of [code_point_dag]: [None] inside is the absence of order, and [None] a
    panic. *)
Definition code_point_cmp (lhs rhs : CodePoint) : option (option comparison) :=
  '(lesser_cond, greater_cond, if_equals) ← compare_conds lhs rhs;
  match lhs, rhs with
  | LevelEntry 0, _ | _, LevelExit 0 => Some (Some Lt)
  | LevelExit 0, _ | _, LevelEntry 0 => Some (Some Gt)
  | _, _ =>
    lhs_blocks ← blocks lhs;
    rhs_blocks ← blocks rhs;
    l ← mapM (λ q, convert_order lesser_cond greater_cond if_equals q.1 q.2) (list_prod lhs_blocks rhs_blocks);
    agree l
  end.

Definition code_point_dag : option (Dag CodePoint) := from_order_checked code_point_cmp generate_points.

(** [code_point_ids]. *)
Definition code_point_ids (dag : Dag CodePoint) : gmap CodePoint nat :=
  list_to_map (reverse ((λ p : nat * CodePoint, (p.2, p.1)) <$> enumerate (dag_nodes dag))).

(** [CodePointDag::build]. *)
Definition code_points_build : option CodePointDag := dag ← code_point_dag; Some (mkCodePointDag dag (code_point_ids dag)).
End code_points.

Definition code_points_len (c : CodePointDag) : nat := size (cp_ids c).

(** ** The comparison does not depend on the side it is made from *)

Lemma agree_Some (l : list (option comparison)) r : agree l = Some r →
  ∃ x, x ∈ l ∧ (r = x ∧ (∀ y, y ∈ l → y = x) ∨ r = None ∧ ∃ y, y ∈ l ∧ y ≠ x).
Proof.
  destruct l as [|x l]; [done|]. unfold agree. cbn [fold1]. intros [= <-]. exists x. split; [left|].
  assert (∀ k z, fold_left (λ a b : option comparison, if decide (a = b) then a else None) k None = z → z = None) as Hnone.
  { induction k as [|y k IH]; cbn [fold_left]; [by intros ? <-|]. intros z. destruct (decide (None = y)); apply IH. }
  induction l as [|y l IH]; cbn [fold_left]; [left; split; [done|]; by intros y ->%list_elem_of_singleton|].
  destruct (decide (x = y)) as [<-|Hne].
  - destruct IH as [[-> Hall]|[-> (y & Hy & Hyx)]]; [left|right].
    + split; [done|]. intros z Hz. apply Hall. set_solver.
    + split; [done|]. exists y. set_solver.
  - right. split; [by apply (Hnone l)|]. exists y. set_solver.
Qed.

Lemma agree_total (l : list (option comparison)) : l ≠ [] → is_Some (agree l).
Proof. by destruct l. Qed.

(** Two lists with the same elements, up to a bijection, agree in the same way. *)
Lemma agree_map (f : option comparison → option comparison) l k r :
  (∀ x y, f x = f y → x = y) → f None = None → (∀ x, x ∈ l → f x ∈ k) → (∀ y, y ∈ k → ∃ x, x ∈ l ∧ y = f x) →
  agree l = Some r → agree k = Some (f r).
Proof.
  intros Hinj Hn Hlk Hkl Hl. apply agree_Some in Hl as (x & Hx & Hr).
  destruct (agree_total k) as [r' Hr']; [intros ->; by apply Hlk, elem_of_nil in Hx|]. rewrite Hr'. f_equal.
  apply agree_Some in Hr' as (y & Hy & Hr'). apply Hkl in Hy as Hy'. destruct Hy' as (x' & Hx' & ->).
  destruct Hr as [[-> Hall]|[-> (z & Hz & Hzx)]]; destruct Hr' as [[-> Hall']|[-> (z' & Hz' & Hzx')]].
  - by rewrite (Hall x').
  - apply Hkl in Hz' as (w & Hw & ->). by rewrite (Hall w Hw), (Hall x' Hx') in Hzx'.
  - destruct Hzx. apply Hinj. by rewrite (Hall' (f z)), (Hall' (f x)) by by apply Hlk.
  - done.
Qed.

Definition opposite (c : option comparison) : option comparison := CompOpp <$> c.

Lemma opposite_inj x y : opposite x = opposite y → x = y.
Proof. by destruct x as [[]|], y as [[]|]. Qed.

(** The results of all the pairs, when the pairs are swapped. *)
Lemma agree_pairs_flip {A : Type} (f f' : A → A → option (option comparison)) l k r :
  (∀ a b x, f a b = Some x → f' b a = Some (opposite x)) →
  (res ← mapM (λ q, f q.1 q.2) (list_prod l k); agree res) = Some r →
  (res ← mapM (λ q, f' q.1 q.2) (list_prod k l); agree res) = Some (opposite r).
Proof.
  intros Hf (res & [Hl Hr]%mapM_elem & Ha)%bind_Some.
  assert (is_Some (mapM (λ q, f' q.1 q.2) (list_prod k l))) as [res' Hres'].
  { apply mapM_is_Some, Forall_forall. intros [b a] [Hb Hx]%elem_of_list_prod.
    destruct (Hl (a, b)) as (y & Hy & _); [by apply elem_of_list_prod|]. exists (opposite y). by apply Hf. }
  rewrite Hres'. cbn [mbind option_bind]. apply mapM_elem in Hres' as [Hl' Hr'].
  revert Ha. apply agree_map; [apply opposite_inj|done|..].
  - intros x ([a b] & [Hx Hb]%elem_of_list_prod & Hfx)%Hr. destruct (Hl' (b, a)) as (y & Hy & Hin); [by apply elem_of_list_prod|].
    apply Hf in Hfx. cbn [fst snd] in *. congruence.
  - intros y ([b a] & [Hb Hx]%elem_of_list_prod & Hfy)%Hr'. destruct (Hl (a, b)) as (x & Hx' & Hin); [by apply elem_of_list_prod|].
    exists x. split; [done|]. apply Hf in Hx'. cbn [fst snd] in *. congruence.
Qed.

(** The values of the conditions. *)
Definition lesser_values (p : CodePoint) : list string :=
  match p with LevelEntry _ => ["BEFORE"; "OUTER"]%string | _ => ["BEFORE"]%string end.

Definition greater_values (p : CodePoint) : list string :=
  match p with LevelExit _ => ["AFTER"; "OUTER"]%string | _ => ["AFTER"]%string end.

Definition pair_equals (p q : CodePoint) : comparison :=
  match p, q with LevelEntry _, LevelExit _ => Lt | LevelExit _, LevelEntry _ => Gt | _, _ => Eq end.

Definition pair_lesser (p q : CodePoint) : list string :=
  lesser_values p ++ (enum_inverse order_enum <$> greater_values q) ++ match pair_equals p q with Lt => ["MERGED"]%string | _ => [] end.

Definition pair_greater (p q : CodePoint) : list string :=
  greater_values p ++ (enum_inverse order_enum <$> lesser_values q) ++ match pair_equals p q with Gt => ["MERGED"]%string | _ => [] end.

(** A condition holds the values of a list. *)
Definition holds `{KeyRemoval} (c : Z) (l : list string) : Prop :=
  ed_wf order_enum c ∧ ∀ x, ed_has order_enum c x = bool_decide (x ∈ l).

Section flip.
Context `{Profile, KeyRemoval}.

Lemma holds_or a b l k : holds a l → holds b k → holds (ed_bitor a b) (l ++ k).
Proof.
  intros [Ha Hl] [Hb Hk]. split; [by apply ed_lor_wf|]. intros x.
  unfold ed_bitor. rewrite ed_has_lor, Hl, Hk. repeat case_bool_decide; set_solver.
Qed.

Lemma holds_inverse a l : holds a l → ∃ c, ed_inverse order_enum a = Some c ∧ holds c (enum_inverse order_enum <$> l).
Proof.
  intros [Ha Hl]. destruct (order_inverse a Ha) as (c & Hc & Wc & Hback & Hx). exists c. split; [done|]. split; [done|].
  intros x. destruct (decide (x ∈ value_keys order_enum)) as [Hk|Hk].
  - rewrite Hx, Hl by done. apply bool_decide_ext. rewrite list_elem_of_fmap. split.
    + intros Hin. exists (enum_inverse order_enum x). by rewrite (enum_inverse_involutive order_enum order_enum_ok).
    + intros (y & -> & Hy). by rewrite (enum_inverse_involutive order_enum order_enum_ok).
  - rewrite bool_decide_false.
    + apply not_true_is_false. intros Ht. apply Hk. by eapply ed_has_key; [apply order_enum_ok|].
    + intros (y & -> & Hy)%list_elem_of_fmap. apply Hk, (enum_inverse_key order_enum order_enum_ok).
      eapply ed_has_key; [apply order_enum_ok|]. rewrite Hl. by apply bool_decide_eq_true.
Qed.

Lemma order_holds x : x ∈ ["BEFORE"; "AFTER"; "INNER"; "OUTER"; "MERGED"]%string → holds (printed_const order_enum x) [x].
Proof.
  intros [Hw Hx]%order_const. split; [done|]. intros y. rewrite Hx. apply bool_decide_ext. by rewrite list_elem_of_singleton.
Qed.

Lemma conds_hold p : holds (lesser_greater_conds p).1 (lesser_values p) ∧ holds (lesser_greater_conds p).2 (greater_values p).
Proof.
  destruct p; cbn [lesser_greater_conds lesser_values greater_values fst snd]; split.
  all: try by (apply order_holds; set_solver).
  - apply (holds_or _ _ ["BEFORE"%string] ["OUTER"%string]); apply order_holds; set_solver.
  - apply (holds_or _ _ ["AFTER"%string] ["OUTER"%string]); apply order_holds; set_solver.
Qed.

Lemma compare_conds_hold p q : ∃ l g, compare_conds p q = Some (l, g, pair_equals p q) ∧ holds l (pair_lesser p q) ∧ holds g (pair_greater p q).
Proof.
  destruct (conds_hold p) as [Hpl Hpg], (conds_hold q) as [Hql Hqg].
  destruct (holds_inverse _ _ Hqg) as (cg & Hcg & Hg), (holds_inverse _ _ Hql) as (cl & Hcl & Hl).
  assert (∀ a l', holds a l' → holds (ed_insert a Order.MERGED) (l' ++ ["MERGED"%string])) as Hm.
  { intros a l' Ha. apply (holds_or a Order.MERGED); [done|]. apply order_holds. set_solver. }
  unfold compare_conds. rewrite Hcg, Hcl. cbn [mbind option_bind]. unfold pair_lesser, pair_greater.
  pose proof (holds_or _ _ _ _ Hpl Hg) as Hlesser. pose proof (holds_or _ _ _ _ Hpg Hl) as Hgreater.
  destruct p, q; cbn [pair_equals]; eexists _, _; (split; [done|]); rewrite ?app_nil_r; try (by split); rewrite !app_assoc.
  - split; [by apply Hm|done].
  - split; [done|by apply Hm].
Qed.

Lemma holds_contains c l order : holds c l → ed_wf order_enum order →
  ed_contains c order = true ↔ ∀ x, ed_has order_enum order x = true → x ∈ l.
Proof.
  intros [Hc Hl] Ho. rewrite (ed_contains_spec order_enum order_enum_ok) by done. split; intros Hi x Hx.
  - specialize (Hi x Hx). rewrite Hl in Hi. by apply bool_decide_eq_true in Hi.
  - rewrite Hl. by apply bool_decide_eq_true, Hi.
Qed.

(** Seen from the other side, the values for lesser are the inverses of those for greater. *)
Lemma pair_flip p q x : x ∈ value_keys order_enum → enum_inverse order_enum x ∈ pair_lesser q p ↔ x ∈ pair_greater p q.
Proof.
  intros Hx. apply (bool_decide_unpack _).
  assert (Forall (λ x, bool_decide (enum_inverse order_enum x ∈ pair_lesser q p ↔ x ∈ pair_greater p q)) (value_keys order_enum)) as Hall.
  { destruct p, q; apply (bool_decide_unpack _); by vm_compute. }
  rewrite Forall_forall in Hall. by apply Hall.
Qed.

Lemma pair_disjoint p q x : x ∈ pair_lesser p q → x ∉ pair_greater p q.
Proof. destruct p, q; cbn [pair_lesser pair_greater]; revert x; vm_compute; set_solver. Qed.

Context {D : Type} `{!ChoiceDomains D, !ChoiceDomainsOk D}.

(** The order of the other side meets the condition for lesser when this one meets the
    condition for greater. *)
Lemma inverse_has o c x : ed_wf order_enum o → ed_inverse order_enum o = Some c → ed_has order_enum c x = ed_has order_enum o (enum_inverse order_enum x).
Proof.
  intros Ho Hc. destruct (order_inverse o Ho) as (c' & Hc' & _ & _ & Hx). rewrite Hc in Hc'. injection Hc' as <-.
  destruct (decide (x ∈ value_keys order_enum)) as [Hk|Hk]; [by apply Hx|].
  transitivity false; [|symmetry]; apply not_true_is_false; intros Ht%(ed_has_key order_enum order_enum_ok); apply Hk; [done|].
  rewrite <-(enum_inverse_involutive order_enum order_enum_ok x). by apply (enum_inverse_key order_enum order_enum_ok).
Qed.

Lemma contains_flip p q l g o c : holds l (pair_lesser q p) → holds g (pair_greater p q) → ed_wf order_enum o → ed_wf order_enum c →
  ed_inverse order_enum o = Some c → ed_contains l c = ed_contains g o.
Proof.
  intros Hl Hg Ho Wc Hc. apply eq_iff_eq_true. rewrite (holds_contains l _ c Hl Wc), (holds_contains g _ o Hg Ho). split; intros Hi x Hx.
  - apply pair_flip; [by eapply ed_has_key; [apply order_enum_ok|]|]. apply Hi.
    by rewrite (inverse_has o) by done; rewrite (enum_inverse_involutive order_enum order_enum_ok).
  - rewrite (inverse_has o c) in Hx by done. rewrite <-(enum_inverse_involutive order_enum order_enum_ok x).
    apply pair_flip; [by eapply ed_has_key; [apply order_enum_ok|]|by apply Hi].
Qed.

Lemma convert_order_flip (space : SearchSpace D) p q l g l' g' a b r :
  domains_wf (domain space) → holds l (pair_lesser p q) → holds g (pair_greater p q) →
  holds l' (pair_lesser q p) → holds g' (pair_greater q p) →
  convert_order space l g (pair_equals p q) a b = Some r →
  convert_order space l' g' (pair_equals q p) b a = Some (opposite r).
Proof.
  intros Hd Hl Hg Hl' Hg'. unfold convert_order. destruct (decide (a = b)) as [->|Hne].
  { rewrite decide_True by done. intros [= <-]. by destruct p, q. }
  rewrite (decide_False (P := b = a)) by done. intros (o & Ho & [= <-])%bind_Some.
  destruct (order_wf _ _ _ _ Hd Ho) as [Wo Fo]. destruct (order_flip _ _ _ _ Hd Hne Ho) as (c & Ho' & Hinv).
  rewrite Ho'. cbn [mbind option_bind]. destruct (order_inverse o Wo) as (c' & Hc & Wc & Hback & _).
  rewrite Hinv in Hc. injection Hc as <-. rewrite (contains_flip p q l' g o c) by done. rewrite <-(contains_flip q p l g' c o) by done.
  f_equal. destruct (ed_contains l o) eqn:El, (ed_contains g o) eqn:Eg; try done.
  rewrite (holds_contains l _ o Hl Wo) in El. rewrite (holds_contains g _ o Hg Wo) in Eg.
  apply not_true_iff_false in Fo. destruct Fo. apply (ed_failed_spec order_enum order_enum_ok); [done|].
  intros x. apply not_true_is_false. intros Hx. by apply (pair_disjoint p q x); auto.
Qed.

(** C16: the comparison of two points of the code gives the opposite result when the points
    are swapped, as long as the getter of orders is coherent: it cannot put each point
    before the other. *)
Theorem code_point_cmp_flip (space : SearchSpace D) levels p q c :
  domains_wf (domain space) → p ≠ q → code_point_cmp space levels p q = Some c → code_point_cmp space levels q p = Some (opposite c).
Proof.
  intros Hd Hpq. unfold code_point_cmp.
  destruct (compare_conds_hold p q) as (l & g & -> & Hl & Hg), (compare_conds_hold q p) as (l' & g' & -> & Hl' & Hg').
  cbn [mbind option_bind].
  assert (∀ r, ((lhs_blocks ← blocks levels p; rhs_blocks ← blocks levels q;
      l0 ← mapM (λ x, convert_order space l g (pair_equals p q) x.1 x.2) (list_prod lhs_blocks rhs_blocks); agree l0) = Some r →
    (lhs_blocks ← blocks levels q; rhs_blocks ← blocks levels p;
      l0 ← mapM (λ x, convert_order space l' g' (pair_equals q p) x.1 x.2) (list_prod lhs_blocks rhs_blocks); agree l0) = Some (opposite r))) as Hmain.
  { intros r (bp & -> & (bq & -> & Ha)%bind_Some)%bind_Some. cbn [mbind option_bind]. revert Ha.
    apply (agree_pairs_flip (convert_order space l g (pair_equals p q))). intros a b x. by apply convert_order_flip. }
  destruct p as [i|[|i]|[|i]], q as [j|[|j]|[|j]]; first [exact (Hmain c)|by intros [= <-]|done].
Qed.
End flip.

(** ** Two instructions whose order is known *)
#[local] Existing Instances swap_removal debug_profile.

Definition two_insts : SearchSpace (Store IrObj) :=
  mkSearchSpace (function_new (signature_new "two") (mkDevice (λ _, ROk tt) (TyI 32)))
    {["order"%string := {[ [ObjStmt (SInst 0); ObjStmt (SInst 1)] := DomEnum Order.BEFORE ]}]}.

Lemma two_insts_stored : orders_stored (domain two_insts).
Proof.
  intros ids d. unfold store_lookup. cbn [domain two_insts]. rewrite lookup_singleton_eq. cbn [mbind option_bind].
  intros [_ <-]%lookup_singleton_Some. exists Order.BEFORE. split; [done|]. split; [by apply order_const; left|by vm_compute].
Qed.

Lemma code_point_cmp_flip_witness :
  code_point_cmp (H1 := store_choices choices_desc) two_insts [] (CodeInst 0) (CodeInst 1) = Some (Some Lt) ∧
  code_point_cmp (H1 := store_choices choices_desc) two_insts [] (CodeInst 1) (CodeInst 0) = Some (Some Gt).
Proof.
  assert (code_point_cmp (H1 := store_choices choices_desc) two_insts [] (CodeInst 0) (CodeInst 1) = Some (Some Lt)) as Hlt by (by vm_compute).
  split; [exact Hlt|].
  exact (code_point_cmp_flip (ChoiceDomainsOk0 := store_choices_ok choices_desc choices_desc_order) two_insts [] (CodeInst 0) (CodeInst 1)
    (Some Lt) two_insts_stored ltac:(done) Hlt).
Defined.
