(* ===== verification/LatencyModel.v ===== *)
(** * The performance model (src/model/mod.rs)

    [model_bound] is the lower bound on the execution time of all the implementations of a
    space: the latencies between code points, repeated for each level, against the
    pressure on the whole device. *)
From Stdlib Require Import Floats.SpecFloat.
From S2P Require Import Prelude VecSet Types Size Utils Float64 Domains SparseVec Operands Objects Function Dag.
From S2P Require Import EnumDomains Choices ModelSizes HwPressures DependencyMap LocalInfo Levels LevelFacts CodePoints.
#[local] Open Scope nat_scope.

Section model.
Context `{Profile, KeyRemoval, NumInteger} {D Ctx : Type} `{ChoiceDomains D, SizeContext Ctx, ModelContext D Ctx}.
Context (space : SearchSpace D) (ctx : Ctx) (local_info : LocalInfo) (code_points : CodePointDag).

Definition point_id (p : CodePoint) : option nat := cp_ids code_points !! p.

(** [set_latency]: to all the points that come right after. *)
Definition set_latency (from : nat) (latency : FastBound) (level_dag : LevelDag) : option LevelDag :=
  after ← dag_after_of (cp_dag code_points) from;
  foldM (λ dag to, add_dependency_to_all from to latency dag) after level_dag.

(** [set_data_dep]. *)
Definition set_data_dep (from to : nat) (dim_map : DimMap) (latency : FastBound) (level_dag : LevelDag) : option LevelDag :=
  rassert (from <? to) ;;
  has_src ← anyM (must_consider_dim space) dim_map.*2;
  dst_dims ← (if (has_src : bool) then filterM (must_consider_dim space) dim_map.*2 else Some []);
  add_if_processed (vs_new dst_dims) from to latency level_dag.

(** The latency of the result of an instruction. *)
Definition inst_latency (id : InstId) : option FastBound :=
  p ← hw_pressure local_info !! SInst id; pressure_bound p LevelThread (thread_rates ctx).

Definition data_dep_from (pred_id : InstId) (dim_map : DimMap) (code_point : nat) (level_dag : LevelDag) : option LevelDag :=
  pred ← point_id (CodeInst pred_id);
  latency ← inst_latency pred_id;
  set_data_dep pred code_point dim_map latency level_dag.

(** The back-edge of a reduction, in the levels where it is possible. *)
Definition add_back_edge (reduce_dims : list DimId) (code_point : nat) (latency : FastBound) (level : Level) : Level :=
  if forallb (λ d, bool_decide (d ∈ reduce_dims)) (level_dims level) then
    mkLevel (level_dims level) (level_latency level) (end_latency level) (back_edges level ++ [(code_point, latency)])
      (repeated_latency level)
  else level.

(** One operand of [set_data_deps]. *)
Definition operand_data_dep (inst_id : InstId) (code_point : nat) (st : list Level * LevelDag) (op : Operand LoweringMap)
  : option (list Level * LevelDag) :=
  let '(levels, level_dag) := st in
  match op with
  | OVariable var_id _ =>
    var ← variable var_id (ir_instance space);
    '(prod_inst_id, dim_map) ← production_inst (S (sv_len (variables (body (ir_instance space))))) (ir_instance space) (var_def var);
    level_dag ← data_dep_from prod_inst_id (dm_new (map_to_list dim_map)) code_point level_dag;
    Some (levels, level_dag)
  | OInst pred_id _ dim_map _ => level_dag ← data_dep_from pred_id dim_map code_point level_dag; Some (levels, level_dag)
  | OReduce pred_id _ dim_map reduce_dims =>
    level_dag ← data_dep_from pred_id dim_map code_point level_dag;
    latency ← inst_latency inst_id;
    Some (add_back_edge reduce_dims code_point latency <$> levels, level_dag)
  | _ => Some st
  end.

Definition set_data_deps (inst_id : InstId) (code_point : nat) (st : list Level * LevelDag) : option (list Level * LevelDag) :=
  i ← inst inst_id (ir_instance space);
  foldM (operand_data_dep inst_id code_point) (operands (inst_operator i)) st.

(** One code point of [populate]. *)
Definition populate_entry (levels : list Level) (point_id' id : nat) (level_dag : LevelDag) : option LevelDag :=
  exit ← point_id (LevelExit id);
  level ← levels !! id;
  level_dag ← add_dependency_to_all point_id' exit (level_latency level) level_dag;
  match repeated_latency level with
  | None => Some level_dag
  | Some latency =>
    if vs_is_empty (level_dims level) then add_dependency_to_all point_id' exit latency level_dag
    else
      before ← dag_before_of (cp_dag code_points) point_id';
      foldM (λ dag from, add_if_processed (level_dims level) from exit latency dag) before level_dag
  end.

Definition populate_point (st : list Level * LevelDag) (p : nat * CodePoint) : option (list Level * LevelDag) :=
  let '(levels, level_dag) := st in
  level_dag ← set_latency p.1 fast_bound_zero level_dag;
  match p.2 with
  | CodeInst id => set_data_deps id p.1 (levels, level_dag)
  | LevelEntry id => level_dag ← populate_entry levels p.1 id level_dag; Some (levels, level_dag)
  | LevelExit id =>
    level ← levels !! id;
    before ← dag_before_of (cp_dag code_points) p.1;
    level_dag ← foldM (λ dag from, add_dependency_to_all from p.1 (end_latency level) dag) before level_dag;
    Some (levels, level_dag)
  end.

Definition populate (levels : list Level) (level_dag : LevelDag) : option (list Level * LevelDag) :=
  foldM populate_point (enumerate (dag_nodes (cp_dag code_points))) (levels, level_dag).

(** ** Repetition of levels *)

(** The latency known to a node; [unwrap!] on the one of a node that has none. *)
Definition known_latency (l : list (option FastBound)) (id : nat) : option FastBound := mjoin (l !! id).

(** One predecessor of a back-edge. *)
Definition repeat_back_edge (action : RepeatLevel) (entry_point : nat) (latency_to_exit latencies : list (option FastBound))
    (to_map : list nat) (point : nat) (lat : FastBound) (level_dag : LevelDag) (pred : nat) : option LevelDag :=
  to_point ← known_latency latencies pred;
  let init_lat_0 := fb_chain to_point point lat in
  to_exit ← known_latency latency_to_exit pred;
  entry_to_point ← known_latency latencies entry_point;
  let init_lat_1 := fb_chain to_exit entry_point entry_to_point in
  init_lat ← bound_max init_lat_0 init_lat_1;
  let latency := fb_chain init_lat point (fb_iterate lat (rl_iterations action - 2) (rl_level_id action)) in
  level_dag ← add_dependency to_map pred point latency level_dag;
  if (3 <=? rl_iterations action)%Z then
    exit_lat ← known_latency latency_to_exit point;
    let latency := fb_chain (fb_chain init_lat point (fb_iterate lat (rl_iterations action - 3) (rl_level_id action))) point exit_lat in
    add_dependency to_map pred entry_point latency level_dag
  else Some level_dag.

(** [repeat_level]. *)
Definition repeat_level (levels : list Level) (action : RepeatLevel) (from_map : nat) (to_map : list nat) (level_dag : LevelDag)
  : option LevelDag :=
  rassert (2 <=? rl_iterations action)%Z ;;
  let level_id := rl_level_id action in
  entry_point ← point_id (LevelEntry level_id);
  exit_point ← point_id (LevelExit level_id);
  dep_map ← dependencies level_dag from_map;
  predecessors ← dag_predecessors (cp_dag code_points) entry_point;
  entry_deps ← deps dep_map entry_point;
  latency_to_exit ← latency_to dep_map exit_point;
  cycle_lat ← known_latency latency_to_exit entry_point;
  level_dag ← foldM (λ dag pred,
    let iter_lat := fb_iterate cycle_lat (rl_iterations action) level_id in
    add_dependency to_map pred exit_point (fb_chain fast_bound_zero entry_point iter_lat) dag)
    (map_to_list entry_deps).*1 level_dag;
  level_dag ← foldM (λ dag pred,
    init_lat ← known_latency latency_to_exit pred;
    let iter_lat := fb_iterate cycle_lat (rl_iterations action - 2) level_id in
    add_dependency to_map pred entry_point (fb_chain init_lat entry_point iter_lat) dag) predecessors level_dag;
  level ← levels !! level_id;
  foldM (λ dag edge,
    dep_map ← dependencies dag from_map;
    latencies ← latency_to dep_map edge.1;
    foldM (repeat_back_edge action entry_point latency_to_exit latencies to_map edge.1 edge.2) predecessors dag)
    (back_edges level) level_dag.

(** [apply_dim_map]. *)
Definition apply_dim_map (levels : list Level) (dim_map : LevelDimMap) (from_map : nat) (to_map : list nat) (level_dag : LevelDag)
  : option LevelDag :=
  predecessors ← filterM (λ p : CodePoint * nat, is_before_dims space levels p.1 (ldm_src_dims dim_map)) (map_to_list (cp_ids code_points));
  src_point ← point_id (CodeInst (ldm_src dim_map));
  dst_point ← point_id (CodeInst (ldm_dst dim_map));
  dep_map ← dependencies level_dag from_map;
  latency_to_src ← latency_to dep_map src_point;
  src_dst_latency ← inst_latency (ldm_src dim_map);
  foldM (λ dag pred,
    lat ← known_latency latency_to_src pred;
    add_dependency to_map pred dst_point (fb_chain lat src_point src_dst_latency) dag) predecessors.*2 level_dag.

Definition process_action (levels : list Level) (level_dag : LevelDag) (e : nat * DagAction * list nat) : option LevelDag :=
  match e.1.2 with
  | Repeat action => repeat_level levels action e.1.1 e.2 level_dag
  | ApplyDimMap dim_map => apply_dim_map levels dim_map e.1.1 e.2 level_dag
  end.
End model.

Section bound.
Context `{Profile, KeyRemoval, NumInteger} {D Ctx : Type} `{ChoiceDomains D, SizeContext Ctx, ModelContext D Ctx}.
Context (space : SearchSpace D) (ctx : Ctx).

(** The graph of the levels, once all the latencies have been propagated: the first half of
    [bound]. *)
Definition model_dag : option (LocalInfo * list Level * CodePointDag * LevelDag) :=
  local_info ← local_info_compute space ctx;
  '(levels, dim_maps) ← levels_generate space ctx local_info;
  code_points ← code_points_build space levels;
  levels_dag ← level_dag_build space ctx local_info levels dim_maps (code_points_len code_points);
  '(levels, levels_dag) ← populate space ctx local_info code_points levels levels_dag;
  '(order, levels_dag) ← processing_order levels levels_dag;
  levels_dag ← foldM (process_action space ctx local_info code_points levels) order levels_dag;
  Some (local_info, levels, code_points, levels_dag).

(** The time of one block, repeated, and the throughput of the device. *)
Definition latency_bound (local_info : LocalInfo) (code_points : CodePointDag) (levels_dag : LevelDag) : option FastBound :=
  root_entry ← point_id code_points (LevelEntry 0);
  root_exit ← point_id code_points (LevelExit 0);
  root ← dag_root levels_dag;
  lat ← latency root root_entry root_exit;
  block_latency ← lat;
  let par := li_parallelism local_info in
  fb_scale block_latency (block_parallelism ctx space) (min_num_blocks par) (lcm_num_blocks par).

Definition throughput_bound (local_info : LocalInfo) : option FastBound :=
  global_pressure ← sum_pressure space ctx local_info LevelGlobal [] psize_default;
  pressure_bound global_pressure LevelGlobal (total_rates ctx).

(** [bound]. *)
Definition model_bound : option Bound :=
  '(local_info, levels, code_points, levels_dag) ← model_dag;
  latency ← latency_bound local_info code_points levels_dag;
  throughput ← throughput_bound local_info;
  bound ← bound_max latency throughput;
  bound_explain (bottlenecks ctx) levels (dag_nodes (cp_dag code_points)) bound.
End bound.

Lemma bound_max_value {O : Type} (a b m : ExplainedBound O) : bound_max a b = Some m →
  SFleb (bound_value a) (bound_value m) = true ∧ SFleb (bound_value b) (bound_value m) = true ∧
  (bound_value m = bound_value a ∨ bound_value m = bound_value b).
Proof.
  intros (c & Hc & [= <-])%bind_Some. unfold bound_cmp in Hc.
  assert (is_nan (bound_value a) = false ∧ is_nan (bound_value b) = false) as [Ha Hb].
  { revert Hc. by destruct (bound_value a), (bound_value b). }
  destruct (bound_max_spec a b Ha Hb) as (m & Hm & Hor & _ & Hle). unfold bound_max, bound_cmp in Hm. rewrite Hc in Hm. injection Hm as Hm.
  rewrite Hm. destruct Hle. split; [done|]. split; [done|]. destruct Hor as [->| ->]; auto.
Qed.
