(* ===== verification/LatencyGraph.v ===== *)
(** * The graph of latencies, and the bound of the model (src/model/mod.rs)

    What each step of [model_dag] adds to the graph of the levels, and nothing else: the
    nodes and their actions ([built]), the dependencies of the program ([populate_steps])
    and those that each action makes from the node that it is in ([order_ran]).  So the
    graph is the one that the levels of the space define ([latency_graph]), and the bound
    is the time of a path in it, or the throughput of the device. *)
From S2P Require Import Prelude VecSet Domains Types Utils Size SparseVec Operands Objects Function Dag EnumDomains.
From S2P Require Import Float64 Choices ModelSizes HwPressures DependencyMap LocalInfo Levels LevelFacts CodePoints.
From S2P Require Import LatencyModel.
From Stdlib Require Import Floats.SpecFloat.
#[local] Open Scope nat_scope.

(** ** Lists *)

Lemma foldM_split {A S : Type} (f : S → A → option S) l s s' x : foldM f l s = Some s' → x ∈ l →
  ∃ l1 l2 s1 s2, l = l1 ++ x :: l2 ∧ foldM f l1 s = Some s1 ∧ f s1 x = Some s2 ∧ foldM f l2 s2 = Some s'.
Proof.
  intros Hf (l1 & l2 & ->)%list_elem_of_split. rewrite foldM_app in Hf. apply bind_Some in Hf as (s1 & H1 & (s2 & Hx & H2)%bind_Some).
  by exists l1, l2, s1, s2.
Qed.

Lemma elem_of_enumerate {A : Type} (l : list A) i x : (i, x) ∈ enumerate l ↔ l !! i = Some x.
Proof.
  unfold enumerate. rewrite elem_of_lookup_zip_with. split.
  - intros (j & a & b & [= -> ->] & Ha & Hb). by apply lookup_seq in Ha as [-> _].
  - intros Hx. exists i, i, x. split; [done|]. split; [|done]. apply lookup_seq. split; [done|]. by eapply lookup_lt_Some.
Qed.

Lemma vs_leb_nil {A : Type} `{RustOrd A} (l : list A) : vs_leb [] l = true.
Proof. by destruct l. Qed.

(** ** Dependencies *)

Lemma dep_edge_inj self from to b b' : dep_edge self from to b → dep_edge self from to b' → b = b'.
Proof. intros (d & Hd & Hb) (d' & Hd' & Hb'). congruence. Qed.

(** An addition keeps or improves the dependencies, and makes no other. *)
Lemma add_dep_edges from to b self self' : add_dep from to b self = Some self' →
  (∀ f t e, dep_edge self f t e → ∃ e', dep_edge self' f t e' ∧ (e' = e ∨ is_better_than e' e = true)) ∧
  (∃ e, dep_edge self' from to e ∧ (e = b ∨ is_better_than b e = false)) ∧
  (∀ f t e, dep_edge self' f t e → dep_edge self f t e ∨ (f, t, e) = (from, to, b)).
Proof.
  unfold add_dep. intros ([] & _ & (d & Hd & [= <-])%bind_Some)%bind_Some. unfold deps in Hd.
  set (entry := match d !! from with None => b | _ => _ end).
  assert (∀ t d', deps (mkDependencyMap (<[to:=<[from:=entry]> d]> (dep_maps self))) t = Some d' ↔
    if decide (t = to) then d' = <[from:=entry]> d else deps self t = Some d') as Hdeps.
  { intros t d'. unfold deps. cbn. case_decide as E.
    - subst t. rewrite list_lookup_insert_eq by (by eapply lookup_lt_Some). naive_solver.
    - by rewrite list_lookup_insert_ne by done. }
  assert (∀ f t e, dep_edge (mkDependencyMap (<[to:=<[from:=entry]> d]> (dep_maps self))) f t e ↔
    if decide ((f, t) = (from, to)) then e = entry else dep_edge self f t e) as Hedge.
  { intros f t e. destruct (decide ((f, t) = (from, to))) as [[= -> ->]|E].
    - split.
      + intros (d' & Hd' & He). apply Hdeps in Hd'. rewrite decide_True in Hd' by done. subst d'. rewrite lookup_insert_eq in He. by injection He.
      + intros ->. exists (<[from:=entry]> d). split; [|apply lookup_insert_eq]. apply Hdeps. by rewrite decide_True.
    - split; intros (d' & Hd' & He).
      + apply Hdeps in Hd'. destruct (decide (t = to)) as [->|]; [|by exists d']. subst d'. rewrite lookup_insert_ne in He by congruence. by exists d.
      + destruct (decide (t = to)) as [->|]; [|exists d'; split; [apply Hdeps; by rewrite decide_False|done]].
        unfold deps in Hd'. rewrite Hd in Hd'. injection Hd' as <-. exists (<[from:=entry]> d).
        split; [apply Hdeps; by rewrite decide_True|]. by rewrite lookup_insert_ne by congruence. }
  setoid_rewrite Hedge. split; [|split].
  - intros f t e He. destruct (decide ((f, t) = (from, to))) as [[= -> ->]|Hne]; [|exists e; auto].
    exists entry. split; [done|]. destruct He as (d' & Hd' & He). unfold deps in Hd'. rewrite Hd in Hd'. injection Hd' as <-.
    unfold entry. rewrite He. destruct (is_better_than b e) eqn:Eb; auto.
  - exists entry. rewrite decide_True by done. split; [done|]. unfold entry. destruct (d !! from) as [old|]; [|by left].
    destruct (is_better_than b old) eqn:Eb; auto.
  - intros f t e He. destruct (decide ((f, t) = (from, to))) as [[= -> ->]|Hne]; [|by left]. subst e. unfold entry.
    destruct (d !! from) as [old|] eqn:Eo; [|by right]. destruct (is_better_than b old); [by right|]. left. by exists d.
Qed.

Lemma add_dep_ok from to b self self' : dep_wf self → add_dep from to b self = Some self' →
  dep_wf self' ∧ length (dep_maps self') = length (dep_maps self).
Proof.
  intros Hwf Ha. assert (from < to ∧ to < length (dep_maps self)) as [Hlt Hto].
  { unfold add_dep in Ha. destruct (from <? to) eqn:E; [|done]. apply bind_Some in Ha as (d & _ & (d' & Hd & _)%bind_Some).
    split; [by apply Nat.ltb_lt|]. by eapply lookup_lt_Some. }
  destruct (add_dep_spec from to b self Hlt Hto) as (s & e & Hs & Hl & Hw & _). rewrite Hs in Ha. injection Ha as <-. by split; [apply Hw|].
Qed.

(** ** Additions to the nodes

    [adds E] are the additions, one after the other, of dependencies that [E] allows in the
    node. *)
Section adds.
Implicit Types (E : nat → nat → nat → FastBound → Prop) (dag : LevelDag).

Definition added E dag dag' : Prop := ∃ id from to b, E id from to b ∧ add_to_node from to b dag id = Some dag'.

Definition adds E : LevelDag → LevelDag → Prop := star (added E).

Lemma adds_trans E dag dag1 dag2 : adds E dag dag1 → adds E dag1 dag2 → adds E dag dag2.
Proof. apply star_trans. Qed.

Lemma adds_one E id from to b dag dag' : E id from to b → add_to_node from to b dag id = Some dag' → adds E dag dag'.
Proof. intros HE Ha. eapply star_step; [by exists id, from, to, b|apply star_refl]. Qed.

Lemma adds_mono E E' dag dag' : (∀ id from to b, E id from to b → E' id from to b) → adds E dag dag' → adds E' dag dag'.
Proof. intros HE. induction 1 as [|s s' s'' (id & f & t & b & Hb & Ha) Hs IH]; [constructor|]. eapply adds_trans; [|exact IH]. eapply adds_one; [by apply HE|done]. Qed.

Lemma foldM_adds {A : Type} E (f : LevelDag → A → option LevelDag) l dag dag' :
  (∀ s x s', x ∈ l → f s x = Some s' → adds E s s') → foldM f l dag = Some dag' → adds E dag dag'.
Proof.
  intros Hf. apply (foldM_inv (adds E dag)); [|apply star_refl]. intros s x s' Hx Hs Hs'. eapply adds_trans; [done|by eapply Hf].
Qed.

Lemma add_to_node_spec from to b dag id dag' : add_to_node from to b dag id = Some dag' →
  node_ids dag' = node_ids dag ∧ length (level_nodes dag') = length (level_nodes dag) ∧
  (∀ i, i ≠ id → level_nodes dag' !! i = level_nodes dag !! i) ∧
  ∃ m m', dependencies dag id = Some m ∧ dependencies dag' id = Some m' ∧ add_dep from to b m = Some m'.
Proof.
  intros ([[r ms] d] & Hn & (d' & Ha & [= <-])%bind_Some)%bind_Some. cbn [node_ids level_nodes]. split; [done|]. split; [apply length_insert|].
  split; [intros i Hi; by rewrite list_lookup_insert_ne|]. exists d, d'. unfold dependencies. rewrite Hn. split; [done|]. split; [|done].
  cbn [level_nodes]. by rewrite list_lookup_insert_eq by (by eapply lookup_lt_Some).
Qed.

Lemma adds_ids E dag dag' : adds E dag dag' → node_ids dag' = node_ids dag ∧ length (level_nodes dag') = length (level_nodes dag).
Proof.
  induction 1 as [|s s' s'' (id & f & t & b & _ & (Hi & Hl & _)%add_to_node_spec) _ [IH1 IH2]]; [done|].
  split; congruence.
Qed.

(** The nodes that nothing is added to stay as they are. *)
Lemma adds_frame E dag dag' i : (∀ from to b, ¬ E i from to b) → adds E dag dag' → level_nodes dag' !! i = level_nodes dag !! i.
Proof.
  intros Hi. induction 1 as [|s s' s'' (id & f & t & b & Hb & (_ & _ & Hf & _)%add_to_node_spec) _ IH]; [done|].
  rewrite IH. apply Hf. intros ->. by eapply Hi.
Qed.

(** All the nodes hold dependencies that only go forward, between the same points. *)
Definition nodes_ok size dag : Prop :=
  Forall (λ n : list RepeatLevel * list LevelDimMap * DependencyMap, dep_wf n.2 ∧ length (dep_maps n.2) = size) (level_nodes dag).

Lemma adds_nodes_ok E size dag dag' : adds E dag dag' → nodes_ok size dag → nodes_ok size dag'.
Proof.
  induction 1 as [|s s' s'' (id & f & t & b & _ & Ha) _ IH]; [done|]. intros Hok. apply IH.
  apply bind_Some in Ha as ([[r m] d] & Hn & (d' & Hd & [= <-])%bind_Some). apply Forall_insert; [done|].
  destruct (Forall_lookup_1 _ _ _ _ Hok Hn) as [Hw Hl]. cbn [snd] in *. destruct (add_dep_ok _ _ _ _ _ Hw Hd) as [Hw' Hl']. split; [done|congruence].
Qed.

(** The actions of the nodes stay. *)
Lemma adds_acts E dag dag' i : adds E dag dag' → fst <$> level_nodes dag' !! i = fst <$> level_nodes dag !! i.
Proof.
  induction 1 as [|s s' s'' (id & f & t & b & _ & Ha) _ IH]; [done|]. rewrite IH.
  apply bind_Some in Ha as ([[r m] d] & Hn & (d' & Hd & [= <-])%bind_Some). cbn [level_nodes].
  destruct (decide (i = id)) as [->|Hne]; [|by rewrite list_lookup_insert_ne]. rewrite Hn, list_lookup_insert_eq by (by eapply lookup_lt_Some). done.
Qed.

(** The dependencies that a node holds. *)
Definition node_edge dag id from to b : Prop := ∃ m, dependencies dag id = Some m ∧ dep_edge m from to b.

Lemma added_node_edge from to b dag id dag' i f t e : add_to_node from to b dag id = Some dag' →
  node_edge dag' i f t e → node_edge dag i f t e ∨ (i, f, t, e) = (id, from, to, b).
Proof.
  intros (_ & _ & Hf & m & m' & Hm & Hm' & Ha)%add_to_node_spec (d & Hd & He). destruct (decide (i = id)) as [->|Hne].
  - rewrite Hm' in Hd. injection Hd as <-. destruct (add_dep_edges _ _ _ _ _ Ha) as (_ & _ & Hs).
    destruct (Hs f t e He) as [He'|[= -> -> ->]]; [left; by exists m|by right].
  - left. exists d. split; [|done]. unfold dependencies in *. by rewrite Hf in Hd.
Qed.

Lemma adds_sound E dag dag' i f t e : adds E dag dag' → node_edge dag' i f t e → node_edge dag i f t e ∨ E i f t e.
Proof.
  induction 1 as [|s s' s'' (id & f' & t' & b & Hb & Ha) _ IH]; [by left|]. intros [He|He]%IH; [|by right].
  destruct (added_node_edge _ _ _ _ _ _ _ _ _ _ Ha He) as [He'|[= -> -> -> ->]]; [by left|by right].
Qed.

(** The node has a dependency that is at least as good: the one given, or one that it does not
    improve, then replaced by better ones. *)
Definition at_least (b e : FastBound) : Prop :=
  ∃ x, (x = b ∨ is_better_than b x = false) ∧ star (λ x y, is_better_than y x = true) x e.

Definition covers dag id from to b : Prop := ∃ e, node_edge dag id from to e ∧ at_least b e.

Lemma adds_covers E dag dag' id from to b : adds E dag dag' → covers dag id from to b → covers dag' id from to b.
Proof.
  induction 1 as [|s s' s'' (i & f & t & b' & _ & Ha) _ IH]; [done|]. intros (e & (m & Hm & He) & x & Hx & Hs). apply IH.
  destruct (add_to_node_spec _ _ _ _ _ _ Ha) as (_ & _ & Hf & m0 & m' & Hm0 & Hm' & Hd). destruct (decide (id = i)) as [->|Hne].
  - rewrite Hm in Hm0. injection Hm0 as <-. destruct (add_dep_edges _ _ _ _ _ Hd) as (Hk & _). destruct (Hk _ _ _ He) as (e' & He' & Hb).
    exists e'. split; [by exists m'|]. exists x. split; [done|]. destruct Hb as [->|Hb]; [done|].
    eapply star_trans; [exact Hs|]. eapply star_step; [exact Hb|apply star_refl].
  - exists e. split; [|by exists x]. exists m. split; [|done]. unfold dependencies in *. by rewrite Hf.
Qed.

Lemma add_covers from to b dag id dag' : add_to_node from to b dag id = Some dag' → covers dag' id from to b.
Proof.
  intros (_ & _ & _ & m & m' & _ & Hm' & Ha)%add_to_node_spec. destruct (add_dep_edges _ _ _ _ _ Ha) as (_ & (e & He & Hb) & _).
  exists e. split; [by exists m'|]. exists e. split; [done|apply star_refl].
Qed.

(** Each of the nodes covers a dependency that is added to all of them. *)
Lemma foldM_covers {A : Type} E (f : LevelDag → A → option LevelDag) l dag dag' x id from to b :
  (∀ s x s', x ∈ l → f s x = Some s' → adds E s s') → foldM f l dag = Some dag' → x ∈ l →
  (∀ s s', adds E dag s → f s x = Some s' → covers s' id from to b) → covers dag' id from to b.
Proof.
  intros Hf Hl Hx Hc. destruct (foldM_split _ _ _ _ _ Hl Hx) as (l1 & l2 & s1 & s2 & -> & H1 & Hs & H2).
  eapply adds_covers; [eapply (foldM_adds E); [|exact H2]|eapply Hc; [eapply (foldM_adds E); [|exact H1]|exact Hs]].
  - intros s y s' Hy. apply Hf. rewrite elem_of_app, elem_of_cons. auto.
  - intros s y s' Hy. apply Hf. rewrite elem_of_app, elem_of_cons. auto.
Qed.

(** *** The loops over the nodes *)

Lemma add_dependency_adds E nodes from to b dag dag' : (∀ id, id ∈ nodes → E id from to b) →
  add_dependency nodes from to b dag = Some dag' → adds E dag dag' ∧ ∀ id, id ∈ nodes → covers dag' id from to b.
Proof.
  intros HE Ha. assert (∀ s id s', id ∈ nodes → add_to_node from to b s id = Some s' → adds E s s') as Hf.
  { intros s id s' Hid. apply adds_one. by apply HE. }
  split; [by eapply foldM_adds|]. intros id Hid. eapply (foldM_covers E); [exact Hf|exact Ha|exact Hid|]. intros s s' _. apply add_covers.
Qed.

Lemma add_dependency_to_all_adds E from to b dag dag' : (∀ id, E id from to b) →
  add_dependency_to_all from to b dag = Some dag' → adds E dag dag' ∧ ∀ id, id < length (level_nodes dag) → covers dag' id from to b.
Proof.
  intros HE Ha. destruct (add_dependency_adds E (seq 0 (length (level_nodes dag))) from to b dag dag') as [Hs Hc]; [auto|exact Ha|].
  split; [done|]. intros id Hid. apply Hc. apply elem_of_seq. lia.
Qed.

Lemma add_if_processed_adds E dims from to b dag dag' :
  (∀ k id, node_ids dag !! k = Some id → vs_leb dims k = true → E id from to b) →
  add_if_processed dims from to b dag = Some dag' →
  adds E dag dag' ∧ ∀ k id, node_ids dag !! k = Some id → vs_leb dims k = true → covers dag' id from to b.
Proof.
  intros HE Ha. unfold add_if_processed in Ha.
  assert (∀ s p s', p ∈ map_to_list (node_ids dag) → (if vs_leb dims p.1 then add_to_node from to b s p.2 else Some s) = Some s' → adds E s s') as Hf.
  { intros s [k id] s' Hp%elem_of_map_to_list Hs. cbn [fst snd] in Hs. destruct (vs_leb dims k) eqn:Ek; [|injection Hs as <-; apply star_refl].
    eapply adds_one; [|exact Hs]. by eapply HE. }
  split; [exact (foldM_adds E _ _ _ _ Hf Ha)|]. intros k id Hk Hle. eapply (foldM_covers E _ _ _ _ (k, id)); [exact Hf|exact Ha|by apply elem_of_map_to_list|].
  cbn [fst snd]. rewrite Hle. intros s s' _. apply add_covers.
Qed.
End adds.

(** ** The dependencies of the program *)

(** A level without its back-edges. *)
Definition bare (l : Level) : Level := mkLevel (level_dims l) (level_latency l) (end_latency l) [] (repeated_latency l).

Section program.
Context `{Profile, KeyRemoval, NumInteger} {D Ctx : Type} `{ChoiceDomains D, SizeContext Ctx, ModelContext D Ctx}.
Context (space : SearchSpace D) (ctx : Ctx) (local_info : LocalInfo) (code_points : CodePointDag).

(** The time an instruction takes to give its result. *)
Definition inst_time (id : InstId) (lat : FastBound) : Prop :=
  ∃ p, hw_pressure local_info !! SInst id = Some p ∧ pressure_bound p LevelThread (thread_rates ctx) = Some lat.

(** The instruction that gives its value to an operand, and the dimensions that are mapped. *)
Inductive operand_source : Operand LoweringMap → InstId → DimMap → Prop :=
| source_variable v t var prod m :
    variable v (ir_instance space) = Some var →
    production_inst (S (sv_len (variables (body (ir_instance space))))) (ir_instance space) (var_def var) = Some (prod, m) →
    operand_source (OVariable v t) prod (dm_new (map_to_list m))
| source_inst pred t m s : operand_source (OInst pred t m s) pred m
| source_reduce pred t m rd : operand_source (OReduce pred t m rd) pred m.

(** The dependencies of the point [p], with the dimensions that a node must have processed
    to hold them. *)
Inductive point_dep (levels : list Level) (p : nat) : CodePoint → list DimId → nat → nat → FastBound → Prop :=
| dep_order point after to :
    dag_after_of (cp_dag code_points) p = Some after → to ∈ after → point_dep levels p point [] p to fast_bound_zero
| dep_level id level exit :
    levels !! id = Some level → point_id code_points (LevelExit id) = Some exit →
    point_dep levels p (LevelEntry id) [] p exit (level_latency level)
| dep_block id level exit lat :
    levels !! id = Some level → point_id code_points (LevelExit id) = Some exit →
    repeated_latency level = Some lat → level_dims level = [] →
    point_dep levels p (LevelEntry id) [] p exit lat
| dep_threads id level exit lat before from :
    levels !! id = Some level → point_id code_points (LevelExit id) = Some exit →
    repeated_latency level = Some lat → level_dims level ≠ [] →
    dag_before_of (cp_dag code_points) p = Some before → from ∈ before →
    point_dep levels p (LevelEntry id) (level_dims level) from exit lat
| dep_end id level before from :
    levels !! id = Some level → dag_before_of (cp_dag code_points) p = Some before → from ∈ before →
    point_dep levels p (LevelExit id) [] from p (end_latency level)
| dep_data id i op pred m from lat mapped :
    inst id (ir_instance space) = Some i → op ∈ operands (inst_operator i) → operand_source op pred m →
    point_id code_points (CodeInst pred) = Some from → inst_time pred lat →
    filterM (must_consider_dim space) m.*2 = Some mapped →
    point_dep levels p (CodeInst id) (vs_new mapped) from p lat.

Definition program_dep (levels : list Level) (needed : list DimId) (from to : nat) (b : FastBound) : Prop :=
  ∃ p point, dag_nodes (cp_dag code_points) !! p = Some point ∧ point_dep levels p point needed from to b.

(** The instruction is a reduction over all the dimensions of a level. *)
Definition reduction_of (id : InstId) (dims : list DimId) (lat : FastBound) : Prop :=
  ∃ i pred t m rd, inst id (ir_instance space) = Some i ∧ OReduce pred t m rd ∈ operands (inst_operator i) ∧
    inst_time id lat ∧ ∀ d, d ∈ dims → d ∈ rd.

Definition reduction_edge (dims : list DimId) (p : nat) (lat : FastBound) : Prop :=
  ∃ id, dag_nodes (cp_dag code_points) !! p = Some (CodeInst id) ∧ reduction_of id dims lat.

Lemma point_dep_bare levels levels' p point needed from to b :
  bare <$> levels = bare <$> levels' → point_dep levels p point needed from to b → point_dep levels' p point needed from to b.
Proof.
  intros Hl. assert (∀ id level, levels !! id = Some level → ∃ level', levels' !! id = Some level' ∧ bare level = bare level') as Hlook.
  { intros id level Hid. assert ((bare <$> levels') !! id = Some (bare level)) as Hb by (by rewrite <-Hl, list_lookup_fmap, Hid).
    rewrite list_lookup_fmap in Hb. apply fmap_Some in Hb as (l' & Hl' & Hb). by exists l'. }
  destruct 1 as [|??? Hi|???? Hi|?????? Hi|???? Hi|]; try (apply Hlook in Hi as (l' & Hl' & [= E1 E2 E3 E4])).
  - by econstructor.
  - rewrite E2. by econstructor.
  - eapply dep_block; [exact Hl'|done|congruence|congruence].
  - rewrite E1. eapply dep_threads; [exact Hl'|done|congruence|congruence|done|done].
  - rewrite E3. by econstructor.
  - by econstructor.
Qed.

Lemma inst_latency_time id lat : inst_latency ctx local_info id = Some lat ↔ inst_time id lat.
Proof. unfold inst_latency, inst_time. by rewrite bind_Some. Qed.

(** [any] is only a shortcut. *)
Lemma set_data_dep_filter from to m b dag : set_data_dep space from to m b dag =
  (rassert (from <? to) ;; mapped ← filterM (must_consider_dim space) m.*2; add_if_processed (vs_new mapped) from to b dag).
Proof.
  unfold set_data_dep. destruct (from <? to); [|done]. cbn [rassert mbind option_bind].
  assert (match anyM (must_consider_dim space) m.*2 with
          | Some true => True
          | Some false => filterM (must_consider_dim space) m.*2 = Some []
          | None => filterM (must_consider_dim space) m.*2 = None
          end) as Hany.
  { induction m.*2 as [|d ds IH]; [done|]. cbn [anyM filterM]. destruct (must_consider_dim space d) as [[]|]; cbn [mbind option_bind]; [done| |done].
    destruct (anyM _ ds) as [[]|]; [done|..]; by rewrite IH. }
  destruct (anyM _ _) as [[]|]; cbn [mbind option_bind]; [done|by rewrite Hany|by rewrite Hany].
Qed.
End program.

(** ** [populate] adds all of them *)
Section populate.
Context `{Profile, KeyRemoval, NumInteger} {D Ctx : Type} `{ChoiceDomains D, SizeContext Ctx, ModelContext D Ctx}.
Context (space : SearchSpace D) (ctx : Ctx) (local_info : LocalInfo) (code_points : CodePointDag) (levels0 : list Level).
Context (ids : gmap (list DimId) nat) (size : nat).
Context (Hids : ∀ k id, ids !! k = Some id → id < size) (Hinj : ∀ k k' id, ids !! k = Some id → ids !! k' = Some id → k = k').

Notation program_dep := (program_dep space ctx local_info code_points).

Definition shape (dag : LevelDag) : Prop := node_ids dag = ids ∧ length (level_nodes dag) = size.

(** What [populate] may add to a node. *)
Definition base_at (id from to : nat) (b : FastBound) : Prop :=
  ∃ needed, program_dep levels0 needed from to b ∧ ∀ k, ids !! k = Some id → vs_leb needed k = true.

Implicit Types (X : list DimId → nat → nat → FastBound → Prop) (Y : list DimId → nat * FastBound → Prop).

(** A step that adds the dependencies [X] to the nodes that must hold them. *)
Definition fills X (dag dag' : LevelDag) : Prop :=
  shape dag → adds base_at dag dag' ∧
    ∀ needed from to b k id, X needed from to b → ids !! k = Some id → vs_leb needed k = true → covers dag' id from to b.

Lemma adds_shape E dag dag' : adds E dag dag' → shape dag → shape dag'.
Proof. intros [Hi Hl]%adds_ids [Hs1 Hs2]. split; congruence. Qed.

Lemma fills_refl dag : fills (λ _ _ _ _, False) dag dag.
Proof. intros _. split; [apply star_refl|done]. Qed.

Lemma fills_trans X X' dag dag1 dag2 : fills X dag dag1 → fills X' dag1 dag2 →
  fills (λ n f t b, X n f t b ∨ X' n f t b) dag dag2.
Proof.
  intros H1' H2' Hs. destruct (H1' Hs) as [Ha1 Hc1]. destruct (H2' (adds_shape _ _ _ Ha1 Hs)) as [Ha2 Hc2].
  split; [by eapply adds_trans|]. intros n f t b k id [HX|HX] Hk Hle; [|by eapply Hc2]. eapply adds_covers; [exact Ha2|by eapply Hc1].
Qed.

Lemma fills_weaken X X' dag dag' : (∀ n f t b, X' n f t b → X n f t b) → fills X dag dag' → fills X' dag dag'.
Proof. intros HX Hf Hs. destruct (Hf Hs) as [Ha Hc]. split; [done|]. intros n f t b k id Hx. by apply (Hc n), HX. Qed.

Lemma fills_fold {A : Type} (X : A → list DimId → nat → nat → FastBound → Prop) (f : LevelDag → A → option LevelDag) l dag dag' :
  (∀ s x s', x ∈ l → f s x = Some s' → fills (X x) s s') → foldM f l dag = Some dag' →
  fills (λ n f t b, ∃ x, x ∈ l ∧ X x n f t b) dag dag'.
Proof.
  revert dag. induction l as [|x l IH]; intros dag Hf; cbn [foldM].
  - intros [= <-]. eapply fills_weaken; [|apply fills_refl]. intros n f' t b (x & Hx & _). by apply elem_of_nil in Hx.
  - intros (dag1 & Hx & Hl)%bind_Some. eapply fills_weaken; [|eapply fills_trans; [eapply Hf; [left|exact Hx]|apply (IH dag1); [|exact Hl]]].
    + intros n f' t b (y & [->|Hy]%elem_of_cons & HX); [by left|right; by exists y].
    + intros s y s' Hy. apply Hf. by right.
Qed.

Lemma fills_all from to b dag dag' : program_dep levels0 [] from to b → add_dependency_to_all from to b dag = Some dag' →
  fills (λ n f t e, (n, f, t, e) = ([], from, to, b)) dag dag'.
Proof.
  intros Hp Ha [_ Hl]. destruct (add_dependency_to_all_adds base_at from to b dag dag') as [Hs Hc]; [|exact Ha|].
  - intros id. exists []. split; [done|]. intros k _. apply vs_leb_nil.
  - split; [done|]. intros n f t e k id [= -> -> -> ->] Hk _. apply Hc. rewrite Hl. by eapply Hids.
Qed.

Lemma fills_processed dims from to b dag dag' : program_dep levels0 dims from to b → add_if_processed dims from to b dag = Some dag' →
  fills (λ n f t e, (n, f, t, e) = (dims, from, to, b)) dag dag'.
Proof.
  intros Hp Ha [Hi _]. destruct (add_if_processed_adds base_at dims from to b dag dag') as [Hs Hc]; [|exact Ha|].
  - intros k id Hk Hle. rewrite Hi in Hk. exists dims. split; [done|]. intros k' Hk'. by rewrite (Hinj k' k id).
  - split; [done|]. intros n f t e k id [= -> -> -> ->] Hk Hle. apply (Hc k); [by rewrite Hi|done].
Qed.

(** *** The levels

    Only back-edges are added to them. *)
Definition pushes Y (levels levels' : list Level) : Prop :=
  Forall2 (λ l l', bare l = bare l' ∧ ∀ e, e ∈ back_edges l' ↔ e ∈ back_edges l ∨ Y (level_dims l) e) levels levels'.

Lemma pushes_bare Y levels levels' : pushes Y levels levels' → bare <$> levels = bare <$> levels'.
Proof. induction 1 as [|l l' levels levels' [Hb _] _ IH]; [done|]. cbn. by rewrite Hb, IH. Qed.

Lemma pushes_refl levels : pushes (λ _ _, False) levels levels.
Proof. apply Forall_Forall2_diag, Forall_forall. intros l _. split; [done|]. tauto. Qed.

Lemma pushes_trans Y Y' levels levels1 levels2 : pushes Y levels levels1 → pushes Y' levels1 levels2 →
  pushes (λ d e, Y d e ∨ Y' d e) levels levels2.
Proof.
  intros H1'. revert levels2. induction H1' as [|l l1 ls ls1 [Hb1 He1] Hls IH]; intros levels2 H2'; inversion H2' as [|? l2 ? ls2 [Hb2 He2] Hls2]; subst;
    [constructor|]. constructor; [|by apply IH]. split; [congruence|]. intros e. rewrite He2, He1.
  assert (level_dims l1 = level_dims l) as -> by (by injection Hb1). tauto.
Qed.

Lemma pushes_iff Y Y' levels levels' : (∀ d e, Y d e ↔ Y' d e) → pushes Y levels levels' → pushes Y' levels levels'.
Proof. intros HY Hp. eapply Forall2_impl; [exact Hp|]. intros l l' [Hb He]. split; [done|]. intros e. by rewrite He, HY. Qed.

(** A step on the levels and the graph. *)
Definition steps X Y (st st' : list Level * LevelDag) : Prop := pushes Y st.1 st'.1 ∧ fills X st.2 st'.2.

Lemma steps_dag X levels dag dag' : fills X dag dag' → steps X (λ _ _, False) (levels, dag) (levels, dag').
Proof. split; [apply pushes_refl|done]. Qed.

Lemma steps_trans X X' Y Y' st st1 st2 : steps X Y st st1 → steps X' Y' st1 st2 →
  steps (λ n f t b, X n f t b ∨ X' n f t b) (λ d e, Y d e ∨ Y' d e) st st2.
Proof. intros [Hp1 Hf1] [Hp2 Hf2]. split; [by eapply pushes_trans|by eapply fills_trans]. Qed.

Lemma steps_change X X' Y Y' st st' : (∀ n f t b, X' n f t b → X n f t b) → (∀ d e, Y d e ↔ Y' d e) →
  steps X Y st st' → steps X' Y' st st'.
Proof. intros HX HY [Hp Hf]. split; [by eapply pushes_iff|by eapply fills_weaken]. Qed.

Lemma steps_fold {A : Type} (X : A → list DimId → nat → nat → FastBound → Prop) (Y : A → list DimId → nat * FastBound → Prop)
    (f : list Level * LevelDag → A → option (list Level * LevelDag)) l st st' :
  (∀ s x s', x ∈ l → bare <$> s.1 = bare <$> levels0 → f s x = Some s' → steps (X x) (Y x) s s') →
  bare <$> st.1 = bare <$> levels0 → foldM f l st = Some st' →
  steps (λ n f t b, ∃ x, x ∈ l ∧ X x n f t b) (λ d e, ∃ x, x ∈ l ∧ Y x d e) st st'.
Proof.
  revert st. induction l as [|x l IH]; intros st Hf Hst; cbn [foldM].
  - intros [= <-]. split.
    + eapply pushes_iff; [|apply pushes_refl]. intros d e. split; [done|]. intros (x & Hx & _). by apply elem_of_nil in Hx.
    + eapply fills_weaken; [|apply fills_refl]. intros n f' t b (x & Hx & _). by apply elem_of_nil in Hx.
  - intros (st1 & Hx & Hl)%bind_Some. assert (steps (X x) (Y x) st st1) as Hs by (eapply Hf; [left|done|done]).
    eapply steps_change; [| |eapply steps_trans; [exact Hs|apply (IH st1); [| |exact Hl]]].
    + intros n f' t b (y & [->|Hy]%elem_of_cons & HX); [by left|right; by exists y].
    + intros d e. split; [intros [HY|(y & Hy & HY)]; [exists x|exists y]; (split; [by constructor|done])|].
      intros (y & [->|Hy]%elem_of_cons & HY); [by left|right; by exists y].
    + intros s y s' Hy. apply Hf. by right.
    + rewrite <-Hst. symmetry. by apply (pushes_bare (Y x)), Hs.
Qed.

(** *** The points *)
Notation dag_points := (dag_nodes (cp_dag code_points)).

(** The dependencies that come from one operand. *)
Definition operand_deps (op : Operand LoweringMap) (p : nat) (n : list DimId) (f t : nat) (b : FastBound) : Prop :=
  t = p ∧ ∃ pred m mapped, operand_source space op pred m ∧ point_id code_points (CodeInst pred) = Some f ∧
    inst_time ctx local_info pred b ∧ filterM (must_consider_dim space) m.*2 = Some mapped ∧ n = vs_new mapped.

Definition operand_edges (id : InstId) (op : Operand LoweringMap) (p : nat) (d : list DimId) (e : nat * FastBound) : Prop :=
  e.1 = p ∧ inst_time ctx local_info id e.2 ∧ ∃ pred t m rd, op = OReduce pred t m rd ∧ ∀ x, x ∈ d → x ∈ rd.

Lemma inst_time_inj id lat lat' : inst_time ctx local_info id lat → inst_time ctx local_info id lat' → lat = lat'.
Proof. intros (p & Hp & Hb) (p' & Hp' & Hb'). congruence. Qed.

Lemma operand_source_inj op pred m pred' m' : operand_source space op pred m → operand_source space op pred' m' → pred = pred' ∧ m = m'.
Proof. destruct 1 as [v t var prod m Hv Hp| |]; inversion 1; subst; [|done|done]. by simplify_eq. Qed.

Lemma data_dep_from_fills p id i op pred m dag dag' :
  dag_points !! p = Some (CodeInst id) → inst id (ir_instance space) = Some i → op ∈ operands (inst_operator i) →
  operand_source space op pred m → data_dep_from space ctx local_info code_points pred m p dag = Some dag' →
  fills (operand_deps op p) dag dag'.
Proof.
  intros Hp Hi Hop Hs (from & Hfrom & (lat & Hlat%inst_latency_time & Hd)%bind_Some)%bind_Some.
  rewrite set_data_dep_filter in Hd. apply bind_Some in Hd as ([] & _ & (mapped & Hm & Hd)%bind_Some).
  eapply fills_weaken; [|eapply (fills_processed (vs_new mapped) from p lat); [|exact Hd]].
  - intros n f t b (-> & pred' & m' & mapped' & Hs' & Hf & Hb & Hm' & ->).
    destruct (operand_source_inj _ _ _ _ _ Hs Hs') as [<- <-]. rewrite (inst_time_inj _ _ _ Hb Hlat). congruence.
  - exists p, (CodeInst id). split; [done|]. by eapply dep_data.
Qed.

Lemma add_back_edge_spec rd p lat l : bare (add_back_edge rd p lat l) = bare l ∧
  ∀ e, e ∈ back_edges (add_back_edge rd p lat l) ↔ e ∈ back_edges l ∨ e = (p, lat) ∧ ∀ d, d ∈ level_dims l → d ∈ rd.
Proof.
  unfold add_back_edge. destruct (forallb (λ d, bool_decide (d ∈ rd)) (level_dims l)) eqn:Ed; (split; [done|]); intros e; cbn [back_edges].
  - rewrite elem_of_app, list_elem_of_singleton. rewrite forallb_forall in Ed.
    assert (∀ d, d ∈ level_dims l → d ∈ rd) as Hd by (intros d Hd; by apply list_elem_of_In, Ed, bool_decide_eq_true in Hd). tauto.
  - split; [by left|]. intros [He|[-> Hd]]; [done|]. rewrite <-not_true_iff_false, forallb_forall in Ed. destruct Ed.
    intros d Hin. apply bool_decide_eq_true, Hd. by apply list_elem_of_In.
Qed.

Lemma operand_steps p id i op st st' :
  dag_points !! p = Some (CodeInst id) → inst id (ir_instance space) = Some i → op ∈ operands (inst_operator i) →
  operand_data_dep space ctx local_info code_points id p st op = Some st' →
  steps (operand_deps op p) (operand_edges id op p) st st'.
Proof.
  destruct st as [levels dag]. intros Hp Hi Hop Hst. unfold operand_data_dep in Hst.
  assert (∀ pred m dag1, operand_source space op pred m → data_dep_from space ctx local_info code_points pred m p dag = Some dag1 →
    fills (operand_deps op p) dag dag1) as Hdata by (intros; by eapply data_dep_from_fills).
  assert (∀ dag1, (∀ pred t m rd, op ≠ OReduce pred t m rd) → fills (operand_deps op p) dag dag1 →
    steps (operand_deps op p) (operand_edges id op p) (levels, dag) (levels, dag1)) as Hnone.
  { intros dag1 Hr Hf. eapply steps_change; [done| |by apply steps_dag].
    intros d e. split; [done|]. intros (_ & _ & pred & t & m & rd & -> & _). by destruct (Hr pred t m rd). }
  destruct op; try (injection Hst as <-; apply Hnone; [done|]; eapply fills_weaken; [|apply fills_refl];
    intros n f t' b (_ & pred & m' & mapped & Hs & _); inversion Hs).
  - apply bind_Some in Hst as (dag1 & Hd & [= <-]). apply Hnone; [done|]. eapply Hdata; [constructor|exact Hd].
  - apply bind_Some in Hst as (dag1 & Hd & (lat & Hlat%inst_latency_time & [= <-])%bind_Some).
    split; [|eapply Hdata; [constructor|exact Hd]]. cbn [fst]. apply Forall2_fmap_r, Forall_Forall2_diag, Forall_forall. intros l _.
    destruct (add_back_edge_spec dims p lat l) as [Hb He]. split; [done|]. intros e. rewrite He. apply or_iff_compat_l. split.
    + intros [-> Hdims]. split; [done|]. split; [done|]. by exists id0, t, m, dims.
    + destruct e as [q lat']. intros (Hq & Hlat' & pred & t' & m' & rd & [= -> -> -> ->] & Hdims). cbn in Hq, Hlat'.
      split; [|done]. by rewrite Hq, (inst_time_inj _ _ _ Hlat' Hlat).
  - apply bind_Some in Hst as (var & Hv & ([prod m] & Hm & (dag1 & Hd & [= <-])%bind_Some)%bind_Some). apply Hnone; [done|].
    eapply Hdata; [by econstructor|exact Hd].
Qed.

(** The back-edges of one point. *)
Definition point_edges (p : nat) (point : CodePoint) (d : list DimId) (e : nat * FastBound) : Prop :=
  e.1 = p ∧ ∃ id, point = CodeInst id ∧ reduction_of space ctx local_info id d e.2.

Notation point_dep := (point_dep space ctx local_info code_points).

Lemma set_data_deps_steps p id st st' : dag_points !! p = Some (CodeInst id) → bare <$> st.1 = bare <$> levels0 →
  set_data_deps space ctx local_info code_points id p st = Some st' →
  steps (λ n f t b, ∃ i op, inst id (ir_instance space) = Some i ∧ op ∈ operands (inst_operator i) ∧ operand_deps op p n f t b)
    (point_edges p (CodeInst id)) st st'.
Proof.
  intros Hp Hl (i & Hi & Hf)%bind_Some. eapply steps_change; [| |eapply (steps_fold (λ op, operand_deps op p) (λ op, operand_edges id op p)); [|exact Hl|exact Hf]].
  - intros n f t b (i' & op & Hi' & Hop & Hd). rewrite Hi in Hi'. injection Hi' as <-. by exists op.
  - intros d e. split.
    + intros (op & Hop & He & Ht & pred & t & m & rd & -> & Hd). split; [done|]. exists id. split; [done|]. by exists i, pred, t, m, rd.
    + intros (He & id' & [= <-] & i' & pred & t & m & rd & Hi' & Hop & Ht & Hd). rewrite Hi in Hi'. injection Hi' as <-.
      exists (OReduce pred t m rd). split; [done|]. split; [done|]. split; [done|]. by exists pred, t, m, rd.
  - intros s op s' Hop _. by apply (operand_steps p id i).
Qed.

Lemma set_latency_fills p point dag dag' : dag_points !! p = Some point → set_latency code_points p fast_bound_zero dag = Some dag' →
  fills (λ n f t b, n = [] ∧ f = p ∧ b = fast_bound_zero ∧ ∃ after, dag_after_of (cp_dag code_points) p = Some after ∧ t ∈ after) dag dag'.
Proof.
  intros Hp (after & Ha & Hf)%bind_Some. eapply fills_weaken; [|eapply (fills_fold (λ to n f t e, (n, f, t, e) = ([], p, to, fast_bound_zero))); [|exact Hf]].
  - intros n f t b (-> & -> & -> & after' & Ha' & Ht). rewrite Ha in Ha'. injection Ha' as <-. by exists t.
  - intros s to s' Hto. apply fills_all. exists p, point. split; [done|]. by econstructor.
Qed.
Lemma populate_entry_fills levels p id dag dag' : bare <$> levels = bare <$> levels0 → dag_points !! p = Some (LevelEntry id) →
  populate_entry code_points levels p id dag = Some dag' →
  fills (λ n f t b, ∃ level, levels !! id = Some level ∧ point_id code_points (LevelExit id) = Some t ∧
    ((n, f, b) = ([], p, level_latency level) ∨
     repeated_latency level = Some b ∧
       (level_dims level = [] ∧ (n, f) = ([], p) ∨
        level_dims level ≠ [] ∧ n = level_dims level ∧ ∃ before, dag_before_of (cp_dag code_points) p = Some before ∧ f ∈ before))) dag dag'.
Proof.
  intros Hl Hp (exit & Hexit & (level & Hlevel & (dag1 & H1' & H2')%bind_Some)%bind_Some)%bind_Some.
  assert (∀ n f t b, point_dep levels p (LevelEntry id) n f t b → program_dep levels0 n f t b) as Hdep.
  { intros n f t b Hd. exists p, (LevelEntry id). split; [done|]. by eapply point_dep_bare. }
  apply fills_all in H1'; [|apply Hdep; by eapply dep_level]. destruct (repeated_latency level) as [lat|] eqn:Er.
  - assert (fills (λ n f t b, repeated_latency level = Some b ∧ t = exit ∧
       (level_dims level = [] ∧ (n, f) = ([], p) ∨
        level_dims level ≠ [] ∧ n = level_dims level ∧ ∃ before, dag_before_of (cp_dag code_points) p = Some before ∧ f ∈ before)) dag1 dag') as Hrep.
    { destruct (level_dims level) as [|d ds] eqn:Ed; cbn [vs_is_empty] in H2'.
      - eapply fills_weaken; [|eapply (fills_all p exit lat); [apply Hdep; by eapply dep_block|exact H2']].
        intros n f t b (Hb & -> & [[_ [= -> ->]]|[? _]]); [|done]. congruence.
      - apply bind_Some in H2' as (before & Hb & H2').
        eapply fills_weaken; [|eapply (fills_fold (λ from n f t e, (n, f, t, e) = (d :: ds, from, exit, lat))); [|exact H2']].
        + intros n f t b (Hb' & -> & [[? _]|(_ & -> & before' & Hb2 & Hf)]); [done|]. rewrite Hb in Hb2. injection Hb2 as <-. exists f. split; [done|]. congruence.
        + intros s from s' Hfrom Hs. eapply fills_processed; [|exact Hs]. apply Hdep. rewrite <-Ed. eapply dep_threads; [done..| |done|done]. by rewrite Ed. }
    eapply fills_weaken; [|eapply fills_trans; [exact H1'|exact Hrep]].
    intros n f t b (level' & Hlevel' & Ht & Hx). rewrite Hlevel in Hlevel'. injection Hlevel' as <-. rewrite Hexit in Ht. injection Ht as <-.
    destruct Hx as [[= -> -> ->]|[Hx1 Hx2]]; [by left|]. right. split; [congruence|done].
  - injection H2' as <-. eapply fills_weaken; [|exact H1'].
    intros n f t b (level' & Hlevel' & Ht & Hx). rewrite Hlevel in Hlevel'. injection Hlevel' as <-. rewrite Hexit in Ht. injection Ht as <-.
    destruct Hx as [[= -> -> ->]|[Hx _]]; [done|congruence].
Qed.

Lemma populate_point_steps p point st st' : dag_points !! p = Some point → bare <$> st.1 = bare <$> levels0 →
  populate_point space ctx local_info code_points st (p, point) = Some st' →
  steps (point_dep levels0 p point) (point_edges p point) st st'.
Proof.
  destruct st as [levels dag]. intros Hp Hl (dag1 & H1'%(set_latency_fills p point) & H2')%bind_Some; [|done]. cbn [fst snd] in *.
  apply (steps_dag _ levels) in H1'.
  assert (∀ X Y, steps X Y (levels, dag1) st' → (∀ d e, Y d e ↔ point_edges p point d e) →
    (∀ n f t b, point_dep levels p point n f t b → (n = [] ∧ f = p ∧ b = fast_bound_zero ∧
      ∃ after, dag_after_of (cp_dag code_points) p = Some after ∧ t ∈ after) ∨ X n f t b) →
    steps (point_dep levels0 p point) (point_edges p point) (levels, dag) st') as Hdone.
  { intros X Y Hst HY HX. eapply steps_change; [| |eapply steps_trans; [exact H1'|exact Hst]].
    - intros n f t b Hd. apply HX. by eapply point_dep_bare.
    - intros d e. rewrite <-HY. tauto. }
  destruct point as [id|id|id].
  - eapply Hdone; [by eapply (set_data_deps_steps p id (levels, dag1))|done|].
    intros n f t b Hd. inversion Hd; subst; [left; eauto 10|]. right. eexists _, _. do 3 (split; [done|]). eexists _, _, _. by do 4 (split; [eassumption|]).
  - apply bind_Some in H2' as (dag2 & H2' & [= <-]). apply (populate_entry_fills levels p id) in H2'; [|done|done].
    eapply Hdone; [eapply steps_dag; exact H2'|split; [done|intros (_ & ? & ? & _); done]|].
    intros n f t b Hd. inversion Hd; subst; [left; eauto 10|right..]; (eexists; split; [eassumption|]; split; [eassumption|]); naive_solver.
  - apply bind_Some in H2' as (level & Hlevel & (before & Hb & (dag2 & H2' & [= <-])%bind_Some)%bind_Some).
    assert (fills (λ n f t b, ∃ from, from ∈ before ∧ (n, f, t, b) = ([], from, p, end_latency level)) dag1 dag2) as Hf.
    { eapply (fills_fold (λ from n f t b, (n, f, t, b) = ([], from, p, end_latency level))); [|exact H2'].
      intros s from s' Hfrom. apply fills_all. exists p, (LevelExit id). split; [done|]. eapply point_dep_bare; [exact Hl|]. by econstructor. }
    eapply Hdone; [eapply steps_dag; exact Hf|split; [done|intros (_ & ? & ? & _); done]|].
    intros n f t b Hd. inversion Hd; subst; [left; eauto 10|]. right. exists f. split; congruence.
Qed.

(** All the dependencies of the program, and its reductions. *)
Lemma populate_steps dag st : populate space ctx local_info code_points levels0 dag = Some st →
  steps (program_dep levels0) (λ d e, reduction_edge space ctx local_info code_points d e.1 e.2) (levels0, dag) st.
Proof.
  intros Hf. eapply steps_change; [| |eapply (steps_fold (λ e, point_dep levels0 e.1 e.2) (λ e, point_edges e.1 e.2)); [| |exact Hf]]; [..|done].
  - intros n f t b (p & point & Hp & Hd). exists (p, point). split; [by apply elem_of_enumerate|done].
  - intros d e. split.
    + intros ([p point] & Hp%elem_of_enumerate & He & id & Hid & Hr). cbn [fst snd] in *. subst. by exists id.
    + intros (id & Hp & Hr). exists (e.1, CodeInst id). split; [by apply elem_of_enumerate|]. split; [done|]. by exists id.
  - intros s [p point] s' Hp%elem_of_enumerate Hs. by apply populate_point_steps.
Qed.
End populate.

(** ** Repeated levels *)

Section extends.
Implicit Types (E C : nat → nat → nat → FastBound → Prop).

(** A step that only adds what [E] allows, and at least [C]. *)
Definition extends E C (dag dag' : LevelDag) : Prop := adds E dag dag' ∧ ∀ id from to b, C id from to b → covers dag' id from to b.

Lemma extends_compose E C C' dag dag1 dag2 : extends E C dag dag1 → extends E C' dag1 dag2 →
  extends E (λ id f t b, C id f t b ∨ C' id f t b) dag dag2.
Proof.
  intros [Ha1 Hc1] [Ha2 Hc2]. split; [by eapply adds_trans|]. intros id f t b [HC|HC]; [|by apply Hc2].
  eapply adds_covers; [exact Ha2|by apply Hc1].
Qed.

Lemma extends_weaken E C C' dag dag' : (∀ id f t b, C' id f t b → C id f t b) → extends E C dag dag' → extends E C' dag dag'.
Proof. intros HC [Ha Hc]. split; [done|]. intros id f t b HC'. by apply Hc, HC. Qed.

Lemma extends_none E dag : extends E (λ _ _ _ _, False) dag dag.
Proof. split; [apply star_refl|done]. Qed.

Lemma extends_fold {A : Type} E (C : A → nat → nat → nat → FastBound → Prop) (f : LevelDag → A → option LevelDag) l dag dag' :
  (∀ s x s', x ∈ l → adds E dag s → f s x = Some s' → extends E (C x) s s') → foldM f l dag = Some dag' →
  extends E (λ id f t b, ∃ x, x ∈ l ∧ C x id f t b) dag dag'.
Proof.
  intros Hf. assert (∀ k s, adds E dag s → (∀ x, x ∈ k → x ∈ l) → foldM f k s = Some dag' → extends E (λ id f t b, ∃ x, x ∈ k ∧ C x id f t b) s dag') as Hk.
  { induction k as [|x k IH]; intros s Hs Hin; cbn [foldM].
    - intros [= ->]. eapply extends_weaken; [|apply extends_none]. intros id f' t b (x & Hx & _). by apply elem_of_nil in Hx.
    - intros (s1 & Hx & Hl)%bind_Some. assert (extends E (C x) s s1) as He by (eapply Hf; [apply Hin; left|done|done]).
      eapply extends_weaken; [|eapply extends_compose; [exact He|apply IH; [| |exact Hl]]].
      + intros id f' t b (y & [->|Hy]%elem_of_cons & HC); [by left|right; by exists y].
      + eapply adds_trans; [exact Hs|apply He].
      + intros y Hy. apply Hin. by right. }
  apply Hk; [apply star_refl|done].
Qed.

(** A dependency added to some nodes. *)
Lemma extends_add E nodes from to b dag dag' : (∀ id, id ∈ nodes → E id from to b) → add_dependency nodes from to b dag = Some dag' →
  extends E (λ id f t e, id ∈ nodes ∧ (f, t, e) = (from, to, b)) dag dag'.
Proof.
  intros HE Ha. destruct (add_dependency_adds E nodes from to b dag dag' HE Ha) as [Hs Hc]. split; [done|].
  intros id f t e [Hid [= -> -> ->]]. by apply Hc.
Qed.
End extends.

Section repeat.
Context `{Profile, KeyRemoval, NumInteger} {D Ctx : Type} `{ChoiceDomains D, SizeContext Ctx, ModelContext D Ctx}.
Context (space : SearchSpace D) (ctx : Ctx) (local_info : LocalInfo) (code_points : CodePointDag) (levels0 : list Level).

(** The search finds a path, with this latency. *)
Definition best (m : DependencyMap) (from to : nat) (b : FastBound) : Prop := latency m from to = Some (Some b).

(** The latency of the first and the last iterations, with a back-edge between them. *)
Definition back_init (m : DependencyMap) (entry exit point : nat) (lat : FastBound) (pred : nat) (init : FastBound) : Prop :=
  ∃ to_point to_exit entry_to_point, best m pred point to_point ∧ best m pred exit to_exit ∧ best m entry point entry_to_point ∧
    bound_max (fb_chain to_point point lat) (fb_chain to_exit entry entry_to_point) = Some init.

(** The dependencies that an action makes from those, [m], of the node that it is in. *)
Inductive action_dep (m : DependencyMap) : DagAction → nat → nat → FastBound → Prop :=
| iterations_dep r entry exit pred first cycle :
    point_id code_points (LevelEntry (rl_level_id r)) = Some entry → point_id code_points (LevelExit (rl_level_id r)) = Some exit →
    dep_edge m pred entry first → best m entry exit cycle →
    action_dep m (Repeat r) pred exit (fb_chain fast_bound_zero entry (fb_iterate cycle (rl_iterations r) (rl_level_id r)))
| inner_dep r entry exit preds pred cycle init :
    point_id code_points (LevelEntry (rl_level_id r)) = Some entry → point_id code_points (LevelExit (rl_level_id r)) = Some exit →
    dag_predecessors (cp_dag code_points) entry = Some preds → pred ∈ preds → best m entry exit cycle → best m pred exit init →
    action_dep m (Repeat r) pred entry (fb_chain init entry (fb_iterate cycle (rl_iterations r - 2) (rl_level_id r)))
| back_dep r entry exit preds pred level point lat init :
    point_id code_points (LevelEntry (rl_level_id r)) = Some entry → point_id code_points (LevelExit (rl_level_id r)) = Some exit →
    dag_predecessors (cp_dag code_points) entry = Some preds → pred ∈ preds →
    levels0 !! rl_level_id r = Some level → reduction_edge space ctx local_info code_points (level_dims level) point lat →
    back_init m entry exit point lat pred init →
    action_dep m (Repeat r) pred point (fb_chain init point (fb_iterate lat (rl_iterations r - 2) (rl_level_id r)))
| back_exit_dep r entry exit preds pred level point lat init exit_lat :
    point_id code_points (LevelEntry (rl_level_id r)) = Some entry → point_id code_points (LevelExit (rl_level_id r)) = Some exit →
    dag_predecessors (cp_dag code_points) entry = Some preds → pred ∈ preds →
    levels0 !! rl_level_id r = Some level → reduction_edge space ctx local_info code_points (level_dims level) point lat →
    back_init m entry exit point lat pred init → (3 <= rl_iterations r)%Z → best m point exit exit_lat →
    action_dep m (Repeat r) pred entry
      (fb_chain (fb_chain init point (fb_iterate lat (rl_iterations r - 3) (rl_level_id r))) point exit_lat)
| mapped_dep map point pred src dst lat src_lat :
    cp_ids code_points !! point = Some pred → is_before_dims space levels0 point (ldm_src_dims map) = Some true →
    point_id code_points (CodeInst (ldm_src map)) = Some src → point_id code_points (CodeInst (ldm_dst map)) = Some dst →
    inst_time ctx local_info (ldm_src map) src_lat → best m pred src lat →
    action_dep m (ApplyDimMap map) pred dst (fb_chain lat src src_lat).

Lemma known_latency_best m to l from b : latency_to m to = Some l → known_latency l from = Some b ↔ best m from to b.
Proof.
  intros Hl. unfold known_latency, best, latency. rewrite Hl. cbn [mbind option_bind]. unfold mjoin, option_join.
  destruct (l !! from) as [[x|]|]; naive_solver.
Qed.

Lemma is_before_dims_bare levels p dims : bare <$> levels = bare <$> levels0 → is_before_dims space levels p dims = is_before_dims space levels0 p dims.
Proof.
  intros Hl. assert (blocks levels p = blocks levels0 p) as Hb.
  { assert (∀ id, level_dims <$> levels !! id = level_dims <$> levels0 !! id) as Hd.
    { intros id. assert ((bare <$> levels) !! id = (bare <$> levels0) !! id) as Hi by (by rewrite Hl). rewrite !list_lookup_fmap in Hi.
      destruct (levels !! id), (levels0 !! id); try done. injection Hi as Hi _ _ _. cbn. by rewrite Hi. }
    destruct p as [id|id|id]; cbn [blocks]; [done|..]; specialize (Hd id); destruct (levels !! id), (levels0 !! id); try done; cbn in *; congruence. }
  unfold is_before_dims. by rewrite Hb.
Qed.
(** The levels that [populate] leaves. *)
Context (levels : list Level) (Hbare : bare <$> levels = bare <$> levels0).
Context (Hback : ∀ id level e, levels !! id = Some level →
  e ∈ back_edges level ↔ reduction_edge space ctx local_info code_points (level_dims level) e.1 e.2).

Lemma level_before id level : levels !! id = Some level → ∃ level0, levels0 !! id = Some level0 ∧ level_dims level0 = level_dims level.
Proof.
  intros Hl. assert ((bare <$> levels0) !! id = Some (bare level)) as Hb by (by rewrite <-Hbare, list_lookup_fmap, Hl).
  rewrite list_lookup_fmap in Hb. apply fmap_Some in Hb as (l0 & Hl0 & [= Hd _ _ _]). by exists l0.
Qed.

Section action.
Context (from : nat) (to : list nat) (m : DependencyMap) (dag0 : LevelDag).
Context (Hfrom : from ∉ to) (Hm : dependencies dag0 from = Some m).

(** What the action may add. *)
Definition action_at (a : DagAction) (id f t : nat) (b : FastBound) : Prop := id ∈ to ∧ action_dep m a f t b.

(** The node that the action reads is not changed by it. *)
Lemma action_reads a dag : adds (action_at a) dag0 dag → dependencies dag from = Some m.
Proof.
  intros Ha. unfold dependencies. rewrite (adds_frame (action_at a) dag0 dag from); [exact Hm| |done]. by intros f t b [? _].
Qed.

Context (r : RepeatLevel) (entry exit : nat) (preds : list nat) (lats : list (option FastBound)).
Context (Hentry : point_id code_points (LevelEntry (rl_level_id r)) = Some entry) (Hexit : point_id code_points (LevelExit (rl_level_id r)) = Some exit).
Context (Hpreds : dag_predecessors (cp_dag code_points) entry = Some preds) (Hlats : latency_to m exit = Some lats).

Lemma repeat_back_edge_extends level level0 point lat plats pred dag dag' : pred ∈ preds →
  levels0 !! rl_level_id r = Some level0 → level_dims level0 = level_dims level →
  reduction_edge space ctx local_info code_points (level_dims level) point lat → latency_to m point = Some plats →
  repeat_back_edge r entry lats plats to point lat dag pred = Some dag' →
  extends (action_at (Repeat r)) (λ id f t b, id ∈ to ∧ ∃ init, back_init m entry exit point lat pred init ∧
    ((f, t, b) = (pred, point, fb_chain init point (fb_iterate lat (rl_iterations r - 2) (rl_level_id r))) ∨
     (3 <= rl_iterations r)%Z ∧ ∃ exit_lat, best m point exit exit_lat ∧
       (f, t, b) = (pred, entry, fb_chain (fb_chain init point (fb_iterate lat (rl_iterations r - 3) (rl_level_id r))) point exit_lat))) dag dag'.
Proof.
  intros Hpred Hl0 Hdims Hr Hp (to_point & Htp & (to_exit & Hte & (etp & Hetp & (init & Hi & Hadd)%bind_Some)%bind_Some)%bind_Some)%bind_Some.
  apply (known_latency_best m _ _ _ _ Hp) in Htp, Hetp. apply (known_latency_best m _ _ _ _ Hlats) in Hte.
  assert (back_init m entry exit point lat pred init) as Hinit by (by exists to_point, to_exit, etp).
  assert (∀ init', back_init m entry exit point lat pred init' → init' = init) as Huniq.
  { intros init' (a & b & c & Ha & Hb & Hc & Hi'). unfold best in *. congruence. }
  apply bind_Some in Hadd as (dag1 & Hadd & Hrest). rewrite <-Hdims in Hr.
  apply (extends_add (action_at (Repeat r))) in Hadd; [|intros id Hid; split; [done|]; by eapply back_dep].
  destruct (3 <=? rl_iterations r)%Z eqn:E3.
  - apply Z.leb_le in E3. apply bind_Some in Hrest as (el & Hel & Hrest). apply (known_latency_best m _ _ _ _ Hlats) in Hel.
    apply (extends_add (action_at (Repeat r))) in Hrest; [|intros id Hid; split; [done|]; by eapply back_exit_dep].
    eapply extends_weaken; [|eapply extends_compose; [exact Hadd|exact Hrest]].
    intros id f t b (Hid & init' & Hi'%Huniq & [Hx|(_ & el' & Hel' & Hx)]); subst init'; [by left|]. right. split; [done|].
    assert (el' = el) as -> by (unfold best in *; congruence). done.
  - apply Z.leb_gt in E3. injection Hrest as <-. eapply extends_weaken; [|exact Hadd].
    intros id f t b (Hid & init' & Hi'%Huniq & [Hx|(? & _)]); subst; [done|lia].
Qed.

Lemma repeat_level_extends dag' : repeat_level code_points levels r from to dag0 = Some dag' →
  extends (action_at (Repeat r)) (action_at (Repeat r)) dag0 dag'.
Proof.
  intros ([] & _ & (entry' & He' & (exit' & Hx' & (m' & Hm' & Hrest)%bind_Some)%bind_Some)%bind_Some)%bind_Some.
  apply bind_Some in Hrest as (preds' & Hp' & (ed & Hed & (lats' & Hl' & (cycle & Hc & Hrest)%bind_Some)%bind_Some)%bind_Some).
  rewrite Hentry in He'. injection He' as <-. rewrite Hexit in Hx'. injection Hx' as <-. rewrite Hm in Hm'. injection Hm' as <-.
  rewrite Hpreds in Hp'. injection Hp' as <-. rewrite Hlats in Hl'. injection Hl' as <-.
  apply (known_latency_best m _ _ _ _ Hlats) in Hc. apply bind_Some in Hrest as (dag1 & Hf1 & (dag2 & Hf2 & (level & Hlevel & Hf3)%bind_Some)%bind_Some).
  destruct (level_before _ _ Hlevel) as (level0 & Hlevel0 & Hdims).
  apply (extends_fold (action_at (Repeat r)) (λ pred id f t b, id ∈ to ∧
    (f, t, b) = (pred, exit, fb_chain fast_bound_zero entry (fb_iterate cycle (rl_iterations r) (rl_level_id r))))) in Hf1.
  2: { intros s pred s' ([p first] & -> & Hpf%elem_of_map_to_list)%list_elem_of_fmap _. apply extends_add. intros id Hid. split; [done|].
       eapply (iterations_dep m r entry exit p first cycle); [done|done|by exists ed|done]. }
  apply (extends_fold (action_at (Repeat r)) (λ pred id f t b, id ∈ to ∧ ∃ init, best m pred exit init ∧
    (f, t, b) = (pred, entry, fb_chain init entry (fb_iterate cycle (rl_iterations r - 2) (rl_level_id r))))) in Hf2.
  2: { intros s pred s' Hpred _ (init & Hi & Ha)%bind_Some. apply (known_latency_best m _ _ _ _ Hlats) in Hi.
       eapply extends_weaken; [|eapply extends_add; [|exact Ha]].
       - intros id f t b (Hid & init' & Hi' & Hx). split; [done|]. assert (init' = init) as -> by (unfold best in *; congruence). done.
       - intros id Hid. split; [done|]. by eapply inner_dep. }
  apply (extends_fold (action_at (Repeat r)) (λ e id f t b, id ∈ to ∧ ∃ pred init, pred ∈ preds ∧ back_init m entry exit e.1 e.2 pred init ∧
    ((f, t, b) = (pred, e.1, fb_chain init e.1 (fb_iterate e.2 (rl_iterations r - 2) (rl_level_id r))) ∨
     (3 <= rl_iterations r)%Z ∧ ∃ exit_lat, best m e.1 exit exit_lat ∧
       (f, t, b) = (pred, entry, fb_chain (fb_chain init e.1 (fb_iterate e.2 (rl_iterations r - 3) (rl_level_id r))) e.1 exit_lat)))) in Hf3.
  2: { intros s [point lat] s' He Hs (m' & Hm' & (plats & Hp & Hf)%bind_Some)%bind_Some. cbn [fst snd] in *.
       apply (Hback _ _ _ Hlevel) in He. rewrite (action_reads (Repeat r)) in Hm'; [injection Hm' as <-|].
       2: { eapply adds_trans; [apply Hf1|]. eapply adds_trans; [apply Hf2|exact Hs]. }
       eapply extends_weaken; [|eapply extends_fold; [|exact Hf]; intros s1 pred s2 Hpred _ Hb;
         by eapply (repeat_back_edge_extends level level0 point lat plats pred)].
       intros id f t b (Hid & pred & init & Hpred & Hx). exists pred. split; [done|]. split; [done|]. by exists init. }
  eapply extends_weaken; [|eapply extends_compose; [exact Hf1|eapply extends_compose; [exact Hf2|exact Hf3]]].
  intros id f t b [Hid Hd]. inversion Hd; subst; simplify_eq.
  - left. exists f. split; [|split; [done|]].
    + match goal with He : dep_edge m f entry _ |- _ => destruct He as (d & Hd' & Hf) end. unfold deps in *. simplify_eq.
      apply list_elem_of_fmap. eexists (f, _). split; [done|]. by apply elem_of_map_to_list.
    + unfold best in *. simplify_eq. done.
  - right. left. exists f. split; [done|]. split; [done|]. eexists. split; [done|]. unfold best in *. simplify_eq. done.
  - right. right. match goal with Hr : reduction_edge _ _ _ _ _ _ _ |- _ => rewrite Hdims in Hr; apply (Hback _ _ (_, _) Hlevel) in Hr end.
    eexists (t, _). split; [done|]. split; [done|]. eexists f, _. split; [done|]. split; [done|]. by left.
  - right. right. match goal with Hr : reduction_edge _ _ _ _ _ _ _ |- _ => rewrite Hdims in Hr; apply (Hback _ _ (_, _) Hlevel) in Hr end.
    eexists (_, _). split; [done|]. split; [done|]. eexists f, _. split; [done|]. split; [done|]. right. split; [done|]. by eexists.
Qed.
End action.

Lemma apply_dim_map_extends from to m dag map dag' : from ∉ to → dependencies dag from = Some m →
  apply_dim_map space ctx local_info code_points levels map from to dag = Some dag' →
  extends (action_at to m (ApplyDimMap map)) (action_at to m (ApplyDimMap map)) dag dag'.
Proof.
  intros Hfrom Hm (ps & Hps & (src & Hsrc & (dst & Hdst & (m' & Hm' & Hrest)%bind_Some)%bind_Some)%bind_Some)%bind_Some.
  rewrite Hm in Hm'. injection Hm' as <-. apply bind_Some in Hrest as (lats & Hlats & (sl & Hsl%inst_latency_time & Hf)%bind_Some).
  assert (∀ pred, pred ∈ ps.*2 ↔ ∃ point, cp_ids code_points !! point = Some pred ∧ is_before_dims space levels0 point (ldm_src_dims map) = Some true) as Hin.
  { intros pred. assert (∀ p, p ∈ ps ↔ p ∈ map_to_list (cp_ids code_points) ∧ is_before_dims space levels p.1 (ldm_src_dims map) = Some true) as Hp.
    { clear Hf. revert ps Hps. induction (map_to_list (cp_ids code_points)) as [|q qs IH]; intros ps Hps p; cbn [filterM] in Hps.
      - injection Hps as <-. set_solver.
      - apply bind_Some in Hps as (b & Hb & (rest & Hrest & [= <-])%bind_Some). specialize (IH rest Hrest p).
        rewrite elem_of_cons. destruct b; [rewrite elem_of_cons|]; rewrite IH; naive_solver. }
    rewrite list_elem_of_fmap. split.
    - intros ([point i] & -> & [Hi%elem_of_map_to_list Hb]%Hp). exists point. split; [done|]. cbn [fst] in Hb. by rewrite is_before_dims_bare in Hb.
    - intros (point & Hi & Hb). exists (point, pred). split; [done|]. apply Hp. split; [by apply elem_of_map_to_list|]. by rewrite is_before_dims_bare. }
  apply (extends_fold (action_at to m (ApplyDimMap map)) (λ pred id f t b, id ∈ to ∧ ∃ lat, best m pred src lat ∧
    (f, t, b) = (pred, dst, fb_chain lat src sl))) in Hf.
  - eapply extends_weaken; [|exact Hf]. intros id f t b [Hid Hd]. inversion Hd; subst. exists f. split; [apply Hin; by eexists|]. split; [done|].
    simplify_eq. eexists. split; [done|]. match goal with Ht : inst_time _ _ _ _ |- _ => rewrite (inst_time_inj _ _ _ _ _ Ht Hsl) end. done.
  - intros s pred s' (point & Hi & Hb)%Hin _ (lat & Hlat & Ha)%bind_Some. apply (known_latency_best m _ _ _ _ Hlats) in Hlat.
    eapply extends_weaken; [|eapply extends_add; [|exact Ha]].
    + intros id f t b (Hid & lat' & Hlat' & Hx). split; [done|]. assert (lat' = lat) as -> by (unfold best in *; congruence). done.
    + intros id Hid. split; [done|]. by eapply mapped_dep.
Qed.

Lemma process_action_extends e dag dag' : e.1.1 ∉ e.2 →
  process_action space ctx local_info code_points levels dag e = Some dag' →
  ∃ m, dependencies dag e.1.1 = Some m ∧ extends (action_at e.2 m e.1.2) (action_at e.2 m e.1.2) dag dag'.
Proof.
  destruct e as [[from a] to]. cbn [fst snd]. intros Hfrom Hp. unfold process_action in Hp. cbn [fst snd] in Hp. destruct a as [r|map].
  - pose proof Hp as Hp'. unfold repeat_level in Hp'. apply bind_Some in Hp' as ([] & _ & (entry & He & (exit & Hx & (m & Hm & Hrest)%bind_Some)%bind_Some)%bind_Some).
    apply bind_Some in Hrest as (preds & Hpr & (ed & _ & (lats & Hl & _)%bind_Some)%bind_Some).
    exists m. split; [done|]. by eapply repeat_level_extends.
  - pose proof Hp as Hp'. unfold apply_dim_map in Hp'. apply bind_Some in Hp' as (? & _ & (? & _ & (? & _ & (m & Hm & _)%bind_Some)%bind_Some)%bind_Some).
    exists m. split; [done|]. by apply (apply_dim_map_extends from).
Qed.

(** The actions in an order: all that they add comes from the final dependencies of the
    nodes that they read. *)
Record ran (order : list (nat * DagAction * list nat)) (dag dag' : LevelDag) : Prop := {
  ran_adds : adds (λ id f t b, ∃ e m, e ∈ order ∧ id ∈ e.2 ∧ dependencies dag' e.1.1 = Some m ∧ action_dep m e.1.2 f t b) dag dag';
  ran_covers e m id f t b : e ∈ order → id ∈ e.2 → dependencies dag' e.1.1 = Some m → action_dep m e.1.2 f t b → covers dag' id f t b
}.

Lemma order_ran order dag dag' :
  (∀ p q a b, order !! p = Some a → order !! q = Some b → p ≤ q → a.1.1 ∉ b.2) →
  foldM (process_action space ctx local_info code_points levels) order dag = Some dag' → ran order dag dag'.
Proof.
  revert dag. induction order as [|e order IH]; intros dag Hord; cbn [foldM].
  - intros [= <-]. split; [apply star_refl|]. intros ?????? He. by apply elem_of_nil in He.
  - intros (dag1 & He & Hf)%bind_Some. apply process_action_extends in He as (m & Hm & Ha & Hc); [|by apply (Hord 0 0)].
    destruct (IH dag1) as [Hadds Hcov]; [|exact Hf|].
    { intros p q a b Hp Hq Hpq. apply (Hord (S p) (S q)); [done|done|lia]. }
    assert (dependencies dag' e.1.1 = Some m) as Hm'.
    { unfold dependencies. assert (level_nodes dag' !! e.1.1 = level_nodes dag1 !! e.1.1) as ->.
      - eapply adds_frame; [|exact Hadds]. intros f t b (e' & m' & He' & Hin & _).
        apply list_elem_of_lookup in He' as (q & Hq). destruct (Hord 0 (S q) e e'); [done|done|lia|done].
      - erewrite adds_frame; [exact Hm| |exact Ha]. intros f t b [Hin _]. by destruct (Hord 0 0 e e). }
    split.
    + eapply adds_trans; [eapply adds_mono; [|exact Ha]|eapply adds_mono; [|exact Hadds]].
      * intros id f t b [Hid Hd]. exists e, m. split; [left|done].
      * intros id f t b (e' & m' & He' & Hx). exists e', m'. split; [by right|done].
    + intros e' m' id f t b He' Hid Hm2 Hd. apply elem_of_cons in He' as [->|He'].
      * rewrite Hm' in Hm2. injection Hm2 as <-. eapply adds_covers; [exact Hadds|]. by apply Hc.
      * by eapply Hcov.
Qed.
End repeat.

(** ** The nodes and their actions *)
Section nodes.
Context `{Profile, KeyRemoval, NumInteger} {D Ctx : Type} `{ChoiceDomains D, SizeContext Ctx, ModelContext D Ctx}.
Context (space : SearchSpace D) (ctx : Ctx) (local_info : LocalInfo).

(** The dimensions that come before all those of a set: the node where it is handled. *)
Definition node_of (dims k : list DimId) : Prop :=
  ∃ before, mapM (λ d, n ← nesting_of local_info (SDim d); Some (before_self n)) dims = Some before ∧ intersect_sets before = Some k.

(** The actions of the node [k], and the dimensions each of them processes: the sequential
    dimensions of a level are iterated, for the least value of the product of their sizes,
    and dimensions are mapped to others. *)
Inductive level_action (levels : list Level) (maps : list LevelDimMap) (k : list DimId) : list DimId → DagAction → Prop :=
| action_repeat i level ds s r :
    levels !! i = Some level → level_dims level ≠ [] → node_of (level_dims level) k →
    filterM (is_sequential space) (level_dims level) = Some ds → dims_product space ds = Some s →
    bounds space ctx s = Some r → (1 < sr_min r)%Z →
    level_action levels maps k (level_dims level) (Repeat (mkRepeatLevel i (sr_min r)))
| action_map m :
    m ∈ maps → node_of (ldm_src_dims m) k → level_action levels maps k (ldm_src_dims m) (ApplyDimMap m).

(** The dimensions that are not mapped to blocks: the root node. *)
Definition root_key (k : list DimId) : Prop :=
  ∃ dims, filterM (λ d, kind ← get_dim_kind (domain space) d; Some (negb (kind =? DimKind.BLOCK)%Z)) (all_dims space) = Some dims ∧ k = vs_new dims.

(** A graph with the actions [S], and no dependency yet. *)
Record built (size : nat) (S : list DimId → DagAction → Prop) (dag : LevelDag) : Prop := {
  built_ids k i : node_ids dag !! k = Some i → i < length (level_nodes dag);
  built_inj k k' i : node_ids dag !! k = Some i → node_ids dag !! k' = Some i → k = k';
  built_acts k a : (∃ i n, node_ids dag !! k = Some i ∧ level_nodes dag !! i = Some n ∧ a ∈ node_acts n) ↔ S k a;
  built_empty i n : level_nodes dag !! i = Some n → n.2 = dependency_map_new size;
  built_root k : root_key k → node_ids dag !! k = Some 0
}.

Lemma level_dag_new_built size dag : level_dag_new space size = Some dag → built size (λ _ _, False) dag.
Proof.
  intros (ds & Hds & [= <-])%bind_Some. split; cbn [node_ids level_nodes].
  - intros k i [_ <-]%lookup_singleton_Some. cbn. lia.
  - intros k k' i [<- _]%lookup_singleton_Some [<- _]%lookup_singleton_Some. done.
  - intros k a. split; [|done]. intros (i & n & [_ <-]%lookup_singleton_Some & [= <-] & Ha). by apply elem_of_nil in Ha.
  - intros i n Hn. apply list_lookup_singleton_Some in Hn as [_ <-]. done.
  - intros k (ds' & Hds' & ->). rewrite Hds in Hds'. injection Hds' as <-. by rewrite lookup_singleton_eq.
Qed.

Lemma gen_node_id_built size S dims dag id dag' : built size S dag → gen_node_id local_info dims size dag = Some (id, dag') →
  built size S dag' ∧ ∃ k, node_of dims k ∧ node_ids dag' !! k = Some id.
Proof.
  intros Hb (before & Hbef & (k & Hk & [= Hid])%bind_Some)%bind_Some.
  assert (node_of dims k) as Hnode by (by exists before). destruct (node_ids dag !! k) as [i|] eqn:Ek; injection Hid as <- <-; [split; [done|by exists k]|].
  split; [|exists k; split; [done|apply lookup_insert_eq]]. destruct Hb as [Hids Hinj Hacts Hempty Hroot].
  assert (∀ k', node_ids dag !! k' ≠ Some (length (level_nodes dag))) as Hfresh by (intros k' Hk'; apply Hids in Hk'; lia).
  split; cbn [node_ids level_nodes].
  - intros k' i Hk'. rewrite length_app. cbn. apply lookup_insert_Some in Hk' as [[_ <-]|[_ Hk']]; [lia|]. apply Hids in Hk'. lia.
  - intros k1 k2 i Hk1 Hk2. apply lookup_insert_Some in Hk1, Hk2. destruct Hk1 as [[E1 Hi1]|[_ Hk1]], Hk2 as [[E2 Hi2]|[_ Hk2]].
    + congruence.
    + destruct (Hfresh k2). congruence.
    + destruct (Hfresh k1). congruence.
    + by eapply Hinj.
  - intros k' a. rewrite <-Hacts. split.
    + intros (i & n & Hi & Hn & Ha). apply lookup_insert_Some in Hi as [[<- <-]|[_ Hi]].
      * rewrite lookup_app_r, Nat.sub_diag in Hn by done. injection Hn as <-. by apply elem_of_nil in Ha.
      * rewrite lookup_app_l in Hn by (by eapply Hids). by exists i, n.
    + intros (i & n & Hi & Hn & Ha). exists i, n. split; [|split; [by apply lookup_app_l_Some|done]].
      apply lookup_insert_Some. right. split; [congruence|done].
  - intros i n [Hn|[_ Hn]]%lookup_app_Some; [by eapply Hempty|]. by apply list_lookup_singleton_Some in Hn as [_ <-].
  - intros k' Hk'. apply lookup_insert_Some. right. specialize (Hroot k' Hk'). split; [congruence|done].
Qed.

Lemma write_node_built size S T dag k id n n' : built size S dag → node_ids dag !! k = Some id → level_nodes dag !! id = Some n →
  n'.2 = n.2 → (∀ a, a ∈ node_acts n' ↔ a ∈ node_acts n ∨ T a) →
  built size (λ k' a, S k' a ∨ k' = k ∧ T a) (mkLevelDag (node_ids dag) (<[id := n']> (level_nodes dag))).
Proof.
  intros [Hids Hinj Hacts Hempty Hroot] Hk Hn Hdeps Ha. pose proof (Hids k id Hk) as Hlt. split; cbn [node_ids level_nodes]; [|done| | |done].
  - intros k' i Hk'. rewrite length_insert. by eapply Hids.
  - intros k' a. rewrite <-Hacts. split.
    + intros (i & nd & Hi & Hnd & Hin). destruct (decide (i = id)) as [->|Hne].
      * rewrite list_lookup_insert_eq in Hnd by done. injection Hnd as <-. rewrite (Hinj k' k id) by done. apply Ha in Hin as [Hin|Hin]; [left; by exists id, n|by right].
      * rewrite list_lookup_insert_ne in Hnd by done. left. by exists i, nd.
    + intros [(i & nd & Hi & Hnd & Hin)|[-> HT]].
      * destruct (decide (i = id)) as [->|Hne].
        -- exists id, n'. rewrite list_lookup_insert_eq by done. split; [done|]. split; [done|]. apply Ha. left. congruence.
        -- exists i, nd. by rewrite list_lookup_insert_ne.
      * exists id, n'. rewrite list_lookup_insert_eq by done. split; [done|]. split; [done|]. apply Ha. by right.
  - intros i nd Hi. destruct (decide (i = id)) as [->|Hne].
    + rewrite list_lookup_insert_eq in Hi by done. injection Hi as <-. rewrite Hdeps. by eapply Hempty.
    + rewrite list_lookup_insert_ne in Hi by done. by eapply Hempty.
Qed.

Lemma built_iff size S S' dag : (∀ k a, S k a ↔ S' k a) → built size S dag → built size S' dag.
Proof. intros HS [Hids Hinj Hacts Hempty Hroot]. split; [done|done| |done|done]. intros k a. by rewrite Hacts. Qed.

Lemma built_fold {A : Type} size (T : A → list DimId → DagAction → Prop) (f : LevelDag → A → option LevelDag) l S dag dag' :
  (∀ S s x s', x ∈ l → built size S s → f s x = Some s' → built size (λ k a, S k a ∨ T x k a) s') →
  built size S dag → foldM f l dag = Some dag' → built size (λ k a, S k a ∨ ∃ x, x ∈ l ∧ T x k a) dag'.
Proof.
  revert S dag. induction l as [|x l IH]; intros S dag Hf Hdag; cbn [foldM].
  - intros [= <-]. eapply built_iff; [|exact Hdag]. intros k a. split; [by left|]. intros [HS|(x & Hx & _)]; [done|]. by apply elem_of_nil in Hx.
  - intros (dag1 & Hx & Hl)%bind_Some. apply (Hf S) in Hx; [|left|done]. eapply IH in Hl; [|intros S' s y s' Hy; apply Hf; by right|exact Hx].
    eapply built_iff; [|exact Hl]. intros k a. split.
    + intros [[HS|HT]|(y & Hy & HT)]; [by left|right; exists x|right; exists y]; (split; [by constructor|done]).
    + intros [HS|(y & [->|Hy]%elem_of_cons & HT)]; [by left; left|by left; right|right; by exists y].
Qed.

Lemma add_level_built size S dag e dag' : built size S dag → add_level space ctx local_info size dag e = Some dag' →
  built size (λ k a, S k a ∨ level_dims e.2 ≠ [] ∧ node_of (level_dims e.2) k ∧
    ∃ r, repeat_level_new space ctx e.1 e.2 = Some (Some r) ∧ a = Repeat r) dag'.
Proof.
  intros Hb Ha. unfold add_level in Ha. destruct (level_dims e.2) as [|d ds] eqn:Ed; cbn [vs_is_empty] in Ha.
  - injection Ha as <-. eapply built_iff; [|exact Hb]. intros k a. split; [by left|]. by intros [?|[? _]].
  - apply bind_Some in Ha as ([id dag1] & Hg & (r & Hr & ([[rs ms] deps] & Hn & [= <-])%bind_Some)%bind_Some).
    destruct (gen_node_id_built _ _ _ _ _ _ Hb Hg) as (Hb1 & k & Hk & Hid).
    eapply built_iff; [|eapply (write_node_built size S (λ a, a ∈ Repeat <$> option_list r) dag1 k id (rs, ms, deps)); [exact Hb1|done|done|done|]].
    + intros k' a. apply or_iff_compat_l. split.
      * intros [-> Hin]. split; [done|]. split; [done|]. apply list_elem_of_fmap in Hin as (r' & -> & Hr'). destruct r as [r|]; [|by apply elem_of_nil in Hr'].
        apply list_elem_of_singleton in Hr' as ->. by exists r.
      * intros (_ & (bef & Hbef & Hk') & r' & Hr' & ->). destruct Hk as (bef' & Hbef' & Hk). split; [congruence|].
        rewrite Hr in Hr'. injection Hr' as ->. by left.
    + intros a. unfold node_acts. cbn [fst snd]. rewrite fmap_app, !elem_of_app. tauto.
Qed.

Lemma add_dim_map_built size S dag m dag' : built size S dag → add_dim_map local_info size dag m = Some dag' →
  built size (λ k a, S k a ∨ node_of (ldm_src_dims m) k ∧ a = ApplyDimMap m) dag'.
Proof.
  intros Hb ([id dag1] & Hg & ([[rs ms] deps] & Hn & [= <-])%bind_Some)%bind_Some.
  destruct (gen_node_id_built _ _ _ _ _ _ Hb Hg) as (Hb1 & k & Hk & Hid).
  eapply built_iff; [|eapply (write_node_built size S (λ a, a = ApplyDimMap m) dag1 k id (rs, ms, deps)); [exact Hb1|done|done|done|]].
  - intros k' a. apply or_iff_compat_l. split; [by intros [-> ->]|]. intros ((bef & Hbef & Hk') & ->). destruct Hk as (bef' & Hbef' & Hk).
    split; [congruence|done].
  - intros a. unfold node_acts. cbn [fst snd]. rewrite fmap_app, !elem_of_app. cbn. rewrite list_elem_of_singleton. tauto.
Qed.

Lemma repeat_level_new_spec i l r : repeat_level_new space ctx i l = Some (Some r) ↔
  ∃ ds s b, filterM (is_sequential space) (level_dims l) = Some ds ∧ dims_product space ds = Some s ∧ bounds space ctx s = Some b ∧
    (1 < sr_min b)%Z ∧ r = mkRepeatLevel i (sr_min b).
Proof.
  unfold repeat_level_new. split.
  - intros (ds & Hds & (s & Hs & (n & Hn & Hr)%bind_Some)%bind_Some)%bind_Some. apply fmap_Some in Hn as (b & Hb & ->).
    destruct (sr_min b <=? 1)%Z eqn:E; [done|]. injection Hr as <-. apply Z.leb_gt in E. by exists ds, s, b.
  - intros (ds & s & b & -> & Hs & Hb & Hlt & ->). cbn [mbind option_bind]. rewrite Hs. cbn [mbind option_bind]. rewrite Hb. cbn.
    by rewrite (proj2 (Z.leb_gt _ _)).
Qed.

(** Each node has its actions. *)
Lemma level_dag_build_built levels maps size dag : level_dag_build space ctx local_info levels maps size = Some dag →
  built size (λ k a, ∃ waits, level_action levels maps k waits a) dag.
Proof.
  intros (dag0 & Hnew%level_dag_new_built & (dag1 & Hl & Hm)%bind_Some)%bind_Some.
  eapply built_fold in Hl; [|intros S s x s' _; apply add_level_built|exact Hnew].
  eapply built_fold in Hm; [|intros S s x s' _; apply add_dim_map_built|exact Hl].
  eapply built_iff; [|exact Hm]. intros k a. split.
  - intros [[[]|([i l] & Hi%elem_of_enumerate & Hne & Hk & r & Hr & ->)]|(m & Hm' & Hk & ->)].
    + apply repeat_level_new_spec in Hr as (ds & s & b & Hds & Hs & Hb & Hlt & ->). exists (level_dims l). by eapply action_repeat.
    + exists (ldm_src_dims m). by apply action_map.
  - intros (waits & [i l ds s b Hi Hne Hk Hds Hs Hb Hlt|m Hm' Hk]).
    + left. right. exists (i, l). split; [by apply elem_of_enumerate|]. split; [done|]. split; [done|].
      exists (mkRepeatLevel i (sr_min b)). split; [|done]. apply repeat_level_new_spec. by exists ds, s, b.
    + right. by exists m.
Qed.
End nodes.

(** * The graph and the bound *)

(** ** The graph *)
Section graph.
Context `{Profile, KeyRemoval, NumInteger} {D Ctx : Type} `{ChoiceDomains D, SizeContext Ctx, ModelContext D Ctx}.
Context (space : SearchSpace D) (ctx : Ctx) (li : LocalInfo) (code_points : CodePointDag) (levels : list Level) (maps : list LevelDimMap).

(** The dependencies of the node [k]: those of the program, once the dimensions they need
    are processed, and those that an action makes from the dependencies of a node with
    less dimensions, for a node that also has those that the action processes. *)
Inductive node_dep (dag : LevelDag) (k : list DimId) (from to : nat) (b : FastBound) : Prop :=
| node_program needed :
    program_dep space ctx li code_points levels needed from to b → vs_leb needed k = true → node_dep dag k from to b
| node_action k0 waits a id m :
    level_action space ctx li levels maps k0 waits a → vs_geb k k0 = true → vs_geb k waits = true →
    node_ids dag !! k0 = Some id → dependencies dag id = Some m →
    action_dep space ctx li code_points levels m a from to b → node_dep dag k from to b.

(** The nodes hold these dependencies, or better ones, and no other. *)
Record latency_graph (dag : LevelDag) : Prop := {
  graph_root k : root_key space k → node_ids dag !! k = Some 0;
  graph_nodes k waits a : level_action space ctx li levels maps k waits a → is_Some (node_ids dag !! k);
  graph_forward id m : dependencies dag id = Some m → dep_wf m;
  graph_sound k id from to b : node_ids dag !! k = Some id → node_edge dag id from to b → node_dep dag k from to b;
  graph_complete k id from to b : node_ids dag !! k = Some id → node_dep dag k from to b → covers dag id from to b
}.
End graph.

Lemma action_dims_bare levels levels' a : bare <$> levels = bare <$> levels' → action_dims levels a = action_dims levels' a.
Proof.
  intros Hl. destruct a as [r|m]; [|done]. cbn [action_dims].
  assert ((bare <$> levels) !! rl_level_id r = (bare <$> levels') !! rl_level_id r) as Hi by (by rewrite Hl). rewrite !list_lookup_fmap in Hi.
  destruct (levels !! _), (levels' !! _); try done. injection Hi as Hi _ _ _. cbn. by rewrite Hi.
Qed.

(** Additions, and other back-edges, do not change what the order depends on. *)
Lemma adds_level_dag_ok E levels levels' dag dag' : bare <$> levels = bare <$> levels' → adds E dag dag' →
  level_dag_ok levels dag → level_dag_ok levels' dag'.
Proof.
  intros Hl Ha [Hs Hinj Hacts]. destruct (adds_ids _ _ _ Ha) as [Hids Hlen]. split.
  - intros k i. rewrite Hids, Hlen. apply Hs.
  - intros k k' i. rewrite Hids. apply Hinj.
  - intros k i n a Hk Hn Hin. rewrite Hids in Hk. pose proof (adds_acts _ _ _ i Ha) as Hf. rewrite Hn in Hf.
    destruct (level_nodes dag !! i) as [n0|] eqn:Hn0; [|done]. injection Hf as Hf.
    destruct (Hacts k i n0 a Hk Hn0) as (dims & Hd & Hw); [unfold node_acts in *; by rewrite <-Hf|].
    exists dims. split; [|done]. by rewrite <-(action_dims_bare levels).
Qed.

(** The order is drawn without any change to the dependencies. *)
Lemma processing_order_dependencies levels dag order dag' : processing_order levels dag = Some (order, dag') →
  node_ids dag' = node_ids dag ∧ ∀ i, dependencies dag' i = dependencies dag i.
Proof.
  intros ([actions dag1] & E & [= <- <-])%bind_Some.
  change (node_ids (actions, dag1).2 = node_ids dag ∧ ∀ i, dependencies (actions, dag1).2 i = dependencies dag i). revert E.
  apply (foldM_inv (λ st : list (nat * DagAction * list nat) * LevelDag, node_ids st.2 = node_ids dag ∧ ∀ i, dependencies st.2 i = dependencies dag i)); [|done].
  intros [acts s] [k j] s' _ [Hs1 Hs2] ([[r m] d] & Hn & (new & _ & [= <-])%bind_Some)%bind_Some. split; [done|]. intros i.
  rewrite <-Hs2. unfold dependencies. cbn [snd level_nodes]. destruct (decide (i = j)) as [->|Hne]; [|by rewrite list_lookup_insert_ne].
  rewrite Hn, list_lookup_insert_eq by (by eapply lookup_lt_Some). done.
Qed.

Lemma level_action_dims `{Profile, KeyRemoval, NumInteger} {D Ctx : Type} `{ChoiceDomains D, SizeContext Ctx, ModelContext D Ctx}
    (space : SearchSpace D) (ctx : Ctx) (li : LocalInfo) levels maps k waits a :
  level_action space ctx li levels maps k waits a → action_dims levels a = Some waits.
Proof. destruct 1 as [i l ds s r Hi|m]; [|done]. cbn. by rewrite Hi. Qed.

Lemma level_action_node `{Profile, KeyRemoval, NumInteger} {D Ctx : Type} `{ChoiceDomains D, SizeContext Ctx, ModelContext D Ctx}
    (space : SearchSpace D) (ctx : Ctx) (li : LocalInfo) levels maps k k' waits waits' a :
  level_action space ctx li levels maps k waits a → level_action space ctx li levels maps k' waits' a → k = k'.
Proof.
  assert (∀ dims, node_of li dims k → node_of li dims k' → k = k') as Hn by (intros dims (b & Hb & Hk) (b' & Hb' & Hk'); congruence).
  destruct 1; inversion 1; subst; simplify_eq; by eapply Hn.
Qed.

(** The levels start without back-edges. *)
Lemma levels_generate_edges `{Profile, KeyRemoval, NumInteger} {D Ctx : Type} `{ChoiceDomains D, SizeContext Ctx, ModelContext D Ctx}
    (space : SearchSpace D) (ctx : Ctx) (li : LocalInfo) levels maps :
  levels_generate space ctx li = Some (levels, maps) → ∀ i l, levels !! i = Some l → back_edges l = [].
Proof.
  intros (? & _ & (? & _ & (? & _ & (? & _ & Hrest)%bind_Some)%bind_Some)%bind_Some)%bind_Some i l Hi.
  apply bind_Some in Hrest as (? & _ & (? & _ & (ls & Hls & [= <- <-])%bind_Some)%bind_Some).
  apply mapM_Some in Hls. destruct (Forall2_lookup_r _ _ _ _ _ Hls Hi) as (ds & _ & Hl). unfold level_new in Hl.
  repeat match goal with Hx : _ ≫= _ = Some _ |- _ => apply bind_Some in Hx as (? & _ & Hx) end. by injection Hl as <-.
Qed.

Section order.
Context `{Profile, KeyRemoval, NumInteger} {D Ctx : Type} `{ChoiceDomains D, SizeContext Ctx, ModelContext D Ctx}.
Context (space : SearchSpace D) (ctx : Ctx) (li : LocalInfo) (levels0 levels : list Level) (maps : list LevelDimMap).
Context (E : nat → nat → nat → FastBound → Prop) (size : nat) (dag0 dag : LevelDag) (order : list (nat * DagAction * list nat)).
Context (Hbuilt : built space size (λ k a, ∃ waits, level_action space ctx li levels0 maps k waits a) dag0).
Context (Hadds : adds E dag0 dag) (Hok : level_dag_ok levels dag) (Hbare : bare <$> levels = bare <$> levels0).
Context (Hperm : ((λ e : nat * DagAction * list nat, e.1) <$> order) ≡ₚ
  (map_to_list (node_ids dag) ≫= λ p, (λ a, (p.2, a)) <$> default [] (node_acts <$> level_nodes dag !! p.2))).
Context (Hentries : Forall (entry_ok levels dag) order).

Lemma node_has_action i a k : node_ids dag !! k = Some i →
  a ∈ default [] (node_acts <$> level_nodes dag !! i) ↔ ∃ waits, level_action space ctx li levels0 maps k waits a.
Proof.
  intros Hk. pose proof (adds_acts _ _ _ i Hadds) as Hf. destruct (adds_ids _ _ _ Hadds) as [Hids Hlen]. rewrite Hids in Hk.
  rewrite <-(built_acts _ _ _ _ Hbuilt). destruct (level_nodes dag !! i) as [n|] eqn:Hn, (level_nodes dag0 !! i) as [n0|] eqn:Hn0; try done; cbn.
  - injection Hf as Hf. split.
    + intros Ha. exists i, n0. split; [done|]. split; [done|]. unfold node_acts in *. by rewrite <-Hf.
    + intros (j & n1 & Hj & Hn1 & Ha). simplify_eq. unfold node_acts in *. by rewrite Hf.
  - split; [by intros ?%elem_of_nil|]. intros (j & n1 & Hj & Hn1 & Ha). congruence.
Qed.

Lemma order_entry e : e ∈ order → ∃ k waits, level_action space ctx li levels0 maps k waits e.1.2 ∧ node_ids dag !! k = Some e.1.1 ∧
  ∀ k' id, node_ids dag !! k' = Some id → id ∈ e.2 ↔ vs_geb k' k = true ∧ vs_geb k' waits = true.
Proof.
  intros He. rewrite Forall_forall in Hentries. destruct (Hentries e He) as [k dims Hk Hdims _ _ Hto].
  assert (e.1 ∈ (λ e : nat * DagAction * list nat, e.1) <$> order) as Hin by (apply list_elem_of_fmap; by exists e).
  rewrite Hperm in Hin. apply list_elem_of_bind in Hin as ([k1 i] & Hin & Hi%elem_of_map_to_list). cbn [snd] in Hin.
  apply list_elem_of_fmap in Hin as (a & Ha & Hin). rewrite Ha in Hk, Hdims |- *. cbn [fst snd] in *.
  assert (k1 = k) as -> by (by eapply (ids_inj levels dag Hok)). apply (node_has_action i a k Hi) in Hin as (waits & Hw).
  exists k, waits. split; [done|]. split; [done|]. rewrite (action_dims_bare _ levels0), (level_action_dims _ _ _ _ _ _ _ _ Hw) in Hdims by done.
  injection Hdims as <-. intros k' id Hk'. rewrite Hto, list_elem_of_fmap. split.
  - intros ([k2 j] & -> & [Hg2 [Hg1 Hj%elem_of_map_to_list]%list_elem_of_filter]%list_elem_of_filter). cbn [fst snd] in *.
    assert (k' = k2) as -> by (by eapply (ids_inj levels dag Hok)). done.
  - intros [Hg1 Hg2]. exists (k', id). split; [done|]. apply list_elem_of_filter. split; [done|]. apply list_elem_of_filter. split; [done|].
    by apply elem_of_map_to_list.
Qed.

Lemma action_in_order k waits a i : level_action space ctx li levels0 maps k waits a → node_ids dag !! k = Some i → ∃ e, e ∈ order ∧ e.1 = (i, a).
Proof.
  intros Ha Hk. assert ((i, a) ∈ (λ e : nat * DagAction * list nat, e.1) <$> order) as Hin.
  { rewrite Hperm. apply list_elem_of_bind. exists (k, i). split; [|by apply elem_of_map_to_list]. apply list_elem_of_fmap. exists a.
    split; [done|]. apply (node_has_action i a k Hk). by exists waits. }
  apply list_elem_of_fmap in Hin as (e & -> & He). by exists e.
Qed.
End order.

(** ** The graph that is built *)
Section model.
Context `{Profile, KeyRemoval, NumInteger} {D Ctx : Type} `{ChoiceDomains D, SizeContext Ctx, ModelContext D Ctx}.
Context (space : SearchSpace D) (ctx : Ctx).

(** The back-edges are the reductions. *)
Lemma populated_edges li code_points levels0 levels maps :
  levels_generate space ctx li = Some (levels0, maps) →
  pushes (λ d e, reduction_edge space ctx li code_points d e.1 e.2) levels0 levels →
  ∀ id level e, levels !! id = Some level → e ∈ back_edges level ↔ reduction_edge space ctx li code_points (level_dims level) e.1 e.2.
Proof.
  intros Hg Hp id level e Hl. destruct (Forall2_lookup_r _ _ _ _ _ Hp Hl) as (l0 & Hl0 & Hb & He).
  rewrite He, (levels_generate_edges _ _ _ _ _ Hg _ _ Hl0). assert (level_dims level = level_dims l0) as -> by (by injection Hb).
  split; [intros [Hin|Hr]; [by apply elem_of_nil in Hin|done]|by right].
Qed.

Lemma same_dependencies dag dag' id from to b : (∀ i, dependencies dag' i = dependencies dag i) →
  (node_edge dag' id from to b ↔ node_edge dag id from to b) ∧ (covers dag id from to b → covers dag' id from to b).
Proof.
  intros Hd. assert (∀ e, node_edge dag' id from to e ↔ node_edge dag id from to e) as He by (intros e; unfold node_edge; by rewrite Hd).
  split; [done|]. intros (e & Hn & Hb). exists e. by rewrite He.
Qed.

(** The graph once it is populated, and the order of its actions. *)
Lemma built_no_edge size S dag id from to b : built space size S dag → ¬ node_edge dag id from to b.
Proof.
  intros Hb (m & Hm & d & Hd & Hf). unfold dependencies in Hm. apply fmap_Some in Hm as (n & Hn & ->).
  rewrite (built_empty _ _ _ _ Hb _ _ Hn) in Hd. apply lookup_replicate in Hd as [-> _]. by rewrite lookup_empty in Hf.
Qed.

Lemma built_nodes_ok size S dag : built space size S dag → nodes_ok size dag.
Proof.
  intros Hb. apply Forall_lookup. intros i n Hn. rewrite (built_empty _ _ _ _ Hb _ _ Hn). split; [apply dependency_map_new_wf|].
  cbn. apply length_replicate.
Qed.

Lemma nodes_ok_dependencies size dag : nodes_ok size dag ↔ ∀ i m, dependencies dag i = Some m → dep_wf m ∧ length (dep_maps m) = size.
Proof.
  unfold nodes_ok. rewrite Forall_lookup. split.
  - intros Hf i m Hm. unfold dependencies in Hm. apply fmap_Some in Hm as (n & Hn & ->). by eapply Hf.
  - intros Hd i n Hn. apply (Hd i). unfold dependencies. by rewrite Hn.
Qed.

(** *** From the nodes that are built to the final graph *)
Section run.
Context (li : LocalInfo) (code_points : CodePointDag) (levels0 levels : list Level) (maps : list LevelDimMap).
Context (dag0 dag1 dag2 dag : LevelDag) (order : list (nat * DagAction * list nat)).
Context (Hbuilt : built space (code_points_len code_points) (λ k a, ∃ waits, level_action space ctx li levels0 maps k waits a) dag0).
Context (Hadds : adds (base_at space ctx li code_points levels0 (node_ids dag0)) dag0 dag1).
Context (Hcov : ∀ needed from to b k id, program_dep space ctx li code_points levels0 needed from to b →
  node_ids dag0 !! k = Some id → vs_leb needed k = true → covers dag1 id from to b).
Context (Hok : level_dag_ok levels dag1) (Hbare : bare <$> levels = bare <$> levels0).
Context (Hperm : ((λ e : nat * DagAction * list nat, e.1) <$> order) ≡ₚ
  (map_to_list (node_ids dag1) ≫= λ p, (λ a, (p.2, a)) <$> default [] (node_acts <$> level_nodes dag1 !! p.2))).
Context (Hentries : Forall (entry_ok levels dag1) order).
Context (Hids2 : node_ids dag2 = node_ids dag1) (Hdeps2 : ∀ i, dependencies dag2 i = dependencies dag1 i).
Context (Hran : ran space ctx li code_points levels0 order dag2 dag).

Lemma run_ids : node_ids dag = node_ids dag1 ∧ node_ids dag1 = node_ids dag0.
Proof.
  destruct (adds_ids _ _ _ Hadds) as [Hi1 _]. destruct (adds_ids _ _ _ (ran_adds _ _ _ _ _ _ _ _ Hran)) as [Hi3 _].
  split; [by rewrite Hi3|done].
Qed.

Lemma run_nodes_ok : nodes_ok (code_points_len code_points) dag.
Proof.
  eapply adds_nodes_ok; [apply (ran_adds _ _ _ _ _ _ _ _ Hran)|]. apply nodes_ok_dependencies. intros i m. rewrite Hdeps2.
  apply nodes_ok_dependencies. eapply adds_nodes_ok; [exact Hadds|]. by eapply built_nodes_ok.
Qed.

Lemma run_sound k id from to b : node_ids dag !! k = Some id → node_edge dag id from to b →
  node_dep space ctx li code_points levels0 maps dag k from to b.
Proof.
  destruct run_ids as [Hi3 Hi1]. intros Hk He.
  destruct (adds_sound _ _ _ _ _ _ _ (ran_adds _ _ _ _ _ _ _ _ Hran) He) as [He2|(e & m & Hin & Hto & Hm & Hd)].
  - apply (same_dependencies dag1 dag2) in He2; [|done]. destruct (adds_sound _ _ _ _ _ _ _ Hadds He2) as [He0|(needed & Hp & Hle)].
    + by destruct (built_no_edge _ _ _ _ _ _ _ Hbuilt He0).
    + apply (node_program _ _ _ _ _ _ _ _ _ _ _ needed); [done|]. apply Hle. by rewrite <-Hi1, <-Hi3.
  - destruct (order_entry space ctx li levels0 levels maps _ _ dag0 dag1 order Hbuilt Hadds Hok Hbare Hperm Hentries e Hin)
      as (k0 & waits & Ha & Hk0 & Hiff). apply (Hiff k) in Hto as [Hg0 Hgw]; [|by rewrite <-Hi3].
    eapply node_action; [exact Ha|done|done|by rewrite Hi3|exact Hm|exact Hd].
Qed.

Lemma run_complete k id from to b : node_ids dag !! k = Some id → node_dep space ctx li code_points levels0 maps dag k from to b →
  covers dag id from to b.
Proof.
  destruct run_ids as [Hi3 Hi1]. intros Hk [needed Hp Hle|k0 waits a id0 m Ha Hg0 Hgw Hk0 Hm Hd].
  - eapply adds_covers; [apply (ran_adds _ _ _ _ _ _ _ _ Hran)|]. apply (same_dependencies dag1 dag2 id from to b Hdeps2).
    eapply Hcov; [exact Hp| |exact Hle]. by rewrite <-Hi1, <-Hi3.
  - rewrite Hi3 in Hk0, Hk. destruct (action_in_order space ctx li levels0 maps _ _ dag0 dag1 order Hbuilt Hadds Hperm k0 waits a id0 Ha Hk0) as (e & He & He1).
    destruct (order_entry space ctx li levels0 levels maps _ _ dag0 dag1 order Hbuilt Hadds Hok Hbare Hperm Hentries e He)
      as (k1 & waits1 & Ha1 & Hk1 & Hiff). rewrite He1 in Ha1, Hk1. cbn [fst snd] in *.
    assert (k1 = k0) as -> by (by eapply level_action_node).
    assert (waits1 = waits) as -> by (apply level_action_dims in Ha, Ha1; congruence).
    apply (ran_covers _ _ _ _ _ _ _ _ Hran e m); [done|by apply (Hiff k)|by rewrite He1|by rewrite He1].
Qed.

Lemma run_graph : latency_graph space ctx li code_points levels0 maps dag.
Proof.
  destruct run_ids as [Hi3 Hi1]. split.
  - intros k Hk. rewrite Hi3, Hi1. by apply (built_root _ _ _ _ Hbuilt).
  - intros k waits a Ha. rewrite Hi3, Hi1. assert (∃ i n, node_ids dag0 !! k = Some i ∧ level_nodes dag0 !! i = Some n ∧ a ∈ node_acts n)
      as (i & n & Hi & _) by (apply (built_acts _ _ _ _ Hbuilt); by exists waits). by exists i.
  - intros id m Hm. by apply (proj1 (nodes_ok_dependencies _ _) run_nodes_ok id).
  - apply run_sound.
  - apply run_complete.
Qed.
End run.

Lemma model_dag_graph li levels code_points dag : model_dag space ctx = Some (li, levels, code_points, dag) →
  ∃ levels0 maps, local_info_compute space ctx = Some li ∧ levels_generate space ctx li = Some (levels0, maps) ∧
    code_points_build space levels0 = Some code_points ∧ nodes_ok (code_points_len code_points) dag ∧
    latency_graph space ctx li code_points levels0 maps dag.
Proof.
  intros (li' & Hli & ([levels0 maps] & Hgen & (cps & Hcps & (dag0 & Hbuild & Hrest)%bind_Some)%bind_Some)%bind_Some)%bind_Some.
  apply bind_Some in Hrest as ([levels1 dag1] & Hpop & ([order dag2] & Hord & (dag3 & Hact & [= -> -> -> ->])%bind_Some)%bind_Some).
  exists levels0, maps. do 3 (split; [done|]). set (size := code_points_len code_points) in *.
  pose proof (level_dag_build_built _ _ _ _ _ _ _ Hbuild) as Hbuilt.
  destruct (populate_steps space ctx li code_points levels0 (node_ids dag0) (length (level_nodes dag0))
    (built_ids _ _ _ _ Hbuilt) (built_inj _ _ _ _ Hbuilt) dag0 (levels, dag1) Hpop) as [Hpush Hfill]. cbn [fst snd] in Hpush, Hfill.
  destruct Hfill as [Hadds Hcov]; [done|]. pose proof (pushes_bare _ _ _ Hpush) as Hbare. symmetry in Hbare.
  destruct (levels_generate_ok _ _ _ _ _ Hgen) as [Hsets Hmaps].
  assert (level_dag_ok levels dag1) as Hok1.
  { eapply (adds_level_dag_ok _ levels0); [done|exact Hadds|]. eapply level_dag_build_ok; [by eapply local_info_nestings|done|done|exact Hbuild]. }
  destruct (processing_order_exact levels dag1 Hok1) as (order' & dag2' & Hord' & Hperm & Htop & Hent).
  rewrite Hord in Hord'. injection Hord' as <- <-. destruct (processing_order_dependencies _ _ _ _ Hord) as [Hids2 Hdeps2].
  apply (order_ran space ctx li code_points levels0 levels Hbare (populated_edges _ _ _ _ _ Hgen Hpush)) in Hact.
  2: { intros p q a b Hp Hq Hpq Hin. specialize (Htop q p b a Hq Hp Hin). lia. }
  split; [by eapply run_nodes_ok|]. by eapply run_graph.
Qed.
End model.

(** ** Properties *)

(** C13: The bound of the model is the greatest of two.  One is the time of a path of
    dependencies from the entry to the exit of the program, in the root node of the graph of
    latencies, scaled by the number of blocks that run one after the other; the other is the
    throughput of the device for the whole program.  The nodes of the graph hold exactly:
    the dependencies of the program (the order of the points, the time of each level and of
    its iterations, its end, the results of instructions) once the dimensions they need are
    processed; and, for each level with sequential dimensions, what its iterations add, for
    as many as the least product of the sizes of these dimensions, to the nodes that have
    the level and all that comes before it, computed from the final dependencies of the node
    of the level; and the same for the dimensions mapped to others.  A dependency may only be
    replaced by one that is better. *)
Theorem model_bound_covers `{Profile, KeyRemoval, NumInteger} {D Ctx : Type} `{ChoiceDomains D, SizeContext Ctx, ModelContext D Ctx}
    (space : SearchSpace D) (ctx : Ctx) (b : Bound) :
  model_bound space ctx = Some b →
  ∃ li levels maps code_points dag root entry exit path scaled throughput,
    local_info_compute space ctx = Some li ∧ levels_generate space ctx li = Some (levels, maps) ∧
    code_points_build space levels = Some code_points ∧
    latency_graph space ctx li code_points levels maps dag ∧ dag_root dag = Some root ∧
    point_id code_points (LevelEntry 0) = Some entry ∧ point_id code_points (LevelExit 0) = Some exit ∧
    dep_path root exit entry path ∧
    fb_scale path (block_parallelism ctx space) (min_num_blocks (li_parallelism li)) (lcm_num_blocks (li_parallelism li)) = Some scaled ∧
    throughput_bound space ctx li = Some throughput ∧
    SFleb (bound_value scaled) (bound_value b) = true ∧ SFleb (bound_value throughput) (bound_value b) = true ∧
    (bound_value b = bound_value scaled ∨ bound_value b = bound_value throughput).
Proof.
  intros ([[[li levels] cps] dag] & Hdag & (scaled & Hl & (thr & Ht & (m & Hm & (o & _ & [= <-])%bind_Some)%bind_Some)%bind_Some)%bind_Some)%bind_Some.
  apply bind_Some in Hl as (entry & Hen & (exit & Hex & (root & Hr & (lat & Hlat & (path & -> & Hs)%bind_Some)%bind_Some)%bind_Some)%bind_Some).
  destruct (model_dag_graph space ctx li levels cps dag Hdag) as (levels0 & maps & Hli & Hgen & Hcps & Hok & Hgraph).
  exists li, levels0, maps, cps, dag, root, entry, exit, path, scaled, thr. repeat (split; [done|]).
  destruct (proj1 (nodes_ok_dependencies _ _) Hok 0 root Hr) as [Hwf Hlen].
  split; [|split; [done|split; [done|]]].
  - unfold latency in Hlat. apply bind_Some in Hlat as (l & Hl & Hlook). assert (exit < length (dep_maps root)) as Hlt.
    { unfold latency_to in Hl. apply bind_Some in Hl as (d & Hd & _). by eapply lookup_lt_Some. }
    destruct (latency_to_exact root exit) as (l' & Hl' & _ & Hpath & _); [done|done|]. rewrite Hl in Hl'. injection Hl' as <-. by apply Hpath.
  - cbn [bound_value]. by apply bound_max_value.
Qed.

(** The time of the nest of [LevelFacts]. *)
#[local] Existing Instances swap_removal debug_profile stdlib_integer nest_domains nest_sizes nest_device.

(** Eight iterations of two units of time for each of the four of the outer loop, which
    adds one unit. *)
Example loop_nest_bound : bound_value <$> model_bound loop_nest tt = Some (f64_of_Z 68).
Proof. by vm_compute. Qed.

Lemma model_bound_covers_witness :
  ∃ b path root entry exit (throughput : FastBound), model_bound loop_nest tt = Some b ∧ bound_value b = f64_of_Z 68 ∧
    dep_path root exit entry path ∧ SFleb (bound_value throughput) (bound_value b) = true.
Proof.
  destruct (model_bound loop_nest tt) as [b|] eqn:Hb; [|exfalso; revert Hb; by vm_compute].
  destruct (model_bound_covers loop_nest tt b Hb)
    as (li & levels & maps & cps & dag & root & entry & exit & path & scaled & thr & _ & _ & _ & _ & _ & _ & _ & Hp & _ & _ & _ & Hle & _).
  exists b, path, root, entry, exit, thr. split; [done|]. split; [|split; [exact Hp|exact Hle]].
  pose proof loop_nest_bound as He. rewrite Hb in He. by injection He.
Defined.
