(* ===== verification/SpaceActions.v ===== *)
(** * Decisions of the search space (src/search_space/operand.rs, dim_map.rs and mod.rs)

    The decisions that the operands of the representation impose, the host code that the
    triggers of the solver run when dimensions are mapped, merged or become iteration or
    thread dimensions, and the operations of a search space. *)
From S2P Require Import Prelude VecSet Types Utils Domains SparseVec Operands Objects Function.
From S2P Require Import Orders GenSets Filters FilterSemantics EnumDomains SolverStore LoopNests PropagationAst Propagation Choices NewObjs.
#[local] Open Scope nat_scope.

Notation SpaceAction := (Action IrObj).

(** ** Actions: the constructors of the printed [Action] *)
Definition order_action (lhs rhs : StmtId) (order : Z) : SpaceAction :=
  mkAction "order" [ObjStmt lhs; ObjStmt rhs] (DomEnum order).

Definition dim_mapping_action (lhs rhs : DimId) (mapping : Z) : SpaceAction :=
  mkAction "dim_mapping" [ObjDim lhs; ObjDim rhs] (DomEnum mapping).

Definition dim_kind_action (d : DimId) (kind : Z) : SpaceAction := mkAction "dim_kind" [ObjDim d] (DomEnum kind).

Definition mem_space_action (m : MemId) (space : Z) : SpaceAction := mkAction "mem_space" [ObjMem m] (DomEnum space).

(** ** Invariants of operands (operand.rs) *)
Section operand.
Context `{KeyRemoval}.
Implicit Types (fn : Function LoweringMap) (actions : list SpaceAction).

(** The dimensions on which an operand of the instruction is reduced. *)
Definition operand_reduced_dims fn (set : gset DimId) (op : Operand LoweringMap) : option (gset DimId) :=
  match op with
  | OInst op_inst_id _ _ _ | OReduce op_inst_id _ _ _ => i ← inst op_inst_id fn; Some (set ∪ list_to_set (iter_reduced_dims i))
  | _ => Some set
  end.

Definition order_reduce_dims fn (inst_id : InstId) actions : option (list SpaceAction) :=
  instr ← inst inst_id fn;
  red_dim_set ← foldM (operand_reduced_dims fn) (operands (inst_operator instr)) ∅;
  Some (actions ++ ((λ red_dim, order_action (SDim red_dim) (SInst inst_id) Order.BEFORE) <$> elements red_dim_set)).

(** The mapping that the scope of an operand asks for. *)
Definition scope_mapping (scope : DimMapScope LoweringMap) : Z :=
  match scope with Local => DimMappings.UNROLL_MAP | Thread => DimMappings.MAPPED | Global _ => DimMappings.ALL end.

(** The actions of one pair of the dim map of an [Inst] operand. *)
Definition pair_actions fn (scope : DimMapScope LoweringMap) (p : DimId * DimId) : option (list SpaceAction) :=
  let '(lhs, rhs) := p in
  d ← dim lhs fn;
  Some ([order_action (SDim lhs) (SDim rhs) (ed_bitor Order.BEFORE Order.MERGED); dim_mapping_action lhs rhs (scope_mapping scope)] ++
    match possible_sizes d with None => [order_action (SDim lhs) (SDim rhs) Order.MERGED] | Some _ => [] end).

Definition reduce_pair_actions (p : DimId * DimId) : list SpaceAction :=
  [order_action (SDim p.1) (SDim p.2) (ed_bitor Order.BEFORE Order.MERGED); dim_mapping_action p.1 p.2 DimMappings.MAPPED].

Definition reduce_dim_actions (src : InstId) (d : DimId) : list SpaceAction :=
  [order_action (SInst src) (SDim d) Order.BEFORE; dim_kind_action d (ed_bitor DimKind.LOOP DimKind.UNROLL)].

(** [invariants].  The base of an induction variable may be one that was made before. *)
Fixpoint invariants (fuel : nat) fn (op : Operand LoweringMap) (user : StmtId) : option (list SpaceAction) :=
  match op with
  | OInt _ _ | OFloat _ _ | OParam _ | OAddr _ | OVariable _ _ => Some []
  | OInst src _ dim_map scope =>
    pairs ← mapM (pair_actions fn scope) dim_map;
    actions ← order_reduce_dims fn src (concat pairs);
    Some (actions ++ [order_action (SInst src) user Order.BEFORE])
  | OReduce src _ dim_map reduce_dims =>
    order_reduce_dims fn src
      (concat (reduce_pair_actions <$> dim_map) ++ [order_action (SInst src) user Order.BEFORE] ++
        concat (reduce_dim_actions src <$> reduce_dims))
  | OIndex d => Some [order_action (SDim d) user Order.OUTER]
  | OInductionVar var_id _ =>
    match fuel with
    | O => None
    | S fuel =>
      var ← induction_var var_id fn;
      actions ← invariants fuel fn (ind_base var) user;
      others ← mapM (λ d,
        a ← invariants fuel fn (ind_base var) (SDim d); Some (a ++ [order_action (SDim d) user Order.OUTER])) (ind_dims var).*1;
      Some (actions ++ concat others)
    end
  end.

(** One turn for each induction variable is enough: the base of one comes before it. *)
Definition operand_invariants fn op user : option (list SpaceAction) :=
  invariants (length (induction_vars (body fn))) fn op user.

(** [inst_invariants]. *)
Definition inst_invariants fn (i : Instruction LoweringMap) : option (list SpaceAction) :=
  l ← mapM (λ op, operand_invariants fn op (SInst (inst_id i))) (operands (inst_operator i)); Some (concat l).

(** ** Lowering of dimension maps (dim_map.rs) *)

(** [lower_dim_map]. *)
Definition space_lower_dim_map (inst_id : InstId) (operand : nat) (new_objs : NewObjs) fn
  : option (result (list SpaceAction * NewObjs) unit * Function LoweringMap) :=
  '(r, fn) ← function_lower_dim_map inst_id operand fn;
  match r with
  | RErr e => Some (RErr e, fn)
  | ROk lowered =>
    mds ← mem_dimensions lowered;
    i ← inst inst_id fn;
    op ← operands (inst_operator i) !! operand;
    op_actions ← operand_invariants fn op (SInst inst_id);
    new_objs ← register_new_objs lowered fn new_objs;
    Some (ROk (((λ p : DimId * DimId, order_action (SDim p.1) (SDim p.2) (ed_bitor Order.BEFORE Order.MERGED)) <$> mds) ++
      [mem_space_action (ldm_mem lowered) MemSpace.SHARED;
       order_action (SInst (ldm_store lowered)) (SInst (ldm_load lowered)) Order.BEFORE] ++ op_actions, new_objs), fn)
  end.

(** The operands to lower, with the instructions they belong to. *)
Definition to_lower (lhs rhs : DimId) fn : list (InstId * nat) :=
  sv_iter (insts (body fn)) ≫= λ i, (λ op_id, (inst_id i, op_id)) <$> dim_maps_to_lower lhs rhs i.

Fixpoint lower_all (l : list (InstId * nat)) (new_objs : NewObjs) actions fn
  : option (result (NewObjs * list SpaceAction) unit * Function LoweringMap) :=
  match l with
  | [] => Some (ROk (new_objs, actions), fn)
  | (i, operand) :: l =>
    '(r, fn) ← space_lower_dim_map i operand new_objs fn;
    match r with
    | RErr e => Some (RErr e, fn)
    | ROk (new, new_objs) => lower_all l new_objs (actions ++ new) fn
    end
  end.

(** [dim_not_mapped]. *)
Definition dim_not_mapped (lhs rhs : DimId) fn
  : option (result (NewObjs * list SpaceAction) unit * Function LoweringMap) :=
  lower_all (to_lower lhs rhs fn) new_objs_default [] fn.

(** [dim_not_merged] of dim_map.rs. *)
Definition space_dim_not_merged (lhs rhs : DimId) fn
  : option (result (NewObjs * list SpaceAction) unit * Function LoweringMap) :=
  fn ← dim_not_merged lhs rhs fn; Some (ROk (new_objs_default, []), fn).

(** ** The host code of mod.rs *)

Definition merge_dims (lhs rhs : DimId) fn : option (result (NewObjs * list SpaceAction) unit * Function LoweringMap) :=
  Some (ROk (new_objs_default, []), merge lhs rhs fn).

Definition space_add_iteration_dim (i : InstId) (d : DimId) fn : option (NewObjs * Function LoweringMap) :=
  '(is_new, fn) ← set_iteration_dim i d fn;
  Some (if (is_new : bool) then no_add_iteration_dim i d new_objs_default else new_objs_default, fn).

Definition space_add_thread_dim (d : DimId) fn : option (NewObjs * Function LoweringMap) :=
  '(is_new, fn) ← add_thread_dim d fn;
  Some (if (is_new : bool) then no_add_thread_dim d new_objs_default else new_objs_default, fn).
End operand.

(** ** The search space (mod.rs)

    The description of the choices, the solver printed for it and its host code are
    parameters, like the incremental part of the solver: the allocation of the choices of
    new objects and their initialisation. *)

(** What a trigger of the description runs. *)
Inductive TriggerCode :=
| DimNotMapped | DimNotMerged | MergeDims
| AddIterationDim (repr counter : string)
| AddThreadDim (repr counter : string).

Section space.
Context `{Profile, KeyRemoval} `{Host (Function LoweringMap) IrObj}.
Context (ir : IrDesc) (code : SolverAst).
Context (first_key : gmap (list IrObj) (Dom * Dom) → option (list IrObj)).
Context (trigger_code : nat → option TriggerCode) (bool_true : Z).
Context (alloc : Function LoweringMap → NewObjs → Store IrObj → option (Store IrObj)).
Context (init_domain_partial : NewObjs → Sol (F := Function LoweringMap) (Obj := IrObj) (list SpaceAction)).
#[local] Notation SpaceSolver := (Solver (Function LoweringMap) IrObj).
#[local] Notation Sol := (Sol (F := Function LoweringMap) (Obj := IrObj)).

(** Host code that changes the function. *)
Definition run_host {A : Type} (m : Function LoweringMap → option (result A unit * Function LoweringMap)) : Sol A := λ s,
  '(r, fn) ← m (sv_fun s); Some (mkSolver fn (sv_store s) (sv_diff s), r).

(** [process_lowering]. *)
Definition process_lowering (new_objs : NewObjs) : Sol (list SpaceAction) :=
  do* (λ s : SpaceSolver, store ← alloc (sv_fun s) new_objs (sv_store s); Some (mkSolver (sv_fun s) store (sv_diff s), ROk tt));
  let* actions := init_domain_partial new_objs in
  let* invariants := sread (λ s : SpaceSolver,
    l ← mapM (λ id, i ← inst id (sv_fun s); inst_invariants (sv_fun s) i) (no_instructions new_objs); Some (concat l)) in
  sret (actions ++ invariants).

(** [add_to_quotient]: the first object of a class stands for it.  The actions are those
    that are pushed before the new objects are processed. *)
Definition add_to_quotient (repr counter : string) (ids : list IrObj) (delayed : bool)
    (add_to_set : Function LoweringMap → option (NewObjs * Function LoweringMap)) : Sol (NewObjs * list SpaceAction) :=
  let* is_first := sread (λ s : SpaceSolver,
    d ← store_get_old ir counter ids (sv_store s) (sv_diff s); m ← counter_max d; Some (m =? 0)%Z) in
  if (is_first : bool) then
    let* actions := (if delayed then restrict_delayed ir code (depth code) repr ids (DomEnum bool_true)
                     else do* store_restrict ir repr ids (DomEnum bool_true); sret []) in
    let* new_objs := run_host (λ fn, '(o, fn) ← add_to_set fn; Some (ROk o, fn)) in
    sret (new_objs, actions)
  else sret (new_objs_default, []).

(** The code of a trigger: the objects that it makes and its actions. *)
Definition trigger_host (delayed : bool) (t : TriggerCode) (objs : list IrObj) : Sol (NewObjs * list SpaceAction) :=
  match t, objs with
  | DimNotMapped, [ObjDim lhs; ObjDim rhs] => run_host (dim_not_mapped lhs rhs)
  | DimNotMerged, [ObjDim lhs; ObjDim rhs] => run_host (space_dim_not_merged lhs rhs)
  | MergeDims, [ObjDim lhs; ObjDim rhs] => run_host (merge_dims lhs rhs)
  | AddIterationDim repr counter, [ObjInst i; ObjDim d] => add_to_quotient repr counter objs delayed (space_add_iteration_dim i d)
  | AddThreadDim repr counter, [ObjDim d] => add_to_quotient repr counter objs delayed (space_add_thread_dim d)
  | _, _ => λ _, None
  end.

(** [trigger_call]. *)
Definition space_trigger (delayed : bool) (id : nat) (objs : list IrObj) : Sol (list SpaceAction) :=
  let* t := sread (λ _, trigger_code id) in
  let* r := trigger_host delayed t objs in
  let* more := process_lowering r.1 in
  sret (r.2 ++ more).

Definition space_of (s : SpaceSolver) : SearchSpace (Store IrObj) := mkSearchSpace (sv_fun s) (sv_store s).

(** [SearchSpace::apply_decisions]. *)
Definition space_apply_decisions (fuel : nat) (actions : list SpaceAction) (space : SearchSpace (Store IrObj))
  : option (SearchSpace (Store IrObj) * result unit unit) :=
  '(s, r) ← apply_decisions ir code first_key (space_trigger false) fuel actions (ir_instance space) (domain space);
  Some (space_of s, r).

(** [dim_map::lower_layout]: all the dimensions but the innermost ones are not vectors. *)
Definition layout_actions (st_dims ld_dims : list DimId) : Sol (list SpaceAction) :=
  let* pairs := sread (λ _, zip_eq (reverse st_dims) (reverse ld_dims)) in
  let not_vec := DomEnum (ed_not dim_kind_enum DimKind.VECTOR) in
  sconcat (drop 1 pairs) (λ '(st_dim, ld_dim),
    let* st := restrict_delayed ir code (depth code) "dim_kind" [ObjDim st_dim] not_vec in
    let* ld := restrict_delayed ir code (depth code) "dim_kind" [ObjDim ld_dim] not_vec in
    sret (st ++ ld)).

Definition lower_layout_actions (mem : MemId) (st_dims ld_dims : list DimId) : Sol (list SpaceAction) :=
  let* actions := layout_actions st_dims ld_dims in
  do* run_host (λ fn, fn ← lower_layout mem st_dims ld_dims fn; Some (ROk tt, fn));
  let* invariants := sread (λ s : SpaceSolver,
    b ← mem_block mem (sv_fun s);
    l ← mapM (λ id, i ← inst id (sv_fun s); inst_invariants (sv_fun s) i) (block_uses b); Some (concat l)) in
  sret (actions ++ invariants).

(** [SearchSpace::lower_layout]. *)
Definition space_lower_layout (fuel : nat) (mem : MemId) (st_dims ld_dims : list DimId) (space : SearchSpace (Store IrObj))
  : option (SearchSpace (Store IrObj) * result unit unit) :=
  '(s, r) ← lower_layout_actions mem st_dims ld_dims (mkSolver (ir_instance space) (domain space) ∅);
  match r with
  | RErr e => Some (space_of s, RErr e)
  | ROk actions => space_apply_decisions fuel actions (space_of s)
  end.

(** [SearchSpace::new]. *)
Definition space_new (fuel : nat) (fn : Function unit) (actions : list SpaceAction) : option (result (SearchSpace (Store IrObj)) unit) :=
  fn ← freeze fn;
  store ← store_new ir code fn;
  l ← mapM (inst_invariants fn) (sv_iter (insts (body fn)));
  '(s, r) ← (do* sfor (actions ++ concat l) (apply_action ir);
             (λ s : SpaceSolver, init_domain ir code (space_trigger true) (mkSolver (sv_fun s) (sv_store s) ∅)))
            (mkSolver fn store ∅);
  match r with
  | RErr e => Some (RErr e)
  | ROk actions =>
    '(space, r) ← space_apply_decisions fuel actions (space_of s);
    Some (match r with ROk _ => ROk space | RErr e => RErr e end)
  end.

(** [access_pattern_space]: an array of the caller is in global memory. *)
Definition access_pattern_space (pattern : AccessPattern) (space : SearchSpace (Store IrObj)) : option Z :=
  match pat_mem_block pattern with
  | Some id => @get_mem_space _ (store_choices ir) (domain space) id
  | None => Some MemSpace.GLOBAL
  end.
End space.
