(* ===== verification/SpaceFacts.v ===== *)
(** * What the decisions of the search space mean

    The invariants of an operand hold in an assignment of the choices exactly when the
    dependences of the operand do, and when dimensions are not mapped all the operands
    between them are lowered. *)
From S2P Require Import Prelude VecSet Types Utils Domains SparseVec Operands Objects Function FunctionFacts Building Lowering.
From S2P Require Import Orders GenSets Filters FilterSemantics EnumDomains SolverStore Choices CodePoints NewObjs SpaceActions.
#[local] Open Scope nat_scope.

(** ** Assignments of the choices *)
Record Assignment := mkAssignment {
  as_order : StmtId → StmtId → string;
  as_mapping : DimId → DimId → string;
  as_kind : DimId → string;
  as_space : MemId → string
}.

Definition mappings_valid (w : Assignment) : Prop := ∀ l r, as_mapping w l r ∈ value_keys dim_mapping_enum.

Section meaning.
Context `{KeyRemoval} (w : Assignment).

(** Whether the assignment is among those that the action leaves. *)
Definition allowed (a : SpaceAction) : Prop :=
  match act_ids a, act_dom a with
  | [ObjStmt l; ObjStmt r], DomEnum b => act_choice a = "order"%string ∧ ed_has order_enum b (as_order w l r) = true
  | [ObjDim l; ObjDim r], DomEnum b => act_choice a = "dim_mapping"%string ∧ ed_has dim_mapping_enum b (as_mapping w l r) = true
  | [ObjDim d], DomEnum b => act_choice a = "dim_kind"%string ∧ ed_has dim_kind_enum b (as_kind w d) = true
  | [ObjMem m], DomEnum b => act_choice a = "mem_space"%string ∧ ed_has mem_space_enum b (as_space w m) = true
  | _, _ => False
  end.

Lemma allowed_order lhs rhs b l : holds b l → allowed (order_action lhs rhs b) ↔ as_order w lhs rhs ∈ l.
Proof. intros [_ Hl]. cbn. rewrite Hl, bool_decide_eq_true. naive_solver. Qed.

Lemma allowed_before lhs rhs : allowed (order_action lhs rhs Order.BEFORE) ↔ as_order w lhs rhs = "BEFORE"%string.
Proof. rewrite (allowed_order _ _ _ ["BEFORE"%string]) by (apply order_holds; left). apply list_elem_of_singleton. Qed.

Lemma allowed_merged lhs rhs : allowed (order_action lhs rhs Order.MERGED) ↔ as_order w lhs rhs = "MERGED"%string.
Proof. rewrite (allowed_order _ _ _ ["MERGED"%string]) by (apply order_holds; set_solver). apply list_elem_of_singleton. Qed.

Lemma allowed_outer lhs rhs : allowed (order_action lhs rhs Order.OUTER) ↔ as_order w lhs rhs = "OUTER"%string.
Proof. rewrite (allowed_order _ _ _ ["OUTER"%string]) by (apply order_holds; set_solver). apply list_elem_of_singleton. Qed.

Lemma allowed_before_merged lhs rhs :
  allowed (order_action lhs rhs (ed_bitor Order.BEFORE Order.MERGED)) ↔ as_order w lhs rhs = "BEFORE"%string ∨ as_order w lhs rhs = "MERGED"%string.
Proof.
  rewrite (allowed_order _ _ _ (["BEFORE"%string] ++ ["MERGED"%string])) by (apply holds_or; apply order_holds; set_solver). set_solver.
Qed.

(** The values that a scope allows for a pair of dimensions. *)
Definition scope_ok {L : Type} (scope : DimMapScope L) (x : string) : Prop :=
  match scope with Local => x = "UNROLL_MAP"%string | Thread => x = "UNROLL_MAP"%string ∨ x = "THREAD_MAP"%string | Global _ => True end.

Lemma allowed_unroll_map l r : allowed (dim_mapping_action l r DimMappings.UNROLL_MAP) ↔ as_mapping w l r = "UNROLL_MAP"%string.
Proof.
  destruct (printed_value dim_mapping_enum dim_mapping_enum_ok "UNROLL_MAP") as [_ Hx]; [right; left|done|].
  cbn. unfold DimMappings.UNROLL_MAP. rewrite Hx, bool_decide_eq_true. naive_solver.
Qed.

Lemma allowed_mapped l r :
  allowed (dim_mapping_action l r DimMappings.MAPPED) ↔ as_mapping w l r = "UNROLL_MAP"%string ∨ as_mapping w l r = "THREAD_MAP"%string.
Proof.
  destruct (printed_alias dim_mapping_enum dim_mapping_enum_ok "MAPPED" {["UNROLL_MAP"; "THREAD_MAP"]}%string None) as [_ Hx];
    [done|set_solver|intros v [->%elem_of_singleton| ->%elem_of_singleton]%elem_of_union; (split; [by apply (bool_decide_unpack _); vm_compute|done])|].
  cbn. unfold DimMappings.MAPPED. rewrite Hx, bool_decide_eq_true. set_solver.
Qed.

Lemma allowed_scope (scope : DimMapScope LoweringMap) l r : mappings_valid w →
  allowed (dim_mapping_action l r (scope_mapping scope)) ↔ scope_ok scope (as_mapping w l r).
Proof.
  intros Hw. destruct scope; cbn [scope_mapping scope_ok]; [apply allowed_unroll_map|apply allowed_mapped|].
  split; [done|]. intros _. cbn. split; [done|]. apply ed_has_all; [apply dim_mapping_enum_ok|apply Hw].
Qed.

Lemma allowed_loop d :
  allowed (dim_kind_action d (ed_bitor DimKind.LOOP DimKind.UNROLL)) ↔ as_kind w d = "LOOP"%string ∨ as_kind w d = "UNROLL"%string.
Proof.
  destruct (dim_kind_const "LOOP") as [_ Hl]; [left|]. destruct (dim_kind_const "UNROLL") as [_ Hu]; [set_solver|].
  cbn. unfold ed_bitor, DimKind.LOOP, DimKind.UNROLL. rewrite ed_has_lor, Hl, Hu, orb_true_iff, !bool_decide_eq_true. naive_solver.
Qed.
End meaning.

(** ** The dependences of an operand *)

Definition operand_source {L : Type} (op : Operand L) : option InstId :=
  match op with OInst src _ _ _ | OReduce src _ _ _ => Some src | _ => None end.

Section deps.
Context (fn : Function LoweringMap) (w : Assignment).

(** The reductions that an instruction reads are over before it runs. *)
Definition after_reductions (user : InstId) : Prop :=
  ∀ x op src y d, inst user fn = Some x → op ∈ operands (inst_operator x) → operand_source op = Some src →
    inst src fn = Some y → d ∈ iter_reduced_dims y → as_order w (SDim d) (SInst user) = "BEFORE"%string.

Definition before_or_merged (lhs rhs : DimId) : Prop :=
  as_order w (SDim lhs) (SDim rhs) = "BEFORE"%string ∨ as_order w (SDim lhs) (SDim rhs) = "MERGED"%string.

(** The loops of a value and of its user: either fused, or one after the other; values go
    through memory when their dimensions are not mapped, which dimensions of unknown size
    do not allow. *)
Definition pair_deps (scope : DimMapScope LoweringMap) (lhs rhs : DimId) : Prop :=
  before_or_merged lhs rhs ∧ scope_ok scope (as_mapping w lhs rhs) ∧
  ∀ d, dim lhs fn = Some d → possible_sizes d = None → as_order w (SDim lhs) (SDim rhs) = "MERGED"%string.

Inductive operand_deps : Operand LoweringMap → StmtId → Prop :=
| deps_int v b user : operand_deps (OInt v b) user
| deps_float v b user : operand_deps (OFloat v b) user
| deps_param p user : operand_deps (OParam p) user
| deps_addr m user : operand_deps (OAddr m) user
| deps_variable v t user : operand_deps (OVariable v t) user
| deps_inst src t m scope user :
    (∀ l r, (l, r) ∈ m → pair_deps scope l r) → after_reductions src →
    as_order w (SInst src) user = "BEFORE"%string → operand_deps (OInst src t m scope) user
| deps_reduce src t m reduce_dims user :
    (∀ l r, (l, r) ∈ m → before_or_merged l r ∧ scope_ok (L := LoweringMap) Thread (as_mapping w l r)) → after_reductions src →
    as_order w (SInst src) user = "BEFORE"%string →
    (∀ d, d ∈ reduce_dims → as_order w (SInst src) (SDim d) = "BEFORE"%string ∧ (as_kind w d = "LOOP"%string ∨ as_kind w d = "UNROLL"%string)) →
    operand_deps (OReduce src t m reduce_dims) user
| deps_index d user : as_order w (SDim d) user = "OUTER"%string → operand_deps (OIndex d) user
| deps_induction_var v t iv user :
    induction_var v fn = Some iv → operand_deps (ind_base iv) user →
    (∀ d, d ∈ (ind_dims iv).*1 → operand_deps (ind_base iv) (SDim d) ∧ as_order w (SDim d) user = "OUTER"%string) →
    operand_deps (OInductionVar v t) user.

Definition sources_resolve (x : Instruction LoweringMap) : Prop :=
  ∀ op src, op ∈ operands (inst_operator x) → operand_source op = Some src → is_Some (inst src fn).

(** The operands below refer to instructions, dimensions and induction variables of the
    function, and the base of an induction variable to variables made before it. *)
Inductive operand_refs : nat → Operand LoweringMap → Prop :=
| refs_int n v b : operand_refs n (OInt v b)
| refs_float n v b : operand_refs n (OFloat v b)
| refs_param n p : operand_refs n (OParam p)
| refs_addr n m : operand_refs n (OAddr m)
| refs_variable n v t : operand_refs n (OVariable v t)
| refs_index n d : operand_refs n (OIndex d)
| refs_inst n src t m scope x :
    inst src fn = Some x → sources_resolve x → (∀ l r, (l, r) ∈ m → is_Some (dim l fn)) → operand_refs n (OInst src t m scope)
| refs_reduce n src t m reduce_dims x :
    inst src fn = Some x → sources_resolve x → operand_refs n (OReduce src t m reduce_dims)
| refs_induction_var n v t iv :
    v < n → induction_var v fn = Some iv → operand_refs v (ind_base iv) → operand_refs n (OInductionVar v t).
End deps.

Section exact.
Context `{KeyRemoval} (fn : Function LoweringMap) (w : Assignment) (Hw : mappings_valid w).

Lemma reduced_dims_fold ops set s : foldM (operand_reduced_dims fn) ops set = Some s →
  ∀ d, d ∈ s ↔ d ∈ set ∨ ∃ op src y, op ∈ ops ∧ operand_source op = Some src ∧ inst src fn = Some y ∧ d ∈ iter_reduced_dims y.
Proof.
  revert set. induction ops as [|op ops IH]; intros set Hs d; cbn [foldM] in Hs.
  { injection Hs as <-. set_solver. }
  apply bind_Some in Hs as (s1 & H1' & Hs). rewrite (IH _ Hs).
  assert (d ∈ s1 ↔ d ∈ set ∨ ∃ src y, operand_source op = Some src ∧ inst src fn = Some y ∧ d ∈ iter_reduced_dims y) as ->.
  { assert (∀ i, (x ← inst i fn; Some (set ∪ list_to_set (iter_reduced_dims x))) = Some s1 →
      d ∈ s1 ↔ d ∈ set ∨ ∃ src y, Some i = Some src ∧ inst src fn = Some y ∧ d ∈ iter_reduced_dims y) as Hop.
    { intros i (y & Hy & [= <-])%bind_Some. rewrite elem_of_union, elem_of_list_to_set. apply or_iff_compat_l. split.
      - intros Hd. by exists i, y.
      - intros (src & y' & [= <-] & Hy' & Hd). rewrite Hy in Hy'. by injection Hy' as <-. }
    unfold operand_reduced_dims in H1'. destruct op; cbn [operand_source]; try (by apply Hop);
      injection H1' as <-; (split; [by left|by intros [|(? & ? & ? & _)]]). }
  split.
  - intros [[?|(src & y & Hs')]|(op' & src & y & Hop & Hs')]; [by left|right; exists op, src, y; split; [left|exact Hs']|].
    right. exists op', src, y. split; [by right|exact Hs'].
  - intros [?|(op' & src & y & Hop & Hs')]; [by left; left|].
    apply elem_of_cons in Hop as [->|Hop]; [left; right; exists src, y; exact Hs'|right; exists op', src, y; by split].
Qed.

Lemma order_reduce_dims_exact i l actions : order_reduce_dims fn i l = Some actions →
  Forall (allowed w) actions ↔ Forall (allowed w) l ∧ after_reductions fn w i.
Proof.
  intros (x & Hx & (s & Hs & [= <-])%bind_Some)%bind_Some. rewrite Forall_app, Forall_fmap. apply and_iff_compat_l.
  rewrite Forall_forall. pose proof (reduced_dims_fold _ _ _ Hs) as Hd. split.
  - intros Hall x' op src y d Hx' Hop Hsrc Hy Hin. rewrite Hx in Hx'. injection Hx' as <-. apply (allowed_before w).
    apply (Hall d). apply elem_of_elements, Hd. right. by exists op, src, y.
  - intros Hall d Hin%elem_of_elements. apply Hd in Hin as [Hin|(op & src & y & Hop & Hsrc & Hy & Hin)]; [by apply elem_of_empty in Hin|].
    apply (allowed_before w). by eapply Hall.
Qed.

Lemma pair_actions_exact scope p l : pair_actions fn scope p = Some l → Forall (allowed w) l ↔ pair_deps fn w scope p.1 p.2.
Proof using Hw.
  destruct p as [lhs rhs]. intros (d & Hd & [= <-])%bind_Some. cbn [app]. rewrite !Forall_cons, allowed_before_merged, allowed_scope by done.
  unfold pair_deps, before_or_merged. cbn [fst snd]. apply and_iff_compat_l, and_iff_compat_l. destruct (possible_sizes d) eqn:Ep.
  - split; [|by constructor]. intros _ d' Hd' Hn. rewrite Hd in Hd'. injection Hd' as <-. congruence.
  - rewrite Forall_singleton, allowed_merged. split; [by intros ? ? _ _|]. intros Hm. by apply (Hm d).
Qed.

Lemma allowed_concat {A : Type} (f : A → list SpaceAction) l : Forall (allowed w) (concat (f <$> l)) ↔ ∀ x, x ∈ l → Forall (allowed w) (f x).
Proof.
  rewrite Forall_concat, Forall_fmap, Forall_forall. done.
Qed.

Lemma allowed_mapM {A : Type} (f : A → option (list SpaceAction)) l k : mapM f l = Some k →
  Forall (allowed w) (concat k) ↔ ∀ x a, x ∈ l → f x = Some a → Forall (allowed w) a.
Proof.
  intros [Hl Hk]%mapM_elem. rewrite Forall_concat, Forall_forall. split.
  - intros Hall x a Hx Hfx. destruct (Hl x Hx) as (y & Hy & Hin). rewrite Hfx in Hy. injection Hy as <-. by apply Hall.
  - intros Hall a (x & Hx & Hfx)%Hk. by eapply Hall.
Qed.

Lemma inst_operand_exact fuel src t m scope user actions : invariants fuel fn (OInst src t m scope) user = Some actions →
  Forall (allowed w) actions ↔ operand_deps fn w (OInst src t m scope) user.
Proof using Hw.
  intros Ha. assert ((pairs ← mapM (pair_actions fn scope) m; l ← order_reduce_dims fn src (concat pairs);
    Some (l ++ [order_action (SInst src) user Order.BEFORE])) = Some actions) as (pairs & Hp & (l & Hl & [= <-])%bind_Some)%bind_Some
    by by destruct fuel.
  rewrite Forall_app, Forall_singleton, allowed_before, (order_reduce_dims_exact _ _ _ Hl), (allowed_mapM _ _ _ Hp). split.
  - intros [[Hpairs Hred] Hb]. constructor; [|done|done]. intros lhs rhs Hin. destruct (mapM_elem _ _ _ Hp) as [Hex _].
    destruct (Hex _ Hin) as (a & Hpa & _). rewrite <-(pair_actions_exact _ (lhs, rhs) a Hpa). by eapply Hpairs.
  - inversion 1; subst. split; [split|]; [|done|done]. intros [lhs rhs] a Hin Hpa. rewrite (pair_actions_exact _ _ _ Hpa). by auto.
Qed.

Lemma reduce_operand_exact fuel src t m reduce_dims user actions : invariants fuel fn (OReduce src t m reduce_dims) user = Some actions →
  Forall (allowed w) actions ↔ operand_deps fn w (OReduce src t m reduce_dims) user.
Proof.
  intros Ha. assert (order_reduce_dims fn src (concat (reduce_pair_actions <$> m) ++ [order_action (SInst src) user Order.BEFORE] ++
    concat (reduce_dim_actions src <$> reduce_dims)) = Some actions) as Hl by by destruct fuel.
  rewrite (order_reduce_dims_exact _ _ _ Hl), !Forall_app, Forall_singleton, !allowed_concat, allowed_before.
  assert (∀ p, Forall (allowed w) (reduce_pair_actions p) ↔ before_or_merged w p.1 p.2 ∧ scope_ok (L := LoweringMap) Thread (as_mapping w p.1 p.2)) as Hpair.
  { intros p. unfold reduce_pair_actions. by rewrite Forall_cons, Forall_singleton, allowed_before_merged, allowed_mapped. }
  assert (∀ d, Forall (allowed w) (reduce_dim_actions src d) ↔
    as_order w (SInst src) (SDim d) = "BEFORE"%string ∧ (as_kind w d = "LOOP"%string ∨ as_kind w d = "UNROLL"%string)) as Hdim.
  { intros d. unfold reduce_dim_actions. by rewrite Forall_cons, Forall_singleton, allowed_before, allowed_loop. }
  split.
  - intros [(Hp & Hb & Hd) Hred]. constructor; [|done|done|].
    + intros l r Hin. by apply (Hpair (l, r)), Hp.
    + intros d Hin. by apply Hdim, Hd.
  - inversion 1; subst. split; [split; [|split]|]; [|done| |done].
    + intros [l r] Hin. apply Hpair. by auto.
    + intros d Hin. apply Hdim. by auto.
Qed.

Lemma invariants_exact fuel op user actions : invariants fuel fn op user = Some actions →
  Forall (allowed w) actions ↔ operand_deps fn w op user.
Proof using Hw.
  revert op user actions. induction fuel as [|fuel IH]; intros op user actions Ha;
    destruct op; try (by eapply inst_operand_exact); try (by eapply reduce_operand_exact); cbn [invariants] in Ha; try done.
  all: try (injection Ha as <-; split; by constructor).
  all: try (injection Ha as <-; rewrite Forall_singleton, allowed_outer; split; [by constructor|by inversion 1]).
  apply bind_Some in Ha as (iv & Hiv & (base & Hb & (others & Ho & [= <-])%bind_Some)%bind_Some).
  rewrite Forall_app, (IH _ _ _ Hb), (allowed_mapM _ _ _ Ho). split.
  - intros [Hbase Hothers]. apply (deps_induction_var fn w id t iv); [done|done|]. intros d Hd. destruct (mapM_elem _ _ _ Ho) as [Hex _].
    destruct (Hex d Hd) as (a & Hda & _). pose proof (Hothers d a Hd Hda) as Hall.
    apply bind_Some in Hda as (b & Hdb & [= <-]). rewrite Forall_app, Forall_singleton, allowed_outer in Hall.
    by rewrite <-(IH _ _ _ Hdb).
  - inversion 1 as [| | | | | | | |v' t' iv' user' Hiv' Hbase Hdims]; subst. rewrite Hiv in Hiv'. injection Hiv' as <-.
    split; [done|]. intros d a Hd (b & Hdb & [= <-])%bind_Some. rewrite Forall_app, Forall_singleton, allowed_outer, (IH _ _ _ Hdb). by apply Hdims.
Qed.

(** ** The invariants are found *)

Lemma reduce_dims_total x i l : inst i fn = Some x → sources_resolve fn x → is_Some (order_reduce_dims fn i l).
Proof.
  intros Hx Hsrc. unfold order_reduce_dims. rewrite Hx. cbn [mbind option_bind].
  assert (∀ ops set, (∀ op, op ∈ ops → op ∈ operands (inst_operator x)) → is_Some (foldM (operand_reduced_dims fn) ops set)) as Hfold.
  { induction ops as [|op ops IH]; intros set Hops; [by eexists|]. cbn [foldM].
    assert (is_Some (operand_reduced_dims fn set op)) as [s ->].
    { unfold operand_reduced_dims. pose proof (Hsrc op) as Hs.
      destruct op as [| |src| | | |src| |]; try (by eexists); (destruct (Hs src) as [z ->]; [apply Hops; left|done|by eexists]). }
    cbn [mbind option_bind]. apply IH. intros o Ho. apply Hops. by right. }
  destruct (Hfold (operands (inst_operator x)) ∅) as [s ->]; [done|]. by eexists.
Qed.

Lemma invariants_total n op : operand_refs fn n op → ∀ fuel user, n ≤ fuel → is_Some (invariants fuel fn op user).
Proof.
  induction 1 as [| | | | | |n src t m scope x Hx Hsrc Hdims|n src t m rd x Hx Hsrc|n v t iv Hv Hiv Hbase IH]; intros fuel user Hle;
    try (by destruct fuel; eexists).
  - assert (is_Some (mapM (pair_actions fn scope) m)) as [pairs Hp].
    { apply mapM_is_Some, Forall_forall. intros [l r] Hin. destruct (Hdims l r Hin) as [d Hd]. cbn. rewrite Hd. by eexists. }
    destruct (reduce_dims_total x src (concat pairs) Hx Hsrc) as [l Hl].
    destruct fuel; cbn [invariants]; rewrite Hp; cbn [mbind option_bind]; rewrite Hl; by eexists.
  - destruct fuel; by apply (reduce_dims_total x).
  - destruct fuel as [|fuel]; [lia|]. cbn [invariants]. rewrite Hiv. cbn [mbind option_bind].
    destruct (IH fuel user) as [b ->]; [lia|]. cbn [mbind option_bind].
    assert (is_Some (mapM (λ d, a ← invariants fuel fn (ind_base iv) (SDim d); Some (a ++ [order_action (SDim d) user Order.OUTER])) (ind_dims iv).*1)) as [o ->].
    { apply mapM_is_Some, Forall_forall. intros d _. destruct (IH fuel (SDim d)) as [a Ha]; [lia|]. cbn. rewrite Ha. by eexists. }
    by eexists.
Qed.
End exact.

(** ** What lowering one dimension map changes *)

Definition active_dim (fn : Function LoweringMap) (d : DimId) : Prop := is_Some (dim d fn).

(** The pairs made when dimensions are activated hold dimensions that were not active. *)
Definition fresh_pairs (fn : Function LoweringMap) (old_to_new : bool) (m : DimMap) : Prop :=
  ∀ p, p ∈ m → dim (if old_to_new then p.2 else p.1) fn = None.

Lemma active_dims_updates (g : Dimension → option Dimension) ids ds ds' d :
  sv_updates g ids ds = Some ds' → (∀ x y, g x = Some y → dim_id y = dim_id x) → is_Some (sv_get ds' d) ↔ is_Some (sv_get ds d).
Proof.
  intros Hu Hg. destruct (sv_updates_proj dim_id g ids ds ds' Hu Hg) as (_ & _ & Hp).
  by rewrite <-!(fmap_is_Some dim_id), Hp.
Qed.

Lemma activate_one_effect b fn m p fn' : activate_mapped_dim b fn m = Some (p, fn') → fn_wf fn →
  (∀ d, active_dim fn' d ↔ active_dim fn d ∨ d = m.2.2) ∧ dim (if b then p.2 else p.1) fn = None.
Proof.
  intros Ha Hwf. destruct m as [mid [old_d new_d]]. unfold activate_mapped_dim in Ha.
  apply bind_Some in Ha as (old & Hold & (d & Hd & Ha)%bind_Some).
  set (f1 := match possible_sizes d with Some _ => _ | None => _ end) in Ha.
  assert (dims (body f1) = dims (body fn)) as Hf1 by (unfold f1; by destruct (possible_sizes d)).
  apply bind_Some in Ha as (ds & Hds & Ha). apply bind_Some in Ha as ([mp f3] & Hc & (ms & Hms & [= <- <-])%bind_Some).
  rewrite Hf1 in Hds. pose proof (sv_set_lazy_spec (dims (body fn)) new_d d) as Hs. rewrite Hds in Hs.
  destruct Hs as (_ & Hnone & _ & _ & Hg); [apply Hwf|].
  apply create_mapping_ok in Hc as (_ & ds' & Hu & ->). split; [|by destruct b].
  intros j. unfold active_dim, dim. cbn [body with_body set_dims set_dim_mappings dims fst snd] in *.
  rewrite (active_dims_updates _ _ _ _ j Hu) by by (unfold register_dim_mapping; intros ? ?; destruct (dmap_dims mp); intros (? & _ & [= <-])%bind_Some). cbn. rewrite Hg. case_decide; [naive_solver|].
  split; [by left|by intros [|]].
Qed.

Lemma activate_effect b l fn r fn' : activate_mapped_dims l b fn = Some (r, fn') → fn_wf fn →
  (∀ d, active_dim fn' d ↔ active_dim fn d ∨ d ∈ (λ m : DimMappingId * (DimId * DimId), m.2.2) <$> l) ∧ fresh_pairs fn b r.
Proof.
  revert fn r. induction l as [|m l IH]; intros fn r; cbn [activate_mapped_dims].
  { intros [= <- <-] _. split; [set_solver|]. by intros p ?%elem_of_nil. }
  intros ([p f1] & Hm & ([map f2] & Hl & [= <- <-])%bind_Some)%bind_Some Hwf.
  destruct (activate_one_effect _ _ _ _ _ Hm Hwf) as [Hd Hp]. apply activate_mapped_dim_wf in Hm as [Hwf1 _]; [|done].
  destruct (IH _ _ Hl Hwf1) as [Hd' Hps]. split.
  - intros d. rewrite Hd', Hd, fmap_cons. set_solver.
  - intros q [->|Hq]%elem_of_cons; [done|]. specialize (Hps q Hq).
    destruct (dim (if b then q.2 else q.1) fn) as [x|] eqn:E; [|done].
    assert (active_dim f1 (if b then q.2 else q.1)) as [y Hy] by (apply Hd; left; by exists x). congruence.
Qed.

Lemma create_lazy_effect id op l fn fn' : create_lazy_inst id op l fn = Some fn' → fn_wf fn →
  (∀ d, active_dim fn' d ↔ active_dim fn d) ∧ inst id fn = None ∧
  ∃ x, inst_operator x = op ∧ ∀ j, inst j fn' = if decide (j = id) then Some x else inst j fn.
Proof.
  unfold create_lazy_inst. intros ([[i|e] f1] & Hc & Hi)%bind_Some Hwf; [|done]. apply bind_Some in Hi as (iv & Hiv & [= <-]).
  apply create_inst_ok in Hc as (ds & ms & vs & -> & Hds & _ & _ & ->).
  pose proof (sv_set_lazy_spec (insts (body fn)) id (mkInstruction op id (list_to_set l) None [] (vs_new (omap operand_variable (operands op))))) as Hs.
  cbn in Hiv. rewrite Hiv in Hs. destruct Hs as (_ & Hnone & _ & _ & Hg); [apply Hwf|]. split; [|split; [done|]].
  - intros d. unfold active_dim, dim. cbn. eapply active_dims_updates; [exact Hds|]. by intros ? ? [= <-].
  - eexists. split; [|exact Hg]. done.
Qed.

(** An operand that has the pair in its map, in an instruction. *)
Definition to_lower_at (lhs rhs : DimId) (fn : Function LoweringMap) (i pos : nat) : Prop :=
  ∃ x op, inst i fn = Some x ∧ operands (inst_operator x) !! pos = Some op ∧ should_lower_map lhs rhs op = true.

Lemma should_lower_fresh lhs rhs fn b id t m scope : active_dim fn lhs → active_dim fn rhs → fresh_pairs fn b m →
  should_lower_map (L := LoweringMap) lhs rhs (OInst id t m scope) = false.
Proof.
  intros [x Hx] [y Hy] Hm. apply not_true_is_false. cbn. intros (p & Hin & Hp)%existsb_exists.
  apply list_elem_of_In, Hm in Hin. rewrite orb_true_iff, !bool_decide_eq_true in Hp.
  destruct Hp as [->| ->], b; cbn in Hin; congruence.
Qed.

Lemma lookup_operands_mut (f : nat → Operand LoweringMap → Operand LoweringMap) op k :
  operands (operands_mut f op) !! k = f k <$> operands op !! k.
Proof. by destruct op; cbn; destruct k as [|[|[|k]]]. Qed.

Lemma function_lower_effect lhs rhs i pos fn low fn' :
  function_lower_dim_map i pos fn = Some (ROk low, fn') → fn_wf fn → active_dim fn lhs → active_dim fn rhs →
  active_dim fn' lhs ∧ active_dim fn' rhs ∧
  ∀ j k, to_lower_at lhs rhs fn' j k → to_lower_at lhs rhs fn j k ∧ (j, k) ≠ (i, pos).
Proof.
  unfold function_lower_dim_map. intros H Hwf Hl Hr.
  apply bind_Some in H as (dst & Hdst & (o & Ho & H)%bind_Some).
  destruct o as [| |src t m [| |lm]| | | | | |]; try done. apply bind_Some in H as (low' & _ & H).
  apply bind_Some in H as ([st f1] & H1' & ([ld f2] & H2' & H)%bind_Some).
  destruct (activate_effect _ _ _ _ _ H1' Hwf) as [Hd1 Hst]. apply activate_mapped_dims_wf in H1' as [Hwf1 Hi1]; [|done].
  destruct (activate_effect _ _ _ _ _ H2' Hwf1) as [Hd2 Hld]. apply activate_mapped_dims_wf in H2' as [Hwf2 Hi2]; [|done].
  apply bind_Some in H as (mds & _ & (bm & Hbm & H)%bind_Some). apply set_lazy_tmp_wf in Hbm as Hwf3; [|done].
  apply bind_Some in H as (sx & _ & (so & Hso & (f3 & H3' & (f4 & H4' & (f5 & H5' & [= <- <-])%bind_Some)%bind_Some)%bind_Some)%bind_Some).
  destruct (create_lazy_effect _ _ _ _ _ H3' Hwf3) as (Hd3 & Hn3 & x3 & Hx3 & Hg3). apply create_lazy_inst_wf in H3' as Hwf4; [|done].
  destruct (create_lazy_effect _ _ _ _ _ H4' Hwf4) as (Hd4 & Hn4 & x4 & Hx4 & Hg4).
  unfold inst_mut in H5'. apply bind_Some in H5' as (iv & (x & x' & Hx & Hlow & _ & _ & Hg5)%sv_update_spec & [= <-]).
  assert (∀ d, active_dim fn d → active_dim f4 d) as Hact.
  { intros d Hd. apply Hd4, Hd3. change (active_dim f2 d). apply Hd2. left. apply Hd1. by left. }
  split; [by apply Hact|]. split; [by apply Hact|]. intros j k (y & op & Hy & Hop & Hshould).
  unfold inst in Hy. cbn in Hy. rewrite Hg5 in Hy.
  assert (∀ z, inst j f4 = Some z → operands (inst_operator z) !! k = Some op → inst j fn = Some z) as Hold.
  { intros z Hz Hzk. rewrite Hg4 in Hz. case_decide as E4.
    - injection Hz as <-. rewrite Hx4 in Hzk. done.
    - rewrite Hg3 in Hz. case_decide as E3; [|change (inst j f2 = Some z) in Hz; unfold inst in *; congruence].
      injection Hz as <-. rewrite Hx3 in Hzk. unfold operand_new_inst in Hso. cbn [mbind option_bind] in Hso.
      apply bind_Some in Hso as (ty & _ & [= <-]). destruct k as [|k]; [|done]. injection Hzk as <-.
      by rewrite (should_lower_fresh lhs rhs fn true) in Hshould. }
  case_decide as Ej.
  - subst j. injection Hy as <-. unfold inst_lower_dim_map in Hlow. apply bind_Some in Hlow as (o & Ho' & Hlow).
    destruct o as [| |src' t' m' sc'| | | | | |]; try done. injection Hlow as <-. cbn [inst_operator with_operator] in Hop.
    rewrite lookup_operands_mut in Hop. apply fmap_Some in Hop as (op0 & Hop0 & ->).
    destruct (k =? pos) eqn:Ek.
    + rewrite (should_lower_fresh lhs rhs f1 false) in Hshould; [done|by apply Hd1; left|by apply Hd1; left|done].
    + apply Nat.eqb_neq in Ek. split; [|congruence]. exists x, op0. split; [|done]. by apply Hold.
  - split; [|congruence]. exists y, op. split; [|done]. by apply Hold.
Qed.

(** ** Lowering all the operands between two dimensions *)

Lemma elem_dim_maps_to_lower lhs rhs (x : Instruction LoweringMap) k :
  k ∈ dim_maps_to_lower lhs rhs x ↔ ∃ op, operands (inst_operator x) !! k = Some op ∧ should_lower_map lhs rhs op = true.
Proof.
  unfold dim_maps_to_lower. rewrite list_elem_of_fmap. split.
  - intros ([k' op] & -> & [Hs (i & y & [= <- <-] & Hy)%elem_of_lookup_imap]%list_elem_of_filter).
    exists op. split; [exact Hy|]. by apply Is_true_true.
  - intros (op & Hop & Hs). exists (k, op). split; [done|]. apply list_elem_of_filter. split; [by apply Is_true_true|].
    by apply elem_of_lookup_imap_2.
Qed.

Lemma inst_id_eq {L : Type} (fn : Function L) i x : fn_wf fn → inst i fn = Some x → inst_id x = i.
Proof. intros [Hv _] Hx. destruct (vo_ids _ Hv) as [Hi _]. apply (Hi i (inst_sum x)). simpl. by rewrite Hx. Qed.

Lemma elem_to_lower `{KeyRemoval} lhs rhs (fn : Function LoweringMap) i k : fn_wf fn →
  to_lower_at lhs rhs fn i k → (i, k) ∈ to_lower lhs rhs fn.
Proof.
  intros Hwf (x & op & Hx & Hop & Hs). unfold to_lower. apply list_elem_of_bind. exists x. split.
  - rewrite (inst_id_eq fn i x) by done. apply list_elem_of_fmap. exists k. split; [done|].
    apply elem_dim_maps_to_lower. by exists op.
  - apply sv_elem_of_iter. by exists i.
Qed.

Lemma lower_all_effect `{KeyRemoval} lhs rhs l new_objs actions (fn : Function LoweringMap) r fn' :
  lower_all l new_objs actions fn = Some (ROk r, fn') → fn_wf fn → active_dim fn lhs → active_dim fn rhs →
  (∀ j k, to_lower_at lhs rhs fn j k → (j, k) ∈ l) → fn_wf fn' ∧ ∀ j k, ¬ to_lower_at lhs rhs fn' j k.
Proof.
  revert new_objs actions fn. induction l as [|[i pos] l IH]; intros new_objs actions fn Hl Hwf Hlhs Hrhs Hall; cbn [lower_all] in Hl.
  { injection Hl as _ <-. split; [done|]. intros j k Hlow. by apply Hall, elem_of_nil in Hlow. }
  apply bind_Some in Hl as ([[[new o]|e] f1] & H1 & Hl); [|discriminate Hl].
  unfold space_lower_dim_map in H1. apply bind_Some in H1 as ([[low|e] f2] & Hf & H1); [|discriminate H1].
  assert (f2 = f1) as ->.
  { apply bind_Some in H1 as (mds & _ & (x & _ & (op & _ & (oa & _ & (no & _ & [= _ _ ->])%bind_Some)%bind_Some)%bind_Some)%bind_Some). done. }
  destruct (function_lower_effect lhs rhs _ _ _ _ _ Hf Hwf Hlhs Hrhs) as (Hl1 & Hr1 & Hlow).
  eapply IH; [exact Hl|by eapply function_lower_dim_map_wf|done|done|].
  intros j k [Hj Hne]%Hlow. apply Hall, elem_of_cons in Hj as [Heq|]; [by destruct Hne|done].
Qed.

(** ** Properties *)

(** C18: The invariants of an instruction say its dependences, no more and no less.  In a
    function whose operands refer to its objects they are found, and an assignment of the
    choices is among those they leave exactly when each value that the instruction reads
    is computed before it, in loops that are fused with its own or come before them, is
    carried by the registers that the scope of the operand allows, and is read once the
    reductions it depends on are over. *)
Theorem inst_invariants_exact `{KeyRemoval} (fn : Function LoweringMap) (w : Assignment) (i : Instruction LoweringMap) :
  mappings_valid w →
  (∀ op, op ∈ operands (inst_operator i) → operand_refs fn (length (induction_vars (body fn))) op) →
  ∃ actions, inst_invariants fn i = Some actions ∧
    (Forall (allowed w) actions ↔
      ∀ op, op ∈ operands (inst_operator i) → operand_deps fn w op (SInst (inst_id i))).
Proof.
  intros Hw Hrefs.
  assert (is_Some (mapM (λ op, operand_invariants fn op (SInst (inst_id i))) (operands (inst_operator i)))) as [l Hl].
  { apply mapM_is_Some, Forall_forall. intros op Hop. by apply (invariants_total fn _ op (Hrefs op Hop)). }
  exists (concat l). unfold inst_invariants. rewrite Hl. split; [done|].
  rewrite (allowed_mapM w _ _ _ Hl). destruct (mapM_elem _ _ _ Hl) as [Hex _]. split.
  - intros Hall op Hop. destruct (Hex op Hop) as (a & Ha & _). rewrite <-(invariants_exact fn w Hw _ _ _ a Ha). by eapply Hall.
  - intros Hall op a Hop Ha. rewrite (invariants_exact fn w Hw _ _ _ a Ha). by apply Hall.
Qed.

(** The loops of the example are fused and unrolled. *)
Definition fused_assignment : Assignment :=
  mkAssignment (λ l r, match l, r with SDim _, SDim _ => "MERGED" | _, _ => "BEFORE" end)%string
    (λ _ _, "UNROLL_MAP"%string) (λ _, "LOOP"%string) (λ _, "GLOBAL"%string).

Lemma inst_invariants_exact_witness :
  ∃ f0 x actions, @freeze debug_profile example_4 = Some f0 ∧ inst 1 f0 = Some x ∧
    @inst_invariants swap_removal f0 x = Some actions ∧ length actions = 3 ∧
    Forall (@allowed swap_removal fused_assignment) actions.
Proof.
  destruct (@freeze debug_profile example_4) as [f0|] eqn:Ef; [|vm_compute in Ef; done].
  destruct (inst 1 f0) as [x|] eqn:Ex; [|vm_compute in Ef; injection Ef as <-; vm_compute in Ex; discriminate Ex].
  assert (∃ t lm y d, operands (inst_operator x) = [OInst 0 t [(1, 2)] (Global lm)] ∧ inst 0 f0 = Some y ∧
    operands (inst_operator y) = [OInt 3 32] ∧ dim 1 f0 = Some d ∧ is_Some (possible_sizes d)) as (t & lm & y & d & Hx & Hy & Hyo & Hd & Hs).
  { vm_compute in Ef. injection Ef as <-. vm_compute in Ex. injection Ex as <-. do 4 eexists. split_and!; [reflexivity..|by eexists]. }
  assert (sources_resolve f0 y) as Hres.
  { intros op src Hop Hsrc. rewrite Hyo in Hop. apply list_elem_of_singleton in Hop as ->. done. }
  destruct (@inst_invariants_exact swap_removal f0 fused_assignment x) as (actions & Ha & Hiff).
  - intros l r. apply (bool_decide_unpack _). vm_compute. done.
  - intros op Hop. rewrite Hx in Hop. apply list_elem_of_singleton in Hop as ->. eapply refs_inst; [exact Hy|exact Hres|].
    intros l r [= -> ->]%list_elem_of_singleton. by exists d.
  - exists f0, x, actions. split_and!; [done..| |].
    + vm_compute in Ef. injection Ef as <-. vm_compute in Ex. injection Ex as <-. vm_compute in Ha. injection Ha as <-. reflexivity.
    + apply Hiff. intros op Hop. rewrite Hx in Hop. apply list_elem_of_singleton in Hop as ->. apply deps_inst; [| |done].
      * intros l r [= -> ->]%list_elem_of_singleton. split; [by right|]. by split.
      * intros y' op src z k Hy' Hop Hsrc. rewrite Hy in Hy'. injection Hy' as <-. rewrite Hyo in Hop.
        apply list_elem_of_singleton in Hop as ->. discriminate Hsrc.
Defined.

(** C17: When two dimensions turn out not to be mapped, every operand whose map has the
    pair, in either order, is lowered: in the function that the trigger leaves no operand
    needs them mapped anymore, the instructions that the lowering made included, and its
    cross references are exact. *)
Theorem dim_not_mapped_lowers_all `{KeyRemoval} (lhs rhs : DimId) (fn fn' : Function LoweringMap) (objs : NewObjs) (actions : list SpaceAction) :
  fn_wf fn → active_dim fn lhs → active_dim fn rhs →
  dim_not_mapped lhs rhs fn = Some (ROk (objs, actions), fn') →
  fn_wf fn' ∧ ∀ i x, inst i fn' = Some x → dim_maps_to_lower lhs rhs x = [].
Proof.
  intros Hwf Hl Hr Hn. destruct (lower_all_effect lhs rhs _ _ _ _ _ _ Hn Hwf Hl Hr) as [Hwf' Hno].
  { intros j k. by apply elem_to_lower. }
  split; [done|]. intros i x Hx. apply elem_of_nil_inv. intros k (op & Hop & Hs)%elem_dim_maps_to_lower.
  apply (Hno i k). by exists x, op.
Qed.

Lemma dim_not_mapped_lowers_all_witness :
  ∃ f0 f' objs actions, @freeze debug_profile example_4 = Some f0 ∧
    @dim_not_mapped swap_removal 1 2 f0 = Some (ROk (objs, actions), f') ∧
    to_lower 1 2 f0 = [(1, 0)] ∧ length actions = 6 ∧
    ∀ i x, inst i f' = Some x → dim_maps_to_lower 1 2 x = [].
Proof.
  destruct (@freeze debug_profile example_4) as [f0|] eqn:Ef; [|vm_compute in Ef; done].
  destruct (@dim_not_mapped swap_removal 1 2 f0) as [[[[o a]|[]] f']|] eqn:El;
    try (vm_compute in Ef; injection Ef as <-; vm_compute in El; discriminate El).
  exists f0, f', o, a. assert (fn_wf f0) as Hwf.
  { eapply freeze_wf; [exact Ef|]. by eapply reachable_wf, example_reachable. }
  assert (active_dim f0 1 ∧ active_dim f0 2 ∧ to_lower 1 2 f0 = [(1, 0)]) as (H1 & H2 & H3).
  { clear El Hwf. vm_compute in Ef. injection Ef as <-. split_and!; [eexists; vm_compute; reflexivity..|vm_compute; reflexivity]. }
  split; [done|]. split; [done|]. split; [done|]. split.
  - vm_compute in Ef; injection Ef as <-. vm_compute in El. injection El as <- <- <-. reflexivity.
  - apply (@dim_not_mapped_lowers_all swap_removal 1 2 f0 f' o a Hwf H1 H2 El).
Defined.
